(* ===== verification/_CoqProject ===== *)
-Q . S2P
Prelude.v
Status.v
Slice.v
Encoding.v
Crc32.v
InternalKey.v
SkipList.v
Run.v
MemTable.v
Env.v
Wal.v
Block.v
Options.v
SSTable.v
Version.v
Merge.v
Compaction.v
Db.v
DbInv.v
DbRefine.v
DbRecover.v
DbIter.v
Types.v
Schema.v
Row.v
BindContext.v
Expr.v
SqlAst.v
Text.v
SqlLexer.v
SqlParser.v
SqlTotal.v
SqlGrammar.v
SqlText.v
Kv.v
Mvcc.v
Catalog.v
Database.v
Txn.v
Locks.v
DbSync.v
SnapIso.v
TxnRep.v
TxnRefine.v
TxnIsolation.v
TxnCrash.v
TxnScan.v
Executor.v
ExecSort.v
ExecSpec.v
ExecAgg.v
SqlSession.v
SqlQuery.v
SqlTxn.v
Server.v
QueryFormat.v
Protocol.v
SqlServer.v
Listener.v
Client.v
CliMain.v
Shell.v
Examples.v
