(* ===== verification/Prelude.v ===== *)
(** * lsm-kv: a verification of the storage engine, its relational layer and SQL

    ** The program

    lsm-kv is a log-structured key-value engine (src/src, src/include/lsmkv) with a
    relational layer of multi-version transactions on top of it (src/src/reldb,
    src/include/reldb), an SQL front end and two servers.

    A write goes to the write-ahead log and to a memtable (a skip list); a full
    memtable becomes immutable and is flushed to a table file (SSTable) of level 0;
    level-0 tables are compacted with overlapping tables of level 1.  The MANIFEST
    records which tables and which log are live.  Reads look at the memtables, then
    at the tables, newest first; iterators merge all of them.  The relational layer
    stores each row as a chain of versions linked from a head key, a registry of
    transactions and three counters in the engine; transactions read a snapshot and
    install provisional versions, which commit stamps with a timestamp.  A SQL session
    parses a script, plans each statement as a tree of operators that pull rows, and
    runs it in the open transaction or in one of its own; a server keeps one session
    per connection and exchanges lines of text with its client.

    ** Conventions

    A C++ function that can fail returns a [Res]: a value, a [Status], or [Stuck]
    where the C++ has no defined behaviour (an out-of-range read, a failed
    assertion), where a thread waits for itself, or where a loop would run out of
    fuel.  Stateful code is a state
    monad: [SM S A] for code on a component's own state [S] and on the file system,
    [KM S A] for code of the relational layer, a program over the key-value interface
    ([Kv]).  Theorems that say what code returns therefore also say that it is not
    stuck.  Machine integers are [Z] with the wrap-around written out ([u8], [u32],
    [u64]); bytes are [Byte.byte]; pointers into buffers are offsets or suffixes.

    A public operation that holds a mutex from its first access of shared state to
    its return is one step; concurrency is the order of such steps.  In Db a thread
    that waits for the background thread runs its round ([BackgroundRound]) in place of
    waiting; DbSync, Locks and Listener take the steps of threads apart.  Get of the
    engine releases the mutex before it reads: it is its two parts ([read_view],
    [Get_from]) one after the other, and so one step in the refinement theorems.  If
    other steps come between the two, the answer is that of the view as long as its
    table files are there ([late_read]); a compaction can remove them, and the read
    then fails ([compaction_fails_reader]).  The iterator of a scan keeps the locks of
    the memtables until it is destroyed: an operator has its scan or not
    ([holds_scan]), and a session that would finish a transaction of its own while
    the plan still has one is [Stuck] ([with_auto_txn]).

    ** Files

    - Prelude: bytes, machine words, shared lemmas and tactics (this file).
    - Status: status.h, status.cpp; the monads [Res] and [SM].
    - Slice: slice.h; [memcmp] is the lexicographic order.
    - Encoding: encoding.cpp; the class [Codec] of encodings that are read back.
    - Crc32: crc32.cpp; InternalKey: internal_key.cpp.
    - SkipList: skiplist.h, nodes in an arena with forward pointers per level.
    - Run: sorted runs of entries, the abstract content of memtables and tables.
    - MemTable: memtable.cpp; Env: env.cpp, a world of files in which any call may
      fail; Wal: wal.cpp; Block: block.cpp; Options: options.h; SSTable: sstable.cpp.
    - Version: version.cpp; Merge and Compaction: compaction.cpp.
    - Db: db.cpp and db_impl.h; DbInv: its invariant; DbRefine: it implements a map;
      DbRecover: crashes and restarts; DbIter: db_iter.cpp.
    - Types, Schema, Row: types.cpp, schema.cpp, row.cpp.
    - BindContext, Expr, SqlAst: bind_context.cpp, expr.cpp, sql_ast.cpp.
    - Text: string_util.h and decimal numbers; SqlLexer, SqlParser: sql_parser.cpp;
      SqlTotal: the parser returns; SqlGrammar: the grammar it decides; SqlText:
      printing and reading back.
    - Kv: the interface between the relational layer and the engine ([lsmkv::DB]).
      [KvStore] and [KvStoreLaws] are the class of stores and of what they promise;
      the engine is an instance ([DBImpl_store_laws]), so the relational layer is
      verified on finite maps ([exec]) and its theorems hold on the engine
      ([run_kv_refines]).
    - Mvcc, Catalog, Database, Txn: mvcc.cpp, catalog.cpp, database.cpp, txn.cpp.
    - Locks: the order in which the calls of database.cpp, txn.cpp and db.cpp and the
      background thread take the locks, one by one, with the wait for a flush.
    - DbSync: the condition variable of db.cpp: writers, the background thread and the
      destructor as threads that interleave at the mutex.
    - SnapIso: the abstract machine of snapshot isolation.
    - TxnRep: how a store represents the version chain of a row; TxnRefine: the
      relational layer implements the abstract machine; TxnIsolation: what clients
      can rely on; TxnCrash: crashes and recovery; TxnScan: table scans.
    - Executor: executor.cpp; ExecSort: ORDER BY; ExecSpec: what a plan means as a
      function on lists of rows ([denote]) and that the operators deliver it;
      ExecAgg: grouping and aggregates.
    - SqlSession: sql_session.cpp; SqlQuery: SELECT in a transaction; SqlTxn: INSERT,
      UPDATE, DELETE and SELECT as transactions of their own.
    - Server: server/server.cpp; QueryFormat: query_format.cpp; Protocol:
      sql_server/protocol.cpp; SqlServer: sql_server/sql_server.cpp; Listener: Start,
      Serve, Stop and the destructors of both servers, and their main functions.
    - Client and CliMain: examples/reldb_sql_cli.cpp; Shell:
      examples/reldb_sql_shell.cpp; Examples: the three example programs, run.

    ** What is proved

    - The engine: whatever is written, read, rotated, flushed and compacted, and
      whatever I/O calls fail, it answers like a finite map updated by the successful
      writes (db_refines_map); iterators deliver exactly the live pairs in key order
      (db_iterator_scan); after a crash before the first log of a new database is
      rotated, a prefix of the writes that contains every synced one is recovered, or
      reopening fails with Corruption if an unsynced record was torn (crash_recovery).
      Three closed theorems of DbRecover show where the code falls short of its
      purpose: writes recovered by one restart are lost by the next, a crash between a
      log rotation and its flush loses writes, and file numbers are reused.
    - Its parts: the skip list implements a sorted list; memtable and table reads
      return the newest visible entry; blocks, tables, write batches, version edits
      and the MANIFEST are read back as written; the log returns a prefix after a
      crash and reports damage; the table-driven CRC equals the bit-serial one and
      detects bursts; compaction keeps exactly the newest version of each key.
    - The interface: programs behave on the engine as on a map (programs_on_engine).
    - The relational layer: any interleaving of transactions is answered as by the
      abstract machine of snapshot isolation, on a map and on the engine
      (snapshot_isolation, snapshot_isolation_on_engine), hence repeatable reads,
      reads of own writes, and no lost updates; a crash during a commit leaves it done
      or undone as a whole (commit_is_atomic), with one exception that is a defect of
      the code (commit_window_defect); committed data survive a restart.  These
      crash theorems speak of a store that keeps what was written to it.
      A scan shows exactly the readable rows of its range of encoded keys
      (scan_reads_snapshot), which is not a range of numbers (range_scan_misses_rows).
    - Encodings of rows, schemas, registry entries, version records and keys.
    - Locking: threads that make any calls but scans, with the background thread, never
      deadlock and end within a bound (point_accesses_progress); a scan and a write
      can stop each other, and a write under its own scan itself
      (scans_can_deadlock).  No writer waits for
      a flush for ever (writers_are_woken); closing the engine ends unless its flush
      keeps failing (close_ends_unless_flush_fails).
    - SQL text: the parser returns on every text (parser_terminates), decides its
      expression grammar (expression_grammar) and reads back every printed expression
      (expression_text_roundtrip); a stray byte silently ends a script
      (stray_byte_ends_script).
    - SQL execution: expressions have the three-valued meaning (expr_semantics); ORDER BY
      is a stable sort in the documented order, if no descending key is NULL
      (order_by_sorts, nulls_first_in_desc); aggregates equal their definition over the
      integers or report overflow (hash_aggregate_correct); a SELECT answers what its
      plan means over the rows the transaction can read (select_is_relational,
      where_selects); rows fit their schema (stored_rows_fit_schema); INSERT, UPDATE and
      DELETE outside of a transaction are transactions of their own, all or nothing
      (insert_is_transaction, update_is_transaction, delete_is_transaction; the last
      two for conditions that are well typed and not planned as a range scan of the
      primary key, which misses rows); SELECT outside of one is a read-only transaction
      if no LIMIT cuts a scan short (select_is_transaction), and does not return if one
      does (limit_leaves_scan).
    - The servers: the key-value server is a dictionary over the wire, on the engine,
      for values that do not begin with a blank (server_is_dictionary,
      leading_blanks_are_lost); replies of the SQL server are decoded as encoded if
      their labels and error texts are lines (replies_roundtrip); statements may span lines and are bounded
      (statement_over_lines, statement_framing); a lost connection rolls its
      transaction back (disconnect_aborts); the limit on clients holds in every
      interleaving (client_limit_holds).  Start is all or nothing
      (start_all_or_nothing); from there to the destructor no socket is leaked or
      closed twice and no handler works on a destroyed server (server_life_safe), unless
      the waits run out (idle_client_outlives_server).
    - The programs at the terminal: the network client and the SQL server
      understand each other: a script is cut into its statements, each is run once and
      its answer printed (batch_end_to_end), as an aligned table (result_is_printed), if
      the session answers each with labels and texts that are lines; a label with a newline in it breaks the frame (label_breaks_frame).  The shell runs
      what is typed once, statement by statement, if the session answers
      (shell_runs_statements).  The example
      programs end as they announce (lsmkv_example_runs, reldb_example_runs,
      sql_example_runs).

    ** Bounds and fuel

    Theorems about the engine ask for room: file numbers, sequence numbers and table
    sizes must not reach the widths of their fields; [write_cost] and [kv_room]
    bound what operations take.  Theorems about transactions ask for fewer than 2^32
    operations and for rows and names whose encodings fit their 32-bit length fields.
    Loops whose recursion is not structural take fuel computed from the data (the
    version id for a walk along a chain, whose ids decrease; the number of entries
    for a merge; two more than the bytes of a text for the parser; one more than the
    bytes of its stream for a connection), and the theorems show that it suffices.
    The operators of a query take a fuel argument; the theorems hold for every fuel
    from some bound on.
    Loops around calls of the operating system (SendAll, the shell) take the list of
    what the calls return and are stuck if it ends before the loop does.  A sleeping
    writer is woken within five steps of the background thread, and closing takes at
    most 45 steps of the destructor and that thread.  In Locks the reads and writes of
    a call, the waits of a write and the outcome of flushes are parameters of the
    calls, and a run has at most [work] steps, a bound computed from them.

    ** Not modelled

    The calls of the operating system and of the line editing library, which are
    parameters where they decide anything: a connection is its stream of bytes, a
    signal an event.  The test hooks; the text of log messages and source locations in
    statuses; memory allocation. *)
From stdpp Require Export base tactics list gmap numbers option strings pretty sorting.
From Stdlib Require Export Sorted.
From Stdlib Require Export ZArith Lia.
From Stdlib Require Strings.Byte Strings.String.
From Stdlib Require Import Bool.

#[global] Open Scope Z_scope.

(** * Bytes and machine integers *)

Abbreviation byte := Byte.byte.
(** A [std::string] and a [Slice] (a view of one) are both a byte sequence. *)
Abbreviation bytes := (list Byte.byte).

#[global] Instance byte_eq_decision : EqDecision byte := Byte.byte_eq_dec.

(** [bz b] is [static_cast<unsigned char>(b)]; [zb z] is [static_cast<char>(z)]
    (the low eight bits of [z]). *)
Definition bz (b : byte) : Z := Z.of_N (Byte.to_N b).
Definition zb (z : Z) : byte :=
  match Byte.of_N (Z.to_N (z mod 256)) with
  | Some b => b
  | None => Byte.x00
  end.

(** Wrap-around of the unsigned machine widths. *)
Definition u8 (z : Z) : Z := z mod 2 ^ 8.
Definition u32 (z : Z) : Z := z mod 2 ^ 32.
Definition u64 (z : Z) : Z := z mod 2 ^ 64.

#[global] Arguments bz : simpl never.
#[global] Arguments zb : simpl never.
#[global] Arguments u8 : simpl never.
#[global] Arguments u32 : simpl never.
#[global] Arguments u64 : simpl never.

(** Words that do not wrap. *)
Lemma u8_small z : 0 <= z < 2 ^ 8 -> u8 z = z.
Proof. apply Z.mod_small. Qed.
Lemma u32_small z : 0 <= z < 2 ^ 32 -> u32 z = z.
Proof. apply Z.mod_small. Qed.
Lemma u64_small z : 0 <= z < 2 ^ 64 -> u64 z = z.
Proof. apply Z.mod_small. Qed.
Create HintDb words.
#[export] Hint Rewrite u8_small u32_small u64_small using lia : words.
(** Drop the wrap-around where the bounds in the context rule it out. *)
Ltac no_wrap := autorewrite with words.

(** String literals of the source. *)
Definition lit (s : String.string) : bytes := String.list_byte_of_string s.
Arguments lit s%_string_scope : simpl never.

Lemma bz_range b : 0 <= bz b < 256.
Proof. unfold bz. pose proof (Byte.to_N_bounded b). lia. Qed.

Lemma zb_bz b : zb (bz b) = b.
Proof.
  unfold zb. rewrite Z.mod_small by apply bz_range.
  unfold bz. rewrite N2Z.id, Byte.of_to_N. done.
Qed.

Lemma bz_zb z : bz (zb z) = z mod 256.
Proof.
  unfold zb. pose proof (Z.mod_pos_bound z 256 ltac:(lia)).
  pose proof (Byte.to_of_N_option_map (Z.to_N (z mod 256))) as H1.
  destruct (Byte.of_N (Z.to_N (z mod 256))) as [b|] eqn:E; simpl in *.
  - apply Byte.to_of_N in E. unfold bz. rewrite E. lia.
  - destruct (N.leb_spec (Z.to_N (z mod 256)) 255); [done|lia].
Qed.

Lemma bz_inj a b : bz a = bz b -> a = b.
Proof. intros H. by rewrite <- (zb_bz a), <- (zb_bz b), H. Qed.

#[global] Instance bz_Inj : Inj (=) (=) bz := bz_inj.

Lemma byte_N_roundtrip b : zb (Z.of_N (Z.to_N (bz b))) = b.
Proof. pose proof (bz_range b). rewrite Z2N.id by lia. apply zb_bz. Qed.

#[global] Instance byte_countable : Countable byte :=
  inj_countable' (fun b => Z.to_N (bz b)) (fun n => zb (Z.of_N n)) byte_N_roundtrip.

Lemma zb_mod z : zb (z mod 256) = zb z.
Proof. apply bz_inj. rewrite !bz_zb, Z.mod_mod; lia. Qed.

Lemma bz_zb_small z : 0 <= z < 256 -> bz (zb z) = z.
Proof. intros. rewrite bz_zb. apply Z.mod_small; lia. Qed.

(** * Little-endian words: [memcpy] between an unsigned integer and [char[n]] *)

Fixpoint le_bytes (n : nat) (v : Z) : bytes :=
  match n with
  | O => []
  | S n => zb v :: le_bytes n (Z.shiftr v 8)
  end.

Fixpoint le_value (l : bytes) : Z :=
  match l with
  | [] => 0
  | b :: l => Z.lor (bz b) (Z.shiftl (le_value l) 8)
  end.

Lemma length_le_bytes n v : length (le_bytes n v) = n.
Proof. revert v; induction n as [|n IH]; intros v; simpl; [done|by rewrite IH]. Qed.

Lemma take_le_bytes n v l : take n (le_bytes n v ++ l) = le_bytes n v.
Proof. rewrite <- (length_le_bytes n v) at 1. apply take_app_length. Qed.

Lemma drop_le_bytes n v l : drop n (le_bytes n v ++ l) = l.
Proof. rewrite <- (length_le_bytes n v) at 1. apply drop_app_length. Qed.

Lemma drop_le_bytes2 n m v v' l : drop (n + m) (le_bytes n v ++ le_bytes m v' ++ l) = l.
Proof. by rewrite <- drop_drop, !drop_le_bytes. Qed.

Lemma take_le_bytes2 n m v v' l :
  take (n + m) (le_bytes n v ++ le_bytes m v' ++ l) = le_bytes n v ++ le_bytes m v'.
Proof.
  rewrite app_assoc. rewrite take_app_length'; [done|]. by rewrite length_app, !length_le_bytes.
Qed.

(** Disjoint bits: [lor] is addition. *)
Lemma lor_add_shift a b n : 0 <= n -> 0 <= a < 2 ^ n -> Z.lor a (Z.shiftl b n) = a + b * 2 ^ n.
Proof.
  intros Hn Ha. rewrite <- Z.shiftl_mul_pow2 by lia. symmetry.
  rewrite Z.add_nocarry_lxor, Z.lxor_lor; [done| |];
    apply Z.bits_inj'; intros i Hi; rewrite Z.land_spec, Z.bits_0.
  all: destruct (Z.ltb_spec i n).
  all: try (rewrite (Z.shiftl_spec_low b) by lia; apply andb_false_r).
  all: replace (Z.testbit a i) with false; [done|].
  all: symmetry; destruct (decide (a = 0)) as [->|]; [apply Z.bits_0|].
  all: apply Z.bits_above_log2; [lia|].
  all: apply Z.lt_le_trans with n; [|lia]; apply Z.log2_lt_pow2; lia.
Qed.

Lemma lor_range W a b : 0 <= W -> 0 <= a < 2 ^ W -> 0 <= b < 2 ^ W -> 0 <= Z.lor a b < 2 ^ W.
Proof.
  intros HW Ha Hb. replace (Z.lor a b) with (Z.lor a b mod 2 ^ W).
  - apply Z.mod_pos_bound. lia.
  - rewrite <- Z.land_ones, Z.land_lor_distr_l, !Z.land_ones, !Z.mod_small by lia. done.
Qed.

Lemma le_value_cons b l : le_value (b :: l) = bz b + le_value l * 256.
Proof. simpl. rewrite (lor_add_shift _ _ 8) by (try lia; apply bz_range). lia. Qed.

Lemma le_bytes_S n v : le_bytes (S n) v = zb v :: le_bytes n (v / 256).
Proof. simpl. rewrite Z.shiftr_div_pow2 by lia. done. Qed.

Lemma le_value_range l : 0 <= le_value l < 256 ^ Z.of_nat (length l).
Proof.
  induction l as [|b l IH]; [simpl; lia|]. rewrite le_value_cons.
  pose proof (bz_range b). cbn [length].
  rewrite Nat2Z.inj_succ, Z.pow_succ_r by lia. lia.
Qed.

Lemma le_value_bytes n v : le_value (le_bytes n v) = v mod 256 ^ Z.of_nat n.
Proof.
  revert v; induction n as [|n IH]; intros v; [by rewrite Z.mod_1_r|].
  rewrite le_bytes_S, le_value_cons, IH, bz_zb.
  rewrite Nat2Z.inj_succ, Z.pow_succ_r by lia.
  rewrite Z.rem_mul_r by lia. lia.
Qed.

Lemma le_bytes_mod n v : le_bytes n (v mod 256 ^ Z.of_nat n) = le_bytes n v.
Proof.
  revert v; induction n as [|n IH]; intros v; [done|]. rewrite !le_bytes_S.
  rewrite Nat2Z.inj_succ, Z.pow_succ_r by lia. f_equal.
  - rewrite <- zb_mod, Z.rem_mul_r by lia. rewrite Z.mul_comm, Z.mod_add, Z.mod_mod by lia.
    apply zb_mod.
  - rewrite <- (IH (v / 256)). f_equal. rewrite Z.rem_mul_r by lia.
    rewrite Z.mul_comm, Z.div_add, Z.div_small by (try apply Z.mod_pos_bound; lia). lia.
Qed.

Lemma le_value_bytes_small n v :
  0 <= v < 256 ^ Z.of_nat n -> le_value (le_bytes n v) = v.
Proof. intros. rewrite le_value_bytes. apply Z.mod_small; lia. Qed.

Lemma le_bytes_value l : le_bytes (length l) (le_value l) = l.
Proof.
  induction l as [|b l IH]; [done|]. cbn [length].
  rewrite le_bytes_S, le_value_cons. pose proof (bz_range b).
  rewrite Z.div_add, Z.div_small, Z.add_0_l, IH by lia. f_equal.
  rewrite <- zb_mod, Z.mod_add, Z.mod_small by lia. apply zb_bz.
Qed.

(** * Orders given by a three-way comparison *)

(** [OrdOn P cmp]: on the elements satisfying [P], [cmp] is a total preorder
    given memcmp-style.  The skip list, the blocks and the merge are correct
    for every such comparator. *)
Class OrdOn {A : Type} (P : A -> Prop) (cmp : A -> A -> comparison) : Prop := {
  ord_sym : forall x y, P x -> P y -> cmp y x = CompOpp (cmp x y);
  ord_trans : forall x y z, P x -> P y -> P z ->
    cmp x y <> Gt -> cmp y z <> Gt -> cmp x z <> Gt
}.

Section OrdLemmas.
Context {A : Type} (P : A -> Prop) {cmp : A -> A -> comparison} `{Hord : !OrdOn P cmp}.

Local Lemma osym x y : P x -> P y -> cmp y x = CompOpp (cmp x y).
Proof. apply (ord_sym (P:=P)). Qed.

Lemma ord_refl x : P x -> cmp x x = Eq.
Proof. intros Hx. pose proof (osym x x Hx Hx). by destruct (cmp x x). Qed.

Lemma ord_gt_lt x y : P x -> P y -> cmp x y = Gt <-> cmp y x = Lt.
Proof. intros Hx Hy. pose proof (osym x y Hx Hy) as ->. by destruct (cmp x y). Qed.

Lemma ord_lt_gt x y : P x -> P y -> cmp x y = Lt <-> cmp y x = Gt.
Proof. intros Hx Hy. pose proof (osym x y Hx Hy) as ->. by destruct (cmp x y). Qed.

Lemma ord_eq_sym x y : P x -> P y -> cmp x y = Eq -> cmp y x = Eq.
Proof. intros Hx Hy E. by rewrite (osym x y Hx Hy), E. Qed.

(** [x < y] is the negation of [y <= x]. *)
Lemma ord_nle_lt x y : P x -> P y -> ~ (cmp y x <> Gt) <-> cmp x y = Lt.
Proof.
  intros Hx Hy. pose proof (osym x y Hx Hy) as ->. destruct (cmp x y); simpl; naive_solver.
Qed.

Lemma ord_lt_le_trans x y z : P x -> P y -> P z ->
  cmp x y = Lt -> cmp y z <> Gt -> cmp x z = Lt.
Proof.
  intros Hx Hy Hz H1 H2. apply ord_nle_lt; [done..|]. intros H3.
  apply (ord_nle_lt x y) in H1; [|done..]. apply H1.
  by apply (ord_trans (P:=P) y z x).
Qed.

Lemma ord_le_lt_trans x y z : P x -> P y -> P z ->
  cmp x y <> Gt -> cmp y z = Lt -> cmp x z = Lt.
Proof.
  intros Hx Hy Hz H1 H2. apply ord_nle_lt; [done..|]. intros H3.
  apply (ord_nle_lt y z) in H2; [|done..]. apply H2.
  by apply (ord_trans (P:=P) z x y).
Qed.

Lemma ord_lt_trans x y z : P x -> P y -> P z ->
  cmp x y = Lt -> cmp y z = Lt -> cmp x z = Lt.
Proof. intros Hx Hy Hz H1 H2. apply (ord_lt_le_trans x y z); congruence. Qed.

Lemma ord_eq_cong_l x y z : P x -> P y -> P z -> cmp x y = Eq -> cmp x z = cmp y z.
Proof.
  intros Hx Hy Hz E. pose proof (ord_eq_sym x y Hx Hy E) as E'.
  destruct (cmp y z) eqn:F.
  - assert (cmp x z <> Gt) as K1 by (apply (ord_trans (P:=P) x y z); congruence).
    assert (cmp z x <> Gt) as K2.
    { apply (ord_trans (P:=P) z y x); try done; [|congruence].
      rewrite (ord_eq_sym y z); done. }
    rewrite (osym x z) in K2 by done. by destruct (cmp x z).
  - apply (ord_le_lt_trans x y z); congruence.
  - apply ord_gt_lt; [done..|]. apply ord_gt_lt in F; [|done..].
    apply (ord_lt_le_trans z y x); congruence.
Qed.

Lemma ord_eq_cong_r x y z : P x -> P y -> P z -> cmp x y = Eq -> cmp z x = cmp z y.
Proof.
  intros Hx Hy Hz E. rewrite (osym x z), (osym y z) by done.
  f_equal. by apply ord_eq_cong_l.
Qed.
End OrdLemmas.
