(* ===== verification/Status.v ===== *)
(** Status (include/lsmkv/status.h, src/status.cpp) and the two small monads the
    rest of the development writes fallible and stateful code in. *)
From S2P Require Import Prelude.

(** * lsmkv::Status *)

Inductive Code : Set :=
  | kOk | kNotFound | kCorruption | kNotSupported | kInvalidArgument | kIOError | kConflict.

#[global] Instance Code_eq_decision : EqDecision Code.
Proof. solve_decision. Defined.

Record Status : Set := mkStatus { code_ : Code; msg_ : bytes }.

#[global] Instance Status_eq_decision : EqDecision Status.
Proof. solve_decision. Defined.

Definition OK : Status := mkStatus kOk [].
Definition NotFound (msg : bytes) : Status := mkStatus kNotFound msg.
Definition Corruption (msg : bytes) : Status := mkStatus kCorruption msg.
Definition NotSupported (msg : bytes) : Status := mkStatus kNotSupported msg.
Definition InvalidArgument (msg : bytes) : Status := mkStatus kInvalidArgument msg.
Definition IOError (msg : bytes) : Status := mkStatus kIOError msg.
Definition Conflict (msg : bytes) : Status := mkStatus kConflict msg.

Definition has_code (c : Code) (s : Status) : bool := bool_decide (code_ s = c).
Definition ok : Status -> bool := has_code kOk.
Definition IsNotFound : Status -> bool := has_code kNotFound.
Definition IsCorruption : Status -> bool := has_code kCorruption.
Definition IsNotSupported : Status -> bool := has_code kNotSupported.
Definition IsInvalidArgument : Status -> bool := has_code kInvalidArgument.
Definition IsIOError : Status -> bool := has_code kIOError.
Definition IsConflict : Status -> bool := has_code kConflict.

(** Status::ToString *)
Definition Status_ToString (s : Status) : bytes :=
  let with_msg (ty : bytes) :=
    if bool_decide (msg_ s = []) then ty else ty ++ lit ": " ++ msg_ s in
  match code_ s with
  | kOk => lit "OK"
  | kNotFound => with_msg (lit "NotFound")
  | kCorruption => with_msg (lit "Corruption")
  | kNotSupported => with_msg (lit "NotSupported")
  | kInvalidArgument => with_msg (lit "InvalidArgument")
  | kIOError => with_msg (lit "IOError")
  | kConflict => with_msg (lit "Conflict")
  end.

(** The rendering tells the success status from every error. *)
Lemma Status_ToString_ok s : Status_ToString s = lit "OK" <-> ok s = true.
Proof.
  unfold ok, has_code. rewrite bool_decide_eq_true.
  destruct s as [c m]; destruct c; simpl; unfold Status_ToString; simpl; try done;
    case_bool_decide; split; intros; done.
Qed.

(** * Results *)

(** What a call delivers: a value, the non-OK status it returns, or [Stuck] when
    the C++ would have undefined behaviour (a read outside an object, a failed
    assert, a null dereference). *)
Inductive Res (A : Type) : Type :=
  | Ret (a : A)
  | Fail (s : Status)
  | Stuck.
Arguments Ret {A} a.
Arguments Fail {A} s.
Arguments Stuck {A}.

#[global] Instance Res_ret : MRet Res := @Ret.
#[global] Instance Res_bind : MBind Res := fun A B f m =>
  match m with Ret a => f a | Fail s => Fail s | Stuck => Stuck end.
Lemma Res_bind_Ret {A B} (r : Res A) (f : A -> Res B) b : (x ← r; f x) = Ret b <-> exists a, r = Ret a /\ f a = Ret b.
Proof. destruct r; cbn; naive_solver. Qed.

(** [if (!call(...)) return s;] *)
Definition res_of_option {A} (s : Status) (o : option A) : Res A :=
  match o with Some a => Ret a | None => Fail s end.

(** A memory access that must be in range. *)
Definition deref {A} (o : option A) : Res A :=
  match o with Some a => Ret a | None => Stuck end.

(** * State and status: the state a failing call leaves behind is kept *)

Definition SM (S A : Type) : Type := S -> Res A * S.

#[global] Instance SM_ret {S} : MRet (SM S) := fun A a s => (Ret a, s).
#[global] Instance SM_bind {S} : MBind (SM S) := fun A B f m s =>
  match m s with
  | (Ret a, s') => f a s'
  | (Fail e, s') => (Fail e, s')
  | (Stuck, s') => (Stuck, s')
  end.

Section SMOps.
Context {S : Type}.
Definition fail {A} (e : Status) : SM S A := fun s => (Fail e, s).
Definition gets {A} (f : S -> A) : SM S A := fun s => (Ret (f s), s).
Definition modify (f : S -> S) : SM S unit := fun s => (Ret tt, f s).
Definition lift {A} (r : Res A) : SM S A := fun s => (r, s).
(** [Status s = call(); ...]: the status is inspected, not propagated. *)
Definition try {A} (m : SM S A) : SM S (Status + A) := fun s =>
  match m s with
  | (Ret a, s') => (Ret (inr a), s')
  | (Fail e, s') => (Ret (inl e), s')
  | (Stuck, s') => (Stuck, s')
  end.
(** [if (c) return STATUS(...);] *)
Definition fail_if (c : bool) (e : Status) : SM S unit := if c then fail e else mret tt.
(** A range-for whose body can return early. *)
Fixpoint for_each {A} (l : list A) (body : A -> SM S unit) : SM S unit :=
  match l with
  | [] => mret tt
  | x :: l => body x ;; for_each l body
  end.
End SMOps.

(** A call on a component of the state. *)
Definition zoom {S T A} (get : S -> T) (put : T -> S -> S) (m : SM T A) : SM S A := fun s =>
  let '(r, t) := m (get s) in (r, put t s).

(** The primitive steps compute when applied to a state. *)
#[global] Arguments fail {S A} e s /.
#[global] Arguments gets {S A} f s /.
#[global] Arguments modify {S} f s /.
#[global] Arguments lift {S A} r s /.
#[global] Arguments try {S A} m s /.
#[global] Arguments SM_ret {S} A a s /.
#[global] Arguments SM_bind {S} A B f m s /.

(** Run a stateful computation symbolically. *)
Ltac sm_run := unfold mbind, mret, SM_bind, SM_ret; cbn.
(** The same, unfolding nothing but the monad. *)
Ltac sm_step :=
  unfold mbind, mret, SM_bind, SM_ret, fail, gets, modify, lift, try;
  cbn beta iota zeta delta [fst snd].

Section SMLemmas.
Context {S : Type}.

Lemma SM_bind_Ret {A B} (m : SM S A) (f : A -> SM S B) s a s' :
  m s = (Ret a, s') -> (x ← m; f x) s = f a s'.
Proof. intros E. unfold mbind, SM_bind. by rewrite E. Qed.

Lemma SM_bind_inv {A B} (m : SM S A) (f : A -> SM S B) s b s'' :
  (x ← m; f x) s = (Ret b, s'') ->
  exists a s', m s = (Ret a, s') /\ f a s' = (Ret b, s'').
Proof.
  unfold mbind, SM_bind. destruct (m s) as [[a|e|] s'] eqn:E; intros H; [|done..].
  by exists a, s'.
Qed.

(** An invariant of the state that every call keeps, whatever its outcome. *)
Definition preserves (I : S -> Prop) {A} (m : SM S A) : Prop := forall s, I s -> I (m s).2.

Lemma preserves_bind I {A B} (m : SM S A) (f : A -> SM S B) :
  preserves I m -> (forall a, preserves I (f a)) -> preserves I (x ← m; f x).
Proof.
  intros Hm Hf s Hs. unfold mbind, SM_bind. specialize (Hm s Hs).
  destruct (m s) as [[a|e|] s']; simpl in *; [by apply Hf|done..].
Qed.

Lemma preserves_ret I {A} (a : A) : preserves I (mret a : SM S A).
Proof. by intros s Hs. Qed.

Lemma preserves_try I {A} (m : SM S A) : preserves I m -> preserves I (try m).
Proof.
  intros Hm s Hs. specialize (Hm s Hs). unfold try. by destruct (m s) as [[a|e|] s'].
Qed.

Lemma preserves_for_each I {A} (l : list A) body :
  (forall x, preserves I (body x)) -> preserves I (for_each l body).
Proof.
  intros Hb. induction l as [|x l IH]; [apply preserves_ret|]. by apply preserves_bind.
Qed.
End SMLemmas.

(** A computation that returns or fails with code [c]; it is never stuck. *)
Definition only_fails {A} (c : Code) (r : Res A) : Prop :=
  match r with Ret _ => True | Fail e => code_ e = c | Stuck => False end.

Lemma only_fails_bind {A B} c (r : Res A) (f : A -> Res B) :
  only_fails c r -> (forall a, r = Ret a -> only_fails c (f a)) -> only_fails c (x ← r; f x).
Proof. destruct r; cbn; auto. Qed.
