(* ===== verification/Slice.v ===== *)
(** Slice (include/lsmkv/slice.h): views of byte sequences and their memcmp
    order.  A slice is modelled by the bytes it views; the order is proved equal
    to the lexicographic order on unsigned bytes, which is what the sorted
    structures rely on. *)
From S2P Require Import Prelude.

(** Slice::remove_prefix, empty, starts_with. *)
Definition remove_prefix (n : nat) (s : bytes) : bytes := drop n s.
Definition empty (s : bytes) : bool := bool_decide (s = []).

(** std::memcmp over the first [n] bytes (both buffers hold at least [n]). *)
Fixpoint memcmp (n : nat) (a b : bytes) : comparison :=
  match n with
  | O => Eq
  | S n =>
    match a, b with
    | x :: a, y :: b =>
      match Z.compare (bz x) (bz y) with
      | Eq => memcmp n a b
      | c => c
      end
    | _, _ => Eq
    end
  end.

(** Slice::compare; only the sign of the C++ [int] is observed. *)
Definition Slice_compare (a b : bytes) : comparison :=
  let min_len := if (length a <? length b)%nat then length a else length b in
  let r := if (0 <? min_len)%nat then memcmp min_len a b else Eq in
  match r with
  | Eq => if (length a <? length b)%nat then Lt
          else if (length b <? length a)%nat then Gt else Eq
  | _ => r
  end.

Definition starts_with (s x : bytes) : bool :=
  (length x <=? length s)%nat &&
  match memcmp (length x) s x with Eq => true | _ => false end.

(** operator==, operator< *)
Definition Slice_eqb (a b : bytes) : bool :=
  (length a =? length b)%nat &&
  ((length a =? 0)%nat || match memcmp (length a) a b with Eq => true | _ => false end).
Definition Slice_ltb (a b : bytes) : bool :=
  match Slice_compare a b with Lt => true | _ => false end.

(** * The lexicographic order *)

Fixpoint lex (a b : bytes) : comparison :=
  match a, b with
  | [], [] => Eq
  | [], _ :: _ => Lt
  | _ :: _, [] => Gt
  | x :: a, y :: b =>
    match Z.compare (bz x) (bz y) with
    | Eq => lex a b
    | c => c
    end
  end.

Lemma Slice_compare_lex a b : Slice_compare a b = lex a b.
Proof.
  unfold Slice_compare. revert b; induction a as [|x a IH]; intros [|y b]; try done.
  specialize (IH b). cbn [length lex].
  replace (S (length a) <? S (length b))%nat with (length a <? length b)%nat by done.
  replace (S (length b) <? S (length a))%nat with (length b <? length a)%nat by done.
  rewrite <- IH; clear IH.
  destruct (length a <? length b)%nat; cbn [memcmp Nat.ltb Nat.leb];
    destruct (Z.compare (bz x) (bz y)); try done.
  - by destruct (length a).
  - by destruct (length b).
Qed.

Lemma lex_refl a : lex a a = Eq.
Proof. induction a; simpl; [done|]. by rewrite Z.compare_refl. Qed.

Lemma lex_eq a b : lex a b = Eq <-> a = b.
Proof.
  split; [|intros ->; apply lex_refl].
  revert b; induction a as [|x a IH]; intros [|y b]; simpl; try done.
  destruct (Z.compare_spec (bz x) (bz y)) as [E| |]; try done.
  apply bz_inj in E as ->. intros ->%IH. done.
Qed.

Lemma lex_antisym a b : lex b a = CompOpp (lex a b).
Proof.
  revert b; induction a as [|x a IH]; intros [|y b]; simpl; try done.
  rewrite (Z.compare_antisym (bz x)). destruct (Z.compare (bz x) (bz y)); simpl; done.
Qed.

Lemma lex_trans a b c : lex a b <> Gt -> lex b c <> Gt -> lex a c <> Gt.
Proof.
  revert b c; induction a as [|x a IH]; intros [|y b] [|z c]; simpl; try done.
  destruct (Z.compare_spec (bz x) (bz y)), (Z.compare_spec (bz y) (bz z)),
    (Z.compare_spec (bz x) (bz z)); try lia; try done; eauto.
Qed.

(** The slice order is a total order. *)
#[global] Instance Slice_compare_ord : OrdOn (fun _ => True) Slice_compare.
Proof.
  split.
  - intros x y _ _. rewrite !Slice_compare_lex. apply lex_antisym.
  - intros x y z _ _ _. rewrite !Slice_compare_lex. apply lex_trans.
Qed.

Lemma Slice_compare_eq a b : Slice_compare a b = Eq <-> a = b.
Proof. rewrite Slice_compare_lex. apply lex_eq. Qed.

Lemma Slice_compare_refl a : Slice_compare a a = Eq.
Proof. by apply Slice_compare_eq. Qed.

Lemma memcmp_prefix n a b :
  (n <= length a)%nat -> (n <= length b)%nat -> memcmp n a b = Eq <-> take n a = take n b.
Proof.
  revert a b; induction n as [|n IH]; intros [|x a] [|y b] Ha Hb; simpl in *; try lia; try done.
  destruct (Z.compare_spec (bz x) (bz y)) as [E|E|E].
  - apply bz_inj in E as ->. rewrite IH by lia. split; [by intros ->|congruence].
  - split; [done|]. intros [= -> _]. lia.
  - split; [done|]. intros [= -> _]. lia.
Qed.

Lemma starts_with_spec s x : starts_with s x = true <-> exists t, s = x ++ t.
Proof.
  unfold starts_with. rewrite andb_true_iff, Nat.leb_le. split.
  - intros [Hl Hm]. destruct (memcmp _ s x) eqn:E; try done.
    apply memcmp_prefix in E; [|lia|lia]. rewrite (firstn_all x) in E.
    exists (drop (length x) s). rewrite <- E at 1. by rewrite take_drop.
  - intros [t ->]. rewrite length_app. split; [lia|].
    replace (memcmp _ _ _) with Eq; [done|]. symmetry.
    apply memcmp_prefix; [rewrite length_app; lia|lia|].
    by rewrite take_app_length, firstn_all.
Qed.

Lemma Slice_eqb_eq a b : Slice_eqb a b = true <-> a = b.
Proof.
  unfold Slice_eqb. rewrite andb_true_iff, orb_true_iff, !Nat.eqb_eq. split.
  - intros [Hl [H0|Hm]].
    + destruct a, b; simpl in *; done.
    + destruct (memcmp _ a b) eqn:E; try done. apply memcmp_prefix in E; [|lia|lia].
      rewrite firstn_all, Hl, firstn_all in E. done.
  - intros ->. split; [done|]. right.
    replace (memcmp _ b b) with Eq; [done|]. symmetry. by apply memcmp_prefix.
Qed.
