(* ===== verification/Encoding.v ===== *)
(** Encoding (include/lsmkv/encoding.h, src/encoding.cpp): fixed-width words,
    LEB128 varints and length-prefixed slices.

    A [Put*] function appends to the destination string and returns it; a
    [Get*] function returns the decoded value with the rest of the input, or
    [None] where the source returns [false].  A [(p, limit)] pointer pair is the
    list of bytes in [[p, limit)).  [memcpy] of an integer is little-endian, as
    the on-disk formats document. *)
From S2P Require Import Prelude Slice.

(** * Fixed-width words *)

Definition PutFixed32 (dst : bytes) (value : Z) : bytes := dst ++ le_bytes 4 value.
Definition PutFixed64 (dst : bytes) (value : Z) : bytes := dst ++ le_bytes 8 value.

Definition DecodeFixed32 (ptr : bytes) : Z := le_value (take 4 ptr).
Definition DecodeFixed64 (ptr : bytes) : Z := le_value (take 8 ptr).

Definition GetFixed32 (input : bytes) : option (Z * bytes) :=
  if (length input <? 4)%nat then None
  else Some (DecodeFixed32 input, remove_prefix 4 input).

Definition GetFixed64 (input : bytes) : option (Z * bytes) :=
  if (length input <? 8)%nat then None
  else Some (DecodeFixed64 input, remove_prefix 8 input).

(** * Varints *)

(** [while (v >= 0x80) { *ptr++ = v | 0x80; v >>= 7; } *ptr++ = v;].  The fuel
    bounds the loop; [varint_loop_enough] shows ten rounds are always enough for
    a 64-bit value. *)
Fixpoint varint_loop (fuel : nat) (v : Z) : bytes :=
  match fuel with
  | O => [zb v]
  | S fuel =>
    if v >=? 128 then zb (Z.lor v 128) :: varint_loop fuel (Z.shiftr v 7)
    else [zb v]
  end.

Definition PutVarint32 (dst : bytes) (v : Z) : bytes := dst ++ varint_loop 10 v.
Definition PutVarint64 (dst : bytes) (v : Z) : bytes := dst ++ varint_loop 10 v.

(** One loop serves both widths: [w] is the wrap-around of the result type, and
    [n] counts the remaining values of [shift] allowed by the loop bound. *)
Fixpoint get_varint_loop (w : Z -> Z) (n : nat) (shift result : Z) (p : bytes)
    : option (Z * bytes) :=
  match n with
  | O => None
  | S n =>
    match p with
    | [] => None
    | c :: p =>
      let byte := bz c in
      if Z.land byte 128 =? 0
      then Some (Z.lor result (w (Z.shiftl byte shift)), p)
      else get_varint_loop w n (shift + 7)
             (Z.lor result (w (Z.shiftl (Z.land byte 127) shift))) p
    end
  end.

(** shift = 0, 7, ..., 28 *)
Definition GetVarint32Ptr (p : bytes) : option (Z * bytes) := get_varint_loop u32 5 0 0 p.
(** shift = 0, 7, ..., 63 *)
Definition GetVarint64Ptr (p : bytes) : option (Z * bytes) := get_varint_loop u64 10 0 0 p.

Definition GetVarint32 (input : bytes) : option (Z * bytes) := GetVarint32Ptr input.
Definition GetVarint64 (input : bytes) : option (Z * bytes) := GetVarint64Ptr input.

Fixpoint varint_length_loop (fuel : nat) (v : Z) (len : Z) : Z :=
  match fuel with
  | O => len
  | S fuel => if v >=? 128 then varint_length_loop fuel (Z.shiftr v 7) (len + 1) else len
  end.
Definition VarintLength (v : Z) : Z := varint_length_loop 10 v 1.

(** * Length-prefixed slices *)

Definition PutLengthPrefixedSlice (dst value : bytes) : bytes :=
  PutVarint32 dst (u32 (Z.of_nat (length value))) ++ value.

Definition GetLengthPrefixedSlice (input : bytes) : option (bytes * bytes) :=
  match GetVarint32 input with
  | None => None
  | Some (len, input) =>
    if Z.of_nat (length input) <? len then None
    else Some (take (Z.to_nat len) input, remove_prefix (Z.to_nat len) input)
  end.

(** * Fixed-width lemmas *)

Lemma DecodeFixed32_range p : 0 <= DecodeFixed32 p < 2 ^ 32.
Proof.
  unfold DecodeFixed32. pose proof (le_value_range (take 4 p)) as H.
  rewrite length_take in H. split; [lia|].
  eapply Z.lt_le_trans; [apply H|]. change (2 ^ 32) with (256 ^ 4).
  apply Z.pow_le_mono_r; lia.
Qed.

Lemma DecodeFixed64_range p : 0 <= DecodeFixed64 p < 2 ^ 64.
Proof.
  unfold DecodeFixed64. pose proof (le_value_range (take 8 p)) as H.
  rewrite length_take in H. split; [lia|].
  eapply Z.lt_le_trans; [apply H|]. change (2 ^ 64) with (256 ^ 8).
  apply Z.pow_le_mono_r; lia.
Qed.

Lemma DecodeFixed32_put v rest : 0 <= v < 2 ^ 32 -> DecodeFixed32 (le_bytes 4 v ++ rest) = v.
Proof.
  intros. unfold DecodeFixed32.
  rewrite take_app_le, take_ge by (rewrite length_le_bytes; lia).
  by apply le_value_bytes_small.
Qed.

Lemma DecodeFixed64_put v rest : 0 <= v < 2 ^ 64 -> DecodeFixed64 (le_bytes 8 v ++ rest) = v.
Proof.
  intros. unfold DecodeFixed64.
  rewrite take_app_le, take_ge by (rewrite length_le_bytes; lia).
  by apply le_value_bytes_small.
Qed.

Lemma GetFixed32_put v rest :
  0 <= v < 2 ^ 32 -> GetFixed32 (le_bytes 4 v ++ rest) = Some (v, rest).
Proof.
  intros. unfold GetFixed32, remove_prefix. rewrite length_app, length_le_bytes.
  rewrite (proj2 (Nat.ltb_ge _ _)) by lia.
  by rewrite DecodeFixed32_put, drop_app_length' by (rewrite ?length_le_bytes; done).
Qed.

Lemma GetFixed64_put v rest :
  0 <= v < 2 ^ 64 -> GetFixed64 (le_bytes 8 v ++ rest) = Some (v, rest).
Proof.
  intros. unfold GetFixed64, remove_prefix. rewrite length_app, length_le_bytes.
  rewrite (proj2 (Nat.ltb_ge _ _)) by lia.
  by rewrite DecodeFixed64_put, drop_app_length' by (rewrite ?length_le_bytes; done).
Qed.

(** * Varint lemmas *)

Lemma lor_128_mod v : Z.land (bz (zb (Z.lor v 128))) 127 = v mod 128.
Proof.
  rewrite bz_zb. change 256 with (2 ^ 8). rewrite <- Z.land_ones by lia.
  rewrite <- Z.land_assoc. change (Z.land (Z.ones 8) 127) with (Z.ones 7).
  rewrite Z.land_lor_distr_l. change (Z.land 128 (Z.ones 7)) with 0.
  rewrite Z.lor_0_r, Z.land_ones by lia. done.
Qed.

Lemma lor_128_cont v : (Z.land (bz (zb (Z.lor v 128))) 128 =? 0) = false.
Proof.
  rewrite bz_zb. change 256 with (2 ^ 8). rewrite <- Z.land_ones by lia.
  rewrite <- Z.land_assoc. change (Z.land (Z.ones 8) 128) with 128.
  rewrite Z.land_lor_distr_l. change (Z.land 128 128) with 128.
  destruct (Z.eqb_spec (Z.lor (Z.land v 128) 128) 0) as [E|]; [|done].
  apply Z.lor_eq_0_iff in E. lia.
Qed.

Lemma land_128_small v : 0 <= v < 128 -> (Z.land v 128 =? 0) = true.
Proof.
  intros. rewrite <- (Z.mod_small v (2 ^ 7)), <- Z.land_ones, <- Z.land_assoc by lia.
  change (Z.land (Z.ones 7) 128) with 0. by rewrite Z.land_0_r.
Qed.

Lemma land_128_range b : 0 <= b < 256 -> (Z.land b 128 =? 0) = true -> b < 128.
Proof.
  intros Hb E. apply Z.eqb_eq in E. destruct (Z.lt_ge_cases b 128) as [|Hge]; [done|].
  assert (Z.testbit b 7 = true) as T.
  { replace b with (2 ^ 7 + (b - 128)) by lia.
    rewrite Z.testbit_eqb, Z.add_comm by lia. replace (b - 128 + 2 ^ 7) with b by lia.
    replace (b / 2 ^ 7) with 1; [done|].
    apply (Z.div_unique_pos b (2 ^ 7) 1 (b - 128)); lia. }
  assert (Z.testbit (Z.land b 128) 7 = false) as F by (rewrite E; apply Z.bits_0).
  rewrite Z.land_spec, T in F. done.
Qed.

Section VarintLoop.
Context (W : Z) (HW : 0 <= W).
Let w (z : Z) := z mod 2 ^ W.

Lemma get_varint_loop_put n fuel shift result v rest :
  0 <= shift -> 0 <= result < 2 ^ shift ->
  0 <= v < 128 ^ Z.of_nat n -> v * 2 ^ shift < 2 ^ W -> (n <= S fuel)%nat -> (0 < n)%nat ->
  get_varint_loop w n shift result (varint_loop fuel v ++ rest)
    = Some (result + v * 2 ^ shift, rest).
Proof.
  revert fuel shift result v; induction n as [|n IH];
    intros fuel shift result v Hs Hr Hv HvW Hf Hn; [lia|].
  assert (Hend : v < 128 -> get_varint_loop w (S n) shift result ([zb v] ++ rest)
                   = Some (result + v * 2 ^ shift, rest)).
  { intros Hlt. cbn [app get_varint_loop].
    rewrite bz_zb_small, land_128_small by lia.
    unfold w. rewrite Z.mod_small by (rewrite Z.shiftl_mul_pow2; lia).
    by rewrite lor_add_shift by lia. }
  rewrite Nat2Z.inj_succ, Z.pow_succ_r in Hv by lia.
  destruct fuel as [|fuel]; cbn [varint_loop].
  { apply Hend. assert (n = 0)%nat as -> by lia. change (128 ^ Z.of_nat 0) with 1 in Hv. lia. }
  destruct (Z.geb_spec v 128); [|apply Hend; lia].
  cbn [app get_varint_loop]. rewrite lor_128_cont, lor_128_mod.
  pose proof (Z.mod_pos_bound v 128 ltac:(lia)).
  pose proof (Z.div_mod v 128 ltac:(lia)) as Hdm.
  assert (0 < 2 ^ shift) by lia.
  assert (v mod 128 * 2 ^ shift <= v * 2 ^ shift) by (apply Z.mul_le_mono_nonneg_r; lia).
  assert (v mod 128 * 2 ^ shift <= 127 * 2 ^ shift) by (apply Z.mul_le_mono_nonneg_r; lia).
  assert (0 <= v mod 128 * 2 ^ shift) by (apply Z.mul_nonneg_nonneg; lia).
  assert (Hsplit : v / 128 * 2 ^ (shift + 7) + v mod 128 * 2 ^ shift = v * 2 ^ shift).
  { rewrite Z.pow_add_r by lia. change (2 ^ 7) with 128. rewrite Hdm at 3. ring. }
  unfold w at 2. rewrite Z.shiftl_mul_pow2, Z.mod_small by lia.
  rewrite <- Z.shiftl_mul_pow2, lor_add_shift by lia.
  rewrite Z.shiftr_div_pow2 by lia. change (2 ^ 7) with 128.
  rewrite IH; [f_equal; f_equal; lia|lia| | |lia|lia|].
  - rewrite Z.pow_add_r by lia. change (2 ^ 7) with 128. lia.
  - split; [apply Z.div_pos; lia|]. apply Z.div_lt_upper_bound; lia.
  - destruct n; [change (128 ^ Z.of_nat 0) with 1 in Hv|]; lia.
Qed.

(** A successful varint read consumed a nonempty prefix of the input. *)
Lemma get_varint_loop_inv n shift result p v rest :
  get_varint_loop w n shift result p = Some (v, rest) ->
  exists pre, p = pre ++ rest /\ (0 < length pre <= n)%nat.
Proof.
  revert shift result p; induction n as [|n IH]; intros shift result p; [done|].
  destruct p as [|c p]; [done|]. cbn [get_varint_loop].
  destruct (Z.land (bz c) 128 =? 0); intros H.
  - injection H as <- <-. exists [c]. simpl; split; [done|lia].
  - apply IH in H as (pre & -> & Hl). exists (c :: pre). simpl; split; [done|lia].
Qed.

Lemma get_varint_loop_range n shift result p v rest :
  0 <= result < 2 ^ W -> get_varint_loop w n shift result p = Some (v, rest) ->
  0 <= v < 2 ^ W.
Proof.
  assert (Hlor : forall a b, 0 <= a < 2 ^ W -> 0 <= Z.lor a (w b) < 2 ^ W).
  { intros a b Ha. apply lor_range; [done..|]. apply Z.mod_pos_bound. lia. }
  revert shift result p; induction n as [|n IH]; intros shift result p Hr; [done|].
  destruct p as [|c p]; [done|]. cbn [get_varint_loop].
  destruct (Z.land (bz c) 128 =? 0); intros H.
  - injection H as <- <-. by apply Hlor.
  - eapply IH; [|done]. by apply Hlor.
Qed.
End VarintLoop.

(** More fuel never changes the varint of a value below [128^(fuel+1)]. *)
Lemma varint_loop_enough fuel fuel' v :
  0 <= v < 128 ^ Z.of_nat (S fuel) -> (fuel <= fuel')%nat ->
  varint_loop fuel' v = varint_loop fuel v.
Proof.
  revert fuel' v; induction fuel as [|fuel IH]; intros fuel' v Hv Hle.
  - destruct fuel'; [done|]. change (128 ^ Z.of_nat 1) with 128 in Hv.
    cbn [varint_loop]. by destruct (Z.geb_spec v 128); [lia|].
  - destruct fuel' as [|fuel']; [lia|]. cbn [varint_loop].
    destruct (v >=? 128); [|done]. f_equal. apply IH; [|lia].
    rewrite Z.shiftr_div_pow2 by lia. change (2 ^ 7) with 128.
    rewrite Nat2Z.inj_succ, Z.pow_succ_r in Hv by lia.
    split; [apply Z.div_pos; lia|apply Z.div_lt_upper_bound; lia].
Qed.

(** * Codecs

    What a pair of appending writer and consuming reader promises to the record
    formats built from it (write batches, version edits, rows, schemas, MVCC
    records): reading back what was written, in front of any further bytes,
    gives the value and leaves exactly those bytes. *)
Class Codec {A : Type} (dom : A -> Prop) (put : A -> bytes)
    (get : bytes -> option (A * bytes)) : Prop :=
  codec_get_put : forall a rest, dom a -> get (put a ++ rest) = Some (a, rest).

Lemma PutFixed32_app dst v : PutFixed32 dst v = dst ++ PutFixed32 [] v.
Proof. done. Qed.
Lemma PutFixed64_app dst v : PutFixed64 dst v = dst ++ PutFixed64 [] v.
Proof. done. Qed.
Lemma PutVarint32_app dst v : PutVarint32 dst v = dst ++ PutVarint32 [] v.
Proof. done. Qed.
Lemma PutVarint64_app dst v : PutVarint64 dst v = dst ++ PutVarint64 [] v.
Proof. done. Qed.
Lemma PutLengthPrefixedSlice_app dst v :
  PutLengthPrefixedSlice dst v = dst ++ PutLengthPrefixedSlice [] v.
Proof. unfold PutLengthPrefixedSlice. by rewrite PutVarint32_app, (assoc_L (++)). Qed.

Definition fits32 (v : Z) : Prop := 0 <= v < 2 ^ 32.
Definition fits64 (v : Z) : Prop := 0 <= v < 2 ^ 64.
(** A string whose length survives the cast to [uint32_t]. *)
Definition len32 (s : bytes) : Prop := Z.of_nat (length s) < 2 ^ 32.

#[global] Instance Fixed32_codec : Codec fits32 (PutFixed32 []) GetFixed32.
Proof. intros v rest H. apply GetFixed32_put, H. Qed.

#[global] Instance Fixed64_codec : Codec fits64 (PutFixed64 []) GetFixed64.
Proof. intros v rest H. apply GetFixed64_put, H. Qed.

#[global] Instance Varint32_codec : Codec fits32 (PutVarint32 []) GetVarint32.
Proof.
  intros v rest H. unfold fits32 in H. unfold GetVarint32, GetVarint32Ptr, PutVarint32.
  change u32 with (fun z => z mod 2 ^ 32). rewrite app_nil_l.
  rewrite get_varint_loop_put; try lia. f_equal; f_equal; lia.
Qed.

#[global] Instance Varint64_codec : Codec fits64 (PutVarint64 []) GetVarint64.
Proof.
  intros v rest H. unfold fits64 in H. unfold GetVarint64, GetVarint64Ptr, PutVarint64.
  change u64 with (fun z => z mod 2 ^ 64). rewrite app_nil_l.
  rewrite get_varint_loop_put; try lia. f_equal; f_equal; lia.
Qed.

Lemma GetVarint32_range p v rest : GetVarint32 p = Some (v, rest) -> fits32 v.
Proof. apply (get_varint_loop_range 32); lia. Qed.
Lemma GetVarint64_range p v rest : GetVarint64 p = Some (v, rest) -> fits64 v.
Proof. apply (get_varint_loop_range 64); lia. Qed.
Lemma GetVarint32_consumes p v rest :
  GetVarint32 p = Some (v, rest) -> exists pre, p = pre ++ rest /\ (0 < length pre <= 5)%nat.
Proof. apply (get_varint_loop_inv 32). Qed.
Lemma GetVarint64_consumes p v rest :
  GetVarint64 p = Some (v, rest) -> exists pre, p = pre ++ rest /\ (0 < length pre <= 10)%nat.
Proof. apply (get_varint_loop_inv 64). Qed.

#[global] Instance LengthPrefixed_codec :
  Codec len32 (PutLengthPrefixedSlice []) GetLengthPrefixedSlice.
Proof.
  intros v rest H. unfold GetLengthPrefixedSlice, PutLengthPrefixedSlice, len32 in *.
  unfold u32. rewrite Z.mod_small by lia. rewrite <- (assoc_L (++)).
  rewrite codec_get_put by (unfold fits32; lia).
  rewrite length_app, Nat2Z.id. unfold remove_prefix.
  destruct (Z.ltb_spec (Z.of_nat (length v + length rest)) (Z.of_nat (length v))); [lia|].
  by rewrite take_app_length, drop_app_length.
Qed.

(** The reader only shortens its input, so the decoding loops terminate. *)
Lemma GetLengthPrefixedSlice_consumes p v rest :
  GetLengthPrefixedSlice p = Some (v, rest) ->
  exists pre, p = pre ++ v ++ rest /\ (0 < length pre <= 5)%nat.
Proof.
  unfold GetLengthPrefixedSlice. destruct (GetVarint32 p) as [[len q]|] eqn:E; [|done].
  apply GetVarint32_consumes in E as (pre & -> & Hl).
  destruct (_ <? _); [done|]. intros [= <- <-]. exists pre. unfold remove_prefix.
  by rewrite take_drop.
Qed.

(** The number of bytes a varint takes. *)
Lemma varint_length_loop_spec fuel v len :
  varint_length_loop fuel v len = len + Z.of_nat (length (varint_loop fuel v)) - 1.
Proof.
  revert v len; induction fuel as [|fuel IH]; intros v len;
    cbn [varint_length_loop varint_loop length]; [lia|].
  destruct (v >=? 128); cbn [length]; [rewrite IH|]; lia.
Qed.

Lemma length_varint_loop fuel v : (length (varint_loop fuel v) <= S fuel)%nat.
Proof.
  revert v; induction fuel as [|fuel IH]; intros v; cbn [varint_loop length]; [lia|].
  destruct (v >=? 128); cbn [length]; [|lia]. specialize (IH (Z.shiftr v 7)). lia.
Qed.

Lemma varint_loop_pos fuel v : (1 <= length (varint_loop fuel v))%nat.
Proof.
  destruct fuel; cbn [varint_loop length]; [lia|]. destruct (v >=? 128); cbn [length]; lia.
Qed.

Lemma length_PutVarint32 v : fits32 v -> (1 <= length (PutVarint32 [] v) <= 5)%nat.
Proof.
  intros H. unfold PutVarint32. rewrite app_nil_l.
  rewrite (varint_loop_enough 4) by (unfold fits32 in H; simpl Z.of_nat; lia).
  pose proof (length_varint_loop 4 v). split; [|lia].
  apply varint_loop_pos.
Qed.

Lemma length_PutLengthPrefixedSlice v :
  (length v < length (PutLengthPrefixedSlice [] v) <= length v + 5)%nat.
Proof.
  unfold PutLengthPrefixedSlice. rewrite length_app.
  pose proof (length_PutVarint32 (u32 (Z.of_nat (length v)))
                ltac:(apply Z.mod_pos_bound; lia)). lia.
Qed.

#[global] Arguments varint_loop : simpl never.
#[global] Arguments get_varint_loop : simpl never.

(** [n] values read in a row, as the [for (i = 0; i < n; ++i)] decoders do. *)
Fixpoint get_n {A} (get : bytes -> option (A * bytes)) (n : nat) (input : bytes)
    : option (list A * bytes) :=
  match n with
  | O => Some ([], input)
  | S n =>
    match get input with
    | None => None
    | Some (x, input) =>
      match get_n get n input with
      | None => None
      | Some (xs, input) => Some (x :: xs, input)
      end
    end
  end.

#[global] Instance get_n_codec {A} (dom : A -> Prop) put get `{!Codec dom put get} n :
  Codec (fun l => length l = n /\ Forall dom l) (fun l => concat (map put l)) (get_n get n).
Proof.
  intros l rest [<- Hl]. induction Hl as [|x l Hx _ IH]; [done|]. simpl.
  by rewrite <- (assoc_L (++)), codec_get_put, IH.
Qed.

(** * Properties *)

(** What [PutVarint32]/[PutVarint64] append, [GetVarint32]/[GetVarint64]
    read back, at every 32-/64-bit value and in front of any bytes; the writers
    stay within their 5- and 10-byte stack buffers. *)
Theorem varint_roundtrip (v : Z) (rest : bytes) :
  (fits32 v -> GetVarint32 (PutVarint32 [] v ++ rest) = Some (v, rest) /\
               (length (PutVarint32 [] v) <= 5)%nat) /\
  (fits64 v -> GetVarint64 (PutVarint64 [] v ++ rest) = Some (v, rest) /\
               (length (PutVarint64 [] v) <= 10)%nat /\
               Z.of_nat (length (PutVarint64 [] v)) = VarintLength v).
Proof.
  split; intros H.
  - split; [by apply codec_get_put|]. apply length_PutVarint32, H.
  - split; [by apply codec_get_put|]. unfold PutVarint64, VarintLength. rewrite app_nil_l.
    split; [|rewrite varint_length_loop_spec; lia].
    rewrite (varint_loop_enough 9) by (unfold fits64 in H; lia). apply length_varint_loop.
Qed.

Lemma varint_roundtrip_witness :
  GetVarint32 (PutVarint32 [] 300 ++ lit "x") = Some (300, lit "x") /\
  VarintLength (2 ^ 64 - 1) = 10.
Proof.
  split.
  { destruct (varint_roundtrip 300 (lit "x")) as [H _]. apply H. unfold fits32. lia. }
  destruct (varint_roundtrip (2 ^ 64 - 1) []) as [_ H].
  destruct H as (_ & _ & <-); [unfold fits64; lia|]. reflexivity.
Defined.
