(* ===== verification/Crc32.v ===== *)
(** CRC-32 (include/lsmkv/crc32.h, src/crc32.cpp): the table-driven checksum of
    the WAL and of the SSTable blocks, and the masking applied before storage.

    The lookup table the source fills lazily on first use is the constant
    [table]; the filling is idempotent, so every call sees these 256 words. *)
From S2P Require Import Prelude.

Definition kPoly : Z := 0xEDB88320.

(** One round of the inner loop of [InitTable]. *)
Definition crc_bit (c : Z) : Z :=
  if Z.land c 1 =? 0 then Z.shiftr c 1 else Z.lxor kPoly (Z.shiftr c 1).

Definition InitTable : list Z :=
  map (fun i => Nat.iter 8 crc_bit (Z.of_nat i)) (seq 0 256).
Definition table : list Z := Eval vm_compute in InitTable.

(** One byte of the loop of [Crc32Extend]. *)
Definition crc_step (crc : Z) (b : byte) : Z :=
  Z.lxor (nth (Z.to_nat (Z.land (Z.lxor crc (bz b)) 0xFF)) table 0) (Z.shiftr crc 8).

Definition Crc32Extend (crc : Z) (data : bytes) : Z :=
  let crc := Z.lxor crc 0xFFFFFFFF in
  Z.lxor (fold_left crc_step data crc) 0xFFFFFFFF.

Definition Crc32 (data : bytes) : Z := Crc32Extend 0 data.

Definition MaskCrc (crc : Z) : Z :=
  u32 (Z.lor (Z.shiftr crc 15) (u32 (Z.shiftl crc 17)) + 0xA282EAD8).

Definition UnmaskCrc (masked : Z) : Z :=
  let rot := u32 (masked - 0xA282EAD8) in
  Z.lor (Z.shiftr rot 17) (u32 (Z.shiftl rot 15)).

#[global] Arguments Crc32Extend : simpl never.
#[global] Arguments Crc32 : simpl never.
#[global] Arguments MaskCrc : simpl never.
#[global] Arguments UnmaskCrc : simpl never.

(** * The reference: eight one-bit divisions per byte *)

Definition crc_step_ref (crc : Z) (b : byte) : Z := Nat.iter 8 crc_bit (Z.lxor crc (bz b)).

Lemma crc_bit_odd c : crc_bit c = Z.lxor (if Z.testbit c 0 then kPoly else 0) (Z.shiftr c 1).
Proof.
  unfold crc_bit. change (Z.land c 1) with (Z.land c (Z.ones 1)).
  rewrite Z.land_ones, <- Z.bit0_mod by lia.
  destruct (Z.testbit c 0); simpl; [done|]. by rewrite Z.lxor_0_l.
Qed.

Lemma lxor_pairs a b c d :
  Z.lxor (Z.lxor a b) (Z.lxor c d) = Z.lxor (Z.lxor a c) (Z.lxor b d).
Proof.
  rewrite !Z.lxor_assoc. f_equal. rewrite <- !Z.lxor_assoc, (Z.lxor_comm b c). done.
Qed.

(** Division by the polynomial is linear. *)
Lemma crc_bit_lxor a b : crc_bit (Z.lxor a b) = Z.lxor (crc_bit a) (crc_bit b).
Proof.
  rewrite !crc_bit_odd, Z.lxor_spec, Z.shiftr_lxor, lxor_pairs. f_equal.
  destruct (Z.testbit a 0), (Z.testbit b 0); simpl; done.
Qed.

Lemma crc_iter_lxor n a b :
  Nat.iter n crc_bit (Z.lxor a b) = Z.lxor (Nat.iter n crc_bit a) (Nat.iter n crc_bit b).
Proof. induction n as [|n IH]; simpl; [done|]. by rewrite IH, crc_bit_lxor. Qed.

Lemma crc_iter_shiftl n y : Nat.iter n crc_bit (Z.shiftl y (Z.of_nat n)) = y.
Proof.
  induction n as [|n IH]; [apply Z.shiftl_0_r|]. rewrite Nat.iter_succ_r.
  rewrite <- IH at 2. f_equal. rewrite crc_bit_odd, Z.shiftl_spec_low by lia.
  rewrite Z.lxor_0_l, Z.shiftr_shiftl_r by lia.
  rewrite <- Z.shiftl_opp_r. f_equal. lia.
Qed.

Lemma table_nth i : 0 <= i < 256 -> nth (Z.to_nat i) table 0 = Nat.iter 8 crc_bit i.
Proof.
  intros Hi. change table with InitTable. unfold InitTable.
  rewrite nth_indep with (d' := Nat.iter 8 crc_bit (Z.of_nat 0))
    by (rewrite length_map, length_seq; lia).
  rewrite (map_nth (fun i => Nat.iter 8 crc_bit (Z.of_nat i))), seq_nth by lia.
  f_equal. lia.
Qed.

(** The table lookup computes the eight divisions at once. *)
Lemma crc_step_eq_ref crc b : 0 <= crc -> crc_step crc b = crc_step_ref crc b.
Proof.
  intros Hc. unfold crc_step, crc_step_ref. pose proof (bz_range b).
  set (x := Z.lxor crc (bz b)).
  assert (0 <= x) by (apply Z.lxor_nonneg; lia).
  change 0xFF with (Z.ones 8).
  rewrite table_nth by (rewrite Z.land_ones by lia; apply Z.mod_pos_bound; lia).
  assert (Hx : x = Z.lxor (Z.land x (Z.ones 8)) (Z.shiftl (Z.shiftr x 8) 8)).
  { rewrite Z.land_ones, Z.shiftr_div_pow2, Z.shiftl_mul_pow2 by lia.
    rewrite <- Z.add_nocarry_lxor.
    - rewrite Z.add_comm, Z.mul_comm. apply Z.div_mod. lia.
    - rewrite <- Z.land_ones, <- Z.shiftl_mul_pow2 by lia.
      apply Z.bits_inj'; intros i Hi. rewrite !Z.land_spec, Z.bits_0.
      destruct (Z.ltb_spec i 8).
      + rewrite (Z.shiftl_spec_low _ 8) by lia. apply andb_false_r.
      + rewrite Z.ones_spec_high by lia. by rewrite andb_false_r. }
  rewrite Hx at 2. rewrite crc_iter_lxor, (crc_iter_shiftl 8). f_equal.
  unfold x. rewrite Z.shiftr_lxor. replace (Z.shiftr (bz b) 8) with 0.
  - by rewrite Z.lxor_0_r.
  - rewrite Z.shiftr_div_pow2, Z.div_small by lia. done.
Qed.

(** * Ranges and invertibility *)

Lemma lxor_range W a b : 0 <= W -> 0 <= a < 2 ^ W -> 0 <= b < 2 ^ W -> 0 <= Z.lxor a b < 2 ^ W.
Proof.
  intros HW Ha Hb. replace (Z.lxor a b) with (Z.lxor a b mod 2 ^ W).
  - apply Z.mod_pos_bound. lia.
  - rewrite <- Z.land_ones by lia. apply Z.bits_inj'; intros i Hi.
    rewrite Z.land_spec, !Z.lxor_spec. destruct (Z.ltb_spec i W).
    + by rewrite Z.ones_spec_low, andb_true_r by lia.
    + rewrite Z.ones_spec_high, andb_false_r by lia. symmetry.
      rewrite <- (Z.mod_small a (2 ^ W)), <- (Z.mod_small b (2 ^ W)) by lia.
      by rewrite !Z.mod_pow2_bits_high by lia.
Qed.

Lemma shiftr_range W a n : 0 <= n <= W -> 0 <= a < 2 ^ W -> 0 <= Z.shiftr a n < 2 ^ (W - n).
Proof.
  intros Hn Ha. rewrite Z.shiftr_div_pow2 by lia. split; [apply Z.div_pos; lia|].
  apply Z.div_lt_upper_bound; [lia|]. rewrite <- Z.pow_add_r by lia.
  replace (n + (W - n)) with W by lia. lia.
Qed.

Lemma crc_bit_range c : 0 <= c < 2 ^ 32 -> 0 <= crc_bit c < 2 ^ 32.
Proof.
  intros Hc. pose proof (shiftr_range 32 c 1 ltac:(lia) Hc).
  rewrite crc_bit_odd. apply lxor_range; [lia| |lia].
  destruct (Z.testbit c 0); unfold kPoly; lia.
Qed.

Lemma crc_iter_range n c : 0 <= c < 2 ^ 32 -> 0 <= Nat.iter n crc_bit c < 2 ^ 32.
Proof. intros Hc. induction n; simpl; [done|by apply crc_bit_range]. Qed.

(** The top bit of the polynomial records the bit that was divided away. *)
Definition crc_unbit (d : Z) : Z :=
  if Z.testbit d 31 then 2 * Z.lxor kPoly d + 1 else 2 * d.

Lemma crc_unbit_bit c : 0 <= c < 2 ^ 32 -> crc_unbit (crc_bit c) = c.
Proof.
  intros Hc. pose proof (shiftr_range 32 c 1 ltac:(lia) Hc) as Hr.
  unfold crc_unbit. rewrite crc_bit_odd.
  assert (Z.testbit (Z.shiftr c 1) 31 = false) as Hlow.
  { rewrite <- (Z.mod_small (Z.shiftr c 1) (2 ^ 31)) by lia.
    apply Z.mod_pow2_bits_high. lia. }
  rewrite Z.lxor_spec, Hlow, xorb_false_r.
  pose proof (Z.div_mod c 2 ltac:(lia)) as Hdm.
  pose proof (Z.bit0_mod c) as Hb0. rewrite Z.shiftr_div_pow2 by lia. change (2 ^ 1) with 2.
  destruct (Z.testbit c 0); simpl Z.b2z in Hb0.
  - change (Z.testbit kPoly 31) with true. cbv iota.
    rewrite <- Z.lxor_assoc, Z.lxor_nilpotent, Z.lxor_0_l. lia.
  - rewrite Z.bits_0, Z.lxor_0_l. lia.
Qed.

Lemma crc_iter_inj n a b :
  0 <= a < 2 ^ 32 -> 0 <= b < 2 ^ 32 ->
  Nat.iter n crc_bit a = Nat.iter n crc_bit b -> a = b.
Proof.
  intros Ha Hb. induction n as [|n IH]; simpl; [done|]. intros E. apply IH.
  rewrite <- (crc_unbit_bit (Nat.iter n crc_bit a)), E by by apply crc_iter_range.
  apply crc_unbit_bit. by apply crc_iter_range.
Qed.

(** Feeding [w] to the register divides the register, xored with the word [w]
    spells, [8 * length w] times. *)
Lemma fold_crc_step r w :
  0 <= r -> fold_left crc_step w r = Nat.iter (8 * length w) crc_bit (Z.lxor r (le_value w)).
Proof.
  revert r; induction w as [|b w IH]; intros r Hr; [by rewrite Z.lxor_0_r|].
  cbn [fold_left length]. rewrite crc_step_eq_ref by done.
  pose proof (bz_range b). assert (0 <= Z.lxor r (bz b)) by (apply Z.lxor_nonneg; lia).
  assert (Hpos : forall n x, 0 <= x -> 0 <= Nat.iter n crc_bit x).
  { intros n x Hx. induction n; simpl; [done|]. rewrite crc_bit_odd.
    apply Z.lxor_nonneg. rewrite Z.shiftr_nonneg. destruct (Z.testbit _ 0); unfold kPoly; lia. }
  rewrite IH by by apply Hpos.
  replace (8 * S (length w))%nat with (8 * length w + 8)%nat by lia.
  rewrite Nat.iter_add. f_equal. unfold crc_step_ref.
  rewrite <- (crc_iter_shiftl 8 (le_value w)) at 1. rewrite <- crc_iter_lxor. f_equal.
  rewrite Z.lxor_assoc. f_equal. simpl. rewrite <- Z.add_nocarry_lxor, lor_add_shift; try lia.
  - by rewrite Z.shiftl_mul_pow2 by lia.
  - apply Z.bits_inj'; intros i Hi. rewrite Z.land_spec, Z.bits_0.
    destruct (Z.ltb_spec i 8); [rewrite Z.shiftl_spec_low by lia; apply andb_false_r|].
    rewrite <- (Z.mod_small (bz b) (2 ^ 8)), Z.mod_pow2_bits_high by lia. done.
Qed.

Lemma fold_crc_step_range r w :
  0 <= r < 2 ^ 32 -> 0 <= fold_left crc_step w r < 2 ^ 32.
Proof.
  revert r; induction w as [|b w IH]; intros r Hr; [done|]. cbn [fold_left]. apply IH.
  rewrite crc_step_eq_ref by lia. apply crc_iter_range, lxor_range; [lia|done|].
  pose proof (bz_range b). lia.
Qed.

Lemma fold_crc_step_inj r r' w :
  0 <= r < 2 ^ 32 -> 0 <= r' < 2 ^ 32 ->
  fold_left crc_step w r = fold_left crc_step w r' -> r = r'.
Proof.
  revert r r'; induction w as [|b w IH]; intros r r' Hr Hr' E; [done|]. cbn [fold_left] in E.
  pose proof (bz_range b).
  assert (forall x, 0 <= x < 2 ^ 32 -> 0 <= Z.lxor x (bz b) < 2 ^ 32)
    by (intros; apply lxor_range; lia).
  rewrite !crc_step_eq_ref in E by lia. apply IH in E; try (apply crc_iter_range; auto).
  apply crc_iter_inj in E; auto.
  apply (f_equal (fun x => Z.lxor x (bz b))) in E.
  by rewrite !Z.lxor_assoc, Z.lxor_nilpotent, !Z.lxor_0_r in E.
Qed.

Lemma Crc32Extend_range crc data : 0 <= crc < 2 ^ 32 -> 0 <= Crc32Extend crc data < 2 ^ 32.
Proof.
  intros H. unfold Crc32Extend. apply lxor_range; [lia| |lia].
  apply fold_crc_step_range, lxor_range; lia.
Qed.

Lemma Crc32_range data : 0 <= Crc32 data < 2 ^ 32.
Proof. apply Crc32Extend_range. lia. Qed.

(** * Masking *)

Lemma MaskCrc_range c : 0 <= MaskCrc c < 2 ^ 32.
Proof. apply Z.mod_pos_bound. lia. Qed.

(** Rotating right by [k] and then by [32 - k] is the identity. *)
Lemma rotate32 c k : 0 <= k <= 32 -> 0 <= c < 2 ^ 32 ->
  let r := Z.lor (Z.shiftr c k) (u32 (Z.shiftl c (32 - k))) in
  0 <= r < 2 ^ 32 /\ Z.lor (Z.shiftr r (32 - k)) (u32 (Z.shiftl r k)) = c.
Proof.
  intros Hk Hc r.
  assert (Hrot : forall x j, 0 <= j <= 32 -> 0 <= x < 2 ^ 32 ->
            Z.lor (Z.shiftr x j) (u32 (Z.shiftl x (32 - j)))
            = x / 2 ^ j + x mod 2 ^ j * 2 ^ (32 - j)).
  { intros x j Hj Hx. pose proof (shiftr_range 32 x j ltac:(lia) Hx).
    unfold u32. rewrite (Z.shiftl_mul_pow2 x) by lia.
    replace (2 ^ 32) with (2 ^ j * 2 ^ (32 - j)) by (rewrite <- Z.pow_add_r; f_equal; lia).
    rewrite Z.mul_mod_distr_r by lia.
    rewrite <- (Z.shiftl_mul_pow2 (x mod 2 ^ j)), lor_add_shift by lia.
    by rewrite Z.shiftr_div_pow2, Z.shiftl_mul_pow2 by lia. }
  assert (Hr : r = c / 2 ^ k + c mod 2 ^ k * 2 ^ (32 - k)) by by apply Hrot.
  assert (0 < 2 ^ k) by lia. assert (0 < 2 ^ (32 - k)) by lia.
  assert (Hp : 2 ^ k * 2 ^ (32 - k) = 2 ^ 32) by (rewrite <- Z.pow_add_r; f_equal; lia).
  pose proof (Z.mod_pos_bound c (2 ^ k) ltac:(lia)).
  assert (0 <= c / 2 ^ k < 2 ^ (32 - k)).
  { split; [apply Z.div_pos; lia|]. apply Z.div_lt_upper_bound; lia. }
  assert (0 <= r < 2 ^ 32) as Hrr by (rewrite Hr; nia). split; [done|].
  pose proof (Hrot r (32 - k) ltac:(lia) Hrr) as Hback.
  replace (32 - (32 - k)) with k in Hback by lia. rewrite Hback, Hr.
  rewrite Z.div_add, (Z.div_small (c / 2 ^ k)), Z.mod_add, (Z.mod_small (c / 2 ^ k)) by lia.
  pose proof (Z.div_mod c (2 ^ k) ltac:(lia)). lia.
Qed.

Lemma UnmaskCrc_MaskCrc c : 0 <= c < 2 ^ 32 -> UnmaskCrc (MaskCrc c) = c.
Proof.
  intros Hc. destruct (rotate32 c 15 ltac:(lia) Hc) as [Hr H]. unfold UnmaskCrc, MaskCrc.
  replace (u32 (u32 _ - _)) with (Z.lor (Z.shiftr c 15) (u32 (Z.shiftl c (32 - 15)))); [done|].
  unfold u32 at 2 3. rewrite Zminus_mod_idemp_l. change (32 - 15) with 17 in *.
  by rewrite Z.add_simpl_r, Z.mod_small.
Qed.

Lemma MaskCrc_inj a b : 0 <= a < 2 ^ 32 -> 0 <= b < 2 ^ 32 -> MaskCrc a = MaskCrc b -> a = b.
Proof. intros Ha Hb E. by rewrite <- (UnmaskCrc_MaskCrc a), E, UnmaskCrc_MaskCrc. Qed.

Lemma Crc32_inj_window pre x y post :
  length x = length y -> (length x <= 4)%nat ->
  Crc32 (pre ++ x ++ post) = Crc32 (pre ++ y ++ post) -> x = y.
Proof.
  intros Hl Hx. unfold Crc32, Crc32Extend. change (Z.lxor 0 0xFFFFFFFF) with 0xFFFFFFFF.
  rewrite !fold_left_app. intros E.
  apply (f_equal (fun z => Z.lxor z 0xFFFFFFFF)) in E.
  rewrite !Z.lxor_assoc, Z.lxor_nilpotent, !Z.lxor_0_r in E.
  pose proof (fold_crc_step_range 0xFFFFFFFF pre ltac:(lia)) as Hr.
  revert E Hr. generalize (fold_left crc_step pre 0xFFFFFFFF). intros r E Hr.
  apply fold_crc_step_inj in E; try by apply fold_crc_step_range.
  rewrite !fold_crc_step in E by lia. rewrite Hl in E.
  assert (Hw : forall w, (length w <= 4)%nat -> 0 <= le_value w < 2 ^ 32).
  { intros w Hw. pose proof (le_value_range w). split; [lia|].
    apply Z.lt_le_trans with (256 ^ Z.of_nat (length w)); [lia|].
    change (2 ^ 32) with (256 ^ 4). apply Z.pow_le_mono_r; lia. }
  pose proof (Hw x Hx). pose proof (Hw y ltac:(lia)).
  apply crc_iter_inj in E; try (apply lxor_range; lia).
  apply (f_equal (Z.lxor r)) in E.
  rewrite <- !Z.lxor_assoc, Z.lxor_nilpotent, !Z.lxor_0_l in E.
  rewrite <- (le_bytes_value x), <- (le_bytes_value y), E, Hl. done.
Qed.

(** * Properties *)

(** C40: the table-driven loop computes the bit-by-bit CRC, extending a checksum is the
    same as checksumming the concatenation, and masking is undone by unmasking, so that
    different checksums have different masks. *)
Theorem crc32_correct (a b : bytes) :
  Crc32 a = Z.lxor (fold_left crc_step_ref a 0xFFFFFFFF) 0xFFFFFFFF /\
  Crc32Extend (Crc32 a) b = Crc32 (a ++ b) /\
  UnmaskCrc (MaskCrc (Crc32 a)) = Crc32 a /\
  (MaskCrc (Crc32 a) = MaskCrc (Crc32 b) -> Crc32 a = Crc32 b).
Proof.
  split_and!; [..|apply UnmaskCrc_MaskCrc, Crc32_range|apply MaskCrc_inj; apply Crc32_range].
  - unfold Crc32, Crc32Extend. change (Z.lxor 0 0xFFFFFFFF) with 0xFFFFFFFF. f_equal.
    assert (H : 0 <= 0xFFFFFFFF < 2 ^ 32) by lia. revert H.
    generalize 0xFFFFFFFF. induction a as [|x a IH]; intros r Hr; [done|]. cbn [fold_left].
    rewrite IH; rewrite crc_step_eq_ref by lia; [done|].
    pose proof (bz_range x). apply crc_iter_range, lxor_range; lia.
  - unfold Crc32, Crc32Extend.
    rewrite Z.lxor_assoc, Z.lxor_nilpotent, Z.lxor_0_r. by rewrite fold_left_app.
Qed.

(** The stored (masked) checksum detects every corruption confined to four
    consecutive bytes, whatever surrounds them; and masking loses nothing. *)
Theorem crc32_detects_burst (pre x y post : bytes) :
  length x = length y -> (length x <= 4)%nat -> x <> y ->
  MaskCrc (Crc32 (pre ++ x ++ post)) <> MaskCrc (Crc32 (pre ++ y ++ post)) /\
  UnmaskCrc (MaskCrc (Crc32 (pre ++ x ++ post))) = Crc32 (pre ++ x ++ post).
Proof.
  intros Hl Hx Hne. split; [|apply UnmaskCrc_MaskCrc, Crc32_range].
  intros E. apply MaskCrc_inj in E; [|apply Crc32_range..].
  by apply Crc32_inj_window in E.
Qed.

Lemma crc32_detects_burst_witness :
  MaskCrc (Crc32 (lit "key" ++ lit "aaaa" ++ lit "tail"))
  <> MaskCrc (Crc32 (lit "key" ++ lit "aaab" ++ lit "tail")).
Proof.
  apply (crc32_detects_burst (lit "key") (lit "aaaa") (lit "aaab") (lit "tail"));
    [reflexivity|vm_compute; lia|vm_compute; discriminate].
Defined.

(** The check value of the CRC-32 standard. *)
Example crc32_check : Crc32 (lit "123456789") = 0xCBF43926.
Proof. vm_compute. reflexivity. Qed.

(** The checksum of a string of zeros is not zero (the header comment of
    crc32.h says it is); only the empty string has checksum zero among them,
    and its stored form is nonzero. *)
Example crc32_zeros :
  Crc32 (replicate 4 (zb 0)) = 0x2144DF1C /\ Crc32 [] = 0 /\ MaskCrc (Crc32 []) = 0xA282EAD8.
Proof. vm_compute. done. Qed.
