(* ===== verification/InternalKey.v ===== *)
(** Internal keys (include/lsmkv/internal_key.h, src/internal_key.cpp): a user
    key followed by a little-endian word packing a 56-bit sequence number and an
    8-bit type, ordered by user key ascending and packed word descending. *)
From S2P Require Import Prelude Slice Encoding.

(** [enum ValueType : uint8_t]: the source casts arbitrary bytes to it. *)
Definition ValueType : Set := byte.
Definition kTypeDeletion : ValueType := Byte.x00.
Definition kTypeValue : ValueType := Byte.x01.

Definition PackSequenceAndType (seq : Z) (t : ValueType) : Z :=
  Z.lor (u64 (Z.shiftl seq 8)) (bz t).
Definition SequenceFromPack (packed : Z) : Z := Z.shiftr packed 8.
Definition TypeFromPack (packed : Z) : ValueType := zb (Z.land packed 0xFF).

Definition MakeInternalKey (user_key : bytes) (seq : Z) (t : ValueType) : bytes :=
  PutFixed64 user_key (PackSequenceAndType seq t).

Definition ExtractUserKey (internal_key : bytes) : bytes :=
  if (length internal_key <? 8)%nat then internal_key
  else take (length internal_key - 8) internal_key.

(** [DecodeFixed64(internal_key.data() + internal_key.size() - 8)] *)
Definition packed_of (internal_key : bytes) : Z :=
  DecodeFixed64 (drop (length internal_key - 8) internal_key).

Definition ExtractSequence (internal_key : bytes) : Z :=
  if (length internal_key <? 8)%nat then 0
  else SequenceFromPack (packed_of internal_key).

Definition ExtractValueType (internal_key : bytes) : ValueType :=
  if (length internal_key <? 8)%nat then kTypeValue
  else TypeFromPack (packed_of internal_key).

Definition CompareInternalKey (a b : bytes) : comparison :=
  if (length a <? 8)%nat || (length b <? 8)%nat then Slice_compare a b
  else
    match Slice_compare (ExtractUserKey a) (ExtractUserKey b) with
    | Eq =>
      let ap := packed_of a in
      let bp := packed_of b in
      if ap >? bp then Lt else if ap <? bp then Gt else Eq
    | r => r
    end.

Definition MakeLookupKey (user_key : bytes) (sequence : Z) : bytes :=
  MakeInternalKey user_key sequence kTypeValue.

#[global] Arguments MakeInternalKey : simpl never.
#[global] Arguments ExtractUserKey : simpl never.
#[global] Arguments CompareInternalKey : simpl never.
#[global] Arguments packed_of : simpl never.
#[global] Arguments PackSequenceAndType : simpl never.

(** * Packing *)

(** The sequence numbers the 56 bits hold. *)
Definition seq56 (s : Z) : Prop := 0 <= s < 2 ^ 56.

Lemma Pack_eq seq t : PackSequenceAndType seq t = seq mod 2 ^ 56 * 256 + bz t.
Proof.
  unfold PackSequenceAndType, u64. rewrite Z.shiftl_mul_pow2 by lia.
  change (2 ^ 64) with (2 ^ 56 * 2 ^ 8). rewrite Z.mul_mod_distr_r by lia.
  rewrite <- Z.shiftl_mul_pow2, Z.lor_comm, lor_add_shift by (try lia; apply bz_range).
  change (2 ^ 8) with 256. lia.
Qed.

Lemma Pack_small seq t : seq56 seq -> PackSequenceAndType seq t = seq * 256 + bz t.
Proof. intros H. by rewrite Pack_eq, Z.mod_small. Qed.

Lemma Pack_fits seq t : fits64 (PackSequenceAndType seq t).
Proof.
  rewrite Pack_eq. pose proof (bz_range t). pose proof (Z.mod_pos_bound seq (2 ^ 56) ltac:(lia)).
  unfold fits64. lia.
Qed.

Lemma SequenceFromPack_eq p : SequenceFromPack p = p / 256.
Proof. unfold SequenceFromPack. by rewrite Z.shiftr_div_pow2. Qed.

Lemma SequenceFromPack_Pack seq t : seq56 seq -> SequenceFromPack (PackSequenceAndType seq t) = seq.
Proof.
  intros H. rewrite SequenceFromPack_eq, Pack_small by done. pose proof (bz_range t).
  rewrite Z.add_comm, Z.div_add, Z.div_small by lia. lia.
Qed.

Lemma TypeFromPack_Pack seq t : TypeFromPack (PackSequenceAndType seq t) = t.
Proof.
  unfold TypeFromPack. rewrite Pack_eq. change 0xFF with (Z.ones 8).
  rewrite Z.land_ones by lia. change (2 ^ 8) with 256.
  rewrite zb_mod. rewrite <- zb_mod, Z.add_comm, Z.mod_add, zb_mod by lia. apply zb_bz.
Qed.

(** * Taking internal keys apart *)

(** A well-formed internal key has its eight trailing bytes. *)
Definition ikey_wf (k : bytes) : Prop := (8 <= length k)%nat.

#[global] Instance ikey_wf_dec k : Decision (ikey_wf k).
Proof. unfold ikey_wf. apply _. Defined.

Lemma MakeInternalKey_eq u s t : MakeInternalKey u s t = u ++ le_bytes 8 (PackSequenceAndType s t).
Proof. done. Qed.

Lemma length_MakeInternalKey u s t : length (MakeInternalKey u s t) = (length u + 8)%nat.
Proof. by rewrite MakeInternalKey_eq, length_app, length_le_bytes. Qed.

Lemma MakeInternalKey_wf u s t : ikey_wf (MakeInternalKey u s t).
Proof. unfold ikey_wf. rewrite length_MakeInternalKey. lia. Qed.

Lemma ExtractUserKey_wf k : ikey_wf k -> ExtractUserKey k = take (length k - 8) k.
Proof.
  intros H. unfold ExtractUserKey. by rewrite (proj2 (Nat.ltb_ge _ _)).
Qed.

Lemma ExtractUserKey_Make u s t : ExtractUserKey (MakeInternalKey u s t) = u.
Proof.
  rewrite ExtractUserKey_wf by apply MakeInternalKey_wf. rewrite length_MakeInternalKey.
  rewrite Nat.add_sub. apply take_app_length.
Qed.

Lemma packed_of_Make u s t : packed_of (MakeInternalKey u s t) = PackSequenceAndType s t.
Proof.
  unfold packed_of. rewrite length_MakeInternalKey, Nat.add_sub, MakeInternalKey_eq.
  rewrite drop_app_length, <- (app_nil_r (le_bytes _ _)).
  apply DecodeFixed64_put, Pack_fits.
Qed.

Lemma ExtractSequence_wf k : ikey_wf k -> ExtractSequence k = SequenceFromPack (packed_of k).
Proof. intros H. unfold ExtractSequence. by rewrite (proj2 (Nat.ltb_ge _ _)). Qed.

Lemma ExtractValueType_wf k : ikey_wf k -> ExtractValueType k = TypeFromPack (packed_of k).
Proof. intros H. unfold ExtractValueType. by rewrite (proj2 (Nat.ltb_ge _ _)). Qed.

Lemma ExtractSequence_Make u s t : seq56 s -> ExtractSequence (MakeInternalKey u s t) = s.
Proof.
  intros. rewrite ExtractSequence_wf by apply MakeInternalKey_wf.
  by rewrite packed_of_Make, SequenceFromPack_Pack.
Qed.

Lemma ExtractValueType_Make u s t : ExtractValueType (MakeInternalKey u s t) = t.
Proof.
  rewrite ExtractValueType_wf by apply MakeInternalKey_wf.
  by rewrite packed_of_Make, TypeFromPack_Pack.
Qed.

Lemma packed_of_range k : 0 <= packed_of k < 2 ^ 64.
Proof. apply DecodeFixed64_range. Qed.

(** A well-formed internal key is its user key followed by its packed word. *)
Lemma ikey_split k : ikey_wf k -> k = ExtractUserKey k ++ le_bytes 8 (packed_of k).
Proof.
  intros H. rewrite ExtractUserKey_wf by done. unfold packed_of, DecodeFixed64.
  assert (length (drop (length k - 8) k) = 8%nat) as Hl
    by (rewrite length_drop; unfold ikey_wf in H; lia).
  rewrite (take_ge (drop _ _)) by lia.
  pose proof (le_bytes_value (drop (length k - 8) k)) as E. rewrite Hl in E.
  by rewrite E, take_drop.
Qed.

Lemma ikey_inj a b : ikey_wf a -> ikey_wf b ->
  ExtractUserKey a = ExtractUserKey b -> packed_of a = packed_of b -> a = b.
Proof. intros Ha Hb E1 E2. rewrite (ikey_split a Ha), (ikey_split b Hb). congruence. Qed.

(** * The internal-key order *)

Lemma CompareInternalKey_wf a b : ikey_wf a -> ikey_wf b ->
  CompareInternalKey a b =
    match lex (ExtractUserKey a) (ExtractUserKey b) with
    | Eq => Z.compare (packed_of b) (packed_of a)
    | r => r
    end.
Proof.
  intros Ha Hb. unfold CompareInternalKey.
  rewrite !(proj2 (Nat.ltb_ge _ _)) by done. cbn [orb]. rewrite Slice_compare_lex.
  destruct (lex _ _); try done.
  destruct (Z.compare_spec (packed_of b) (packed_of a));
    destruct (Z.gtb_spec (packed_of a) (packed_of b)); try lia;
    destruct (Z.ltb_spec (packed_of a) (packed_of b)); lia || done.
Qed.

#[global] Instance CompareInternalKey_ord : OrdOn ikey_wf CompareInternalKey.
Proof.
  split.
  - intros x y Hx Hy. rewrite !CompareInternalKey_wf by done.
    rewrite (lex_antisym (ExtractUserKey x)), (Z.compare_antisym (packed_of y)).
    by destruct (lex _ _).
  - intros x y z Hx Hy Hz. rewrite !CompareInternalKey_wf by done.
    destruct (lex (ExtractUserKey x) (ExtractUserKey y)) eqn:E1; try done.
    + apply lex_eq in E1 as ->. destruct (lex _ (ExtractUserKey z)); try done.
      rewrite !Z.compare_ngt_iff. lia.
    + intros _. destruct (lex (ExtractUserKey y) (ExtractUserKey z)) eqn:E2; try done.
      * apply lex_eq in E2 as <-. by rewrite E1.
      * intros _. assert (lex (ExtractUserKey x) (ExtractUserKey z) = Lt) as ->; [|done].
        rewrite <- Slice_compare_lex in *. by eapply (ord_lt_trans (fun _ => True)).
Qed.

Lemma CompareInternalKey_eq a b :
  ikey_wf a -> ikey_wf b -> CompareInternalKey a b = Eq <-> a = b.
Proof.
  intros Ha Hb. split; [|intros ->; by apply (ord_refl ikey_wf)].
  rewrite CompareInternalKey_wf by done.
  destruct (lex _ _) eqn:E; try done. apply lex_eq in E. rewrite Z.compare_eq_iff.
  intros. by apply ikey_inj.
Qed.

Lemma CompareInternalKey_Make u1 s1 t1 u2 s2 t2 : seq56 s1 -> seq56 s2 ->
  CompareInternalKey (MakeInternalKey u1 s1 t1) (MakeInternalKey u2 s2 t2) =
    match lex u1 u2 with
    | Eq => match Z.compare s2 s1 with Eq => Z.compare (bz t2) (bz t1) | r => r end
    | r => r
    end.
Proof.
  intros H1 H2. rewrite CompareInternalKey_wf by apply MakeInternalKey_wf.
  rewrite !ExtractUserKey_Make, !packed_of_Make, !Pack_small by done.
  destruct (lex u1 u2); try done. pose proof (bz_range t1). pose proof (bz_range t2).
  destruct (Z.compare_spec s2 s1) as [->|Hlt|Hgt].
  - destruct (Z.compare_spec (bz t2) (bz t1)); [apply Z.compare_eq_iff|
      apply Z.compare_lt_iff|apply Z.compare_gt_iff]; lia.
  - apply Z.compare_lt_iff. lia.
  - apply Z.compare_gt_iff. lia.
Qed.

(** Where an entry stands relative to the lookup key of [u] at [snapshot]: the
    seek lands on the first entry not before it. *)
Lemma CompareInternalKey_lookup k u snapshot : ikey_wf k -> seq56 snapshot ->
  CompareInternalKey k (MakeLookupKey u snapshot) = Lt <->
    lex (ExtractUserKey k) u = Lt \/
    (ExtractUserKey k = u /\ snapshot * 256 + 1 < packed_of k).
Proof.
  intros Hk Hs. unfold MakeLookupKey.
  rewrite CompareInternalKey_wf by (done || apply MakeInternalKey_wf).
  rewrite ExtractUserKey_Make, packed_of_Make, Pack_small by done.
  change (bz kTypeValue) with 1.
  destruct (lex (ExtractUserKey k) u) eqn:E.
  - rewrite Z.compare_lt_iff. apply lex_eq in E. naive_solver.
  - naive_solver.
  - split; [done|]. intros [?|[<- _]]; [done|]. by rewrite lex_refl in E.
Qed.

(** * Properties *)

(** Internal keys give back their user key, sequence number and type, and
    are ordered by user key ascending, then sequence descending, then type
    descending: of two versions of one key the newer comes first. *)
Theorem internal_key_order (u1 u2 : bytes) (s1 s2 : Z) (t1 t2 : ValueType) :
  seq56 s1 -> seq56 s2 ->
  let k1 := MakeInternalKey u1 s1 t1 in
  let k2 := MakeInternalKey u2 s2 t2 in
  ExtractUserKey k1 = u1 /\ ExtractSequence k1 = s1 /\ ExtractValueType k1 = t1 /\
  CompareInternalKey k1 k2 =
    match Slice_compare u1 u2 with
    | Eq => match Z.compare s2 s1 with Eq => Z.compare (bz t2) (bz t1) | r => r end
    | r => r
    end.
Proof.
  intros H1 H2 k1 k2. subst k1 k2.
  rewrite ExtractUserKey_Make, ExtractSequence_Make, ExtractValueType_Make by done.
  by rewrite CompareInternalKey_Make, Slice_compare_lex.
Qed.

Lemma internal_key_order_witness :
  CompareInternalKey (MakeInternalKey (lit "k") 7 kTypeValue)
                     (MakeInternalKey (lit "k") 5 kTypeDeletion) = Lt.
Proof.
  destruct (internal_key_order (lit "k") (lit "k") 7 5 kTypeValue kTypeDeletion)
    as (_ & _ & _ & ->); unfold seq56; try lia. reflexivity.
Defined.
