(* ===== verification/SkipList.v ===== *)
(** SkipList (include/lsmkv/skiplist.h): the pointer structure behind the
    MemTable, modelled node by node.

    A node pointer is an index into the list of allocated nodes, [head_] is node
    0 and [nullptr] is [None]; [x->next[level]] reads the node's own array, and
    reading outside it (or an uninitialised [prev] slot) makes the operation
    [None].  Every operation runs under the list's lock, exclusive for [Insert]
    and shared otherwise, so it is one step here.  The theorems show that, for a
    comparator that is a total preorder on the inserted keys, no operation ever
    reads out of range or loops, and that the structure behaves as a sorted list
    without duplicates. *)
From S2P Require Import Prelude.

Definition kMaxHeight : nat := 12.

Record Node (Key : Type) := mkNode { node_key : Key; node_next : list (option nat) }.
Arguments mkNode {Key} _ _.
Arguments node_key {Key} _.
Arguments node_next {Key} _.

Record SkipList (Key : Type) := mkSkipList {
  nodes : list (Node Key);
  max_height_ : nat;
  size_ : nat;
  rnd_ : Z
}.
Arguments mkSkipList {Key} _ _ _ _.
Arguments nodes {Key} _.
Arguments max_height_ {Key} _.
Arguments size_ {Key} _.
Arguments rnd_ {Key} _.

Definition head_ : nat := 0.

(** [rnd_ = rnd_ * 214013u + 2531011u; return rnd_ >> 16;] *)
Definition Random (rnd : Z) : Z * Z :=
  let rnd := u32 (rnd * 214013 + 2531011) in (Z.shiftr rnd 16, rnd).

Fixpoint RandomHeight_loop (fuel height : nat) (rnd : Z) : nat * Z :=
  match fuel with
  | O => (height, rnd)
  | S fuel =>
    if (height <? kMaxHeight)%nat then
      let '(r, rnd) := Random rnd in
      if r mod 4 =? 0 then RandomHeight_loop fuel (S height) rnd else (height, rnd)
    else (height, rnd)
  end.
(** The loop runs at most [kMaxHeight - 1] times. *)
Definition RandomHeight (rnd : Z) : nat * Z := RandomHeight_loop kMaxHeight 1 rnd.

Section Model.
Context {Key : Type} (key0 : Key) (cmp : Key -> Key -> comparison).

Definition NewNode (key : Key) (height : nat) : Node Key :=
  mkNode key (replicate height None).

(** The constructor: [key0] is [Key()], never compared. *)
Definition SkipList_new : SkipList Key :=
  mkSkipList [NewNode key0 kMaxHeight] 1 0 0xdeadbeef.

Definition next_at (ns : list (Node Key)) (x level : nat) : option (option nat) :=
  nd ← ns !! x; node_next nd !! level.

Definition set_next (ns : list (Node Key)) (x level : nat) (v : option nat)
    : option (list (Node Key)) :=
  nd ← ns !! x;
  if (level <? length (node_next nd))%nat
  then Some (<[x := mkNode (node_key nd) (<[level := v]> (node_next nd))]> ns)
  else None.

Definition Equal (a b : Key) : bool := match cmp a b with Eq => true | _ => false end.

(** FindGreaterOrEqual; the fuel counts loop rounds. *)
Fixpoint fge_loop (fuel : nat) (ns : list (Node Key)) (key : Key) (x level : nat)
    (prev : list (option nat)) : option (option nat * list (option nat)) :=
  match fuel with
  | O => None
  | S fuel =>
    next ← next_at ns x level;
    let stop :=
      let prev := <[level := Some x]> prev in
      match level with
      | O => Some (next, prev)
      | S level => fge_loop fuel ns key x level prev
      end in
    match next with
    | None => stop
    | Some n =>
      nd ← ns !! n;
      match cmp (node_key nd) key with
      | Lt => fge_loop fuel ns key n level prev
      | _ => stop
      end
    end
  end.

Definition FindGreaterOrEqual (sl : SkipList Key) (key : Key)
    : option (option nat * list (option nat)) :=
  fge_loop (length (nodes sl) + kMaxHeight) (nodes sl) key head_ (max_height_ sl - 1)
           (replicate kMaxHeight None).

(** [for (i = 0; i < height; ++i) { x->next[i] = prev[i]->next[i];
    prev[i]->next[i] = x; }], from round [i], [n] rounds. *)
Fixpoint link (ns : list (Node Key)) (x : nat) (prev : list (option nat)) (i n : nat)
    : option (list (Node Key)) :=
  match n with
  | O => Some ns
  | S n =>
    pi ← prev !! i; p ← pi;
    nx ← next_at ns p i;
    ns ← set_next ns x i nx;
    ns ← set_next ns p i (Some x);
    link ns x prev (S i) n
  end.

(** [for (i = max_height_; i < height; ++i) prev[i] = head_;] *)
Definition raise_prev (prev : list (option nat)) (from height : nat) : list (option nat) :=
  foldr (fun i prev => <[i := Some head_]> prev) prev (seq from (height - from)).

Definition Insert (sl : SkipList Key) (key : Key) : option (SkipList Key) :=
  r ← FindGreaterOrEqual sl key;
  let '(x, prev) := r in
  let insert_new :=
    let '(height, rnd) := RandomHeight (rnd_ sl) in
    let prev := if (max_height_ sl <? height)%nat
                then raise_prev prev (max_height_ sl) height else prev in
    let max_height := if (max_height_ sl <? height)%nat then height else max_height_ sl in
    let x := length (nodes sl) in
    ns ← link (nodes sl ++ [NewNode key height]) x prev 0 height;
    Some (mkSkipList ns max_height (S (size_ sl)) rnd) in
  match x with
  | None => insert_new
  | Some xi =>
    nd ← nodes sl !! xi;
    if Equal key (node_key nd)
    then Some (mkSkipList (<[xi := mkNode key (node_next nd)]> (nodes sl))
                          (max_height_ sl) (size_ sl) (rnd_ sl))
    else insert_new
  end.

Definition Contains (sl : SkipList Key) (key : Key) : option bool :=
  r ← FindGreaterOrEqual sl key;
  match r.1 with
  | None => Some false
  | Some x => nd ← nodes sl !! x; Some (Equal key (node_key nd))
  end.

(** The outer option is memory safety, the inner one [Find]'s result. *)
Definition Find (sl : SkipList Key) (key : Key) : option (option Key) :=
  r ← FindGreaterOrEqual sl key;
  match r.1 with
  | None => Some None
  | Some x => nd ← nodes sl !! x; Some (Some (node_key nd))
  end.

Definition Size (sl : SkipList Key) : nat := size_ sl.

(** Iterator: the current node. *)
Definition iter_SeekToFirst (sl : SkipList Key) : option (option nat) :=
  next_at (nodes sl) head_ 0.
Definition iter_Seek (sl : SkipList Key) (target : Key) : option (option nat) :=
  r ← FindGreaterOrEqual sl target; Some r.1.
Definition iter_Valid (it : option nat) : bool :=
  match it with Some _ => true | None => false end.
Definition iter_key (sl : SkipList Key) (it : option nat) : option Key :=
  x ← it; nd ← nodes sl !! x; Some (node_key nd).
Definition iter_Next (sl : SkipList Key) (it : option nat) : option (option nat) :=
  x ← it; next_at (nodes sl) x 0.

(** [Iterate]: the keys the callback receives, in order, from a position. *)
Fixpoint iterate_from (fuel : nat) (sl : SkipList Key) (it : option nat) : option (list Key) :=
  match fuel with
  | O => None
  | S fuel =>
    if iter_Valid it then
      k ← iter_key sl it;
      it ← iter_Next sl it;
      ks ← iterate_from fuel sl it;
      Some (k :: ks)
    else Some []
  end.
Definition Iterate (sl : SkipList Key) : option (list Key) :=
  it ← iter_SeekToFirst sl; iterate_from (S (length (nodes sl))) sl it.

(** * Specification: a sorted list of keys, one per equivalence class *)

Fixpoint sorted_insert (k : Key) (l : list Key) : list Key :=
  match l with
  | [] => [k]
  | x :: l' =>
    match cmp x k with
    | Lt => x :: sorted_insert k l'
    | Eq => k :: l'
    | Gt => k :: l
    end
  end.

Definition not_lt (x k : Key) : bool := match cmp x k with Lt => false | _ => true end.

(** The keys from the first one that is not before [k]. *)
Fixpoint seek_list (k : Key) (l : list Key) : list Key :=
  match l with
  | [] => []
  | x :: l' => if not_lt x k then l else seek_list k l'
  end.
End Model.

#[global] Arguments next_at : simpl never.
#[global] Arguments set_next : simpl never.

(** * Views of the node array *)

Section Views.
Context {Key : Type} (key0 : Key).
Implicit Types ns : list (Node Key).

Definition nkey ns (x : nat) : Key :=
  match ns !! x with Some nd => node_key nd | None => key0 end.
Definition nhgt ns (x : nat) : nat :=
  match ns !! x with Some nd => length (node_next nd) | None => 0 end.

Lemma next_at_is_Some ns x l : is_Some (next_at ns x l) <-> (l < nhgt ns x)%nat.
Proof.
  unfold next_at, nhgt. destruct (ns !! x) as [nd|]; simpl.
  - apply lookup_lt_is_Some.
  - split; [by intros [? ?]|lia].
Qed.

Lemma nhgt_pos ns x : (0 < nhgt ns x)%nat -> exists nd, ns !! x = Some nd.
Proof. unfold nhgt. destruct (ns !! x); [eauto|lia]. Qed.

(** A pointer store changes exactly one link. *)
Lemma set_next_spec ns x i v :
  (i < nhgt ns x)%nat ->
  exists ns', set_next ns x i v = Some ns' /\ length ns' = length ns /\
    (forall y, nkey ns' y = nkey ns y) /\ (forall y, nhgt ns' y = nhgt ns y) /\
    (forall y l, next_at ns' y l =
       if decide (y = x /\ l = i) then Some v else next_at ns y l).
Proof.
  intros Hi. destruct (nhgt_pos ns x ltac:(lia)) as [nd Hnd].
  unfold set_next, nhgt in *. rewrite Hnd in *. simpl.
  rewrite (proj2 (Nat.ltb_lt _ _)) by done.
  pose proof (lookup_lt_Some _ _ _ Hnd) as Hlt.
  eexists; split; [done|]. split; [apply length_insert|].
  unfold nkey, next_at. split; [|split]; intros y.
  - destruct (decide (y = x)) as [->|].
    + by rewrite list_lookup_insert_eq, Hnd by done.
    + by rewrite list_lookup_insert_ne by done.
  - destruct (decide (y = x)) as [->|].
    + rewrite list_lookup_insert_eq, Hnd by done. simpl. by rewrite length_insert.
    + by rewrite list_lookup_insert_ne by done.
  - intros l. destruct (decide (y = x)) as [->|].
    + rewrite list_lookup_insert_eq, Hnd by done. simpl.
      destruct (decide (l = i)) as [->|].
      * rewrite decide_True by done. by rewrite list_lookup_insert_eq.
      * rewrite decide_False by naive_solver. by rewrite list_lookup_insert_ne.
    + rewrite decide_False by naive_solver. by rewrite list_lookup_insert_ne.
Qed.

(** The linking loop of [Insert], given what [prev] holds. *)
Lemma link_spec ns x prev (p : nat -> nat) (o : nat -> option nat) i n :
  (forall j, (i <= j < i + n)%nat ->
     prev !! j = Some (Some (p j)) /\ next_at ns (p j) j = Some (o j) /\ p j <> x /\
     (j < nhgt ns x)%nat) ->
  exists ns', link ns x prev i n = Some ns' /\ length ns' = length ns /\
    (forall y, nkey ns' y = nkey ns y) /\ (forall y, nhgt ns' y = nhgt ns y) /\
    (forall y l, next_at ns' y l =
       if decide (i <= l < i + n)%nat then
         if decide (y = x) then Some (o l)
         else if decide (y = p l) then Some (Some x) else next_at ns y l
       else next_at ns y l).
Proof.
  revert ns i; induction n as [|n IH]; intros ns i H.
  { exists ns. repeat split. intros y l. rewrite decide_False by lia. done. }
  destruct (H i ltac:(lia)) as (Hp & Ho & Hpx & Hx). cbn [link].
  rewrite Hp. simpl. rewrite Ho. simpl.
  destruct (set_next_spec ns x i (o i) Hx) as (ns1 & -> & L1 & K1 & H1 & N1). simpl.
  assert ((i < nhgt ns1 (p i))%nat) as Hpi.
  { rewrite H1. apply next_at_is_Some. eauto. }
  destruct (set_next_spec ns1 (p i) i (Some x) Hpi) as (ns2 & -> & L2 & K2 & H2 & N2). simpl.
  destruct (IH ns2 (S i)) as (ns' & -> & L' & K' & H' & N').
  { intros j Hj. destruct (H j ltac:(lia)) as (?&?&?&?). rewrite H2, H1, N2, N1.
    rewrite !decide_False by lia. done. }
  exists ns'. split; [done|]. split; [congruence|].
  split; [intros; by rewrite K', K2, K1|]. split; [intros; by rewrite H', H2, H1|].
  intros y l. rewrite N', N2, N1. destruct (decide (l = i)) as [->|Hl].
  - rewrite (decide_False (P := (S i <= i < S i + n)%nat)) by lia.
    rewrite (decide_True (P := (i <= i < i + S n)%nat)) by lia.
    destruct (decide (y = x)) as [->|Hy].
    + rewrite decide_False by (intros [? _]; congruence). by rewrite decide_True.
    + rewrite (decide_False (P := y = x /\ i = i)) by tauto.
      destruct (decide (y = p i)) as [->|]; [by rewrite decide_True|].
      by rewrite decide_False by tauto.
  - rewrite !(decide_False (P := _ /\ l = i)) by tauto.
    destruct (decide (S i <= l < S i + n)%nat).
    + by rewrite (decide_True (P := (i <= l < i + S n)%nat)) by lia.
    + by rewrite (decide_False (P := (i <= l < i + S n)%nat)) by lia.
Qed.
End Views.

Lemma RandomHeight_loop_range fuel h rnd :
  (h <= kMaxHeight)%nat ->
  (h <= (RandomHeight_loop fuel h rnd).1 <= kMaxHeight)%nat.
Proof.
  revert h rnd; induction fuel as [|fuel IH]; intros h rnd Hh; cbn [RandomHeight_loop]; [simpl; lia|].
  destruct (Nat.ltb_spec h kMaxHeight); [|simpl; lia].
  destruct (Random rnd) as [r rnd']. destruct (r mod 4 =? 0); [|simpl; lia].
  specialize (IH (S h) rnd'). lia.
Qed.

Lemma RandomHeight_range rnd : (1 <= (RandomHeight rnd).1 <= kMaxHeight)%nat.
Proof. apply RandomHeight_loop_range. unfold kMaxHeight. lia. Qed.

Lemma raise_prev_spec prev from height i :
  length prev = kMaxHeight -> (height <= kMaxHeight)%nat ->
  raise_prev prev from height !! i =
    if decide (from <= i < height)%nat then Some (Some head_) else prev !! i.
Proof.
  intros Hl Hh. unfold raise_prev.
  assert (forall l, (forall j, j ∈ l -> (j < kMaxHeight)%nat) ->
    length (foldr (fun i prev => <[i := Some head_]> prev) prev l) = kMaxHeight /\
    foldr (fun i prev => <[i := Some head_]> prev) prev l !! i =
      if decide (i ∈ l) then Some (Some head_) else prev !! i) as Hf.
  { induction l as [|j l IH]; intros Hb; [done|]. simpl.
    destruct IH as [IHl IHi]; [intros; apply Hb; set_solver|].
    split; [by rewrite length_insert|].
    destruct (decide (i = j)) as [->|].
    - rewrite list_lookup_insert_eq by (rewrite IHl; apply Hb; set_solver).
      by rewrite decide_True by set_solver.
    - rewrite list_lookup_insert_ne, IHi by done.
      destruct (decide (i ∈ l)); [rewrite decide_True|rewrite decide_False]; set_solver. }
  destruct (Hf (seq from (height - from))) as [_ ->].
  { intros j Hj%elem_of_seq. lia. }
  destruct (decide (i ∈ _)) as [D|D]; rewrite elem_of_seq in D.
  - by rewrite decide_True by lia.
  - by rewrite decide_False by lia.
Qed.

(** * Lists of node indices *)

(** The last element of [pre], or the head node. *)
Definition last_or_head (pre : list nat) : nat := default head_ (last pre).

Lemma last_or_head_snoc pre x : last_or_head (pre ++ [x]) = x.
Proof. unfold last_or_head. by rewrite last_snoc. Qed.

Lemma last_or_head_elem pre : last_or_head pre = head_ \/ last_or_head pre ∈ pre.
Proof.
  unfold last_or_head. destruct (last pre) as [x|] eqn:E; [|by left]. right.
  apply last_Some in E as [l ->]. set_solver.
Qed.

Lemma last_or_head_nil_or (pre : list nat) :
  pre = [] \/ exists pre' x, pre = pre' ++ [x].
Proof. destruct pre as [|x l _] using rev_ind; eauto. Qed.

(** Filtering keeps the last element when it satisfies the predicate. *)
Lemma last_or_head_filter (P : nat -> Prop) `{!forall x, Decision (P x)} pre :
  (pre <> [] -> P (last_or_head pre)) -> last_or_head (filter P pre) = last_or_head pre.
Proof.
  intros HP. destruct (last_or_head_nil_or pre) as [->|(pre' & x & ->)]; [done|].
  rewrite last_or_head_snoc in *. specialize (HP ltac:(by destruct pre')).
  rewrite filter_app, filter_cons_True by done. apply last_or_head_snoc.
Qed.

Lemma elem_of_mid {A} (pre post : list A) x : x ∈ pre ++ x :: post.
Proof. apply elem_of_app. right. apply elem_of_cons. by left. Qed.

Lemma elem_of_mid_r {A} (pre post : list A) x y : y ∈ post -> y ∈ pre ++ x :: post.
Proof. intros. apply elem_of_app. right. apply elem_of_cons. by right. Qed.

Lemma head_filter_split (P : nat -> Prop) `{!forall x, Decision (P x)} l x :
  head (filter P l) = Some x ->
  exists mid post, l = mid ++ x :: post /\ filter P mid = [] /\ P x.
Proof.
  induction l as [|y l IH]; [done|]. rewrite filter_cons. case_decide.
  - intros [= ->]. by exists [], l.
  - intros (mid & post & -> & Hm & Hx)%IH. exists (y :: mid), post.
    by rewrite filter_cons_False.
Qed.

Lemma head_filter_None (P : nat -> Prop) `{!forall x, Decision (P x)} l :
  head (filter P l) = None -> filter P l = [].
Proof. by destruct (filter P l). Qed.

Lemma filter_nil_all (P : nat -> Prop) `{!forall x, Decision (P x)} l :
  filter P l = [] <-> forall x, x ∈ l -> ~ P x.
Proof.
  induction l as [|y l IH]; [set_solver|]. rewrite filter_cons. case_decide.
  - split; [done|]. intros Hx. exfalso. eapply Hx; [apply elem_of_cons; by left|done].
  - rewrite IH. set_solver.
Qed.

Lemma filter_all (P : nat -> Prop) `{!forall x, Decision (P x)} (l : list nat) :
  (forall x, x ∈ l -> P x) -> filter P l = l.
Proof.
  induction l as [|y l IH]; [done|]. intros Hl.
  rewrite filter_cons_True, IH; [done|set_solver..].
Qed.

(** * The representation invariant *)

Section Invariant.
Context {Key : Type} (key0 : Key) (cmp : Key -> Key -> comparison).
Context (P : Key -> Prop) `{Hord : !OrdOn P cmp}.

Local Abbreviation nkey := (nkey key0).

(** [x] comes strictly before [y] in key order. *)
Definition before (ns : list (Node Key)) (x y : nat) : Prop :=
  cmp (nkey ns x) (nkey ns y) = Lt.

(** [ids] lists the data nodes in level-0 order; at every level a node links
    to the next node of [ids] that is tall enough. *)
Record inv (sl : SkipList Key) (ids : list nat) : Prop := {
  inv_head : nhgt (nodes sl) head_ = kMaxHeight;
  inv_nodup : NoDup ids;
  inv_ids : forall x, x ∈ ids <-> (0 < x < length (nodes sl))%nat;
  inv_len : length (nodes sl) = S (length ids);
  inv_size : size_ sl = length ids;
  inv_maxh : (1 <= max_height_ sl <= kMaxHeight)%nat;
  inv_hgt : forall x, x ∈ ids -> (1 <= nhgt (nodes sl) x <= max_height_ sl)%nat;
  inv_links : forall pre post, ids = pre ++ post -> forall l,
    (l < nhgt (nodes sl) (last_or_head pre))%nat ->
    next_at (nodes sl) (last_or_head pre) l
      = Some (head (filter (fun y => (l < nhgt (nodes sl) y)%nat) post));
  inv_keys : forall x, x ∈ ids -> P (nkey (nodes sl) x);
  inv_sorted : StronglySorted (before (nodes sl)) ids
}.

(** The keys held, in order. *)
Definition keys_of (sl : SkipList Key) (ids : list nat) : list Key :=
  map (nkey (nodes sl)) ids.

Lemma inv_new : inv (SkipList_new key0) [].
Proof.
  split; simpl; try done.
  - apply NoDup_nil_2.
  - intros x. split; [set_solver|lia].
  - unfold kMaxHeight. lia.
  - set_solver.
  - intros pre post E l Hl. symmetry in E. apply app_eq_nil in E as [-> ->].
    unfold last_or_head, next_at, nhgt in *. simpl in *.
    do 12 (destruct l as [|l]; [done|]). lia.
  - set_solver.
  - constructor.
Qed.

Lemma StronglySorted_mid ns pre y post :
  StronglySorted (before ns) (pre ++ y :: post) ->
  (forall x, x ∈ pre -> before ns x y) /\ (forall x, x ∈ post -> before ns y x).
Proof.
  induction pre as [|a pre IH]; simpl; intros H; apply StronglySorted_inv in H as [H Ha].
  - split; [set_solver|]. rewrite Forall_forall in Ha. intros x Hx. by apply Ha.
  - apply IH in H as [H1 H2]. split; [|done]. intros x [->|Hx]%elem_of_cons; [|auto].
    rewrite Forall_forall in Ha. apply Ha. set_solver.
Qed.

(** Nodes of [post] tall enough for [level] are not before [key] once the first
    of them is not. *)
Lemma tall_not_lt ns (Q : nat -> Prop) `{!forall x, Decision (Q x)} key pre post :
  StronglySorted (before ns) (pre ++ post) ->
  (forall x, x ∈ pre ++ post -> P (nkey ns x)) -> P key ->
  (forall n, head (filter Q post) = Some n -> cmp (nkey ns n) key <> Lt) ->
  forall y, y ∈ post -> Q y -> cmp (nkey ns y) key <> Lt.
Proof.
  intros Hs HP Hk Hh y Hy HQ. destruct (head (filter Q post)) as [n|] eqn:E.
  - specialize (Hh n eq_refl). apply head_filter_split in E as (mid & post' & -> & Hm & Hn).
    rewrite filter_nil_all in Hm.
    apply elem_of_app in Hy as [Hy|[->|Hy]%elem_of_cons]; [by destruct (Hm y)|done|].
    rewrite (assoc_L (++)) in Hs. apply StronglySorted_mid in Hs as [_ Hs].
    specialize (Hs y Hy). unfold before in Hs. intros Hlt. apply Hh.
    eapply (ord_lt_trans P); [..|exact Hs|exact Hlt]; try done; apply HP; set_solver.
  - apply head_filter_None in E. rewrite filter_nil_all in E. by destruct (E y Hy).
Qed.

Section WithInv.
Context (sl : SkipList Key) (ids : list nat) (Hinv : inv sl ids).
Local Abbreviation ns := (nodes sl).
Local Abbreviation tall l := (fun y => (l < nhgt ns y)%nat).

(** What a search for [key] returns: the split of [ids] at [key], and in
    [prev] the last node before the split at every level walked. *)
Lemma fge_loop_spec key : P key -> forall fuel pre post level prev,
  ids = pre ++ post ->
  (forall y, y ∈ pre -> cmp (nkey ns y) key = Lt) ->
  (level < nhgt ns (last_or_head pre))%nat ->
  length prev = kMaxHeight -> (level < kMaxHeight)%nat ->
  (length post + level < fuel)%nat ->
  exists mid post' prev',
    fge_loop cmp fuel ns key (last_or_head pre) level prev = Some (head post', prev') /\
    post = mid ++ post' /\
    (forall y, y ∈ mid -> cmp (nkey ns y) key = Lt) /\
    (forall y, y ∈ post' -> cmp (nkey ns y) key <> Lt) /\
    length prev' = kMaxHeight /\
    (forall i, (i <= level)%nat ->
       prev' !! i = Some (Some (last_or_head (filter (tall i) (pre ++ mid))))) /\
    (forall i, (level < i)%nat -> prev' !! i = prev !! i).
Proof.
  intros Hk. induction fuel as [|fuel IH]; intros pre post level prev Hids Hpre Hx Hl Hlev Hf;
    [lia|].
  pose proof (inv_links _ _ Hinv pre post Hids level Hx) as Hnext.
  assert (HP : forall y, y ∈ pre ++ post -> P (nkey ns y))
    by (intros; apply (inv_keys _ _ Hinv); by rewrite Hids).
  pose proof (inv_sorted _ _ Hinv) as Hs. rewrite Hids in Hs.
  cbn [fge_loop]. rewrite Hnext. simpl.
  (* the branch that records prev[level] and goes down *)
  assert (Hstop : (forall n, head (filter (tall level) post) = Some n ->
                     cmp (nkey ns n) key <> Lt) ->
    exists mid post' prev',
      match level with
      | O => Some (head (filter (tall level) post), <[level := Some (last_or_head pre)]> prev)
      | S level' => fge_loop cmp fuel ns key (last_or_head pre) level'
                      (<[level := Some (last_or_head pre)]> prev)
      end = Some (head post', prev') /\
      post = mid ++ post' /\ (forall y, y ∈ mid -> cmp (nkey ns y) key = Lt) /\
      (forall y, y ∈ post' -> cmp (nkey ns y) key <> Lt) /\ length prev' = kMaxHeight /\
      (forall i, (i <= level)%nat ->
         prev' !! i = Some (Some (last_or_head (filter (tall i) (pre ++ mid))))) /\
      (forall i, (level < i)%nat -> prev' !! i = prev !! i)).
  { intros Hh. pose proof (tall_not_lt ns (tall level) key pre post Hs HP Hk Hh) as Hge.
    assert (Hlast : forall mid, (forall y, y ∈ mid -> y ∈ post /\ cmp (nkey ns y) key = Lt) ->
              last_or_head (filter (tall level) (pre ++ mid)) = last_or_head pre).
    { intros mid Hmid. rewrite filter_app.
      replace (filter (tall level) mid) with (@nil nat).
      - rewrite app_nil_r. apply last_or_head_filter. done.
      - symmetry. apply filter_nil_all. intros y Hy Ht.
        destruct (Hmid y Hy) as [Hyp Hlt]. by eapply Hge. }
    destruct level as [|level].
    - exists [], post, (<[0%nat := Some (last_or_head pre)]> prev).
      assert (filter (tall 0) post = post) as Hfp.
      { apply filter_all. intros y Hy.
        apply (inv_hgt _ _ Hinv). rewrite Hids. set_solver. }
      rewrite Hfp in *. repeat split.
      + set_solver.
      + intros y Hy. apply Hge; [done|]. apply (inv_hgt _ _ Hinv). rewrite Hids. set_solver.
      + by rewrite length_insert.
      + intros i Hi. assert (i = 0%nat) as -> by lia.
        rewrite list_lookup_insert_eq by lia. do 2 f_equal. symmetry. apply Hlast. set_solver.
      + intros i Hi. by rewrite list_lookup_insert_ne by lia.
    - destruct (IH pre post level (<[S level := Some (last_or_head pre)]> prev))
        as (mid & post' & prev' & -> & -> & Hm & Hp & Hl' & Hle & Hgt);
        try done; try lia; [by rewrite length_insert|].
      exists mid, post', prev'. repeat split; try done.
      + intros i Hi. destruct (decide (i = S level)) as [->|]; [|apply Hle; lia].
        rewrite Hgt, list_lookup_insert_eq by lia. do 2 f_equal. symmetry.
        apply Hlast. intros y Hy. split; [set_solver|auto].
      + intros i Hi. rewrite Hgt, list_lookup_insert_ne by lia. done. }
  destruct (head (filter (tall level) post)) as [n|] eqn:En; [|by apply Hstop].
  apply head_filter_split in En as En'. destruct En' as (mid1 & post1 & -> & Hm1 & Hn).
  destruct (nhgt_pos ns n ltac:(lia)) as [nd Hnd]. rewrite Hnd. simpl.
  assert (Hkn : node_key nd = nkey ns n) by (unfold SkipList.nkey; by rewrite Hnd).
  rewrite Hkn. destruct (cmp (nkey ns n) key) eqn:Ec; try (apply Hstop; intros ? [= <-]; congruence).
  pose proof Hs as Hs'. rewrite (assoc_L (++)) in Hs'.
  apply StronglySorted_mid in Hs' as [Hbefore _].
  destruct (IH (pre ++ mid1 ++ [n]) post1 level prev)
    as (mid & post' & prev' & Hr & -> & Hm & Hp & Hl' & Hle & Hgt); try done.
  - rewrite Hids. by rewrite <- !(assoc_L (++)).
  - intros y Hy. rewrite (assoc_L (++)) in Hy. apply elem_of_app in Hy as [Hy|Hy].
    + eapply (ord_lt_trans P); [..|exact (Hbefore y Hy)|exact Ec]; try done;
        apply HP; set_solver.
    + apply list_elem_of_singleton in Hy as ->. done.
  - rewrite (assoc_L (++)), last_or_head_snoc. done.
  - rewrite !length_app in Hf. simpl in Hf. lia.
  - rewrite (assoc_L (++)), last_or_head_snoc in Hr.
    exists (mid1 ++ n :: mid), post', prev'. repeat split; try done.
    + by rewrite <- (assoc_L (++)).
    + intros y Hy. apply elem_of_app in Hy as [Hy|[->|Hy]%elem_of_cons]; [|done|auto].
      eapply (ord_lt_trans P); [..|apply (Hbefore y); set_solver|exact Ec]; try done;
        apply HP; set_solver.
    + intros i Hi. rewrite Hle by done. do 3 f_equal. rewrite <- !(assoc_L (++)). done.
Qed.

Lemma FindGreaterOrEqual_spec key : P key ->
  exists pre post prev,
    FindGreaterOrEqual cmp sl key = Some (head post, prev) /\ ids = pre ++ post /\
    (forall y, y ∈ pre -> cmp (nkey ns y) key = Lt) /\
    (forall y, y ∈ post -> cmp (nkey ns y) key <> Lt) /\
    length prev = kMaxHeight /\
    (forall i, (i < max_height_ sl)%nat ->
       prev !! i = Some (Some (last_or_head (filter (tall i) pre)))).
Proof.
  intros Hk. pose proof (inv_maxh _ _ Hinv). pose proof (inv_head _ _ Hinv) as Hh.
  pose proof (inv_len _ _ Hinv).
  destruct (fge_loop_spec key Hk (length ns + kMaxHeight) [] ids (max_height_ sl - 1)
              (replicate kMaxHeight None)) as (mid & post' & prev' & Hr & Hi & H1 & H2 & H3 & H4 & _);
    try done; try (by apply length_replicate); try (unfold kMaxHeight in *; lia); [set_solver| |].
  { change (last_or_head []) with head_. rewrite Hh. lia. }
  exists mid, post', prev'. repeat split; try done. intros i Hlt. apply H4. lia.
Qed.

Lemma node_lookup x : x ∈ ids -> exists nd, ns !! x = Some nd /\ node_key nd = nkey ns x.
Proof.
  intros Hx. apply (inv_hgt _ _ Hinv) in Hx.
  destruct (nhgt_pos ns x ltac:(lia)) as [nd E]. exists nd. split; [done|].
  unfold SkipList.nkey. by rewrite E.
Qed.

Lemma ids_not_head x : x ∈ ids -> x <> head_.
Proof. intros Hx%(inv_ids _ _ Hinv). unfold head_. lia. Qed.

(** The last tall node of a prefix, and the link it carries. *)
Lemma tall_link pre post l : ids = pre ++ post -> (l < kMaxHeight)%nat ->
  next_at ns (last_or_head (filter (tall l) pre)) l = Some (head (filter (tall l) post)).
Proof.
  intros Hids Hl.
  assert (exists pre1 rest, pre = pre1 ++ rest /\ filter (tall l) rest = [] /\
            last_or_head pre1 = last_or_head (filter (tall l) pre) /\
            (l < nhgt ns (last_or_head pre1))%nat) as (pre1 & rest & -> & Hr & Hlast & Ht).
  { clear Hids. induction pre as [|y pre IH] using rev_ind.
    - exists [], []. repeat split. unfold last_or_head. simpl. by rewrite (inv_head _ _ Hinv).
    - rewrite filter_app, filter_cons. case_decide as D.
      + exists (pre ++ [y]), []. rewrite app_nil_r, !last_or_head_snoc. done.
      + destruct IH as (pre1 & rest & -> & Hr & Hlast & Ht). exists pre1, (rest ++ [y]).
        rewrite app_nil_r. split; [by rewrite (assoc_L (++))|].
        rewrite filter_app, Hr, filter_cons_False by done. done. }
  rewrite <- Hlast.
  rewrite (inv_links _ _ Hinv pre1 (rest ++ post)); [|by rewrite Hids, <- (assoc_L (++))|done].
  by rewrite filter_app, Hr.
Qed.
End WithInv.

Lemma StronglySorted_impl_in {A} (R R' : A -> A -> Prop) l :
  (forall x y, x ∈ l -> y ∈ l -> R x y -> R' x y) -> StronglySorted R l -> StronglySorted R' l.
Proof.
  induction l as [|a l IH]; intros HR Hs; [constructor|].
  apply StronglySorted_inv in Hs as [Hs Ha]. constructor.
  - apply IH; [|done]. intros. apply HR; set_solver.
  - apply Forall_forall. intros x Hx. rewrite Forall_forall in Ha. apply HR; set_solver.
Qed.

Lemma StronglySorted_insert_mid {A} (R : A -> A -> Prop) pre x post :
  StronglySorted R (pre ++ post) -> (forall y, y ∈ pre -> R y x) ->
  (forall y, y ∈ post -> R x y) -> StronglySorted R (pre ++ x :: post).
Proof.
  induction pre as [|a pre IH]; simpl; intros Hs Hpre Hpost.
  - constructor; [done|]. by apply Forall_forall.
  - apply StronglySorted_inv in Hs as [Hs Ha]. constructor.
    + apply IH; [done| |done]. intros; apply Hpre; set_solver.
    + rewrite Forall_forall in *. intros y Hy.
      apply elem_of_app in Hy as [Hy|[->|Hy]%elem_of_cons];
        [apply Ha; set_solver|apply Hpre; set_solver|apply Ha; set_solver].
Qed.

(** * Insert *)

Lemma sorted_insert_split key (pre post : list Key) :
  (forall y, y ∈ pre -> cmp y key = Lt) -> (forall y, y ∈ post -> cmp y key <> Lt) ->
  sorted_insert cmp key (pre ++ post) =
    pre ++ key :: match post with
                  | y :: post' => match cmp y key with Eq => post' | _ => post end
                  | [] => []
                  end.
Proof.
  intros Hpre Hpost. induction pre as [|a pre IH]; simpl.
  - destruct post as [|y post]; [done|]. simpl.
    pose proof (Hpost y ltac:(set_solver)). by destruct (cmp y key).
  - rewrite Hpre by set_solver. rewrite IH; [done|]. intros; apply Hpre; set_solver.
Qed.

(** Equal key: the node's key is overwritten in place. *)
Lemma insert_equal_inv sl pre x post key nd :
  inv sl (pre ++ x :: post) -> P key -> nodes sl !! x = Some nd ->
  cmp (nkey (nodes sl) x) key = Eq ->
  let sl' := mkSkipList (<[x := mkNode key (node_next nd)]> (nodes sl))
                        (max_height_ sl) (size_ sl) (rnd_ sl) in
  inv sl' (pre ++ x :: post) /\
  keys_of sl' (pre ++ x :: post) =
    map (nkey (nodes sl)) pre ++ key :: map (nkey (nodes sl)) post.
Proof.
  intros Hinv Hk Hnd Hc sl'. set (ids := pre ++ x :: post) in *.
  pose proof (lookup_lt_Some _ _ _ Hnd) as Hlt.
  assert (Hx : x ∈ ids) by (unfold ids; set_solver).
  assert (HH : forall y, nhgt (nodes sl') y = nhgt (nodes sl) y).
  { intros y. unfold nhgt, sl'; simpl. destruct (decide (y = x)) as [->|].
    - by rewrite list_lookup_insert_eq, Hnd. - by rewrite list_lookup_insert_ne. }
  assert (HN : forall y l, next_at (nodes sl') y l = next_at (nodes sl) y l).
  { intros y l. unfold next_at, sl'; simpl. destruct (decide (y = x)) as [->|].
    - by rewrite list_lookup_insert_eq, Hnd. - by rewrite list_lookup_insert_ne. }
  assert (HK : forall y, nkey (nodes sl') y = if decide (y = x) then key else nkey (nodes sl) y).
  { intros y. unfold SkipList.nkey, sl'; simpl. destruct (decide (y = x)) as [->|].
    - by rewrite list_lookup_insert_eq. - by rewrite list_lookup_insert_ne. }
  pose proof (inv_keys _ _ Hinv) as HP.
  assert (HP' : forall y, y ∈ ids -> P (nkey (nodes sl') y)).
  { intros y Hy. rewrite HK. case_decide; auto. }
  split.
  - split; try apply Hinv; try done.
    + by rewrite HH, (inv_head _ _ Hinv).
    + intros y. unfold sl'; simpl. rewrite length_insert. apply Hinv.
    + unfold sl'; simpl. rewrite length_insert. apply Hinv.
    + intros y Hy. rewrite HH. by apply (inv_hgt _ _ Hinv).
    + intros pre' post' E l. rewrite HH, HN. intros Hl.
      rewrite (inv_links _ _ Hinv pre' post' E l Hl). do 2 f_equal.
      apply list_filter_iff. intros y. by rewrite HH.
    + eapply StronglySorted_impl_in; [|apply (inv_sorted _ _ Hinv)].
      intros a b Ha Hb. unfold before. rewrite !HK.
      repeat case_decide; subst; intros E.
      * by rewrite (ord_refl P) in E by auto.
      * rewrite <- E. symmetry. by apply (ord_eq_cong_l P); auto.
      * rewrite <- E. symmetry. by apply (ord_eq_cong_r P); auto.
      * done.
  - assert (Hne : forall y, y ∈ pre ++ post -> y <> x).
    { pose proof (inv_nodup _ _ Hinv) as Hnd'. unfold ids in Hnd'.
      apply NoDup_app in Hnd' as (_ & H2 & H3). apply NoDup_cons in H3 as [H3 _].
      intros y Hy ->. apply elem_of_app in Hy as [Hy|Hy]; [|done]. eapply H2; [done|set_solver]. }
    unfold keys_of, ids. rewrite map_app. simpl. rewrite HK, decide_True by done.
    f_equal; [|f_equal]; apply map_ext_in; intros y Hy%list_elem_of_In;
      rewrite HK, decide_False; try done; apply Hne; set_solver.
Qed.

(** New key: the array grows by one node, linked in after [pre]. *)
Section InsertNew.
Context (sl : SkipList Key) (pre post : list nat) (Hinv : inv sl (pre ++ post)).
Context (key : Key) (Hk : P key) (height : nat) (Hh : (1 <= height <= kMaxHeight)%nat).
Context (Hpre : forall y, y ∈ pre -> cmp (nkey (nodes sl) y) key = Lt).
Context (Hpost : forall y, y ∈ post -> cmp key (nkey (nodes sl) y) = Lt).
Local Abbreviation ns := (nodes sl).
Local Abbreviation tall l := (fun y => (l < nhgt ns y)%nat).
Local Abbreviation x := (length (nodes sl)).
Let ns1 := ns ++ [NewNode key height].

Local Lemma ns1_key y : (y < x)%nat -> nkey ns1 y = nkey ns y.
Proof. intros. unfold SkipList.nkey, ns1. by rewrite lookup_app_l. Qed.
Local Lemma ns1_key_new : nkey ns1 x = key.
Proof. unfold SkipList.nkey, ns1. by rewrite lookup_app_r, Nat.sub_diag by done. Qed.
Local Lemma ns1_hgt y : (y < x)%nat -> nhgt ns1 y = nhgt ns y.
Proof. intros. unfold nhgt, ns1. by rewrite lookup_app_l. Qed.
Local Lemma ns1_hgt_new : nhgt ns1 x = height.
Proof.
  unfold nhgt, ns1. rewrite lookup_app_r, Nat.sub_diag by done. simpl. apply length_replicate.
Qed.
Local Lemma ns1_next y l : (y < x)%nat -> next_at ns1 y l = next_at ns y l.
Proof. intros. unfold next_at, ns1. by rewrite lookup_app_l. Qed.

Local Lemma id_lt y : y ∈ pre ++ post -> (0 < y < x)%nat.
Proof. apply (inv_ids _ _ Hinv). Qed.
Local Lemma x_pos : (0 < x)%nat.
Proof. rewrite (inv_len _ _ Hinv). lia. Qed.
Local Lemma last_lt pre' : (forall y, y ∈ pre' -> y ∈ pre ++ post) -> (last_or_head pre' < x)%nat.
Proof.
  intros H. destruct (last_or_head_elem pre') as [->|Hy]; [apply x_pos|].
  apply H, id_lt in Hy. lia.
Qed.

Let p (l : nat) : nat := last_or_head (filter (tall l) pre).
Let o (l : nat) : option nat := head (filter (tall l) post).

Local Lemma p_lt l : (p l < x)%nat.
Proof. apply last_lt. intros y Hy%list_elem_of_filter. set_solver. Qed.

(** Where the new node stands among its predecessors and successors. *)
Local Lemma links_new (ns' : list (Node Key)) :
  (forall y, nhgt ns' y = nhgt ns1 y) ->
  (forall y l, next_at ns' y l =
     if decide (0 <= l < 0 + height)%nat then
       if decide (y = x) then Some (o l)
       else if decide (y = p l) then Some (Some x) else next_at ns1 y l
     else next_at ns1 y l) ->
  forall pre' post', pre ++ x :: post = pre' ++ post' -> forall l,
    (l < nhgt ns' (last_or_head pre'))%nat ->
    next_at ns' (last_or_head pre') l
      = Some (head (filter (fun y => (l < nhgt ns' y)%nat) post')).
Proof.
  intros HH HN pre' post' E l Hl.
  assert (Hsame : forall q : list nat, (forall y, y ∈ q -> y ∈ pre ++ post) ->
            filter (fun y => (l < nhgt ns' y)%nat) q = filter (tall l) q).
  { induction q as [|y q IH]; intros Hq; [done|]. rewrite !filter_cons, IH by set_solver.
    rewrite HH, ns1_hgt by (apply id_lt, Hq; set_solver). done. }
  rewrite HH in Hl. rewrite HN.
  assert ((exists r, pre = pre' ++ r /\ post' = r ++ x :: post) \/
          (exists r, pre' = pre ++ x :: r /\ post = r ++ post')) as [(r & Ep & ->)|(r & -> & Ep)].
  { apply app_eq_app in E as (r & [[-> ->] | [-> Ep]]); [left; by exists r|].
    destruct r as [|x' r]; simpl in Ep.
    - left. exists []. by rewrite !app_nil_r.
    - injection Ep as <- ->. right. by exists r. }
  - (* the split is inside pre *)
    assert (Hy : (last_or_head pre' < x)%nat) by (apply last_lt; set_solver).
    rewrite ns1_hgt in Hl by done. rewrite ns1_next by done.
    rewrite (decide_False (P := last_or_head pre' = x)) by lia.
    rewrite (inv_links _ _ Hinv pre' (r ++ post)) by (done || by rewrite Ep, (assoc_L (++))).
    rewrite !filter_app, filter_cons, (Hsame r), (Hsame post) by set_solver.
    rewrite HH, ns1_hgt_new. unfold p. rewrite Ep, filter_app.
    destruct (decide (0 <= l < 0 + height)%nat) as [Hlh|Hlh];
      [rewrite (decide_True (P := (l < height)%nat)) by lia
      |rewrite (decide_False (P := (l < height)%nat)) by lia; done].
    destruct (filter (tall l) r) as [|z zs] eqn:Er.
    + rewrite app_nil_r, last_or_head_filter by done. by rewrite decide_True.
    + rewrite decide_False; [done|]. intros Hlast.
      assert (Hzr : last_or_head (filter (tall l) pre' ++ z :: zs) ∈ r).
      { unfold last_or_head. rewrite last_app_cons.
        destruct (last (z :: zs)) as [w|] eqn:Ew; [|by apply last_None in Ew].
        simpl. apply last_Some_elem_of in Ew. rewrite <- Er in Ew.
        apply list_elem_of_filter in Ew. tauto. }
      rewrite <- Hlast in Hzr. pose proof (inv_nodup _ _ Hinv) as Hnd.
      destruct (last_or_head_elem pre') as [E0|E0].
      * rewrite E0 in Hzr. eapply (ids_not_head sl _ Hinv head_); [set_solver|done].
      * rewrite Ep, <- !(assoc_L (++)) in Hnd. apply NoDup_app in Hnd as (_ & Hd & _).
        eapply Hd; [exact E0|set_solver].
  - (* the split is at or after the new node *)
    rewrite (Hsame post') by set_solver.
    destruct (last_or_head_nil_or r) as [->|(r' & z & ->)].
    + rewrite last_or_head_snoc in *.
      rewrite ns1_hgt_new in Hl. rewrite decide_True by lia. rewrite decide_True by done.
      unfold o. by rewrite Ep.
    + replace (pre ++ x :: r' ++ [z]) with ((pre ++ x :: r') ++ [z]) in *
        by by rewrite <- (assoc_L (++)).
      rewrite last_or_head_snoc in *.
      assert (Hz : z ∈ pre ++ post) by set_solver. apply id_lt in Hz as Hzl.
      rewrite ns1_hgt in Hl by lia.
      assert (next_at ns z l = Some (head (filter (tall l) post'))) as Hz'.
      { pose proof (inv_links _ _ Hinv (pre ++ r' ++ [z]) post') as HL.
        rewrite (assoc_L (++) pre), last_or_head_snoc in HL. apply HL; [|done].
        rewrite Ep. by rewrite <- !(assoc_L (++)). }
      rewrite (decide_False (P := z = x)) by lia. rewrite ns1_next, Hz' by lia.
      case_decide; [|done]. rewrite decide_False; [done|]. intros ->.
      destruct (last_or_head_elem (filter (tall l) pre)) as [E0|E0].
      * unfold p in Hz. rewrite E0 in Hz. by eapply (ids_not_head sl _ Hinv head_).
      * apply list_elem_of_filter in E0 as [_ E0].
        pose proof (inv_nodup _ _ Hinv) as Hnd. apply NoDup_app in Hnd as (_ & Hd & _).
        eapply Hd; [exact E0|]. rewrite Ep. unfold p. set_solver.
Qed.

(** Linking succeeds and re-establishes the invariant. *)
Lemma insert_new_inv prev rnd :
  (forall i, (i < height)%nat -> prev !! i = Some (Some (p i))) ->
  exists ns', link ns1 x prev 0 height = Some ns' /\
    let sl' := mkSkipList ns' (Nat.max (max_height_ sl) height) (S (size_ sl)) rnd in
    inv sl' (pre ++ x :: post) /\
    keys_of sl' (pre ++ x :: post) = map (nkey ns) pre ++ key :: map (nkey ns) post.
Proof.
  intros Hprev. pose proof x_pos.
  destruct (link_spec key0 ns1 x prev p o 0 height) as (ns' & Hl & Hlen & HK & HH & HN).
  { intros j Hj. split; [apply Hprev; lia|]. pose proof (p_lt j).
    rewrite ns1_hgt_new, ns1_next by lia. repeat split; try lia.
    unfold p, o. apply (tall_link sl (pre ++ post) Hinv); [done|lia]. }
  exists ns'. split; [done|]. intros sl'.
  assert (Hlen' : length ns' = S x) by (rewrite Hlen; unfold ns1; rewrite length_app; simpl; lia).
  assert (Hkx : nkey ns' x = key) by (by rewrite HK, ns1_key_new).
  assert (Hky : forall y, y ∈ pre ++ post -> nkey ns' y = nkey ns y).
  { intros y Hy%id_lt. rewrite HK. apply ns1_key. lia. }
  assert (Hmem : forall y, y ∈ pre ++ x :: post <-> y = x \/ y ∈ pre ++ post).
  { intros y. rewrite !elem_of_app, elem_of_cons. tauto. }
  split.
  - split; unfold sl'; simpl.
    + rewrite HH, ns1_hgt by done. apply Hinv.
    + pose proof (inv_nodup _ _ Hinv) as Hnd.
      assert (x ∉ pre ++ post) as Hx by (intros Hx%id_lt; lia).
      apply NoDup_app in Hnd as (H1 & H2 & H3). apply NoDup_app. repeat split; try done.
      * intros y Hy1 Hy2. apply elem_of_cons in Hy2 as [->|Hy2]; [set_solver|by eapply H2].
      * apply NoDup_cons. split; [set_solver|done].
    + intros y. rewrite Hmem, (inv_ids _ _ Hinv), Hlen'. lia.
    + rewrite Hlen', (inv_len _ _ Hinv), !length_app. simpl. lia.
    + rewrite (inv_size _ _ Hinv), !length_app. simpl. lia.
    + pose proof (inv_maxh _ _ Hinv). lia.
    + intros y [->|Hy]%Hmem.
      * rewrite HH, ns1_hgt_new. lia.
      * rewrite HH, ns1_hgt by (apply id_lt in Hy; lia). apply (inv_hgt _ _ Hinv) in Hy. lia.
    + intros pre' post' E l. by apply links_new.
    + intros y [->|Hy]%Hmem; [by rewrite Hkx|]. rewrite Hky by done. by apply (inv_keys _ _ Hinv).
    + apply StronglySorted_insert_mid; unfold before.
      * eapply StronglySorted_impl_in; [|apply (inv_sorted _ _ Hinv)].
        intros a b Ha Hb. unfold before. by rewrite !Hky.
      * intros y Hy. rewrite Hkx, Hky by set_solver. auto.
      * intros y Hy. rewrite Hkx, Hky by set_solver. auto.
  - unfold keys_of, sl'. rewrite map_app. simpl. rewrite Hkx.
    f_equal; [|f_equal]; apply map_ext_in; intros y Hy%list_elem_of_In;
      apply Hky; set_solver.
Qed.
End InsertNew.

(** [Insert] never fails, keeps the invariant and inserts in order. *)
Lemma Insert_spec sl ids key : inv sl ids -> P key ->
  exists sl' ids', Insert cmp sl key = Some sl' /\ inv sl' ids' /\
    keys_of sl' ids' = sorted_insert cmp key (keys_of sl ids).
Proof.
  intros Hinv Hk.
  destruct (FindGreaterOrEqual_spec sl ids Hinv key Hk)
    as (pre & post & prev & Hf & -> & Hpre & Hpost & Hlp & Hprev).
  assert (Hspec : sorted_insert cmp key (keys_of sl (pre ++ post)) =
            map (nkey (nodes sl)) pre ++ key ::
            match map (nkey (nodes sl)) post with
            | y :: post' => match cmp y key with Eq => post' | _ => y :: post' end
            | [] => []
            end).
  { unfold keys_of. rewrite map_app, sorted_insert_split.
    - by destruct post.
    - intros y (z & -> & Hz)%list_elem_of_fmap. auto.
    - intros y (z & -> & Hz)%list_elem_of_fmap. auto. }
  unfold Insert. rewrite Hf. cbn [mbind option_bind].
  (* the allocation branch *)
  assert (Hnew : (forall y, y ∈ post -> cmp key (nkey (nodes sl) y) = Lt) ->
    let '(height, rnd) := RandomHeight (rnd_ sl) in
    exists sl' ids',
      (ns ← link (nodes sl ++ [NewNode key height]) (length (nodes sl))
              (if (max_height_ sl <? height)%nat then raise_prev prev (max_height_ sl) height
               else prev) 0 height;
       Some (mkSkipList ns (if (max_height_ sl <? height)%nat then height else max_height_ sl)
                        (S (size_ sl)) rnd)) = Some sl' /\ inv sl' ids' /\
      keys_of sl' ids' = map (nkey (nodes sl)) pre ++ key :: map (nkey (nodes sl)) post).
  { intros Hlt. pose proof (RandomHeight_range (rnd_ sl)) as Hh.
    destruct (RandomHeight (rnd_ sl)) as [height rnd]. simpl in Hh.
    pose proof (inv_maxh _ _ Hinv) as Hmh.
    replace (if (max_height_ sl <? height)%nat then height else max_height_ sl)
      with (Nat.max (max_height_ sl) height) by (destruct (Nat.ltb_spec (max_height_ sl) height); lia).
    destruct (insert_new_inv sl pre post Hinv key Hk height Hh Hpre Hlt
      (if (max_height_ sl <? height)%nat then raise_prev prev (max_height_ sl) height else prev) rnd)
      as (ns' & -> & Hi & Hks).
    - intros i Hi. destruct (Nat.ltb_spec (max_height_ sl) height); [|apply Hprev; lia].
      rewrite raise_prev_spec by (done || lia). case_decide; [|apply Hprev; lia].
      do 2 f_equal. replace (filter _ pre) with (@nil nat); [done|]. symmetry.
      apply filter_nil_all. intros y Hy Ht.
      assert (y ∈ pre ++ post) as Hy' by set_solver. apply (inv_hgt _ _ Hinv) in Hy'. lia.
    - simpl. eauto. }
  destruct post as [|x post].
  { destruct (RandomHeight (rnd_ sl)). simpl in Hspec. rewrite Hspec. apply Hnew.
    intros y Hy. by apply elem_of_nil in Hy. }
  change (head (x :: post)) with (Some x). cbv iota. destruct (node_lookup sl _ Hinv x (elem_of_mid _ _ _)) as (nd & Hnd & Hkx).
  rewrite Hnd. cbn [mbind option_bind]. rewrite Hkx. simpl in Hspec. rewrite Hspec.
  assert (HPx : P (nkey (nodes sl) x)) 
    by apply (inv_keys _ _ Hinv), elem_of_mid.
  pose proof (Hpost x ltac:(apply elem_of_cons; by left)) as Hxk.
  unfold Equal. destruct (cmp key (nkey (nodes sl) x)) eqn:Ec.
  - apply (ord_eq_sym P) in Ec; [|done..]. rewrite Ec.
    destruct (insert_equal_inv sl pre x post key nd Hinv Hk Hnd Ec) as [Hi Hks]. eauto.
  - replace (cmp (nkey (nodes sl) x) key) with Gt by (symmetry; by apply (ord_lt_gt P)).
    destruct (RandomHeight (rnd_ sl)). apply Hnew.
    intros y [->|Hy]%elem_of_cons; [done|]. pose proof (inv_sorted _ _ Hinv) as Hs.
    apply StronglySorted_mid in Hs as [_ Hs]. eapply (ord_lt_trans P); [..|exact Ec|by apply Hs];
      try done. by apply (inv_keys _ _ Hinv), elem_of_mid_r.
  - destruct Hxk. apply (ord_gt_lt P); [done..|exact Ec].
Qed.

(** * Search and iteration *)

Lemma seek_list_split key (pre post : list Key) :
  (forall y, y ∈ pre -> cmp y key = Lt) -> (forall y, y ∈ post -> cmp y key <> Lt) ->
  seek_list cmp key (pre ++ post) = post.
Proof.
  intros Hpre Hpost. induction pre as [|a pre IH]; simpl.
  - destruct post as [|y post]; [done|]. simpl. unfold not_lt.
    pose proof (Hpost y ltac:(set_solver)). by destruct (cmp y key).
  - unfold not_lt. rewrite Hpre by set_solver. apply IH. intros; apply Hpre; set_solver.
Qed.

Lemma iterate_from_spec sl ids pre post fuel : inv sl ids -> ids = pre ++ post ->
  (length post < fuel)%nat ->
  iterate_from fuel sl (head post) = Some (map (nkey (nodes sl)) post).
Proof.
  intros Hinv. revert pre fuel; induction post as [|x post IH]; intros pre fuel Hids Hf;
    (destruct fuel as [|fuel]; [simpl in Hf; lia|]); [done|].
  destruct (node_lookup sl _ Hinv x ltac:(rewrite Hids; apply elem_of_mid)) as (nd & Hnd & Hkx).
  cbn [iterate_from head iter_Valid iter_key iter_Next]. simpl. rewrite Hnd. simpl.
  assert (Hx : x ∈ ids) by (rewrite Hids; apply elem_of_mid).
  assert (Hl : ids = (pre ++ [x]) ++ post) by (by rewrite <- (assoc_L (++))).
  pose proof (inv_links _ _ Hinv _ _ Hl 0%nat) as Hn. rewrite last_or_head_snoc in Hn.
  rewrite Hn by (apply (inv_hgt _ _ Hinv) in Hx; lia).
  rewrite filter_all by (intros y Hy; apply (inv_hgt _ _ Hinv); rewrite Hids; by apply elem_of_mid_r).
  simpl. rewrite (IH (pre ++ [x]) fuel Hl) by (simpl in Hf; lia). simpl. by rewrite Hkx.
Qed.

(** What every observer sees: the sorted list of keys. *)
Lemma observers_spec sl ids : inv sl ids ->
  Iterate sl = Some (keys_of sl ids) /\ Size sl = length (keys_of sl ids) /\
  forall key, P key ->
    Find cmp sl key = Some (head (seek_list cmp key (keys_of sl ids))) /\
    (it ← iter_Seek cmp sl key; iterate_from (S (length (nodes sl))) sl it)
      = Some (seek_list cmp key (keys_of sl ids)) /\
    Contains cmp sl key
      = Some (match seek_list cmp key (keys_of sl ids) with
              | x :: _ => Equal cmp key x | [] => false end).
Proof.
  intros Hinv. pose proof (inv_len _ _ Hinv) as Hlen. split; [|split].
  - unfold Iterate, iter_SeekToFirst.
    pose proof (inv_links _ _ Hinv [] ids eq_refl 0%nat) as Hn.
    change (last_or_head []) with head_ in Hn. rewrite Hn by
      (rewrite (inv_head _ _ Hinv); unfold kMaxHeight; lia).
    rewrite filter_all by (intros y Hy; apply (inv_hgt _ _ Hinv); done). cbn [mbind option_bind].
    apply (iterate_from_spec sl ids [] ids); [done..|lia].
  - unfold Size, keys_of. rewrite length_map. apply Hinv.
  - intros key Hk.
    destruct (FindGreaterOrEqual_spec sl ids Hinv key Hk)
      as (pre & post & prev & Hf & Hids & Hpre & Hpost & _ & _).
    assert (seek_list cmp key (keys_of sl ids) = map (nkey (nodes sl)) post) as ->.
    { unfold keys_of. rewrite Hids, map_app. apply seek_list_split.
      - intros y (z & -> & Hz)%list_elem_of_fmap. auto.
      - intros y (z & -> & Hz)%list_elem_of_fmap. auto. }
    unfold Find, Contains, iter_Seek. rewrite Hf. cbn [mbind option_bind fst].
    split; [|split].
    + destruct post as [|x post]; [done|]. simpl.
      destruct (node_lookup sl _ Hinv x ltac:(rewrite Hids; apply elem_of_mid)) as (nd & -> & Hkx).
      simpl. by rewrite Hkx.
    + apply (iterate_from_spec sl ids pre post); [done..|].
      rewrite Hlen, Hids, length_app. lia.
    + destruct post as [|x post]; [done|]. simpl.
      destruct (node_lookup sl _ Hinv x ltac:(rewrite Hids; apply elem_of_mid)) as (nd & -> & Hkx).
      simpl. by rewrite Hkx.
Qed.

(** [represents sl ks]: the structure is well formed and holds [ks] in order. *)
Definition represents (sl : SkipList Key) (ks : list Key) : Prop :=
  exists ids, inv sl ids /\ keys_of sl ids = ks.

(** An iterator standing before the keys [rest]. *)
Definition iter_at (sl : SkipList Key) (it : option nat) (rest : list Key) : Prop :=
  exists pre post, inv sl (pre ++ post) /\ it = head post /\ rest = map (nkey (nodes sl)) post.

Lemma iter_SeekToFirst_at sl ks : represents sl ks ->
  exists it, iter_SeekToFirst sl = Some it /\ iter_at sl it ks.
Proof.
  intros (ids & Hinv & <-). exists (head ids). split; [|by exists [], ids].
  unfold iter_SeekToFirst. pose proof (inv_links _ _ Hinv [] ids eq_refl 0%nat) as Hn.
  change (last_or_head []) with head_ in Hn. rewrite Hn by (rewrite (inv_head _ _ Hinv); unfold kMaxHeight; lia).
  by rewrite filter_all by (intros y Hy; apply (inv_hgt _ _ Hinv); done).
Qed.

Lemma iter_Seek_at sl ks key : represents sl ks -> P key ->
  exists it, iter_Seek cmp sl key = Some it /\ iter_at sl it (seek_list cmp key ks).
Proof.
  intros (ids & Hinv & <-) Hk.
  destruct (FindGreaterOrEqual_spec sl ids Hinv key Hk) as (pre & post & prev & Hf & Hids & Hpre & Hpost & _ & _).
  exists (head post). unfold iter_Seek. rewrite Hf. split; [done|].
  exists pre, post. split; [by rewrite <- Hids|]. split; [done|]. unfold keys_of. rewrite Hids, map_app.
  apply seek_list_split; intros y (z & -> & Hz)%list_elem_of_fmap; auto.
Qed.

Lemma iter_at_cons sl it k rest : iter_at sl it (k :: rest) ->
  iter_Valid it = true /\ iter_key sl it = Some k /\
  exists it', iter_Next sl it = Some it' /\ iter_at sl it' rest.
Proof.
  intros (pre & [|x post] & Hinv & -> & Hr); [done|]. cbn [map] in Hr. injection Hr as -> ->.
  destruct (node_lookup sl _ Hinv x (elem_of_mid _ _ _)) as (nd & Hnd & Hkx).
  split; [done|]. split; [unfold iter_key; simpl; by rewrite Hnd; simpl; rewrite Hkx|].
  exists (head post). assert (Hl : pre ++ x :: post = (pre ++ [x]) ++ post) by (by rewrite <- (assoc_L (++))).
  split; [|exists (pre ++ [x]), post; by rewrite <- Hl].
  unfold iter_Next. simpl. pose proof (inv_links _ _ Hinv _ _ Hl 0%nat) as Hn. rewrite last_or_head_snoc in Hn.
  assert (Hx : x ∈ pre ++ x :: post) by apply elem_of_mid.
  rewrite Hn by (apply (inv_hgt _ _ Hinv) in Hx; lia).
  by rewrite filter_all by (intros y Hy; apply (inv_hgt _ _ Hinv); by apply elem_of_mid_r).
Qed.

Lemma iter_at_nil sl it : iter_at sl it [] -> iter_Valid it = false.
Proof. by intros (pre & [|x post] & _ & -> & Hr). Qed.

Lemma represents_length sl ks : represents sl ks -> (length ks <= length (nodes sl))%nat.
Proof.
  intros (ids & Hinv & <-). unfold keys_of. rewrite length_map, (inv_len _ _ Hinv). lia.
Qed.

Lemma represents_new : represents (SkipList_new key0) [].
Proof. exists []. split; [apply inv_new|done]. Qed.

Lemma represents_insert sl ks key : represents sl ks -> P key ->
  exists sl', Insert cmp sl key = Some sl' /\ represents sl' (sorted_insert cmp key ks).
Proof.
  intros (ids & Hinv & <-) Hk.
  destruct (Insert_spec sl ids key Hinv Hk) as (sl' & ids' & -> & Hi & Hks).
  exists sl'. split; [done|]. by exists ids'.
Qed.

Lemma represents_forall sl ks : represents sl ks -> Forall P ks.
Proof.
  intros (ids & Hinv & <-). apply Forall_forall. intros k (x & -> & Hx)%list_elem_of_fmap.
  by apply (inv_keys _ _ Hinv).
Qed.

Lemma represents_sorted sl ks : represents sl ks ->
  StronglySorted (fun a b => cmp a b = Lt) ks.
Proof.
  intros (ids & Hinv & <-). pose proof (inv_sorted _ _ Hinv) as Hs. unfold keys_of.
  clear Hinv. induction Hs as [|x l Hs IH Hx]; simpl; [constructor|].
  constructor; [done|]. apply Forall_map. done.
Qed.

(** * Properties *)

Definition inserts (sl : SkipList Key) (ks : list Key) : option (SkipList Key) :=
  foldl (fun o k => sl ← o; Insert cmp sl k) (Some sl) ks.

(** C20: the skip list refines a sorted list without duplicates: after any
    sequence of inserts no operation has read a pointer out of range, every
    level's links are as the search needs them, the keys enumerate in
    increasing order, and [Find]/[Contains]/[Size]/[Seek] answer from that
    list.  The node heights are those the generator draws. *)
Theorem skiplist_refines_sorted_list (ks : list Key) : Forall P ks ->
  exists sl, inserts (SkipList_new key0) ks = Some sl /\
    let spec := foldl (fun l k => sorted_insert cmp k l) [] ks in
    StronglySorted (fun a b => cmp a b = Lt) spec /\
    Iterate sl = Some spec /\ Size sl = length spec /\
    forall key, P key ->
      Find cmp sl key = Some (head (seek_list cmp key spec)) /\
      (it ← iter_Seek cmp sl key; iterate_from (S (length (nodes sl))) sl it)
        = Some (seek_list cmp key spec) /\
      Contains cmp sl key = Some (match seek_list cmp key spec with
                                  | x :: _ => Equal cmp key x | [] => false end).
Proof.
  intros Hks.
  assert (exists sl, inserts (SkipList_new key0) ks = Some sl /\
            represents sl (foldl (fun l k => sorted_insert cmp k l) [] ks)) as (sl & E & Hr).
  { unfold inserts. pose proof represents_new as H0. revert H0.
    generalize (SkipList_new key0) (@nil Key).
    induction Hks as [|k ks Hk _ IH]; intros sl l Hr; [by exists sl|]. simpl.
    destruct (represents_insert sl l k Hr Hk) as (sl' & -> & Hr'). by apply IH. }
  exists sl. split; [done|]. intros spec. split; [by eapply represents_sorted|].
  destruct Hr as (ids & Hinv & Hk). unfold spec. rewrite <- Hk. by apply observers_spec.
Qed.
End Invariant.

(** Forty keys in a scrambled order, so that several levels are in use. *)
Lemma skiplist_refines_sorted_list_witness :
  exists sl, inserts Z.compare (SkipList_new 0)
               (map (fun i => (Z.of_nat i * 17) mod 40) (seq 0 40)) = Some sl /\
             (1 < max_height_ sl)%nat /\
             Iterate sl = Some (map Z.of_nat (seq 0 40)).
Proof.
  assert (Hord : OrdOn (fun _ : Z => True) Z.compare).
  { split; intros; [apply Z.compare_antisym|].
    rewrite Z.compare_ngt_iff in *. lia. }
  destruct (skiplist_refines_sorted_list 0 Z.compare (fun _ => True)
    (map (fun i => (Z.of_nat i * 17) mod 40) (seq 0 40))) as (sl & E & _ & Hi & _).
  { apply Forall_forall. done. }
  exists sl. split; [exact E|]. split.
  - revert E. vm_compute. intros [= <-]. vm_compute. lia.
  - rewrite Hi. vm_compute. reflexivity.
Defined.
