(* ===== verification/Run.v ===== *)
(** Runs: the reference view of a table's contents.

    A MemTable, an SSTable and the merged view of several of them are all sets of
    (internal key, value) pairs; a table holds its set as a run, strictly sorted
    by internal key.  A read at a snapshot answers from the newest version of the
    key that the snapshot sees.  Every layer's lookup is proved against [newest]. *)
From S2P Require Import Prelude Slice Encoding InternalKey.

Abbreviation ikv := (bytes * bytes)%type.

Definition ikv_cmp (a b : ikv) : comparison := CompareInternalKey a.1 b.1.

(** Entries the engine writes: an internal key with one of the two types, both
    strings short enough for their length to be encoded. *)
Record ikv_wf (e : ikv) : Prop := {
  ikv_key_wf : ikey_wf e.1;
  ikv_type : bz (ExtractValueType e.1) <= 1;
  ikv_key_len : len32 e.1;
  ikv_val_len : len32 e.2
}.

#[global] Instance ikv_wf_dec e : Decision (ikv_wf e).
Proof.
  destruct (decide (ikey_wf e.1 /\ bz (ExtractValueType e.1) <= 1 /\
    Z.of_nat (length e.1) < 2 ^ 32 /\ Z.of_nat (length e.2) < 2 ^ 32)) as [D|D].
  - left. abstract (destruct D as (? & ? & ? & ?); by constructor).
  - right. abstract (intros [? ? ? ?]; by apply D).
Defined.

#[global] Instance ikv_cmp_ord : OrdOn (fun e : ikv => ikey_wf e.1) ikv_cmp.
Proof.
  split; unfold ikv_cmp.
  - intros x y. apply ord_sym.
  - intros x y z. apply (ord_trans (P:=ikey_wf)).
Qed.

Definition run_sorted (r : list ikv) : Prop := StronglySorted (fun a b => ikv_cmp a b = Lt) r.

Definition run_wf (r : list ikv) : Prop := Forall ikv_wf r /\ run_sorted r.

(** Two entries with one internal key are one entry. *)
Definition keys_unique (es : list ikv) : Prop :=
  forall a b, a ∈ es -> b ∈ es -> a.1 = b.1 -> a = b.

(** * Reading at a snapshot *)

Definition visible (u : bytes) (snapshot : Z) (e : ikv) : Prop :=
  ExtractUserKey e.1 = u /\ ExtractSequence e.1 <= snapshot.

#[global] Instance visible_dec u s e : Decision (visible u s e).
Proof. unfold visible. apply _. Defined.

Fixpoint newest (u : bytes) (snapshot : Z) (es : list ikv) : option ikv :=
  match es with
  | [] => None
  | e :: es =>
    let r := newest u snapshot es in
    if decide (visible u snapshot e) then
      match r with
      | Some e' => if packed_of e.1 <? packed_of e'.1 then Some e' else Some e
      | None => Some e
      end
    else r
  end.

(** [None] is a tombstone. *)
Definition read_entry (e : ikv) : option bytes :=
  if decide (ExtractValueType e.1 = kTypeDeletion) then None else Some e.2.

(** [None]: the table says nothing of the key; [Some None]: it is deleted. *)
Definition lookup_run (u : bytes) (snapshot : Z) (es : list ikv) : option (option bytes) :=
  read_entry <$> newest u snapshot es.

(** The entries from the first one whose key is not before [target]. *)
Fixpoint seek_run (target : bytes) (r : list ikv) : list ikv :=
  match r with
  | [] => []
  | e :: r' => match CompareInternalKey e.1 target with Lt => seek_run target r' | _ => r end
  end.

(** * [newest] as a maximum *)

Lemma newest_elem u s es e : newest u s es = Some e -> e ∈ es /\ visible u s e.
Proof.
  revert e; induction es as [|a es IH]; intros e; simpl; [done|].
  destruct (decide (visible u s a)).
  - destruct (newest u s es) as [e'|]; [destruct (_ <? _)|]; intros [= <-];
      rewrite elem_of_cons; try (by split; [left|]).
    destruct (IH _ eq_refl). split; [by right|done].
  - intros E. destruct (IH _ E). rewrite elem_of_cons. split; [by right|done].
Qed.

Lemma newest_max u s es e : newest u s es = Some e ->
  forall e', e' ∈ es -> visible u s e' -> packed_of e'.1 <= packed_of e.1.
Proof.
  revert e; induction es as [|a es IH]; intros e; simpl; [done|].
  intros E e' [->|He']%elem_of_cons Hv.
  - rewrite decide_True in E by done. destruct (newest u s es) as [e1|]; [|injection E as <-; lia].
    destruct (Z.ltb_spec (packed_of a.1) (packed_of e1.1)); injection E as <-; lia.
  - destruct (newest u s es) as [e1|] eqn:E1.
    + specialize (IH _ eq_refl e' He' Hv). destruct (decide (visible u s a)).
      * destruct (Z.ltb_spec (packed_of a.1) (packed_of e1.1)); injection E as <-; lia.
      * by injection E as <-.
    + exfalso. clear -E1 He' Hv. induction es as [|b es IH]; [by apply elem_of_nil in He'|].
      simpl in E1. destruct (decide (visible u s b)).
      * destruct (newest u s es); [destruct (_ <? _)|]; done.
      * apply elem_of_cons in He' as [->|?]; [done|]. by apply IH.
Qed.

Lemma newest_None u s es : newest u s es = None <-> forall e, e ∈ es -> ~ visible u s e.
Proof.
  split.
  - intros E e He Hv. induction es as [|b es IH]; [by apply elem_of_nil in He|].
    simpl in E. destruct (decide (visible u s b)).
    + destruct (newest u s es); [destruct (_ <? _)|]; done.
    + apply elem_of_cons in He as [->|?]; [done|]. by apply IH.
  - intros H. destruct (newest u s es) as [e|] eqn:E; [|done].
    apply newest_elem in E as [He Hv]. by destruct (H e He).
Qed.

(** Versions of one key are told apart by their packed word. *)
Lemma visible_packed_inj es u s a b : Forall (fun e => ikey_wf e.1) es -> keys_unique es ->
  a ∈ es -> b ∈ es -> visible u s a -> visible u s b -> packed_of a.1 = packed_of b.1 -> a = b.
Proof.
  intros Hwf Hu Ha Hb [Va _] [Vb _] E. rewrite Forall_forall in Hwf.
  apply Hu; [done..|]. apply ikey_inj; auto. congruence.
Qed.

Lemma newest_intro u s es e : Forall (fun e => ikey_wf e.1) es -> keys_unique es ->
  e ∈ es -> visible u s e ->
  (forall e', e' ∈ es -> visible u s e' -> packed_of e'.1 <= packed_of e.1) ->
  newest u s es = Some e.
Proof.
  intros Hwf Hu He Hv Hmax. destruct (newest u s es) as [e'|] eqn:E.
  - pose proof (newest_max _ _ _ _ E e He Hv) as H1. apply newest_elem in E as [He' Hv'].
    specialize (Hmax e' He' Hv'). f_equal. eapply visible_packed_inj; eauto; lia.
  - rewrite newest_None in E. by destruct (E e He).
Qed.

(** [newest] depends on the set of entries only. *)
Lemma newest_set u s es es' : Forall (fun e => ikey_wf e.1) es -> keys_unique es ->
  (forall e, e ∈ es <-> e ∈ es') -> newest u s es = newest u s es'.
Proof.
  intros Hwf Hu Heq. destruct (newest u s es') as [e|] eqn:E.
  - pose proof (newest_max _ _ _ _ E) as Hm. apply newest_elem in E as [He Hv].
    apply newest_intro; try done; [by apply Heq|]. intros e' He'. apply Hm. by apply Heq.
  - rewrite newest_None in *. intros e He. apply E. by apply Heq.
Qed.

(** A layer whose versions are all newer than those of [es2] answers first. *)
Definition newer_than (es1 es2 : list ikv) : Prop :=
  forall a b, a ∈ es1 -> b ∈ es2 -> ExtractUserKey a.1 = ExtractUserKey b.1 ->
    packed_of b.1 < packed_of a.1.

Lemma newest_app u s es1 es2 : newer_than es1 es2 ->
  newest u s (es1 ++ es2) =
    match newest u s es1 with Some e => Some e | None => newest u s es2 end.
Proof.
  intros Hn. induction es1 as [|a es1 IH]; [done|]. simpl.
  rewrite IH by (intros x y Hx; apply Hn; by apply elem_of_cons; right).
  destruct (decide (visible u s a)) as [Hv|]; [|done].
  destruct (newest u s es1) as [e|] eqn:E; [by destruct (_ <? _)|].
  destruct (newest u s es2) as [e|] eqn:E2; [|done].
  apply newest_elem in E2 as [He Hve].
  rewrite (proj2 (Z.ltb_ge _ _)); [done|].
  apply Z.lt_le_incl. apply (Hn a e); [apply elem_of_cons; by left|done|].
  destruct Hv as [-> _]. by destruct Hve as [-> _].
Qed.

Lemma lookup_run_app u s es1 es2 : newer_than es1 es2 ->
  lookup_run u s (es1 ++ es2) =
    match lookup_run u s es1 with Some r => Some r | None => lookup_run u s es2 end.
Proof.
  intros Hn. unfold lookup_run. rewrite newest_app by done.
  by destruct (newest u s es1).
Qed.

Lemma newest_no_user u s es : (forall e, e ∈ es -> ExtractUserKey e.1 <> u) ->
  newest u s es = None.
Proof. intros H. apply newest_None. intros e He [E _]. by apply (H e He). Qed.

(** * Sorted runs *)

Lemma run_sorted_lt r1 a r2 b r3 : run_sorted (r1 ++ a :: r2 ++ b :: r3) -> ikv_cmp a b = Lt.
Proof.
  unfold run_sorted. induction r1 as [|x r1 IH]; simpl; intros H; inversion H as [|? ? Hs Hf]; subst.
  - rewrite Forall_app, Forall_cons in Hf. tauto.
  - by apply IH.
Qed.

Lemma run_sorted_app r1 r2 : run_sorted (r1 ++ r2) ->
  run_sorted r1 /\ run_sorted r2 /\ forall a b, a ∈ r1 -> b ∈ r2 -> ikv_cmp a b = Lt.
Proof.
  unfold run_sorted. induction r1 as [|x r1 IH]; simpl; intros H.
  - split; [constructor|]. split; [done|]. intros a b Ha. by apply elem_of_nil in Ha.
  - inversion H as [|? ? Hs Hf]; subst. apply IH in Hs as (H1 & H2 & H3).
    rewrite Forall_app in Hf. destruct Hf as [Hf1 Hf2]. rewrite Forall_forall in Hf2.
    split; [by constructor|]. split; [done|].
    intros a b [->|Ha]%elem_of_cons Hb; auto.
Qed.

Lemma run_keys_unique r : Forall (fun e => ikey_wf e.1) r -> run_sorted r -> keys_unique r.
Proof.
  intros Hwf Hs a b Ha Hb E.
  apply list_elem_of_split in Ha as (r1 & r2 & ->).
  assert (ikv_cmp a a = Eq) as Haa.
  { apply (ord_refl (fun e : ikv => ikey_wf e.1)). rewrite Forall_app, Forall_cons in Hwf. tauto. }
  assert (ikv_cmp a b = Eq /\ ikv_cmp b a = Eq) as [Eab Eba] by (unfold ikv_cmp in *; by rewrite <- E).
  apply run_sorted_app in Hs as (_ & Hs & Hlt).
  apply elem_of_app in Hb as [Hb|[->|Hb]%elem_of_cons]; [|done|].
  - specialize (Hlt b a Hb ltac:(apply elem_of_cons; by left)). congruence.
  - inversion Hs as [|? ? _ Hf]; subst. rewrite Forall_forall in Hf.
    specialize (Hf b Hb). simpl in Hf. congruence.
Qed.

Lemma run_wf_ikeys r : Forall ikv_wf r -> Forall (fun e => ikey_wf e.1) r.
Proof. intros H. eapply Forall_impl; [exact H|]. by intros ? []. Qed.

Lemma seek_run_suffix target r : exists pre, r = pre ++ seek_run target r /\
  forall e, e ∈ pre -> CompareInternalKey e.1 target = Lt.
Proof.
  induction r as [|e r (pre & IH & Hp)]; simpl.
  - exists []. split; [done|]. intros e He. by apply elem_of_nil in He.
  - destruct (CompareInternalKey e.1 target) eqn:E.
    1,3: exists []; split; [done|]; intros ? Hx; by apply elem_of_nil in Hx.
    exists (e :: pre). split; [simpl; by f_equal|]. intros x [->|Hx]%elem_of_cons; auto.
Qed.

Lemma seek_run_head target r e r' : seek_run target r = e :: r' ->
  CompareInternalKey e.1 target <> Lt.
Proof.
  induction r as [|a r IH]; simpl; [done|].
  destruct (CompareInternalKey a.1 target) eqn:E; [|by apply IH|]; intros [= -> ->]; by rewrite E.
Qed.

Lemma seek_run_app target r1 r2 : (forall e, e ∈ r1 -> CompareInternalKey e.1 target = Lt) ->
  seek_run target (r1 ++ r2) = seek_run target r2.
Proof.
  induction r1 as [|e r1 IH]; intros H; [done|]. simpl.
  rewrite H by (apply elem_of_cons; by left). apply IH. intros x Hx. apply H.
  apply elem_of_cons. by right.
Qed.

(** The probe every table makes: seek the lookup key, keep the entry it lands on
    if it is a version of the key that the snapshot sees. *)
Definition probe (u : bytes) (snapshot : Z) (r : list ikv) : option ikv :=
  match seek_run (MakeLookupKey u snapshot) r with
  | e :: _ =>
    if Slice_eqb (ExtractUserKey e.1) u && (ExtractSequence e.1 <=? snapshot)
    then Some e else None
  | [] => None
  end.

Lemma visible_probe u s e :
  Slice_eqb (ExtractUserKey e.1) u && (ExtractSequence e.1 <=? s) = true <-> visible u s e.
Proof. rewrite andb_true_iff, Slice_eqb_eq, Z.leb_le. done. Qed.

(** A version the snapshot sees is never before the lookup key. *)
Lemma visible_not_before u s e : ikv_wf e -> seq56 s -> visible u s e ->
  CompareInternalKey e.1 (MakeLookupKey u s) <> Lt.
Proof.
  intros [Hwf Hty _ _] Hs [Hu Hseq] C.
  apply CompareInternalKey_lookup in C as [C|[_ C]]; [..|done|done].
  - rewrite Hu, lex_refl in C. done.
  - rewrite ExtractSequence_wf, SequenceFromPack_eq in Hseq by done.
    rewrite ExtractValueType_wf in Hty by done. unfold TypeFromPack in Hty.
    pose proof (packed_of_range e.1) as Hp. change 0xFF with (Z.ones 8) in Hty.
    rewrite Z.land_ones, bz_zb_small in Hty by (try apply Z.mod_pos_bound; lia).
    change (2 ^ 8) with 256 in Hty.
    pose proof (Z.div_mod (packed_of e.1) 256 ltac:(lia)). lia.
Qed.

Lemma probe_newest u s r : run_wf r -> seq56 s -> probe u s r = newest u s r.
Proof.
  intros [Hwf Hs] Hseq. unfold probe.
  destruct (seek_run_suffix (MakeLookupKey u s) r) as (pre & Hr & Hpre).
  pose proof (seek_run_head (MakeLookupKey u s) r) as Hhd.
  assert (Hinv : forall e, e ∈ pre -> ~ visible u s e).
  { intros e He Hv. rewrite Forall_forall in Hwf.
    apply (visible_not_before u s e); [apply Hwf; rewrite Hr; apply elem_of_app; by left|done..|].
    by apply Hpre. }
  destruct (seek_run (MakeLookupKey u s) r) as [|e r'] eqn:E.
  { symmetry. apply newest_None. rewrite Hr, app_nil_r. done. }
  assert (He : e ∈ r) by (rewrite Hr; apply elem_of_app; right; apply elem_of_cons; by left).
  pose proof (run_wf_ikeys _ Hwf) as Hik.
  assert (Hafter : forall x, x ∈ r' -> visible u s x -> visible u s e /\ packed_of x.1 <= packed_of e.1).
  { intros x Hx [Hux Hsx].
    assert (ikv_cmp e x = Lt) as C.
    { rewrite Hr in Hs. apply run_sorted_app in Hs as (_ & Hs & _).
      inversion Hs as [|? ? _ Hf]; subst. rewrite Forall_forall in Hf. by apply Hf. }
    assert (Hxr : x ∈ r) by (rewrite Hr; apply elem_of_app; right; apply elem_of_cons; by right).
    rewrite Forall_forall in Hik. pose proof (Hik e He) as He8. pose proof (Hik x Hxr) as Hx8.
    unfold ikv_cmp in C. rewrite CompareInternalKey_wf in C by done.
    specialize (Hhd e r' eq_refl).
    rewrite CompareInternalKey_lookup in Hhd by done.
    destruct (lex (ExtractUserKey e.1) (ExtractUserKey x.1)) eqn:L; [|by destruct Hhd; left; rewrite <- Hux|done].
    apply lex_eq in L. rewrite Z.compare_lt_iff in C. split; [|lia]. split; [congruence|].
    rewrite ExtractSequence_wf, SequenceFromPack_eq by done.
    assert (~ s * 256 + 1 < packed_of e.1) as Hle by (intros Hlt; apply Hhd; right; split; [congruence|done]).
    assert (packed_of e.1 / 256 < s + 1); [|lia]. apply Z.div_lt_upper_bound; lia. }
  destruct (Slice_eqb _ _ && _) eqn:V.
  - symmetry. apply visible_probe in V. apply newest_intro; [done|by apply run_keys_unique|done..|].
    rewrite Hr. intros x [Hx|[->|Hx]%elem_of_cons]%elem_of_app Hv; [|lia|].
    + by destruct (Hinv x Hx).
    + by apply Hafter.
  - symmetry. apply newest_None. rewrite Hr. intros x [Hx|[->|Hx]%elem_of_cons]%elem_of_app Hv.
    + by destruct (Hinv x Hx).
    + apply visible_probe in Hv. congruence.
    + destruct (Hafter x Hx Hv) as [Hve _]. apply visible_probe in Hve. congruence.
Qed.
