(* ===== verification/MemTable.v ===== *)
(** MemTable (include/lsmkv/memtable.h, src/memtable.cpp): the write buffer, a
    skip list of encoded (internal key, value) entries. *)
From S2P Require Import Prelude Status Slice Encoding InternalKey SkipList Run.

(** [MemTableEntryComparator]: only the internal-key part is compared. *)
Definition MemTableEntryComparator (a b : bytes) : comparison :=
  match GetLengthPrefixedSlice a, GetLengthPrefixedSlice b with
  | Some (ka, _), Some (kb, _) => CompareInternalKey ka kb
  | _, _ => Slice_compare a b
  end.

Record MemTable := mkMemTable { table_ : SkipList bytes; memory_usage_ : Z }.

Definition MemTable_new : MemTable := mkMemTable (SkipList_new []) 0.

Definition mem_entry (ikey value : bytes) : bytes :=
  PutLengthPrefixedSlice (PutLengthPrefixedSlice [] ikey) value.

Definition MemTable_Add (mt : MemTable) (seq : Z) (type : ValueType) (key value : bytes)
    : Res MemTable :=
  let ikey := MakeInternalKey key seq type in
  let entry := mem_entry ikey value in
  let usage := u64 (memory_usage_ mt + Z.of_nat (length entry)) in
  table ← deref (Insert MemTableEntryComparator (table_ mt) entry);
  Ret (mkMemTable table usage).

(** The out-parameters: [None] is [*found == false]; [Some None] a tombstone;
    [Some (Some v)] a live value. *)
Definition MemTable_Get (mt : MemTable) (user_key : bytes) (snapshot : Z)
    : Res (option (option bytes)) :=
  let lkey := MakeLookupKey user_key snapshot in
  let seek_entry := mem_entry lkey [] in
  hit ← deref (Find MemTableEntryComparator (table_ mt) seek_entry);
  match hit with
  | None => Ret None
  | Some entry =>
    match GetLengthPrefixedSlice entry with
    | None => Fail (Corruption (lit "bad memtable entry"))
    | Some (ikey, s) =>
      if negb (Slice_eqb (ExtractUserKey ikey) user_key) then Ret None
      else if snapshot <? ExtractSequence ikey then Ret None
      else if decide (ExtractValueType ikey = kTypeDeletion) then Ret (Some None)
      else
        match GetLengthPrefixedSlice s with
        | None => Fail (Corruption (lit "bad memtable value"))
        | Some (val, _) => Ret (Some (Some val))
        end
    end
  end.

Definition ApproximateMemoryUsage (mt : MemTable) : Z := memory_usage_ mt.
Definition EntryCount (mt : MemTable) : nat := Size (table_ mt).

(** The body of [ForEach]'s callback: entries that do not parse are skipped. *)
Definition parse_entry (encoded : bytes) : option ikv :=
  match GetLengthPrefixedSlice encoded with
  | None => None
  | Some (ikey, s) =>
    match GetLengthPrefixedSlice s with
    | None => None
    | Some (val, _) => Some (ikey, val)
    end
  end.

(** The calls [fn(ikey, val)] of [ForEach], in order. *)
Definition MemTable_ForEach (mt : MemTable) : Res (list ikv) :=
  keys ← deref (Iterate (table_ mt)); Ret (omap (M:=list) parse_entry keys).

(** * Entries and their order *)

Definition enc_ikv (e : ikv) : bytes := mem_entry e.1 e.2.

Lemma enc_ikv_get e rest : len32 e.1 ->
  GetLengthPrefixedSlice (enc_ikv e ++ rest) = Some (e.1, PutLengthPrefixedSlice [] e.2 ++ rest).
Proof.
  intros H. unfold enc_ikv, mem_entry. rewrite PutLengthPrefixedSlice_app, <- app_assoc.
  by apply codec_get_put.
Qed.

Lemma enc_ikv_key e : len32 e.1 ->
  GetLengthPrefixedSlice (enc_ikv e) = Some (e.1, PutLengthPrefixedSlice [] e.2).
Proof. intros H. pose proof (enc_ikv_get e [] H) as E. by rewrite !app_nil_r in E. Qed.

Lemma enc_ikv_val v : len32 v -> GetLengthPrefixedSlice (PutLengthPrefixedSlice [] v) = Some (v, []).
Proof. intros H. rewrite <- (app_nil_r (PutLengthPrefixedSlice _ _)). by apply codec_get_put. Qed.

Lemma parse_enc_ikv e : len32 e.1 -> len32 e.2 -> parse_entry (enc_ikv e) = Some e.
Proof.
  intros H1 H2. unfold parse_entry. rewrite enc_ikv_key, enc_ikv_val by done. by destruct e.
Qed.

(** The keys the skip list holds: encodings with a well-formed internal key. *)
Definition entry_ok (s : bytes) : Prop :=
  exists e, s = enc_ikv e /\ ikey_wf e.1 /\ len32 e.1.

Lemma comparator_enc a b : len32 a.1 -> len32 b.1 ->
  MemTableEntryComparator (enc_ikv a) (enc_ikv b) = ikv_cmp a b.
Proof.
  intros Ha Hb. unfold MemTableEntryComparator. by rewrite !enc_ikv_key.
Qed.

#[global] Instance MemTableEntryComparator_ord : OrdOn entry_ok MemTableEntryComparator.
Proof.
  split.
  - intros ? ? (a & -> & Ha & La) (b & -> & Hb & Lb). rewrite !comparator_enc by done.
    by apply (ord_sym (P:=fun e : ikv => ikey_wf e.1)).
  - intros ? ? ? (a & -> & Ha & La) (b & -> & Hb & Lb) (c & -> & Hc & Lc).
    rewrite !comparator_enc by done.
    by apply (ord_trans (P:=fun e : ikv => ikey_wf e.1)).
Qed.

(** * Representation: the table holds the encodings of a run *)

Definition run_insert (e : ikv) (r : list ikv) : list ikv := sorted_insert ikv_cmp e r.

Definition mem_rep (mt : MemTable) (r : list ikv) : Prop :=
  represents [] MemTableEntryComparator entry_ok (table_ mt) (map enc_ikv r) /\ Forall ikv_wf r.

Lemma sorted_insert_enc e r : len32 e.1 -> Forall (fun x => len32 x.1) r ->
  sorted_insert MemTableEntryComparator (enc_ikv e) (map enc_ikv r) = map enc_ikv (run_insert e r).
Proof.
  intros He Hr. induction Hr as [|x r Hx Hr IH]; [done|]. unfold run_insert in *. simpl.
  rewrite comparator_enc by done. destruct (ikv_cmp x e); simpl; [done| |done]. by rewrite IH.
Qed.

Lemma seek_list_enc target r : len32 target -> Forall (fun x => len32 x.1) r ->
  seek_list MemTableEntryComparator (mem_entry target []) (map enc_ikv r)
    = map enc_ikv (seek_run target r).
Proof.
  intros Ht Hr. change (mem_entry target []) with (enc_ikv (target, [])).
  induction Hr as [|x r Hx Hr IH]; [done|]. simpl. unfold not_lt.
  rewrite comparator_enc by done. unfold ikv_cmp. cbn [fst].
  by destruct (CompareInternalKey x.1 target).
Qed.

Lemma ikv_wf_len r : Forall ikv_wf r -> Forall (fun x => len32 x.1) r.
Proof. intros H. eapply Forall_impl; [exact H|]. by intros ? []. Qed.

Lemma mem_rep_sorted mt r : mem_rep mt r -> run_wf r.
Proof.
  intros [Hr Hwf]. split; [done|]. apply represents_sorted in Hr. unfold run_sorted.
  apply ikv_wf_len in Hwf. revert Hr.
  induction Hwf as [|x r Hx Hwf IH]; simpl; intros Hs; [constructor|].
  inversion Hs as [|? ? Hs' Hf]; subst. constructor; [by apply IH|].
  rewrite Forall_map in Hf. rewrite Forall_forall in *. intros y Hy. specialize (Hf y Hy).
  simpl in Hf. rewrite comparator_enc in Hf; auto.
Qed.

Lemma mem_rep_new : mem_rep MemTable_new [].
Proof. split; [apply (represents_new [] MemTableEntryComparator entry_ok)|done]. Qed.

Lemma elem_of_run_insert e r x : run_wf r -> ikv_wf e ->
  x ∈ run_insert e r <-> x = e \/ (x ∈ r /\ x.1 <> e.1).
Proof.
  intros [Hwf Hs] He. apply run_wf_ikeys in Hwf. destruct He as [He _ _ _].
  unfold run_insert, run_sorted in *.
  induction Hs as [|a r Hs IH Hf]; simpl.
  { rewrite list_elem_of_singleton, elem_of_nil. tauto. }
  apply Forall_cons in Hwf as [Ha Hwf]. specialize (IH Hwf). rewrite Forall_forall in Hf, Hwf.
  assert (Hafter : forall y, y ∈ r -> ikv_cmp a e <> Lt -> y.1 <> e.1).
  { intros y Hy Hae E. specialize (Hf y Hy). simpl in Hf. apply Hae.
    unfold ikv_cmp in *. congruence. }
  destruct (ikv_cmp a e) eqn:C; rewrite !elem_of_cons.
  - apply (CompareInternalKey_eq a.1 e.1) in C; [|done..]. split.
    + intros [->|Hx]; [by left|]. right. split; [by right|]. apply Hafter; [done|congruence].
    + intros [->|[[->|Hx] Hne]]; [by left|done|by right].
  - rewrite IH. assert (a.1 <> e.1).
    { intros E. unfold ikv_cmp in C. rewrite E, (ord_refl ikey_wf) in C; done. }
    split.
    + intros [->|[->|[Hx Hne]]]; tauto.
    + intros [->|[[->|Hx] Hne]]; tauto.
  - split.
    + intros [->|[->|Hx]]; [by left| |].
      * right. split; [by left|]. intros E. unfold ikv_cmp in C.
        rewrite E, (ord_refl ikey_wf) in C; done.
      * right. split; [by right|]. apply Hafter; [done|congruence].
    + intros [->|[[->|Hx] Hne]]; [by left|right; by left|right; by right].
Qed.

Lemma mem_rep_add mt r seq type key value :
  mem_rep mt r -> ikv_wf (MakeInternalKey key seq type, value) ->
  exists mt', MemTable_Add mt seq type key value = Ret mt' /\
    mem_rep mt' (run_insert (MakeInternalKey key seq type, value) r) /\
    memory_usage_ mt' = u64 (memory_usage_ mt +
      Z.of_nat (length (enc_ikv (MakeInternalKey key seq type, value)))).
Proof.
  intros Hrep He. pose proof (mem_rep_sorted _ _ Hrep) as Hrun. destruct Hrep as [Hr Hwf].
  set (e := (MakeInternalKey key seq type, value)) in *.
  assert (entry_ok (enc_ikv e)) as Hok by (exists e; destruct He; done).
  destruct (represents_insert [] MemTableEntryComparator entry_ok (table_ mt) _ (enc_ikv e) Hr Hok)
    as (sl & Hi & Hsl).
  unfold MemTable_Add. change (mem_entry (MakeInternalKey key seq type) value) with (enc_ikv e).
  rewrite Hi. cbn [deref mbind Res_bind]. eexists; split; [done|].
  split; [|done]. rewrite sorted_insert_enc in Hsl by first [by destruct He | by apply ikv_wf_len].
  split; [done|]. apply Forall_forall. intros x Hx.
  apply elem_of_run_insert in Hx as [->|[Hx _]]; [done| |done..].
  rewrite Forall_forall in Hwf. auto.
Qed.

Lemma mem_rep_seek mt r target : mem_rep mt r -> ikey_wf target -> len32 target ->
  Find MemTableEntryComparator (table_ mt) (mem_entry target [])
    = Some (enc_ikv <$> head (seek_run target r)).
Proof.
  intros [(ids & Hinv & Hk) Hwf] Ht Hl.
  destruct (observers_spec [] MemTableEntryComparator entry_ok (table_ mt) ids Hinv)
    as (_ & _ & Hobs).
  destruct (Hobs (mem_entry target [])) as (-> & _).
  { by exists (target, []). }
  rewrite Hk, seek_list_enc by (done || by apply ikv_wf_len).
  by destruct (seek_run target r).
Qed.

Lemma mem_rep_iterate mt r : mem_rep mt r -> MemTable_ForEach mt = Ret r.
Proof.
  intros [(ids & Hinv & Hk) Hwf]. unfold MemTable_ForEach.
  destruct (observers_spec [] MemTableEntryComparator entry_ok (table_ mt) ids Hinv)
    as (-> & _). rewrite Hk. cbn [deref mbind Res_bind]. f_equal. clear Hk Hinv.
  induction Hwf as [|e r [_ _ Hl1 Hl2] Hwf IH]; [done|]. simpl. rewrite parse_enc_ikv by done.
  by f_equal.
Qed.

(** The lookup key is as long as the user key plus eight. *)
Definition ukey_ok (u : bytes) : Prop := Z.of_nat (length u) + 8 < 2 ^ 32.

Lemma lookup_key_len u s : ukey_ok u -> len32 (MakeLookupKey u s).
Proof. unfold ukey_ok, len32, MakeLookupKey. rewrite length_MakeInternalKey. lia. Qed.

Lemma mem_rep_get mt r u s : mem_rep mt r -> ukey_ok u -> seq56 s ->
  MemTable_Get mt u s = Ret (lookup_run u s r).
Proof.
  intros Hrep Hu Hs. unfold MemTable_Get, lookup_run.
  rewrite (mem_rep_seek mt r) by (done || apply MakeInternalKey_wf || by apply lookup_key_len).
  cbn [deref mbind Res_bind]. rewrite <- (probe_newest u s r) by (done || by eapply mem_rep_sorted).
  unfold probe. destruct Hrep as [_ Hwf].
  destruct (seek_run_suffix (MakeLookupKey u s) r) as (pre & Hr & _).
  destruct (seek_run (MakeLookupKey u s) r) as [|e r'] eqn:E; [done|].
  assert (ikv_wf e) as [_ _ Hl1 Hl2].
  { rewrite Forall_forall in Hwf. apply Hwf. rewrite Hr. apply elem_of_app. right.
    apply elem_of_cons. by left. }
  cbn [head hd_error fmap option_fmap option_map]. rewrite enc_ikv_key by done.
  destruct (Slice_eqb (ExtractUserKey e.1) u); simpl; [|done].
  rewrite Z.leb_antisym. destruct (s <? ExtractSequence e.1); simpl; [done|].
  unfold read_entry. destruct (decide (ExtractValueType e.1 = kTypeDeletion)); [done|].
  by rewrite enc_ikv_val.
Qed.

(** * Properties *)

(** A sequence of writes: (sequence, type, key, value). *)
Definition write : Type := Z * ValueType * bytes * bytes.
Definition write_ikv (w : write) : ikv :=
  let '(seq, type, key, value) := w in (MakeInternalKey key seq type, value).
Definition MemTable_AddAll (mt : MemTable) (ws : list write) : Res MemTable :=
  foldl (fun m (w : write) =>
           mt ← m; let '(seq, type, key, value) := w in MemTable_Add mt seq type key value)
        (Ret mt) ws.

Lemma mem_rep_add_all ws mt r : mem_rep mt r -> Forall (fun w => ikv_wf (write_ikv w)) ws ->
  exists mt', MemTable_AddAll mt ws = Ret mt' /\
    mem_rep mt' (foldl (fun r w => run_insert (write_ikv w) r) r ws).
Proof.
  unfold MemTable_AddAll. intros Hrep Hws. revert mt r Hrep.
  induction Hws as [|[[[seq type] key] value] ws Hw Hws IH]; intros mt r Hrep; [by exists mt|].
  simpl. destruct (mem_rep_add mt r seq type key value Hrep Hw) as (mt' & -> & Hrep' & _).
  by apply IH.
Qed.

Lemma run_wf_insert e r : run_wf r -> ikv_wf e -> run_wf (run_insert e r).
Proof.
  intros Hr He. split.
  - apply Forall_forall. intros x Hx. apply elem_of_run_insert in Hx as [->|[Hx _]]; [done| |done..].
    destruct Hr as [Hwf _]. rewrite Forall_forall in Hwf. auto.
  - destruct Hr as [Hwf Hs]. apply run_wf_ikeys in Hwf. destruct He as [He _ _ _].
    unfold run_sorted, run_insert in *.
    assert (Hin : forall x r, x ∈ sorted_insert ikv_cmp e r -> x = e \/ x ∈ r).
    { intros x r0. induction r0 as [|a r0 IH]; simpl; [rewrite list_elem_of_singleton; tauto|].
      destruct (ikv_cmp a e); rewrite ?elem_of_cons; tauto. }
    induction Hs as [|a r Hs IH Hf]; simpl; [by repeat constructor|].
    apply Forall_cons in Hwf as [Ha Hwf]. specialize (IH Hwf).
    rewrite Forall_forall in Hf, Hwf.
    destruct (ikv_cmp a e) eqn:C.
    + constructor; [done|]. apply Forall_forall. intros y Hy. specialize (Hf y Hy). simpl in Hf.
      rewrite <- Hf. symmetry.
      apply (ord_eq_cong_l (fun e : ikv => ikey_wf e.1)); auto.
    + constructor; [done|]. apply Forall_forall. intros y [->|Hy]%Hin; [done|]. by apply Hf.
    + assert (ikv_cmp e a = Lt) as C' by (by apply (ord_gt_lt (fun e : ikv => ikey_wf e.1))).
      constructor; [constructor; [done|by apply Forall_forall]|].
      apply Forall_forall. intros y [->|Hy]%elem_of_cons; [done|].
      eapply (ord_lt_trans (fun e : ikv => ikey_wf e.1)); [..|exact C'|by apply Hf]; auto.
Qed.

(** A MemTable filled by any sequence of writes answers a lookup at a
    snapshot with the newest version of the key that the snapshot sees (a value,
    a tombstone, or no version at all), never fails, and enumerates its entries
    in internal-key order.  [newest] is taken over the set of all writes, a
    repeated internal key keeping its last value. *)
Theorem memtable_get_newest (ws : list write) (u : bytes) (snapshot : Z) :
  Forall (fun w => ikv_wf (write_ikv w)) ws -> ukey_ok u -> seq56 snapshot ->
  exists mt r, MemTable_AddAll MemTable_new ws = Ret mt /\
    MemTable_ForEach mt = Ret r /\ run_sorted r /\
    (forall e, e ∈ r <->
       exists ws1 w ws2, ws = ws1 ++ w :: ws2 /\ e = write_ikv w /\
         forall w', w' ∈ ws2 -> (write_ikv w').1 <> e.1) /\
    MemTable_Get mt u snapshot = Ret (lookup_run u snapshot r).
Proof.
  intros Hws Hu Hs. destruct (mem_rep_add_all ws _ _ mem_rep_new Hws) as (mt & Hmt & Hrep).
  exists mt, (foldl (fun r w => run_insert (write_ikv w) r) [] ws).
  split; [done|]. split; [by apply mem_rep_iterate|].
  split; [by apply (mem_rep_sorted mt)|]. split; [|by apply mem_rep_get].
  clear Hmt Hrep mt. induction ws as [|w ws IH] using rev_ind.
  - intros e. rewrite elem_of_nil. split; [done|]. intros ([|] & ? & ? & ? & _); done.
  - apply Forall_app in Hws as [Hws Hw]. rewrite Forall_singleton in Hw.
    specialize (IH Hws). intros e. rewrite foldl_app. simpl.
    assert (run_wf (foldl (fun r w => run_insert (write_ikv w) r) [] ws)) as Hrun.
    { clear -Hws. assert (run_wf []) as H0 by (split; constructor). revert H0.
      generalize (@nil ikv). induction Hws as [|w ws Hw Hws IH]; intros r Hr; [done|].
      simpl. apply IH. by apply run_wf_insert. }
    rewrite (elem_of_run_insert _ _ _ Hrun Hw), IH. split.
    + intros [->|[(ws1 & w1 & ws2 & -> & -> & Hl) Hne]].
      * exists ws, w, []. split; [done|]. split; [done|]. intros ? Hx. by apply elem_of_nil in Hx.
      * exists ws1, w1, (ws2 ++ [w]). split; [by rewrite <- app_assoc|]. split; [done|].
        intros w' [Hw'|Hw']%elem_of_app; [auto|].
        apply list_elem_of_singleton in Hw' as ->. congruence.
    + intros (ws1 & w1 & ws2 & Heq & -> & Hl).
      destruct ws2 as [|w2 ws2 _] using rev_ind.
      * apply app_inj_tail in Heq as [-> ->]. by left.
      * rewrite app_comm_cons, app_assoc in Heq. apply app_inj_tail in Heq as [-> ->].
        right. split.
        -- exists ws1, w1, ws2. split; [done|]. split; [done|].
           intros w' Hw'. apply Hl. apply elem_of_app. by left.
        -- intros E. apply (Hl w2); [apply elem_of_app; right; by apply list_elem_of_singleton|done].
Qed.

Lemma memtable_get_newest_witness :
  let ws := [(1, kTypeValue, lit "a", lit "x"); (2, kTypeValue, lit "b", lit "y");
             (3, kTypeDeletion, lit "a", []); (4, kTypeValue, lit "a", lit "z")] in
  exists mt, MemTable_AddAll MemTable_new ws = Ret mt /\
    MemTable_Get mt (lit "a") 4 = Ret (Some (Some (lit "z"))) /\
    MemTable_Get mt (lit "a") 3 = Ret (Some None) /\
    MemTable_Get mt (lit "c") 4 = Ret None.
Proof.
  intros ws.
  assert (Hws : Forall (fun w => ikv_wf (write_ikv w)) ws).
  { apply (bool_decide_unpack _). vm_compute. exact I. }
  destruct (memtable_get_newest ws (lit "a") 4 Hws) as (mt & r & Hmt & _ & _ & _ & Hg).
  { unfold ukey_ok. simpl. lia. }
  { unfold seq56. lia. }
  exists mt. split; [exact Hmt|]. clear Hg.
  assert (E : (mt ← MemTable_AddAll MemTable_new ws;
               a ← MemTable_Get mt (lit "a") 4; b ← MemTable_Get mt (lit "a") 3;
               c ← MemTable_Get mt (lit "c") 4; Ret (a, b, c))
            = Ret (Some (Some (lit "z")), Some None, None)) by (vm_compute; reflexivity).
  rewrite Hmt in E. cbn [mbind Res_bind] in E.
  destruct (MemTable_Get mt (lit "a") 4); cbn [mbind Res_bind] in E; [|discriminate E..].
  destruct (MemTable_Get mt (lit "a") 3); cbn [mbind Res_bind] in E; [|discriminate E..].
  destruct (MemTable_Get mt (lit "c") 4); cbn [mbind Res_bind] in E; [|discriminate E..].
  injection E as -> -> ->. split; [|split]; reflexivity.
Defined.
