(* ===== verification/Env.v ===== *)
(** The file system as the engine uses it (include/lsmkv/env.h, src/env.cpp).

    [World] holds the regular files and the directories by path, and the faults
    the environment will inject: every primitive takes the next one, [None] for
    success and [Some n] for an I/O error that lets the first [n] bytes of a
    write through; when the list is exhausted nothing fails any more.  [rename]
    is atomic.  Only process crashes are modelled: what reached the operating
    system survives (the source never calls fsync). *)
From S2P Require Import Prelude Status.

Record World := mkWorld {
  files : gmap bytes bytes;
  dirs : gset bytes;
  faults : list (option nat)
}.

Definition set_files (f : gmap bytes bytes -> gmap bytes bytes) (w : World) : World :=
  mkWorld (f (files w)) (dirs w) (faults w).

Definition next_fault : SM World (option nat) := fun w =>
  match faults w with
  | [] => (Ret None, w)
  | f :: fs => (Ret f, mkWorld (files w) (dirs w) fs)
  end.

(** * Paths *)

(** [stat] succeeds on a file or a directory. *)
Definition PathExists (path : bytes) (w : World) : bool :=
  bool_decide (is_Some (files w !! path)) || bool_decide (path ∈ dirs w).
Definition DirExists (path : bytes) (w : World) : bool := bool_decide (path ∈ dirs w).

(** [mkdir] fails on an existing path, or when the environment says so. *)
Definition CreateDir (path : bytes) : SM World unit :=
  there ← gets (DirExists path);
  if there : bool then mret tt
  else
    f ← next_fault;
    ex ← gets (PathExists path);
    match f, ex : bool with
    | None, false => modify (fun w => mkWorld (files w) ({[path]} ∪ dirs w) (faults w))
    | _, _ =>
      there ← gets (DirExists path);
      if there : bool then mret tt else fail (IOError (lit "mkdir failed: " ++ path))
    end.

Definition RenameFile (src target : bytes) : SM World unit :=
  f ← next_fault;
  d ← gets (fun w => files w !! src);
  match f, d with
  | None, Some data => modify (set_files (fun m => <[target := data]> (delete src m)))
  | _, _ => fail (IOError (lit "rename failed: " ++ src ++ lit " -> " ++ target))
  end.

(** * Whole-file reads and writes *)

(** [ofstream(path, trunc)], then [write] and [flush]. *)
Definition WriteStringToFile (data path : bytes) : SM World unit :=
  f ← next_fault;
  match f with
  | Some _ => fail (IOError (lit "cannot write file: " ++ path))
  | None =>
    f ← next_fault;
    match f with
    | Some n =>
      modify (set_files (insert path (take n data))) ;;
      fail (IOError (lit "write failed: " ++ path))
    | None => modify (set_files (insert path data))
    end
  end.

Definition WriteStringToFileAtomic (data path : bytes) : SM World unit :=
  let tmp := path ++ lit ".tmp" in
  WriteStringToFile data tmp ;; RenameFile tmp path.

(** The bytes already in a file opened for append, created if missing. *)
Definition contents (w : World) (path : bytes) : bytes := default [] (files w !! path).

(** [ofstream(path, app)], then [write] and [flush]. *)
Definition AppendStringToFile (data path : bytes) : SM World unit :=
  f ← next_fault;
  match f with
  | Some _ => fail (IOError (lit "cannot append file: " ++ path))
  | None =>
    old ← gets (fun w => contents w path);
    f ← next_fault;
    match f with
    | Some n =>
      modify (set_files (insert path (old ++ take n data))) ;;
      fail (IOError (lit "append failed: " ++ path))
    | None => modify (set_files (insert path (old ++ data)))
    end
  end.

Definition ReadFileToString (path : bytes) : SM World bytes :=
  d ← gets (fun w => files w !! path);
  f ← next_fault;
  match d, f with
  | Some data, None => mret data
  | Some _, Some _ => fail (IOError (lit "read failed: " ++ path))
  | None, _ => fail (IOError (lit "cannot read file: " ++ path))
  end.

(** [std::remove], whose result the source ignores. *)
Definition remove_file (path : bytes) : SM World unit :=
  f ← next_fault;
  match f with
  | Some _ => mret tt
  | None => modify (set_files (delete path))
  end.

(** * Names *)

(** [std::to_string] of an unsigned number. *)
Definition to_string (number : Z) : bytes := lit (pretty (Z.to_N number)).

Definition slash : byte := Byte.x2f.

(** [path.substr(path.find_last_of('/') + 1)], or the whole path. *)
Fixpoint Basename_loop (path acc : bytes) : bytes :=
  match path with
  | [] => acc
  | c :: path => if decide (c = slash) then Basename_loop path path else Basename_loop path acc
  end.
Definition Basename (path : bytes) : bytes := Basename_loop path path.

Definition TableFileName (dbname : bytes) (number : Z) : bytes :=
  dbname ++ lit "/" ++ to_string number ++ lit ".sst".
Definition LogFileName (dbname : bytes) (number : Z) : bytes :=
  dbname ++ lit "/" ++ to_string number ++ lit ".log".
Definition ManifestFileName (dbname : bytes) (number : Z) : bytes :=
  dbname ++ lit "/MANIFEST-" ++ to_string number.
Definition CurrentFileName (dbname : bytes) : bytes := dbname ++ lit "/CURRENT".
Definition LockFileName (dbname : bytes) : bytes := dbname ++ lit "/LOCK".

(** * Facts about names *)

Lemma lit_inj (s t : String.string) : lit s = lit t -> s = t.
Proof.
  unfold lit. intros E.
  rewrite <- (String.string_of_list_byte_of_string s), <- (String.string_of_list_byte_of_string t).
  by rewrite E.
Qed.

Lemma to_string_inj a b : 0 <= a -> 0 <= b -> to_string a = to_string b -> a = b.
Proof.
  intros Ha Hb E. apply lit_inj, (inj pretty) in E. lia.
Qed.

Lemma TableFileName_inj d a b : 0 <= a -> 0 <= b ->
  TableFileName d a = TableFileName d b -> a = b.
Proof.
  unfold TableFileName. intros Ha Hb E. apply (inj (app d)), (inj (app (lit "/"))) in E.
  apply (inj (fun x => x ++ lit ".sst")) in E. by apply to_string_inj.
Qed.

Lemma LogFileName_inj d a b : 0 <= a -> 0 <= b -> LogFileName d a = LogFileName d b -> a = b.
Proof.
  unfold LogFileName. intros Ha Hb E. apply (inj (app d)), (inj (app (lit "/"))) in E.
  apply (inj (fun x => x ++ lit ".log")) in E. by apply to_string_inj.
Qed.

(** Names that end differently are different. *)
Lemma last_ne {A} (l l' : list A) x y : last l = Some x -> last l' = Some y -> x <> y -> l <> l'.
Proof. congruence. Qed.

Lemma last_app_lit {A} (l l' : list A) x : last l' = Some x -> last (l ++ l') = Some x.
Proof. intros H. rewrite last_app, H. done. Qed.

Lemma TableFileName_last d n : last (TableFileName d n) = Some Byte.x74.
Proof. unfold TableFileName. by do 3 apply last_app_lit. Qed.
Lemma LogFileName_last d n : last (LogFileName d n) = Some Byte.x67.
Proof. unfold LogFileName. by do 3 apply last_app_lit. Qed.
Lemma CurrentFileName_last d : last (CurrentFileName d) = Some Byte.x54.
Proof. unfold CurrentFileName. by apply last_app_lit. Qed.
Lemma ManifestFileName_1_last d : last (ManifestFileName d 1) = Some Byte.x31.
Proof. unfold ManifestFileName. by do 2 apply last_app_lit. Qed.

(** Fresh table files never hide a log, the manifest or CURRENT. *)
Lemma Table_ne_Log d a b : TableFileName d a <> LogFileName d b.
Proof. eapply last_ne; [apply TableFileName_last|apply LogFileName_last|done]. Qed.
Lemma Table_ne_Manifest d a : TableFileName d a <> ManifestFileName d 1.
Proof. eapply last_ne; [apply TableFileName_last|apply ManifestFileName_1_last|done]. Qed.
Lemma Table_ne_Current d a : TableFileName d a <> CurrentFileName d.
Proof. eapply last_ne; [apply TableFileName_last|apply CurrentFileName_last|done]. Qed.
Lemma Log_ne_Manifest d a : LogFileName d a <> ManifestFileName d 1.
Proof. eapply last_ne; [apply LogFileName_last|apply ManifestFileName_1_last|done]. Qed.
Lemma Log_ne_Current d a : LogFileName d a <> CurrentFileName d.
Proof. eapply last_ne; [apply LogFileName_last|apply CurrentFileName_last|done]. Qed.
Lemma Manifest_ne_Current d : ManifestFileName d 1 <> CurrentFileName d.
Proof. eapply last_ne; [apply ManifestFileName_1_last|apply CurrentFileName_last|done]. Qed.

(** * Contents *)

Lemma contents_insert w path data : contents (set_files (insert path data) w) path = data.
Proof. unfold contents. simpl. by rewrite lookup_insert_eq. Qed.

Lemma contents_insert_ne w path path' data : path <> path' ->
  contents (set_files (insert path data) w) path' = contents w path'.
Proof. intros H. unfold contents. simpl. by rewrite lookup_insert_ne. Qed.

Lemma contents_Some w path data : files w !! path = Some data -> contents w path = data.
Proof. unfold contents. by intros ->. Qed.

(** * Faults *)

Definition no_faults (w : World) : Prop := faults w = [].

Lemma next_fault_none w : no_faults w -> next_fault w = (Ret None, w).
Proof. unfold next_fault. by intros ->. Qed.

(** A primitive touches only the path it is given: every other file is as before. *)
Definition frame_files {A} (P : bytes -> Prop) (m : SM World A) : Prop :=
  forall w, dirs (m w).2 = dirs w /\
    forall path, ~ P path -> files (m w).2 !! path = files w !! path.

Lemma next_fault_files w : files (next_fault w).2 = files w /\ dirs (next_fault w).2 = dirs w.
Proof. unfold next_fault. by destruct (faults w). Qed.

Lemma frame_bind {A B} P (m : SM World A) (f : A -> SM World B) :
  frame_files P m -> (forall a, frame_files P (f a)) -> frame_files P (x ← m; f x).
Proof.
  intros Hm Hf w. unfold mbind, SM_bind. destruct (Hm w) as [Hd Hp].
  destruct (m w) as [[a|e|] w']; simpl in *; [|done..].
  destruct (Hf a w') as [Hd' Hp']. split; [congruence|]. intros p Hn.
  rewrite Hp', Hp; done.
Qed.

Lemma frame_next_fault P : frame_files P next_fault.
Proof. intros w. destruct (next_fault_files w) as [-> ->]. done. Qed.
Lemma frame_ret {A} P (a : A) : frame_files P (mret a).
Proof. done. Qed.
Lemma frame_fail {A} P e : frame_files P (fail e : SM World A).
Proof. done. Qed.
Lemma frame_gets {A} P (f : World -> A) : frame_files P (gets f).
Proof. done. Qed.
Lemma frame_insert (P : bytes -> Prop) path data : P path ->
  frame_files P (modify (set_files (insert path data))).
Proof.
  intros HP w. split; [done|]. intros p Hn. simpl. apply lookup_insert_ne. by intros ->.
Qed.
Lemma frame_delete (P : bytes -> Prop) path : P path ->
  frame_files P (modify (set_files (delete path))).
Proof.
  intros HP w. split; [done|]. intros p Hn. simpl. apply lookup_delete_ne. by intros ->.
Qed.

(** A run of primitives on one path: what it leaves of the rest of the world. *)
Record touches (path : bytes) (w w' : World) : Prop := {
  touch_dirs : dirs w' = dirs w;
  touch_files : forall p, p <> path -> files w' !! p = files w !! p;
  touch_faults : no_faults w -> no_faults w'
}.

Lemma touches_refl path w : touches path w w.
Proof. done. Qed.

Lemma touches_trans path w1 w2 w3 : touches path w1 w2 -> touches path w2 w3 -> touches path w1 w3.
Proof.
  intros [D1 F1 N1] [D2 F2 N2]. split; [congruence| |auto]. intros p Hp. by rewrite F2, F1.
Qed.

Lemma touches_insert path data w : touches path w (set_files (insert path data) w).
Proof. split; [done| |done]. intros p Hp. by apply lookup_insert_ne. Qed.

Lemma next_fault_cases path w : exists f w', next_fault w = (Ret f, w') /\ files w' = files w /\
  touches path w w' /\ (no_faults w -> f = None).
Proof.
  unfold next_fault, no_faults. destruct w as [m d [|f fs]]; cbn.
  - by eexists _, _.
  - eexists _, _. split; [done|]. split; [done|]. split; [|done]. split; [done|done|].
    unfold no_faults. cbn. done.
Qed.

Create HintDb frame discriminated.
#[export] Hint Resolve frame_next_fault frame_ret frame_fail frame_gets frame_insert
  frame_delete : frame.

(** Frame conditions are syntactic: split the binds and the matches. *)
Ltac solve_frame :=
  repeat first
    [ progress intros
    | apply frame_bind
    | solve [eauto with frame]
    | case_match ].

Lemma AppendStringToFile_frame data path :
  frame_files (fun p => p = path) (AppendStringToFile data path).
Proof. unfold AppendStringToFile. solve_frame. Qed.
Lemma WriteStringToFile_frame data path :
  frame_files (fun p => p = path) (WriteStringToFile data path).
Proof. unfold WriteStringToFile. solve_frame. Qed.
Lemma remove_file_frame path : frame_files (fun p => p = path) (remove_file path).
Proof. unfold remove_file. solve_frame. Qed.
Lemma ReadFileToString_frame P path : frame_files P (ReadFileToString path).
Proof. unfold ReadFileToString. solve_frame. Qed.
#[export] Hint Resolve AppendStringToFile_frame WriteStringToFile_frame remove_file_frame
  ReadFileToString_frame : frame.

(** Without faults the primitives succeed and do what their names say. *)
Lemma AppendStringToFile_ok data path w : no_faults w ->
  AppendStringToFile data path w = (Ret tt, set_files (insert path (contents w path ++ data)) w).
Proof.
  intros H. unfold AppendStringToFile. unfold mbind, SM_bind. rewrite next_fault_none by done.
  cbn. by rewrite next_fault_none.
Qed.

Lemma WriteStringToFile_ok data path w : no_faults w ->
  WriteStringToFile data path w = (Ret tt, set_files (insert path data) w).
Proof.
  intros H. unfold WriteStringToFile. unfold mbind, SM_bind. rewrite next_fault_none by done.
  by rewrite next_fault_none.
Qed.

Lemma RenameFile_ok src target data w : no_faults w -> files w !! src = Some data ->
  RenameFile src target w = (Ret tt, set_files (fun m => <[target := data]> (delete src m)) w).
Proof.
  intros H E. unfold RenameFile. unfold mbind, SM_bind. rewrite next_fault_none by done.
  cbn. by rewrite E.
Qed.

Lemma ReadFileToString_ok path data w : no_faults w -> files w !! path = Some data ->
  ReadFileToString path w = (Ret data, w).
Proof.
  intros H E. unfold ReadFileToString. unfold mbind, SM_bind. cbn.
  rewrite E, next_fault_none by done. done.
Qed.

(** * Properties *)

(** Replacing a file through [WriteStringToFileAtomic] is all or nothing:
    whatever faults occur, the target afterwards holds either its old contents or
    exactly the new data, the latter if and only if the call reported success;
    no file but the target and its temporary changes. *)
Theorem write_atomic (data path : bytes) (w : World) :
  let '(r, w') := WriteStringToFileAtomic data path w in
  (r = Ret tt /\ files w' !! path = Some data \/
   (exists msg, r = Fail (IOError msg)) /\ files w' !! path = files w !! path) /\
  forall p, p <> path -> p <> path ++ lit ".tmp" -> files w' !! p = files w !! p.
Proof.
  set (tmp := path ++ lit ".tmp").
  assert (Hne : path <> tmp).
  { subst tmp. intros E. apply (f_equal length) in E. rewrite length_app in E.
    change (length (lit ".tmp")) with 4%nat in E. lia. }
  unfold WriteStringToFileAtomic. fold tmp.
  pose proof (WriteStringToFile_frame data tmp w) as [_ Hf].
  assert (Hr : forall r w1, WriteStringToFile data tmp w = (r, w1) ->
            r = Ret tt /\ files w1 !! tmp = Some data \/ exists msg, r = Fail (IOError msg)).
  { clear. unfold WriteStringToFile, mbind, SM_bind, next_fault. intros r w1.
    destruct w as [m ds [|[n|] [|[k|] fs]]]; cbn; intros ?; simplify_eq; cbn;
      first [left; by rewrite lookup_insert_eq | right; by eexists]. }
  unfold mbind, SM_bind. destruct (WriteStringToFile data tmp w) as [r w1] eqn:E. simpl in Hf.
  destruct (Hr r w1 eq_refl) as [[-> Htmp]|[msg ->]].
  2: { split; [right; eauto|]. auto. }
  unfold RenameFile, mbind, SM_bind. destruct (next_fault_files w1) as [Hn _].
  assert (exists f w2, next_fault w1 = (Ret f, w2)) as (f & w2 & E2)
    by (unfold next_fault; destruct (faults w1); eauto).
  rewrite E2 in *. simpl in Hn. cbn. rewrite Hn, Htmp. destruct f as [n|].
  - cbn. split; [right; split; [eauto|]|]; intros; rewrite Hn; auto.
  - cbn. rewrite lookup_insert_eq. split; [by left|]. intros p H1 H2.
    rewrite lookup_insert_ne, lookup_delete_ne by done. rewrite Hn. auto.
Qed.
