(* ===== verification/Wal.v ===== *)
(** Write-ahead log (include/lsmkv/wal.h, src/wal.cpp): framed records, the
    reader that checks them, and the write-batch payload.

    An [ofstream] holds what was written and not yet flushed in [w_buf]; the
    stream may hand any prefix of it to the operating system early, so a crash
    leaves the file extended by some prefix of the buffer ([wal_crash]). *)
From S2P Require Import Prelude Status Slice Encoding Crc32 InternalKey Env.

Record WalWriter := mkWalWriter {
  w_path : bytes;
  w_open : bool;
  w_good : bool;
  w_buf : bytes
}.

Definition WalWriter_new (path : bytes) : WalWriter := mkWalWriter path false true [].

(** A log being written and the file system it lives in. *)
Definition WalM (A : Type) : Type := SM (WalWriter * World) A.

Definition wal_io {A} (m : SM World A) : WalM A := zoom snd (fun w s => (s.1, w)) m.
Definition set_wal (f : WalWriter -> WalWriter) : WalM unit := modify (fun s => (f s.1, s.2)).

(** Hand [take n (w_buf)] to the file and forget the buffer. *)
Definition flush_prefix (n : nat) : WalM unit :=
  modify (fun '(wr, w) =>
    (mkWalWriter (w_path wr) (w_open wr) (w_good wr) [],
     set_files (insert (w_path wr) (contents w (w_path wr) ++ take n (w_buf wr))) w)).

Definition stream_failed : WalM unit :=
  set_wal (fun wr => mkWalWriter (w_path wr) (w_open wr) false (w_buf wr)).

(** [out_.open(path_, app)] creates the file if it is missing. *)
Definition Wal_Open : WalM unit :=
  f ← wal_io next_fault;
  path ← gets (fun s => w_path s.1);
  match f with
  | Some _ => stream_failed ;; fail (IOError (lit "cannot open wal for append: " ++ path))
  | None =>
    modify (fun s => (mkWalWriter path true (w_good s.1) (w_buf s.1),
                      set_files (insert path (contents s.2 path)) s.2))
  end.

(** The framed record. *)
Definition frame (data : bytes) : bytes :=
  let len := u32 (Z.of_nat (length data)) in
  let crc := MaskCrc (Crc32 data) in
  let header := PutFixed32 (PutFixed32 [] len) crc in
  header ++ data.

Definition AddRecord (data : bytes) : WalM unit :=
  wr ← gets fst;
  if negb (w_open wr) then fail (IOError (lit "wal not open"))
  else if negb (w_good wr) then fail (IOError (lit "wal write failed"))
  else
    set_wal (fun wr => mkWalWriter (w_path wr) (w_open wr) (w_good wr) (w_buf wr ++ frame data)) ;;
    f ← wal_io next_fault;
    match f with
    | Some n => flush_prefix n ;; stream_failed ;; fail (IOError (lit "wal write failed"))
    | None => mret tt
    end.

Definition Sync : WalM unit :=
  wr ← gets fst;
  if negb (w_open wr) then fail (IOError (lit "wal not open"))
  else if negb (w_good wr) then fail (IOError (lit "wal flush failed"))
  else
    f ← wal_io next_fault;
    match f with
    | Some n => flush_prefix n ;; stream_failed ;; fail (IOError (lit "wal flush failed"))
    | None => flush_prefix (length (w_buf wr))
    end.

(** Errors of the final flush are ignored. *)
Definition Close : WalM unit :=
  wr ← gets fst;
  if negb (w_open wr) then mret tt
  else
    f ← wal_io next_fault;
    flush_prefix (match f with Some n => n | None => length (w_buf wr) end) ;;
    set_wal (fun wr => mkWalWriter (w_path wr) false (w_good wr) []).

(** The process dies: [n] bytes of the buffer had already left the stream. *)
Definition wal_crash (n : nat) (wr : WalWriter) (w : World) : World :=
  if w_open wr && w_good wr
  then set_files (insert (w_path wr) (contents w (w_path wr) ++ take n (w_buf wr))) w
  else w.

(** * Reader: the rest of the file *)

Definition ReadRecord (rest : bytes) : Res (bytes * bytes) :=
  if bool_decide (rest = []) then Fail (NotFound (lit "EOF"))
  else if (length rest <? 8)%nat then Fail (Corruption (lit "truncated wal header"))
  else
    let len := DecodeFixed32 rest in
    let masked := DecodeFixed32 (drop 4 rest) in
    let body := drop 8 rest in
    if (0 <? len) && (Z.of_nat (length body) <? len)
    then Fail (Corruption (lit "truncated wal record"))
    else
      let record := take (Z.to_nat len) body in
      if negb (MaskCrc (Crc32 record) =? masked)
      then Fail (Corruption (lit "wal crc mismatch"))
      else Ret (record, drop (Z.to_nat len) body).

(** All records up to the first status that is not OK, and that status. *)
Fixpoint read_records (fuel : nat) (rest : bytes) : list bytes * Status :=
  match fuel with
  | O => ([], OK)
  | S fuel =>
    match ReadRecord rest with
    | Ret (r, rest) => let '(rs, s) := read_records fuel rest in (r :: rs, s)
    | Fail s => ([], s)
    | Stuck => ([], OK)
    end
  end.
(** Each record takes at least its header. *)
Definition ReadAll (file : bytes) : list bytes * Status := read_records (S (length file)) file.

(** * Write batches *)

Definition BatchEntry : Type := ValueType * (bytes * bytes).

Definition put_batch_entry (out : bytes) (e : BatchEntry) : bytes :=
  PutLengthPrefixedSlice (PutLengthPrefixedSlice (out ++ [e.1]) e.2.1) e.2.2.

Definition EncodeWriteBatch (seq : Z) (entries : list BatchEntry) : bytes :=
  foldl put_batch_entry
    (PutFixed32 (PutFixed64 [] seq) (u32 (Z.of_nat (length entries)))) entries.

Fixpoint decode_entries (count : nat) (s : bytes) : Res (list BatchEntry) :=
  match count with
  | O => Ret []
  | S count =>
    match s with
    | [] => Fail (Corruption (lit "batch truncated type"))
    | type :: s =>
      '(key, s) ← res_of_option (Corruption (lit "batch bad key")) (GetLengthPrefixedSlice s);
      '(val, s) ← res_of_option (Corruption (lit "batch bad val")) (GetLengthPrefixedSlice s);
      es ← decode_entries count s;
      Ret ((type, (key, val)) :: es)
    end
  end.

Definition DecodeWriteBatch (record : bytes) : Res (Z * list BatchEntry) :=
  '(seq, s) ← res_of_option (Corruption (lit "batch missing seq")) (GetFixed64 record);
  '(count, s) ← res_of_option (Corruption (lit "batch missing count")) (GetFixed32 s);
  entries ← decode_entries (Z.to_nat count) s;
  Ret (seq, entries).

#[global] Arguments frame : simpl never.
#[global] Arguments EncodeWriteBatch : simpl never.
#[global] Arguments ReadAll : simpl never.

(** * Framing *)

Lemma frame_eq data : frame data =
  le_bytes 4 (u32 (Z.of_nat (length data))) ++ le_bytes 4 (MaskCrc (Crc32 data)) ++ data.
Proof. unfold frame, PutFixed32. cbn [app]. by rewrite <- app_assoc. Qed.

Lemma length_frame data : length (frame data) = (8 + length data)%nat.
Proof. rewrite frame_eq, !length_app, !length_le_bytes. lia. Qed.

Lemma ReadRecord_frame data rest : len32 data -> ReadRecord (frame data ++ rest) = Ret (data, rest).
Proof.
  intros Hl. unfold ReadRecord.
  rewrite bool_decide_false
    by (intros E; apply (f_equal length) in E; rewrite length_app, length_frame in E; simpl in E; lia).
  rewrite length_app, length_frame, (proj2 (Nat.ltb_ge _ _)) by lia.
  rewrite frame_eq, <- !app_assoc. unfold len32 in Hl.
  rewrite DecodeFixed32_put by (apply Z.mod_pos_bound; lia).
  unfold u32. rewrite Z.mod_small by lia.
  rewrite drop_le_bytes, (drop_le_bytes2 4 4), DecodeFixed32_put by apply MaskCrc_range.
  rewrite length_app, Nat2Z.id, take_app_length, drop_app_length.
  rewrite (proj2 (Z.ltb_ge (Z.of_nat (length data + length rest)) _)) by lia.
  by rewrite andb_false_r, Z.eqb_refl.
Qed.

(** A file cut inside a frame is reported as corrupt. *)
Lemma ReadRecord_torn data n : len32 data -> (0 < n < length (frame data))%nat ->
  exists msg, ReadRecord (take n (frame data)) = Fail (Corruption msg).
Proof.
  intros Hl Hn. rewrite length_frame in Hn. unfold ReadRecord.
  assert (Hlen : length (take n (frame data)) = n) by (rewrite length_take, length_frame; lia).
  rewrite bool_decide_false by (intros E; apply (f_equal length) in E; simpl in E; lia).
  rewrite Hlen. destruct (Nat.ltb_spec n 8); [eauto|]. unfold len32 in Hl.
  replace (DecodeFixed32 (take n (frame data))) with (Z.of_nat (length data)).
  2: { symmetry. unfold DecodeFixed32. rewrite take_take, Nat.min_l by lia.
       rewrite frame_eq, take_le_bytes.
       rewrite le_value_bytes_small; unfold u32; rewrite Z.mod_small; lia. }
  rewrite length_drop, Hlen.
  rewrite (proj2 (Z.ltb_lt 0 _)), (proj2 (Z.ltb_lt (Z.of_nat (n - 8)) _)) by lia. eauto.
Qed.

Lemma read_records_frames rs fuel rest : Forall len32 rs -> (length rs <= fuel)%nat ->
  read_records fuel (concat (map frame rs) ++ rest) =
    (rs ++ (read_records (fuel - length rs) rest).1, (read_records (fuel - length rs) rest).2).
Proof.
  revert fuel; induction rs as [|r rs IH]; intros fuel Hrs Hf.
  - simpl. rewrite Nat.sub_0_r. by destruct (read_records fuel rest).
  - apply Forall_cons in Hrs as [Hr Hrs]. destruct fuel as [|fuel]; [simpl in Hf; lia|].
    cbn [map concat read_records length]. rewrite <- app_assoc, ReadRecord_frame by done.
    simpl in Hf. rewrite IH by (done || lia). done.
Qed.

Lemma length_frames rs : (length rs <= length (concat (map frame rs)))%nat.
Proof.
  induction rs as [|r rs IH]; [done|]. cbn [map concat length]. rewrite length_app, length_frame. lia.
Qed.

Lemma ReadAll_frames rs : Forall len32 rs ->
  ReadAll (concat (map frame rs)) = (rs, NotFound (lit "EOF")).
Proof.
  intros H. unfold ReadAll. pose proof (length_frames rs).
  rewrite <- (app_nil_r (concat _)) at 2.
  rewrite read_records_frames by (done || lia).
  replace (S (length (concat (map frame rs))) - length rs)%nat
    with (S (length (concat (map frame rs)) - length rs)) by lia.
  simpl. by rewrite app_nil_r.
Qed.

(** A prefix of a log: whole frames, then nothing or a torn frame. *)
Lemma take_frames rs n : exists k, (k <= length rs)%nat /\
  (take n (concat (map frame rs)) = concat (map frame (take k rs)) \/
   exists r m, rs !! k = Some r /\ (0 < m < length (frame r))%nat /\
     take n (concat (map frame rs)) = concat (map frame (take k rs)) ++ take m (frame r)).
Proof.
  revert n; induction rs as [|r rs IH]; intros n.
  - exists 0%nat. split; [done|]. left. apply take_nil.
  - cbn [map concat]. destruct (decide (n < length (frame r))%nat) as [Hlt|Hge].
    + exists 0%nat. split; [lia|]. rewrite take_app_le by lia. destruct n as [|n].
      * by left.
      * right. exists r, (S n). split; [done|]. split; [lia|done].
    + destruct (IH (n - length (frame r))%nat) as (k & Hk & Hc). exists (S k).
      split; [simpl; lia|]. rewrite take_app_ge by lia. cbn [take map concat lookup list_lookup].
      destruct Hc as [->|(r' & m & Hr & Hm & ->)]; [by left|].
      right. exists r', m. split; [done|]. split; [done|]. by rewrite <- app_assoc.
Qed.

Lemma ReadAll_torn rs r m : Forall len32 rs -> len32 r -> (0 < m < length (frame r))%nat ->
  exists msg, ReadAll (concat (map frame rs) ++ take m (frame r)) = (rs, Corruption msg).
Proof.
  intros Hrs Hr Hm. unfold ReadAll. pose proof (length_frames rs).
  rewrite read_records_frames by (rewrite ?length_app; done || lia).
  destruct (ReadRecord_torn r m Hr Hm) as [msg Ht]. exists msg.
  replace (S (length (concat (map frame rs) ++ take m (frame r))) - length rs)%nat
    with (S (length (concat (map frame rs) ++ take m (frame r)) - length rs))
    by (rewrite length_app; lia).
  cbn [read_records]. rewrite Ht. simpl. by rewrite app_nil_r.
Qed.

(** * Batches *)

Definition batch_entry_ok (e : BatchEntry) : Prop := len32 e.2.1 /\ len32 e.2.2.

Lemma put_batch_entry_app out e : put_batch_entry out e = out ++ put_batch_entry [] e.
Proof.
  unfold put_batch_entry. rewrite (PutLengthPrefixedSlice_app (PutLengthPrefixedSlice _ _)).
  rewrite (PutLengthPrefixedSlice_app (out ++ _)).
  rewrite (PutLengthPrefixedSlice_app (PutLengthPrefixedSlice ([] ++ _) _)).
  rewrite (PutLengthPrefixedSlice_app ([] ++ _)). by rewrite <- !app_assoc.
Qed.

Lemma foldl_put_batch out es :
  foldl put_batch_entry out es = out ++ concat (map (put_batch_entry []) es).
Proof.
  revert out; induction es as [|e es IH]; intros out; simpl; [by rewrite app_nil_r|].
  by rewrite IH, put_batch_entry_app, <- app_assoc.
Qed.

Lemma decode_entries_put es rest : Forall batch_entry_ok es ->
  decode_entries (length es) (concat (map (put_batch_entry []) es) ++ rest) = Ret es.
Proof.
  induction 1 as [|[t [k v]] es [Hk Hv] Hes IH]; [done|]. simpl in Hk, Hv.
  cbn [length map concat decode_entries]. unfold put_batch_entry at 1. cbn [fst snd app].
  rewrite (PutLengthPrefixedSlice_app (PutLengthPrefixedSlice _ _)).
  rewrite (PutLengthPrefixedSlice_app [t]). rewrite <- !app_assoc. cbn [app].
  rewrite codec_get_put by done. cbn [res_of_option mbind Res_bind].
  rewrite codec_get_put by done. cbn [res_of_option mbind Res_bind]. by rewrite IH.
Qed.

Lemma EncodeWriteBatch_eq seq es : EncodeWriteBatch seq es =
  le_bytes 8 seq ++ le_bytes 4 (u32 (Z.of_nat (length es))) ++ concat (map (put_batch_entry []) es).
Proof.
  unfold EncodeWriteBatch. rewrite foldl_put_batch. unfold PutFixed32, PutFixed64.
  by rewrite <- !app_assoc.
Qed.

Lemma DecodeWriteBatch_Encode seq es rest : fits64 seq -> Z.of_nat (length es) < 2 ^ 32 ->
  Forall batch_entry_ok es ->
  DecodeWriteBatch (EncodeWriteBatch seq es ++ rest) = Ret (seq, es).
Proof.
  intros Hs Hn Hes. unfold DecodeWriteBatch. rewrite EncodeWriteBatch_eq, <- !app_assoc.
  rewrite GetFixed64_put by done. cbn [res_of_option mbind Res_bind].
  unfold u32. rewrite GetFixed32_put, Z.mod_small by (try apply Z.mod_pos_bound; lia).
  cbn [res_of_option mbind Res_bind]. rewrite Nat2Z.id.
  by rewrite decode_entries_put.
Qed.

(** * The writer *)

(** The frames a log holds, on disk and still buffered. *)
Definition wal_rep (wr : WalWriter) (w : World) (synced buffered : list bytes) : Prop :=
  w_open wr = true /\ w_good wr = true /\
  files w !! w_path wr = Some (concat (map frame synced)) /\
  w_buf wr = concat (map frame buffered).

Lemma wal_rep_contents wr w s b : wal_rep wr w s b -> contents w (w_path wr) = concat (map frame s).
Proof. unfold contents. by intros (_ & _ & -> & _). Qed.

Lemma wal_rep_add wr w s b data : no_faults w -> wal_rep wr w s b ->
  exists wr', AddRecord data (wr, w) = (Ret tt, (wr', w)) /\ wal_rep wr' w s (b ++ [data]) /\
    w_path wr' = w_path wr.
Proof.
  intros Hf (Ho & Hg & Hfile & Hbuf). unfold AddRecord. sm_run. rewrite Ho, Hg.
  unfold set_wal, wal_io, zoom, next_fault. sm_run. rewrite Hf. sm_run. eexists. split; [done|].
  split; [|done]. repeat split; try done. cbn.
  by rewrite Hbuf, map_app, concat_app; simpl; rewrite app_nil_r.
Qed.

Lemma wal_rep_sync wr w s b : no_faults w -> wal_rep wr w s b ->
  exists wr' w', Sync (wr, w) = (Ret tt, (wr', w')) /\ wal_rep wr' w' (s ++ b) [] /\
    w_path wr' = w_path wr /\
    w' = set_files (insert (w_path wr) (concat (map frame (s ++ b)))) w.
Proof.
  intros Hf Hrep. pose proof (wal_rep_contents _ _ _ _ Hrep) as Hc.
  destruct Hrep as (Ho & Hg & Hfile & Hbuf). unfold Sync. sm_run. rewrite Ho, Hg.
  unfold flush_prefix, wal_io, zoom, next_fault. sm_run. rewrite Hf. sm_run. rewrite take_ge by done.
  rewrite Hc, Hbuf, <- concat_app, <- map_app. eexists _, _. split; [done|].
  split; [|done]. repeat split; try done. cbn. apply lookup_insert_eq.
Qed.

(** * Properties *)

(** Add the records of [batches] in order, syncing after each batch. *)
Fixpoint wal_write (batches : list (list bytes)) : WalM unit :=
  match batches with
  | [] => mret tt
  | rs :: batches => for_each rs AddRecord ;; Sync ;; wal_write batches
  end.

Lemma wal_rep_add_all rs wr w s b : no_faults w -> wal_rep wr w s b ->
  exists wr', for_each rs AddRecord (wr, w) = (Ret tt, (wr', w)) /\ wal_rep wr' w s (b ++ rs) /\
    w_path wr' = w_path wr.
Proof.
  intros Hf. revert wr b; induction rs as [|r rs IH]; intros wr b Hrep.
  - exists wr. rewrite app_nil_r. done.
  - destruct (wal_rep_add wr w s b r Hf Hrep) as (wr1 & E1 & Hrep1 & Hp1).
    destruct (IH wr1 _ Hrep1) as (wr' & E' & Hrep' & Hp'). exists wr'. cbn [for_each].
    rewrite (SM_bind_Ret _ _ _ _ _ E1), E'. rewrite <- app_assoc in Hrep'.
    split; [done|]. split; [done|congruence].
Qed.

Lemma wal_rep_write batches wr w s : no_faults w -> wal_rep wr w s [] ->
  exists wr' w', wal_write batches (wr, w) = (Ret tt, (wr', w')) /\ no_faults w' /\
    wal_rep wr' w' (s ++ concat batches) [] /\ w_path wr' = w_path wr.
Proof.
  revert wr w s; induction batches as [|rs batches IH]; intros wr w s Hf Hrep.
  - exists wr, w. simpl. by rewrite app_nil_r.
  - destruct (wal_rep_add_all rs wr w s [] Hf Hrep) as (wr1 & E1 & Hrep1 & Hp1).
    destruct (wal_rep_sync _ _ _ _ Hf Hrep1) as (wr2 & w2 & E2 & Hrep2 & Hp2 & ->).
    destruct (fun H => IH wr2 _ (s ++ rs) H Hrep2) as (wr' & w' & E' & Hf' & Hrep' & Hp'); [exact Hf|].
    exists wr', w'. cbn [wal_write].
    rewrite (SM_bind_Ret _ _ _ _ _ E1), (SM_bind_Ret _ _ _ _ _ E2), E'. cbn [concat].
    rewrite <- app_assoc in Hrep'. split; [done|]. split; [done|]. split; [done|congruence].
Qed.

Lemma wal_open_rep path w : no_faults w -> files w !! path = None ->
  exists wr w', Wal_Open (WalWriter_new path, w) = (Ret tt, (wr, w')) /\ no_faults w' /\
    wal_rep wr w' [] [] /\ w_path wr = path.
Proof.
  intros Hf Hn. unfold Wal_Open, wal_io, zoom, next_fault. sm_run. rewrite Hf. sm_run.
  unfold contents. rewrite Hn. cbn.
  eexists _, _. split; [done|]. split; [done|]. split; [|done].
  repeat split; try done. cbn. apply lookup_insert_eq.
Qed.

Lemma Forall_take_len {A} (P : A -> Prop) n l : Forall P l -> Forall P (take n l).
Proof. apply Forall_take. Qed.

(** Whatever faults occur, a call on the log touches only its file and keeps its
    path; without faults an open log stays open and the call succeeds. *)
Definition wal_step (m : WalM unit) : Prop := forall wr w,
  exists r wr' w', m (wr, w) = (r, (wr', w')) /\ w_path wr' = w_path wr /\
    touches (w_path wr) w w' /\ (r = Ret tt \/ exists e, r = Fail e /\ ok e = false) /\
    (no_faults w -> w_open wr = true -> w_good wr = true ->
     r = Ret tt /\ w_open wr' = true /\ w_good wr' = true).

Lemma AddRecord_step data : wal_step (AddRecord data).
Proof.
  intros wr w. unfold AddRecord. sm_step.
  destruct (w_open wr) eqn:Eo; [|eexists _, _, _; split; [reflexivity|]; split_and!; eauto using touches_refl; done].
  destruct (w_good wr) eqn:Eg; [|eexists _, _, _; split; [reflexivity|]; split_and!; eauto using touches_refl; done].
  unfold set_wal, stream_failed, flush_prefix, wal_io, zoom. sm_run.
  destruct (next_fault_cases (w_path wr) w) as (f & w1 & -> & Hf & Ht & Hn).
  destruct f as [n|]; sm_run; eexists _, _, _; (split; [reflexivity|]); split_and!; eauto; try done.
  - eapply touches_trans; [exact Ht|apply touches_insert].
  - intros H. by specialize (Hn H).
Qed.

Lemma Sync_step : wal_step Sync.
Proof.
  intros wr w. unfold Sync. sm_step.
  destruct (w_open wr) eqn:Eo; [|eexists _, _, _; split; [reflexivity|]; split_and!; eauto using touches_refl; done].
  destruct (w_good wr) eqn:Eg; [|eexists _, _, _; split; [reflexivity|]; split_and!; eauto using touches_refl; done].
  unfold set_wal, stream_failed, flush_prefix, wal_io, zoom. sm_run.
  destruct (next_fault_cases (w_path wr) w) as (f & w1 & -> & Hf & Ht & Hn).
  destruct f as [n|]; sm_run; eexists _, _, _; (split; [reflexivity|]); split_and!; eauto; try done;
    try (eapply touches_trans; [exact Ht|apply touches_insert]).
  intros H. by specialize (Hn H).
Qed.

Lemma Close_spec wr w : exists wr' w', Close (wr, w) = (Ret tt, (wr', w')) /\ touches (w_path wr) w w'.
Proof.
  unfold Close. sm_step. destruct (w_open wr) eqn:Eo; [|by eexists _, _].
  unfold set_wal, stream_failed, flush_prefix, wal_io, zoom. sm_run.
  destruct (next_fault_cases (w_path wr) w) as (f & w1 & -> & Hf & Ht & Hn).
  sm_run. eexists _, _. split; [reflexivity|]. eapply touches_trans; [exact Ht|apply touches_insert].
Qed.

Lemma Wal_Open_spec path w : exists r wr w', Wal_Open (WalWriter_new path, w) = (r, (wr, w')) /\
  w_path wr = path /\ touches path w w' /\
  (r = Ret tt /\ w_open wr = true /\ w_good wr = true \/
   exists e, r = Fail e /\ ok e = false /\ ~ no_faults w).
Proof.
  unfold Wal_Open. unfold set_wal, stream_failed, flush_prefix, wal_io, zoom. sm_run.
  destruct (next_fault_cases path w) as (f & w1 & -> & Hf & Ht & Hn).
  destruct f as [n|]; sm_run; eexists _, _, _; (split; [reflexivity|]); split_and!; eauto.
  - right. eexists. split; [done|]. split; [done|]. intros H. by specialize (Hn H).
  - eapply touches_trans; [exact Ht|apply touches_insert].
Qed.

(** the log survives a crash as a prefix.  Records are appended in synced
    batches, then [tail] without a sync; the process dies with any number of
    buffered bytes handed to the system.  Reading the file back returns every
    synced record and a prefix of [tail], and then ends with EOF or, if a frame
    was cut, with Corruption: never a record that was not written. *)
Theorem wal_crash_prefix (path : bytes) (w : World) (batches : list (list bytes))
    (tail : list bytes) (n : nat) :
  no_faults w -> files w !! path = None -> Forall (Forall len32) batches -> Forall len32 tail ->
  exists wr w', (Wal_Open ;; wal_write batches ;; for_each tail AddRecord) (WalWriter_new path, w)
                  = (Ret tt, (wr, w')) /\
    exists k st, ReadAll (contents (wal_crash n wr w') path) = (concat batches ++ take k tail, st) /\
      (st = NotFound (lit "EOF") \/ exists msg, st = Corruption msg).
Proof.
  intros Hf Hn Hb Ht.
  destruct (wal_open_rep path w Hf Hn) as (wr0 & w0 & E0 & Hf0 & Hrep0 & Hp0).
  destruct (wal_rep_write batches wr0 w0 [] Hf0 Hrep0) as (wr1 & w1 & E1 & Hf1 & Hrep1 & Hp1).
  destruct (wal_rep_add_all tail wr1 w1 _ [] Hf1 Hrep1) as (wr2 & E2 & Hrep2 & Hp2).
  exists wr2, w1. split; [by rewrite (SM_bind_Ret _ _ _ _ _ E0), (SM_bind_Ret _ _ _ _ _ E1)|].
  pose proof (wal_rep_contents _ _ _ _ Hrep2) as Hc. destruct Hrep2 as (Ho & Hg & _ & Hbuf).
  simpl in Hc, Hbuf. unfold wal_crash. rewrite Ho, Hg. cbn [andb].
  assert (w_path wr2 = path) as -> by congruence.
  rewrite contents_insert.
  assert (Hall : Forall len32 (concat batches)) by (by apply Forall_concat).
  rewrite <- Hp0, <- Hp1, <- Hp2, Hc, Hbuf.
  destruct (take_frames tail n) as (k & Hk & [->|(r & m & Hr & Hm & ->)]); exists k.
  - eexists. rewrite <- concat_app, <- map_app, ReadAll_frames; [eauto|].
    apply Forall_app. split; [done|by apply Forall_take].
  - rewrite app_assoc, <- concat_app, <- map_app.
    destruct (ReadAll_torn (concat batches ++ take k tail) r m) as [msg ->]; [..|done|eauto].
    + apply Forall_app. split; [done|by apply Forall_take].
    + rewrite Forall_forall in Ht. apply Ht. by eapply list_elem_of_lookup_2.
Qed.

(** A crash in the middle of the third record. *)
Lemma wal_crash_prefix_witness :
  let w := mkWorld ∅ ∅ [] in
  exists wr w', (Wal_Open ;; wal_write [[lit "a"]; [lit "b"]] ;; for_each [lit "cc"; lit "d"] AddRecord)
                  (WalWriter_new (lit "f"), w) = (Ret tt, (wr, w')) /\
    ReadAll (contents (wal_crash 12 wr w') (lit "f"))
      = ([lit "a"; lit "b"; lit "cc"], Corruption (lit "truncated wal header")).
Proof.
  intros w.
  destruct (wal_crash_prefix (lit "f") w [[lit "a"]; [lit "b"]] [lit "cc"; lit "d"] 12)
    as (wr & w' & E & _); [done|done| | |].
  - repeat constructor.
  - repeat constructor.
  - exists wr, w'. split; [exact E|].
    assert (C : let '(_, (wr, w')) :=
                  (Wal_Open ;; wal_write [[lit "a"]; [lit "b"]] ;;
                   for_each [lit "cc"; lit "d"] AddRecord) (WalWriter_new (lit "f"), w) in
                ReadAll (contents (wal_crash 12 wr w') (lit "f"))
                  = ([lit "a"; lit "b"; lit "cc"], Corruption (lit "truncated wal header")))
      by (vm_compute; reflexivity).
    rewrite E in C. exact C.
Defined.

(** Write batches round-trip through the log: a record framed by the writer
    is returned whole by the reader, and decodes to the sequence number and the
    entries it was encoded from, whatever follows it in the file. *)
Theorem write_batch_roundtrip (seq : Z) (entries : list BatchEntry) (rest : bytes) :
  fits64 seq -> Z.of_nat (length entries) < 2 ^ 32 -> Forall batch_entry_ok entries ->
  len32 (EncodeWriteBatch seq entries) ->
  ('(record, rest) ← ReadRecord (frame (EncodeWriteBatch seq entries) ++ rest);
   '(seq, es) ← DecodeWriteBatch record;
   Ret (seq, es, rest)) = Ret (seq, entries, rest).
Proof.
  intros Hs Hn He Hl. rewrite ReadRecord_frame by done. cbn [mbind Res_bind].
  pose proof (DecodeWriteBatch_Encode seq entries [] Hs Hn He) as E.
  rewrite app_nil_r in E. by rewrite E.
Qed.

Lemma write_batch_roundtrip_witness :
  let es := [(kTypeValue, (lit "a", lit "1")); (kTypeDeletion, (lit "b", []))] in
  ('(record, rest) ← ReadRecord (frame (EncodeWriteBatch 9 es) ++ lit "zz");
   '(seq, es) ← DecodeWriteBatch record;
   Ret (seq, es, rest)) = Ret (9, es, lit "zz").
Proof.
  intros es. apply (write_batch_roundtrip 9 es (lit "zz")).
  - unfold fits64. lia.
  - simpl. lia.
  - repeat constructor.
  - vm_compute. reflexivity.
Defined.

(** the checksum guards the payload: overwriting up to four consecutive
    bytes of a record's payload, at any position, makes the reader report a
    checksum mismatch instead of returning the damaged record. *)
Theorem wal_detects_corruption (pre x y post rest : bytes) :
  len32 (pre ++ x ++ post) -> length x = length y -> (length x <= 4)%nat -> x <> y ->
  ReadRecord (take 8 (frame (pre ++ x ++ post)) ++ (pre ++ y ++ post) ++ rest)
    = Fail (Corruption (lit "wal crc mismatch")).
Proof.
  intros Hl Hxy Hx Hne. set (data := pre ++ x ++ post). set (data' := pre ++ y ++ post).
  assert (Hlen : length data' = length data) by (unfold data, data'; rewrite !length_app; lia).
  rewrite frame_eq, (take_le_bytes2 4 4).
  unfold ReadRecord. rewrite bool_decide_false
    by (intros E; apply (f_equal length) in E; rewrite !length_app, length_le_bytes in E; simpl in E; lia).
  rewrite !length_app, !length_le_bytes, (proj2 (Nat.ltb_ge _ _)) by lia.
  rewrite <- !app_assoc. unfold len32 in Hl. fold data in Hl.
  rewrite DecodeFixed32_put by (apply Z.mod_pos_bound; lia).
  unfold u32. rewrite Z.mod_small by lia.
  rewrite drop_le_bytes, (drop_le_bytes2 4 4), DecodeFixed32_put by apply MaskCrc_range.
  rewrite length_app, Nat2Z.id, <- Hlen, take_app_length.
  rewrite (proj2 (Z.ltb_ge (Z.of_nat (length data' + length rest)) _)) by lia.
  rewrite andb_false_r. destruct (Z.eqb_spec (MaskCrc (Crc32 data')) (MaskCrc (Crc32 data))) as [E|]; [|done].
  apply MaskCrc_inj in E; [|apply Crc32_range..].
  destruct Hne. symmetry. apply (Crc32_inj_window pre y x post); [done|lia|exact E].
Qed.

Lemma wal_detects_corruption_witness :
  ReadRecord (take 8 (frame (lit "abcdef")) ++ lit "abXYef" ++ lit "zz")
    = Fail (Corruption (lit "wal crc mismatch")).
Proof.
  apply (wal_detects_corruption (lit "ab") (lit "cd") (lit "XY") (lit "ef") (lit "zz"));
    vm_compute; congruence || reflexivity || lia.
Defined.
