(* ===== verification/Block.v ===== *)
(** Blocks (include/lsmkv/block.h, src/block.cpp): prefix-compressed sorted
    entries with restart points, the unit of both data and index blocks. *)
From S2P Require Import Prelude Status Slice Encoding InternalKey Run.

(** * BlockBuilder *)

Record BlockBuilder := mkBlockBuilder {
  restart_interval_ : Z;
  buffer_ : bytes;
  restarts_ : list Z;
  bb_last_key : bytes;
  counter_ : Z;
  finished_ : bool
}.

Definition BlockBuilder_new (restart_interval : Z) : BlockBuilder :=
  mkBlockBuilder restart_interval [] [0] [] 0 false.

Definition BlockBuilder_Reset (bb : BlockBuilder) : BlockBuilder :=
  mkBlockBuilder (restart_interval_ bb) [] [0] [] 0 false.

(** [while (shared < min_len && last_key_[shared] == key[shared]) ++shared;] *)
Fixpoint shared_prefix (a b : bytes) : nat :=
  match a, b with
  | x :: a, y :: b => if decide (x = y) then S (shared_prefix a b) else 0
  | _, _ => 0
  end.

(** The asserts are the two [Stuck] branches. *)
Definition BlockBuilder_Add (bb : BlockBuilder) (key value : bytes) : Res BlockBuilder :=
  if finished_ bb then Stuck
  else if restart_interval_ bb <? counter_ bb then Stuck
  else
    let '(shared, restarts, counter) :=
      if counter_ bb <? restart_interval_ bb
      then (shared_prefix (bb_last_key bb) key, restarts_ bb, counter_ bb)
      else (0%nat, restarts_ bb ++ [u32 (Z.of_nat (length (buffer_ bb)))], 0) in
    let non_shared := (length key - shared)%nat in
    let buf := PutVarint32 (buffer_ bb) (u32 (Z.of_nat shared)) in
    let buf := PutVarint32 buf (u32 (Z.of_nat non_shared)) in
    let buf := PutVarint32 buf (u32 (Z.of_nat (length value))) in
    let buf := buf ++ drop shared key in
    let buf := buf ++ value in
    let last_key := take shared (bb_last_key bb) ++ drop shared key in
    Ret (mkBlockBuilder (restart_interval_ bb) buf restarts last_key (counter + 1) false).

(** The finished block and the builder afterwards. *)
Definition BlockBuilder_Finish (bb : BlockBuilder) : bytes * BlockBuilder :=
  let buf := foldl PutFixed32 (buffer_ bb) (restarts_ bb) in
  let buf := PutFixed32 buf (u32 (Z.of_nat (length (restarts_ bb)))) in
  (buf, mkBlockBuilder (restart_interval_ bb) buf (restarts_ bb) (bb_last_key bb)
                       (counter_ bb) true).

Definition CurrentSizeEstimate (bb : BlockBuilder) : nat :=
  (length (buffer_ bb) + length (restarts_ bb) * 4 + 4)%nat.

Definition BlockBuilder_empty (bb : BlockBuilder) : bool := bool_decide (buffer_ bb = []).

(** * Block *)

Record Block := mkBlock { data_ : bytes; restart_offset_ : Z; block_status : Status }.

(** [DecodeFixed32(data_.data() + data_.size() - 4)] *)
Definition num_restarts (data : bytes) : Z := DecodeFixed32 (drop (length data - 4) data).

Definition Block_new (data : bytes) : Block :=
  if (length data <? 4)%nat then mkBlock data 0 (Corruption (lit "block too small"))
  else
    let ro := u32 (u32 (Z.of_nat (length data)) - 4 - u32 (num_restarts data * 4)) in
    mkBlock data ro
      (if Z.of_nat (length data - 4) <? ro then Corruption (lit "bad restart offset") else OK).

(** Block::Iterator; positions are offsets into the block. *)
Record BlockIter := mkBlockIter {
  bi_restart_index : Z;
  bi_p : nat;
  bi_limit : nat;
  bi_key : bytes;
  bi_value : bytes;
  bi_valid : bool;
  bi_status : Status
}.

Definition BlockIter_new (b : Block) : BlockIter := mkBlockIter 0 0 0 [] [] false (block_status b).

Definition NumRestarts (b : Block) : Z := num_restarts (data_ b).

(** The offset stored in the restart array; [index * 4] is a 32-bit product, which is
    added to a pointer. *)
Definition RestartPoint (b : Block) (index : Z) : Res nat :=
  let off := Z.to_nat (restart_offset_ b + u32 (index * 4)) in
  if (off + 4 <=? length (data_ b))%nat
  then Ret (Z.to_nat (DecodeFixed32 (drop off (data_ b))))
  else Stuck.

(** [GetVarint32Ptr(data + p, data + limit, &v)]: the value and the next offset. *)
Definition varint_at (data : bytes) (p limit : nat) : option (Z * nat) :=
  match GetVarint32Ptr (drop p (take limit data)) with
  | Some (v, rest) => Some (v, (limit - length rest)%nat)
  | None => None
  end.

Definition entry_header (data : bytes) (p limit : nat) : option (Z * Z * Z * nat) :=
  '(shared, q) ← varint_at data p limit;
  '(non_shared, q) ← varint_at data q limit;
  '(value_len, q) ← varint_at data q limit;
  Some (shared, non_shared, value_len, q).

Definition invalid (it : BlockIter) (s : Status) : BlockIter :=
  mkBlockIter (bi_restart_index it) (bi_p it) (bi_limit it) (bi_key it) (bi_value it) false s.

Definition ParseNext (b : Block) (it : BlockIter) : Res BlockIter :=
  if (bi_limit it <=? bi_p it)%nat then Ret (invalid it (bi_status it))
  else
    let bad := Ret (invalid it (Corruption (lit "bad block entry"))) in
    match entry_header (data_ b) (bi_p it) (bi_limit it) with
    | None => bad
    | Some (shared, non_shared, value_len, q) =>
      if (Z.of_nat (bi_limit it - q) <? u32 (non_shared + value_len))
         || (Z.of_nat (length (bi_key it)) <? shared)
      then bad
      else
        let ns := Z.to_nat non_shared in
        let vl := Z.to_nat value_len in
        if (length (data_ b) <? q + ns + vl)%nat then Stuck
        else
          let key := take (Z.to_nat shared) (bi_key it) ++ take ns (drop q (data_ b)) in
          let value := take vl (drop (q + ns) (data_ b)) in
          Ret (mkBlockIter (bi_restart_index it) (q + ns + vl) (bi_limit it) key value true
                           (bi_status it))
    end.

Definition BlockIter_Next (b : Block) (it : BlockIter) : Res BlockIter :=
  if bi_valid it then ParseNext b it else Stuck.

(** The common tail of [SeekToFirst] and [Seek]: start at restart [index]. *)
Definition from_restart (b : Block) (it : BlockIter) (index : Z) : Res BlockIter :=
  p ← RestartPoint b index;
  ParseNext b (mkBlockIter index p (Z.to_nat (restart_offset_ b)) [] (bi_value it) (bi_valid it)
                           (bi_status it)).

Definition BlockIter_SeekToFirst (b : Block) (it : BlockIter) : Res BlockIter :=
  if negb (ok (bi_status it)) then Ret (invalid it (bi_status it))
  else from_restart b it 0.

(** The binary search over the restart array; the fuel is the number of restarts. *)
Fixpoint search_restarts (fuel : nat) (b : Block) (target : bytes) (left right : Z) : Res Z :=
  if u32 (left + 1) <? right then
    match fuel with
    | O => Stuck
    | S fuel =>
      let mid := u32 (left + right) / 2 in
      region ← RestartPoint b mid;
      '(_, non_shared, _, q) ← deref (entry_header (data_ b) region (Z.to_nat (restart_offset_ b)));
      let ns := Z.to_nat non_shared in
      if (length (data_ b) <? q + ns)%nat then Stuck
      else
        match CompareInternalKey (take ns (drop q (data_ b))) target with
        | Lt => search_restarts fuel b target mid right
        | _ => search_restarts fuel b target left mid
        end
    end
  else Ret left.

(** [while (valid_ && CompareInternalKey(key_, target) < 0) ParseNext();] *)
Fixpoint scan_forward (fuel : nat) (b : Block) (target : bytes) (it : BlockIter) : Res BlockIter :=
  if bi_valid it then
    match CompareInternalKey (bi_key it) target with
    | Lt =>
      match fuel with
      | O => Stuck
      | S fuel => it ← ParseNext b it; scan_forward fuel b target it
      end
    | _ => Ret it
    end
  else Ret it.

Definition BlockIter_Seek (b : Block) (it : BlockIter) (target : bytes) : Res BlockIter :=
  if negb (ok (bi_status it)) then Ret (invalid it (bi_status it))
  else
    left ← search_restarts (Z.to_nat (NumRestarts b)) b target 0 (NumRestarts b);
    it ← from_restart b it left;
    scan_forward (length (data_ b)) b target it.

#[global] Arguments BlockBuilder_Finish : simpl never.
#[global] Arguments Block_new : simpl never.

(** * Encoded entries *)

Definition enc_entry (shared : nat) (k v : bytes) : bytes :=
  PutVarint32 [] (Z.of_nat shared) ++ PutVarint32 [] (Z.of_nat (length k - shared)) ++
  PutVarint32 [] (Z.of_nat (length v)) ++ drop shared k ++ v.

#[global] Arguments enc_entry : simpl never.

(** [chain prev es b]: [b] is the encoding of [es], each key compressed against
    the one before it, the first against [prev]. *)
Inductive chain : bytes -> list ikv -> bytes -> Prop :=
  | chain_nil prev : chain prev [] []
  | chain_cons prev shared k v es b :
      (shared <= length prev)%nat -> take shared prev = take shared k -> (shared <= length k)%nat ->
      len32 k -> len32 v -> chain k es b ->
      chain prev ((k, v) :: es) (enc_entry shared k v ++ b).

Definition last_key (prev : bytes) (es : list ikv) : bytes :=
  match last es with Some e => e.1 | None => prev end.

Lemma last_key_cons prev e es : last_key prev (e :: es) = last_key e.1 es.
Proof. unfold last_key. rewrite last_cons. by destruct (last es). Qed.

Lemma last_key_snoc prev es e : last_key prev (es ++ [e]) = e.1.
Proof. unfold last_key. by rewrite last_snoc. Qed.

Lemma chain_snoc prev es b shared k v : chain prev es b ->
  (shared <= length (last_key prev es))%nat ->
  take shared (last_key prev es) = take shared k -> (shared <= length k)%nat ->
  len32 k -> len32 v -> chain prev (es ++ [(k, v)]) (b ++ enc_entry shared k v).
Proof.
  intros Hc. induction Hc as [prev|prev sh k' v' es b H1 H2 H3 H4 H5 Hc IH];
    intros Hs Ht Hk Hlk Hlv.
  - simpl. rewrite <- (app_nil_r (enc_entry _ _ _)). constructor; try done. constructor.
  - rewrite last_key_cons in Hs, Ht. simpl. rewrite <- app_assoc. constructor; auto.
Qed.

Lemma shared_prefix_spec a b : (shared_prefix a b <= length a)%nat /\
  (shared_prefix a b <= length b)%nat /\ take (shared_prefix a b) a = take (shared_prefix a b) b.
Proof.
  revert b; induction a as [|x a IH]; intros [|y b]; simpl; try (repeat split; lia || done).
  destruct (decide (x = y)) as [->|]; simpl; [|repeat split; lia || done].
  destruct (IH b) as (H1 & H2 & H3). repeat split; try lia. by rewrite H3.
Qed.

Lemma enc_entry_pos shared k v : (0 < length (enc_entry shared k v))%nat.
Proof.
  unfold enc_entry. rewrite length_app. unfold PutVarint32 at 1. simpl app at 1.
  pose proof (varint_loop_pos 10 (Z.of_nat shared)). lia.
Qed.

Lemma chain_length prev es b : chain prev es b -> (length es <= length b)%nat.
Proof.
  induction 1 as [|prev sh k v es b ? ? ? ? ? ? IH]; [done|].
  rewrite length_app. pose proof (enc_entry_pos sh k v). simpl. lia.
Qed.

(** * Decoding *)

Lemma varint_at_put data p limit v rest : fits32 v -> (limit <= length data)%nat ->
  drop p (take limit data) = PutVarint32 [] v ++ rest ->
  exists q, varint_at data p limit = Some (v, q) /\ drop q (take limit data) = rest /\
    (q + length rest = limit)%nat /\ (p < q)%nat.
Proof.
  intros Hv Hl E. unfold varint_at. rewrite E.
  change GetVarint32Ptr with GetVarint32. rewrite codec_get_put by done.
  pose proof (length_PutVarint32 v Hv) as Hp.
  assert (Hlen : length (drop p (take limit data)) = (limit - p)%nat)
    by (rewrite length_drop, length_take; lia).
  rewrite E, length_app in Hlen.
  eexists. split; [done|].
  replace (limit - length rest)%nat with (p + length (PutVarint32 [] v))%nat by lia.
  split; [|split; lia]. rewrite <- drop_drop, E. apply drop_app_length.
Qed.

Lemma entry_header_enc data p limit shared k v rest :
  len32 k -> len32 v -> (shared <= length k)%nat -> (limit <= length data)%nat ->
  drop p (take limit data) = enc_entry shared k v ++ rest ->
  exists q, entry_header data p limit =
      Some (Z.of_nat shared, Z.of_nat (length k - shared), Z.of_nat (length v), q) /\
    drop q (take limit data) = drop shared k ++ v ++ rest /\
    (q + (length k - shared) + length v + length rest = limit)%nat /\ (p < q)%nat.
Proof.
  unfold len32. intros Hk Hv Hs Hl E. unfold enc_entry in E. rewrite <- !app_assoc in E.
  destruct (varint_at_put _ _ _ (Z.of_nat shared) _ ltac:(unfold fits32; lia) Hl E) as (q1 & E1 & D1 & L1 & P1).
  destruct (varint_at_put _ _ _ (Z.of_nat (length k - shared)) _ ltac:(unfold fits32; lia) Hl D1) as (q2 & E2 & D2 & L2 & P2).
  destruct (varint_at_put _ _ _ (Z.of_nat (length v)) _ ltac:(unfold fits32; lia) Hl D2) as (q3 & E3 & D3 & L3 & P3).
  exists q3. unfold entry_header. rewrite E1. cbn [mbind option_bind]. rewrite E2.
  cbn [mbind option_bind]. rewrite E3. cbn [mbind option_bind]. split; [done|]. split; [done|].
  rewrite !length_app, length_drop in L3. lia.
Qed.

(** What [take]/[drop] see below the limit is what the block holds there. *)
Lemma take_drop_limit {A} (l : list A) q n limit : (q + n <= limit)%nat ->
  take n (drop q l) = take n (drop q (take limit l)).
Proof.
  intros H. rewrite <- (take_drop limit l) at 1. rewrite !take_drop_commute.
  f_equal. rewrite take_drop, take_take. by rewrite Nat.min_l by lia.
Qed.

(** * Representation of a finished block *)

Definition restart_array (rs : list Z) : bytes := concat (map (le_bytes 4) rs).

(** A restart point starts a suffix of the entries, stored without compression. *)
Definition restart_ok (es : list ikv) (buf : bytes) (r : Z) : Prop :=
  exists es1 es2 b1 b2, es = es1 ++ es2 /\ buf = b1 ++ b2 /\ r = Z.of_nat (length b1) /\
    chain [] es2 b2 /\ es2 <> [].

Record block_rep (b : Block) (es : list ikv) (buf : bytes) (rs : list Z) : Prop := {
  br_data : data_ b = buf ++ restart_array rs ++ le_bytes 4 (Z.of_nat (length rs));
  br_offset : restart_offset_ b = Z.of_nat (length buf);
  br_status : block_status b = OK;
  br_len : len32 (data_ b);
  br_chain : chain [] es buf;
  br_first : head rs = Some 0;
  br_restarts : Forall (restart_ok es buf) (tail rs)
}.

(** The iterator stands on the first entry of [rest], or past the end. *)
Definition it_at (b : Block) (it : BlockIter) (rest : list ikv) : Prop :=
  bi_status it = OK /\
  match rest with
  | [] => bi_valid it = false
  | e :: rest =>
    bi_valid it = true /\ bi_key it = e.1 /\ bi_value it = e.2 /\
    bi_limit it = Z.to_nat (restart_offset_ b) /\
    chain e.1 rest (drop (bi_p it) (take (bi_limit it) (data_ b)))
  end.

Lemma ParseNext_chain b it es : (bi_limit it <= length (data_ b))%nat -> len32 (data_ b) ->
  bi_limit it = Z.to_nat (restart_offset_ b) -> bi_status it = OK ->
  chain (bi_key it) es (drop (bi_p it) (take (bi_limit it) (data_ b))) ->
  exists it', ParseNext b it = Ret it' /\ it_at b it' es.
Proof.
  intros Hl Hd Hlim Hst Hc. unfold ParseNext.
  assert (Hlen : length (drop (bi_p it) (take (bi_limit it) (data_ b))) = (bi_limit it - bi_p it)%nat)
    by (rewrite length_drop, length_take; lia).
  inversion Hc as [? E1 E2 E3|prev shared k v es' rest H1 H2 H3 H4 H5 Hc' E1 E2 E3]; subst.
  - rewrite <- E3 in Hlen. simpl in Hlen. rewrite (proj2 (Nat.leb_le _ _)) by lia.
    eexists. split; [done|]. by split.
  - symmetry in E3.
    destruct (entry_header_enc _ _ _ _ _ _ _ H4 H5 H3 Hl E3) as (q & Eh & Dq & Lq & Pq).
    rewrite (proj2 (Nat.leb_gt _ _)) by lia. rewrite Eh.
    unfold len32 in *. unfold u32. rewrite Z.mod_small by lia.
    rewrite (proj2 (Z.ltb_ge _ _)), (proj2 (Z.ltb_ge _ _)) by lia. cbn [orb].
    rewrite !Nat2Z.id, (proj2 (Nat.ltb_ge _ _)) by lia.
    rewrite (take_drop_limit _ q _ (bi_limit it)), (take_drop_limit _ (q + _) _ (bi_limit it)) by lia.
    rewrite <- drop_drop, Dq.
    assert (Lk : length (drop shared k) = (length k - shared)%nat) by apply length_drop.
    rewrite <- Lk, take_app_length, drop_app_length, take_app_length, H2, take_drop.
    eexists. split; [done|]. split; [done|]. cbn. rewrite Lk.
    split; [done|]. split; [done|]. split; [done|]. split; [done|].
    replace (q + (length k - shared) + length v)%nat
      with (q + (length (drop shared k) + length v))%nat by lia.
    rewrite <- drop_drop, Dq, app_assoc, <- length_app, drop_app_length. done.
Qed.

Lemma drop_restart_array rs i r t : rs !! i = Some r ->
  exists t', drop (4 * i) (restart_array rs ++ t) = le_bytes 4 r ++ t'.
Proof.
  unfold restart_array. revert i; induction rs as [|x rs IH]; intros [|i] E; [done|done| |].
  - injection E as ->. cbn [map concat]. rewrite <- app_assoc. by eexists.
  - destruct (IH i E) as [t' Ht]. exists t'. cbn [map concat]. rewrite <- Ht, <- app_assoc.
    replace (4 * S i)%nat with (4 + 4 * i)%nat by lia. by rewrite <- drop_drop, drop_le_bytes.
Qed.

Lemma length_restart_array rs : length (restart_array rs) = (4 * length rs)%nat.
Proof.
  unfold restart_array. induction rs as [|r rs IH]; [done|].
  cbn [map concat length]. rewrite length_app, length_le_bytes, IH. lia.
Qed.

Section Rep.
Context (b : Block) (es : list ikv) (buf : bytes) (rs : list Z) (Hrep : block_rep b es buf rs).

Lemma br_length : length (data_ b) = (length buf + 4 * length rs + 4)%nat.
Proof.
  rewrite (br_data _ _ _ _ Hrep), !length_app, length_restart_array, length_le_bytes. lia.
Qed.

Lemma br_offset_nat : Z.to_nat (restart_offset_ b) = length buf.
Proof. rewrite (br_offset _ _ _ _ Hrep). lia. Qed.

Lemma br_take : take (length buf) (data_ b) = buf.
Proof. rewrite (br_data _ _ _ _ Hrep). apply take_app_length. Qed.

Lemma restart_range r : restart_ok es buf r -> 0 <= r <= Z.of_nat (length buf).
Proof.
  intros (es1 & es2 & b1 & b2 & _ & -> & -> & _). rewrite length_app. lia.
Qed.

(** Every restart but the first starts a non-empty suffix of the entries. *)
Lemma br_restart_at i r : rs !! i = Some r -> i = 0%nat /\ r = 0 \/ restart_ok es buf r.
Proof.
  intros Hi. pose proof (br_first _ _ _ _ Hrep) as H0. rewrite head_lookup in H0.
  destruct i as [|i]; [left; split; congruence|]. right.
  pose proof (br_restarts _ _ _ _ Hrep) as Hr. rewrite Forall_forall in Hr. apply Hr.
  apply (list_elem_of_lookup_2 _ i). by rewrite lookup_tail.
Qed.

Lemma RestartPoint_spec i r : rs !! i = Some r ->
  RestartPoint b (Z.of_nat i) = Ret (Z.to_nat r).
Proof.
  intros Hi. pose proof (lookup_lt_Some _ _ _ Hi) as Hlt. pose proof br_length as Hl.
  pose proof (br_len _ _ _ _ Hrep) as H32. unfold len32 in H32.
  unfold RestartPoint. rewrite (br_offset _ _ _ _ Hrep). unfold u32.
  rewrite (Z.mod_small (Z.of_nat i * 4)) by lia.
  replace (Z.to_nat (Z.of_nat (length buf) + Z.of_nat i * 4))
    with (length buf + 4 * i)%nat by lia.
  rewrite (proj2 (Nat.leb_le _ _)) by lia.
  rewrite (br_data _ _ _ _ Hrep), <- drop_drop, drop_app_length.
  destruct (drop_restart_array rs i r (le_bytes 4 (Z.of_nat (length rs))) Hi) as [t' ->].
  rewrite DecodeFixed32_put; [done|].
  destruct (br_restart_at _ _ Hi) as [[_ ->]|Hr]; [lia|].
  pose proof (restart_range r Hr). lia.
Qed.

Lemma NumRestarts_spec : NumRestarts b = Z.of_nat (length rs).
Proof.
  pose proof br_length as Hl. pose proof (br_len _ _ _ _ Hrep) as H32. unfold len32 in H32.
  unfold NumRestarts, num_restarts. rewrite (br_data _ _ _ _ Hrep), app_assoc.
  rewrite drop_app_length' by (rewrite (length_app _ (le_bytes _ _)), length_le_bytes; lia).
  rewrite <- (app_nil_r (le_bytes _ _)). apply DecodeFixed32_put. lia.
Qed.

Lemma from_restart_spec it i r es1 es2 b1 b2 : bi_status it = OK -> rs !! i = Some r ->
  es = es1 ++ es2 -> buf = b1 ++ b2 -> r = Z.of_nat (length b1) -> chain [] es2 b2 ->
  exists it', from_restart b it (Z.of_nat i) = Ret it' /\ it_at b it' es2.
Proof.
  intros Hst Hi Hes Hbuf Hr Hc. unfold from_restart. rewrite (RestartPoint_spec _ _ Hi).
  cbn [mbind Res_bind]. pose proof br_length. apply ParseNext_chain; cbn; try done.
  - rewrite br_offset_nat. lia.
  - by apply (br_len _ _ _ _ Hrep).
  - rewrite br_offset_nat, br_take, Hr, Nat2Z.id, Hbuf, drop_app_length. done.
Qed.

(** [SeekToFirst] stands on the first entry. *)
Lemma SeekToFirst_spec it : bi_status it = OK ->
  exists it', BlockIter_SeekToFirst b it = Ret it' /\ it_at b it' es.
Proof.
  intros Hst. unfold BlockIter_SeekToFirst. rewrite Hst. cbn [ok has_code negb].
  pose proof (br_first _ _ _ _ Hrep) as H0. rewrite head_lookup in H0.
  apply (from_restart_spec it 0 0 [] es [] buf); try done. apply (br_chain _ _ _ _ Hrep).
Qed.

Lemma Next_spec it e rest : it_at b it (e :: rest) ->
  exists it', BlockIter_Next b it = Ret it' /\ it_at b it' rest.
Proof.
  intros (Hst & Hv & Hk & _ & Hl & Hc). unfold BlockIter_Next. rewrite Hv.
  pose proof br_length. apply ParseNext_chain; try done.
  - rewrite Hl, br_offset_nat. lia.
  - by apply (br_len _ _ _ _ Hrep).
  - by rewrite Hk.
Qed.

Lemma scan_forward_spec target rest : forall it fuel, it_at b it rest ->
  (length rest <= fuel)%nat ->
  exists it', scan_forward fuel b target it = Ret it' /\ it_at b it' (seek_run target rest).
Proof.
  induction rest as [|e rest IH]; intros it fuel Hat Hf.
  - exists it. split; [|done]. destruct Hat as [_ Hv]. by destruct fuel; simpl; rewrite Hv.
  - pose proof Hat as (_ & Hv & Hk & _).
    destruct fuel as [|fuel]; [simpl in Hf; lia|]. cbn [scan_forward seek_run].
    rewrite Hv, Hk. destruct (CompareInternalKey e.1 target); try (by exists it).
    destruct (Next_spec it e rest Hat) as (it1 & E1 & Hat1).
    unfold BlockIter_Next in E1. rewrite Hv in E1. rewrite E1. cbn [mbind Res_bind].
    apply IH; [done|]. simpl in Hf. lia.
Qed.

(** A restart whose key is before the target has only smaller keys before it. *)
Definition left_ok (target : bytes) (left : Z) : Prop :=
  exists i r es1 es2 b1 b2, left = Z.of_nat i /\ rs !! i = Some r /\
    es = es1 ++ es2 /\ buf = b1 ++ b2 /\ r = Z.of_nat (length b1) /\ chain [] es2 b2 /\
    forall e, e ∈ es1 -> CompareInternalKey e.1 target = Lt.

Lemma left_ok_0 target : left_ok target 0.
Proof.
  exists 0%nat, 0, [], es, [], buf. pose proof (br_first _ _ _ _ Hrep) as H0.
  rewrite head_lookup in H0. repeat split; try done.
  - apply (br_chain _ _ _ _ Hrep).
  - intros e He. by apply elem_of_nil in He.
Qed.

Context (Hwf : Forall (fun e => ikey_wf e.1) es) (Hsort : run_sorted es).

Lemma search_restarts_spec target : ikey_wf target -> forall fuel left right,
  left_ok target left -> 0 <= left < right -> right <= Z.of_nat (length rs) ->
  right - left <= Z.of_nat fuel ->
  exists l, search_restarts fuel b target left right = Ret l /\ left_ok target l.
Proof.
  intros Ht. pose proof br_length as Hl. pose proof (br_len _ _ _ _ Hrep) as H32. unfold len32 in H32.
  induction fuel as [|fuel IH]; intros left right Hleft Hlr Hr Hf; [lia|].
  cbn [search_restarts]. unfold u32. rewrite (Z.mod_small (left + 1)) by lia.
  destruct (Z.ltb_spec (left + 1) right); [|by exists left].
  rewrite (Z.mod_small (left + right)) by lia. set (mid := (left + right) / 2).
  assert (Hm : left < mid < right).
  { unfold mid. pose proof (Z.div_mod (left + right) 2 ltac:(lia)).
    pose proof (Z.mod_pos_bound (left + right) 2 ltac:(lia)). lia. }
  destruct (lookup_lt_is_Some_2 rs (Z.to_nat mid)) as [r Hi]; [lia|].
  replace mid with (Z.of_nat (Z.to_nat mid)) by lia. rewrite (RestartPoint_spec _ _ Hi).
  cbn [mbind Res_bind]. destruct (br_restart_at _ _ Hi) as [[? _]|Hok]; [lia|].
  destruct Hok as (es1 & es2 & b1 & b2 & Hes & Hbuf & -> & Hc & Hne).
  rewrite Nat2Z.id, br_offset_nat.
  inversion Hc as [|prev shared k v es' rest H1 _ H3 H4 H5 Hc' E1 E2 E3];
    subst es2 b2 prev; [done|].
  simpl in H1. replace shared with 0%nat in * by lia. clear H1 H3 shared.
  assert (Hd : drop (length b1) (take (length buf) (data_ b)) = enc_entry 0 k v ++ rest)
    by (rewrite br_take, Hbuf; apply drop_app_length).
  destruct (entry_header_enc (data_ b) (length b1) (length buf) 0 k v rest H4 H5 ltac:(lia) ltac:(lia) Hd)
    as (q & Eh & Dq & Lq & Pq).
  rewrite Eh. cbn [deref mbind Res_bind]. rewrite Nat.sub_0_r in *. rewrite Nat2Z.id.
  rewrite (proj2 (Nat.ltb_ge _ _)) by lia.
  rewrite (take_drop_limit _ q _ (length buf)) by lia.
  rewrite Dq. change (drop 0 k) with k. rewrite take_app_length.
  assert (Hgo : CompareInternalKey k target = Lt -> left_ok target (Z.of_nat (Z.to_nat mid))).
  { intros C. exists (Z.to_nat mid), (Z.of_nat (length b1)), es1, ((k, v) :: es'), b1,
      (enc_entry 0 k v ++ rest). repeat split; try done.
    intros e He. pose proof Hsort as Hs'. pose proof Hwf as Hw'. rewrite Hes in Hs', Hw'.
    apply run_sorted_app in Hs' as (_ & _ & Hlt).
    apply Forall_app in Hw' as [Hw1 Hw2]. apply Forall_cons in Hw2 as [Hk _].
    rewrite Forall_forall in Hw1.
    apply (ord_lt_trans ikey_wf e.1 k target); auto.
    apply (Hlt e (k, v)); [done|]. apply elem_of_cons. by left. }
  destruct (CompareInternalKey k target).
  - apply IH; [done|lia..].
  - apply IH; [by apply Hgo|lia..].
  - apply IH; [done|lia..].
Qed.

(** [Seek] stands on the first entry whose key is not before the target. *)
Lemma Seek_spec it target : ikey_wf target -> bi_status it = OK ->
  exists it', BlockIter_Seek b it target = Ret it' /\ it_at b it' (seek_run target es).
Proof.
  intros Ht Hst. unfold BlockIter_Seek. rewrite Hst, NumRestarts_spec. cbn [ok has_code negb].
  assert (0 < length rs)%nat as Hpos.
  { pose proof (br_first _ _ _ _ Hrep) as H0. rewrite head_lookup in H0.
    by apply lookup_lt_Some in H0. }
  destruct (search_restarts_spec target Ht (Z.to_nat (Z.of_nat (length rs))) 0 (Z.of_nat (length rs))
              (left_ok_0 target)) as (l & -> & Hleft); [lia..|].
  cbn [mbind Res_bind].
  destruct Hleft as (i & r & es1 & es2 & b1 & b2 & -> & Hi & Hes & Hbuf & Hr & Hc & Hlt).
  destruct (from_restart_spec it i r es1 es2 b1 b2) as (it1 & -> & Hat); [done..|].
  cbn [mbind Res_bind].
  destruct (scan_forward_spec target es2 it1 (length (data_ b)) Hat) as (it2 & -> & Hat2).
  - apply chain_length in Hc. rewrite br_length, Hbuf, length_app. lia.
  - exists it2. split; [done|]. by rewrite Hes, seek_run_app.
Qed.
End Rep.

(** * The builder *)

Record bb_inv (bb : BlockBuilder) (es : list ikv) : Prop := {
  bb_interval : 1 <= restart_interval_ bb;
  bb_counter : 0 <= counter_ bb <= restart_interval_ bb;
  bb_open : finished_ bb = false;
  bb_chain : chain [] es (buffer_ bb);
  bb_last : bb_last_key bb = last_key [] es;
  bb_head : head (restarts_ bb) = Some 0;
  bb_count : (length (restarts_ bb) <= S (length es))%nat;
  bb_restarts : len32 (buffer_ bb) -> Forall (restart_ok es (buffer_ bb)) (tail (restarts_ bb))
}.

Lemma bb_inv_new n : 1 <= n -> bb_inv (BlockBuilder_new n) [].
Proof. intros H. constructor; cbn; try done || lia; constructor. Qed.

Lemma bb_inv_reset bb : 1 <= restart_interval_ bb -> bb_inv (BlockBuilder_Reset bb) [].
Proof. apply (bb_inv_new (restart_interval_ bb)). Qed.

Lemma last_key_app es1 es2 : es2 <> [] -> last_key [] (es1 ++ es2) = last_key [] es2.
Proof.
  intros H. unfold last_key. rewrite last_app. destruct es2 as [|e es2 _] using rev_ind; [done|].
  by rewrite last_snoc.
Qed.

Lemma restart_ok_snoc es buf r shared k v : restart_ok es buf r ->
  (shared <= length (last_key [] es))%nat ->
  take shared (last_key [] es) = take shared k -> (shared <= length k)%nat -> len32 k -> len32 v ->
  restart_ok (es ++ [(k, v)]) (buf ++ enc_entry shared k v) r.
Proof.
  intros (es1 & es2 & b1 & b2 & -> & -> & -> & Hc & Hne) Hs Ht Hk Hlk Hlv.
  rewrite last_key_app in Hs, Ht by done.
  exists es1, (es2 ++ [(k, v)]), b1, (b2 ++ enc_entry shared k v). rewrite <- !app_assoc.
  split; [done|]. split; [done|]. split; [done|]. split; [by apply chain_snoc|].
  by destruct es2.
Qed.

Lemma put_entry_eq buf shared k v : (shared <= length k)%nat -> len32 k -> len32 v ->
  (PutVarint32 (PutVarint32 (PutVarint32 buf (u32 (Z.of_nat shared)))
     (u32 (Z.of_nat (length k - shared)))) (u32 (Z.of_nat (length v))) ++ drop shared k) ++ v
  = buf ++ enc_entry shared k v.
Proof.
  unfold len32. intros Hs Hk Hv. unfold u32. rewrite !Z.mod_small by lia.
  unfold enc_entry. rewrite (PutVarint32_app (PutVarint32 _ _)), (PutVarint32_app (PutVarint32 buf _)),
    (PutVarint32_app buf). by rewrite <- !app_assoc.
Qed.

Lemma BlockBuilder_Add_spec bb es k v : bb_inv bb es -> len32 k -> len32 v ->
  exists bb', BlockBuilder_Add bb k v = Ret bb' /\ bb_inv bb' (es ++ [(k, v)]) /\
    restart_interval_ bb' = restart_interval_ bb /\
    exists shared, buffer_ bb' = buffer_ bb ++ enc_entry shared k v /\ (shared <= length k)%nat.
Proof.
  intros [Hi Hcnt Hop Hch Hlast Hhd Hnum Hres] Hk Hv. unfold BlockBuilder_Add.
  rewrite Hop, (proj2 (Z.ltb_ge _ _)) by lia.
  assert (Hsnoc : forall l x, head l = Some 0 -> head (l ++ [x]) = Some 0)
    by (intros [|y l] x H; done).
  destruct (Z.ltb_spec (counter_ bb) (restart_interval_ bb)).
  - destruct (shared_prefix_spec (bb_last_key bb) k) as (S1 & S2 & S3).
    set (shared := shared_prefix (bb_last_key bb) k) in *.
    rewrite put_entry_eq by done. rewrite S3, take_drop. rewrite Hlast in S1, S3.
    eexists; split; [done|]. split; [|split; [done|by exists shared]].
    constructor; cbn [restart_interval_ buffer_ restarts_ bb_last_key counter_ finished_];
      try done; [lia| | |rewrite length_app; simpl; lia|].
    + by apply chain_snoc.
    + by rewrite last_key_snoc.
    + intros Hlen. unfold len32 in Hlen. rewrite length_app in Hlen.
      assert (len32 (buffer_ bb)) as Hb by (unfold len32; lia).
      eapply Forall_impl; [exact (Hres Hb)|]. intros r Hr. by apply restart_ok_snoc.
  - rewrite put_entry_eq by (done || lia).
    eexists; split; [done|]. split; [|split; [done|exists 0%nat; split; [done|lia]]].
    constructor; cbn [restart_interval_ buffer_ restarts_ bb_last_key counter_ finished_];
      try done.
    + apply chain_snoc; try done; lia.
    + by rewrite last_key_snoc.
    + by apply Hsnoc.
    + rewrite !length_app. simpl. lia.
    + intros Hlen. unfold len32 in Hlen. rewrite length_app in Hlen.
      assert (len32 (buffer_ bb)) as Hb by (unfold len32; lia).
      destruct (restarts_ bb) as [|r0 rs]; [done|]. simpl in Hres |- *. apply Forall_app. split.
      * eapply Forall_impl; [exact (Hres Hb)|]. intros r Hr. apply restart_ok_snoc; try done; lia.
      * apply Forall_singleton. exists es, [(k, v)], (buffer_ bb), (enc_entry 0 k v).
        split; [done|]. split; [done|]. unfold len32 in Hb. unfold u32. rewrite Z.mod_small by lia.
        split; [done|]. split; [|done]. rewrite <- (app_nil_r (enc_entry _ _ _)).
        constructor; try done; try (simpl; lia). constructor.
Qed.

Lemma BlockBuilder_Add_size bb k v bb' : len32 k -> len32 v -> BlockBuilder_Add bb k v = Ret bb' ->
  (CurrentSizeEstimate bb' <= CurrentSizeEstimate bb + 19 + length k + length v)%nat.
Proof.
  intros Hk Hv. unfold BlockBuilder_Add, CurrentSizeEstimate.
  destruct (finished_ bb), (restart_interval_ bb <? counter_ bb); try done.
  assert (Hput : forall buf x, fits32 x -> (length (PutVarint32 buf x) <= length buf + 5)%nat).
  { intros buf x Hx. rewrite PutVarint32_app, length_app.
    pose proof (length_PutVarint32 x Hx). lia. }
  assert (H32 : forall x, fits32 (u32 x)) by (intros x; apply Z.mod_pos_bound; lia).
  destruct (counter_ bb <? restart_interval_ bb); intros [= <-]; cbn [buffer_ restarts_];
    rewrite !length_app, length_drop;
    match goal with |- context [PutVarint32 (PutVarint32 (PutVarint32 ?b ?x) ?y) ?z] =>
      pose proof (Hput (PutVarint32 (PutVarint32 b x) y) z (H32 _));
      pose proof (Hput (PutVarint32 b x) y (H32 _)); pose proof (Hput b x (H32 _)) end;
    cbn [length]; lia.
Qed.

Lemma bb_empty bb es : bb_inv bb es -> BlockBuilder_empty bb = bool_decide (es = []).
Proof.
  intros Hbb. unfold BlockBuilder_empty. apply bool_decide_ext.
  pose proof (bb_chain _ _ Hbb) as Hc. split.
  - intros E. rewrite E in Hc. apply chain_length in Hc. by destruct es; [|simpl in Hc; lia].
  - intros ->. by inversion Hc.
Qed.

Lemma foldl_PutFixed32 buf rs : foldl PutFixed32 buf rs = buf ++ restart_array rs.
Proof.
  revert buf; induction rs as [|r rs IH]; intros buf; [by rewrite app_nil_r|].
  cbn [foldl]. rewrite IH. unfold PutFixed32, restart_array. cbn [map concat].
  by rewrite <- app_assoc.
Qed.

Lemma Finish_contents bb : (BlockBuilder_Finish bb).1 =
  buffer_ bb ++ restart_array (restarts_ bb) ++ le_bytes 4 (u32 (Z.of_nat (length (restarts_ bb)))).
Proof.
  unfold BlockBuilder_Finish. cbn [fst]. rewrite foldl_PutFixed32. unfold PutFixed32.
  by rewrite <- app_assoc.
Qed.

Lemma length_Finish bb : length (BlockBuilder_Finish bb).1 = CurrentSizeEstimate bb.
Proof.
  rewrite Finish_contents, !length_app, length_restart_array, length_le_bytes.
  unfold CurrentSizeEstimate. lia.
Qed.

Lemma Finish_rep bb es : bb_inv bb es -> len32 (BlockBuilder_Finish bb).1 ->
  block_rep (Block_new (BlockBuilder_Finish bb).1) es (buffer_ bb) (restarts_ bb).
Proof.
  intros Hbb Hlen. pose proof (length_Finish bb) as Hl. unfold CurrentSizeEstimate in Hl.
  unfold len32 in Hlen. set (c := (BlockBuilder_Finish bb).1) in *.
  assert (Hc : c = buffer_ bb ++ restart_array (restarts_ bb)
                     ++ le_bytes 4 (Z.of_nat (length (restarts_ bb)))).
  { unfold c. rewrite Finish_contents. unfold u32. by rewrite Z.mod_small by lia. }
  assert (Hn : num_restarts c = Z.of_nat (length (restarts_ bb))).
  { unfold num_restarts. rewrite Hl, Hc, app_assoc.
    rewrite drop_app_length' by (rewrite length_app, length_restart_array; lia).
    rewrite <- (app_nil_r (le_bytes _ _)). apply DecodeFixed32_put. lia. }
  unfold Block_new. rewrite (proj2 (Nat.ltb_ge _ _)), Hn, Hl by lia.
  assert (Hro : u32 (u32 (Z.of_nat (length (buffer_ bb) + length (restarts_ bb) * 4 + 4)) - 4
                  - u32 (Z.of_nat (length (restarts_ bb)) * 4)) = Z.of_nat (length (buffer_ bb))).
  { unfold u32. rewrite (Z.mod_small (Z.of_nat (_ + _))) by lia.
    rewrite (Z.mod_small (Z.of_nat (length (restarts_ bb)) * 4)) by lia.
    rewrite Z.mod_small by lia. lia. }
  rewrite Hro.
  destruct Hbb as [Hi Hcnt Hop Hch Hlast Hhd Hnum Hres].
  rewrite (proj2 (Z.ltb_ge _ _)) by lia.
  constructor; cbn [data_ restart_offset_ block_status]; try done.
  apply Hres. unfold len32. lia.
Qed.

(** * Properties *)

Definition BlockBuilder_AddAll (bb : BlockBuilder) (es : list ikv) : Res BlockBuilder :=
  foldl (fun m (e : ikv) => bb ← m; BlockBuilder_Add bb e.1 e.2) (Ret bb) es.

(** Every entry from the iterator's position on. *)
Fixpoint block_collect (fuel : nat) (b : Block) (it : BlockIter) : Res (list ikv) :=
  if bi_valid it then
    match fuel with
    | O => Stuck
    | S fuel =>
      it' ← BlockIter_Next b it;
      es ← block_collect fuel b it';
      Ret ((bi_key it, bi_value it) :: es)
    end
  else Ret [].

Lemma bb_inv_add_all es bb es0 : bb_inv bb es0 -> Forall (fun e => len32 e.1 /\ len32 e.2) es ->
  exists bb', BlockBuilder_AddAll bb es = Ret bb' /\ bb_inv bb' (es0 ++ es).
Proof.
  unfold BlockBuilder_AddAll. intros Hbb Hes. revert bb es0 Hbb.
  induction Hes as [|[k v] es [Hk Hv] Hes IH]; intros bb es0 Hbb.
  - exists bb. by rewrite app_nil_r.
  - cbn [foldl mbind Res_bind fst snd].
    destruct (BlockBuilder_Add_spec bb es0 k v Hbb Hk Hv) as (bb' & -> & Hbb' & _).
    destruct (IH bb' _ Hbb') as (bb'' & -> & Hbb''). exists bb''. by rewrite <- app_assoc in Hbb''.
Qed.

Lemma block_collect_spec b es buf rs rest fuel it : block_rep b es buf rs -> it_at b it rest ->
  (length rest <= fuel)%nat -> block_collect fuel b it = Ret rest.
Proof.
  intros Hrep. revert fuel it; induction rest as [|e rest IH]; intros fuel it Hat Hf.
  - destruct Hat as [_ Hv]. destruct fuel; simpl; by rewrite Hv.
  - destruct fuel as [|fuel]; [simpl in Hf; lia|].
    destruct (Next_spec b es buf rs Hrep it e rest Hat) as (it' & E & Hat').
    destruct Hat as (_ & Hv & Hk & Hval & _). cbn [block_collect]. rewrite Hv, E.
    cbn [mbind Res_bind]. rewrite (IH fuel it' Hat') by (simpl in Hf; lia).
    cbn [mbind Res_bind]. rewrite Hk, Hval. by destruct e.
Qed.

(** A block is a faithful encoding of its entries.  Entries added in
    internal-key order, whatever the restart interval, come back in order from
    [SeekToFirst]/[Next], and [Seek] stands on the first entry whose key is not
    before the target, for every target; no step reads outside the block, and the
    binary search over the restart points terminates. *)
Theorem block_roundtrip (interval : Z) (es : list ikv) :
  1 <= interval -> run_wf es ->
  exists bb, BlockBuilder_AddAll (BlockBuilder_new interval) es = Ret bb /\
    let contents := (BlockBuilder_Finish bb).1 in
    let b := Block_new contents in
    length contents = CurrentSizeEstimate bb /\
    (len32 contents ->
     block_status b = OK /\
     (it ← BlockIter_SeekToFirst b (BlockIter_new b); block_collect (length es) b it) = Ret es /\
     forall target, ikey_wf target ->
       (it ← BlockIter_Seek b (BlockIter_new b) target; block_collect (length es) b it)
         = Ret (seek_run target es)).
Proof.
  intros Hi [Hwf Hs].
  destruct (bb_inv_add_all es _ [] (bb_inv_new interval Hi)) as (bb & Hadd & Hbb).
  { eapply Forall_impl; [exact Hwf|]. by intros e [_ _ ? ?]. }
  exists bb. split; [done|]. intros contents b. split; [apply length_Finish|]. intros Hlen.
  pose proof (Finish_rep bb es Hbb Hlen) as Hrep. fold contents b in Hrep.
  pose proof (br_status _ _ _ _ Hrep) as Hst. split; [done|].
  assert (Hit : bi_status (BlockIter_new b) = OK) by done. split.
  - destruct (SeekToFirst_spec b es _ _ Hrep (BlockIter_new b) Hit) as (it & -> & Hat).
    cbn [mbind Res_bind]. by eapply block_collect_spec.
  - intros target Ht.
    destruct (Seek_spec b es _ _ Hrep (run_wf_ikeys _ Hwf) Hs (BlockIter_new b) target Ht Hit)
      as (it & -> & Hat).
    cbn [mbind Res_bind]. eapply block_collect_spec; [done..|].
    destruct (seek_run_suffix target es) as (pre & E & _).
    apply (f_equal length) in E. rewrite length_app in E. lia.
Qed.

(** Five versions of two keys with a restart every second entry. *)
Lemma block_roundtrip_witness :
  let k u s := MakeInternalKey (lit u) s kTypeValue in
  let es := [(k "ab" 9, lit "1"); (k "ab" 7, lit "2"); (k "ab" 3, lit "3");
             (k "abc" 5, lit "4"); (k "abc" 4, [])]%string in
  exists bb, BlockBuilder_AddAll (BlockBuilder_new 2) es = Ret bb /\
    let b := Block_new (BlockBuilder_Finish bb).1 in
    (it ← BlockIter_Seek b (BlockIter_new b) (k "abc"%string 6); block_collect 5 b it)
      = Ret [(k "abc"%string 5, lit "4"); (k "abc"%string 4, [])].
Proof.
  intros k es.
  assert (Hwf : run_wf es).
  { split; [apply (bool_decide_unpack _); vm_compute; exact I|].
    unfold run_sorted. repeat constructor. }
  destruct (block_roundtrip 2 es ltac:(lia) Hwf) as (bb & Hadd & _ & Hb).
  exists bb. split; [exact Hadd|].
  assert (Hlen : len32 (BlockBuilder_Finish bb).1).
  { assert (C : match BlockBuilder_AddAll (BlockBuilder_new 2) es with
                | Ret bb => len32 (BlockBuilder_Finish bb).1 | _ => True end)
      by (vm_compute; reflexivity).
    rewrite Hadd in C. exact C. }
  destruct (Hb Hlen) as (_ & _ & Hseek).
  intros b. refine (eq_trans (Hseek (k "abc"%string 6) ltac:(vm_compute; lia)) _).
  vm_compute. reflexivity.
Defined.
