(* ===== verification/Options.v ===== *)
(** Options (include/lsmkv/options.h). *)
From S2P Require Import Prelude.

Record Options := mkOptions {
  create_if_missing : bool;
  error_if_exists : bool;
  write_buffer_size : Z;
  block_size : Z;
  block_restart_interval : Z;
  level0_compaction_trigger : Z;
  num_levels : Z
}.

Definition default_Options : Options :=
  mkOptions false false (4 * 1024 * 1024) (4 * 1024) 16 4 2.

(** [snapshot = 0] reads the latest state. *)
Record ReadOptions := mkReadOptions { snapshot_opt : Z }.
Record WriteOptions := mkWriteOptions { sync_opt : bool }.

(** Options under which the table format is well defined. *)
Definition options_ok (o : Options) : Prop := 1 <= block_restart_interval o.
