(* ===== verification/SSTable.v ===== *)
(** SSTables (include/lsmkv/sstable.h, src/sstable.cpp): the builder, the reader
    and the iterator over data blocks found through the index block. *)
From S2P Require Import Prelude Status Slice Encoding Crc32 InternalKey Run MemTable Env Block.
From S2P Require Import Options.

Definition kTableMagic : Z := 0xDB04734E.
Definition kFooterSize : nat := 20.

Record FileMetaData := mkFileMetaData {
  fm_number : Z;
  file_size : Z;
  smallest : bytes;
  largest : bytes
}.

(** * SSTableBuilder *)

(** [sb_out] is what was written to the stream; it reaches the file on flush. *)
Record SSTableBuilder := mkSSTableBuilder {
  sb_options : Options;
  sb_path : bytes;
  sb_out : bytes;
  data_block_ : BlockBuilder;
  index_block_ : BlockBuilder;
  sb_last_key : bytes;
  pending_index_key_ : bytes;
  pending_offset_ : Z;
  pending_size_ : Z;
  pending_index_entry_ : bool;
  offset_ : Z;
  sb_open : bool;
  smallest_ : bytes;
  largest_ : bytes;
  has_keys_ : bool;
  sb_status : Status
}.

Definition SSTableBuilder_new (options : Options) (path : bytes) : SSTableBuilder :=
  mkSSTableBuilder options path [] (BlockBuilder_new (block_restart_interval options))
    (BlockBuilder_new 1) [] [] 0 0 false 0 false [] [] false OK.

Definition SbM (A : Type) : Type := SM (SSTableBuilder * World) A.
Definition sb_io {A} (m : SM World A) : SbM A := zoom snd (fun w s => (s.1, w)) m.
Definition set_sb (f : SSTableBuilder -> SSTableBuilder) : SbM unit :=
  modify (fun s => (f s.1, s.2)).

Definition with_data (bb : BlockBuilder) (sb : SSTableBuilder) : SSTableBuilder :=
  mkSSTableBuilder (sb_options sb) (sb_path sb) (sb_out sb) bb (index_block_ sb) (sb_last_key sb)
    (pending_index_key_ sb) (pending_offset_ sb) (pending_size_ sb) (pending_index_entry_ sb)
    (offset_ sb) (sb_open sb) (smallest_ sb) (largest_ sb) (has_keys_ sb) (sb_status sb).
Definition with_index (bb : BlockBuilder) (sb : SSTableBuilder) : SSTableBuilder :=
  mkSSTableBuilder (sb_options sb) (sb_path sb) (sb_out sb) (data_block_ sb) bb (sb_last_key sb)
    (pending_index_key_ sb) (pending_offset_ sb) (pending_size_ sb) (pending_index_entry_ sb)
    (offset_ sb) (sb_open sb) (smallest_ sb) (largest_ sb) (has_keys_ sb) (sb_status sb).
Definition with_out (out : bytes) (offset : Z) (sb : SSTableBuilder) : SSTableBuilder :=
  mkSSTableBuilder (sb_options sb) (sb_path sb) out (data_block_ sb) (index_block_ sb)
    (sb_last_key sb) (pending_index_key_ sb) (pending_offset_ sb) (pending_size_ sb)
    (pending_index_entry_ sb) offset (sb_open sb) (smallest_ sb) (largest_ sb) (has_keys_ sb)
    (sb_status sb).
Definition with_pending (key : bytes) (off size : Z) (p : bool) (sb : SSTableBuilder)
    : SSTableBuilder :=
  mkSSTableBuilder (sb_options sb) (sb_path sb) (sb_out sb) (data_block_ sb) (index_block_ sb)
    (sb_last_key sb) key off size p (offset_ sb) (sb_open sb) (smallest_ sb) (largest_ sb)
    (has_keys_ sb) (sb_status sb).
Definition with_open (o : bool) (sb : SSTableBuilder) : SSTableBuilder :=
  mkSSTableBuilder (sb_options sb) (sb_path sb) (sb_out sb) (data_block_ sb) (index_block_ sb)
    (sb_last_key sb) (pending_index_key_ sb) (pending_offset_ sb) (pending_size_ sb)
    (pending_index_entry_ sb) (offset_ sb) o (smallest_ sb) (largest_ sb) (has_keys_ sb)
    (sb_status sb).
Definition with_status (st : Status) (sb : SSTableBuilder) : SSTableBuilder :=
  mkSSTableBuilder (sb_options sb) (sb_path sb) (sb_out sb) (data_block_ sb) (index_block_ sb)
    (sb_last_key sb) (pending_index_key_ sb) (pending_offset_ sb) (pending_size_ sb)
    (pending_index_entry_ sb) (offset_ sb) (sb_open sb) (smallest_ sb) (largest_ sb) (has_keys_ sb) st.
(** [if (!has_keys_) { smallest_ = key; has_keys_ = true; } largest_ = last_key_ = key;] *)
Definition with_key (key : bytes) (sb : SSTableBuilder) : SSTableBuilder :=
  mkSSTableBuilder (sb_options sb) (sb_path sb) (sb_out sb) (data_block_ sb) (index_block_ sb)
    key (pending_index_key_ sb) (pending_offset_ sb) (pending_size_ sb)
    (pending_index_entry_ sb) (offset_ sb) (sb_open sb)
    (if has_keys_ sb then smallest_ sb else key) key true (sb_status sb).

Definition SSTableBuilder_Open : SbM unit :=
  path ← gets (fun s => sb_path s.1);
  f ← sb_io next_fault;
  match f with
  | Some _ => fail (IOError (lit "cannot create sstable: " ++ path))
  | None => sb_io (modify (set_files (insert path []))) ;; set_sb (with_open true)
  end.

(** A failed stream write: the first [n] bytes of the file so far are on disk. *)
Definition write_failed (n : nat) (data msg : bytes) : SbM unit :=
  path ← gets (fun s => sb_path s.1);
  out ← gets (fun s => sb_out s.1);
  sb_io (modify (set_files (insert path (take n (out ++ data))))) ;;
  fail (IOError msg).

(** [WriteBlock] of the finished [contents]: the block's offset and size. *)
Definition write_contents (contents : bytes) : SbM (Z * Z) :=
  let trailer := PutFixed32 [] (MaskCrc (Crc32 contents)) in
  off ← gets (fun s => offset_ s.1);
  f ← sb_io next_fault;
  match f with
  | Some n =>
    write_failed n (contents ++ trailer) (lit "sstable write block failed") ;; mret (0, 0)
  | None =>
    set_sb (fun sb => with_out (sb_out sb ++ contents ++ trailer)
      (u64 (offset_ sb + Z.of_nat (length contents + length trailer))) sb) ;;
    mret (off, Z.of_nat (length contents))
  end.

(** WriteBlock(&data_block_, ...) and WriteBlock(&index_block_, ...): finish the
    block, write it, reset it. *)
Definition WriteBlock (get : SSTableBuilder -> BlockBuilder)
    (put : BlockBuilder -> SSTableBuilder -> SSTableBuilder) : SbM (Z * Z) :=
  bb ← gets (fun s => get s.1);
  let '(contents, bb) := BlockBuilder_Finish bb in
  set_sb (put bb) ;;
  r ← write_contents contents;
  set_sb (put (BlockBuilder_Reset bb)) ;;
  mret r.

Definition FlushDataBlock : SbM unit :=
  bb ← gets (fun s => data_block_ s.1);
  if BlockBuilder_empty bb then mret tt
  else
    '(bo, bs) ← WriteBlock data_block_ with_data;
    set_sb (fun sb => with_pending (sb_last_key sb) bo bs true sb).

(** [if (pending_index_entry_) { ... index_block_.Add(...); }] *)
Definition add_pending : SbM unit :=
  sb ← gets fst;
  if pending_index_entry_ sb then
    let handle := PutFixed64 (PutFixed64 [] (pending_offset_ sb)) (pending_size_ sb) in
    bb ← lift (BlockBuilder_Add (index_block_ sb) (pending_index_key_ sb) handle);
    set_sb (with_index bb) ;;
    set_sb (fun sb => with_pending (pending_index_key_ sb) (pending_offset_ sb) (pending_size_ sb) false sb)
  else mret tt.

Definition SSTableBuilder_Add (key value : bytes) : SbM unit :=
  st ← gets (fun s => sb_status s.1);
  if negb (ok st) then mret tt
  else
    add_pending ;;
    set_sb (with_key key) ;;
    sb ← gets fst;
    bb ← lift (BlockBuilder_Add (data_block_ sb) key value);
    set_sb (with_data bb) ;;
    if block_size (sb_options sb) <=? Z.of_nat (CurrentSizeEstimate bb) then
      r ← try FlushDataBlock;
      set_sb (with_status (match r with inl e => e | inr _ => OK end))
    else mret tt.

Definition footer (index_offset index_size : Z) : bytes :=
  PutFixed32 (PutFixed64 (PutFixed64 [] index_offset) index_size) kTableMagic.

(** The metadata filled in; [number] is set by the caller. *)
Definition SSTableBuilder_Finish : SbM FileMetaData :=
  st ← gets (fun s => sb_status s.1);
  if negb (ok st) then fail st
  else
    FlushDataBlock ;;
    add_pending ;;
    '(index_offset, index_size) ← WriteBlock index_block_ with_index;
    let f := footer index_offset index_size in
    fault ← sb_io next_fault;
    match fault with
    | Some n => write_failed n f (lit "sstable footer write failed") ;; mret (mkFileMetaData 0 0 [] [])
    | None =>
      set_sb (fun sb => with_out (sb_out sb ++ f) (u64 (offset_ sb + Z.of_nat (length f))) sb) ;;
      sb ← gets fst;
      sb_io (modify (set_files (insert (sb_path sb) (sb_out sb)))) ;;
      set_sb (with_open false) ;;
      mret (mkFileMetaData 0 (offset_ sb) (smallest_ sb) (largest_ sb))
    end.

(** A builder's life: [Open], [Add] for each entry, [Finish]. *)
Definition build_table (options : Options) (path : bytes) (number : Z) (es : list ikv)
    : SM World FileMetaData := fun w =>
  let '(r, s) :=
    (SSTableBuilder_Open ;;
     for_each es (fun e : ikv => SSTableBuilder_Add e.1 e.2) ;;
     SSTableBuilder_Finish) (SSTableBuilder_new options path, w) in
  (meta ← r; Ret (mkFileMetaData number (file_size meta) (smallest meta) (largest meta)), s.2).

Definition BuildTableFromMemTable (options : Options) (path : bytes) (mem : MemTable)
    (file_number : Z) : SM World FileMetaData :=
  es ← lift (MemTable_ForEach mem);
  build_table options path file_number es.

(** * SSTable *)

Record SSTable := mkSSTable { file_data_ : bytes; index_offset_ : Z; index_size_ : Z }.

(** [in] is opened, then read whole; one fault covers the read. *)
Definition SSTable_Open (path : bytes) : SM World SSTable :=
  d ← gets (fun w => files w !! path);
  match d with
  | None => fail (IOError (lit "cannot open sstable: " ++ path))
  | Some data =>
    if (length data <? kFooterSize)%nat then fail (Corruption (lit "sstable too small"))
    else
      f ← next_fault;
      match f with
      | Some _ => fail (IOError (lit "read sstable failed"))
      | None =>
        let footer := drop (length data - kFooterSize) data in
        if negb (DecodeFixed32 (drop 16 footer) =? kTableMagic)
        then fail (Corruption (lit "bad sstable magic"))
        else mret (mkSSTable data (DecodeFixed64 footer) (DecodeFixed64 (drop 8 footer)))
      end
  end.

(** The range check is made in 64-bit arithmetic; a sum that wraps around would
    let an access outside the file through. *)
Definition ReadBlock (t : SSTable) (offset size : Z) : Res bytes :=
  if Z.of_nat (length (file_data_ t)) <? u64 (u64 (offset + size) + 4)
  then Fail (Corruption (lit "block out of range"))
  else if Z.of_nat (length (file_data_ t)) <? offset + size + 4 then Stuck
  else
    let contents := take (Z.to_nat size) (drop (Z.to_nat offset) (file_data_ t)) in
    let masked := DecodeFixed32 (drop (Z.to_nat (offset + size)) (file_data_ t)) in
    if negb (MaskCrc (Crc32 contents) =? masked)
    then Fail (Corruption (lit "block crc mismatch"))
    else Ret contents.

(** [handle.size() < 16] is checked by the callers. *)
Definition decode_handle (handle : bytes) : Z * Z :=
  (DecodeFixed64 handle, DecodeFixed64 (drop 8 handle)).

(** [None]: [*found == false] and OK; [Some None]: tombstone, [NotFound] with
    [*found == true]; [Some (Some v)]: OK with a value. *)
Definition SSTable_Get (t : SSTable) (internal_key : bytes) : Res (option (option bytes)) :=
  index_data ← ReadBlock t (index_offset_ t) (index_size_ t);
  let index := Block_new index_data in
  if negb (ok (block_status index)) then Fail (block_status index)
  else
    it ← BlockIter_Seek index (BlockIter_new index) internal_key;
    if negb (bi_valid it) then Ret None
    else if (length (bi_value it) <? 16)%nat then Fail (Corruption (lit "bad handle"))
    else
      let '(bo, bs) := decode_handle (bi_value it) in
      block_data ← ReadBlock t bo bs;
      let data := Block_new block_data in
      dit ← BlockIter_Seek data (BlockIter_new data) internal_key;
      if negb (bi_valid dit) then Ret None
      else if negb (Slice_eqb (ExtractUserKey (bi_key dit)) (ExtractUserKey internal_key)) then Ret None
      else if ExtractSequence internal_key <? ExtractSequence (bi_key dit) then Ret None
      else if decide (ExtractValueType (bi_key dit) = kTypeDeletion) then Ret (Some None)
      else Ret (Some (Some (bi_value dit))).

(** * SSTable::Iterator *)

Record SSTIter := mkSSTIter {
  si_index : option (Block * BlockIter);
  si_data : option (Block * BlockIter);
  si_status : Status
}.

(** The constructor never fails; it keeps the status. *)
Definition SSTable_NewIterator (t : SSTable) : Res SSTIter :=
  match ReadBlock t (index_offset_ t) (index_size_ t) with
  | Stuck => Stuck
  | Fail s => Ret (mkSSTIter None None s)
  | Ret index_data =>
    let b := Block_new index_data in
    if ok (block_status b) then Ret (mkSSTIter (Some (b, BlockIter_new b)) None (block_status b))
    else Ret (mkSSTIter None None (block_status b))
  end.

Definition InitDataBlock (t : SSTable) (it : SSTIter) : Res SSTIter :=
  match si_index it with
  | None => Ret (mkSSTIter None None (si_status it))
  | Some (ib, ii) =>
    if negb (bi_valid ii) then Ret (mkSSTIter (si_index it) None (si_status it))
    else if (length (bi_value ii) <? 16)%nat
    then Ret (mkSSTIter (si_index it) None (Corruption (lit "bad handle")))
    else
      let '(bo, bs) := decode_handle (bi_value ii) in
      match ReadBlock t bo bs with
      | Stuck => Stuck
      | Fail s => Ret (mkSSTIter (si_index it) None s)
      | Ret block_data =>
        let b := Block_new block_data in
        if ok (block_status b)
        then Ret (mkSSTIter (si_index it) (Some (b, BlockIter_new b)) (block_status b))
        else Ret (mkSSTIter (si_index it) None (block_status b))
      end
  end.

Definition SSTIter_Valid (it : SSTIter) : bool :=
  match si_data it with Some (_, di) => bi_valid di | None => false end.

(** [key()]/[value()] dereference [data_iter_]. *)
Definition SSTIter_entry (it : SSTIter) : Res ikv :=
  match si_data it with Some (_, di) => Ret (bi_key di, bi_value di) | None => Stuck end.

(** [if (data_iter_) data_iter_->op();] *)
Definition on_data (op : Block -> BlockIter -> Res BlockIter) (it : SSTIter) : Res SSTIter :=
  match si_data it with
  | None => Ret it
  | Some (b, di) => di ← op b di; Ret (mkSSTIter (si_index it) (Some (b, di)) (si_status it))
  end.

Definition SSTIter_Next (t : SSTable) (it : SSTIter) : Res SSTIter :=
  match si_data it with
  | None => Stuck
  | Some (b, di) =>
    di ← BlockIter_Next b di;
    let it := mkSSTIter (si_index it) (Some (b, di)) (si_status it) in
    if bi_valid di then Ret it
    else
      match si_index it with
      | None => Stuck
      | Some (ib, ii) =>
        ii ← BlockIter_Next ib ii;
        let it := mkSSTIter (Some (ib, ii)) (si_data it) (si_status it) in
        if bi_valid ii then
          it ← InitDataBlock t it;
          on_data BlockIter_SeekToFirst it
        else Ret it
      end
  end.

Definition seek_with (t : SSTable) (op : Block -> BlockIter -> Res BlockIter) (it : SSTIter)
    : Res SSTIter :=
  match si_index it with
  | None => Ret it
  | Some (ib, ii) =>
    ii ← op ib ii;
    it ← InitDataBlock t (mkSSTIter (Some (ib, ii)) (si_data it) (si_status it));
    on_data op it
  end.

Definition SSTIter_SeekToFirst (t : SSTable) (it : SSTIter) : Res SSTIter :=
  seek_with t BlockIter_SeekToFirst it.
Definition SSTIter_Seek (t : SSTable) (it : SSTIter) (target : bytes) : Res SSTIter :=
  seek_with t (fun b bi => BlockIter_Seek b bi target) it.

(** The rest of the table from the iterator's position: the loop every client runs. *)
Fixpoint sst_collect (fuel : nat) (t : SSTable) (it : SSTIter) : Res (list ikv) :=
  if SSTIter_Valid it then
    match fuel with
    | O => Stuck
    | S fuel =>
      e ← SSTIter_entry it;
      it ← SSTIter_Next t it;
      es ← sst_collect fuel t it;
      Ret (e :: es)
    end
  else Ret [].

(** * What a table file holds *)

(** A data block: its entries, and where its contents are stored. *)
Record blk := mkBlk { bl_es : list ikv; bl_off : nat; bl_data : bytes }.

(** [c] and its checksum are stored at offset [off]. *)
Definition stored (out : bytes) (off : nat) (c : bytes) : Prop :=
  exists pre post, out = pre ++ c ++ le_bytes 4 (MaskCrc (Crc32 c)) ++ post /\ length pre = off.

Definition is_block (c : bytes) (es : list ikv) : Prop :=
  exists buf rs, block_rep (Block_new c) es buf rs.

Definition blk_ok (out : bytes) (bl : blk) : Prop :=
  bl_es bl <> [] /\ stored out (bl_off bl) (bl_data bl) /\ is_block (bl_data bl) (bl_es bl).

Definition index_entry (bl : blk) : ikv :=
  (last_key [] (bl_es bl),
   le_bytes 8 (Z.of_nat (bl_off bl)) ++ le_bytes 8 (Z.of_nat (length (bl_data bl)))).

Definition blks_es (bls : list blk) : list ikv := concat (map bl_es bls).

Record table_rep (t : SSTable) (bls : list blk) (idata : bytes) : Prop := {
  tr_len : len32 (file_data_ t);
  tr_blks : Forall (blk_ok (file_data_ t)) bls;
  tr_index : exists ioff, index_offset_ t = Z.of_nat ioff /\ stored (file_data_ t) ioff idata;
  tr_isize : index_size_ t = Z.of_nat (length idata);
  tr_iblock : is_block idata (map index_entry bls);
  tr_count : (length (blks_es bls) <= length (file_data_ t))%nat
}.

(** The file is a table whose entries are [es]. *)
Definition sst_rep (file : bytes) (es : list ikv) : Prop :=
  exists bls idata ioff, es = blks_es bls /\
    table_rep (mkSSTable file (Z.of_nat ioff) (Z.of_nat (length idata))) bls idata /\
    exists body, file = body ++ footer (Z.of_nat ioff) (Z.of_nat (length idata)).

Lemma length_footer a b : length (footer a b) = 20%nat.
Proof.
  unfold footer, PutFixed32, PutFixed64. cbn [app].
  by rewrite !length_app, !length_le_bytes.
Qed.

Lemma footer_decode a b : 0 <= a < 2 ^ 64 -> 0 <= b < 2 ^ 64 ->
  DecodeFixed32 (drop 16 (footer a b)) = kTableMagic /\
  DecodeFixed64 (footer a b) = a /\ DecodeFixed64 (drop 8 (footer a b)) = b.
Proof.
  intros Ha Hb. unfold footer, PutFixed32, PutFixed64. cbn [app]. rewrite <- !app_assoc.
  rewrite (drop_le_bytes2 8 8), drop_le_bytes, !DecodeFixed64_put by done.
  rewrite <- (app_nil_r (le_bytes 4 kTableMagic)), DecodeFixed32_put; [done|].
  unfold kTableMagic. lia.
Qed.

Lemma stored_bounds out off c : stored out off c -> (off + length c + 4 <= length out)%nat.
Proof.
  intros (pre & post & -> & <-). rewrite !length_app, length_le_bytes. lia.
Qed.

Lemma stored_app out off c more : stored out off c -> stored (out ++ more) off c.
Proof.
  intros (pre & post & -> & Hl). exists pre, (post ++ more). by rewrite <- !app_assoc.
Qed.

Lemma blk_ok_app out bl more : blk_ok out bl -> blk_ok (out ++ more) bl.
Proof. intros (H1 & H2 & H3). split; [done|]. split; [by apply stored_app|done]. Qed.

Lemma ReadBlock_stored t off c : len32 (file_data_ t) -> stored (file_data_ t) off c ->
  ReadBlock t (Z.of_nat off) (Z.of_nat (length c)) = Ret c.
Proof.
  intros Hlen Hst. pose proof (stored_bounds _ _ _ Hst) as Hb. unfold len32 in Hlen.
  unfold ReadBlock, u64.
  rewrite (Z.mod_small (Z.of_nat off + Z.of_nat (length c))), Z.mod_small by lia.
  rewrite !(proj2 (Z.ltb_ge _ _)) by lia.
  rewrite <- Nat2Z.inj_add, !Nat2Z.id.
  destruct Hst as (pre & post & -> & <-).
  rewrite drop_app_length, take_app_length, <- drop_drop, drop_app_length, drop_app_length.
  by rewrite DecodeFixed32_put, Z.eqb_refl by apply MaskCrc_range.
Qed.

Lemma SSTable_Open_ok path file es w : no_faults w -> files w !! path = Some file ->
  sst_rep file es ->
  exists t bls idata, SSTable_Open path w = (Ret t, w) /\ es = blks_es bls /\ table_rep t bls idata.
Proof.
  intros Hf Hfile (bls & idata & ioff & Hes & Hrep & body & Hbody).
  assert (Hft : drop (length file - kFooterSize) file = footer (Z.of_nat ioff) (Z.of_nat (length idata))).
  { rewrite Hbody. apply drop_app_length'. rewrite length_app, length_footer. unfold kFooterSize. lia. }
  eexists _, bls, idata. split; [|by split].
  unfold SSTable_Open. sm_step. rewrite Hfile. sm_step.
  rewrite (proj2 (Nat.ltb_ge _ _)) by (rewrite Hbody, length_app, length_footer; unfold kFooterSize; lia).
  rewrite next_fault_none by done. sm_step. rewrite Hft.
  pose proof (tr_len _ _ _ Hrep) as Hl. unfold len32 in Hl. simpl in Hl.
  destruct (tr_index _ _ _ Hrep) as (ioff' & Hio & Hst). simpl in Hio, Hst.
  assert (ioff' = ioff) as -> by lia. apply stored_bounds in Hst.
  destruct (footer_decode (Z.of_nat ioff) (Z.of_nat (length idata))) as (-> & D1 & D2);
    [lia..|]. rewrite Z.eqb_refl. sm_step. by rewrite D1, D2.
Qed.

(** * Seeking through the index *)

Lemma last_key_elem es : es <> [] -> exists e, e ∈ es /\ e.1 = last_key [] es.
Proof.
  intros H. destruct es as [|e es _] using rev_ind; [done|]. exists e.
  rewrite last_key_snoc. split; [|done]. apply elem_of_app. right. by apply list_elem_of_singleton.
Qed.

Lemma blks_es_app a b : blks_es (a ++ b) = blks_es a ++ blks_es b.
Proof. unfold blks_es. by rewrite map_app, concat_app. Qed.

Lemma elem_of_blks_es e bls : e ∈ blks_es bls <-> exists bl, bl ∈ bls /\ e ∈ bl_es bl.
Proof.
  unfold blks_es. induction bls as [|bl bls IH]; cbn [map concat].
  - rewrite elem_of_nil. split; [done|]. intros (bl & Hbl & _). by apply elem_of_nil in Hbl.
  - rewrite elem_of_app, IH. setoid_rewrite elem_of_cons. split.
    + intros [He|(b & Hb & He)]; eauto.
    + intros (b & [->|Hb] & He); eauto.
Qed.

Lemma seek_index target bls : exists pre post, bls = pre ++ post /\
  seek_run target (map index_entry bls) = map index_entry post /\
  (forall bl, bl ∈ pre -> CompareInternalKey (last_key [] (bl_es bl)) target = Lt) /\
  (forall bl post', post = bl :: post' -> CompareInternalKey (last_key [] (bl_es bl)) target <> Lt).
Proof.
  induction bls as [|bl bls (pre & post & E & Es & H1 & H2)].
  - exists [], []. repeat split; try done. intros bl Hbl. by apply elem_of_nil in Hbl.
  - simpl. destruct (CompareInternalKey (last_key [] (bl_es bl)) target) eqn:C.
    1,3: exists [], (bl :: bls); split; [done|]; split; [done|]; split;
      [intros x Hx; by apply elem_of_nil in Hx|intros ? ? [= <- <-]; by rewrite C].
    exists (bl :: pre), post. split; [by rewrite E|]. split; [done|]. split; [|done].
    intros x [->|Hx]%elem_of_cons; auto.
Qed.

Section Reader.
Context (t : SSTable) (bls : list blk) (idata : bytes).
Context (Hrep : table_rep t bls idata).
Context (Hwf : Forall (fun e => ikey_wf e.1) (blks_es bls)) (Hsort : run_sorted (blks_es bls)).

Lemma bl_elem bl : bl ∈ bls -> forall e, e ∈ bl_es bl -> e ∈ blks_es bls.
Proof.
  intros Hbl e He. apply elem_of_blks_es. eauto.
Qed.

Lemma bl_ok bl : bl ∈ bls -> blk_ok (file_data_ t) bl.
Proof. intros Hbl. pose proof (tr_blks _ _ _ Hrep) as H. rewrite Forall_forall in H. auto. Qed.

Lemma bl_wf bl : bl ∈ bls -> Forall (fun e => ikey_wf e.1) (bl_es bl).
Proof.
  intros Hbl. apply Forall_forall. intros e He. rewrite Forall_forall in Hwf.
  apply Hwf. by eapply bl_elem.
Qed.

Lemma bls_split pre bl post : bls = pre ++ bl :: post ->
  run_sorted (bl_es bl) /\
  (forall a b, a ∈ blks_es pre -> b ∈ bl_es bl -> ikv_cmp a b = Lt) /\
  (forall a b, a ∈ bl_es bl -> b ∈ blks_es post -> ikv_cmp a b = Lt).
Proof.
  intros E. pose proof Hsort as Hs. rewrite E, blks_es_app in Hs.
  apply run_sorted_app in Hs as (_ & Hs & H1). unfold blks_es in Hs, H1 at 2.
  cbn [map concat] in Hs, H1. apply run_sorted_app in Hs as (Hs & _ & H2).
  split; [done|]. split; [|done]. intros a b Ha Hb. apply H1; [done|].
  apply elem_of_app. by left.
Qed.

(** Entries of the blocks the index skips are all before the target. *)
Lemma index_skip target pre post : ikey_wf target -> bls = pre ++ post ->
  (forall bl, bl ∈ pre -> CompareInternalKey (last_key [] (bl_es bl)) target = Lt) ->
  forall e, e ∈ blks_es pre -> CompareInternalKey e.1 target = Lt.
Proof.
  intros Ht E Hpre e (bl & Hbl & He)%elem_of_blks_es. specialize (Hpre bl Hbl).
  assert (Hin : bl ∈ bls) by (rewrite E; apply elem_of_app; by left).
  pose proof (bl_wf bl Hin) as Hw. rewrite Forall_forall in Hw.
  apply list_elem_of_split in Hbl as (p1 & p2 & ->).
  destruct (bls_split p1 bl (p2 ++ post)) as (Hs & _ & _); [by rewrite E, <- app_assoc|].
  destruct (bl_es bl) as [|x es0 _] eqn:Ees using rev_ind; [by apply elem_of_nil in He|].
  rewrite last_key_snoc in Hpre. apply elem_of_app in He as [He|He].
  - apply run_sorted_app in Hs as (_ & _ & Hlt).
    apply (ord_lt_trans ikey_wf e.1 x.1 target); try done.
    + apply Hw. apply elem_of_app. by left.
    + apply Hw. apply elem_of_app. right. by apply list_elem_of_singleton.
    + apply (Hlt e x); [done|]. by apply list_elem_of_singleton.
  - by apply list_elem_of_singleton in He as ->.
Qed.

Lemma index_key_wf : Forall (fun e => ikey_wf e.1) (map index_entry bls).
Proof.
  apply Forall_map, Forall_forall. intros bl Hbl. simpl.
  destruct (bl_ok bl Hbl) as (Hne & _). destruct (last_key_elem _ Hne) as (e & He & <-).
  pose proof (bl_wf bl Hbl) as H. rewrite Forall_forall in H. auto.
Qed.

Lemma index_sorted : run_sorted (map index_entry bls).
Proof.
  assert (H : forall pre post, bls = pre ++ post -> run_sorted (map index_entry post)).
  { intros pre post. revert pre. induction post as [|bl post IH]; intros pre E; [constructor|].
    simpl. constructor; [apply (IH (pre ++ [bl])); by rewrite <- app_assoc|].
    apply Forall_map, Forall_forall. intros bl' Hbl'. unfold ikv_cmp. simpl.
    destruct (bls_split pre bl post E) as (_ & _ & Hlt).
    assert (Hin : bl ∈ bls) by (rewrite E; apply elem_of_app; right; apply elem_of_cons; by left).
    assert (Hin' : bl' ∈ bls) by (rewrite E; apply elem_of_app; right; apply elem_of_cons; by right).
    destruct (bl_ok bl Hin) as (Hne & _). destruct (bl_ok bl' Hin') as (Hne' & _).
    destruct (last_key_elem _ Hne) as (e & He & <-).
    destruct (last_key_elem _ Hne') as (e' & He' & <-). apply (Hlt e e'); [done|].
    apply elem_of_blks_es. eauto. }
  by apply (H []).
Qed.

(** The block the index points to holds the first entry not before the target. *)
Lemma seek_in_block target pre bl post : ikey_wf target -> bls = pre ++ bl :: post ->
  (forall bl, bl ∈ pre -> CompareInternalKey (last_key [] (bl_es bl)) target = Lt) ->
  CompareInternalKey (last_key [] (bl_es bl)) target <> Lt ->
  seek_run target (blks_es bls) = seek_run target (bl_es bl) ++ blks_es post /\
  seek_run target (bl_es bl) <> [].
Proof.
  intros Ht E Hpre Hbl.
  assert (Hin : bl ∈ bls) by (rewrite E; apply elem_of_app; right; apply elem_of_cons; by left).
  destruct (bl_ok bl Hin) as (Hne & _). destruct (last_key_elem _ Hne) as (e & He & Hle).
  assert (Hseek : seek_run target (bl_es bl) <> []).
  { intros Hnil. destruct (seek_run_suffix target (bl_es bl)) as (p & Ep & Hp).
    rewrite Hnil, app_nil_r in Ep. apply Hbl. rewrite <- Hle. apply Hp. by rewrite <- Ep. }
  split; [|done]. rewrite E, blks_es_app.
  rewrite seek_run_app by (apply (index_skip target pre (bl :: post)); done).
  unfold blks_es. cbn [map concat]. fold (blks_es post). clear -Hseek.
  induction (bl_es bl) as [|a es IH]; [done|]. simpl in *.
  destruct (CompareInternalKey a.1 target); [done|by apply IH|done].
Qed.

(** The handle stored in the index leads to the block. *)
Lemma read_handle bl : bl ∈ bls ->
  length (index_entry bl).2 = 16%nat /\
  let '(bo, bs) := decode_handle (index_entry bl).2 in ReadBlock t bo bs = Ret (bl_data bl).
Proof.
  intros Hbl. destruct (bl_ok bl Hbl) as (_ & Hst & _).
  pose proof (tr_len _ _ _ Hrep) as Hlen. pose proof (stored_bounds _ _ _ Hst) as Hb.
  unfold len32 in Hlen. split; [unfold index_entry; cbn [snd]; by rewrite length_app, !length_le_bytes|].
  unfold decode_handle, index_entry. cbn [snd].
  rewrite drop_le_bytes, DecodeFixed64_put by lia.
  rewrite <- (app_nil_r (le_bytes 8 (Z.of_nat (length _)))), DecodeFixed64_put by lia.
  by apply ReadBlock_stored.
Qed.

Lemma read_index : ReadBlock t (index_offset_ t) (index_size_ t) = Ret idata.
Proof.
  destruct (tr_index _ _ _ Hrep) as (ioff & -> & Hst). rewrite (tr_isize _ _ _ Hrep).
  apply ReadBlock_stored; [apply Hrep|done].
Qed.

Lemma SSTable_Get_spec u s : Forall ikv_wf (blks_es bls) -> seq56 s ->
  SSTable_Get t (MakeLookupKey u s) = Ret (lookup_run u s (blks_es bls)).
Proof.
  intros Hall Hs. assert (Ht : ikey_wf (MakeLookupKey u s)) by apply MakeInternalKey_wf.
  unfold SSTable_Get. rewrite read_index. cbn [mbind Res_bind].
  destruct (tr_iblock _ _ _ Hrep) as (ibuf & irs & Hib).
  rewrite (br_status _ _ _ _ Hib). cbn [ok has_code negb].
  destruct (Seek_spec _ _ _ _ Hib index_key_wf index_sorted (BlockIter_new (Block_new idata)) _ Ht
              (br_status _ _ _ _ Hib)) as (it & -> & Hat).
  cbn [mbind Res_bind]. unfold lookup_run. rewrite <- probe_newest by (done || by split).
  unfold probe.
  destruct (seek_index (MakeLookupKey u s) bls) as (pre & post & E & Es & Hpre & Hpost).
  rewrite Es in Hat. destruct post as [|bl post].
  { destruct Hat as [_ Hv]. rewrite Hv. cbn [negb].
    rewrite app_nil_r in E.
    assert (seek_run (MakeLookupKey u s) (blks_es bls) = []) as ->; [|done].
    rewrite <- (app_nil_r (blks_es bls)). rewrite seek_run_app; [done|].
    apply (index_skip _ bls []); [done|by rewrite app_nil_r|]. by rewrite E. }
  destruct Hat as (_ & Hv & _ & Hval & _). rewrite Hv, Hval. cbn [negb].
  assert (Hin : bl ∈ bls) by (rewrite E; apply elem_of_app; right; apply elem_of_cons; by left).
  destruct (read_handle bl Hin) as [-> Hrd]. cbn [Nat.ltb Nat.leb].
  destruct (decode_handle _) as [bo bs]. rewrite Hrd. cbn [mbind Res_bind].
  destruct (bl_ok bl Hin) as (_ & _ & buf & rs & Hb).
  destruct (bls_split pre bl post E) as (Hbs & _ & _).
  destruct (Seek_spec _ _ _ _ Hb (bl_wf bl Hin) Hbs (BlockIter_new (Block_new (bl_data bl))) _ Ht
              (br_status _ _ _ _ Hb)) as (dit & -> & Hdat).
  cbn [mbind Res_bind].
  destruct (seek_in_block _ pre bl post Ht E Hpre (Hpost _ _ eq_refl)) as [-> Hne].
  destruct (seek_run (MakeLookupKey u s) (bl_es bl)) as [|e rest]; [done|]. cbn [app].
  destruct Hdat as (_ & Hdv & Hdk & Hdval & _). rewrite Hdv, Hdk, Hdval. cbn [negb].
  unfold MakeLookupKey. rewrite ExtractUserKey_Make, ExtractSequence_Make by done.
  destruct (Slice_eqb (ExtractUserKey e.1) u); cbn [negb andb]; [|done].
  rewrite Z.leb_antisym. destruct (s <? ExtractSequence e.1); cbn [negb]; [done|].
  simpl. unfold read_entry. by destruct (decide _).
Qed.

(** * Iteration *)

(** The iterator stands on the first entry of [rest]. *)
Definition sit_at (it : SSTIter) (rest : list ikv) : Prop :=
  si_status it = OK /\
  match rest with
  | [] => SSTIter_Valid it = false /\
    exists ib ii ibuf irs, si_index it = Some (ib, ii) /\ bi_status ii = OK /\
      block_rep ib (map index_entry bls) ibuf irs
  | _ :: _ =>
    exists pre bl post ibuf irs buf rs ib ii di brest,
      bls = pre ++ bl :: post /\ brest <> [] /\ rest = brest ++ blks_es post /\
      si_index it = Some (ib, ii) /\ block_rep ib (map index_entry bls) ibuf irs /\
      it_at ib ii (map index_entry (bl :: post)) /\
      si_data it = Some (Block_new (bl_data bl), di) /\
      block_rep (Block_new (bl_data bl)) (bl_es bl) buf rs /\
      it_at (Block_new (bl_data bl)) di brest
  end.

Lemma sit_at_cons it e rest : sit_at it (e :: rest) ->
  SSTIter_Valid it = true /\ SSTIter_entry it = Ret e.
Proof.
  intros (_ & pre & bl & post & ibuf & irs & buf & rs & ib & ii & di & brest & _ & Hne & Hr & _ & _ & _ & Hd & _ & Hat).
  destruct brest as [|e' brest]; [done|]. injection Hr as <- _.
  destruct Hat as (_ & Hv & Hk & Hval & _). unfold SSTIter_Valid, SSTIter_entry.
  rewrite Hd, Hk, Hval. by destruct e.
Qed.

(** Load the block under the index and position inside it. *)
Lemma load_block it ib ii pre bl post ibuf irs (op : Block -> BlockIter -> Res BlockIter)
    (sel : list ikv -> list ikv) :
  bls = pre ++ bl :: post -> si_index it = Some (ib, ii) ->
  block_rep ib (map index_entry bls) ibuf irs -> it_at ib ii (map index_entry (bl :: post)) ->
  (forall b es buf rs bi, block_rep b es buf rs -> Forall (fun e => ikey_wf e.1) es ->
     run_sorted es -> bi_status bi = OK -> exists bi', op b bi = Ret bi' /\ it_at b bi' (sel es)) ->
  sel (bl_es bl) <> [] ->
  exists it', (it ← InitDataBlock t it; on_data op it) = Ret it' /\
    sit_at it' (sel (bl_es bl) ++ blks_es post).
Proof.
  intros E Hix Hib Hat Hop Hsel. unfold InitDataBlock. rewrite Hix.
  assert (Hin : bl ∈ bls) by (rewrite E; apply elem_of_app; right; apply elem_of_cons; by left).
  destruct Hat as (Hst & Hv & Hk & Hval & Hrest). rewrite Hv, Hval. cbn [negb].
  destruct (read_handle bl Hin) as [-> Hrd]. cbn [Nat.ltb Nat.leb].
  destruct (decode_handle _) as [bo bs]. rewrite Hrd.
  destruct (bl_ok bl Hin) as (_ & _ & buf & rs & Hb).
  rewrite (br_status _ _ _ _ Hb). cbn [ok has_code bool_decide mbind Res_bind on_data si_data].
  unfold ok, has_code. rewrite bool_decide_true by done. cbn [mbind Res_bind on_data si_data].
  destruct (bls_split pre bl post E) as (Hbs & _ & _).
  destruct (Hop _ _ _ _ (BlockIter_new (Block_new (bl_data bl))) Hb (bl_wf bl Hin) Hbs
              (br_status _ _ _ _ Hb)) as (di & -> & Hdat).
  cbn [mbind Res_bind]. eexists. split; [done|]. split; [done|].
  destruct (sel (bl_es bl)) as [|e rest] eqn:Er; [done|]. cbn [app].
  exists pre, bl, post, ibuf, irs, buf, rs, ib, ii, di, (e :: rest). cbn [si_index si_data].
  split; [done|]. split; [done|]. split; [done|]. split; [done|]. split; [done|].
  split; [|by split]. split; [done|]. simpl. rewrite Hval. done.
Qed.

Lemma NewIterator_spec : exists ib it ibuf irs, SSTable_NewIterator t = Ret it /\
  si_index it = Some (ib, BlockIter_new ib) /\ si_status it = OK /\ si_data it = None /\
  block_rep ib (map index_entry bls) ibuf irs.
Proof.
  unfold SSTable_NewIterator. rewrite read_index.
  destruct (tr_iblock _ _ _ Hrep) as (ibuf & irs & Hib).
  rewrite (br_status _ _ _ _ Hib). unfold ok, has_code. rewrite bool_decide_true by done.
  eexists (Block_new idata), _, ibuf, irs. split; [done|]. cbn. done.
Qed.

(** Positioning, from any iterator whose index iterator is healthy. *)
Definition sit_ready (it : SSTIter) : Prop :=
  si_status it = OK /\
  exists ib ii ibuf irs, si_index it = Some (ib, ii) /\ bi_status ii = OK /\
    block_rep ib (map index_entry bls) ibuf irs.

Lemma sit_at_ready it rest : sit_at it rest -> sit_ready it.
Proof.
  destruct rest as [|e rest]; [by intros (Hst & _ & H)|].
  intros (Hst & pre & bl & post & ibuf & irs & buf & rs & ib & ii & di & brest & _ & _ & _ & Hi & Hb & Hat & _).
  split; [done|]. exists ib, ii, ibuf, irs. split; [done|]. split; [apply Hat|done].
Qed.

Lemma seek_with_nil it ib ii ibuf irs op : si_index it = Some (ib, ii) -> si_status it = OK ->
  block_rep ib (map index_entry bls) ibuf irs -> (exists ii', op ib ii = Ret ii' /\ it_at ib ii' []) ->
  exists it', seek_with t op it = Ret it' /\ sit_at it' [].
Proof.
  intros Hi Hst Hib (ii' & E & Hs & Hv). unfold seek_with. rewrite Hi, E. cbn [mbind Res_bind].
  unfold InitDataBlock. cbn [si_index]. rewrite Hv. cbn [negb mbind Res_bind].
  unfold on_data. cbn [si_data]. eexists. split; [done|]. split; [done|]. split; [done|]. cbn [si_index]. eauto 10.
Qed.

Lemma SSTIter_SeekToFirst_spec it : sit_ready it ->
  exists it', SSTIter_SeekToFirst t it = Ret it' /\ sit_at it' (blks_es bls).
Proof.
  intros (Hst & ib & ii & ibuf & irs & Hi & His & Hib).
  destruct (SeekToFirst_spec _ _ _ _ Hib ii His) as (ii' & E & Hat).
  unfold SSTIter_SeekToFirst.
  assert (Hc : bls = [] \/ exists bl post, bls = bl :: post) by (clear; destruct bls; eauto).
  destruct Hc as [Eb|(bl & post & Eb)].
  { rewrite Eb in Hat |- *. change (blks_es []) with (@nil ikv). eapply (seek_with_nil it ib ii); eauto. }
  unfold seek_with. rewrite Hi, E. cbn [mbind Res_bind].
  assert (Hin : bl ∈ bls) by (rewrite Eb; apply elem_of_cons; by left).
  destruct (load_block (mkSSTIter (Some (ib, ii')) (si_data it) (si_status it)) ib ii' [] bl post
              ibuf irs BlockIter_SeekToFirst (fun es => es)) as (it' & E' & Hit); try done.
  - by rewrite Eb in Hat.
  - intros. by eapply SeekToFirst_spec.
  - apply (bl_ok bl Hin).
  - exists it'. split; [exact E'|]. by rewrite Eb.
Qed.

Lemma SSTIter_Seek_spec it target : sit_ready it -> ikey_wf target ->
  exists it', SSTIter_Seek t it target = Ret it' /\ sit_at it' (seek_run target (blks_es bls)).
Proof.
  intros (Hst & ib & ii & ibuf & irs & Hi & His & Hib) Ht.
  destruct (Seek_spec _ _ _ _ Hib index_key_wf index_sorted ii target Ht His) as (ii' & E & Hat).
  unfold SSTIter_Seek. destruct (seek_index target bls) as (pre & post & Eb & Es & Hpre & Hpost).
  rewrite Es in Hat. destruct post as [|bl post].
  { rewrite app_nil_r in Eb.
    assert (seek_run target (blks_es bls) = []) as ->; [|eapply (seek_with_nil it ib ii); eauto].
    rewrite <- (app_nil_r (blks_es bls)). rewrite seek_run_app; [done|].
    apply (index_skip _ bls []); [done|by rewrite app_nil_r|]. by rewrite Eb. }
  destruct (seek_in_block target pre bl post Ht Eb Hpre (Hpost _ _ eq_refl)) as [-> Hne].
  unfold seek_with. rewrite Hi, E. cbn [mbind Res_bind].
  apply (load_block (mkSSTIter (Some (ib, ii')) (si_data it) (si_status it)) ib ii' pre bl post
           ibuf irs (fun b bi => BlockIter_Seek b bi target) (seek_run target)); try done.
  intros. by eapply Seek_spec.
Qed.

Lemma SSTIter_Next_spec it e rest : sit_at it (e :: rest) ->
  exists it', SSTIter_Next t it = Ret it' /\ sit_at it' rest.
Proof.
  intros (Hst & pre & bl & post & ibuf & irs & buf & rs & ib & ii & di & brest & Eb & Hne & Hr & Hi & Hib & Hiat & Hd & Hb & Hat).
  destruct brest as [|e' brest]; [done|]. injection Hr as <- Hr.
  unfold SSTIter_Next. rewrite Hd.
  destruct (Next_spec _ _ _ _ Hb di e brest Hat) as (di' & -> & Hat'). cbn [mbind Res_bind].
  destruct brest as [|e1 brest].
  - pose proof Hat' as [_ Hv]. rewrite Hv. cbn [si_index]. rewrite Hi.
    destruct (Next_spec _ _ _ _ Hib ii (index_entry bl) (map index_entry post) Hiat) as (ii' & -> & Hiat').
    cbn [mbind Res_bind]. cbn [app] in Hr. destruct post as [|bl' post].
    + destruct Hiat' as [His Hiv]. rewrite Hiv. eexists. split; [done|]. subst rest.
      split; [done|]. split; [done|]. cbn [si_index]. eauto 10.
    + pose proof Hiat' as (_ & Hiv & _). rewrite Hiv.
      assert (Hin : bl' ∈ bls).
      { rewrite Eb. apply elem_of_app. right. apply elem_of_cons. right. apply elem_of_cons. by left. }
      subst rest.
      apply (load_block (mkSSTIter (Some (ib, ii')) (Some (Block_new (bl_data bl), di')) (si_status it))
               ib ii' (pre ++ [bl]) bl' post ibuf irs BlockIter_SeekToFirst (fun es => es)); try done.
      * by rewrite <- app_assoc.
      * intros. by eapply SeekToFirst_spec.
      * apply (bl_ok bl' Hin).
  - pose proof Hat' as (_ & Hv & _). rewrite Hv. eexists. split; [done|]. split; [done|].
    rewrite Hr. cbn [app]. exists pre, bl, post, ibuf, irs, buf, rs, ib, ii, di', (e1 :: brest).
    cbn [si_index si_data]. by repeat (split; [done|]).
Qed.

Lemma sst_collect_spec rest : forall it fuel, sit_at it rest -> (length rest <= fuel)%nat ->
  sst_collect fuel t it = Ret rest.
Proof.
  induction rest as [|e rest IH]; intros it fuel Hat Hf.
  - destruct Hat as [_ [Hv _]]. destruct fuel; simpl; by rewrite Hv.
  - destruct fuel as [|fuel]; [simpl in Hf; lia|]. cbn [sst_collect].
    destruct (sit_at_cons _ _ _ Hat) as [-> ->].
    destruct (SSTIter_Next_spec it e rest Hat) as (it' & E & Hat'). cbn [mbind Res_bind].
    rewrite E. cbn [mbind Res_bind]. rewrite (IH it' fuel Hat') by (simpl in Hf; lia). done.
Qed.
End Reader.

(** * The builder *)

#[local] Arguments le_bytes : simpl never.
#[local] Arguments index_entry : simpl never.

Lemma write_contents_spec c sb w : exists w', touches (sb_path sb) w w' /\
  ((exists e, write_contents c (sb, w) = (Fail e, (sb, w')) /\ ok e = false /\ ~ no_faults w) \/
   write_contents c (sb, w) = (Ret (offset_ sb, Z.of_nat (length c)),
     (with_out (sb_out sb ++ c ++ le_bytes 4 (MaskCrc (Crc32 c)))
               (u64 (offset_ sb + Z.of_nat (length c + 4))) sb, w'))).
Proof.
  destruct (next_fault_cases (sb_path sb) w) as (f & w1 & E & Hfiles & Ht & Hn).
  unfold write_contents, sb_io, zoom, write_failed, set_sb. sm_step. rewrite E. sm_step.
  destruct f as [n|]; sm_step.
  - eexists. split; [|left; eexists; split; [reflexivity|]].
    + eapply touches_trans; [exact Ht|]. apply touches_insert.
    + split; [done|]. intros H. by specialize (Hn H).
  - exists w1. split; [done|]. right. unfold PutFixed32. cbn [app].
    by rewrite length_le_bytes.
Qed.

(** The cost of an entry in the file, header, index entry and checksums included. *)
Definition weight (e : ikv) : nat := (2 * length e.1 + length e.2 + 70)%nat.
Definition run_weight (es : list ikv) : nat := sum_list_with weight es.

Lemma run_weight_snoc es e : run_weight (es ++ [e]) = (run_weight es + weight e)%nat.
Proof. unfold run_weight. rewrite sum_list_with_app. simpl. lia. Qed.

Definition pending_cost (sb : SSTableBuilder) : nat :=
  if pending_index_entry_ sb then 35 + length (pending_index_key_ sb) else 0.
Definition open_cost (cur : list ikv) : nat :=
  match cur with [] => 0 | _ => 47 + length (last_key [] cur) end.

(** The finished blocks [bls] are on the stream, [cur] is in the data block. *)
Record sb_inv (sb : SSTableBuilder) (es : list ikv) (bls : list blk) (cur : list ikv) : Prop := {
  sv_es : es = blks_es bls ++ cur;
  sv_len : Forall (fun e => len32 e.1 /\ len32 e.2) es;
  sv_status : sb_status sb = OK;
  sv_data : bb_inv (data_block_ sb) cur;
  sv_blks : len32 (sb_out sb) -> Forall (blk_ok (sb_out sb)) bls;
  sv_nonempty : Forall (fun bl => bl_es bl <> []) bls;
  sv_count : (length (blks_es bls) <= length (sb_out sb))%nat;
  sv_offset : offset_ sb = u64 (Z.of_nat (length (sb_out sb)));
  sv_key : sb_last_key sb = last_key [] es;
  sv_pend : pending_index_entry_ sb = false /\ bb_inv (index_block_ sb) (map index_entry bls) \/
    pending_index_entry_ sb = true /\ cur = [] /\
    exists bls' bl, bls = bls' ++ [bl] /\ bb_inv (index_block_ sb) (map index_entry bls') /\
      pending_index_key_ sb = last_key [] (bl_es bl) /\
      PutFixed64 (PutFixed64 [] (pending_offset_ sb)) (pending_size_ sb) = (index_entry bl).2;
  sv_keys : has_keys_ sb = bool_decide (es <> []) /\
    smallest_ sb = match es with e :: _ => e.1 | [] => [] end /\ largest_ sb = last_key [] es;
  sv_size : (length (sb_out sb) + CurrentSizeEstimate (data_block_ sb)
             + CurrentSizeEstimate (index_block_ sb) + pending_cost sb + open_cost cur
             <= run_weight es + 16)%nat
}.

Lemma sb_inv_new options path : options_ok options -> sb_inv (SSTableBuilder_new options path) [] [] [].
Proof.
  intros Ho. split; cbn; try done.
  - by apply bb_inv_new.
  - left. split; [done|]. by apply bb_inv_new.
Qed.

(** Every operation leaves the configuration alone. *)
Definition same_config (sb sb' : SSTableBuilder) : Prop :=
  sb_path sb' = sb_path sb /\ sb_options sb' = sb_options sb.

Lemma FlushDataBlock_spec sb es bls cur w : sb_inv sb es bls cur ->
  exists r sb' w', FlushDataBlock (sb, w) = (r, (sb', w')) /\ touches (sb_path sb) w w' /\
    same_config sb sb' /\
    ((exists e, r = Fail e /\ ok e = false /\ ~ no_faults w) \/
     r = Ret tt /\ exists bls', sb_inv sb' es bls' []).
Proof.
  intros Hinv. pose proof Hinv as [Hes Hlen Hst Hdata Hblks Hnemp Hcount Hoff Hkey Hpend Hkeys Hsize].
  unfold FlushDataBlock. sm_step. rewrite (bb_empty _ _ Hdata).
  destruct (decide (cur = [])) as [Hc|Hc].
  { rewrite bool_decide_true by done. eexists _, sb, w. split; [reflexivity|]. split; [done|]. split; [done|]. right. split; [done|].
    exists bls. by subst cur. }
  rewrite bool_decide_false by done. unfold WriteBlock. sm_step.
  destruct (BlockBuilder_Finish (data_block_ sb)) as [c bb] eqn:Ec.
  assert (Hc1 : c = (BlockBuilder_Finish (data_block_ sb)).1) by (by rewrite Ec).
  unfold set_sb. sm_step.
  destruct (write_contents_spec c (with_data bb sb) w) as (w' & Ht & [(e & -> & Hok & Hnf)| ->]).
  { eexists _, (with_data bb sb), w'. split; [reflexivity|]. split; [done|]. split; [done|]. left. eauto. }
  sm_step. eexists _, _, w'. split; [reflexivity|]. split; [done|]. split; [done|]. right. split; [done|].
  set (bl := mkBlk cur (length (sb_out sb)) c).
  destruct Hpend as [[Hp Hix]|(_ & ? & _)]; [|done].
  assert (Hlast : last_key [] es = last_key [] cur) by (subst es; by apply last_key_app).
  exists (bls ++ [bl]). split; cbn.
  - rewrite blks_es_app. unfold blks_es at 2. simpl. by rewrite !app_nil_r.
  - done.
  - done.
  - apply bb_inv_reset. assert (restart_interval_ bb = restart_interval_ (data_block_ sb)) as ->.
    { change bb with ((c, bb).2). by rewrite <- Ec. }
    apply Hdata.
  - intros Hl. unfold len32 in Hl. rewrite !length_app in Hl.
    assert (len32 (sb_out sb)) as Ho by (unfold len32; lia).
    assert (len32 c) as Hlc by (unfold len32; lia).
    apply Forall_app. split.
    + eapply Forall_impl; [exact (Hblks Ho)|]. intros b. apply blk_ok_app.
    + apply Forall_singleton. split; [done|]. split.
      * exists (sb_out sb), []. rewrite app_nil_r. by split.
      * unfold bl. cbn [bl_data bl_es]. rewrite Hc1 in Hlc |- *. eexists _, _. by apply Finish_rep.
  - apply Forall_app. split; [done|]. by apply Forall_singleton.
  - rewrite blks_es_app. unfold blks_es at 2. simpl. rewrite app_nil_r, !length_app.
    pose proof (chain_length _ _ _ (bb_chain _ _ Hdata)) as Hcl.
    rewrite Hc1, length_Finish. unfold CurrentSizeEstimate. lia.
  - rewrite Hoff. unfold u64. rewrite Zplus_mod_idemp_l. f_equal.
    rewrite !length_app, length_le_bytes. lia.
  - done.
  - right. split; [done|]. split; [done|]. exists bls, bl. split; [done|]. split; [done|].
    split; [by rewrite Hkey, Hlast|]. rewrite Hoff. unfold PutFixed64, u64. cbn [app].
    by rewrite (le_bytes_mod 8).
  - done.
  - unfold pending_cost, open_cost in *. cbn. rewrite Hp in Hsize.
    destruct cur as [|e0 cur0] eqn:Ecur; [done|]. rewrite <- Ecur in *.
    rewrite !length_app, length_le_bytes, Hc1, length_Finish, Hkey, Hlast.
    unfold CurrentSizeEstimate in *. cbn [buffer_ restarts_ BlockBuilder_Reset length] in *. lia.
Qed.

Lemma add_pending_spec sb es bls cur w : sb_inv sb es bls cur ->
  exists sb', add_pending (sb, w) = (Ret tt, (sb', w)) /\ sb_inv sb' es bls cur /\
    same_config sb sb' /\ pending_index_entry_ sb' = false /\
    bb_inv (index_block_ sb') (map index_entry bls).
Proof.
  intros Hinv. pose proof Hinv as [Hes Hlen Hst Hdata Hblks Hnemp Hcount Hoff Hkey Hpend Hkeys Hsize].
  unfold add_pending. sm_step.
  destruct Hpend as [[Hp Hix]|(Hp & -> & bls' & bl & -> & Hix & Hpk & Hh)]; rewrite Hp; sm_step.
  { exists sb. split; [reflexivity|]. done. }
  assert (Hkl : len32 (last_key [] (bl_es bl))).
  { apply Forall_app in Hnemp as [_ Hne]. rewrite Forall_singleton in Hne.
    destruct (last_key_elem _ Hne) as (e & He & <-). rewrite Forall_forall in Hlen.
    apply Hlen. rewrite Hes, app_nil_r. apply elem_of_blks_es. exists bl. split; [|done].
    apply elem_of_app. right. by apply list_elem_of_singleton. }
  assert (Hhl : length (index_entry bl).2 = 16%nat).
  { unfold index_entry. cbn [snd]. by rewrite length_app, !length_le_bytes. }
  assert (Hh32 : len32 (index_entry bl).2) by (unfold len32; rewrite Hhl; lia).
  rewrite Hh, Hpk.
  destruct (BlockBuilder_Add_spec _ _ _ _ Hix Hkl Hh32) as (bb & E & Hbb & _ & _).
  pose proof (BlockBuilder_Add_size _ _ _ _ Hkl Hh32 E) as Hsz. rewrite E. unfold set_sb. sm_step.
  assert (Hix' : bb_inv bb (map index_entry (bls' ++ [bl]))) by (by rewrite map_app).
  eexists. split; [reflexivity|]. split; [|done]. split; cbn; try done.
  - by left.
  - unfold pending_cost in *. cbn. rewrite Hp, Hpk in Hsize. rewrite Hhl in Hsz. lia.
Qed.

Lemma open_cost_snoc cur e : open_cost (cur ++ [e]) = (47 + length e.1)%nat.
Proof. unfold open_cost. rewrite last_key_snoc. by destruct cur. Qed.

Lemma SSTableBuilder_Add_spec sb es bls cur k v w : sb_inv sb es bls cur -> len32 k -> len32 v ->
  exists sb' w', SSTableBuilder_Add k v (sb, w) = (Ret tt, (sb', w')) /\
    touches (sb_path sb) w w' /\ same_config sb sb' /\
    ((ok (sb_status sb') = false /\ ~ no_faults w) \/
     exists bls' cur', sb_inv sb' (es ++ [(k, v)]) bls' cur').
Proof.
  intros Hinv Hk Hv. unfold SSTableBuilder_Add. sm_step. rewrite (sv_status _ _ _ _ Hinv). cbn [ok has_code negb].
  unfold ok, has_code. rewrite bool_decide_true by done. cbn [negb].
  destruct (add_pending_spec sb es bls cur w Hinv) as (sb1 & -> & Hinv1 & Hc1 & Hp1 & _).
  unfold set_sb. sm_step. unfold with_key at 1. cbn [data_block_].
  destruct Hinv1 as [Hes Hlen Hst Hdata Hblks Hnemp Hcount Hoff Hkey Hpend Hkeys Hsize].
  destruct (BlockBuilder_Add_spec _ _ k v Hdata Hk Hv) as (bb & E & Hbb & _ & _).
  pose proof (BlockBuilder_Add_size _ _ _ _ Hk Hv E) as Hsz. rewrite E. sm_step.
  set (sb2 := with_data bb (with_key k sb1)).
  assert (Hinv2 : sb_inv sb2 (es ++ [(k, v)]) bls (cur ++ [(k, v)])).
  { split; cbn; try done.
    - by rewrite Hes, app_assoc.
    - apply Forall_app. split; [done|]. by apply Forall_singleton.
    - by rewrite last_key_snoc.
    - left. destruct Hpend as [[_ Hix]|(Hp & _)]; [done|congruence].
    - destruct Hkeys as (Hh & Hsm & Hlg). rewrite last_key_snoc. split; [|split; [|done]].
      + symmetry. apply bool_decide_true. by destruct es.
      + rewrite Hh, Hsm. by destruct es.
    - rewrite open_cost_snoc, run_weight_snoc. unfold pending_cost in *. cbn. rewrite Hp1 in *.
      unfold weight. cbn [fst snd]. lia. }
  destruct (block_size _ <=? _).
  - destruct (FlushDataBlock_spec sb2 _ _ _ w Hinv2) as (r & sb3 & w3 & -> & Ht & Hc3 & Hr).
    assert (Hc : same_config sb sb3) by (destruct Hc1 as [H1 H2], Hc3 as [H3 H4]; split; [exact (eq_trans H3 H1)|exact (eq_trans H4 H2)]).
    assert (Hpath : sb_path sb2 = sb_path sb) by (by destruct Hc1). rewrite Hpath in Ht.
    destruct Hr as [(e & -> & Hok & Hnf)|(-> & bls' & Hinv3)]; sm_step.
    + eexists _, w3. split; [reflexivity|]. split; [done|]. split; [done|]. left. by split.
    + eexists _, w3. split; [reflexivity|]. split; [done|]. split; [done|]. right.
      exists bls', []. destruct Hinv3; by split.
  - eexists sb2, w. split; [reflexivity|]. split; [done|]. split; [done|]. right. eauto.
Qed.

Lemma same_config_trans a b c : same_config a b -> same_config b c -> same_config a c.
Proof. intros [H1 H2] [H3 H4]. split; congruence. Qed.

Lemma Add_after_failure sb w k v : ok (sb_status sb) = false ->
  SSTableBuilder_Add k v (sb, w) = (Ret tt, (sb, w)).
Proof. intros H. unfold SSTableBuilder_Add. sm_step. by rewrite H. Qed.

Lemma Adds_spec es : forall sb es0 bls cur w, sb_inv sb es0 bls cur ->
  Forall (fun e => len32 e.1 /\ len32 e.2) es ->
  exists sb' w', for_each es (fun e : ikv => SSTableBuilder_Add e.1 e.2) (sb, w) = (Ret tt, (sb', w')) /\
    touches (sb_path sb) w w' /\ same_config sb sb' /\
    ((ok (sb_status sb') = false /\ ~ no_faults w) \/
     exists bls' cur', sb_inv sb' (es0 ++ es) bls' cur').
Proof.
  induction es as [|[k v] es IH]; intros sb es0 bls cur w Hinv Hlen.
  - exists sb, w. split; [done|]. split; [done|]. split; [done|]. right. rewrite app_nil_r. eauto.
  - apply Forall_cons in Hlen as [[Hk Hv] Hlen]. cbn [for_each fst snd].
    destruct (SSTableBuilder_Add_spec sb es0 bls cur k v w Hinv Hk Hv)
      as (sb1 & w1 & E1 & Ht1 & Hc1 & [[Hbad Hnf]|(bls1 & cur1 & Hinv1)]).
    + rewrite (SM_bind_Ret _ _ _ _ _ E1).
      assert (for_each es (fun e : ikv => SSTableBuilder_Add e.1 e.2) (sb1, w1) = (Ret tt, (sb1, w1))) as ->.
      { clear -Hbad. induction es as [|e es IH]; [done|]. cbn [for_each].
        by rewrite (SM_bind_Ret _ _ _ _ _ (Add_after_failure sb1 w1 e.1 e.2 Hbad)). }
      exists sb1, w1. split; [done|]. split; [done|]. split; [done|]. by left.
    + rewrite (SM_bind_Ret _ _ _ _ _ E1).
      destruct (IH sb1 _ _ _ w1 Hinv1 Hlen) as (sb2 & w2 & E2 & Ht2 & Hc2 & Hr).
      assert (Hp : sb_path sb1 = sb_path sb) by apply Hc1. rewrite Hp in Ht2.
      exists sb2, w2. split; [done|]. split; [by eapply touches_trans|].
      split; [by eapply same_config_trans|]. destruct Hr as [[Hbad Hnf]|(bls2 & cur2 & Hinv2)].
      * left. split; [done|]. intros Hn. apply Hnf. by apply (touch_faults _ _ _ Ht1).
      * right. rewrite <- app_assoc in Hinv2. eauto.
Qed.

(** The finished file from the stream before the index is written. *)
Lemma finished_file sb es bls bb : sb_inv sb es bls [] -> bb_inv bb (map index_entry bls) ->
  let c := (BlockBuilder_Finish bb).1 in
  let file := (sb_out sb ++ c ++ le_bytes 4 (MaskCrc (Crc32 c)))
                ++ footer (offset_ sb) (Z.of_nat (length c)) in
  len32 file -> sst_rep file es.
Proof.
  intros [Hes Hlen Hst Hdata Hblks Hnemp Hcount Hoff Hkey Hpend Hkeys Hsize] Hbb c file Hl.
  unfold len32, file in Hl. rewrite !length_app, length_footer in Hl.
  exists bls, c, (length (sb_out sb)). split; [by rewrite Hes, app_nil_r|].
  assert (Hoff' : offset_ sb = Z.of_nat (length (sb_out sb)))
    by (rewrite Hoff; unfold u64; apply Z.mod_small; lia).
  split.
  - split; cbn [file_data_ index_offset_ index_size_]; try done.
    + unfold len32, file. rewrite !length_app, length_footer. done.
    + eapply Forall_impl; [apply Hblks; unfold len32; lia|]. intros b Hb.
      unfold file. by do 2 apply blk_ok_app.
    + exists (length (sb_out sb)). split; [done|].
      exists (sb_out sb), (footer (offset_ sb) (Z.of_nat (length c))). unfold file.
      by rewrite <- !app_assoc.
    + eexists _, _. apply Finish_rep; [done|]. fold c. unfold len32. lia.
    + unfold file. rewrite !length_app. lia.
  - eexists. unfold file. by rewrite Hoff'.
Qed.

Definition meta_ok (meta : FileMetaData) (number : Z) (file : bytes) (es : list ikv) : Prop :=
  fm_number meta = number /\ file_size meta = u64 (Z.of_nat (length file)) /\
  smallest meta = match es with e :: _ => e.1 | [] => [] end /\ largest meta = last_key [] es.

Lemma SSTableBuilder_Finish_spec sb es bls cur w : sb_inv sb es bls cur ->
  exists r sb' w', SSTableBuilder_Finish (sb, w) = (r, (sb', w')) /\ touches (sb_path sb) w w' /\
    ((exists e, r = Fail e /\ ok e = false /\ ~ no_faults w) \/
     exists meta file, r = Ret meta /\ files w' !! sb_path sb = Some file /\
       meta_ok meta 0 file es /\ (len32 file -> sst_rep file es) /\
       (length file <= run_weight es + 40)%nat).
Proof.
  intros Hinv. unfold SSTableBuilder_Finish. sm_step. rewrite (sv_status _ _ _ _ Hinv).
  unfold ok at 1, has_code. rewrite bool_decide_true by done. cbn [negb].
  destruct (FlushDataBlock_spec sb es bls cur w Hinv) as (r1 & sb1 & w1 & -> & Ht1 & [Hp1 _] & Hr1).
  destruct Hr1 as [(e & -> & Hok & Hnf)|(-> & bls1 & Hinv1)].
  { sm_step. eexists _, sb1, w1. split; [reflexivity|]. split; [done|]. left. eauto. }
  sm_step. destruct (add_pending_spec sb1 es bls1 [] w1 Hinv1) as (sb2 & -> & Hinv2 & [Hp2 _] & Hpf & Hix).
  sm_step. unfold WriteBlock. sm_step.
  destruct (BlockBuilder_Finish (index_block_ sb2)) as [c bb] eqn:Ec.
  assert (Hc : c = (BlockBuilder_Finish (index_block_ sb2)).1) by (by rewrite Ec).
  unfold set_sb. sm_step.
  destruct (write_contents_spec c (with_index bb sb2) w1) as (w2 & Ht2 & [(e & -> & Hok & Hnf)| ->]).
  { sm_step. eexists _, _, w2. split; [reflexivity|].
    cbn [with_index sb_path] in Ht2. rewrite Hp2, Hp1 in Ht2.
    split; [by eapply touches_trans|]. left. exists e. split; [done|]. split; [done|].
    intros Hn. apply Hnf. by apply (touch_faults _ _ _ Ht1). }
  cbn [with_index sb_path sb_out offset_] in Ht2 |- *. rewrite Hp2, Hp1 in Ht2. sm_step.
  assert (Ht12 : touches (sb_path sb) w w2) by (by eapply touches_trans).
  unfold sb_io, zoom. sm_step.
  destruct (next_fault_cases (sb_path sb) w2) as (f & w3 & E3 & _ & Ht3 & Hn3). rewrite E3.
  destruct f as [n|].
  { unfold write_failed, sb_io, zoom. sm_step. eexists _, _, _. split; [reflexivity|].
    cbn. rewrite Hp2, Hp1. split.
    - eapply touches_trans; [exact Ht12|]. eapply touches_trans; [exact Ht3|]. apply touches_insert.
    - left. eexists. split; [done|]. split; [done|]. intros Hn.
      specialize (Hn3 (touch_faults _ _ _ Ht12 Hn)). done. }
  sm_step. eexists _, _, _. split; [reflexivity|].
  cbn [with_out with_index sb_path sb_out offset_ smallest_ largest_]. rewrite Hp2, Hp1. split.
  { eapply touches_trans; [exact Ht12|]. eapply touches_trans; [exact Ht3|]. apply touches_insert. }
  right. eexists _, _. split; [reflexivity|]. cbn [files set_files]. rewrite lookup_insert_eq.
  split; [reflexivity|]. pose proof Hinv2 as [_ _ _ _ _ _ _ Hoff _ _ (_ & Hsm & Hlg) Hsize].
  split; [|split].
  - split; [done|]. cbn [file_size smallest largest]. split; [|done].
    rewrite Hoff. unfold u64. rewrite !Zplus_mod_idemp_l, <- Z.add_assoc, Zplus_mod_idemp_l. f_equal.
    rewrite !length_app, length_footer, length_le_bytes. lia.
  - intros Hl. subst c. by eapply finished_file.
  - rewrite !length_app, length_footer, length_le_bytes, Hc, length_Finish.
    unfold open_cost in Hsize. lia.
Qed.

(** A table built from sorted entries, for any faults of the file system: the
    build either reports an error or leaves a complete table in the file. *)
Lemma build_table_spec options path number es w : options_ok options ->
  Forall (fun e => len32 e.1 /\ len32 e.2) es ->
  exists r w', build_table options path number es w = (r, w') /\ touches path w w' /\
    ((exists e, r = Fail e /\ ok e = false /\ ~ no_faults w) \/
     exists meta file, r = Ret meta /\ files w' !! path = Some file /\
       meta_ok meta number file es /\ (len32 file -> sst_rep file es) /\
       (length file <= run_weight es + 40)%nat).
Proof.
  intros Ho Hlen. unfold build_table, SSTableBuilder_Open, sb_io, zoom, set_sb. sm_step.
  destruct (next_fault_cases path w) as (f & w1 & E1 & _ & Ht1 & Hn1).
  cbn [sb_path SSTableBuilder_new]. rewrite E1. destruct f as [n|]; sm_step.
  { eexists _, w1. split; [reflexivity|]. split; [done|]. left. eexists. split; [done|].
    split; [done|]. intros Hn. by specialize (Hn1 Hn). }
  set (sb0 := with_open true (SSTableBuilder_new options path)).
  set (w2 := set_files (insert path []) w1).
  assert (Ht2 : touches path w w2) by (eapply touches_trans; [exact Ht1|apply touches_insert]).
  assert (Hinv0 : sb_inv sb0 [] [] []).
  { destruct (sb_inv_new options path Ho). by split. }
  destruct (Adds_spec es sb0 _ _ _ w2 Hinv0 Hlen) as (sb3 & w3 & -> & Ht3 & [Hp3 _] & Hr).
  sm_step. assert (Ht23 : touches path w w3) by (by eapply touches_trans).
  destruct Hr as [[Hbad Hnf]|(bls & cur & Hinv)].
  { unfold SSTableBuilder_Finish. sm_step. rewrite Hbad. cbn [negb]. eexists _, w3.
    split; [reflexivity|]. split; [done|]. left. eexists. split; [done|]. split; [done|].
    intros Hn. apply Hnf. by apply (touch_faults _ _ _ Ht2). }
  cbn [app] in Hinv.
  destruct (SSTableBuilder_Finish_spec sb3 es bls cur w3 Hinv) as (r & sb4 & w4 & -> & Ht4 & Hr).
  rewrite Hp3 in Ht4, Hr. cbn [snd]. eexists _, w4. split; [reflexivity|].
  split; [by eapply touches_trans|]. destruct Hr as [(e & -> & Hok & Hnf)|(meta & file & -> & Hf & Hm & Hs & Hsz)].
  - left. exists e. split; [done|]. split; [done|]. intros Hn. apply Hnf.
    by apply (touch_faults _ _ _ Ht23).
  - right. eexists _, file. split; [reflexivity|]. split; [done|]. split; [|by split].
    destruct Hm as (_ & H2 & H3 & H4). by split.
Qed.

(** * Properties *)

(** C22: an SSTable gives back the run it was built from.  Building a table from
    a sorted run without I/O errors leaves a file that opens; a point lookup at
    any snapshot answers with the newest version that snapshot sees; scanning from
    the first entry, or from a seek target, enumerates exactly the run, or the
    part of it from the target on; the metadata records its key range.  Holds for
    every block size and restart interval, for tables below 4 GiB. *)
Theorem sstable_roundtrip (options : Options) (path : bytes) (number : Z) (es : list ikv) (w : World) :
  options_ok options -> run_wf es -> no_faults w ->
  Z.of_nat (run_weight es + 40) < 2 ^ 32 ->
  exists meta w' t, build_table options path number es w = (Ret meta, w') /\
    SSTable_Open path w' = (Ret t, w') /\
    smallest meta = match es with e :: _ => e.1 | [] => [] end /\ largest meta = last_key [] es /\
    (forall u s, seq56 s -> SSTable_Get t (MakeLookupKey u s) = Ret (lookup_run u s es)) /\
    (it ← SSTable_NewIterator t; it ← SSTIter_SeekToFirst t it; sst_collect (length es) t it) = Ret es /\
    forall target, ikey_wf target ->
      (it ← SSTable_NewIterator t; it ← SSTIter_Seek t it target; sst_collect (length es) t it)
        = Ret (seek_run target es).
Proof.
  intros Ho [Hwf Hs] Hn Hw.
  destruct (build_table_spec options path number es w Ho) as (r & w' & E & Ht & Hr).
  { eapply Forall_impl; [exact Hwf|]. by intros e [_ _ ? ?]. }
  destruct Hr as [(e & _ & _ & Hnf)|(meta & file & -> & Hf & (_ & _ & Hsm & Hlg) & Hrep & Hsz)]; [done|].
  assert (Hl : len32 file) by (unfold len32; lia).
  destruct (SSTable_Open_ok path file es w' (touch_faults _ _ _ Ht Hn) Hf (Hrep Hl))
    as (t & bls & idata & Eo & Hes & Htr).
  exists meta, w', t. split; [done|]. split; [done|]. split; [done|]. split; [done|].
  pose proof (run_wf_ikeys _ Hwf) as Hik. subst es.
  split; [intros u s Hseq; by eapply SSTable_Get_spec|].
  destruct (NewIterator_spec t bls idata Htr) as (ib & it & ibuf & irs & -> & Hi & Hst & Hd & Hib).
  assert (Hready : sit_ready bls it).
  { split; [done|]. exists ib, (BlockIter_new ib), ibuf, irs. split; [done|]. split; [apply Hib|done]. }
  cbn [mbind Res_bind]. split.
  - destruct (SSTIter_SeekToFirst_spec t bls idata Htr Hik Hs it Hready) as (it' & -> & Hat).
    cbn [mbind Res_bind]. by eapply sst_collect_spec.
  - intros target Ht'.
    destruct (SSTIter_Seek_spec t bls idata Htr Hik Hs it target Hready Ht') as (it' & -> & Hat).
    cbn [mbind Res_bind]. eapply sst_collect_spec; try done.
    destruct (seek_run_suffix target (blks_es bls)) as (pre & E' & _).
    apply (f_equal length) in E'. rewrite length_app in E'. lia.
Qed.

(** Six versions over three data blocks (a block size of 40 bytes). *)
Lemma sstable_roundtrip_witness :
  let k u s := MakeInternalKey (lit u) s kTypeValue in
  let es := [(k "a" 9, lit "1"); (k "a" 7, lit "2"); (k "b" 3, lit "3");
             (MakeInternalKey (lit "c") 8 kTypeDeletion, []); (k "c" 5, lit "4"); (k "d" 4, [])]%string in
  let o := mkOptions true false 4096 40 2 4 2 in
  exists meta w' t, build_table o (lit "f") 7 es (mkWorld ∅ ∅ []) = (Ret meta, w') /\
    SSTable_Open (lit "f") w' = (Ret t, w') /\
    SSTable_Get t (MakeLookupKey (lit "c") 9) = Ret (Some None) /\
    SSTable_Get t (MakeLookupKey (lit "c") 7) = Ret (Some (Some (lit "4"))).
Proof.
  intros k es o.
  assert (Hwf : run_wf es).
  { split; [apply (bool_decide_unpack _); vm_compute; exact I|].
    unfold run_sorted. repeat constructor. }
  destruct (sstable_roundtrip o (lit "f") 7 es (mkWorld ∅ ∅ [])) as (meta & w' & t & E & Eo & _ & _ & Hg & _).
  - unfold options_ok, o. cbn. lia.
  - exact Hwf.
  - reflexivity.
  - vm_compute. reflexivity.
  - exists meta, w', t. split; [exact E|]. split; [exact Eo|]. split.
    + rewrite Hg by (unfold seq56; lia). vm_compute. reflexivity.
    + rewrite Hg by (unfold seq56; lia). vm_compute. reflexivity.
Defined.
