(* ===== verification/Version.v ===== *)
(** Versions and the MANIFEST (include/lsmkv/version.h, src/version.cpp): the
    edits, their encoding, the set of live tables, and its recovery. *)
From S2P Require Import Prelude Status Slice Encoding InternalKey Run Env Block Options SSTable.

Definition kNumLevels : Z := 2.

(** * VersionEdit *)

(** A field with its [has_] flag is an [option]. *)
Record VersionEdit := mkVersionEdit {
  next_file_number : option Z;
  last_sequence : option Z;
  log_number : option Z;
  added_files : list (Z * FileMetaData);
  deleted_files : list (Z * Z)
}.

Definition VersionEdit_new : VersionEdit := mkVersionEdit None None None [] [].
Definition SetNextFile (n : Z) (e : VersionEdit) : VersionEdit :=
  mkVersionEdit (Some n) (last_sequence e) (log_number e) (added_files e) (deleted_files e).
Definition SetLastSequence_edit (s : Z) (e : VersionEdit) : VersionEdit :=
  mkVersionEdit (next_file_number e) (Some s) (log_number e) (added_files e) (deleted_files e).
Definition SetLogNumber (n : Z) (e : VersionEdit) : VersionEdit :=
  mkVersionEdit (next_file_number e) (last_sequence e) (Some n) (added_files e) (deleted_files e).
Definition AddFile (level : Z) (f : FileMetaData) (e : VersionEdit) : VersionEdit :=
  mkVersionEdit (next_file_number e) (last_sequence e) (log_number e)
    (added_files e ++ [(level, f)]) (deleted_files e).
Definition DeleteFile (level number : Z) (e : VersionEdit) : VersionEdit :=
  mkVersionEdit (next_file_number e) (last_sequence e) (log_number e) (added_files e)
    (deleted_files e ++ [(level, number)]).

(** enum Tag *)
Definition kNextFileNumber : Z := 1.
Definition kLastSequence : Z := 2.
Definition kLogNumber : Z := 3.
Definition kAddFile : Z := 4.
Definition kDeleteFile : Z := 5.

(** [static_cast<int>] of a 32-bit word. *)
Definition s32 (v : Z) : Z := if v <? 2 ^ 31 then v else v - 2 ^ 32.

Definition FrameEdit (rec : bytes) : bytes := PutFixed32 [] (u32 (Z.of_nat (length rec))) ++ rec.

(** [if (has_x) { PutVarint32(&out, tag); PutVarint64(&out, x); }] *)
Definition put_field (tag : Z) (v : option Z) (out : bytes) : bytes :=
  match v with
  | Some n => PutVarint64 (PutVarint32 out tag) n
  | None => out
  end.
Definition put_deleted (out : bytes) (d : Z * Z) : bytes :=
  PutVarint64 (PutVarint32 (PutVarint32 out kDeleteFile) (u32 d.1)) d.2.
Definition put_added (out : bytes) (a : Z * FileMetaData) : bytes :=
  let out := PutVarint32 (PutVarint32 out kAddFile) (u32 a.1) in
  let out := PutVarint64 (PutVarint64 out (fm_number a.2)) (file_size a.2) in
  PutLengthPrefixedSlice (PutLengthPrefixedSlice out (smallest a.2)) (largest a.2).

Definition VersionEdit_Encode (e : VersionEdit) : bytes :=
  let out := put_field kNextFileNumber (next_file_number e) [] in
  let out := put_field kLastSequence (last_sequence e) out in
  let out := put_field kLogNumber (log_number e) out in
  let out := foldl put_deleted out (deleted_files e) in
  foldl put_added out (added_files e).

(** One round of the tag loop: the edit and the remaining input. *)
Definition decode_tag (e : VersionEdit) (input : bytes) : Res (VersionEdit * bytes) :=
  '(tag, input) ← res_of_option (Corruption (lit "edit bad tag")) (GetVarint32 input);
  if tag =? kNextFileNumber then
    '(n, input) ← res_of_option (Corruption (lit "edit next file")) (GetVarint64 input);
    Ret (SetNextFile n e, input)
  else if tag =? kLastSequence then
    '(n, input) ← res_of_option (Corruption (lit "edit last seq")) (GetVarint64 input);
    Ret (SetLastSequence_edit n e, input)
  else if tag =? kLogNumber then
    '(n, input) ← res_of_option (Corruption (lit "edit log num")) (GetVarint64 input);
    Ret (SetLogNumber n e, input)
  else if tag =? kDeleteFile then
    '(level, input) ← res_of_option (Corruption (lit "edit delete")) (GetVarint32 input);
    '(number, input) ← res_of_option (Corruption (lit "edit delete")) (GetVarint64 input);
    Ret (DeleteFile (s32 level) number e, input)
  else if tag =? kAddFile then
    let bad := Corruption (lit "edit add") in
    '(level, input) ← res_of_option bad (GetVarint32 input);
    '(number, input) ← res_of_option bad (GetVarint64 input);
    '(size, input) ← res_of_option bad (GetVarint64 input);
    '(sm, input) ← res_of_option bad (GetLengthPrefixedSlice input);
    '(lg, input) ← res_of_option bad (GetLengthPrefixedSlice input);
    Ret (AddFile (s32 level) (mkFileMetaData number size sm lg) e, input)
  else Fail (Corruption (lit "unknown edit tag")).

(** [while (!input.empty())]; every round consumes at least the tag. *)
Fixpoint decode_loop (fuel : nat) (e : VersionEdit) (input : bytes) : Res VersionEdit :=
  if bool_decide (input = []) then Ret e
  else
    match fuel with
    | O => Stuck
    | S fuel => '(e, input) ← decode_tag e input; decode_loop fuel e input
    end.
Definition DecodeFrom (e : VersionEdit) (src : bytes) : Res VersionEdit :=
  decode_loop (length src) e src.

(** * Version *)

Record Version := mkVersion { level0 : list FileMetaData; level1 : list FileMetaData }.
Definition Version_new : Version := mkVersion [] [].

(** [files[level]] of an array of two. *)
Definition level_files (v : Version) (level : Z) : Res (list FileMetaData) :=
  if level =? 0 then Ret (level0 v) else if level =? 1 then Ret (level1 v) else Stuck.
Definition set_level (v : Version) (level : Z) (fs : list FileMetaData) : Version :=
  if level =? 0 then mkVersion fs (level1 v) else mkVersion (level0 v) fs.

Definition NumLevelFiles (v : Version) (level : Z) : Res Z :=
  fs ← level_files v level; Ret (Z.of_nat (length fs)).

Definition FileOverlapsRange (f : FileMetaData) (sm lg : bytes) : bool :=
  match Slice_compare (ExtractUserKey (largest f)) sm with
  | Lt => false
  | _ => match Slice_compare (ExtractUserKey (smallest f)) lg with Gt => false | _ => true end
  end.

(** The probes of [Version::Get] in one level, newest file first. *)
Fixpoint get_in_files (dbname user_key lkey : bytes) (fs : list FileMetaData)
    : SM World (option (option bytes)) :=
  match fs with
  | [] => mret None
  | f :: fs =>
    match Slice_compare (ExtractUserKey (smallest f)) user_key with
    | Gt => get_in_files dbname user_key lkey fs
    | _ =>
      match Slice_compare (ExtractUserKey (largest f)) user_key with
      | Lt => get_in_files dbname user_key lkey fs
      | _ =>
        table ← SSTable_Open (TableFileName dbname (fm_number f));
        r ← lift (SSTable_Get table lkey);
        match r with
        | Some hit => mret (Some hit)
        | None => get_in_files dbname user_key lkey fs
        end
      end
    end
  end.

(** A tombstone and a miss are both reported as [NotFound]. *)
Definition Version_Get (v : Version) (dbname user_key : bytes) (snapshot : Z) : SM World bytes :=
  let lkey := MakeLookupKey user_key snapshot in
  r0 ← get_in_files dbname user_key lkey (reverse (level0 v));
  match r0 with
  | Some (Some value) => mret value
  | Some None => fail (NotFound [])
  | None =>
    r1 ← get_in_files dbname user_key lkey (reverse (level1 v));
    match r1 with
    | Some (Some value) => mret value
    | _ => fail (NotFound [])
    end
  end.

(** * Applying an edit *)

(** [ExtractUserKey(x.smallest).compare(ExtractUserKey(y.smallest)) < 0] *)
Definition file_lt (x y : FileMetaData) : bool :=
  match Slice_compare (ExtractUserKey (smallest x)) (ExtractUserKey (smallest y)) with
  | Lt => true | _ => false end.

(** [std::sort] with [file_lt]: an insertion sort is one order it may produce. *)
Fixpoint insert_file (f : FileMetaData) (fs : list FileMetaData) : list FileMetaData :=
  match fs with
  | [] => [f]
  | g :: fs => if file_lt f g then f :: g :: fs else g :: insert_file f fs
  end.
Definition sort_files (fs : list FileMetaData) : list FileMetaData := foldr insert_file [] fs.

(** [vec.erase(remove_if(... f.number == number), end)] *)
Definition erase_number (number : Z) (fs : list FileMetaData) : list FileMetaData :=
  filter (fun f => fm_number f <> number) fs.

Fixpoint apply_deletes (v : Version) (ds : list (Z * Z)) : Res Version :=
  match ds with
  | [] => Ret v
  | d :: ds =>
    fs ← level_files v d.1;
    apply_deletes (set_level v d.1 (erase_number d.2 fs)) ds
  end.

(** [sorted]: LogAndApply re-sorts level 1 after each addition, Recover does not. *)
Fixpoint apply_adds (sorted : bool) (v : Version) (adds : list (Z * FileMetaData)) : Res Version :=
  match adds with
  | [] => Ret v
  | a :: adds =>
    fs ← level_files v a.1;
    let fs := fs ++ [a.2] in
    let fs := if sorted && (a.1 =? 1) then sort_files fs else fs in
    apply_adds sorted (set_level v a.1 fs) adds
  end.

(** * VersionSet *)

Record VersionSet := mkVersionSet {
  vs_dbname : bytes;
  current_ : Version;
  next_file_number_ : Z;
  last_sequence_ : Z;
  log_number_ : Z;
  manifest_file_number_ : Z
}.

Definition VersionSet_new (dbname : bytes) : VersionSet := mkVersionSet dbname Version_new 2 0 0 1.

Definition VsM (A : Type) : Type := SM (VersionSet * World) A.
Definition vs_io {A} (m : SM World A) : VsM A := zoom snd (fun w s => (s.1, w)) m.
Definition set_vs (f : VersionSet -> VersionSet) : VsM unit := modify (fun s => (f s.1, s.2)).

Definition with_current (v : Version) (vs : VersionSet) : VersionSet :=
  mkVersionSet (vs_dbname vs) v (next_file_number_ vs) (last_sequence_ vs) (log_number_ vs)
    (manifest_file_number_ vs).
Definition with_counters (next last log : Z) (vs : VersionSet) : VersionSet :=
  mkVersionSet (vs_dbname vs) (current_ vs) next last log (manifest_file_number_ vs).
Definition with_manifest (n : Z) (vs : VersionSet) : VersionSet :=
  mkVersionSet (vs_dbname vs) (current_ vs) (next_file_number_ vs) (last_sequence_ vs)
    (log_number_ vs) n.

(** [return next_file_number_++;] *)
Definition NextFileNumber (vs : VersionSet) : Z * VersionSet :=
  (next_file_number_ vs,
   with_counters (u64 (next_file_number_ vs + 1)) (last_sequence_ vs) (log_number_ vs) vs).
Definition SetLastSequence (s : Z) (vs : VersionSet) : VersionSet :=
  with_counters (next_file_number_ vs) s (log_number_ vs) vs.

Definition WriteCurrentFile (manifest_name : bytes) : VsM unit :=
  db ← gets (fun s => vs_dbname s.1);
  vs_io (WriteStringToFileAtomic (Basename manifest_name ++ [Byte.x0a]) (CurrentFileName db)).

(** The edit describing the whole state. *)
Definition snapshot_edit (vs : VersionSet) : VersionEdit :=
  mkVersionEdit (Some (next_file_number_ vs)) (Some (last_sequence_ vs)) (Some (log_number_ vs))
    (map (pair 0) (level0 (current_ vs)) ++ map (pair 1) (level1 (current_ vs))) [].

Definition WriteSnapshot (manifest_path : bytes) : VsM unit :=
  vs ← gets fst;
  vs_io (WriteStringToFile (FrameEdit (VersionEdit_Encode (snapshot_edit vs))) manifest_path).

Definition NewDB : VsM unit :=
  db ← gets (fun s => vs_dbname s.1);
  vs_io (CreateDir db) ;;
  set_vs (fun vs => mkVersionSet (vs_dbname vs) Version_new 2 0 0 1) ;;
  let manifest := ManifestFileName db 1 in
  WriteSnapshot manifest ;;
  WriteCurrentFile manifest.

Definition merge_counters (e : VersionEdit) (vs : VersionSet) : VersionSet :=
  with_counters
    (match next_file_number e with Some n => Z.max (next_file_number_ vs) n | None => next_file_number_ vs end)
    (match last_sequence e with Some n => Z.max (last_sequence_ vs) n | None => last_sequence_ vs end)
    (match log_number e with Some n => n | None => log_number_ vs end) vs.

Definition LogAndApply (e : VersionEdit) : VsM unit :=
  set_vs (merge_counters e) ;;
  vs ← gets fst;
  v ← lift (apply_deletes (current_ vs) (deleted_files e));
  v ← lift (apply_adds true v (added_files e));
  vs_io (AppendStringToFile (FrameEdit (VersionEdit_Encode e))
           (ManifestFileName (vs_dbname vs) (manifest_file_number_ vs))) ;;
  set_vs (with_current v).

(** ** Recovery *)

Definition is_eol (c : byte) : bool := bool_decide (c = Byte.x0a) || bool_decide (c = Byte.x0d).
(** [while (!s.empty() && (s.back() == '\n' || s.back() == '\r')) s.pop_back();] *)
Definition strip_eol (s : bytes) : bytes :=
  reverse ((fix go (r : bytes) : bytes :=
    match r with c :: r' => if is_eol c then go r' else r | [] => [] end) (reverse s)).

Definition is_space (c : byte) : bool :=
  let z := bz c in (z =? 32) || ((9 <=? z) && (z <=? 13)).
Definition digit_of (c : byte) : option Z :=
  let z := bz c in if (48 <=? z) && (z <=? 57) then Some (z - 48) else None.
Fixpoint parse_digits (s : bytes) (acc : Z) : Z :=
  match s with
  | [] => acc
  | c :: s => match digit_of c with Some d => parse_digits s (acc * 10 + d) | None => acc end
  end.
Fixpoint skip_space (s : bytes) : bytes :=
  match s with c :: s' => if is_space c then skip_space s' else s | [] => [] end.
(** [strtoull(s, nullptr, 10)] *)
Definition strtoull (s : bytes) : Z :=
  let s := skip_space s in
  let '(neg, s) :=
    match s with
    | c :: s' => if bz c =? 45 then (true, s') else if bz c =? 43 then (false, s') else (false, s)
    | [] => (false, s)
    end in
  let n := parse_digits s 0 in
  if 2 ^ 64 <=? n then 2 ^ 64 - 1 else if neg : bool then u64 (- n) else n.

(** The text after the first ['-'], if there is one. *)
Fixpoint after_dash (s : bytes) : option bytes :=
  match s with
  | [] => None
  | c :: s => if decide (c = Byte.x2d) then Some s else after_dash s
  end.

Definition replay_counters (e : VersionEdit) (vs : VersionSet) : VersionSet :=
  with_counters (default (next_file_number_ vs) (next_file_number e))
    (default (last_sequence_ vs) (last_sequence e)) (default (log_number_ vs) (log_number e)) vs.

(** One framed edit. *)
Definition replay_edit (rec : bytes) : VsM unit :=
  edit ← lift (DecodeFrom VersionEdit_new rec);
  set_vs (replay_counters edit) ;;
  vs ← gets fst;
  v ← lift (apply_deletes (current_ vs) (deleted_files edit));
  v ← lift (apply_adds false v (added_files edit));
  set_vs (with_current v).

Fixpoint replay_loop (fuel : nat) (input : bytes) : VsM unit :=
  if bool_decide (input = []) then mret tt
  else
    match fuel with
    | O => lift Stuck
    | S fuel =>
      if (length input <? 4)%nat then fail (Corruption (lit "truncated manifest header"))
      else
        let len := DecodeFixed32 input in
        let input := remove_prefix 4 input in
        if Z.of_nat (length input) <? len then fail (Corruption (lit "truncated manifest rec"))
        else
          replay_edit (take (Z.to_nat len) input) ;;
          replay_loop fuel (remove_prefix (Z.to_nat len) input)
    end.

Definition Recover : VsM unit :=
  db ← gets (fun s => vs_dbname s.1);
  r ← try (vs_io (ReadFileToString (CurrentFileName db)));
  match r with
  | inl _ => fail (IOError (lit "missing CURRENT"))
  | inr current_data =>
    let manifest_base := strip_eol current_data in
    let manifest := db ++ lit "/" ++ manifest_base in
    match after_dash manifest_base with
    | Some num => set_vs (with_manifest (strtoull num))
    | None => mret tt
    end ;;
    r ← try (vs_io (ReadFileToString manifest));
    match r with
    | inl _ => fail (IOError (lit "missing manifest: " ++ manifest))
    | inr manifest_data =>
      set_vs (with_current Version_new) ;;
      replay_loop (length manifest_data) manifest_data ;;
      set_vs (fun vs =>
        with_current (mkVersion (level0 (current_ vs)) (sort_files (level1 (current_ vs)))) vs)
    end
  end.

(** * Decoding what was encoded *)

Definition fits31 (v : Z) : Prop := 0 <= v < 2 ^ 31.

Definition meta_fits (f : FileMetaData) : Prop :=
  fits64 (fm_number f) /\ fits64 (file_size f) /\ len32 (smallest f) /\ len32 (largest f).

Record edit_ok (e : VersionEdit) : Prop := {
  eo_next : from_option fits64 True (next_file_number e);
  eo_last : from_option fits64 True (last_sequence e);
  eo_log : from_option fits64 True (log_number e);
  eo_added : Forall (fun a => fits31 a.1 /\ meta_fits a.2) (added_files e);
  eo_deleted : Forall (fun d => fits31 d.1 /\ fits64 d.2) (deleted_files e)
}.

(** [dec_to e i e' i']: the tag loop started at [(e, i)] goes through [(e', i')]. *)
Definition dec_to (e : VersionEdit) (i : bytes) (e' : VersionEdit) (i' : bytes) : Prop :=
  forall fuel, (length i <= fuel)%nat ->
    exists fuel', (length i' <= fuel')%nat /\ decode_loop fuel e i = decode_loop fuel' e' i'.

Lemma dec_to_refl e i : dec_to e i e i.
Proof. intros fuel Hf. by exists fuel. Qed.

Lemma dec_to_trans e1 i1 e2 i2 e3 i3 : dec_to e1 i1 e2 i2 -> dec_to e2 i2 e3 i3 -> dec_to e1 i1 e3 i3.
Proof.
  intros H1 H2 fuel Hf. destruct (H1 fuel Hf) as (f2 & Hf2 & ->).
  destruct (H2 f2 Hf2) as (f3 & Hf3 & ->). by exists f3.
Qed.

Lemma dec_to_tag e i e' i' : (length i' < length i)%nat -> decode_tag e i = Ret (e', i') ->
  dec_to e i e' i'.
Proof.
  intros Hl Ht fuel Hf. destruct fuel as [|fuel]; [lia|]. exists fuel. split; [lia|].
  cbn [decode_loop]. rewrite bool_decide_false by (intros ->; simpl in Hl; lia). by rewrite Ht.
Qed.

(** Peel one decoded field off the input. *)
Ltac peel := rewrite codec_get_put by first [assumption | unfold fits32, kDeleteFile, kAddFile; lia];
  cbn [res_of_option mbind Res_bind].

Lemma tag_pos t rest : fits32 t -> (length rest < length (PutVarint32 [] t ++ rest))%nat.
Proof. intros H. rewrite length_app. pose proof (length_PutVarint32 t H). lia. Qed.

Lemma dec_to_field (tag : Z) (set : Z -> VersionEdit -> VersionEdit) v e rest :
  (tag = kNextFileNumber /\ set = SetNextFile) \/ (tag = kLastSequence /\ set = SetLastSequence_edit) \/
  (tag = kLogNumber /\ set = SetLogNumber) -> from_option fits64 True v ->
  dec_to e (put_field tag v [] ++ rest) (match v with Some n => set n e | None => e end) rest.
Proof.
  intros Ht Hv. destruct v as [n|]; [|apply dec_to_refl]. simpl in Hv. unfold put_field.
  rewrite PutVarint64_app, <- app_assoc.
  assert (fits32 tag) by (unfold fits32; destruct Ht as [[-> _]|[[-> _]|[-> _]]];
    unfold kNextFileNumber, kLastSequence, kLogNumber; lia).
  apply dec_to_tag.
  - rewrite !length_app. pose proof (tag_pos tag rest ltac:(done)) as Hp. rewrite length_app in Hp. lia.
  - unfold decode_tag. peel.
    destruct Ht as [[-> ->]|[[-> ->]|[-> ->]]]; cbn [Z.eqb Pos.eqb kNextFileNumber kLastSequence kLogNumber]; by peel.
Qed.

Lemma s32_u32 v : fits31 v -> s32 (u32 v) = v /\ fits32 (u32 v).
Proof.
  unfold fits31, fits32, s32, u32. intros H. rewrite Z.mod_small by lia.
  rewrite (proj2 (Z.ltb_lt _ _)) by lia. split; [done|lia].
Qed.

Lemma put_deleted_app out d : put_deleted out d = out ++ put_deleted [] d.
Proof. unfold put_deleted, PutVarint64, PutVarint32. by rewrite <- !app_assoc. Qed.

Lemma put_added_app out a : put_added out a = out ++ put_added [] a.
Proof.
  unfold put_added, PutLengthPrefixedSlice, PutVarint64, PutVarint32. by rewrite <- !app_assoc.
Qed.

Lemma foldl_put {A} (put : bytes -> A -> bytes) (Happ : forall out a, put out a = out ++ put [] a) out l :
  foldl put out l = out ++ concat (map (put []) l).
Proof.
  revert out; induction l as [|a l IH]; intros out; simpl; [by rewrite app_nil_r|].
  by rewrite IH, Happ, <- app_assoc.
Qed.

Lemma dec_to_deleted d e rest : fits31 d.1 -> fits64 d.2 ->
  dec_to e (put_deleted [] d ++ rest) (DeleteFile d.1 d.2 e) rest.
Proof.
  intros Hl Hn. destruct (s32_u32 _ Hl) as [Es Hf]. unfold put_deleted.
  rewrite (PutVarint64_app (PutVarint32 _ _)), (PutVarint32_app (PutVarint32 _ _)), <- !app_assoc.
  apply dec_to_tag.
  - rewrite !length_app. pose proof (length_PutVarint32 kDeleteFile ltac:(unfold fits32, kDeleteFile; lia)). lia.
  - unfold decode_tag. peel. cbn [Z.eqb Pos.eqb kNextFileNumber kLastSequence kLogNumber kDeleteFile].
    peel. peel. by rewrite Es.
Qed.

Lemma dec_to_added a e rest : fits31 a.1 -> meta_fits a.2 ->
  dec_to e (put_added [] a ++ rest) (AddFile a.1 a.2 e) rest.
Proof.
  intros Hl (H1 & H2 & H3 & H4). destruct (s32_u32 _ Hl) as [Es Hf]. unfold put_added.
  rewrite (PutLengthPrefixedSlice_app (PutLengthPrefixedSlice _ _)),
    (PutLengthPrefixedSlice_app (PutVarint64 _ _)), (PutVarint64_app (PutVarint64 _ _)),
    (PutVarint64_app (PutVarint32 _ _)), (PutVarint32_app (PutVarint32 _ _)), <- !app_assoc.
  apply dec_to_tag.
  - rewrite !length_app. pose proof (length_PutVarint32 kAddFile ltac:(unfold fits32, kAddFile; lia)). lia.
  - unfold decode_tag. peel. cbn [Z.eqb Pos.eqb kNextFileNumber kLastSequence kLogNumber kDeleteFile kAddFile].
    do 5 peel. rewrite Es. by destruct a as [? []].
Qed.

Lemma dec_to_list {A} (put : bytes -> A -> bytes) (set : A -> VersionEdit -> VersionEdit) (P : A -> Prop) :
  (forall a e rest, P a -> dec_to e (put [] a ++ rest) (set a e) rest) ->
  forall l e rest, Forall P l ->
    dec_to e (concat (map (put []) l) ++ rest) (foldl (fun e a => set a e) e l) rest.
Proof.
  intros Hput l. induction l as [|a l IH]; intros e rest Hl; [apply dec_to_refl|].
  apply Forall_cons in Hl as [Ha Hl]. cbn [map concat foldl]. rewrite <- app_assoc.
  eapply dec_to_trans; [by apply Hput|]. by apply IH.
Qed.

Lemma put_field_app tag v out : put_field tag v out = out ++ put_field tag v [].
Proof.
  destruct v as [n|]; [|by rewrite app_nil_r].
  unfold put_field, PutVarint64, PutVarint32. by rewrite <- !app_assoc.
Qed.

Lemma Encode_eq e : VersionEdit_Encode e =
  put_field kNextFileNumber (next_file_number e) [] ++ put_field kLastSequence (last_sequence e) [] ++
  put_field kLogNumber (log_number e) [] ++ concat (map (put_deleted []) (deleted_files e)) ++
  concat (map (put_added []) (added_files e)).
Proof.
  unfold VersionEdit_Encode.
  rewrite (foldl_put put_added put_added_app), (foldl_put put_deleted put_deleted_app).
  rewrite (put_field_app kLogNumber), (put_field_app kLastSequence). by rewrite <- !app_assoc.
Qed.

Lemma foldl_added e l :
  foldl (fun e a => AddFile a.1 a.2 e) e l =
    mkVersionEdit (next_file_number e) (last_sequence e) (log_number e) (added_files e ++ l) (deleted_files e).
Proof.
  revert e; induction l as [|[k f] l IH]; intros e; simpl; [by rewrite app_nil_r; destruct e|].
  rewrite IH. simpl. by rewrite <- app_assoc.
Qed.
Lemma foldl_deleted e l :
  foldl (fun e d => DeleteFile d.1 d.2 e) e l =
    mkVersionEdit (next_file_number e) (last_sequence e) (log_number e) (added_files e) (deleted_files e ++ l).
Proof.
  revert e; induction l as [|[k n] l IH]; intros e; simpl; [by rewrite app_nil_r; destruct e|].
  rewrite IH. simpl. by rewrite <- app_assoc.
Qed.

Lemma DecodeFrom_Encode e : edit_ok e -> DecodeFrom VersionEdit_new (VersionEdit_Encode e) = Ret e.
Proof.
  intros [Hn Hs Hl Ha Hd]. unfold DecodeFrom. rewrite Encode_eq.
  set (input := _ ++ _).
  assert (H : dec_to VersionEdit_new input e []).
  { unfold input. rewrite <- (app_nil_r (concat (map (put_added []) _))).
    eapply dec_to_trans; [by apply (dec_to_field kNextFileNumber SetNextFile); [left|]|].
    eapply dec_to_trans; [by apply (dec_to_field kLastSequence SetLastSequence_edit); [right; left|]|].
    eapply dec_to_trans; [by apply (dec_to_field kLogNumber SetLogNumber); [right; right|]|].
    eapply dec_to_trans.
    { apply (dec_to_list put_deleted (fun d => DeleteFile d.1 d.2) (fun d => fits31 d.1 /\ fits64 d.2)); [|done].
      intros ? ? ? []. by apply dec_to_deleted. }
    eapply dec_to_trans.
    { apply (dec_to_list put_added (fun d => AddFile d.1 d.2) (fun a => fits31 a.1 /\ meta_fits a.2)); [|done].
      intros ? ? ? []. by apply dec_to_added. }
    rewrite foldl_added, foldl_deleted.
    replace (mkVersionEdit _ _ _ _ _) with e; [apply dec_to_refl|].
    destruct e as [[?|] [?|] [?|] ? ?]; done. }
  destruct (H (length input) ltac:(lia)) as (fuel & _ & ->). by destruct fuel.
Qed.

(** * Replaying edits *)

Definition levels_ok (e : VersionEdit) : Prop :=
  Forall (fun a => a.1 = 0 \/ a.1 = 1) (added_files e) /\
  Forall (fun d => d.1 = 0 \/ d.1 = 1) (deleted_files e).

(** What an edit does to one level. *)
Definition del_level (k : Z) (ds : list (Z * Z)) (fs : list FileMetaData) : list FileMetaData :=
  foldl (fun fs d => if d.1 =? k then erase_number d.2 fs else fs) fs ds.
Definition add_level (k : Z) (adds : list (Z * FileMetaData)) : list FileMetaData :=
  map snd (filter (fun a => a.1 = k) adds).
Definition edit_level (k : Z) (e : VersionEdit) (fs : list FileMetaData) : list FileMetaData :=
  del_level k (deleted_files e) fs ++ add_level k (added_files e).

Lemma apply_deletes_ok ds : Forall (fun d => d.1 = 0 \/ d.1 = 1) ds -> forall v,
  apply_deletes v ds = Ret (mkVersion (del_level 0 ds (level0 v)) (del_level 1 ds (level1 v))).
Proof.
  induction 1 as [|[k n] ds Hk Hds IH]; intros v; [by destruct v|]. simpl in Hk.
  cbn [apply_deletes fst snd].
  destruct Hk as [->| ->]; unfold level_files, set_level; cbn [Z.eqb Pos.eqb mbind Res_bind]; rewrite IH; done.
Qed.

Lemma insert_file_perm f fs : insert_file f fs ≡ₚ f :: fs.
Proof.
  induction fs as [|g fs IH]; simpl; [done|]. destruct (file_lt f g); [done|].
  rewrite IH. apply Permutation_swap.
Qed.
Lemma sort_files_perm fs : sort_files fs ≡ₚ fs.
Proof. induction fs as [|f fs IH]; simpl; [done|]. by rewrite insert_file_perm, IH. Qed.

Lemma apply_adds_ok sorted adds : Forall (fun a => a.1 = 0 \/ a.1 = 1) adds -> forall v,
  exists v', apply_adds sorted v adds = Ret v' /\ level0 v' = level0 v ++ add_level 0 adds /\
    level1 v' ≡ₚ level1 v ++ add_level 1 adds /\
    (sorted = false -> level1 v' = level1 v ++ add_level 1 adds).
Proof.
  induction 1 as [|[k f] adds Hk Hadds IH]; intros v.
  { exists v. unfold add_level. simpl. by rewrite !app_nil_r. }
  simpl in Hk. cbn [apply_adds fst snd]. unfold level_files, add_level. rewrite !filter_cons. cbn [fst].
  destruct Hk as [->| ->]; cbn [Z.eqb Pos.eqb mbind Res_bind].
  - rewrite andb_false_r, decide_True, decide_False by done. cbn [map snd].
    destruct (IH (set_level v 0 (level0 v ++ [f]))) as (v' & -> & H0 & H1 & H2).
    exists v'. simpl in H0, H1, H2. split; [done|]. split; [by rewrite H0, <- app_assoc|done].
  - rewrite andb_true_r, decide_False, decide_True by done. cbn [map snd].
    set (fs := if sorted then _ else _). destruct (IH (set_level v 1 fs)) as (v' & -> & H0 & H1 & H2).
    exists v'. simpl in H0, H1, H2. split; [done|]. split; [done|].
    assert (Hfs : fs ≡ₚ level1 v ++ [f]) by (subst fs; destruct sorted; [apply sort_files_perm|done]).
    assert (Hcons : forall l, level1 v ++ f :: l = (level1 v ++ [f]) ++ l)
      by (intros; by rewrite <- app_assoc).
    rewrite Hcons. split; [by rewrite H1, Hfs|].
    intros ->. rewrite H2 by done. done.
Qed.

Lemma erase_number_perm n fs fs' : fs ≡ₚ fs' -> erase_number n fs ≡ₚ erase_number n fs'.
Proof. intros H. unfold erase_number. by rewrite H. Qed.

Lemma del_level_perm k ds fs fs' : fs ≡ₚ fs' -> del_level k ds fs ≡ₚ del_level k ds fs'.
Proof.
  unfold del_level. revert fs fs'. induction ds as [|d ds IH]; intros fs fs' H; simpl; [done|].
  apply IH. destruct (d.1 =? k); [by apply erase_number_perm|done].
Qed.

(** The version a list of edits describes, and the counters they set last. *)
Definition replayed (edits : list VersionEdit) : Version :=
  foldl (fun v e => mkVersion (edit_level 0 e (level0 v)) (edit_level 1 e (level1 v))) Version_new edits.
Definition last_set (field : VersionEdit -> option Z) (dflt : Z) (edits : list VersionEdit) : Z :=
  foldl (fun d e => default d (field e)) dflt edits.

Definition edit_logged (e : VersionEdit) : Prop :=
  edit_ok e /\ levels_ok e /\ len32 (VersionEdit_Encode e).
Definition manifest_of (edits : list VersionEdit) : bytes :=
  concat (map (fun e => FrameEdit (VersionEdit_Encode e)) edits).

Definition replay_vs (vs : VersionSet) (edits : list VersionEdit) : VersionSet :=
  mkVersionSet (vs_dbname vs)
    (foldl (fun v e => mkVersion (edit_level 0 e (level0 v)) (edit_level 1 e (level1 v))) (current_ vs) edits)
    (last_set next_file_number (next_file_number_ vs) edits)
    (last_set last_sequence (last_sequence_ vs) edits)
    (last_set log_number (log_number_ vs) edits) (manifest_file_number_ vs).

Lemma replay_edit_ok e vs w : edit_logged e ->
  replay_edit (VersionEdit_Encode e) (vs, w) = (Ret tt, (replay_vs vs [e], w)).
Proof.
  intros (Hok & [Ha Hd] & _). unfold replay_edit. sm_step. rewrite DecodeFrom_Encode by done.
  unfold set_vs. sm_step. rewrite apply_deletes_ok by done.
  destruct (apply_adds_ok false (added_files e) Ha
    (mkVersion (del_level 0 (deleted_files e) (level0 (current_ (replay_counters e vs))))
               (del_level 1 (deleted_files e) (level1 (current_ (replay_counters e vs))))))
    as (v' & -> & H0 & _ & H1).
  do 2 f_equal. unfold with_current, replay_vs, replay_counters, with_counters. cbn. f_equal.
  destruct v' as [l0 l1]. simpl in *. unfold edit_level. by rewrite H0, H1.
Qed.

Lemma replay_vs_cons vs e edits : replay_vs vs (e :: edits) = replay_vs (replay_vs vs [e]) edits.
Proof. done. Qed.

Lemma FrameEdit_eq rec : FrameEdit rec = le_bytes 4 (u32 (Z.of_nat (length rec))) ++ rec.
Proof. done. Qed.

Lemma replay_loop_ok edits : Forall edit_logged edits -> forall fuel vs w,
  (length (manifest_of edits) <= fuel)%nat ->
  replay_loop fuel (manifest_of edits) (vs, w) = (Ret tt, (replay_vs vs edits, w)).
Proof.
  unfold manifest_of. induction 1 as [|e edits He Hedits IH]; intros fuel vs w Hf.
  { by destruct fuel; destruct vs. }
  cbn [map concat] in *. rewrite FrameEdit_eq, <- app_assoc, !length_app, length_le_bytes in *.
  destruct fuel as [|fuel]; [lia|]. cbn [replay_loop].
  rewrite bool_decide_false
    by (intros E; apply (f_equal length) in E; rewrite length_app, length_le_bytes in E; simpl in E; lia).
  rewrite !length_app, length_le_bytes, (proj2 (Nat.ltb_ge _ _)) by lia.
  pose proof He as (_ & _ & Hl). unfold len32 in Hl.
  rewrite DecodeFixed32_put by (apply Z.mod_pos_bound; lia). unfold u32. rewrite Z.mod_small by lia.
  unfold remove_prefix. rewrite drop_le_bytes, length_app, (proj2 (Z.ltb_ge _ _)) by lia.
  rewrite Nat2Z.id, take_app_length, drop_app_length.
  rewrite (SM_bind_Ret _ _ _ _ _ (replay_edit_ok e vs w He)).
  rewrite IH by lia. by rewrite <- replay_vs_cons.
Qed.

(** * Recovery *)

Lemma Basename_loop_no_slash s acc : (forall c, c ∈ s -> c <> slash) -> Basename_loop s acc = acc.
Proof.
  revert acc; induction s as [|c s IH]; intros acc Hs; [done|]. simpl.
  rewrite decide_False by (apply Hs, elem_of_cons; by left). apply IH. intros x Hx.
  apply Hs, elem_of_cons. by right.
Qed.

Lemma Basename_app d s : (forall c, c ∈ s -> c <> slash) -> Basename (d ++ slash :: s) = s.
Proof.
  intros Hs. unfold Basename. generalize (d ++ slash :: s) at 2.
  induction d as [|c d IH]; intros acc; simpl.
  - by apply Basename_loop_no_slash.
  - destruct (decide (c = slash)); apply IH.
Qed.

Definition manifest_1 : bytes := lit "MANIFEST-1".

Lemma ManifestFileName_1 d : ManifestFileName d 1 = d ++ lit "/" ++ manifest_1.
Proof. done. Qed.

Lemma Basename_manifest d : Basename (ManifestFileName d 1) = manifest_1.
Proof.
  rewrite ManifestFileName_1. apply Basename_app. intros c Hc ->.
  apply (bool_decide_unpack (slash ∈ manifest_1)) in Hc || idtac.
  revert Hc. apply (bool_decide_unpack (slash ∉ manifest_1)). vm_compute. exact I.
Qed.

(** The manifest on disk holds exactly [edits], and CURRENT names it. *)
Record manifest_rep (db : bytes) (w : World) (edits : list VersionEdit) : Prop := {
  mr_current : files w !! CurrentFileName db = Some (manifest_1 ++ [Byte.x0a]);
  mr_manifest : files w !! ManifestFileName db 1 = Some (manifest_of edits);
  mr_edits : Forall edit_logged edits
}.

(** The in-memory version is the one the logged edits describe. *)
Record vs_rep (vs : VersionSet) (w : World) (edits : list VersionEdit) : Prop := {
  vr_manifest : manifest_rep (vs_dbname vs) w edits;
  vr_number : manifest_file_number_ vs = 1;
  vr_level0 : level0 (current_ vs) = level0 (replayed edits);
  vr_level1 : level1 (current_ vs) ≡ₚ level1 (replayed edits);
  vr_log : log_number_ vs = last_set log_number 0 edits
}.

Lemma replayed_snoc edits e : replayed (edits ++ [e]) =
  mkVersion (edit_level 0 e (level0 (replayed edits))) (edit_level 1 e (level1 (replayed edits))).
Proof. unfold replayed. by rewrite foldl_app. Qed.

Lemma manifest_of_snoc edits e :
  manifest_of (edits ++ [e]) = manifest_of edits ++ FrameEdit (VersionEdit_Encode e).
Proof. unfold manifest_of. rewrite map_app, concat_app. cbn [map concat]. by rewrite app_nil_r. Qed.

Lemma NewDB_rep db w : no_faults w -> PathExists db w = false ->
  exists w', NewDB (VersionSet_new db, w) = (Ret tt, (VersionSet_new db, w')) /\ no_faults w' /\
    vs_rep (VersionSet_new db) w' [snapshot_edit (VersionSet_new db)] /\
    dirs w' = {[db]} ∪ dirs w /\
    (forall p, p <> CurrentFileName db -> p <> CurrentFileName db ++ lit ".tmp" ->
       p <> ManifestFileName db 1 -> files w' !! p = files w !! p).
Proof.
  intros Hf Hex. assert (Hde : DirExists db w = false).
  { unfold PathExists in Hex. unfold DirExists. by apply orb_false_iff in Hex as [_ ?]. }
  set (w1 := mkWorld (files w) ({[db]} ∪ dirs w) (faults w)).
  assert (E1 : CreateDir db w = (Ret tt, w1)).
  { unfold CreateDir. sm_step. rewrite Hde, next_fault_none by done. sm_step. by rewrite Hex. }
  set (data := FrameEdit (VersionEdit_Encode (snapshot_edit (VersionSet_new db)))).
  set (w2 := set_files (insert (ManifestFileName db 1) data) w1).
  assert (E2 : WriteStringToFile data (ManifestFileName db 1) w1 = (Ret tt, w2))
    by (by apply WriteStringToFile_ok).
  set (cur := manifest_1 ++ [Byte.x0a]).
  set (tmp := CurrentFileName db ++ lit ".tmp").
  set (w3 := set_files (insert tmp cur) w2).
  assert (E3 : WriteStringToFile cur tmp w2 = (Ret tt, w3)) by (by apply WriteStringToFile_ok).
  assert (E4 : RenameFile tmp (CurrentFileName db) w3 =
    (Ret tt, set_files (fun m => <[CurrentFileName db := cur]> (delete tmp m)) w3)).
  { apply RenameFile_ok; [done|]. simpl. by rewrite lookup_insert_eq. }
  exists (set_files (fun m => <[CurrentFileName db := cur]> (delete tmp m)) w3).
  assert (Htmp : tmp <> ManifestFileName db 1).
  { eapply last_ne; [|apply ManifestFileName_1_last|]; [unfold tmp; by apply last_app_lit|done]. }
  split; [|split; [done|split; [|split; [done|]]]].
  - unfold NewDB, WriteSnapshot, WriteCurrentFile, vs_io, zoom, set_vs. sm_step. cbn [vs_dbname VersionSet_new].
    rewrite E1. sm_step.
    change (mkVersionSet (vs_dbname (VersionSet_new db)) Version_new 2 0 0 1) with (VersionSet_new db).
    fold data. rewrite E2. sm_step. cbn [vs_dbname VersionSet_new].
    rewrite Basename_manifest. fold cur. unfold WriteStringToFileAtomic. fold tmp. sm_step.
    rewrite E3. sm_step. by rewrite E4.
  - split; try done. split.
    + simpl. by rewrite lookup_insert_eq.
    + unfold w3, w2. cbn [files set_files]. rewrite lookup_insert_ne by (apply not_eq_sym, Manifest_ne_Current).
      rewrite lookup_delete_ne, lookup_insert_ne, lookup_insert_eq by done.
      unfold manifest_of. cbn [map concat]. by rewrite app_nil_r.
    + apply Forall_singleton. split; [|split; [by split; constructor|]].
      * split; cbn; try (unfold fits64; lia); constructor.
      * vm_compute. reflexivity.
  - intros p H1 H2 H3. simpl. rewrite lookup_insert_ne, lookup_delete_ne, lookup_insert_ne by done.
    by rewrite lookup_insert_ne.
Qed.

(** What [LogAndApply] does in memory, whatever faults occur: the counters are
    merged; the new version is published only if the edit was appended. *)
Lemma LogAndApply_spec vs w e : levels_ok e ->
  exists r vs' w', LogAndApply e (vs, w) = (r, (vs', w')) /\
    touches (ManifestFileName (vs_dbname vs) (manifest_file_number_ vs)) w w' /\
    ((exists er, r = Fail er /\ ok er = false /\ ~ no_faults w /\ vs' = merge_counters e vs) \/
     r = Ret tt /\ exists v, vs' = with_current v (merge_counters e vs) /\
       level0 v = edit_level 0 e (level0 (current_ vs)) /\
       level1 v ≡ₚ edit_level 1 e (level1 (current_ vs)) /\
       (added_files e = [] -> level1 v = edit_level 1 e (level1 (current_ vs)))).
Proof.
  intros [Ha Hd]. set (path := ManifestFileName (vs_dbname vs) (manifest_file_number_ vs)).
  unfold LogAndApply, set_vs, vs_io, zoom. sm_step. rewrite apply_deletes_ok by done.
  destruct (apply_adds_ok true (added_files e) Ha
    (mkVersion (del_level 0 (deleted_files e) (level0 (current_ (merge_counters e vs))))
               (del_level 1 (deleted_files e) (level1 (current_ (merge_counters e vs))))))
    as (v & Ev & Hv0 & Hv1 & _). simpl in Hv0, Hv1. rewrite Ev.
  cbn [vs_dbname manifest_file_number_ merge_counters with_counters]. fold path.
  unfold AppendStringToFile. sm_step.
  destruct (next_fault_cases path w) as (f & w1 & -> & _ & Ht1 & Hn1).
  destruct f as [n|]; sm_step.
  { eexists _, _, w1. split; [reflexivity|]. split; [done|]. left. eexists. split; [done|].
    split; [done|]. split; [|done]. intros H. by specialize (Hn1 H). }
  destruct (next_fault_cases path w1) as (f & w2 & -> & _ & Ht2 & Hn2).
  assert (Ht : touches path w w2) by (by eapply touches_trans).
  destruct f as [n|]; sm_step; (eexists _, _, _; split; [reflexivity|]; split;
    [eapply touches_trans; [exact Ht|apply touches_insert]|]).
  - left. eexists. split; [done|]. split; [done|]. split; [|done]. intros H.
    by specialize (Hn2 (touch_faults _ _ _ Ht1 H)).
  - right. split; [done|]. exists v. split; [done|]. split; [done|]. split; [done|].
    intros Hnil. unfold edit_level. rewrite Hnil in Ev |- *. injection Ev as <-. by rewrite app_nil_r.
Qed.

(** In-memory effect of [LogAndApply], and the log it leaves, without faults. *)
Lemma LogAndApply_rep vs w edits e : no_faults w -> vs_rep vs w edits -> edit_logged e ->
  exists v, LogAndApply e (vs, w) = (Ret tt, (with_current v (merge_counters e vs),
      set_files (insert (ManifestFileName (vs_dbname vs) 1) (manifest_of (edits ++ [e]))) w)) /\
    level0 v = edit_level 0 e (level0 (current_ vs)) /\
    level1 v ≡ₚ edit_level 1 e (level1 (current_ vs)) /\
    vs_rep (with_current v (merge_counters e vs))
      (set_files (insert (ManifestFileName (vs_dbname vs) 1) (manifest_of (edits ++ [e]))) w)
      (edits ++ [e]).
Proof.
  intros Hf [Hman Hn H0 H1 Hlog] He. pose proof He as (_ & [Ha Hd] & _).
  unfold LogAndApply, set_vs, vs_io, zoom. sm_step. rewrite apply_deletes_ok by done.
  destruct (apply_adds_ok true (added_files e) Ha
    (mkVersion (del_level 0 (deleted_files e) (level0 (current_ (merge_counters e vs))))
               (del_level 1 (deleted_files e) (level1 (current_ (merge_counters e vs))))))
    as (v & -> & Hv0 & Hv1 & _). simpl in Hv0, Hv1.
  cbn [vs_dbname manifest_file_number_ merge_counters with_counters]. rewrite Hn.
  rewrite AppendStringToFile_ok by done.
  rewrite (contents_Some _ _ _ (mr_manifest _ _ _ Hman)), <- manifest_of_snoc.
  exists v. split; [done|]. split; [done|]. split; [done|].
  destruct Hman as [Hc Hm Hes]. split; cbn; try done.
  - split; cbn; [|by rewrite lookup_insert_eq|by apply Forall_app; split; [|apply Forall_singleton]].
    by rewrite lookup_insert_ne by apply Manifest_ne_Current.
  - by rewrite replayed_snoc, Hv0, H0.
  - rewrite replayed_snoc. simpl. rewrite Hv1. unfold edit_level. f_equiv.
    by apply del_level_perm.
  - unfold last_set in *. rewrite foldl_app. cbn. rewrite <- Hlog. by destruct (log_number e).
Qed.

Lemma Recover_rep db w edits : no_faults w -> manifest_rep db w edits ->
  exists vs, Recover (VersionSet_new db, w) = (Ret tt, (vs, w)) /\ vs_dbname vs = db /\
    current_ vs = mkVersion (level0 (replayed edits)) (sort_files (level1 (replayed edits))) /\
    manifest_file_number_ vs = 1 /\
    next_file_number_ vs = last_set next_file_number 2 edits /\
    last_sequence_ vs = last_set last_sequence 0 edits /\
    log_number_ vs = last_set log_number 0 edits.
Proof.
  intros Hf [Hc Hm He]. unfold Recover, vs_io, zoom, set_vs. sm_step. cbn [vs_dbname VersionSet_new].
  rewrite (ReadFileToString_ok _ _ _ Hf Hc). sm_step.
  change (strip_eol (manifest_1 ++ [Byte.x0a])) with manifest_1.
  change (after_dash manifest_1) with (Some (lit "1")). change (strtoull (lit "1")) with 1. sm_step.
  rewrite <- ManifestFileName_1, (ReadFileToString_ok _ _ _ Hf Hm). sm_step.
  rewrite (replay_loop_ok edits He) by done. sm_step.
  eexists. split; [reflexivity|]. done.
Qed.

(** * Level 1 is sorted *)

Definition file_le (x y : FileMetaData) : Prop := file_lt y x = false.

Lemma file_lt_asym x y : file_lt x y = true -> file_le x y.
Proof.
  unfold file_le, file_lt. destruct (Slice_compare (ExtractUserKey (smallest x)) _) eqn:E; try done.
  intros _. apply (ord_lt_gt (fun _ => True)) in E; [|done..]. by rewrite E.
Qed.

Lemma file_le_trans x y z : file_le x y -> file_le y z -> file_le x z.
Proof.
  unfold file_le, file_lt. intros H1 H2.
  destruct (Slice_compare (ExtractUserKey (smallest z)) (ExtractUserKey (smallest x))) eqn:E; try done.
  exfalso. assert (Slice_compare (ExtractUserKey (smallest y)) (ExtractUserKey (smallest x)) <> Lt) as H1'
    by (by destruct (Slice_compare (ExtractUserKey (smallest y)) _)).
  assert (Slice_compare (ExtractUserKey (smallest z)) (ExtractUserKey (smallest y)) <> Lt) as H2'
    by (by destruct (Slice_compare (ExtractUserKey (smallest z)) (ExtractUserKey (smallest y)))).
  apply H1'. eapply (ord_le_lt_trans (fun _ => True)); [done..| |exact E].
  intros C. apply H2'. by apply (ord_gt_lt (fun _ => True)).
Qed.

Lemma insert_file_sorted f fs : StronglySorted file_le fs -> StronglySorted file_le (insert_file f fs).
Proof.
  induction 1 as [|g fs Hs IH Hf]; simpl; [by repeat constructor|].
  destruct (file_lt f g) eqn:E.
  - apply file_lt_asym in E. constructor; [by constructor|].
    constructor; [done|]. eapply Forall_impl; [exact Hf|]. intros x. by apply file_le_trans.
  - constructor; [done|]. rewrite insert_file_perm. by constructor.
Qed.

Lemma sort_files_sorted fs : StronglySorted file_le (sort_files fs).
Proof. induction fs as [|f fs IH]; simpl; [constructor|]. by apply insert_file_sorted. Qed.

(** * Reading through a version *)

(** A pure read: faults may be consumed, nothing changes. *)
Record reads (w w' : World) : Prop := {
  rd_files : files w' = files w;
  rd_dirs : dirs w' = dirs w;
  rd_faults : no_faults w -> no_faults w'
}.
Lemma reads_refl w : reads w w.
Proof. done. Qed.
Lemma reads_trans a b c : reads a b -> reads b c -> reads a c.
Proof. intros [] []. split; [congruence..|auto]. Qed.

Lemma next_fault_reads w : exists f w', next_fault w = (Ret f, w') /\ reads w w' /\
  (no_faults w -> f = None).
Proof.
  unfold next_fault, no_faults. destruct w as [m d [|f fs]]; cbn.
  - by eexists _, _.
  - by eexists _, _.
Qed.

(** A read error is a hard error. *)
Definition hard_error (e : Status) : Prop := ok e = false /\ IsNotFound e = false.

Lemma SSTable_Open_spec path file es w : files w !! path = Some file -> sst_rep file es ->
  exists r w', SSTable_Open path w = (r, w') /\ reads w w' /\
    ((exists e, r = Fail e /\ hard_error e /\ ~ no_faults w) \/
     exists t bls idata, r = Ret t /\ es = blks_es bls /\ table_rep t bls idata).
Proof.
  intros Hfile Hrep. destruct (next_fault_reads w) as (f & w1 & E & Hr & Hn).
  set (w0 := mkWorld (files w) (dirs w) []).
  destruct (SSTable_Open_ok path file es w0 eq_refl Hfile Hrep) as (t & bls & idata & E0 & Hes & Ht).
  unfold SSTable_Open in *. revert E0. sm_step. cbn [files w0]. rewrite Hfile. sm_step.
  destruct (length file <? kFooterSize)%nat; [done|]. sm_step.
  rewrite (next_fault_none w0) by done. rewrite E. sm_step.
  destruct (negb _); [done|]. intros [= <-].
  destruct f as [n|]; (eexists _, w1; split; [reflexivity|]; split; [done|]).
  - left. eexists. split; [done|]. split; [done|]. intros H. by specialize (Hn H).
  - right. eexists _, bls, idata. split; [reflexivity|]. done.
Qed.

(** The file [f] of directory [db] is a table holding the run [r]. *)
Record file_rep (db : bytes) (w : World) (f : FileMetaData) (r : list ikv) : Prop := {
  fr_file : exists file, files w !! TableFileName db (fm_number f) = Some file /\ sst_rep file r;
  fr_run : run_wf r;
  fr_smallest : exists e r', r = e :: r' /\ smallest f = e.1;
  fr_largest : largest f = last_key [] r
}.

Lemma file_rep_world db w w' f r : files w' !! TableFileName db (fm_number f) =
  files w !! TableFileName db (fm_number f) -> file_rep db w f r -> file_rep db w' f r.
Proof. intros E [(file & Hf & Hr) H1 H2 H3]. split; [|done..]. exists file. by rewrite E. Qed.

(** A table just built holds its run. *)
Lemma meta_file_rep db w meta n file es : meta_ok meta n file es -> run_wf es -> es <> [] ->
  files w !! TableFileName db n = Some file -> sst_rep file es -> file_rep db w meta es.
Proof.
  intros (En & _ & Hsm & Hlg) Hwf Hne Hf Hr. destruct es as [|e es]; [done|].
  split; [exists file; by rewrite En|done|by exists e, es|done].
Qed.

Lemma ikv_lt_user a b : ikey_wf a.1 -> ikey_wf b.1 -> ikv_cmp a b = Lt ->
  lex (ExtractUserKey a.1) (ExtractUserKey b.1) <> Gt.
Proof.
  intros Ha Hb. unfold ikv_cmp. rewrite CompareInternalKey_wf by done.
  by destruct (lex _ _).
Qed.

(** The metadata bounds every user key of the table. *)
Lemma file_rep_range db w f r e : file_rep db w f r -> e ∈ r ->
  lex (ExtractUserKey (smallest f)) (ExtractUserKey e.1) <> Gt /\
  lex (ExtractUserKey e.1) (ExtractUserKey (largest f)) <> Gt.
Proof.
  intros [_ [Hwf Hs] (e0 & r' & -> & Hsm) Hlg] He.
  apply run_wf_ikeys in Hwf. rewrite Forall_forall in Hwf. rewrite Hsm, Hlg. split.
  - apply elem_of_cons in He as [->|He]; [by rewrite lex_refl|].
    inversion Hs as [|? ? _ Hf]; subst. rewrite Forall_forall in Hf.
    apply ikv_lt_user; [apply Hwf, elem_of_cons; by left|apply Hwf, elem_of_cons; by right|by apply Hf].
  - clear Hsm Hlg. destruct (e0 :: r') as [|x l _] eqn:E using rev_ind; [done|]. clear E.
    rewrite last_key_snoc. apply elem_of_app in He as [He|He%list_elem_of_singleton].
    + apply run_sorted_app in Hs as (_ & _ & Hlt).
      apply ikv_lt_user; [apply Hwf, elem_of_app; by left
        |apply Hwf, elem_of_app; right; by apply list_elem_of_singleton|].
      apply Hlt; [done|by apply list_elem_of_singleton].
    + rewrite He, lex_refl. done.
Qed.

Lemma file_rep_outside db w f r u s : file_rep db w f r ->
  Slice_compare (ExtractUserKey (smallest f)) u = Gt \/
  Slice_compare (ExtractUserKey (largest f)) u = Lt -> lookup_run u s r = None.
Proof.
  intros Hf Hout. unfold lookup_run. rewrite newest_no_user; [done|]. intros e He <-.
  destruct (file_rep_range _ _ _ _ _ Hf He) as [H1 H2]. rewrite !Slice_compare_lex in Hout.
  destruct Hout as [Hout|Hout]; [done|]. apply H2.
  by rewrite (lex_antisym (ExtractUserKey (largest f))), Hout.
Qed.

(** The layers are searched in order; the first one that knows the key answers. *)
Fixpoint first_hit (u : bytes) (s : Z) (runs : list (list ikv)) : option (option bytes) :=
  match runs with
  | [] => None
  | r :: runs => match lookup_run u s r with Some h => Some h | None => first_hit u s runs end
  end.

Lemma first_hit_app u s a b : first_hit u s (a ++ b) =
  match first_hit u s a with Some h => Some h | None => first_hit u s b end.
Proof. induction a as [|r a IH]; simpl; [done|]. by destruct (lookup_run u s r). Qed.

Lemma elem_of_concat {A} (x : A) (ls : list (list A)) : x ∈ concat ls <-> exists l, l ∈ ls /\ x ∈ l.
Proof.
  induction ls as [|l ls IH]; simpl.
  - rewrite elem_of_nil. split; [done|]. intros (l & Hl & _). by apply elem_of_nil in Hl.
  - rewrite elem_of_app, IH. setoid_rewrite elem_of_cons. split.
    + intros [Hx|(l' & Hl & Hx)]; eauto.
    + intros (l' & [->|Hl] & Hx); eauto.
Qed.

(** With newer layers first, searching in order is reading the newest version. *)
Lemma first_hit_concat u s runs : StronglySorted newer_than runs ->
  first_hit u s runs = lookup_run u s (concat runs).
Proof.
  induction 1 as [|r runs Hs IH Hr]; [done|]. simpl. rewrite lookup_run_app, IH; [done|].
  intros a b Ha (l & Hl & Hb)%elem_of_concat. rewrite Forall_forall in Hr. by apply (Hr l Hl).
Qed.

Lemma get_in_files_spec db u s fs : seq56 s -> forall runs w, Forall2 (file_rep db w) fs runs ->
  exists r w', get_in_files db u (MakeLookupKey u s) fs w = (r, w') /\ reads w w' /\
    ((exists e, r = Fail e /\ hard_error e /\ ~ no_faults w) \/ r = Ret (first_hit u s runs)).
Proof.
  intros Hs. induction fs as [|f fs IH]; intros runs w Hall; inversion Hall as [|? r ? runs' Hf Hfs]; subst.
  { eexists _, w. split; [reflexivity|]. split; [done|]. by right. }
  assert (Hskip : forall w', reads w w' -> lookup_run u s r = None ->
    exists r0 w'', get_in_files db u (MakeLookupKey u s) fs w' = (r0, w'') /\ reads w w'' /\
      ((exists e, r0 = Fail e /\ hard_error e /\ ~ no_faults w) \/ r0 = Ret (first_hit u s (r :: runs')))).
  { intros w' Hr Hn. destruct (IH runs' w') as (r0 & w2 & E & Hr2 & Hres).
    { eapply Forall2_impl; [exact Hfs|]. intros ? ?. apply file_rep_world. by rewrite (rd_files _ _ Hr). }
    exists r0, w2. split; [done|]. split; [by eapply reads_trans|]. simpl. rewrite Hn.
    destruct Hres as [(e & -> & He & Hnf)| ->]; [left|by right].
    exists e. split; [done|]. split; [done|]. intros H. apply Hnf. by apply (rd_faults _ _ Hr). }
  cbn [get_in_files].
  destruct (Slice_compare (ExtractUserKey (smallest f)) u) eqn:C1;
    try (apply Hskip; [done|]; eapply file_rep_outside; [exact Hf|by left]);
  (destruct (Slice_compare (ExtractUserKey (largest f)) u) eqn:C2;
    [|by apply Hskip; [|eapply file_rep_outside; [exact Hf|by right]]|]).
  all: destruct (fr_file _ _ _ _ Hf) as (file & Hfile & Hrep);
    destruct (SSTable_Open_spec _ _ _ _ Hfile Hrep) as (ro & w1 & Eo & Hr1 & Ho);
    pose proof (fr_run _ _ _ _ Hf) as [Hwf Hsort]; pose proof (run_wf_ikeys _ Hwf) as Hik;
    unfold mbind, SM_bind, lift; rewrite Eo;
    (destruct Ho as [(e & -> & He & Hnf)|(t & bls & idata & -> & -> & Ht)];
      [eexists _, w1; split; [reflexivity|]; split; [done|]; left; eauto|]);
    rewrite (SSTable_Get_spec t bls idata Ht Hik Hsort u s Hwf Hs);
    (destruct (lookup_run u s (blks_es bls)) as [h|] eqn:El; [|by apply Hskip]);
    eexists _, w1; (split; [reflexivity|]); (split; [done|]); right; simpl; by rewrite El.
Qed.

(** The runs of a version's files, newest first. *)
Definition version_rep (db : bytes) (w : World) (v : Version) (runs0 runs1 : list (list ikv)) : Prop :=
  Forall2 (file_rep db w) (reverse (level0 v)) runs0 /\ Forall2 (file_rep db w) (reverse (level1 v)) runs1.

Definition hit_result (h : option (option bytes)) : Res bytes :=
  match h with Some (Some value) => Ret value | _ => Fail (NotFound []) end.

Lemma Version_Get_spec db u s v runs0 runs1 w : seq56 s -> version_rep db w v runs0 runs1 ->
  exists r w', Version_Get v db u s w = (r, w') /\ reads w w' /\
    ((exists e, r = Fail e /\ hard_error e /\ ~ no_faults w) \/
     r = hit_result (first_hit u s (runs0 ++ runs1))).
Proof.
  intros Hs [H0 H1]. unfold Version_Get, mbind, SM_bind.
  destruct (get_in_files_spec db u s _ Hs _ _ H0) as (r0 & w1 & -> & Hr1 & Ho).
  rewrite first_hit_app.
  destruct Ho as [(e & -> & He & Hnf)| ->].
  { eexists _, w1. split; [reflexivity|]. split; [done|]. left. eauto. }
  destruct (first_hit u s runs0) as [[v0|]|].
  - eexists _, w1. split; [reflexivity|]. split; [done|]. by right.
  - eexists _, w1. split; [reflexivity|]. split; [done|]. by right.
  - destruct (get_in_files_spec db u s (reverse (level1 v)) Hs runs1 w1) as (r1 & w2 & -> & Hr2 & Ho).
    { eapply Forall2_impl; [exact H1|]. intros ? ?. apply file_rep_world. by rewrite (rd_files _ _ Hr1). }
    assert (Hr : reads w w2) by (by eapply reads_trans).
    destruct Ho as [(e & -> & He & Hnf)| ->].
    + eexists _, w2. split; [reflexivity|]. split; [done|]. left. exists e. split; [done|].
      split; [done|]. intros H. apply Hnf. by apply (rd_faults _ _ Hr1).
    + destruct (first_hit u s runs1) as [[v1|]|]; eexists _, w2; (split; [reflexivity|]);
        (split; [done|]); by right.
Qed.

(** * Properties *)

(** Version edits round-trip through their tag encoding: decoding the
    encoding of any edit gives the edit back, all fields, files and deletions in
    order. *)
Theorem version_edit_roundtrip (e : VersionEdit) :
  edit_ok e -> DecodeFrom VersionEdit_new (VersionEdit_Encode e) = Ret e.
Proof. apply DecodeFrom_Encode. Qed.

Definition sample_edit : VersionEdit :=
  SetLogNumber 7 (DeleteFile 0 4 (AddFile 1 (mkFileMetaData 9 300 (lit "aaaaaaaaa") (lit "zzzzzzzzz"))
    (SetLastSequence_edit 1000 VersionEdit_new))).

Lemma version_edit_roundtrip_witness :
  DecodeFrom VersionEdit_new (VersionEdit_Encode sample_edit) = Ret sample_edit.
Proof.
  apply version_edit_roundtrip. unfold sample_edit.
  split; cbn; unfold fits64; try lia; repeat constructor; cbn; unfold fits31, fits64, len32; cbn; lia.
Defined.

(** Log a sequence of edits. *)
Definition log_all (es : list VersionEdit) : VsM unit := for_each es LogAndApply.

(** C23: recovery rebuilds the version that was live.  A fresh database logs any
    sequence of edits; recovering its directory afterwards succeeds and yields the
    same level-0 files in the same order, the same level-1 files sorted by their
    smallest user key, the same log number, and the counters that were logged
    last. *)
Theorem manifest_recovery (db : bytes) (w : World) (es : list VersionEdit) :
  no_faults w -> PathExists db w = false -> Forall edit_logged es ->
  exists vs w' vs', (NewDB ;; log_all es) (VersionSet_new db, w) = (Ret tt, (vs, w')) /\
    Recover (VersionSet_new db, w') = (Ret tt, (vs', w')) /\
    level0 (current_ vs') = level0 (current_ vs) /\
    level1 (current_ vs') ≡ₚ level1 (current_ vs) /\
    StronglySorted file_le (level1 (current_ vs')) /\
    log_number_ vs' = log_number_ vs /\
    last_sequence_ vs' = last_set last_sequence 0 es /\
    next_file_number_ vs' = last_set next_file_number 2 es.
Proof.
  intros Hf Hex Hes. destruct (NewDB_rep db w Hf Hex) as (w1 & E1 & Hf1 & Hrep1 & _).
  set (snap := snapshot_edit (VersionSet_new db)) in *.
  assert (Hlog : forall vs w edits, no_faults w -> vs_rep vs w edits -> vs_dbname vs = db ->
    exists vs' w', log_all es (vs, w) = (Ret tt, (vs', w')) /\ no_faults w' /\ vs_dbname vs' = db /\
      vs_rep vs' w' (edits ++ es)).
  { clear -Hes. unfold log_all. induction Hes as [|e es He Hes IH]; intros vs w edits Hf Hrep Hdb.
    - exists vs, w. by rewrite app_nil_r.
    - destruct (LogAndApply_rep vs w edits e Hf Hrep He) as (v & E & _ & _ & Hrep').
      cbn [for_each]. rewrite (SM_bind_Ret _ _ _ _ _ E).
      destruct (fun H1 H2 => IH _ _ _ H1 Hrep' H2) as (vs' & w' & E' & Hf' & Hdb' & Hrep''); [done|done|].
      exists vs', w'. split; [done|]. split; [done|]. split; [done|].
      by rewrite <- app_assoc in Hrep''. }
  destruct (Hlog _ _ _ Hf1 Hrep1 eq_refl) as (vs & w' & E2 & Hf2 & Hdb & Hrep).
  destruct Hrep as [Hman Hn H0 H1 Hl]. rewrite Hdb in Hman.
  destruct (Recover_rep db w' _ Hf2 Hman) as (vs' & E3 & _ & Hcur & _ & Hnext & Hlast & Hlog').
  exists vs, w', vs'. split; [by rewrite (SM_bind_Ret _ _ _ _ _ E1)|]. split; [done|].
  rewrite Hcur. cbn [level0 level1]. split; [done|]. split; [by rewrite H1, sort_files_perm|].
  split; [apply sort_files_sorted|]. split; [by rewrite Hlog', Hl|]. by rewrite Hnext, Hlast.
Qed.

Lemma manifest_recovery_witness :
  let w := mkWorld ∅ ∅ [] in
  let e2 := AddFile 0 (mkFileMetaData 5 10 (lit "b1234567") (lit "c1234567")) VersionEdit_new in
  exists vs w' vs', (NewDB ;; log_all [sample_edit; e2]) (VersionSet_new (lit "db"), w) = (Ret tt, (vs, w')) /\
    Recover (VersionSet_new (lit "db"), w') = (Ret tt, (vs', w')) /\
    level1 (current_ vs') ≡ₚ level1 (current_ vs) /\ log_number_ vs' = log_number_ vs.
Proof.
  intros w e2.
  destruct (manifest_recovery (lit "db") w [sample_edit; e2])
    as (vs & w' & vs' & E1 & E2 & _ & H1 & _ & H2 & _); [done|done| |by exists vs, w', vs'].
  repeat apply Forall_cons_2; [| |constructor]; (split; [|split]);
    try (vm_compute; reflexivity);
    try (split; apply (bool_decide_unpack _); vm_compute; exact I).
  all: split; cbn; unfold fits64; try lia; repeat constructor;
    cbn; unfold fits31, fits64, len32; cbn; lia.
Defined.
