(* ===== verification/Merge.v ===== *)
(** k-way merge by internal key: the selection step that compaction
    (src/compaction.cpp) and the database iterator (src/db_iter.cpp) share, and
    the sequence the merge produces. *)
From S2P Require Import Prelude Slice Encoding InternalKey Run.

(** The scan [for i in children: if (!valid) continue; if (best < 0 ||
    CompareInternalKey(key_i, key_best) < 0) best = i;], over the current keys. *)
Fixpoint find_smallest (i : nat) (keys : list (option bytes)) (best : option (nat * bytes))
    : option (nat * bytes) :=
  match keys with
  | [] => best
  | None :: keys => find_smallest (S i) keys best
  | Some k :: keys =>
    let best :=
      match best with
      | None => Some (i, k)
      | Some (_, bk) =>
        match CompareInternalKey k bk with Lt => Some (i, k) | _ => best end
      end in
    find_smallest (S i) keys best
  end.

Definition head_key (r : list ikv) : option bytes := fst <$> head r.

(** The merged sequence of sorted runs. *)
Fixpoint kmerge (fuel : nat) (rests : list (list ikv)) : list ikv :=
  match find_smallest 0 (map head_key rests) None with
  | None => []
  | Some (i, _) =>
    match fuel, rests !! i with
    | S fuel, Some (e :: r) => e :: kmerge fuel (<[i := r]> rests)
    | _, _ => []
    end
  end.

(** Keep the first entry of each user key. *)
Fixpoint dedup (last : option bytes) (es : list ikv) : list ikv :=
  match es with
  | [] => []
  | e :: es =>
    if decide (last = Some (ExtractUserKey e.1)) then dedup last es
    else e :: dedup (Some (ExtractUserKey e.1)) es
  end.

(** * The selection *)

Lemma find_smallest_spec keys : Forall (from_option ikey_wf True) keys ->
  forall i best, from_option (fun b : nat * bytes => ikey_wf b.2) True best ->
  match find_smallest i keys best with
  | None => best = None /\ Forall (eq None) keys
  | Some (j, k) =>
    (best = Some (j, k) \/ (i <= j)%nat /\ keys !! (j - i)%nat = Some (Some k)) /\ ikey_wf k /\
    (forall k', Some k' ∈ keys -> CompareInternalKey k k' <> Gt) /\
    (forall b, best = Some b -> CompareInternalKey k b.2 <> Gt)
  end.
Proof.
  induction 1 as [|h keys Hh Hkeys IH]; intros i best Hb; simpl.
  { destruct best as [[j k]|]; [|done]. split; [by left|]. split; [done|]. split.
    - intros k' Hk'. by apply elem_of_nil in Hk'.
    - intros b [= <-]. simpl in *. by rewrite (ord_refl ikey_wf). }
  destruct h as [k|].
  - simpl in Hh.
    set (best' := match best with None => Some (i, k) | Some (_, bk) =>
      match CompareInternalKey k bk with Lt => Some (i, k) | _ => best end end).
    assert (Hb' : from_option (fun b : nat * bytes => ikey_wf b.2) True best').
    { subst best'. destruct best as [[bi bk]|]; [|done]. by destruct (CompareInternalKey k bk). }
    assert (Hle : exists b, best' = Some b /\ CompareInternalKey b.2 k <> Gt /\
      (forall b0, best = Some b0 -> CompareInternalKey b.2 b0.2 <> Gt) /\
      (best = Some b \/ b = (i, k))).
    { subst best'. destruct best as [[bi bk]|].
      - simpl in Hb. destruct (CompareInternalKey k bk) eqn:C; eexists; (split; [reflexivity|]); simpl.
        + split; [by rewrite (ord_eq_sym ikey_wf k bk)|]. split; [|by left].
          intros b0 [= <-]. simpl. by rewrite (ord_refl ikey_wf).
        + split; [by rewrite (ord_refl ikey_wf)|]. split; [|by right].
          intros b0 [= <-]. simpl. by rewrite C.
        + split; [rewrite (proj1 (ord_gt_lt ikey_wf k bk Hh Hb) C); done|]. split; [|by left].
          intros b0 [= <-]. simpl. by rewrite (ord_refl ikey_wf).
      - eexists. split; [reflexivity|]. simpl. split; [by rewrite (ord_refl ikey_wf)|].
        split; [done|by right]. }
    destruct Hle as (b & Eb & Hbk & Hbb & Hbi). specialize (IH (S i) best' Hb').
    destruct (find_smallest (S i) keys best') as [[j k']|]; [|by destruct IH; congruence].
    destruct IH as (Hpos & Hk' & Hall & Hbest). specialize (Hbest b Eb).
    assert (Hbw : ikey_wf b.2) by (by rewrite Eb in Hb').
    split; [|split; [done|split]].
    + destruct Hpos as [Hpos|[Hij Hl]].
      * rewrite Eb in Hpos. injection Hpos as ->. destruct Hbi as [->|Hbi]; [by left|].
        right. injection Hbi as -> ->. split; [lia|]. by rewrite Nat.sub_diag.
      * right. split; [lia|]. replace (j - i)%nat with (S (j - S i)) by lia. done.
    + intros k2 [Hk2|Hk2]%elem_of_cons; [|by apply Hall]. injection Hk2 as ->.
      by apply (ord_trans (P:=ikey_wf) k' b.2 k).
    + intros b0 Hb0. apply (ord_trans (P:=ikey_wf) k' b.2 b0.2); auto.
      by rewrite Hb0 in Hb.
  - specialize (IH (S i) best Hb). destruct (find_smallest (S i) keys best) as [[j k']|].
    + destruct IH as (Hpos & Hk' & Hall & Hbest). split; [|split; [done|split; [|done]]].
      * destruct Hpos as [Hpos|[Hij Hl]]; [by left|]. right. split; [lia|].
        replace (j - i)%nat with (S (j - S i)) by lia. done.
      * intros k2 [Hk2|Hk2]%elem_of_cons; [done|]. by apply Hall.
    + destruct IH as [? ?]. split; [done|]. by constructor.
Qed.

(** Started with nothing selected. *)
Lemma find_smallest_first keys : Forall (from_option ikey_wf True) keys ->
  match find_smallest 0 keys None with
  | None => Forall (eq None) keys
  | Some (j, k) => keys !! j = Some (Some k) /\
      forall k', Some k' ∈ keys -> CompareInternalKey k k' <> Gt
  end.
Proof.
  intros Hk. pose proof (find_smallest_spec keys Hk 0 None I) as H.
  destruct (find_smallest 0 keys None) as [[j k]|]; [|tauto].
  destruct H as ([?|[_ Hj]] & _ & Hall & _); [done|]. rewrite Nat.sub_0_r in Hj. done.
Qed.

(** * The merged sequence *)

Definition runs_ok (rests : list (list ikv)) : Prop :=
  Forall (fun r => Forall (fun e => ikey_wf e.1) r /\ run_sorted r) rests.

Lemma runs_ok_heads rests : runs_ok rests -> Forall (from_option ikey_wf True) (map head_key rests).
Proof.
  intros H. apply Forall_map. eapply Forall_impl; [exact H|]. intros [|e r] [Hw _]; [done|].
  by apply Forall_cons in Hw as [? _].
Qed.

Lemma run_tail_ok (e : ikv) r : Forall (fun e => ikey_wf e.1) (e :: r) /\ run_sorted (e :: r) ->
  Forall (fun e => ikey_wf e.1) r /\ run_sorted r.
Proof. intros [Hw Hs]. apply Forall_cons in Hw as [_ Hw]. by inversion Hs. Qed.

Lemma runs_ok_insert rests i e r : runs_ok rests -> rests !! i = Some (e :: r) ->
  runs_ok (<[i := r]> rests).
Proof.
  intros H Hi. apply Forall_insert; [done|]. apply (run_tail_ok e).
  unfold runs_ok in H. rewrite Forall_lookup in H. by apply (H i).
Qed.

Lemma concat_insert_perm (rests : list (list ikv)) i e r : rests !! i = Some (e :: r) ->
  concat rests ≡ₚ e :: concat (<[i := r]> rests).
Proof.
  intros Hi. pose proof (lookup_lt_Some _ _ _ Hi) as Hlt.
  rewrite insert_take_drop by done. rewrite <- (take_drop_middle _ _ _ Hi) at 1.
  rewrite !concat_app. cbn [concat app]. symmetry. apply Permutation_middle.
Qed.

(** The picked entry and what the selection guarantees. *)
Lemma find_smallest_rests rests : runs_ok rests ->
  match find_smallest 0 (map head_key rests) None with
  | None => concat rests = []
  | Some (i, k) => exists e r, rests !! i = Some (e :: r) /\ e.1 = k /\ ikey_wf e.1 /\
      forall x, x ∈ concat rests -> ikv_cmp e x <> Gt
  end.
Proof.
  intros Hok. pose proof (find_smallest_first _ (runs_ok_heads _ Hok)) as H.
  destruct (find_smallest 0 (map head_key rests) None) as [[i k]|].
  - destruct H as [Hi Hall]. rewrite list_lookup_fmap in Hi.
    destruct (rests !! i) as [[|e r]|] eqn:Er; [done| |done]. injection Hi as <-.
    unfold runs_ok in Hok. rewrite Forall_lookup in Hok.
    destruct (Hok _ _ Er) as [Hw _]. apply Forall_cons in Hw as [He _].
    exists e, r. split; [done|]. split; [done|]. split; [done|].
    intros x Hx. assert (exists l j, rests !! j = Some l /\ x ∈ l) as (l & j & Hj & Hx').
    { clear -Hx. induction rests as [|l rests IH]; [by apply elem_of_nil in Hx|].
      simpl in Hx. apply elem_of_app in Hx as [Hx|Hx]; [by exists l, 0%nat|].
      destruct (IH Hx) as (l' & j & Hj & ?). by exists l', (S j). }
    destruct l as [|h l]; [by apply elem_of_nil in Hx'|].
    destruct (Hok _ _ Hj) as [Hw Hs]. apply Forall_cons in Hw as [Hh Hw]. rewrite Forall_forall in Hw.
    assert (Hle : CompareInternalKey e.1 h.1 <> Gt).
    { apply Hall. apply (list_elem_of_lookup_2 _ j). by rewrite list_lookup_fmap, Hj. }
    apply elem_of_cons in Hx' as [->|Hx']; [done|].
    inversion Hs as [|? ? _ Hf]; subst. rewrite Forall_forall in Hf. specialize (Hf x Hx').
    unfold ikv_cmp in *. apply (ord_trans (P:=ikey_wf) _ h.1); auto. by rewrite Hf.
  - induction rests as [|l rests IH]; [done|]. inversion H as [|? ? Hl Hr]; subst.
    apply Forall_cons in Hok as [_ Hok]. destruct l; [|done]. simpl. by apply IH.
Qed.

Lemma kmerge_perm fuel rests : runs_ok rests -> (length (concat rests) <= fuel)%nat ->
  kmerge fuel rests ≡ₚ concat rests.
Proof.
  revert rests; induction fuel as [|fuel IH]; intros rests Hok Hf; cbn [kmerge];
    pose proof (find_smallest_rests rests Hok) as H;
    destruct (find_smallest 0 (map head_key rests) None) as [[i k]|]; try (by rewrite H).
  - destruct H as (e & r & Hi & _). apply concat_insert_perm in Hi.
    apply Permutation_length in Hi. simpl in Hi. lia.
  - destruct H as (e & r & Hi & _ & _ & _). rewrite Hi.
    pose proof (concat_insert_perm _ _ _ _ Hi) as Hp. rewrite Hp. constructor.
    apply IH; [by eapply runs_ok_insert|]. apply Permutation_length in Hp. simpl in Hp. lia.
Qed.

Lemma kmerge_sorted fuel rests : runs_ok rests -> (length (concat rests) <= fuel)%nat ->
  StronglySorted (fun a b => ikv_cmp a b <> Gt) (kmerge fuel rests).
Proof.
  revert rests; induction fuel as [|fuel IH]; intros rests Hok Hf; cbn [kmerge];
    pose proof (find_smallest_rests rests Hok) as H;
    destruct (find_smallest 0 (map head_key rests) None) as [[i k]|]; try constructor.
  destruct H as (e & r & Hi & _ & _ & Hmin). rewrite Hi.
  pose proof (concat_insert_perm _ _ _ _ Hi) as Hp.
  assert (Hok' : runs_ok (<[i := r]> rests)) by (by eapply runs_ok_insert).
  assert (Hf' : (length (concat (<[i := r]> rests)) <= fuel)%nat)
    by (apply Permutation_length in Hp; simpl in Hp; lia).
  constructor; [by apply IH|]. rewrite (kmerge_perm _ _ Hok' Hf'). apply Forall_forall.
  intros x Hx. apply Hmin. rewrite Hp. apply elem_of_cons. by right.
Qed.

(** With no internal key in two runs, the merge is strictly sorted. *)
Lemma kmerge_run_sorted fuel rests : runs_ok rests -> (length (concat rests) <= fuel)%nat ->
  NoDup (map fst (concat rests)) -> run_sorted (kmerge fuel rests).
Proof.
  intros Hok Hf Hnd. pose proof (kmerge_sorted _ _ Hok Hf) as Hs.
  assert (Hw : Forall (fun e : ikv => ikey_wf e.1) (kmerge fuel rests)).
  { rewrite (kmerge_perm _ _ Hok Hf). apply Forall_concat. eapply Forall_impl; [exact Hok|]. by intros ? []. }
  assert (Hnd' : NoDup (map fst (kmerge fuel rests))) by (by rewrite (kmerge_perm _ _ Hok Hf)).
  clear -Hs Hw Hnd'. unfold run_sorted. induction Hs as [|e l Hs IH Hf]; [constructor|].
  apply Forall_cons in Hw as [He Hw]. cbn [map] in Hnd'. apply NoDup_cons in Hnd' as [Hn Hnd'].
  constructor; [by apply IH|]. rewrite Forall_forall in Hf, Hw |- *. intros x Hx.
  specialize (Hf x Hx). destruct (ikv_cmp e x) eqn:C; try done.
  apply CompareInternalKey_eq in C; [|done|by apply Hw]. destruct Hn. rewrite C.
  by apply list_elem_of_fmap_2.
Qed.

(** * Keeping the newest version of each key *)

Lemma elem_of_dedup es : Forall (fun e => ikey_wf e.1) es -> run_sorted es ->
  forall last x,
  (forall l e, last = Some l -> e ∈ es -> lex l (ExtractUserKey e.1) <> Gt) ->
  x ∈ dedup last es <-> x ∈ es /\ last <> Some (ExtractUserKey x.1) /\
    forall y, y ∈ es -> ExtractUserKey y.1 = ExtractUserKey x.1 -> packed_of y.1 <= packed_of x.1.
Proof.
  intros Hw Hs. unfold run_sorted in Hs. induction Hs as [|e es Hs IH Hf]; intros last x Hlast.
  { simpl. rewrite !elem_of_nil. tauto. }
  apply Forall_cons in Hw as [He Hw]. specialize (IH Hw). rewrite Forall_forall in Hf, Hw.
  (* what the order says of the later entries *)
  assert (Hlater : forall y, y ∈ es -> lex (ExtractUserKey e.1) (ExtractUserKey y.1) <> Gt /\
    (ExtractUserKey y.1 = ExtractUserKey e.1 -> packed_of y.1 < packed_of e.1)).
  { intros y Hy. specialize (Hf y Hy). simpl in Hf. unfold ikv_cmp in Hf.
    rewrite CompareInternalKey_wf in Hf by auto.
    split; [by destruct (lex _ _)|]. intros Eu. rewrite Eu, lex_refl in Hf.
    by rewrite Z.compare_lt_iff in Hf. }
  cbn [dedup]. destruct (decide (last = Some (ExtractUserKey e.1))) as [El|Hne].
  - rewrite IH by (intros l y Hl Hy; eapply Hlast; [exact Hl|apply elem_of_cons; by right]).
    split.
    + intros (Hx & Hxl & Hmax). split; [apply elem_of_cons; by right|]. split; [done|].
      intros y [->|Hy]%elem_of_cons Eu; [|by apply Hmax]. by rewrite <- Eu in Hxl.
    + intros ([->|Hx]%elem_of_cons & Hxl & Hmax); [done|]. split; [done|]. split; [done|].
      intros y Hy. apply Hmax. apply elem_of_cons. by right.
  - rewrite elem_of_cons, IH
      by (intros l y [= <-] Hy; apply (proj1 (Hlater y Hy))). split.
    + intros [->|(Hx & Hxl & Hmax)].
      * split; [apply elem_of_cons; by left|]. split; [done|].
        intros y [->|Hy]%elem_of_cons Eu; [lia|]. apply Z.lt_le_incl. by apply (proj2 (Hlater y Hy)).
      * split; [apply elem_of_cons; by right|]. split.
        -- intros El. specialize (Hlast _ e El ltac:(apply elem_of_cons; by left)).
           destruct (Hlater x Hx) as [Hle _]. apply Hxl. f_equal. apply lex_eq.
           destruct (lex (ExtractUserKey e.1) (ExtractUserKey x.1)) eqn:C; try done.
           rewrite (lex_antisym (ExtractUserKey e.1)), C in Hlast. done.
        -- intros y [->|Hy]%elem_of_cons Eu; [|by apply Hmax]. by rewrite Eu in Hxl.
    + intros ([->|Hx]%elem_of_cons & Hxl & Hmax); [by left|].
      destruct (decide (ExtractUserKey x.1 = ExtractUserKey e.1)) as [Eu|Eu].
      * exfalso. specialize (Hmax e ltac:(apply elem_of_cons; by left) (eq_sym Eu)).
        pose proof (proj2 (Hlater x Hx) Eu). lia.
      * right. split; [done|]. split; [congruence|]. intros y Hy. apply Hmax.
        apply elem_of_cons. by right.
Qed.

Lemma elem_of_dedup_first es x : Forall (fun e => ikey_wf e.1) es -> run_sorted es ->
  x ∈ dedup None es <-> x ∈ es /\
    forall y, y ∈ es -> ExtractUserKey y.1 = ExtractUserKey x.1 -> packed_of y.1 <= packed_of x.1.
Proof. intros Hw Hs. rewrite elem_of_dedup by done. split; [tauto|]. intros []. done. Qed.

Lemma dedup_sublist last es : dedup last es `sublist_of` es.
Proof.
  revert last; induction es as [|e es IH]; intros last; simpl; [done|].
  destruct (decide _); [by apply sublist_cons|by apply sublist_skip].
Qed.

Lemma run_sorted_sublist es es' : es `sublist_of` es' -> run_sorted es' -> run_sorted es.
Proof.
  unfold run_sorted. induction 1 as [|x es es' Hsub IH|x es es' Hsub IH]; intros Hs; [done| |].
  - inversion Hs as [|? ? Hs' Hf]; subst. constructor; [by apply IH|].
    rewrite Forall_forall in *. intros y Hy. apply Hf. by eapply elem_of_sublist.
  - inversion Hs. by apply IH.
Qed.

(** Dropping the older versions is invisible to a reader that sees them all. *)
Lemma newest_dedup u s es : Forall (fun e => ikey_wf e.1) es -> run_sorted es ->
  (forall e, e ∈ es -> ExtractSequence e.1 <= s) ->
  newest u s (dedup None es) = newest u s es.
Proof.
  intros Hw Hs Hall. destruct (newest u s es) as [e|] eqn:E.
  - pose proof (newest_max _ _ _ _ E) as Hmax. apply newest_elem in E as [He Hv].
    assert (Hwd : Forall (fun e : ikv => ikey_wf e.1) (dedup None es))
      by (rewrite Forall_forall in Hw |- *; intros x Hx; apply Hw;
          by eapply elem_of_sublist; [|apply dedup_sublist]).
    apply newest_intro; try done.
    + apply run_keys_unique; [done|]. eapply run_sorted_sublist; [apply dedup_sublist|done].
    + apply elem_of_dedup_first; [done..|]. split; [done|]. intros y Hy Eu.
      apply Hmax; [done|]. split; [by rewrite Eu; apply Hv|by apply Hall].
    + intros e' He'. apply Hmax. by eapply elem_of_sublist; [|apply dedup_sublist].
  - rewrite newest_None in *. intros e He. apply E. by eapply elem_of_sublist; [|apply dedup_sublist].
Qed.
