(* ===== verification/Compaction.v ===== *)
(** Compaction (include/lsmkv/compaction.h, src/compaction.cpp): merge every
    level-0 table and the overlapping level-1 tables into one level-1 table. *)
From S2P Require Import Prelude Status Slice Encoding InternalKey Run Env Block Options SSTable.
From S2P Require Import Version Merge.

Record CompactionResult := mkCompactionResult {
  cr_output : FileMetaData;
  cr_inputs : list (Z * Z)
}.

(** An open table and its iterator. *)
Definition TableIter : Type := SSTable * SSTIter.

Definition open_input (dbname : bytes) (number : Z) : SM World TableIter :=
  t ← SSTable_Open (dbname ++ lit "/" ++ to_string number ++ lit ".sst");
  lift (it ← SSTable_NewIterator t; it ← SSTIter_SeekToFirst t it; Ret (t, it)).

Fixpoint open_inputs (dbname : bytes) (fs : list FileMetaData) : SM World (list TableIter) :=
  match fs with
  | [] => mret []
  | f :: fs =>
    i ← open_input dbname (fm_number f);
    its ← open_inputs dbname fs;
    mret (i :: its)
  end.

(** [smallest_user] and [largest_user] of the level-0 files. *)
Definition widen (acc : option (bytes * bytes)) (f : FileMetaData) : option (bytes * bytes) :=
  let suser := ExtractUserKey (smallest f) in
  let luser := ExtractUserKey (largest f) in
  match acc with
  | None => Some (suser, luser)
  | Some (sm, lg) =>
    Some (if decide (Slice_compare suser sm = Lt) then suser else sm,
          if decide (Slice_compare luser lg = Gt) then luser else lg)
  end.
Definition user_range (fs : list FileMetaData) : bytes * bytes :=
  default ([], []) (foldl widen None fs).

Definition overlapping (fs : list FileMetaData) (range : bytes * bytes) : list FileMetaData :=
  filter (fun f => FileOverlapsRange f range.1 range.2 = true) fs.

(** The key under a valid iterator. *)
Definition input_key (i : TableIter) : option bytes :=
  match si_data i.2 with
  | Some (_, di) => if bi_valid di then Some (bi_key di) else None
  | None => None
  end.

(** The merge loop; [last] is [last_user] with its flag. *)
Fixpoint merge_loop (fuel : nat) (iters : list TableIter) (last : option bytes) : SbM unit :=
  match find_smallest 0 (map input_key iters) None with
  | None => mret tt
  | Some (best, _) =>
    match fuel with
    | O => lift Stuck
    | S fuel =>
      '(t, it) ← lift (deref (iters !! best));
      e ← lift (SSTIter_entry it);
      let user := ExtractUserKey e.1 in
      last ← (if decide (last = Some user) then mret last
              else SSTableBuilder_Add e.1 e.2 ;; mret (Some user));
      it ← lift (SSTIter_Next t it);
      merge_loop fuel (<[best := (t, it)]> iters) last
    end
  end.

(** Every entry takes at least one byte of its file. *)
Definition merge_fuel (iters : list TableIter) : nat :=
  sum_list_with (fun i : TableIter => length (file_data_ i.1)) iters.

(** The builder's life: opened, fed by the merge, finished. *)
Definition write_merged (options : Options) (path : bytes) (number : Z) (iters : list TableIter)
    : SM World FileMetaData := fun w =>
  let '(r, s) :=
    (SSTableBuilder_Open ;; merge_loop (merge_fuel iters) iters None ;; SSTableBuilder_Finish)
      (SSTableBuilder_new options path, w) in
  (meta ← r; Ret (mkFileMetaData number (file_size meta) (smallest meta) (largest meta)), s.2).

Definition CompactLevel0 (options : Options) (dbname : bytes) (current : Version)
    (output_number : Z) : SM World CompactionResult :=
  iters0 ← open_inputs dbname (level0 current);
  let over := overlapping (level1 current) (user_range (level0 current)) in
  iters1 ← open_inputs dbname over;
  let inputs := map (fun f => (0, fm_number f)) (level0 current)
                ++ map (fun f => (1, fm_number f)) over in
  let out_path := dbname ++ lit "/" ++ to_string output_number ++ lit ".sst" in
  output ← write_merged options out_path output_number (iters0 ++ iters1);
  mret (mkCompactionResult output inputs).

(** * The merge loop writes the merged, deduplicated sequence *)

Definition iter_rep (i : TableIter) (rest : list ikv) : Prop :=
  exists bls idata, table_rep i.1 bls idata /\ Forall (fun e => ikey_wf e.1) (blks_es bls) /\
    run_sorted (blks_es bls) /\ sit_at bls i.2 rest.

Lemma iter_rep_key i rest : iter_rep i rest -> input_key i = head_key rest.
Proof.
  intros (bls & idata & _ & _ & _ & Hat). destruct rest as [|e rest].
  - destruct Hat as [_ [Hv _]]. unfold SSTIter_Valid in Hv. unfold input_key.
    destruct (si_data i.2) as [[b di]|]; [by rewrite Hv|done].
  - destruct (sit_at_cons _ _ _ _ Hat) as [Hv He]. unfold SSTIter_Valid in Hv.
    unfold SSTIter_entry in He. unfold input_key.
    destruct (si_data i.2) as [[b di]|]; [|done]. rewrite Hv. by injection He as <-.
Qed.

Lemma iter_rep_step i e rest : iter_rep i (e :: rest) ->
  SSTIter_entry i.2 = Ret e /\
  exists it', SSTIter_Next i.1 i.2 = Ret it' /\ iter_rep (i.1, it') rest.
Proof.
  intros (bls & idata & Ht & Hw & Hs & Hat).
  destruct (sit_at_cons _ _ _ _ Hat) as [_ He]. split; [done|].
  destruct (SSTIter_Next_spec i.1 bls idata Ht Hw Hs i.2 e rest Hat) as (it' & E & Hat').
  exists it'. split; [done|]. by exists bls, idata.
Qed.

Lemma iter_rep_keys iters rests : Forall2 iter_rep iters rests ->
  map input_key iters = map head_key rests.
Proof.
  induction 1 as [|i r iters rests Hi Hr IH]; [done|]. simpl. by rewrite IH, (iter_rep_key _ _ Hi).
Qed.

Lemma merge_loop_spec fuel : forall iters rests last s, Forall2 iter_rep iters rests ->
  runs_ok rests -> (length (concat rests) <= fuel)%nat ->
  merge_loop fuel iters last s =
    for_each (dedup last (kmerge fuel rests)) (fun e : ikv => SSTableBuilder_Add e.1 e.2) s.
Proof.
  induction fuel as [|fuel IH]; intros iters rests last s Hrep Hok Hf;
    cbn [merge_loop kmerge]; rewrite (iter_rep_keys _ _ Hrep);
    pose proof (find_smallest_rests rests Hok) as H;
    destruct (find_smallest 0 (map head_key rests) None) as [[best k]|]; try done;
    destruct H as (e & r & Hi & _).
  { apply concat_insert_perm, Permutation_length in Hi. simpl in Hi. lia. }
  pose proof (Forall2_lookup_r _ _ _ _ _ Hrep Hi) as (i & Hit & Hir).
  destruct (iter_rep_step i e r Hir) as (He & it' & En & Hir').
  unfold TableIter in *. rewrite Hit, Hi. destruct i as [t it]. cbn [fst snd] in *. sm_step. cbn [deref]. rewrite He.
  assert (Hgo : forall last s, merge_loop fuel (<[best := (t, it')]> iters) last s =
    for_each (dedup last (kmerge fuel (<[best := r]> rests)))
      (fun e : ikv => SSTableBuilder_Add e.1 e.2) s).
  { intros last' s'. apply IH.
    - apply Forall2_insert; done.
    - by eapply runs_ok_insert.
    - apply concat_insert_perm, Permutation_length in Hi. simpl in Hi. lia. }
  cbn [dedup]. destruct (decide (last = Some (ExtractUserKey e.1))).
  - rewrite En. apply Hgo.
  - cbn [for_each]. sm_step. destruct (SSTableBuilder_Add e.1 e.2 s) as [[[]|er|] s']; [|done..].
    rewrite En. apply Hgo.
Qed.

Lemma concat_length_le rests iters : Forall2 (fun (i : TableIter) (r : list ikv) => (length r <= length (file_data_ i.1))%nat) iters rests ->
  (length (concat rests) <= merge_fuel iters)%nat.
Proof.
  unfold merge_fuel. induction 1 as [|i r iters rests Hi Hr IH]; [done|].
  simpl. rewrite length_app. simpl in Hi. lia.
Qed.

(** * Opening the inputs *)

Lemma open_input_spec db w f r : file_rep db w f r ->
  exists res w', open_input db (fm_number f) w = (res, w') /\ reads w w' /\
    ((exists e, res = Fail e /\ hard_error e /\ ~ no_faults w) \/
     exists i, res = Ret i /\ iter_rep i r /\ (length r <= length (file_data_ i.1))%nat).
Proof.
  intros Hf. destruct (fr_file _ _ _ _ Hf) as (file & Hfile & Hrep).
  pose proof (fr_run _ _ _ _ Hf) as [Hwf Hs]. apply run_wf_ikeys in Hwf.
  destruct (SSTable_Open_spec _ _ _ _ Hfile Hrep) as (ro & w1 & Eo & Hr & Ho).
  unfold open_input. unfold TableFileName in Eo. sm_step. rewrite Eo.
  destruct Ho as [(e & -> & He & Hnf)|(t & bls & idata & -> & -> & Ht)].
  { eexists _, w1. split; [reflexivity|]. split; [done|]. left. eauto. }
  destruct (NewIterator_spec t bls idata Ht) as (ib & it & ibuf & irs & E1 & Hi & Hst & _ & Hib).
  destruct (SSTIter_SeekToFirst_spec t bls idata Ht Hwf Hs it) as (it' & E2 & Hat).
  { split; [done|]. exists ib, (BlockIter_new ib), ibuf, irs. split; [done|]. split; [apply Hib|done]. }
  unfold Res_bind. rewrite E1, E2. eexists _, w1. split; [reflexivity|]. split; [done|]. right.
  eexists. split; [reflexivity|]. split; [by exists bls, idata|]. apply (tr_count _ _ _ Ht).
Qed.

Lemma open_inputs_spec db fs : forall w runs, Forall2 (file_rep db w) fs runs ->
  exists res w', open_inputs db fs w = (res, w') /\ reads w w' /\
    ((exists e, res = Fail e /\ hard_error e /\ ~ no_faults w) \/
     exists its, res = Ret its /\ Forall2 iter_rep its runs /\
       Forall2 (fun (i : TableIter) (r : list ikv) => (length r <= length (file_data_ i.1))%nat) its runs).
Proof.
  induction fs as [|f fs IH]; intros w runs Hall; inversion Hall as [|? r ? runs' Hf Hfs]; subst.
  { eexists _, w. split; [reflexivity|]. split; [done|]. right. eexists. by split. }
  cbn [open_inputs]. destruct (open_input_spec db w f r Hf) as (r1 & w1 & E1 & Hr1 & Ho1). sm_step.
  rewrite E1. destruct Ho1 as [(e & -> & He & Hnf)|(i & -> & Hi & Hl)].
  { eexists _, w1. split; [reflexivity|]. split; [done|]. left. eauto. }
  destruct (IH w1 runs') as (r2 & w2 & E2 & Hr2 & Ho2).
  { eapply Forall2_impl; [exact Hfs|]. intros ? ?. apply file_rep_world. by rewrite (rd_files _ _ Hr1). }
  rewrite E2. assert (Hr : reads w w2) by (by eapply reads_trans).
  destruct Ho2 as [(e & -> & He & Hnf)|(its & -> & His & Hls)].
  - eexists _, w2. split; [reflexivity|]. split; [done|]. left. exists e. split; [done|].
    split; [done|]. intros H. apply Hnf. by apply (rd_faults _ _ Hr1).
  - eexists _, w2. split; [reflexivity|]. split; [done|]. right. eexists. split; [reflexivity|].
    split; by constructor.
Qed.

(** * The output *)

(** The sequence written for input runs [runs]. *)
Definition compacted (runs : list (list ikv)) : list ikv :=
  dedup None (kmerge (length (concat runs)) runs).

Lemma kmerge_fuel fuel fuel' rests : runs_ok rests -> (length (concat rests) <= fuel)%nat ->
  (length (concat rests) <= fuel')%nat -> kmerge fuel rests = kmerge fuel' rests.
Proof.
  revert fuel' rests; induction fuel as [|fuel IH]; intros fuel' rests Hok Hf Hf';
    pose proof (find_smallest_rests rests Hok) as H; destruct fuel' as [|fuel']; cbn [kmerge];
    destruct (find_smallest 0 (map head_key rests) None) as [[i k]|]; try done;
    destruct H as (e & r & Hi & _); pose proof (concat_insert_perm _ _ _ _ Hi) as Hp;
    apply Permutation_length in Hp; simpl in Hp; try lia.
  rewrite Hi. f_equal. apply IH; [by eapply runs_ok_insert|lia..].
Qed.

(** Building a table through the merge loop is building it from [compacted]. *)
Lemma build_merged options path number iters runs w : Forall2 iter_rep iters runs -> runs_ok runs ->
  Forall2 (fun (i : TableIter) (r : list ikv) => (length r <= length (file_data_ i.1))%nat) iters runs ->
  write_merged options path number iters w = build_table options path number (compacted runs) w.
Proof.
  intros Hrep Hok Hl. pose proof (concat_length_le _ _ Hl) as Hf.
  unfold write_merged, build_table.
  assert (forall s, (merge_loop (merge_fuel iters) iters None ;; SSTableBuilder_Finish) s =
    (for_each (compacted runs) (fun e : ikv => SSTableBuilder_Add e.1 e.2) ;; SSTableBuilder_Finish) s) as Heq.
  { intros s. sm_step. rewrite (merge_loop_spec _ _ runs None s Hrep Hok Hf). unfold compacted.
    by rewrite (kmerge_fuel (merge_fuel iters) (length (concat runs)) runs Hok Hf (le_n _)). }
  cbv beta delta [mbind SM_bind] in Heq |- *.
  destruct (SSTableBuilder_Open (SSTableBuilder_new options path, w)) as [[[]|e|] s']; [|done..].
  by rewrite Heq.
Qed.

(** * What the output holds *)

Lemma runs_wf_ok runs : Forall run_wf runs -> runs_ok runs.
Proof.
  intros H. eapply Forall_impl; [exact H|]. intros r [Hw Hs]. split; [by apply run_wf_ikeys|done].
Qed.

Lemma compacted_elem runs e : Forall run_wf runs -> e ∈ compacted runs -> e ∈ concat runs.
Proof.
  intros Hwf He. rewrite <- (kmerge_perm (length (concat runs)) runs) by (done || by apply runs_wf_ok).
  eapply elem_of_sublist; [exact He|apply dedup_sublist].
Qed.

Lemma concat_wf runs : Forall run_wf runs -> Forall ikv_wf (concat runs).
Proof. intros H. apply Forall_concat. eapply Forall_impl; [exact H|]. by intros r []. Qed.

Lemma merged_sorted runs : Forall run_wf runs -> NoDup (map fst (concat runs)) ->
  run_sorted (kmerge (length (concat runs)) runs).
Proof. intros Hwf Hnd. apply kmerge_run_sorted; [by apply runs_wf_ok|done..]. Qed.

Lemma compacted_run_wf runs : Forall run_wf runs -> NoDup (map fst (concat runs)) ->
  run_wf (compacted runs).
Proof.
  intros Hwf Hnd. split.
  - apply Forall_forall. intros e He. apply compacted_elem in He; [|done].
    pose proof (concat_wf _ Hwf) as H. rewrite Forall_forall in H. auto.
  - eapply run_sorted_sublist; [apply dedup_sublist|]. by apply merged_sorted.
Qed.

Lemma keys_nodup_unique (es : list ikv) : NoDup (map fst es) -> keys_unique es.
Proof.
  intros Hnd a b Ha Hb E. induction es as [|e es IH]; [by apply elem_of_nil in Ha|].
  cbn [map] in Hnd. apply NoDup_cons in Hnd as [Hn Hnd].
  apply elem_of_cons in Ha as [->|Ha], Hb as [->|Hb]; [done|..|auto]; destruct Hn.
  - rewrite E. by apply list_elem_of_fmap_2.
  - rewrite <- E. by apply list_elem_of_fmap_2.
Qed.

(** Reads that see every version are not affected by compaction. *)
Lemma compacted_newest u s runs : Forall run_wf runs -> NoDup (map fst (concat runs)) ->
  (forall e, e ∈ concat runs -> ExtractSequence e.1 <= s) ->
  newest u s (compacted runs) = newest u s (concat runs).
Proof.
  intros Hwf Hnd Hseq. pose proof (concat_wf _ Hwf) as Hall. apply run_wf_ikeys in Hall.
  pose proof (kmerge_perm (length (concat runs)) runs (runs_wf_ok _ Hwf) (le_n _)) as Hp.
  unfold compacted. rewrite newest_dedup.
  - symmetry. apply newest_set; [done|by apply keys_nodup_unique|]. intros e. by rewrite Hp.
  - by rewrite Hp.
  - by apply merged_sorted.
  - intros e. rewrite Hp. apply Hseq.
Qed.

Lemma sublist_weight es es' : es `sublist_of` es' -> (run_weight es <= run_weight es')%nat.
Proof. unfold run_weight. induction 1; simpl; lia. Qed.

#[global] Instance run_weight_Proper : Proper ((≡ₚ) ==> eq) run_weight.
Proof. intros l l' H. unfold run_weight. by rewrite H. Qed.

Lemma compacted_weight runs : Forall run_wf runs ->
  (run_weight (compacted runs) <= run_weight (concat runs))%nat.
Proof.
  intros Hwf. rewrite <- (kmerge_perm (length (concat runs)) runs (runs_wf_ok _ Hwf) (le_n _)).
  apply sublist_weight, dedup_sublist.
Qed.

Lemma compacted_nonempty runs : Forall run_wf runs -> concat runs <> [] -> compacted runs <> [].
Proof.
  intros Hwf Hne. unfold compacted.
  pose proof (kmerge_perm (length (concat runs)) runs (runs_wf_ok _ Hwf) (le_n _)) as Hp.
  destruct (kmerge (length (concat runs)) runs) as [|e es]; [|done].
  by apply Permutation_nil_l in Hp.
Qed.

(** * Compaction as a whole *)

Lemma Forall2_map_r {A B C} (P : A -> B -> Prop) (f : C -> B) (g : C -> A) l :
  (forall x, x ∈ l -> P (g x) (f x)) -> Forall2 P (map g l) (map f l).
Proof.
  intros H. induction l as [|x l IH]; [constructor|]. simpl. constructor.
  - apply H, elem_of_cons. by left.
  - apply IH. intros y Hy. apply H, elem_of_cons. by right.
Qed.

(** The inputs of a compaction of [v], in the order they are opened. *)
Definition inputs_of (v : Version) : list FileMetaData :=
  level0 v ++ overlapping (level1 v) (user_range (level0 v)).

(** [rho] gives the run each file holds. *)
Lemma CompactLevel0_spec options db v number w (rho : Z -> list ikv) :
  options_ok options ->
  (forall f, f ∈ level0 v ++ level1 v -> file_rep db w f (rho (fm_number f))) ->
  let runs := map (fun f => rho (fm_number f)) (inputs_of v) in
  exists r w', CompactLevel0 options db v number w = (r, w') /\
    touches (TableFileName db number) w w' /\
    ((exists e, r = Fail e /\ ok e = false /\ ~ no_faults w) \/
     exists res file, r = Ret res /\ files w' !! TableFileName db number = Some file /\
       meta_ok (cr_output res) number file (compacted runs) /\
       cr_inputs res = map (fun f => (0, fm_number f)) (level0 v) ++
         map (fun f => (1, fm_number f)) (overlapping (level1 v) (user_range (level0 v))) /\
       (len32 file -> sst_rep file (compacted runs)) /\
       (length file <= run_weight (compacted runs) + 40)%nat).
Proof.
  intros Ho Hfiles runs. unfold CompactLevel0. sm_step.
  set (over := overlapping (level1 v) (user_range (level0 v))) in *.
  set (rf := fun f => rho (fm_number f)) in *.
  assert (Hover : forall f, f ∈ over -> f ∈ level0 v ++ level1 v).
  { intros f Hf. apply list_elem_of_filter in Hf as [_ Hf]. apply elem_of_app. by right. }
  assert (H0 : Forall2 (file_rep db w) (level0 v) (map rf (level0 v))).
  { rewrite <- (map_id (level0 v)) at 1. apply Forall2_map_r. intros f Hf. apply Hfiles, elem_of_app. by left. }
  assert (H1 : Forall2 (file_rep db w) over (map rf over)).
  { rewrite <- (map_id over) at 1. apply Forall2_map_r. intros f Hf. by apply Hfiles, Hover. }
  assert (Hwf : Forall run_wf runs).
  { unfold runs, inputs_of. fold over. apply Forall_map, Forall_forall. intros f [Hf|Hf]%elem_of_app.
    - apply (fr_run db w f), Hfiles, elem_of_app. by left.
    - apply (fr_run db w f), Hfiles, Hover. done. }
  assert (Hreads : forall a b, reads a b -> touches (TableFileName db number) a b).
  { intros a b [Hf Hd Hn]. split; [done| |done]. intros p _. by rewrite Hf. }
  destruct (open_inputs_spec db _ _ _ H0) as (r0 & w0 & -> & Hr0 & Hres0).
  destruct Hres0 as [(e & -> & [He _] & Hnf)|(is0 & -> & Hi0 & Hl0)].
  { eexists _, w0. split; [reflexivity|]. split; [by apply Hreads|]. left. eauto. }
  assert (H1' : Forall2 (file_rep db w0) over (map rf over)).
  { eapply Forall2_impl; [exact H1|]. intros ? ?. apply file_rep_world. by rewrite (rd_files _ _ Hr0). }
  destruct (open_inputs_spec db _ _ _ H1') as (r1 & w1 & -> & Hr1 & Hres1).
  assert (Hr01 : reads w w1) by (by eapply reads_trans).
  destruct Hres1 as [(e & -> & [He _] & Hnf)|(is1 & -> & Hi1 & Hl1)].
  { eexists _, w1. split; [reflexivity|]. split; [by apply Hreads|]. left. exists e. split; [done|].
    split; [done|]. intros H. apply Hnf. by apply (rd_faults _ _ Hr0). }
  assert (Hruns : runs = map rf (level0 v) ++ map rf over) by (unfold runs, inputs_of; by rewrite map_app).
  rewrite (build_merged options _ number (is0 ++ is1) runs w1);
    [|rewrite Hruns; by apply Forall2_app|by apply runs_wf_ok|rewrite Hruns; by apply Forall2_app].
  destruct (build_table_spec options (TableFileName db number) number (compacted runs) w1 Ho)
    as (rb & w2 & Eb & Ht & Hb).
  { apply Forall_forall. intros e He. apply compacted_elem in He; [|done].
    pose proof (concat_wf _ Hwf) as H. rewrite Forall_forall in H. by destruct (H e He). }
  unfold TableFileName in Eb at 1. rewrite Eb.
  assert (Htw : touches (TableFileName db number) w w2).
  { eapply touches_trans; [|exact Ht]. by apply Hreads. }
  destruct Hb as [(e & -> & He & Hnf)|(meta & file & -> & Hf & Hm & Hs & Hsz)].
  - eexists _, w2. split; [reflexivity|]. split; [done|]. left. exists e. split; [done|].
    split; [done|]. intros H. apply Hnf. by apply (rd_faults _ _ Hr01).
  - eexists _, w2. split; [reflexivity|]. split; [done|]. right. eexists _, file.
    split; [reflexivity|]. by repeat (split; [done|]).
Qed.

(** * Which level-1 tables take part *)

Definition within (range : bytes * bytes) (f : FileMetaData) : Prop :=
  lex range.1 (ExtractUserKey (smallest f)) <> Gt /\ lex (ExtractUserKey (largest f)) range.2 <> Gt.

Lemma widen_within acc f : exists r, widen acc f = Some r /\ within r f /\
  forall r0 g, acc = Some r0 -> within r0 g -> within r g.
Proof.
  unfold widen, within. destruct acc as [[sm lg]|].
  - eexists. split; [reflexivity|]. cbn [fst snd]. rewrite !Slice_compare_lex. split.
    + split; (destruct (decide _) as [C|C]; [by rewrite lex_refl|]).
      * intros E. apply C. by rewrite lex_antisym, E.
      * done.
    + intros r0 g [= <-] [H1 H2]. simpl in H1, H2. split; (destruct (decide _) as [C|C]; [|done]).
      * eapply lex_trans; [|exact H1]. by rewrite C.
      * eapply lex_trans; [exact H2|]. rewrite lex_antisym, C. done.
  - eexists. split; [reflexivity|]. cbn [fst snd]. rewrite !lex_refl. done.
Qed.

Lemma user_range_within fs f : f ∈ fs -> within (user_range fs) f.
Proof.
  unfold user_range. induction fs as [|x fs IH] using rev_ind; intros Hf.
  { by apply elem_of_nil in Hf. }
  rewrite foldl_app. cbn [foldl].
  destruct (widen_within (foldl widen None fs) x) as (r & -> & Hx & Hold). cbn [default from_option].
  apply elem_of_app in Hf as [Hf|Hf%list_elem_of_singleton]; [|by subst x].
  specialize (IH Hf). destruct (foldl widen None fs) as [r0|] eqn:E.
  - by apply (Hold r0).
  - (* a non-empty prefix has a range *)
    exfalso. destruct fs as [|y fs0 _] using rev_ind; [by apply elem_of_nil in Hf|].
    rewrite foldl_app in E. cbn [foldl] in E.
    destruct (widen_within (foldl widen None fs0) y) as (r1 & E1 & _). congruence.
Qed.

(** A table that does not overlap the range shares no user key with one inside it. *)
Lemma not_overlapping_disjoint db w f g r r' range e e' : file_rep db w f r -> file_rep db w g r' ->
  within range f -> FileOverlapsRange g range.1 range.2 = false -> e ∈ r -> e' ∈ r' ->
  ExtractUserKey e.1 <> ExtractUserKey e'.1.
Proof.
  intros Hf Hg [H1 H2] Hno He He' E.
  destruct (file_rep_range _ _ _ _ _ Hf He) as [F1 F2].
  destruct (file_rep_range _ _ _ _ _ Hg He') as [G1 G2]. rewrite <- E in G1, G2.
  unfold FileOverlapsRange in Hno. rewrite !Slice_compare_lex in Hno.
  assert (L1 : lex range.1 (ExtractUserKey (largest g)) <> Gt)
    by (eapply lex_trans; [exact H1|]; eapply lex_trans; [exact F1|exact G2]).
  assert (L2 : lex (ExtractUserKey (smallest g)) range.2 <> Gt)
    by (eapply lex_trans; [exact G1|]; eapply lex_trans; [exact F2|exact H2]).
  destruct (lex (ExtractUserKey (largest g)) range.1) eqn:C.
  - by destruct (lex (ExtractUserKey (smallest g)) range.2).
  - rewrite (lex_antisym (ExtractUserKey (largest g))), C in L1. done.
  - by destruct (lex (ExtractUserKey (smallest g)) range.2).
Qed.

(** * Each user key once *)

Definition user (e : ikv) : bytes := ExtractUserKey e.1.

Lemma compacted_users runs : Forall run_wf runs -> NoDup (map fst (concat runs)) ->
  NoDup (map user (compacted runs)).
Proof.
  intros Hwf Hnd. pose proof (merged_sorted _ Hwf Hnd) as Hs.
  pose proof (compacted_run_wf _ Hwf Hnd) as [Hcw Hcs]. apply run_wf_ikeys in Hcw.
  pose proof (kmerge_perm (length (concat runs)) runs (runs_wf_ok _ Hwf) (le_n _)) as Hp.
  assert (Hw : Forall (fun e => ikey_wf e.1) (kmerge (length (concat runs)) runs))
    by (rewrite Hp; by apply run_wf_ikeys, concat_wf).
  assert (Hu : keys_unique (compacted runs)) by (by apply run_keys_unique).
  apply NoDup_fmap_2_strong.
  - intros x y Hx Hy E. apply Hu; [done..|]. rewrite Forall_forall in Hcw.
    pose proof Hx as Hx'. pose proof Hy as Hy'. unfold compacted in Hx', Hy'.
    rewrite elem_of_dedup_first in Hx', Hy' by done. destruct Hx' as [Hxe Hxm], Hy' as [Hye Hym].
    apply ikey_inj; [by apply Hcw..|done|]. specialize (Hxm y Hye (eq_sym E)). specialize (Hym x Hxe E). lia.
  - eapply sublist_NoDup; [|apply dedup_sublist]. rewrite Hp. by apply (NoDup_fmap_1 fst).
Qed.

(** C21: compaction keeps exactly what readers of the latest state see.  Without
    I/O faults, [CompactLevel0] merges every level-0 table and every level-1 table
    overlapping their range into one sorted table that holds each user key once,
    and in which every key has the version it had in the inputs taken together (a
    tombstone included); the inputs are reported for deletion, and no table left
    in level 1 shares a user key with a level-0 input. *)
Theorem compaction_keeps_newest (options : Options) (db : bytes) (v : Version) (number : Z) (w : World)
    (rho : Z -> list ikv) :
  let inputs := concat (map (fun f => rho (fm_number f)) (inputs_of v)) in
  options_ok options -> no_faults w -> level0 v <> [] ->
  (forall f, f ∈ level0 v ++ level1 v -> file_rep db w f (rho (fm_number f))) ->
  NoDup (map fst inputs) -> Z.of_nat (run_weight inputs) + 40 < 2 ^ 32 ->
  exists res w' out, CompactLevel0 options db v number w = (Ret res, w') /\
    fm_number (cr_output res) = number /\ file_rep db w' (cr_output res) out /\
    NoDup (map user out) /\
    (forall u s, (forall e, e ∈ inputs -> ExtractSequence e.1 <= s) -> lookup_run u s out = lookup_run u s inputs) /\
    map snd (cr_inputs res) = map fm_number (inputs_of v) /\
    (forall f g e e', f ∈ level0 v -> g ∈ level1 v -> (1, fm_number g) ∉ cr_inputs res ->
       e ∈ rho (fm_number f) -> e' ∈ rho (fm_number g) -> user e <> user e').
Proof.
  intros inputs Ho Hn Hne Hfiles Hnd Hsz.
  assert (Hwf : Forall run_wf (map (fun f => rho (fm_number f)) (inputs_of v))).
  { apply Forall_map, Forall_forall. intros f Hf. eapply fr_run, Hfiles.
    unfold inputs_of, overlapping in Hf. rewrite elem_of_app, list_elem_of_filter in Hf. rewrite elem_of_app. tauto. }
  destruct (CompactLevel0_spec options db v number w rho Ho Hfiles) as (r & w' & E & Ht & H).
  destruct H as [(e & _ & _ & Hnf)|(res & file & -> & Hf & Hm & Hins & Hrep & Hlen)]; [done|].
  pose proof (compacted_weight _ Hwf) as Hle. fold inputs in Hle.
  assert (Hl : len32 file) by (unfold len32; lia).
  exists res, w', (compacted (map (fun f => rho (fm_number f)) (inputs_of v))).
  split; [done|]. split; [apply Hm|]. split; [|split; [by apply compacted_users|split; [|split]]].
  - eapply meta_file_rep; [exact Hm|by apply compacted_run_wf| |done|by apply Hrep].
    apply compacted_nonempty; [done|]. unfold inputs_of. destruct (level0 v) as [|f fs]; [done|]. cbn.
    destruct (fr_smallest db w f (rho (fm_number f))) as (e & r' & -> & _); [apply Hfiles, elem_of_app; left; apply elem_of_cons; by left|done].
  - intros u s Hs. unfold lookup_run. f_equal. by apply compacted_newest.
  - rewrite Hins. unfold inputs_of. by rewrite !map_app, !map_map.
  - intros f g e e' Hf0 Hg1 Hnot He He'.
    eapply (not_overlapping_disjoint db w f g); [apply Hfiles, elem_of_app; by left|apply Hfiles, elem_of_app; by right
      |by apply user_range_within| |done|done].
    destruct (FileOverlapsRange g _ _) eqn:Eo; [|done]. destruct Hnot. rewrite Hins. apply elem_of_app. right.
    apply list_elem_of_fmap. exists g. split; [done|]. by apply list_elem_of_filter.
Qed.

(** Building a table gives a file the readers accept. *)
Lemma build_file_rep options db n es w : options_ok options -> no_faults w -> run_wf es -> es <> [] ->
  Z.of_nat (run_weight es) + 40 < 2 ^ 32 ->
  exists meta w', build_table options (TableFileName db n) n es w = (Ret meta, w') /\
    fm_number meta = n /\ file_rep db w' meta es /\ touches (TableFileName db n) w w'.
Proof.
  intros Ho Hn Hwf Hne Hsz. destruct (build_table_spec options (TableFileName db n) n es w Ho) as (r & w' & E & Ht & H).
  { destruct Hwf as [Hw _]. eapply Forall_impl; [exact Hw|]. by intros e []. }
  destruct H as [(e & _ & _ & Hf)|(meta & file & -> & Hf & Hm & Hrep & Hlen)]; [done|].
  exists meta, w'. split; [done|]. split; [apply Hm|]. split; [|done].
  eapply meta_file_rep; [exact Hm|done..|]. apply Hrep. unfold len32. lia.
Qed.

Lemma compaction_keeps_newest_witness :
  let es1 : list ikv := [(MakeInternalKey (lit "a") 1 kTypeValue, lit "x")] in
  let es2 : list ikv := [(MakeInternalKey (lit "a") 2 kTypeDeletion, [])] in
  exists v w res w', CompactLevel0 default_Options (lit "db") v 3 w = (Ret res, w') /\
    fm_number (cr_output res) = 3 /\ map snd (cr_inputs res) = [1; 2].
Proof.
  intros es1 es2.
  destruct (build_file_rep default_Options (lit "db") 1 es1 (mkWorld ∅ ∅ [])) as (m1 & w1 & _ & N1 & F1 & T1);
    [by vm_compute|done|split; [by apply (bool_decide_unpack (Forall ikv_wf es1))|repeat constructor]|done|done|].
  destruct (build_file_rep default_Options (lit "db") 2 es2 w1) as (m2 & w2 & _ & N2 & F2 & T2);
    [by vm_compute|by apply T1|split; [by apply (bool_decide_unpack (Forall ikv_wf es2))|repeat constructor]|done|done|].
  assert (F1' : file_rep (lit "db") w2 m1 es1).
  { eapply file_rep_world; [|exact F1]. apply (touch_files _ _ _ T2). rewrite N1.
    intros E. by apply TableFileName_inj in E. }
  set (v := mkVersion [m1; m2] []). set (rho := fun n => if decide (n = 1) then es1 else es2).
  exists v, w2.
  destruct (compaction_keeps_newest default_Options (lit "db") v 3 w2 rho) as (res & w' & out & E & H1 & _ & _ & _ & H2 & _).
  - by vm_compute.
  - apply T2, T1. done.
  - done.
  - intros f Hf. unfold v in Hf. cbn [level0 level1 app] in Hf. rewrite !elem_of_cons, elem_of_nil in Hf.
    destruct Hf as [->|[->|[]]]; unfold rho; rewrite ?N1, ?N2; done.
  - unfold inputs_of, v, rho. cbn [level0 level1 overlapping filter list_filter app map concat].
    rewrite N1, N2. by apply (bool_decide_unpack (NoDup (map fst (es1 ++ es2)))).
  - unfold inputs_of, v, rho. cbn [level0 level1 overlapping filter list_filter app map concat].
    rewrite N1, N2. vm_compute. reflexivity.
  - exists res, w'. split; [done|]. split; [done|]. rewrite H2. unfold inputs_of, v. cbn. by rewrite N1, N2.
Defined.
