(* ===== verification/Db.v ===== *)
(** DBImpl (include/lsmkv/db.h, src/db_impl.h, src/db.cpp): the write path, the
    read path, log rotation, flush, compaction scheduling, opening and closing.

    Every operation that holds [mutex_] throughout is one step.  [FlushMemTable]
    and [CompactIfNeeded] release it while they build a table; that part reads
    immutable objects and writes one file under a number no one else has, so they
    are one step here too.  [Get] releases it before it reads; its two parts are
    definitions of their own.  A writer that waits on [bg_cv_] lets the background
    thread run a round. *)
From S2P Require Import Prelude Status Slice Encoding InternalKey Run MemTable Env Wal Block.
From S2P Require Import Options SSTable Version Merge Compaction.

Record DBImpl := mkDBImpl {
  options_ : Options;
  dbname_ : bytes;
  versions_ : VersionSet;
  mem_ : MemTable;
  imm_ : option MemTable;
  wal_ : WalWriter;
  logfile_number_ : Z;
  bg_working_ : bool;
  flush_scheduled_ : bool;
  compaction_scheduled_ : bool;
  bg_error_ : Status;
  world : World
}.

(** [mem_] and [wal_] are set by [Open]; the constructor leaves them null. *)
Definition DBImpl_new (options : Options) (dbname : bytes) (w : World) : DBImpl :=
  mkDBImpl options dbname (VersionSet_new dbname) MemTable_new None (WalWriter_new []) 0
    false false false OK w.

Definition DbM (A : Type) : Type := SM DBImpl A.

Definition with_versions (vs : VersionSet) (w : World) (d : DBImpl) : DBImpl :=
  mkDBImpl (options_ d) (dbname_ d) vs (mem_ d) (imm_ d) (wal_ d) (logfile_number_ d)
    (bg_working_ d) (flush_scheduled_ d) (compaction_scheduled_ d) (bg_error_ d) w.
Definition with_wal (wal : WalWriter) (w : World) (d : DBImpl) : DBImpl :=
  mkDBImpl (options_ d) (dbname_ d) (versions_ d) (mem_ d) (imm_ d) wal (logfile_number_ d)
    (bg_working_ d) (flush_scheduled_ d) (compaction_scheduled_ d) (bg_error_ d) w.
Definition with_tables (mem : MemTable) (imm : option MemTable) (d : DBImpl) : DBImpl :=
  mkDBImpl (options_ d) (dbname_ d) (versions_ d) mem imm (wal_ d) (logfile_number_ d)
    (bg_working_ d) (flush_scheduled_ d) (compaction_scheduled_ d) (bg_error_ d) (world d).
Definition with_logfile (n : Z) (d : DBImpl) : DBImpl :=
  mkDBImpl (options_ d) (dbname_ d) (versions_ d) (mem_ d) (imm_ d) (wal_ d) n
    (bg_working_ d) (flush_scheduled_ d) (compaction_scheduled_ d) (bg_error_ d) (world d).
Definition with_flags (working flush compaction : bool) (d : DBImpl) : DBImpl :=
  mkDBImpl (options_ d) (dbname_ d) (versions_ d) (mem_ d) (imm_ d) (wal_ d) (logfile_number_ d)
    working flush compaction (bg_error_ d) (world d).
Definition with_error (s : Status) (d : DBImpl) : DBImpl :=
  mkDBImpl (options_ d) (dbname_ d) (versions_ d) (mem_ d) (imm_ d) (wal_ d) (logfile_number_ d)
    (bg_working_ d) (flush_scheduled_ d) (compaction_scheduled_ d) s (world d).

(** Calls on the parts. *)
Definition on_world {A} (m : SM World A) : DbM A :=
  zoom world (fun w d => with_versions (versions_ d) w d) m.
Definition on_versions {A} (m : VsM A) : DbM A :=
  zoom (fun d => (versions_ d, world d)) (fun s d => with_versions s.1 s.2 d) m.
Definition on_wal {A} (m : WalM A) : DbM A :=
  zoom (fun d => (wal_ d, world d)) (fun s d => with_wal s.1 s.2 d) m.
Definition next_number : DbM Z := fun d =>
  let '(n, vs) := NextFileNumber (versions_ d) in (Ret n, with_versions vs (world d) d).

(** * Flush and compaction *)

Definition FlushMemTable : DbM unit :=
  imm ← gets imm_;
  match imm with
  | None => mret tt
  | Some imm =>
    file_number ← next_number;
    opts ← gets options_;
    db ← gets dbname_;
    meta ← on_world (BuildTableFromMemTable opts (TableFileName db file_number) imm file_number);
    (if (0 <? file_size meta) && negb (empty (smallest meta)) then
       last ← gets (fun d => last_sequence_ (versions_ d));
       on_versions (LogAndApply (SetLastSequence_edit last (AddFile 0 meta VersionEdit_new)))
     else mret tt) ;;
    modify (fun d => with_tables (mem_ d) None d)
  end.

(** The edit installing a compaction's result. *)
Definition compaction_edit (res : CompactionResult) (last : Z) : VersionEdit :=
  let e := foldl (fun e i => DeleteFile i.1 i.2 e) VersionEdit_new (cr_inputs res) in
  let e := if (0 <? file_size (cr_output res)) && negb (empty (smallest (cr_output res)))
           then AddFile 1 (cr_output res) e else e in
  SetLastSequence_edit last e.

Definition CompactIfNeeded : DbM unit :=
  current ← gets (fun d => current_ (versions_ d));
  opts ← gets options_;
  db ← gets dbname_;
  if Z.of_nat (length (level0 current)) <? level0_compaction_trigger opts then mret tt
  else
    out_number ← next_number;
    res ← on_world (CompactLevel0 opts db current out_number);
    last ← gets (fun d => last_sequence_ (versions_ d));
    on_versions (LogAndApply (compaction_edit res last)) ;;
    for_each (cr_inputs res) (fun i =>
      on_world (remove_file (db ++ lit "/" ++ to_string i.2 ++ lit ".sst"))).

(** [Status s = call(); ... if (!s.ok()) bg_error_ = s;] *)
Definition background (m : DbM unit) : DbM unit :=
  r ← try m;
  match r with inl e => modify (with_error e) | inr _ => mret tt end.

(** One iteration of the loop of [BackgroundThreadMain]; with nothing scheduled
    the thread waits. *)
Definition BackgroundRound : DbM unit :=
  d ← gets (fun d => d);
  if negb (flush_scheduled_ d) && negb (compaction_scheduled_ d) then mret tt
  else
    modify (fun d => with_flags true (flush_scheduled_ d) (compaction_scheduled_ d) d) ;;
    (if flush_scheduled_ d && bool_decide (is_Some (imm_ d)) then
       modify (fun d => with_flags (bg_working_ d) false (compaction_scheduled_ d) d) ;;
       background FlushMemTable ;;
       modify (fun d => with_flags (bg_working_ d) (flush_scheduled_ d) true d)
     else if compaction_scheduled_ d then
       modify (fun d => with_flags (bg_working_ d) (flush_scheduled_ d) false d) ;;
       background CompactIfNeeded
     else modify (fun d => with_flags (bg_working_ d) false false d)) ;;
    modify (fun d => with_flags false (flush_scheduled_ d) (compaction_scheduled_ d) d).

(** * Writing *)

(** [wal_.reset(new WalWriter(...))] destroys the old writer, which closes it.
    A wait on [bg_cv_] is one background round; [fuel] bounds the waits, and
    running out of it is a writer that is never woken. *)
Fixpoint MakeRoomForWrite (fuel : nat) : DbM unit :=
  d ← gets (fun d => d);
  if negb (ok (bg_error_ d)) then fail (bg_error_ d)
  else if ApproximateMemoryUsage (mem_ d) <? write_buffer_size (options_ d) then mret tt
  else
    match imm_ d with
    | Some _ =>
      match fuel with
      | O => lift Stuck
      | S fuel => BackgroundRound ;; MakeRoomForWrite fuel
      end
    | None =>
      modify (fun d => with_tables MemTable_new (Some (mem_ d)) d) ;;
      n ← next_number;
      modify (with_logfile n) ;;
      db ← gets dbname_;
      on_wal Close ;;
      modify (fun d => with_wal (WalWriter_new (LogFileName db n)) (world d) d) ;;
      on_wal Wal_Open ;;
      on_versions (LogAndApply (SetLogNumber n VersionEdit_new)) ;;
      modify (fun d => with_flags (bg_working_ d) true (compaction_scheduled_ d) d)
    end.

(** One wait is enough (see [MakeRoom_inv] of DbRefine). *)
Definition room_fuel : nat := 1.

Definition Write (options : WriteOptions) (type : ValueType) (key value : bytes) : DbM unit :=
  err ← gets bg_error_;
  if negb (ok err) then fail err
  else
    MakeRoomForWrite room_fuel ;;
    last ← gets (fun d => last_sequence_ (versions_ d));
    let seq := u64 (last + 1) in
    modify (fun d => with_versions (SetLastSequence seq (versions_ d)) (world d) d) ;;
    let record := EncodeWriteBatch seq [(type, (key, value))] in
    on_wal (AddRecord record) ;;
    (if sync_opt options then on_wal Sync else mret tt) ;;
    mem ← gets mem_;
    mem ← lift (MemTable_Add mem seq type key value);
    modify (fun d => with_tables mem (imm_ d) d) ;;
    d ← gets (fun d => d);
    if write_buffer_size (options_ d) <=? ApproximateMemoryUsage (mem_ d)
    then modify (fun d => with_flags (bg_working_ d) true (compaction_scheduled_ d) d)
    else mret tt.

Definition Put (options : WriteOptions) (key value : bytes) : DbM unit :=
  Write options kTypeValue key value.
Definition Delete (options : WriteOptions) (key : bytes) : DbM unit :=
  Write options kTypeDeletion key [].

(** * Reading *)

Definition read_snapshot (options : ReadOptions) (d : DBImpl) : Z :=
  if snapshot_opt options =? 0 then last_sequence_ (versions_ d) else snapshot_opt options.

(** What Get copies under the mutex.  The memtable is shared, and later writes go to it;
    their sequence numbers are above the snapshot, so that a copy answers the same. *)
Record ReadView := mkReadView { rv_mem : MemTable; rv_imm : option MemTable; rv_snapshot : Z; rv_current : Version }.
Definition read_view (options : ReadOptions) (d : DBImpl) : ReadView :=
  mkReadView (mem_ d) (imm_ d) (read_snapshot options d) (current_ (versions_ d)).

(** What Get does after releasing the mutex: memtables, then the table files. *)
Definition Get_from (v : ReadView) (key : bytes) : DbM bytes :=
  r ← lift (MemTable_Get (rv_mem v) key (rv_snapshot v));
  match r with
  | Some (Some value) => mret value
  | Some None => fail (NotFound [])
  | None =>
    r ← match rv_imm v with
        | Some imm => lift (MemTable_Get imm key (rv_snapshot v))
        | None => mret None
        end;
    match r with
    | Some (Some value) => mret value
    | Some None => fail (NotFound [])
    | None => db ← gets dbname_; on_world (Version_Get (rv_current v) db key (rv_snapshot v))
    end
  end.

(** The two, with nothing between them. *)
Definition Get (options : ReadOptions) (key : bytes) : DbM bytes :=
  v ← gets (read_view options);
  Get_from v key.

(** * Opening and closing *)

(** [mem_->Add(seq + i, ...); max_seq = max(max_seq, seq + i);] for each entry *)
Fixpoint replay_entries (seq : Z) (entries : list BatchEntry) (max_seq : Z) : DbM Z :=
  match entries with
  | [] => mret max_seq
  | (type, (key, value)) :: entries =>
    mem ← gets mem_;
    mem ← lift (MemTable_Add mem seq type key value);
    modify (fun d => with_tables mem (imm_ d) d) ;;
    replay_entries (u64 (seq + 1)) entries (Z.max max_seq seq)
  end.

(** The [while (true)] loop; every record takes at least its header. *)
Fixpoint replay_log (fuel : nat) (rest : bytes) (max_seq : Z) : DbM Z :=
  match ReadRecord rest with
  | Stuck => lift Stuck
  | Fail s => if IsNotFound s then mret max_seq else fail s
  | Ret (record, rest) =>
    match fuel with
    | O => lift Stuck
    | S fuel =>
      '(seq, entries) ← lift (DecodeWriteBatch record);
      max_seq ← replay_entries seq entries max_seq;
      replay_log fuel rest max_seq
    end
  end.

Definition RecoverLogFile (log_number : Z) : DbM unit :=
  db ← gets dbname_;
  f ← on_world next_fault;
  file ← gets (fun d => files (world d) !! LogFileName db log_number);
  match f, file with
  | None, Some data =>
    last ← gets (fun d => last_sequence_ (versions_ d));
    max_seq ← replay_log (length data) data last;
    modify (fun d => with_versions (SetLastSequence max_seq (versions_ d)) (world d) d)
  | _, _ => mret tt
  end.

Definition Open : DbM unit :=
  d ← gets (fun d => d);
  let w := world d in
  let exists_ := PathExists (dbname_ d) w && PathExists (CurrentFileName (dbname_ d)) w in
  fail_if (exists_ && error_if_exists (options_ d)) (InvalidArgument (lit "database already exists")) ;;
  (if negb exists_ then
     fail_if (negb (create_if_missing (options_ d)))
             (InvalidArgument (lit "database does not exist")) ;;
     on_versions NewDB
   else on_versions Recover) ;;
  modify (fun d => with_tables MemTable_new (imm_ d) d) ;;
  n ← next_number;
  modify (with_logfile n) ;;
  modify (fun d => with_wal (WalWriter_new (LogFileName (dbname_ d) n)) (world d) d) ;;
  on_wal Wal_Open ;;
  log ← gets (fun d => log_number_ (versions_ d));
  (if exists_ && (0 <? log) then RecoverLogFile log else mret tt) ;;
  next ← next_number;
  on_versions (LogAndApply (SetNextFile next (SetLogNumber n VersionEdit_new))).

(** DB::Open *)
Definition DB_Open (options : Options) (name : bytes) (w : World) : Res unit * DBImpl :=
  Open (DBImpl_new options name w).

(** [while (imm_ != nullptr) { ... FlushMemTable(); if (!s.ok()) bg_error_ = s; }]:
    a flush that keeps failing never ends. *)
Fixpoint flush_pending (fuel : nat) : DbM unit :=
  imm ← gets imm_;
  match imm with
  | None => mret tt
  | Some _ =>
    match fuel with
    | O => lift Stuck
    | S fuel => background FlushMemTable ;; flush_pending fuel
    end
  end.

(** The destructor. *)
Definition DB_Close (fuel : nat) : DbM unit :=
  flush_pending fuel ;; on_wal Close.

(** The process dies: only the file system survives. *)
Definition DB_Crash (n : nat) (d : DBImpl) : World := wal_crash n (wal_ d) (world d).
