(* ===== verification/DbInv.v ===== *)
(** The invariant of the database: which runs of entries the tables hold, how
    they are ordered, and that flushing and compacting them changes no read. *)
From S2P Require Import Prelude Status Slice Encoding InternalKey Run MemTable Env Wal Block.
From S2P Require Import Options SSTable Version Merge Compaction Db.

(** * The layers *)

(** [rho] gives the run each table file holds, by file number. *)
Definition frun (rho : Z -> list ikv) (f : FileMetaData) : list ikv := rho (fm_number f).

Definition upper (rm ri : list ikv) (rho : Z -> list ikv) (v : Version) : list (list ikv) :=
  rm :: ri :: map (frun rho) (reverse (level0 v)).
Definition lower (rho : Z -> list ikv) (v : Version) : list (list ikv) :=
  map (frun rho) (reverse (level1 v)).
Definition layers (rm ri : list ikv) (rho : Z -> list ikv) (v : Version) : list (list ikv) :=
  upper rm ri rho v ++ lower rho v.
Definition entries (rm ri : list ikv) (rho : Z -> list ikv) (v : Version) : list ikv :=
  concat (layers rm ri rho v).

Definition disjoint_users (r r' : list ikv) : Prop :=
  forall a b, a ∈ r -> b ∈ r' -> ExtractUserKey a.1 <> ExtractUserKey b.1.

Definition vfiles (v : Version) : list FileMetaData := level0 v ++ level1 v.

(** The part of the invariant that the log and the scheduler flags play no role in. *)
Record core (db : bytes) (vs : VersionSet) (mem : MemTable) (imm : option MemTable) (w : World)
    (rm ri : list ikv) (rho : Z -> list ikv) (m : gmap bytes bytes) : Prop := {
  co_db : vs_dbname vs = db;
  co_manifest : manifest_file_number_ vs = 1;
  co_mem : mem_rep mem rm;
  co_imm : match imm with Some t => mem_rep t ri | None => ri = [] end;
  co_files : forall f, f ∈ vfiles (current_ vs) -> file_rep db w f (frun rho f);
  co_numbers : forall f, f ∈ vfiles (current_ vs) -> 0 <= fm_number f < next_file_number_ vs;
  co_nodup : NoDup (map fm_number (vfiles (current_ vs)));
  co_order : StronglySorted newer_than (upper rm ri rho (current_ vs));
  co_lower : forall r f, r ∈ upper rm ri rho (current_ vs) -> f ∈ level1 (current_ vs) ->
    newer_than r (frun rho f);
  co_disjoint : forall f g, f ∈ level1 (current_ vs) -> g ∈ level1 (current_ vs) ->
    fm_number f <> fm_number g -> disjoint_users (frun rho f) (frun rho g);
  co_seq : forall e, e ∈ entries rm ri rho (current_ vs) -> ExtractSequence e.1 <= last_sequence_ vs;
  co_counters : 0 <= last_sequence_ vs /\ 0 <= next_file_number_ vs;
  co_map : forall u, lookup_run u (last_sequence_ vs) (entries rm ri rho (current_ vs)) ≫= id = m !! u
}.

(** * Order of the layers *)

Lemma StronglySorted_app {A} (R : A -> A -> Prop) l1 l2 : StronglySorted R l1 -> StronglySorted R l2 ->
  (forall x y, x ∈ l1 -> y ∈ l2 -> R x y) -> StronglySorted R (l1 ++ l2).
Proof.
  intros H1 H2 H. induction H1 as [|x l1 H1 IH Hf]; [done|]. simpl. constructor.
  - apply IH. intros a b Ha. apply H. apply elem_of_cons. by right.
  - apply Forall_app. split; [done|]. apply Forall_forall. intros y Hy.
    apply H; [apply elem_of_cons; by left|done].
Qed.

Lemma disjoint_newer r r' : disjoint_users r r' -> newer_than r r'.
Proof. intros H a b Ha Hb E. by destruct (H a b Ha Hb). Qed.

Lemma NoDup_app_r {A} (l1 l2 : list A) : NoDup (l1 ++ l2) -> NoDup l2.
Proof. intros H. by apply NoDup_app in H as (_ & _ & ?). Qed.

Lemma in_reverse {A} (x : A) l : x ∈ reverse l -> x ∈ l.
Proof. by rewrite elem_of_reverse. Qed.

Section Core.
Context {db vs mem imm w rm ri rho m} (Hco : core db vs mem imm w rm ri rho m).

Lemma elem_of_lower r : r ∈ lower rho (current_ vs) <->
  exists f, f ∈ level1 (current_ vs) /\ r = frun rho f.
Proof.
  unfold lower. rewrite list_elem_of_fmap. setoid_rewrite elem_of_reverse. naive_solver.
Qed.

Lemma core_lower_sorted : StronglySorted newer_than (lower rho (current_ vs)).
Proof.
  unfold lower. pose proof (co_nodup _ _ _ _ _ _ _ _ _ Hco) as Hnd. unfold vfiles in Hnd.
  rewrite map_app in Hnd. apply NoDup_app_r in Hnd.
  assert (Hd : forall f g, f ∈ reverse (level1 (current_ vs)) -> g ∈ reverse (level1 (current_ vs)) ->
    fm_number f <> fm_number g -> disjoint_users (frun rho f) (frun rho g)).
  { intros f g Hf%in_reverse Hg%in_reverse Hne.
    exact (co_disjoint _ _ _ _ _ _ _ _ _ Hco f g Hf Hg Hne). }
  assert (Hnd' : NoDup (map fm_number (reverse (level1 (current_ vs))))) by (by rewrite reverse_Permutation).
  clear Hnd. induction (reverse (level1 (current_ vs))) as [|f fs IH]; [constructor|]. simpl.
  apply NoDup_cons in Hnd' as [Hn Hnd']. constructor.
  - apply IH; [|done]. intros a b Ha Hb. apply Hd; apply elem_of_cons; by right.
  - apply Forall_map, Forall_forall. intros g Hg. apply disjoint_newer.
    apply Hd; [apply elem_of_cons; by left|apply elem_of_cons; by right|].
    intros E. apply Hn. rewrite E. by apply list_elem_of_fmap_2.
Qed.

Lemma core_sorted : StronglySorted newer_than (layers rm ri rho (current_ vs)).
Proof.
  apply StronglySorted_app; [apply Hco|apply core_lower_sorted|].
  intros r r' Hr (f & Hf & ->)%elem_of_lower. by apply (co_lower _ _ _ _ _ _ _ _ _ Hco).
Qed.

Lemma core_imm_wf : run_wf ri.
Proof.
  pose proof (co_imm _ _ _ _ _ _ _ _ _ Hco) as H. destruct imm; [by eapply mem_rep_sorted|].
  subst ri. split; constructor.
Qed.

Lemma core_runs_wf : Forall run_wf (layers rm ri rho (current_ vs)).
Proof.
  assert (Hf : forall f, f ∈ vfiles (current_ vs) -> run_wf (frun rho f)).
  { intros f Hf. eapply fr_run. by apply (co_files _ _ _ _ _ _ _ _ _ Hco). }
  unfold layers, upper, lower. apply Forall_app. split.
  - constructor; [by eapply mem_rep_sorted, Hco|]. constructor; [apply core_imm_wf|].
    apply Forall_map, Forall_forall. intros f Hr%in_reverse. apply Hf, elem_of_app. by left.
  - apply Forall_map, Forall_forall. intros f Hr%in_reverse. apply Hf, elem_of_app. by right.
Qed.
End Core.

(** Sorted layers never hold one internal key twice. *)
Lemma layers_nodup (ls : list (list ikv)) : Forall run_wf ls -> StronglySorted newer_than ls ->
  NoDup (map fst (concat ls)).
Proof.
  intros Hwf Hs. induction Hs as [|r ls Hs IH Hf]; [constructor|].
  apply Forall_cons in Hwf as [[Hw Hr] Hwf]. simpl. rewrite map_app. apply NoDup_app.
  split; [|split; [|by apply IH]].
  - clear -Hw Hr. apply run_wf_ikeys in Hw. unfold run_sorted in Hr.
    induction Hr as [|e r Hr IH Hf]; [constructor|]. simpl.
    apply Forall_cons in Hw as [He Hw]. constructor; [|by apply IH].
    intros (x & Ex & Hx)%list_elem_of_fmap. rewrite Forall_forall in Hf. specialize (Hf x Hx).
    unfold ikv_cmp in Hf. rewrite <- Ex, (ord_refl ikey_wf) in Hf; done.
  - intros k (a & -> & Ha)%list_elem_of_fmap (b & Ek & Hb)%list_elem_of_fmap.
    apply elem_of_concat in Hb as (l & Hl & Hb). rewrite Forall_forall in Hf.
    specialize (Hf l Hl a b Ha Hb). rewrite Ek in Hf. specialize (Hf eq_refl). lia.
Qed.

(** * Reading *)

(** A reader that sees every version is not affected by a later snapshot. *)
Lemma newest_all u s s' es : (forall e, e ∈ es -> ExtractSequence e.1 <= s) -> s <= s' ->
  newest u s' es = newest u s es.
Proof.
  intros Hall Hs. induction es as [|e es IH]; [done|]. cbn [newest].
  rewrite IH by (intros x Hx; apply Hall, elem_of_cons; by right).
  assert (Hv : visible u s' e <-> visible u s e).
  { unfold visible. specialize (Hall e ltac:(apply elem_of_cons; by left)).
    split; intros [? ?]; split; (done || lia). }
  destruct (decide (visible u s' e)), (decide (visible u s e)); tauto.
Qed.

(** What a read returns: the map's answer, or a hard error caused by a fault. *)
Definition read_ok (m : gmap bytes bytes) (key : bytes) (faulty : Prop) (r : Res bytes) : Prop :=
  match m !! key with
  | Some v => r = Ret v
  | None => r = Fail (NotFound [])
  end \/ (exists e, r = Fail e /\ hard_error e /\ faulty).

Lemma hit_result_map h (o : option bytes) : h ≫= id = o ->
  match o with Some v => hit_result h = Ret v | None => hit_result h = Fail (NotFound []) end.
Proof. intros <-. by destruct h as [[v|]|]. Qed.

Lemma Get_core d rm ri rho m key : core (dbname_ d) (versions_ d) (mem_ d) (imm_ d) (world d) rm ri rho m ->
  ukey_ok key -> seq56 (last_sequence_ (versions_ d)) ->
  exists r w', Get (mkReadOptions 0) key d = (r, with_versions (versions_ d) w' d) /\
    reads (world d) w' /\ read_ok m key (~ no_faults (world d)) r.
Proof.
  intros Hco Hk Hs. set (s := last_sequence_ (versions_ d)) in *.
  pose proof (co_map _ _ _ _ _ _ _ _ _ Hco key) as Hmap. unfold entries in Hmap.
  rewrite <- first_hit_concat in Hmap by apply (core_sorted Hco).
  unfold layers, upper in Hmap. rewrite first_hit_app in Hmap. fold s in Hmap.
  unfold Get, Get_from, read_view. sm_step. cbn [rv_mem rv_imm rv_snapshot rv_current]. unfold read_snapshot. cbn [snapshot_opt Z.eqb]. fold s.
  rewrite (mem_rep_get _ rm) by (done || apply Hco).
  assert (Hself : with_versions (versions_ d) (world d) d = d) by (by destruct d).
  assert (Hfound : forall h, lookup_run key s rm = Some h \/
      lookup_run key s rm = None /\ lookup_run key s ri = Some h ->
    exists r w', (match h with Some v => mret v | None => fail (NotFound []) end) d
        = (r, with_versions (versions_ d) w' d) /\
      reads (world d) w' /\ read_ok m key (~ no_faults (world d)) r).
  { intros h Hh. exists (hit_result (Some h)), (world d). rewrite Hself.
    split; [by destruct h|]. split; [done|]. left. cbn [first_hit] in Hmap.
    assert (Some h ≫= id = m !! key) as Hm.
    { rewrite <- Hmap. by destruct Hh as [->|[-> ->]]. }
    destruct (m !! key); by apply hit_result_map in Hm. }
  destruct (lookup_run key s rm) as [h|] eqn:Em.
  { destruct (Hfound h) as (r & w' & E & H); [by left|]. exists r, w'. split; [|done]. by destruct h. }
  assert (Hver : exists r w', (on_world (Version_Get (current_ (versions_ d)) (dbname_ d) key s)) d
      = (r, with_versions (versions_ d) w' d) /\ reads (world d) w' /\
      (lookup_run key s ri = None -> read_ok m key (~ no_faults (world d)) r)).
  { destruct (Version_Get_spec (dbname_ d) key s (current_ (versions_ d))
      (map (frun rho) (reverse (level0 (current_ (versions_ d)))))
      (map (frun rho) (reverse (level1 (current_ (versions_ d))))) (world d) Hs) as (r & w' & E & Hr & Hres).
    { split; rewrite <- (map_id (reverse _)) at 1; apply Forall2_map_r; intros f Hf%in_reverse;
        apply (co_files _ _ _ _ _ _ _ _ _ Hco), elem_of_app; [by left|by right]. }
    exists r, w'. unfold on_world, zoom. rewrite E. split; [done|]. split; [done|]. intros Ei.
    destruct Hres as [(e & -> & He & Hnf)| ->]; [right; eauto|]. left.
    cbn [first_hit] in Hmap. rewrite Em, Ei in Hmap. rewrite first_hit_app.
    destruct (m !! key); by apply hit_result_map in Hmap. }
  destruct (imm_ d) as [t|] eqn:Eimm.
  - pose proof (co_imm _ _ _ _ _ _ _ _ _ Hco) as Hi. simpl in Hi.
    rewrite (mem_rep_get _ ri) by done.
    destruct (lookup_run key s ri) as [h|] eqn:Ei.
    + destruct (Hfound h) as (r & w' & E & H); [by right|]. exists r, w'. split; [|done]. by destruct h.
    + destruct Hver as (r & w' & E & H1 & H2). exists r, w'. split; [exact E|]. split; [done|]. by apply H2.
  - pose proof (co_imm _ _ _ _ _ _ _ _ _ Hco) as Hi. simpl in Hi. subst ri.
    destruct Hver as (r & w' & E & H1 & H2). exists r, w'. split; [exact E|]. split; [done|]. by apply H2.
Qed.

(** * Changes that reads cannot see *)

Lemma keys_unique_subset es es' : keys_unique es -> (forall e, e ∈ es' -> e ∈ es) -> keys_unique es'.
Proof. intros Hu Hs a b Ha Hb. apply Hu; auto. Qed.

Lemma newest_app_congr u s A B B' : newest u s B = newest u s B' ->
  newest u s (A ++ B) = newest u s (A ++ B').
Proof. intros E. induction A as [|a A IH]; [done|]. simpl. by rewrite IH. Qed.

Lemma frun_upd rho n r f : frun (fun k => if decide (k = n) then r else rho k) f =
  if decide (fm_number f = n) then r else frun rho f.
Proof. done. Qed.

Definition upd (rho : Z -> list ikv) (n : Z) (r : list ikv) : Z -> list ikv :=
  fun k => if decide (k = n) then r else rho k.

Lemma map_frun_upd rho n r fs : (forall f, f ∈ fs -> fm_number f <> n) ->
  map (frun (upd rho n r)) fs = map (frun rho) fs.
Proof.
  intros H. apply map_ext_in. intros f Hf. unfold frun, upd. rewrite decide_False; [done|].
  apply H. by apply list_elem_of_In.
Qed.

(** The world may change away from the tables. *)
Lemma core_world db vs mem imm w w' rm ri rho m : core db vs mem imm w rm ri rho m ->
  (forall f, f ∈ vfiles (current_ vs) ->
     files w' !! TableFileName db (fm_number f) = files w !! TableFileName db (fm_number f)) ->
  core db vs mem imm w' rm ri rho m.
Proof.
  intros [] Hw. split; try done. intros f Hf. eapply file_rep_world; [|eauto]. by apply Hw.
Qed.

(** A read looks at the name of the database and the files only. *)
Lemma Get_from_world v key d d' : dbname_ d' = dbname_ d -> world d' = world d -> (Get_from v key d').1 = (Get_from v key d).1.
Proof.
  intros Hn Hw. unfold Get_from. sm_step. destruct (MemTable_Get (rv_mem v) key (rv_snapshot v)) as [[[x|]|]|e|]; [done..| |done|done].
  destruct (rv_imm v) as [imm|]; [destruct (MemTable_Get imm key (rv_snapshot v)) as [[[x|]|]|e|]; try done|];
    unfold on_world, zoom; rewrite Hn, Hw; by destruct (Version_Get _ _ _ _ _).
Qed.

(** A read whose files are looked at later, when other calls and the background thread have
    gone on, answers from the map at the time of its view, as long as the tables of
    the view are still there. *)
Lemma late_read d d' rm ri rho m key : core (dbname_ d) (versions_ d) (mem_ d) (imm_ d) (world d) rm ri rho m ->
  ukey_ok key -> seq56 (last_sequence_ (versions_ d)) -> dbname_ d' = dbname_ d ->
  (forall f, f ∈ vfiles (current_ (versions_ d)) ->
     files (world d') !! TableFileName (dbname_ d) (fm_number f) = files (world d) !! TableFileName (dbname_ d) (fm_number f)) ->
  read_ok m key (~ no_faults (world d')) (Get_from (read_view (mkReadOptions 0) d) key d').1.
Proof.
  intros Hco Hk Hs Hn Hw. pose proof (core_world _ _ _ _ _ (world d') _ _ _ _ Hco Hw) as Hco'.
  destruct (Get_core (with_versions (versions_ d) (world d') d) rm ri rho m key Hco' Hk Hs) as (r & w' & E & _ & Hr).
  rewrite (Get_from_world _ _ (with_versions (versions_ d) (world d') d) d') by done.
  change (Get_from _ key _) with (Get (mkReadOptions 0) key (with_versions (versions_ d) (world d') d)). by rewrite E.
Qed.

Lemma core_touch db vs mem imm w w' rm ri rho m path : core db vs mem imm w rm ri rho m ->
  touches path w w' -> (forall n, 0 <= n < next_file_number_ vs -> TableFileName db n <> path) ->
  core db vs mem imm w' rm ri rho m.
Proof.
  intros Hco Ht Hp. eapply core_world; [exact Hco|]. intros f Hf. apply (touch_files _ _ _ Ht).
  apply Hp. by apply (co_numbers _ _ _ _ _ _ _ _ _ Hco).
Qed.

(** The counters may grow. *)
Lemma core_counters db vs vs' mem imm w rm ri rho m : core db vs mem imm w rm ri rho m ->
  vs_dbname vs' = vs_dbname vs -> manifest_file_number_ vs' = manifest_file_number_ vs ->
  current_ vs' = current_ vs -> next_file_number_ vs <= next_file_number_ vs' ->
  last_sequence_ vs <= last_sequence_ vs' -> core db vs' mem imm w rm ri rho m.
Proof.
  intros [H1 H2 H3 H4 H5 H6 H7 H8 H9 H10 H11 H12 H13] E1 E2 E3 Hn Hl.
  split; rewrite ?E1, ?E2, ?E3; try done.
  - intros f Hf. specialize (H6 f Hf). lia.
  - intros e He. specialize (H11 e He). lia.
  - lia.
  - intros u. unfold lookup_run. rewrite (newest_all u (last_sequence_ vs)) by done. apply H13.
Qed.

Lemma lookup_run_perm u s es es' : Forall (fun e => ikey_wf e.1) es -> NoDup (map fst es) ->
  es ≡ₚ es' -> lookup_run u s es = lookup_run u s es'.
Proof.
  intros Hw Hnd Hp. unfold lookup_run. f_equal. apply newest_set; [done|by apply keys_nodup_unique|].
  intros e. by rewrite Hp.
Qed.

Lemma core_entries_wf {db vs mem imm w rm ri rho m} : core db vs mem imm w rm ri rho m ->
  Forall (fun e => ikey_wf e.1) (entries rm ri rho (current_ vs)) /\
  NoDup (map fst (entries rm ri rho (current_ vs))).
Proof.
  intros Hco. split.
  - apply run_wf_ikeys, concat_wf, (core_runs_wf Hco).
  - apply layers_nodup; [apply (core_runs_wf Hco)|apply (core_sorted Hco)].
Qed.

(** ** Flush: the immutable table becomes the newest level-0 file *)

Lemma core_flush db vs vs' mem imm w rm ri rho m meta : core db vs mem imm w rm ri rho m ->
  file_rep db w meta ri -> 0 <= fm_number meta < next_file_number_ vs' ->
  (forall f, f ∈ vfiles (current_ vs) -> fm_number f <> fm_number meta) ->
  vs_dbname vs' = vs_dbname vs -> manifest_file_number_ vs' = manifest_file_number_ vs ->
  next_file_number_ vs <= next_file_number_ vs' -> last_sequence_ vs' = last_sequence_ vs ->
  level0 (current_ vs') = level0 (current_ vs) ++ [meta] ->
  level1 (current_ vs') ≡ₚ level1 (current_ vs) ->
  core db vs' mem None w rm [] (upd rho (fm_number meta) ri) m /\
  entries rm [] (upd rho (fm_number meta) ri) (current_ vs') ≡ₚ entries rm ri rho (current_ vs).
Proof.
  intros Hco Hmeta Hnum Hfresh Edb Eman Hnext Elast E0 E1.
  set (rho' := upd rho (fm_number meta) ri).
  assert (Hold : forall f, f ∈ vfiles (current_ vs) -> frun rho' f = frun rho f).
  { intros f Hf. unfold frun, rho', upd. by rewrite decide_False by auto. }
  assert (Hnew : frun rho' meta = ri) by (unfold frun, rho', upd; by rewrite decide_True).
  assert (Hin1 : forall f, f ∈ level1 (current_ vs') <-> f ∈ level1 (current_ vs)) by (intros f; by rewrite E1).
  assert (Hv' : vfiles (current_ vs') ≡ₚ meta :: vfiles (current_ vs)).
  { unfold vfiles. rewrite E0, E1, <- app_assoc. symmetry. apply Permutation_middle. }
  assert (Hm0 : map (frun rho') (reverse (level0 (current_ vs'))) =
                ri :: map (frun rho) (reverse (level0 (current_ vs)))).
  { rewrite E0, reverse_app, reverse_singleton. simpl. rewrite Hnew. f_equal. apply map_frun_upd.
    intros f Hf%in_reverse. apply Hfresh, elem_of_app. by left. }
  assert (Hm1 : lower rho' (current_ vs') ≡ₚ lower rho (current_ vs)).
  { unfold lower. rewrite <- (map_frun_upd rho (fm_number meta) ri (reverse (level1 (current_ vs)))).
    - by rewrite !reverse_Permutation, E1.
    - intros f Hf%in_reverse. apply Hfresh, elem_of_app. by right. }
  assert (Hup : upper rm [] rho' (current_ vs') = rm :: [] :: ri :: map (frun rho) (reverse (level0 (current_ vs))))
    by (unfold upper; by rewrite Hm0).
  assert (Hent : entries rm [] rho' (current_ vs') ≡ₚ entries rm ri rho (current_ vs)).
  { unfold entries, layers. rewrite Hup, Hm1. done. }
  split; [|exact Hent]. pose proof (core_entries_wf Hco) as [Hw Hnd].
  destruct Hco as [H1 H2 H3 H4 H5 H6 H7 H8 H9 H10 H11 H12 H13]. split; try congruence.
  - intros f Hf. rewrite Hv' in Hf. apply elem_of_cons in Hf as [->|Hf]; [by rewrite Hnew|].
    rewrite Hold by done. by apply H5.
  - intros f Hf. rewrite Hv' in Hf. apply elem_of_cons in Hf as [->|Hf]; [done|].
    specialize (H6 f Hf). lia.
  - rewrite Hv'. cbn [map]. apply NoDup_cons. split; [|done].
    intros (f & E & Hf)%list_elem_of_fmap. by apply (Hfresh f Hf).
  - rewrite Hup. unfold upper in H8. apply StronglySorted_inv in H8 as [H8 Hf]. apply Forall_cons in Hf as [Hri Hl0].
    constructor; [constructor; [done|]|constructor; [|by constructor]].
    + apply Forall_forall. intros r _ a b Ha. by apply elem_of_nil in Ha.
    + intros a b _ Hb. by apply elem_of_nil in Hb.
  - intros r f Hr Hf. rewrite Hin1 in Hf. rewrite Hold by (apply elem_of_app; by right).
    rewrite Hup in Hr. unfold upper in H9. rewrite !elem_of_cons in Hr.
    destruct Hr as [->|[->|Hr]].
    + apply H9; [|done]. apply elem_of_cons. by left.
    + intros a b Ha. by apply elem_of_nil in Ha.
    + apply H9; [|done]. rewrite !elem_of_cons. tauto.
  - intros f g Hf Hg Hne. rewrite Hin1 in Hf, Hg.
    rewrite !Hold by (apply elem_of_app; by right). by apply H10.
  - intros e He. rewrite Hent in He. rewrite Elast. by apply H11.
  - rewrite Elast. lia.
  - intros u. rewrite Elast, <- H13. f_equal. symmetry. by apply lookup_run_perm.
Qed.

(** ** Compaction: the inputs are replaced by their merge *)

Definition kept (v : Version) : list FileMetaData :=
  filter (fun f => FileOverlapsRange f (user_range (level0 v)).1 (user_range (level0 v)).2 = false) (level1 v).

Lemma filter_split_perm {A} (b : A -> bool) (l : list A) :
  l ≡ₚ filter (fun x => b x = true) l ++ filter (fun x => b x = false) l.
Proof.
  induction l as [|x l IH]; [done|]. rewrite !filter_cons. destruct (b x) eqn:E.
  - rewrite decide_True, decide_False by congruence. simpl. by constructor.
  - rewrite decide_False, decide_True by congruence. by rewrite <- Permutation_middle, <- IH.
Qed.

Lemma level1_split v : level1 v ≡ₚ overlapping (level1 v) (user_range (level0 v)) ++ kept v.
Proof. apply filter_split_perm. Qed.

Lemma concat_map_perm {A B} (f : A -> list B) (l l' : list A) : l ≡ₚ l' ->
  concat (map f l) ≡ₚ concat (map f l').
Proof. intros H. by rewrite H. Qed.

Section CompactCore.
Context {db vs mem imm w rm ri rho m} (Hco : core db vs mem imm w rm ri rho m).
Let v := current_ vs.
Let runs := map (frun rho) (inputs_of v).
Let keptrun := concat (map (frun rho) (kept v)).

Lemma inputs_in f : f ∈ inputs_of v -> f ∈ vfiles v.
Proof.
  unfold inputs_of, vfiles, overlapping. rewrite !elem_of_app, list_elem_of_filter. tauto.
Qed.
Lemma kept_in f : f ∈ kept v -> f ∈ level1 v.
Proof. unfold kept. rewrite list_elem_of_filter. tauto. Qed.

Lemma entries_split : entries rm ri rho v ≡ₚ (rm ++ ri ++ keptrun) ++ concat runs.
Proof.
  unfold entries, layers, upper, lower, runs, keptrun, inputs_of. simpl.
  rewrite map_app, !concat_app.
  rewrite (concat_map_perm (frun rho) (reverse (level0 v)) (level0 v)) by apply reverse_Permutation.
  rewrite (concat_map_perm (frun rho) (reverse (level1 v)) (level1 v)) by apply reverse_Permutation.
  rewrite (concat_map_perm (frun rho) (level1 v) _) by apply level1_split.
  rewrite map_app, concat_app. solve_Permutation.
Qed.

Lemma compact_runs_wf : Forall run_wf runs /\ NoDup (map fst (concat runs)).
Proof.
  split.
  - apply Forall_map, Forall_forall. intros f Hf%inputs_in.
    eapply fr_run. by apply (co_files _ _ _ _ _ _ _ _ _ Hco).
  - pose proof (core_entries_wf Hco) as [_ Hnd]. fold v in Hnd. rewrite entries_split, map_app in Hnd.
    by apply NoDup_app_r in Hnd.
Qed.

Lemma compacted_input e : e ∈ compacted runs -> exists g, g ∈ inputs_of v /\ e ∈ frun rho g.
Proof.
  intros He%compacted_elem; [|apply compact_runs_wf].
  apply elem_of_concat in He as (r & (g & -> & Hg)%list_elem_of_fmap & He). by exists g.
Qed.

Lemma number_inj f g : f ∈ vfiles v -> g ∈ vfiles v -> fm_number f = fm_number g -> f = g.
Proof.
  intros Hf Hg E. pose proof (co_nodup _ _ _ _ _ _ _ _ _ Hco) as Hnd. fold v in Hnd.
  induction (vfiles v) as [|x l IH]; [by apply elem_of_nil in Hf|]. cbn [map] in Hnd.
  apply NoDup_cons in Hnd as [Hn Hnd]. apply elem_of_cons in Hf as [->|Hf], Hg as [->|Hg];
    [done|..|by apply IH]; destruct Hn; [rewrite E|rewrite <- E]; by apply list_elem_of_fmap_2.
Qed.

Lemma kept_disjoint f : f ∈ kept v -> disjoint_users (frun rho f) (compacted runs).
Proof.
  intros Hk a b Ha (g & Hg & Hb)%compacted_input E.
  pose proof (kept_in _ Hk) as Hf. unfold kept in Hk. apply list_elem_of_filter in Hk as [Hno _].
  unfold inputs_of in Hg. apply elem_of_app in Hg as [Hg|Hg].
  - apply (not_overlapping_disjoint db w g f (frun rho g) (frun rho f) (user_range (level0 v)) b a);
      try done; [..|by apply user_range_within];
      apply (co_files _ _ _ _ _ _ _ _ _ Hco), elem_of_app; [by left|by right].
  - apply list_elem_of_filter in Hg as [Hov Hg].
    apply (co_disjoint _ _ _ _ _ _ _ _ _ Hco f g Hf Hg) in E; try done.
    intros En. apply number_inj in En; [|apply elem_of_app; by right..]. congruence.
Qed.

Lemma newer_compacted r : r = rm \/ r = ri -> newer_than r (compacted runs).
Proof.
  intros Hr a b Ha (g & Hg & Hb)%compacted_input.
  assert (Hn : newer_than r (frun rho g)); [|by apply Hn].
  unfold inputs_of in Hg. apply elem_of_app in Hg as [Hg|Hg].
  - pose proof (co_order _ _ _ _ _ _ _ _ _ Hco) as Ho. unfold upper in Ho. fold v in Ho.
    apply StronglySorted_inv in Ho as [Ho H1]. apply StronglySorted_inv in Ho as [_ H2].
    rewrite Forall_forall in H1. rewrite Forall_forall in H2.
    assert (Hin : frun rho g ∈ map (frun rho) (reverse (level0 v)))
      by (by apply list_elem_of_fmap_2, elem_of_reverse).
    destruct Hr as [-> | ->]; [apply H1, elem_of_cons; by right|by apply H2].
  - apply list_elem_of_filter in Hg as [_ Hg]. apply (co_lower _ _ _ _ _ _ _ _ _ Hco); [|done].
    unfold upper. rewrite !elem_of_cons. tauto.
Qed.
End CompactCore.

Lemma core_compact db vs vs' mem imm w rm ri rho m meta added :
  core db vs mem imm w rm ri rho m ->
  let out := compacted (map (frun rho) (inputs_of (current_ vs))) in
  (added = [meta] /\ file_rep db w meta out \/ added = [] /\ out = []) ->
  0 <= fm_number meta < next_file_number_ vs' ->
  (forall f, f ∈ vfiles (current_ vs) -> fm_number f <> fm_number meta) ->
  vs_dbname vs' = vs_dbname vs -> manifest_file_number_ vs' = manifest_file_number_ vs ->
  next_file_number_ vs <= next_file_number_ vs' -> last_sequence_ vs' = last_sequence_ vs ->
  level0 (current_ vs') = [] -> level1 (current_ vs') ≡ₚ kept (current_ vs) ++ added ->
  core db vs' mem imm w rm ri (upd rho (fm_number meta) out) m /\
  (run_weight (entries rm ri (upd rho (fm_number meta) out) (current_ vs')) <=
    run_weight (entries rm ri rho (current_ vs)))%nat.
Proof.
  intros Hco out Hadd Hnum Hfresh Edb Eman Hnext Elast E0 E1.
  set (v := current_ vs) in *. set (rho' := upd rho (fm_number meta) out).
  assert (Hkeep : forall f, f ∈ kept v -> f ∈ level1 v /\ frun rho' f = frun rho f).
  { intros f Hf%kept_in. split; [done|]. unfold frun, rho', upd. rewrite decide_False; [done|].
    apply Hfresh, elem_of_app. by right. }
  assert (Hnew : frun rho' meta = out) by (unfold frun, rho', upd; by rewrite decide_True).
  assert (Hin : forall f, f ∈ level1 (current_ vs') -> f ∈ kept v \/ f = meta /\ added = [meta]).
  { intros f Hf. rewrite E1 in Hf. apply elem_of_app in Hf as [Hf|Hf]; [by left|].
    destruct Hadd as [[-> _]|[-> _]]; [|by apply elem_of_nil in Hf].
    apply list_elem_of_singleton in Hf. by right. }
  assert (Hv' : vfiles (current_ vs') = level1 (current_ vs')) by (unfold vfiles; by rewrite E0).
  assert (Hup : upper rm ri rho' (current_ vs') = [rm; ri]) by (unfold upper; by rewrite E0).
  assert (Hent : entries rm ri rho' (current_ vs') ≡ₚ
    (rm ++ ri ++ concat (map (frun rho) (kept v))) ++ out).
  { unfold entries, layers. rewrite Hup. unfold lower. simpl. rewrite <- !app_assoc.
    do 2 apply Permutation_app_head.
    rewrite (concat_map_perm (frun rho') (reverse _) (level1 (current_ vs'))) by apply reverse_Permutation.
    rewrite (concat_map_perm (frun rho') _ _ E1), map_app, concat_app.
    rewrite (map_ext_in (frun rho') (frun rho) (kept v)); [|intros f Hf; apply Hkeep; by apply list_elem_of_In].
    destruct Hadd as [[-> _]|[-> ->]]; [|done]. simpl. by rewrite Hnew, app_nil_r. }
  pose proof (entries_split (rm := rm) (ri := ri) (rho := rho) (vs := vs)) as Hsplit. fold v in Hsplit.
  pose proof (compact_runs_wf Hco) as [Hrw Hrnd]. fold v in Hrw, Hrnd.
  assert (Hsub : forall e, e ∈ entries rm ri rho' (current_ vs') -> e ∈ entries rm ri rho v).
  { intros e He. rewrite Hent in He. rewrite Hsplit. apply elem_of_app in He as [He|He]; apply elem_of_app;
      [by left|right]. by apply compacted_elem. }
  pose proof (core_entries_wf Hco) as [Hw Hnd]. fold v in Hw, Hnd.
  split; [|rewrite Hent, Hsplit; unfold run_weight; rewrite !sum_list_with_app;
    pose proof (compacted_weight _ Hrw); unfold run_weight, out in *; lia].
  assert (Hkd : forall f, f ∈ kept v -> disjoint_users (frun rho f) out) by (apply (kept_disjoint Hco)).
  assert (Hnc : forall r, r = rm \/ r = ri -> newer_than r out) by (apply (newer_compacted Hco)).
  destruct Hco as [H1 H2 H3 H4 H5 H6 H7 H8 H9 H10 H11 H12 H13]. fold v in H5, H6, H7, H8, H9, H10, H11, H13.
  assert (Hlo : forall f, f ∈ level1 v -> f ∈ vfiles v) by (intros f Hf; apply elem_of_app; by right).
  split; try congruence.
  - intros f Hf. rewrite Hv' in Hf. apply Hin in Hf as [Hf|[-> Ea]].
    + destruct (Hkeep _ Hf) as [? ->]. by apply H5, Hlo.
    + rewrite Hnew. destruct Hadd as [[_ ?]|[? _]]; [done|congruence].
  - intros f Hf. rewrite Hv' in Hf. apply Hin in Hf as [Hf|[-> Ea]]; [|lia].
    destruct (Hkeep _ Hf) as [Hl _]. specialize (H6 f (Hlo _ Hl)). lia.
  - rewrite Hv', E1, map_app. apply NoDup_app. split; [|split].
    + unfold vfiles in H7. rewrite map_app in H7. apply NoDup_app_r in H7.
      rewrite (level1_split v), map_app in H7. by apply NoDup_app_r in H7.
    + intros x (f & -> & Hf)%list_elem_of_fmap (g & Eg & Hg)%list_elem_of_fmap.
      assert (g = meta) as -> by (destruct Hadd as [[-> _]|[-> _]];
        [by apply list_elem_of_singleton in Hg|by apply elem_of_nil in Hg]).
      destruct (Hkeep _ Hf) as [Hl _]. by apply (Hfresh f (Hlo _ Hl)).
    + destruct Hadd as [[-> _]|[-> _]]; [apply NoDup_singleton|constructor].
  - rewrite Hup. unfold upper in H8. apply StronglySorted_inv in H8 as [_ Hf].
    apply Forall_cons in Hf as [Hf _]. by repeat constructor.
  - intros r f Hr Hf. rewrite Hup in Hr.
    assert (Hr' : r = rm \/ r = ri) by (rewrite !elem_of_cons, elem_of_nil in Hr; tauto).
    apply Hin in Hf as [Hf|[-> _]]; [|rewrite Hnew; by apply Hnc].
    destruct (Hkeep _ Hf) as [Hl ->]. apply H9; [|done]. unfold upper. rewrite !elem_of_cons. tauto.
  - intros f g Hf Hg Hne. apply Hin in Hf as [Hf|[-> _]], Hg as [Hg|[-> _]]; [..|done].
    + destruct (Hkeep _ Hf) as [? ->], (Hkeep _ Hg) as [? ->]. by apply H10.
    + destruct (Hkeep _ Hf) as [? ->]. rewrite Hnew. by apply Hkd.
    + destruct (Hkeep _ Hg) as [? ->]. rewrite Hnew. intros a b Ha Hb E. by apply (Hkd g Hg b a Hb Ha).
  - intros e He. rewrite Elast. by apply H11, Hsub.
  - rewrite Elast. lia.
  - intros u. rewrite Elast, <- H13. unfold lookup_run. do 2 f_equal.
    pose proof (keys_nodup_unique _ Hnd) as Hu.
    rewrite (newest_set u _ _ ((rm ++ ri ++ concat (map (frun rho) (kept v))) ++ out));
      [|apply Forall_forall; intros e He%Hsub; by rewrite Forall_forall in Hw; apply Hw
       |by eapply keys_unique_subset|intros e; by rewrite Hent].
    rewrite (newest_set u _ (entries rm ri rho v) _ Hw Hu (fun e => elem_of_Permutation_proper e _ _ Hsplit)).
    apply newest_app_congr, compacted_newest; [done..|].
    intros e He. apply H11. rewrite Hsplit. apply elem_of_app. by right.
Qed.

(** ** A write: the newest version of its key is added *)

Definition write_map (type : ValueType) (key value : bytes) (m : gmap bytes bytes) : gmap bytes bytes :=
  if decide (type = kTypeDeletion) then delete key m else <[key := value]> m.

Lemma seq_lt_packed a b : ikey_wf a -> ikey_wf b -> ExtractSequence a < ExtractSequence b ->
  packed_of a < packed_of b.
Proof.
  intros Ha Hb. rewrite !ExtractSequence_wf, !SequenceFromPack_eq by done. intros H.
  apply Z.nle_gt. intros Hle. apply (Z.div_le_mono _ _ 256) in Hle; lia.
Qed.

Lemma run_insert_weight e r : (run_weight (run_insert e r) <= weight e + run_weight r)%nat.
Proof.
  unfold run_insert, run_weight. induction r as [|a r IH]; simpl; [lia|].
  destruct (ikv_cmp a e); simpl; lia.
Qed.

Section AddCore.
Context {db vs mem imm w rm ri rho m} (Hco : core db vs mem imm w rm ri rho m).
Context (type : ValueType) (key value : bytes).
Let s := last_sequence_ vs + 1.
Let e : ikv := (MakeInternalKey key s type, value).
Context (Hs : s < 2 ^ 56) (Hwf : ikv_wf e).
Let es := entries rm ri rho (current_ vs).

Lemma new_seq : ExtractSequence e.1 = s.
Proof.
  apply ExtractSequence_Make. pose proof (co_counters _ _ _ _ _ _ _ _ _ Hco). unfold s in *. split; lia.
Qed.

Lemma new_is_newer x : x ∈ es -> ExtractSequence x.1 < s /\ packed_of x.1 < packed_of e.1.
Proof.
  intros Hx. pose proof (co_seq _ _ _ _ _ _ _ _ _ Hco x Hx).
  assert (ExtractSequence x.1 < s) by (unfold s; lia). split; [done|].
  apply seq_lt_packed; [|by destruct Hwf|by rewrite new_seq].
  destruct (core_entries_wf Hco) as [Hw _]. rewrite Forall_forall in Hw. by apply Hw.
Qed.

Lemma new_key x : x ∈ es -> x.1 <> e.1.
Proof. intros Hx E. apply new_is_newer in Hx as [H _]. rewrite E, new_seq in H. lia. Qed.

Lemma elem_of_new_entries x : x ∈ entries (run_insert e rm) ri rho (current_ vs) <-> x ∈ e :: es.
Proof.
  unfold es, entries, layers, upper. simpl. rewrite elem_of_cons, !elem_of_app.
  rewrite elem_of_run_insert by (done || by eapply mem_rep_sorted, Hco).
  split; [tauto|]. intros [->|[Hx|Hx]]; [by left; left| |by right].
  left. right. split; [done|]. apply new_key. unfold es, entries, layers, upper. simpl.
  apply elem_of_app. by left.
Qed.

Lemma newer_insert r : newer_than rm r -> (forall x, x ∈ r -> x ∈ es) -> newer_than (run_insert e rm) r.
Proof.
  intros Hn Hr a b Ha Hb E.
  apply elem_of_run_insert in Ha as [->|[Ha _]]; [..|done]; [|by apply Hn|by eapply mem_rep_sorted, Hco].
  by apply new_is_newer, Hr.
Qed.

Lemma lookup_new u : lookup_run u s (entries (run_insert e rm) ri rho (current_ vs)) ≫= id =
  write_map type key value m !! u.
Proof.
  destruct (core_entries_wf Hco) as [Hw Hnd]. fold es in Hw, Hnd.
  assert (newest u s (entries (run_insert e rm) ri rho (current_ vs)) = newest u s (e :: es)) as E.
  { symmetry. apply newest_set.
    - constructor; [by destruct Hwf|done].
    - apply keys_nodup_unique. cbn [map]. apply NoDup_cons. split; [|done].
      intros (x & Ex & Hx)%list_elem_of_fmap. by apply (new_key x).
    - intros x. by rewrite elem_of_new_entries. }
  pose proof (co_map _ _ _ _ _ _ _ _ _ Hco u) as Hm. fold es in Hm.
  unfold lookup_run in *. rewrite E. cbn [newest].
  rewrite (newest_all u (last_sequence_ vs) s es); [|apply (co_seq _ _ _ _ _ _ _ _ _ Hco)|unfold s; lia].
  assert (Hvis : visible u s e <-> key = u).
  { unfold visible. rewrite new_seq. unfold e. cbn [fst]. rewrite ExtractUserKey_Make.
    split; [by intros [-> _]|]. intros ->. split; [done|lia]. }
  unfold write_map. destruct (decide (visible u s e)) as [Hv|Hne].
  - apply Hvis in Hv. rewrite <- Hv in *. assert (match newest key (last_sequence_ vs) es with
      | Some e' => if packed_of e.1 <? packed_of e'.1 then Some e' else Some e | None => Some e end = Some e) as ->.
    { destruct (newest key (last_sequence_ vs) es) as [x|] eqn:Ex; [|done].
      apply newest_elem in Ex as [Hx _]. apply new_is_newer in Hx as [_ Hx].
      by rewrite (proj2 (Z.ltb_ge _ _)) by lia. }
    cbn. unfold read_entry, e. cbn [fst snd]. rewrite ExtractValueType_Make.
    destruct (decide (type = kTypeDeletion)); cbn; [by rewrite lookup_delete_eq|by rewrite lookup_insert_eq].
  - assert (key <> u) by (intros E'; by apply Hne, Hvis). rewrite Hm.
    destruct (decide (type = kTypeDeletion)); [by rewrite lookup_delete_ne|by rewrite lookup_insert_ne].
Qed.

Lemma core_add mem' : mem_rep mem' (run_insert e rm) ->
  core db (SetLastSequence s vs) mem' imm w (run_insert e rm) ri rho (write_map type key value m).
Proof.
  intros Hmem. pose proof newer_insert as Hni. pose proof lookup_new as Hlook.
  pose proof elem_of_new_entries as Hel. pose proof new_seq as Hseq.
  assert (Hin : forall r x, r ∈ upper rm ri rho (current_ vs) \/ r ∈ lower rho (current_ vs) -> x ∈ r -> x ∈ es).
  { intros r x Hr Hx. unfold es, entries. apply elem_of_concat. exists r. split; [|done].
    unfold layers. by apply elem_of_app. }
  destruct Hco as [H1 H2 H3 H4 H5 H6 H7 H8 H9 H10 H11 H12 H13].
  split; cbn [vs_dbname manifest_file_number_ current_ next_file_number_ last_sequence_ SetLastSequence with_counters];
    try done.
  - unfold upper in *. apply StronglySorted_inv in H8 as [Hl Hf]. constructor; [done|].
    apply Forall_forall. intros r Hr. rewrite Forall_forall in Hf. apply Hni; [by apply Hf|].
    intros x. apply Hin. left. apply elem_of_cons. by right.
  - intros r f Hr Hf. unfold upper in *. apply elem_of_cons in Hr as [->|Hr].
    + apply Hni; [apply H9; [|done]; apply elem_of_cons; by left|].
      intros x. apply Hin. right. apply elem_of_lower. by exists f.
    + apply H9; [|done]. apply elem_of_cons. by right.
  - intros x Hx. rewrite Hel in Hx. apply elem_of_cons in Hx as [->|Hx]; [rewrite Hseq; lia|].
    specialize (H11 x Hx). unfold s. lia.
  - unfold s. lia.
Qed.

Lemma entries_add_weight : (run_weight (entries (run_insert e rm) ri rho (current_ vs)) <= weight e + run_weight es)%nat.
Proof.
  unfold es, entries, layers, upper. cbn [concat app]. unfold run_weight. rewrite !sum_list_with_app.
  pose proof (run_insert_weight e rm). unfold run_weight in *. lia.
Qed.
End AddCore.

(** ** The empty database *)

Lemma core_empty db vs w rho : vs_dbname vs = db -> manifest_file_number_ vs = 1 ->
  current_ vs = Version_new -> last_sequence_ vs = 0 -> 0 <= next_file_number_ vs ->
  core db vs MemTable_new None w [] [] rho ∅.
Proof.
  intros Hdb Hman Hcur Hlast Hnext. split; rewrite ?Hcur, ?Hlast; cbn; try done.
  - apply mem_rep_new.
  - intros f Hf. by apply elem_of_nil in Hf.
  - intros f Hf. by apply elem_of_nil in Hf.
  - constructor.
  - repeat constructor. intros a b Ha. by apply elem_of_nil in Ha.
  - intros r f _ Hf. by apply elem_of_nil in Hf.
  - intros f g Hf. by apply elem_of_nil in Hf.
  - intros e He. by apply elem_of_nil in He.
Qed.
