(* ===== verification/DbRefine.v ===== *)
(** The database refines a map: whatever mixture of puts, deletes, reads,
    flushes and compactions runs, and whatever I/O errors occur, a read of the
    latest state returns what a finite map updated by the successful writes holds. *)
From S2P Require Import Prelude Status Slice Encoding InternalKey Run MemTable Env Wal Block.
From S2P Require Import Options SSTable Version Merge Compaction Db DbInv.

(** * The invariant, with the room that is left *)

(** [F] file numbers, [S] sequence numbers and [W] bytes of entries are left
    before a counter or a 32-bit length would wrap. *)
Record inv (F S W : Z) (m : gmap bytes bytes) (d : DBImpl) (rm ri : list ikv) (rho : Z -> list ikv) : Prop := {
  inv_core : core (dbname_ d) (versions_ d) (mem_ d) (imm_ d) (world d) rm ri rho m;
  inv_options : options_ok (options_ d);
  inv_wal : exists n, w_path (wal_ d) = LogFileName (dbname_ d) n;
  inv_files_left : next_file_number_ (versions_ d) + F < 2 ^ 64;
  inv_seqs_left : last_sequence_ (versions_ d) + S < 2 ^ 56;
  inv_bytes_left :
    Z.of_nat (run_weight (entries rm ri rho (current_ (versions_ d)))) + W + 40 < 2 ^ 32
}.

Definition db_inv (F S W : Z) (m : gmap bytes bytes) (d : DBImpl) : Prop :=
  exists rm ri rho, inv F S W m d rm ri rho.

(** The state after a step that changes only versions, tables and the world. *)
Definition with_state (vs : VersionSet) (imm : option MemTable) (w : World) (d : DBImpl) : DBImpl :=
  with_tables (mem_ d) imm (with_versions vs w d).

Lemma inv_next_number F S W m d rm ri rho : 0 <= F -> inv (F + 1) S W m d rm ri rho ->
  exists vs, next_number d = (Ret (next_file_number_ (versions_ d)), with_versions vs (world d) d) /\
    inv F S W m (with_versions vs (world d) d) rm ri rho /\
    vs_dbname vs = dbname_ d /\ manifest_file_number_ vs = 1 /\
    current_ vs = current_ (versions_ d) /\ last_sequence_ vs = last_sequence_ (versions_ d) /\
    next_file_number_ vs = next_file_number_ (versions_ d) + 1.
Proof.
  intros HF [Hc Ho Hw Hf Hs Hb]. unfold next_number, NextFileNumber.
  pose proof (co_counters _ _ _ _ _ _ _ _ _ Hc) as [Hl Hn].
  rewrite u64_small by lia. eexists. split; [reflexivity|].
  split; [|split; [apply Hc|split; [apply Hc|done]]].
  split; cbn; try done; [|lia]. eapply core_counters; [exact Hc|done|done|done|..]; cbn; lia.
Qed.

(** A number never given to a file of the current version. *)
Lemma fresh_number {db vs mem imm w rm ri rho m} f : core db vs mem imm w rm ri rho m ->
  f ∈ vfiles (current_ vs) -> fm_number f <> next_file_number_ vs.
Proof. intros Hc Hf. pose proof (co_numbers _ _ _ _ _ _ _ _ _ Hc f Hf). lia. Qed.

(** Writing a table under a fresh number leaves the others. *)
Lemma core_new_table {db vs mem imm w rm ri rho m} n w' : core db vs mem imm w rm ri rho m ->
  touches (TableFileName db n) w w' -> 0 <= n ->
  (forall f, f ∈ vfiles (current_ vs) -> fm_number f <> n) -> core db vs mem imm w' rm ri rho m.
Proof.
  intros Hc Ht Hn Hfresh. eapply core_world; [exact Hc|]. intros f Hf. apply (touch_files _ _ _ Ht).
  intros E. pose proof (co_numbers _ _ _ _ _ _ _ _ _ Hc f Hf).
  apply TableFileName_inj in E; [|lia..]. by apply (Hfresh f).
Qed.

Lemma core_manifest {db vs mem imm w rm ri rho m} w' : core db vs mem imm w rm ri rho m ->
  touches (ManifestFileName db 1) w w' -> core db vs mem imm w' rm ri rho m.
Proof. intros Hc Ht. eapply core_touch; [exact Hc|exact Ht|]. intros n _. apply Table_ne_Manifest. Qed.

Lemma core_log {db vs mem imm w rm ri rho m} n w' : core db vs mem imm w rm ri rho m ->
  touches (LogFileName db n) w w' -> core db vs mem imm w' rm ri rho m.
Proof. intros Hc Ht. eapply core_touch; [exact Hc|exact Ht|]. intros k _. apply Table_ne_Log. Qed.

(** [meta.file_size > 0 && !meta.smallest.empty()] holds exactly for a table with entries. *)
Lemma meta_nonempty meta n file es : meta_ok meta n file es -> Forall ikv_wf es -> len32 file ->
  sst_rep file es -> (0 <? file_size meta) && negb (empty (smallest meta)) = bool_decide (es <> []).
Proof.
  intros (_ & Hsz & Hsm & _) Hwf Hl (bls & idata & ioff & _ & _ & body & Hfile).
  apply (f_equal length) in Hfile. rewrite length_app, length_footer in Hfile.
  unfold len32 in Hl. rewrite Hsz, Hsm, u64_small by lia.
  replace (0 <? Z.of_nat (length file)) with true by (symmetry; apply Z.ltb_lt; lia).
  destruct es as [|e es]; [done|]. rewrite bool_decide_true by done.
  apply Forall_cons in Hwf as [[Hk _ _ _] _].
  destruct e as [[|b k] v]; [|done]. unfold ikey_wf in Hk. simpl in Hk. lia.
Qed.

(** * Flush *)

Lemma flush_edit_levels last meta v :
  levels_ok (SetLastSequence_edit last (AddFile 0 meta VersionEdit_new)) /\
  edit_level 0 (SetLastSequence_edit last (AddFile 0 meta VersionEdit_new)) (level0 v) = level0 v ++ [meta] /\
  edit_level 1 (SetLastSequence_edit last (AddFile 0 meta VersionEdit_new)) (level1 v) = level1 v.
Proof.
  split; [split; cbn; [apply Forall_singleton; by left|constructor]|].
  split; [done|]. unfold edit_level. cbn. by rewrite app_nil_r.
Qed.

(** What a background job leaves: the invariant, and a result that is an error
    only if a fault occurred. *)
Definition job_result (F S W : Z) (m : gmap bytes bytes) (d : DBImpl) (r : Res unit)
    (vs : VersionSet) (imm : option MemTable) (w : World) : Prop :=
  db_inv F S W m (with_state vs imm w d) /\ (no_faults (world d) -> no_faults w) /\
  (r = Ret tt \/ exists e, r = Fail e /\ ok e = false /\ ~ no_faults (world d)).

(** Projections of a database state built by the update functions. *)
Ltac db_cbn :=
  cbn [options_ dbname_ versions_ mem_ imm_ wal_ logfile_number_ bg_working_ flush_scheduled_
    compaction_scheduled_ bg_error_ world with_versions with_wal with_tables with_logfile with_flags
    with_error with_state vs_dbname current_ next_file_number_ last_sequence_ log_number_
    manifest_file_number_ with_current with_counters merge_counters next_file_number last_sequence
    log_number SetLastSequence_edit SetLogNumber SetNextFile AddFile VersionEdit_new DBImpl_new
    VersionSet_new fst snd] in *.

Lemma with_versions_twice vs w vs' w' d : with_versions vs w (with_versions vs' w' d) = with_versions vs w d.
Proof. done. Qed.

Lemma on_LogAndApply e d : levels_ok e -> vs_dbname (versions_ d) = dbname_ d ->
  manifest_file_number_ (versions_ d) = 1 ->
  exists r vs w, on_versions (LogAndApply e) d = (r, with_versions vs w d) /\
    touches (ManifestFileName (dbname_ d) 1) (world d) w /\
    ((exists er, r = Fail er /\ ok er = false /\ ~ no_faults (world d) /\
       vs = merge_counters e (versions_ d)) \/
     r = Ret tt /\ exists v, vs = with_current v (merge_counters e (versions_ d)) /\
       level0 v = edit_level 0 e (level0 (current_ (versions_ d))) /\
       level1 v ≡ₚ edit_level 1 e (level1 (current_ (versions_ d))) /\
       (added_files e = [] -> level1 v = edit_level 1 e (level1 (current_ (versions_ d))))).
Proof.
  intros He Hdb Hman. destruct (LogAndApply_spec (versions_ d) (world d) e He) as (r & vs & w & E & Ht & H).
  rewrite Hdb, Hman in Ht. exists r, vs, w. split; [|done]. unfold on_versions, zoom. by rewrite E.
Qed.

(** Building the table of [ri] under number [n]. *)
Lemma build_flush options db t ri n w : options_ok options -> mem_rep t ri ->
  Z.of_nat (run_weight ri) + 40 < 2 ^ 32 ->
  exists r w', BuildTableFromMemTable options (TableFileName db n) t n w = (r, w') /\
    touches (TableFileName db n) w w' /\
    ((exists e, r = Fail e /\ ok e = false /\ ~ no_faults w) \/
     exists meta, r = Ret meta /\ fm_number meta = n /\ (ri <> [] -> file_rep db w' meta ri) /\
       (0 <? file_size meta) && negb (empty (smallest meta)) = bool_decide (ri <> [])).
Proof.
  intros Ho Hm Hb. pose proof (mem_rep_sorted _ _ Hm) as Hwf.
  unfold BuildTableFromMemTable. sm_step. rewrite (mem_rep_iterate _ _ Hm).
  destruct (build_table_spec options (TableFileName db n) n ri w Ho) as (r & w' & E & Ht & H).
  { destruct Hwf as [Hw _]. eapply Forall_impl; [exact Hw|]. by intros e []. }
  exists r, w'. split; [done|]. split; [done|].
  destruct H as [?|(meta & file & -> & Hf & Hmeta & Hrep & Hlen)]; [by left|right].
  assert (Hl : len32 file) by (unfold len32; lia). exists meta. split; [done|].
  split; [apply Hmeta|]. split; [intros Hne; by eapply meta_file_rep; eauto|].
  eapply meta_nonempty; eauto. by destruct Hwf.
Qed.

Lemma run_weight_app a b : run_weight (a ++ b) = (run_weight a + run_weight b)%nat.
Proof. unfold run_weight. by rewrite sum_list_with_app. Qed.

(** An immutable table without entries can be dropped. *)
Lemma core_drop_imm db vs mem imm w rm rho m : core db vs mem imm w rm [] rho m ->
  core db vs mem None w rm [] rho m.
Proof. by intros []. Qed.

Lemma FlushMemTable_inv F S W m d : 0 <= F -> 0 <= W -> db_inv (F + 1) S W m d ->
  exists r vs imm w, FlushMemTable d = (r, with_state vs imm w d) /\
    job_result F S W m d r vs imm w /\ (r = Ret tt -> imm = None).
Proof.
  intros HF HW (rm & ri & rho & Hi). unfold FlushMemTable. sm_step.
  destruct (imm_ d) as [t|] eqn:Eimm.
  2: { exists (Ret tt), (versions_ d), (imm_ d), (world d).
    assert (with_state (versions_ d) (imm_ d) (world d) d = d) as E by (by destruct d).
    unfold job_result. rewrite E. split; [done|]. split; [|done]. split; [|split; [done|by left]].
    exists rm, ri, rho. destruct Hi. split; try done. lia. }
  destruct (inv_next_number F S W m d rm ri rho HF Hi) as (vs1 & E1 & Hi1 & Edb & Eman & Ecur & Elast & Enext).
  rewrite E1. sm_step. set (n := next_file_number_ (versions_ d)) in *.
  destruct Hi1 as [Hc1 Ho1 Hw1 Hf1 Hs1 Hb1]. db_cbn. rewrite Eimm in Hc1.
  pose proof (co_imm _ _ _ _ _ _ _ _ _ Hc1) as Himm. simpl in Himm.
  destruct (build_flush (options_ d) (dbname_ d) t ri n (world d) Ho1 Himm) as (rb & w1 & Eb & Ht & Hb).
  { unfold entries, layers, upper in Hb1. simpl in Hb1. rewrite !run_weight_app in Hb1. lia. }
  assert (Hfresh : forall f, f ∈ vfiles (current_ vs1) -> fm_number f <> n)
    by (rewrite Ecur; intros f; apply (fresh_number f (inv_core _ _ _ _ _ _ _ _ Hi))).
  assert (Hn : 0 <= n) by (apply (co_counters _ _ _ _ _ _ _ _ _ (inv_core _ _ _ _ _ _ _ _ Hi))).
  pose proof (core_new_table n w1 Hc1 Ht Hn Hfresh) as Hc2.
  unfold on_world, zoom. db_cbn. rewrite Eb. unfold job_result.
  destruct Hb as [(e & -> & He & Hnf)|(meta & -> & Enum & Hrep & Hne)].
  { eexists _, vs1, (imm_ d), w1. split; [reflexivity|]. split; [|done].
    split; [|split; [apply Ht|right; eauto]]. exists rm, ri, rho.
    split; db_cbn; try done. by rewrite Eimm. }
  rewrite Hne. destruct (bool_decide_reflect (ri <> [])) as [Hri|Hri].
  2: { assert (ri = []) as -> by (by destruct ri; [|destruct Hri]).
    eexists _, vs1, None, w1. split; [reflexivity|]. split; [|done].
    split; [|split; [apply Ht|by left]]. exists rm, [], rho.
    split; db_cbn; try done. by eapply core_drop_imm. }
  specialize (Hrep Hri).
  destruct (flush_edit_levels (last_sequence_ vs1) meta (current_ vs1)) as (Hlv & El0 & El1).
  destruct (on_LogAndApply _ (with_versions vs1 w1 d) Hlv Edb Eman) as (rl & vs2 & w2 & El & Ht2 & Hl).
  db_cbn. rewrite with_versions_twice, El.
  assert (Hnf : no_faults (world d) -> no_faults w2) by (intros H; by apply (touch_faults _ _ _ Ht2), (touch_faults _ _ _ Ht)).
  destruct Hl as [(er & -> & Her & Hfault & ->)|(-> & v & -> & Hv0 & Hv1 & Hv1')].
  - eexists _, _, (imm_ d), w2. split; [reflexivity|]. split; [|done]. split; [|split; [done|right]].
    2: { exists er. split; [done|]. split; [done|]. intros H. by apply Hfault, (touch_faults _ _ _ Ht). }
    exists rm, ri, rho. split; db_cbn; try done; [|lia]. rewrite Eimm.
    eapply core_manifest; [|exact Ht2]. eapply core_counters; [exact Hc2|done..| |]; db_cbn; lia.
  - eexists _, _, None, w2. split; [reflexivity|]. split; [|done]. split; [|split; [done|by left]].
    assert (Hc3 : core (dbname_ d) vs1 (mem_ d) (Some t) w2 rm ri rho m) by (by eapply core_manifest).
    assert (Hrep2 : file_rep (dbname_ d) w2 meta ri).
    { eapply file_rep_world; [|exact Hrep]. apply (touch_files _ _ _ Ht2), Table_ne_Manifest. }
    rewrite El0 in Hv0. rewrite El1 in Hv1.
    edestruct (core_flush _ vs1 (with_current v (merge_counters (SetLastSequence_edit (last_sequence_ vs1)
      (AddFile 0 meta VersionEdit_new)) vs1)) _ _ _ _ _ _ _ meta Hc3 Hrep2) as [Hc4 Hent];
      db_cbn; rewrite ?Enum; try (done || lia).
    exists rm, [], (upd rho (fm_number meta) ri). split; db_cbn; try (done || lia).
    by rewrite Hent.
Qed.

(** * Compaction *)

Lemma filter_ext_elem {A} (P Q : A -> Prop) `{!forall x, Decision (P x), !forall x, Decision (Q x)} (l : list A) :
  (forall x, x ∈ l -> P x <-> Q x) -> filter P l = filter Q l.
Proof.
  induction l as [|x l IH]; intros He; [done|]. rewrite !filter_cons.
  rewrite IH by (intros y Hy; apply He, elem_of_cons; by right).
  destruct (He x ltac:(apply elem_of_cons; by left)) as [H1 H2].
  destruct (decide (P x)), (decide (Q x)); tauto.
Qed.
Lemma filter_none {A} (P : A -> Prop) `{!forall x, Decision (P x)} (l : list A) :
  (forall x, x ∈ l -> ~ P x) -> filter P l = [].
Proof.
  intros He. rewrite (filter_ext_elem P (fun _ => False)) by (intros x Hx; specialize (He x Hx); tauto).
  induction l; [done|]. rewrite filter_cons_False by tauto. apply IHl.
  intros x Hx. apply He, elem_of_cons. by right.
Qed.

Lemma del_level_filter k ds fs :
  del_level k ds fs = filter (fun f => (k, fm_number f) ∉ ds) fs.
Proof.
  revert fs. induction ds as [|[j n] ds IH]; intros fs.
  { induction fs as [|f fs IH]; [done|]. rewrite filter_cons_True by apply not_elem_of_nil.
    by rewrite <- IH. }
  unfold del_level in *. cbn [foldl fst snd]. rewrite IH. unfold erase_number.
  destruct (Z.eqb_spec j k) as [->|Hne].
  - rewrite list_filter_filter. apply list_filter_iff. intros f. rewrite not_elem_of_cons.
    split; intros [H1 H2]; (split; [|done]) || (split; [done|]); congruence.
  - apply list_filter_iff. intros f. rewrite not_elem_of_cons. split; [|tauto].
    intros H. split; [|done]. by intros [= E _].
Qed.

Lemma compaction_edit_eq res last : compaction_edit res last =
  mkVersionEdit None (Some last) None
    (if (0 <? file_size (cr_output res)) && negb (empty (smallest (cr_output res)))
     then [(1, cr_output res)] else []) (cr_inputs res).
Proof.
  unfold compaction_edit. rewrite foldl_deleted. by destruct (_ && _).
Qed.

Section CompactionEdit.
Context {db vs mem imm w rm ri rho m} (Hco : core db vs mem imm w rm ri rho m).
Let v := current_ vs.
Let inputs := map (fun f => (0, fm_number f)) (level0 v) ++
  map (fun f => (1, fm_number f)) (overlapping (level1 v) (user_range (level0 v))).

Lemma in_inputs k n : (k, n) ∈ inputs <->
  (k = 0 /\ exists f, f ∈ level0 v /\ n = fm_number f) \/
  (k = 1 /\ exists f, f ∈ overlapping (level1 v) (user_range (level0 v)) /\ n = fm_number f).
Proof. unfold inputs. rewrite elem_of_app, !list_elem_of_fmap. naive_solver. Qed.

Lemma compact_level0 : del_level 0 inputs (level0 v) = [].
Proof.
  rewrite del_level_filter. apply filter_none. intros f Hf H. apply H, in_inputs. left. eauto.
Qed.

Lemma compact_level1 : del_level 1 inputs (level1 v) = kept v.
Proof.
  rewrite del_level_filter. unfold kept. apply filter_ext_elem. intros f Hf. rewrite in_inputs. split.
  - intros Hn. destruct (FileOverlapsRange _ _ _) eqn:E; [|done]. destruct Hn. right. split; [done|].
    exists f. split; [|done]. by apply list_elem_of_filter.
  - intros Hno [[? _]|[_ (g & Hg & E)]]; [done|]. apply list_elem_of_filter in Hg as [Hov Hg].
    apply (number_inj Hco) in E; [|apply elem_of_app; by right..]. congruence.
Qed.

(** No file of the new version is removed. *)
Lemma kept_not_input f k : f ∈ kept v -> (k, fm_number f) ∉ inputs.
Proof.
  rewrite <- compact_level1, del_level_filter. intros [Hn Hf]%list_elem_of_filter Hin.
  pose proof Hin as Hin'. apply in_inputs in Hin' as [[-> (g & Hg & E)]|[-> _]]; [|done].
  pose proof (co_nodup _ _ _ _ _ _ _ _ _ Hco) as Hnd. fold v in Hnd. unfold vfiles in Hnd.
  rewrite map_app in Hnd. apply NoDup_app in Hnd as (_ & Hd & _).
  apply (Hd (fm_number f)); [rewrite E|]; by apply list_elem_of_fmap_2.
Qed.
End CompactionEdit.

Lemma remove_file_spec path w : exists w', remove_file path w = (Ret tt, w') /\ touches path w w'.
Proof.
  unfold remove_file. sm_step. destruct (next_fault_cases path w) as (f & w1 & -> & Hf & Ht & _).
  destruct f; eexists; (split; [reflexivity|]); [done|]. eapply touches_trans; [exact Ht|].
  split; [done| |done]. intros p Hp. by apply lookup_delete_ne.
Qed.

Lemma remove_inputs (db : bytes) ins d : exists w,
  for_each ins (fun i : Z * Z => on_world (remove_file (db ++ lit "/" ++ to_string i.2 ++ lit ".sst"))) d
    = (Ret tt, with_versions (versions_ d) w d) /\ (no_faults (world d) -> no_faults w) /\
  forall p, (forall i, i ∈ ins -> p <> TableFileName db i.2) -> files w !! p = files (world d) !! p.
Proof.
  revert d. induction ins as [|i ins IH]; intros d.
  { exists (world d). split; [by destruct d|]. done. }
  destruct (remove_file_spec (TableFileName db i.2) (world d)) as (w1 & E1 & Ht).
  destruct (IH (with_versions (versions_ d) w1 d)) as (w & E & Hn & Hp). db_cbn.
  exists w. split; [|split].
  - cbn [for_each]. unfold mbind, SM_bind, on_world at 1, zoom. unfold TableFileName in E1. rewrite E1.
    by rewrite E.
  - intros H. by apply Hn, Ht.
  - intros p Hne. rewrite Hp by (intros j Hj; apply Hne, elem_of_cons; by right).
    apply (touch_files _ _ _ Ht), Hne, elem_of_cons. by left.
Qed.

Lemma cat_weight_le (rm ri : list ikv) rho v :
  (run_weight (compacted (map (frun rho) (inputs_of v))) <= run_weight (concat (map (frun rho) (inputs_of v))))%nat ->
  (run_weight (compacted (map (frun rho) (inputs_of v))) <= run_weight (entries rm ri rho v))%nat.
Proof.
  intros H. pose proof (entries_split (rm := rm) (ri := ri) (rho := rho) (vs := with_current v (VersionSet_new []))) as E.
  cbn [current_ with_current] in E. rewrite E, run_weight_app. lia.
Qed.

(** The output of a compaction of the current version. *)
Lemma build_compaction {db vs mem imm w rm ri rho m} options n : core db vs mem imm w rm ri rho m ->
  options_ok options ->
  Z.of_nat (run_weight (entries rm ri rho (current_ vs))) + 40 < 2 ^ 32 ->
  let out := compacted (map (frun rho) (inputs_of (current_ vs))) in
  exists r w', CompactLevel0 options db (current_ vs) n w = (r, w') /\
    touches (TableFileName db n) w w' /\
    ((exists e, r = Fail e /\ ok e = false /\ ~ no_faults w) \/
     exists res, r = Ret res /\ fm_number (cr_output res) = n /\
       (out <> [] -> file_rep db w' (cr_output res) out) /\
       (0 <? file_size (cr_output res)) && negb (empty (smallest (cr_output res))) = bool_decide (out <> []) /\
       cr_inputs res = map (fun f => (0, fm_number f)) (level0 (current_ vs)) ++
         map (fun f => (1, fm_number f)) (overlapping (level1 (current_ vs)) (user_range (level0 (current_ vs))))).
Proof.
  intros Hco Ho Hb out. pose proof (compact_runs_wf Hco) as [Hrw Hnd].
  destruct (CompactLevel0_spec options db (current_ vs) n w rho Ho) as (r & w' & E & Ht & H).
  { intros f Hf. by apply (co_files _ _ _ _ _ _ _ _ _ Hco). }
  exists r, w'. split; [done|]. split; [done|].
  destruct H as [?|(res & file & -> & Hf & Hmeta & Hins & Hrep & Hlen)]; [by left|right].
  change (map (fun f => rho (fm_number f)) (inputs_of (current_ vs)))
    with (map (frun rho) (inputs_of (current_ vs))) in *. fold out in Hmeta, Hrep, Hlen.
  pose proof (cat_weight_le rm ri rho (current_ vs) (compacted_weight _ Hrw)) as Hle. fold out in Hle.
  pose proof (compacted_run_wf _ Hrw Hnd) as Hwf. fold out in Hwf.
  assert (Hl : len32 file) by (unfold len32; lia). exists res. split; [done|].
  split; [apply Hmeta|]. split; [intros Hne; by eapply meta_file_rep; eauto|].
  split; [|done]. eapply meta_nonempty; eauto. by destruct Hwf.
Qed.

(** What the compaction's edit does to the levels. *)
Lemma compaction_levels {db vs mem imm w rm ri rho m} res added last : core db vs mem imm w rm ri rho m ->
  cr_inputs res = map (fun f => (0, fm_number f)) (level0 (current_ vs)) ++
    map (fun f => (1, fm_number f)) (overlapping (level1 (current_ vs)) (user_range (level0 (current_ vs)))) ->
  added = [(1, cr_output res)] \/ added = [] ->
  let e := mkVersionEdit None (Some last) None added (cr_inputs res) in
  levels_ok e /\ edit_level 0 e (level0 (current_ vs)) = [] /\
  edit_level 1 e (level1 (current_ vs)) = kept (current_ vs) ++ map snd added.
Proof.
  intros Hco Hins Hadd e. unfold edit_level, e. cbn [added_files deleted_files]. rewrite Hins.
  rewrite (compact_level0 (vs := vs)), (compact_level1 Hco). split; [|by destruct Hadd as [-> | ->]].
  split; cbn.
  - destruct Hadd as [-> | ->]; [|constructor]. apply Forall_singleton. by right.
  - apply Forall_app. split; apply Forall_map, Forall_forall; intros f _; [by left|by right].
Qed.

Lemma CompactIfNeeded_inv F S W m d : 0 <= F -> 0 <= W -> db_inv (F + 1) S W m d ->
  exists r vs w, CompactIfNeeded d = (r, with_versions vs w d) /\
    job_result F S W m d r vs (imm_ d) w.
Proof.
  intros HF HW (rm & ri & rho & Hi). unfold CompactIfNeeded. sm_step.
  assert (Hstate : forall vs w, with_state vs (imm_ d) w d = with_versions vs w d) by done.
  unfold job_result. setoid_rewrite Hstate.
  destruct (_ <? _).
  { exists (Ret tt), (versions_ d), (world d).
    assert (with_versions (versions_ d) (world d) d = d) as -> by (by destruct d).
    split; [done|]. split; [|split; [done|by left]].
    exists rm, ri, rho. destruct Hi. split; try done. lia. }
  destruct (inv_next_number F S W m d rm ri rho HF Hi) as (vs1 & E1 & Hi1 & Edb & Eman & Ecur & Elast & Enext).
  rewrite E1. sm_step. set (n := next_file_number_ (versions_ d)) in *.
  destruct Hi1 as [Hc1 Ho1 Hw1 Hf1 Hs1 Hb1]. db_cbn. rewrite <- Ecur.
  destruct (build_compaction (options_ d) n Hc1 Ho1) as (rb & w1 & Eb & Ht & Hb); [lia|].
  set (out := compacted (map (frun rho) (inputs_of (current_ vs1)))) in *.
  assert (Hfresh : forall f, f ∈ vfiles (current_ vs1) -> fm_number f <> n)
    by (rewrite Ecur; intros f; apply (fresh_number f (inv_core _ _ _ _ _ _ _ _ Hi))).
  assert (Hn : 0 <= n) by (apply (co_counters _ _ _ _ _ _ _ _ _ (inv_core _ _ _ _ _ _ _ _ Hi))).
  pose proof (core_new_table n w1 Hc1 Ht Hn Hfresh) as Hc2.
  unfold on_world at 1, zoom. db_cbn. rewrite Eb.
  destruct Hb as [(e & -> & He & Hnf)|(res & -> & Enum & Hrep & Hne & Hins)].
  { eexists _, vs1, w1. split; [reflexivity|]. split; [|split; [apply Ht|right; eauto]].
    exists rm, ri, rho. split; db_cbn; done. }
  db_cbn. rewrite with_versions_twice, compaction_edit_eq, Hne.
  set (added := if bool_decide (out <> []) then [(1, cr_output res)] else []).
  set (e := mkVersionEdit None (Some (last_sequence_ vs1)) None added (cr_inputs res)).
  destruct (compaction_levels res added (last_sequence_ vs1) Hc1 Hins) as (Hlv & El0 & El1).
  { subst added. by destruct (bool_decide _); [left|right]. }
  destruct (on_LogAndApply e (with_versions vs1 w1 d) Hlv Edb Eman) as (rl & vs2 & w2 & El & Ht2 & Hl).
  rewrite El. db_cbn.
  assert (Hnf : no_faults (world d) -> no_faults w2)
    by (intros H; by apply (touch_faults _ _ _ Ht2), (touch_faults _ _ _ Ht)).
  pose proof (core_manifest w2 Hc2 Ht2) as Hc3.
  destruct Hl as [(er & -> & Her & Hfault & ->)|(-> & v & -> & Hv0 & Hv1 & Hv1')].
  { eexists _, _, w2. split; [reflexivity|]. split; [|split; [done|right]].
    2: { exists er. split; [done|]. split; [done|]. intros H. by apply Hfault, (touch_faults _ _ _ Ht). }
    exists rm, ri, rho. split; db_cbn; try done; subst e; db_cbn; [|lia].
    eapply core_counters; [exact Hc3|done..| |]; db_cbn; lia. }
  rewrite with_versions_twice.
  destruct (remove_inputs (dbname_ d) (cr_inputs res) (with_versions
    (with_current v (merge_counters e vs1)) w2 d)) as (w3 & Er & Hn3 & Hp3).
  rewrite Er. db_cbn. rewrite with_versions_twice.
  eexists _, _, w3. split; [reflexivity|]. split; [|split; [auto|by left]].
  fold e in El0, El1. rewrite El0 in Hv0. rewrite El1 in Hv1.
  destruct (core_compact _ vs1 (with_current v (merge_counters e vs1)) _ _ _ _ _ _ _
    (cr_output res) (map snd added) Hc3) as [Hc4 Hwt]; db_cbn; rewrite ?Enum; try (done || lia).
  { fold out. subst added. destruct (bool_decide_reflect (out <> [])) as [Ho|Ho]; [left|right].
    - split; [done|]. eapply file_rep_world; [|by apply Hrep].
      apply (touch_files _ _ _ Ht2), Table_ne_Manifest.
    - split; [done|]. destruct out; [done|by destruct Ho]. }
  all: try (subst e; db_cbn; lia).
  rewrite Enum in Hc4, Hwt. fold out in Hc4, Hwt. exists rm, ri, (upd rho n out).
  split; db_cbn; try done; [|subst e; db_cbn; lia..].
  eapply core_world; [exact Hc4|]. db_cbn. intros f Hf. apply Hp3. intros [k num] Hi' E. cbn [snd] in E.
  unfold vfiles in Hf. rewrite Hv0, Hv1 in Hf. cbn [app] in Hf.
  assert (0 <= fm_number f) by (apply (co_numbers _ _ _ _ _ _ _ _ _ Hc4); unfold vfiles; db_cbn; by rewrite Hv0, Hv1).
  pose proof Hi' as Hk. rewrite Hins, elem_of_app, !list_elem_of_fmap in Hk.
  assert (0 <= num /\ num < n).
  { destruct Hk as [(g & [= _ ->] & Hg)|(g & [= _ ->] & Hg)].
    all: assert (Hg' : g ∈ vfiles (current_ vs1)) by (apply elem_of_app;
      first [by left | right; by apply list_elem_of_filter in Hg as [_ ?]]).
    all: pose proof (co_numbers _ _ _ _ _ _ _ _ _ Hc1 g Hg'); pose proof (Hfresh g Hg'); lia. }
  apply TableFileName_inj in E; [|lia..]. subst num. apply elem_of_app in Hf as [Hf|Hf].
  - rewrite Hins in Hi'. by apply (kept_not_input Hc1 f k Hf).
  - assert (f = cr_output res) as -> by (subst added; destruct (bool_decide _);
      [by apply list_elem_of_singleton in Hf|by apply elem_of_nil in Hf]). lia.
Qed.

(** * The background thread *)

(** A writer that would wait is woken: a flush is scheduled, or an error is kept. *)
Definition sched (d : DBImpl) : Prop := imm_ d <> None ->
  write_buffer_size (options_ d) <= ApproximateMemoryUsage (mem_ d) ->
  flush_scheduled_ d = true \/ ok (bg_error_ d) = false.

(** Nothing has gone wrong, and nothing will. *)
Definition healthy (d : DBImpl) : Prop := no_faults (world d) /\
  w_open (wal_ d) = true /\ w_good (wal_ d) = true /\ ok (bg_error_ d) = true.

Lemma inv_flags F S W m d a b c : db_inv F S W m d -> db_inv F S W m (with_flags a b c d).
Proof. intros (rm & ri & rho & []). by exists rm, ri, rho. Qed.
Lemma inv_error F S W m d e : db_inv F S W m d -> db_inv F S W m (with_error e d).
Proof. intros (rm & ri & rho & []). by exists rm, ri, rho. Qed.
Lemma inv_less F S W F' S' W' m d : F' <= F -> S' <= S -> W' <= W -> db_inv F S W m d -> db_inv F' S' W' m d.
Proof. intros HF HS HW (rm & ri & rho & []). exists rm, ri, rho. split; (done || lia). Qed.

(** What the background thread may change. *)
Record bg_frame (d d' : DBImpl) : Prop := {
  bgf_mem : mem_ d' = mem_ d;
  bgf_options : options_ d' = options_ d;
  bgf_wal : wal_ d' = wal_ d;
  bgf_healthy : healthy d -> healthy d'
}.

Lemma background_job F S W m d job r vs imm w : job d = (r, with_state vs imm w d) ->
  job_result F S W m d r vs imm w ->
  exists d', background job d = (Ret tt, d') /\ db_inv F S W m d' /\ bg_frame d d' /\ imm_ d' = imm /\
    flush_scheduled_ d' = flush_scheduled_ d /\
    (r = Ret tt \/ ok (bg_error_ d') = false) /\ (bg_error_ d' = bg_error_ d \/ ok (bg_error_ d') = false).
Proof.
  intros E (Hi & Hn & Hr). unfold background. sm_step. rewrite E. destruct Hr as [->|(e & -> & He & Hnf)].
  - eexists. split; [reflexivity|]. split; [done|]. split; [|by repeat split; left].
    split; try done. intros (H1 & H2 & H3 & H4). split; [by apply Hn|done].
  - eexists. split; [reflexivity|]. split; [by apply inv_error|]. split; [|by repeat split; right].
    split; try done. by intros (H1 & _).
Qed.

Lemma BackgroundRound_inv F S W m d : 0 <= F -> 0 <= W -> db_inv (F + 1) S W m d -> sched d ->
  exists d', BackgroundRound d = (Ret tt, d') /\ db_inv F S W m d' /\ sched d' /\ bg_frame d d' /\
    (flush_scheduled_ d = true -> imm_ d' = None \/ ok (bg_error_ d') = false).
Proof.
  intros HF HW Hi Hs. unfold BackgroundRound. sm_step.
  destruct (negb (flush_scheduled_ d) && negb (compaction_scheduled_ d)) eqn:Enone.
  { exists d. split; [done|]. split; [by eapply (inv_less (F + 1) S W); [lia..|]|]. split; [done|].
    split; [done|]. intros Ef. by rewrite Ef in Enone. }
  destruct (flush_scheduled_ d && bool_decide (is_Some (imm_ d))) eqn:Eflush.
  - set (d0 := with_flags _ false _ _). destruct (FlushMemTable_inv F S W m d0 HF HW) as (r & vs & imm & w & E & Hj & Hnone).
    { by do 2 apply inv_flags. }
    destruct (background_job _ _ _ _ _ _ _ _ _ _ E Hj) as (d1 & -> & Hi1 & Hf & Himm & _ & Hr & _).
    eexists. split; [reflexivity|]. split; [by do 2 apply inv_flags|].
    assert (Hd : imm_ d1 = None \/ ok (bg_error_ d1) = false) by (destruct Hr; [left; rewrite Himm; auto|by right]).
    split; [|split; [by destruct Hf|done]]. intros Hne _. right. destruct Hd; [done|done].
  - destruct (compaction_scheduled_ d) eqn:Ecomp.
    + set (d0 := with_flags _ _ false _).
      destruct (CompactIfNeeded_inv F S W m d0 HF HW) as (r & vs & w & E & Hj); [by do 2 apply inv_flags|].
      destruct (background_job F S W m d0 CompactIfNeeded r vs (imm_ d0) w E Hj)
        as (d1 & -> & Hi1 & Hf & Himm & Hfl & Hr & Herr).
      eexists. split; [reflexivity|]. split; [by apply inv_flags|]. split; [|split; [by destruct Hf|]].
      * intros Hne Hfull. db_cbn. rewrite Himm in Hne. rewrite (bgf_mem _ _ Hf), (bgf_options _ _ Hf) in Hfull.
        rewrite Hfl. destruct Herr as [->|?]; [|by right]. by apply Hs.
      * intros Ef. db_cbn. rewrite Ef in Eflush. left. rewrite Himm. cbn. by destruct (imm_ d).
    + eexists. split; [reflexivity|]. split; [do 3 apply inv_flags; by eapply (inv_less (F + 1) S W); [lia..|]|].
      rewrite andb_true_r in Enone. apply negb_false_iff in Enone. rewrite Enone in Eflush.
      assert (imm_ d = None) as Himm by (by destruct (imm_ d)).
      split; [|split; [done|by left]]. intros Hne. by destruct Hne.
Qed.

(** * Making room *)

(** A call that may fail, but only because of a fault. *)
Definition outcome (d : DBImpl) (r : Res unit) (d' : DBImpl) : Prop :=
  (r = Ret tt \/ exists e, r = Fail e /\ ok e = false) /\ (healthy d -> r = Ret tt /\ healthy d').

(** The body of the rotation branch. *)
Definition rotate : DbM unit :=
  modify (fun d => with_tables MemTable_new (Some (mem_ d)) d) ;;
  n ← next_number;
  modify (with_logfile n) ;;
  db ← gets dbname_;
  on_wal Close ;;
  modify (fun d => with_wal (WalWriter_new (LogFileName db n)) (world d) d) ;;
  on_wal Wal_Open ;;
  on_versions (LogAndApply (SetLogNumber n VersionEdit_new)) ;;
  modify (fun d => with_flags (bg_working_ d) true (compaction_scheduled_ d) d).

Lemma core_rotate db vs mem w rm rho m : core db vs mem None w rm [] rho m ->
  core db vs MemTable_new (Some mem) w [] rm rho m.
Proof.
  intros [H1 H2 H3 H4 H5 H6 H7 H8 H9 H10 H11 H12 H13]. split; try done.
  - apply mem_rep_new.
  - unfold upper in *. apply StronglySorted_inv in H8 as [Hl Hf]. apply Forall_cons in Hf as [_ Hf].
    apply StronglySorted_inv in Hl as [Hl _]. constructor; [by constructor|].
    apply Forall_forall. intros r _ a b Ha. by apply elem_of_nil in Ha.
  - intros r f Hr Hf. unfold upper in *. rewrite !elem_of_cons in Hr. destruct Hr as [->|[->|Hr]].
    + intros a b Ha. by apply elem_of_nil in Ha.
    + apply H9; [|done]. apply elem_of_cons. by left.
    + apply H9; [|done]. rewrite !elem_of_cons. by do 2 right.
Qed.

Lemma rotate_inv F S W m d : 0 <= F -> db_inv (F + 1) S W m d -> imm_ d = None ->
  0 < write_buffer_size (options_ d) ->
  exists r d', rotate d = (r, d') /\ db_inv F S W m d' /\ sched d' /\ outcome d r d' /\
    options_ d' = options_ d /\ mem_ d' = MemTable_new.
Proof.
  intros HF (rm & ri & rho & Hi) Himm Hwbs.
  assert (ri = []) as -> by (pose proof (co_imm _ _ _ _ _ _ _ _ _ (inv_core _ _ _ _ _ _ _ _ Hi)) as H;
    by rewrite Himm in H).
  assert (Hsched : forall d', mem_ d' = MemTable_new -> options_ d' = options_ d -> sched d').
  { intros d' E1 E2 _ Hfull. rewrite E1, E2 in Hfull. cbn in Hfull. lia. }
  assert (Hi0 : inv (F + 1) S W m (with_tables MemTable_new (Some (mem_ d)) d) [] rm rho).
  { destruct Hi as [Hc Ho Hw Hf Hs Hb]. rewrite Himm in Hc. split; db_cbn; try done.
    by apply core_rotate. }
  destruct (inv_next_number F S W m _ _ _ _ HF Hi0) as (vs1 & E1 & Hi1 & Edb & Eman & _).
  unfold rotate. sm_step. rewrite E1. db_cbn. clear E1.
  set (n := next_file_number_ (versions_ d)) in *.
  destruct Hi1 as [Hc1 Ho1 [k Hw1] Hf1 Hs1 Hb1]. db_cbn.
  unfold on_wal at 1, zoom. db_cbn.
  destruct (Close_spec (wal_ d) (world d)) as (wr1 & w1 & -> & Ht1). rewrite Hw1 in Ht1. db_cbn.
  unfold on_wal at 1, zoom. db_cbn.
  destruct (Wal_Open_spec (LogFileName (dbname_ d) n) w1) as (ro & wr2 & w2 & -> & Hp2 & Ht2 & Ho2). db_cbn.
  pose proof (core_log k w1 Hc1 Ht1) as Hc2. pose proof (core_log n w2 Hc2 Ht2) as Hc3.
  destruct Ho2 as [(-> & Hop & Hgd)|(e & -> & He & Hnf)].
  2: { eexists _, _. split; [reflexivity|]. split; [|split; [by apply Hsched|split; [|done]]].
    - exists [], rm, rho. split; db_cbn; try done. by exists n.
    - split; [right; by exists e|]. intros (Hn & _). destruct Hnf. by apply (touch_faults _ _ _ Ht1). }
  db_cbn. set (d2 := with_wal wr2 w2 _). 
  destruct (on_LogAndApply (SetLogNumber n VersionEdit_new) d2) as (rl & vs2 & w3 & El & Ht3 & Hl);
    [by split; cbn; constructor|done..|].
  subst d2. db_cbn. rewrite El. db_cbn.
  pose proof (core_manifest w3 Hc3 Ht3) as Hc4.
  destruct Hl as [(er & -> & Her & Hfault & ->)|(-> & v & -> & Hv0 & Hv1 & Hv1')].
  - eexists _, _. split; [reflexivity|]. split; [|split; [by apply Hsched|split; [|done]]].
    + exists [], rm, rho. split; db_cbn; try done; [|by exists n].
      eapply core_counters; [exact Hc4|done..| |]; db_cbn; lia.
    + split; [right; by exists er|]. intros (Hn & _). destruct Hfault.
      apply (touch_faults _ _ _ Ht2), (touch_faults _ _ _ Ht1), Hn.
  - eexists _, _. split; [reflexivity|]. split; [|split; [by apply Hsched|split; [|done]]].
    + specialize (Hv1' eq_refl). cbn in Hv0, Hv1'. rewrite app_nil_r in Hv0, Hv1'.
      assert (v = current_ vs1) as -> by (destruct v, (current_ vs1); cbn in *; congruence).
      exists [], rm, rho. split; db_cbn; try done; [|by exists n].
      eapply core_counters; [exact Hc4|done..| |]; db_cbn; lia.
    + split; [by left|]. intros (Hn & _ & _ & Hbg). split; [done|]. split; [|done].
      apply (touch_faults _ _ _ Ht3), (touch_faults _ _ _ Ht2), (touch_faults _ _ _ Ht1), Hn.
Qed.

Lemma MakeRoom_unfold fuel d : MakeRoomForWrite fuel d =
  if negb (ok (bg_error_ d)) then (Fail (bg_error_ d), d)
  else if ApproximateMemoryUsage (mem_ d) <? write_buffer_size (options_ d) then (Ret tt, d)
  else match imm_ d with
       | Some _ => match fuel with
                   | O => (Stuck, d)
                   | S fuel => (BackgroundRound ;; MakeRoomForWrite fuel) d
                   end
       | None => rotate d
       end.
Proof.
  destruct fuel; cbn [MakeRoomForWrite]; sm_step; destruct (ok (bg_error_ d)), (_ <? _), (imm_ d); reflexivity.
Qed.

(** What making room, or a write, leaves. *)
Definition step_result (F S W : Z) (m : gmap bytes bytes) (d : DBImpl) (r : Res unit) (d' : DBImpl) : Prop :=
  db_inv F S W m d' /\ sched d' /\ outcome d r d' /\ options_ d' = options_ d.

(** One wait suffices when it clears the immutable table. *)
Lemma MakeRoom_now F S W m fuel d : 0 <= F -> db_inv (F + 1) S W m d -> sched d ->
  0 < write_buffer_size (options_ d) -> imm_ d = None \/ ok (bg_error_ d) = false \/
    ApproximateMemoryUsage (mem_ d) < write_buffer_size (options_ d) ->
  exists r d', MakeRoomForWrite fuel d = (r, d') /\ step_result F S W m d r d'.
Proof.
  intros HF Hi Hs Hwbs Hready. rewrite MakeRoom_unfold.
  assert (Hi' : db_inv F S W m d) by (by eapply (inv_less (F + 1) S W); [lia..|]).
  destruct (ok (bg_error_ d)) eqn:Eok; cbn [negb].
  2: { eexists _, d. split; [reflexivity|]. split; [done|]. split; [done|]. split; [|done].
    split; [right; eauto|]. intros (_ & _ & _ & ?). congruence. }
  destruct (Z.ltb_spec (ApproximateMemoryUsage (mem_ d)) (write_buffer_size (options_ d))) as [Hlt|Hge].
  { eexists _, d. split; [reflexivity|]. split; [done|]. split; [done|]. split; [|done]. split; [by left|done]. }
  assert (Himm : imm_ d = None) by (destruct Hready as [?|[?|?]]; [done|done|lia]). rewrite Himm.
  destruct (rotate_inv F S W m d HF Hi Himm Hwbs) as (r & d' & E & H1 & H2 & H3 & H4 & _).
  exists r, d'. split; [done|]. by split; [|split; [|split]].
Qed.

Lemma MakeRoom_inv F S W m d : 0 <= F -> 0 <= W -> db_inv (F + 2) S W m d -> sched d ->
  0 < write_buffer_size (options_ d) ->
  exists r d', MakeRoomForWrite room_fuel d = (r, d') /\ step_result F S W m d r d'.
Proof.
  intros HF HW Hi Hs Hwbs. unfold room_fuel.
  assert (Hi1 : db_inv (F + 1) S W m d) by (by eapply (inv_less (F + 2) S W); [lia..|]).
  destruct (imm_ d) as [t|] eqn:Himm; [|by apply MakeRoom_now; auto].
  destruct (ok (bg_error_ d)) eqn:Eok; [|by apply MakeRoom_now; auto].
  destruct (Z.ltb_spec (ApproximateMemoryUsage (mem_ d)) (write_buffer_size (options_ d))) as [Hlt|Hge];
    [by apply MakeRoom_now; auto|].
  rewrite MakeRoom_unfold, Eok, (proj2 (Z.ltb_ge _ _) Hge), Himm. cbn [negb].
  assert (Hfl : flush_scheduled_ d = true) by (destruct Hs; [by rewrite Himm|done|done|congruence]).
  destruct (BackgroundRound_inv (F + 1) S W m d) as (d1 & E & H1 & H2 & H3 & H4); [lia|lia| |done|].
  { by replace (F + 1 + 1) with (F + 2) by lia. }
  sm_step. rewrite E. destruct H3 as [Hm Ho Hw Hh].
  destruct (MakeRoom_now F S W m 0 d1 HF H1 H2) as (r & d' & E' & R1 & R2 & [R3 R4] & R5).
  - by rewrite Ho.
  - destruct (H4 Hfl); [by left|right; by left].
  - exists r, d'. split; [done|]. split; [done|]. split; [done|]. split; [|by rewrite R5].
    split; [done|]. intros H. by apply R4, Hh.
Qed.

(** * Writing *)

Lemma wal_step_inv F S W m d step : db_inv F S W m d -> sched d -> wal_step step ->
  exists r wr w, on_wal step d = (r, with_wal wr w d) /\
    step_result F S W m d r (with_wal wr w d).
Proof.
  intros (rm & ri & rho & [Hc Ho [k Hw] Hf Hs Hb]) Hsch Hstep.
  destruct (Hstep (wal_ d) (world d)) as (r & wr & w & E & Hp & Ht & Hr & Hok).
  exists r, wr, w. unfold on_wal, zoom. rewrite E. split; [done|].
  split; [|split; [done|split; [|done]]].
  - exists rm, ri, rho. rewrite Hw in Ht. split; db_cbn; try done.
    + by eapply core_log.
    + exists k. congruence.
  - split; [done|]. intros (Hn & Hop & Hg & Hbg). destruct (Hok Hn Hop Hg) as (-> & H1 & H2).
    split; [done|]. split; [by apply Ht|done].
Qed.

Lemma sched_versions vs w d : sched d -> sched (with_versions vs w d).
Proof. done. Qed.

(** The entry a write adds. *)
Definition write_entry (type : ValueType) (key value : bytes) (seq : Z) : ikv :=
  (MakeInternalKey key seq type, value).
Definition write_cost (key value : bytes) : Z := 2 * (Z.of_nat (length key) + 8) + Z.of_nat (length value) + 70.

Lemma write_cost_eq type key value seq :
  Z.of_nat (weight (write_entry type key value seq)) = write_cost key value.
Proof.
  unfold weight, write_entry, write_cost. cbn [fst snd]. rewrite length_MakeInternalKey. lia.
Qed.

Definition type_ok (type : ValueType) : Prop := type = kTypeValue \/ type = kTypeDeletion.

Lemma write_entry_wf type key value seq : type_ok type -> write_cost key value < 2 ^ 32 ->
  ikv_wf (write_entry type key value seq).
Proof.
  intros Ht Hc. unfold write_cost in Hc. unfold write_entry. split; cbn [fst snd].
  - apply MakeInternalKey_wf.
  - rewrite ExtractValueType_Make. destruct Ht as [-> | ->]; vm_compute; congruence.
  - unfold len32. rewrite length_MakeInternalKey. lia.
  - unfold len32. lia.
Qed.

(** [versions_->SetLastSequence(last + 1)] *)
Definition bump (d : DBImpl) : DBImpl :=
  with_versions (SetLastSequence (last_sequence_ (versions_ d) + 1) (versions_ d)) (world d) d.

Lemma inv_bump F S W m d : 0 <= S -> db_inv F (S + 1) W m d -> db_inv F S W m (bump d).
Proof.
  intros HS (rm & ri & rho & [Hc Ho Hw Hf Hs Hb]). exists rm, ri, rho.
  split; unfold bump, SetLastSequence; db_cbn; try done; [|lia].
  eapply core_counters; [exact Hc|done..| |]; db_cbn; lia.
Qed.

Lemma on_wal_bump (step : WalM unit) d r wr w : on_wal step d = (r, with_wal wr w d) ->
  on_wal step (bump d) = (r, bump (with_wal wr w d)).
Proof.
  unfold on_wal, zoom, bump. db_cbn. destruct (step (wal_ d, world d)) as [r' [wr' w']].
  intros [= -> -> ->]. done.
Qed.

Lemma maybe_sync F S W m d (b : bool) : db_inv F S W m d -> sched d ->
  exists r wr w, (if b then on_wal Sync else mret tt) (bump d) = (r, bump (with_wal wr w d)) /\
    step_result F S W m d r (with_wal wr w d).
Proof.
  intros Hi Hs. destruct b.
  - destruct (wal_step_inv _ _ _ _ d _ Hi Hs Sync_step) as (r & wr & w & E & H).
    exists r, wr, w. split; [by apply on_wal_bump|done].
  - exists (Ret tt), (wal_ d), (world d). assert (with_wal (wal_ d) (world d) d = d) as -> by (by destruct d).
    split; [done|]. split; [done|]. split; [done|]. split; [|done]. by split; [left|].
Qed.

(** [Write] once there is room. *)
Definition write_tail (options : WriteOptions) (type : ValueType) (key value : bytes) : DbM unit :=
  last ← gets (fun d => last_sequence_ (versions_ d));
  let seq := u64 (last + 1) in
  modify (fun d => with_versions (SetLastSequence seq (versions_ d)) (world d) d) ;;
  let record := EncodeWriteBatch seq [(type, (key, value))] in
  on_wal (AddRecord record) ;;
  (if sync_opt options then on_wal Sync else mret tt) ;;
  mem ← gets mem_;
  mem ← lift (MemTable_Add mem seq type key value);
  modify (fun d => with_tables mem (imm_ d) d) ;;
  d ← gets (fun d => d);
  if write_buffer_size (options_ d) <=? ApproximateMemoryUsage (mem_ d)
  then modify (fun d => with_flags (bg_working_ d) true (compaction_scheduled_ d) d)
  else mret tt.

Lemma Write_unfold options type key value d : Write options type key value d =
  if negb (ok (bg_error_ d)) then (Fail (bg_error_ d), d)
  else (MakeRoomForWrite room_fuel ;; write_tail options type key value) d.
Proof. unfold Write. sm_step. by destruct (ok (bg_error_ d)). Qed.

(** The memtable insertion and the scheduling of a flush. *)
Lemma write_insert F S W m d type key value : 0 <= W -> 0 <= S -> type_ok type ->
  db_inv F (S + 1) (W + write_cost key value) m d -> sched d ->
  let s := last_sequence_ (versions_ d) + 1 in
  exists mem, MemTable_Add (mem_ d) s type key value = Ret mem /\
    db_inv F S W (write_map type key value m) (with_tables mem (imm_ d) (bump d)).
Proof.
  intros HW HS Htype (rm & ri & rho & [Hc Ho Hw Hf Hs Hb]) Hsch s.
  assert (Hwf : ikv_wf (write_entry type key value s)) by (apply write_entry_wf; [done|lia]).
  assert (Hs' : s < 2 ^ 56) by (unfold s; lia).
  destruct (mem_rep_add _ _ s type key value (co_mem _ _ _ _ _ _ _ _ _ Hc) Hwf) as (mem & E & Hmem & _).
  exists mem. split; [done|]. exists (run_insert (write_entry type key value s) rm), ri, rho.
  pose proof (entries_add_weight (rm := rm) (ri := ri) (rho := rho) (vs := versions_ d) type key value) as Hwt.
  fold s in Hwt. change (MakeInternalKey key s type, value) with (write_entry type key value s) in Hwt.
  pose proof (write_cost_eq type key value s).
  split; unfold bump; db_cbn; try done; cbn [current_ SetLastSequence with_counters]; [|cbn; fold s; lia|lia].
  by apply (core_add Hc type key value Hs' Hwf).
Qed.

Lemma write_tail_inv F S W m d options type key value : 0 <= W -> 0 <= S -> type_ok type ->
  db_inv F (S + 1) (W + write_cost key value) m d -> sched d ->
  exists r d', write_tail options type key value d = (r, d') /\
    step_result F S W (match r with Ret _ => write_map type key value m | _ => m end) d r d'.
Proof.
  intros HW HS Htype Hi Hsch. unfold write_tail. sm_step.
  assert (Hc : 0 <= write_cost key value) by (unfold write_cost; lia).
  set (s := last_sequence_ (versions_ d) + 1).
  assert (u64 s = s) as ->.
  { destruct Hi as (rm & ri & rho & [Hco _ _ _ Hs _]). pose proof (co_counters _ _ _ _ _ _ _ _ _ Hco).
    apply u64_small. unfold s. lia. }
  change (with_versions (SetLastSequence s (versions_ d)) (world d) d) with (bump d).
  set (rec := EncodeWriteBatch _ _).
  destruct (wal_step_inv _ _ _ _ d _ Hi Hsch (AddRecord_step rec)) as (r1 & wr1 & w1 & E1 & Hi1 & Hs1 & [Ho1 Hh1] & Hopt1).
  rewrite (on_wal_bump _ _ _ _ _ E1). set (d1 := with_wal wr1 w1 d) in *.
  assert (Hless : forall d', db_inv F (S + 1) (W + write_cost key value) m d' -> db_inv F S W m (bump d')).
  { intros d' H. apply inv_bump; [done|]. by eapply (inv_less F (S + 1) (W + write_cost key value)); [lia..|]. }
  destruct Ho1 as [->|(e & -> & He)].
  2: { eexists _, _. split; [reflexivity|]. split; [by apply Hless|]. split; [done|]. split; [|done].
    split; [right; eauto|]. intros H. by destruct (Hh1 H). }
  destruct (maybe_sync _ _ _ _ d1 (sync_opt options) Hi1 Hs1)
    as (r2 & wr2 & w2 & E2 & Hi2 & Hs2 & [Ho2 Hh2] & Hopt2).
  assert (Hfwd : forall d', (if sync_opt options then fun s0 => on_wal Sync s0 else fun s0 => (Ret tt, s0)) d' =
    (if sync_opt options then on_wal Sync else mret tt) d') by (intros d'; by destruct (sync_opt options)).
  rewrite Hfwd, E2. set (d2 := with_wal wr2 w2 d1) in *.
  assert (Hh : healthy d -> r2 = Ret tt /\ healthy d2) by (intros H; by apply Hh2, Hh1).
  destruct Ho2 as [->|(e & -> & He)].
  2: { eexists _, _. split; [reflexivity|]. split; [by apply Hless|]. split; [done|]. split; [|done].
    split; [right; eauto|]. intros H. by destruct (Hh H). }
  destruct (write_insert F S W m d2 type key value HW HS Htype Hi2 Hs2) as (mem & E3 & Hi3).
  change (last_sequence_ (versions_ d2) + 1) with s in E3.
  change (mem_ (bump d2)) with (mem_ d2). rewrite E3.
  change (imm_ (bump d2)) with (imm_ d2). set (d3 := with_tables mem (imm_ d2) (bump d2)) in *.
  destruct (Z.leb_spec (write_buffer_size (options_ d3)) (ApproximateMemoryUsage (mem_ d3))) as [Hle|Hgt].
  - eexists _, _. split; [reflexivity|]. split; [by apply inv_flags|]. split; [by left|]. split; [|done].
    split; [by left|]. intros H. by destruct (Hh H).
  - eexists _, _. split; [reflexivity|]. split; [done|]. split; [intros _ ?; lia|]. split; [|done].
    split; [by left|]. intros H. by destruct (Hh H).
Qed.

Lemma Write_inv F S W m d options type key value : 0 <= F -> 0 <= W -> 0 <= S -> type_ok type ->
  db_inv (F + 2) (S + 1) (W + write_cost key value) m d -> sched d -> 0 < write_buffer_size (options_ d) ->
  exists r d', Write options type key value d = (r, d') /\
    step_result F S W (match r with Ret _ => write_map type key value m | _ => m end) d r d'.
Proof.
  intros HF HW HS Htype Hi Hs Hwbs. rewrite Write_unfold.
  assert (Hc : 0 <= write_cost key value) by (unfold write_cost; lia).
  destruct (ok (bg_error_ d)) eqn:Eok; cbn [negb].
  2: { eexists _, d. split; [reflexivity|].
    split; [by eapply (inv_less (F + 2) (S + 1) (W + write_cost key value)); [lia..|]|].
    split; [done|]. split; [|done]. split; [right; eauto|]. intros (_ & _ & _ & ?). congruence. }
  destruct (MakeRoom_inv F (S + 1) (W + write_cost key value) m d HF ltac:(lia) Hi Hs Hwbs)
    as (r1 & d1 & E1 & Hi1 & Hs1 & [Ho1 Hh1] & Hopt1).
  sm_step. rewrite E1. destruct Ho1 as [->|(e & -> & He)].
  2: { eexists _, d1. split; [reflexivity|].
    split; [by eapply (inv_less F (S + 1) (W + write_cost key value)); [lia..|]|].
    split; [done|]. split; [|done]. split; [right; eauto|]. intros H. by destruct (Hh1 H). }
  destruct (write_tail_inv F S W m d1 options type key value HW HS Htype Hi1 Hs1)
    as (r & d' & E & H1 & H2 & [H3 H4] & H5).
  exists r, d'. split; [done|]. split; [done|]. split; [done|]. split; [|congruence].
  split; [done|]. intros H. by apply H4, Hh1.
Qed.

(** * Opening a new database *)

Definition log_edit (next log : Z) : VersionEdit := SetNextFile next (SetLogNumber log VersionEdit_new).

Definition first_edits (name : bytes) : list VersionEdit :=
  [snapshot_edit (VersionSet_new name); log_edit 3 2].

Lemma log_edit_32 : edit_logged (log_edit 3 2).
Proof.
  split; [|split; [by split; constructor|]].
  - split; cbn; try (unfold fits64; lia); constructor.
  - vm_compute. reflexivity.
Qed.

(** The state of a database just created. *)
Definition fresh_versions (name : bytes) : VersionSet := mkVersionSet name Version_new 4 0 2 1.
Definition fresh_db (options : Options) (name : bytes) (wr : WalWriter) (w : World) : DBImpl :=
  mkDBImpl options name (fresh_versions name) MemTable_new None wr 2 false false false OK w.

Lemma Open_fresh options name w : no_faults w -> PathExists name w = false ->
  create_if_missing options = true ->
  exists wr w', DB_Open options name w = (Ret tt, fresh_db options name wr w') /\ no_faults w' /\
    vs_rep (fresh_versions name) w' (first_edits name) /\
    w_path wr = LogFileName name 2 /\ w_open wr = true /\ w_good wr = true /\
    (files w !! LogFileName name 2 = None -> wal_rep wr w' [] []) /\ dirs w' = {[name]} ∪ dirs w.
Proof.
  intros Hf Hex Hc. unfold DB_Open, Open. sm_step. cbn [dbname_ DBImpl_new options_ world].
  rewrite Hex. cbn [andb negb]. rewrite Hc. unfold fail_if. sm_step.
  destruct (NewDB_rep name w Hf Hex) as (w1 & E1 & Hf1 & Hrep1 & Hd1 & Hfr1).
  cbn [negb]. sm_step. unfold on_versions at 1, zoom. cbn [versions_ world DBImpl_new]. rewrite E1. db_cbn.
  unfold next_number at 1. cbn [NextFileNumber VersionSet_new]. db_cbn.
  change (u64 (2 + 1)) with 3.
  set (log := LogFileName name 2). unfold on_wal, zoom. db_cbn.
  assert (Hw : Wal_Open (WalWriter_new log, w1) =
    (Ret tt, (mkWalWriter log true true [], set_files (insert log (contents w1 log)) w1))).
  { unfold Wal_Open, wal_io, zoom. sm_step. rewrite next_fault_none by done. done. }
  rewrite Hw. db_cbn. set (w2 := set_files (insert log (contents w1 log)) w1) in *.
  unfold next_number. cbn [NextFileNumber]. db_cbn. change (u64 (3 + 1)) with 4.
  assert (Hrep2 : vs_rep (with_counters 4 0 0 (with_counters 3 0 0 (VersionSet_new name))) w2 [snapshot_edit (VersionSet_new name)]).
  { destruct Hrep1 as [[H1 H2 H3] Hn H0 Hl1 Hlog]. split; try done. split; [..|done]; unfold w2, log; cbn [files set_files].
    - by rewrite lookup_insert_ne by apply Log_ne_Current.
    - by rewrite lookup_insert_ne by apply Log_ne_Manifest. }
  destruct (LogAndApply_rep _ w2 _ (log_edit 3 2) Hf1 Hrep2 log_edit_32) as (v & El & Hv0 & Hv1 & Hrep3).
  unfold on_versions, zoom. db_cbn. unfold log_edit in El. rewrite El. db_cbn.
  assert (v = Version_new) as ->.
  { cbn in Hv0, Hv1. symmetry in Hv1. apply Permutation_nil_l in Hv1. destruct v; cbn in *; by subst. }
  eexists _, _. split; [reflexivity|]. split; [done|]. split; [exact Hrep3|]. split_and!; try done.
  intros Hnone. repeat split. cbn [files set_files]. rewrite lookup_insert_ne by (apply not_eq_sym, Log_ne_Manifest).
  unfold w2. cbn [files set_files]. rewrite lookup_insert_eq. unfold contents.
  rewrite Hfr1, Hnone; [done|apply Log_ne_Current| |apply Log_ne_Manifest].
  eapply last_ne; [apply LogFileName_last|by apply last_app_lit|done].
Qed.

Lemma fresh_inv options name wr w F S W : options_ok options -> w_path wr = LogFileName name 2 ->
  4 + F < 2 ^ 64 -> S < 2 ^ 56 -> W + 40 < 2 ^ 32 ->
  db_inv F S W ∅ (fresh_db options name wr w).
Proof.
  intros Ho Hw HF HS HW. exists [], [], (fun _ => []).
  split; cbn [fresh_db fresh_versions]; db_cbn; try done; [|by exists 2]. by apply core_empty.
Qed.

(** * The interface: operations, replies, and the map they implement *)

Inductive Op : Type :=
  | OpPut (options : WriteOptions) (key value : bytes)
  | OpDelete (options : WriteOptions) (key : bytes)
  | OpGet (key : bytes)
  | OpBackground.

Inductive Reply : Type :=
  | RDone (r : Res unit)
  | RValue (r : Res bytes).

Definition run_op (op : Op) (d : DBImpl) : Reply * DBImpl :=
  match op with
  | OpPut options key value => let '(r, d') := Put options key value d in (RDone r, d')
  | OpDelete options key => let '(r, d') := Delete options key d in (RDone r, d')
  | OpGet key => let '(r, d') := Get (mkReadOptions 0) key d in (RValue r, d')
  | OpBackground => let '(r, d') := BackgroundRound d in (RDone r, d')
  end.

Fixpoint run_ops (ops : list Op) (d : DBImpl) : list Reply * DBImpl :=
  match ops with
  | [] => ([], d)
  | op :: ops =>
    let '(r, d) := run_op op d in
    let '(rs, d) := run_ops ops d in (r :: rs, d)
  end.

(** The abstract database: a finite map.  A write takes effect or fails without
    effect; a read answers from the map or fails; the background thread does
    nothing that can be seen.  Failures need a fault. *)
Inductive map_step (faulty : Prop) (m : gmap bytes bytes) : Op -> Reply -> gmap bytes bytes -> Prop :=
  | MsPut o key value : map_step faulty m (OpPut o key value) (RDone (Ret tt)) (<[key := value]> m)
  | MsDelete o key : map_step faulty m (OpDelete o key) (RDone (Ret tt)) (delete key m)
  | MsPutFail o key value e : faulty -> ok e = false ->
      map_step faulty m (OpPut o key value) (RDone (Fail e)) m
  | MsDeleteFail o key e : faulty -> ok e = false ->
      map_step faulty m (OpDelete o key) (RDone (Fail e)) m
  | MsGet key value : m !! key = Some value -> map_step faulty m (OpGet key) (RValue (Ret value)) m
  | MsGetNone key : m !! key = None -> map_step faulty m (OpGet key) (RValue (Fail (NotFound []))) m
  | MsGetFail key e : faulty -> ok e = false -> IsNotFound e = false ->
      map_step faulty m (OpGet key) (RValue (Fail e)) m
  | MsBackground : map_step faulty m OpBackground (RDone (Ret tt)) m.

Inductive map_run (faulty : Prop) : gmap bytes bytes -> list Op -> list Reply -> gmap bytes bytes -> Prop :=
  | MrNil m : map_run faulty m [] [] m
  | MrCons m op r m' ops rs m'' : map_step faulty m op r m' -> map_run faulty m' ops rs m'' ->
      map_run faulty m (op :: ops) (r :: rs) m''.

(** What the operations need: file numbers, sequence numbers and bytes. *)
Definition op_cost (op : Op) : Z :=
  match op with
  | OpPut _ key value => write_cost key value
  | OpDelete _ key => write_cost key []
  | _ => 0
  end.
Definition op_fits (op : Op) : Prop :=
  match op with OpGet key => Z.of_nat (length key) + 8 < 2 ^ 32 | _ => True end.
Definition ops_cost (ops : list Op) : Z := foldr (fun op c => op_cost op + c) 0 ops.

Lemma op_cost_pos op : 0 <= op_cost op.
Proof. destruct op; cbn; unfold write_cost; lia. Qed.
Lemma ops_cost_pos ops : 0 <= ops_cost ops.
Proof. induction ops as [|op ops IH]; [done|]. pose proof (op_cost_pos op). unfold ops_cost in *. cbn [foldr]. lia. Qed.

Lemma write_reply F S W m d r d' type key value options : 0 <= F -> 0 <= S -> 0 <= W -> type_ok type ->
  db_inv (F + 2) (S + 1) (W + write_cost key value) m d -> sched d -> 0 < write_buffer_size (options_ d) ->
  Write options type key value d = (r, d') ->
  options_ d' = options_ d /\ sched d' /\ (healthy d -> healthy d') /\
  (r = Ret tt /\ db_inv F S W (write_map type key value m) d' \/
   exists e, r = Fail e /\ ok e = false /\ ~ healthy d /\ db_inv F S W m d').
Proof.
  intros HF HS HW Ht Hi Hs Hw E.
  destruct (Write_inv F S W m d options type key value HF HW HS Ht Hi Hs Hw) as (r1 & d1 & E1 & H1 & H2 & [H3 H4] & H5).
  rewrite E in E1. injection E1 as <- <-. split; [done|]. split; [done|]. split; [by intros H; apply H4|].
  destruct H3 as [->|(e & -> & He)]; [by left|right]. exists e. split; [done|]. split; [done|]. split; [|done].
  intros H. by destruct (H4 H).
Qed.

Lemma run_op_refines F S W m d op r d' : 0 <= F -> 0 <= S -> 0 <= W -> op_fits op ->
  db_inv (F + 2) (S + 1) (W + op_cost op) m d -> sched d -> 0 < write_buffer_size (options_ d) ->
  run_op op d = (r, d') ->
  exists m', map_step (~ healthy d) m op r m' /\ db_inv F S W m' d' /\ sched d' /\
    options_ d' = options_ d /\ (healthy d -> healthy d').
Proof.
  intros HF HS HW Hfit Hi Hs Hw E. destruct op as [o key value|o key|key|]; cbn [run_op op_cost] in *.
  - destruct (Put o key value d) as [r1 d1] eqn:E1. injection E as <- <-. unfold Put in E1.
    destruct (write_reply F S W m d r1 d1 kTypeValue key value o HF HS HW (or_introl eq_refl) Hi Hs Hw E1)
      as (H1 & H2 & H3 & [(-> & H4)|(e & -> & He & Hnh & H4)]); eexists; (split; [by constructor|done]).
  - destruct (Delete o key d) as [r1 d1] eqn:E1. injection E as <- <-. unfold Delete in E1.
    destruct (write_reply F S W m d r1 d1 kTypeDeletion key [] o HF HS HW (or_intror eq_refl) Hi Hs Hw E1)
      as (H1 & H2 & H3 & [(-> & H4)|(e & -> & He & Hnh & H4)]); eexists; (split; [by constructor|done]).
  - destruct Hi as (rm & ri & rho & [Hc Ho Hwl Hf Hsq Hb]).
    destruct (Get_core d rm ri rho m key Hc Hfit) as (r1 & w1 & E1 & Hr & Hread).
    { pose proof (co_counters _ _ _ _ _ _ _ _ _ Hc). split; lia. }
    rewrite E1 in E. injection E as <- <-. exists m.
    split; [|split; [|split; [done|split; [done|]]]].
    + unfold read_ok in Hread. destruct Hread as [Hread|(e & -> & [He Hnf] & Hfl)].
      * destruct (m !! key) eqn:Em; rewrite Hread; by constructor.
      * constructor; [|done..]. intros (H & _). by apply Hfl.
    + exists rm, ri, rho. split; db_cbn; try (done || lia). eapply core_world; [exact Hc|].
      intros f _. by rewrite (rd_files _ _ Hr).
    + intros (H & ?). split; [by apply (rd_faults _ _ Hr)|done].
  - destruct (BackgroundRound_inv (F + 1) S W m d) as (d1 & E1 & H1 & H2 & [H3 H4 H5 H6] & _); [lia|lia| |done|].
    { eapply (inv_less (F + 2) (S + 1)); [..|exact Hi]; lia. }
    rewrite E1 in E. injection E as <- <-. exists m. split; [constructor|].
    split; [by eapply (inv_less (F + 1) S W); [lia..|]|]. done.
Qed.

Lemma map_step_weaken (P Q : Prop) m op r m' : (P -> Q) -> map_step P m op r m' -> map_step Q m op r m'.
Proof. intros HPQ []; constructor; auto. Qed.

Lemma run_ops_refines faulty : forall ops F S W m d, 0 <= F -> 0 <= S -> 0 <= W -> Forall op_fits ops ->
  db_inv (F + 2 * Z.of_nat (length ops)) (S + Z.of_nat (length ops)) (W + ops_cost ops) m d -> sched d ->
  0 < write_buffer_size (options_ d) -> (~ healthy d -> faulty) ->
  exists m', map_run faulty m ops (run_ops ops d).1 m' /\ db_inv F S W m' (run_ops ops d).2 /\
    (~ healthy (run_ops ops d).2 -> faulty).
Proof.
  induction ops as [|op ops IH]; intros F S W m d HF HS HW Hfits Hi Hs Hw Hh.
  { exists m. split; [constructor|]. split; [|done]. eapply inv_less; [..|exact Hi]; cbn; lia. }
  apply Forall_cons in Hfits as [Hfit Hfits]. cbn [run_ops].
  destruct (run_op op d) as [r d1] eqn:E. cbn [length] in Hi. unfold ops_cost in Hi. cbn [foldr] in Hi.
  fold (ops_cost ops) in Hi. pose proof (ops_cost_pos ops). pose proof (op_cost_pos op).
  destruct (run_op_refines (F + 2 * Z.of_nat (length ops)) (S + Z.of_nat (length ops)) (W + ops_cost ops)
    m d op r d1 ltac:(lia) ltac:(lia) ltac:(lia) Hfit) as (m1 & Hstep & Hi1 & Hs1 & Ho1 & Hh1);
    [eapply inv_less; [..|exact Hi]; lia|done|done|done|].
  destruct (IH F S W m1 d1 HF HS HW Hfits Hi1 Hs1) as (m' & Hrun & Hfin); [by rewrite Ho1|by intros H'; apply Hh; auto|].
  destruct (run_ops ops d1) as [rs d2]. exists m'. split; [|done]. econstructor; [|exact Hrun].
  by eapply map_step_weaken.
Qed.

(** From here on the I/O primitives meet the faults [fs], in order. *)
Definition inject (fs : list (option nat)) (d : DBImpl) : DBImpl :=
  with_versions (versions_ d) (mkWorld (files (world d)) (dirs (world d)) fs) d.

Lemma open_and_run options name w fs ops :
  options_ok options -> 0 < write_buffer_size options -> create_if_missing options = true ->
  no_faults w -> PathExists name w = false ->
  Forall op_fits ops -> 2 * Z.of_nat (length ops) + 4 < 2 ^ 56 -> ops_cost ops + 40 < 2 ^ 32 ->
  exists d, DB_Open options name w = (Ret tt, d) /\
    exists m, map_run (fs <> []) ∅ ops (run_ops ops (inject fs d)).1 m /\
      db_inv 0 0 0 m (run_ops ops (inject fs d)).2 /\
      (~ healthy (run_ops ops (inject fs d)).2 -> fs <> []).
Proof.
  intros Ho Hwbs Hc Hf Hex Hfits Hlen Hcost.
  destruct (Open_fresh options name w Hf Hex Hc) as (wr & w' & E & Hf' & _ & Hp & Hop & Hg & _).
  exists (fresh_db options name wr w'). split; [done|].
  apply (run_ops_refines _ ops 0 0 0); try (done || lia).
  - apply (fresh_inv options name wr (mkWorld (files w') (dirs w') fs)); try (done || lia).
  - intros Himm. by destruct Himm.
  - intros Hnh Hnil. apply Hnh. by rewrite Hnil.
Qed.

(** C2: the engine refines a finite map.  A database is created in a new
    directory; then any sequence of puts, deletes, reads and background rounds
    runs (memtable rotations, flushes to level 0 and compactions to level 1 are
    triggered by the code itself) while any of its I/O calls may fail.  No
    operation gets stuck; every successful write updates the map, every failed
    write leaves it as it was; every read returns the map's value, or NotFound
    exactly when the map has none, or an I/O error; without faults everything
    succeeds.  The bounds say that file numbers, sequence numbers and table sizes
    stay within their machine widths. *)
Theorem db_refines_map (options : Options) (name : bytes) (w : World) (fs : list (option nat)) (ops : list Op) :
  options_ok options -> 0 < write_buffer_size options -> create_if_missing options = true ->
  no_faults w -> PathExists name w = false ->
  Forall op_fits ops -> 2 * Z.of_nat (length ops) + 4 < 2 ^ 56 -> ops_cost ops + 40 < 2 ^ 32 ->
  exists d, DB_Open options name w = (Ret tt, d) /\
    exists m, map_run (fs <> []) ∅ ops (run_ops ops (inject fs d)).1 m.
Proof.
  intros Ho Hwbs Hc Hf Hex Hfits Hlen Hcost.
  destruct (open_and_run options name w fs ops) as (d & E & m & Hrun & _); try done. eauto.
Qed.

Lemma db_refines_map_witness :
  let options := mkOptions true false 40 4096 16 2 2 in
  let o := mkWriteOptions true in
  let ops := [OpPut o (lit "a") (lit "1"); OpPut o (lit "b") (lit "2"); OpBackground;
              OpDelete o (lit "a"); OpGet (lit "a"); OpBackground; OpGet (lit "b")] in
  exists d, DB_Open options (lit "db") (mkWorld ∅ ∅ []) = (Ret tt, d) /\
    exists m, map_run ([None; Some 3%nat] <> []) ∅ ops (run_ops ops (inject [None; Some 3%nat] d)).1 m.
Proof.
  intros options o ops. apply (db_refines_map options (lit "db") (mkWorld ∅ ∅ []) [None; Some 3%nat] ops).
  - vm_compute. discriminate.
  - reflexivity.
  - reflexivity.
  - reflexivity.
  - reflexivity.
  - repeat constructor.
  - reflexivity.
  - reflexivity.
Defined.

(** Where the tables are not there any more: a reader that took its view before a compaction
    removed the input tables finds the file missing. *)
Example compaction_fails_reader :
  let options := mkOptions true false 1 4096 16 2 2 in
  let put key := Put (mkWriteOptions false) (lit key) (lit "v") in
  let d := (put "a" ;; put "b" ;; FlushMemTable ;; put "c" ;; FlushMemTable)%string (DB_Open options (lit "db") (mkWorld ∅ ∅ [])).2 in
  let v := read_view (mkReadOptions 0) d.2 in
  let d' := CompactIfNeeded d.2 in
  d.1 = Ret tt /\ (Get_from v (lit "a") d.2).1 = Ret (lit "v") /\ d'.1 = Ret tt /\
  (Get (mkReadOptions 0) (lit "a") d'.2).1 = Ret (lit "v") /\
  match (Get_from v (lit "a") d'.2).1 with Fail e => code_ e = kIOError | _ => False end.
Proof. vm_compute. split_and!; reflexivity. Qed.
