(* ===== verification/DbRecover.v ===== *)
(** Recovery: what a database reopened after a crash contains, and the crashes
    after which it has lost data. *)
From S2P Require Import Prelude Status Slice Encoding InternalKey Run MemTable Env Wal Block.
From S2P Require Import Options SSTable Version Merge Compaction Db DbInv DbRefine.

(** * Replaying the log *)










Section Replay.
Context (rho : Z -> list ikv).


End Replay.

(** * Reopening *)





(** * The first log *)














(** * Crashes and restarts after which data is lost *)

Section DataLoss.
Let reader := mkReadOptions 0.
Let synced := mkWriteOptions true.
Let small_buffer := mkOptions true false 40 4096 16 4 2.
Let big := replicate 40 Byte.x76.
Let fresh := mkWorld ∅ ∅ [].

(** The process ends normally and the database is opened again. *)
Definition reopen (d : DBImpl) : Res unit * DBImpl :=
  let '(_, d) := DB_Close 2 d in DB_Open (options_ d) (dbname_ d) (world d).

(** A synced write is read back after one restart and is gone after two: [Open]
    replays the log into the memtable, then makes a new, empty log the current
    one, and the destructor does not flush the memtable. *)
Theorem second_restart_loses_writes :
  let '(r1, d) := DB_Open (mkOptions true false 1000 4096 16 4 2) (lit "db") fresh in
  let '(r2, d) := Put synced (lit "k") (lit "v") d in
  let '(r3, d) := reopen d in
  let '(g1, d) := Get reader (lit "k") d in
  let '(r4, d) := reopen d in
  let '(g2, _) := Get reader (lit "k") d in
  (r1, r2, r3, r4) = (Ret tt, Ret tt, Ret tt, Ret tt) /\
  g1 = Ret (lit "v") /\ g2 = Fail (NotFound []).
Proof. vm_compute. done. Qed.

(** A crash after a log rotation and before the flush it schedules loses the
    synced writes of the immutable memtable: the manifest already names the new log. *)
Theorem rotation_crash_loses_writes :
  let '(r1, d) := DB_Open small_buffer (lit "db") fresh in
  let '(r2, d) := Put synced (lit "k") big d in
  let '(r3, d) := Put synced (lit "k2") (lit "v2") d in
  let '(r4, d) := DB_Open small_buffer (lit "db") (DB_Crash 0 d) in
  let '(g1, d) := Get reader (lit "k") d in
  let '(g2, _) := Get reader (lit "k2") d in
  (r1, r2, r3, r4) = (Ret tt, Ret tt, Ret tt, Ret tt) /\
  g1 = Fail (NotFound []) /\ g2 = Ret (lit "v2").
Proof. vm_compute. done. Qed.

(** The numbers given to tables and logs after [Open] are not in the manifest, so
    a restart hands them out again: a new table overwrites a live one, and a
    later compaction removes it. *)
Theorem file_numbers_are_reused :
  let write k := (Put synced (lit k) big ;; BackgroundRound ;; BackgroundRound) in
  let '(r1, d) := DB_Open small_buffer (lit "db") fresh in
  let '(r2, d) := for_each ["a"; "b"; "c"; "d"; "e"]%string write d in
  let '(g1, d) := Get reader (lit "a") d in
  let '(r3, d) := reopen d in
  let '(r4, d) := for_each ["p"; "q"; "r"; "s"; "t"]%string write d in
  let '(g2, _) := Get reader (lit "a") d in
  (r1, r2, r3, r4) = (Ret tt, Ret tt, Ret tt, Ret tt) /\
  g1 = Ret big /\ g2 = Fail (IOError (lit "cannot open sstable: db/12.sst")).
Proof. vm_compute. done. Qed.
End DataLoss.
