(* ===== verification/DbIter.v ===== *)
(** The database iterator (src/db_iter.cpp): streams of internal keys over
    memtables and tables, their merge, and the user-key iterator on top. *)
From S2P Require Import Prelude Status Slice Encoding InternalKey SkipList Run MemTable Env Wal.
From S2P Require Import Block Options SSTable Version Merge Compaction Db DbInv DbRefine.

(** * InternalIter: the interface of a stream of internal keys *)

(** The virtual methods.  [ii_key] and [ii_value] are read only when [ii_Valid].
    [ii_size] bounds the entries of the source (it limits loops, not results). *)
Class InternalIter (I : Type) := {
  ii_Valid : I -> bool;
  ii_SeekToFirst : I -> Res I;
  ii_Seek : bytes -> I -> Res I;
  ii_Next : I -> Res I;
  ii_key : I -> bytes;
  ii_value : I -> bytes;
  ii_status : I -> Status;
  ii_size : I -> nat
}.

(** What an implementation promises: it can be positioned on any suffix of its
    sorted run and walks it to the end. *)
Class InternalIterLaws (I : Type) `{InternalIter I} := {
  ii_ready : list ikv -> I -> Prop;
  ii_at : list ikv -> I -> list ikv -> Prop;
  ii_run : forall r i, ii_ready r i -> run_wf r /\ (length r <= ii_size i)%nat;
  ii_first : forall r i, ii_ready r i -> exists i', ii_SeekToFirst i = Ret i' /\ ii_at r i' r;
  ii_seek : forall r i target, ii_ready r i -> ikey_wf target -> len32 target ->
    exists i', ii_Seek target i = Ret i' /\ ii_at r i' (seek_run target r);
  ii_at_ready : forall r i rest, ii_at r i rest ->
    ii_ready r i /\ ii_status i = OK /\ exists pre, r = pre ++ rest;
  ii_at_nil : forall r i, ii_at r i [] -> ii_Valid i = false;
  ii_at_cons : forall r i e rest, ii_at r i (e :: rest) -> ii_Valid i = true /\
    ii_key i = e.1 /\ ii_value i = e.2 /\
    exists i', ii_Next i = Ret i' /\ ii_at r i' rest
}.

(** ** MemTableInternalIter *)

Record MemTableInternalIter := mkMemIter {
  mi_list : SkipList bytes;
  mi_it : option nat;
  mi_status : Status;
  mi_ikey : bytes;
  mi_value : bytes
}.

Definition MemTableInternalIter_new (mem : MemTable) : MemTableInternalIter :=
  mkMemIter (table_ mem) None OK [] [].

(** [Parse()] at the position [it]; the old slices are cleared first. *)
Definition Parse (mi : MemTableInternalIter) (it : option nat) : Res MemTableInternalIter :=
  if negb (iter_Valid it) then Ret (mkMemIter (mi_list mi) it (mi_status mi) [] [])
  else
    s ← deref (iter_key (mi_list mi) it);
    match parse_entry s with
    | None => Ret (mkMemIter (mi_list mi) it (Corruption (lit "bad memtable entry")) [] [])
    | Some e => Ret (mkMemIter (mi_list mi) it (mi_status mi) e.1 e.2)
    end.

#[global] Instance MemTableInternalIter_ops : InternalIter MemTableInternalIter := {
  ii_Valid mi := iter_Valid (mi_it mi) && ok (mi_status mi);
  ii_SeekToFirst mi := it ← deref (iter_SeekToFirst (mi_list mi)); Parse mi it;
  ii_Seek target mi :=
    it ← deref (iter_Seek MemTableEntryComparator (mi_list mi) (mem_entry target [])); Parse mi it;
  ii_Next mi := it ← deref (iter_Next (mi_list mi) (mi_it mi)); Parse mi it;
  ii_key := mi_ikey;
  ii_value := mi_value;
  ii_status := mi_status;
  ii_size mi := length (nodes (mi_list mi))
}.

(** ** SSTableInternalIter *)

(** [status_] of the source is never assigned. *)
Definition SSTableInternalIter : Type := SSTable * SSTIter.

Definition SSTableInternalIter_new (t : SSTable) : Res SSTableInternalIter :=
  it ← SSTable_NewIterator t; Ret (t, it).

#[global] Instance SSTableInternalIter_ops : InternalIter SSTableInternalIter := {
  ii_Valid i := SSTIter_Valid i.2 && ok (si_status i.2);
  ii_SeekToFirst i := it ← SSTIter_SeekToFirst i.1 i.2; Ret (i.1, it);
  ii_Seek target i := it ← SSTIter_Seek i.1 i.2 target; Ret (i.1, it);
  ii_Next i := it ← SSTIter_Next i.1 i.2; Ret (i.1, it);
  ii_key i := match si_data i.2 with Some (_, di) => bi_key di | None => [] end;
  ii_value i := match si_data i.2 with Some (_, di) => bi_value di | None => [] end;
  ii_status i := si_status i.2;
  ii_size i := length (file_data_ i.1)
}.

(** ** A child of the merge is one of the two *)

Section SumIter.
Context {I J : Type} `{InternalIter I, InternalIter J}.

#[global] Instance sum_ops : InternalIter (I + J) := {
  ii_Valid c := match c with inl i => ii_Valid i | inr j => ii_Valid j end;
  ii_SeekToFirst c :=
    match c with inl i => i ← ii_SeekToFirst i; Ret (inl i) | inr j => j ← ii_SeekToFirst j; Ret (inr j) end;
  ii_Seek t c :=
    match c with inl i => i ← ii_Seek t i; Ret (inl i) | inr j => j ← ii_Seek t j; Ret (inr j) end;
  ii_Next c :=
    match c with inl i => i ← ii_Next i; Ret (inl i) | inr j => j ← ii_Next j; Ret (inr j) end;
  ii_key c := match c with inl i => ii_key i | inr j => ii_key j end;
  ii_value c := match c with inl i => ii_value i | inr j => ii_value j end;
  ii_status c := match c with inl i => ii_status i | inr j => ii_status j end;
  ii_size c := match c with inl i => ii_size i | inr j => ii_size j end
}.
End SumIter.

(** * MergingInternalIter *)

Section Merging.
Context {I : Type} `{InternalIter I}.

Record MergingInternalIter := mkMerging { children_ : list I; current_child : option nat }.

Definition child_key (c : I) : option bytes := if ii_Valid c then Some (ii_key c) else None.

Definition FindSmallest (cs : list I) : MergingInternalIter :=
  mkMerging cs (fst <$> find_smallest 0 (map child_key cs) None).

(** [for (auto& c : children_) c->op();] *)
Fixpoint each_child (op : I -> Res I) (cs : list I) : Res (list I) :=
  match cs with
  | [] => Ret []
  | c :: cs => c ← op c; cs ← each_child op cs; Ret (c :: cs)
  end.

Definition merge_SeekToFirst (m : MergingInternalIter) : Res MergingInternalIter :=
  cs ← each_child ii_SeekToFirst (children_ m); Ret (FindSmallest cs).
Definition merge_Seek (target : bytes) (m : MergingInternalIter) : Res MergingInternalIter :=
  cs ← each_child (ii_Seek target) (children_ m); Ret (FindSmallest cs).
Definition merge_Next (m : MergingInternalIter) : Res MergingInternalIter :=
  match current_child m with
  | None => Ret m
  | Some i =>
    c ← deref (children_ m !! i);
    c ← ii_Next c;
    Ret (FindSmallest (<[i := c]> (children_ m)))
  end.
Definition merge_Valid (m : MergingInternalIter) : bool := bool_decide (is_Some (current_child m)).

(** [key()] and [value()] *)
Definition merge_entry (m : MergingInternalIter) : Res ikv :=
  i ← deref (current_child m); c ← deref (children_ m !! i); Ret (ii_key c, ii_value c).

Fixpoint first_error (cs : list I) : Status :=
  match cs with
  | [] => OK
  | c :: cs => if negb (ok (ii_status c)) then ii_status c else first_error cs
  end.
Definition merge_status (m : MergingInternalIter) : Status := first_error (children_ m).

Definition merge_size (m : MergingInternalIter) : nat := sum_list_with ii_size (children_ m).

(** * DBIterator *)

Record DBIterator := mkDBIterator {
  snapshot_ : Z;
  merge_ : MergingInternalIter;
  dbi_status : Status;
  valid_ : bool;
  user_key_ : bytes;
  user_value_ : bytes
}.

(** [while (merge_.Valid()) { if (user key differs) break; merge_.Next(); }] *)
Fixpoint skip_versions (fuel : nat) (this_user_key : bytes) (m : MergingInternalIter)
    : Res MergingInternalIter :=
  if merge_Valid m then
    e ← merge_entry m;
    match Slice_compare (ExtractUserKey e.1) this_user_key with
    | Eq =>
      match fuel with
      | O => Stuck
      | S fuel => m ← merge_Next m; skip_versions fuel this_user_key m
      end
    | _ => Ret m
    end
  else Ret m.

(** The loop of [AdvanceToNextVisibleKey], after [valid_] and the user key and
    value have been cleared. *)
Fixpoint advance (fuel : nat) (it : DBIterator) : Res DBIterator :=
  let m := merge_ it in
  if merge_Valid m then
    if negb (ok (dbi_status it)) then Ret it
    else if negb (ok (merge_status m))
    then Ret (mkDBIterator (snapshot_ it) m (merge_status m) false [] [])
    else
      match fuel with
      | O => Stuck
      | S fuel =>
        e ← merge_entry m;
        if snapshot_ it <? ExtractSequence e.1 then
          m ← merge_Next m;
          advance fuel (mkDBIterator (snapshot_ it) m (dbi_status it) false [] [])
        else
          let this_user_key := ExtractUserKey e.1 in
          m ← merge_Next m;
          m ← skip_versions (merge_size m) this_user_key m;
          if decide (ExtractValueType e.1 = kTypeDeletion)
          then advance fuel (mkDBIterator (snapshot_ it) m (dbi_status it) false [] [])
          else Ret (mkDBIterator (snapshot_ it) m (dbi_status it) true this_user_key e.2)
      end
  else Ret it.

Definition AdvanceToNextVisibleKey (it : DBIterator) (m : MergingInternalIter) : Res DBIterator :=
  advance (S (merge_size m)) (mkDBIterator (snapshot_ it) m (dbi_status it) false [] []).

Definition DBIterator_SeekToFirst (it : DBIterator) : Res DBIterator :=
  m ← merge_SeekToFirst (merge_ it); AdvanceToNextVisibleKey it m.
Definition DBIterator_Seek (target : bytes) (it : DBIterator) : Res DBIterator :=
  m ← merge_Seek (MakeLookupKey target (snapshot_ it)) (merge_ it); AdvanceToNextVisibleKey it m.
Definition DBIterator_Next (it : DBIterator) : Res DBIterator :=
  AdvanceToNextVisibleKey it (merge_ it).
Definition DBIterator_status (it : DBIterator) : Status :=
  if ok (dbi_status it) then merge_status (merge_ it) else dbi_status it.

(** Walk to the end: the pairs seen. *)
Fixpoint walk (fuel : nat) (it : DBIterator) : Res (list (bytes * bytes)) :=
  if valid_ it then
    match fuel with
    | O => Stuck
    | S fuel =>
      it' ← DBIterator_Next it;
      rest ← walk fuel it';
      Ret ((user_key_ it, user_value_ it) :: rest)
    end
  else Ret [].
End Merging.

#[global] Arguments MergingInternalIter : clear implicits.
#[global] Arguments DBIterator : clear implicits.

(** * Construction *)

Definition Child : Type := MemTableInternalIter + SSTableInternalIter.

(** [AddSSTable]: the first error is kept, the table is left out. *)
Definition AddSSTable (db : bytes) (number : Z) (acc : list Child * Status) : SM World (list Child * Status) :=
  r ← try (SSTable_Open (TableFileName db number));
  match r with
  | inl s => mret (acc.1, if ok acc.2 then s else acc.2)
  | inr t => it ← lift (SSTableInternalIter_new t); mret (acc.1 ++ [inr it], acc.2)
  end.

Fixpoint add_tables (db : bytes) (fs : list FileMetaData) (acc : list Child * Status)
    : SM World (list Child * Status) :=
  match fs with
  | [] => mret acc
  | f :: fs => acc ← AddSSTable db (fm_number f) acc; add_tables db fs acc
  end.

Definition DBIterator_new (mem : MemTable) (imm : option MemTable) (version : Version) (db : bytes)
    (snapshot : Z) : SM World (DBIterator Child) :=
  let mems := inl (MemTableInternalIter_new mem) ::
    match imm with Some imm => [inl (MemTableInternalIter_new imm)] | None => [] end in
  '(cs, s) ← add_tables db (reverse (level0 version) ++ level1 version) (mems, OK);
  mret (mkDBIterator snapshot (mkMerging cs None) s false [] []).

Definition DBImpl_NewIterator (options : ReadOptions) : DbM (DBIterator Child) :=
  d ← gets (fun d => d);
  on_world (DBIterator_new (mem_ d) (imm_ d) (current_ (versions_ d)) (dbname_ d) (read_snapshot options d)).

(** * The implementations keep their promise *)

Definition list_rep (sl : SkipList bytes) (r : list ikv) : Prop :=
  represents [] MemTableEntryComparator entry_ok sl (map enc_ikv r) /\ Forall ikv_wf r.

Definition mi_ready (r : list ikv) (mi : MemTableInternalIter) : Prop :=
  list_rep (mi_list mi) r /\ mi_status mi = OK.
Definition mi_at (r : list ikv) (mi : MemTableInternalIter) (rest : list ikv) : Prop :=
  mi_ready r mi /\ (exists pre, r = pre ++ rest) /\
  iter_at [] MemTableEntryComparator entry_ok (mi_list mi) (mi_it mi) (map enc_ikv rest) /\
  match rest with e :: _ => mi_ikey mi = e.1 /\ mi_value mi = e.2 | [] => True end.

Lemma Parse_spec r mi it rest : mi_ready r mi -> (exists pre, r = pre ++ rest) ->
  iter_at [] MemTableEntryComparator entry_ok (mi_list mi) it (map enc_ikv rest) ->
  exists mi', Parse mi it = Ret mi' /\ mi_at r mi' rest.
Proof.
  intros [[Hr Hwf] Hs] [pre Hpre] Hat. unfold Parse. destruct rest as [|e rest].
  - rewrite (iter_at_nil [] MemTableEntryComparator entry_ok _ _ Hat). eexists. split; [reflexivity|]. split; [done|].
    split; [by exists pre|done].
  - cbn [map] in Hat. destruct (iter_at_cons [] MemTableEntryComparator entry_ok _ _ _ _ Hat) as (-> & -> & _).
    cbn [negb deref mbind Res_bind].
    assert (He : ikv_wf e) by (rewrite Hpre, Forall_app, Forall_cons in Hwf; tauto).
    destruct He as [_ _ H1 H2]. rewrite parse_enc_ikv by done. eexists. split; [reflexivity|].
    split; [done|]. split; [by exists pre|done].
Qed.

Lemma seek_run_tail target r : exists pre, r = pre ++ seek_run target r.
Proof. destruct (seek_run_suffix target r) as (pre & E & _). by exists pre. Qed.

#[global] Program Instance MemTableInternalIter_laws : InternalIterLaws MemTableInternalIter := {
  ii_ready := mi_ready;
  ii_at := mi_at
}.
Next Obligation.
  intros r i [[Hr Hwf] _]. split; [by apply (mem_rep_sorted (mkMemTable (mi_list i) 0))|].
  apply represents_length in Hr. by rewrite length_map in Hr.
Qed.
Next Obligation.
  intros r i Hready. pose proof Hready as [[Hr Hwf] Hs]. cbn [ii_SeekToFirst MemTableInternalIter_ops].
  destruct (iter_SeekToFirst_at [] MemTableEntryComparator entry_ok _ _ Hr) as (it & -> & Hat).
  cbn [deref mbind Res_bind]. apply Parse_spec; [done|by exists []|done].
Qed.
Next Obligation.
  intros r i target Hready Ht Hl. pose proof Hready as [[Hr Hwf] Hs]. cbn [ii_Seek MemTableInternalIter_ops].
  destruct (iter_Seek_at [] MemTableEntryComparator entry_ok _ _ (mem_entry target []) Hr) as (it & -> & Hat);
    [by exists (target, [])|].
  rewrite seek_list_enc in Hat by (done || by apply ikv_wf_len).
  cbn [deref mbind Res_bind]. apply Parse_spec; [done|apply seek_run_tail|done].
Qed.
Next Obligation. intros r i rest (Hr & Hpre & _). split; [done|]. split; [apply Hr|done]. Qed.
Next Obligation.
  intros r i (_ & _ & Hat & _). cbn [ii_Valid MemTableInternalIter_ops]. by rewrite (iter_at_nil _ _ _ _ _ Hat).
Qed.
Next Obligation.
  intros r i e rest (Hr & [pre Hpre] & Hat & Hk & Hv). cbn [map] in Hat.
  destruct (iter_at_cons _ _ _ _ _ _ _ Hat) as (Hval & _ & it' & En & Hat').
  cbn [ii_Valid ii_key ii_value ii_Next MemTableInternalIter_ops]. rewrite Hval, (proj2 Hr).
  split; [done|]. split; [done|]. split; [done|]. rewrite En. cbn [deref mbind Res_bind].
  apply Parse_spec; [done|exists (pre ++ [e]); by rewrite <- app_assoc|done].
Qed.

Definition ti_ready (r : list ikv) (i : SSTableInternalIter) : Prop :=
  exists bls idata, table_rep i.1 bls idata /\ r = blks_es bls /\ run_wf r /\ sit_ready bls i.2.
Definition ti_at (r : list ikv) (i : SSTableInternalIter) (rest : list ikv) : Prop :=
  exists bls idata, table_rep i.1 bls idata /\ r = blks_es bls /\ run_wf r /\ sit_at bls i.2 rest /\
    exists pre, r = pre ++ rest.

#[global] Program Instance SSTableInternalIter_laws : InternalIterLaws SSTableInternalIter := {
  ii_ready := ti_ready;
  ii_at := ti_at
}.
Next Obligation. intros r i (bls & idata & Ht & -> & Hr & _). split; [done|]. apply (tr_count _ _ _ Ht). Qed.
Next Obligation.
  intros r i (bls & idata & Ht & -> & Hr & Hready). pose proof Hr as [Hw Hs]. apply run_wf_ikeys in Hw.
  destruct (SSTIter_SeekToFirst_spec i.1 bls idata Ht Hw Hs i.2 Hready) as (it' & E & Hat).
  cbn [ii_SeekToFirst SSTableInternalIter_ops]. rewrite E. eexists. split; [reflexivity|]. exists bls, idata.
  do 4 (split; [done|]). by exists [].
Qed.
Next Obligation.
  intros r i target (bls & idata & Ht & -> & Hr & Hready) Htw _. pose proof Hr as [Hw Hs]. apply run_wf_ikeys in Hw.
  destruct (SSTIter_Seek_spec i.1 bls idata Ht Hw Hs i.2 target Hready Htw) as (it' & E & Hat).
  cbn [ii_Seek SSTableInternalIter_ops]. rewrite E. eexists. split; [reflexivity|]. exists bls, idata.
  do 4 (split; [done|]). apply seek_run_tail.
Qed.
Next Obligation.
  intros r i rest (bls & idata & Ht & Er & Hr & Hat & Hpre). split; [|split; [apply Hat|done]].
  exists bls, idata. by apply sit_at_ready in Hat.
Qed.
Next Obligation.
  intros r i (bls & idata & _ & _ & _ & (_ & Hv & _) & _). cbn [ii_Valid SSTableInternalIter_ops]. by rewrite Hv.
Qed.
Next Obligation.
  intros r i e rest (bls & idata & Ht & Er & Hr & Hat & pre & Hpre). pose proof Hr as [Hw Hs]. apply run_wf_ikeys in Hw.
  rewrite Er in Hw, Hs. destruct (sit_at_cons _ _ _ _ Hat) as [Hv He].
  destruct (SSTIter_Next_spec i.1 bls idata Ht Hw Hs i.2 e rest Hat) as (it' & E & Hat').
  cbn [ii_Valid ii_key ii_value ii_Next SSTableInternalIter_ops]. rewrite Hv, (proj1 Hat), E.
  unfold SSTIter_entry in He. destruct (si_data i.2) as [[b di]|]; [|done]. injection He as <-.
  split; [done|]. split; [done|]. split; [done|]. eexists. split; [reflexivity|]. exists bls, idata.
  do 4 (split; [done|]). exists (pre ++ [(bi_key di, bi_value di)]). by rewrite <- app_assoc.
Qed.

Section SumLaws.
Context {I J : Type} `{InternalIterLaws I, InternalIterLaws J}.

Lemma ret_map {A B} (f : A -> B) (m : Res A) (P : A -> Prop) (Q : B -> Prop) :
  (exists a, m = Ret a /\ P a) -> (forall a, P a -> Q (f a)) -> exists b, (a ← m; Ret (f a)) = Ret b /\ Q b.
Proof. intros (a & -> & Ha) Hf. exists (f a). split; [done|auto]. Qed.

Definition sum_ready (r : list ikv) (c : I + J) : Prop :=
  match c with inl i => ii_ready r i | inr j => ii_ready r j end.
Definition sum_at (r : list ikv) (c : I + J) (rest : list ikv) : Prop :=
  match c with inl i => ii_at r i rest | inr j => ii_at r j rest end.

#[global] Program Instance sum_laws : InternalIterLaws (I + J) := {
  ii_ready := sum_ready;
  ii_at := sum_at
}.
Next Obligation. intros r [i|j] Hr; exact (ii_run _ _ Hr). Qed.
Next Obligation.
  intros r [i|j] Hr.
  - exact (ret_map inl _ _ (fun c => sum_at r c r) (ii_first _ _ Hr) (fun _ H' => H')).
  - exact (ret_map inr _ _ (fun c => sum_at r c r) (ii_first _ _ Hr) (fun _ H' => H')).
Qed.
Next Obligation.
  intros r [i|j] t Hr Ht Hl.
  - exact (ret_map inl _ _ (fun c => sum_at r c _) (ii_seek _ _ t Hr Ht Hl) (fun _ H' => H')).
  - exact (ret_map inr _ _ (fun c => sum_at r c _) (ii_seek _ _ t Hr Ht Hl) (fun _ H' => H')).
Qed.
Next Obligation. intros r [i|j] rest Hat; exact (ii_at_ready _ _ _ Hat). Qed.
Next Obligation. intros r [i|j] Hat; exact (ii_at_nil _ _ Hat). Qed.
Next Obligation.
  intros r [i|j] e rest Hat; destruct (ii_at_cons _ _ _ _ Hat) as (? & ? & ? & Hn);
    (split; [done|]); (split; [done|]); (split; [done|]).
  - exact (ret_map inl _ _ (fun c => sum_at r c rest) Hn (fun _ H' => H')).
  - exact (ret_map inr _ _ (fun c => sum_at r c rest) Hn (fun _ H' => H')).
Qed.
End SumLaws.

(** * The merge *)

Lemma Forall3_insert_23 {A B C} (P : A -> B -> C -> Prop) la lb lc i a b c : Forall3 P la lb lc ->
  la !! i = Some a -> P a b c -> Forall3 P la (<[i := b]> lb) (<[i := c]> lc).
Proof.
  intros Hall. revert i. induction Hall as [|a' b' c' la lb lc Hp Hall IH]; intros [|i] Ha Hpc; [done..| |].
  - injection Ha as ->. by constructor.
  - constructor; [done|]. by apply IH.
Qed.

Section MergeLaws.
Context {I : Type} `{InternalIterLaws I}.
Implicit Types m : MergingInternalIter I.

(** Children positioned before [rests] of the runs [runs]. *)
Definition children_at (runs : list (list ikv)) (cs : list I) (rests : list (list ikv)) : Prop :=
  Forall3 (fun r c rest => ii_at r c rest) runs cs rests.

(** The merge stands before the entries [es]. *)
Definition merge_at (runs : list (list ikv)) m (es : list ikv) : Prop :=
  exists rests, children_at runs (children_ m) rests /\ runs_ok rests /\
    es = kmerge (length (concat rests)) rests /\
    current_child m = fst <$> find_smallest 0 (map head_key rests) None.

Lemma child_key_at runs cs rests : children_at runs cs rests -> map child_key cs = map head_key rests.
Proof.
  induction 1 as [|r c rest runs cs rests Hat Hall IH]; [done|]. cbn [map]. rewrite IH. f_equal.
  unfold child_key, head_key. destruct rest as [|e rest].
  - by rewrite (ii_at_nil _ _ Hat).
  - destruct (ii_at_cons _ _ _ _ Hat) as (-> & -> & _). done.
Qed.

Lemma FindSmallest_at runs cs rests : children_at runs cs rests -> runs_ok rests ->
  merge_at runs (FindSmallest cs) (kmerge (length (concat rests)) rests).
Proof.
  intros Hat Hok. exists rests. split; [done|]. split; [done|]. split; [done|].
  cbn [current_child FindSmallest]. by rewrite (child_key_at _ _ _ Hat).
Qed.

Lemma merge_at_nil runs m : merge_at runs m [] -> merge_Valid m = false.
Proof.
  intros (rests & Hat & Hok & Hes & Hc). unfold merge_Valid. rewrite Hc.
  pose proof (find_smallest_rests rests Hok) as Hf.
  destruct (find_smallest 0 (map head_key rests) None) as [[i k]|] eqn:E; [|done].
  destruct Hf as (e & r & Hi & _). pose proof (concat_insert_perm _ _ _ _ Hi) as Hp.
  apply Permutation_length in Hp. destruct (length (concat rests)) as [|n]; [simpl in Hp; lia|].
  cbn [kmerge] in Hes. by rewrite E, Hi in Hes.
Qed.

Lemma merge_at_cons runs m e es : merge_at runs m (e :: es) ->
  merge_Valid m = true /\ merge_entry m = Ret e /\
  exists m', merge_Next m = Ret m' /\ merge_at runs m' es.
Proof.
  intros (rests & Hat & Hok & Hes & Hc).
  pose proof (find_smallest_rests rests Hok) as Hf. unfold merge_Valid, merge_entry, merge_Next. rewrite Hc.
  destruct (length (concat rests)) as [|n] eqn:El; cbn [kmerge] in Hes;
    destruct (find_smallest 0 (map head_key rests) None) as [[i k]|] eqn:E; try done.
  destruct Hf as (e0 & r & Hi & _). rewrite Hi in Hes. injection Hes as -> Hes.
  cbn [fmap option_fmap option_map fst deref mbind Res_bind].
  destruct (Forall3_lookup_r _ _ _ _ _ _ Hat Hi) as (run & c & Hrun & Hci & Hc1). rewrite Hci.
  destruct (ii_at_cons _ _ _ _ Hc1) as (_ & Hk & Hv & c' & En & Hc').
  cbn [deref mbind Res_bind]. rewrite Hk, Hv, En. cbn [mbind Res_bind].
  split; [done|]. split; [by destruct e0|]. eexists. split; [reflexivity|].
  pose proof (concat_insert_perm _ _ _ _ Hi) as Hp. apply Permutation_length in Hp. rewrite El in Hp. cbn [length] in Hp.
  rewrite Hes. replace n with (length (concat (<[i:=r]> rests))) by lia. apply FindSmallest_at.
  - by apply Forall3_insert_23 with run.
  - by eapply runs_ok_insert.
Qed.

Lemma merge_at_status runs m es : merge_at runs m es -> merge_status m = OK.
Proof.
  intros (rests & Hat & _). unfold merge_status. induction Hat as [|r c rest runs cs rests Hc Hat IH]; [done|].
  cbn [first_error]. destruct (ii_at_ready _ _ _ Hc) as (_ & -> & _). done.
Qed.

Lemma merge_at_ready runs m es : merge_at runs m es -> Forall2 ii_ready runs (children_ m).
Proof.
  intros (rests & Hat & _). induction Hat as [|r c rest runs cs rests Hc Hat IH]; constructor; [|done].
  by destruct (ii_at_ready _ _ _ Hc).
Qed.

Lemma merge_at_size runs m es : merge_at runs m es -> (length es <= merge_size m)%nat.
Proof.
  intros (rests & Hat & Hok & -> & _). rewrite (Permutation_length (kmerge_perm _ _ Hok (le_n _))).
  unfold merge_size. clear Hok. induction Hat as [|r c rest runs cs rests Hc Hat IH]; [done|].
  cbn [concat sum_list_with]. rewrite length_app. destruct (ii_at_ready _ _ _ Hc) as (Hr & _ & pre & Hpre).
  apply ii_run in Hr as [_ Hl]. rewrite Hpre, length_app in Hl. lia.
Qed.

Lemma runs_ok_rests runs cs rests : children_at runs cs rests -> runs_ok rests.
Proof.
  induction 1 as [|r c rest runs cs rests Hc Hat IH]; constructor; [|done].
  destruct (ii_at_ready _ _ _ Hc) as (Hr & _ & pre & Hpre). apply ii_run in Hr as [[Hw Hs] _].
  apply run_wf_ikeys in Hw. rewrite Hpre in Hw, Hs. apply Forall_app in Hw as [_ Hw]. split; [done|].
  by eapply run_sorted_app.
Qed.

(** Positioning every child. *)
Lemma each_child_at (op : I -> Res I) (sel : list ikv -> list ikv) runs cs :
  (forall r c, ii_ready r c -> exists c', op c = Ret c' /\ ii_at r c' (sel r)) ->
  Forall2 ii_ready runs cs -> exists cs', each_child op cs = Ret cs' /\ children_at runs cs' (map sel runs).
Proof.
  intros Hop. induction 1 as [|r c runs cs Hc Hcs (cs' & E & Hat)]; [exists []; split; [done|constructor]|].
  destruct (Hop r c Hc) as (c' & Ec & Hc'). exists (c' :: cs'). cbn [each_child map]. rewrite Ec. cbn [mbind Res_bind].
  rewrite E. split; [done|]. by constructor.
Qed.

Lemma merge_SeekToFirst_spec runs m : Forall2 ii_ready runs (children_ m) ->
  exists m', merge_SeekToFirst m = Ret m' /\ merge_at runs m' (kmerge (length (concat runs)) runs).
Proof.
  intros Hr. destruct (each_child_at ii_SeekToFirst (fun r => r) runs (children_ m)) as (cs & E & Hat);
    [intros; by apply ii_first|done|].
  rewrite map_id in Hat. unfold merge_SeekToFirst. rewrite E. eexists. split; [reflexivity|].
  apply FindSmallest_at; [done|by eapply runs_ok_rests].
Qed.

Lemma merge_Seek_spec runs m target : Forall2 ii_ready runs (children_ m) -> ikey_wf target -> len32 target ->
  let rests := map (seek_run target) runs in
  exists m', merge_Seek target m = Ret m' /\ merge_at runs m' (kmerge (length (concat rests)) rests).
Proof.
  intros Hr Ht Hl rests. destruct (each_child_at (ii_Seek target) (seek_run target) runs (children_ m)) as (cs & E & Hat);
    [intros; by apply ii_seek|done|].
  unfold merge_Seek. rewrite E. eexists. split; [reflexivity|].
  apply FindSmallest_at; [done|by eapply runs_ok_rests].
Qed.
End MergeLaws.

(** * What a snapshot sees, in order *)

(** The live pairs of a sorted sequence at snapshot [s]; [last] is the user key
    whose visible version has been met. *)
Fixpoint view (s : Z) (last : option bytes) (es : list ikv) : list (bytes * bytes) :=
  match es with
  | [] => []
  | e :: es =>
    if decide (last = Some (user e)) then view s last es
    else if s <? ExtractSequence e.1 then view s last es
    else (if decide (ExtractValueType e.1 = kTypeDeletion) then [] else [(user e, e.2)])
         ++ view s (Some (user e)) es
  end.

Fixpoint drop_user (u : bytes) (es : list ikv) : list ikv :=
  match es with
  | [] => []
  | e :: es' => if decide (user e = u) then drop_user u es' else es
  end.

(** A sorted sequence of well-formed internal keys. *)
Definition seq_ok (es : list ikv) : Prop := Forall (fun e => ikey_wf e.1) es /\ run_sorted es.

Lemma seq_ok_cons e es : seq_ok (e :: es) -> ikey_wf e.1 /\ seq_ok es /\
  forall x, x ∈ es -> lex (user e) (user x) <> Gt /\ (user x = user e -> packed_of x.1 < packed_of e.1).
Proof.
  intros [Hw Hs]. apply Forall_cons in Hw as [He Hw]. unfold run_sorted in Hs.
  apply StronglySorted_inv in Hs as [Hs Hf]. rewrite Forall_forall in Hf.
  split; [done|]. split; [done|]. intros x Hx. rewrite Forall_forall in Hw. specialize (Hf x Hx). split.
  - apply ikv_lt_user; auto.
  - intros Eu. unfold ikv_cmp in Hf. rewrite CompareInternalKey_wf in Hf by auto.
    unfold user in Eu. rewrite Eu, lex_refl in Hf. by rewrite Z.compare_lt_iff in Hf.
Qed.

Lemma drop_user_suffix u es : exists pre, es = pre ++ drop_user u es.
Proof.
  induction es as [|e es (pre & E)]; [by exists []|]. cbn [drop_user]. destruct (decide _); [|by exists []].
  exists (e :: pre). cbn. by rewrite <- E.
Qed.

Lemma seq_ok_suffix pre es : seq_ok (pre ++ es) -> seq_ok es.
Proof. intros [Hw Hs]. apply Forall_app in Hw as [_ Hw]. split; [done|]. by eapply run_sorted_app. Qed.

Lemma seq_ok_drop u es : seq_ok es -> seq_ok (drop_user u es).
Proof. intros H. destruct (drop_user_suffix u es) as [pre E]. rewrite E in H. by eapply seq_ok_suffix. Qed.

(** Past the entries of [u] nothing belongs to [u]. *)
Lemma drop_user_none u es : seq_ok es -> (forall x, x ∈ es -> lex u (user x) <> Gt) ->
  forall x, x ∈ drop_user u es -> user x <> u.
Proof.
  induction es as [|e es IH]; intros Hok Hle x Hx; [by apply elem_of_nil in Hx|].
  destruct (seq_ok_cons _ _ Hok) as (He & Hok' & Hlater). cbn [drop_user] in Hx. destruct (decide _) as [Eu|Hne].
  - apply IH; [done| |done]. intros y Hy. apply Hle, elem_of_cons. by right.
  - apply elem_of_cons in Hx as [->|Hx]; [done|]. intros Eu. apply Hne. apply lex_eq.
    destruct (Hlater x Hx) as [H1 _]. rewrite Eu in H1. specialize (Hle e ltac:(apply elem_of_cons; by left)).
    destruct (lex (user e) u) eqn:C; [done|rewrite lex_antisym, C in Hle; done|done].
Qed.

Lemma view_skip s u es : (forall x, x ∈ es -> user x <> u) -> view s (Some u) es = view s None es.
Proof.
  induction es as [|e es IH]; intros Hne; [done|]. cbn [view].
  rewrite decide_False by (intros [= E]; by apply (Hne e); [apply elem_of_cons; left|]).
  rewrite (decide_False (P := None = Some (user e))) by done.
  rewrite IH by (intros x Hx; apply Hne, elem_of_cons; by right). done.
Qed.

Lemma view_drop s u es : seq_ok es -> (forall x, x ∈ es -> lex u (user x) <> Gt) ->
  view s (Some u) es = view s None (drop_user u es).
Proof.
  intros Hok Hle. rewrite <- (view_skip s u (drop_user u es)) by (by apply drop_user_none).
  clear Hok Hle. induction es as [|e es IH]; [done|]. cbn [drop_user]. destruct (decide (user e = u)) as [Eu|]; [|done].
  cbn [view]. by rewrite decide_True by (by rewrite Eu).
Qed.

(** The view of a sequence holds the pairs a reader at the snapshot finds. *)
Lemma elem_of_view s es : seq_ok es -> forall last u v,
  (forall l x, last = Some l -> x ∈ es -> lex l (user x) <> Gt) ->
  (u, v) ∈ view s last es <-> last <> Some u /\ lookup_run u s es = Some (Some v).
Proof.
  induction es as [|e es IH]; intros Hok last u v Hlast.
  { cbn. rewrite elem_of_nil. split; [done|]. by intros [_ ?]. }
  destruct (seq_ok_cons _ _ Hok) as (He & Hok' & Hlater). specialize (IH Hok').
  assert (Htl : forall l x, last = Some l -> x ∈ es -> lex l (user x) <> Gt)
    by (intros l x Hl Hx; apply Hlast; [done|apply elem_of_cons; by right]).
  assert (Hvis : ~ visible u s e -> lookup_run u s (e :: es) = lookup_run u s es).
  { intros Hn. unfold lookup_run. cbn [newest]. by rewrite decide_False. }
  cbn [view]. destruct (decide (last = Some (user e))) as [El|Hne].
  { rewrite IH by done. split; intros [H1 H2]; (split; [done|]); [rewrite Hvis|rewrite Hvis in H2]; try done;
      intros [Eu _]; apply H1; by rewrite <- Eu. }
  destruct (Z.ltb_spec s (ExtractSequence e.1)) as [Hlt|Hge].
  { rewrite IH, Hvis; [done| |done]. intros [_ ?]. lia. }
  rewrite elem_of_app, IH by (intros l x [= <-] Hx; by apply Hlater).
  destruct (decide (user e = u)) as [<-|Hu].
  - assert (Hhit : lookup_run (user e) s (e :: es) = Some (read_entry e)).
    { unfold lookup_run. cbn [newest]. rewrite decide_True by (split; [done|lia]).
      destruct (newest (user e) s es) as [x|] eqn:En; [|done]. apply newest_elem in En as [Hx [Eu _]].
      destruct (Hlater x Hx) as [_ Hp]. specialize (Hp Eu). by rewrite (proj2 (Z.ltb_ge _ _)) by lia. }
    rewrite Hhit. unfold read_entry. destruct (decide (ExtractValueType e.1 = kTypeDeletion)).
    + rewrite elem_of_nil. split; [by intros [[]|[[] _]]|]. by intros [_ ?].
    + rewrite list_elem_of_singleton. split.
      * intros [[= ->]|[[] _]]; [|done]. done.
      * intros [_ [= ->]]. by left.
  - rewrite Hvis by (by intros [? _]). split.
    + intros [Hin|[_ Hl]].
      * destruct (decide _); [by apply elem_of_nil in Hin|]. apply list_elem_of_singleton in Hin. congruence.
      * split; [|done]. intros ->. unfold lookup_run in Hl.
        destruct (newest u s es) as [x|] eqn:En; [|done]. apply newest_elem in En as [Hx [Eu _]].
        destruct (Hlater x Hx) as [H1 _]. unfold user in H1 at 2. rewrite Eu in H1.
        specialize (Hlast u e eq_refl ltac:(apply elem_of_cons; by left)). apply Hu. apply lex_eq.
        destruct (lex (user e) u) eqn:C; [done|rewrite lex_antisym, C in Hlast; done|done].
    + intros [_ Hl]. right. split; [congruence|done].
Qed.

Definition key_lt (a b : bytes * bytes) : Prop := lex a.1 b.1 = Lt.

(** The keys of a view are strictly increasing. *)
Lemma view_sorted s es : seq_ok es -> forall last,
  (forall l x, last = Some l -> x ∈ es -> lex l (user x) <> Gt) ->
  StronglySorted key_lt (view s last es) /\
  forall l p, last = Some l -> p ∈ view s last es -> lex l p.1 = Lt.
Proof.
  induction es as [|e es IH]; intros Hok last Hlast.
  { split; [constructor|]. intros l p _ Hp. by apply elem_of_nil in Hp. }
  destruct (seq_ok_cons _ _ Hok) as (He & Hok' & Hlater). specialize (IH Hok').
  assert (Htl : forall l x, last = Some l -> x ∈ es -> lex l (user x) <> Gt)
    by (intros l x Hl Hx; apply Hlast; [done|apply elem_of_cons; by right]).
  cbn [view]. destruct (decide (last = Some (user e))) as [El|Hne]; [by apply IH|].
  destruct (s <? ExtractSequence e.1); [by apply IH|].
  destruct (IH (Some (user e))) as [Hs Hgt]; [intros l x [= <-] Hx; by apply Hlater|].
  assert (Hle : forall l, last = Some l -> lex l (user e) = Lt).
  { intros l ->. specialize (Hlast l e eq_refl ltac:(apply elem_of_cons; by left)).
    destruct (lex l (user e)) eqn:C; [|done|done]. apply lex_eq in C. by rewrite C in Hne. }
  assert (Hlt : forall l p, last = Some l -> p ∈ view s (Some (user e)) es -> lex l p.1 = Lt).
  { intros l p Hl Hp. specialize (Hgt (user e) p eq_refl Hp). specialize (Hle l Hl).
    destruct (lex l p.1) eqn:C; [|done|].
    - apply lex_eq in C. subst l. rewrite lex_antisym, Hle in Hgt. done.
    - destruct (lex_trans l (user e) p.1); [by rewrite Hle|by rewrite Hgt|done]. }
  destruct (decide (ExtractValueType e.1 = kTypeDeletion)); cbn [app]; [done|]. split.
  - constructor; [done|]. apply Forall_forall. intros p Hp. by apply (Hgt (user e) p eq_refl).
  - intros l p Hl [->|Hp]%elem_of_cons; [by apply Hle|by apply Hlt].
Qed.

(** * The iterator walks the view *)

Section Walk.
Context {I : Type} `{InternalIterLaws I}.
Context (runs : list (list ikv)).

Lemma skip_versions_spec u : forall es fuel m, merge_at runs m es -> (length es <= fuel)%nat ->
  exists m', skip_versions fuel u m = Ret m' /\ merge_at runs m' (drop_user u es).
Proof.
  induction es as [|e es IH]; intros fuel m Hat Hf.
  { exists m. split; [|done]. destruct fuel; cbn [skip_versions]; by rewrite (merge_at_nil _ _ Hat). }
  destruct (merge_at_cons _ _ _ _ Hat) as (Hv & He & m' & En & Hat'). cbn [drop_user length] in *.
  destruct fuel as [|fuel]; [lia|]. cbn [skip_versions]. rewrite Hv, He. cbn [mbind Res_bind].
  rewrite Slice_compare_lex. fold (user e). destruct (decide (user e = u)) as [<-|Hne].
  - rewrite lex_refl, En. cbn [mbind Res_bind]. apply IH; [done|lia].
  - exists m. split; [|done]. destruct (lex (user e) u) eqn:C; [|done|done]. by apply lex_eq in C.
Qed.

(** The iterator is healthy and its merge stands before [es]. *)
Definition dbi_at (s : Z) (it : DBIterator I) (es : list ikv) : Prop :=
  snapshot_ it = s /\ dbi_status it = OK /\ merge_at runs (merge_ it) es /\ seq_ok es.

(** It shows the first pair of [ps], and the rest is what the merge still holds. *)
Definition shows (s : Z) (it : DBIterator I) (ps : list (bytes * bytes)) : Prop :=
  exists es, dbi_at s it es /\
  match ps with
  | [] => valid_ it = false
  | p :: ps => valid_ it = true /\ user_key_ it = p.1 /\ user_value_ it = p.2 /\ view s None es = ps
  end.

Lemma advance_spec s : forall fuel es it, dbi_at s it es -> valid_ it = false -> (length es < fuel)%nat ->
  exists it', advance fuel it = Ret it' /\ shows s it' (view s None es).
Proof.
  induction fuel as [|fuel IH]; intros es it (Hsn & Hst & Hat & Hok) Hval Hf; [lia|].
  cbn [advance]. destruct es as [|e es].
  { rewrite (merge_at_nil _ _ Hat). exists it. split; [done|]. by exists []. }
  destruct (merge_at_cons _ _ _ _ Hat) as (-> & He & m1 & En & Hat1).
  rewrite Hst, (merge_at_status _ _ _ Hat). change (ok OK) with true. cbn [negb].
  rewrite He, Hsn. cbn [mbind Res_bind]. rewrite En. cbn [mbind Res_bind view].
  rewrite (decide_False (P := None = Some (user e))) by done.
  destruct (seq_ok_cons _ _ Hok) as (Hew & Hok1 & Hlater). cbn [length] in Hf.
  destruct (s <? ExtractSequence e.1).
  { apply IH; [by split; [|split; [|split]]|done|lia]. }
  destruct (skip_versions_spec (ExtractUserKey e.1) es (merge_size m1) m1 Hat1 (merge_at_size _ _ _ Hat1))
    as (m2 & -> & Hat2). cbn [mbind Res_bind]. fold (user e) in *.
  rewrite view_drop by (done || intros x Hx; by apply Hlater).
  pose proof (seq_ok_drop (user e) es Hok1) as Hok2.
  destruct (drop_user_suffix (user e) es) as [pre Epre].
  assert (length (drop_user (user e) es) <= length es)%nat
    by (rewrite Epre at 2; rewrite length_app; lia).
  destruct (decide (ExtractValueType e.1 = kTypeDeletion)); cbn [app].
  - apply IH; [by split; [|split; [|split]]|done|lia].
  - eexists. split; [reflexivity|]. exists (drop_user (user e) es). split; [by split; [|split; [|split]]|]. done.
Qed.

Lemma Advance_spec s it m es : snapshot_ it = s -> dbi_status it = OK -> merge_at runs m es -> seq_ok es ->
  exists it', AdvanceToNextVisibleKey it m = Ret it' /\ shows s it' (view s None es).
Proof.
  intros Hsn Hst Hat Hok. unfold AdvanceToNextVisibleKey. apply advance_spec; [by split; [|split; [|split]]|done|].
  pose proof (merge_at_size _ _ _ Hat). lia.
Qed.

Lemma Next_shows s it p ps : shows s it (p :: ps) ->
  exists it', DBIterator_Next it = Ret it' /\ shows s it' ps.
Proof.
  intros (es & (Hsn & Hst & Hat & Hok) & _ & _ & _ & <-). unfold DBIterator_Next. by apply Advance_spec.
Qed.

Lemma walk_spec s : forall ps fuel it, shows s it ps -> (length ps <= fuel)%nat -> walk fuel it = Ret ps.
Proof.
  induction ps as [|p ps IH]; intros fuel it Hsh Hf.
  { destruct Hsh as (es & _ & Hv). destruct fuel; cbn [walk]; by rewrite Hv. }
  destruct (Next_shows s it p ps Hsh) as (it' & En & Hsh').
  destruct Hsh as (es & _ & Hv & Hk & Hval & _). cbn [length] in Hf. destruct fuel as [|fuel]; [lia|].
  cbn [walk]. rewrite Hv, En. cbn [mbind Res_bind]. rewrite (IH fuel it' Hsh') by lia. cbn [mbind Res_bind].
  rewrite Hk, Hval. by destruct p.
Qed.
End Walk.

(** * Opening an iterator on a database *)

Lemma AddSSTable_spec db f r w acc : file_rep db w f r ->
  exists res w', AddSSTable db (fm_number f) acc w = (Ret res, w') /\ reads w w' /\
    ((exists i, res = (acc.1 ++ [inr i], acc.2) /\ ti_ready r i) \/
     ~ no_faults w /\ res.1 = acc.1 /\ ok res.2 = false).
Proof.
  intros Hf. destruct (fr_file _ _ _ _ Hf) as (file & Hfile & Hrep).
  destruct (SSTable_Open_spec _ _ _ _ Hfile Hrep) as (ro & w1 & Eo & Hr & Ho).
  unfold AddSSTable. sm_step. rewrite Eo.
  destruct Ho as [(e & -> & He & Hnf)|(t & bls & idata & -> & Er & Ht)]; sm_step.
  - eexists _, w1. split; [reflexivity|]. split; [done|]. right. split; [done|]. cbn. split; [done|].
    destruct (ok acc.2) eqn:E; [apply He|done].
  - destruct (NewIterator_spec t bls idata Ht) as (ib & it & ibuf & irs & E1 & Hi & Hst & _ & Hib).
    unfold SSTableInternalIter_new. rewrite E1. cbn [mbind Res_bind]. eexists _, w1. split; [reflexivity|].
    split; [done|]. left. exists (t, it). split; [done|]. exists bls, idata. split; [done|]. split; [done|].
    split; [eapply fr_run; eassumption|]. split; [done|]. exists ib, (BlockIter_new ib), ibuf, irs.
    split; [done|]. split; [apply Hib|done].
Qed.

(** The children are always usable; without an error none is missing. *)
Lemma add_tables_spec db fs : forall (rs runs all : list (list ikv)) cs s w,
  Forall2 (file_rep db w) fs rs -> Forall2 ii_ready runs cs -> (ok s = true -> s = OK /\ runs = all) ->
  exists cs' s' runs' w', add_tables db fs (cs, s) w = (Ret (cs', s'), w') /\ reads w w' /\
    Forall2 ii_ready runs' cs' /\ (ok s' = true -> s' = OK /\ runs' = all ++ rs) /\
    (no_faults w -> ok s = true -> ok s' = true).
Proof.
  induction fs as [|f fs IH]; intros rs runs all cs s w Hall Hrd Hs; inversion Hall as [|? r ? rs' Hf Hfs]; subst.
  { exists cs, s, runs, w. rewrite app_nil_r. done. }
  destruct (AddSSTable_spec db f r w (cs, s) Hf) as (res & w1 & E1 & Hr1 & H1).
  assert (Hfs' : Forall2 (file_rep db w1) fs rs').
  { eapply Forall2_impl; [exact Hfs|]. intros ? ?. apply file_rep_world. by rewrite (rd_files _ _ Hr1). }
  destruct res as [cs1 s1]. cbn [add_tables]. sm_step. rewrite E1.
  assert (Hstep : exists runs1, Forall2 ii_ready runs1 cs1 /\ (ok s1 = true -> s1 = OK /\ runs1 = all ++ [r])).
  { destruct H1 as [(i & [= -> ->] & Hi)|(_ & Ecs & Hbad)].
    - exists (runs ++ [r]). split; [by apply Forall2_app; [|constructor]|]. intros Hok.
      by destruct (Hs Hok) as [-> ->].
    - exists runs. cbn in Ecs, Hbad. subst cs1. split; [done|]. congruence. }
  destruct Hstep as (runs1 & Hrd1 & Hs1).
  destruct (IH rs' runs1 (all ++ [r]) cs1 s1 w1 Hfs' Hrd1 Hs1) as (cs' & s' & runs' & w' & E & Hr & Hrd' & H2 & H3).
  exists cs', s', runs', w'. split; [done|]. split; [by eapply reads_trans|]. split; [done|].
  rewrite <- app_assoc in H2. split; [done|].
  intros Hn Hok. apply H3; [by apply (rd_faults _ _ Hr1)|].
  destruct H1 as [(i & [= -> ->] & Hi)|(Hnf & _)]; [done|by destruct Hnf].
Qed.

(** The runs the iterator merges. *)
Definition iter_runs (imm : option MemTable) rm ri rho (v : Version) : list (list ikv) :=
  rm :: match imm with Some _ => [ri] | None => [] end ++ map (frun rho) (reverse (level0 v) ++ level1 v).

Lemma NewIterator_inv d rm ri rho m s : core (dbname_ d) (versions_ d) (mem_ d) (imm_ d) (world d) rm ri rho m ->
  s = read_snapshot (mkReadOptions 0) d ->
  exists it w', DBImpl_NewIterator (mkReadOptions 0) d = (Ret it, with_versions (versions_ d) w' d) /\
    reads (world d) w' /\ snapshot_ it = s /\ exists runs, Forall2 ii_ready runs (children_ (merge_ it)) /\
    ((dbi_status it = OK /\ runs = iter_runs (imm_ d) rm ri rho (current_ (versions_ d))) \/
     ok (dbi_status it) = false /\ ~ no_faults (world d)).
Proof.
  intros Hco ->. unfold DBImpl_NewIterator, DBIterator_new, on_world, zoom. sm_step.
  set (v := current_ (versions_ d)). set (fs := reverse (level0 v) ++ level1 v).
  set (mems := _ :: match imm_ d with Some _ => _ | None => _ end).
  assert (Hfs : Forall2 (file_rep (dbname_ d) (world d)) fs (map (frun rho) fs)).
  { rewrite <- (map_id fs) at 1. apply Forall2_map_r. intros f Hf. apply (co_files _ _ _ _ _ _ _ _ _ Hco).
    unfold fs in Hf. unfold vfiles. rewrite elem_of_app in *. by rewrite elem_of_reverse in Hf. }
  assert (Hmems : Forall2 ii_ready (rm :: match imm_ d with Some _ => [ri] | None => [] end) mems).
  { pose proof (co_imm _ _ _ _ _ _ _ _ _ Hco) as Hi. subst mems. constructor.
    - split; [apply (co_mem _ _ _ _ _ _ _ _ _ Hco)|done].
    - destruct (imm_ d); [|by apply Forall2_nil]. apply Forall2_cons. split; [by split|by apply Forall2_nil]. }
  destruct (add_tables_spec (dbname_ d) fs _ _ _ mems OK (world d) Hfs Hmems (fun _ => conj eq_refl eq_refl))
    as (cs & st & runs & w' & E & Hr & Hrd & H1 & H2).
  unfold Child, SSTableInternalIter in *. rewrite E. sm_step. eexists _, w'. split; [reflexivity|]. split; [done|]. split; [done|].
  cbn [dbi_status merge_ children_]. exists runs. split; [done|]. destruct (ok st) eqn:Es.
  - left. destruct (H1 eq_refl) as [-> ->]. split; [done|]. unfold iter_runs. fold v fs. by rewrite app_comm_cons.
  - right. split; [done|]. intros Hn. by specialize (H2 Hn eq_refl).
Qed.

(** * Properties *)

Lemma iter_runs_entries {db vs mem imm w rm ri rho m} : core db vs mem imm w rm ri rho m ->
  concat (iter_runs imm rm ri rho (current_ vs)) ≡ₚ entries rm ri rho (current_ vs).
Proof.
  intros Hco. pose proof (co_imm _ _ _ _ _ _ _ _ _ Hco) as Hi. unfold iter_runs, entries, layers, upper, lower.
  cbn [concat app]. apply Permutation_app_head. rewrite concat_app, concat_app, map_app, concat_app.
  assert (concat (match imm with Some _ => [ri] | None => [] end) = ri) as ->
    by (destruct imm; cbn; [apply app_nil_r|by rewrite Hi]).
  do 2 apply Permutation_app_head. apply concat_map_perm. by rewrite reverse_Permutation.
Qed.

(** They hold the map at the latest sequence. *)
Lemma iter_runs_lookup {db vs mem imm w rm ri rho m} u : core db vs mem imm w rm ri rho m ->
  lookup_run u (last_sequence_ vs) (concat (iter_runs imm rm ri rho (current_ vs))) ≫= id = m !! u.
Proof.
  intros Hco. pose proof (iter_runs_entries Hco) as Hp. destruct (core_entries_wf Hco) as [Hw Hnd].
  rewrite <- (co_map _ _ _ _ _ _ _ _ _ Hco u). f_equal. symmetry. apply lookup_run_perm; [done..|]. by rewrite Hp.
Qed.

(** The merge of runs that hold every internal key once. *)
Lemma kmerge_seq_ok runs : runs_ok runs -> NoDup (map fst (concat runs)) ->
  seq_ok (kmerge (length (concat runs)) runs).
Proof.
  intros Hok Hnd. split; [|by apply kmerge_run_sorted].
  rewrite (kmerge_perm (length (concat runs)) runs Hok (le_n _)). apply Forall_concat.
  eapply Forall_impl; [exact Hok|]. by intros r [].
Qed.

Lemma lookup_kmerge u s runs : runs_ok runs -> NoDup (map fst (concat runs)) ->
  lookup_run u s (kmerge (length (concat runs)) runs) = lookup_run u s (concat runs).
Proof.
  intros Hok Hnd. pose proof (kmerge_perm (length (concat runs)) runs Hok (le_n _)) as Hp.
  destruct (kmerge_seq_ok runs Hok Hnd) as [Hw _]. apply lookup_run_perm; [done| |done].
  by rewrite Hp.
Qed.

(** [newest] depends on the visible entries only. *)
Lemma newest_visible u s es es' : Forall (fun e => ikey_wf e.1) es -> keys_unique es ->
  (forall e, visible u s e -> e ∈ es <-> e ∈ es') -> newest u s es = newest u s es'.
Proof.
  intros Hwf Hu Heq. destruct (newest u s es') as [e|] eqn:E.
  - pose proof (newest_max _ _ _ _ E) as Hm. apply newest_elem in E as [He Hv].
    apply newest_intro; try done; [by apply Heq|]. intros e' He' Hv'. apply Hm; [by apply Heq|done].
  - rewrite newest_None in *. intros e He Hv. apply (E e); [by apply Heq|done].
Qed.

(** What is left of a run from the lookup key of [target] on. *)
Lemma elem_of_seek_run target s r e : run_wf r -> seq56 s ->
  e ∈ seek_run (MakeLookupKey target s) r <->
    e ∈ r /\ CompareInternalKey e.1 (MakeLookupKey target s) <> Lt.
Proof.
  intros [Hw Hs] Hseq. pose proof (run_wf_ikeys _ Hw) as Hik.
  assert (Hlk : ikey_wf (MakeLookupKey target s)) by apply MakeInternalKey_wf.
  destruct (seek_run_suffix (MakeLookupKey target s) r) as (pre & E & Hpre).
  rewrite E in Hs, Hik. apply Forall_app in Hik as [_ Hik]. apply run_sorted_app in Hs as (_ & Hs & _).
  split.
  - intros He. split; [rewrite E; apply elem_of_app; by right|].
    destruct (seek_run (MakeLookupKey target s) r) as [|h t] eqn:Et; [by apply elem_of_nil in He|].
    pose proof (seek_run_head _ _ _ _ Et) as Hh. apply elem_of_cons in He as [->|He]; [done|].
    apply StronglySorted_inv in Hs as [_ Hf]. rewrite Forall_forall in Hf. specialize (Hf e He).
    apply Forall_cons in Hik as [Hhw Hik]. rewrite Forall_forall in Hik. specialize (Hik e He).
    intros C. apply Hh. by apply (ord_lt_trans ikey_wf h.1 e.1).
  - intros [He Hn]. rewrite E in He. apply elem_of_app in He as [He|He]; [|done]. by apply Hpre in He.
Qed.

Lemma elem_of_seek_runs target s runs e : Forall run_wf runs -> seq56 s ->
  e ∈ concat (map (seek_run (MakeLookupKey target s)) runs) <->
    e ∈ concat runs /\ CompareInternalKey e.1 (MakeLookupKey target s) <> Lt.
Proof.
  intros Hwf Hs. rewrite !elem_of_concat. rewrite Forall_forall in Hwf. split.
  - intros (l & (r & -> & Hr)%list_elem_of_fmap & He). apply elem_of_seek_run in He as [He Hn]; [|auto|done]. eauto.
  - intros ((r & Hr & He) & Hn). exists (seek_run (MakeLookupKey target s) r).
    split; [by apply list_elem_of_fmap_2|]. apply elem_of_seek_run; auto.
Qed.

Lemma lookup_seek u target s runs : Forall run_wf runs -> NoDup (map fst (concat runs)) -> seq56 s ->
  lookup_run u s (concat (map (seek_run (MakeLookupKey target s)) runs)) =
    if decide (lex target u = Gt) then None else lookup_run u s (concat runs).
Proof.
  intros Hwf Hnd Hs. pose proof (concat_wf _ Hwf) as Hall. pose proof (run_wf_ikeys _ Hall) as Hik.
  rewrite Forall_forall in Hall. unfold lookup_run. destruct (decide (lex target u = Gt)) as [Hgt|Hle].
  - assert (newest u s (concat (map (seek_run (MakeLookupKey target s)) runs)) = None) as ->; [|done].
    apply newest_None. intros e He [Eu _]. apply elem_of_seek_runs in He as [He Hn]; [|done..]. apply Hn.
    apply CompareInternalKey_lookup; [by destruct (Hall e He)|done|]. left. by rewrite Eu, lex_antisym, Hgt.
  - f_equal. symmetry. apply newest_visible; [done|by apply keys_nodup_unique|].
    intros e Hv. rewrite elem_of_seek_runs by done. split; [|tauto]. intros He. split; [done|]. intros C.
    apply CompareInternalKey_lookup in C; [..|done]; [|by destruct (Hall e He)].
    pose proof Hv as [Eu _]. rewrite Eu in C. destruct C as [C|[Et C]].
    + rewrite lex_antisym, C in Hle. done.
    + apply (visible_not_before u s e); [by apply Hall|done|done|]. rewrite Et.
      apply CompareInternalKey_lookup; [by destruct (Hall e He)|done|]. right. by rewrite Eu.
Qed.

(** Strictly sorted lists with the same elements are equal. *)
Lemma key_sorted_ext l1 l2 : StronglySorted key_lt l1 -> StronglySorted key_lt l2 ->
  (forall p, p ∈ l1 <-> p ∈ l2) -> l1 = l2.
Proof.
  assert (Hirr : forall (p q : bytes * bytes), key_lt p q -> key_lt q p -> False).
  { intros p q H1 H2. unfold key_lt in *. rewrite lex_antisym, H1 in H2. done. }
  intros H1. revert l2. induction H1 as [|a l1 H1 IH Hf]; intros l2 H2 Heq.
  { destruct l2 as [|b l2]; [done|]. specialize (Heq b). rewrite elem_of_nil, elem_of_cons in Heq. tauto. }
  destruct H2 as [|b l2 H2 Hf2]; [specialize (Heq a); rewrite elem_of_nil, elem_of_cons in Heq; tauto|].
  rewrite Forall_forall in Hf, Hf2.
  assert (a = b) as ->.
  { pose proof (proj1 (Heq a) ltac:(apply elem_of_cons; by left)) as Ha.
    pose proof (proj2 (Heq b) ltac:(apply elem_of_cons; by left)) as Hb.
    apply elem_of_cons in Ha as [->|Ha], Hb as [Hb|Hb]; try done. exfalso. by apply (Hirr a b); [apply Hf|apply Hf2]. }
  f_equal. apply IH; [done|]. intros p. specialize (Heq p). rewrite !elem_of_cons in Heq. split; intros Hp.
  - destruct (proj1 Heq (or_intror Hp)) as [->|?]; [|done]. exfalso. by apply (Hirr b b); apply Hf.
  - destruct (proj2 Heq (or_intror Hp)) as [->|?]; [|done]. exfalso. by apply (Hirr b b); apply Hf2.
Qed.

Lemma StronglySorted_filter {A} (R : A -> A -> Prop) (P : A -> Prop) `{!forall x, Decision (P x)} (l : list A) :
  StronglySorted R l -> StronglySorted R (filter P l).
Proof.
  induction 1 as [|x l Hs IH Hf]; [constructor|]. rewrite filter_cons. destruct (decide (P x)); [|done].
  constructor; [done|]. rewrite Forall_forall in *. intros y Hy. apply list_elem_of_filter in Hy as [_ Hy]. auto.
Qed.

(** From the children of a healthy iterator: the whole scan, and the scan from a key. *)
Lemma scan_shows (it : DBIterator Child) (s : Z) (runs : list (list ikv)) (m : gmap bytes bytes) (target : bytes) :
  snapshot_ it = s -> dbi_status it = OK -> Forall2 ii_ready runs (children_ (merge_ it)) ->
  NoDup (map fst (concat runs)) -> seq56 s -> ukey_ok target ->
  (forall u, lookup_run u s (concat runs) ≫= id = m !! u) ->
  exists it1 it2 ps, DBIterator_SeekToFirst it = Ret it1 /\ DBIterator_Seek target it = Ret it2 /\
    shows runs s it1 ps /\ shows runs s it2 (filter (fun p => lex target p.1 <> Gt) ps) /\
    StronglySorted key_lt ps /\ forall u v, (u, v) ∈ ps <-> m !! u = Some v.
Proof.
  intros Hsn Hst Hr Hnd Hs Ht Hm.
  assert (Hwf : Forall run_wf runs).
  { clear -Hr. induction Hr as [|r c runs cs Hc Hr IH]; constructor; [|done]. by apply ii_run in Hc as [? _]. }
  pose proof (runs_wf_ok _ Hwf) as Hok.
  assert (Hmap : forall o (v : bytes) x, o ≫= id = x -> o = Some (Some v) <-> x = Some v).
  { intros [[v'|]|] v x <-; cbn; naive_solver. }
  (* the whole scan *)
  destruct (merge_SeekToFirst_spec runs (merge_ it) Hr) as (m1 & E1 & Hat1).
  pose proof (kmerge_seq_ok runs Hok Hnd) as Hsq1. set (es1 := kmerge (length (concat runs)) runs) in *.
  destruct (Advance_spec runs s it m1 es1 Hsn Hst Hat1 Hsq1) as (it1 & E1' & Hsh1).
  destruct (view_sorted s es1 Hsq1 None) as [Hsorted _]; [done|].
  assert (Hel : forall u v, (u, v) ∈ view s None es1 <-> m !! u = Some v).
  { intros u v. rewrite elem_of_view by done. unfold es1. rewrite lookup_kmerge by done. rewrite (Hmap _ v _ (Hm u)).
    split; [tauto|]. by split. }
  (* the scan from [target] *)
  set (lk := MakeLookupKey target s). set (rests := map (seek_run lk) runs).
  destruct (merge_Seek_spec runs (merge_ it) lk Hr) as (m2 & E2 & Hat2);
    [apply MakeInternalKey_wf|by apply lookup_key_len|]. fold rests in Hat2.
  assert (Hok2 : runs_ok rests).
  { destruct Hat2 as (rests' & Hat2 & _). apply Forall_map. eapply Forall_impl; [exact Hok|].
    intros r [Hw Hsr]. destruct (seek_run_tail lk r) as [pre E]. rewrite E in Hw, Hsr.
    apply Forall_app in Hw as [_ Hw]. split; [done|]. by eapply run_sorted_app. }
  assert (Hnd2 : NoDup (map fst (concat rests))).
  { assert (Hsub : concat rests `sublist_of` concat runs).
    { clear. unfold rests. induction runs as [|r runs IH]; [done|]. cbn. apply sublist_app; [|done].
      destruct (seek_run_tail lk r) as [pre E]. rewrite E at 2. by apply sublist_inserts_l. }
    eapply sublist_NoDup; [exact Hnd|]. clear -Hsub. induction Hsub; cbn; by constructor. }
  pose proof (kmerge_seq_ok rests Hok2 Hnd2) as Hsq2. set (es2 := kmerge (length (concat rests)) rests) in *.
  destruct (Advance_spec runs s it m2 es2 Hsn Hst Hat2 Hsq2) as (it2 & E2' & Hsh2).
  destruct (view_sorted s es2 Hsq2 None) as [Hsorted2 _]; [done|].
  assert (Heq : view s None es2 = filter (fun p => lex target p.1 <> Gt) (view s None es1)).
  { apply key_sorted_ext; [done|by apply StronglySorted_filter|]. intros [u v].
    rewrite list_elem_of_filter, Hel, elem_of_view by done. unfold es2. rewrite lookup_kmerge by done.
    unfold rests, lk. rewrite lookup_seek by done. rewrite <- (Hmap _ v _ (Hm u)). cbn [fst].
    destruct (decide (lex target u = Gt)) as [Eg|Eg]; [|naive_solver].
    split; [by intros [_ ?]|]. intros [? _]. congruence. }
  exists it1, it2, (view s None es1).
  unfold DBIterator_SeekToFirst, DBIterator_Seek. rewrite E1, Hsn. fold lk. rewrite E2. cbn [mbind Res_bind].
  rewrite <- Heq. done.
Qed.

Lemma scan_spec (it : DBIterator Child) (s : Z) (runs : list (list ikv)) (m : gmap bytes bytes) (target : bytes) :
  snapshot_ it = s -> dbi_status it = OK -> Forall2 ii_ready runs (children_ (merge_ it)) ->
  NoDup (map fst (concat runs)) -> seq56 s -> ukey_ok target ->
  (forall u, lookup_run u s (concat runs) ≫= id = m !! u) ->
  exists it1 it2 ps fuel, DBIterator_SeekToFirst it = Ret it1 /\ DBIterator_Seek target it = Ret it2 /\
    walk fuel it1 = Ret ps /\ walk fuel it2 = Ret (filter (fun p => lex target p.1 <> Gt) ps) /\
    StronglySorted key_lt ps /\ forall u v, (u, v) ∈ ps <-> m !! u = Some v.
Proof.
  intros Hsn Hst Hr Hnd Hs Ht Hm.
  destruct (scan_shows it s runs m target) as (it1 & it2 & ps & E1 & E2 & H1 & H2 & H3); try done.
  exists it1, it2, ps, (length ps + length (filter (fun p => lex target p.1 <> Gt) ps))%nat.
  split; [done|]. split; [done|]. split; [eapply walk_spec; [exact H1|lia]|].
  split; [eapply walk_spec; [exact H2|lia]|done].
Qed.

(** An iterator that could not open a table shows nothing and keeps the error. *)
Lemma broken_advance (it : DBIterator Child) m : ok (dbi_status it) = false ->
  exists it', AdvanceToNextVisibleKey it m = Ret it' /\ valid_ it' = false /\ DBIterator_status it' = dbi_status it.
Proof.
  intros Hst. unfold AdvanceToNextVisibleKey. cbn [advance dbi_status merge_]. rewrite Hst. cbn [negb].
  destruct (merge_Valid m); eexists; (split; [reflexivity|]); unfold DBIterator_status; cbn; by rewrite Hst.
Qed.

(** C19: a scan agrees with point reads.  After any history of operations (with
    any I/O faults), an iterator opened on the database and positioned by
    [SeekToFirst] or [Seek] walks, without getting stuck, exactly the live pairs
    of the map the history implements, each key once, in increasing key order;
    [Seek] starts at the first key not below its target.  If a table cannot be
    opened because of a fault, the iterator is invalid and reports the error. *)
Theorem db_iterator_scan (options : Options) (name : bytes) (w : World) (fs : list (option nat)) (ops : list Op)
    (target : bytes) :
  options_ok options -> 0 < write_buffer_size options -> create_if_missing options = true ->
  no_faults w -> PathExists name w = false ->
  Forall op_fits ops -> 2 * Z.of_nat (length ops) + 4 < 2 ^ 56 -> ops_cost ops + 40 < 2 ^ 32 -> ukey_ok target ->
  exists d m it it1 it2 d', DB_Open options name w = (Ret tt, d) /\
    map_run (fs <> []) ∅ ops (run_ops ops (inject fs d)).1 m /\
    DBImpl_NewIterator (mkReadOptions 0) (run_ops ops (inject fs d)).2 = (Ret it, d') /\
    DBIterator_SeekToFirst it = Ret it1 /\ DBIterator_Seek target it = Ret it2 /\
    ((exists ps fuel, walk fuel it1 = Ret ps /\ StronglySorted key_lt ps /\
        (forall u v, (u, v) ∈ ps <-> m !! u = Some v) /\
        walk fuel it2 = Ret (filter (fun p => lex target p.1 <> Gt) ps)) \/
     fs <> [] /\ valid_ it1 = false /\ valid_ it2 = false /\
       ok (DBIterator_status it1) = false /\ ok (DBIterator_status it2) = false).
Proof.
  intros Ho Hwbs Hc Hf Hex Hfits Hlen Hcost Ht.
  destruct (open_and_run options name w fs ops) as (d & E & m & Hrun & Hinv & Hh); try done.
  set (d1 := (run_ops ops (inject fs d)).2) in *.
  destruct Hinv as (rm & ri & rho & [Hco _ _ _ Hsq _]).
  set (s := read_snapshot (mkReadOptions 0) d1). assert (Hs : s = last_sequence_ (versions_ d1)) by done.
  destruct (NewIterator_inv d1 rm ri rho m s Hco eq_refl) as (it & w' & Eit & _ & Hsn & runs & Hrd & Hcase).
  destruct Hcase as [[Hst ->]|[Hst Hnf]].
  - pose proof (iter_runs_entries Hco) as Hp. destruct (core_entries_wf Hco) as [Hw Hnd].
    destruct (scan_spec it s _ m target Hsn Hst Hrd) as (it1 & it2 & ps & fuel & E1 & E2 & W1 & W2 & Hsorted & Hel).
    + by rewrite Hp.
    + pose proof (co_counters _ _ _ _ _ _ _ _ _ Hco). rewrite Hs. split; lia.
    + done.
    + intros u. rewrite Hs. apply (iter_runs_lookup u Hco).
    + exists d, m, it, it1, it2, (with_versions (versions_ d1) w' d1). do 5 (split; [done|]). left. by exists ps, fuel.
  - destruct (merge_SeekToFirst_spec runs (merge_ it) Hrd) as (m1 & E1 & _).
    destruct (merge_Seek_spec runs (merge_ it) (MakeLookupKey target s) Hrd) as (m2 & E2 & _);
      [apply MakeInternalKey_wf|by apply lookup_key_len|].
    destruct (broken_advance it m1 Hst) as (it1 & A1 & V1 & S1). destruct (broken_advance it m2 Hst) as (it2 & A2 & V2 & S2).
    exists d, m, it, it1, it2, (with_versions (versions_ d1) w' d1). split; [done|]. split; [done|]. split; [done|].
    unfold DBIterator_SeekToFirst, DBIterator_Seek. rewrite E1, Hsn, E2. cbn [mbind Res_bind].
    split; [done|]. split; [done|]. right. rewrite S1, S2. split; [|done]. apply Hh. intros (H' & _). by apply Hnf.
Qed.

Lemma db_iterator_scan_witness :
  let options := mkOptions true false 40 4096 16 2 2 in
  let o := mkWriteOptions false in
  let ops := [OpPut o (lit "b") (lit "2"); OpPut o (lit "a") (lit "1"); OpBackground; OpDelete o (lit "b");
              OpPut o (lit "c") (lit "3"); OpBackground; OpBackground] in
  exists d m it it1 it2 d', DB_Open options (lit "db") (mkWorld ∅ ∅ []) = (Ret tt, d) /\
    map_run (@nil (option nat) <> []) ∅ ops (run_ops ops (inject [] d)).1 m /\
    DBImpl_NewIterator (mkReadOptions 0) (run_ops ops (inject [] d)).2 = (Ret it, d') /\
    DBIterator_SeekToFirst it = Ret it1 /\ DBIterator_Seek (lit "b") it = Ret it2 /\
    exists ps fuel, walk fuel it1 = Ret ps /\ walk fuel it2 = Ret (filter (fun p => lex (lit "b") p.1 <> Gt) ps).
Proof.
  intros options o ops.
  destruct (db_iterator_scan options (lit "db") (mkWorld ∅ ∅ []) [] ops (lit "b"))
    as (d & m & it & it1 & it2 & d' & H1 & H2 & H3 & H4 & H5 & H6); try reflexivity.
  - vm_compute. discriminate.
  - repeat constructor.
  - exists d, m, it, it1, it2, d'. do 5 (split; [done|]).
    destruct H6 as [(ps & fuel & W1 & _ & _ & W2)|[Hbad _]]; [by exists ps, fuel|done].
Defined.
