(* ===== verification/Types.v ===== *)
(** Column types and cell values (include/reldb/types.h, src/reldb/types.cpp). *)
From S2P Require Import Prelude Env.

(** [enum class ColumnType : uint8_t].  A cast from a byte read off disk can
    produce a value that is none of the enumerators; it is kept as
    [kOtherType b] with that byte. *)
Inductive ColumnType : Set := kNull | kInt64 | kString | kBool | kOtherType (b : byte).

#[global] Instance ColumnType_eq_decision : EqDecision ColumnType.
Proof. solve_decision. Defined.

(** [static_cast<ColumnType>(static_cast<uint8_t>(b))] and back. *)
Definition ColumnType_of_byte (b : byte) : ColumnType :=
  match b with
  | Byte.x00 => kNull
  | Byte.x01 => kInt64
  | Byte.x02 => kString
  | Byte.x03 => kBool
  | b => kOtherType b
  end.
Definition byte_of_ColumnType (t : ColumnType) : byte :=
  match t with
  | kNull => Byte.x00
  | kInt64 => Byte.x01
  | kString => Byte.x02
  | kBool => Byte.x03
  | kOtherType b => b
  end.

Definition ColumnTypeName (t : ColumnType) : bytes :=
  match t with
  | kNull => lit "Null"
  | kInt64 => lit "Int64"
  | kString => lit "String"
  | kBool => lit "Bool"
  | kOtherType _ => lit "Unknown"
  end.

(** The tagged union of a cell: only the static factories build values, so the
    payload always belongs to the tag. *)
Inductive Value : Set :=
  | VNull
  | VInt64 (v : Z)
  | VString (v : bytes)
  | VBool (v : bool).

#[global] Instance Value_eq_decision : EqDecision Value.
Proof. solve_decision. Defined.

Definition value_type (v : Value) : ColumnType :=
  match v with VNull => kNull | VInt64 _ => kInt64 | VString _ => kString | VBool _ => kBool end.
Definition IsNull (v : Value) : bool := match v with VNull => true | _ => false end.

(** The accessors read the member of the union, whatever the tag says. *)
Definition GetInt64 (v : Value) : Z := match v with VInt64 z => z | _ => 0 end.
Definition GetString (v : Value) : bytes := match v with VString s => s | _ => [] end.
Definition GetBool (v : Value) : bool := match v with VBool b => b | _ => false end.

(** [operator==] *)
Definition Value_eqb (a b : Value) : bool :=
  bool_decide (value_type a = value_type b) &&
  match value_type a with
  | kNull => true
  | kInt64 => GetInt64 a =? GetInt64 b
  | kString => bool_decide (GetString a = GetString b)
  | kBool => Bool.eqb (GetBool a) (GetBool b)
  | kOtherType _ => false
  end.

(** [std::to_string(int64_t)] *)
Definition to_string_signed (v : Z) : bytes :=
  if v <? 0 then Byte.x2d :: to_string (- v) else to_string v.

Definition Value_ToString (v : Value) : bytes :=
  match v with
  | VNull => lit "NULL"
  | VInt64 z => to_string_signed z
  | VString s => s
  | VBool b => if b then lit "true" else lit "false"
  end.

(** * Lemmas *)

Lemma ColumnType_of_to b : byte_of_ColumnType (ColumnType_of_byte b) = b.
Proof. by destruct b. Qed.

(** The types a stored byte can stand for. *)
Definition type_canonical (t : ColumnType) : Prop := ColumnType_of_byte (byte_of_ColumnType t) = t.

Lemma value_type_canonical v : type_canonical (value_type v).
Proof. by destruct v. Qed.

(** The C++ equality is Leibniz equality. *)
Lemma Value_eqb_spec a b : Value_eqb a b = true <-> a = b.
Proof.
  unfold Value_eqb. destruct a, b; cbn; rewrite ?andb_true_iff, ?bool_decide_eq_true, ?Z.eqb_eq, ?eqb_true_iff;
    try naive_solver.
Qed.

(** The range of [int64_t]. *)
Definition int64 (z : Z) : Prop := - 2 ^ 63 <= z < 2 ^ 63.
(** A value that its encoding determines. *)
Definition value_ok (v : Value) : Prop :=
  match v with
  | VInt64 z => int64 z
  | VString s => Z.of_nat (length s) < 2 ^ 32
  | _ => True
  end.

#[global] Instance value_ok_dec v : Decision (value_ok v).
Proof. destruct v; unfold value_ok, int64; apply _. Defined.
