(* ===== verification/Schema.v ===== *)
(** Table schemas (include/reldb/schema.h, src/reldb/schema.cpp): validation,
    column lookup and the catalog encoding. *)
From S2P Require Import Prelude Status Slice Encoding Types.

Record ColumnDef := mkColumnDef { col_name : bytes; col_type : ColumnType; primary_key : bool }.
Record TableSchema := mkTableSchema { name_ : bytes; columns_ : list ColumnDef }.

#[global] Instance ColumnDef_eq_decision : EqDecision ColumnDef.
Proof. solve_decision. Defined.
#[global] Instance TableSchema_eq_decision : EqDecision TableSchema.
Proof. solve_decision. Defined.

Definition num_columns (s : TableSchema) : nat := length (columns_ s).

(** [int found = -1; for (i ...) if (columns_[i].primary_key) found = i;]  The
    debug assertion of a second hit is compiled out of release builds. *)
Fixpoint pk_loop (i found : Z) (cols : list ColumnDef) : Z :=
  match cols with
  | [] => found
  | c :: cols => pk_loop (i + 1) (if primary_key c then i else found) cols
  end.
Definition primary_key_index (s : TableSchema) : Z := pk_loop 0 (-1) (columns_ s).

Fixpoint find_column (cols : list ColumnDef) (name : bytes) : option ColumnDef :=
  match cols with
  | [] => None
  | c :: cols => if decide (col_name c = name) then Some c else find_column cols name
  end.
Definition FindColumn (s : TableSchema) (name : bytes) : option ColumnDef := find_column (columns_ s) name.

Fixpoint column_index_loop (i : Z) (cols : list ColumnDef) (name : bytes) : Z :=
  match cols with
  | [] => -1
  | c :: cols => if decide (col_name c = name) then i else column_index_loop (i + 1) cols name
  end.
Definition ColumnIndex (s : TableSchema) (name : bytes) : Z := column_index_loop 0 (columns_ s) name.

(** The column loop of [Validate]: [seen] are the columns [0 .. i-1]. *)
Fixpoint validate_columns (seen cols : list ColumnDef) (pk_count : Z) : Res Z :=
  match cols with
  | [] => Ret pk_count
  | c :: cols =>
    if bool_decide (col_name c = []) then Fail (InvalidArgument (lit "column name is empty"))
    else if existsb (fun d => bool_decide (col_name d = col_name c)) seen
    then Fail (InvalidArgument (lit "duplicate column: " ++ col_name c))
    else if bool_decide (col_type c = kNull)
    then Fail (InvalidArgument (lit "column type cannot be Null: " ++ col_name c))
    else validate_columns (seen ++ [c]) cols (if primary_key c then pk_count + 1 else pk_count)
  end.

Definition Schema_Validate (s : TableSchema) : Res unit :=
  if bool_decide (name_ s = []) then Fail (InvalidArgument (lit "table name is empty"))
  else if bool_decide (columns_ s = []) then Fail (InvalidArgument (lit "table has no columns"))
  else
    pk_count ← validate_columns [] (columns_ s) 0;
    if negb (pk_count =? 1) then Fail (InvalidArgument (lit "table must have exactly one primary key"))
    else Ret tt.

(** * Encoding *)

Definition kSchemaFormatVersion : Z := 1.

Definition put_column (out : bytes) (c : ColumnDef) : bytes :=
  PutLengthPrefixedSlice out (col_name c) ++
  [byte_of_ColumnType (col_type c); if primary_key c then Byte.x01 else Byte.x00; Byte.x00].

Definition Schema_Encode (s : TableSchema) : bytes :=
  let out := [zb kSchemaFormatVersion] in
  let out := PutLengthPrefixedSlice out (name_ s) in
  let out := PutVarint32 out (u32 (Z.of_nat (length (columns_ s)))) in
  foldl put_column out (columns_ s).

(** One round of the column loop. *)
Definition get_column (input : bytes) : Res (ColumnDef * bytes) :=
  '(cname, input) ← res_of_option (Corruption (lit "schema: bad column name")) (GetLengthPrefixedSlice input);
  match input with
  | ty :: pk :: flags :: input =>
    if negb (bz flags =? 0) then Fail (Corruption (lit "schema: unknown column flags"))
    else Ret (mkColumnDef cname (ColumnType_of_byte ty) (negb (bz pk =? 0)), input)
  | _ => Fail (Corruption (lit "schema: truncated column meta"))
  end.

Fixpoint get_columns (n : nat) (input : bytes) : Res (list ColumnDef * bytes) :=
  match n with
  | O => Ret ([], input)
  | S n =>
    '(c, input) ← get_column input;
    '(cs, input) ← get_columns n input;
    Ret (c :: cs, input)
  end.

Definition Schema_Decode (bytes : bytes) : Res TableSchema :=
  match bytes with
  | [] => Fail (Corruption (lit "schema: empty"))
  | v :: input =>
    if negb (bz v =? kSchemaFormatVersion)
    then Fail (Corruption (lit "schema: unsupported format version"))
    else
      '(name, input) ← res_of_option (Corruption (lit "schema: bad name")) (GetLengthPrefixedSlice input);
      '(n, input) ← res_of_option (Corruption (lit "schema: bad column count")) (GetVarint32 input);
      '(cols, input) ← get_columns (Z.to_nat n) input;
      if bool_decide (input = []) then Ret (mkTableSchema name cols)
      else Fail (Corruption (lit "schema: trailing bytes"))
  end.

(** * Well-formed schemas *)

Definition is_pk (c : ColumnDef) : Prop := primary_key c = true.
#[global] Instance is_pk_dec c : Decision (is_pk c).
Proof. unfold is_pk. apply _. Defined.

(** What a table definition has to be. *)
Record schema_wf (s : TableSchema) : Prop := {
  sw_name : name_ s <> [];
  sw_names : Forall (fun c => col_name c <> []) (columns_ s);
  sw_types : Forall (fun c => col_type c <> kNull) (columns_ s);
  sw_unique : NoDup (map col_name (columns_ s));
  sw_pk : exists pre c post, columns_ s = pre ++ c :: post /\ is_pk c /\
    Forall (fun c => ~ is_pk c) pre /\ Forall (fun c => ~ is_pk c) post
}.

(** The strings and counts fit the length fields, the types fit a byte. *)
Record schema_fits (s : TableSchema) : Prop := {
  sf_name : len32 (name_ s);
  sf_columns : Forall (fun c => len32 (col_name c) /\ type_canonical (col_type c)) (columns_ s);
  sf_count : Z.of_nat (length (columns_ s)) < 2 ^ 32
}.

Definition pk_count (cols : list ColumnDef) : Z := Z.of_nat (length (filter is_pk cols)).

Lemma existsb_name_spec c seen :
  existsb (fun d => bool_decide (col_name d = col_name c)) seen = true <-> col_name c ∈ map col_name seen.
Proof.
  rewrite existsb_exists, list_elem_of_fmap. split.
  - intros (d & Hd & E%bool_decide_eq_true). exists d. split; [done|]. by apply list_elem_of_In.
  - intros (d & E & Hd). exists d. split; [by apply list_elem_of_In|]. by apply bool_decide_eq_true.
Qed.

Lemma validate_columns_spec cols : forall seen n k, NoDup (map col_name seen) ->
  validate_columns seen cols n = Ret k <->
    Forall (fun c => col_name c <> []) cols /\ Forall (fun c => col_type c <> kNull) cols /\
    NoDup (map col_name (seen ++ cols)) /\ k = n + pk_count cols.
Proof.
  induction cols as [|c cols IH]; intros seen n k Hseen; cbn [validate_columns].
  { rewrite app_nil_r. unfold pk_count. cbn. split; [intros [= <-]|intros (_ & _ & _ & ->)]; [|f_equal; lia].
    repeat split; try done; [constructor..|lia]. }
  rewrite !Forall_cons. destruct (bool_decide_reflect (col_name c = [])) as [?|Hn]; [by split; [|tauto]|].
  destruct (existsb _ seen) eqn:E.
  { apply existsb_name_spec in E. split; [done|]. intros (_ & _ & Hnd & _). rewrite map_app in Hnd.
    apply NoDup_app in Hnd as (_ & Hnd & _). by destruct (Hnd _ E); left. }
  destruct (bool_decide_reflect (col_type c = kNull)) as [?|Ht]; [by split; [|tauto]|].
  assert (Hnin : col_name c ∉ map col_name seen) by (rewrite <- existsb_name_spec, E; done).
  assert (Hseen' : NoDup (map col_name (seen ++ [c]))).
  { rewrite map_app. apply NoDup_app. split; [done|]. split; [|apply NoDup_singleton].
    intros x Hx ->%list_elem_of_singleton. done. }
  rewrite IH, <- app_assoc by done. cbn [app]. unfold pk_count. rewrite filter_cons.
  destruct (decide (is_pk c)) as [Hp|Hp]; [rewrite Hp|destruct (primary_key c) eqn:Ep; [done|]];
    cbn [length]; naive_solver lia.
Qed.

(** Validation only ever reports [InvalidArgument]. *)
Lemma validate_columns_code cols : forall seen n, only_fails kInvalidArgument (validate_columns seen cols n).
Proof. induction cols as [|c cols IH]; intros seen n; cbn [validate_columns]; [done|]. repeat case_match; done || apply IH. Qed.
Lemma Validate_code s : only_fails kInvalidArgument (Schema_Validate s).
Proof.
  unfold Schema_Validate. repeat case_match; try done.
  apply only_fails_bind; [apply validate_columns_code|]. intros k _. by case_match.
Qed.

Lemma pk_count_one cols : pk_count cols = 1 <->
  exists pre c post, cols = pre ++ c :: post /\ is_pk c /\
    Forall (fun c => ~ is_pk c) pre /\ Forall (fun c => ~ is_pk c) post.
Proof.
  assert (H0 : forall l, pk_count l = 0 <-> Forall (fun c => ~ is_pk c) l).
  { intros l. unfold pk_count. induction l as [|c l IH]; [done|]. rewrite filter_cons, Forall_cons.
    destruct (decide (is_pk c)); cbn [length]; naive_solver lia. }
  split.
  - induction cols as [|c cols IH]; [done|]. unfold pk_count in *. rewrite filter_cons.
    destruct (decide (is_pk c)) as [Hp|Hp]; cbn [length]; intros H.
    + exists [], c, cols. rewrite <- (H0 cols). split; [done|]. split; [done|]. split; [constructor|]. unfold pk_count. lia.
    + destruct IH as (pre & c' & post & -> & ? & ? & ?); [lia|]. exists (c :: pre), c', post.
      split; [done|]. split; [done|]. by split; [constructor|].
  - intros (pre & c & post & -> & Hp & Hpre & Hpost). apply H0 in Hpre, Hpost. unfold pk_count in *.
    rewrite filter_app, filter_cons, decide_True, length_app by done. cbn [length]. lia.
Qed.

(** [Validate] accepts exactly the well-formed schemas. *)
Lemma Validate_spec s : Schema_Validate s = Ret tt <-> schema_wf s.
Proof.
  unfold Schema_Validate. destruct (bool_decide_reflect (name_ s = [])) as [?|Hn].
  { by split; [|intros []]. }
  destruct (bool_decide_reflect (columns_ s = [])) as [E|Hc].
  { split; [done|]. intros [_ _ _ _ (pre & c & post & E' & _)]. rewrite E in E'. by destruct pre. }
  destruct (validate_columns [] (columns_ s) 0) as [k|e|] eqn:E; cbn [mbind Res_bind].
  - apply validate_columns_spec in E as (H1 & H2 & H3 & ->); [|constructor].
    rewrite Z.add_0_l. destruct (Z.eqb_spec (pk_count (columns_ s)) 1) as [E1|E1]; cbn [negb]; split; try done.
    + intros _. split; try done. by apply pk_count_one.
    + intros [_ _ _ _ Hpk]. by apply pk_count_one in Hpk.
  - split; [done|]. intros [_ H1 H2 H3 Hpk].
    pose proof (proj2 (validate_columns_spec (columns_ s) [] 0 (pk_count (columns_ s)) (NoDup_nil_2))
      (conj H1 (conj H2 (conj H3 eq_refl)))) as E'. congruence.
  - split; [done|]. intros [_ H1 H2 H3 Hpk].
    pose proof (proj2 (validate_columns_spec (columns_ s) [] 0 (pk_count (columns_ s)) (NoDup_nil_2))
      (conj H1 (conj H2 (conj H3 eq_refl)))) as E'. congruence.
Qed.

(** * Column lookup *)

Lemma pk_loop_none cols i found : Forall (fun c => ~ is_pk c) cols -> pk_loop i found cols = found.
Proof.
  revert i; induction cols as [|c cols IH]; intros i; [done|]. intros [Hc Hf]%Forall_cons. cbn [pk_loop].
  unfold is_pk in Hc. destruct (primary_key c); [done|]. by apply IH.
Qed.

Lemma pk_loop_app pre cols i found :
  pk_loop i found (pre ++ cols) = pk_loop (i + Z.of_nat (length pre)) (pk_loop i found pre) cols.
Proof.
  revert i found; induction pre as [|c pre IH]; intros i found; cbn [app pk_loop length]; [by rewrite Z.add_0_r|].
  rewrite IH. f_equal. lia.
Qed.

(** The index of the only primary-key column. *)
Lemma primary_key_index_spec s pre c post : columns_ s = pre ++ c :: post -> is_pk c ->
  Forall (fun c => ~ is_pk c) pre -> Forall (fun c => ~ is_pk c) post ->
  primary_key_index s = Z.of_nat (length pre).
Proof.
  intros E Hc Hpre Hpost. unfold primary_key_index. rewrite E, pk_loop_app. cbn [pk_loop].
  unfold is_pk in Hc. by rewrite Hc, pk_loop_none, Z.add_0_l.
Qed.

Lemma column_index_loop_spec name cols : forall i, 0 <= i ->
  let k := column_index_loop i cols name in
  (k = -1 /\ find_column cols name = None /\ name ∉ map col_name cols) \/
  exists pre c post, cols = pre ++ c :: post /\ col_name c = name /\ name ∉ map col_name pre /\
    find_column cols name = Some c /\ k = i + Z.of_nat (length pre).
Proof.
  induction cols as [|c cols IH]; intros i Hi k; subst k; cbn [column_index_loop find_column map].
  { left. split; [done|]. split; [done|]. apply not_elem_of_nil. }
  destruct (decide (col_name c = name)) as [E|E].
  { right. exists [], c, cols. split; [done|]. split; [done|]. split; [apply not_elem_of_nil|]. split; [done|]. cbn. lia. }
  destruct (IH (i + 1) ltac:(lia)) as [(H1 & H2 & H3)|(pre & c' & post & -> & H1 & H2 & H3 & H4)].
  - left. split; [done|]. split; [done|]. by apply not_elem_of_cons.
  - right. exists (c :: pre), c', post. split; [done|]. split; [done|]. split; [by apply not_elem_of_cons|].
    split; [done|]. rewrite H4. cbn [length]. lia.
Qed.

(** * Round trip *)

Lemma put_column_app out c : put_column out c = out ++ put_column [] c.
Proof. unfold put_column. by rewrite PutLengthPrefixedSlice_app, <- app_assoc. Qed.

Lemma put_columns_concat cols out : foldl put_column out cols = out ++ concat (map (put_column []) cols).
Proof.
  revert out; induction cols as [|c cols IH]; intros out; cbn [foldl map concat]; [by rewrite app_nil_r|].
  by rewrite IH, put_column_app, <- app_assoc.
Qed.

Lemma get_put_column c rest : len32 (col_name c) -> type_canonical (col_type c) ->
  get_column (put_column [] c ++ rest) = Ret (c, rest).
Proof.
  intros Hn Ht. unfold get_column, put_column. rewrite <- app_assoc, codec_get_put by done.
  cbn [res_of_option mbind Res_bind app]. change (bz Byte.x00 =? 0) with true. cbn [negb]. rewrite Ht.
  by destruct c as [n t []].
Qed.

Lemma get_put_columns cols rest : Forall (fun c => len32 (col_name c) /\ type_canonical (col_type c)) cols ->
  get_columns (length cols) (concat (map (put_column []) cols) ++ rest) = Ret (cols, rest).
Proof.
  induction 1 as [|c cols [H1 H2] _ IH]; [done|]. cbn [map concat length get_columns].
  by rewrite <- app_assoc, get_put_column, (assoc_L (++)) || (rewrite <- app_assoc, get_put_column by done;
    cbn [mbind Res_bind]; rewrite IH; done).
Qed.

Lemma Schema_Decode_Encode s : schema_fits s -> Schema_Decode (Schema_Encode s) = Ret s.
Proof.
  intros [Hn Hc Hk]. unfold Schema_Decode, Schema_Encode. rewrite put_columns_concat, PutVarint32_app,
    PutLengthPrefixedSlice_app. cbn [app]. change (bz (zb kSchemaFormatVersion) =? kSchemaFormatVersion) with true.
  cbn [negb]. rewrite <- !app_assoc, codec_get_put by done. cbn [res_of_option mbind Res_bind].
  unfold u32. rewrite Z.mod_small by lia. rewrite codec_get_put by (unfold fits32; lia).
  cbn [res_of_option mbind Res_bind]. rewrite Nat2Z.id.
  rewrite <- (app_nil_r (concat _)), get_put_columns by done. cbn [mbind Res_bind]. by destruct s.
Qed.

(** * Properties *)

(** [Validate] returns OK exactly for a well-formed schema (nonempty name,
    nonempty distinct column names, no Null type, exactly one primary key), and
    otherwise InvalidArgument; for an accepted schema [primary_key_index] is the
    position of that one key column, and [ColumnIndex]/[FindColumn] find exactly
    the named columns. *)
Theorem schema_validate (s : TableSchema) (name : bytes) :
  (Schema_Validate s = Ret tt <-> schema_wf s) /\
  (Schema_Validate s <> Ret tt -> exists m, Schema_Validate s = Fail (InvalidArgument m)) /\
  (schema_wf s -> exists pre c post, columns_ s = pre ++ c :: post /\ primary_key c = true /\
     primary_key_index s = Z.of_nat (length pre) /\
     Forall (fun c => primary_key c = false) (pre ++ post)) /\
  (ColumnIndex s name = -1 /\ FindColumn s name = None /\ name ∉ map col_name (columns_ s) \/
   exists c, 0 <= ColumnIndex s name /\ columns_ s !! Z.to_nat (ColumnIndex s name) = Some c /\
     FindColumn s name = Some c /\ col_name c = name).
Proof.
  split; [apply Validate_spec|]. split; [|split].
  - unfold Schema_Validate. repeat (case_bool_decide; [by eauto|]).
    assert (Hv : forall cols seen n, (exists k, validate_columns seen cols n = Ret k) \/
      exists m, validate_columns seen cols n = Fail (InvalidArgument m)).
    { induction cols as [|c cols IH]; intros seen n; cbn [validate_columns]; [by eauto|].
      case_bool_decide; [by eauto|]. destruct (existsb _ _); [by eauto|]. case_bool_decide; by eauto. }
    destruct (Hv (columns_ s) [] 0) as [[k ->]|[m ->]]; cbn [mbind Res_bind]; [|by eauto].
    destruct (negb _); [by eauto|done].
  - intros [_ _ _ _ (pre & c & post & E & Hc & Hpre & Hpost)]. exists pre, c, post.
    split; [done|]. split; [done|]. split; [by eapply primary_key_index_spec|].
    apply Forall_app. split; eapply Forall_impl; try eassumption; intros x; unfold is_pk; by destruct (primary_key x).
  - unfold ColumnIndex, FindColumn.
    destruct (column_index_loop_spec name (columns_ s) 0 ltac:(lia)) as [?|(pre & c & post & E & H1 & H2 & H3 & H4)]; [by left|].
    right. exists c. rewrite H4. split; [lia|]. split; [|done]. rewrite E, Z.add_0_l, Nat2Z.id. by apply list_lookup_middle.
Qed.

Definition sample_schema : TableSchema :=
  mkTableSchema (lit "users") [mkColumnDef (lit "name") kString false; mkColumnDef (lit "id") kInt64 true].

Lemma schema_validate_witness : Schema_Validate sample_schema = Ret tt /\ primary_key_index sample_schema = 1.
Proof.
  destruct (schema_validate sample_schema (lit "id")) as ([H1 _] & _ & H2 & _).
  assert (Hv : Schema_Validate sample_schema = Ret tt) by reflexivity. split; [exact Hv|].
  destruct (H2 (H1 Hv)) as (pre & c & post & E & Hc & Hi & _). rewrite Hi.
  destruct pre as [|a [|b [|d pre]]]; cbn in E; injection E; intros; subst; try discriminate; reflexivity.
Defined.

(** A schema written to the catalog is read back as it was. *)
Theorem schema_roundtrip (s : TableSchema) : schema_fits s -> Schema_Decode (Schema_Encode s) = Ret s.
Proof. apply Schema_Decode_Encode. Qed.

Lemma schema_roundtrip_witness : Schema_Decode (Schema_Encode sample_schema) = Ret sample_schema.
Proof. apply (schema_roundtrip sample_schema). split; [reflexivity| |reflexivity]. repeat constructor. Defined.
