(* ===== verification/Row.v ===== *)
(** Rows (include/reldb/row.h, src/reldb/row.cpp): the cell and row encodings,
    validation against a schema and the primary key. *)
From S2P Require Import Prelude Status Slice Encoding Types Schema.

(** A row is its vector of cells. *)
Abbreviation Row := (list Value).

(** [values_.at(i)] throws [std::out_of_range] outside the row. *)
Definition row_at (r : Row) (i : nat) : Res Value := deref (r !! i).

(** [static_cast<int64_t>] of a 64-bit word. *)
Definition s64 (v : Z) : Z := if v <? 2 ^ 63 then v else v - 2 ^ 64.

Definition AppendFixed64Bits (dst : bytes) (v : Z) : bytes := PutFixed64 dst (u64 v).
Definition ConsumeFixed64Bits (input : bytes) : option (Z * bytes) :=
  match GetFixed64 input with
  | Some (bits, input) => Some (s64 bits, input)
  | None => None
  end.

Definition AppendValue (dst : bytes) (v : Value) : bytes :=
  let dst := dst ++ [byte_of_ColumnType (value_type v)] in
  match v with
  | VNull => dst
  | VInt64 z => AppendFixed64Bits dst z
  | VString s => PutLengthPrefixedSlice dst s
  | VBool b => dst ++ [if b then Byte.x01 else Byte.x00]
  end.

Definition ConsumeValue (input : bytes) : option (Value * bytes) :=
  match input with
  | [] => None
  | t :: input =>
    match ColumnType_of_byte t with
    | kNull => Some (VNull, input)
    | kInt64 =>
      match ConsumeFixed64Bits input with
      | Some (v, input) => Some (VInt64 v, input)
      | None => None
      end
    | kString =>
      match GetLengthPrefixedSlice input with
      | Some (s, input) => Some (VString s, input)
      | None => None
      end
    | kBool =>
      match input with
      | [] => None
      | b :: input => Some (VBool (negb (bz b =? 0)), input)
      end
    | kOtherType _ => None
    end
  end.

Definition EncodeValue (v : Value) : bytes := AppendValue [] v.

Definition DecodeValue (bytes : bytes) : Res Value :=
  '(v, input) ← res_of_option (Corruption (lit "bad value encoding")) (ConsumeValue bytes);
  if bool_decide (input = []) then Ret v else Fail (Corruption (lit "value: trailing bytes")).

Definition Row_Encode (r : Row) : bytes :=
  foldl AppendValue (PutVarint32 [] (u32 (Z.of_nat (length r)))) r.

Definition Row_Decode (bytes : bytes) : Res Row :=
  '(n, input) ← res_of_option (Corruption (lit "row: bad count")) (GetVarint32 bytes);
  '(vals, input) ← res_of_option (Corruption (lit "row: bad cell")) (get_n ConsumeValue (Z.to_nat n) input);
  if bool_decide (input = []) then Ret vals else Fail (Corruption (lit "row: trailing bytes")).

(** The cell loop of [ValidateAgainst]; both vectors have the same length. *)
Fixpoint validate_cells (cols : list ColumnDef) (cells : Row) : Res unit :=
  match cols, cells with
  | col :: cols, cell :: cells =>
    if IsNull cell then Fail (InvalidArgument (lit "null not allowed in column: " ++ col_name col))
    else if bool_decide (value_type cell = col_type col) then validate_cells cols cells
    else Fail (InvalidArgument (lit "type mismatch for column " ++ col_name col ++ lit ": expected " ++
           ColumnTypeName (col_type col) ++ lit ", got " ++ ColumnTypeName (value_type cell)))
  | _, _ => Ret tt
  end.

Definition ValidateAgainst (r : Row) (schema : TableSchema) : Res unit :=
  Schema_Validate schema ;;
  if negb (length r =? num_columns schema)%nat
  then Fail (InvalidArgument (lit "row column count mismatch"))
  else validate_cells (columns_ schema) r.

Definition PrimaryKey (r : Row) (schema : TableSchema) : Res Value :=
  ValidateAgainst r schema ;;
  let pk := primary_key_index schema in
  if pk <? 0 then Fail (InvalidArgument (lit "no primary key"))
  else deref (r !! Z.to_nat pk).

(** * Encodings *)

Lemma s64_u64 z : int64 z -> s64 (u64 z) = z.
Proof.
  unfold int64, s64, u64. intros H. destruct (Z.lt_ge_cases z 0).
  - rewrite <- (Z.mod_add z 1 (2 ^ 64)), Z.mod_small by lia. destruct (Z.ltb_spec (z + 1 * 2 ^ 64) (2 ^ 63)); lia.
  - rewrite Z.mod_small by lia. destruct (Z.ltb_spec z (2 ^ 63)); lia.
Qed.

Lemma AppendValue_app dst v : AppendValue dst v = dst ++ EncodeValue v.
Proof.
  unfold EncodeValue, AppendValue. destruct v; cbn [value_type byte_of_ColumnType app]; try done.
  - unfold AppendFixed64Bits, PutFixed64. by rewrite <- app_assoc.
  - rewrite PutLengthPrefixedSlice_app, (PutLengthPrefixedSlice_app [_]). by rewrite <- app_assoc.
  - by rewrite <- app_assoc.
Qed.

#[global] Instance Value_codec : Codec value_ok EncodeValue ConsumeValue.
Proof.
  intros v rest H. unfold EncodeValue, AppendValue, ConsumeValue.
  destruct v as [|z|s|b]; cbn [value_type byte_of_ColumnType app ColumnType_of_byte].
  - done.
  - unfold AppendFixed64Bits, ConsumeFixed64Bits, PutFixed64. cbn [app].
    rewrite GetFixed64_put by (apply Z.mod_pos_bound; lia). by rewrite s64_u64.
  - rewrite PutLengthPrefixedSlice_app. cbn [app]. by rewrite codec_get_put.
  - by destruct b.
Qed.

Lemma AppendValues_concat r dst : foldl AppendValue dst r = dst ++ concat (map EncodeValue r).
Proof.
  revert dst; induction r as [|v r IH]; intros dst; cbn [foldl map concat]; [by rewrite app_nil_r|].
  by rewrite IH, AppendValue_app, <- app_assoc.
Qed.

Lemma DecodeValue_Encode v : value_ok v -> DecodeValue (EncodeValue v) = Ret v.
Proof. intros H. unfold DecodeValue. by rewrite <- (app_nil_r (EncodeValue v)), codec_get_put. Qed.

(** A row whose cells and width fit their length fields. *)
Definition row_ok (r : Row) : Prop := Forall value_ok r /\ Z.of_nat (length r) < 2 ^ 32.

Lemma Row_Decode_Encode r : row_ok r -> Row_Decode (Row_Encode r) = Ret r.
Proof.
  intros [Hv Hl]. unfold Row_Decode, Row_Encode. rewrite AppendValues_concat. unfold u32.
  rewrite Z.mod_small, codec_get_put by (try unfold fits32; lia). cbn [res_of_option mbind Res_bind].
  rewrite Nat2Z.id. pose proof (get_n_codec value_ok EncodeValue ConsumeValue (length r) r [] (conj eq_refl Hv)) as E.
  cbn beta in E. rewrite app_nil_r in E. by rewrite E.
Qed.

(** * Validation *)

(** Every cell has its column's type, and none is null. *)
Definition row_typed (r : Row) (s : TableSchema) : Prop :=
  Forall2 (fun c v => v <> VNull /\ value_type v = col_type c) (columns_ s) r.

Lemma validate_cells_spec cols cells : length cells = length cols ->
  validate_cells cols cells = Ret tt <->
    Forall2 (fun c v => v <> VNull /\ value_type v = col_type c) cols cells.
Proof.
  revert cells; induction cols as [|c cols IH]; intros [|v cells] Hl; try done.
  cbn [validate_cells length] in *. rewrite Forall2_cons.
  destruct v; cbn [IsNull value_type]; [naive_solver| | |];
    (case_bool_decide as E; [rewrite IH by lia; naive_solver|naive_solver]).
Qed.

Lemma ValidateAgainst_spec r s : ValidateAgainst r s = Ret tt <-> schema_wf s /\ row_typed r s.
Proof.
  unfold ValidateAgainst, num_columns, row_typed. rewrite <- Validate_spec.
  destruct (Schema_Validate s) as [[]|e|]; cbn [mbind Res_bind]; [|naive_solver..].
  destruct (Nat.eqb_spec (length r) (length (columns_ s))) as [E|E]; cbn [negb].
  - rewrite validate_cells_spec by done. naive_solver.
  - split; [done|]. intros [_ H%Forall2_length]. congruence.
Qed.

Lemma PrimaryKey_spec r s v : PrimaryKey r s = Ret v <->
  schema_wf s /\ row_typed r s /\ r !! Z.to_nat (primary_key_index s) = Some v.
Proof.
  unfold PrimaryKey. destruct (ValidateAgainst r s) as [[]|e|] eqn:E; cbn [mbind Res_bind].
  2-3: split; [done|]; intros (Hw & Ht & _);
    pose proof (proj2 (ValidateAgainst_spec r s) (conj Hw Ht)); congruence.
  apply ValidateAgainst_spec in E as [Hw Ht].
  destruct (sw_pk _ Hw) as (pre & c & post & Ec & Hc & Hpre & Hpost).
  rewrite (primary_key_index_spec s pre c post) by done.
  destruct (Z.ltb_spec (Z.of_nat (length pre)) 0); [lia|]. rewrite Nat2Z.id.
  destruct (r !! length pre) as [v'|] eqn:El; cbn [deref]; naive_solver.
Qed.

(** The key cell exists in a typed row and is not null. *)
Lemma row_typed_pk r s : schema_wf s -> row_typed r s ->
  exists v, PrimaryKey r s = Ret v /\ v <> VNull /\ v ∈ r.
Proof.
  intros Hw Ht. destruct (sw_pk _ Hw) as (pre & c & post & Ec & Hc & Hpre & Hpost).
  pose proof Ht as Ht'. unfold row_typed in Ht. rewrite Ec in Ht.
  apply Forall2_app_inv_l in Ht as (r1 & r2 & H1 & H2 & ->).
  apply Forall2_cons_inv_l in H2 as (v & r3 & [Hn _] & _ & ->).
  exists v. split; [|split; [done|]].
  - apply PrimaryKey_spec. split; [done|]. split; [done|].
    rewrite (primary_key_index_spec s pre c post), Nat2Z.id by done.
    apply list_lookup_middle. by eapply Forall2_length.
  - rewrite elem_of_app, elem_of_cons. auto.
Qed.

(** Validation only ever reports [InvalidArgument]. *)
Lemma validate_cells_code cols : forall cells, only_fails kInvalidArgument (validate_cells cols cells).
Proof. induction cols as [|c cols IH]; intros [|v cells]; cbn [validate_cells]; try done. repeat case_match; done || apply IH. Qed.
Lemma ValidateAgainst_code r s : only_fails kInvalidArgument (ValidateAgainst r s).
Proof.
  apply only_fails_bind; [apply Validate_code|]. intros _ _. case_match; [done|]. apply validate_cells_code.
Qed.

(** A row is refused by its validation, or has a key. *)
Lemma PrimaryKey_cases r s :
  (exists pk, PrimaryKey r s = Ret pk /\ ValidateAgainst r s = Ret tt /\ pk ∈ r) \/
  (exists e, ValidateAgainst r s = Fail e /\ code_ e = kInvalidArgument /\ PrimaryKey r s = Fail e).
Proof.
  pose proof (ValidateAgainst_code r s) as Hc. destruct (ValidateAgainst r s) as [[]|e|] eqn:E; [left|right|done].
  - apply ValidateAgainst_spec in E as [Hw Ht]. destruct (row_typed_pk r s Hw Ht) as (v & Hv & _ & Hin). eauto.
  - exists e. split; [done|]. split; [done|]. unfold PrimaryKey. by rewrite E.
Qed.

(** * Properties *)

(** Cells and rows are read back as written: [Decode] inverts [Encode] for
    single values and for whole rows, in particular for negative integers, which
    are stored as their two's complement bit pattern; distinct values have
    distinct encodings, none a prefix of another. *)
Theorem row_roundtrip (r : Row) (v w : Value) (rest rest' : bytes) :
  (row_ok r -> Row_Decode (Row_Encode r) = Ret r) /\
  (value_ok v -> DecodeValue (EncodeValue v) = Ret v) /\
  (value_ok v -> value_ok w -> EncodeValue v ++ rest = EncodeValue w ++ rest' -> v = w /\ rest = rest').
Proof.
  split; [apply Row_Decode_Encode|]. split; [apply DecodeValue_Encode|].
  intros Hv Hw E. pose proof (codec_get_put v rest Hv) as H1. rewrite E, codec_get_put in H1 by done.
  by injection H1.
Qed.

Lemma row_roundtrip_witness :
  Row_Decode (Row_Encode [VInt64 (-5); VString (lit "x"); VBool true]) =
    Ret [VInt64 (-5); VString (lit "x"); VBool true] /\
  DecodeValue (EncodeValue (VInt64 (- 2 ^ 63))) = Ret (VInt64 (- 2 ^ 63)).
Proof.
  split.
  - apply (row_roundtrip [VInt64 (-5); VString (lit "x"); VBool true] VNull VNull [] []).
    split; [|reflexivity]. repeat constructor; vm_compute; congruence.
  - apply (row_roundtrip [] (VInt64 (- 2 ^ 63)) VNull [] []). vm_compute. split; congruence.
Defined.

(** [ValidateAgainst] accepts exactly the rows of the schema's width whose
    cells are non-null and have the column types; such a row always has a
    primary key, which is one of its cells and not null. *)
Theorem row_validation (r : Row) (s : TableSchema) :
  (ValidateAgainst r s = Ret tt <->
     schema_wf s /\ Forall2 (fun c v => v <> VNull /\ value_type v = col_type c) (columns_ s) r) /\
  (ValidateAgainst r s = Ret tt -> exists pk, PrimaryKey r s = Ret pk /\ pk <> VNull /\
     r !! Z.to_nat (primary_key_index s) = Some pk).
Proof.
  split; [apply ValidateAgainst_spec|]. intros [Hw Ht]%ValidateAgainst_spec.
  destruct (row_typed_pk r s Hw Ht) as (v & E & Hn & _). exists v. split; [done|]. split; [done|].
  by apply PrimaryKey_spec in E as (_ & _ & ?).
Qed.

Lemma row_validation_witness :
  exists pk, PrimaryKey [VString (lit "ann"); VInt64 7] sample_schema = Ret pk /\ pk <> VNull.
Proof.
  destruct (proj2 (row_validation [VString (lit "ann"); VInt64 7] sample_schema) eq_refl) as (pk & E & H & _).
  exists pk. split; [exact E|exact H].
Defined.
