(* ===== verification/BindContext.v ===== *)
(** Name resolution of SQL statements (include/reldb/bind_context.h,
    src/reldb/bind_context.cpp): the tables of a FROM list, and the columns that
    bare and qualified references mean in the concatenated row. *)
From S2P Require Import Prelude Status Types Schema.

(** * Data *)

Record BoundTable := mkBoundTable {
  bt_table_name : bytes;
  bt_alias : bytes;       (* empty if there is none *)
  bt_schema : TableSchema;
  bt_row_offset : Z
}.
Definition CorrelationName (t : BoundTable) : bytes :=
  if bool_decide (bt_alias t = []) then bt_table_name t else bt_alias t.

Record BoundColumn := mkBoundColumn {
  bc_table_index : Z;
  bc_column_index : Z;
  bc_row_offset : Z;
  bc_type : ColumnType;
  bc_column_name : bytes
}.

(** The counters are [int]s; the columns of a statement are far fewer than 2^31. *)
Record BindContext := mkBindContext {
  tables_ : list BoundTable;
  name_to_table_ : gmap bytes Z;
  total_columns_ : Z
}.
Definition BindContext_new : BindContext := mkBindContext [] ∅ 0.

(** * Operations *)

(** [s.find(c, pos)] *)
Definition find_byte (c : byte) (pos : nat) (s : bytes) : option nat :=
  (fun p => pos + p.1)%nat <$> list_find (eq c) (drop pos s).

Definition dot : byte := Byte.x2e.

Definition SplitColumnRef (ref : bytes) : Res (bytes * bytes) :=
  let bad := Fail (InvalidArgument (lit "invalid column reference: " ++ ref)) in
  if bool_decide (ref = []) then Fail (InvalidArgument (lit "empty column reference"))
  else
    match find_byte dot 0 ref with
    | None => Ret ([], ref)
    | Some i =>
      match find_byte dot (i + 1) ref with
      | Some _ => bad
      | None => if (i =? 0)%nat || (length ref <=? i + 1)%nat then bad else Ret (take i ref, drop (i + 1) ref)
      end
    end.

Definition register_name (name : bytes) : SM BindContext unit :=
  if bool_decide (name = []) then mret tt
  else
    c ← gets id;
    match name_to_table_ c !! name with
    | Some _ => fail (InvalidArgument (lit "duplicate table name or alias: " ++ name))
    | None => modify (fun c => mkBindContext (tables_ c) (<[name := Z.of_nat (length (tables_ c))]> (name_to_table_ c)) (total_columns_ c))
    end.

Definition AddTable (table_name alias : bytes) (schema : TableSchema) : SM BindContext unit :=
  fail_if (bool_decide (table_name = [])) (InvalidArgument (lit "empty table name in FROM")) ;;
  register_name table_name ;;
  (if negb (bool_decide (alias = [])) && negb (bool_decide (alias = table_name)) then register_name alias else mret tt) ;;
  modify (fun c => mkBindContext (tables_ c ++ [mkBoundTable table_name alias schema (total_columns_ c)])
    (name_to_table_ c) (total_columns_ c + Z.of_nat (num_columns schema))).

Definition FindTable (c : BindContext) (qualifier : bytes) : Z :=
  match name_to_table_ c !! qualifier with None => -1 | Some i => i end.

(** The fields of the result, read off the table found. *)
Definition bound_column (c : BindContext) (ti ci : Z) (col : bytes) : Res BoundColumn :=
  t ← deref (tables_ c !! Z.to_nat ti);
  d ← deref (columns_ (bt_schema t) !! Z.to_nat ci);
  Ret (mkBoundColumn ti ci (bt_row_offset t + ci) (col_type d) col).

(** [for (ti ...)]: the one table with a column of that name. *)
Fixpoint find_unqualified (ts : list BoundTable) (ti : Z) (col : bytes) (found : option (Z * Z)) : Res (option (Z * Z)) :=
  match ts with
  | [] => Ret found
  | t :: ts =>
    let ci := ColumnIndex (bt_schema t) col in
    if ci <? 0 then find_unqualified ts (ti + 1) col found
    else
      match found with
      | Some _ => Fail (InvalidArgument (lit "ambiguous column: " ++ col))
      | None => find_unqualified ts (ti + 1) col (Some (ti, ci))
      end
  end.

Definition Resolve (c : BindContext) (ref : bytes) : Res BoundColumn :=
  '(qual, col) ← SplitColumnRef ref;
  if negb (bool_decide (qual = [])) then
    let ti := FindTable c qual in
    if ti <? 0 then Fail (InvalidArgument (lit "unknown table: " ++ qual))
    else
      t ← deref (tables_ c !! Z.to_nat ti);
      let ci := ColumnIndex (bt_schema t) col in
      if ci <? 0 then Fail (InvalidArgument (lit "unknown column: " ++ ref))
      else bound_column c ti ci col
  else
    found ← find_unqualified (tables_ c) 0 col None;
    match found with
    | None => Fail (InvalidArgument (lit "unknown column: " ++ col))
    | Some (ti, ci) => bound_column c ti ci col
    end.

Definition StarOutputNames (c : BindContext) : list bytes :=
  let qualify := (1 <? length (tables_ c))%nat in
  concat (map (fun t => map (fun d => if qualify then CorrelationName t ++ lit "." ++ col_name d else col_name d)
    (columns_ (bt_schema t))) (tables_ c)).

(** * Splitting a reference *)

Lemma find_byte_none c pos s : find_byte c pos s = None <-> (c ∉ drop pos s).
Proof.
  unfold find_byte. rewrite fmap_None, list_find_None, Forall_forall. split; [intros H Hc; by apply (H c)|by intros H x Hx <-].
Qed.
Lemma find_byte_some c pos s i : find_byte c pos s = Some i <->
  exists pre post, drop pos s = pre ++ c :: post /\ (c ∉ pre) /\ i = (pos + length pre)%nat.
Proof.
  unfold find_byte. rewrite fmap_Some. split.
  - intros ([j x] & (Hx & <- & Hlt)%list_find_Some & ->). exists (take j (drop pos s)), (drop (S j) (drop pos s)).
    split; [symmetry; by apply take_drop_middle|]. pose proof (lookup_lt_Some _ _ _ Hx).
    split; [|cbn; rewrite length_take_le; lia].
    intros (k & Hk)%list_elem_of_lookup_1. apply lookup_take_Some in Hk as [Hk Hkj]. by apply (Hlt k c).
  - intros (pre & post & E & Hn & ->). exists (length pre, c). split; [|done]. apply list_find_Some. rewrite E.
    split; [by apply list_lookup_middle|]. split; [done|]. intros j y Hy Hj ->. rewrite lookup_app_l in Hy by done.
    apply Hn. by eapply list_elem_of_lookup_2.
Qed.

(** The part before the first dot tells two strings apart. *)
Lemma dot_split a b x y : (dot ∉ a) -> (dot ∉ b) -> a ++ dot :: x = b ++ dot :: y -> a = b /\ x = y.
Proof.
  revert b; induction a as [|z a IH]; intros [|w b] Ha Hb E; cbn [app] in E; [by injection E| | |].
  - injection E as <- _. destruct Hb. by left.
  - injection E as -> _. destruct Ha. by left.
  - injection E as -> E. rewrite not_elem_of_cons in Ha, Hb. destruct (IH b) as [-> ->]; tauto.
Qed.

Lemma drop_after (pre post : bytes) : drop (length pre + 1) (pre ++ dot :: post) = post.
Proof. by rewrite drop_app_ge, Nat.add_comm, Nat.add_sub by lia. Qed.

(** A reference is a bare name, or a qualifier, a dot and a name. *)
Lemma SplitColumnRef_spec ref q c : SplitColumnRef ref = Ret (q, c) <->
  c <> [] /\ (dot ∉ c) /\ ((q = [] /\ ref = c) \/ (q <> [] /\ (dot ∉ q) /\ ref = q ++ dot :: c)).
Proof.
  unfold SplitColumnRef. case_bool_decide as Hr.
  { split; [done|]. intros (H & _ & [[_ E]|(_ & _ & E)]); [congruence|]. rewrite Hr in E. by destruct q. }
  destruct (find_byte dot 0 ref) as [i|] eqn:E1.
  2: { apply find_byte_none in E1. rewrite drop_0 in E1. split; [intros [= <- <-]; auto|].
       intros (_ & _ & [[-> ->]|(_ & _ & ->)]); [done|]. destruct E1. rewrite elem_of_app, elem_of_cons. auto. }
  apply find_byte_some in E1 as (pre & post & E & Hn & ->). rewrite drop_0 in E. cbn [Nat.add] in *. subst ref.
  assert (Hdot : dot ∈ pre ++ dot :: post) by (rewrite elem_of_app, elem_of_cons; auto).
  assert (Hcase : forall (P : Prop), ((dot ∉ post) -> q = pre -> c = post -> c <> [] -> q <> [] -> P) ->
    c <> [] /\ (dot ∉ c) /\ ((q = [] /\ pre ++ dot :: post = c) \/ (q <> [] /\ (dot ∉ q) /\ pre ++ dot :: post = q ++ dot :: c)) -> P).
  { intros P HP (Hc0 & Hc & [[_ <-]|(Hq0 & Hq & E)]); [done|]. apply dot_split in E as [-> ->]; [|done..]. auto. }
  destruct (find_byte dot (length pre + 1) (pre ++ dot :: post)) as [j|] eqn:E2.
  { apply find_byte_some in E2 as (p2 & q2 & E2 & _). rewrite drop_after in E2. split; [done|]. apply Hcase.
    intros Hp _ _. destruct Hp. rewrite E2, elem_of_app, elem_of_cons. auto. }
  apply find_byte_none in E2. rewrite drop_after in E2. rewrite take_app_length, drop_after, length_app. cbn [length].
  destruct (Nat.eqb_spec (length pre) 0) as [E0|E0]; cbn [orb].
  { apply nil_length_inv in E0. split; [done|]. apply Hcase. congruence. }
  destruct (Nat.leb_spec (length pre + S (length post)) (length pre + 1)) as [Hl|Hl].
  { split; [done|]. apply Hcase. intros _ _ -> Hc. destruct post; [done|]. cbn in Hl. lia. }
  split; [|apply Hcase; congruence]. intros [= <- <-]. split; [intros ->; cbn in Hl; lia|]. split; [done|]. right.
  split; [by destruct pre|done].
Qed.

Lemma SplitColumnRef_code ref : only_fails kInvalidArgument (SplitColumnRef ref).
Proof. unfold SplitColumnRef. repeat case_match; done. Qed.

(** * Contexts built by adding tables *)

(** A FROM list: table, alias and schema. *)
Fixpoint add_tables (items : list (bytes * bytes * TableSchema)) : SM BindContext unit :=
  match items with
  | [] => mret tt
  | (table, alias, schema) :: items => AddTable table alias schema ;; add_tables items
  end.

(** The columns of the concatenated row. *)
Definition table_columns (ts : list BoundTable) : list ColumnDef := concat (map (fun t => columns_ (bt_schema t)) ts).
Definition all_columns (c : BindContext) : list ColumnDef := table_columns (tables_ c).

(** [n] names the table: it is its name or its alias. *)
Definition names_table (t : BoundTable) (n : bytes) : Prop := n <> [] /\ (n = bt_table_name t \/ n = bt_alias t).

Record ctx_wf (c : BindContext) : Prop := {
  cw_total : total_columns_ c = Z.of_nat (length (all_columns c));
  cw_offset : forall i t, tables_ c !! i = Some t -> bt_row_offset t = Z.of_nat (length (table_columns (take i (tables_ c))));
  cw_named : forall i t, tables_ c !! i = Some t -> bt_table_name t <> [];
  cw_names : forall n k, name_to_table_ c !! n = Some k <->
    exists i t, k = Z.of_nat i /\ tables_ c !! i = Some t /\ names_table t n
}.

Lemma ctx_wf_new : ctx_wf BindContext_new.
Proof. split; try done. intros n k. split; [done|by intros (i & t & _ & H & _)]. Qed.

Lemma table_columns_app ts ts' : table_columns (ts ++ ts') = table_columns ts ++ table_columns ts'.
Proof. unfold table_columns. by rewrite map_app, concat_app. Qed.

Lemma run_register n c c' : n <> [] -> register_name n c = (Ret tt, c') ->
  name_to_table_ c !! n = None /\
  c' = mkBindContext (tables_ c) (<[n := Z.of_nat (length (tables_ c))]> (name_to_table_ c)) (total_columns_ c).
Proof.
  intros Hn. unfold register_name. rewrite bool_decide_false by done. sm_step. unfold id.
  destruct (name_to_table_ c !! n) eqn:E; [done|]. by intros [= <-].
Qed.

(** What a successful [AddTable] does. *)
Lemma run_AddTable table alias schema c c' : AddTable table alias schema c = (Ret tt, c') ->
  let t := mkBoundTable table alias schema (total_columns_ c) in
  table <> [] /\ tables_ c' = tables_ c ++ [t] /\ total_columns_ c' = total_columns_ c + Z.of_nat (num_columns schema) /\
  (forall n, names_table t n -> name_to_table_ c !! n = None /\ name_to_table_ c' !! n = Some (Z.of_nat (length (tables_ c)))) /\
  (forall n, ~ names_table t n -> name_to_table_ c' !! n = name_to_table_ c !! n).
Proof.
  unfold AddTable, fail_if. unfold mbind, SM_bind, mret, SM_ret, fail. case_bool_decide as Ht; [done|].
  destruct (register_name table c) as [[[]|e|] c1] eqn:E1; try done. apply run_register in E1 as [H1 ->]; [|done].
  destruct (negb (bool_decide (alias = [])) && negb (bool_decide (alias = table))) eqn:Ea.
  - apply andb_true_iff in Ea as [Ha%negb_true_iff%bool_decide_eq_false Ha'%negb_true_iff%bool_decide_eq_false].
    destruct (register_name alias _) as [[[]|e|] c2] eqn:E2; try done. apply run_register in E2 as [H2 ->]; [|done].
    cbn in *. rewrite lookup_insert_ne in H2 by done. unfold modify. intros [= <-]. cbn. split; [done|]. split; [done|]. split; [done|].
    unfold names_table. cbn. split.
    + intros n [Hn [-> | ->]]; (split; [done|]).
      * rewrite lookup_insert_ne by done. apply lookup_insert_eq.
      * apply lookup_insert_eq.
    + intros n Hn. rewrite !lookup_insert_ne; [done|intros <-; naive_solver..].
  - cbn. unfold modify. intros [= <-]. cbn. split; [done|]. split; [done|]. split; [done|]. unfold names_table. cbn.
    assert (Ha : alias = [] \/ alias = table).
    { apply andb_false_iff in Ea as [E%negb_false_iff%bool_decide_eq_true|E%negb_false_iff%bool_decide_eq_true]; auto. }
    split.
    + intros n [Hn Hnn]. assert (n = table) as -> by (destruct Ha; naive_solver). by rewrite lookup_insert_eq.
    + intros n Hn. rewrite lookup_insert_ne; [done|]. intros <-. naive_solver.
Qed.

Lemma AddTable_wf table alias schema c c' : ctx_wf c -> AddTable table alias schema c = (Ret tt, c') -> ctx_wf c'.
Proof.
  intros [W1 W2 W3 W4] E. apply run_AddTable in E as (Ht & Et & Ec & Hnew & Hold). set (t := mkBoundTable _ _ _ _) in *.
  assert (Hlook : forall i t', tables_ c' !! i = Some t' <-> (tables_ c !! i = Some t' \/ (i = length (tables_ c) /\ t' = t))).
  { intros i t'. rewrite Et, lookup_app_Some, list_lookup_singleton_Some. split; [|intros [?|[-> ->]]; [by left|right; split; [lia|split; [lia|done]]]].
    intros [?|(Hge & Hi & ->)]; [by left|right; split; [lia|done]]. }
  split.
  - rewrite Ec, W1. unfold all_columns. rewrite Et, table_columns_app, length_app. cbn. rewrite app_nil_r. unfold num_columns. lia.
  - intros i t' [Hi|[-> ->]]%Hlook; rewrite Et.
    + rewrite take_app_le by (apply lookup_lt_Some in Hi; lia). by apply W2.
    + rewrite take_app_length. cbn. by rewrite W1.
  - intros i t' [Hi|[-> ->]]%Hlook; [by eapply W3|done].
  - intros n k. split.
    + intros Hk. destruct (decide (n <> [] /\ (n = table \/ n = alias))) as [Hn|Hn].
      * destruct (Hnew n Hn) as [_ E]. rewrite E in Hk. injection Hk as <-. exists (length (tables_ c)), t.
        split; [done|]. split; [apply Hlook; auto|done].
      * rewrite Hold in Hk by done. apply W4 in Hk as (i & t' & -> & Hi & Hnt). exists i, t'. split; [done|]. split; [apply Hlook; auto|done].
    + intros (i & t' & -> & [Hi|[-> ->]]%Hlook & Hnt); [|by apply Hnew]. rewrite Hold; [by apply W4; eauto|].
      intros Hn. destruct (Hnew n Hn) as [E _]. rewrite (proj2 (W4 n (Z.of_nat i))) in E by eauto. done.
Qed.

Lemma add_tables_wf items : forall c c', ctx_wf c -> add_tables items c = (Ret tt, c') -> ctx_wf c'.
Proof.
  induction items as [|[[table alias] schema] items IH]; intros c c' Hc; cbn [add_tables]; [by intros [= <-]|].
  unfold mbind, SM_bind. destruct (AddTable table alias schema c) as [[[]|e|] c1] eqn:E; try done.
  intros H. eapply IH; [|exact H]. by eapply AddTable_wf.
Qed.

(** * Resolving *)

Definition has_column (t : BoundTable) (col : bytes) : Prop := col ∈ map col_name (columns_ (bt_schema t)).

Lemma ColumnIndex_cases s col :
  (ColumnIndex s col = -1 /\ (col ∉ map col_name (columns_ s))) \/
  (exists d, 0 <= ColumnIndex s col /\ columns_ s !! Z.to_nat (ColumnIndex s col) = Some d /\ col_name d = col /\
     col ∈ map col_name (columns_ s)).
Proof.
  unfold ColumnIndex. destruct (column_index_loop_spec col (columns_ s) 0 ltac:(lia)) as [(H1 & _ & H2)|(pre & d & post & E & H1 & _ & _ & H2)].
  - by left.
  - right. exists d. rewrite H2, Z.add_0_l, Nat2Z.id, E. split; [lia|]. split; [by apply list_lookup_middle|]. split; [done|].
    rewrite map_app, elem_of_app. cbn. rewrite elem_of_cons. auto.
Qed.

Lemma all_columns_lookup c i t ci d : ctx_wf c -> tables_ c !! i = Some t -> columns_ (bt_schema t) !! ci = Some d ->
  all_columns c !! Z.to_nat (bt_row_offset t + Z.of_nat ci) = Some d.
Proof.
  intros Hc Ht Hd. rewrite (cw_offset _ Hc _ _ Ht). rewrite Z2Nat.inj_add, !Nat2Z.id by lia. unfold all_columns.
  rewrite <- (take_drop_middle _ _ _ Ht) at 2. rewrite table_columns_app, lookup_app_r by lia. rewrite Nat.add_comm, Nat.add_sub.
  unfold table_columns. cbn. rewrite lookup_app_l; [done|]. by eapply lookup_lt_Some.
Qed.

(** The loop keeps the one table found so far. *)
Lemma find_unqualified_spec ts : forall ti col found, 0 <= ti ->
  match find_unqualified ts ti col found with
  | Ret r =>
    match r with
    | None => found = None /\ Forall (fun t => ~ has_column t col) ts
    | Some (k, ci) =>
      (found = Some (k, ci) /\ Forall (fun t => ~ has_column t col) ts) \/
      (found = None /\ exists pre t post, ts = pre ++ t :: post /\ k = ti + Z.of_nat (length pre) /\
        ci = ColumnIndex (bt_schema t) col /\ 0 <= ci /\
        Forall (fun t => ~ has_column t col) pre /\ Forall (fun t => ~ has_column t col) post)
    end
  | Fail e => code_ e = kInvalidArgument
  | Stuck => False
  end.
Proof.
  induction ts as [|t ts IH]; intros ti col found Hti; cbn [find_unqualified].
  { destruct found as [[k ci]|]; [left|]; by repeat constructor. }
  destruct (ColumnIndex_cases (bt_schema t) col) as [[-> Hno]|(d & Hci & _)].
  - cbn [Z.ltb Z.compare]. specialize (IH (ti + 1) col found ltac:(lia)).
    destruct (find_unqualified ts (ti + 1) col found) as [[[k ci]|]|e|]; try done.
    + destruct IH as [[H1 H2]|(H1 & pre & t' & post & -> & H2 & H3 & H4 & H5 & H6)]; [left; split; [done|by constructor]|].
      right. split; [done|]. exists (t :: pre), t', post. split; [done|]. split; [cbn [length]; lia|]. split; [done|]. split; [done|].
      split; [by constructor|done].
    + destruct IH as [H1 H2]. split; [done|]. by constructor.
  - destruct (Z.ltb_spec (ColumnIndex (bt_schema t) col) 0); [lia|]. destruct found as [[k0 c0]|]; [done|].
    specialize (IH (ti + 1) col (Some (ti, ColumnIndex (bt_schema t) col)) ltac:(lia)).
    destruct (find_unqualified ts (ti + 1) col _) as [[[k ci]|]|e|]; try done; [|by destruct IH].
    destruct IH as [[[= <- <-] H2]|(H1 & _)]; [|done]. right. split; [done|]. exists [], t, ts. split; [done|].
    split; [cbn; lia|]. split; [done|]. split; [done|]. by split; [constructor|].
Qed.

(** What a resolved reference means. *)
Definition resolves (c : BindContext) (ref : bytes) (bc : BoundColumn) : Prop :=
  exists q col t d, SplitColumnRef ref = Ret (q, col) /\
    0 <= bc_table_index bc /\ tables_ c !! Z.to_nat (bc_table_index bc) = Some t /\
    0 <= bc_column_index bc /\ columns_ (bt_schema t) !! Z.to_nat (bc_column_index bc) = Some d /\
    col_name d = col /\ bc_column_name bc = col /\ bc_type bc = col_type d /\
    0 <= bc_row_offset bc /\ all_columns c !! Z.to_nat (bc_row_offset bc) = Some d /\
    (q <> [] -> names_table t q) /\
    (q = [] -> forall i t', tables_ c !! i = Some t' -> has_column t' col -> Z.of_nat i = bc_table_index bc).

Lemma run_bound_column c i t col : ctx_wf c -> tables_ c !! i = Some t -> 0 <= ColumnIndex (bt_schema t) col ->
  exists bc d, bound_column c (Z.of_nat i) (ColumnIndex (bt_schema t) col) col = Ret bc /\
    columns_ (bt_schema t) !! Z.to_nat (bc_column_index bc) = Some d /\ bc_table_index bc = Z.of_nat i /\
    0 <= bc_column_index bc /\ col_name d = col /\ bc_column_name bc = col /\ bc_type bc = col_type d /\
    0 <= bc_row_offset bc /\ all_columns c !! Z.to_nat (bc_row_offset bc) = Some d.
Proof.
  intros Hc Ht Hci. destruct (ColumnIndex_cases (bt_schema t) col) as [[E _]|(d & _ & Hd & Hn & _)]; [lia|].
  unfold bound_column. rewrite Nat2Z.id, Ht. cbn [deref mbind Res_bind]. rewrite Hd. cbn [deref mbind Res_bind].
  eexists _, d. split; [done|]. cbn. split; [done|]. split; [done|]. split; [done|]. split; [done|]. split; [done|]. split; [done|].
  split; [rewrite (cw_offset _ Hc _ _ Ht); lia|].
  rewrite <- (Z2Nat.id (ColumnIndex (bt_schema t) col)) at 1 by done. by eapply all_columns_lookup.
Qed.

(** A reference resolves rightly, or is refused. *)
Definition resolution (c : BindContext) (ref : bytes) (r : Res BoundColumn) : Prop :=
  match r with
  | Ret bc => resolves c ref bc
  | Fail e => code_ e = kInvalidArgument
  | Stuck => False
  end.

Lemma Resolve_spec c ref : ctx_wf c -> resolution c ref (Resolve c ref).
Proof.
  intros Hc. unfold resolution, Resolve. pose proof (SplitColumnRef_code ref) as Hs.
  destruct (SplitColumnRef ref) as [[q col]|e|] eqn:Es; [|done|done]. cbn [mbind Res_bind].
  case_bool_decide as Hq; cbn [negb].
  - pose proof (find_unqualified_spec (tables_ c) 0 col None (Z.le_refl 0)) as Hf.
    destruct (find_unqualified (tables_ c) 0 col None) as [[[k ci]|]|e|]; [|done..]. cbn [mbind Res_bind].
    destruct Hf as [[? _]|(_ & pre & t & post & E & -> & -> & Hci & Hpre & Hpost)]; [done|]. rewrite Z.add_0_l.
    assert (Ht : tables_ c !! length pre = Some t) by (rewrite E; by apply list_lookup_middle).
    destruct (run_bound_column c _ t col Hc Ht Hci) as (bc & d & -> & H1 & H2 & H3 & H4 & H5 & H6 & H7 & H8).
    exists q, col, t, d. rewrite H2, Nat2Z.id. do 10 (split; [done || lia|]). split; [done|]. intros _ i t' Hi Hcol.
    rewrite E in Hi. rewrite Forall_forall in Hpre, Hpost. apply lookup_app_Some in Hi as [Hi|[Hge Hi]].
    + destruct (Hpre t'); [by eapply list_elem_of_lookup_2|done].
    + destruct (i - length pre)%nat as [|j] eqn:Ej; [lia|]. cbn in Hi. destruct (Hpost t'); [by eapply list_elem_of_lookup_2|done].
  - unfold FindTable. destruct (name_to_table_ c !! q) as [k|] eqn:Ek; [|done].
    apply (cw_names _ Hc) in Ek as (i & t & -> & Ht & Hnt). destruct (Z.ltb_spec (Z.of_nat i) 0); [lia|].
    rewrite Nat2Z.id, Ht. cbn [deref mbind Res_bind]. destruct (Z.ltb_spec (ColumnIndex (bt_schema t) col) 0); [done|].
    destruct (run_bound_column c _ t col Hc Ht ltac:(done)) as (bc & d & -> & H1 & H2 & H3 & H4 & H5 & H6 & H7 & H8).
    exists q, col, t, d. rewrite H2, Nat2Z.id. do 10 (split; [done || lia|]). done.
Qed.

(** Every column can be named. *)
Lemma Resolve_qualified c i t q col ref : ctx_wf c -> tables_ c !! i = Some t -> has_column t col -> names_table t q ->
  SplitColumnRef ref = Ret (q, col) -> exists bc, Resolve c ref = Ret bc /\ bc_table_index bc = Z.of_nat i.
Proof.
  intros Hc Ht Hcol Hq Es. unfold Resolve. rewrite Es. cbn [mbind Res_bind]. rewrite bool_decide_false by apply Hq. cbn [negb].
  unfold FindTable. rewrite (proj2 (cw_names _ Hc q (Z.of_nat i))) by eauto. destruct (Z.ltb_spec (Z.of_nat i) 0); [lia|].
  rewrite Nat2Z.id, Ht. cbn [deref mbind Res_bind].
  destruct (ColumnIndex_cases (bt_schema t) col) as [[_ Hno]|(d & Hci & _)]; [done|].
  destruct (Z.ltb_spec (ColumnIndex (bt_schema t) col) 0); [lia|].
  destruct (run_bound_column c _ t col Hc Ht Hci) as (bc & d' & -> & _ & H2 & _). eauto.
Qed.

(** One label per column of the concatenated row. *)
Lemma StarOutputNames_length c : length (StarOutputNames c) = length (all_columns c).
Proof.
  unfold StarOutputNames, all_columns, table_columns. generalize (1 <? length (tables_ c))%nat. intros q.
  induction (tables_ c) as [|t ts IH]; [done|]. cbn [map concat]. by rewrite !length_app, IH, length_map.
Qed.

(** Name resolution is right: in the context of any FROM list that was
    accepted, a reference that resolves denotes a column with that name, its type,
    and its position in the concatenated row; a qualified reference denotes a
    column of the table with that name or alias, a bare one a column that no
    other table has; every column is found through the name and the alias of its
    table; anything else is InvalidArgument, and [SELECT *] has one label per column. *)
Theorem name_resolution (items : list (bytes * bytes * TableSchema)) (c : BindContext) (ref : bytes) :
  add_tables items BindContext_new = (Ret tt, c) ->
  resolution c ref (Resolve c ref) /\
  (forall i t q col, tables_ c !! i = Some t -> has_column t col -> names_table t q ->
     SplitColumnRef ref = Ret (q, col) -> exists bc, Resolve c ref = Ret bc /\ bc_table_index bc = Z.of_nat i) /\
  Z.of_nat (length (StarOutputNames c)) = total_columns_ c.
Proof.
  intros E. assert (Hc : ctx_wf c) by (eapply add_tables_wf; [apply ctx_wf_new|exact E]).
  split; [by apply Resolve_spec|]. split; [intros; by eapply Resolve_qualified|].
  by rewrite StarOutputNames_length, (cw_total _ Hc).
Qed.

Definition sample_from : list (bytes * bytes * TableSchema) :=
  [(lit "users", lit "u", sample_schema);
   (lit "orders", [], mkTableSchema (lit "orders") [mkColumnDef (lit "id") kInt64 true; mkColumnDef (lit "total") kInt64 false])].
Definition sample_ctx : BindContext := (add_tables sample_from BindContext_new).2.

Lemma name_resolution_witness :
  Resolve sample_ctx (lit "id") = Fail (InvalidArgument (lit "ambiguous column: id")) /\
  exists bc, Resolve sample_ctx (lit "orders.id") = Ret bc /\ bc_row_offset bc = 2 /\ resolves sample_ctx (lit "orders.id") bc.
Proof.
  split; [vm_compute; reflexivity|].
  assert (Hf : add_tables sample_from BindContext_new = (Ret tt, sample_ctx)) by (vm_compute; reflexivity).
  generalize (proj1 (name_resolution sample_from sample_ctx (lit "orders.id") Hf)).
  destruct (Resolve sample_ctx (lit "orders.id")) as [bc|e|] eqn:E; [|vm_compute in E; discriminate..].
  intros H. exists bc. split; [reflexivity|]. split; [vm_compute in E; injection E as <-; reflexivity|exact H].
Defined.
