(* ===== verification/Expr.v ===== *)
(** SQL expressions (include/reldb/expr.h, src/reldb/expr.cpp): binding to a
    schema or a FROM list, evaluation with three-valued logic, and rendering. *)
From S2P Require Import Prelude Status Slice Types Schema Row BindContext.

(** * Data *)

Inductive CmpOp : Set := kEq | kNe | kLt | kLe | kGt | kGe.
#[global] Instance CmpOp_eq_decision : EqDecision CmpOp.
Proof. solve_decision. Defined.

(** A node is built by one of the factories, one constructor each; a column
    carries its name and the index set by [Bind], -1 before. *)
Inductive Expr : Set :=
  | Literal (v : Value)
  | Column (name : bytes) (index : Z)
  | Compare (op : CmpOp) (left right : Expr)
  | And (left right : Expr)
  | Or (left right : Expr)
  | Not (child : Expr).

(** [Expr::Column(name)]: unbound. *)
Definition mkColumn (name : bytes) : Expr := Column name (-1).

(** * Rendering *)

Definition CmpOpName (op : CmpOp) : bytes :=
  match op with
  | kEq => lit "Eq" | kNe => lit "Ne" | kLt => lit "Lt" | kLe => lit "Le" | kGt => lit "Gt" | kGe => lit "Ge"
  end.

Definition quote : byte := Byte.x27.
(** The loop doubles the quotes of the string. *)
Definition FormatLiteral (v : Value) : bytes :=
  match v with
  | VNull => lit "NULL"
  | VString s => quote :: concat (map (fun c => if bool_decide (c = quote) then [quote; quote] else [c]) s) ++ [quote]
  | _ => Value_ToString v
  end.

Fixpoint Expr_ToString (e : Expr) : bytes :=
  match e with
  | Literal v => lit "Literal(" ++ FormatLiteral v ++ lit ")"
  | Column name _ => lit "Column(" ++ name ++ lit ")"
  | Compare op l r => lit "Compare(" ++ CmpOpName op ++ lit ", " ++ Expr_ToString l ++ lit ", " ++ Expr_ToString r ++ lit ")"
  | Not c => lit "Not(" ++ Expr_ToString c ++ lit ")"
  | And l r => lit "And" ++ lit "(" ++ Expr_ToString l ++ lit ", " ++ Expr_ToString r ++ lit ")"
  | Or l r => lit "Or" ++ lit "(" ++ Expr_ToString l ++ lit ", " ++ Expr_ToString r ++ lit ")"
  end.

(** * Binding *)

(** A walk over the column leaves.  The code rewrites the tree in place; when it
    fails, the tree is dropped with its statement. *)
Fixpoint map_columns (f : bytes -> Z -> Res (bytes * Z)) (e : Expr) : Res Expr :=
  match e with
  | Literal v => Ret (Literal v)
  | Column name index => '(name', index') ← f name index; Ret (Column name' index')
  | Compare op l r => l' ← map_columns f l; r' ← map_columns f r; Ret (Compare op l' r')
  | And l r => l' ← map_columns f l; r' ← map_columns f r; Ret (And l' r')
  | Or l r => l' ← map_columns f l; r' ← map_columns f r; Ret (Or l' r')
  | Not c => c' ← map_columns f c; Ret (Not c')
  end.

(** [Bind(const TableSchema&)] *)
Definition Bind (schema : TableSchema) : Expr -> Res Expr :=
  map_columns (fun name _ =>
    let idx := ColumnIndex schema name in
    if idx <? 0 then Fail (InvalidArgument (lit "unknown column: " ++ name)) else Ret (name, idx)).

(** [Bind(const BindContext&)] *)
Definition Bind_ctx (ctx : BindContext) : Expr -> Res Expr :=
  map_columns (fun name _ => bc ← Resolve ctx name; Ret (bc_column_name bc, bc_row_offset bc)).

Definition MapColumnNames (map : bytes -> Res bytes) : Expr -> Res Expr :=
  map_columns (fun name _ => name' ← map name; Ret (name', -1)).

(** * Evaluation *)

(** [std::string::compare] and the other three-way comparisons; only the sign is used. *)
Definition sign_of (c : comparison) : Z := match c with Lt => -1 | Eq => 0 | Gt => 1 end.

Definition cmp_result (op : CmpOp) (cmp : Z) : bool :=
  match op with
  | kEq => cmp =? 0
  | kNe => negb (cmp =? 0)
  | kLt => cmp <? 0
  | kLe => cmp <=? 0
  | kGt => cmp >? 0
  | kGe => cmp >=? 0
  end.

Definition CompareValues (op : CmpOp) (left right : Value) : Res Value :=
  if IsNull left || IsNull right then Ret VNull
  else if negb (bool_decide (value_type left = value_type right)) then Fail (InvalidArgument (lit "compare type mismatch"))
  else
    match value_type left with
    | kInt64 =>
      Ret (VBool (cmp_result op (if GetInt64 left <? GetInt64 right then -1 else if GetInt64 left >? GetInt64 right then 1 else 0)))
    | kString => Ret (VBool (cmp_result op (sign_of (lex (GetString left) (GetString right)))))
    | kBool => Ret (VBool (cmp_result op ((if GetBool left then 1 else 0) - (if GetBool right then 1 else 0))))
    | _ => Ret VNull
    end.

(** [as_tri]: -1 null, 0 false, 1 true *)
Definition as_tri (v : Value) : Res Z :=
  if IsNull v then Ret (-1)
  else if negb (bool_decide (value_type v = kBool)) then Fail (InvalidArgument (lit "logic requires boolean"))
  else Ret (if GetBool v then 1 else 0).

Fixpoint Eval (e : Expr) (row : Row) (schema : TableSchema) : Res Value :=
  match e with
  | Literal v => Ret v
  | Column name index =>
    idx ← (if index <? 0 then
             let idx := ColumnIndex schema name in
             if idx <? 0 then Fail (InvalidArgument (lit "unknown column: " ++ name)) else Ret idx
           else Ret index);
    if Z.of_nat (length row) <=? idx then Fail (InvalidArgument (lit "row width mismatch"))
    else row_at row (Z.to_nat idx)
  | Compare op l r => left ← Eval l row schema; right ← Eval r row schema; CompareValues op left right
  | Not c =>
    v ← Eval c row schema;
    if IsNull v then Ret VNull
    else if negb (bool_decide (value_type v = kBool)) then Fail (InvalidArgument (lit "NOT requires boolean"))
    else Ret (VBool (negb (GetBool v)))
  | And l r =>
    left ← Eval l row schema; right ← Eval r row schema;
    lt ← as_tri left; rt ← as_tri right;
    if (lt =? 0) || (rt =? 0) then Ret (VBool false)
    else if (lt <? 0) || (rt <? 0) then Ret VNull
    else Ret (VBool true)
  | Or l r =>
    left ← Eval l row schema; right ← Eval r row schema;
    lt ← as_tri left; rt ← as_tri right;
    if (lt =? 1) || (rt =? 1) then Ret (VBool true)
    else if (lt <? 0) || (rt <? 0) then Ret VNull
    else Ret (VBool false)
  end.

Definition EvalBool (e : Expr) (row : Row) (schema : TableSchema) : Res bool :=
  v ← Eval e row schema;
  if IsNull v then Ret false
  else if negb (bool_decide (value_type v = kBool)) then Fail (InvalidArgument (lit "predicate must be boolean"))
  else Ret (GetBool v).

(** * Reference semantics *)

(** Truth values: [None] is unknown. *)
Definition tri : Set := option bool.
Definition kleene_and (a b : tri) : tri :=
  match a, b with
  | Some false, _ | _, Some false => Some false
  | Some true, Some true => Some true
  | _, _ => None
  end.
Definition kleene_not (a : tri) : tri := negb <$> a.
(** Disjunction by duality. *)
Definition kleene_or (a b : tri) : tri := kleene_not (kleene_and (kleene_not a) (kleene_not b)).

Definition value_of_tri (a : tri) : Value := match a with Some b => VBool b | None => VNull end.
Definition tri_of_value (v : Value) : tri := match v with VBool b => Some b | _ => None end.

(** The order of two cells of the same type: numbers, byte strings, false below true. *)
Definition cell_order (a b : Value) : option comparison :=
  match a, b with
  | VInt64 x, VInt64 y => Some (Z.compare x y)
  | VString x, VString y => Some (lex x y)
  | VBool x, VBool y => Some (Bool.compare x y)
  | _, _ => None
  end.
Definition cmp_holds (op : CmpOp) (c : comparison) : bool :=
  match op, c with
  | kEq, Eq | kLe, Eq | kGe, Eq | kNe, Lt | kNe, Gt | kLt, Lt | kLe, Lt | kGt, Gt | kGe, Gt => true
  | _, _ => false
  end.

(** What a bound expression means on a row. *)
Fixpoint sem (e : Expr) (row : Row) : Value :=
  match e with
  | Literal v => v
  | Column _ index => default VNull (row !! Z.to_nat index)
  | Compare op l r => value_of_tri (cmp_holds op <$> cell_order (sem l row) (sem r row))
  | And l r => value_of_tri (kleene_and (tri_of_value (sem l row)) (tri_of_value (sem r row)))
  | Or l r => value_of_tri (kleene_or (tri_of_value (sem l row)) (tri_of_value (sem r row)))
  | Not c => value_of_tri (kleene_not (tri_of_value (sem c row)))
  end.

(** * Types *)

(** [typed cols e t]: [e] is bound to the columns [cols] and has type [t]; NULL has every type. *)
Inductive typed (cols : list ColumnDef) : Expr -> ColumnType -> Prop :=
  | typed_null t : typed cols (Literal VNull) t
  | typed_literal v : typed cols (Literal v) (value_type v)
  | typed_column name index d : 0 <= index -> cols !! Z.to_nat index = Some d -> typed cols (Column name index) (col_type d)
  | typed_compare op l r t : typed cols l t -> typed cols r t -> typed cols (Compare op l r) kBool
  | typed_and l r : typed cols l kBool -> typed cols r kBool -> typed cols (And l r) kBool
  | typed_or l r : typed cols l kBool -> typed cols r kBool -> typed cols (Or l r) kBool
  | typed_not c : typed cols c kBool -> typed cols (Not c) kBool.

(** A cell fits a type if it is null or has that type. *)
Definition fits_type (v : Value) (t : ColumnType) : Prop := v = VNull \/ value_type v = t.
(** The rows a plan passes on: cells fit their columns. *)
Definition row_fits_cols (cols : list ColumnDef) (row : Row) : Prop := Forall2 (fun c v => fits_type v (col_type c)) cols row.

Lemma row_typed_fits r s : row_typed r s -> row_fits_cols (columns_ s) r.
Proof. intros H. eapply Forall2_impl; [exact H|]. intros c v [_ E]. by right. Qed.

Lemma fits_bool v : fits_type v kBool -> v = value_of_tri (tri_of_value v).
Proof. intros [-> | H]; [done|]. by destruct v. Qed.

Lemma cmp_sign op c : cmp_result op (sign_of c) = cmp_holds op c.
Proof. by destruct op, c. Qed.

Lemma sign_Z x y : (if x <? y then -1 else if x >? y then 1 else 0) = sign_of (Z.compare x y).
Proof. rewrite Z.gtb_ltb. destruct (Z.ltb_spec x y), (Z.ltb_spec y x), (Z.compare_spec x y); try lia; done. Qed.

Lemma sign_bool x y : (if x : bool then 1 else 0) - (if y : bool then 1 else 0) = sign_of (Bool.compare x y).
Proof. by destruct x, y. Qed.

(** Comparing cells of one type is comparing them in its order. *)
Lemma CompareValues_spec op v w t : fits_type v t -> fits_type w t ->
  CompareValues op v w = Ret (value_of_tri (cmp_holds op <$> cell_order v w)).
Proof.
  intros Hv Hw. unfold CompareValues.
  destruct v, w; cbn [IsNull orb]; try done; destruct Hv as [|<-], Hw as [|E]; try done; cbn [value_type] in *;
    rewrite bool_decide_true by done; cbn [negb GetInt64 GetString GetBool cell_order fmap option_fmap option_map value_of_tri].
  - by rewrite sign_Z, cmp_sign.
  - by rewrite cmp_sign.
  - by rewrite sign_bool, cmp_sign.
Qed.

Lemma as_tri_spec v : fits_type v kBool ->
  as_tri v = Ret (match tri_of_value v with Some true => 1 | Some false => 0 | None => -1 end).
Proof. intros [-> | H]; [done|]. by destruct v as [| | |[]]. Qed.

Lemma fits_tri a : fits_type (value_of_tri a) kBool.
Proof. destruct a; [by right|by left]. Qed.

(** Type soundness: a typed expression evaluates to what it means. *)
Lemma Eval_sound cols e t : typed cols e t -> forall row schema, row_fits_cols cols row ->
  Eval e row schema = Ret (sem e row) /\ fits_type (sem e row) t.
Proof.
  induction 1 as [t|v|name index d Hi Hd|op l r t Hl IHl Hr IHr|l r Hl IHl Hr IHr|l r Hl IHl Hr IHr|c Hc IHc];
    intros row schema Hrow; cbn [Eval sem].
  - split; [done|by left].
  - split; [done|by right].
  - destruct (Z.ltb_spec index 0); [lia|]. cbn [mbind Res_bind].
    destruct (Forall2_lookup_l _ _ _ _ _ Hrow Hd) as (v & Ev & Hv). pose proof (lookup_lt_Some _ _ _ Ev).
    destruct (Z.leb_spec (Z.of_nat (length row)) index); [lia|]. unfold row_at. by rewrite Ev.
  - destruct (IHl row schema Hrow) as [-> Fl], (IHr row schema Hrow) as [-> Fr]. cbn [mbind Res_bind].
    split; [by eapply CompareValues_spec|apply fits_tri].
  - destruct (IHl row schema Hrow) as [-> Fl], (IHr row schema Hrow) as [-> Fr]. cbn [mbind Res_bind].
    rewrite !as_tri_spec by done. split; [|apply fits_tri]. by destruct (tri_of_value (sem l row)) as [[]|], (tri_of_value (sem r row)) as [[]|].
  - destruct (IHl row schema Hrow) as [-> Fl], (IHr row schema Hrow) as [-> Fr]. cbn [mbind Res_bind].
    rewrite !as_tri_spec by done. split; [|apply fits_tri]. by destruct (tri_of_value (sem l row)) as [[]|], (tri_of_value (sem r row)) as [[]|].
  - destruct (IHc row schema Hrow) as [-> [E | Fc]]; cbn [mbind Res_bind]; [rewrite E|]; (split; [|apply fits_tri]); [done|].
    by destruct (sem c row).
Qed.

Lemma EvalBool_sound cols e row schema : typed cols e kBool -> row_fits_cols cols row ->
  EvalBool e row schema = Ret (bool_decide (sem e row = VBool true)).
Proof.
  intros He Hrow. unfold EvalBool. destruct (Eval_sound _ _ _ He row schema Hrow) as [-> [E | F]]; cbn [mbind Res_bind].
  - by rewrite E.
  - destruct (sem e row) as [| | |b]; try done. cbn. by destruct b.
Qed.

(** Evaluation never leaves the row: it returns a value or refuses. *)
Lemma CompareValues_code op v w : only_fails kInvalidArgument (CompareValues op v w).
Proof. unfold CompareValues. repeat case_match; done. Qed.
Lemma as_tri_code v : only_fails kInvalidArgument (as_tri v).
Proof. unfold as_tri. repeat case_match; done. Qed.

Lemma Eval_code e : forall row schema, only_fails kInvalidArgument (Eval e row schema).
Proof.
  induction e as [v|name index|op l IHl r IHr|l IHl r IHr|l IHl r IHr|c IHc]; intros row schema; cbn [Eval]; [done| | | | |];
    repeat (apply only_fails_bind; [done || apply CompareValues_code || apply as_tri_code|intros ? _]);
    try (repeat case_match; done); try apply CompareValues_code.
  assert (H : exists r, (if index <? 0 then if ColumnIndex schema name <? 0 then Fail (InvalidArgument (lit "unknown column: " ++ name))
    else Ret (ColumnIndex schema name) else Ret index) = r /\ match r with Ret i => 0 <= i | Fail e => code_ e = kInvalidArgument | Stuck => False end).
  { eexists. split; [reflexivity|]. destruct (Z.ltb_spec index 0); [destruct (Z.ltb_spec (ColumnIndex schema name) 0)|]; done || lia. }
  destruct H as (r & -> & Hr). apply only_fails_bind; [by destruct r|]. intros i ->. destruct (Z.leb_spec (Z.of_nat (length row)) i); [done|].
  unfold row_at. destruct (lookup_lt_is_Some_2 row (Z.to_nat i)) as [v ->]; [lia|done].
Qed.

Lemma EvalBool_code e row schema : only_fails kInvalidArgument (EvalBool e row schema).
Proof. apply only_fails_bind; [apply Eval_code|]. intros v _. repeat case_match; done. Qed.

(** * Binding *)

(** A property of every column leaf. *)
Fixpoint on_columns (P : bytes -> Z -> Prop) (e : Expr) : Prop :=
  match e with
  | Literal _ => True
  | Column name index => P name index
  | Compare _ l r | And l r | Or l r => on_columns P l /\ on_columns P r
  | Not c => on_columns P c
  end.
(** No column is bound yet. *)
Definition unbound : Expr -> Prop := on_columns (fun _ index => index = -1).

Section MapColumns.
Context (f : bytes -> Z -> Res (bytes * Z)).

Lemma map_columns_code e : (forall n i, only_fails kInvalidArgument (f n i)) -> only_fails kInvalidArgument (map_columns f e).
Proof.
  intros Hf. induction e; cbn [map_columns]; [done| | | | |];
    repeat (apply only_fails_bind; [solve [auto]|]; first [intros [? ?] _ | intros ? _]); done.
Qed.

(** The two sides of a binary node. *)
Lemma map_binary (node : Expr -> Expr -> Expr) l r e' :
  (l' ← map_columns f l; r' ← map_columns f r; Ret (node l' r')) = Ret e' <->
  exists l' r', map_columns f l = Ret l' /\ map_columns f r = Ret r' /\ e' = node l' r'.
Proof. rewrite Res_bind_Ret. setoid_rewrite Res_bind_Ret. naive_solver. Qed.

(** If every column is mapped to one with the same value, so is the expression. *)
Lemma map_columns_Eval row schema schema' (P : bytes -> Z -> Prop) :
  (forall n i n' i', P n i -> f n i = Ret (n', i') -> Eval (Column n' i') row schema' = Eval (Column n i) row schema) ->
  forall e e', on_columns P e -> map_columns f e = Ret e' -> Eval e' row schema' = Eval e row schema.
Proof.
  intros Hcol. induction e as [v|name index|op l IHl r IHr|l IHl r IHr|l IHl r IHr|c IHc]; intros e' Hok; cbn [map_columns].
  - by intros [= <-].
  - intros ([n' i'] & E & [= <-])%Res_bind_Ret. by apply Hcol.
  - intros (l' & r' & El & Er & ->)%map_binary. cbn [Eval]. by rewrite (IHl l'), (IHr r') by (done || apply Hok).
  - intros (l' & r' & El & Er & ->)%map_binary. cbn [Eval]. by rewrite (IHl l'), (IHr r') by (done || apply Hok).
  - intros (l' & r' & El & Er & ->)%map_binary. cbn [Eval]. by rewrite (IHl l'), (IHr r') by (done || apply Hok).
  - intros (c' & Ec & [= <-])%Res_bind_Ret. cbn [Eval]. by rewrite (IHc c').
Qed.

(** A property that every mapped column gets holds of all columns of the result. *)
Lemma map_columns_on (Q : bytes -> Z -> Prop) : (forall n i n' i', f n i = Ret (n', i') -> Q n' i') ->
  forall e e', map_columns f e = Ret e' -> on_columns Q e'.
Proof.
  intros Hcol. induction e as [v|name index|op l IHl r IHr|l IHl r IHr|l IHl r IHr|c IHc]; intros e'; cbn [map_columns].
  - by intros [= <-].
  - intros ([n' i'] & E & [= <-])%Res_bind_Ret. by eapply Hcol.
  - intros (l' & r' & El & Er & ->)%map_binary. split; auto.
  - intros (l' & r' & El & Er & ->)%map_binary. split; auto.
  - intros (l' & r' & El & Er & ->)%map_binary. split; auto.
  - intros (c' & Ec & [= <-])%Res_bind_Ret. cbn [on_columns]. auto.
Qed.
End MapColumns.

Lemma Bind_code schema e : only_fails kInvalidArgument (Bind schema e).
Proof. apply map_columns_code. intros n i. cbn. by destruct (ColumnIndex schema n <? 0). Qed.

(** The fast path through the bound index agrees with the lookup by name. *)
Lemma Bind_Eval schema e e' row : unbound e -> Bind schema e = Ret e' -> Eval e' row schema = Eval e row schema.
Proof.
  apply map_columns_Eval. intros n i n' i' -> H. cbn in H |- *.
  destruct (Z.ltb_spec (ColumnIndex schema n) 0) as [|Hi]; [done|]. injection H as <- <-.
  destruct (Z.ltb_spec (ColumnIndex schema n) 0); [lia|]. done.
Qed.

(** The columns of a bound expression are columns of the schema. *)
Lemma Bind_columns schema e e' : Bind schema e = Ret e' ->
  on_columns (fun n i => 0 <= i /\ exists d, columns_ schema !! Z.to_nat i = Some d /\ col_name d = n) e'.
Proof.
  apply map_columns_on. intros n i n' i' H. cbn in H. destruct (ColumnIndex_cases schema n) as [[E _]|(d & Hi & Hd & Hn & _)].
  - by rewrite E in H.
  - destruct (Z.ltb_spec (ColumnIndex schema n) 0); [lia|]. injection H as <- <-. eauto.
Qed.

(** * Properties *)

(** C27: expressions mean what SQL says: on a row whose cells fit the columns, a
    typed expression evaluates without error to its reference meaning - numbers,
    strings and truth values compare in their orders, a comparison with NULL is
    unknown, AND, OR and NOT are the operators of Kleene's three-valued logic -
    and a WHERE clause keeps a row exactly when the predicate is true; an
    expression that does not fit is refused with InvalidArgument; binding the
    columns of an expression to their positions does not change its value. *)
Theorem expr_semantics (cols : list ColumnDef) (e : Expr) (t : ColumnType) (row : Row) (schema : TableSchema) :
  (typed cols e t -> row_fits_cols cols row ->
     Eval e row schema = Ret (sem e row) /\ fits_type (sem e row) t /\
     (t = kBool -> EvalBool e row schema = Ret (bool_decide (sem e row = VBool true)))) /\
  only_fails kInvalidArgument (EvalBool e row schema) /\
  (forall e', unbound e -> Bind schema e = Ret e' -> Eval e' row schema = Eval e row schema).
Proof.
  split; [|split; [apply EvalBool_code|intros e'; apply Bind_Eval]].
  intros He Hrow. destruct (Eval_sound _ _ _ He row schema Hrow) as [H1 H2]. split; [done|]. split; [done|].
  intros ->. by eapply EvalBool_sound.
Qed.

(** [NOT (id < 5 AND NULL)] on a row with id 7: false AND unknown is false. *)
Lemma expr_semantics_witness :
  let e := Not (And (Compare kLt (Column (lit "id") 1) (Literal (VInt64 5))) (Literal VNull)) in
  EvalBool e [VString (lit "ann"); VInt64 7] sample_schema = Ret true.
Proof.
  intros e. assert (He : typed (columns_ sample_schema) e kBool).
  { apply typed_not, typed_and; [|apply typed_null]. apply (typed_compare _ _ _ _ kInt64).
    - apply (typed_column _ _ 1 (mkColumnDef (lit "id") kInt64 true)); [lia|reflexivity].
    - apply (typed_literal _ (VInt64 5)). }
  assert (Hr : row_fits_cols (columns_ sample_schema) [VString (lit "ann"); VInt64 7]) by (repeat constructor; by right).
  destruct (expr_semantics (columns_ sample_schema) e kBool [VString (lit "ann"); VInt64 7] sample_schema) as [H _].
  destruct (H He Hr) as (_ & _ & Hb). rewrite (Hb eq_refl). reflexivity.
Defined.
