(* ===== verification/SqlAst.v ===== *)
(** Statements (include/reldb/sql_ast.h, src/reldb/sql_ast.cpp): the syntax tree
    the parser builds, its rendering, and the names of aggregate results. *)
From S2P Require Import Prelude Status Types Schema BindContext Expr.

(** * Data *)

Record ColumnDefAst := mkColumnDefAst { cda_name : bytes; cda_type : ColumnType; cda_primary_key : bool }.

Record OrderByItem := mkOrderByItem { ob_column_name : bytes; ob_ascending : bool }.

Inductive AggFunc : Set := kCount | kSum | kAvg | kMin | kMax.
#[global] Instance AggFunc_eq_decision : EqDecision AggFunc.
Proof. solve_decision. Defined.

(** An item is an expression or an aggregate: its function, whether it is
    COUNT of a star, and its column. *)
Inductive SelectKind : Set :=
  | kExprItem (expr : Expr)
  | kAggItem (func : AggFunc) (star : bool) (column : bytes).
Record SelectItem := mkSelectItem { sel_kind : SelectKind; sel_alias : bytes; sel_output_name : bytes }.

Record FromItem := mkFromItem { from_table : bytes; from_alias : bytes }.
Record JoinClause := mkJoinClause { join_right : FromItem; join_on : Expr }.
Record FromClause := mkFromClause { from_base : FromItem; from_joins : list JoinClause }.

Record SelectStmt := mkSelectStmt {
  select_star : bool;
  select_list : list SelectItem;
  sel_from : FromClause;
  sel_where : option Expr;
  group_by : list bytes;
  having : option Expr;
  order_by : list OrderByItem;
  has_limit : bool;
  sel_limit : Z
}.

Record AssignmentAst := mkAssignmentAst { asg_column_name : bytes; asg_value : Expr }.

Inductive Statement : Set :=
  | BeginStmt
  | CommitStmt
  | AbortStmt
  | CreateTableStmt (table : bytes) (columns : list ColumnDefAst)
  | DropTableStmt (table : bytes) (if_exists : bool)
  | AlterTableAddColumnStmt (table : bytes) (column : ColumnDefAst) (default_value : Value)
  | AlterTableDropColumnStmt (table column : bytes)
  | InsertStmt (table : bytes) (column_names : list bytes) (values : list Value)
  | Select (s : SelectStmt)
  | UpdateStmt (table : bytes) (sets : list AssignmentAst) (where_ : option Expr)
  | DeleteStmt (table : bytes) (where_ : option Expr).

(** [MakeExprSelectItem] *)
Definition MakeExprSelectItem (e : Expr) : SelectItem := mkSelectItem (kExprItem e) [] [].

(** * Names of aggregate results *)

Definition AggFuncName (f : AggFunc) : bytes :=
  match f with kCount => lit "COUNT" | kSum => lit "SUM" | kAvg => lit "AVG" | kMin => lit "MIN" | kMax => lit "MAX" end.

Definition DefaultAggResultName (f : AggFunc) (star : bool) (col : bytes) : bytes :=
  AggFuncName f ++ lit "(" ++ (if star then lit "*" else col) ++ lit ")".

(** [std::isalnum] in the C locale *)
Definition isalpha (c : byte) : bool := let z := bz c in ((65 <=? z) && (z <=? 90)) || ((97 <=? z) && (z <=? 122)).
Definition isdigit (c : byte) : bool := let z := bz c in (48 <=? z) && (z <=? 57).
Definition isalnum (c : byte) : bool := isalpha c || isdigit c.
Definition underscore : byte := Byte.x5f.

(** [name.compare(0, length(pfx), pfx) == 0]: the comparison takes at most that many bytes. *)
Definition starts (name pfx : bytes) : bool := bool_decide (take (length pfx) name = pfx).

(** [inner.find("..") != npos] *)
Fixpoint has_double_dot (s : bytes) : bool :=
  match s with
  | a :: ((b :: _) as rest) => (bool_decide (a = dot) && bool_decide (b = dot)) || has_double_dot rest
  | _ => false
  end.

Definition agg_prefix (name : bytes) : option (AggFunc * bytes) :=
  if starts name (lit "COUNT(") then Some (kCount, lit "COUNT(")
  else if starts name (lit "SUM(") then Some (kSum, lit "SUM(")
  else if starts name (lit "AVG(") then Some (kAvg, lit "AVG(")
  else if starts name (lit "MIN(") then Some (kMin, lit "MIN(")
  else if starts name (lit "MAX(") then Some (kMax, lit "MAX(")
  else None.

Definition ParseDefaultAggResultName (name : bytes) : option (AggFunc * bool * bytes) :=
  match agg_prefix name with
  | None => None
  | Some (func, pfx) =>
    if negb (bool_decide (last name = Some Byte.x29)) then None
    else if (length name <? length pfx + 1)%nat then None
    else
      let inner := take (length name - length pfx - 1) (drop (length pfx) name) in
      if bool_decide (inner = lit "*") then (if bool_decide (func = kCount) then Some (func, true, []) else None)
      else if bool_decide (inner = []) then None
      else if negb (forallb (fun c => isalnum c || bool_decide (c = underscore) || bool_decide (c = dot)) inner) then None
      else if bool_decide (head inner = Some dot) || bool_decide (last inner = Some dot) || has_double_dot inner then None
      else Some (func, false, inner)
  end.

(** * Rendering *)

(** [FormatValue] has the body of [FormatLiteral]. *)
Definition FormatValue (v : Value) : bytes :=
  match v with
  | VNull => lit "NULL"
  | VString s => quote :: concat (map (fun c => if bool_decide (c = quote) then [quote; quote] else [c]) s) ++ [quote]
  | _ => Value_ToString v
  end.

Definition TypeName (t : ColumnType) : bytes :=
  match t with
  | kInt64 => lit "Int64" | kString => lit "String" | kBool => lit "Bool" | kNull => lit "Null" | kOtherType _ => lit "Unknown"
  end.

Definition JoinComma (parts : list bytes) : bytes :=
  match parts with [] => [] | p :: ps => p ++ concat (map (fun q => lit ", " ++ q) ps) end.

Definition ToStringSelectItem (item : SelectItem) : bytes :=
  match sel_kind item with
  | kAggItem f star col => DefaultAggResultName f star col
  | kExprItem e => Expr_ToString e
  end ++ (if bool_decide (sel_alias item = []) then [] else lit " AS " ++ sel_alias item).

Definition ToStringFrom (f : FromItem) : bytes :=
  from_table f ++ (if bool_decide (from_alias f = []) then [] else lit " AS " ++ from_alias f).

Definition ToStringSelect (s : SelectStmt) : bytes :=
  lit "Select(" ++
  (if select_star s then lit "*" else lit "[" ++ JoinComma (map ToStringSelectItem (select_list s)) ++ lit "]") ++
  lit " FROM " ++ ToStringFrom (from_base (sel_from s)) ++
  concat (map (fun j => lit " INNER JOIN " ++ ToStringFrom (join_right j) ++ lit " ON " ++ Expr_ToString (join_on j)) (from_joins (sel_from s))) ++
  match sel_where s with Some e => lit " WHERE " ++ Expr_ToString e | None => [] end ++
  (if bool_decide (group_by s = []) then [] else lit " GROUP BY [" ++ JoinComma (group_by s) ++ lit "]") ++
  match having s with Some e => lit " HAVING " ++ Expr_ToString e | None => [] end ++
  (if bool_decide (order_by s = []) then []
   else lit " ORDER BY [" ++
     JoinComma (map (fun o => ob_column_name o ++ (if ob_ascending o then lit " ASC" else lit " DESC")) (order_by s)) ++ lit "]") ++
  (if has_limit s then lit " LIMIT " ++ to_string_signed (sel_limit s) else []) ++
  lit ")".

Definition where_string (where_ : option Expr) : bytes :=
  match where_ with Some e => lit " WHERE " ++ Expr_ToString e | None => [] end.

Definition Statement_ToString (stmt : Statement) : bytes :=
  match stmt with
  | BeginStmt => lit "Begin"
  | CommitStmt => lit "Commit"
  | AbortStmt => lit "Abort"
  | CreateTableStmt table columns =>
    lit "CreateTable(" ++ table ++ lit ", [" ++
    JoinComma (map (fun c => cda_name c ++ lit " " ++ TypeName (cda_type c) ++ (if cda_primary_key c then lit " PRIMARY KEY" else [])) columns) ++
    lit "])"
  | DropTableStmt table if_exists => lit "DropTable(" ++ (if if_exists then lit "IF EXISTS, " else []) ++ table ++ lit ")"
  | AlterTableAddColumnStmt table c v =>
    lit "AlterTableAddColumn(" ++ table ++ lit ", " ++ cda_name c ++ lit " " ++ TypeName (cda_type c) ++ lit " DEFAULT " ++ FormatValue v ++ lit ")"
  | AlterTableDropColumnStmt table column => lit "AlterTableDropColumn(" ++ table ++ lit ", " ++ column ++ lit ")"
  | InsertStmt table cols values =>
    lit "Insert(" ++ table ++ (if bool_decide (cols = []) then [] else lit ", cols=[" ++ JoinComma cols ++ lit "]") ++
    lit ", values=[" ++ JoinComma (map FormatValue values) ++ lit "])"
  | Select s => ToStringSelect s
  | UpdateStmt table sets where_ =>
    lit "Update(" ++ table ++ lit ", SET [" ++
    JoinComma (map (fun a => asg_column_name a ++ lit "=" ++ Expr_ToString (asg_value a)) sets) ++ lit "]" ++ where_string where_ ++ lit ")"
  | DeleteStmt table where_ => lit "Delete(" ++ table ++ where_string where_ ++ lit ")"
  end.

(** * The names of aggregate results read back *)

(** The column references an aggregate name can hold: words of letters, digits and
    underscores, separated by single dots. *)
Definition word_byte (c : byte) : bool := isalnum c || bool_decide (c = underscore).
Definition agg_column_ok (col : bytes) : Prop :=
  col <> [] /\ Forall (fun c => word_byte c = true \/ c = dot) col /\
  head col <> Some dot /\ last col <> Some dot /\ has_double_dot col = false.

Lemma agg_prefix_name f rest : agg_prefix (AggFuncName f ++ lit "(" ++ rest) = Some (f, AggFuncName f ++ lit "(").
Proof. by destruct f. Qed.

Lemma inner_of (pfx inner : bytes) : let name := pfx ++ inner ++ [Byte.x29] in
  take (length name - length pfx - 1) (drop (length pfx) name) = inner.
Proof.
  cbn zeta. rewrite drop_app_length, !length_app. cbn [length].
  replace (length pfx + (length inner + 1) - length pfx - 1)%nat with (length inner) by lia. apply take_app_length.
Qed.

Lemma Parse_unfold f inner : ParseDefaultAggResultName (AggFuncName f ++ lit "(" ++ inner ++ lit ")") =
  if bool_decide (inner = lit "*") then (if bool_decide (f = kCount) then Some (f, true, []) else None)
  else if bool_decide (inner = []) then None
  else if negb (forallb (fun c => isalnum c || bool_decide (c = underscore) || bool_decide (c = dot)) inner) then None
  else if bool_decide (head inner = Some dot) || bool_decide (last inner = Some dot) || has_double_dot inner then None
  else Some (f, false, inner).
Proof.
  unfold ParseDefaultAggResultName. rewrite agg_prefix_name. set (pfx := AggFuncName f ++ lit "(").
  assert (E : AggFuncName f ++ lit "(" ++ inner ++ lit ")" = pfx ++ inner ++ [Byte.x29]) by (unfold pfx; by rewrite <- app_assoc).
  rewrite E. rewrite app_assoc, last_snoc, bool_decide_true by done. cbn [negb]. rewrite <- app_assoc, inner_of.
  destruct (Nat.ltb_spec (length (pfx ++ inner ++ [Byte.x29])) (length pfx + 1)) as [H|_]; [|done].
  rewrite !length_app in H. cbn [length] in H. lia.
Qed.

Lemma agg_bytes_ok inner : Forall (fun c => word_byte c = true \/ c = dot) inner <->
  forallb (fun c => isalnum c || bool_decide (c = underscore) || bool_decide (c = dot)) inner = true.
Proof.
  rewrite forallb_forall, Forall_forall. setoid_rewrite list_elem_of_In. unfold word_byte.
  split; intros H c Hc; specialize (H c Hc); rewrite ?orb_true_iff, ?bool_decide_eq_true in *; tauto.
Qed.

Lemma agg_prefix_inv name f pfx : agg_prefix name = Some (f, pfx) ->
  pfx = AggFuncName f ++ lit "(" /\ exists rest, name = pfx ++ rest.
Proof.
  unfold agg_prefix, starts. intros H.
  assert (Hp : take (length pfx) name = pfx /\ pfx = AggFuncName f ++ lit "(") by (repeat case_bool_decide; by simplify_eq).
  destruct Hp as [Hp ->]. split; [done|]. exists (drop (length (AggFuncName f ++ lit "(")) name). rewrite <- Hp at 1. by rewrite take_drop.
Qed.

Lemma Parse_shape name f star col : ParseDefaultAggResultName name = Some (f, star, col) ->
  exists inner, name = AggFuncName f ++ lit "(" ++ inner ++ lit ")".
Proof.
  unfold ParseDefaultAggResultName. destruct (agg_prefix name) as [[g pfx]|] eqn:E; [|done].
  apply agg_prefix_inv in E as [Ep [rest ->]]. case_bool_decide as Hl; [|done]. cbn [negb].
  destruct (Nat.ltb_spec (length (pfx ++ rest)) (length pfx + 1)) as [|Hn]; [done|]. rewrite length_app in Hn.
  destruct rest as [|x rest0 _] using rev_ind; [cbn in Hn; lia|]. rewrite app_assoc, last_snoc in Hl. injection Hl as ->.
  intros H. assert (g = f) as -> by (repeat case_match; congruence). exists rest0. rewrite Ep. by rewrite <- app_assoc.
Qed.

(** The name of an aggregate result reads back as the aggregate it names:
    [ParseDefaultAggResultName] recovers COUNT of a star and every function of a
    well-formed column reference, and it accepts no other names. *)
Theorem agg_name_roundtrip (f : AggFunc) (star : bool) (col name : bytes) :
  (ParseDefaultAggResultName (DefaultAggResultName kCount true col) = Some (kCount, true, [])) /\
  (agg_column_ok col -> ParseDefaultAggResultName (DefaultAggResultName f false col) = Some (f, false, col)) /\
  (ParseDefaultAggResultName name = Some (f, star, col) ->
     name = DefaultAggResultName f star col /\ (if star then f = kCount /\ col = [] else agg_column_ok col)).
Proof.
  unfold DefaultAggResultName. split; [by rewrite Parse_unfold|]. split.
  - intros (H1 & H2 & H3 & H4 & H5). rewrite Parse_unfold. rewrite bool_decide_false by (intros ->; inversion_clear H2 as [|?? [H|H] _]; done).
    rewrite bool_decide_false by done. apply agg_bytes_ok in H2. rewrite H2, H5. by rewrite !bool_decide_false.
  - intros H. pose proof (Parse_shape _ _ _ _ H) as [inner ->]. rewrite Parse_unfold in H.
    destruct (bool_decide_reflect (inner = lit "*")) as [Hs|_].
    { destruct (bool_decide_reflect (f = kCount)) as [Hf|]; [|done]. injection H as <- <-. by rewrite Hs. }
    destruct (bool_decide_reflect (inner = [])) as [|Hn]; [done|].
    destruct (forallb _ inner) eqn:Hb; [|done]. apply agg_bytes_ok in Hb. cbn [negb] in H.
    destruct (bool_decide_reflect (head inner = Some dot)); [done|]. destruct (bool_decide_reflect (last inner = Some dot)); [done|].
    destruct (has_double_dot inner) eqn:Hd; [done|]. cbn in H. by injection H as <- <-.
Qed.

Lemma agg_name_roundtrip_witness : ParseDefaultAggResultName (DefaultAggResultName kSum false (lit "u.score")) = Some (kSum, false, lit "u.score").
Proof.
  apply (agg_name_roundtrip kSum false (lit "u.score") []). split; [discriminate|]. split; [|repeat split; discriminate].
  repeat constructor; first [left; reflexivity|right; reflexivity].
Defined.
