(* ===== verification/Text.v ===== *)
(** Text helpers: trimming and case (include/reldb/string_util.h), decimal numbers
    as [std::stoll], [std::from_chars] and [std::to_string] treat them, and the
    loops that scan a run of characters. *)
From S2P Require Import Prelude Status Env Version Types SqlAst.

(** * Runs of characters *)

(** [while (i < s.size() && p(s[i])) ++i;]: what the loop passes and what is left. *)
Fixpoint span (p : byte -> bool) (s : bytes) : bytes * bytes :=
  match s with
  | c :: s' => if p c then let '(a, b) := span p s' in (c :: a, b) else ([], s)
  | [] => ([], [])
  end.

(** The loop passes a run of [p] and stops at the first byte that is none. *)
Lemma span_app p a b : forallb p a = true -> (forall c, head b = Some c -> p c = false) -> span p (a ++ b) = (a, b).
Proof.
  induction a as [|x a IH]; simpl; intros Ha Hb.
  - destruct b as [|c b]; simpl; [done|]. by rewrite (Hb c).
  - apply andb_true_iff in Ha as [-> Ha]. by rewrite IH.
Qed.

Lemma span_all p a : forallb p a = true -> span p a = (a, []).
Proof. intros H. rewrite <- (app_nil_r a) at 1. by apply span_app. Qed.

Lemma span_eq p s : s = (span p s).1 ++ (span p s).2.
Proof. induction s as [|c s IH]; simpl; [done|]. destruct (p c), (span p s); simpl in *; by f_equal. Qed.

Lemma span_length p s : (length (span p s).2 <= length s)%nat.
Proof. rewrite (span_eq p s) at 2. rewrite length_app. lia. Qed.

Lemma span_fst_all p s : forallb p (span p s).1 = true.
Proof.
  induction s as [|c s IH]; simpl; [done|]. destruct (p c) eqn:E; [|done].
  destruct (span p s); simpl in *. by rewrite E.
Qed.

Definition newline : byte := Byte.x0a.
Definition cr : byte := Byte.x0d.

(** * string_util.h *)

Definition is_blank (c : byte) : bool := bool_decide (c = Byte.x20) || bool_decide (c = Byte.x09) || bool_decide (c = Byte.x0d).
Definition is_blank_or_newline (c : byte) : bool := is_blank c || bool_decide (c = Byte.x0a).

(** Both loops: from the front, then from the back. *)
Definition trim_with (p : byte -> bool) (s : bytes) : bytes := reverse (span p (reverse (span p s).2)).2.
Definition TrimView : bytes -> bytes := trim_with is_blank.
Definition TrimViewWs : bytes -> bytes := trim_with is_blank_or_newline.

(** [std::toupper] and [std::tolower] in the C locale *)
Definition toupper (c : byte) : byte := let z := bz c in if (97 <=? z) && (z <=? 122) then zb (z - 32) else c.
Definition tolower (c : byte) : byte := let z := bz c in if (65 <=? z) && (z <=? 90) then zb (z + 32) else c.
Definition ToUpperAscii (s : bytes) : bytes := map toupper s.

(** * Decimal numbers *)

(** [std::stoll(s, &idx, 10)]: the value and the number of bytes read; no value
    when it throws, there being no digit or the value not fitting. *)
Definition stoll (s : bytes) : option (Z * nat) :=
  let s1 := skip_space s in
  let '(neg, s2) :=
    match s1 with
    | c :: s' => if bz c =? 45 then (true, s') else if bz c =? 43 then (false, s') else (false, s1)
    | [] => (false, s1)
    end in
  let '(ds, rest) := span isdigit s2 in
  let v := parse_digits ds 0 in
  let v := if neg : bool then - v else v in
  if bool_decide (ds = []) then None
  else if bool_decide (int64 v) then Some (v, (length s - length rest)%nat) else None.

(** [std::from_chars] into an unsigned and a signed 64-bit number, for a text
    that must be consumed whole: digits, for the signed one after an optional minus sign. *)
Definition from_chars_u64 (s : bytes) : option Z :=
  if bool_decide (s = []) || negb (forallb isdigit s) then None
  else let v := parse_digits s 0 in if v <? 2 ^ 64 then Some v else None.
Definition from_chars_i64 (s : bytes) : option Z :=
  let '(neg, ds) := match s with c :: s' => if bz c =? 45 then (true, s') else (false, s) | [] => (false, s) end in
  if bool_decide (ds = []) || negb (forallb isdigit ds) then None
  else
    let v := parse_digits ds 0 in
    let v := if neg : bool then - v else v in
    if bool_decide (int64 v) then Some v else None.

(** ** Printing and reading back *)

Lemma lit_cons c s : lit (String.String c s) = Ascii.byte_of_ascii c :: lit s.
Proof. done. Qed.

Lemma digit_of_isdigit c d : digit_of c = Some d -> isdigit c = true /\ d = bz c - 48.
Proof. unfold digit_of, isdigit. intros H. cbn in *. destruct ((48 <=? bz c) && (bz c <=? 57)); naive_solver. Qed.

Lemma isdigit_digit_of c : isdigit c = true -> digit_of c = Some (bz c - 48).
Proof. unfold digit_of, isdigit. cbn. by intros ->. Qed.

(** The digits of a number in base ten, most significant first. *)
Lemma parse_digits_snoc l c acc : forallb isdigit (l ++ [c]) = true ->
  parse_digits (l ++ [c]) acc = parse_digits l acc * 10 + (bz c - 48).
Proof.
  revert acc; induction l as [|x l IH]; intros acc; simpl.
  - rewrite andb_true_r. intros H. by rewrite isdigit_digit_of.
  - intros [Hx Hl]%andb_true_iff. rewrite isdigit_digit_of by done. by apply IH.
Qed.

Definition digit_char (z : Z) : byte := zb (48 + z).

Lemma isdigit_digit_char z : 0 <= z < 10 -> isdigit (digit_char z) = true /\ bz (digit_char z) = 48 + z.
Proof.
  intros Hz. assert (bz (digit_char z) = 48 + z) as E by (apply bz_zb_small; lia).
  split; [|done]. unfold isdigit. cbn. rewrite E. lia.
Qed.

Lemma pretty_N_char_digit (x : N) : (x < 10)%N -> Ascii.byte_of_ascii (pretty_N_char x) = digit_char (Z.of_N x).
Proof.
  intros H. assert (In x (map N.of_nat (seq 0 10))) as Hin.
  { apply in_map_iff. exists (N.to_nat x). split; [lia|]. apply in_seq. lia. }
  simpl in Hin. by repeat (destruct Hin as [<-|Hin]; [vm_compute; done|]).
Qed.

Lemma pretty_N_go_digits (x : N) s : (0 < x)%N ->
  exists ds, lit (pretty_N_go x s) = ds ++ lit s /\ forallb isdigit ds = true /\ ds <> [] /\ parse_digits ds 0 = Z.of_N x.
Proof.
  revert s. induction (N.lt_wf_0 x) as [x _ IH]; intros s Hx. rewrite pretty_N_go_step by done.
  pose proof (N.div_mod x 10 ltac:(done)) as Hdm. pose proof (N.mod_lt x 10 ltac:(done)) as Hm.
  pose proof (N.div_lt x 10 Hx ltac:(done)) as Hlt.
  revert Hdm Hm Hlt. generalize (x / 10)%N (x mod 10)%N. intros q r Hdm Hm Hlt.
  destruct (isdigit_digit_char (Z.of_N r)) as [Hd Hz]; [lia|].
  destruct (decide (q = 0%N)) as [->|E].
  - rewrite pretty_N_go_0. exists [digit_char (Z.of_N r)]. rewrite lit_cons, pretty_N_char_digit by done. simpl.
    rewrite Hd, isdigit_digit_of, Hz by done. repeat split; try done. lia.
  - destruct (IH q Hlt (String.String (pretty_N_char r) s) ltac:(lia)) as (ds & E1 & Hall & _ & Hv).
    assert (forallb isdigit (ds ++ [digit_char (Z.of_N r)]) = true) as Hall'.
    { rewrite forallb_app, Hall. simpl. by rewrite Hd. }
    exists (ds ++ [digit_char (Z.of_N r)]). repeat split; [|done|by destruct ds|].
    + by rewrite E1, lit_cons, pretty_N_char_digit, <- app_assoc.
    + rewrite parse_digits_snoc, Hv, Hz by done. lia.
Qed.

(** A printed number is a run of digits that reads back. *)
Lemma to_string_digits z : 0 <= z ->
  forallb isdigit (to_string z) = true /\ to_string z <> [] /\ parse_digits (to_string z) 0 = z.
Proof.
  intros Hz. unfold to_string. destruct (decide (z = 0)) as [->|Hn]; [by vm_compute|].
  unfold pretty, pretty_N. rewrite decide_False by lia.
  destruct (pretty_N_go_digits (Z.to_N z) String.EmptyString) as (ds & E & ? & ? & Hv); [lia|].
  rewrite E. cbn. rewrite app_nil_r. repeat split; try done. lia.
Qed.

Lemma to_string_head z : 0 <= z -> exists c ds, to_string z = c :: ds /\ isdigit c = true.
Proof.
  intros Hz. destruct (to_string_digits z Hz) as (H & Hne & _).
  destruct (to_string z) as [|c ds]; [done|]. exists c, ds. apply andb_true_iff in H as [? _]. done.
Qed.

Lemma isdigit_cases c : isdigit c = true -> is_space c = false /\ (bz c =? 45) = false /\ (bz c =? 43) = false.
Proof. unfold isdigit, is_space. cbn. lia. Qed.

Lemma from_chars_u64_to_string z : 0 <= z < 2 ^ 64 -> from_chars_u64 (to_string z) = Some z.
Proof.
  intros Hz. destruct (to_string_digits z ltac:(lia)) as (H & Hne & Hv). unfold from_chars_u64.
  rewrite bool_decide_eq_false_2 by done. rewrite H, Hv. simpl. by rewrite (proj2 (Z.ltb_lt _ _)) by lia.
Qed.

Lemma from_chars_i64_to_string z : int64 z -> from_chars_i64 (to_string_signed z) = Some z.
Proof.
  intros Hz. unfold from_chars_i64, to_string_signed. destruct (Z.ltb_spec z 0).
  - destruct (to_string_digits (- z) ltac:(lia)) as (H1 & Hne & Hv). cbn [bz Z.eqb].
    change (bz Byte.x2d =? 45) with true. cbn iota. rewrite bool_decide_eq_false_2 by done.
    rewrite H1, Hv, Z.opp_involutive. simpl. by rewrite bool_decide_eq_true_2.
  - destruct (to_string_digits z ltac:(lia)) as (H1 & Hne & Hv).
    destruct (to_string_head z ltac:(lia)) as (c & ds & E & Hc). rewrite E in *.
    rewrite (proj1 (proj2 (isdigit_cases c Hc))). rewrite bool_decide_eq_false_2 by done.
    rewrite H1, Hv. simpl. by rewrite bool_decide_eq_true_2.
Qed.

(** [stoll] reads a printed number back, whole. *)
Lemma stoll_to_string z : int64 z -> stoll (to_string_signed z) = Some (z, length (to_string_signed z)).
Proof.
  intros Hz. unfold stoll, to_string_signed. destruct (Z.ltb_spec z 0).
  - destruct (to_string_digits (- z) ltac:(lia)) as (H1 & Hne & Hv).
    replace (skip_space (Byte.x2d :: to_string (- z))) with (Byte.x2d :: to_string (- z)) by done.
    change (bz Byte.x2d =? 45) with true. cbn iota. rewrite span_all by done. cbn iota.
    rewrite bool_decide_eq_false_2 by done. rewrite Hv, Z.opp_involutive. rewrite bool_decide_eq_true_2 by done.
    simpl. do 2 f_equal; lia.
  - destruct (to_string_digits z ltac:(lia)) as (H1 & Hne & Hv).
    destruct (to_string_head z ltac:(lia)) as (c & ds & E & Hc). rewrite E in *.
    destruct (isdigit_cases c Hc) as (Hs & H45 & H43).
    replace (skip_space (c :: ds)) with (c :: ds) by (simpl; by rewrite Hs).
    rewrite H45, H43, span_all by done. rewrite bool_decide_eq_false_2, Hv, bool_decide_eq_true_2 by done.
    do 2 f_equal; simpl; lia.
Qed.
