(* ===== verification/SqlLexer.v ===== *)
(** The SQL lexer (class [Lexer] of src/reldb/sql_parser.cpp): tokens are produced
    one at a time from the text that is left; a text that is no token gives an end
    token that carries a message. *)
From S2P Require Import Prelude Status Env Version Types Expr SqlAst Text.

Delimit Scope byte_scope with byte.

(** * Tokens *)

(** The constructors of [enum class TokenKind], [kBegin] being [TBegin] and so on. *)
Inductive TokenKind : Set :=
  | TEof | TIdent | TInteger | TString | TBegin | TCommit | TAbort | TRollback | TTransaction | TCreate | TDrop
  | TAlter | TAdd | TColumn | TDefault | TTable | TIf | TExists | TInsert | TInto | TValues | TSelect | TFrom
  | TWhere | TOrder | TBy | TLimit | TAsc | TDesc | TUpdate | TSet | TDelete | TPrimary | TKey | TAnd | TOr | TNot
  | TTrue | TFalse | TNull | TTypeInt | TTypeInteger | TTypeText | TTypeString | TTypeBool | TTypeBoolean | TInner
  | TJoin | TOn | TLeft | TRight | TFull | TOuter | TCross | TGroup | THaving | TUnion | TIntersect | TExcept
  | TDistinct | TAs | TCount | TSum | TAvg | TMin | TMax | TLParen | TRParen | TComma | TSemicolon | TStar | TEq
  | TNe | TLt | TLe | TGt | TGe | TDot.

#[global] Instance TokenKind_eq_decision : EqDecision TokenKind.
Proof. solve_decision. Defined.

Record Token := mkToken { tk_kind : TokenKind; tk_text : bytes; tk_int_val : Z; tk_pos : nat }.

Definition TokenKindName (k : TokenKind) : bytes :=
  match k with
  | TEof => lit "end of input" | TIdent => lit "identifier" | TInteger => lit "integer" | TString => lit "string"
  | TBegin => lit "BEGIN" | TCommit => lit "COMMIT" | TAbort => lit "ABORT" | TRollback => lit "ROLLBACK"
  | TTransaction => lit "TRANSACTION" | TCreate => lit "CREATE" | TDrop => lit "DROP" | TAlter => lit "ALTER"
  | TAdd => lit "ADD" | TColumn => lit "COLUMN" | TDefault => lit "DEFAULT" | TTable => lit "TABLE" | TIf => lit "IF"
  | TExists => lit "EXISTS" | TInsert => lit "INSERT" | TInto => lit "INTO" | TValues => lit "VALUES"
  | TSelect => lit "SELECT" | TFrom => lit "FROM" | TWhere => lit "WHERE" | TOrder => lit "ORDER" | TBy => lit "BY"
  | TLimit => lit "LIMIT" | TAsc => lit "ASC" | TDesc => lit "DESC" | TUpdate => lit "UPDATE" | TSet => lit "SET"
  | TDelete => lit "DELETE" | TPrimary => lit "PRIMARY" | TKey => lit "KEY" | TAnd => lit "AND" | TOr => lit "OR"
  | TNot => lit "NOT" | TTrue => lit "TRUE" | TFalse => lit "FALSE" | TNull => lit "NULL" | TTypeInt => lit "INT"
  | TTypeInteger => lit "INTEGER" | TTypeText => lit "TEXT" | TTypeString => lit "STRING" | TTypeBool => lit "BOOL"
  | TTypeBoolean => lit "BOOLEAN" | TInner => lit "INNER" | TJoin => lit "JOIN" | TOn => lit "ON"
  | TLeft => lit "LEFT" | TRight => lit "RIGHT" | TFull => lit "FULL" | TOuter => lit "OUTER" | TCross => lit "CROSS"
  | TGroup => lit "GROUP" | THaving => lit "HAVING" | TUnion => lit "UNION" | TIntersect => lit "INTERSECT"
  | TExcept => lit "EXCEPT" | TDistinct => lit "DISTINCT" | TAs => lit "AS" | TCount => lit "COUNT"
  | TSum => lit "SUM" | TAvg => lit "AVG" | TMin => lit "MIN" | TMax => lit "MAX" | TLParen => lit "("
  | TRParen => lit ")" | TComma => lit "," | TSemicolon => lit ";" | TStar => lit "*" | TEq => lit "="
  | TNe => lit "!=" | TLt => lit "<" | TLe => lit "<=" | TGt => lit ">" | TGe => lit ">=" | TDot => lit "."
  end.

(** [KeywordKind]: the first keyword the lowercase text equals. *)
Definition keywords : list (bytes * TokenKind) := [
  (lit "begin", TBegin); (lit "commit", TCommit); (lit "abort", TAbort); (lit "rollback", TRollback);
  (lit "transaction", TTransaction); (lit "create", TCreate); (lit "drop", TDrop); (lit "alter", TAlter);
  (lit "add", TAdd); (lit "column", TColumn); (lit "default", TDefault); (lit "table", TTable); (lit "if", TIf);
  (lit "exists", TExists); (lit "insert", TInsert); (lit "into", TInto); (lit "values", TValues);
  (lit "select", TSelect); (lit "from", TFrom); (lit "where", TWhere); (lit "order", TOrder); (lit "by", TBy);
  (lit "limit", TLimit); (lit "asc", TAsc); (lit "desc", TDesc); (lit "update", TUpdate); (lit "set", TSet);
  (lit "delete", TDelete); (lit "primary", TPrimary); (lit "key", TKey); (lit "and", TAnd); (lit "or", TOr);
  (lit "not", TNot); (lit "true", TTrue); (lit "false", TFalse); (lit "null", TNull); (lit "int", TTypeInt);
  (lit "integer", TTypeInteger); (lit "text", TTypeText); (lit "string", TTypeString); (lit "bool", TTypeBool);
  (lit "boolean", TTypeBoolean); (lit "inner", TInner); (lit "join", TJoin); (lit "on", TOn); (lit "left", TLeft);
  (lit "right", TRight); (lit "full", TFull); (lit "outer", TOuter); (lit "cross", TCross); (lit "group", TGroup);
  (lit "having", THaving); (lit "union", TUnion); (lit "intersect", TIntersect); (lit "except", TExcept);
  (lit "distinct", TDistinct); (lit "as", TAs); (lit "count", TCount); (lit "sum", TSum); (lit "avg", TAvg);
  (lit "min", TMin); (lit "max", TMax)].

Fixpoint find_keyword (lower : bytes) (l : list (bytes * TokenKind)) : TokenKind :=
  match l with
  | [] => TIdent
  | (w, k) :: l => if bool_decide (lower = w) then k else find_keyword lower l
  end.
Definition KeywordKind (lower : bytes) : TokenKind := find_keyword lower keywords.

(** * The lexer *)

(** What is left of the input, its offset, and the current token. *)
Record Lexer := mkLexer { lx_rest : bytes; lx_pos : nat; lx_cur : Token }.

(** A token with what is left after it. *)
Definition lexed : Type := Token * bytes * nat.

Definition SkipWhitespace (rest : bytes) (pos : nat) : bytes * nat :=
  let '(ws, rest') := span is_space rest in (rest', (pos + length ws)%nat).

(** The loop of [LexString], after the opening quote at [start]. *)
Fixpoint lex_string (start : nat) (rest : bytes) (pos : nat) (out : bytes) : lexed :=
  match rest with
  | [] => (mkToken TEof (lit "unterminated string literal") 0 start, [], pos)
  | c :: r =>
    if bool_decide (c = quote) then
      match r with
      | c' :: r' =>
        if bool_decide (c' = quote) then lex_string start r' (S (S pos)) (out ++ [quote])
        else (mkToken TString out 0 start, r, S pos)
      | [] => (mkToken TString out 0 start, r, S pos)
      end
    else lex_string start r (S pos) (out ++ [c])
  end.
Definition LexString (rest : bytes) (pos : nat) : lexed := lex_string pos (drop 1 rest) (S pos) [].

(** A number that does not fit becomes an identifier. *)
Definition LexInteger (rest : bytes) (pos : nat) : lexed :=
  let '(sign, r) := match rest with c :: r => if bool_decide (c = Byte.x2d) then ([c], r) else ([], rest) | [] => ([], rest) end in
  let '(ds, r') := span isdigit r in
  let text := sign ++ ds in
  let tok :=
    match stoll text with
    | Some (v, idx) =>
      if negb (idx =? length text)%nat then mkToken TIdent text v pos else mkToken TInteger text v pos
    | None => mkToken TIdent (lit "integer out of range") 0 pos
    end in
  (tok, r', (pos + length text)%nat).

Definition ident_char (c : byte) : bool := isalnum c || bool_decide (c = underscore).

Definition LexIdentOrKeyword (rest : bytes) (pos : nat) : lexed :=
  let '(text, r) := span ident_char rest in
  (mkToken (KeywordKind (map tolower text)) text 0 pos, r, (pos + length text)%nat).

Definition NextToken (rest0 : bytes) (pos0 : nat) : lexed :=
  let '(rest, pos) := SkipWhitespace rest0 pos0 in
  match rest with
  | [] => (mkToken TEof [] 0 pos, rest, pos)
  | c :: r =>
    let one k := (mkToken k [] 0 pos, r, S pos) in
    let two k := (mkToken k [] 0 pos, drop 1 r, S (S pos)) in
    let next_is b := bool_decide (head r = Some b) in
    match c with
    | "("%byte => one TLParen
    | ")"%byte => one TRParen
    | ","%byte => one TComma
    | ";"%byte => one TSemicolon
    | "*"%byte => one TStar
    | "."%byte => one TDot
    | "="%byte => one TEq
    | "!"%byte => if next_is "="%byte then two TNe else (mkToken TEof (lit "unexpected '!'") 0 pos, r, S pos)
    | "<"%byte => if next_is "="%byte then two TLe else if next_is ">"%byte then two TNe else one TLt
    | ">"%byte => if next_is "="%byte then two TGe else one TGt
    | "'"%byte => LexString rest pos
    | _ =>
      if isdigit c || (bool_decide (c = Byte.x2d) && match r with d :: _ => isdigit d | [] => false end) then LexInteger rest pos
      else if isalpha c || bool_decide (c = underscore) then LexIdentOrKeyword rest pos
      else (mkToken TEof (lit "unexpected character '" ++ [c] ++ lit "'") 0 pos, r, S pos)
    end
  end.

Definition Lexer_Advance (lx : Lexer) : Lexer :=
  let '(tok, rest, pos) := NextToken (lx_rest lx) (lx_pos lx) in mkLexer rest pos tok.
(** The constructor reads the first token. *)
Definition Lexer_new (input : bytes) : Lexer := Lexer_Advance (mkLexer input 0 (mkToken TEof [] 0 0)).

(** * Tokens consume input *)

Lemma drop_length_le {A} n (l : list A) : (length (drop n l) <= length l)%nat.
Proof. rewrite length_drop. lia. Qed.

Lemma lex_string_rest start rest pos out : (length (lex_string start rest pos out).1.2 <= length rest)%nat.
Proof.
  remember (length rest) as n eqn:Hn. revert rest pos out Hn. induction (lt_wf n) as [n _ IH]; intros rest pos out ->.
  destruct rest as [|c r]; simpl; [done|]. case_bool_decide; [|].
  - destruct r as [|c' r']; simpl; [lia|]. case_bool_decide; simpl; [|lia].
    etrans; [apply (IH (length r')); simpl; lia|]. lia.
  - etrans; [apply (IH (length r)); simpl; lia|]. lia.
Qed.

(** What a scanner leaves is shorter, if its first byte is one it takes. *)
Lemma span_cons_lt p c s : p c = true -> (length (span p (c :: s)).2 < length (c :: s))%nat.
Proof. intros H. simpl. rewrite H. pose proof (span_length p s). destruct (span p s). simpl in *. lia. Qed.

Lemma LexInteger_rest c r pos :
  isdigit c || (bool_decide (c = Byte.x2d) && match r with d :: _ => isdigit d | [] => false end) = true ->
  (length (LexInteger (c :: r) pos).1.2 < length (c :: r))%nat.
Proof.
  intros H. unfold LexInteger. case_bool_decide as E.
  - pose proof (span_length isdigit r). destruct (span isdigit r). simpl in *. lia.
  - rewrite orb_false_r in H. pose proof (span_cons_lt isdigit c r H). destruct (span isdigit (c :: r)). done.
Qed.

Lemma isalpha_ident_char c : isalpha c || bool_decide (c = underscore) = true -> ident_char c = true.
Proof. unfold ident_char, isalnum. intros [-> | ->]%orb_true_iff; by rewrite ?orb_true_r. Qed.

Lemma LexIdent_rest c r pos : ident_char c = true -> (length (LexIdentOrKeyword (c :: r) pos).1.2 < length (c :: r))%nat.
Proof. intros H. unfold LexIdentOrKeyword. pose proof (span_cons_lt ident_char c r H). destruct (span ident_char (c :: r)). done. Qed.

(** A token other than the end takes at least one byte. *)
Lemma NextToken_rest rest pos :
  tk_kind (NextToken rest pos).1.1 <> TEof -> (length (NextToken rest pos).1.2 < length rest)%nat.
Proof.
  unfold NextToken, SkipWhitespace. pose proof (span_length is_space rest) as Hs.
  destruct (span is_space rest) as [ws r0]. cbn [snd] in Hs. destruct r0 as [|c r]; [done|]. intros Hk.
  pose proof (drop_length_le 1 r). pose proof (lex_string_rest (pos + length ws) r (S (pos + length ws)) []) as Hstr.
  pose proof (LexInteger_rest c r (pos + length ws)) as Hint. pose proof (LexIdent_rest c r (pos + length ws)) as Hid.
  pose proof (isalpha_ident_char c) as Hic. cbn [length] in *.
  repeat case_match; subst; cbn [fst snd tk_kind length] in *; try done; try lia.
  all: try (specialize (Hint ltac:(done)); lia).
  all: try (specialize (Hid (Hic ltac:(done))); lia).
  all: unfold LexString; cbn [drop]; lia.
Qed.
