(* ===== verification/SqlParser.v ===== *)
(** The SQL parser (class [Parser] of src/reldb/sql_parser.cpp and
    include/reldb/sql_parser.h): recursive descent over the lexer, one definition
    per method.

    Loops and recursion take [fuel]; [Stuck] stands for its exhaustion and nothing
    else, and the entry points give more fuel than the text has bytes. *)
From S2P Require Import Prelude Status Env Version Types Schema BindContext Expr SqlAst Text SqlLexer.

Record Parser := mkParser { lex_ : Lexer; having_context_ : bool }.
Definition ParserM : Type -> Type := SM Parser.

(** * The lexer's interface *)

Definition current : ParserM Token := gets (fun p => lx_cur (lex_ p)).
Definition current_kind : ParserM TokenKind := gets (fun p => tk_kind (lx_cur (lex_ p))).
Definition Advance : ParserM unit := modify (fun p => mkParser (Lexer_Advance (lex_ p)) (having_context_ p)).
Definition Check_ (k : TokenKind) : ParserM bool := gets (fun p => bool_decide (tk_kind (lx_cur (lex_ p)) = k)).
Definition Match_ (k : TokenKind) : ParserM bool :=
  b ← Check_ k;
  if b : bool then Advance ;; mret true else mret false.

(** [Lexer::Error] *)
Definition Error {A} (msg : bytes) : ParserM A :=
  t ← current;
  fail (InvalidArgument (lit "SQL parse error at offset " ++ to_string (Z.of_nat (tk_pos t)) ++ lit ": " ++ msg)).
Definition ErrorGot {A} (msg : bytes) : ParserM A := k ← current_kind; Error (msg ++ TokenKindName k).

Definition Expect (k : TokenKind) (what : bytes) : ParserM unit :=
  b ← Check_ k;
  if b : bool then Advance else ErrorGot (lit "expected " ++ what ++ lit ", got ").

(** * Names and literals *)

Definition ParseIdent : ParserM bytes :=
  t ← current;
  if bool_decide (tk_kind t = TIdent) then Advance ;; mret (tk_text t)
  else ErrorGot (lit "expected identifier, got ").

(** [name] or [qualifier.name] *)
Definition ParseColumnRef : ParserM bytes :=
  out ← ParseIdent;
  b ← Match_ TDot;
  if b : bool then field ← ParseIdent; mret (out ++ [dot] ++ field) else mret out.

Definition ParseColumnType : ParserM ColumnType :=
  k ← current_kind;
  match k with
  | TTypeInt | TTypeInteger => Advance ;; mret kInt64
  | TTypeText | TTypeString => Advance ;; mret kString
  | TTypeBool | TTypeBoolean => Advance ;; mret kBool
  | _ => Error (lit "expected column type (INT, TEXT, BOOL, …)")
  end.

(** An end token that carries a message reports it. *)
Definition ErrorEof {A} (msg : bytes) : ParserM A :=
  t ← current;
  if bool_decide (tk_text t = []) then Error msg else Error (tk_text t).

Definition ParseLiteralValue : ParserM Value :=
  t ← current;
  match tk_kind t with
  | TInteger => Advance ;; mret (VInt64 (tk_int_val t))
  | TString => Advance ;; mret (VString (tk_text t))
  | TTrue => Advance ;; mret (VBool true)
  | TFalse => Advance ;; mret (VBool false)
  | TNull => Advance ;; mret VNull
  | TEof => ErrorEof (lit "expected literal")
  | _ => ErrorGot (lit "expected literal, got ")
  end.

(** * Expressions *)

Definition IsAggFunc (k : TokenKind) : bool :=
  match k with TCount | TSum | TAvg | TMin | TMax => true | _ => false end.
Definition TokenToAggFunc (k : TokenKind) : AggFunc :=
  match k with TCount => kCount | TSum => kSum | TAvg => kAvg | TMin => kMin | TMax => kMax | _ => kCount end.

(** [agg_func '(' ( '*' | column_ref ) ')'], from the function on: the function,
    whether its argument is a star, and its column. *)
Definition ParseAggCall : ParserM (AggFunc * bool * bytes) :=
  func_tok ← current_kind;
  Advance ;;
  Expect TLParen (lit "'('") ;;
  star ← Match_ TStar;
  arg ← (if star : bool then
           if negb (bool_decide (func_tok = TCount))
           then Error (lit "only COUNT(*) is allowed; use a column for other aggregates")
           else mret []
         else ParseColumnRef);
  Expect TRParen (lit "')'") ;;
  mret (TokenToAggFunc func_tok, star, arg).

Definition MatchCmpOp : ParserM (option CmpOp) :=
  k ← current_kind;
  match k with
  | TEq => Advance ;; mret (Some kEq)
  | TNe => Advance ;; mret (Some kNe)
  | TLt => Advance ;; mret (Some kLt)
  | TLe => Advance ;; mret (Some kLe)
  | TGt => Advance ;; mret (Some kGt)
  | TGe => Advance ;; mret (Some kGe)
  | _ => mret None
  end.

Definition out_of_fuel {A} : ParserM A := lift Stuck.

Section Expressions.
Context (ParseExpr_ : ParserM Expr).

Definition ParsePrimary : ParserM Expr :=
  b ← Match_ TLParen;
  if b : bool then e ← ParseExpr_; Expect TRParen (lit "')'") ;; mret e
  else
    having ← gets having_context_;
    k ← current_kind;
    if (having : bool) && IsAggFunc k then
      '(func, star, col) ← ParseAggCall; mret (mkColumn (DefaultAggResultName func star col))
    else
      match k with
      | TInteger | TString | TTrue | TFalse | TNull => v ← ParseLiteralValue; mret (Literal v)
      | TIdent => name ← ParseColumnRef; mret (mkColumn name)
      | TEof => ErrorEof (lit "expected expression")
      | _ => ErrorGot (lit "expected expression, got ")
      end.

Definition ParseCmp : ParserM Expr :=
  left ← ParsePrimary;
  op ← MatchCmpOp;
  match op with
  | None => mret left
  | Some op => right ← ParsePrimary; mret (Compare op left right)
  end.

Fixpoint ParseNot (fuel : nat) : ParserM Expr :=
  match fuel with
  | O => out_of_fuel
  | S fuel =>
    b ← Match_ TNot;
    if b : bool then child ← ParseNot fuel; mret (Not child) else ParseCmp
  end.

(** [while (lex_.Match(TokenKind::kAnd))] *)
Fixpoint and_loop (fuel : nat) (left : Expr) : ParserM Expr :=
  match fuel with
  | O => out_of_fuel
  | S fuel' =>
    b ← Match_ TAnd;
    if b : bool then right ← ParseNot fuel'; and_loop fuel' (And left right) else mret left
  end.
Definition ParseAnd (fuel : nat) : ParserM Expr := left ← ParseNot fuel; and_loop fuel left.

Fixpoint or_loop (fuel : nat) (left : Expr) : ParserM Expr :=
  match fuel with
  | O => out_of_fuel
  | S fuel' =>
    b ← Match_ TOr;
    if b : bool then right ← ParseAnd fuel'; or_loop fuel' (Or left right) else mret left
  end.
Definition ParseOr (fuel : nat) : ParserM Expr := left ← ParseAnd fuel; or_loop fuel left.
End Expressions.

(** [ParseExpr] is [ParseOr]; parentheses call it again. *)
Fixpoint ParseExpr (fuel : nat) : ParserM Expr :=
  match fuel with
  | O => out_of_fuel
  | S fuel' => ParseOr (ParseExpr fuel') fuel
  end.

(** * Lists *)

(** [for (;;) { item; push_back; if (Match(kComma)) continue; break; }] *)
Fixpoint comma_list {A} (fuel : nat) (item : ParserM A) : ParserM (list A) :=
  match fuel with
  | O => out_of_fuel
  | S fuel =>
    x ← item;
    b ← Match_ TComma;
    if b : bool then xs ← comma_list fuel item; mret (x :: xs) else mret [x]
  end.

Definition error_if {A} (c : bool) (msg : bytes) (m : ParserM A) : ParserM A := if c then Error msg else m.

(** * Statements *)

Definition ParseBegin : ParserM Statement := Advance ;; Match_ TTransaction ;; mret BeginStmt.
Definition ParseCommit : ParserM Statement := Advance ;; Match_ TTransaction ;; mret CommitStmt.
Definition ParseAbort : ParserM Statement := Advance ;; Match_ TTransaction ;; mret AbortStmt.

Definition parse_column_def : ParserM ColumnDefAst :=
  name ← ParseIdent;
  ty ← ParseColumnType;
  pk ← Match_ TPrimary;
  (if pk : bool then Expect TKey (lit "KEY") else mret tt) ;;
  mret (mkColumnDefAst name ty pk).

Definition pk_count (cols : list ColumnDefAst) : nat := length (List.filter cda_primary_key cols).

Definition ParseDropTable : ParserM Statement :=
  Advance ;;
  Expect TTable (lit "TABLE") ;;
  if_exists ← Match_ TIf;
  (if if_exists : bool then Expect TExists (lit "EXISTS") else mret tt) ;;
  name ← ParseIdent;
  mret (DropTableStmt name if_exists).

Definition ParseAlterTable : ParserM Statement :=
  Advance ;;
  Expect TTable (lit "TABLE") ;;
  table ← ParseIdent;
  add ← Match_ TAdd;
  if add : bool then
    Expect TColumn (lit "COLUMN") ;;
    name ← ParseIdent;
    ty ← ParseColumnType;
    pk ← Match_ TPrimary;
    error_if pk (lit "ALTER ADD COLUMN cannot add a PRIMARY KEY")
      (Expect TDefault (lit "DEFAULT") ;;
       v ← ParseLiteralValue;
       mret (AlterTableAddColumnStmt table (mkColumnDefAst name ty false) v))
  else
    drop_ ← Match_ TDrop;
    if drop_ : bool then
      Expect TColumn (lit "COLUMN") ;;
      column ← ParseIdent;
      mret (AlterTableDropColumnStmt table column)
    else ErrorGot (lit "expected ADD or DROP after ALTER TABLE, got ").

(** [name [ [ AS ] alias ]] *)
Definition ParseFromItem : ParserM FromItem :=
  table ← ParseIdent;
  as_ ← Match_ TAs;
  if as_ : bool then alias ← ParseIdent; mret (mkFromItem table alias)
  else
    bare ← Check_ TIdent;
    if bare : bool then alias ← ParseIdent; mret (mkFromItem table alias)
    else mret (mkFromItem table []).

(** The optional [AS name] of a select item. *)
Definition parse_alias : ParserM bytes := b ← Match_ TAs; if b : bool then ParseIdent else mret [].

Section Statements.
Context (fuel : nat).

Definition ParseCreateTable : ParserM Statement :=
  Advance ;;
  Expect TTable (lit "TABLE") ;;
  name ← ParseIdent;
  Expect TLParen (lit "'('") ;;
  columns ← comma_list fuel parse_column_def;
  Expect TRParen (lit "')'") ;;
  error_if (negb (pk_count columns =? 1)%nat) (lit "CREATE TABLE requires exactly one PRIMARY KEY column")
    (mret (CreateTableStmt name columns)).

Definition ParseInsert : ParserM Statement :=
  Advance ;;
  Expect TInto (lit "INTO") ;;
  table ← ParseIdent;
  b ← Match_ TLParen;
  names ← (if b : bool then ns ← comma_list fuel ParseIdent; Expect TRParen (lit "')'") ;; mret ns else mret []);
  Expect TValues (lit "VALUES") ;;
  Expect TLParen (lit "'('") ;;
  values ← comma_list fuel ParseLiteralValue;
  Expect TRParen (lit "')'") ;;
  comma ← Check_ TComma;
  error_if comma (lit "multi-row INSERT is not supported")
    (error_if (negb (bool_decide (names = [])) && negb (length names =? length values)%nat)
       (lit "INSERT column count does not match VALUES count")
       (mret (InsertStmt table names values))).

Definition ParseSelectItem : ParserM SelectItem :=
  k ← current_kind;
  if IsAggFunc k then
    '(func, star, col) ← ParseAggCall;
    alias ← parse_alias;
    mret (mkSelectItem (kAggItem func star col) alias [])
  else
    e ← ParseExpr fuel;
    alias ← parse_alias;
    mret (mkSelectItem (sel_kind (MakeExprSelectItem e)) alias []).

(** A star after the first item is refused. *)
Definition parse_select_item : ParserM SelectItem :=
  star ← Check_ TStar;
  error_if star (lit "cannot mix * with other select items") ParseSelectItem.

(** [( INNER JOIN from_item ON expr )*] *)
Fixpoint join_loop (n : nat) : ParserM (list JoinClause) :=
  match n with
  | O => out_of_fuel
  | S n =>
    k ← current_kind;
    match k with
    | TComma => Error (lit "comma joins are not supported; use INNER JOIN")
    | TLeft | TRight | TFull | TCross | TOuter => Error (lit "only INNER JOIN is supported")
    | TJoin => Error (lit "use INNER JOIN … ON …")
    | TInner =>
      Advance ;;
      Expect TJoin (lit "JOIN") ;;
      right ← ParseFromItem;
      on ← Match_ TOn;
      error_if (negb on) (lit "INNER JOIN requires ON (USING/NATURAL not supported)")
        (cond ← ParseExpr fuel;
         joins ← join_loop n;
         mret (mkJoinClause right cond :: joins))
    | _ => mret []
    end
  end.

Definition ParseFromClause : ParserM FromClause :=
  base ← ParseFromItem;
  joins ← join_loop fuel;
  mret (mkFromClause base joins).

(** [if (Match(k)) ParseExpr(...)] *)
Definition opt_expr (k : TokenKind) : ParserM (option Expr) :=
  b ← Match_ k;
  if b : bool then e ← ParseExpr fuel; mret (Some e) else mret None.

Definition set_having (b : bool) : ParserM unit := modify (fun p => mkParser (lex_ p) b).

Definition parse_having : ParserM (option Expr) :=
  b ← Match_ THaving;
  if b : bool then
    set_having true ;;
    st ← try (ParseExpr fuel);
    set_having false ;;
    match st with inl e => fail e | inr e => mret (Some e) end
  else mret None.

Definition parse_order_item : ParserM OrderByItem :=
  name ← ParseColumnRef;
  desc ← Match_ TDesc;
  if desc : bool then mret (mkOrderByItem name false)
  else Match_ TAsc ;; mret (mkOrderByItem name true).

Definition parse_group_by : ParserM (list bytes) :=
  b ← Match_ TGroup;
  if b : bool then
    Expect TBy (lit "BY") ;;
    cols ← comma_list fuel ParseColumnRef;
    error_if (bool_decide (cols = [])) (lit "empty GROUP BY list") (mret cols)
  else mret [].

Definition parse_order_by : ParserM (list OrderByItem) :=
  b ← Match_ TOrder;
  if b : bool then Expect TBy (lit "BY") ;; comma_list fuel parse_order_item else mret [].

(** Whether there is a limit, and the limit. *)
Definition parse_limit : ParserM (bool * Z) :=
  b ← Match_ TLimit;
  if b : bool then
    t ← current;
    error_if (negb (bool_decide (tk_kind t = TInteger))) (lit "LIMIT requires an integer")
      (error_if (tk_int_val t <? 0) (lit "LIMIT must be non-negative")
         (Advance ;; mret (true, tk_int_val t)))
  else mret (false, 0).

Definition parse_select_list : ParserM (bool * list SelectItem) :=
  star ← Match_ TStar;
  if star : bool then mret (true, [])
  else
    items ← comma_list fuel parse_select_item;
    error_if (bool_decide (length items = 0%nat)) (lit "empty SELECT list") (mret (false, items)).

Definition ParseSelect : ParserM Statement :=
  Advance ;;
  distinct ← Check_ TDistinct;
  error_if distinct (lit "SELECT DISTINCT is not supported")
    ('(star, items) ← parse_select_list;
     Expect TFrom (lit "FROM") ;;
     sub ← Check_ TLParen;
     error_if sub (lit "subqueries are not supported")
       (from ← ParseFromClause;
        where_ ← opt_expr TWhere;
        group ← parse_group_by;
        having ← parse_having;
        order ← parse_order_by;
        '(has_lim, lim) ← parse_limit;
        k ← current_kind;
        error_if (match k with TUnion | TIntersect | TExcept => true | _ => false end)
          (lit "set operations are not supported")
          (mret (Select (mkSelectStmt star items from where_ group having order has_lim lim))))).

Definition parse_assignment : ParserM AssignmentAst :=
  name ← ParseIdent;
  Expect TEq (lit "'='") ;;
  e ← ParseExpr fuel;
  mret (mkAssignmentAst name e).

Definition ParseUpdate : ParserM Statement :=
  Advance ;;
  table ← ParseIdent;
  Expect TSet (lit "SET") ;;
  sets ← comma_list fuel parse_assignment;
  error_if (bool_decide (length sets = 0%nat)) (lit "UPDATE requires at least one assignment")
    (where_ ← opt_expr TWhere;
     mret (UpdateStmt table sets where_)).

Definition ParseDelete : ParserM Statement :=
  Advance ;;
  Expect TFrom (lit "FROM") ;;
  table ← ParseIdent;
  where_ ← opt_expr TWhere;
  mret (DeleteStmt table where_).

Definition RejectUnsupportedStatementStart : ParserM unit :=
  k ← current_kind;
  match k with
  | TJoin => Error (lit "JOIN is not supported")
  | TGroup => Error (lit "GROUP BY is not supported")
  | THaving => Error (lit "HAVING is not supported")
  | TUnion => Error (lit "UNION is not supported")
  | TIntersect => Error (lit "INTERSECT is not supported")
  | TExcept => Error (lit "EXCEPT is not supported")
  | TDistinct => Error (lit "DISTINCT is not supported")
  | _ => mret tt
  end.

Definition ParseOne : ParserM Statement :=
  RejectUnsupportedStatementStart ;;
  k ← current_kind;
  match k with
  | TBegin => ParseBegin
  | TCommit => ParseCommit
  | TAbort | TRollback => ParseAbort
  | TCreate => ParseCreateTable
  | TDrop => ParseDropTable
  | TAlter => ParseAlterTable
  | TInsert => ParseInsert
  | TSelect => ParseSelect
  | TUpdate => ParseUpdate
  | TDelete => ParseDelete
  | TEof => Error (lit "empty statement")
  | _ => Error (lit "unexpected token " ++ TokenKindName k ++ lit " at start of statement")
  end.

(** The loop of [ParseScript]. *)
Fixpoint script_loop (n : nat) (out : list Statement) : ParserM (list Statement) :=
  match n with
  | O => out_of_fuel
  | S n =>
    eof ← Check_ TEof;
    if eof : bool then mret out
    else
      semi ← Match_ TSemicolon;
      if semi : bool then script_loop n out
      else
        stmt ← ParseOne;
        eof ← Check_ TEof;
        if eof : bool then mret (out ++ [stmt])
        else
          semi ← Match_ TSemicolon;
          if semi : bool then script_loop n (out ++ [stmt])
          else ErrorGot (lit "expected ';' between statements, got ")
  end.

(** [while (lex_.Match(TokenKind::kSemicolon)) {}] *)
Fixpoint skip_semicolons (n : nat) : ParserM unit :=
  match n with
  | O => out_of_fuel
  | S n => b ← Match_ TSemicolon; if b : bool then skip_semicolons n else mret tt
  end.

Definition ParseOneStatement : ParserM Statement :=
  skip_semicolons fuel ;;
  eof ← Check_ TEof;
  if eof : bool then Error (lit "empty statement")
  else
    stmt ← ParseOne;
    Match_ TSemicolon ;;
    eof ← Check_ TEof;
    if eof : bool then mret stmt else ErrorGot (lit "unexpected trailing token ").
End Statements.

(** * Entry points *)

Definition Parser_new (sql : bytes) : Parser := mkParser (Lexer_new sql) false.
Definition parse_fuel (sql : bytes) : nat := S (S (length sql)).

Definition ParseScript (sql : bytes) : Res (list Statement) :=
  (script_loop (parse_fuel sql) (parse_fuel sql) [] (Parser_new sql)).1.
Definition ParseStatement (sql : bytes) : Res Statement :=
  (ParseOneStatement (parse_fuel sql) (Parser_new sql)).1.
