(* ===== verification/SqlTotal.v ===== *)
(** The parser always returns: every loop and every recursive call of the
    recursive descent is preceded by a token, tokens are not empty, and the parser
    never reads past the end of its input. *)
From S2P Require Import Prelude Status Env Version Types Schema BindContext Expr SqlAst Text SqlLexer SqlParser.

(** * The measure *)

(** Nothing is left at the end token; otherwise the current token and the rest of the text. *)
Definition lx_size (lx : Lexer) : nat := if bool_decide (tk_kind (lx_cur lx) = TEof) then 0 else S (length (lx_rest lx)).
Definition psize (p : Parser) : nat := lx_size (lex_ p).

Lemma lx_size_Advance lx : (lx_size (Lexer_Advance lx) <= length (lx_rest lx))%nat.
Proof.
  unfold lx_size, Lexer_Advance. pose proof (NextToken_rest (lx_rest lx) (lx_pos lx)) as H.
  destruct (NextToken (lx_rest lx) (lx_pos lx)) as [[tok rest] pos]. simpl in *. case_bool_decide; [lia|]. by apply H.
Qed.

Definition kind_of (p : Parser) : TokenKind := tk_kind (lx_cur (lex_ p)).

(** The state after a token. *)
Definition adv (p : Parser) : Parser := mkParser (Lexer_Advance (lex_ p)) (having_context_ p).

Lemma psize_adv p : kind_of p <> TEof -> (psize (adv p) < psize p)%nat.
Proof.
  intros H. unfold psize at 2, lx_size. rewrite bool_decide_eq_false_2 by done.
  pose proof (lx_size_Advance (lex_ p)). unfold psize. simpl. lia.
Qed.

(** The lexer's interface, as equations. *)
Lemma Match_eq k p : Match_ k p = if bool_decide (kind_of p = k) then (Ret true, adv p) else (Ret false, p).
Proof. unfold Match_, mbind, SM_bind, Check_, gets. by destruct (bool_decide _). Qed.

Lemma Expect_eq k what p :
  Expect k what p = if bool_decide (kind_of p = k) then (Ret tt, adv p) else ErrorGot (lit "expected " ++ what ++ lit ", got ") p.
Proof. unfold Expect, mbind, SM_bind, Check_, gets. by destruct (bool_decide _). Qed.

Lemma bind_eq {A B} (m : ParserM A) (f : A -> ParserM B) p :
  (m ≫= f) p = match m p with (Ret a, p') => f a p' | (Fail e, p') => (Fail e, p') | (Stuck, p') => (Stuck, p') end.
Proof. done. Qed.

(** A run that does not exhaust its fuel and leaves no more input than it found,
    less when [strict]. *)
Definition good_run {A} (strict : bool) (p : Parser) (out : Res A * Parser) : Prop :=
  match out with
  | (Ret _, p') => if strict then (psize p' < psize p)%nat else (psize p' <= psize p)%nat
  | (Fail _, _) => True
  | (Stuck, _) => False
  end.

(** From every state of at most [n]; and from those that stand on a token of kind [k]. *)
Definition good {A} (n : nat) (strict : bool) (m : ParserM A) : Prop :=
  forall p, (psize p <= n)%nat -> good_run strict p (m p).
Definition good_at {A} (k : TokenKind) (n : nat) (strict : bool) (m : ParserM A) : Prop :=
  forall p, kind_of p = k -> (psize p <= n)%nat -> good_run strict p (m p).

Lemma good_good_at {A} k n b (m : ParserM A) : good n b m -> good_at k n b m.
Proof. intros H p _. apply H. Qed.

Lemma good_mono {A} n n' b (m : ParserM A) : good n b m -> (n' <= n)%nat -> good n' b m.
Proof. intros H Hn p Hp. apply H. lia. Qed.

Lemma good_lax {A} n b (m : ParserM A) : good n b m -> good n false m.
Proof. intros H p Hp. specialize (H p Hp). unfold good_run in *. destruct (m p) as [[]]; destruct b; lia. Qed.

Lemma good_ret {A} n (a : A) : good n false (mret a).
Proof. intros p _. simpl. lia. Qed.

Lemma good_fail {A} n b e : good n b (fail (A:=A) e).
Proof. done. Qed.

Lemma good_Error {A} n b msg : good n b (Error (A:=A) msg).
Proof. done. Qed.

Lemma good_ErrorGot {A} n b msg : good n b (ErrorGot (A:=A) msg).
Proof. done. Qed.

Lemma good_ErrorEof {A} n b msg : good n b (ErrorEof (A:=A) msg).
Proof. intros p _. unfold ErrorEof, mbind, SM_bind, current, gets. by case_bool_decide. Qed.

Lemma good_error_if {A} n b c msg (m : ParserM A) : good n b m -> good n b (error_if c msg m).
Proof. intros H. destruct c; simpl; [apply good_Error|done]. Qed.

(** Sequencing; after a strict call the rest has less to read. *)
Lemma good_seq {A B} n b (m : ParserM A) (f : A -> ParserM B) :
  good n false m -> (forall a, good n b (f a)) -> good n b (m ≫= f).
Proof.
  intros Hm Hf p Hp. specialize (Hm p Hp). rewrite bind_eq. unfold good_run in *.
  destruct (m p) as [[a|e|] p']; try done. specialize (Hf a p' ltac:(lia)). unfold good_run in Hf.
  destruct (f a p') as [[]]; destruct b; try done; lia.
Qed.

Lemma good_seq_strict {A B} n b (m : ParserM A) (f : A -> ParserM B) :
  good n true m -> (n <> 0%nat -> forall a, good (n - 1) false (f a)) -> good n b (m ≫= f).
Proof.
  intros Hm Hf p Hp. specialize (Hm p Hp). rewrite bind_eq. unfold good_run in *.
  destruct (m p) as [[a|e|] p']; try done. specialize (Hf ltac:(lia) a p' ltac:(lia)). unfold good_run in Hf.
  destruct (f a p') as [[]]; destruct b; simpl; try done; lia.
Qed.

Lemma good_kind {A} n b (f : TokenKind -> ParserM A) : (forall k, good_at k n b (f k)) -> good n b (current_kind ≫= f).
Proof. intros H p Hp. by apply (H (kind_of p)). Qed.

Lemma good_at_kind {A} k n b (f : TokenKind -> ParserM A) : good_at k n b (f k) -> good_at k n b (current_kind ≫= f).
Proof. intros H p Hp Hn. rewrite bind_eq. cbn [current_kind gets]. fold (kind_of p). rewrite Hp. by apply H. Qed.

Lemma good_gets {A B} n b (g : Parser -> A) (f : A -> ParserM B) : (forall a, good n b (f a)) -> good n b (gets g ≫= f).
Proof. intros H p Hp. by apply (H (g p)). Qed.

Lemma good_at_Advance {B} k n b (f : unit -> ParserM B) :
  k <> TEof -> (n <> 0%nat -> good (n - 1) false (f tt)) -> good_at k n b (Advance ≫= f).
Proof.
  intros Hk Hf p Hp Hn. change ((Advance ≫= f) p) with (f tt (adv p)).
  pose proof (psize_adv p ltac:(congruence)) as Hlt. specialize (Hf ltac:(lia) (adv p) ltac:(lia)).
  unfold good_run in *. destruct (f tt (adv p)) as [[]]; destruct b; try done; lia.
Qed.

Lemma good_Match {A} n b k (t e : ParserM A) :
  k <> TEof -> (n <> 0%nat -> good (n - 1) false t) -> good n b e -> good n b (c ← Match_ k; if (c : bool) then t else e).
Proof.
  intros Hk Ht He p Hp. rewrite bind_eq, Match_eq. case_bool_decide as E; [|by apply He].
  pose proof (psize_adv p ltac:(congruence)) as Hlt. specialize (Ht ltac:(lia) (adv p) ltac:(lia)).
  unfold good_run in *. destruct (t (adv p)) as [[]]; destruct b; try done; lia.
Qed.

Lemma good_Expect n k what : k <> TEof -> good n true (Expect k what).
Proof.
  intros Hk p Hp. rewrite Expect_eq. case_bool_decide as E; [|done]. apply psize_adv. congruence.
Qed.

(** An optional token. *)
Lemma good_Match_opt {B} n b k (f : bool -> ParserM B) :
  k <> TEof -> (forall c, good n b (f c)) -> good n b (Match_ k ≫= f).
Proof.
  intros Hk Hf p Hp. rewrite bind_eq, Match_eq. case_bool_decide as E; [|by apply Hf].
  pose proof (psize_adv p ltac:(congruence)) as Hlt. specialize (Hf true (adv p) ltac:(lia)).
  unfold good_run in *. destruct (f true (adv p)) as [[]]; destruct b; try done; lia.
Qed.

Create HintDb parse.
#[export] Hint Resolve good_ret good_fail good_Error good_ErrorGot good_ErrorEof good_Expect : parse.

(** One step through a method: tokens are strict, everything else is sequencing. *)
Ltac good_step :=
  lazymatch goal with
  | |- good _ _ (Match_ ?k ≫= (fun c => if c then _ else _)) => apply good_Match; [done|intros ?|]
  | |- good _ _ (Match_ ?k ≫= _) => apply good_Match_opt; [done|intros ?]
  | |- good _ _ (Expect _ _ ≫= _) => apply good_seq_strict; [by apply good_Expect|intros ? []]
  | |- good _ _ (current_kind ≫= _) => apply good_kind; intros ?
  | |- good _ _ (gets _ ≫= _) => apply good_gets; intros ?
  | |- good _ _ (Check_ _ ≫= _) => apply good_gets; intros ?
  | |- good _ _ (error_if _ _ _) => apply good_error_if
  | |- good_at _ _ _ (Advance ≫= _) => apply good_at_Advance; [done|intros ?]
  | |- good_at _ _ _ _ => apply good_good_at
  | |- good _ _ (if ?c then _ else _) => destruct c
  | |- good _ _ (match ?x with _ => _ end) => destruct x
  end.
Ltac good_auto := repeat good_step; eauto with parse.

(** * Names, literals and expressions *)

Lemma good_ParseIdent n : good n true ParseIdent.
Proof.
  intros p Hp. unfold ParseIdent, current. rewrite bind_eq. cbn [gets]. case_bool_decide as E; [|done].
  apply (psize_adv p). unfold kind_of. congruence.
Qed.
#[export] Hint Resolve good_ParseIdent : parse.

Lemma good_ParseColumnRef n : good n true ParseColumnRef.
Proof. unfold ParseColumnRef. apply good_seq_strict; [auto with parse|intros ? a]. good_auto. apply good_seq_strict; good_auto. Qed.
#[export] Hint Resolve good_ParseColumnRef : parse.

Lemma good_ParseColumnType n : good n true ParseColumnType.
Proof. unfold ParseColumnType. apply good_kind; intros k. destruct k; good_auto. Qed.
#[export] Hint Resolve good_ParseColumnType : parse.

Lemma good_ParseLiteralValue n : good n true ParseLiteralValue.
Proof.
  intros p Hp. unfold ParseLiteralValue, current. rewrite bind_eq. cbn [gets].
  assert (forall v : Value, kind_of p <> TEof -> good_run true p ((Advance ;; mret v) p)) as Hadv.
  { intros v Hk. apply (psize_adv p Hk). }
  unfold kind_of in Hadv. destruct (tk_kind (lx_cur (lex_ p))); try (by apply Hadv); try done. by apply (good_ErrorEof (psize p)).
Qed.
#[export] Hint Resolve good_ParseLiteralValue : parse.

Lemma good_at_ParseAggCall k n b : IsAggFunc k = true -> good_at k n b ParseAggCall.
Proof.
  intros Hk. unfold ParseAggCall. apply good_at_kind, good_at_Advance; [by intros ->|intros _]. good_step.
  apply good_Match_opt; [done|intros star]. apply good_seq; [|intros col; good_auto].
  good_auto. by eapply good_lax, good_ParseColumnRef.
Qed.

Lemma good_MatchCmpOp n : good n false MatchCmpOp.
Proof. unfold MatchCmpOp. apply good_kind; intros k. destruct k; good_auto. Qed.

(** The rest of the recursive descent, given that parentheses can be parsed. *)
Section Expressions.
Context (ParseExpr_ : ParserM Expr) (N : nat).
Hypothesis Hrec : forall n, (n < N)%nat -> good n true ParseExpr_.

Lemma good_ParsePrimary n : (n <= N)%nat -> good n true (ParsePrimary ParseExpr_).
Proof.
  intros Hn. unfold ParsePrimary. good_step.
  - apply good_seq_strict; [apply Hrec; lia|intros ? e]. good_auto.
  - apply good_gets; intros h. apply good_kind; intros k. destruct (h && IsAggFunc k) eqn:E.
    + apply andb_true_iff in E as [_ E]. intros p Hp Hpn.
      pose proof (good_at_ParseAggCall k n true E p Hp Hpn) as H. rewrite bind_eq. unfold good_run in *.
      by destruct (ParseAggCall p) as [[[[]]|e|] p'].
    + destruct k; good_auto; apply good_seq_strict; good_auto.
Qed.

Lemma good_ParseCmp n : (n <= N)%nat -> good n true (ParseCmp ParseExpr_).
Proof.
  intros Hn. unfold ParseCmp. apply good_seq_strict; [by apply good_ParsePrimary|intros ? e].
  apply good_seq; [apply good_MatchCmpOp|intros [op|]]; good_auto.
  apply good_seq_strict; [apply good_ParsePrimary; lia|intros ? e']. good_auto.
Qed.

Lemma good_ParseNot fuel n : (n <= N)%nat -> (n < fuel)%nat -> good n true (ParseNot ParseExpr_ fuel).
Proof.
  revert n; induction fuel as [|fuel IH]; intros n HN Hn; [lia|]. simpl. good_step; [|by apply good_ParseCmp].
  apply good_seq_strict; [apply IH; lia|intros ? e]. good_auto.
Qed.

Lemma good_and_loop fuel n left : (n <= N)%nat -> (n < fuel)%nat -> good n false (and_loop ParseExpr_ fuel left).
Proof.
  revert n left; induction fuel as [|fuel IH]; intros n left HN Hn; [lia|]. simpl. good_step; [|good_auto].
  apply good_seq_strict; [apply good_ParseNot; lia|intros ? e]. apply IH; lia.
Qed.

Lemma good_ParseAnd fuel n : (n <= N)%nat -> (n < fuel)%nat -> good n true (ParseAnd ParseExpr_ fuel).
Proof.
  intros HN Hn. unfold ParseAnd. apply good_seq_strict; [by apply good_ParseNot|intros ? e]. apply good_and_loop; lia.
Qed.

Lemma good_or_loop fuel n left : (n <= N)%nat -> (n < fuel)%nat -> good n false (or_loop ParseExpr_ fuel left).
Proof.
  revert n left; induction fuel as [|fuel IH]; intros n left HN Hn; [lia|]. simpl. good_step; [|good_auto].
  apply good_seq_strict; [apply good_ParseAnd; lia|intros ? e]. apply IH; lia.
Qed.

Lemma good_ParseOr fuel n : (n <= N)%nat -> (n < fuel)%nat -> good n true (ParseOr ParseExpr_ fuel).
Proof.
  intros HN Hn. unfold ParseOr. apply good_seq_strict; [by apply good_ParseAnd|intros ? e]. apply good_or_loop; lia.
Qed.
End Expressions.

Lemma good_ParseExpr fuel n : (n < fuel)%nat -> good n true (ParseExpr fuel).
Proof.
  revert n; induction fuel as [|fuel IH]; intros n Hn; [lia|]. simpl. apply good_ParseOr with (N := fuel); [done|lia|lia].
Qed.

(** * Statements *)

Lemma good_comma_list {A} fuel n (item : ParserM A) :
  (n < fuel)%nat -> (forall n', (n' <= n)%nat -> good n' true item) -> good n true (comma_list fuel item).
Proof.
  revert n; induction fuel as [|fuel IH]; intros n Hn Hitem; [lia|]. simpl.
  apply good_seq_strict; [by apply Hitem|intros ? x]. good_step; [|good_auto].
  apply good_seq_strict; [apply IH; [lia|intros; apply Hitem; lia]|intros ? xs]. good_auto.
Qed.

Lemma good_parse_column_def n : good n true parse_column_def.
Proof.
  unfold parse_column_def. apply good_seq_strict; [auto with parse|intros ? name].
  apply good_seq_strict; [auto with parse|intros ? ty]. apply good_Match_opt; [done|intros pk].
  apply good_seq; [|intros []; good_auto]. destruct pk; [by eapply good_lax, good_Expect|auto with parse].
Qed.

Lemma good_ParseFromItem n : good n true ParseFromItem.
Proof.
  unfold ParseFromItem. apply good_seq_strict; [auto with parse|intros ? table]. good_auto;
    (apply good_seq_strict; [auto with parse|intros ? alias]; good_auto).
Qed.

Lemma good_parse_alias n : good n false parse_alias.
Proof. unfold parse_alias. good_auto. by eapply good_lax, good_ParseIdent. Qed.

Lemma good_parse_order_item n : good n true parse_order_item.
Proof. unfold parse_order_item. apply good_seq_strict; [auto with parse|intros ? name]. good_auto. Qed.
#[export] Hint Resolve good_parse_column_def good_ParseFromItem good_parse_alias good_parse_order_item : parse.
#[export] Hint Resolve good_ParseExpr good_comma_list : parse.
#[export] Hint Extern 2 (_ < _)%nat => lia : parse.
#[export] Hint Extern 2 (_ <= _)%nat => lia : parse.

Ltac good_call :=
  first
    [ good_step
    | lazymatch goal with |- good _ _ (_ ≫= _) =>
        first [ apply good_seq_strict; [solve [eauto 4 with parse]|intros ? ?]
              | apply good_seq; [solve [eauto 4 with parse]|intros ?] ] end ].
Ltac good_all := repeat good_call; eauto 4 with parse.

Lemma good_opt n (c : bool) k what : k <> TEof -> good n false (if c then Expect k what else mret tt).
Proof. intros Hk. destruct c; [by eapply good_lax, good_Expect|auto with parse]. Qed.
#[export] Hint Resolve good_opt : parse.

Section Statements.
Context (fuel : nat).

Lemma good_opt_expr n k : (n < fuel)%nat -> k <> TEof -> good n false (opt_expr fuel k).
Proof. intros Hn Hk. unfold opt_expr. apply good_Match; [done|intros ?|auto with parse]. good_all. Qed.

Lemma good_ParseSelectItem n : (n < fuel)%nat -> good n true (ParseSelectItem fuel).
Proof.
  intros Hn. unfold ParseSelectItem. apply good_kind; intros k. destruct (IsAggFunc k) eqn:E; [|apply good_good_at; good_all].
  intros p Hp Hpn. pose proof (good_at_ParseAggCall k n true E p Hp Hpn) as H. rewrite bind_eq. unfold good_run in H.
  destruct (ParseAggCall p) as [[[[f star] col]|e|] p']; [|done|done].
  assert (good (psize p') false (alias ← parse_alias; mret (mkSelectItem (kAggItem f star col) alias []))) as H' by good_all.
  specialize (H' p' ltac:(lia)). unfold good_run in *. destruct ((parse_alias ≫= _) p') as [[]]; try done. lia.
Qed.

Lemma good_join_loop m n : (n < m)%nat -> (n < fuel)%nat -> good n false (join_loop fuel m).
Proof.
  revert n; induction m as [|m IH]; intros n Hm Hn; [lia|]. simpl. apply good_kind; intros k.
  destruct k; good_all.
Qed.

Lemma good_ParseFromClause n : (n < fuel)%nat -> good n true (ParseFromClause fuel).
Proof. intros Hn. unfold ParseFromClause. apply good_seq_strict; [auto with parse|intros ? base]. apply good_seq; [apply good_join_loop; lia|intros joins]. good_all. Qed.

Lemma good_parse_having n : (n < fuel)%nat -> good n false (parse_having fuel).
Proof.
  intros Hn. unfold parse_having. good_step; [|good_all]. intros p Hp.
  pose proof (good_ParseExpr fuel (n - 1) ltac:(lia) (mkParser (lex_ p) true) Hp) as Hrun.
  unfold good_run, mbind, SM_bind, set_having, modify, try in Hrun |- *. destruct (ParseExpr fuel _) as [[e|e|] p']; try done.
  unfold psize in *. simpl in *. lia.
Qed.

Lemma good_parse_group_by n : (n < fuel)%nat -> good n false (parse_group_by fuel).
Proof. intros Hn. unfold parse_group_by. good_all. Qed.

Lemma good_parse_order_by n : (n < fuel)%nat -> good n false (parse_order_by fuel).
Proof. intros Hn. unfold parse_order_by. good_step; [|good_all]. good_step. eapply good_lax, good_comma_list; [lia|auto with parse]. Qed.

Lemma good_parse_limit n : good n false parse_limit.
Proof.
  unfold parse_limit. good_step; [|good_all]. intros p Hp. rewrite bind_eq. cbn [current gets]. unfold error_if.
  case_bool_decide as E; simpl; [|done]. destruct (_ <? 0); [done|].
  pose proof (psize_adv p ltac:(unfold kind_of; congruence)). unfold good_run, mbind, SM_bind, adv in *. simpl in *. lia.
Qed.

Lemma good_parse_select_item n : (n < fuel)%nat -> good n true (parse_select_item fuel).
Proof. intros Hn. unfold parse_select_item. good_step. apply good_error_if. by apply good_ParseSelectItem. Qed.

Lemma good_parse_select_list n : (n < fuel)%nat -> good n false (parse_select_list fuel).
Proof.
  intros Hn. unfold parse_select_list. good_step; [good_all|]. apply good_seq_strict; [|intros ? items; good_all].
  apply good_comma_list; [done|intros n' Hn'; apply good_parse_select_item; lia].
Qed.

Lemma good_parse_assignment n : (n < fuel)%nat -> good n true (parse_assignment fuel).
Proof. intros Hn. unfold parse_assignment. good_all. Qed.

#[local] Hint Resolve good_opt_expr good_ParseFromClause good_parse_having good_parse_group_by good_parse_order_by
  good_parse_limit good_parse_select_list good_parse_assignment : parse.

Lemma good_ParseOne n : (n < fuel)%nat -> good n true (ParseOne fuel).
Proof.
  intros Hn. unfold ParseOne, RejectUnsupportedStatementStart. intros p Hp. rewrite bind_eq.
  assert (forall k, good_at k n true
    match k with
    | TBegin => ParseBegin | TCommit => ParseCommit | TAbort | TRollback => ParseAbort
    | TCreate => ParseCreateTable fuel | TDrop => ParseDropTable | TAlter => ParseAlterTable | TInsert => ParseInsert fuel
    | TSelect => ParseSelect fuel | TUpdate => ParseUpdate fuel | TDelete => ParseDelete fuel
    | TEof => Error (lit "empty statement")
    | _ => Error (lit "unexpected token " ++ TokenKindName k ++ lit " at start of statement")
    end) as H.
  { intros k. destruct k; try (apply good_good_at, good_Error).
    all: unfold ParseBegin, ParseCommit, ParseAbort, ParseCreateTable, ParseDropTable, ParseAlterTable, ParseInsert,
      ParseSelect, ParseUpdate, ParseDelete; good_step. all: good_all.
    apply good_seq; [destruct c; good_all|intros names; good_all]. }
  specialize (H (kind_of p) p eq_refl Hp). unfold kind_of in *. rewrite bind_eq. cbn [current_kind gets].
  destruct (tk_kind (lx_cur (lex_ p))) eqn:E; try done.
  all: cbn [mret SM_ret]; rewrite bind_eq; cbn [current_kind gets]; rewrite E; exact H.
Qed.

Lemma good_script_loop m n out : (n < m)%nat -> (n < fuel)%nat -> good n false (script_loop fuel m out).
Proof.
  revert n out; induction m as [|m IH]; intros n out Hm Hn; [lia|]. simpl. good_step. good_step; [auto with parse|].
  good_step; [apply IH; lia|]. apply good_seq_strict; [by apply good_ParseOne|intros ? stmt]. good_step. good_step; [auto with parse|].
  good_step; [apply IH; lia|auto with parse].
Qed.

Lemma good_skip_semicolons m n : (n < m)%nat -> good n false (skip_semicolons m).
Proof. revert n; induction m as [|m IH]; intros n Hm; [lia|]. simpl. good_step; [apply IH; lia|auto with parse]. Qed.

Lemma good_ParseOneStatement n : (n < fuel)%nat -> good n false (ParseOneStatement fuel).
Proof.
  intros Hn. unfold ParseOneStatement. apply good_seq; [by apply good_skip_semicolons|intros []]. good_step. good_step; [auto with parse|].
  apply good_seq_strict; [by apply good_ParseOne|intros ? stmt]. good_all.
Qed.
End Statements.

Lemma psize_Parser_new sql : (psize (Parser_new sql) <= length sql)%nat.
Proof. apply (lx_size_Advance (mkLexer sql 0 (mkToken TEof [] 0 0))). Qed.

(** C24: The parser returns on every text: parsing a script gives its statements or a
    status, and so does parsing a single statement.  The fuel of the model, two more
    than the number of bytes, is never used up: each loop and each nested call of
    the recursive descent consumes a token, and a token other than the end takes at
    least one byte. *)
Theorem parser_terminates sql :
  ParseScript sql <> Stuck /\ ParseStatement sql <> Stuck.
Proof.
  unfold ParseScript, ParseStatement, parse_fuel. pose proof (psize_Parser_new sql) as Hsz. set (F := S (S (length sql))).
  assert (length sql < F)%nat as HF by (unfold F; lia).
  pose proof (good_script_loop F F _ [] HF HF (Parser_new sql) Hsz) as H1.
  pose proof (good_ParseOneStatement F _ HF (Parser_new sql) Hsz) as H2. unfold good_run in *.
  destruct (script_loop F F [] (Parser_new sql)) as [[]], (ParseOneStatement F (Parser_new sql)) as [[]]; done.
Qed.
