(* ===== verification/SqlGrammar.v ===== *)
(** What the recursive descent accepts: the grammar of expressions of docs/SQL.md,
    as an inductive relation between trees and token sequences, and the proof
    that [ParseExpr] decides it. *)
From S2P Require Import Prelude Status Env Version Types Schema BindContext Expr SqlAst Text SqlLexer SqlParser SqlTotal.

(** * Token sequences *)

(** A token without its position. *)
Definition Lexeme : Set := TokenKind * bytes * Z.
Definition lexeme (t : Token) : Lexeme := (tk_kind t, tk_text t, tk_int_val t).
Definition cur_lexeme (p : Parser) : Lexeme := lexeme (lx_cur (lex_ p)).
Definition lkind (l : Lexeme) : TokenKind := l.1.1.

(** From [p] the lexer delivers [ls] and then stands as in the last state. *)
Inductive reads : Parser -> list Lexeme -> Parser -> Prop :=
  | reads_nil p : reads p [] p
  | reads_cons p ls p' : kind_of p <> TEof -> reads (adv p) ls p' -> reads p (cur_lexeme p :: ls) p'.

Lemma reads_inv_cons p l ls p' : reads p (l :: ls) p' -> l = cur_lexeme p /\ lkind l = kind_of p /\ kind_of p <> TEof /\ reads (adv p) ls p'.
Proof. inversion 1; subst. done. Qed.

Lemma reads_inv_nil p p' : reads p [] p' -> p' = p.
Proof. by inversion 1. Qed.

Lemma reads_app p p1 p2 ls1 ls2 : reads p ls1 p1 -> reads p1 ls2 p2 -> reads p (ls1 ++ ls2) p2.
Proof. induction 1; simpl; intros H2; [done|]. constructor; auto. Qed.

Lemma reads_app_inv p ls1 ls2 p2 : reads p (ls1 ++ ls2) p2 -> exists p1, reads p ls1 p1 /\ reads p1 ls2 p2.
Proof.
  revert p; induction ls1 as [|l ls1 IH]; simpl; intros p H; [by exists p; split; [constructor|]|].
  apply reads_inv_cons in H as (-> & _ & Hk & H). apply IH in H as (p1 & H1 & H2). exists p1. split; [by constructor|done].
Qed.

Lemma reads_one p : kind_of p <> TEof -> reads p [cur_lexeme p] (adv p).
Proof. intros H. constructor; [done|constructor]. Qed.

Lemma reads_psize p ls p' : reads p ls p' -> (psize p' <= psize p)%nat.
Proof. induction 1 as [|p ls p' Hk H IH]; [done|]. pose proof (psize_adv p Hk). lia. Qed.

Lemma reads_having p ls p' : reads p ls p' -> having_context_ p' = having_context_ p.
Proof. induction 1 as [|p ls p' Hk H IH]; [done|]. by rewrite IH. Qed.

(** * The grammar *)

Inductive literal_token : Lexeme -> Value -> Prop :=
  | tok_int text z : literal_token (TInteger, text, z) (VInt64 z)
  | tok_string s z : literal_token (TString, s, z) (VString s)
  | tok_true text z : literal_token (TTrue, text, z) (VBool true)
  | tok_false text z : literal_token (TFalse, text, z) (VBool false)
  | tok_null text z : literal_token (TNull, text, z) VNull.

(** name | qualifier '.' name *)
Inductive column_ref : list Lexeme -> bytes -> Prop :=
  | ref_name n z : column_ref [(TIdent, n, z)] n
  | ref_qualified q z d n z' : lkind d = TDot -> column_ref [(TIdent, q, z); d; (TIdent, n, z')] (q ++ [dot] ++ n).

Definition cmp_token (k : TokenKind) : option CmpOp :=
  match k with
  | TEq => Some kEq | TNe => Some kNe | TLt => Some kLt | TLe => Some kLe | TGt => Some kGt | TGe => Some kGe
  | _ => None
  end.

(** agg_func '(' ( '*' | column_ref ) ')' *)
Inductive agg_call : list Lexeme -> AggFunc -> bool -> bytes -> Prop :=
  | agg_star f o s c : lkind f = TCount -> lkind o = TLParen -> lkind s = TStar -> lkind c = TRParen ->
      agg_call [f; o; s; c] kCount true []
  | agg_col f o ts col c : IsAggFunc (lkind f) = true -> lkind o = TLParen -> column_ref ts col -> lkind c = TRParen ->
      agg_call (f :: o :: ts ++ [c]) (TokenToAggFunc (lkind f)) false col.

(** The nonterminals. *)
Inductive level : Set := or_expr | and_expr | not_expr | cmp_expr | primary.

(** [having]: whether aggregate calls are names, as they are after HAVING. *)
Inductive phrase (having : bool) : level -> Expr -> list Lexeme -> Prop :=
  | or_first e ts : phrase having and_expr e ts -> phrase having or_expr e ts
  | or_next l ts1 o r ts2 : phrase having or_expr l ts1 -> lkind o = TOr -> phrase having and_expr r ts2 ->
      phrase having or_expr (Or l r) (ts1 ++ o :: ts2)
  | and_first e ts : phrase having not_expr e ts -> phrase having and_expr e ts
  | and_next l ts1 o r ts2 : phrase having and_expr l ts1 -> lkind o = TAnd -> phrase having not_expr r ts2 ->
      phrase having and_expr (And l r) (ts1 ++ o :: ts2)
  | not_cmp e ts : phrase having cmp_expr e ts -> phrase having not_expr e ts
  | not_not o e ts : lkind o = TNot -> phrase having not_expr e ts -> phrase having not_expr (Not e) (o :: ts)
  | cmp_primary e ts : phrase having primary e ts -> phrase having cmp_expr e ts
  | cmp_cmp l ts1 o op r ts2 : phrase having primary l ts1 -> cmp_token (lkind o) = Some op -> phrase having primary r ts2 ->
      phrase having cmp_expr (Compare op l r) (ts1 ++ o :: ts2)
  | primary_literal t v : literal_token t v -> phrase having primary (Literal v) [t]
  | primary_column ts n : column_ref ts n -> phrase having primary (mkColumn n) ts
  | primary_paren o e ts c : lkind o = TLParen -> phrase having or_expr e ts -> lkind c = TRParen ->
      phrase having primary e (o :: ts ++ [c])
  | primary_agg ts f star col : having = true -> agg_call ts f star col ->
      phrase having primary (mkColumn (DefaultAggResultName f star col)) ts.
#[export] Hint Constructors reads literal_token column_ref agg_call phrase : parse.

(** * Soundness *)

(** What a call that returns has read. *)
Definition sound {A} (m : ParserM A) (G : bool -> A -> list Lexeme -> Prop) : Prop :=
  forall p a p', m p = (Ret a, p') -> exists ts, reads p ts p' /\ G (having_context_ p) a ts.

Lemma bind_ret_inv {A B} (m : ParserM A) (f : A -> ParserM B) p b p' :
  (m ≫= f) p = (Ret b, p') -> exists a p1, m p = (Ret a, p1) /\ f a p1 = (Ret b, p').
Proof. rewrite bind_eq. destruct (m p) as [[a|e|] p1]; naive_solver. Qed.

Lemma Match_true k p p' : Match_ k p = (Ret true, p') -> kind_of p = k /\ p' = adv p.
Proof. rewrite Match_eq. case_bool_decide; naive_solver. Qed.
Lemma Match_false k p p' : Match_ k p = (Ret false, p') -> kind_of p <> k /\ p' = p.
Proof. rewrite Match_eq. case_bool_decide; naive_solver. Qed.
Lemma Expect_ret k what p p' : Expect k what p = (Ret tt, p') -> kind_of p = k /\ p' = adv p.
Proof. rewrite Expect_eq. case_bool_decide; [naive_solver|]. by intros. Qed.

Lemma ParseIdent_eq p :
  ParseIdent p = if bool_decide (kind_of p = TIdent) then (Ret (tk_text (lx_cur (lex_ p))), adv p)
                 else ErrorGot (lit "expected identifier, got ") p.
Proof. unfold ParseIdent. rewrite bind_eq. cbn [current gets]. unfold kind_of. by destruct (bool_decide _). Qed.

Lemma ParseIdent_ret p n p' : ParseIdent p = (Ret n, p') -> exists z, kind_of p = TIdent /\ cur_lexeme p = (TIdent, n, z) /\ p' = adv p.
Proof.
  rewrite ParseIdent_eq. case_bool_decide as E; [|done]. intros [= <- <-]. eexists. unfold cur_lexeme, lexeme, kind_of in *. by rewrite E.
Qed.

Lemma sound_ParseColumnRef : sound ParseColumnRef (fun _ n ts => column_ref ts n).
Proof.
  intros p a p' H. apply bind_ret_inv in H as (n & p1 & H1 & H).
  apply ParseIdent_ret in H1 as (z & Hk & Hl & ->). apply bind_ret_inv in H as ([] & p2 & H2 & H).
  - apply Match_true in H2 as [Hd ->]. apply bind_ret_inv in H as (f & p3 & H3 & H).
    apply ParseIdent_ret in H3 as (z' & Hk' & Hl' & ->). cbn in H. injection H as <- <-.
    exists [(TIdent, n, z); cur_lexeme (adv p); (TIdent, f, z')]. split; [|by constructor].
    rewrite <- Hl, <- Hl'. repeat (constructor; [congruence|]). constructor.
  - apply Match_false in H2 as [Hd ->]. cbn in H. injection H as <- <-. exists [(TIdent, n, z)]. split; [|constructor].
    rewrite <- Hl. apply reads_one. congruence.
Qed.

Lemma ParseLiteralValue_ret p v p' : ParseLiteralValue p = (Ret v, p') -> kind_of p <> TEof /\ literal_token (cur_lexeme p) v /\ p' = adv p.
Proof.
  unfold ParseLiteralValue. rewrite bind_eq. cbn [current gets]. unfold cur_lexeme, lexeme, kind_of.
  destruct (tk_kind (lx_cur (lex_ p))); try done; try (intros [= <- <-]; split; [done|split; [constructor|done]]).
  unfold ErrorEof. rewrite bind_eq. cbn [current gets]. by case_bool_decide.
Qed.

Lemma sound_ParseAggCall p f star col p' : IsAggFunc (kind_of p) = true -> ParseAggCall p = (Ret (f, star, col), p') ->
  exists ts, reads p ts p' /\ agg_call ts f star col.
Proof.
  intros Hk H. unfold ParseAggCall in H. rewrite bind_eq in H. cbn [current_kind gets] in H. fold (kind_of p) in H.
  rewrite bind_eq in H. cbn [Advance modify] in H. fold (adv p) in H.
  apply bind_ret_inv in H as ([] & p1 & H1 & H). apply Expect_ret in H1 as [Ho ->].
  apply bind_ret_inv in H as (st & p2 & H2 & H). apply bind_ret_inv in H as (arg & p3 & H3 & H).
  apply bind_ret_inv in H as ([] & p4 & H4 & H). apply Expect_ret in H4 as [Hc ->]. cbn in H. injection H as <- <- <- <-.
  assert (kind_of p <> TEof) as Hne by (by intros E; rewrite E in Hk). destruct st.
  - apply Match_true in H2 as [Hs ->]. destruct (bool_decide (kind_of p = TCount)) eqn:E; [|done].
    apply bool_decide_eq_true in E. cbn in H3. injection H3 as <- <-.
    exists [cur_lexeme p; cur_lexeme (adv p); cur_lexeme (adv (adv p)); cur_lexeme (adv (adv (adv p)))].
    rewrite E. split; [|by constructor]. repeat (constructor; [congruence|]). constructor.
  - apply Match_false in H2 as [Hs ->]. apply sound_ParseColumnRef in H3 as (ts & Hr & Href).
    exists (cur_lexeme p :: cur_lexeme (adv p) :: ts ++ [cur_lexeme p3]). split; [|by apply agg_col].
    constructor; [done|]. constructor; [congruence|]. apply (reads_app _ p3); [done|]. apply reads_one. congruence.
Qed.

Lemma MatchCmpOp_eq p :
  MatchCmpOp p = match cmp_token (kind_of p) with Some op => (Ret (Some op), adv p) | None => (Ret None, p) end.
Proof. unfold MatchCmpOp. rewrite bind_eq. cbn [current_kind gets]. unfold kind_of. by destruct (tk_kind (lx_cur (lex_ p))). Qed.

Section Sound.
Context (rec : ParserM Expr).
Hypothesis Hrec : sound rec (fun h => phrase h or_expr).

Lemma sound_ParsePrimary : sound (ParsePrimary rec) (fun h => phrase h primary).
Proof.
  intros p e p' H. apply bind_ret_inv in H as ([] & p1 & H1 & H).
  - apply Match_true in H1 as [Hk ->]. apply bind_ret_inv in H as (e' & p2 & H2 & H).
    apply bind_ret_inv in H as ([] & p3 & H3 & H). apply Expect_ret in H3 as [Hc ->]. cbn in H. injection H as <- <-.
    apply Hrec in H2 as (ts & Hr & Hp). exists (cur_lexeme p :: ts ++ [cur_lexeme p2]). split; [|by apply primary_paren].
    constructor; [congruence|]. apply (reads_app _ p2); [done|]. apply reads_one. congruence.
  - apply Match_false in H1 as [Hk ->]. rewrite bind_eq in H. cbn [gets] in H. rewrite bind_eq in H. cbn [current_kind gets] in H.
    fold (kind_of p) in H. destruct (having_context_ p && IsAggFunc (kind_of p)) eqn:Eh.
    + apply andb_true_iff in Eh as [Eh Ek]. apply bind_ret_inv in H as ([[f star] col] & p2 & H2 & H). cbn in H.
      injection H as <- <-. apply sound_ParseAggCall in H2 as (ts & Hr & Ha); [|done]. exists ts. split; [done|]. by constructor.
    + assert (forall v, ParseLiteralValue p = (Ret v, p') -> exists ts, reads p ts p' /\ phrase (having_context_ p) primary (Literal v) ts) as Hlit.
      { intros v Hv. apply ParseLiteralValue_ret in Hv as (Hne & Ht & ->). exists [cur_lexeme p]. split; [by apply reads_one|by constructor]. }
      destruct (kind_of p) eqn:Ek; try done.
      all: try (apply bind_ret_inv in H as (v & p2 & H2 & H); cbn in H; injection H as <- <-; by apply Hlit).
      * unfold ErrorEof in H. rewrite bind_eq in H. cbn [current gets] in H. by case_bool_decide.
      * apply bind_ret_inv in H as (n & p2 & H2 & H). cbn in H. injection H as <- <-.
        apply sound_ParseColumnRef in H2 as (ts & Hr & Hc). exists ts. split; [done|by constructor].
Qed.

Lemma sound_ParseCmp : sound (ParseCmp rec) (fun h => phrase h cmp_expr).
Proof.
  intros p e p' H. apply bind_ret_inv in H as (l & p1 & H1 & H). apply sound_ParsePrimary in H1 as (ts1 & Hr1 & Hp1).
  apply bind_ret_inv in H as (op & p2 & H2 & H). rewrite MatchCmpOp_eq in H2. destruct (cmp_token (kind_of p1)) as [c|] eqn:Ec.
  - injection H2 as <- <-. apply bind_ret_inv in H as (r & p3 & H3 & H). cbn in H. injection H as <- <-.
    apply sound_ParsePrimary in H3 as (ts2 & Hr2 & Hp2). simpl in Hp2. rewrite (reads_having _ _ _ Hr1) in Hp2.
    exists (ts1 ++ cur_lexeme p1 :: ts2). split; [|by apply cmp_cmp].
    apply (reads_app _ p1); [done|]. constructor; [|done]. by intros E; rewrite E in Ec.
  - injection H2 as <- <-. cbn in H. injection H as <- <-. exists ts1. split; [done|by constructor].
Qed.

Lemma sound_ParseNot fuel : sound (ParseNot rec fuel) (fun h => phrase h not_expr).
Proof.
  induction fuel as [|fuel IH]; intros p e p' H; [done|]. simpl in H. apply bind_ret_inv in H as ([] & p1 & H1 & H).
  - apply Match_true in H1 as [Hk ->]. apply bind_ret_inv in H as (c & p2 & H2 & H). cbn in H. injection H as <- <-.
    apply IH in H2 as (ts & Hr & Hp). exists (cur_lexeme p :: ts). split; [constructor; [congruence|done]|by apply not_not].
  - apply Match_false in H1 as [Hk ->]. apply sound_ParseCmp in H as (ts & Hr & Hp). exists ts. split; [done|by constructor].
Qed.

(** A loop extends the phrase read so far. *)
Lemma sound_and_loop fuel left p e p' h : and_loop rec fuel left p = (Ret e, p') -> having_context_ p = h ->
  exists ts, reads p ts p' /\ forall ts0, phrase h and_expr left ts0 -> phrase h and_expr e (ts0 ++ ts).
Proof.
  revert left p; induction fuel as [|fuel IH]; intros left p H Hh; [done|]. simpl in H. apply bind_ret_inv in H as ([] & p1 & H1 & H).
  - apply Match_true in H1 as [Hk ->]. apply bind_ret_inv in H as (r & p2 & H2 & H).
    apply sound_ParseNot in H2 as (ts1 & Hr1 & Hp1). simpl in Hp1.
    apply IH in H as (ts2 & Hr2 & Hp2); [|by rewrite (reads_having _ _ _ Hr1)].
    exists (cur_lexeme p :: ts1 ++ ts2). split; [constructor; [congruence|by apply (reads_app _ p2)]|].
    intros ts0 H0. specialize (Hp2 (ts0 ++ cur_lexeme p :: ts1)). rewrite <- app_assoc in Hp2. apply Hp2.
    apply and_next; [done|done|by rewrite <- Hh].
  - apply Match_false in H1 as [Hk ->]. cbn in H. injection H as <- <-. exists []. split; [constructor|]. intros ts0. by rewrite app_nil_r.
Qed.

Lemma sound_ParseAnd fuel : sound (ParseAnd rec fuel) (fun h => phrase h and_expr).
Proof.
  intros p e p' H. apply bind_ret_inv in H as (l & p1 & H1 & H). apply sound_ParseNot in H1 as (ts1 & Hr1 & Hp1).
  eapply sound_and_loop in H as (ts2 & Hr2 & Hp2); [|done]. rewrite (reads_having _ _ _ Hr1) in Hp2.
  exists (ts1 ++ ts2). split; [by apply (reads_app _ p1)|]. apply Hp2. by constructor.
Qed.

Lemma sound_or_loop fuel left p e p' h : or_loop rec fuel left p = (Ret e, p') -> having_context_ p = h ->
  exists ts, reads p ts p' /\ forall ts0, phrase h or_expr left ts0 -> phrase h or_expr e (ts0 ++ ts).
Proof.
  revert left p; induction fuel as [|fuel IH]; intros left p H Hh; [done|]. simpl in H. apply bind_ret_inv in H as ([] & p1 & H1 & H).
  - apply Match_true in H1 as [Hk ->]. apply bind_ret_inv in H as (r & p2 & H2 & H).
    apply sound_ParseAnd in H2 as (ts1 & Hr1 & Hp1). simpl in Hp1.
    apply IH in H as (ts2 & Hr2 & Hp2); [|by rewrite (reads_having _ _ _ Hr1)].
    exists (cur_lexeme p :: ts1 ++ ts2). split; [constructor; [congruence|by apply (reads_app _ p2)]|].
    intros ts0 H0. specialize (Hp2 (ts0 ++ cur_lexeme p :: ts1)). rewrite <- app_assoc in Hp2. apply Hp2.
    apply or_next; [done|done|by rewrite <- Hh].
  - apply Match_false in H1 as [Hk ->]. cbn in H. injection H as <- <-. exists []. split; [constructor|]. intros ts0. by rewrite app_nil_r.
Qed.

Lemma sound_ParseOr fuel : sound (ParseOr rec fuel) (fun h => phrase h or_expr).
Proof.
  intros p e p' H. apply bind_ret_inv in H as (l & p1 & H1 & H). apply sound_ParseAnd in H1 as (ts1 & Hr1 & Hp1).
  eapply sound_or_loop in H as (ts2 & Hr2 & Hp2); [|done]. rewrite (reads_having _ _ _ Hr1) in Hp2.
  exists (ts1 ++ ts2). split; [by apply (reads_app _ p1)|]. apply Hp2. by constructor.
Qed.
End Sound.

Lemma sound_ParseExpr fuel : sound (ParseExpr fuel) (fun h => phrase h or_expr).
Proof. induction fuel as [|fuel IH]; [by intros p e p' H|]. simpl. by apply sound_ParseOr. Qed.

(** * Completeness *)

(** The kinds of token that would be taken as part of the phrase before them. *)
Definition stops (k : TokenKind) : bool :=
  match k with TDot | TAnd | TOr => false | _ => bool_decide (cmp_token k = None) end.

Lemma stops_inv k : stops k = true -> k <> TDot /\ k <> TAnd /\ k <> TOr /\ cmp_token k = None.
Proof. intros H. destruct k; done. Qed.

Lemma Match_hit k p : kind_of p = k -> Match_ k p = (Ret true, adv p).
Proof. intros H. rewrite Match_eq. by rewrite bool_decide_eq_true_2. Qed.
Lemma Match_miss k p : kind_of p <> k -> Match_ k p = (Ret false, p).
Proof. intros H. rewrite Match_eq. by rewrite bool_decide_eq_false_2. Qed.
Lemma Expect_hit k what p : kind_of p = k -> Expect k what p = (Ret tt, adv p).
Proof. intros H. rewrite Expect_eq. by rewrite bool_decide_eq_true_2. Qed.
Lemma bind_step {A B} (m : ParserM A) (f : A -> ParserM B) p a p1 : m p = (Ret a, p1) -> (m ≫= f) p = f a p1.
Proof. intros H. by rewrite bind_eq, H. Qed.

Lemma ParseIdent_hit p n z : cur_lexeme p = (TIdent, n, z) -> ParseIdent p = (Ret n, adv p).
Proof.
  intros H. rewrite ParseIdent_eq. unfold cur_lexeme, lexeme, kind_of in *. injection H as -> -> _. by rewrite bool_decide_eq_true_2.
Qed.

Lemma ParseColumnRef_complete p ts n p' : reads p ts p' -> column_ref ts n -> kind_of p' <> TDot -> ParseColumnRef p = (Ret n, p').
Proof.
  intros Hr Hc Hd. unfold ParseColumnRef. inversion Hc; subst.
  - apply reads_inv_cons in Hr as (Hl & _ & _ & Hr). apply reads_inv_nil in Hr as ->.
    erewrite bind_step by (by eapply ParseIdent_hit). erewrite bind_step by (by apply Match_miss). done.
  - apply reads_inv_cons in Hr as (Hl & _ & _ & Hr). apply reads_inv_cons in Hr as (_ & Hk & _ & Hr).
    apply reads_inv_cons in Hr as (Hl' & _ & _ & Hr). apply reads_inv_nil in Hr as ->.
    erewrite bind_step by (by eapply ParseIdent_hit). erewrite bind_step by (apply Match_hit; congruence).
    cbn iota. by erewrite bind_step by (by eapply ParseIdent_hit).
Qed.

Lemma ParseLiteralValue_hit p v : literal_token (cur_lexeme p) v -> ParseLiteralValue p = (Ret v, adv p).
Proof.
  unfold ParseLiteralValue, cur_lexeme, lexeme. rewrite bind_eq. cbn [current gets]. intros H.
  by inversion H as [? ? E|? ? E|? ? E|? ? E|? ? E]; subst.
Qed.

Lemma ParseAggCall_complete p ts f star col p' : reads p ts p' -> agg_call ts f star col ->
  IsAggFunc (kind_of p) = true /\ ParseAggCall p = (Ret (f, star, col), p').
Proof.
  intros Hr Ha. unfold ParseAggCall. rewrite bind_eq. cbn [current_kind gets]. fold (kind_of p).
  rewrite bind_eq. cbn [Advance modify]. fold (adv p). inversion Ha as [? ? ? ? Hf Ho Hs Hc|f0 ? ts' ? ? Hf Ho Href Hc]; subst.
  - do 4 (apply reads_inv_cons in Hr as (_ & ? & _ & Hr)). apply reads_inv_nil in Hr as ->.
    assert (kind_of p = TCount) as E by congruence. rewrite E. split; [done|].
    erewrite bind_step by (apply Expect_hit; congruence). erewrite bind_step by (apply Match_hit; congruence).
    cbn iota. erewrite bind_step by reflexivity. erewrite bind_step by (apply Expect_hit; congruence). done.
  - do 2 (apply reads_inv_cons in Hr as (_ & ? & _ & Hr)). apply reads_app_inv in Hr as (p1 & Hr1 & Hr2).
    apply reads_inv_cons in Hr2 as (_ & ? & _ & Hr2). apply reads_inv_nil in Hr2 as ->.
    split; [congruence|]. erewrite bind_step by (apply Expect_hit; congruence).
    assert (kind_of (adv (adv p)) = TIdent) as Ei.
    { inversion Href; subst; apply reads_inv_cons in Hr1 as (_ & Hk & _); by rewrite <- Hk. }
    erewrite bind_step by (apply Match_miss; congruence). cbn iota.
    erewrite bind_step by (eapply ParseColumnRef_complete; [done|done|congruence]).
    erewrite bind_step by (apply Expect_hit; congruence). replace (lkind f0) with (kind_of p) by done. done.
Qed.

(** How a phrase of each level is parsed.  At the two levels with a loop the
    parser arrives in the loop after the phrase, with fuel for what is left. *)
Definition parses (h : bool) (l : level) (e : Expr) (ts : list Lexeme) : Prop :=
  forall N fuel p p', (psize p <= N)%nat -> (psize p < fuel)%nat -> reads p ts p' -> having_context_ p = h ->
  let rec := ParseExpr N in
  match l with
  | primary => kind_of p' <> TDot -> ParsePrimary rec p = (Ret e, p')
  | cmp_expr => kind_of p' <> TDot -> cmp_token (kind_of p') = None -> ParseCmp rec p = (Ret e, p')
  | not_expr => kind_of p' <> TDot -> cmp_token (kind_of p') = None -> ParseNot rec fuel p = (Ret e, p')
  | and_expr => kind_of p' <> TDot -> cmp_token (kind_of p') = None ->
      exists fuel', (psize p' < fuel')%nat /\ ParseAnd rec fuel p = and_loop rec fuel' e p'
  | or_expr => kind_of p' <> TDot -> cmp_token (kind_of p') = None -> kind_of p' <> TAnd ->
      exists fuel', (psize p' < fuel')%nat /\ ParseOr rec fuel p = or_loop rec fuel' e p'
  end.

Lemma and_loop_done rec fuel e p : (psize p < fuel)%nat -> kind_of p <> TAnd -> and_loop rec fuel e p = (Ret e, p).
Proof. intros Hf Hk. destruct fuel; [lia|]. simpl. by erewrite bind_step by (by apply Match_miss). Qed.
Lemma or_loop_done rec fuel e p : (psize p < fuel)%nat -> kind_of p <> TOr -> or_loop rec fuel e p = (Ret e, p).
Proof. intros Hf Hk. destruct fuel; [lia|]. simpl. by erewrite bind_step by (by apply Match_miss). Qed.

(** The first token of a phrase. *)
Lemma phrase_head h l e ts : phrase h l e ts -> exists t ts', ts = t :: ts' /\
  match l with
  | primary | cmp_expr => lkind t <> TNot
  | _ => True
  end.
Proof.
  induction 1 as [| | | | | | | |t v Ht|ts n Hc| |ts f star col Hh Ha]; try naive_solver; simpl in *.
  all: try (destruct IHphrase1 as (t & ts' & -> & ?); simpl; eauto; fail).
  - destruct Ht; eauto.
  - destruct Hc; eauto.
  - eexists _, _. split; [done|]. congruence.
  - destruct Ha as [? ? ? ? E|? ? ? ? ? E]; (eexists _, _; split; [done|]); [congruence|]. by intros E'; rewrite E' in E.
Qed.

Lemma reads_head p t ts p' : reads p (t :: ts) p' -> kind_of p = lkind t /\ (1 <= psize p)%nat.
Proof.
  intros H. apply reads_inv_cons in H as (_ & Hk & Hne & _). split; [done|]. pose proof (psize_adv p Hne). lia.
Qed.

Lemma parses_or_next h l ts1 o r ts2 : parses h or_expr l ts1 -> lkind o = TOr -> parses h and_expr r ts2 ->
  parses h or_expr (Or l r) (ts1 ++ o :: ts2).
Proof.
  intros IH1 Ho IH2 N fuel p p' HN Hf Hr Hh rec Hd Hc Ha. apply reads_app_inv in Hr as (p1 & Hr1 & Hr).
  apply reads_inv_cons in Hr as (_ & Hk & Hne & Hr). rewrite Ho in Hk. pose proof (reads_psize _ _ _ Hr1).
  destruct (IH1 N fuel p p1 HN Hf Hr1 Hh) as (f1 & Hf1 & E); try (by rewrite <- Hk). subst rec. rewrite E.
  pose proof (psize_adv p1 Hne). destruct f1 as [|f1]; [lia|]. simpl. erewrite bind_step by (by apply Match_hit). cbn iota.
  destruct (IH2 N f1 (adv p1) p' ltac:(lia) ltac:(lia) Hr) as (f2 & Hf2 & E2); [by rewrite <- Hh; apply (reads_having _ _ _ Hr1)|done|done|].
  rewrite bind_eq, E2, and_loop_done by done. exists f1. split; [|done]. apply reads_psize in Hr. lia.
Qed.

Lemma parses_and_next h l ts1 o r ts2 : parses h and_expr l ts1 -> lkind o = TAnd -> parses h not_expr r ts2 ->
  parses h and_expr (And l r) (ts1 ++ o :: ts2).
Proof.
  intros IH1 Ho IH2 N fuel p p' HN Hf Hr Hh rec Hd Hc. apply reads_app_inv in Hr as (p1 & Hr1 & Hr).
  apply reads_inv_cons in Hr as (_ & Hk & Hne & Hr). rewrite Ho in Hk. pose proof (reads_psize _ _ _ Hr1).
  destruct (IH1 N fuel p p1 HN Hf Hr1 Hh) as (f1 & Hf1 & E); try (by rewrite <- Hk). subst rec. rewrite E.
  pose proof (psize_adv p1 Hne). destruct f1 as [|f1]; [lia|]. simpl. erewrite bind_step by (by apply Match_hit). cbn iota.
  pose proof (IH2 N f1 (adv p1) p' ltac:(lia) ltac:(lia) Hr ltac:(rewrite <- Hh; apply (reads_having _ _ _ Hr1)) Hd Hc) as E2.
  rewrite (bind_step _ _ _ _ _ E2). exists f1. split; [|done]. apply reads_psize in Hr. lia.
Qed.

Lemma parses_paren h o e ts c : lkind o = TLParen -> parses h or_expr e ts -> lkind c = TRParen ->
  parses h primary e (o :: ts ++ [c]).
Proof.
  intros Ho IH Hc N fuel p p' HN Hf Hr Hh rec Hd. apply reads_inv_cons in Hr as (_ & Hk & Hne & Hr). rewrite Ho in Hk.
  apply reads_app_inv in Hr as (p1 & Hr1 & Hr). apply reads_inv_cons in Hr as (_ & Hk1 & Hne1 & Hr). rewrite Hc in Hk1.
  apply reads_inv_nil in Hr as ->. pose proof (psize_adv p Hne). subst rec. unfold ParsePrimary.
  erewrite bind_step by (by apply Match_hit). cbn iota. destruct N as [|N]; [lia|].
  destruct (IH N (S N) (adv p) p1 ltac:(lia) ltac:(lia) Hr1 Hh) as (f1 & Hf1 & E); try (by rewrite <- Hk1).
  simpl. rewrite bind_eq, E, or_loop_done by (first [done|by rewrite <- Hk1]). by erewrite bind_step by (by apply Expect_hit).
Qed.

Lemma parses_column h ts n : column_ref ts n -> parses h primary (mkColumn n) ts.
Proof.
  intros Hc N fuel p p' HN Hf Hr Hh rec Hd.
  assert (kind_of p = TIdent) as Hk by (inversion Hc; subst; apply reads_inv_cons in Hr as (_ & Hk & _); by rewrite <- Hk).
  unfold ParsePrimary. erewrite bind_step by (apply Match_miss; congruence). cbn iota. rewrite bind_eq. cbn [gets].
  rewrite bind_eq. cbn [current_kind gets]. fold (kind_of p). rewrite Hk, andb_false_r.
  by erewrite bind_step by (by eapply ParseColumnRef_complete).
Qed.

Lemma parses_literal h t v : literal_token t v -> parses h primary (Literal v) [t].
Proof.
  intros Ht N fuel p p' HN Hf Hr Hh rec Hd. apply reads_inv_cons in Hr as (-> & _ & _ & Hr). apply reads_inv_nil in Hr as ->.
  assert (kind_of p <> TLParen /\ IsAggFunc (kind_of p) = false) as [Hne Ha].
  { unfold kind_of, cur_lexeme, lexeme in *. split; [intros E; rewrite E in Ht; inversion Ht|].
    by inversion Ht as [? ? E|? ? E|? ? E|? ? E|? ? E]; rewrite <- E || idtac. }
  unfold ParsePrimary. erewrite bind_step by (by apply Match_miss). cbn iota. rewrite bind_eq. cbn [gets].
  rewrite bind_eq. cbn [current_kind gets]. fold (kind_of p). rewrite Ha, andb_false_r.
  pose proof (ParseLiteralValue_hit p v Ht) as E. unfold kind_of, cur_lexeme, lexeme in *.
  destruct (tk_kind (lx_cur (lex_ p))); try (by inversion Ht); by rewrite (bind_step _ _ _ _ _ E).
Qed.

Lemma parses_agg h ts f star col : h = true -> agg_call ts f star col ->
  parses h primary (mkColumn (DefaultAggResultName f star col)) ts.
Proof.
  intros -> Ha N fuel p p' HN Hf Hr Hh rec Hd. destruct (ParseAggCall_complete _ _ _ _ _ _ Hr Ha) as [Hk E].
  unfold ParsePrimary. erewrite bind_step by (apply Match_miss; by intros E'; rewrite E' in Hk). cbn iota. rewrite bind_eq. cbn [gets].
  rewrite bind_eq. cbn [current_kind gets]. fold (kind_of p). rewrite Hh, Hk. cbn [andb]. by rewrite (bind_step _ _ _ _ _ E).
Qed.

Lemma parses_cmp h l ts1 o op r ts2 : parses h primary l ts1 -> cmp_token (lkind o) = Some op -> parses h primary r ts2 ->
  parses h cmp_expr (Compare op l r) (ts1 ++ o :: ts2).
Proof.
  intros IH1 Ho IH2 N fuel p p' HN Hf Hr Hh rec Hd Hc. apply reads_app_inv in Hr as (p1 & Hr1 & Hr).
  apply reads_inv_cons in Hr as (_ & Hk & Hne & Hr). rewrite Hk in Ho. pose proof (reads_psize _ _ _ Hr1). pose proof (psize_adv p1 Hne).
  unfold ParseCmp. erewrite bind_step by (apply (IH1 N fuel p p1); [done..|]; by intros E; rewrite E in Ho).
  erewrite bind_step by (by rewrite MatchCmpOp_eq, Ho). cbn iota.
  erewrite bind_step by (apply (IH2 N fuel (adv p1) p'); [lia|lia|done| |done]; rewrite <- Hh; apply (reads_having _ _ _ Hr1)). done.
Qed.

Lemma parses_not_cmp h e ts : phrase h cmp_expr e ts -> parses h cmp_expr e ts -> parses h not_expr e ts.
Proof.
  intros Hp IH N fuel p p' HN Hf Hr Hh rec Hd Hc. destruct (phrase_head _ _ _ _ Hp) as (t & ts' & -> & Hn).
  destruct (reads_head _ _ _ _ Hr) as [Hk _]. destruct fuel as [|fuel]; [lia|]. simpl.
  erewrite bind_step by (apply Match_miss; congruence). cbn iota. by apply (IH N (S fuel)).
Qed.

Lemma phrase_parses h l e ts : phrase h l e ts -> parses h l e ts.
Proof.
  induction 1 as [e ts _ IH|l ts1 o r ts2 _ IH1 Ho _ IH2|e ts _ IH|l ts1 o r ts2 _ IH1 Ho _ IH2|e ts Hp IH|o e ts Ho _ IH
    |e ts _ IH|l ts1 o op r ts2 _ IH1 Ho _ IH2|t v Ht|ts n Hc|o e ts c Ho _ IH Hc|ts f star col Hh Ha].
  - intros N fuel p p' HN Hf Hr Hh rec Hd Hc Ha. subst rec. destruct (IH N fuel p p' HN Hf Hr Hh Hd Hc) as (f1 & Hf1 & E).
    exists fuel. split; [apply reads_psize in Hr; lia|]. unfold ParseOr. by rewrite bind_eq, E, and_loop_done.
  - by apply parses_or_next.
  - intros N fuel p p' HN Hf Hr Hh rec Hd Hc. subst rec. exists fuel. split; [apply reads_psize in Hr; lia|].
    unfold ParseAnd. by rewrite (bind_step _ _ _ _ _ (IH N fuel p p' HN Hf Hr Hh Hd Hc)).
  - by apply parses_and_next.
  - by apply parses_not_cmp.
  - intros N fuel p p' HN Hf Hr Hh rec Hd Hc. subst rec. apply reads_inv_cons in Hr as (_ & Hk & Hne & Hr). pose proof (psize_adv p Hne).
    destruct fuel as [|fuel]; [lia|]. simpl. erewrite bind_step by (apply Match_hit; congruence). cbn iota.
    by rewrite (bind_step _ _ _ _ _ (IH N fuel (adv p) p' ltac:(lia) ltac:(lia) Hr Hh Hd Hc)).
  - intros N fuel p p' HN Hf Hr Hh rec Hd Hc. subst rec. unfold ParseCmp. rewrite (bind_step _ _ _ _ _ (IH N fuel p p' HN Hf Hr Hh Hd)).
    by erewrite bind_step by (by rewrite MatchCmpOp_eq, Hc).
  - by eapply parses_cmp.
  - by apply parses_literal.
  - by apply parses_column.
  - by apply parses_paren.
  - by apply parses_agg.
Qed.

Lemma ParseExpr_complete fuel p e ts p' : (psize p < fuel)%nat -> reads p ts p' -> phrase (having_context_ p) or_expr e ts ->
  stops (kind_of p') = true -> ParseExpr fuel p = (Ret e, p').
Proof.
  intros Hf Hr Hp Hs. apply stops_inv in Hs as (Hd & Ha & Ho & Hc). destruct fuel as [|fuel]; [lia|]. simpl.
  destruct (phrase_parses _ _ _ _ Hp fuel (S fuel) p p' ltac:(lia) Hf Hr eq_refl Hd Hc Ha) as (f1 & Hf1 & E).
  by rewrite E, or_loop_done.
Qed.

(** C25: The recursive descent decides the grammar of expressions.  Given fuel for the
    text that is left, [ParseExpr] returns a tree only for tokens that are a phrase
    of it - OR binds weaker than AND, AND weaker than NOT, NOT weaker than a
    comparison, equal operators associate to the left - and it returns the tree of
    every phrase that is followed by a token which cannot extend it.  After HAVING
    an aggregate call is a name. *)
Theorem expression_grammar fuel p e p' (Hfuel : (psize p < fuel)%nat) :
  (ParseExpr fuel p = (Ret e, p') -> exists ts, reads p ts p' /\ phrase (having_context_ p) or_expr e ts) /\
  (forall ts, reads p ts p' -> phrase (having_context_ p) or_expr e ts -> stops (kind_of p') = true ->
     ParseExpr fuel p = (Ret e, p')).
Proof. split; [apply sound_ParseExpr|]. intros ts Hr Hp Hs. by apply (ParseExpr_complete _ _ _ ts). Qed.

(** [NOT a = 1 AND b OR c] *)
Definition sample_parser : Parser := Parser_new (lit "NOT a = 1 AND b OR c").
Definition sample_tree : Expr :=
  Or (And (Not (Compare kEq (mkColumn (lit "a")) (Literal (VInt64 1)))) (mkColumn (lit "b"))) (mkColumn (lit "c")).

Lemma expression_grammar_witness :
  exists ts, reads sample_parser ts (ParseExpr 30 sample_parser).2 /\ phrase false or_expr sample_tree ts.
Proof.
  apply (proj1 (expression_grammar 30 sample_parser sample_tree (ParseExpr 30 sample_parser).2 ltac:(vm_compute; lia))).
  vm_compute. reflexivity.
Defined.
