(* ===== verification/SqlText.v ===== *)
(** From text to trees: how tokens are spelled, that the lexer reads them back, that
    every expression has a text that parses to it, and what the lexer does with a
    character that starts no token. *)
From S2P Require Import Prelude Status Env Version Types Schema BindContext Expr SqlAst Text SqlLexer SqlParser SqlTotal SqlGrammar.

(** * Spelling *)

Definition word (w : bytes) : bool :=
  match w with c :: _ => (isalpha c || bool_decide (c = underscore)) && forallb ident_char w | [] => false end.
Definition word_kind (w : bytes) : TokenKind := KeywordKind (map tolower w).
(** A name: a word that is no keyword. *)
Definition ident (w : bytes) : bool := word w && bool_decide (word_kind w = TIdent).

Definition symbols : list (TokenKind * bytes) :=
  [(TLParen, lit "("); (TRParen, lit ")"); (TComma, lit ","); (TSemicolon, lit ";"); (TStar, lit "*"); (TDot, lit ".");
   (TEq, lit "="); (TNe, lit "!="); (TNe, lit "<>"); (TLt, lit "<"); (TLe, lit "<="); (TGt, lit ">"); (TGe, lit ">=")].

(** The texts of a token. *)
Inductive spell : Lexeme -> bytes -> Prop :=
  | spell_word w : word w = true -> spell (word_kind w, w, 0) w
  | spell_int z : int64 z -> spell (TInteger, to_string_signed z, z) (to_string_signed z)
  | spell_string s : spell (TString, s, 0) (FormatLiteral (VString s))
  | spell_symbol k t : (k, t) ∈ symbols -> spell (k, [], 0) t.

(** What may follow without being taken as part of the token. *)
Definition may_follow (k : TokenKind) (c : byte) : bool :=
  match k with
  | TInteger => negb (isdigit c)
  | TString => negb (bool_decide (c = quote))
  | TLt => negb (bool_decide (c = "="%byte) || bool_decide (c = ">"%byte))
  | TGt => negb (bool_decide (c = "="%byte))
  | TLParen | TRParen | TComma | TSemicolon | TStar | TDot | TEq | TNe | TLe | TGe => true
  | _ => negb (ident_char c)
  end.
Definition follows (k : TokenKind) (text : bytes) : Prop := forall c, head text = Some c -> may_follow k c = true.

(** A text that spells tokens, with spaces between them; it ends where the lexer
    delivers its end token. *)
Inductive spelled : list Lexeme -> bytes -> Prop :=
  | spelled_nil text : (forall pos, tk_kind (NextToken text pos).1.1 = TEof) -> spelled [] text
  | spelled_cons ws l t ls text : forallb is_space ws = true -> spell l t -> follows (lkind l) text -> spelled ls text ->
      spelled (l :: ls) (ws ++ t ++ text).

(** * The lexer reads what is spelled *)

Lemma SkipWhitespace_app ws text pos : forallb is_space ws = true -> (forall c, head text = Some c -> is_space c = false) ->
  SkipWhitespace (ws ++ text) pos = (text, (pos + length ws)%nat).
Proof. intros H1 H2. unfold SkipWhitespace. by rewrite span_app. Qed.

Lemma NextToken_word rest pos c r pos' : SkipWhitespace rest pos = (c :: r, pos') -> isalpha c || bool_decide (c = underscore) = true ->
  NextToken rest pos = LexIdentOrKeyword (c :: r) pos'.
Proof. intros E Hc. unfold NextToken. rewrite E. destruct c; first [discriminate Hc|done]. Qed.

Lemma NextToken_int rest pos c r pos' : SkipWhitespace rest pos = (c :: r, pos') ->
  isdigit c || (bool_decide (c = Byte.x2d) && match r with d :: _ => isdigit d | [] => false end) = true ->
  NextToken rest pos = LexInteger (c :: r) pos'.
Proof.
  intros E Hc. unfold NextToken. rewrite E. destruct c; first [discriminate Hc|done|idtac]. all: by rewrite Hc.
Qed.

Lemma lex_string_escaped start s text pos out :
  (forall c, head text = Some c -> c <> quote) ->
  (lex_string start (concat (map (fun c => if bool_decide (c = quote) then [quote; quote] else [c]) s) ++ [quote] ++ text) pos out).1 =
  (mkToken TString (out ++ s) 0 start, text).
Proof.
  intros Ht. revert pos out; induction s as [|c s IH]; intros pos out; simpl.
  - rewrite app_nil_r. destruct text as [|c text]; [done|]. rewrite bool_decide_eq_false_2; [done|]. by apply Ht.
  - case_bool_decide as E; simpl.
    + rewrite IH. subst c. by rewrite <- app_assoc.
    + rewrite bool_decide_eq_false_2 by done. by rewrite IH, <- app_assoc.
Qed.

(** The first byte of a token is no space. *)
Lemma spell_head l t : spell l t -> exists c t', t = c :: t' /\ is_space c = false.
Proof.
  destruct 1 as [w Hw|z Hz|s|k t Ht].
  - destruct w as [|c w]; [done|]. exists c, w. split; [done|]. simpl in Hw. apply andb_true_iff in Hw as [Hc _].
    clear -Hc. destruct c; first [discriminate Hc|done].
  - unfold to_string_signed. destruct (Z.ltb_spec z 0); [by eexists _, _|].
    destruct (to_string_head z ltac:(lia)) as (c & ds & -> & Hc). exists c, ds. split; [done|]. by apply isdigit_cases.
  - by eexists _, _.
  - unfold symbols in Ht. repeat (apply elem_of_cons in Ht as [[= _ ->]|Ht]; [by eexists _, _|]). by apply elem_of_nil in Ht.
Qed.

Lemma LexIdentOrKeyword_word w text pos : word w = true -> (forall c, head text = Some c -> ident_char c = false) ->
  LexIdentOrKeyword (w ++ text) pos = (mkToken (word_kind w) w 0 pos, text, (pos + length w)%nat).
Proof.
  intros Hw Ht. unfold LexIdentOrKeyword. rewrite span_app; [done| |done].
  unfold word in Hw. destruct w; [done|]. by apply andb_true_iff in Hw as [_ ?].
Qed.

Lemma LexInteger_spelled z text pos : int64 z -> (forall c, head text = Some c -> isdigit c = false) ->
  (LexInteger (to_string_signed z ++ text) pos).1 = (mkToken TInteger (to_string_signed z) z pos, text).
Proof.
  intros Hz Ht. unfold LexInteger. pose proof (stoll_to_string z Hz) as E. unfold to_string_signed in *. destruct (Z.ltb_spec z 0).
  - destruct (to_string_digits (- z) ltac:(lia)) as (Hd & _ & _). cbn [app]. rewrite bool_decide_eq_true_2 by done.
    rewrite span_app by done. cbn [app]. rewrite E, Nat.eqb_refl. done.
  - destruct (to_string_digits z ltac:(lia)) as (Hd & _ & _). destruct (to_string_head z ltac:(lia)) as (c & ds & E' & Hc).
    rewrite E' in *. cbn [app]. rewrite bool_decide_eq_false_2 by (intros ->; done).
    change (c :: ds ++ text) with ((c :: ds) ++ text). rewrite span_app by done. rewrite app_nil_l, E, Nat.eqb_refl. done.
Qed.

Lemma find_keyword_P (P : TokenKind -> Prop) w l : P TIdent -> Forall (fun wk => P wk.2) l -> P (find_keyword w l).
Proof. intros H0. induction 1 as [|[w' k] l Hk _ IH]; simpl; [done|]. by case_bool_decide. Qed.

Lemma word_kind_P (P : TokenKind -> Prop) w : P TIdent -> Forall (fun wk => P wk.2) keywords -> P (word_kind w).
Proof. apply find_keyword_P. Qed.

Lemma word_follow w c : may_follow (word_kind w) c = true -> ident_char c = false.
Proof.
  apply (word_kind_P (fun k => may_follow k c = true -> ident_char c = false)); [cbn [may_follow]; by destruct (ident_char c)|].
  unfold keywords. repeat (constructor; [cbn [may_follow snd]; by destruct (ident_char c)|]). constructor.
Qed.

(** The symbols, by their first byte. *)
Lemma NextToken_symbol rest pos k t text pos' : (k, t) ∈ symbols -> SkipWhitespace rest pos = (t ++ text, pos') -> follows k text ->
  (NextToken rest pos).1 = (mkToken k [] 0 pos', text).
Proof.
  intros Ht E Hf. unfold NextToken. rewrite E. unfold symbols in Ht.
  repeat (apply elem_of_cons in Ht as [[= -> ->]|Ht]; [try done|]); [| |by apply elem_of_nil in Ht].
  all: destruct text as [|c text]; [done|]; specialize (Hf c eq_refl); simpl in Hf; cbn [app lit]; simpl.
  - rewrite !bool_decide_eq_false_2; [done|intros [= ->]; done|intros [= ->]; done].
  - rewrite !bool_decide_eq_false_2; [done|intros [= ->]; done].
Qed.

Lemma NextToken_spelled ws l t text pos : forallb is_space ws = true -> spell l t -> follows (lkind l) text ->
  lexeme (NextToken (ws ++ t ++ text) pos).1.1 = l /\ (NextToken (ws ++ t ++ text) pos).1.2 = text.
Proof.
  intros Hws Hs Hf. destruct (spell_head l t Hs) as (c & t' & Et & Hc).
  assert (SkipWhitespace (ws ++ t ++ text) pos = (t ++ text, (pos + length ws)%nat)) as E.
  { apply SkipWhitespace_app; [done|]. rewrite Et. simpl. by intros ? [= <-]. }
  destruct Hs as [w Hw|z Hz|s|k t Ht].
  - rewrite Et in *. rewrite (NextToken_word _ _ c (t' ++ text) _ E) by (simpl in Hw; by apply andb_true_iff in Hw as [? _]).
    change (c :: (t' ++ text)) with ((c :: t') ++ text).
    rewrite LexIdentOrKeyword_word; [done|done|]. intros d Hd. by apply (word_follow (c :: t')), Hf.
  - assert (NextToken (ws ++ to_string_signed z ++ text) pos = LexInteger (to_string_signed z ++ text) (pos + length ws)) as E2.
    { rewrite Et in *. apply NextToken_int; [done|]. unfold to_string_signed in Et. destruct (Z.ltb_spec z 0).
      - destruct (to_string_head (- z) ltac:(lia)) as (d & ds & E' & Hd). rewrite E' in Et. injection Et as <- <-. simpl. by rewrite Hd.
      - destruct (to_string_head z ltac:(lia)) as (d & ds & E' & Hd). rewrite E' in Et. injection Et as <- <-. by rewrite Hd. }
    rewrite E2, LexInteger_spelled; [done|done|]. intros d Hd. specialize (Hf d Hd). simpl in Hf. by destruct (isdigit d).
  - assert (NextToken (ws ++ FormatLiteral (VString s) ++ text) pos = lex_string (pos + length ws)
      (concat (map (fun c => if bool_decide (c = quote) then [quote; quote] else [c]) s) ++ [quote] ++ text) (S (pos + length ws)) []) as ->.
    { unfold NextToken. rewrite E. unfold FormatLiteral. rewrite <- app_comm_cons, <- app_assoc. done. }
    rewrite lex_string_escaped; [done|]. intros d Hd. specialize (Hf d Hd). simpl in Hf. by case_bool_decide.
  - by rewrite (NextToken_symbol _ _ k t text _ Ht E Hf).
Qed.

(** [adv] lands on what is spelled next. *)
Lemma reads_spelled ls text p : spelled ls text -> lx_rest (lex_ p) = text -> Forall (fun l => lkind l <> TEof) ls ->
  exists p', reads (adv p) ls p' /\ kind_of p' = TEof.
Proof.
  intros Hs. revert p; induction Hs as [text Heof|ws l t ls text Hws Hsp Hf Hs IH]; intros p Hp Hk.
  - exists (adv p). split; [constructor|]. unfold kind_of, adv, Lexer_Advance. simpl. rewrite Hp.
    specialize (Heof (lx_pos (lex_ p))). by destruct (NextToken text _) as [[tok rest] pos].
  - inversion Hk as [|? ? Hl Hk']; subst. destruct (NextToken_spelled ws l t text (lx_pos (lex_ p)) Hws Hsp Hf) as [El Er].
    assert (cur_lexeme (adv p) = l /\ lx_rest (lex_ (adv p)) = text) as [Ec Erest].
    { unfold cur_lexeme, adv, Lexer_Advance. simpl. rewrite Hp. by destruct (NextToken (ws ++ t ++ text) _) as [[tok rest] pos]. }
    destruct (IH (adv p) Erest Hk') as (p' & Hr & Hend). exists p'. split; [|done]. rewrite <- Ec. constructor; [|done].
    unfold kind_of. by rewrite <- Ec in Hl.
Qed.

Lemma spell_not_eof l t : spell l t -> lkind l <> TEof.
Proof.
  destruct 1 as [w Hw|z Hz|s|k t Ht]; try done.
  - apply (word_kind_P (fun k => k <> TEof)); [done|]. unfold keywords. by repeat constructor.
  - unfold symbols in Ht. repeat (apply elem_of_cons in Ht as [[= -> _]|Ht]; [done|]). by apply elem_of_nil in Ht.
Qed.

Lemma spelled_not_eof ls text : spelled ls text -> Forall (fun l => lkind l <> TEof) ls.
Proof. induction 1; constructor; [by eapply spell_not_eof|done]. Qed.

(** A parser over a spelled text reads its tokens and then stands at the end. *)
Lemma Parser_new_reads ls sql : spelled ls sql -> exists p', reads (Parser_new sql) ls p' /\ kind_of p' = TEof.
Proof.
  intros H. apply (reads_spelled ls sql (mkParser (mkLexer sql 0 (mkToken TEof [] 0 0)) false)); [done|done|by eapply spelled_not_eof].
Qed.

(** * Printing *)

Definition kw (w : bytes) : Lexeme := (word_kind w, w, 0).
Definition sym (k : TokenKind) : Lexeme := (k, [], 0).

Definition literal_lexeme (v : Value) : Lexeme :=
  match v with
  | VNull => kw (lit "NULL")
  | VInt64 z => (TInteger, to_string_signed z, z)
  | VString s => (TString, s, 0)
  | VBool b => kw (if b then lit "TRUE" else lit "FALSE")
  end.
Definition cmp_symbol (op : CmpOp) : TokenKind :=
  match op with kEq => TEq | kNe => TNe | kLt => TLt | kLe => TLe | kGt => TGt | kGe => TGe end.
Definition column_lexemes (n : bytes) : list Lexeme :=
  let '(q, r) := span (fun c => negb (bool_decide (c = dot))) n in
  match r with [] => [kw q] | _ :: f => [kw q; sym TDot; kw f] end.

(** The level of a tree, and parentheses where a weaker one is needed. *)
Definition level_of (e : Expr) : level :=
  match e with Or _ _ => or_expr | And _ _ => and_expr | Not _ => not_expr | Compare _ _ _ => cmp_expr | _ => primary end.
Definition strength (l : level) : nat := match l with or_expr => 0 | and_expr => 1 | not_expr => 2 | cmp_expr => 3 | primary => 4 end.
Definition parens (l : level) (e : Expr) (ts : list Lexeme) : list Lexeme :=
  if (strength l <=? strength (level_of e))%nat then ts else sym TLParen :: ts ++ [sym TRParen].

Fixpoint print (e : Expr) : list Lexeme :=
  match e with
  | Literal v => [literal_lexeme v]
  | Column n _ => column_lexemes n
  | Compare op l r => parens primary l (print l) ++ sym (cmp_symbol op) :: parens primary r (print r)
  | And l r => parens and_expr l (print l) ++ kw (lit "AND") :: parens not_expr r (print r)
  | Or l r => parens or_expr l (print l) ++ kw (lit "OR") :: parens and_expr r (print r)
  | Not c => kw (lit "NOT") :: parens not_expr c (print c)
  end.

Definition spell_text (l : Lexeme) : bytes :=
  let '(k, text, _) := l in
  match k with
  | TString => FormatLiteral (VString text)
  | TLParen | TRParen | TComma | TSemicolon | TStar | TDot | TEq | TNe | TLt | TLe | TGt | TGe => TokenKindName k
  | _ => text
  end.
(** Each token after a space. *)
Definition text_of (ls : list Lexeme) : bytes := concat (map (fun l => lit " " ++ spell_text l) ls).

(** The trees a parser can build: unbound columns with names it can read, 64-bit integers. *)
Definition column_ok (n : bytes) : bool :=
  let '(q, r) := span (fun c => negb (bool_decide (c = dot))) n in
  ident q && match r with [] => true | _ :: f => ident f end.
Fixpoint expr_ok (e : Expr) : bool :=
  match e with
  | Literal (VInt64 z) => bool_decide (int64 z)
  | Literal _ => true
  | Column n i => (i =? -1) && column_ok n
  | Compare _ l r | And l r | Or l r => expr_ok l && expr_ok r
  | Not c => expr_ok c
  end.

Lemma phrase_weaken h l l' e ts : (strength l' <= strength l)%nat -> phrase h l e ts -> phrase h l' e ts.
Proof.
  intros Hs Hp.
  assert (l = primary -> phrase h cmp_expr e ts) as H4 by (intros ->; by constructor).
  assert (l = primary \/ l = cmp_expr -> phrase h not_expr e ts) as H3 by (intros [->| ->]; constructor; auto).
  assert (l = primary \/ l = cmp_expr \/ l = not_expr -> phrase h and_expr e ts) as H2 by (intros [->|[->| ->]]; constructor; auto).
  assert (l = primary \/ l = cmp_expr \/ l = not_expr \/ l = and_expr -> phrase h or_expr e ts) as H1 by (intros [->|[->|[->| ->]]]; constructor; auto).
  destruct l, l'; simpl in Hs; try lia; auto.
Qed.

Lemma phrase_parens h l e ts : phrase h (level_of e) e ts -> phrase h l e (parens l e ts).
Proof.
  intros Hp. unfold parens. destruct (Nat.leb_spec (strength l) (strength (level_of e))); [by eapply phrase_weaken|].
  apply (phrase_weaken h primary); [destruct l; simpl; lia|]. apply primary_paren; [done| |done].
  apply (phrase_weaken h (level_of e)); [simpl; lia|done].
Qed.

Lemma ident_kind w : ident w = true -> word w = true /\ word_kind w = TIdent.
Proof. unfold ident. rewrite andb_true_iff, bool_decide_eq_true. done. Qed.

Lemma span_dot n q r : span (fun c => negb (bool_decide (c = dot))) n = (q, r) -> n = q ++ r /\ (r = [] \/ exists f, r = dot :: f).
Proof.
  intros E. pose proof (span_eq (fun c => negb (bool_decide (c = dot))) n) as En. rewrite E in En. split; [done|].
  clear En. revert q E; induction n as [|c n IH]; intros q E; simpl in E; [injection E as <- <-; by left|].
  destruct (negb _) eqn:Ec; [|injection E as <- <-; right; exists n; apply negb_false_iff, bool_decide_eq_true in Ec; congruence].
  destruct (span _ n) as [q' r'] eqn:E'. injection E as <- <-. by apply (IH q').
Qed.

Lemma phrase_print h e : expr_ok e = true -> phrase h (level_of e) e (print e).
Proof.
  induction e as [v|n i|op l IHl r IHr|l IHl r IHr|l IHl r IHr|c IHc]; simpl; intros H.
  - constructor. destruct v as [|z|s|[]]; constructor.
  - apply andb_true_iff in H as [->%Z.eqb_eq H]. constructor. unfold column_ok, column_lexemes in *.
    destruct (span _ n) as [q r] eqn:E. apply span_dot in E as [-> [->|[f ->]]]; apply andb_true_iff in H as [Hq Hf].
    + apply ident_kind in Hq as [_ Hq]. rewrite app_nil_r. unfold kw. rewrite Hq. constructor.
    + apply ident_kind in Hq as [_ Hq], Hf as [_ Hf]. unfold kw. rewrite Hq, Hf. by apply ref_qualified.
  - apply andb_true_iff in H as [Hl Hr]. apply cmp_cmp; [apply phrase_parens; auto|by destruct op|apply phrase_parens; auto].
  - apply andb_true_iff in H as [Hl Hr]. apply and_next; [apply phrase_parens; auto|done|apply phrase_parens; auto].
  - apply andb_true_iff in H as [Hl Hr]. apply or_next; [apply phrase_parens; auto|done|apply phrase_parens; auto].
  - apply not_not; [done|]. apply phrase_parens; auto.
Qed.

(** The text of printable tokens spells them. *)
Definition printable (l : Lexeme) : Prop := spell l (spell_text l).

Lemma printable_kw w : word w = true -> printable (kw w).
Proof.
  intros Hw. unfold printable, kw. assert (spell_text (word_kind w, w, 0) = w) as ->; [|by constructor].
  apply (word_kind_P (fun k => spell_text (k, w, 0) = w)); [done|]. unfold keywords. by repeat constructor.
Qed.

Lemma follows_space k ls : follows k (text_of ls).
Proof. intros c Hc. destruct ls as [|l ls]; [done|]. injection Hc as <-. by destruct k. Qed.

Lemma spelled_text ls : Forall printable ls -> spelled ls (text_of ls).
Proof.
  induction 1 as [|l ls Hl _ IH]; [by constructor|]. change (text_of (l :: ls)) with (lit " " ++ spell_text l ++ text_of ls).
  constructor; [done|done|apply follows_space|done].
Qed.

Lemma Forall_parens l e ts : Forall printable ts -> Forall printable (parens l e ts).
Proof.
  intros H. unfold parens. destruct (_ <=? _)%nat; [done|]. constructor; [apply spell_symbol; unfold symbols; set_solver|].
  apply Forall_app. split; [done|]. constructor; [apply spell_symbol; unfold symbols; set_solver|done].
Qed.

Lemma print_printable e : expr_ok e = true -> Forall printable (print e).
Proof.
  induction e as [v|n i|op l IHl r IHr|l IHl r IHr|l IHl r IHr|c IHc]; simpl; intros H.
  - constructor; [|done]. destruct v as [|z|s|[]]; simpl in *; try (by apply printable_kw); [|constructor].
    constructor. by apply bool_decide_eq_true in H.
  - apply andb_true_iff in H as [_ H]. unfold column_ok, column_lexemes in *. destruct (span _ n) as [q r].
    apply andb_true_iff in H as [Hq Hf]. apply ident_kind in Hq as [Hq _].
    destruct r as [|d f]; (constructor; [by apply printable_kw|]); [done|]. apply ident_kind in Hf as [Hf _].
    constructor; [apply spell_symbol; unfold symbols; set_solver|]. constructor; [by apply printable_kw|done].
  - apply andb_true_iff in H as [Hl Hr]. apply Forall_app. split; [apply Forall_parens; auto|].
    constructor; [destruct op; apply spell_symbol; unfold symbols; set_solver|apply Forall_parens; auto].
  - apply andb_true_iff in H as [Hl Hr]. apply Forall_app. split; [apply Forall_parens; auto|].
    constructor; [by apply printable_kw|apply Forall_parens; auto].
  - apply andb_true_iff in H as [Hl Hr]. apply Forall_app. split; [apply Forall_parens; auto|].
    constructor; [by apply printable_kw|apply Forall_parens; auto].
  - constructor; [by apply printable_kw|apply Forall_parens; auto].
Qed.

(** * Statements over spelled tokens *)

Lemma ParseDelete_eq fuel p d f t z p1 : reads p [d; f; (TIdent, t, z)] p1 -> lkind d = TDelete -> lkind f = TFrom ->
  kind_of p = TDelete /\ ParseOne fuel p = (where_ ← opt_expr fuel TWhere; mret (DeleteStmt t where_)) p1.
Proof.
  intros Hr Hd Hf. apply reads_inv_cons in Hr as (_ & Hk & _ & Hr). apply reads_inv_cons in Hr as (_ & Hk2 & _ & Hr).
  apply reads_inv_cons in Hr as (Hl & _ & _ & Hr). apply reads_inv_nil in Hr as ->. rewrite Hd in Hk. rewrite Hf in Hk2.
  split; [done|]. unfold ParseOne, RejectUnsupportedStatementStart. rewrite bind_eq, bind_eq. cbn [current_kind gets].
  fold (kind_of p). rewrite <- Hk. cbn [mret SM_ret]. rewrite bind_eq. cbn [current_kind gets]. fold (kind_of p). rewrite <- Hk.
  unfold ParseDelete. rewrite bind_eq. cbn [Advance modify]. fold (adv p). rewrite (bind_step _ _ _ _ _ (Expect_hit _ _ _ (eq_sym Hk2))).
  by erewrite bind_step by (eapply ParseIdent_hit; symmetry; exact Hl).
Qed.

(** A script of one statement. *)
Lemma script_one fuel n p stmt p' : kind_of p <> TEof -> kind_of p <> TSemicolon -> ParseOne fuel p = (Ret stmt, p') -> kind_of p' = TEof ->
  script_loop fuel (S n) [] p = (Ret [stmt], p').
Proof.
  intros H1 H2 E H3. simpl. rewrite bind_eq. cbn [Check_ gets]. rewrite bool_decide_eq_false_2 by done.
  rewrite (bind_step _ _ _ _ _ (Match_miss _ _ H2)). cbn iota. rewrite (bind_step _ _ _ _ _ E).
  rewrite bind_eq. cbn [Check_ gets]. by rewrite bool_decide_eq_true_2.
Qed.

Lemma parse_delete_where sql d f t z w ts e : spelled (d :: f :: (TIdent, t, z) :: w :: ts) sql ->
  lkind d = TDelete -> lkind f = TFrom -> lkind w = TWhere -> phrase false or_expr e ts ->
  ParseScript sql = Ret [DeleteStmt t (Some e)].
Proof.
  intros Hs Hd Hf Hw Hp. destruct (Parser_new_reads _ _ Hs) as (p' & Hr & Heof). pose proof (psize_Parser_new sql).
  apply (reads_app_inv _ [d; f; (TIdent, t, z)]) in Hr as (p1 & Hr1 & Hr2). pose proof (reads_psize _ _ _ Hr1).
  pose proof (reads_having _ _ _ Hr1) as Hh. destruct (ParseDelete_eq (parse_fuel sql) _ _ _ _ _ _ Hr1 Hd Hf) as [Hk E].
  apply reads_inv_cons in Hr2 as (_ & Hk1 & Hne & Hr2). rewrite Hw in Hk1. pose proof (psize_adv p1 Hne).
  change (ParseScript sql) with (script_loop (parse_fuel sql) (S (S (length sql))) [] (Parser_new sql)).1.
  erewrite script_one; [done|congruence|congruence| |exact Heof]. rewrite E. unfold opt_expr.
  rewrite bind_eq, (bind_step _ _ _ _ _ (Match_hit _ _ (eq_sym Hk1))). cbn iota.
  erewrite bind_step; [done|]. eapply ParseExpr_complete; [unfold parse_fuel; lia|done| |by rewrite Heof].
  simpl. by rewrite Hh.
Qed.

(** C26: Every expression has a text, and the parser reads it back.  The printer
    writes a tree with the parentheses its operators need; the text it gives - and
    any other spelling of the same tokens, with any spaces that keep them apart -
    parses to the tree again, as the condition of a DELETE.  Literals keep their
    value: negative and extreme 64-bit numbers, and strings with quotes in them. *)
Theorem expression_text_roundtrip t e (Ht : ident t = true) (He : expr_ok e = true) :
  (forall text, spelled (kw (lit "DELETE") :: kw (lit "FROM") :: kw t :: kw (lit "WHERE") :: print e) text ->
     ParseScript text = Ret [DeleteStmt t (Some e)]) /\
  ParseScript (lit "DELETE FROM " ++ t ++ lit " WHERE" ++ text_of (print e)) = Ret [DeleteStmt t (Some e)].
Proof.
  destruct (ident_kind t Ht) as [Hw Hk]. assert (kw t = (TIdent, t, 0)) as Ekw by (unfold kw; by rewrite Hk).
  assert (forall text, spelled (kw (lit "DELETE") :: kw (lit "FROM") :: kw t :: kw (lit "WHERE") :: print e) text ->
     ParseScript text = Ret [DeleteStmt t (Some e)]) as H.
  { intros text Hs. rewrite Ekw in Hs. eapply parse_delete_where; [exact Hs|done..|].
    apply (phrase_weaken false (level_of e)); [simpl; lia|]. by apply phrase_print. }
  split; [done|]. apply H. change (lit "DELETE FROM " ++ t ++ lit " WHERE" ++ text_of (print e)) with
    ([] ++ lit "DELETE" ++ (lit " " ++ lit "FROM" ++ (lit " " ++ t ++ (lit " " ++ lit "WHERE" ++ text_of (print e))))).
  repeat (apply spelled_cons; [done|first [by apply spell_word|exact (spell_word t Hw)]| |]).
  - by intros c [= <-].
  - by intros c [= <-].
  - intros c [= <-]. rewrite Ekw. done.
  - apply follows_space.
  - by apply spelled_text, print_printable.
Qed.

Definition sample_condition : Expr :=
  And (Not (Or (Compare kLe (mkColumn (lit "t.id")) (Literal (VInt64 (- 2 ^ 63)))) (mkColumn (lit "flag"))))
    (Compare kNe (mkColumn (lit "name")) (Literal (VString (lit "it's")))).
Lemma expression_text_roundtrip_witness :
  ParseScript (lit "DELETE FROM t WHERE" ++ text_of (print sample_condition)) = Ret [DeleteStmt (lit "t") (Some sample_condition)].
Proof. exact (proj2 (expression_text_roundtrip (lit "t") sample_condition eq_refl eq_refl)). Defined.

(** * Text that is no token *)

(** The bytes that start no token. *)
Definition stray (c : byte) : bool :=
  match c with
  | "("%byte | ")"%byte | ","%byte | ";"%byte | "*"%byte | "."%byte | "="%byte | "!"%byte | "<"%byte | ">"%byte | "'"%byte | "-"%byte => false
  | _ => negb (is_space c || ident_char c)
  end.

Lemma NextToken_stray c junk pos : stray c = true -> tk_kind (NextToken (lit " " ++ c :: junk) pos).1.1 = TEof.
Proof.
  intros Hc. unfold NextToken. rewrite SkipWhitespace_app; [|done|intros ? [= <-]; clear -Hc; destruct c; first [discriminate Hc|done]].
  destruct c; first [discriminate Hc|done].
Qed.

(** C39: A byte that starts no token ends the script silently: whatever follows it is
    not read, and no error is reported.  So a DELETE whose condition comes after
    such a byte is accepted as one without a condition. *)
Theorem stray_byte_ends_script t c junk (Ht : ident t = true) (Hc : stray c = true) :
  ParseScript (lit "DELETE FROM " ++ t ++ lit " " ++ c :: junk) = Ret [DeleteStmt t None].
Proof.
  destruct (ident_kind t Ht) as [Hw Hk]. assert (kw t = (TIdent, t, 0)) as Ekw by (unfold kw; by rewrite Hk).
  set (sql := lit "DELETE FROM " ++ t ++ lit " " ++ c :: junk).
  assert (spelled [kw (lit "DELETE"); kw (lit "FROM"); kw t] sql) as Hs.
  { change sql with ([] ++ lit "DELETE" ++ (lit " " ++ lit "FROM" ++ (lit " " ++ t ++ (lit " " ++ c :: junk)))).
    repeat (apply spelled_cons; [done|first [by apply spell_word|exact (spell_word t Hw)]| |]).
    - by intros d [= <-].
    - by intros d [= <-].
    - intros d [= <-]. by rewrite Ekw.
    - constructor. intros pos. by apply NextToken_stray. }
  rewrite Ekw in Hs. destruct (Parser_new_reads _ _ Hs) as (p' & Hr & Heof).
  destruct (ParseDelete_eq (parse_fuel sql) _ _ _ _ _ _ Hr eq_refl eq_refl) as [Hk' E].
  change (ParseScript sql) with (script_loop (parse_fuel sql) (S (S (length sql))) [] (Parser_new sql)).1.
  erewrite script_one; [done|congruence|congruence| |exact Heof]. rewrite E. unfold opt_expr.
  rewrite bind_eq. by erewrite bind_step by (apply Match_miss; congruence).
Qed.

Lemma stray_byte_ends_script_witness :
  ParseScript (lit "DELETE FROM accounts # WHERE id = 7") = Ret [DeleteStmt (lit "accounts") None].
Proof. exact (stray_byte_ends_script (lit "accounts") "#"%byte (lit " WHERE id = 7") eq_refl eq_refl). Defined.

(** A number outside the 64-bit range is taken for a name. *)
Lemma integer_overflow_is_ident c ds text pos :
  forallb isdigit (c :: ds) = true -> ~ int64 (parse_digits (c :: ds) 0) -> (forall d, head text = Some d -> isdigit d = false) ->
  (LexInteger ((c :: ds) ++ text) pos).1.1 = mkToken TIdent (lit "integer out of range") 0 pos.
Proof.
  intros Hd Hz Ht. assert (isdigit c = true) as Hc by (simpl in Hd; by apply andb_true_iff in Hd as [? _]).
  destruct (isdigit_cases c Hc) as (Hs & H45 & H43). unfold LexInteger. cbn [app]. rewrite bool_decide_eq_false_2 by (intros ->; done).
  change (c :: ds ++ text) with ((c :: ds) ++ text). rewrite span_app, app_nil_l by done.
  assert (stoll (c :: ds) = None) as ->; [|done]. unfold stoll.
  replace (skip_space (c :: ds)) with (c :: ds) by (simpl; by rewrite Hs).
  rewrite H45, H43, span_all by done. rewrite bool_decide_eq_false_2 by done. by rewrite bool_decide_eq_false_2.
Qed.
