(* ===== verification/Kv.v ===== *)
(** The key-value interface of the relational layer ([lsmkv::DB], include/lsmkv/db.h).

    The relational layer calls the engine through four operations: [Get], [Put],
    [Delete] and an iterator positioned with [Seek].  Its code is modelled as
    programs over these operations ([Kv]), which a store interprets
    ([run_kv]).  [KvStoreLaws] is what a store promises: it answers like a finite
    map.  The engine [DBImpl] keeps that promise, so a program behaves on it as
    on the map ([run_kv_refines]), and the relational layer can be verified on
    maps. *)
From S2P Require Import Prelude Status Slice Encoding InternalKey Run MemTable Env Wal Block.
From S2P Require Import Options SSTable Version Merge Compaction Db DbInv DbRefine DbIter.

(** * Programs *)

(** What [NewIterator(ReadOptions()); Seek(target)] delivers: the pairs it stands
    on, one after the other, with the status it reports there, and the status at
    the end.  The iterator pins its snapshot, so later writes do not change it. *)
Record Cursor := mkCursor { cur_entries : list (bytes * bytes * Status); cur_end : Status }.

Inductive Kv (A : Type) : Type :=
  | KRet (a : A)
  | KGet (key : bytes) (k : Status + bytes -> Kv A)
  | KPut (key value : bytes) (k : Status + unit -> Kv A)
  | KDelete (key : bytes) (k : Status + unit -> Kv A)
  | KSeek (target : bytes) (k : Cursor -> Kv A).
Arguments KRet {A} a.
Arguments KGet {A} key k.
Arguments KPut {A} key value k.
Arguments KDelete {A} key k.
Arguments KSeek {A} target k.

#[global] Instance Kv_ret : MRet Kv := fun A a => KRet a.
Fixpoint Kv_bind_ {A B} (f : A -> Kv B) (p : Kv A) : Kv B :=
  match p with
  | KRet a => f a
  | KGet key k => KGet key (fun r => Kv_bind_ f (k r))
  | KPut key value k => KPut key value (fun r => Kv_bind_ f (k r))
  | KDelete key k => KDelete key (fun r => Kv_bind_ f (k r))
  | KSeek target k => KSeek target (fun r => Kv_bind_ f (k r))
  end.
#[global] Instance Kv_bind : MBind Kv := @Kv_bind_.

(** Stateful fallible code over the interface: a failing call keeps the state. *)
Definition KM (S A : Type) : Type := S -> Kv (Res A * S).

#[global] Instance KM_ret {S} : MRet (KM S) := fun A a s => KRet (Ret a, s).
#[global] Instance KM_bind {S} : MBind (KM S) := fun A B f m s =>
  Kv_bind_ (fun rs : Res A * S =>
    match rs with
    | (Ret a, s') => f a s'
    | (Fail e, s') => KRet (Fail e, s')
    | (Stuck, s') => KRet (Stuck, s')
    end) (m s).

Definition res_of_sum {A} (r : Status + A) : Res A := match r with inl e => Fail e | inr a => Ret a end.

Section KMOps.
Context {S : Type}.
Definition kv_Get (key : bytes) : KM S bytes := fun s => KGet key (fun r => KRet (res_of_sum r, s)).
Definition kv_Put (key value : bytes) : KM S unit := fun s => KPut key value (fun r => KRet (res_of_sum r, s)).
Definition kv_Delete (key : bytes) : KM S unit := fun s => KDelete key (fun r => KRet (res_of_sum r, s)).
Definition kv_Seek (target : bytes) : KM S Cursor := fun s => KSeek target (fun c => KRet (Ret c, s)).

Definition kfail {A} (e : Status) : KM S A := fun s => KRet (Fail e, s).
Definition kgets {A} (f : S -> A) : KM S A := fun s => KRet (Ret (f s), s).
Definition kmodify (f : S -> S) : KM S unit := fun s => KRet (Ret tt, f s).
Definition klift {A} (r : Res A) : KM S A := fun s => KRet (r, s).
(** [auto st = call();]: the status is inspected. *)
Definition ktry {A} (m : KM S A) : KM S (Status + A) := fun s =>
  Kv_bind_ (fun rs : Res A * S =>
    match rs with
    | (Ret a, s') => KRet (Ret (inr a), s')
    | (Fail e, s') => KRet (Ret (inl e), s')
    | (Stuck, s') => KRet (Stuck, s')
    end) (m s).
(** [RELDB_FAIL_IF(c, Code, msg)] *)
Definition kfail_if (c : bool) (e : Status) : KM S unit := if c then kfail e else mret tt.
Fixpoint kfor_each {A} (l : list A) (body : A -> KM S unit) : KM S unit :=
  match l with
  | [] => mret tt
  | x :: l => body x ;; kfor_each l body
  end.
End KMOps.

(** A call on a component of the state. *)
Definition kzoom {S T A} (get : S -> T) (put : T -> S -> S) (m : KM T A) : KM S A := fun s =>
  Kv_bind_ (fun rt : Res A * T => KRet (rt.1, put rt.2 s)) (m (get s)).

(** * The reference store: a finite map *)

(** Pairs in key order. *)
Definition key_le (a b : bytes * bytes) : Prop := lex a.1 b.1 <> Gt.
#[global] Instance key_le_dec a b : Decision (key_le a b).
Proof. unfold key_le. apply _. Defined.

Definition sorted_pairs (m : gmap bytes bytes) : list (bytes * bytes) := merge_sort key_le (map_to_list m).
Definition pairs_from (target : bytes) (m : gmap bytes bytes) : list (bytes * bytes) :=
  filter (fun p => lex target p.1 <> Gt) (sorted_pairs m).
Definition good_cursor (ps : list (bytes * bytes)) : Cursor := mkCursor (map (fun p => (p, OK)) ps) OK.

Definition map_get (m : gmap bytes bytes) (key : bytes) : Status + bytes :=
  match m !! key with Some v => inr v | None => inl (NotFound []) end.

Fixpoint run_map {A} (p : Kv A) (m : gmap bytes bytes) : A * gmap bytes bytes :=
  match p with
  | KRet a => (a, m)
  | KGet key k => run_map (k (map_get m key)) m
  | KPut key value k => run_map (k (inr tt)) (<[key := value]> m)
  | KDelete key k => run_map (k (inr tt)) (delete key m)
  | KSeek target k => run_map (k (good_cursor (pairs_from target m))) m
  end.

(** The store a crash leaves: the first [n] writes of the program were done. *)
Fixpoint run_crash {A} (n : nat) (p : Kv A) (m : gmap bytes bytes) : gmap bytes bytes :=
  match p with
  | KRet _ => m
  | KGet key k => run_crash n (k (map_get m key)) m
  | KPut key value k => match n with O => m | S n => run_crash n (k (inr tt)) (<[key := value]> m) end
  | KDelete key k => match n with O => m | S n => run_crash n (k (inr tt)) (delete key m) end
  | KSeek target k => run_crash n (k (good_cursor (pairs_from target m))) m
  end.

(** A stateful program on the map, as a computation on both states. *)
Definition exec {S A} (p : KM S A) : SM (S * gmap bytes bytes) A := fun sm =>
  let '(r, s, m) := run_map (p sm.1) sm.2 in (r, (s, m)).

Lemma run_map_bind {A B} (p : Kv A) (f : A -> Kv B) m :
  run_map (Kv_bind_ f p) m = let '(a, m') := run_map p m in run_map (f a) m'.
Proof. revert m; induction p; intros m; cbn; auto. Qed.

Section Exec.
Context {S : Type}.
Implicit Types (s : S) (m : gmap bytes bytes).

Lemma exec_bind {A B} (p : KM S A) (f : A -> KM S B) sm :
  exec (x ← p; f x) sm =
    match exec p sm with
    | (Ret a, sm') => exec (f a) sm'
    | (Fail e, sm') => (Fail e, sm')
    | (Stuck, sm') => (Stuck, sm')
    end.
Proof.
  unfold exec, mbind, KM_bind. rewrite run_map_bind.
  destruct (run_map (p sm.1) sm.2) as [[r s'] m']. by destruct r.
Qed.

Lemma exec_ret {A} (a : A) sm : exec (mret a : KM S A) sm = (Ret a, sm).
Proof. by destruct sm. Qed.
Lemma exec_fail {A} e sm : exec (kfail e : KM S A) sm = (Fail e, sm).
Proof. by destruct sm. Qed.
Lemma exec_gets {A} (f : S -> A) sm : exec (kgets f) sm = (Ret (f sm.1), sm).
Proof. by destruct sm. Qed.
Lemma exec_modify (f : S -> S) sm : exec (kmodify f) sm = (Ret tt, (f sm.1, sm.2)).
Proof. by destruct sm. Qed.
Lemma exec_lift {A} (r : Res A) sm : exec (klift r : KM S A) sm = (r, sm).
Proof. by destruct sm. Qed.
Lemma exec_Get key sm : exec (kv_Get key : KM S _) sm = (res_of_sum (map_get sm.2 key), sm).
Proof. by destruct sm. Qed.
Lemma exec_Put key value sm : exec (kv_Put key value : KM S _) sm = (Ret tt, (sm.1, <[key := value]> sm.2)).
Proof. by destruct sm. Qed.
Lemma exec_Delete key sm : exec (kv_Delete key : KM S _) sm = (Ret tt, (sm.1, delete key sm.2)).
Proof. by destruct sm. Qed.
Lemma exec_Seek target sm : exec (kv_Seek target : KM S _) sm = (Ret (good_cursor (pairs_from target sm.2)), sm).
Proof. by destruct sm. Qed.
Lemma exec_try {A} (p : KM S A) sm :
  exec (ktry p) sm =
    match exec p sm with
    | (Ret a, sm') => (Ret (inr a), sm')
    | (Fail e, sm') => (Ret (inl e), sm')
    | (Stuck, sm') => (Stuck, sm')
    end.
Proof.
  unfold exec, ktry. rewrite run_map_bind. destruct (run_map (p sm.1) sm.2) as [[r s'] m']. by destruct r.
Qed.
Lemma exec_fail_if c e sm : exec (kfail_if c e : KM S _) sm = if c then (Fail e, sm) else (Ret tt, sm).
Proof. by destruct c, sm. Qed.
End Exec.

Lemma exec_zoom {S T A} (get : S -> T) (put : T -> S -> S) (p : KM T A) s m :
  exec (kzoom get put p) (s, m) = let '(r, tm) := exec p (get s, m) in (r, (put tm.1 s, tm.2)).
Proof. unfold exec, kzoom. cbn. rewrite run_map_bind. by destruct (run_map (p (get s)) m) as [[r t] m']. Qed.

(** Run a program on the map symbolically. *)
Ltac kv_step :=
  repeat first
    [ rewrite exec_bind | rewrite exec_try | rewrite exec_ret | rewrite exec_fail | rewrite exec_gets
    | rewrite exec_modify | rewrite exec_lift | rewrite exec_Get | rewrite exec_Put | rewrite exec_Delete
    | rewrite exec_Seek | rewrite exec_fail_if ]; cbn [fst snd res_of_sum].

(** ** Crashes *)

(** A crash during [p] can leave the store [m']. *)
Definition crash_at {S A} (p : KM S A) (sm : S * gmap bytes bytes) (m' : gmap bytes bytes) : Prop :=
  exists n, run_crash n (p sm.1) sm.2 = m'.

Lemma run_crash_bind {A B} (f : A -> Kv B) (p : Kv A) : forall n m, 
  run_crash n (Kv_bind_ f p) m = run_crash n p m \/
  exists n', run_crash n (Kv_bind_ f p) m = run_crash n' (f (run_map p m).1) (run_map p m).2.
Proof.
  induction p as [a|key k IH|key value k IH|key k IH|target k IH]; intros n m; cbn [Kv_bind_ run_crash run_map].
  - right. by exists n.
  - apply IH.
  - destruct n; [by left|apply IH].
  - destruct n; [by left|apply IH].
  - apply IH.
Qed.

Section Crash.
Context {S : Type}.
Implicit Types (sm : S * gmap bytes bytes) (m : gmap bytes bytes).

(** The crash is in the first part, or in the second after the first returned. *)
Lemma crash_bind {A B} (p : KM S A) (f : A -> KM S B) sm m' : crash_at (x ← p; f x) sm m' ->
  crash_at p sm m' \/
  match exec p sm with
  | (Ret a, sm1) => crash_at (f a) sm1 m'
  | (_, sm1) => m' = sm1.2
  end.
Proof.
  unfold crash_at, mbind, KM_bind, exec. intros [n E].
  match type of E with run_crash n (Kv_bind_ ?g ?q) ?m0 = _ => destruct (run_crash_bind g q n m0) as [E'|[n' E']] end;
    rewrite E' in E; [left; eauto|right].
  destruct (run_map (p sm.1) sm.2) as [[[a|e|] s1] m1]; cbn in E |- *; eauto.
Qed.

Lemma crash_try {A} (p : KM S A) sm m' : crash_at (ktry p) sm m' -> crash_at p sm m' \/ m' = (exec p sm).2.2.
Proof.
  unfold crash_at, ktry, exec. intros [n E].
  match type of E with run_crash n (Kv_bind_ ?g ?q) ?m0 = _ => destruct (run_crash_bind g q n m0) as [E'|[n' E']] end;
    rewrite E' in E; [left; eauto|right].
  destruct (run_map (p sm.1) sm.2) as [[[a|e|] s1] m1]; cbn in *; by subst.
Qed.

Lemma crash_ret {A} (a : A) sm m' : crash_at (mret a : KM S A) sm m' -> m' = sm.2.
Proof. by intros [n <-]. Qed.
Lemma crash_fail {A} e sm m' : crash_at (kfail e : KM S A) sm m' -> m' = sm.2.
Proof. by intros [n <-]. Qed.
Lemma crash_gets {A} (f : S -> A) sm m' : crash_at (kgets f) sm m' -> m' = sm.2.
Proof. by intros [n <-]. Qed.
Lemma crash_modify (f : S -> S) sm m' : crash_at (kmodify f) sm m' -> m' = sm.2.
Proof. by intros [n <-]. Qed.
Lemma crash_lift {A} (r : Res A) sm m' : crash_at (klift r : KM S A) sm m' -> m' = sm.2.
Proof. by intros [n <-]. Qed.
Lemma crash_fail_if c e sm m' : crash_at (kfail_if c e : KM S unit) sm m' -> m' = sm.2.
Proof. destruct c; by intros [n <-]. Qed.
Lemma crash_Get key sm m' : crash_at (kv_Get key : KM S _) sm m' -> m' = sm.2.
Proof. by intros [n <-]. Qed.
Lemma crash_Put key value sm m' : crash_at (kv_Put key value : KM S _) sm m' ->
  m' = sm.2 \/ m' = <[key := value]> sm.2.
Proof. intros [[|n] <-]; auto. Qed.
End Crash.

Lemma crash_zoom {S T A} (get : S -> T) (put : T -> S -> S) (p : KM T A) s m m' :
  crash_at (kzoom get put p) (s, m) m' -> crash_at p (get s, m) m' \/ m' = (exec p (get s, m)).2.2.
Proof.
  unfold crash_at, kzoom, exec. cbn. intros [n E].
  match type of E with run_crash n (Kv_bind_ ?g ?q) ?m0 = _ => destruct (run_crash_bind g q n m0) as [E'|[n' E']] end;
    rewrite E' in E; [left; eauto|right]. destruct (run_map (p (get s)) m) as [[r t] m1]. cbn in *. by subst.
Qed.

(** * The sorted pairs of a map *)

#[global] Instance key_le_total : Total key_le.
Proof. intros a b. unfold key_le. rewrite (lex_antisym a.1). destruct (lex a.1 b.1); naive_solver. Qed.
#[global] Instance key_le_trans : Transitive key_le.
Proof. intros a b c. unfold key_le. apply lex_trans. Qed.

Lemma elem_of_sorted_pairs m u v : (u, v) ∈ sorted_pairs m <-> m !! u = Some v.
Proof. unfold sorted_pairs. by rewrite merge_sort_Permutation, elem_of_map_to_list. Qed.

Lemma sorted_pairs_sorted m : StronglySorted key_lt (sorted_pairs m).
Proof.
  assert (Hs : StronglySorted key_le (sorted_pairs m)) by (apply StronglySorted_merge_sort; apply _).
  assert (Hn : NoDup (map fst (sorted_pairs m))).
  { unfold sorted_pairs. rewrite merge_sort_Permutation. apply NoDup_fst_map_to_list. }
  induction Hs as [|p ps Hs IH Hf]; [constructor|]. cbn [map] in Hn. apply NoDup_cons in Hn as [Hp Hn].
  constructor; [by apply IH|]. rewrite Forall_forall in *. intros q Hq. specialize (Hf q Hq).
  unfold key_le, key_lt in *. destruct (lex p.1 q.1) eqn:E; [|done|done]. apply lex_eq in E.
  destruct Hp. rewrite E. by apply list_elem_of_fmap_2.
Qed.

Lemma elem_of_pairs_from target m u v :
  (u, v) ∈ pairs_from target m <-> lex target u <> Gt /\ m !! u = Some v.
Proof. unfold pairs_from. by rewrite list_elem_of_filter, elem_of_sorted_pairs. Qed.

(** * Stores *)

Class KvStore (S : Type) := {
  store_get : bytes -> SM S bytes;
  store_put : bytes -> bytes -> SM S unit;
  store_delete : bytes -> SM S unit;
  store_seek : bytes -> SM S Cursor
}.

Fixpoint run_kv {S} `{KvStore S} {A} (p : Kv A) : SM S A :=
  match p with
  | KRet a => mret a
  | KGet key k => r ← try (store_get key); run_kv (k r)
  | KPut key value k => r ← try (store_put key value); run_kv (k r)
  | KDelete key k => r ← try (store_delete key); run_kv (k r)
  | KSeek target k => c ← store_seek target; run_kv (k c)
  end.

(** The room an operation takes: a store may be bounded. *)
Definition get_room (key : bytes) : Z := write_cost key [].

(** What a store promises: [kv_rep b m s] says that [s] holds the map [m] and has
    room for operations worth [b]; every operation answers as the map does. *)
Class KvStoreLaws (S : Type) `{KvStore S} := {
  kv_rep : Z -> gmap bytes bytes -> S -> Prop;
  kv_law_get : forall b m s key, 0 <= b -> kv_rep (b + get_room key) m s ->
    exists s', store_get key s = (res_of_sum (map_get m key), s') /\ kv_rep b m s';
  kv_law_put : forall b m s key value, 0 <= b -> kv_rep (b + write_cost key value) m s ->
    exists s', store_put key value s = (Ret tt, s') /\ kv_rep b (<[key := value]> m) s';
  kv_law_delete : forall b m s key, 0 <= b -> kv_rep (b + write_cost key []) m s ->
    exists s', store_delete key s = (Ret tt, s') /\ kv_rep b (delete key m) s';
  kv_law_seek : forall b m s target, 0 <= b -> kv_rep (b + get_room target) m s ->
    exists s', store_seek target s = (Ret (good_cursor (pairs_from target m)), s') /\ kv_rep b m s'
}.

(** The room a program takes when it runs on [m]. *)
Fixpoint kv_room {A} (p : Kv A) (m : gmap bytes bytes) : Z :=
  match p with
  | KRet _ => 0
  | KGet key k => get_room key + kv_room (k (map_get m key)) m
  | KPut key value k => write_cost key value + kv_room (k (inr tt)) (<[key := value]> m)
  | KDelete key k => write_cost key [] + kv_room (k (inr tt)) (delete key m)
  | KSeek target k => get_room target + kv_room (k (good_cursor (pairs_from target m))) m
  end.

Lemma write_cost_pos key value : 0 <= write_cost key value.
Proof. unfold write_cost. lia. Qed.

Lemma kv_room_pos {A} (p : Kv A) m : 0 <= kv_room p m.
Proof.
  revert m; induction p as [|key k IH|key value k IH|key k IH|target k IH]; intros m; cbn [kv_room]; [lia|..];
    unfold get_room; pose proof write_cost_pos; match goal with |- 0 <= ?a + ?b => enough (0 <= a /\ 0 <= b) by lia end;
    split; auto.
Qed.

(** A program does on every lawful store what it does on the map. *)
Lemma run_kv_refines {S} `{KvStoreLaws S} {A} (p : Kv A) : forall b m s, 0 <= b ->
  kv_rep (b + kv_room p m) m s ->
  exists s', run_kv p s = (Ret (run_map p m).1, s') /\ kv_rep b (run_map p m).2 s'.
Proof.
  induction p as [a|key k IH|key value k IH|key k IH|target k IH]; intros b m s Hb Hs; cbn [run_kv run_map kv_room] in *.
  - exists s. split; [done|]. by rewrite Z.add_0_r in Hs.
  - set (c := kv_room _ _) in *. pose proof (kv_room_pos (k (map_get m key)) m).
    destruct (kv_law_get (b + c) m s key) as (s1 & E & Hs1); [lia|by replace (b + c + get_room key) with (b + (get_room key + c)) by lia|].
    destruct (IH (map_get m key) b m s1 Hb Hs1) as (s2 & E2 & Hs2). exists s2. split; [|done].
    sm_step. rewrite E. destruct (map_get m key); exact E2.
  - set (c := kv_room _ _) in *. pose proof (kv_room_pos (k (inr tt)) (<[key := value]> m)).
    destruct (kv_law_put (b + c) m s key value) as (s1 & E & Hs1);
      [lia|by replace (b + c + write_cost key value) with (b + (write_cost key value + c)) by lia|].
    destruct (IH (inr tt) b _ s1 Hb Hs1) as (s2 & E2 & Hs2). exists s2. split; [|done]. sm_step. by rewrite E.
  - set (c := kv_room _ _) in *. pose proof (kv_room_pos (k (inr tt)) (delete key m)).
    destruct (kv_law_delete (b + c) m s key) as (s1 & E & Hs1);
      [lia|by replace (b + c + write_cost key []) with (b + (write_cost key [] + c)) by lia|].
    destruct (IH (inr tt) b _ s1 Hb Hs1) as (s2 & E2 & Hs2). exists s2. split; [|done]. sm_step. by rewrite E.
  - set (c := kv_room _ _) in *. pose proof (kv_room_pos (k (good_cursor (pairs_from target m))) m).
    destruct (kv_law_seek (b + c) m s target) as (s1 & E & Hs1);
      [lia|by replace (b + c + get_room target) with (b + (get_room target + c)) by lia|].
    destruct (IH _ b _ s1 Hb Hs1) as (s2 & E2 & Hs2). exists s2. split; [|done]. sm_step. by rewrite E.
Qed.

(** * The engine is a lawful store *)

(** Walk an iterator to the end, noting what it reports on the way. *)
Fixpoint cursor_walk (fuel : nat) (it : DBIterator Child) : Res Cursor :=
  if valid_ it then
    match fuel with
    | O => Stuck
    | S fuel =>
      it' ← DBIterator_Next it;
      c ← cursor_walk fuel it';
      Ret (mkCursor ((user_key_ it, user_value_ it, DBIterator_status it) :: cur_entries c) (cur_end c))
    end
  else Ret (mkCursor [] (DBIterator_status it)).

(** The default [ReadOptions] read the latest state; the default [WriteOptions]
    do not sync.  Every step of a walk consumes an entry of the merge. *)
#[global] Instance DBImpl_store : KvStore DBImpl := {
  store_get := Get (mkReadOptions 0);
  store_put := Put (mkWriteOptions false);
  store_delete := Delete (mkWriteOptions false);
  store_seek := fun target =>
    it ← DBImpl_NewIterator (mkReadOptions 0);
    it ← lift (DBIterator_Seek target it);
    lift (cursor_walk (S (merge_size (merge_ it))) it)
}.

(** A healthy engine that holds [m] with room for [b]. *)
Definition db_kv_rep (b : Z) (m : gmap bytes bytes) (d : DBImpl) : Prop :=
  db_inv (2 * b) b b m d /\ sched d /\ healthy d /\ 0 < write_buffer_size (options_ d).

Lemma db_kv_op b m d op r d' c : 0 <= b -> db_kv_rep (b + c) m d -> 1 <= c -> op_cost op <= c -> op_fits op ->
  run_op op d = (r, d') -> exists m', map_step False m op r m' /\ db_kv_rep b m' d'.
Proof.
  intros Hb (Hi & Hs & Hh & Hw) Hc Hcost Hfit E.
  destruct (run_op_refines (2 * b) b b m d op r d') as (m' & Hstep & Hi' & Hs' & Ho & Hh'); try (done || lia).
  { eapply inv_less; [..|exact Hi]; lia. }
  exists m'. split; [eapply map_step_weaken; [|exact Hstep]; auto|]. split; [done|]. split; [done|].
  split; [auto|by rewrite Ho].
Qed.

(** The room left bounds the length of a key. *)
Lemma db_kv_key b m d key : 0 <= b -> db_kv_rep (b + get_room key) m d -> Z.of_nat (length key) + 8 < 2 ^ 32.
Proof. intros Hb ((rm & ri & rho & [_ _ _ _ _ H]) & _). unfold get_room, write_cost in H. cbn [length] in H. lia. Qed.

Lemma cursor_walk_spec runs s : forall ps fuel it, shows runs s it ps -> (length ps <= fuel)%nat ->
  cursor_walk fuel it = Ret (good_cursor ps).
Proof.
  induction ps as [|p ps IH]; intros fuel it Hsh Hf.
  - destruct Hsh as (es & (_ & Hst & Hat & _) & Hv).
    assert (DBIterator_status it = OK) as Hok by (unfold DBIterator_status; rewrite Hst; exact (merge_at_status _ _ _ Hat)).
    destruct fuel; cbn [cursor_walk]; rewrite Hv, Hok; done.
  - destruct (Next_shows runs s it p ps Hsh) as (it' & En & Hsh').
    destruct Hsh as (es & (_ & Hst & Hat & _) & Hv & Hk & Hval & _).
    cbn [length] in Hf. destruct fuel as [|fuel]; [lia|]. cbn [cursor_walk]. rewrite Hv, En. cbn [mbind Res_bind].
    rewrite (IH fuel it' Hsh') by lia. cbn [mbind Res_bind].
    assert (DBIterator_status it = OK) as -> by (unfold DBIterator_status; rewrite Hst; exact (merge_at_status _ _ _ Hat)).
    rewrite Hk, Hval. by destruct p.
Qed.

Lemma length_view s es : forall last, (length (view s last es) <= length es)%nat.
Proof.
  induction es as [|e es IH]; intros last; cbn [view length]; [lia|].
  destruct (decide _); [specialize (IH last); lia|]. destruct (s <? _); [specialize (IH last); lia|].
  rewrite length_app. specialize (IH (Some (user e))). destruct (decide _); cbn [length]; lia.
Qed.

Lemma shows_length runs s (it : DBIterator Child) ps : shows runs s it ps -> (length ps <= S (merge_size (merge_ it)))%nat.
Proof.
  intros (es & (_ & _ & Hat & _) & H). apply merge_at_size in Hat. destruct ps as [|p ps]; [cbn; lia|].
  destruct H as (_ & _ & _ & <-). cbn [length]. pose proof (length_view s es None). lia.
Qed.

Lemma db_law_seek b m d target : 0 <= b -> db_kv_rep (b + get_room target) m d ->
  exists d', store_seek target d = (Ret (good_cursor (pairs_from target m)), d') /\ db_kv_rep b m d'.
Proof.
  intros Hb Hrep. pose proof (db_kv_key b m d target Hb Hrep) as Hkey.
  destruct Hrep as ((rm & ri & rho & Hinv) & Hsc & Hh & Hw). pose proof Hinv as [Hco _ _ _ Hsq _].
  pose proof (write_cost_pos target []) as Hroom. fold (get_room target) in Hroom.
  set (s := read_snapshot (mkReadOptions 0) d). assert (Hs : s = last_sequence_ (versions_ d)) by done.
  destruct (NewIterator_inv d rm ri rho m s Hco eq_refl) as (it & w' & Eit & Hr & Hsn & runs & Hrd & [[Hst ->]|[_ Hnf]]);
    [|by destruct Hh].
  pose proof (iter_runs_entries Hco) as Hp. destruct (core_entries_wf Hco) as [Hwf Hnd].
  destruct (scan_shows it s _ m target Hsn Hst Hrd) as (it1 & it2 & ps & _ & E2 & _ & H2 & Hsorted & Hel).
  - by rewrite Hp.
  - pose proof (co_counters _ _ _ _ _ _ _ _ _ Hco). rewrite Hs. split; lia.
  - done.
  - intros u. rewrite Hs. apply (iter_runs_lookup u Hco).
  - assert (ps = sorted_pairs m) as ->.
    { apply key_sorted_ext; [done|apply sorted_pairs_sorted|]. intros [u v]. by rewrite Hel, elem_of_sorted_pairs. }
    eexists. cbn [store_seek DBImpl_store]. sm_step. rewrite Eit. sm_step. rewrite E2. sm_step.
    rewrite (cursor_walk_spec _ s _ _ it2 H2) by (eapply shows_length; exact H2).
    split; [reflexivity|].
    split; [|split; [done|split; [|done]]].
    + eapply (inv_less (2 * (b + get_room target)) (b + get_room target) (b + get_room target)); [lia..|].
      exists rm, ri, rho. destruct Hinv as [_ Ho Hwl Hf Hsq' Hb']. split; db_cbn; try done.
      eapply core_world; [exact Hco|]. intros f _. by rewrite (rd_files _ _ Hr).
    + destruct Hh as (H1 & H3). split; [by apply (rd_faults _ _ Hr)|done].
Qed.

#[global] Instance DBImpl_store_laws : KvStoreLaws DBImpl.
Proof.
  refine {| kv_rep := db_kv_rep |}.
  - intros b m d key Hb Hd. destruct (run_op (OpGet key) d) as [r d'] eqn:E.
    assert (Hc : 1 <= get_room key) by (unfold get_room, write_cost; cbn; lia).
    destruct (db_kv_op b m d (OpGet key) r d' (get_room key)) as (m' & Hstep & Hd'); try done; [cbn; lia|by eapply db_kv_key|].
    cbn [run_op] in E. cbn [store_get DBImpl_store]. destruct (Get (mkReadOptions 0) key d) as [r1 d1].
    injection E as <- <-. exists d1. unfold map_get. inversion Hstep; subst; try done.
    + by match goal with H : m' !! key = _ |- _ => rewrite H end.
    + by match goal with H : m' !! key = _ |- _ => rewrite H end.
  - intros b m d key value Hb Hd. destruct (run_op (OpPut (mkWriteOptions false) key value) d) as [r d'] eqn:E.
    assert (Hc : 1 <= write_cost key value) by (unfold write_cost; lia).
    destruct (db_kv_op b m d (OpPut (mkWriteOptions false) key value) r d' (write_cost key value) Hb Hd Hc (Z.le_refl _) I E) as (m' & Hstep & Hd').
    cbn [run_op] in E. cbn [store_put DBImpl_store]. destruct (Put (mkWriteOptions false) key value d) as [r1 d1].
    injection E as <- <-. exists d1. inversion Hstep; subst; done.
  - intros b m d key Hb Hd. destruct (run_op (OpDelete (mkWriteOptions false) key) d) as [r d'] eqn:E.
    assert (Hc : 1 <= write_cost key []) by (unfold write_cost; cbn; lia).
    destruct (db_kv_op b m d (OpDelete (mkWriteOptions false) key) r d' (write_cost key []) Hb Hd Hc (Z.le_refl _) I E) as (m' & Hstep & Hd').
    cbn [run_op] in E. cbn [store_delete DBImpl_store]. destruct (Delete (mkWriteOptions false) key d) as [r1 d1].
    injection E as <- <-. exists d1. inversion Hstep; subst; done.
  - apply db_law_seek.
Defined.

(** A program on an engine opened in a new directory. *)
Lemma fresh_engine_runs {A : Type} (p : Kv A) (options : Options) (name : bytes) (w : World) :
  options_ok options -> 0 < write_buffer_size options -> create_if_missing options = true ->
  no_faults w -> PathExists name w = false -> kv_room p ∅ + 40 < 2 ^ 32 ->
  exists d d', DB_Open options name w = (Ret tt, d) /\
    run_kv p d = (Ret (run_map p ∅).1, d') /\ db_kv_rep 0 (run_map p ∅).2 d'.
Proof.
  intros Ho Hwbs Hc Hf Hex Hroom.
  destruct (Open_fresh options name w Hf Hex Hc) as (wr & w' & E & Hf' & _ & Hp & Hop & Hg & _).
  pose proof (kv_room_pos p ∅) as Hpos.
  assert (Hd : kv_rep (0 + kv_room p ∅) ∅ (fresh_db options name wr w')).
  { split; [apply fresh_inv; try (done || lia)|]. split; [by intros []|]. split; [|done].
    split; [done|]. split; [done|]. split; [done|]. done. }
  destruct (run_kv_refines (S := DBImpl) p 0 ∅ _ (Z.le_refl 0) Hd) as (d' & Er & Hrep). eauto.
Qed.

(** A represented engine answers reads from the map. *)
Lemma db_kv_rep_Get b m d key : db_kv_rep b m d -> 0 <= b -> Z.of_nat (length key) + 8 < 2 ^ 32 ->
  (Get (mkReadOptions 0) key d).1 = res_of_sum (map_get m key).
Proof.
  intros (Hi & Hs & Hh & Hw) Hb Hk. destruct Hi as (rm & ri & rho & [Hco _ _ _ Hsq _]).
  destruct (Get_core d rm ri rho _ key Hco Hk) as (r1 & w1 & -> & _ & Hread).
  { pose proof (co_counters _ _ _ _ _ _ _ _ _ Hco). split; lia. }
  cbn [fst]. unfold map_get. destruct Hread as [Hread|(e & _ & _ & Hnf)]; [|by destruct Hh].
  by destruct (_ !! key).
Qed.

(** * Properties *)

(** C18: a program written against the key-value interface does on the engine
    what it does on a finite map.  For every such program (the whole relational
    layer is one), started on an engine opened in a new directory with no I/O
    faults ahead: it never gets stuck, returns the value it returns on the map,
    and leaves an engine that holds the final map, as long as the file numbers,
    sequence numbers and table sizes it needs are available. *)
Theorem programs_on_engine {A : Type} (p : Kv A) (options : Options) (name : bytes) (w : World) :
  options_ok options -> 0 < write_buffer_size options -> create_if_missing options = true ->
  no_faults w -> PathExists name w = false -> kv_room p ∅ + 40 < 2 ^ 32 ->
  exists d d', DB_Open options name w = (Ret tt, d) /\
    run_kv p d = (Ret (run_map p ∅).1, d') /\
    forall key, Z.of_nat (length key) + 8 < 2 ^ 32 ->
      (Get (mkReadOptions 0) key d').1 = res_of_sum (map_get (run_map p ∅).2 key).
Proof.
  intros Ho Hwbs Hc Hf Hex Hroom.
  destruct (fresh_engine_runs p options name w) as (d & d' & E & Er & Hrep); try done.
  exists d, d'. split; [done|]. split; [done|]. intros key Hk. by eapply db_kv_rep_Get.
Qed.

(** Two puts, a scan, a delete and a read. *)
Definition sample_program : Kv (Status + bytes) :=
  KPut (lit "k") (lit "v") (fun _ => KPut (lit "a") (lit "w") (fun _ =>
    KSeek (lit "b") (fun c =>
      match cur_entries c with
      | (key, _, _) :: _ => KGet key (fun r => KDelete key (fun _ => KRet r))
      | [] => KRet (inl OK)
      end))).

Lemma programs_on_engine_witness :
  let options := mkOptions true false 40 4096 16 2 2 in
  exists d d', DB_Open options (lit "db") (mkWorld ∅ ∅ []) = (Ret tt, d) /\
    run_kv sample_program d = (Ret (inr (lit "v")), d').
Proof.
  intros options.
  destruct (programs_on_engine sample_program options (lit "db") (mkWorld ∅ ∅ [])) as (d & d' & E & Er & _);
    try reflexivity; [vm_compute; discriminate|].
  exists d, d'. split; [exact E|]. rewrite Er. reflexivity.
Defined.
