(* ===== verification/Mvcc.v ===== *)
(** Multi-version rows (include/reldb/mvcc.h, src/reldb/mvcc.cpp): version
    records, the keys they are stored under, and snapshot reads. *)
From S2P Require Import Prelude Status Slice Encoding Env Types Schema Row Kv.

(** * Data *)

(** [enum class TxnState : uint8_t]; a stored byte may be none of them. *)
Inductive TxnState : Set := kOpen | kCommitted | kAborted | kCommitting | kOtherState (b : byte).
#[global] Instance TxnState_eq_decision : EqDecision TxnState.
Proof. solve_decision. Defined.

Definition TxnState_of_byte (b : byte) : TxnState :=
  match b with
  | Byte.x01 => kOpen
  | Byte.x02 => kCommitted
  | Byte.x03 => kAborted
  | Byte.x04 => kCommitting
  | b => kOtherState b
  end.
Definition byte_of_TxnState (s : TxnState) : byte :=
  match s with
  | kOpen => Byte.x01
  | kCommitted => Byte.x02
  | kAborted => Byte.x03
  | kCommitting => Byte.x04
  | kOtherState b => b
  end.

Record TxnWrite := mkTxnWrite { tw_table : bytes; tw_pk : Value; tw_version_id : Z }.
Record TxnMeta := mkTxnMeta { tm_state : TxnState; tm_commit_ts : Z; tm_writes : list TxnWrite }.
(** The default member initializers. *)
Definition TxnMeta_new : TxnMeta := mkTxnMeta kOpen 0 [].

Record VersionRecord := mkVersionRecord {
  vr_id : Z;
  vr_start_ts : Z;
  vr_end_ts : Z;
  vr_prev_id : Z;
  vr_created_by : Z;
  vr_is_tombstone : bool;
  vr_payload : bytes
}.

#[global] Instance TxnWrite_eq_decision : EqDecision TxnWrite.
Proof. solve_decision. Defined.
#[global] Instance TxnMeta_eq_decision : EqDecision TxnMeta.
Proof. solve_decision. Defined.
#[global] Instance VersionRecord_eq_decision : EqDecision VersionRecord.
Proof. solve_decision. Defined.

Definition with_start_ts (ts : Z) (r : VersionRecord) : VersionRecord :=
  mkVersionRecord (vr_id r) ts (vr_end_ts r) (vr_prev_id r) (vr_created_by r) (vr_is_tombstone r) (vr_payload r).
Definition with_end_ts (ts : Z) (r : VersionRecord) : VersionRecord :=
  mkVersionRecord (vr_id r) (vr_start_ts r) ts (vr_prev_id r) (vr_created_by r) (vr_is_tombstone r) (vr_payload r).
Definition with_payload (tombstone : bool) (payload : bytes) (r : VersionRecord) : VersionRecord :=
  mkVersionRecord (vr_id r) (vr_start_ts r) (vr_end_ts r) (vr_prev_id r) (vr_created_by r) tombstone payload.

Definition is_provisional (r : VersionRecord) : bool := vr_start_ts r =? 0.

(** * Hexadecimal and big-endian keys *)

(** [kHex[n]] *)
Definition hex_digit (n : Z) : byte := if n <? 10 then zb (48 + n) else zb (87 + n).
Definition hex_byte (b : byte) : bytes := [hex_digit (Z.shiftr (bz b) 4); hex_digit (Z.land (bz b) 15)].
Definition ToHex (s : bytes) : bytes := concat (map hex_byte s).

(** [char] is compared as a signed value, but the ranges are below 128. *)
Definition nibble (c : byte) : option Z :=
  let z := bz c in
  if (48 <=? z) && (z <=? 57) then Some (z - 48)
  else if (97 <=? z) && (z <=? 102) then Some (z - 97 + 10)
  else if (65 <=? z) && (z <=? 70) then Some (z - 65 + 10)
  else None.

(** An odd length fails before any digit is read; either way the result is [false]. *)
Fixpoint FromHex (hex : bytes) : option bytes :=
  match hex with
  | [] => Some []
  | [_] => None
  | h :: l :: hex =>
    match nibble h, nibble l with
    | Some hi, Some lo =>
      match FromHex hex with
      | Some out => Some (zb (Z.lor (Z.shiftl hi 4) lo) :: out)
      | None => None
      end
    | _, _ => None
    end
  end.

(** [buf[i] = v & 0xff; v >>= 8;] for [i = 7 .. 0] *)
Definition Fixed64BE (v : Z) : bytes := reverse (le_bytes 8 v).

Definition EncodePkForKey (pk : Value) : bytes := ToHex (EncodeValue pk).
Definition DecodePkFromKey (hex : bytes) : Res Value :=
  raw ← res_of_option (Corruption (lit "bad pk hex")) (FromHex hex);
  DecodeValue raw.

Definition RowHeadKey (table pk_key : bytes) : bytes := lit "d/" ++ table ++ lit "/" ++ pk_key.
Definition VersionKey (table pk_key : bytes) (version_id : Z) : bytes :=
  lit "v/" ++ table ++ lit "/" ++ pk_key ++ lit "/" ++ Fixed64BE version_id.
Definition TxnKey (id : Z) : bytes := lit "m/txn/" ++ Fixed64BE id.

(** * VersionRecord encoding *)

Definition VersionRecord_Encode (r : VersionRecord) : bytes :=
  let out := PutFixed64 [] (vr_id r) in
  let out := PutFixed64 out (vr_start_ts r) in
  let out := PutFixed64 out (vr_end_ts r) in
  let out := PutFixed64 out (vr_prev_id r) in
  let out := PutFixed64 out (vr_created_by r) in
  let out := out ++ [if vr_is_tombstone r then Byte.x01 else Byte.x00] in
  PutLengthPrefixedSlice out (vr_payload r).

Definition VersionRecord_Decode (bytes : bytes) : Res VersionRecord :=
  let header := Corruption (lit "version: truncated header") in
  '(id, input) ← res_of_option header (GetFixed64 bytes);
  '(start_ts, input) ← res_of_option header (GetFixed64 input);
  '(end_ts, input) ← res_of_option header (GetFixed64 input);
  '(prev_id, input) ← res_of_option header (GetFixed64 input);
  '(created_by, input) ← res_of_option header (GetFixed64 input);
  match input with
  | [] => Fail (Corruption (lit "version: missing flags"))
  | flag :: input =>
    '(payload, input) ← res_of_option (Corruption (lit "version: bad payload")) (GetLengthPrefixedSlice input);
    if bool_decide (input = [])
    then Ret (mkVersionRecord id start_ts end_ts prev_id created_by (negb (bz flag =? 0)) payload)
    else Fail (Corruption (lit "version: trailing bytes"))
  end.

Definition IsCommittedVisible (v : VersionRecord) (snapshot : Z) : bool :=
  if is_provisional v then false
  else if vr_start_ts v >? snapshot then false
  else if negb (vr_end_ts v =? 0) && (vr_end_ts v <=? snapshot) then false
  else true.

(** * MvccStore *)

Section MvccStore.
Context {S : Type}.

Definition GetVersion (table : bytes) (pk : Value) (version_id : Z) : KM S VersionRecord :=
  bytes ← kv_Get (VersionKey table (EncodePkForKey pk) version_id);
  klift (VersionRecord_Decode bytes).

Definition GetLatestVersionId (table : bytes) (pk : Value) : KM S Z :=
  bytes ← kv_Get (RowHeadKey table (EncodePkForKey pk));
  kfail_if (negb (length bytes =? 8)%nat) (Corruption (lit "row head: bad length")) ;;
  mret (DecodeFixed64 bytes).

Definition PutVersionValue (table : bytes) (pk : Value) (rec : VersionRecord) : KM S unit :=
  kv_Put (VersionKey table (EncodePkForKey pk) (vr_id rec)) (VersionRecord_Encode rec).

Definition SetHead (table : bytes) (pk : Value) (version_id : Z) : KM S unit :=
  kv_Put (RowHeadKey table (EncodePkForKey pk)) (PutFixed64 [] version_id).

Definition ClearHead (table : bytes) (pk : Value) : KM S unit :=
  kv_Delete (RowHeadKey table (EncodePkForKey pk)).

Definition PutVersion (table : bytes) (pk : Value) (rec : VersionRecord) : KM S unit :=
  PutVersionValue table pk rec ;; SetHead table pk (vr_id rec).

(** Whether the reader may see [rec]; a provisional version of another
    transaction is looked up, and must not belong to a committed one. *)
Definition visible_to (snapshot reader_txn : Z) (txn_status : option (Z -> KM S TxnMeta)) (rec : VersionRecord)
    : KM S bool :=
  if is_provisional rec then
    if vr_created_by rec =? reader_txn then mret true
    else
      match txn_status with
      | Some f =>
        meta ← f (vr_created_by rec);
        if decide (tm_state meta = kCommitted)
        then kfail (Corruption (lit "provisional version owned by committed txn"))
        else mret false
      | None => mret false
      end
  else mret (IsCommittedVisible rec snapshot).

(** [while (id != 0)]: version ids are handed out in increasing order and a
    version links to an older one, so the ids on a chain decrease and the head's
    id bounds the rounds; a chain that does not decrease is [Stuck]. *)
Definition walk_rounds (id : Z) : nat := Datatypes.S (Z.to_nat id).

Fixpoint read_chain (fuel : nat) (table : bytes) (pk : Value) (snapshot reader_txn : Z)
    (txn_status : option (Z -> KM S TxnMeta)) (id : Z) : KM S Row :=
  if id =? 0 then kfail (NotFound (lit "no visible version"))
  else
    match fuel with
    | O => klift Stuck
    | Datatypes.S fuel =>
      rec ← GetVersion table pk id;
      visible ← visible_to snapshot reader_txn txn_status rec;
      if visible : bool then
        if vr_is_tombstone rec then kfail (NotFound (lit "row deleted at snapshot"))
        else klift (Row_Decode (vr_payload rec))
      else read_chain fuel table pk snapshot reader_txn txn_status (vr_prev_id rec)
    end.

Definition GetRow (table : bytes) (pk : Value) (snapshot reader_txn : Z)
    (txn_status : option (Z -> KM S TxnMeta)) : KM S Row :=
  st ← ktry (GetLatestVersionId table pk);
  match st with
  | inl e => if IsNotFound e then kfail (NotFound (lit "row not found")) else kfail e
  | inr id => read_chain (walk_rounds id) table pk snapshot reader_txn txn_status id
  end.

Definition GetRowCommitted (table : bytes) (pk : Value) (snapshot : Z) : KM S Row :=
  GetRow table pk snapshot 0 None.
End MvccStore.

(** * Keys *)

Lemma hex_byte_spec b : match hex_byte b with
  | [h; l] => nibble h = Some (Z.shiftr (bz b) 4) /\ nibble l = Some (Z.land (bz b) 15) /\
      zb (Z.lor (Z.shiftl (Z.shiftr (bz b) 4) 4) (Z.land (bz b) 15)) = b /\ h <> slash /\ l <> slash
  | _ => False
  end.
Proof. destruct b; vm_compute; repeat split; discriminate. Qed.

Lemma FromHex_ToHex s : FromHex (ToHex s) = Some s.
Proof.
  induction s as [|b s IH]; [done|]. unfold ToHex in *. cbn [map concat]. pose proof (hex_byte_spec b) as H.
  destruct (hex_byte b) as [|h [|l []]]; try done. destruct H as (H1 & H2 & H3 & _).
  cbn [app FromHex]. by rewrite H1, H2, IH, H3.
Qed.

Lemma ToHex_no_slash s : slash ∉ ToHex s.
Proof.
  induction s as [|b s IH]; [apply not_elem_of_nil|]. unfold ToHex in *. cbn [map concat].
  pose proof (hex_byte_spec b) as H. destruct (hex_byte b) as [|h [|l []]]; try done.
  destruct H as (_ & _ & _ & H1 & H2). cbn [app]. rewrite !not_elem_of_cons. auto.
Qed.

Lemma DecodePkFromKey_Encode pk : value_ok pk -> DecodePkFromKey (EncodePkForKey pk) = Ret pk.
Proof.
  intros H. unfold DecodePkFromKey, EncodePkForKey. rewrite FromHex_ToHex. cbn [res_of_option mbind Res_bind].
  by apply DecodeValue_Encode.
Qed.

Lemma EncodePkForKey_inj v w : value_ok v -> value_ok w -> EncodePkForKey v = EncodePkForKey w -> v = w.
Proof.
  intros Hv Hw E. pose proof (DecodePkFromKey_Encode v Hv) as H. rewrite E, DecodePkFromKey_Encode in H by done.
  congruence.
Qed.

Lemma length_Fixed64BE v : length (Fixed64BE v) = 8%nat.
Proof. unfold Fixed64BE. by rewrite length_reverse, length_le_bytes. Qed.

Lemma Fixed64BE_inj v w : fits64 v -> fits64 w -> Fixed64BE v = Fixed64BE w -> v = w.
Proof.
  unfold Fixed64BE, fits64. intros Hv Hw E%(inj reverse).
  rewrite <- (le_value_bytes_small 8 v), <- (le_value_bytes_small 8 w), E by done. done.
Qed.

(** The part after the last slash tells two paths apart. *)
Lemma slash_split a b x y : slash ∉ x -> slash ∉ y ->
  a ++ slash :: x = b ++ slash :: y -> a = b /\ x = y.
Proof.
  intros Hx Hy E. apply app_eq_inv in E as [(k & -> & E)|(k & -> & E)]; destruct k as [|c k]; cbn in E.
  - injection E as ->. by rewrite app_nil_r.
  - injection E as _ ->. destruct Hy. rewrite elem_of_app, elem_of_cons. auto.
  - injection E as ->. by rewrite app_nil_r.
  - injection E as _ ->. destruct Hx. rewrite elem_of_app, elem_of_cons. auto.
Qed.

Lemma RowHeadKey_inj t t' v v' : value_ok v -> value_ok v' ->
  RowHeadKey t (EncodePkForKey v) = RowHeadKey t' (EncodePkForKey v') -> t = t' /\ v = v'.
Proof.
  intros Hv Hv' E. unfold RowHeadKey in E. apply app_inv_head in E.
  apply slash_split in E as [-> E]; [|apply ToHex_no_slash..]. split; [done|]. by apply EncodePkForKey_inj.
Qed.

Lemma VersionKey_inj t t' v v' i i' : value_ok v -> value_ok v' -> fits64 i -> fits64 i' ->
  VersionKey t (EncodePkForKey v) i = VersionKey t' (EncodePkForKey v') i' -> t = t' /\ v = v' /\ i = i'.
Proof.
  intros Hv Hv' Hi Hi' E. unfold VersionKey in E. apply app_inv_head in E. rewrite !app_assoc in E.
  apply app_inj_2 in E as [E Ei]; [|by rewrite !length_Fixed64BE]. apply Fixed64BE_inj in Ei as ->; [|done..].
  apply app_inj_2 in E as [E _]; [|done]. rewrite <- !app_assoc in E.
  apply slash_split in E as [-> E]; [|apply ToHex_no_slash..].
  split; [done|]. split; [|done]. by apply EncodePkForKey_inj.
Qed.

Lemma TxnKey_inj i i' : fits64 i -> fits64 i' -> TxnKey i = TxnKey i' -> i = i'.
Proof. intros Hi Hi' E. unfold TxnKey in E. apply app_inv_head in E. by apply Fixed64BE_inj. Qed.

(** * The record encoding *)

Record record_ok (r : VersionRecord) : Prop := {
  ro_id : fits64 (vr_id r);
  ro_start : fits64 (vr_start_ts r);
  ro_end : fits64 (vr_end_ts r);
  ro_prev : fits64 (vr_prev_id r);
  ro_created : fits64 (vr_created_by r);
  ro_payload : len32 (vr_payload r)
}.

Lemma VersionRecord_Decode_Encode r : record_ok r -> VersionRecord_Decode (VersionRecord_Encode r) = Ret r.
Proof.
  intros [H1 H2 H3 H4 H5 H6]. unfold VersionRecord_Decode, VersionRecord_Encode.
  rewrite PutLengthPrefixedSlice_app.
  rewrite (PutFixed64_app (PutFixed64 (PutFixed64 (PutFixed64 _ _) _) _)), (PutFixed64_app (PutFixed64 (PutFixed64 _ _) _)),
    (PutFixed64_app (PutFixed64 _ _)), (PutFixed64_app (PutFixed64 [] _)). rewrite <- !app_assoc.
  do 5 (rewrite codec_get_put by done; cbn [res_of_option mbind Res_bind]).
  cbn [app]. rewrite <- (app_nil_r (PutLengthPrefixedSlice [] _)), codec_get_put by done.
  cbn [res_of_option mbind Res_bind]. rewrite bool_decide_true by done. by destruct r as [? ? ? ? ? []].
Qed.
