(* ===== verification/Catalog.v ===== *)
(** The catalog of tables (include/reldb/catalog.h, src/reldb/catalog.cpp): schemas
    in the store under [c/t/<name>], with a cache in memory. *)
From S2P Require Import Prelude Status Slice Encoding Env Types Schema Row Kv Mvcc.

(** [cache_]; the store is reached through the interface. *)
Abbreviation Catalog := (gmap bytes TableSchema).
Abbreviation CatM := (KM Catalog).

Definition TableKey (table_name : bytes) : bytes := lit "c/t/" ++ table_name.

Definition LookupCache (name : bytes) (c : Catalog) : option TableSchema := c !! name.

(** [if (st.IsNotFound()) return STATUS(NotFound, msg); RELDB_RETURN_NOT_OK(st);] *)
Definition not_found_as {S A} (msg : bytes) (m : KM S A) : KM S A :=
  st ← ktry m;
  match st with
  | inl e => if IsNotFound e then kfail (NotFound msg) else kfail e
  | inr a => mret a
  end.

Definition Catalog_GetTable (name : bytes) : CatM TableSchema :=
  hit ← kgets (LookupCache name);
  match hit with
  | Some schema => mret schema
  | None =>
    bytes ← not_found_as (lit "table not found: " ++ name) (kv_Get (TableKey name));
    schema ← klift (Schema_Decode bytes);
    kmodify (fun c : Catalog => <[name := schema]> c) ;;
    mret schema
  end.

Definition Catalog_HasTable (name : bytes) : CatM bool :=
  st ← ktry (Catalog_GetTable name);
  match st with
  | inr _ => mret true
  | inl e => if IsNotFound e then mret false else kfail e
  end.

Definition Catalog_PutTable (schema : TableSchema) : CatM unit :=
  klift (Schema_Validate schema) ;;
  kv_Put (TableKey (name_ schema)) (Schema_Encode schema) ;;
  kmodify (fun c : Catalog => <[name_ schema := schema]> c).

Definition Catalog_CreateTable (schema : TableSchema) : CatM unit :=
  klift (Schema_Validate schema) ;;
  exists_ ← Catalog_HasTable (name_ schema);
  kfail_if exists_ (InvalidArgument (lit "table already exists: " ++ name_ schema)) ;;
  kv_Put (TableKey (name_ schema)) (Schema_Encode schema) ;;
  kmodify (fun c : Catalog => <[name_ schema := schema]> c).

Definition Catalog_DropTable (name : bytes) : CatM unit :=
  exists_ ← Catalog_HasTable name;
  kfail_if (negb exists_) (NotFound (lit "table not found: " ++ name)) ;;
  kv_Delete (TableKey name) ;;
  kmodify (fun c : Catalog => delete name c).
