(* ===== verification/Database.v ===== *)
(** The relational database (include/reldb/database.h, src/reldb/database.cpp):
    timestamp oracles, transaction registry, commit, abort, recovery and DDL.

    The members that live in memory are the state; the store is reached through
    the key-value interface.  Every public operation holds [mu_] from its first
    access of the state to its return, so it is one step. *)
From S2P Require Import Prelude Status Slice Encoding Env Types Schema Row Kv Mvcc Catalog.

(** * State *)

Record Database := mkDatabase {
  catalog_ : Catalog;
  next_ts_ : Z;
  next_txn_id_ : Z;
  next_version_id_ : Z;
  open_txn_count_ : Z;
  ddl_in_progress_ : bool
}.
(** The member initializers. *)
Definition Database_new : Database := mkDatabase ∅ 1 1 1 0 false.

Abbreviation RelM := (KM Database).

Definition with_catalog (c : Catalog) (d : Database) : Database :=
  mkDatabase c (next_ts_ d) (next_txn_id_ d) (next_version_id_ d) (open_txn_count_ d) (ddl_in_progress_ d).
Definition with_next_ts (n : Z) (d : Database) : Database :=
  mkDatabase (catalog_ d) n (next_txn_id_ d) (next_version_id_ d) (open_txn_count_ d) (ddl_in_progress_ d).
Definition with_next_txn (n : Z) (d : Database) : Database :=
  mkDatabase (catalog_ d) (next_ts_ d) n (next_version_id_ d) (open_txn_count_ d) (ddl_in_progress_ d).
Definition with_next_vid (n : Z) (d : Database) : Database :=
  mkDatabase (catalog_ d) (next_ts_ d) (next_txn_id_ d) n (open_txn_count_ d) (ddl_in_progress_ d).
Definition with_open_count (n : Z) (d : Database) : Database :=
  mkDatabase (catalog_ d) (next_ts_ d) (next_txn_id_ d) (next_version_id_ d) n (ddl_in_progress_ d).
Definition with_ddl (b : bool) (d : Database) : Database :=
  mkDatabase (catalog_ d) (next_ts_ d) (next_txn_id_ d) (next_version_id_ d) (open_txn_count_ d) b.

Definition on_catalog {A} (m : CatM A) : RelM A := kzoom catalog_ with_catalog m.

(** [x++] on a 64-bit counter: the old value. *)
Definition post_incr (get : Database -> Z) (set : Z -> Database -> Database) : RelM Z :=
  v ← kgets get;
  kmodify (set (u64 (v + 1))) ;;
  mret v.

(** * The transaction registry *)

Definition put_write (out : bytes) (w : TxnWrite) : bytes :=
  PutFixed64 (PutLengthPrefixedSlice (PutLengthPrefixedSlice out (tw_table w)) (EncodePkForKey (tw_pk w)))
    (tw_version_id w).

Definition EncodeTxnMeta (meta : TxnMeta) : bytes :=
  let out := PutFixed64 [byte_of_TxnState (tm_state meta)] (tm_commit_ts meta) in
  match tm_writes meta with
  | [] => out
  | ws => foldl put_write (PutFixed32 out (u32 (Z.of_nat (length ws)))) ws
  end.

Fixpoint get_writes (n : nat) (input : bytes) : Res (list TxnWrite * bytes) :=
  match n with
  | O => Ret ([], input)
  | S n =>
    let bad := Corruption (lit "txn meta: bad write entry") in
    '(table, input) ← res_of_option bad (GetLengthPrefixedSlice input);
    '(pk_hex, input) ← res_of_option bad (GetLengthPrefixedSlice input);
    '(vid, input) ← res_of_option bad (GetFixed64 input);
    pk ← DecodePkFromKey pk_hex;
    '(ws, input) ← get_writes n input;
    Ret (mkTxnWrite table pk vid :: ws, input)
  end.

Definition DecodeTxnMeta (bytes : bytes) : Res TxnMeta :=
  match bytes with
  | [] => Fail (Corruption (lit "txn meta: bad length"))
  | state :: rest =>
    if (length rest <? 8)%nat then Fail (Corruption (lit "txn meta: bad length"))
    else
      let state := TxnState_of_byte state in
      let commit_ts := DecodeFixed64 rest in
      if (length rest =? 8)%nat then Ret (mkTxnMeta state commit_ts [])
      else
        '(n, input) ← res_of_option (Corruption (lit "txn meta: bad write count")) (GetFixed32 (drop 8 rest));
        '(ws, input) ← get_writes (Z.to_nat n) input;
        if bool_decide (input = []) then Ret (mkTxnMeta state commit_ts ws)
        else Fail (Corruption (lit "txn meta: trailing bytes"))
  end.

Definition GetTxnMeta {S} (id : Z) : KM S TxnMeta :=
  bytes ← not_found_as (lit "txn not found") (kv_Get (TxnKey id));
  klift (DecodeTxnMeta bytes).
Definition PutTxnMeta {S} (id : Z) (meta : TxnMeta) : KM S unit := kv_Put (TxnKey id) (EncodeTxnMeta meta).

(** * Oracles *)

Definition kNextTsKey : bytes := lit "m/next_ts".
Definition kNextTxnKey : bytes := lit "m/next_txn".
Definition kNextVidKey : bytes := lit "m/next_vid".

Definition PersistOracles : RelM unit :=
  d ← kgets id;
  kv_Put kNextTsKey (PutFixed64 [] (next_ts_ d)) ;;
  kv_Put kNextTxnKey (PutFixed64 [] (next_txn_id_ d)) ;;
  kv_Put kNextVidKey (PutFixed64 [] (next_version_id_ d)).

(** The lambda [load] of [InitOracles]. *)
Definition load_oracle (key : bytes) (def : Z) : RelM Z :=
  st ← ktry (kv_Get key);
  match st with
  | inl e => if IsNotFound e then mret def else kfail e
  | inr bytes =>
    kfail_if (negb (length bytes =? 8)%nat) (Corruption (key ++ lit ": bad length")) ;;
    let v := DecodeFixed64 bytes in
    mret (if v =? 0 then def else v)
  end.

Definition InitOracles : RelM unit :=
  ts ← load_oracle kNextTsKey 1; kmodify (with_next_ts ts) ;;
  txn ← load_oracle kNextTxnKey 1; kmodify (with_next_txn txn) ;;
  vid ← load_oracle kNextVidKey 1; kmodify (with_next_vid vid) ;;
  PersistOracles.

(** * Commit and abort *)

(** Undo the provisional heads, newest write first. *)
Fixpoint restore_loop {S} (writes : list TxnWrite) : KM S unit :=
  match writes with
  | [] => mret tt
  | w :: writes =>
    st ← ktry (GetLatestVersionId (tw_table w) (tw_pk w));
    match st with
    | inl e => if IsNotFound e then restore_loop writes else kfail e
    | inr head =>
      if negb (head =? tw_version_id w) then restore_loop writes
      else
        rec ← GetVersion (tw_table w) (tw_pk w) (tw_version_id w);
        (if vr_prev_id rec =? 0 then ClearHead (tw_table w) (tw_pk w)
         else SetHead (tw_table w) (tw_pk w) (vr_prev_id rec)) ;;
        restore_loop writes
    end
  end.
Definition RestoreHeads {S} (writes : list TxnWrite) : KM S unit := restore_loop (reverse writes).

(** Close the live version below a provisional one. *)
Definition close_prev {S} (w : TxnWrite) (commit_ts prev_id : Z) : KM S unit :=
  if prev_id =? 0 then mret tt
  else
    st ← ktry (GetVersion (tw_table w) (tw_pk w) prev_id);
    match st with
    | inl e => if IsNotFound e then mret tt else kfail e
    | inr prev =>
      if negb (is_provisional prev) && (vr_end_ts prev =? 0)
      then PutVersionValue (tw_table w) (tw_pk w) (with_end_ts commit_ts prev)
      else mret tt
    end.

Fixpoint ApplyCommitWrites {S} (txn_id commit_ts : Z) (writes : list TxnWrite) : KM S unit :=
  match writes with
  | [] => mret tt
  | w :: writes =>
    rec ← GetVersion (tw_table w) (tw_pk w) (tw_version_id w);
    if negb (vr_created_by rec =? txn_id)
    then kfail (Corruption (lit "apply: version owned by other txn"))
    else if negb (is_provisional rec) then
      if negb (vr_start_ts rec =? commit_ts)
      then kfail (Corruption (lit "apply: version stamped with unexpected ts"))
      else ApplyCommitWrites txn_id commit_ts writes
    else
      close_prev w commit_ts (vr_prev_id rec) ;;
      PutVersionValue (tw_table w) (tw_pk w) (with_start_ts commit_ts rec) ;;
      ApplyCommitWrites txn_id commit_ts writes
  end.

(** * Recovery *)

Definition recover_txn (id : Z) : RelM unit :=
  st ← ktry (GetTxnMeta id);
  match st with
  | inl e => if IsNotFound e then mret tt else kfail e
  | inr meta =>
    match tm_state meta with
    | kCommitting =>
      kfail_if (tm_commit_ts meta =? 0) (Corruption (lit "committing txn missing commit_ts")) ;;
      ApplyCommitWrites id (tm_commit_ts meta) (tm_writes meta) ;;
      PutTxnMeta id (mkTxnMeta kCommitted (tm_commit_ts meta) []) ;;
      next ← kgets next_ts_;
      if tm_commit_ts meta >=? next then
        kmodify (with_next_ts (u64 (tm_commit_ts meta + 1))) ;; PersistOracles
      else mret tt
    | kOpen =>
      RestoreHeads (tm_writes meta) ;;
      PutTxnMeta id (mkTxnMeta kAborted 0 [])
    | _ => mret tt
    end
  end.

(** [for (TxnId id = 1; id < next_txn_id_; ++id)]; the bound does not change. *)
Fixpoint recover_from (n : nat) (id : Z) : RelM unit :=
  match n with
  | O => mret tt
  | S n => recover_txn id ;; recover_from n (id + 1)
  end.
Definition RecoverTxns : RelM unit :=
  next ← kgets next_txn_id_;
  recover_from (Z.to_nat (next - 1)) 1.

(** [Database::Open] once the engine is open. *)
Definition Database_Open : RelM unit := InitOracles ;; RecoverTxns.

(** * Catalog access and DDL *)

(** [GetTable]: the shared-lock fast path and the locked slow path look at the
    same cache. *)
Definition Database_GetTable (name : bytes) : RelM TableSchema :=
  d ← kgets id;
  match LookupCache name (catalog_ d) with
  | Some schema => mret schema
  | None => on_catalog (Catalog_GetTable name)
  end.

Definition Database_HasTable (name : bytes) : RelM bool :=
  st ← ktry (Database_GetTable name);
  match st with
  | inr _ => mret true
  | inl e => if IsNotFound e then mret false else kfail e
  end.

(** The DDL gate with [ScopedBool]: the flag is cleared on every way out. *)
Definition ddl_gate {A} (body : RelM A) : RelM A :=
  d ← kgets id;
  kfail_if (negb (open_txn_count_ d =? 0)) (InvalidArgument (lit "DDL requires no open transactions")) ;;
  kfail_if (ddl_in_progress_ d) (InvalidArgument (lit "DDL in progress")) ;;
  kzoom id (fun d' _ => with_ddl false d') (kmodify (with_ddl true) ;; body).

Definition Database_CreateTable (schema : TableSchema) : RelM unit :=
  ddl_gate (on_catalog (Catalog_CreateTable schema)).

(** The keys under [prefix] and the status the iterator ends with. *)
Fixpoint collect_keys (prefix : bytes) (es : list (bytes * bytes * Status)) (end_ : Status) : list bytes * Status :=
  match es with
  | [] => ([], end_)
  | (key, _, st) :: es =>
    if starts_with key prefix then
      let '(keys, s) := collect_keys prefix es end_ in (key :: keys, s)
    else ([], st)
  end.

Definition DeleteKeyPrefix {S} (prefix : bytes) : KM S unit :=
  c ← kv_Seek prefix;
  let '(keys, s) := collect_keys prefix (cur_entries c) (cur_end c) in
  kfail_if (negb (ok s)) s ;;
  kfor_each keys kv_Delete.

Definition Database_DropTable (name : bytes) : RelM unit :=
  ddl_gate (
    on_catalog (Catalog_DropTable name) ;;
    DeleteKeyPrefix (lit "d/" ++ name ++ lit "/") ;;
    DeleteKeyPrefix (lit "v/" ++ name ++ lit "/")).

(** Phase 1 of the ALTER statements: the keys of the rows. *)
Fixpoint collect_pks (prefix : bytes) (es : list (bytes * bytes * Status)) (end_ : Status) : Res (list Value) :=
  match es with
  | [] => if ok end_ then Ret [] else Fail end_
  | (key, _, st) :: es =>
    if starts_with key prefix then
      pk ← DecodePkFromKey (drop (length prefix) key);
      pks ← collect_pks prefix es end_;
      Ret (pk :: pks)
    else if ok st then Ret [] else Fail st
  end.

(** [while (prior.is_provisional())]: down to a committed version; an orphan
    provisional is turned into a tombstone, so that it is skipped. *)
Fixpoint committed_prior {S} (fuel : nat) (table : bytes) (pk : Value) (prior : VersionRecord) : KM S VersionRecord :=
  if is_provisional prior then
    if vr_prev_id prior =? 0 then mret (with_payload true (vr_payload prior) prior)
    else
      match fuel with
      | O => klift Stuck
      | S fuel =>
        prior ← GetVersion table pk (vr_prev_id prior);
        committed_prior fuel table pk prior
      end
  else mret prior.

(** Phase 2 for one row: [rewrite] changes the cells to the new width. *)
Definition rewrite_row (table : bytes) (old neu : TableSchema) (rewrite : Row -> Row) (commit_ts : Z) (pk : Value)
    : RelM unit :=
  head_id ← GetLatestVersionId table pk;
  prior ← GetVersion table pk head_id;
  prior ← committed_prior (walk_rounds head_id) table pk prior;
  if vr_is_tombstone prior then mret tt
  else if negb (vr_end_ts prior =? 0) then mret tt
  else if vr_start_ts prior =? 0 then kfail (Corruption (lit "ALTER: unexpected provisional head"))
  else
    row ← klift (Row_Decode (vr_payload prior));
    if (length row =? num_columns neu)%nat then mret tt
    else if negb (length row =? num_columns old)%nat
    then kfail (Corruption (lit "ALTER: row width does not match schema"))
    else
      let row := rewrite row in
      klift (ValidateAgainst row neu) ;;
      PutVersionValue table pk (with_end_ts commit_ts prior) ;;
      vid ← post_incr next_version_id_ with_next_vid;
      PutVersion table pk (mkVersionRecord vid commit_ts 0 (vr_id prior) 0 false (Row_Encode row)).

Definition alter_rows (table : bytes) (old neu : TableSchema) (rewrite : Row -> Row) : RelM unit :=
  klift (Schema_Validate neu) ;;
  let prefix := lit "d/" ++ table ++ lit "/" in
  c ← kv_Seek prefix;
  pks ← klift (collect_pks prefix (cur_entries c) (cur_end c));
  commit_ts ← post_incr next_ts_ with_next_ts;
  kfor_each pks (rewrite_row table old neu rewrite commit_ts) ;;
  PersistOracles ;;
  on_catalog (Catalog_PutTable neu).

Definition AlterTableAddColumn (table : bytes) (col : ColumnDef) (default_value : Value) : RelM unit :=
  kfail_if (bool_decide (col_name col = [])) (InvalidArgument (lit "column name is empty")) ;;
  kfail_if (primary_key col) (InvalidArgument (lit "ALTER ADD COLUMN cannot add a PRIMARY KEY")) ;;
  kfail_if (IsNull default_value) (InvalidArgument (lit "ALTER ADD COLUMN requires a non-NULL DEFAULT")) ;;
  kfail_if (bool_decide (value_type default_value <> col_type col))
    (InvalidArgument (lit "DEFAULT type does not match column type")) ;;
  ddl_gate (
    old ← on_catalog (Catalog_GetTable table);
    kfail_if (bool_decide (is_Some (FindColumn old (col_name col))))
      (InvalidArgument (lit "column already exists: " ++ col_name col)) ;;
    let neu := mkTableSchema (name_ old) (columns_ old ++ [col]) in
    alter_rows table old neu (fun row => row ++ [default_value])).

(** The list without its element [i]. *)
Definition drop_index {A} (i : nat) (l : list A) : list A := take i l ++ drop (S i) l.

Definition AlterTableDropColumn (table col_name' : bytes) : RelM unit :=
  kfail_if (bool_decide (col_name' = [])) (InvalidArgument (lit "column name is empty")) ;;
  ddl_gate (
    old ← on_catalog (Catalog_GetTable table);
    let drop_idx := ColumnIndex old col_name' in
    kfail_if (drop_idx <? 0) (InvalidArgument (lit "unknown column: " ++ col_name')) ;;
    col ← klift (deref (columns_ old !! Z.to_nat drop_idx));
    kfail_if (primary_key col) (InvalidArgument (lit "cannot drop PRIMARY KEY column")) ;;
    let neu := mkTableSchema (name_ old) (drop_index (Z.to_nat drop_idx) (columns_ old)) in
    alter_rows table old neu (drop_index (Z.to_nat drop_idx))).

(** * The registry encoding *)

Record write_fits (w : TxnWrite) : Prop := {
  wf_table : len32 (tw_table w);
  wf_pk : value_ok (tw_pk w);
  wf_hex : len32 (EncodePkForKey (tw_pk w));
  wf_vid : fits64 (tw_version_id w)
}.
Definition state_canonical (s : TxnState) : Prop := TxnState_of_byte (byte_of_TxnState s) = s.
Record meta_ok (meta : TxnMeta) : Prop := {
  mo_state : state_canonical (tm_state meta);
  mo_ts : fits64 (tm_commit_ts meta);
  mo_writes : Forall write_fits (tm_writes meta);
  mo_count : Z.of_nat (length (tm_writes meta)) < 2 ^ 32
}.

Lemma put_write_app out w : put_write out w = out ++ put_write [] w.
Proof.
  unfold put_write. rewrite PutFixed64_app, PutLengthPrefixedSlice_app, (PutLengthPrefixedSlice_app out).
  rewrite (PutFixed64_app (PutLengthPrefixedSlice _ _)), (PutLengthPrefixedSlice_app (PutLengthPrefixedSlice [] _)).
  by rewrite <- !app_assoc.
Qed.

Lemma put_writes_concat ws out : foldl put_write out ws = out ++ concat (map (put_write []) ws).
Proof.
  revert out; induction ws as [|w ws IH]; intros out; cbn [foldl map concat]; [by rewrite app_nil_r|].
  by rewrite IH, put_write_app, <- app_assoc.
Qed.

Lemma get_writes_put ws rest : Forall write_fits ws ->
  get_writes (length ws) (concat (map (put_write []) ws) ++ rest) = Ret (ws, rest).
Proof.
  induction 1 as [|w ws [H1 H2 H3 H4] _ IH]; [done|]. cbn [map concat length get_writes].
  unfold put_write at 1. rewrite PutFixed64_app, PutLengthPrefixedSlice_app, <- !app_assoc.
  do 3 (rewrite codec_get_put by done; cbn [res_of_option mbind Res_bind]).
  rewrite DecodePkFromKey_Encode by done. cbn [mbind Res_bind]. rewrite IH. cbn [mbind Res_bind]. by destruct w.
Qed.

Lemma DecodeTxnMeta_Encode meta : meta_ok meta -> DecodeTxnMeta (EncodeTxnMeta meta) = Ret meta.
Proof.
  intros [Hs Ht Hw Hc]. unfold DecodeTxnMeta, EncodeTxnMeta. destruct meta as [state ts ws].
  cbn [tm_state tm_commit_ts tm_writes] in *. unfold PutFixed64. destruct ws as [|w ws].
  - cbn [app]. rewrite length_le_bytes. cbn [Nat.ltb Nat.leb Nat.eqb]. rewrite Hs, <- (app_nil_r (le_bytes 8 ts)).
    by rewrite DecodeFixed64_put.
  - set (l := w :: ws) in *. rewrite put_writes_concat. unfold PutFixed32, u32. rewrite Z.mod_small by lia.
    cbn [app]. rewrite <- !app_assoc. rewrite !length_app, !length_le_bytes.
    destruct (Nat.ltb_spec (8 + (4 + length (concat (map (put_write []) l)))) 8); [lia|].
    destruct (Nat.eqb_spec (8 + (4 + length (concat (map (put_write []) l)))) 8); [lia|].
    rewrite Hs, DecodeFixed64_put, drop_le_bytes, GetFixed32_put by (done || lia).
    cbn [res_of_option mbind Res_bind]. rewrite Nat2Z.id, <- (app_nil_r (concat _)), get_writes_put by done. done.
Qed.

(** * Properties *)

(** The transaction registry, the version records and the keys they are
    stored under are faithful: a registry entry (with its list of writes) and a
    version record are read back as written; two rows never share a head key, two
    versions never share a version key, two transactions never share a registry
    key, and a head key gives its primary key back. *)
Theorem mvcc_encodings (meta : TxnMeta) (rec : VersionRecord) (t t' : bytes) (pk pk' : Value) (i i' : Z) :
  (meta_ok meta -> DecodeTxnMeta (EncodeTxnMeta meta) = Ret meta) /\
  (record_ok rec -> VersionRecord_Decode (VersionRecord_Encode rec) = Ret rec) /\
  (value_ok pk -> value_ok pk' ->
     DecodePkFromKey (EncodePkForKey pk) = Ret pk /\
     (RowHeadKey t (EncodePkForKey pk) = RowHeadKey t' (EncodePkForKey pk') -> t = t' /\ pk = pk') /\
     (fits64 i -> fits64 i' -> VersionKey t (EncodePkForKey pk) i = VersionKey t' (EncodePkForKey pk') i' ->
        t = t' /\ pk = pk' /\ i = i')) /\
  (fits64 i -> fits64 i' -> TxnKey i = TxnKey i' -> i = i').
Proof.
  split; [apply DecodeTxnMeta_Encode|]. split; [apply VersionRecord_Decode_Encode|]. split; [|apply TxnKey_inj].
  intros Hv Hv'. split; [by apply DecodePkFromKey_Encode|]. split; [by apply RowHeadKey_inj|by apply VersionKey_inj].
Qed.

Lemma mvcc_encodings_witness :
  let meta := mkTxnMeta kCommitting 9 [mkTxnWrite (lit "a/b") (VString (lit "x/y")) 4] in
  let rec := mkVersionRecord 4 0 0 3 7 false (lit "payload") in
  DecodeTxnMeta (EncodeTxnMeta meta) = Ret meta /\ VersionRecord_Decode (VersionRecord_Encode rec) = Ret rec.
Proof.
  intros meta rec. destruct (mvcc_encodings meta rec [] [] VNull VNull 0 0) as (H1 & H2 & _). split.
  - apply H1. split; [reflexivity|unfold fits64; cbn; lia| |reflexivity].
    apply Forall_cons. split; [|constructor]. split; [reflexivity..|unfold fits64; cbn; lia].
  - apply H2. split; try (unfold fits64; cbn; lia). reflexivity.
Defined.
