(* ===== verification/Txn.v ===== *)
(** Transactions and scans (include/reldb/txn.h, src/reldb/txn.cpp) and the
    operations of [Database] on them (Begin, CommitTransaction,
    AbortTransaction of src/reldb/database.cpp). *)
From S2P Require Import Prelude Status Slice Encoding Env Types Schema Row Kv Mvcc.
From S2P Require Import Catalog Database.

(** * State *)

(** A [WrittenKey] has the members of a [TxnWrite]. *)
Record Transaction := mkTransaction {
  txn_id_ : Z;
  start_ts_ : Z;
  finished_ : bool;
  written_ : list TxnWrite
}.

(** A call on a transaction can change the database and the transaction. *)
Abbreviation TxM := (KM (Database * Transaction)).
Definition on_db {A} (m : RelM A) : TxM A := kzoom fst (fun d s => (d, s.2)) m.
Definition the_txn : TxM Transaction := kgets snd.

Definition with_finished (t : Transaction) : Transaction := mkTransaction (txn_id_ t) (start_ts_ t) true (written_ t).
Definition with_write (w : TxnWrite) (t : Transaction) : Transaction :=
  mkTransaction (txn_id_ t) (start_ts_ t) (finished_ t) (written_ t ++ [w]).

Definition Begin : RelM Transaction :=
  d ← kgets id;
  kfail_if (ddl_in_progress_ d) (InvalidArgument (lit "DDL in progress")) ;;
  id ← post_incr next_txn_id_ with_next_txn;
  let start_ts := u64 (next_ts_ d - 1) in
  PersistOracles ;;
  PutTxnMeta id (mkTxnMeta kOpen 0 []) ;;
  kmodify (fun d => with_open_count (u64 (open_txn_count_ d + 1)) d) ;;
  mret (mkTransaction id start_ts false []).

(** The debug assertions are compiled out; the counter is a [size_t]. *)
Definition MarkTxnFinishedLocked : TxM unit :=
  kmodify (fun '(d, t) => (with_open_count (u64 (open_txn_count_ d - 1)) d, with_finished t)).

Definition RestoreWrittenHeads : TxM unit :=
  t ← the_txn;
  RestoreHeads (written_ t).

(** * Writes *)

(** The first-committer-wins walk over the chain below [walk]. *)
Fixpoint conflict_walk (fuel : nat) (table : bytes) (pk : Value) (start_ts txn_id walk : Z) : TxM unit :=
  let conflict := Conflict (lit "write-write conflict: key committed after snapshot") in
  if walk =? 0 then mret tt
  else
    match fuel with
    | O => klift Stuck
    | S fuel =>
      cur ← GetVersion table pk walk;
      if negb (is_provisional cur) then
        kfail_if (vr_start_ts cur >? start_ts) conflict
      else
        (if negb (vr_created_by cur =? txn_id) then
           meta ← GetTxnMeta (vr_created_by cur);
           kfail_if (bool_decide (tm_state meta = kCommitted) && (tm_commit_ts meta >? start_ts)) conflict
         else mret tt) ;;
        conflict_walk fuel table pk start_ts txn_id (vr_prev_id cur)
    end.

(** The checks on the head of an existing chain: the version to link to. *)
Definition check_head (table : bytes) (pk : Value) (txn_id head_id : Z) : TxM Z :=
  head ← GetVersion table pk head_id;
  if is_provisional head then
    meta ← GetTxnMeta (vr_created_by head);
    if decide (tm_state meta = kOpen) then
      if negb (vr_created_by head =? txn_id)
      then kfail (Conflict (lit "write-write conflict: key held by open txn"))
      else kfail (Corruption (lit "missing written_ entry for own provisional"))
    else if decide (tm_state meta = kAborted) then mret (vr_prev_id head)
    else mret head_id
  else mret head_id.

(** Insert needs the row to be absent at the snapshot, update and delete need it
    to be there. *)
Definition check_existing (table : bytes) (pk : Value) (is_insert : bool) : TxM unit :=
  t ← the_txn;
  g ← ktry (GetRow table pk (start_ts_ t) (txn_id_ t) (Some GetTxnMeta));
  match g with
  | inr _ => if is_insert then kfail (InvalidArgument (lit "duplicate primary key")) else mret tt
  | inl e =>
    if is_insert then (if IsNotFound e then mret tt else kfail e)
    else (if IsNotFound e then kfail (NotFound (lit "row not found")) else kfail e)
  end.

(** The payload of a write: [row->Encode()] or nothing for a delete. *)
Definition write_payload (is_delete : bool) (row : option Row) : TxM bytes :=
  if is_delete then mret [] else r ← klift (deref row); mret (Row_Encode r).

(** A key already written in this transaction: rewrite its provisional version. *)
Definition rewrite_own (w : TxnWrite) (table : bytes) (pk : Value) (is_delete : bool) (row : option Row)
    (is_insert : bool) : TxM unit :=
  rec ← GetVersion table pk (tw_version_id w);
  kfail_if (is_insert && negb (vr_is_tombstone rec))
    (InvalidArgument (lit "duplicate primary key in transaction")) ;;
  kfail_if (is_delete && vr_is_tombstone rec) (NotFound (lit "row already deleted in transaction")) ;;
  payload ← write_payload is_delete row;
  PutVersionValue table pk (with_payload is_delete payload rec).

(** A key not written before: install a provisional version on top of its chain. *)
Definition install_new (table : bytes) (pk : Value) (prev_id : Z) (is_delete : bool) (row : option Row) : TxM unit :=
  t ← the_txn;
  vid ← on_db (post_incr next_version_id_ with_next_vid);
  on_db PersistOracles ;;
  payload ← write_payload is_delete row;
  PutVersion table pk (mkVersionRecord vid 0 0 prev_id (txn_id_ t) is_delete payload) ;;
  kmodify (fun '(d, t) => (d, with_write (mkTxnWrite table pk vid) t)) ;;
  t ← the_txn;
  PutTxnMeta (txn_id_ t) (mkTxnMeta kOpen 0 (written_ t)).

Definition wrote (table : bytes) (pk : Value) (w : TxnWrite) : bool :=
  bool_decide (tw_table w = table) && Value_eqb (tw_pk w) pk.

Definition Transaction_Write (table : bytes) (pk : Value) (is_delete : bool) (row : option Row) (is_insert : bool)
    : TxM unit :=
  t ← the_txn;
  kfail_if (finished_ t) (InvalidArgument (lit "transaction finished")) ;;
  match List.find (wrote table pk) (written_ t) with
  | Some w => rewrite_own w table pk is_delete row is_insert
  | None =>
    st ← ktry (GetLatestVersionId table pk);
    match st with
    | inr head_id =>
      prev_id ← check_head table pk (txn_id_ t) head_id;
      conflict_walk (walk_rounds head_id) table pk (start_ts_ t) (txn_id_ t) head_id ;;
      check_existing table pk is_insert ;;
      install_new table pk prev_id is_delete row
    | inl e =>
      if IsNotFound e then
        kfail_if (negb is_insert) (NotFound (lit "row not found")) ;;
        install_new table pk 0 is_delete row
      else kfail e
    end
  end.

Definition Transaction_Insert (table : bytes) (row : Row) : TxM unit :=
  schema ← on_db (Database_GetTable table);
  klift (ValidateAgainst row schema) ;;
  pk ← klift (PrimaryKey row schema);
  Transaction_Write table pk false (Some row) true.

Definition Transaction_Update (table : bytes) (row : Row) : TxM unit :=
  schema ← on_db (Database_GetTable table);
  klift (ValidateAgainst row schema) ;;
  pk ← klift (PrimaryKey row schema);
  Transaction_Write table pk false (Some row) false.

Definition Transaction_Delete (table : bytes) (pk : Value) : TxM unit :=
  on_db (Database_GetTable table) ;;
  Transaction_Write table pk true None false.

Definition Transaction_Get (table : bytes) (pk : Value) : TxM Row :=
  t ← the_txn;
  kfail_if (finished_ t) (InvalidArgument (lit "transaction finished")) ;;
  on_db (Database_GetTable table) ;;
  GetRow table pk (start_ts_ t) (txn_id_ t) (Some GetTxnMeta).

(** * Commit and abort *)

(** Give the transaction up: restore its heads, mark it aborted and finished. *)
Definition abandon (e : Status) : TxM unit :=
  t ← the_txn;
  RestoreWrittenHeads ;;
  PutTxnMeta (txn_id_ t) (mkTxnMeta kAborted 0 []) ;;
  MarkTxnFinishedLocked ;;
  kfail e.

(** The first-committer-wins check before the commit timestamp is taken. *)
Fixpoint commit_check (ws : list TxnWrite) : TxM unit :=
  match ws with
  | [] => mret tt
  | w :: ws =>
    t ← the_txn;
    head ← GetLatestVersionId (tw_table w) (tw_pk w);
    if negb (head =? tw_version_id w) then abandon (Conflict (lit "write-write conflict: head moved"))
    else
      rec ← GetVersion (tw_table w) (tw_pk w) (tw_version_id w);
      (if vr_prev_id rec =? 0 then mret tt
       else
         st ← ktry (GetVersion (tw_table w) (tw_pk w) (vr_prev_id rec));
         match st with
         | inr prev =>
           if negb (is_provisional prev) && (vr_start_ts prev >? start_ts_ t)
           then abandon (Conflict (lit "write-write conflict: key committed after snapshot"))
           else mret tt
         | inl e => if IsNotFound e then mret tt else kfail e
         end) ;;
      commit_check ws
  end.

Definition CommitTransaction : TxM unit :=
  t ← the_txn;
  kfail_if (finished_ t) (InvalidArgument (lit "transaction already finished")) ;;
  commit_check (written_ t) ;;
  commit_ts ← on_db (post_incr next_ts_ with_next_ts);
  PutTxnMeta (txn_id_ t) (mkTxnMeta kCommitting commit_ts (written_ t)) ;;
  ApplyCommitWrites (txn_id_ t) commit_ts (written_ t) ;;
  PutTxnMeta (txn_id_ t) (mkTxnMeta kCommitted commit_ts []) ;;
  on_db PersistOracles ;;
  MarkTxnFinishedLocked.

Definition AbortTransaction : TxM unit :=
  t ← the_txn;
  if finished_ t then mret tt
  else
    RestoreWrittenHeads ;;
    PutTxnMeta (txn_id_ t) (mkTxnMeta kAborted 0 []) ;;
    MarkTxnFinishedLocked.

Definition Transaction_Commit : TxM unit :=
  t ← the_txn;
  kfail_if (finished_ t) (InvalidArgument (lit "transaction finished")) ;;
  CommitTransaction.

Definition Transaction_Abort : TxM unit :=
  t ← the_txn;
  if finished_ t then mret tt else AbortTransaction.

(** * Scans *)

Record TableRowScan := mkTableRowScan {
  sc_txn_id : Z;
  sc_start_ts : Z;
  sc_table : bytes;
  sc_prefix : bytes;
  sc_end_key : option bytes;
  sc_it : Cursor;
  sc_valid : bool;
  sc_pk : Value;
  sc_row : Row;
  sc_status : Status
}.

Definition HasPrefix (key prefix : bytes) : bool :=
  (length prefix <=? length key)%nat && match memcmp (length prefix) key prefix with Eq => true | _ => false end.
Definition PkHexFromHeadKey (key prefix : bytes) : bytes :=
  if HasPrefix key prefix then drop (length prefix) key else [].

(** The scan standing on [es], invalid, with status [st]. *)
Definition scan_at (sc : TableRowScan) (es : list (bytes * bytes * Status)) (st : Status) : TableRowScan :=
  mkTableRowScan (sc_txn_id sc) (sc_start_ts sc) (sc_table sc) (sc_prefix sc) (sc_end_key sc)
    (mkCursor es (cur_end (sc_it sc))) false VNull [] st.
Definition scan_on (sc : TableRowScan) (es : list (bytes * bytes * Status)) (pk : Value) (row : Row) : TableRowScan :=
  mkTableRowScan (sc_txn_id sc) (sc_start_ts sc) (sc_table sc) (sc_prefix sc) (sc_end_key sc)
    (mkCursor es (cur_end (sc_it sc))) true pk row OK.

(** The loop of [Advance]: from the position [es] to the next visible row; the
    status it returns becomes [status_]. *)
Fixpoint scan_advance {S} (sc : TableRowScan) (es : list (bytes * bytes * Status)) : KM S TableRowScan :=
  match es with
  | [] => mret (scan_at sc [] (cur_end (sc_it sc)))
  | (key, _, st) :: rest =>
    if negb (ok st) then mret (scan_at sc es st)
    else if negb (HasPrefix key (sc_prefix sc)) then mret (scan_at sc es OK)
    else if match sc_end_key sc with
            | Some end_key => match Slice_compare key end_key with Lt => false | _ => true end
            | None => false
            end
    then mret (scan_at sc es OK)
    else
      match DecodePkFromKey (PkHexFromHeadKey key (sc_prefix sc)) with
      | Ret pk =>
        r ← ktry (GetRow (sc_table sc) pk (sc_start_ts sc) (sc_txn_id sc) (Some GetTxnMeta));
        match r with
        | inr row => mret (scan_on sc es pk row)
        | inl e => if IsNotFound e then scan_advance sc rest else mret (scan_at sc es e)
        end
      | Fail e => mret (scan_at sc es e)
      | Stuck => klift Stuck
      end
  end.

Definition Scan_Advance {S} (sc : TableRowScan) : KM S TableRowScan :=
  if negb (ok (sc_status sc)) then mret (scan_at sc (cur_entries (sc_it sc)) (sc_status sc))
  else scan_advance sc (cur_entries (sc_it sc)).

(** [it_->Next()] on a valid iterator. *)
Definition cursor_next (c : Cursor) : Cursor := mkCursor (tail (cur_entries c)) (cur_end c).

Definition Scan_Next {S} (sc : TableRowScan) : KM S TableRowScan :=
  if negb (sc_valid sc) then mret sc
  else Scan_Advance (mkTableRowScan (sc_txn_id sc) (sc_start_ts sc) (sc_table sc) (sc_prefix sc) (sc_end_key sc)
    (cursor_next (sc_it sc)) (sc_valid sc) (sc_pk sc) (sc_row sc) (sc_status sc)).

(** [Scan] up to the scan it makes, whose constructor advances to the first row and may
    leave it with a bad status. *)
Definition Scan_start (table : bytes) (start_pk end_pk : option Value) : TxM TableRowScan :=
  t ← the_txn;
  kfail_if (finished_ t) (InvalidArgument (lit "transaction finished")) ;;
  on_db (Database_GetTable table) ;;
  let prefix := lit "d/" ++ table ++ lit "/" in
  let seek_target := match start_pk with Some pk => RowHeadKey table (EncodePkForKey pk) | None => prefix end in
  let end_key := (fun pk => RowHeadKey table (EncodePkForKey pk)) <$> end_pk in
  c ← kv_Seek seek_target;
  Scan_Advance (mkTableRowScan (txn_id_ t) (start_ts_ t) table prefix end_key c false VNull [] OK).
Definition Transaction_Scan (table : bytes) (start_pk end_pk : option Value) : TxM TableRowScan :=
  sc ← Scan_start table start_pk end_pk;
  kfail_if (negb (ok (sc_status sc))) (sc_status sc) ;;
  mret sc.

(** Walk a scan to its end: the rows it shows. *)
Fixpoint scan_rows {S} (fuel : nat) (sc : TableRowScan) : KM S (list (Value * Row)) :=
  if sc_valid sc then
    match fuel with
    | O => klift Stuck
    | S fuel =>
      sc' ← Scan_Next sc;
      rest ← scan_rows fuel sc';
      mret ((sc_pk sc, sc_row sc) :: rest)
    end
  else mret [].
