(* ===== verification/Locks.v ===== *)
(** The locks of the relational layer and the engine under it (Database::mu_ of
    include/reldb/database.h, DBImpl::mutex_ of src/db_impl.h, VersionSet::mu_ of
    include/lsmkv/version.h, SkipList::mu_ of include/lsmkv/skiplist.h, one per
    memtable) and the wait for room in db.cpp: the order in which each public call
    and the background thread take them, and which mixtures of calls end.

    The rest of the development runs a critical section as one step; here the locking
    itself is the program.  What a call does between two lock operations is left
    open: the number of reads and writes of the store, the memtables they meet, the
    number of times a writer waits, and the outcome of flushes are parameters of a
    call, and the theorems hold for all of them.  A writer waits for [imm_] to be
    flushed, or an error, by the action [AwaitRoom]; that it is woken then is
    DbSync.writers_are_woken.  A rotation whose new log cannot be opened or recorded,
    which returns before it schedules a flush, is left out. *)
From S2P Require Import Prelude.

(** * Locks and threads *)

(** Memtables are numbered in the order in which they are made current. *)
Inductive Lock : Set := kDatabaseMu | kEngineMutex | kVersionsMu | kSkipListMu (memtable : nat).
Inductive Mode : Set := kShared | kExclusive.
#[global] Instance Lock_eq_dec : EqDecision Lock.
Proof. solve_decision. Defined.

Inductive Action : Set :=
  | Acquire (l : Lock) (md : Mode)
  | Release (l : Lock)
  | AwaitRoom                        (* asleep on bg_cv_ until imm_ is flushed or bg_error_ is set *)
  | Rotate                           (* imm_ = mem_; flush_scheduled_ = true *)
  | Schedule                         (* flush_scheduled_ = true *)
  | Flushed                          (* imm_.reset() *)
  | Failed.                          (* bg_error_ = s *)

(** What a thread has still to do, and the locks it holds. *)
Record Thread := mkThread { th_todo : list Action; th_held : list (Lock * Mode) }.
Definition start (program : list Action) : Thread := mkThread program [].

(** [imm_ != nullptr], [flush_scheduled_], [!bg_error_.ok()] *)
Record Flags := mkFlags { fl_imm : bool; fl_scheduled : bool; fl_error : bool }.
Record System := mkSystem { sy_bg : Thread; sy_clients : list Thread; sy_flags : Flags }.
Definition threads (s : System) : list Thread := sy_bg s :: sy_clients s.

Definition holds (l : Lock) (th : Thread) : bool := existsb (fun h => bool_decide (h.1 = l)) (th_held th).
Definition holds_exclusive (l : Lock) (th : Thread) : bool :=
  existsb (fun h => bool_decide (h.1 = l) && match h.2 with kExclusive => true | kShared => false end) (th_held th).
Definition waits_exclusive (l : Lock) (th : Thread) : bool :=
  match th_todo th with Acquire l' kExclusive :: _ => bool_decide (l' = l) | _ => false end.

Fixpoint drop_lock (l : Lock) (held : list (Lock * Mode)) : list (Lock * Mode) :=
  match held with
  | [] => []
  | h :: held => if bool_decide (h.1 = l) then held else h :: drop_lock l held
  end.

Definition set_flags (a : Action) (f : Flags) : Flags :=
  match a with
  | Rotate => mkFlags true true (fl_error f)
  | Schedule => mkFlags (fl_imm f) true (fl_error f)
  | Flushed => mkFlags false (fl_scheduled f) (fl_error f)
  | Failed => mkFlags (fl_imm f) (fl_scheduled f) true
  | Acquire _ _ | Release _ | AwaitRoom => f
  end.

(** * The programs *)

(** ** The engine *)

(** What a read of the engine meets: the current memtable, and the one being flushed if it is looked at. *)
Record Read := mkRead { rd_mem : nat; rd_imm : bool }.
Definition imm_of (r : Read) : list nat := match rd_imm r, rd_mem r with true, S n => [n] | _, _ => [] end.
Definition memtables (r : Read) : list nat := rd_mem r :: imm_of r.

(** How a write ends: with [bg_error_], or by an insertion, before which it may rotate and
    after which it may find the memtable full. *)
Inductive WriteEnd : Set := kRefused | kInserted (rotates fills : bool) (memtable : nat).
Inductive KvCall : Set := KvGet (r : Read) | KvWrite (waits : nat) (e : WriteEnd) | KvScan (r : Read).

Definition lock_shared (n : nat) : list Action := [Acquire (kSkipListMu n) kShared; Release (kSkipListMu n)].
(** DBImpl::Get: the snapshot of the engine's state, then lookups in the memtables. *)
Definition kv_get (r : Read) : list Action :=
  [Acquire kEngineMutex kExclusive; Release kEngineMutex] ++ concat (map lock_shared (memtables r)).
(** VersionSet::LogAndApply *)
Definition log_and_apply : list Action := [Acquire kVersionsMu kExclusive; Release kVersionsMu].
(** DBImpl::MakeRoomForWrite, entered and left with the mutex held; the wait releases it. *)
Definition make_room (waits : nat) (rotates : bool) : list Action :=
  concat (replicate waits [Release kEngineMutex; AwaitRoom; Acquire kEngineMutex kExclusive]) ++
  (if rotates then log_and_apply ++ [Rotate] else []).
(** DBImpl::Write: the insertion into the memtable under the engine's mutex. *)
Definition kv_write (waits : nat) (e : WriteEnd) : list Action :=
  [Acquire kEngineMutex kExclusive] ++
  match e with
  | kRefused => make_room waits false
  | kInserted rotates fills n =>
    make_room waits rotates ++ [Acquire (kSkipListMu n) kExclusive; Release (kSkipListMu n)] ++ (if fills then [Schedule] else [])
  end ++ [Release kEngineMutex].
(** DBImpl::NewIterator: the iterators of the memtables keep their locks ... *)
Definition iterator_open (r : Read) : list Action :=
  [Acquire kEngineMutex kExclusive; Release kEngineMutex] ++ map (fun n => Acquire (kSkipListMu n) kShared) (memtables r).
(** ... until the iterator is destroyed. *)
Definition iterator_close (r : Read) : list Action := map (fun n => Release (kSkipListMu n)) (memtables r).

Definition kv_call (c : KvCall) : list Action :=
  match c with
  | KvGet r => kv_get r
  | KvWrite waits e => kv_write waits e
  | KvScan r => iterator_open r ++ iterator_close r
  end.

(** ** The background thread *)

Inductive FlushEnd : Set := kBuildFails | kLogFails | kFlushes.
Inductive CompactEnd : Set := kNotNeeded | kMergeFails | kEditFails | kCompacts.
Record BgRound := mkBgRound { ro_memtable : nat; ro_flush : FlushEnd; ro_compact : CompactEnd }.

(** DBImpl::FlushMemTable: the memtable is read under its shared lock. *)
Definition FlushMemTable_locks (n : nat) (e : FlushEnd) : list Action :=
  [Acquire kEngineMutex kExclusive; Release kEngineMutex] ++ lock_shared n ++
  match e with
  | kBuildFails => []
  | kLogFails => [Acquire kEngineMutex kExclusive] ++ log_and_apply ++ [Release kEngineMutex]
  | kFlushes => [Acquire kEngineMutex kExclusive] ++ log_and_apply ++ [Release kEngineMutex] ++
      [Acquire kEngineMutex kExclusive; Flushed; Release kEngineMutex]
  end.
(** DBImpl::CompactIfNeeded *)
Definition CompactIfNeeded_locks (e : CompactEnd) : list Action :=
  [Acquire kEngineMutex kExclusive; Release kEngineMutex] ++
  match e with
  | kNotNeeded | kMergeFails => []
  | kEditFails | kCompacts => [Acquire kEngineMutex kExclusive] ++ log_and_apply ++ [Release kEngineMutex]
  end.

(** DBImpl::BackgroundThreadMain from one wait to the next: a flush and the compaction it
    schedules, or nothing if there is no memtable to flush. *)
Definition round_locks (r : BgRound) (imm : bool) : list Action :=
  [Acquire kEngineMutex kExclusive] ++
  (if imm then
     [Release kEngineMutex] ++ FlushMemTable_locks (ro_memtable r) (ro_flush r) ++ [Acquire kEngineMutex kExclusive] ++
     match ro_flush r with kFlushes => [] | _ => [Failed] end ++
     [Release kEngineMutex] ++ CompactIfNeeded_locks (ro_compact r) ++ [Acquire kEngineMutex kExclusive] ++
     match ro_compact r with kNotNeeded | kCompacts => [] | _ => [Failed] end
   else []) ++
  [Release kEngineMutex].

(** ** The relational layer *)

(** A critical section of Database::mu_. *)
Definition under_mu (md : Mode) (calls : list KvCall) : list Action :=
  [Acquire kDatabaseMu md] ++ concat (map kv_call calls) ++ [Release kDatabaseMu].

(** Database::GetTable: the cache under the shared lock, else the store under the exclusive one. *)
Definition GetTable_locks (load : option Read) : list Action :=
  under_mu kShared [] ++ match load with None => [] | Some r => under_mu kExclusive [KvGet r] end.
(** Transaction::Get *)
Definition Get_locks (load : option Read) (reads : list Read) : list Action := GetTable_locks load ++ under_mu kShared (map KvGet reads).
(** Transaction::Insert, Update and Delete *)
Definition Write_locks (load : option Read) (calls : list KvCall) : list Action := GetTable_locks load ++ under_mu kExclusive calls.
(** Database::Begin, CommitTransaction, AbortTransaction, CreateTable, DropTable and AlterTable *)
Definition Exclusive_locks (calls : list KvCall) : list Action := under_mu kExclusive calls.

Inductive Call : Set :=
  | CallGetTable (load : option Read)
  | CallGet (load : option Read) (reads : list Read)
  | CallWrite (load : option Read) (calls : list KvCall)
  | CallExclusive (calls : list KvCall).
Definition call_locks (c : Call) : list Action :=
  match c with
  | CallGetTable load => GetTable_locks load
  | CallGet load reads => Get_locks load reads
  | CallWrite load calls => Write_locks load calls
  | CallExclusive calls => Exclusive_locks calls
  end.
Definition program (calls : list Call) : list Action := concat (map call_locks calls).

(** Transaction::Scan: the iterator takes the locks of the skip lists and keeps them while
    TableRowScan::Advance resolves the rows one by one under Database::mu_. *)
Definition scan_open_locks (load : option Read) (r : Read) : list Action := GetTable_locks load ++ iterator_open r.
Definition scan_row_locks (reads : list Read) : list Action := under_mu kShared (map KvGet reads).
Definition scan_locks (load : option Read) (r : Read) (rows : list (list Read)) : list Action :=
  scan_open_locks load r ++ concat (map scan_row_locks rows) ++ iterator_close r.

Definition start_system (programs : list (list Action)) : System := mkSystem (start []) (map start programs) (mkFlags false false false).

(** * Steps *)

Section Steps.
(** Whether a shared lock also waits for a thread that waits for the exclusive one, which
    std::shared_mutex leaves open. *)
Context (writers_first : bool).

(** A shared lock waits for an exclusive holder, an exclusive lock for any holder,
    the thread itself included: the mutexes are not recursive. *)
Definition free (s : System) (l : Lock) (md : Mode) : bool :=
  match md with
  | kShared => forallb (fun th => negb (holds_exclusive l th || writers_first && waits_exclusive l th)) (threads s)
  | kExclusive => forallb (fun th => negb (holds l th)) (threads s)
  end.

(** The next action of a thread, if it can be taken. *)
Definition act (s : System) (th : Thread) : option (Thread * Flags) :=
  match th_todo th with
  | [] => None
  | a :: todo =>
    let f := set_flags a (sy_flags s) in
    match a with
    | Acquire l md => if free s l md then Some (mkThread todo ((l, md) :: th_held th), f) else None
    | Release l => Some (mkThread todo (drop_lock l (th_held th)), f)
    | AwaitRoom => if fl_imm f && negb (fl_error f) then None else Some (mkThread todo (th_held th), f)
    | Rotate | Schedule | Flushed | Failed => Some (mkThread todo (th_held th), f)
    end
  end.

Inductive lock_step (s : System) : System -> Prop :=
  | step_client i th th' f : sy_clients s !! i = Some th -> act s th = Some (th', f) ->
      lock_step s (mkSystem (sy_bg s) (<[i := th']> (sy_clients s)) f)
  | step_background th' f : act s (sy_bg s) = Some (th', f) -> lock_step s (mkSystem th' (sy_clients s) f)
  | step_round r : th_todo (sy_bg s) = [] -> fl_scheduled (sy_flags s) = true ->
      lock_step s (mkSystem (mkThread (round_locks r (fl_imm (sy_flags s))) (th_held (sy_bg s))) (sy_clients s)
        (mkFlags (fl_imm (sy_flags s)) false (fl_error (sy_flags s)))).
End Steps.

Definition idle (th : Thread) : bool := match th_todo th with [] => true | _ => false end.
(** Every call has returned and no flush is due. *)
Definition finished (s : System) : bool := forallb idle (threads s) && negb (fl_scheduled (sy_flags s)).
(** Some call has not returned and nothing can go on. *)
Definition deadlocked (writers_first : bool) (s : System) : Prop := finished s = false /\ forall s', ~ lock_step writers_first s s'.

(** * Lock order *)

(** Database::mu_, the wait for room, the engine's mutex, VersionSet::mu_, then the
    memtables from the newest to the oldest. *)
Definition Rank : Type := Z * Z.
Definition rank_ltb (a b : Rank) : bool := (a.1 <? b.1) || (a.1 =? b.1) && (a.2 <? b.2).
Definition room_rank : Rank := (2, 0).
Definition rank (l : Lock) : Rank :=
  match l with
  | kDatabaseMu => (1, 0)
  | kEngineMutex => (3, 0)
  | kVersionsMu => (4, 0)
  | kSkipListMu n => (5, - Z.of_nat n)
  end.

Lemma rank_ltb_true a b : rank_ltb a b = true <-> a.1 < b.1 \/ a.1 = b.1 /\ a.2 < b.2.
Proof. unfold rank_ltb. rewrite orb_true_iff, andb_true_iff, !Z.ltb_lt, Z.eqb_eq. done. Qed.
Lemma rank_ltb_false a b : rank_ltb a b = false <-> b.1 < a.1 \/ a.1 = b.1 /\ b.2 <= a.2.
Proof.
  unfold rank_ltb. rewrite orb_false_iff, andb_false_iff, !Z.ltb_ge, Z.eqb_neq. lia.
Qed.

Fixpoint drop_one (l : Lock) (held : list Lock) : list Lock :=
  match held with [] => [] | h :: held => if bool_decide (h = l) then held else h :: drop_one l held end.
Definition all_below (held : list Lock) (r : Rank) : bool := forallb (fun h => rank_ltb (rank h) r) held.

(** Each lock is above those held, only held locks are released, and none is kept. *)
Fixpoint ordered (held : list Lock) (todo : list Action) : bool :=
  match todo with
  | [] => bool_decide (held = [])
  | Acquire l _ :: todo => all_below held (rank l) && ordered (l :: held) todo
  | Release l :: todo => bool_decide (l ∈ held) && ordered (drop_one l held) todo
  | AwaitRoom :: todo => all_below held room_rank && ordered held todo
  | (Rotate | Schedule | Flushed | Failed) :: todo => ordered held todo
  end.
(** The background thread neither waits for room nor takes Database::mu_, and schedules nothing itself. *)
Definition bg_action (a : Action) : bool :=
  match a with Acquire l _ => rank_ltb room_rank (rank l) | AwaitRoom | Rotate | Schedule => false | _ => true end.

Definition thread_ordered (th : Thread) : Prop := ordered (map fst (th_held th)) (th_todo th) = true.

(** A memtable that waits to be flushed is scheduled or being flushed, unless there is an error. *)
Definition room_comes (s : System) : Prop :=
  fl_imm (sy_flags s) = true -> fl_error (sy_flags s) = false ->
  fl_scheduled (sy_flags s) = true \/ Flushed ∈ th_todo (sy_bg s) \/ Failed ∈ th_todo (sy_bg s).

Record lock_inv (s : System) : Prop := {
  li_ordered : Forall thread_ordered (threads s);
  li_bg : forallb bg_action (th_todo (sy_bg s)) = true;
  li_room : room_comes s
}.

Lemma map_drop_lock l held : map fst (drop_lock l held) = drop_one l (map fst held).
Proof. induction held as [|h held IH]; [done|]. cbn. destruct (bool_decide _); [done|]. cbn. by rewrite IH. Qed.

Lemma all_below_cons h held r : all_below (h :: held) r = rank_ltb (rank h) r && all_below held r.
Proof. done. Qed.
(** Taking a lock and giving it back. *)
Lemma ordered_acquire l md held rest : all_below held (rank l) = true -> ordered held (Acquire l md :: rest) = ordered (l :: held) rest.
Proof. intros H. cbn [ordered]. by rewrite H. Qed.
Lemma ordered_release l held rest : ordered (l :: held) (Release l :: rest) = ordered held rest.
Proof. cbn [ordered drop_one]. rewrite !bool_decide_eq_true_2; [done|done|by left]. Qed.

Ltac lock_run := repeat (cbn [app concat map lock_shared log_and_apply memtables rd_mem];
  first [rewrite ordered_release|rewrite ordered_acquire by reflexivity|progress cbn [ordered all_below forallb andb]]).

Section Progress.
Context (writers_first : bool).

(** What one action changes. *)
Lemma act_cases s th th' f : act writers_first s th = Some (th', f) ->
  exists a todo, th_todo th = a :: todo /\ th_todo th' = todo /\ f = set_flags a (sy_flags s).
Proof.
  unfold act. destruct (th_todo th) as [|a todo]; [done|]. intros H. exists a, todo. split; [done|].
  destruct a; try (destruct (free _ _ _ _)); try (destruct (_ && _)); try done; by injection H as <- <-.
Qed.

Lemma act_ordered s th th' f : thread_ordered th -> act writers_first s th = Some (th', f) -> thread_ordered th'.
Proof.
  unfold act, thread_ordered. destruct th as [[|a todo] held]; [done|]. cbn [th_todo th_held]. intros Ho H. destruct a as [l md|l| | | | |];
    cbn [ordered] in Ho; try apply andb_true_iff in Ho as [H1 H2].
  - destruct (free _ _ _ _); [|done]. by injection H as <- _.
  - injection H as <- _. cbn. by rewrite map_drop_lock.
  - destruct (_ && _); [done|]. by injection H as <- _.
  - by injection H as <- _.
  - by injection H as <- _.
  - by injection H as <- _.
  - by injection H as <- _.
Qed.

Lemma round_ordered r imm : ordered [] (round_locks r imm) = true /\ forallb bg_action (round_locks r imm) = true.
Proof.
  split; [|by destruct r as [n [] []], imm]. unfold round_locks, FlushMemTable_locks, CompactIfNeeded_locks, lock_shared, log_and_apply.
  destruct r as [n [] []], imm; lock_run; done.
Qed.

Lemma round_makes_room r : Flushed ∈ round_locks r true \/ Failed ∈ round_locks r true.
Proof. destruct r as [n [] c]; [right|right|left]; apply list_elem_of_In; cbn; tauto. Qed.

Lemma step_inv s s' : lock_inv s -> lock_step writers_first s s' -> lock_inv s'.
Proof.
  intros [Ho Hb Hr] H. apply Forall_cons_1 in Ho as [Hbg Hcl]. destruct H as [i th th' f Hi Ha|th' f Ha|r Hidle Hs].
  - pose proof (Forall_lookup_1 _ _ _ _ Hcl Hi) as Hth. split; cbn [threads sy_bg sy_clients].
    + constructor; [done|]. apply Forall_insert; [done|]. by eapply act_ordered.
    + done.
    + apply act_cases in Ha as (a & todo & _ & _ & ->). unfold room_comes in *. cbn [sy_flags sy_bg].
      destruct a; cbn [set_flags fl_imm fl_scheduled fl_error]; intros H1 H2; try done; auto.
  - split; cbn [threads sy_bg sy_clients].
    + constructor; [by eapply act_ordered|done].
    + apply act_cases in Ha as (a & todo & E & -> & _). rewrite E in Hb. by apply andb_true_iff in Hb as [_ ?].
    + apply act_cases in Ha as (a & todo & E & E' & ->). unfold room_comes in *. cbn [sy_flags sy_bg]. rewrite E' in *. rewrite E in Hr, Hb. cbn [forallb] in Hb.
      assert (forall b, b ∈ a :: todo -> a <> b -> b ∈ todo) as Hrest by (intros b [->|]%elem_of_cons ?; done).
      destruct a; cbn [set_flags fl_imm fl_scheduled fl_error]; intros H1 H2; try done; destruct (Hr H1 H2) as [?|[?|?]]; auto.
  - destruct (round_ordered r (fl_imm (sy_flags s))) as [H1 H2]. split; cbn [threads sy_bg sy_clients th_todo].
    + constructor; [|done]. unfold thread_ordered in *. cbn [th_todo th_held]. rewrite Hidle in Hbg. cbn [ordered] in Hbg.
      apply bool_decide_eq_true in Hbg. by destruct (th_held (sy_bg s)).
    + done.
    + intros Himm Herr. cbn [sy_flags fl_imm fl_error fl_scheduled sy_bg th_todo] in *. right. rewrite Himm. apply round_makes_room.
Qed.

(** ** Progress *)

(** What a thread asks for, as a rank: nothing, a lock, room, or nothing that can be refused. *)
Definition wanted (th : Thread) : Rank :=
  match th_todo th with
  | [] => (0, 0)
  | Acquire l _ :: _ => rank l
  | AwaitRoom :: _ => room_rank
  | _ :: _ => (6, 0)
  end.

Lemma max_wanted (ts : list Thread) : ts <> [] -> exists th, th ∈ ts /\ Forall (fun th' => rank_ltb (wanted th) (wanted th') = false) ts.
Proof.
  induction ts as [|th ts IH]; [done|]. intros _. destruct ts as [|th1 ts].
  - exists th. split; [by left|]. repeat constructor. apply rank_ltb_false. lia.
  - destruct (IH ltac:(done)) as (th0 & Hi & Hm). destruct (rank_ltb (wanted th0) (wanted th)) eqn:E.
    + exists th. split; [by left|]. constructor; [apply rank_ltb_false; lia|]. eapply Forall_impl; [exact Hm|]. intros x Hx.
      rewrite rank_ltb_false in *. rewrite rank_ltb_true in E. lia.
    + exists th0. split; [by right|]. by constructor.
Qed.

(** A thread that holds a lock wants more, or nothing that can be refused. *)
Lemma holder_wants_more l th : thread_ordered th -> holds l th = true -> rank_ltb (rank l) (wanted th) = true.
Proof.
  destruct th as [todo held]. unfold thread_ordered, holds, wanted. cbn [th_todo th_held]. intros Ho Hh.
  apply existsb_exists in Hh as (h & Hin & Hl). apply bool_decide_eq_true in Hl. subst l.
  assert (h.1 ∈ map fst held) as Hm by (apply (list_elem_of_fmap_2 fst), list_elem_of_In; done).
  assert (forall r, all_below (map fst held) r = true -> rank_ltb (rank h.1) r = true) as Hbelow.
  { unfold all_below. intros r H. rewrite forallb_forall in H. apply H, list_elem_of_In, Hm. }
  destruct todo as [|[l md|l| | | | |] todo]; cbn [ordered] in Ho; try (destruct h as [[] m]; reflexivity).
  - apply bool_decide_eq_true in Ho. rewrite Ho in Hm. by apply elem_of_nil in Hm.
  - apply andb_true_iff in Ho as [Ho _]. by apply Hbelow.
  - apply andb_true_iff in Ho as [Ho _]. by apply Hbelow.
Qed.

Lemma forallb_false {A} (p : A -> bool) l : forallb p l = false -> exists x, x ∈ l /\ p x = false.
Proof.
  induction l as [|x l IH]; [done|]. cbn [forallb]. destruct (p x) eqn:E; [|by intros _; exists x; split; [left|]].
  intros H. destruct (IH H) as (y & Hy & Hp). exists y. split; [by right|done].
Qed.

Lemma exclusive_holds l th : holds_exclusive l th = true -> holds l th = true.
Proof.
  unfold holds_exclusive, holds. rewrite !existsb_exists. intros (h & Hin & Hh). exists h. split; [done|]. by apply andb_true_iff in Hh as [].
Qed.

(** If a lock of the highest rank that any thread asks for cannot be taken, some thread that asks for it can take it. *)
Lemma highest_lock s l md : Forall thread_ordered (threads s) -> (forall th, th ∈ threads s -> rank_ltb (rank l) (wanted th) = false) ->
  free writers_first s l md = true \/
  exists th, th ∈ threads s /\ waits_exclusive l th = true /\ free writers_first s l kExclusive = true.
Proof.
  intros Ho Hm. rewrite Forall_forall in Ho.
  assert (free writers_first s l kExclusive = true) as Hx.
  { cbn [free]. apply not_false_is_true. intros (th & Hin & Hh)%forallb_false. apply negb_false_iff in Hh.
    pose proof (holder_wants_more l th (Ho _ Hin) Hh) as H. by rewrite (Hm _ Hin) in H. }
  destruct md; [|by left]. destruct (free writers_first s l kShared) eqn:E; [by left|]. right. cbn [free] in E.
  apply forallb_false in E as (th & Hin & Hh). apply negb_false_iff, orb_true_iff in Hh as [Hh|Hh].
  - apply exclusive_holds in Hh. pose proof (holder_wants_more l th (Ho _ Hin) Hh) as H. by rewrite (Hm _ Hin) in H.
  - apply andb_true_iff in Hh as [_ Hh]. by exists th.
Qed.

(** A thread whose action can be taken gives a step. *)
Lemma thread_steps s th th' f : th ∈ threads s -> act writers_first s th = Some (th', f) -> exists s', lock_step writers_first s s'.
Proof.
  intros [->|Hin]%elem_of_cons Ha; [eexists; by eapply step_background|]. apply list_elem_of_lookup in Hin as [i Hi]. eexists. by eapply step_client.
Qed.

Lemma lock_progress s : lock_inv s -> finished s = false -> exists s', lock_step writers_first s s'.
Proof.
  intros [Ho Hb Hr] Hd. destruct (max_wanted (threads s)) as (th & Hin & Hm); [done|]. rewrite Forall_forall in Hm.
  destruct (th_todo th) as [|a todo] eqn:Et.
  - (* all are idle: a flush is due *)
    assert (forall th', th' ∈ threads s -> th_todo th' = []) as Hall.
    { intros th' H'. specialize (Hm _ H'). unfold wanted in Hm. rewrite Et in Hm. by destruct (th_todo th') as [|[[]| | | | | |]]. }
    eexists. apply (step_round _ _ (mkBgRound 0 kFlushes kNotNeeded)); [apply Hall; by left|].
    unfold finished in Hd. destruct (fl_scheduled (sy_flags s)); [done|]. rewrite andb_true_r in Hd. apply forallb_false in Hd as (th' & H' & Hi).
    unfold idle in Hi. by rewrite (Hall _ H') in Hi.
  - destruct a as [l md|l| | | | |]; try (eapply (thread_steps s th); [done|]; unfold act; rewrite Et; done).
    + assert (wanted th = rank l) as Hw by (unfold wanted; by rewrite Et). rewrite Hw in Hm.
      destruct (highest_lock s l md Ho Hm) as [Hf|(th' & Hin' & Hwt & Hf)].
      * eapply (thread_steps s th); [done|]. unfold act. by rewrite Et, Hf.
      * unfold waits_exclusive in Hwt. destruct (th_todo th') as [|[l' []| | | | | |] todo'] eqn:Et'; try done. apply bool_decide_eq_true in Hwt. subst l'.
        eapply (thread_steps s th'); [done|]. unfold act. by rewrite Et', Hf.
    + assert (wanted th = room_rank) as Hw by (unfold wanted; by rewrite Et). rewrite Hw in Hm.
      destruct (fl_imm (sy_flags s) && negb (fl_error (sy_flags s))) eqn:Ei; [|eapply (thread_steps s th); [done|]; unfold act; rewrite Et; cbn; by rewrite Ei].
      apply andb_true_iff in Ei as [Ei Ee%negb_true_iff]. destruct (th_todo (sy_bg s)) as [|b rest] eqn:Eb.
      * eexists. apply (step_round _ _ (mkBgRound 0 kFlushes kNotNeeded)); [done|]. unfold room_comes in Hr. rewrite Eb in Hr.
        destruct (Hr Ei Ee) as [?|[H|H]]; [done|by apply elem_of_nil in H..].
      * exfalso. specialize (Hm (sy_bg s) ltac:(by left)). unfold wanted in Hm. rewrite Eb in Hm. cbn [forallb] in Hb.
        apply andb_true_iff in Hb as [Hb _]. by destruct b as [[]| | | | | |].
Qed.
End Progress.

(** ** The calls are ordered *)

(** A piece of a program that takes its locks in order above those held and gives them back. *)
Definition neutral (held : list Lock) (p : list Action) : Prop := forall rest, ordered held (p ++ rest) = ordered held rest.

Lemma neutral_nil held : neutral held [].
Proof. done. Qed.
Lemma neutral_app held p q : neutral held p -> neutral held q -> neutral held (p ++ q).
Proof. intros Hp Hq rest. rewrite <- app_assoc. by rewrite Hp, Hq. Qed.
Lemma neutral_concat {A} held (f : A -> list Action) l : (forall x, neutral held (f x)) -> neutral held (concat (map f l)).
Proof. intros H. induction l as [|x l IH]; [apply neutral_nil|]. cbn [map concat]. by apply neutral_app. Qed.
Lemma neutral_locked l md held p : all_below held (rank l) = true -> neutral (l :: held) p -> neutral held ([Acquire l md] ++ p ++ [Release l]).
Proof. intros Hb Hp rest. cbn [app]. rewrite ordered_acquire, <- app_assoc, Hp by done. apply ordered_release. Qed.

Lemma neutral_get r : neutral [kDatabaseMu] (kv_get r).
Proof.
  apply neutral_app; [by apply (neutral_locked kEngineMutex kExclusive [kDatabaseMu] [])|]. apply neutral_concat. intros n.
  by apply (neutral_locked (kSkipListMu n) kShared [kDatabaseMu] []).
Qed.

Lemma neutral_log_and_apply held : all_below held (rank kVersionsMu) = true -> neutral held log_and_apply.
Proof. intros H. by apply (neutral_locked kVersionsMu kExclusive held []). Qed.

Lemma neutral_make_room waits rotates : neutral [kEngineMutex; kDatabaseMu] (make_room waits rotates).
Proof.
  apply neutral_app.
  - induction waits as [|n IH]; [apply neutral_nil|]. cbn [replicate concat]. apply neutral_app; [|done]. intros rest. by lock_run.
  - destruct rotates; [|apply neutral_nil]. apply neutral_app; [by apply neutral_log_and_apply|]. by intros rest.
Qed.

Lemma neutral_write waits e : neutral [kDatabaseMu] (kv_write waits e).
Proof.
  apply neutral_locked; [done|]. destruct e as [|rotates fills n]; [apply neutral_make_room|].
  apply neutral_app; [apply neutral_make_room|]. apply neutral_app; [by apply (neutral_locked (kSkipListMu n) kExclusive _ [])|].
  by destruct fills.
Qed.

Lemma neutral_scan r : neutral [kDatabaseMu] (iterator_open r ++ iterator_close r).
Proof.
  unfold iterator_open, iterator_close. rewrite <- app_assoc.
  apply neutral_app; [by apply (neutral_locked kEngineMutex kExclusive [kDatabaseMu] [])|]. intros rest.
  destruct r as [[|n] []]; cbn [memtables imm_of rd_mem rd_imm map app]; try (rewrite ordered_acquire by done; by rewrite ordered_release).
  rewrite ordered_acquire by done. rewrite ordered_acquire.
  - cbn [ordered drop_one]. rewrite bool_decide_eq_true_2 by (right; left). rewrite (bool_decide_eq_false_2 (kSkipListMu n = kSkipListMu (S n))) by (intros [=]; lia).
    rewrite (bool_decide_eq_true_2 (kSkipListMu (S n) = _)) by done. exact (ordered_release (kSkipListMu n) [kDatabaseMu] rest).
  - rewrite all_below_cons. apply andb_true_iff. split; [|done]. apply rank_ltb_true. cbn [rank fst snd]. lia.
Qed.

Lemma neutral_under_mu md calls : neutral [] (under_mu md calls).
Proof.
  apply neutral_locked; [done|]. apply neutral_concat. intros [r|waits e|r]; [apply neutral_get|apply neutral_write|apply neutral_scan].
Qed.

Lemma neutral_call c : neutral [] (call_locks c).
Proof.
  assert (forall load, neutral [] (GetTable_locks load)) as Ht.
  { intros [r|]; (apply neutral_app; [apply neutral_under_mu|]); [apply neutral_under_mu|apply neutral_nil]. }
  destruct c as [load|load reads|load calls|calls]; cbn [call_locks]; [apply Ht|..]; try (apply neutral_app; [apply Ht|]); apply neutral_under_mu.
Qed.

Lemma ordered_program calls : ordered [] (program calls) = true.
Proof. rewrite <- (app_nil_r (program calls)). apply (neutral_concat [] call_locks calls neutral_call). Qed.

Lemma start_inv programs : Forall (fun p => ordered [] p = true) programs -> lock_inv (start_system programs).
Proof.
  intros H. split; [|done|done]. constructor; [done|]. apply Forall_fmap. eapply Forall_impl; [exact H|]. done.
Qed.

(** ** Every run is finite *)

(** The longest round of the background thread. *)
Definition longest_round : nat := 26.
Definition action_weight (a : Action) : nat := match a with Rotate | Schedule => longest_round + 2 | _ => 1 end.
Definition weight (p : list Action) : nat := sum_list_with action_weight p.
(** What is left to do, with the rounds that the writes still make due. *)
Definition work (s : System) : nat :=
  sum_list_with (fun th => weight (th_todo th)) (sy_clients s) + weight (th_todo (sy_bg s)) +
  (if fl_scheduled (sy_flags s) then longest_round + 1 else 0).

Lemma round_weight r imm : (weight (round_locks r imm) <= longest_round)%nat.
Proof. destruct r as [n [] []], imm; cbn; unfold longest_round; lia. Qed.

Lemma sum_list_with_insert {A} (f : A -> nat) l i x y : l !! i = Some x ->
  (sum_list_with f (<[i := y]> l) + f x = sum_list_with f l + f y)%nat.
Proof.
  revert i. induction l as [|z l IH]; intros [|i]; [done|done|cbn; intros [= ->]; lia|]. intros H. specialize (IH i H).
  change (<[S i := y]> (z :: l)) with (z :: <[i := y]> l). cbn [sum_list_with]. lia.
Qed.

Lemma act_weight writers_first s th th' f : act writers_first s th = Some (th', f) ->
  (weight (th_todo th') + (if fl_scheduled f then longest_round + 1 else 0) <
   weight (th_todo th) + (if fl_scheduled (sy_flags s) then longest_round + 1 else 0))%nat.
Proof.
  intros (a & todo & -> & -> & ->)%act_cases. unfold weight. cbn [sum_list_with].
  destruct (fl_scheduled (sy_flags s)) eqn:E, a; cbn [action_weight set_flags fl_scheduled]; rewrite ?E; lia.
Qed.

Lemma step_work writers_first s s' : lock_step writers_first s s' -> (work s' < work s)%nat.
Proof.
  unfold work. intros [i th th' f Hi Ha%act_weight|th' f Ha%act_weight|r Hidle Hs]; cbn [sy_clients sy_bg sy_flags].
  - pose proof (sum_list_with_insert (fun th => weight (th_todo th)) _ _ _ th' Hi). lia.
  - lia.
  - rewrite Hidle, Hs. cbn [th_todo fl_scheduled]. pose proof (round_weight r (fl_imm (sy_flags s))). change (weight []) with 0%nat. lia.
Qed.

(** * Properties *)

(** C32: Transactions without scans cannot deadlock and always end: any number of threads,
    each making any sequence of begins, gets, inserts, updates, deletes, commits,
    aborts and table definitions, together with the background thread that flushes
    the memtables writers wait for, take the locks in the order Database::mu_, the
    wait for room, DBImpl::mutex_, VersionSet::mu_, SkipList::mu_.  A run has at most
    [work] steps, and as long as a call has not returned or a flush is due some
    thread can go on, whether shared locks wait for waiting writers or not and
    whether flushes and compactions succeed or not; rotations succeed. *)
Theorem point_accesses_progress (writers_first : bool) (clients : list (list Call)) (n : nat) (s : System) :
  nsteps (lock_step writers_first) n (start_system (map program clients)) s ->
  (n <= work (start_system (map program clients)))%nat /\
  (finished s = true \/ exists s', lock_step writers_first s s').
Proof.
  intros H. assert (lock_inv (start_system (map program clients))) as Hi.
  { apply start_inv. apply Forall_fmap, Forall_forall. intros calls _. apply ordered_program. }
  revert H Hi. generalize (start_system (map program clients)). intros s0 H. induction H as [s|n s0 s1 s2 Hs _ IH]; intros Hi.
  - split; [lia|]. destruct (finished s) eqn:Ef; [by left|right]. by apply lock_progress.
  - pose proof (step_inv _ _ _ Hi Hs) as Hi'. destruct (IH Hi') as [Hn Hp]. apply step_work in Hs. split; [lia|done].
Qed.

Lemma point_accesses_progress_witness :
  let clients := [[CallGet None [mkRead 0 false]]; [CallWrite None [KvWrite 0 (kInserted false false 0)]]] in
  let s := mkSystem (start []) [mkThread (tail (program [CallGet None [mkRead 0 false]])) [(kDatabaseMu, kShared)];
    start (program [CallWrite None [KvWrite 0 (kInserted false false 0)]])] (mkFlags false false false) in
  (1 <= work (start_system (map program clients)))%nat /\ (finished s = true \/ exists s', lock_step true s s').
Proof.
  intros clients s. apply (point_accesses_progress true clients 1 s). eapply nsteps_l; [|apply nsteps_O].
  by apply (step_client true (start_system (map program clients)) 0%nat (start (program [CallGet None [mkRead 0 false]]))).
Defined.

(** ** Scans *)

(** The piece [p] run by a thread that holds [held], while the others hold [others] and do nothing. *)
Definition compatible (H : list (Lock * Mode)) (l : Lock) (md : Mode) : bool :=
  forallb (fun h => negb (bool_decide (h.1 = l) && match md, h.2 with kShared, kShared => false | _, _ => true end)) H.
Fixpoint alone (others held : list (Lock * Mode)) (p : list Action) : option (list (Lock * Mode)) :=
  match p with
  | [] => Some held
  | Acquire l md :: p => if compatible (others ++ held) l md then alone others ((l, md) :: held) p else None
  | Release l :: p => alone others (drop_lock l held) p
  | _ :: _ => None
  end.

Lemma alone_app others p q : forall held, alone others held (p ++ q) = alone others held p ≫= fun held' => alone others held' q.
Proof.
  induction p as [|a p IH]; intros held; [done|]. destruct a as [l md|l| | | | |]; cbn [app alone]; try done. by destruct (compatible _ l md).
Qed.

(** The other threads hold at most [others] and wait for no exclusive lock. *)
Definition bystander (others : list (Lock * Mode)) (th : Thread) : Prop :=
  (forall h, h ∈ th_held th -> h ∈ others) /\ forall l, waits_exclusive l th = false.

Lemma compatible_holds H l md : compatible H l md = true -> forall h, h ∈ H -> h.1 = l -> md = kShared /\ h.2 = kShared.
Proof.
  unfold compatible. rewrite forallb_forall. intros Hc h Hin <-. specialize (Hc h (proj1 (list_elem_of_In _ _) Hin)).
  rewrite bool_decide_eq_true_2 in Hc by done. by destruct md, h.2.
Qed.

Section Alone.
Context (writers_first : bool).

Lemma alone_free s others th l md : (forall th', th' ∈ threads s -> th' = th \/ bystander others th') ->
  compatible (others ++ th_held th) l md = true -> (md = kShared -> forall l', waits_exclusive l' th = false) -> free writers_first s l md = true.
Proof.
  intros Hs Hc Hw. assert (forall th' h, th' ∈ threads s -> h ∈ th_held th' -> h.1 = l -> md = kShared /\ h.2 = kShared) as Hh.
  { intros th' h Hin Hh. apply (compatible_holds _ _ _ Hc). apply elem_of_app. destruct (Hs _ Hin) as [->|[H _]]; auto. }
  unfold free. destruct md; apply forallb_forall; intros th' Hin%list_elem_of_In; apply negb_true_iff.
  - apply orb_false_iff. split.
    + apply not_true_is_false. intros (h & Hi & H)%existsb_exists. apply andb_true_iff in H as [Hl%bool_decide_eq_true Hm].
      destruct (Hh th' h Hin) as [_ E]; [by apply list_elem_of_In|done|]. by rewrite E in Hm.
    + apply andb_false_iff. right. destruct (Hs _ Hin) as [->|[_ H]]; auto.
  - apply not_true_is_false. intros (h & Hi & Hl%bool_decide_eq_true)%existsb_exists. by destruct (Hh th' h Hin) as [? _]; [apply list_elem_of_In|..].
Qed.

(** Client [i] runs [p]. *)
Lemma alone_runs others bg cl f i p rest : forall held held',
  cl !! i = Some (mkThread (p ++ rest) held) -> bystander others bg ->
  (forall j th, cl !! j = Some th -> j <> i -> bystander others th) -> alone others held p = Some held' ->
  rtc (lock_step writers_first) (mkSystem bg cl f) (mkSystem bg (<[i := mkThread rest held']> cl) f).
Proof.
  revert cl. induction p as [|a p IH]; intros cl held held' Hi Hbg Hcl Ha.
  - injection Ha as <-. rewrite list_insert_id by done. apply rtc_refl.
  - assert (exists held1, act writers_first (mkSystem bg cl f) (mkThread ((a :: p) ++ rest) held) = Some (mkThread (p ++ rest) held1, f) /\
      alone others held1 p = Some held') as (held1 & Hact & Ha').
    { unfold act. cbn [app th_todo th_held sy_flags]. destruct a as [l md|l| | | | |]; cbn [alone] in Ha; try done.
      - destruct (compatible (others ++ held) l md) eqn:Ec; [|done]. rewrite (alone_free _ others (mkThread (Acquire l md :: p ++ rest) held)); [by eexists| |done|].
        + intros th' [->|Hin]%elem_of_cons; [by right|]. apply list_elem_of_lookup in Hin as [j Hj]. destruct (decide (j = i)) as [->|Hji].
          * left. cbn [sy_clients] in Hj. rewrite Hi in Hj. by injection Hj as <-.
          * right. by eapply Hcl.
        + intros ->. done.
      - by eexists. }
    eapply rtc_l; [by eapply (step_client _ (mkSystem bg cl f))|]. cbn [sy_bg sy_clients].
    pose proof (lookup_lt_Some _ _ _ Hi) as Hlt.
    replace (<[i := mkThread rest held']> cl) with (<[i := mkThread rest held']> (<[i := mkThread (p ++ rest) held1]> cl)) by apply list_insert_insert_eq.
    apply (IH _ held1); [by apply list_lookup_insert_eq|done| |done].
    intros j th Hj Hji. rewrite list_lookup_insert_ne in Hj by done. by eapply Hcl.
Qed.
End Alone.

Lemma drop_lock_head l md held : drop_lock l ((l, md) :: held) = held.
Proof. cbn. by rewrite bool_decide_eq_true_2. Qed.
Lemma alone_locked others held l md p : compatible (others ++ held) l md = true -> alone others ((l, md) :: held) p = Some ((l, md) :: held) ->
  alone others held ([Acquire l md] ++ p ++ [Release l]) = Some held.
Proof.
  intros Hc Hp. cbn [app alone]. rewrite Hc, alone_app, Hp. cbn [mbind option_bind alone]. by rewrite drop_lock_head.
Qed.
Lemma alone_pair others held l md : compatible (others ++ held) l md = true -> alone others held [Acquire l md; Release l] = Some held.
Proof. intros Hc. by apply (alone_locked others held l md []). Qed.
Lemma alone_concat {A} others held (f : A -> list Action) l : (forall x, alone others held (f x) = Some held) ->
  alone others held (concat (map f l)) = Some held.
Proof. intros H. induction l as [|x l IH]; [done|]. cbn [map concat]. rewrite alone_app, H. apply IH. Qed.

(** Locks that a read does not wait for. *)
Definition lets_read (h : Lock * Mode) : Prop := h.1 <> kEngineMutex /\ (h.2 = kExclusive -> h.1 = kDatabaseMu).

Lemma compatible_intro H l md : (forall h, h ∈ H -> h.1 = l -> md = kShared /\ h.2 = kShared) -> compatible H l md = true.
Proof.
  intros Hh. apply forallb_forall. intros h Hin%list_elem_of_In. apply negb_true_iff, andb_false_iff.
  destruct (decide (h.1 = l)) as [E|E]; [right|left; by apply bool_decide_eq_false_2]. by destruct (Hh h Hin E) as [-> ->].
Qed.

Lemma compatible_shared H n : Forall lets_read H -> compatible H (kSkipListMu n) kShared = true.
Proof.
  rewrite Forall_forall. intros Hr. apply compatible_intro. intros h Hin E. split; [done|]. destruct (Hr h Hin) as [_ Hx]. destruct (h.2); [done|]. by rewrite Hx in E.
Qed.
Lemma alone_shared others l : forall held, Forall lets_read (others ++ held) ->
  alone others held (map (fun n => Acquire (kSkipListMu n) kShared) l) = Some (rev (map (fun n => (kSkipListMu n, kShared)) l) ++ held).
Proof.
  induction l as [|n l IH]; intros held H; [done|]. cbn [map alone rev]. rewrite compatible_shared by done. rewrite <- app_assoc. apply IH.
  apply Forall_app in H as [H1 H2]. apply Forall_app. split; [done|]. by constructor.
Qed.

Lemma alone_get others held r : Forall lets_read (others ++ held) -> alone others held (kv_get r) = Some held.
Proof.
  intros H. unfold kv_get. rewrite alone_app. rewrite alone_pair; [cbn [mbind option_bind]|].
  - apply alone_concat. intros n. by apply alone_pair, compatible_shared.
  - apply compatible_intro. intros h Hin E. rewrite Forall_forall in H. by destruct (H h Hin).
Qed.

Lemma alone_under_mu md others held reads : Forall lets_read (others ++ held) -> compatible (others ++ held) kDatabaseMu md = true ->
  alone others held (under_mu md (map KvGet reads)) = Some held.
Proof.
  intros H Hc. apply alone_locked; [done|]. rewrite map_map. apply alone_concat. intros r. apply alone_get.
  apply Forall_app in H as [H1 H2]. apply Forall_app. split; [done|]. constructor; [|done]. by destruct md.
Qed.

Lemma alone_GetTable others held load : Forall lets_read (others ++ held) -> (forall h, h ∈ others ++ held -> h.1 <> kDatabaseMu) ->
  alone others held (GetTable_locks load) = Some held.
Proof.
  intros H Hd. assert (forall md, compatible (others ++ held) kDatabaseMu md = true) as Hc.
  { intros md. apply compatible_intro. intros h Hin E. by destruct (Hd h Hin). }
  unfold GetTable_locks. rewrite alone_app. change (under_mu kShared []) with (under_mu kShared (map KvGet [])). rewrite alone_under_mu by done. cbn [mbind option_bind].
  destruct load as [r|]; [|done]. by apply (alone_under_mu kExclusive others held [r]).
Qed.

(** What the iterator of a scan keeps. *)
Definition scan_held (r : Read) : list (Lock * Mode) := rev (map (fun n => (kSkipListMu n, kShared)) (memtables r)).

Lemma scan_held_shared r h : h ∈ scan_held r -> exists n, h = (kSkipListMu n, kShared).
Proof. unfold scan_held. intros Hin%list_elem_of_In%in_rev%in_map_iff. destruct Hin as (n & <- & _). by exists n. Qed.
Lemma scan_held_mem r : (kSkipListMu (rd_mem r), kShared) ∈ scan_held r.
Proof. unfold scan_held. apply list_elem_of_In, in_rev. rewrite rev_involutive. by left. Qed.
Lemma scan_held_reads r : Forall lets_read (scan_held r).
Proof. apply Forall_forall. intros h (n & ->)%scan_held_shared. done. Qed.
Lemma scan_held_db r h : h ∈ scan_held r -> h.1 <> kDatabaseMu.
Proof. by intros (n & ->)%scan_held_shared. Qed.

(** A thread alone opens a scan and delivers rows. *)
Lemma alone_scan load r rows : alone [] [] (scan_open_locks load r ++ concat (map scan_row_locks rows)) = Some (scan_held r).
Proof.
  unfold scan_open_locks. rewrite <- app_assoc, alone_app, alone_GetTable by (try constructor; by intros ? ?%elem_of_nil). cbn [mbind option_bind].
  rewrite alone_app. replace (alone [] [] (iterator_open r)) with (Some (scan_held r)).
  - cbn [mbind option_bind]. apply alone_concat. intros reads. apply alone_under_mu; [apply scan_held_reads|]. apply compatible_intro.
    intros h Hin E. by apply scan_held_db in Hin.
  - unfold iterator_open. rewrite alone_app, alone_pair by done. cbn [mbind option_bind]. rewrite alone_shared by constructor. by rewrite app_nil_r.
Qed.

(** The part of a write before the insertion into the memtable. *)
Definition before_insert (reads : list Read) : list Action :=
  [Acquire kDatabaseMu kExclusive] ++ concat (map kv_call (map KvGet reads)) ++ [Acquire kEngineMutex kExclusive].
Lemma alone_before_insert others held reads : Forall lets_read (others ++ held) -> (forall h, h ∈ others ++ held -> h.1 <> kDatabaseMu) ->
  alone others held (before_insert reads) = Some ((kEngineMutex, kExclusive) :: (kDatabaseMu, kExclusive) :: held).
Proof.
  intros H Hd. unfold before_insert. cbn [app alone]. rewrite (compatible_intro _ kDatabaseMu) by (intros h Hin E; by destruct (Hd h Hin)).
  assert (Forall lets_read (others ++ (kDatabaseMu, kExclusive) :: held)) as H'.
  { apply Forall_app in H as [H1 H2]. apply Forall_app. split; [done|]. by constructor. }
  rewrite alone_app, map_map, alone_concat by (intros r; by apply alone_get). cbn [mbind option_bind alone].
  rewrite compatible_intro; [done|]. intros h Hin E. rewrite Forall_forall in H'. by destruct (H' h Hin).
Qed.

(** A write that inserts into memtable [n] without waiting and rotating, and what it does then. *)
Definition plain_write (fills : bool) (n : nat) : KvCall := KvWrite 0 (kInserted false fills n).
Lemma under_mu_insert reads fills n calls : exists rest, under_mu kExclusive (map KvGet reads ++ plain_write fills n :: calls) =
  before_insert reads ++ Acquire (kSkipListMu n) kExclusive :: rest.
Proof.
  eexists. unfold under_mu, before_insert, plain_write. rewrite map_app, concat_app. cbn [map concat kv_call]. unfold kv_write, make_room. cbn [replicate concat app].
  rewrite <- !app_assoc. cbn [app]. reflexivity.
Qed.

(** Nobody can go on. *)
Lemma stopped writers_first cl f : cl <> [] -> fl_scheduled f = false -> Forall (fun th => idle th = false) cl ->
  Forall (fun th => act writers_first (mkSystem (start []) cl f) th = None) cl -> deadlocked writers_first (mkSystem (start []) cl f).
Proof.
  intros Hne Hf Hidle Ha. split.
  - unfold finished, threads. cbn [sy_bg sy_clients forallb]. destruct Hidle as [|th cl Hth _]; [done|]. cbn [forallb]. by rewrite Hth.
  - intros s' Hs. inversion Hs as [i th th' f' Hi Hact|th' f' Hact|r Hr Hs']; subst; cbn [sy_clients sy_flags] in *.
    + rewrite (Forall_lookup_1 _ _ _ _ Ha Hi) in Hact. done.
    + done.
    + congruence.
Qed.

Lemma blocked writers_first s l md todo held th : th ∈ threads s -> holds_exclusive l th = true \/ md = kExclusive /\ holds l th = true ->
  act writers_first s (mkThread (Acquire l md :: todo) held) = None.
Proof.
  intros Hin Hh. unfold act. cbn [th_todo]. assert (free writers_first s l md = false) as ->; [|done]. apply not_true_is_false. unfold free.
  destruct md; rewrite forallb_forall; intros H; specialize (H th (proj1 (list_elem_of_In _ _) Hin)); apply negb_true_iff in H.
  - apply orb_false_iff in H as [H _]. destruct Hh as [Hh|[? _]]; congruence.
  - destruct Hh as [Hh%exclusive_holds|[_ Hh]]; congruence.
Qed.

Lemma bystander_start others p : (forall l, waits_exclusive l (start p) = false) -> bystander others (start p).
Proof. intros H. split; [|done]. by intros h ?%elem_of_nil. Qed.

Lemma scan_holds r todo : holds (kSkipListMu (rd_mem r)) (mkThread todo (scan_held r)) = true.
Proof.
  apply existsb_exists. exists (kSkipListMu (rd_mem r), kShared). split; [apply list_elem_of_In, scan_held_mem|by apply bool_decide_eq_true].
Qed.

(** C36: A scan can deadlock.  The iterator of a table scan keeps the shared locks of the
    skip lists while each further row is resolved under Database::mu_, and a write
    takes the two in the opposite order: whatever a scan has delivered, if it has a
    row left, it and any insert, update or delete of another thread into the same
    memtable can stop each other for good.  And a thread that writes into the memtable
    its own open scan reads - commits, for instance - stops itself. *)
Theorem scans_can_deadlock (writers_first : bool) (load load' : option Read) (r : Read) (delivered rows : list (list Read)) (row reads : list Read)
    (fills : bool) (calls : list KvCall) (rest : list Action) :
  let writes := map KvGet reads ++ plain_write fills (rd_mem r) :: calls in
  (exists s, rtc (lock_step writers_first) (start_system [scan_locks load r (delivered ++ row :: rows); Write_locks load' writes]) s /\
    deadlocked writers_first s) /\
  (exists s, rtc (lock_step writers_first)
      (start_system [scan_open_locks load r ++ concat (map scan_row_locks delivered) ++ Exclusive_locks writes ++ rest]) s /\
    deadlocked writers_first s).
Proof.
  intros writes. destruct (under_mu_insert reads fills (rd_mem r) calls) as [after Ew]. fold writes in Ew.
  assert (bystander [] (start []) /\ bystander (scan_held r) (start [])) as [Hbg Hbg'] by (split; by apply bystander_start).
  set (opened := scan_open_locks load r ++ concat (map scan_row_locks delivered)). split.
  - unfold scan_locks, Write_locks. rewrite Ew, map_app, concat_app. cbn [map concat].
    set (left_ := scan_row_locks row ++ concat (map scan_row_locks rows) ++ iterator_close r).
    replace (scan_open_locks load r ++ (concat (map scan_row_locks delivered) ++ scan_row_locks row ++ concat (map scan_row_locks rows)) ++ iterator_close r)
      with (opened ++ left_) by (unfold opened, left_; by rewrite <- !app_assoc).
    rewrite app_assoc. set (todo := Acquire (kSkipListMu (rd_mem r)) kExclusive :: after).
    exists (mkSystem (start []) [mkThread left_ (scan_held r); mkThread todo [(kEngineMutex, kExclusive); (kDatabaseMu, kExclusive)]] (mkFlags false false false)).
    split.
    + etrans; [apply (alone_runs writers_first [] (start []) _ _ 0%nat opened left_ [] (scan_held r)); [done|done| |apply alone_scan]|].
      { intros [|[|j]] th Hj ?; [done| |done]. injection Hj as <-. by apply bystander_start. }
      refine (alone_runs writers_first (scan_held r) (start []) [mkThread left_ (scan_held r); start ((GetTable_locks load' ++ before_insert reads) ++ todo)]
        (mkFlags false false false) 1%nat (GetTable_locks load' ++ before_insert reads) todo [] [(kEngineMutex, kExclusive); (kDatabaseMu, kExclusive)] _ _ _ _); [done|done| |].
      { intros [|[|j]] th Hj ?; [|done|done]. injection Hj as <-. by split. }
      assert (Forall lets_read (scan_held r ++ [])) as Hl by (rewrite app_nil_r; apply scan_held_reads).
      assert (forall h, h ∈ scan_held r ++ [] -> h.1 <> kDatabaseMu) as Hd by (rewrite app_nil_r; apply scan_held_db).
      rewrite alone_app, alone_GetTable by done. cbn [mbind option_bind]. by apply alone_before_insert.
    + apply stopped; [done|done|by repeat constructor|]. repeat constructor.
      * eapply (blocked _ _ _ _ _ _ (mkThread todo _)); [by do 2 right; left|by left].
      * eapply (blocked _ _ _ _ _ _ (mkThread left_ _)); [by right; left|right]. split; [done|]. apply scan_holds.
  - unfold Exclusive_locks. rewrite Ew, app_assoc. fold opened. rewrite <- app_assoc, (app_assoc opened). set (todo := (_ :: after) ++ rest).
    set (held := (kEngineMutex, kExclusive) :: (kDatabaseMu, kExclusive) :: scan_held r).
    exists (mkSystem (start []) [mkThread todo held] (mkFlags false false false)). split.
    + refine (alone_runs writers_first [] (start []) [start ((opened ++ before_insert reads) ++ todo)] (mkFlags false false false) 0%nat
        (opened ++ before_insert reads) todo [] held _ _ _ _); [done|done|by intros [|j] th Hj ?|].
      rewrite alone_app. unfold opened. rewrite alone_scan. cbn [mbind option_bind]. apply alone_before_insert; [apply scan_held_reads|apply scan_held_db].
    + apply stopped; [done|done|by repeat constructor|]. repeat constructor.
      eapply (blocked _ _ _ _ _ _ (mkThread todo held)); [by right; left|right]. split; [done|]. pose proof (scan_holds r todo) as H.
      unfold holds in *. cbn [th_held held existsb] in *. by rewrite H, !orb_true_r.
Qed.
