(* ===== verification/DbSync.v ===== *)
(** The engine's condition variable (src/db.cpp: DBImpl::Write, MakeRoomForWrite,
    BackgroundThreadMain, ~DBImpl): writers that wait for a flush, the background thread,
    and the destructor, as threads that interleave at the mutex.

    Db.v runs the background round in place of waiting; here the waiting is the
    program, and the data are reduced to the flags the waiting depends on.  A step is
    what a thread does from taking [mutex_] to releasing it or to going to sleep on
    [bg_cv_], or what it does without the mutex in between. *)
From S2P Require Import Prelude.

(** * Threads *)

(** The background thread: about to take the mutex at the head of its loop, asleep,
    in FlushMemTable or CompactIfNeeded without the mutex, back from them with their
    outcome, out of the loop. *)
Inductive BgState : Set :=
  | BgLoop | BgAsleep | BgFlush | BgFlushed (ok : bool) | BgCompact | BgCompacted (ok : bool) | BgExit.

(** A writer: outside of Write, about to take the mutex and look for room, asleep. *)
Inductive WriterState : Set := WOutside | WRoom | WAsleep.

(** The destructor: not called, about to take the mutex, asleep, awake to test
    [bg_working_], at its loop, flushing without the mutex, back, joining, done. *)
Inductive CloseState : Set :=
  | CNot | CLock | CAsleep | CTest | CLoop | CFlush | CFlushed (ok : bool) | CJoin | CClosed.

(** The flags of DBImpl ([mem_full]: the memtable has reached write_buffer_size;
    [imm]: imm_ is not null) and the two threads that are there once. *)
Record Core := mkCore {
  mem_full : bool; imm : bool; flush_scheduled : bool; compaction_scheduled : bool;
  bg_working : bool; bg_error : bool; shutting_down : bool;
  bg : BgState; closer : CloseState
}.
#[global] Instance BgState_eq_dec : EqDecision BgState.
Proof. solve_decision. Defined.
#[global] Instance WriterState_eq_dec : EqDecision WriterState.
Proof. solve_decision. Defined.
#[global] Instance CloseState_eq_dec : EqDecision CloseState.
Proof. solve_decision. Defined.
#[global] Instance Core_eq_dec : EqDecision Core.
Proof. solve_decision. Defined.

Definition with_bg (b : BgState) (c : Core) : Core :=
  mkCore (mem_full c) (imm c) (flush_scheduled c) (compaction_scheduled c) (bg_working c) (bg_error c) (shutting_down c) b (closer c).
Definition with_closer (x : CloseState) (c : Core) : Core :=
  mkCore (mem_full c) (imm c) (flush_scheduled c) (compaction_scheduled c) (bg_working c) (bg_error c) (shutting_down c) (bg c) x.
Definition with_mem (full im : bool) (c : Core) : Core :=
  mkCore full im (flush_scheduled c) (compaction_scheduled c) (bg_working c) (bg_error c) (shutting_down c) (bg c) (closer c).
Definition with_work (flush compaction working : bool) (c : Core) : Core :=
  mkCore (mem_full c) (imm c) flush compaction working (bg_error c) (shutting_down c) (bg c) (closer c).
(** [if (!s.ok()) bg_error_ = s;] *)
Definition note_error (ok : bool) (c : Core) : Core :=
  mkCore (mem_full c) (imm c) (flush_scheduled c) (compaction_scheduled c) (bg_working c) (bg_error c || negb ok) (shutting_down c) (bg c) (closer c).
Definition with_shutdown (c : Core) : Core :=
  mkCore (mem_full c) (imm c) (flush_scheduled c) (compaction_scheduled c) (bg_working c) (bg_error c) true (bg c) (closer c).

(** [bg_cv_.notify_all()] *)
Definition wake_bg (b : BgState) : BgState := match b with BgAsleep => BgLoop | b => b end.
Definition wake_closer (x : CloseState) : CloseState := match x with CAsleep => CTest | x => x end.
Definition wake_writer (w : WriterState) : WriterState := match w with WAsleep => WRoom | w => w end.
Definition wake (c : Core) : Core := with_bg (wake_bg (bg c)) (with_closer (wake_closer (closer c)) c).

(** The core and whether everybody was notified. *)
Abbreviation Step := (option (Core * bool)).

(** * The background thread *)

(** FlushMemTable, which both the background thread and the destructor call: without
    [imm_] it does nothing, and a failure leaves [imm_] in place. *)
Definition flush_effect (ok : bool) (c : Core) : Core * bool :=
  if negb (imm c) then (c, true) else if ok then (with_mem (mem_full c) false c, true) else (c, false).

(** [ok]: how the work turns out. *)
Definition bg_next (ok : bool) (c : Core) : Step :=
  match bg c with
  | BgLoop =>
    if shutting_down c then Some (with_bg BgExit c, false)
    else if negb (flush_scheduled c) && negb (compaction_scheduled c) then Some (with_bg BgAsleep c, false)
    else if flush_scheduled c && imm c then Some (with_bg BgFlush (with_work false (compaction_scheduled c) true c), false)
    else if compaction_scheduled c then Some (with_bg BgCompact (with_work (flush_scheduled c) false true c), false)
    else Some (wake (with_work false false false c), true)
  | BgFlush => let '(c', r) := flush_effect ok c in Some (with_bg (BgFlushed r) c', false)
  | BgFlushed ok' => Some (wake (with_bg BgLoop (with_work (flush_scheduled c) true false (note_error ok' c))), true)
  | BgCompact => Some (with_bg (BgCompacted ok) c, false)
  | BgCompacted ok' => Some (wake (with_bg BgLoop (with_work (flush_scheduled c) (compaction_scheduled c) false (note_error ok' c))), true)
  | BgAsleep | BgExit => None
  end.

(** * Writers *)

(** How a call turns out: whether the new log and its record in the MANIFEST succeed,
    whether the record is logged, whether the entry fills the memtable. *)
Record Outcome := mkOutcome { rotates : bool; logs : bool; fills : bool }.

(** The rest of Write, once there is room. *)
Definition finish_write (o : Outcome) (c : Core) : Core * bool :=
  if logs o then
    if fills o then (wake (with_work true (compaction_scheduled c) (bg_working c) (with_mem true (imm c) c)), true) else (c, false)
  else (c, false).

(** From WRoom: MakeRoomForWrite and Write, as far as the mutex is held; where the
    writer is then, the core, and whether everybody was notified. *)
Definition writer_next (o : Outcome) (c : Core) : WriterState * Core * bool :=
  if bg_error c then (WOutside, c, false)
  else if negb (mem_full c) then let '(c', n) := finish_write o c in (WOutside, c', n)
  else if imm c then (WAsleep, c, false)
  else
    let c := with_mem false true c in
    if negb (rotates o) then (WOutside, c, false)
    else
      let c := wake (with_work true (compaction_scheduled c) (bg_working c) c) in
      let '(c', _) := finish_write o c in (WOutside, c', true).

(** * The destructor *)

(** [bg_cv_.wait(lock, [&] { return !bg_working_; })] *)
Definition close_test (c : Core) : Core := with_closer (if bg_working c then CAsleep else CLoop) c.

Definition close_next (ok : bool) (c : Core) : Step :=
  match closer c with
  | CNot => Some (with_closer CLock (with_shutdown c), false)
  | CLock => Some (close_test (wake c), true)
  | CTest => Some (close_test c, false)
  | CLoop => Some (with_closer (if imm c then CFlush else CJoin) c, false)
  | CFlush => let '(c', r) := flush_effect ok c in Some (with_closer (CFlushed r) c', false)
  | CFlushed ok' => Some (with_closer CLoop (note_error ok' c), false)
  | CJoin => if bool_decide (bg c = BgExit) then Some (with_closer CClosed c, false) else None
  | CAsleep | CClosed => None
  end.

(** * The system *)

Record SyncState := mkSync { core : Core; writers : list WriterState }.
Definition after (r : Core * bool) (ws : list WriterState) : SyncState := mkSync r.1 (if r.2 then map wake_writer ws else ws).

(** A step of some thread.  A sleeping thread may wake up without cause; the
    destructor runs when no other call is in progress, as for every C++ object. *)
Inductive sync_step : SyncState -> SyncState -> Prop :=
  | step_bg ok c ws r : bg_next ok c = Some r -> sync_step (mkSync c ws) (after r ws)
  | step_enter c ws i : ws !! i = Some WOutside -> closer c = CNot -> sync_step (mkSync c ws) (mkSync c (<[i := WRoom]> ws))
  | step_writer o c ws i w r : ws !! i = Some WRoom -> writer_next o c = (w, r.1, r.2) ->
      sync_step (mkSync c ws) (after r (<[i := w]> ws))
  | step_close ok c ws r : close_next ok c = Some r -> (closer c = CNot -> Forall (fun w => w = WOutside) ws) ->
      sync_step (mkSync c ws) (after r ws)
  | step_spurious_bg c ws : bg c = BgAsleep -> sync_step (mkSync c ws) (mkSync (with_bg BgLoop c) ws)
  | step_spurious_writer c ws i : ws !! i = Some WAsleep -> sync_step (mkSync c ws) (mkSync c (<[i := WRoom]> ws))
  | step_spurious_closer c ws : closer c = CAsleep -> sync_step (mkSync c ws) (mkSync (with_closer CTest c) ws).

(** After Open: the thread is started, nothing is scheduled. *)
Definition Core_open : Core := mkCore false false false false false false false BgLoop CNot.
Definition Sync_open (n : nat) : SyncState := mkSync Core_open (replicate n WOutside).

(** * Finite checks *)

(** Everything but the writers is finite: facts about all cores are checked by
    evaluating them on each. *)
Definition bools : list bool := [true; false].
Definition bg_states : list BgState :=
  [BgLoop; BgAsleep; BgFlush; BgFlushed true; BgFlushed false; BgCompact; BgCompacted true; BgCompacted false; BgExit].
Definition close_states : list CloseState := [CNot; CLock; CAsleep; CTest; CLoop; CFlush; CFlushed true; CFlushed false; CJoin; CClosed].

Definition every {A} (l : list A) (P : A -> bool) : bool := forallb P l.
Definition every_core (P : Core -> bool) : bool :=
  every bools (fun f => every bools (fun i => every bools (fun fs => every bools (fun cs => every bools (fun w => every bools (fun e => every bools (fun sd =>
  every bg_states (fun b => every close_states (fun x => P (mkCore f i fs cs w e sd b x)))))))))).

Lemma every_elim {A} (l : list A) P : every l P = true -> forall x, x ∈ l -> P x = true.
Proof. unfold every. rewrite forallb_forall. intros H x Hx. by apply H, list_elem_of_In. Qed.
Lemma every_bool P : every bools P = true -> forall b, P b = true.
Proof. intros H b. apply (every_elim _ _ H). destruct b; set_solver. Qed.
Lemma every_core_elim P : every_core P = true -> forall c, P c = true.
Proof.
  intros H [f i fs cs w e sd b x].
  pose proof (every_bool _ (every_bool _ (every_bool _ (every_bool _ (every_bool _ (every_bool _ (every_bool _ H f) i) fs) cs) w) e) sd) as H1. cbn beta in H1.
  refine (every_elim _ _ (every_elim _ _ H1 b _) x _); [destruct b as [| | |[]| |[]|]|destruct x as [| | | | | |[]| |]]; set_solver.
Qed.

(** * The invariant *)

Definition working_state (b : BgState) : bool := match b with BgFlush | BgFlushed _ | BgCompact | BgCompacted _ => true | _ => false end.
Definition flushing (b : BgState) : bool := match b with BgFlush | BgFlushed false => true | _ => false end.
Definition past_wait (x : CloseState) : bool := match x with CLoop | CFlush | CFlushed _ | CJoin | CClosed => true | _ => false end.

(** [bg_working_] says what it should; the thread sleeps only when nothing is scheduled;
    a full memtable behind an immutable one has a flush scheduled or running, unless
    there was an error; the destructor passes its wait only when the thread is idle,
    and ends only without an immutable memtable. *)
Definition core_ok (c : Core) : bool :=
  Bool.eqb (bg_working c) (working_state (bg c)) &&
  implb (bool_decide (bg c = BgAsleep)) (negb (flush_scheduled c) && negb (compaction_scheduled c) && implb (shutting_down c) (bool_decide (closer c = CLock))) &&
  implb (bool_decide (bg c = BgExit)) (shutting_down c) &&
  implb (mem_full c && imm c && negb (bg_error c)) (flush_scheduled c || flushing (bg c)) &&
  Bool.eqb (shutting_down c) (negb (bool_decide (closer c = CNot))) &&
  implb (past_wait (closer c)) (negb (bg_working c)) &&
  implb (bool_decide (closer c = CAsleep)) (bg_working c) &&
  implb (bool_decide (closer c = CJoin) || bool_decide (closer c = CClosed)) (negb (imm c)) &&
  implb (bool_decide (closer c = CClosed)) (bool_decide (bg c = BgExit)).

(** What holds while some writer sleeps. *)
Definition sleeper_ok (c : Core) : bool := negb (bg_error c) && (bool_decide (bg c = BgFlushed true) || (mem_full c && imm c)).

Definition keeps (c : Core) (r : Core * bool) : bool := core_ok r.1 && implb (sleeper_ok c && negb r.2) (sleeper_ok r.1).

Lemma bg_keeps c ok r : core_ok c = true -> bg_next ok c = Some r -> keeps c r = true.
Proof.
  assert (every_core (fun c => every bools (fun ok => implb (core_ok c) (match bg_next ok c with Some r => keeps c r | None => true end))) = true)
    as H by (vm_compute; reflexivity).
  intros Hc E. pose proof (every_bool _ (every_core_elim _ H c) ok) as Hk. cbn beta in Hk. by rewrite Hc, E in Hk.
Qed.

Lemma close_keeps c ok r : core_ok c = true -> close_next ok c = Some r -> core_ok r.1 = true.
Proof.
  assert (every_core (fun c => every bools (fun ok => implb (core_ok c) (match close_next ok c with Some r => core_ok r.1 | None => true end))) = true)
    as H by (vm_compute; reflexivity).
  intros Hc E. pose proof (every_bool _ (every_core_elim _ H c) ok) as Hk. cbn beta in Hk. by rewrite Hc, E in Hk.
Qed.

Definition writer_keeps_test (c : Core) (o : Outcome) : bool :=
  implb (core_ok c && bool_decide (closer c = CNot))
    (let '(w, c', n) := writer_next o c in
     keeps c (c', n) && implb (bool_decide (w = WAsleep)) (sleeper_ok c' && negb n) && negb (bool_decide (w = WRoom)) && bool_decide (closer c' = CNot)).
Lemma writer_keeps c o w r : core_ok c = true -> closer c = CNot -> writer_next o c = (w, r.1, r.2) ->
  keeps c r = true /\ (w = WAsleep -> sleeper_ok r.1 = true /\ r.2 = false) /\ closer r.1 = CNot.
Proof.
  assert (every_core (fun c => every bools (fun a => every bools (fun b => every bools (fun d => writer_keeps_test c (mkOutcome a b d))))) = true)
    as H by (vm_compute; reflexivity).
  intros Hc Hx E. destruct o as [a b d]. pose proof (every_bool _ (every_bool _ (every_bool _ (every_core_elim _ H c) a) b) d) as Hk. cbn beta in Hk.
  unfold writer_keeps_test in Hk. rewrite Hc, E in Hk. rewrite (bool_decide_eq_true_2 _ Hx) in Hk. cbn [andb implb] in Hk.
  destruct r as [c' n]. cbn [fst snd] in *. apply andb_true_iff in Hk as [Hk H4]. apply andb_true_iff in Hk as [Hk _]. apply andb_true_iff in Hk as [Hk H2].
  split; [done|]. apply bool_decide_eq_true in H4. split; [|done]. intros ->. rewrite bool_decide_eq_true_2 in H2 by done. cbn [implb] in H2.
  apply andb_true_iff in H2 as [? H2]. split; [done|by destruct n].
Qed.

Lemma spurious_keeps c : core_ok c = true ->
  (bg c = BgAsleep -> core_ok (with_bg BgLoop c) = true /\ (sleeper_ok c = true -> sleeper_ok (with_bg BgLoop c) = true)) /\
  (closer c = CAsleep -> core_ok (with_closer CTest c) = true).
Proof.
  assert (every_core (fun c => implb (core_ok c)
    (implb (bool_decide (bg c = BgAsleep)) (core_ok (with_bg BgLoop c) && implb (sleeper_ok c) (sleeper_ok (with_bg BgLoop c))) &&
     implb (bool_decide (closer c = CAsleep)) (core_ok (with_closer CTest c)))) = true) as H by (vm_compute; reflexivity).
  intros Hc. pose proof (every_core_elim _ H c) as Hk. cbn beta in Hk. rewrite Hc in Hk. cbn [implb] in Hk. apply andb_true_iff in Hk as [H1 H2]. split.
  - intros E. rewrite bool_decide_eq_true_2 in H1 by done. cbn [implb] in H1. apply andb_true_iff in H1 as [? H1]. split; [done|]. intros Hs. by rewrite Hs in H1.
  - intros E. by rewrite bool_decide_eq_true_2 in H2.
Qed.

Record sync_ok (s : SyncState) : Prop := {
  so_core : core_ok (core s) = true;
  so_sleep : WAsleep ∈ writers s -> sleeper_ok (core s) = true;
  so_close : closer (core s) <> CNot -> Forall (fun w => w = WOutside) (writers s)
}.

Lemma sync_ok_open n : sync_ok (Sync_open n).
Proof. split; [done| |done]. intros H. apply elem_of_replicate in H as [? _]. done. Qed.

Lemma no_sleeper_woken ws : WAsleep ∉ map wake_writer ws.
Proof. intros (w & E & _)%list_elem_of_fmap. by destruct w. Qed.
Lemma outside_woken ws : Forall (fun w => w = WOutside) ws -> Forall (fun w => w = WOutside) (map wake_writer ws).
Proof. intros H. apply Forall_map. eapply Forall_impl; [exact H|]. by intros ? ->. Qed.

(** The writers after a step that keeps the core. *)
Lemma after_sleep c r ws : keeps c r = true -> (WAsleep ∈ ws -> sleeper_ok c = true \/ (sleeper_ok r.1 = true /\ r.2 = false)) ->
  WAsleep ∈ writers (after r ws) -> sleeper_ok r.1 = true.
Proof.
  destruct r as [c' []]; cbn [after writers fst snd]; intros Hk Hs Hin; [by apply no_sleeper_woken in Hin|].
  destruct (Hs Hin) as [H|[H _]]; [|done]. apply andb_true_iff in Hk as [_ Hk]. by rewrite H in Hk.
Qed.

Lemma sync_ok_step s s' : sync_ok s -> sync_step s s' -> sync_ok s'.
Proof.
  intros [Hc Hs Hx] Hstep. destruct Hstep as [ok c ws r E|c ws i Hi Hn|o c ws i w r Hi E|ok c ws r E Hall|c ws E|c ws i Hi|c ws E]; cbn [core writers] in *.
  - pose proof (bg_keeps c ok r Hc E) as Hk. split; cbn [after core].
    + by apply andb_true_iff in Hk as [? _].
    + apply (after_sleep c); [done|]. auto.
    + intros Hn. assert (closer c <> CNot) as Hn0.
      { intros E0. apply Hn. unfold bg_next, flush_effect in E. destruct c as [f i fs cs wk e sd b x]. cbn [bg closer shutting_down flush_scheduled compaction_scheduled imm] in *. subst x.
        destruct b as [| | |[]| |[]|]; [..|done]; destruct sd, fs, cs, i, ok; cbn in E; try done; by injection E as <-. }
      destruct r as [c' []]; cbn [snd]; [apply outside_woken|]; auto.
  - split; cbn [core writers]; [done| |done]. intros Hin. apply Hs. apply list_elem_of_lookup in Hin as [j Hj]. apply list_lookup_insert_Some in Hj as [(? & ? & _)|[_ Hj]]; [done|].
    by eapply list_elem_of_lookup_2.
  - assert (closer c = CNot) as Hn.
    { destruct (decide (closer c = CNot)); [done|]. pose proof (Forall_lookup_1 _ _ _ _ (Hx ltac:(done)) Hi). done. }
    destruct (writer_keeps c o w r Hc Hn E) as (Hk & Hw & Hn'). split; cbn [after core].
    + by apply andb_true_iff in Hk as [? _].
    + apply (after_sleep c); [done|]. intros Hin. apply list_elem_of_lookup in Hin as [j Hj].
      apply list_lookup_insert_Some in Hj as [(_ & Ew & _)|[_ Hj]]; [right; auto|]. left. apply Hs. by eapply list_elem_of_lookup_2.
    + done.
  - pose proof (close_keeps c ok r Hc E) as Hk. assert (Forall (fun w => w = WOutside) ws) as Hout by (destruct (decide (closer c = CNot)); auto).
    assert (WAsleep ∉ ws) as Hno by (intros Hin; rewrite Forall_forall in Hout; by apply Hout in Hin).
    split; cbn [after core writers]; [done| |].
    + destruct r as [c' []]; cbn [snd]; [by intros ?%no_sleeper_woken|done].
    + intros _. destruct r as [c' []]; cbn [snd]; [by apply outside_woken|done].
  - destruct (proj1 (spurious_keeps c Hc) E) as [H1 H2]. split; cbn [core writers]; auto.
  - split; cbn [core writers]; [done| |].
    + intros Hin. apply Hs. by eapply list_elem_of_lookup_2.
    + intros Hn. pose proof (Forall_lookup_1 _ _ _ _ (Hx Hn) Hi). done.
  - split; cbn [core writers]; [by apply spurious_keeps| |].
    + intros Hin. specialize (Hs Hin). by destruct c.
    + intros Hn. apply Hx. by rewrite E.
Qed.

Lemma sync_ok_reachable n s : rtc sync_step (Sync_open n) s -> sync_ok s.
Proof. intros H. pose proof (sync_ok_open n) as H0. induction H; eauto using sync_ok_step. Qed.

(** * Progress *)

(** The background thread alone, with the given outcomes. *)
Fixpoint bg_core_run (oks : list bool) (c : Core) : Step :=
  match oks with
  | [] => Some (c, false)
  | ok :: oks =>
    match bg_next ok c with
    | None => None
    | Some (c', n) => match bg_core_run oks c' with Some (c'', n') => Some (c'', n || n') | None => None end
    end
  end.
Fixpoint bg_run (oks : list bool) (s : SyncState) : option SyncState :=
  match oks with
  | [] => Some s
  | ok :: oks => match bg_next ok (core s) with None => None | Some r => bg_run oks (after r (writers s)) end
  end.

Lemma wake_twice ws : map wake_writer (map wake_writer ws) = map wake_writer ws.
Proof. induction ws as [|w ws IH]; [done|]. cbn [map]. rewrite IH. by destruct w. Qed.
Lemma bg_run_core oks : forall s r, bg_core_run oks (core s) = Some r -> bg_run oks s = Some (after r (writers s)).
Proof.
  induction oks as [|ok oks IH]; intros s r H; cbn [bg_core_run bg_run] in *; [injection H as <-; by destruct s|].
  destruct (bg_next ok (core s)) as [[c1 n1]|]; [|done]. destruct (bg_core_run oks c1) as [[c2 n2]|] eqn:E; [|done]. injection H as <-.
  rewrite (IH (after (c1, n1) (writers s)) (c2, n2) E). unfold after. cbn [writers core fst snd]. destruct n1, n2; cbn [orb]; rewrite ?wake_twice; done.
Qed.
Lemma bg_run_steps oks : forall s s', bg_run oks s = Some s' -> rtc sync_step s s'.
Proof.
  induction oks as [|ok oks IH]; intros s s' H; cbn [bg_run] in H; [injection H as <-; apply rtc_refl|].
  destruct (bg_next ok (core s)) as [r|] eqn:E; [|done]. eapply rtc_l; [|by apply IH]. destruct s as [c ws]. by apply (step_bg ok).
Qed.

(** A writer that looks for room now does not go to sleep. *)
Definition has_room (c : Core) : bool := bg_error c || negb (mem_full c) || negb (imm c).
Lemma has_room_spec c o : has_room c = true -> (writer_next o c).1.1 <> WAsleep.
Proof.
  unfold has_room, writer_next. intros H. destruct (bg_error c); [done|]. destruct (mem_full c); cbn [negb orb] in *; [|by destruct (finish_write o c)].
  destruct (imm c); [done|]. destruct (negb (rotates o)); [done|]. by destruct (finish_write o _).
Qed.

Definition wakes_within (c : Core) (oks : list bool) : bool :=
  existsb (fun k => match bg_core_run (take k oks) c with Some (c', n) => n && has_room c' | None => false end) (seq 0 6).

Lemma sleeper_wakes c oks : core_ok c = true -> sleeper_ok c = true -> closer c = CNot -> length oks = 5%nat -> wakes_within c oks = true.
Proof.
  assert (every_core (fun c => implb (core_ok c && sleeper_ok c && bool_decide (closer c = CNot)) (every bools (fun a => every bools (fun b => every bools (fun d => every bools (fun e => every bools (fun f =>
    wakes_within c [a; b; d; e; f]))))))) = true) as H by (vm_compute; reflexivity).
  intros Hc Hs Hn Hl. pose proof (every_core_elim _ H c) as Hk. cbn beta in Hk. rewrite Hc, Hs, (bool_decide_eq_true_2 _ Hn) in Hk. cbn [andb implb] in Hk.
  destruct oks as [|a [|b [|d [|e [|f [|]]]]]]; try done. exact (every_bool _ (every_bool _ (every_bool _ (every_bool _ (every_bool _ Hk a) b) d) e) f).
Qed.

(** * Shutting down *)

(** A step of the background thread or of the destructor in which flushes and
    compactions end with [ok]. *)
Inductive drain_step (ok : bool) (c c' : Core) : Prop :=
  | drain_bg n : bg_next ok c = Some (c', n) -> drain_step ok c c'
  | drain_close n : close_next ok c = Some (c', n) -> drain_step ok c c'.

(** What is left to do, if nothing fails. *)
Definition bg_rank (b : BgState) : nat :=
  match b with BgExit => 0 | BgLoop => 1 | BgAsleep | BgFlushed _ | BgCompacted _ => 2 | BgFlush | BgCompact => 3 end.
Definition close_rank (im : bool) (x : CloseState) : nat :=
  match x with
  | CClosed => 0 | CJoin => 2 | CLoop => if im then 6 else 3 | CFlushed ok => if im then 7 else 4 | CFlush => 5
  | CAsleep => 8 | CTest => 9 | CLock => 10 | CNot => 0
  end.
Definition rank (c : Core) : nat := bg_rank (bg c) * 10 + close_rank (imm c) (closer c).

Definition moves (f : Core -> Step) (c : Core) : bool := match f c with Some _ => true | None => false end.
Definition drain_ok (c c' : Core) : bool := core_ok c' && negb (bool_decide (closer c' = CNot)) && (rank c' <? rank c)%nat.
Definition drains (f : Core -> Step) (c : Core) : bool := match f c with Some (c', _) => drain_ok c c' | None => true end.

Lemma drain_progress c : core_ok c = true -> closer c <> CNot ->
  (forall c', drain_step true c c' -> core_ok c' = true /\ closer c' <> CNot /\ (rank c' < rank c)%nat) /\
  (closer c = CClosed /\ bg c = BgExit /\ imm c = false \/ exists c', drain_step true c c').
Proof.
  assert (every_core (fun c => implb (core_ok c && negb (bool_decide (closer c = CNot)))
    (drains (bg_next true) c && drains (close_next true) c &&
     ((bool_decide (closer c = CClosed) && bool_decide (bg c = BgExit) && negb (imm c)) || moves (bg_next true) c || moves (close_next true) c))) = true)
    as H by (vm_compute; reflexivity).
  intros Hc Hn. pose proof (every_core_elim _ H c) as Hk. cbn beta in Hk. rewrite Hc, (bool_decide_eq_false_2 _ Hn) in Hk. cbn [andb negb implb] in Hk.
  apply andb_true_iff in Hk as [Hd Hm]. apply andb_true_iff in Hd as [H1 H2]. unfold drains, moves in *. split.
  - intros c' Hstep. unfold drain_ok in *. destruct Hstep as [n E|n E]; [rewrite E in H1; clear H2; rename H1 into Hr|rewrite E in H2; clear H1; rename H2 into Hr];
      rewrite !andb_true_iff, negb_true_iff, bool_decide_eq_false, Nat.ltb_lt in Hr; tauto.
  - apply orb_true_iff in Hm as [Hm|Hm]; [apply orb_true_iff in Hm as [Hm|Hm]|].
    + left. rewrite !andb_true_iff, !bool_decide_eq_true in Hm. destruct Hm as [[? ?] Hi]. split; [done|]. split; [done|]. by destruct (imm c).
    + right. destruct (bg_next true c) as [[c' n]|] eqn:E; [|done]. exists c'. by apply (drain_bg _ _ _ n).
    + right. destruct (close_next true c) as [[c' n]|] eqn:E; [|done]. exists c'. by apply (drain_close _ _ _ n).
Qed.

Lemma drain_bounded n : forall c c', core_ok c = true -> closer c <> CNot -> nsteps (drain_step true) n c c' ->
  (n + rank c' <= rank c)%nat /\ core_ok c' = true /\ closer c' <> CNot.
Proof.
  induction n as [|n IH]; intros c c' Hc Hn H; inversion H as [|? ? c1 ? H1 H2]; subst; [done|].
  destruct (proj1 (drain_progress c Hc Hn) c1 H1) as (Hc1 & Hn1 & Hr). destruct (IH c1 c' Hc1 Hn1 H2) as (Hr' & ? & ?). split; [lia|done].
Qed.

(** Flushing an immutable memtable that cannot be flushed. *)
Definition hanging (c : Core) : bool :=
  core_ok c && imm c && match closer c with CLoop | CFlush | CFlushed _ => true | _ => false end.
Lemma hanging_step c : hanging c = true -> (forall c', drain_step false c c' -> hanging c' = true) /\ exists c', drain_step false c c'.
Proof.
  assert (every_core (fun c => implb (hanging c)
    (match bg_next false c with Some (c', _) => hanging c' | None => true end && match close_next false c with Some (c', _) => hanging c' | None => false end)) = true)
    as H by (vm_compute; reflexivity).
  intros Hc. pose proof (every_core_elim _ H c) as Hk. cbn beta in Hk. rewrite Hc in Hk. cbn [implb] in Hk. apply andb_true_iff in Hk as [H1 H2]. split.
  - intros c' [n E|n E]; [by rewrite E in H1|by rewrite E in H2].
  - destruct (close_next false c) as [[c' n]|] eqn:E; [|done]. exists c'. by apply (drain_close _ _ _ n).
Qed.

(** * Properties *)

(** C33: No writer waits for ever: in every reachable state of any number of writers, the
    background thread and spurious wakeups, a writer that sleeps because the memtable
    is full is woken by at most five steps of the background thread alone, whatever
    the outcome of its flushes and compactions, and finds room or an error when it
    looks again; no wakeup is lost. *)
Theorem writers_are_woken (n : nat) (s : SyncState) (i : nat) (oks : list bool) :
  rtc sync_step (Sync_open n) s -> writers s !! i = Some WAsleep -> length oks = 5%nat ->
  exists k s', bg_run (take k oks) s = Some s' /\ writers s' !! i = Some WRoom /\ forall o, (writer_next o (core s')).1.1 <> WAsleep.
Proof.
  intros Hr Hi Hl. pose proof (sync_ok_reachable n s Hr) as [Hc Hs Hx]. pose proof (list_elem_of_lookup_2 _ _ _ Hi) as Hin.
  assert (closer (core s) = CNot) as Hn.
  { destruct (decide (closer (core s) = CNot)); [done|]. pose proof (Forall_lookup_1 _ _ _ _ (Hx ltac:(done)) Hi). done. }
  pose proof (sleeper_wakes (core s) oks Hc (Hs Hin) Hn Hl) as Hw. unfold wakes_within in Hw. apply existsb_exists in Hw as (k & _ & Hk).
  destruct (bg_core_run (take k oks) (core s)) as [[c' b]|] eqn:E; [|done]. apply andb_true_iff in Hk as [-> Hroom].
  exists k, (after (c', true) (writers s)). split; [by apply bg_run_core|]. cbn [after writers core fst snd]. split; [|intros o; by apply has_room_spec].
  rewrite list_lookup_fmap, Hi. done.
Qed.

(** Two writers: one fills the memtable, rotates it and fills it again; the other sleeps. *)
Lemma writers_are_woken_witness :
  let c := mkCore true true true false false false false BgLoop CNot in
  exists k s', bg_run (take k [true; true; true; true; true]) (mkSync c [WOutside; WAsleep]) = Some s' /\ writers s' !! 1%nat = Some WRoom /\
    forall o, (writer_next o (core s')).1.1 <> WAsleep.
Proof.
  intros c. refine (writers_are_woken 2 (mkSync c [WOutside; WAsleep]) 1 [true; true; true; true; true] _ eq_refl eq_refl).
  set (o := mkOutcome true true true).
  eapply rtc_l; [apply (step_enter Core_open [WOutside; WOutside] 0 eq_refl eq_refl)|].
  eapply rtc_l; [eapply (step_writer o _ _ 0 WOutside (_, true)); reflexivity|].
  eapply rtc_l; [eapply (step_enter _ _ 0); reflexivity|].
  eapply rtc_l; [eapply (step_writer o _ _ 0 WOutside (_, true)); reflexivity|].
  eapply rtc_l; [eapply (step_enter _ _ 1); reflexivity|].
  eapply rtc_l; [eapply (step_writer o _ _ 1 WAsleep (_, false)); reflexivity|].
  apply rtc_refl.
Defined.

(** C34: Closing the database ends, if its flushes do not fail: once the destructor runs,
    every sequence of steps of it and of the background thread is finite, and one
    that cannot be continued ends with the thread joined and no immutable memtable
    left.  If the flush of the immutable memtable keeps failing, the destructor never
    returns: its loop has no other exit. *)
Theorem close_ends_unless_flush_fails (n : nat) (s : SyncState) :
  rtc sync_step (Sync_open n) s -> closer (core s) <> CNot ->
  (forall k c, nsteps (drain_step true) k (core s) c ->
     (k <= 45)%nat /\ (closer c = CClosed /\ bg c = BgExit /\ imm c = false \/ exists c', drain_step true c c')) /\
  (closer (core s) = CLoop -> imm (core s) = true ->
     forall c, rtc (drain_step false) (core s) c -> closer c <> CClosed /\ exists c', drain_step false c c').
Proof.
  intros Hr Hn. pose proof (sync_ok_reachable n s Hr) as [Hc _ _]. split.
  - intros k c Hk. destruct (drain_bounded k _ _ Hc Hn Hk) as (Hb & Hc' & Hn'). split; [|by apply drain_progress].
    assert (rank (core s) <= 40)%nat; [|lia]. unfold rank. enough (bg_rank (bg (core s)) <= 3 /\ close_rank (imm (core s)) (closer (core s)) <= 10)%nat by lia.
    split; [by destruct (bg (core s)); cbn; lia|by destruct (imm (core s)), (closer (core s)); cbn; lia].
  - intros El Ei c Hrun. assert (hanging c = true) as Hh.
    { assert (hanging (core s) = true) as H0 by (unfold hanging; by rewrite Hc, Ei, El). clear -Hrun H0.
      induction Hrun as [|x y z Hxy _ IH]; [done|]. apply IH. by apply (proj1 (hanging_step x H0)). }
    split; [|by apply hanging_step]. intros E. unfold hanging in Hh. by rewrite E, andb_false_r in Hh.
Qed.

Lemma close_ends_unless_flush_fails_witness :
  let c := mkCore false true true false false false true BgLoop CLoop in
  (forall k c', nsteps (drain_step true) k c c' ->
     (k <= 45)%nat /\ (closer c' = CClosed /\ bg c' = BgExit /\ imm c' = false \/ exists c'', drain_step true c' c'')) /\
  (forall c', rtc (drain_step false) c c' -> closer c' <> CClosed /\ exists c'', drain_step false c' c'').
Proof.
  intros c. destruct (close_ends_unless_flush_fails 1 (mkSync c [WOutside])) as [H1 H2]; [|discriminate|split; [exact H1|exact (H2 eq_refl eq_refl)]].
  eapply rtc_l; [apply (step_enter Core_open [WOutside] 0 eq_refl eq_refl)|].
  eapply rtc_l; [eapply (step_writer (mkOutcome true true true) _ _ 0 WOutside (_, true)); reflexivity|].
  eapply rtc_l; [eapply (step_enter _ _ 0); reflexivity|].
  eapply rtc_l; [eapply (step_writer (mkOutcome true true false) _ _ 0 WOutside (_, true)); reflexivity|].
  eapply rtc_l; [eapply (step_close true _ _ (_, false)); [reflexivity|intros _; repeat constructor]|].
  eapply rtc_l; [eapply (step_close true _ _ (_, true)); [reflexivity|discriminate]|].
  apply rtc_refl.
Defined.
