(* ===== verification/SnapIso.v ===== *)
(** Snapshot isolation: what the transactions of the relational layer promise,
    as an abstract machine, and what it guarantees.

    A row key has a history of committed values and at most one provisional
    value, held by an open transaction.  A transaction reads the history as of
    its start and its own provisional values; it writes a key only if nobody
    else holds it and nobody committed it since its start. *)
From S2P Require Import Prelude Status Types Schema Row Kv Mvcc.

(** * The abstract machine *)

(** A row is identified by its table and primary key. *)
Definition Key : Type := bytes * Value.
#[global] Instance Key_eq_decision : EqDecision Key.
Proof. unfold Key. apply _. Defined.

(** A value: a row, or [None] for a deletion. *)
Definition Val : Type := option Row.

Record SI := mkSI {
  si_tables : gmap bytes TableSchema;
  si_hist : Key -> list (Z * Val);          (* committed values, newest first *)
  si_prov : Key -> option (Z * Val);        (* the holder and its value *)
  si_open : gmap Z Z;                       (* open transactions and their snapshots *)
  si_last : Z;                              (* the last commit timestamp *)
  si_next_txn : Z
}.
Definition SI_new : SI := mkSI ∅ (fun _ => []) (fun _ => None) ∅ 0 1.

Definition fupd {A} (k : Key) (v : A) (f : Key -> A) : Key -> A := fun k' => if decide (k' = k) then v else f k'.

(** The value a snapshot sees. *)
Fixpoint at_snapshot (h : list (Z * Val)) (s : Z) : Val :=
  match h with
  | [] => None
  | (ts, v) :: h => if ts <=? s then v else at_snapshot h s
  end.

(** What transaction [t] reads: its own value, else its snapshot. *)
Definition si_read (a : SI) (t start : Z) (k : Key) : Val :=
  match si_prov a k with
  | Some (t', v) => if t' =? t then v else at_snapshot (si_hist a k) start
  | None => at_snapshot (si_hist a k) start
  end.

Inductive Write : Set := WInsert | WUpdate | WDelete.

Definition set_prov (k : Key) (p : option (Z * Val)) (a : SI) : SI :=
  mkSI (si_tables a) (si_hist a) (fupd k p (si_prov a)) (si_open a) (si_last a) (si_next_txn a).

(** A write of [v] to [k]: the reply code and the new state. *)
Definition si_write (t start : Z) (k : Key) (w : Write) (v : Val) (a : SI) : Code * SI :=
  match si_prov a k with
  | Some (t', own) =>
    if t' =? t then
      match w, own with
      | WInsert, Some _ => (kInvalidArgument, a)
      | WDelete, None => (kNotFound, a)
      | _, _ => (kOk, set_prov k (Some (t, v)) a)
      end
    else (kConflict, a)
  | None =>
    if match si_hist a k with (ts, _) :: _ => start <? ts | [] => false end then (kConflict, a)
    else
      match w, at_snapshot (si_hist a k) start with
      | WInsert, Some _ => (kInvalidArgument, a)
      | WInsert, None => (kOk, set_prov k (Some (t, v)) a)
      | _, None => (kNotFound, a)
      | _, Some _ => (kOk, set_prov k (Some (t, v)) a)
      end
  end.

(** Commit: the provisional values of [t] become the newest committed ones. *)
Definition si_commit (t : Z) (a : SI) : SI :=
  let ts := si_last a + 1 in
  mkSI (si_tables a)
    (fun k => match si_prov a k with
              | Some (t', v) => if t' =? t then (ts, v) :: si_hist a k else si_hist a k
              | None => si_hist a k
              end)
    (fun k => match si_prov a k with
              | Some (t', v) => if t' =? t then None else Some (t', v)
              | None => None
              end)
    (delete t (si_open a)) ts (si_next_txn a).

(** Abort: they are forgotten. *)
Definition si_abort (t : Z) (a : SI) : SI :=
  mkSI (si_tables a) (si_hist a)
    (fun k => match si_prov a k with
              | Some (t', v) => if t' =? t then None else Some (t', v)
              | None => None
              end)
    (delete t (si_open a)) (si_last a) (si_next_txn a).

Definition si_begin (a : SI) : SI :=
  mkSI (si_tables a) (si_hist a) (si_prov a) (<[si_next_txn a := si_last a]> (si_open a)) (si_last a)
    (si_next_txn a + 1).

(** * Operations and replies *)

Inductive TOp : Type :=
  | TCreate (schema : TableSchema)
  | TBegin
  | TInsert (t : Z) (table : bytes) (row : Row)
  | TUpdate (t : Z) (table : bytes) (row : Row)
  | TDelete (t : Z) (table : bytes) (pk : Value)
  | TGet (t : Z) (table : bytes) (pk : Value)
  | TCommit (t : Z)
  | TAbort (t : Z).

(** A status code, the id of a new transaction, or a row. *)
Inductive TReply : Type :=
  | RCode (c : Code)
  | RTxn (id : Z)
  | RRow (r : Row).

Definition si_create (schema : TableSchema) (a : SI) : TReply * SI :=
  if decide (si_open a = ∅) then
    match Schema_Validate schema with
    | Ret _ =>
      match si_tables a !! name_ schema with
      | Some _ => (RCode kInvalidArgument, a)
      | None => (RCode kOk, mkSI (<[name_ schema := schema]> (si_tables a)) (si_hist a) (si_prov a) (si_open a)
                   (si_last a) (si_next_txn a))
      end
    | _ => (RCode kInvalidArgument, a)
    end
  else (RCode kInvalidArgument, a).

(** An operation of a finished transaction is refused. *)
Definition si_row_write (t : Z) (table : bytes) (row : Row) (w : Write) (a : SI) : TReply * SI :=
  match si_tables a !! table with
  | None => (RCode kNotFound, a)
  | Some schema =>
    match PrimaryKey row schema with
    | Ret pk =>
      match si_open a !! t with
      | None => (RCode kInvalidArgument, a)
      | Some start => let '(c, a) := si_write t start (table, pk) w (Some row) a in (RCode c, a)
      end
    | _ => (RCode kInvalidArgument, a)
    end
  end.

Definition si_step (op : TOp) (a : SI) : TReply * SI :=
  match op with
  | TCreate schema => si_create schema a
  | TBegin => (RTxn (si_next_txn a), si_begin a)
  | TInsert t table row => si_row_write t table row WInsert a
  | TUpdate t table row => si_row_write t table row WUpdate a
  | TDelete t table pk =>
    match si_tables a !! table with
    | None => (RCode kNotFound, a)
    | Some _ =>
      match si_open a !! t with
      | None => (RCode kInvalidArgument, a)
      | Some start => let '(c, a) := si_write t start (table, pk) WDelete None a in (RCode c, a)
      end
    end
  | TGet t table pk =>
    match si_open a !! t with
    | None => (RCode kInvalidArgument, a)
    | Some start =>
      match si_tables a !! table with
      | None => (RCode kNotFound, a)
      | Some _ =>
        match si_read a t start (table, pk) with
        | Some row => (RRow row, a)
        | None => (RCode kNotFound, a)
        end
      end
    end
  | TCommit t =>
    match si_open a !! t with
    | None => (RCode kInvalidArgument, a)
    | Some _ => (RCode kOk, si_commit t a)
    end
  | TAbort t =>
    match si_open a !! t with
    | None => (RCode kOk, a)
    | Some _ => (RCode kOk, si_abort t a)
    end
  end.

Fixpoint si_run (ops : list TOp) (a : SI) : list TReply * SI :=
  match ops with
  | [] => ([], a)
  | op :: ops =>
    let '(r, a) := si_step op a in
    let '(rs, a) := si_run ops a in (r :: rs, a)
  end.

(** * Invariants of the abstract machine *)

Record si_inv (a : SI) : Prop := {
  sv_last : 0 <= si_last a;
  sv_hist : forall k, StronglySorted (fun x y => y.1 < x.1) (si_hist a k) /\
    Forall (fun x => 0 < x.1 <= si_last a) (si_hist a k);
  sv_prov : forall k t v, si_prov a k = Some (t, v) ->
    exists start, si_open a !! t = Some start /\ Forall (fun x => x.1 <= start) (si_hist a k);
  sv_open : forall t start, si_open a !! t = Some start -> 0 <= start <= si_last a /\ 0 < t < si_next_txn a;
  sv_next : 0 < si_next_txn a
}.

Lemma si_inv_new : si_inv SI_new.
Proof. split; try done. intros k. split; constructor. Qed.

Lemma newest_bound (h : list (Z * Val)) start : StronglySorted (fun x y => y.1 < x.1) h ->
  match h with (ts, _) :: _ => start <? ts | [] => false end = false -> Forall (fun x => x.1 <= start) h.
Proof.
  intros Hs Hn. destruct Hs as [|[ts v] h Hs Hf]; [constructor|]. apply Z.ltb_ge in Hn.
  constructor; [done|]. eapply Forall_impl; [exact Hf|]. cbn. lia.
Qed.

Lemma si_inv_set_prov a t start k v : si_inv a -> si_open a !! t = Some start ->
  Forall (fun x => x.1 <= start) (si_hist a k) -> si_inv (set_prov k (Some (t, v)) a).
Proof.
  intros [H1 H2 H3 H4 H5] Ho Hf. split; cbn; try done. intros k' t' v'. unfold fupd.
  destruct (decide (k' = k)) as [->|]; [|apply H3]. intros [= <- <-]. eauto.
Qed.

Lemma si_inv_write t start k w v a : si_inv a -> si_open a !! t = Some start -> si_inv (si_write t start k w v a).2.
Proof.
  intros Hi Ho. unfold si_write. destruct (si_prov a k) as [[t' own]|] eqn:Ep.
  - destruct (Z.eqb_spec t' t) as [->|]; [|done]. destruct (sv_prov _ Hi _ _ _ Ep) as (s' & Ho' & Hf).
    rewrite Ho in Ho'. injection Ho' as <-. destruct w, own; cbn; try done; by eapply si_inv_set_prov.
  - destruct (match si_hist a k with [] => false | _ => _ end) eqn:En; [done|].
    apply newest_bound in En; [|apply (sv_hist _ Hi)].
    destruct w, (at_snapshot (si_hist a k) start); cbn; try done; by eapply si_inv_set_prov.
Qed.

Lemma si_inv_commit t start a : si_inv a -> si_open a !! t = Some start -> si_inv (si_commit t a).
Proof.
  intros [H1 H2 H3 H4 H5] Ho. split; cbn; [lia| | | |done].
  - intros k. destruct (H2 k) as [Hs Hf].
    assert (Hf' : Forall (fun x : Z * Val => 0 < x.1 <= si_last a + 1) (si_hist a k))
      by (eapply Forall_impl; [exact Hf|]; cbn; lia).
    destruct (si_prov a k) as [[t' v]|]; [|done]. destruct (t' =? t); [|done].
    split; constructor; try done; [|cbn; lia]. eapply Forall_impl; [exact Hf|]. cbn. lia.
  - intros k t' v. destruct (si_prov a k) as [[t'' v'']|] eqn:Ep; [|done].
    destruct (Z.eqb_spec t'' t) as [|Hne]; [done|]. intros [= <- <-]. destruct (H3 _ _ _ Ep) as (s & Ho' & Hf).
    exists s. by rewrite lookup_delete_ne.
  - intros t' s [_ H]%lookup_delete_Some. destruct (H4 _ _ H). lia.
Qed.

Lemma si_inv_abort t a : si_inv a -> si_inv (si_abort t a).
Proof.
  intros [H1 H2 H3 H4 H5]. split; cbn; try done.
  - intros k t' v. destruct (si_prov a k) as [[t'' v'']|] eqn:Ep; [|done].
    destruct (Z.eqb_spec t'' t) as [|Hne]; [done|]. intros [= <- <-]. destruct (H3 _ _ _ Ep) as (s & Ho' & Hf).
    exists s. by rewrite lookup_delete_ne.
  - intros t' s [_ H]%lookup_delete_Some. by apply H4.
Qed.

Lemma si_inv_begin a : si_inv a -> si_inv (si_begin a).
Proof.
  intros [H1 H2 H3 H4 H5]. split; cbn; try done; [| |lia].
  - intros k t v Hp. destruct (H3 _ _ _ Hp) as (s & Ho & Hf). exists s. split; [|done].
    rewrite lookup_insert_ne; [done|]. destruct (H4 _ _ Ho). lia.
  - intros t s [[<- <-]|[Hne Ho]]%lookup_insert_Some; [lia|]. destruct (H4 _ _ Ho). lia.
Qed.

Lemma si_inv_step op a : si_inv a -> si_inv (si_step op a).2.
Proof.
  intros Hi. destruct op as [schema| |t table row|t table row|t table pk|t table pk|t|t]; cbn [si_step].
  - unfold si_create. destruct (decide _); [|done]. destruct (Schema_Validate schema); try done.
    destruct (si_tables a !! _); [done|]. by destruct Hi.
  - by apply si_inv_begin.
  - unfold si_row_write. destruct (si_tables a !! table); [|done]. destruct (PrimaryKey _ _); try done.
    destruct (si_open a !! t) as [start|] eqn:Ho; [|done].
    pose proof (si_inv_write t start (table, a0) WInsert (Some row) a Hi Ho). by destruct (si_write _ _ _ _ _ _).
  - unfold si_row_write. destruct (si_tables a !! table); [|done]. destruct (PrimaryKey _ _); try done.
    destruct (si_open a !! t) as [start|] eqn:Ho; [|done].
    pose proof (si_inv_write t start (table, a0) WUpdate (Some row) a Hi Ho). by destruct (si_write _ _ _ _ _ _).
  - destruct (si_tables a !! table); [|done]. destruct (si_open a !! t) as [start|] eqn:Ho; [|done].
    pose proof (si_inv_write t start (table, pk) WDelete None a Hi Ho). by destruct (si_write _ _ _ _ _ _).
  - destruct (si_open a !! t); [|done]. destruct (si_tables a !! table); [|done].
    by destruct (si_read _ _ _ _).
  - destruct (si_open a !! t) as [start|] eqn:Ho; [|done]. by eapply si_inv_commit.
  - destruct (si_open a !! t); [|done]. by apply si_inv_abort.
Qed.

Lemma si_inv_run ops : forall a, si_inv a -> si_inv (si_run ops a).2.
Proof.
  induction ops as [|op ops IH]; intros a Hi; [done|]. cbn [si_run].
  pose proof (si_inv_step op a Hi) as H. destruct (si_step op a) as [r a1]. cbn in H.
  specialize (IH a1 H). by destruct (si_run ops a1).
Qed.
