(* ===== verification/TxnRep.v ===== *)
(** How the store represents row chains: the versions of a row linked from its
    head, and what the operations of [MvccStore] do on such a chain. *)
From S2P Require Import Prelude Status Slice Encoding Env Types Schema Row Kv Mvcc.
From S2P Require Import Catalog Database Txn SnapIso.

(** * Keys of the store *)

Definition hkey (k : Key) : bytes := RowHeadKey k.1 (EncodePkForKey k.2).
Definition vkey (k : Key) (i : Z) : bytes := VersionKey k.1 (EncodePkForKey k.2) i.

(** A key whose encodings fit their length fields. *)
Record key_ok (k : Key) : Prop := {
  ko_table : len32 k.1;
  ko_pk : value_ok k.2;
  ko_hex : len32 (EncodePkForKey k.2)
}.

Lemma hkey_inj k k' : key_ok k -> key_ok k' -> hkey k = hkey k' -> k = k'.
Proof.
  intros [_ H _] [_ H' _] E. apply RowHeadKey_inj in E as [E1 E2]; [|done..]. destruct k, k'. cbn in *. congruence.
Qed.
Lemma vkey_inj k k' i i' : key_ok k -> key_ok k' -> fits64 i -> fits64 i' -> vkey k i = vkey k' i' -> k = k' /\ i = i'.
Proof.
  intros [_ H _] [_ H' _] Hi Hi' E. apply VersionKey_inj in E as (E1 & E2 & E3); [|done..].
  destruct k, k'. cbn in *. split; congruence.
Qed.

(** The key spaces [d/], [v/], [m/txn/], [m/next_*] and [c/t/] are disjoint. *)
Ltac key_ne :=
  unfold hkey, vkey, RowHeadKey, VersionKey, TxnKey, TableKey, kNextTsKey, kNextTxnKey, kNextVidKey, lit;
  cbn; discriminate.

Lemma vkey_ne_hkey k k' i : vkey k i <> hkey k'. Proof. key_ne. Qed.
Lemma hkey_ne_txn k i : hkey k <> TxnKey i. Proof. key_ne. Qed.
Lemma vkey_ne_txn k i j : vkey k i <> TxnKey j. Proof. key_ne. Qed.
Lemma hkey_ne_table k n : hkey k <> TableKey n. Proof. key_ne. Qed.
Lemma vkey_ne_table k i n : vkey k i <> TableKey n. Proof. key_ne. Qed.
Lemma txn_ne_table i n : TxnKey i <> TableKey n. Proof. key_ne. Qed.

(** The keys of the oracles. *)
Definition oracle_key (key : bytes) : Prop := key = kNextTsKey \/ key = kNextTxnKey \/ key = kNextVidKey.
Lemma hkey_not_oracle k : ~ oracle_key (hkey k).
Proof. intros [H|[H|H]]; revert H; key_ne. Qed.
Lemma vkey_not_oracle k i : ~ oracle_key (vkey k i).
Proof. intros [H|[H|H]]; revert H; key_ne. Qed.
Lemma txn_not_oracle i : ~ oracle_key (TxnKey i).
Proof. intros [H|[H|H]]; revert H; key_ne. Qed.
Lemma table_not_oracle n : ~ oracle_key (TableKey n).
Proof. intros [H|[H|H]]; revert H; key_ne. Qed.

Create HintDb keys.
#[export] Hint Resolve vkey_ne_hkey hkey_ne_txn vkey_ne_txn hkey_ne_table vkey_ne_table txn_ne_table
  hkey_not_oracle vkey_not_oracle txn_not_oracle table_not_oracle : keys.
#[export] Hint Extern 2 (_ <> _) => apply not_eq_sym; solve [eauto with keys nocore] : keys.

(** The store after [PersistOracles]. *)
Definition with_oracles (d : Database) (m : gmap bytes bytes) : gmap bytes bytes :=
  <[kNextVidKey := PutFixed64 [] (next_version_id_ d)]>
    (<[kNextTxnKey := PutFixed64 [] (next_txn_id_ d)]> (<[kNextTsKey := PutFixed64 [] (next_ts_ d)]> m)).

Lemma lookup_with_oracles d m key : ~ oracle_key key -> with_oracles d m !! key = m !! key.
Proof.
  unfold oracle_key, with_oracles. intros H. rewrite !lookup_insert_ne by (intros <-; tauto). done.
Qed.

Lemma exec_PersistOracles d m : exec PersistOracles (d, m) = (Ret tt, (d, with_oracles d m)).
Proof. done. Qed.

(** * Single reads and writes *)

Section Single.
Context {S : Type}.
Implicit Types (s : S) (m : gmap bytes bytes).

Lemma exec_GetVersion s m k i r : m !! vkey k i = Some (VersionRecord_Encode r) -> record_ok r ->
  exec (GetVersion k.1 k.2 i) (s, m) = (Ret r, (s, m)).
Proof.
  intros E Hr. unfold GetVersion. kv_step. unfold map_get. fold (vkey k i). rewrite E. cbn [res_of_sum].
  by rewrite exec_lift, VersionRecord_Decode_Encode.
Qed.

Lemma exec_GetLatest_none s m k : m !! hkey k = None ->
  exec (GetLatestVersionId k.1 k.2) (s, m) = (Fail (NotFound []), (s, m)).
Proof. intros E. unfold GetLatestVersionId. kv_step. unfold map_get. fold (hkey k). by rewrite E. Qed.

Lemma exec_GetLatest s m k i : m !! hkey k = Some (PutFixed64 [] i) -> fits64 i ->
  exec (GetLatestVersionId k.1 k.2) (s, m) = (Ret i, (s, m)).
Proof.
  intros E Hi. unfold GetLatestVersionId. kv_step. unfold map_get. fold (hkey k). rewrite E. cbn [res_of_sum].
  unfold PutFixed64. rewrite app_nil_l. kv_step. rewrite length_le_bytes. cbn [Nat.eqb negb]. rewrite exec_ret.
  by rewrite <- (app_nil_r (le_bytes 8 i)), DecodeFixed64_put.
Qed.

Lemma exec_PutVersionValue s m k r :
  exec (PutVersionValue k.1 k.2 r) (s, m) = (Ret tt, (s, <[vkey k (vr_id r) := VersionRecord_Encode r]> m)).
Proof. done. Qed.

Lemma exec_SetHead s m k i : exec (SetHead k.1 k.2 i) (s, m) = (Ret tt, (s, <[hkey k := PutFixed64 [] i]> m)).
Proof. done. Qed.

Lemma exec_ClearHead s m k : exec (ClearHead k.1 k.2) (s, m) = (Ret tt, (s, delete (hkey k) m)).
Proof. done. Qed.

Lemma exec_PutVersion s m k r : exec (PutVersion k.1 k.2 r) (s, m) =
  (Ret tt, (s, <[hkey k := PutFixed64 [] (vr_id r)]> (<[vkey k (vr_id r) := VersionRecord_Encode r]> m))).
Proof. unfold PutVersion. kv_step. by rewrite exec_PutVersionValue, exec_SetHead. Qed.

Lemma exec_GetTxnMeta s m i meta : m !! TxnKey i = Some (EncodeTxnMeta meta) -> meta_ok meta ->
  exec (GetTxnMeta i) (s, m) = (Ret meta, (s, m)).
Proof.
  intros E Hm. unfold GetTxnMeta, not_found_as. kv_step.
  unfold map_get. rewrite E. cbn [res_of_sum]. by rewrite exec_ret, exec_lift, DecodeTxnMeta_Encode.
Qed.

Lemma exec_PutTxnMeta s m i meta :
  exec (PutTxnMeta i meta) (s, m) = (Ret tt, (s, <[TxnKey i := EncodeTxnMeta meta]> m)).
Proof. done. Qed.
End Single.

(** * Chains *)

(** The versions [recs] are linked from [id] towards older ones. *)
Fixpoint links (m : gmap bytes bytes) (k : Key) (id : Z) (recs : list VersionRecord) : Prop :=
  match recs with
  | [] => id = 0
  | r :: rs => vr_id r = id /\ 0 <= vr_prev_id r < id /\ record_ok r /\
      m !! vkey k id = Some (VersionRecord_Encode r) /\ links m k (vr_prev_id r) rs
  end.

(** The record holds the value. *)
Definition stores (v : Val) (r : VersionRecord) : Prop :=
  match v with
  | Some row => vr_is_tombstone r = false /\ vr_payload r = Row_Encode row /\ row_ok row
  | None => vr_is_tombstone r = true
  end.

(** The versions of a history: each starts at its timestamp and ends where the
    next newer one starts, [upper] for the first; 0 stands for no end. *)
Fixpoint committed (upper : Z) (h : list (Z * Val)) (recs : list VersionRecord) : Prop :=
  match h, recs with
  | [], [] => True
  | (ts, v) :: h, r :: rs =>
    vr_start_ts r = ts /\ 0 < ts /\ vr_end_ts r = upper /\ stores v r /\ committed ts h rs
  | _, _ => False
  end.

Definition provisional (t : Z) (v : Val) (r : VersionRecord) : Prop :=
  vr_start_ts r = 0 /\ vr_end_ts r = 0 /\ vr_created_by r = t /\ stores v r.

Definition first_id (recs : list VersionRecord) : Z := match recs with [] => 0 | r :: _ => vr_id r end.
Definition head_rep (m : gmap bytes bytes) (k : Key) (recs : list VersionRecord) : Prop :=
  m !! hkey k = match recs with [] => None | r :: _ => Some (PutFixed64 [] (vr_id r)) end.

(** The store represents the row [k] with history [h] and provisional value
    [p]; its version ids are below [B]. *)
Record chain (m : gmap bytes bytes) (B : Z) (k : Key) (p : option (Z * Val)) (h : list (Z * Val))
    (recs : list VersionRecord) : Prop := {
  ch_links : links m k (first_id recs) recs;
  ch_head : head_rep m k recs;
  ch_below : first_id recs < B;
  ch_values : match p with
    | None => committed 0 h recs
    | Some (t, v) => exists r rs, recs = r :: rs /\ provisional t v r /\ committed 0 h rs
    end
}.

Lemma links_bound m k recs : forall id, links m k id recs -> 0 <= id /\ (length recs <= Z.to_nat id)%nat.
Proof.
  induction recs as [|r rs IH]; intros id; cbn [links length]; [intros ->; lia|].
  intros (_ & H1 & _ & _ & H2). apply IH in H2. lia.
Qed.

Lemma links_fits m k recs id : links m k id recs -> fits64 id.
Proof.
  destruct recs as [|r rs]; cbn [links]; [intros ->; unfold fits64; lia|]. intros (<- & _ & [] & _). done.
Qed.

(** Only the version keys below the head matter. *)
Lemma links_frame m m' k recs : forall id, links m k id recs ->
  (forall i, fits64 i -> 0 < i <= id -> m' !! vkey k i = m !! vkey k i) -> links m' k id recs.
Proof.
  induction recs as [|r rs IH]; intros id; cbn [links]; [done|]. intros (H1 & H2 & H3 & H4 & H5) Hm.
  split; [done|]. split; [done|]. split; [done|]. split.
  - rewrite Hm; [done| |lia]. rewrite <- H1. apply H3.
  - apply IH; [done|]. intros i Hi Hlt. apply Hm; [done|lia].
Qed.

Lemma head_rep_frame m m' k recs : head_rep m k recs -> m' !! hkey k = m !! hkey k -> head_rep m' k recs.
Proof. unfold head_rep. intros H E. by rewrite E. Qed.

(** Two stores that agree on the keys of a row represent the same chain. *)
Definition same_row (B : Z) (k : Key) (m m' : gmap bytes bytes) : Prop :=
  m' !! hkey k = m !! hkey k /\ forall i, fits64 i -> 0 < i < B -> m' !! vkey k i = m !! vkey k i.

Lemma chain_frame m m' B B' k p h recs : chain m B k p h recs -> same_row B k m m' -> B <= B' ->
  chain m' B' k p h recs.
Proof.
  intros [H1 H2 H3 H4] [Hh Hv] HB. split; [|by eapply head_rep_frame|lia|done].
  eapply links_frame; [exact H1|]. intros i Hi Hlt. apply Hv; [done|lia].
Qed.

(** * Reading a chain *)

(** The reply to a read of the value [v]. *)
Definition answers (v : Val) (r : Res Row) : Prop :=
  match v with
  | Some row => r = Ret row
  | None => exists msg, r = Fail (NotFound msg)
  end.

Section Reading.
Context {S : Type}.
Implicit Types (s : S) (m : gmap bytes bytes).

Lemma exec_shown s m v r : stores v r ->
  exists res, exec (if vr_is_tombstone r then kfail (NotFound (lit "row deleted at snapshot"))
                    else klift (Row_Decode (vr_payload r))) (s, m) = (res, (s, m)) /\ answers v res.
Proof.
  destruct v as [row|]; cbn [stores answers].
  - intros (-> & -> & Hr). rewrite exec_lift, Row_Decode_Encode by done. eauto.
  - intros ->. rewrite exec_fail. eauto.
Qed.

Lemma read_committed s m k snap t : forall recs upper h id fuel,
  links m k id recs -> committed upper h recs -> upper = 0 \/ snap < upper -> (length recs <= fuel)%nat ->
  exists res, exec (read_chain fuel k.1 k.2 snap t (Some GetTxnMeta)  id) (s, m) = (res, (s, m)) /\
    answers (at_snapshot h snap) res.
Proof.
  induction recs as [|r rs IH]; intros upper [|[ts v] h] id fuel Hl Hc Hu Hf; cbn [committed] in Hc; try done.
  - cbn [links] in Hl. subst id. destruct fuel; cbn [read_chain Z.eqb]; rewrite exec_fail; cbn; eauto.
  - destruct Hc as (Hts & Hpos & Hend & Hst & Hc). cbn [links length] in *.
    destruct Hl as (Hid & Hprev & Hr & Hm & Hl). destruct fuel as [|fuel]; [lia|].
    cbn [read_chain at_snapshot]. destruct (Z.eqb_spec id 0); [lia|]. kv_step.
    rewrite (exec_GetVersion s m k id r) by done. kv_step. unfold visible_to, is_provisional, IsCommittedVisible.
    rewrite Hts, Hend. unfold is_provisional. rewrite Hts. destruct (Z.eqb_spec ts 0); [lia|]. rewrite exec_ret.
    rewrite Z.gtb_ltb. destruct (Z.ltb_spec snap ts).
    + destruct (Z.leb_spec ts snap); [lia|]. eapply IH; try done; [by right|lia].
    + destruct (Z.leb_spec ts snap); [|lia].
      destruct (negb (upper =? 0) && (upper <=? snap)) eqn:E.
      { apply andb_true_iff in E as [E1 E2]. apply negb_true_iff, Z.eqb_neq in E1. apply Z.leb_le in E2. lia. }
      by apply exec_shown.
Qed.

(** A snapshot read of a chain whose provisional version, if any, belongs to a
    transaction that is not committed. *)
Lemma exec_GetRow s m B k p h recs snap t : chain m B k p h recs ->
  (forall t' v, p = Some (t', v) -> exists meta, m !! TxnKey t' = Some (EncodeTxnMeta meta) /\ meta_ok meta /\
     tm_state meta <> kCommitted) ->
  exists res, exec (GetRow k.1 k.2 snap t (Some GetTxnMeta)) (s, m) = (res, (s, m)) /\
    answers (match p with
             | Some (t', v) => if t' =? t then v else at_snapshot h snap
             | None => at_snapshot h snap
             end) res.
Proof.
  intros [Hl Hh _ Hv] Hmeta. unfold GetRow. kv_step. unfold head_rep in Hh.
  destruct recs as [|r rs].
  - rewrite exec_GetLatest_none by done. cbn [IsNotFound]. change (IsNotFound (NotFound [])) with true. cbn iota.
    rewrite exec_fail. destruct p as [[t' v]|]; [by destruct Hv as (? & ? & ? & _)|].
    destruct h as [|[] ]; [|done]. cbn. eauto.
  - cbn [first_id] in Hl. rewrite (exec_GetLatest s m k (vr_id r)) by (done || by eapply links_fits).
    pose proof (links_bound _ _ _ _ Hl) as [_ Hlen]. unfold walk_rounds.
    destruct p as [[t' v]|]; [|eapply (read_committed s m k snap t (r :: rs) 0 h); [done|done|by left|cbn [length] in *; lia]].
    destruct Hv as (r' & rs' & [= <- <-] & (Hs0 & He0 & Hby & Hst) & Hc).
    cbn [read_chain links length] in *. destruct Hl as (_ & Hprev & Hr & Hm & Hl).
    destruct (Z.eqb_spec (vr_id r) 0); [lia|]. kv_step. rewrite (exec_GetVersion s m k (vr_id r) r) by done.
    kv_step. unfold visible_to, is_provisional. rewrite Hs0, Hby. cbn [Z.eqb]. destruct (t' =? t).
    + rewrite exec_ret. by apply exec_shown.
    + destruct (Hmeta t' v eq_refl) as (meta & Em & Hok & Hnc). kv_step.
      rewrite (exec_GetTxnMeta s m t' meta) by done. rewrite decide_False by done. rewrite exec_ret.
      eapply (read_committed s m k snap t rs 0 h); [done|done|by left|lia].
Qed.
End Reading.

(** * Frames: which keys an operation may change *)

Definition off (P : bytes -> Prop) (m m' : gmap bytes bytes) : Prop := forall K, ~ P K -> m' !! K = m !! K.

(** The keys of a row. *)
Definition row_key (k : Key) (K : bytes) : Prop := K = hkey k \/ exists i, fits64 i /\ K = vkey k i.

Lemma off_refl P m : off P m m. Proof. done. Qed.
Lemma off_trans P m1 m2 m3 : off P m1 m2 -> off P m2 m3 -> off P m1 m3.
Proof. intros H1 H2 K HK. by rewrite H2, H1. Qed.
Lemma off_weaken (P Q : bytes -> Prop) m m' : (forall K, P K -> Q K) -> off P m m' -> off Q m m'.
Proof. intros HPQ H K HK. apply H. auto. Qed.
Lemma off_insert (P : bytes -> Prop) m K v : P K -> off P m (<[K := v]> m).
Proof. intros HP K' HK. rewrite lookup_insert_ne; [done|]. by intros ->. Qed.
Lemma off_delete (P : bytes -> Prop) m K : P K -> off P m (delete K m).
Proof. intros HP K' HK. rewrite lookup_delete_ne; [done|]. by intros ->. Qed.
Lemma off_oracles (P : bytes -> Prop) d m : (forall K, oracle_key K -> P K) -> off P m (with_oracles d m).
Proof. intros HP K HK. apply lookup_with_oracles. auto. Qed.

Lemma row_key_inj k k' : key_ok k -> key_ok k' -> forall K, row_key k K -> row_key k' K -> k = k'.
Proof.
  intros Hk Hk' K [->|(i & Hi & ->)] [E|(i' & Hi' & E)].
  - by apply hkey_inj in E.
  - symmetry in E. by apply vkey_ne_hkey in E.
  - by apply vkey_ne_hkey in E.
  - by apply vkey_inj in E as [? _].
Qed.

Lemma row_key_not_txn k K i : row_key k K -> K <> TxnKey i.
Proof. intros [->|(j & _ & ->)]; key_ne. Qed.
Lemma row_key_not_table k K n : row_key k K -> K <> TableKey n.
Proof. intros [->|(j & _ & ->)]; key_ne. Qed.
Lemma row_key_not_oracle k K : row_key k K -> ~ oracle_key K.
Proof. intros [->|(j & _ & ->)]; auto with keys. Qed.

Lemma off_same_row P B k m m' : off P m m' -> (forall K, row_key k K -> ~ P K) -> same_row B k m m'.
Proof.
  intros Ho HP. split; [apply Ho, HP; by left|]. intros i Hi _. apply Ho, HP. right. eauto.
Qed.

(** * Changing a chain *)

(** Replace the head record by one with the same id and link. *)
Lemma chain_rewrite_head m B k p h r rs p' h' r' : chain m B k p h (r :: rs) ->
  vr_id r' = vr_id r -> vr_prev_id r' = vr_prev_id r -> record_ok r' -> key_ok k ->
  (match p' with
   | None => committed 0 h' (r' :: rs)
   | Some (t, v) => provisional t v r' /\ committed 0 h' rs
   end) ->
  chain (<[vkey k (vr_id r) := VersionRecord_Encode r']> m) B k p' h' (r' :: rs).
Proof.
  intros [Hl Hh Hb _] Hid Hprev Hr Hk Hv. cbn [first_id links] in *. destruct Hl as (_ & Hlt & Hr0 & Hm & Hl).
  split; cbn [first_id links]; rewrite ?Hid, ?Hprev.
  - split; [done|]. split; [done|]. split; [done|]. split; [by rewrite lookup_insert_eq|].
    eapply links_frame; [exact Hl|]. intros i Hi Hle. rewrite lookup_insert_ne; [done|].
    intros E. apply vkey_inj in E as [_ E]; [lia|done..|apply Hr0|done].
  - unfold head_rep in *. rewrite lookup_insert_ne by apply vkey_ne_hkey. by rewrite Hid.
  - done.
  - destruct p' as [[t v]|]; [|done]. exists r', rs. naive_solver.
Qed.

(** Install a provisional version on top. *)
Lemma chain_install m B k h recs t v r : chain m B k None h recs -> key_ok k ->
  vr_id r = B -> fits64 B -> vr_prev_id r = first_id recs -> record_ok r -> provisional t v r ->
  chain (<[hkey k := PutFixed64 [] B]> (<[vkey k B := VersionRecord_Encode r]> m)) (B + 1) k (Some (t, v)) h (r :: recs).
Proof.
  intros [Hl Hh Hb Hc] Hk Hid HB Hprev Hr Hv. pose proof (links_bound _ _ _ _ Hl) as [Hpos _].
  split; cbn [first_id links]; rewrite ?Hid, ?Hprev.
  - split; [done|]. split; [lia|]. split; [done|].
    split; [rewrite lookup_insert_ne by apply not_eq_sym, vkey_ne_hkey; by rewrite lookup_insert_eq|].
    eapply links_frame; [exact Hl|]. intros i Hi Hle. rewrite lookup_insert_ne by apply not_eq_sym, vkey_ne_hkey.
    rewrite lookup_insert_ne; [done|]. intros E. apply vkey_inj in E as [_ E]; [lia|done..].
  - unfold head_rep. by rewrite lookup_insert_eq, Hid.
  - lia.
  - eauto.
Qed.

(** Remove the provisional version on top. *)
Lemma chain_remove m B k h r rs t v : chain m B k (Some (t, v)) h (r :: rs) -> key_ok k ->
  chain (if vr_prev_id r =? 0 then delete (hkey k) m else <[hkey k := PutFixed64 [] (vr_prev_id r)]> m) B k None h rs.
Proof.
  intros [Hl Hh Hb (r' & rs' & [= <- <-] & Hp & Hc)] Hk. cbn [first_id links] in *.
  destruct Hl as (_ & Hlt & Hr & _ & Hl). 
  match goal with |- chain ?x _ _ _ _ _ => set (m' := x) end.
  assert (Hoff : off (fun K => K = hkey k) m m').
  { unfold m'. destruct (vr_prev_id r =? 0); [by apply off_delete|by apply off_insert]. }
  assert (Efirst : vr_prev_id r = first_id rs) by (destruct rs; cbn [first_id links] in *; [done|by destruct Hl as (-> & _)]).
  split.
  - rewrite <- Efirst. eapply links_frame; [exact Hl|]. intros i Hi Hle. apply Hoff. apply vkey_ne_hkey.
  - unfold head_rep, m'. destruct rs as [|r1 rs]; cbn [first_id links] in *.
    + rewrite Hl. cbn [Z.eqb]. apply lookup_delete_eq.
    + destruct Hl as (E1 & Hlt1 & _). destruct (Z.eqb_spec (vr_prev_id r) 0); [lia|].
      by rewrite lookup_insert_eq, Efirst.
  - lia.
  - done.
Qed.

(** Rewrite the record at the front of a linked list. *)
Lemma links_rewrite m k id r rs r' : links m k id (r :: rs) -> vr_id r' = vr_id r -> vr_prev_id r' = vr_prev_id r ->
  record_ok r' -> key_ok k -> links (<[vkey k id := VersionRecord_Encode r']> m) k id (r' :: rs).
Proof.
  cbn [links]. intros (Hid & Hlt & Hr0 & Hm & Hl) Hid' Hprev Hr Hk. rewrite Hid', Hprev.
  split; [done|]. split; [done|]. split; [done|]. split; [by rewrite lookup_insert_eq|].
  eapply links_frame; [exact Hl|]. intros i Hi Hle. rewrite lookup_insert_ne; [done|].
  intros E. apply vkey_inj in E as [_ E]; [lia|done..| |done]. rewrite <- Hid. apply Hr0.
Qed.

(** * Stamping and restoring one write *)

Definition wkey (w : TxnWrite) : Key := (tw_table w, tw_pk w).
(** Name the key a call is about. *)
Ltac fold_wkey w := change (tw_table w) with (wkey w).1; change (tw_pk w) with (wkey w).2.

Lemma record_ok_end ts r : fits64 ts -> record_ok r -> record_ok (with_end_ts ts r).
Proof. by intros H []. Qed.
Lemma record_ok_start ts r : fits64 ts -> record_ok r -> record_ok (with_start_ts ts r).
Proof. by intros H []. Qed.
Lemma stores_start ts v r : stores v r -> stores v (with_start_ts ts r).
Proof. by destruct v. Qed.
Lemma stores_end ts v r : stores v r -> stores v (with_end_ts ts r).
Proof. by destruct v. Qed.

Lemma exec_close_prev {S} (s : S) m w ts h id rs : links m (wkey w) id rs -> committed 0 h rs -> key_ok (wkey w) -> 0 < ts ->
  fits64 ts -> exists m' rs', exec (close_prev w ts id) (s, m) = (Ret tt, (s, m')) /\
    links m' (wkey w) id rs' /\ committed ts h rs' /\
    off (fun K => exists i, fits64 i /\ 0 < i <= id /\ K = vkey (wkey w) i) m m'.
Proof.
  intros Hl Hc Hk Hts Hfit. unfold close_prev. fold_wkey w. destruct rs as [|r rs].
  { cbn [links] in Hl. subst id. exists m, []. destruct h as [|[]]; [|done]. cbn [Z.eqb].
    split; [by rewrite exec_ret|]. done. }
  destruct h as [|[ts1 v1] h]; [done|]. pose proof Hl as (Hid & Hlt & Hr & Hm & _). destruct Hc as (H1 & H2 & H3 & H4 & H5).
  destruct (Z.eqb_spec id 0); [lia|]. kv_step. rewrite (exec_GetVersion s m (wkey w) id r) by done.
  unfold is_provisional. rewrite H1, H3. destruct (Z.eqb_spec ts1 0); [lia|]. cbn [negb andb Z.eqb].
  rewrite (exec_PutVersionValue s m (wkey w)). cbn [with_end_ts vr_id]. rewrite Hid.
  exists (<[vkey (wkey w) id := VersionRecord_Encode (with_end_ts ts r)]> m), (with_end_ts ts r :: rs).
  split; [done|]. split; [apply (links_rewrite m (wkey w) id r); [done..|by apply record_ok_end|done]|].
  split; [cbn; by rewrite H1|]. apply off_insert. exists id. split; [|split; [lia|done]]. rewrite <- Hid. apply Hr.
Qed.

(** Stamping the provisional version of a row. *)
Lemma exec_apply_one {S} (s : S) m B w ws t v h r rs ts : chain m B (wkey w) (Some (t, v)) h (r :: rs) ->
  tw_version_id w = vr_id r -> key_ok (wkey w) -> 0 < ts -> fits64 ts ->
  exists m' recs, exec (ApplyCommitWrites t ts (w :: ws)) (s, m) = exec (ApplyCommitWrites t ts ws) (s, m') /\
    chain m' B (wkey w) None ((ts, v) :: h) recs /\ off (row_key (wkey w)) m m'.
Proof.
  intros [Hl Hh Hb (r' & rs' & [= <- <-] & (Hs0 & He0 & Hby & Hst) & Hc)] Hid Hk Hts Hfit.
  cbn [first_id] in *. cbn [ApplyCommitWrites]. fold_wkey w. kv_step. pose proof Hl as (_ & Hlt & Hr & Hm & Hl'). rewrite Hid.
  rewrite (exec_GetVersion s m (wkey w) (vr_id r) r) by done. rewrite Hby, Z.eqb_refl. cbn [negb].
  unfold is_provisional. rewrite Hs0. cbn [Z.eqb negb]. kv_step.
  destruct (exec_close_prev s m w ts h (vr_prev_id r) rs Hl' Hc Hk Hts Hfit) as (m1 & rs1 & E1 & Hl1 & Hc1 & Ho1).
  rewrite E1. kv_step. rewrite (exec_PutVersionValue s m1 (wkey w)). cbn [with_start_ts vr_id].
  exists (<[vkey (wkey w) (vr_id r) := VersionRecord_Encode (with_start_ts ts r)]> m1), (with_start_ts ts r :: rs1).
  split; [done|]. assert (Hl2 : links m1 (wkey w) (vr_id r) (r :: rs1)).
  { cbn [links]. split; [done|]. split; [done|]. split; [done|]. split; [|done]. rewrite Ho1; [done|].
    intros (i & Hi & Hle & E). apply vkey_inj in E as [_ E]; [lia|done..|apply Hr|done]. }
  split; [|].
  - split; cbn [first_id].
    + apply (links_rewrite m1 (wkey w) (vr_id r) r); [done..|by apply record_ok_start|done].
    + unfold head_rep in *. rewrite lookup_insert_ne by apply vkey_ne_hkey. rewrite Ho1; [done|].
      intros (i & _ & _ & E). symmetry in E. by apply vkey_ne_hkey in E.
    + done.
    + cbn. split; [done|]. split; [done|]. split; [done|]. split; [by apply stores_start|done].
  - eapply off_trans; [eapply off_weaken; [|exact Ho1]|apply off_insert].
    + intros K (i & Hi & _ & ->). right. eauto.
    + right. exists (vr_id r). split; [apply Hr|done].
Qed.

(** Restoring the head above which a write installed its version. *)
Lemma exec_restore_one {S} (s : S) m B w ws t v h r rs : chain m B (wkey w) (Some (t, v)) h (r :: rs) ->
  tw_version_id w = vr_id r -> key_ok (wkey w) ->
  exists m', exec (restore_loop (w :: ws)) (s, m) = exec (restore_loop ws) (s, m') /\
    chain m' B (wkey w) None h rs /\ off (row_key (wkey w)) m m'.
Proof.
  intros Hch Hid Hk. pose proof (chain_remove _ _ _ _ _ _ _ _ Hch Hk) as Hch'. destruct Hch as [Hl Hh Hb _].
  cbn [first_id] in *. cbn [restore_loop]. fold_wkey w. kv_step. unfold head_rep in Hh.
  pose proof Hl as (_ & _ & Hr & Hm & _).
  rewrite (exec_GetLatest s m (wkey w) (vr_id r)) by (done || apply Hr). rewrite Hid, Z.eqb_refl. cbn [negb].
  kv_step. rewrite (exec_GetVersion s m (wkey w) (vr_id r) r) by done. kv_step.
  eexists. split; [|split; [exact Hch'|]].
  - destruct (vr_prev_id r =? 0); [by rewrite (exec_ClearHead s m (wkey w))|by rewrite (exec_SetHead s m (wkey w))].
  - destruct (vr_prev_id r =? 0); [apply off_delete|apply off_insert]; by left.
Qed.

(** A store has one head per row. *)
Lemma chain_head_id m B B' k p p' h h' r rs r' rs' : chain m B k p h (r :: rs) -> chain m B' k p' h' (r' :: rs') ->
  vr_id r = vr_id r'.
Proof.
  intros [Hl Hh _ _] [Hl' Hh' _ _]. unfold head_rep in *. rewrite Hh in Hh'.
  assert (E : PutFixed64 [] (vr_id r) = PutFixed64 [] (vr_id r')) by congruence.
  unfold PutFixed64 in E. rewrite !app_nil_l in E. apply links_fits in Hl, Hl'.
  pose proof (GetFixed64_put (vr_id r) [] Hl) as E1. rewrite E, GetFixed64_put in E1 by done. congruence.
Qed.
