(* ===== verification/TxnRefine.v ===== *)
(** The relational layer implements snapshot isolation: any interleaving of
    transactions, run on a store that behaves like a map, gets the replies of the
    abstract machine of [SnapIso]. *)
From S2P Require Import Prelude Status Slice Encoding Env Types Schema Row Kv Mvcc.
From S2P Require Import Catalog Database Txn SnapIso TxnRep.

(** * The system: a database and the live transaction objects *)

Record Sys := mkSys { sys_db : Database; sys_txns : gmap Z Transaction }.
Definition Sys_new : Sys := mkSys Database_new ∅.

Definition reply {A} (f : A -> TReply) (r : Status + A) : TReply :=
  match r with inl e => RCode (code_ e) | inr a => f a end.
Definition done_reply (_ : unit) : TReply := RCode kOk.

(** A call on the transaction object [t]; there is no such call before it was begun. *)
Definition with_txn {A} (t : Z) (m : TxM A) (f : A -> TReply) : KM Sys TReply := fun s =>
  match sys_txns s !! t with
  | None => KRet (Stuck, s)
  | Some tr =>
    kzoom (fun s => (sys_db s, tr)) (fun dt s => mkSys dt.1 (<[t := dt.2]> (sys_txns s)))
      (r ← ktry m; mret (reply f r)) s
  end.

Definition sys_step (op : TOp) : KM Sys TReply :=
  let on_sys {A} (m : RelM A) := kzoom sys_db (fun d s => mkSys d (sys_txns s)) m in
  match op with
  | TCreate schema => r ← ktry (on_sys (Database_CreateTable schema)); mret (reply done_reply r)
  | TBegin =>
    r ← ktry (on_sys Begin);
    match r with
    | inl e => mret (RCode (code_ e))
    | inr tr => kmodify (fun s => mkSys (sys_db s) (<[txn_id_ tr := tr]> (sys_txns s))) ;; mret (RTxn (txn_id_ tr))
    end
  | TInsert t table row => with_txn t (Transaction_Insert table row) done_reply
  | TUpdate t table row => with_txn t (Transaction_Update table row) done_reply
  | TDelete t table pk => with_txn t (Transaction_Delete table pk) done_reply
  | TGet t table pk => with_txn t (Transaction_Get table pk) RRow
  | TCommit t => with_txn t Transaction_Commit done_reply
  | TAbort t => with_txn t Transaction_Abort done_reply
  end.

Fixpoint sys_run (ops : list TOp) : KM Sys (list TReply) :=
  match ops with
  | [] => mret []
  | op :: ops => r ← sys_step op; rs ← sys_run ops; mret (r :: rs)
  end.

(** * Representation *)

Record tables_rep (T : gmap bytes TableSchema) (c : Catalog) (m : gmap bytes bytes) : Prop := {
  tr_store : forall n, m !! TableKey n = Schema_Encode <$> T !! n;
  tr_fits : forall n s, T !! n = Some s -> schema_fits s;
  tr_cache : forall n s, c !! n = Some s -> T !! n = Some s
}.

(** The write [w] of transaction [t] is on top of its row. *)
Definition holds (a : SI) (m : gmap bytes bytes) (B t : Z) (w : TxnWrite) : Prop :=
  key_ok (wkey w) /\ exists v r rs, si_prov a (wkey w) = Some (t, v) /\
    chain m B (wkey w) (Some (t, v)) (si_hist a (wkey w)) (r :: rs) /\ tw_version_id w = vr_id r.

Record writes_rep (a : SI) (m : gmap bytes bytes) (N B t : Z) (ws : list TxnWrite) : Prop := {
  wr_nodup : NoDup (map wkey ws);
  wr_holds : forall w, w ∈ ws -> holds a m B t w;
  wr_all : forall k v, si_prov a k = Some (t, v) -> k ∈ map wkey ws;
  wr_count : Z.of_nat (length ws) + N < 2 ^ 32
}.

(** An open transaction object. *)
Record open_rep (a : SI) (m : gmap bytes bytes) (N B t start : Z) (tr : Transaction) : Prop := {
  or_finished : finished_ tr = false;
  or_start : start_ts_ tr = start;
  or_writes : writes_rep a m N B t (written_ tr);
  or_meta : m !! TxnKey t = Some (EncodeTxnMeta (mkTxnMeta kOpen 0 (written_ tr)))
}.

(** The registry knows how a finished transaction ended. *)
Definition ended (m : gmap bytes bytes) (t : Z) : Prop :=
  exists meta, m !! TxnKey t = Some (EncodeTxnMeta meta) /\ meta_ok meta /\
    (tm_state meta = kCommitted \/ tm_state meta = kAborted).

(** The counters are in the store. *)
Definition oracles_rep (d : Database) (m : gmap bytes bytes) : Prop :=
  forall K, oracle_key K -> m !! K = with_oracles d ∅ !! K.

(** [K] is the head key of a row of a table. *)
Definition head_of (T : gmap bytes TableSchema) (k : Key) (K : bytes) : Prop := key_ok k /\ is_Some (T !! k.1) /\ K = hkey k.
(** The store has no other keys under [d/]. *)
Definition heads (T : gmap bytes TableSchema) (m : gmap bytes bytes) : Prop :=
  forall K, take 2 K = lit "d/" -> (forall k, ~ head_of T k K) -> m !! K = None.

Lemma heads_frame T T' m m' P : heads T m -> T ⊆ T' -> off P m m' ->
  (forall K, P K -> take 2 K = lit "d/" -> exists k, head_of T' k K) -> heads T' m'.
Proof.
  intros Hh HT Hoff HP K H2 Hno. rewrite Hoff.
  - apply Hh; [done|]. intros k (Hk & [s Es] & ->). apply (Hno k). split; [done|]. split; [|done].
    exists s. by eapply lookup_weaken.
  - intros H. destruct (HP K H H2) as [k Hk]. by apply (Hno k).
Qed.

(** Keys of the other key spaces. *)
Lemma vkey_not_head k i : take 2 (vkey k i) <> lit "d/". Proof. discriminate. Qed.
Lemma txn_not_head t : take 2 (TxnKey t) <> lit "d/". Proof. discriminate. Qed.
Lemma table_not_head n : take 2 (TableKey n) <> lit "d/". Proof. discriminate. Qed.
Lemma oracle_not_head K : oracle_key K -> take 2 K <> lit "d/". Proof. intros [-> | [-> | ->]]; discriminate. Qed.
Lemma row_key_head T k K : key_ok k -> is_Some (T !! k.1) -> row_key k K -> take 2 K = lit "d/" -> exists k, head_of T k K.
Proof. intros Hk HT [->|(i & _ & ->)] H; [by exists k|by apply vkey_not_head in H]. Qed.

Section Live.
(** The ids of the transactions begun since the database was opened start at [first]. *)
Context (first : Z) (first_pos : 0 < first).

(** A transaction object of this run that is finished. *)
Definition finished_rep (s : Sys) (t : Z) : Prop :=
  first <= t -> exists tr, sys_txns s !! t = Some tr /\ txn_id_ tr = t /\ finished_ tr = true.

(** [N] operations can still run before a counter would wrap. *)
Record sys_rep (N : Z) (a : SI) (s : Sys) (m : gmap bytes bytes) : Prop := {
  sr_inv : si_inv a;
  sr_ts : next_ts_ (sys_db s) = si_last a + 1;
  sr_txn : next_txn_id_ (sys_db s) = si_next_txn a;
  sr_room : N < 2 ^ 32 /\ si_last a + N + 2 < 2 ^ 64 /\ si_next_txn a + N + 1 < 2 ^ 64 /\
    0 < next_version_id_ (sys_db s) /\ next_version_id_ (sys_db s) + N + 1 < 2 ^ 64;
  sr_count : open_txn_count_ (sys_db s) = Z.of_nat (size (si_open a));
  sr_ddl : ddl_in_progress_ (sys_db s) = false;
  sr_tables : tables_rep (si_tables a) (catalog_ (sys_db s)) m;
  sr_rows : forall k, key_ok k ->
    exists recs, chain m (next_version_id_ (sys_db s)) k (si_prov a k) (si_hist a k) recs;
  sr_keys : forall k t v, si_prov a k = Some (t, v) -> key_ok k /\ is_Some (si_tables a !! k.1);
  sr_txns : forall t, 0 < t < si_next_txn a ->
    match si_open a !! t with
    | Some start => exists tr, sys_txns s !! t = Some tr /\ txn_id_ tr = t /\
        open_rep a m N (next_version_id_ (sys_db s)) t start tr
    | None => ended m t /\ finished_rep s t
    end;
  sr_oracles : oracles_rep (sys_db s) m;
  sr_heads : heads (si_tables a) m
}.

Lemma oracles_with d m : oracles_rep d (with_oracles d m).
Proof. intros K [-> | [-> | ->]]; unfold with_oracles; by rewrite !lookup_insert. Qed.
Lemma oracles_frame d d' m m' P : oracles_rep d m -> off P m m' -> (forall K, oracle_key K -> ~ P K) ->
  next_ts_ d' = next_ts_ d -> next_txn_id_ d' = next_txn_id_ d -> next_version_id_ d' = next_version_id_ d ->
  oracles_rep d' m'.
Proof. intros Ho Hoff HP E1 E2 E3 K HK. rewrite Hoff, Ho by auto. unfold with_oracles. by rewrite E1, E2, E3. Qed.
Lemma ended_frame m m' t : ended m t -> m' !! TxnKey t = m !! TxnKey t -> ended m' t.
Proof. intros (meta & E & H) Em. exists meta. by rewrite Em. Qed.
Lemma ended_now m t meta : meta_ok meta -> tm_state meta = kCommitted \/ tm_state meta = kAborted ->
  m !! TxnKey t = Some (EncodeTxnMeta meta) -> ended m t.
Proof. intros H1 H2 H3. by exists meta. Qed.

(** ** Frames *)

Lemma tables_rep_frame T c m m' P : tables_rep T c m -> off P m m' -> (forall n, ~ P (TableKey n)) -> tables_rep T c m'.
Proof. intros [H1 H2 H3] Ho HP. split; [|done..]. intros n. by rewrite Ho. Qed.

Lemma holds_frame a m m' B B' t w : holds a m B t w -> same_row B (wkey w) m m' -> B <= B' -> holds a m' B' t w.
Proof.
  intros (Hk & v & r & rs & Hp & Hc & Hid) Hs HB. split; [done|]. exists v, r, rs.
  split; [done|]. split; [|done]. by eapply chain_frame.
Qed.

Lemma holds_fits a m B t w : holds a m B t w -> write_fits w.
Proof.
  intros ([H1 H2 H3] & v & r & rs & _ & [Hl _ _ _] & Hid). split; try done. rewrite Hid. by eapply links_fits.
Qed.

Lemma open_meta_ok a m N B t ws : 0 <= N -> writes_rep a m N B t ws -> meta_ok (mkTxnMeta kOpen 0 ws).
Proof.
  intros HN [H1 H2 H3 H4]. split; cbn; [done|unfold fits64; lia| |lia]. apply Forall_forall. intros w Hw.
  eapply holds_fits. by apply H2.
Qed.

(** ** Facts about the represented state *)

Lemma sr_open {N a s m} t start : sys_rep N a s m -> si_open a !! t = Some start ->
  exists tr, sys_txns s !! t = Some tr /\ txn_id_ tr = t /\ open_rep a m N (next_version_id_ (sys_db s)) t start tr.
Proof.
  intros Hs Ho. destruct (sv_open _ (sr_inv _ _ _ _ Hs) _ _ Ho) as [_ Ht].
  pose proof (sr_txns _ _ _ _ Hs t Ht) as Hrep. by rewrite Ho in Hrep.
Qed.

(** The holder of a row is registered as open. *)
Lemma sr_prov_meta {N a s m} k t v : 0 <= N -> sys_rep N a s m -> si_prov a k = Some (t, v) ->
  exists meta, m !! TxnKey t = Some (EncodeTxnMeta meta) /\ meta_ok meta /\ tm_state meta = kOpen.
Proof.
  intros HN Hs Hp. destruct (sv_prov _ (sr_inv _ _ _ _ Hs) _ _ _ Hp) as (start & Ho & _).
  destruct (sr_open t start Hs Ho) as (tr & _ & _ & [_ _ Hw Hm]).
  exists (mkTxnMeta kOpen 0 (written_ tr)). split; [done|]. split; [by eapply open_meta_ok|done].
Qed.

Lemma sr_bounds {N a s m} : sys_rep N a s m -> 0 <= si_last a /\ 0 < si_next_txn a.
Proof. intros Hs. destruct (sr_inv _ _ _ _ Hs). done. Qed.

(** Less room is left. *)
Lemma sys_rep_less N N' a s m : N' <= N -> sys_rep N a s m -> sys_rep N' a s m.
Proof.
  intros HN [H1 H2 H3 H4 H5 H6 H7 H8 H9 H10 H11 H12]. split; try done; [lia|].
  intros t Ht. specialize (H10 t Ht). destruct (si_open a !! t); [|done].
  destruct H10 as (tr & E & Hid & [K1 K2 [W1 W2 W3 W4] K4]). exists tr. split; [done|]. split; [done|].
  split; try done. split; try done. lia.
Qed.

(** Filling the catalog cache changes nothing else. *)
Lemma sys_rep_catalog N a s m c : sys_rep N a s m -> tables_rep (si_tables a) c m ->
  sys_rep N a (mkSys (with_catalog c (sys_db s)) (sys_txns s)) m.
Proof. intros [H1 H2 H3 H4 H5 H6 H7 H8 H9 H10 H11 H12] Hc. by split. Qed.

(** What a lookup of a table answers. *)
Definition table_answer (T : gmap bytes TableSchema) (name : bytes) (res : Res TableSchema) : Prop :=
  match T !! name with
  | Some schema => res = Ret schema
  | None => exists msg, res = Fail (NotFound msg)
  end.

Lemma exec_Catalog_GetTable T c m name : tables_rep T c m ->
  exists res c', exec (Catalog_GetTable name) (c, m) = (res, (c', m)) /\ tables_rep T c' m /\ table_answer T name res.
Proof.
  intros HT. pose proof HT as [H1 H2 H3]. unfold Catalog_GetTable, not_found_as, LookupCache, table_answer. kv_step.
  destruct (c !! name) as [schema|] eqn:Ec; kv_step.
  - exists (Ret schema), c. split; [done|]. split; [done|]. by rewrite (H3 _ _ Ec).
  - unfold map_get. rewrite H1. destruct (T !! name) as [schema|] eqn:ET; cbn [fmap option_fmap option_map res_of_sum].
    + kv_step. rewrite Schema_Decode_Encode by eauto. kv_step. eexists _, _. split; [reflexivity|]. split; [|done].
      split; [done..|]. intros n s. rewrite lookup_insert_Some. intros [[<- <-]|[_ H]]; [done|auto].
    + change (IsNotFound (NotFound [])) with true. cbn iota. rewrite exec_fail. eexists _, c.
      split; [reflexivity|]. split; [done|]. eauto.
Qed.

Lemma exec_GetTable T d m name : tables_rep T (catalog_ d) m ->
  exists res c, exec (Database_GetTable name) (d, m) = (res, (with_catalog c d, m)) /\ tables_rep T c m /\
    table_answer T name res.
Proof.
  intros HT. destruct (exec_Catalog_GetTable T (catalog_ d) m name HT) as (res & c & E & Hc & Ha).
  unfold Database_GetTable. kv_step. unfold LookupCache, id. destruct (catalog_ d !! name) as [schema|] eqn:Ec.
  - rewrite exec_ret. exists (Ret schema), (catalog_ d). split; [by destruct d|]. split; [done|].
    unfold table_answer. by rewrite (tr_cache _ _ _ HT _ _ Ec).
  - unfold on_catalog. rewrite exec_zoom, E. eauto.
Qed.

(** ** A provisional value changes *)

(** What a write of transaction [t] to row [k] may touch. *)
Definition write_keys (t : Z) (k : Key) (K : bytes) : Prop := row_key k K \/ K = TxnKey t \/ oracle_key K.

Lemma write_keys_row t k k' K : key_ok k -> key_ok k' -> k' <> k -> row_key k' K -> ~ write_keys t k K.
Proof.
  intros Hk Hk' Hne HK [H|[H|H]].
  - apply Hne. symmetry. by eapply row_key_inj.
  - by eapply row_key_not_txn.
  - by eapply row_key_not_oracle.
Qed.
Lemma write_keys_table t k n : ~ write_keys t k (TableKey n).
Proof.
  intros [H|[H|H]]; [by eapply row_key_not_table| |by apply table_not_oracle in H].
  symmetry in H. by apply txn_ne_table in H.
Qed.
Lemma write_keys_txn t k t' : fits64 t -> fits64 t' -> t' <> t -> ~ write_keys t k (TxnKey t').
Proof.
  intros Ht Ht' Hne [H|[H|H]]; [by eapply row_key_not_txn| |by apply txn_not_oracle in H].
  apply TxnKey_inj in H; done.
Qed.

(** The counters other than the version ids. *)
Definition same_db (d d' : Database) : Prop :=
  next_ts_ d' = next_ts_ d /\ next_txn_id_ d' = next_txn_id_ d /\ open_txn_count_ d' = open_txn_count_ d /\
  ddl_in_progress_ d' = ddl_in_progress_ d /\ catalog_ d' = catalog_ d.

Lemma sr_txn_fits {N a s m} t : 0 <= N -> sys_rep N a s m -> 0 < t < si_next_txn a -> fits64 t.
Proof. intros HN Hs Ht. pose proof (sr_room _ _ _ _ Hs). unfold fits64. lia. Qed.

Lemma sys_rep_set_prov N a d txns m t start k v recs d' tr' m' :
  0 <= N -> sys_rep (N + 1) a (mkSys d txns) m -> si_open a !! t = Some start -> key_ok k ->
  is_Some (si_tables a !! k.1) -> (forall t' v', si_prov a k = Some (t', v') -> t' = t) -> si_inv (set_prov k (Some (t, v)) a) ->
  same_db d d' -> next_version_id_ d <= next_version_id_ d' <= next_version_id_ d + 1 ->
  off (write_keys t k) m m' -> chain m' (next_version_id_ d') k (Some (t, v)) (si_hist a k) recs ->
  txn_id_ tr' = t -> open_rep (set_prov k (Some (t, v)) a) m' N (next_version_id_ d') t start tr' ->
  oracles_rep d' m' ->
  sys_rep N (set_prov k (Some (t, v)) a) (mkSys d' (<[t := tr']> txns)) m'.
Proof.
  intros HN Hs Ho Hk HTk Hown Hinv (D1 & D2 & D3 & D4 & D5) HB Hoff Hch Hid Hopen Hor.
  pose proof Hs as [H1 H2 H3 H4 H5 H6 H7 H8 H9 H10 H11 H12]. cbn [sys_db sys_txns] in *.
  assert (Hrow : forall k', key_ok k' -> k' <> k -> same_row (next_version_id_ d) k' m m').
  { intros k' Hk' Hne. eapply off_same_row; [exact Hoff|]. intros K HK. by eapply write_keys_row. }
  split; cbn [sys_db sys_txns set_prov si_last si_next_txn si_open si_tables si_hist si_prov]; try done.
  - by rewrite D1.
  - by rewrite D2.
  - lia.
  - by rewrite D3.
  - by rewrite D4.
  - rewrite D5. eapply tables_rep_frame; [done|exact Hoff|]. intros n. apply write_keys_table.
  - intros k' Hk'. unfold fupd. destruct (decide (k' = k)) as [->|Hne]; [eauto|].
    destruct (H8 k' Hk') as [recs' Hc]. exists recs'. eapply chain_frame; [exact Hc|by apply Hrow|lia].
  - intros k' t' v'. unfold fupd. destruct (decide (k' = k)) as [->|]; [done|apply H9].
  - intros t' Ht'. destruct (decide (t' = t)) as [->|Hne].
    { rewrite Ho. exists tr'. by rewrite lookup_insert_eq. }
    specialize (H10 t' Ht').
    assert (Et' : m' !! TxnKey t' = m !! TxnKey t').
    { destruct (sv_open _ H1 _ _ Ho) as [_ Ht]. apply Hoff, write_keys_txn; [..|done];
        by eapply (sr_txn_fits (N := N + 1)); [lia|exact Hs|]. }
    destruct (si_open a !! t') as [start'|]; [|destruct H10 as [He Hf]; split; [by eapply ended_frame|]].
    2: { unfold finished_rep. cbn. by rewrite lookup_insert_ne. }
    destruct H10 as (tr & E & Htid & [K1 K2 [W1 W2 W3 W4] K4]). exists tr. rewrite lookup_insert_ne by done.
    split; [done|]. split; [done|]. split; [done|done| |by rewrite Et'].
    + split; [done| | |lia].
      * intros w Hw. pose proof (W2 w Hw) as Hh. destruct Hh as (Hkw & v' & r & rs & Hp & _).
        assert (wkey w <> k) as Hnk by (intros E'; rewrite E' in Hp; by apply Hne, (Hown _ _ Hp)).
        destruct (holds_frame a m m' _ (next_version_id_ d') t' w (W2 w Hw) (Hrow _ Hkw Hnk) ltac:(lia))
          as (_ & v'' & r'' & rs'' & Hp'' & Hc'' & Hi'').
        split; [done|]. exists v'', r'', rs''. cbn [set_prov si_prov si_hist]. unfold fupd.
        by rewrite decide_False.
      * intros k' v'. cbn [set_prov si_prov]. unfold fupd. destruct (decide (k' = k)) as [->|]; [|apply W3].
        intros [= E' _]. by destruct Hne.
  - eapply heads_frame; [exact H12|done|exact Hoff|]. intros K [H|[-> | H]] Hd; [by eapply row_key_head|by apply txn_not_head in Hd|].
    by apply oracle_not_head in H.
Qed.

(** The transaction rewrites a value it holds: its list of writes stays. *)
Lemma writes_rep_rewrite N a m m' B t ws k v v' r r' rs rs' : writes_rep a m (N + 1) B t ws ->
  chain m B k (Some (t, v)) (si_hist a k) (r :: rs) -> chain m' B k (Some (t, v')) (si_hist a k) (r' :: rs') ->
  si_prov a k = Some (t, v) -> vr_id r' = vr_id r -> off (row_key k) m m' -> key_ok k ->
  writes_rep (set_prov k (Some (t, v')) a) m' N B t ws.
Proof.
  intros [W1 W2 W3 W4] Hc Hc' Hp Hid Hoff Hk. split; [done| | |lia].
  - intros w Hw. pose proof (W2 w Hw) as Hh. destruct Hh as (Hkw & v0 & r0 & rs0 & Hp0 & Hc0 & Hi0).
    split; [done|]. cbn [set_prov si_prov si_hist]. unfold fupd. destruct (decide (wkey w = k)) as [Ek|Hne].
    + rewrite Ek in *. exists v', r', rs'. split; [done|]. split; [done|].
      rewrite Hi0, Hid. by eapply chain_head_id.
    + exists v0, r0, rs0. split; [done|]. split; [|done]. eapply chain_frame; [exact Hc0| |lia].
      eapply off_same_row; [exact Hoff|]. intros K H1 H2. apply Hne. by eapply row_key_inj.
  - intros k' v0. cbn [set_prov si_prov]. unfold fupd. destruct (decide (k' = k)) as [->|]; [|apply W3].
    intros _. by eapply W3.
Qed.

(** The transaction takes a new row. *)
Lemma writes_rep_install N a m m' B t ws w v r rs : writes_rep a m (N + 1) B t ws ->
  si_prov a (wkey w) = None -> key_ok (wkey w) ->
  chain m' (B + 1) (wkey w) (Some (t, v)) (si_hist a (wkey w)) (r :: rs) -> tw_version_id w = vr_id r ->
  off (write_keys t (wkey w)) m m' ->
  writes_rep (set_prov (wkey w) (Some (t, v)) a) m' N (B + 1) t (ws ++ [w]).
Proof.
  intros [W1 W2 W3 W4] Hp Hk Hc Hid Hoff.
  assert (Hnin : forall w', w' ∈ ws -> wkey w' <> wkey w).
  { intros w' Hw' E. destruct (W2 w' Hw') as (_ & v0 & r0 & rs0 & Hp0 & _). rewrite E, Hp in Hp0. done. }
  split.
  - rewrite map_app. apply NoDup_app. split; [done|]. split; [|apply NoDup_singleton].
    intros k (w' & -> & Hw')%list_elem_of_fmap H. apply list_elem_of_singleton in H. by apply (Hnin w').
  - intros w' [Hw'|Hw']%elem_of_app.
    + destruct (W2 w' Hw') as (Hkw & v0 & r0 & rs0 & Hp0 & Hc0 & Hi0). split; [done|].
      exists v0, r0, rs0. cbn [set_prov si_prov si_hist]. unfold fupd. rewrite decide_False by auto.
      split; [done|]. split; [|done]. eapply chain_frame; [exact Hc0| |lia].
      eapply off_same_row; [exact Hoff|]. intros K HK. eapply (write_keys_row t (wkey w) (wkey w')); auto.
    + apply list_elem_of_singleton in Hw' as ->. split; [done|]. exists v, r, rs.
      cbn [set_prov si_prov si_hist]. unfold fupd. by rewrite decide_True.
  - intros k v0. cbn [set_prov si_prov]. unfold fupd. rewrite map_app, elem_of_app. destruct (decide (k = wkey w)) as [->|].
    + right. by apply list_elem_of_singleton.
    + intros H. left. by eapply W3.
  - rewrite length_app. cbn [length]. lia.
Qed.

(** * Writing a row *)

(** The code of an answer; a failure never carries the code of success. *)
Definition code_of {A} (r : Res A) : option Code :=
  match r with Ret _ => Some kOk | Fail e => if decide (code_ e = kOk) then None else Some (code_ e) | Stuck => None end.

Definition is_delete (w : SnapIso.Write) : bool := match w with WDelete => true | _ => false end.
Definition is_insert (w : SnapIso.Write) : bool := match w with WInsert => true | _ => false end.
(** The value a write stores: an encodable row, or nothing for a delete. *)
Definition write_val_ok (w : SnapIso.Write) (v : Val) : Prop :=
  match w with
  | WDelete => v = None
  | _ => exists r, v = Some r /\ row_ok r /\ len32 (Row_Encode r)
  end.

Definition payload_of (v : Val) : bytes := match v with Some r => Row_Encode r | None => [] end.

Lemma exec_write_payload w v s m : write_val_ok w v ->
  exec (write_payload (is_delete w) v) (s, m) = (Ret (payload_of v), (s, m)).
Proof.
  unfold write_payload. destruct w; cbn [write_val_ok is_delete]; [intros (r & -> & _)..|intros ->];
    kv_step; cbn [deref]; kv_step; done.
Qed.

Lemma payload_len w v : write_val_ok w v -> len32 (payload_of v).
Proof. destruct w; cbn; [intros (r & -> & _ & ?)..|intros ->]; done. Qed.

Lemma stores_write w v r : write_val_ok w v -> vr_is_tombstone r = is_delete w -> vr_payload r = payload_of v -> stores v r.
Proof. destruct w; cbn; [intros (x & -> & ? & _)..|intros ->]; intros; cbn; done. Qed.

Lemma find_wrote k ws : match List.find (wrote k.1 k.2) ws with
  | Some w => w ∈ ws /\ wkey w = k
  | None => k ∉ map wkey ws
  end.
Proof.
  induction ws as [|w ws IH]; cbn [List.find map]; [apply not_elem_of_nil|].
  unfold wrote at 1. destruct (bool_decide_reflect (tw_table w = k.1)) as [E1|E1]; cbn [andb].
  - destruct (Value_eqb (tw_pk w) k.2) eqn:E2.
    + apply Value_eqb_spec in E2. split; [apply elem_of_cons; by left|]. destruct k. unfold wkey. cbn in *. congruence.
    + assert (k <> wkey w) by (intros ->; rewrite (proj2 (Value_eqb_spec _ _) eq_refl) in E2; done).
      destruct (List.find _ ws); [destruct IH; split; [by apply elem_of_cons; right|done]|by apply not_elem_of_cons].
  - assert (k <> wkey w) by (intros ->; done).
    destruct (List.find _ ws); [destruct IH; split; [by apply elem_of_cons; right|done]|by apply not_elem_of_cons].
Qed.

Lemma exec_post_incr get set d m : exec (post_incr get set) (d, m) = (Ret (get d), (set (u64 (get d + 1)) d, m)).
Proof. done. Qed.

(** The record a new write installs. *)
Definition new_record (vid prev t : Z) (w : SnapIso.Write) (v : Val) : VersionRecord :=
  mkVersionRecord vid 0 0 prev t (is_delete w) (payload_of v).

Lemma exec_install_new k prev w v d tr m : write_val_ok w v ->
  let vid := next_version_id_ d in
  let d' := with_next_vid (u64 (vid + 1)) d in
  let tr' := with_write (mkTxnWrite k.1 k.2 vid) tr in
  exec (install_new k.1 k.2 prev (is_delete w) v) ((d, tr), m) =
    (Ret tt, ((d', tr'), <[TxnKey (txn_id_ tr) := EncodeTxnMeta (mkTxnMeta kOpen 0 (written_ tr'))]>
      (<[hkey k := PutFixed64 [] vid]>
        (<[vkey k vid := VersionRecord_Encode (new_record vid prev (txn_id_ tr) w v)]> (with_oracles d' m))))).
Proof.
  intros Hv vid d' tr'. unfold install_new, the_txn. kv_step. unfold on_db. rewrite exec_zoom, exec_post_incr.
  cbn [fst snd]. kv_step. rewrite exec_zoom. cbn [fst snd]. rewrite exec_PersistOracles. cbn [fst snd]. kv_step.
  rewrite exec_write_payload by done. kv_step. rewrite (exec_PutVersion _ _ k). kv_step. rewrite exec_PutTxnMeta. done.
Qed.

(** A held row is rewritten in place. *)
Lemma write_own N a d txns m t start tr k w v own : 0 <= N -> sys_rep (N + 1) a (mkSys d txns) m ->
  si_open a !! t = Some start -> txns !! t = Some tr -> key_ok k -> is_Some (si_tables a !! k.1) -> write_val_ok w v ->
  si_prov a k = Some (t, own) ->
  exists res m', exec (Transaction_Write k.1 k.2 (is_delete w) v (is_insert w)) ((d, tr), m) = (res, ((d, tr), m')) /\
    code_of res = Some (si_write t start k w v a).1 /\
    sys_rep N (si_write t start k w v a).2 (mkSys d (<[t := tr]> txns)) m'.
Proof.
  intros HN Hs Ho Et Hk HTk Hv Hp. destruct (sr_open t start Hs Ho) as (tr0 & E0 & Hid & Hopen). cbn in E0.
  rewrite Et in E0. injection E0 as <-. pose proof Hopen as [K1 K2 Hw K4].
  unfold Transaction_Write, the_txn. kv_step. rewrite K1. pose proof (find_wrote k (written_ tr)) as Hf.
  destruct (List.find _ (written_ tr)) as [w0|]; [|by destruct Hf; apply (wr_all _ _ _ _ _ _ Hw k own)].
  destruct Hf as [Hin <-]. destruct (wr_holds _ _ _ _ _ _ Hw w0 Hin) as (_ & v0 & r & rs & Hp0 & Hc & Hvid).
  rewrite Hp in Hp0. injection Hp0 as <-. pose proof Hc as [Hl _ _ (r' & rs' & [= <- <-] & (P1 & P2 & P3 & P4) & Hcm)].
  cbn [first_id links] in Hl. destruct Hl as (_ & Hlt & Hr & Hm & _).
  unfold rewrite_own. kv_step. rewrite Hvid, (exec_GetVersion _ m (wkey w0) (vr_id r) r) by done. kv_step.
  unfold si_write. rewrite Hp, Z.eqb_refl.
  assert (Hsame : sys_rep N a (mkSys d (<[t := tr]> txns)) m) by (rewrite insert_id by done; eapply sys_rep_less; [|exact Hs]; lia).
  assert (Htomb : vr_is_tombstone r = match own with Some _ => false | None => true end)
    by (destruct own; [by destruct P4|done]).
  rewrite Htomb. destruct (is_insert w && negb _) eqn:Ei.
  { destruct w, own; try done. kv_step. by eexists _, m. }
  kv_step. destruct (is_delete w && _) eqn:Ed.
  { destruct w, own; try done. kv_step. by eexists _, m. }
  kv_step. rewrite exec_write_payload by done. rewrite (exec_PutVersionValue _ m (wkey w0)). cbn [with_payload vr_id].
  eexists _, _. split; [reflexivity|].
  assert ((match w with
           | WInsert => match own with Some _ => (kInvalidArgument, a) | None => (kOk, set_prov (wkey w0) (Some (t, v)) a) end
           | WDelete => match own with Some _ => (kOk, set_prov (wkey w0) (Some (t, v)) a) | None => (kNotFound, a) end
           | WUpdate => (kOk, set_prov (wkey w0) (Some (t, v)) a) end) = (kOk, set_prov (wkey w0) (Some (t, v)) a)) as ->
    by (destruct w, own; done).
  split; [done|]. cbn [snd]. set (r1 := with_payload (is_delete w) (payload_of v) r).
  assert (Hr1 : record_ok r1) by (destruct Hr; split; cbn; try done; by eapply payload_len).
  assert (Hc1 : chain (<[vkey (wkey w0) (vr_id r) := VersionRecord_Encode r1]> m) (next_version_id_ d) (wkey w0)
    (Some (t, v)) (si_hist a (wkey w0)) (r1 :: rs)).
  { eapply chain_rewrite_head; try done. split; [|done]. split; [done|]. split; [done|]. split; [done|].
    by eapply stores_write. }
  assert (Hoff : off (row_key (wkey w0)) m (<[vkey (wkey w0) (vr_id r) := VersionRecord_Encode r1]> m)).
  { apply off_insert. right. exists (vr_id r). split; [apply Hr|done]. }
  eapply sys_rep_set_prov; try done.
  - intros t' v'. rewrite Hp. by intros [= <-].
  - destruct (sv_prov _ (sr_inv _ _ _ _ Hs) _ _ _ Hp) as (s' & Ho' & Hf). rewrite Ho in Ho'. injection Ho' as <-.
    eapply si_inv_set_prov; [apply Hs|done..].
  - lia.
  - eapply off_weaken; [|exact Hoff]. by left.
  - split; [done|done| |].
    + eapply writes_rep_rewrite; [exact Hw|exact Hc|exact Hc1|done..].
    + rewrite Hoff; [done|]. intros H. by eapply row_key_not_txn.
  - eapply oracles_frame; [apply Hs|exact Hoff| |done..]. intros K HK H. by eapply row_key_not_oracle.
Qed.

(** No entry for the row in the list of writes. *)
Lemma find_free {a m N B t start tr} k : open_rep a m N B t start tr ->
  (forall v, si_prov a k <> Some (t, v)) -> List.find (wrote k.1 k.2) (written_ tr) = None.
Proof.
  intros [_ _ Hw _] Hno. pose proof (find_wrote k (written_ tr)) as Hf.
  destruct (List.find _ (written_ tr)) as [w0|]; [|done]. destruct Hf as [Hin <-].
  destruct (wr_holds _ _ _ _ _ _ Hw w0 Hin) as (_ & v0 & _ & _ & Hp & _). by destruct (Hno v0).
Qed.

(** A row held by another open transaction is refused. *)
Lemma write_held N a d txns m t start tr k w v t' own : 0 <= N -> sys_rep (N + 1) a (mkSys d txns) m ->
  si_open a !! t = Some start -> txns !! t = Some tr -> key_ok k ->
  si_prov a k = Some (t', own) -> t' <> t ->
  exists res, exec (Transaction_Write k.1 k.2 (is_delete w) v (is_insert w)) ((d, tr), m) = (res, ((d, tr), m)) /\
    code_of res = Some kConflict.
Proof.
  intros HN Hs Ho Et Hk Hp Hne. destruct (sr_open t start Hs Ho) as (tr0 & E0 & Hid & Hopen). cbn in E0.
  rewrite Et in E0. injection E0 as <-. unfold Transaction_Write, the_txn. kv_step.
  rewrite (or_finished _ _ _ _ _ _ _ Hopen). rewrite (find_free k Hopen) by (intros v'; rewrite Hp; congruence).
  destruct (sr_rows _ _ _ _ Hs k Hk) as (recs & Hc). rewrite Hp in Hc.
  pose proof Hc as [Hl Hh _ (r & rs & -> & (P1 & P2 & P3 & P4) & _)]. cbn [sys_db first_id] in *.
  pose proof Hl as (_ & _ & Hr & Hm & _). kv_step.
  rewrite (exec_GetLatest _ m k (vr_id r)) by (done || apply Hr). unfold check_head. kv_step.
  rewrite (exec_GetVersion _ m k (vr_id r) r) by done. unfold is_provisional. rewrite P1, P3. cbn [Z.eqb].
  destruct (sr_prov_meta (N := N + 1) k t' own ltac:(lia) Hs Hp) as (meta & Em & Hmok & Hst). kv_step.
  rewrite (exec_GetTxnMeta _ m t' meta) by done. rewrite decide_True by done. rewrite Hid.
  destruct (Z.eqb_spec t' t); [done|]. cbn [negb]. rewrite exec_fail. eexists. done.
Qed.

(** A free row is taken. *)
Lemma install_rep N a d txns m t start tr k w v recs : 0 <= N -> sys_rep (N + 1) a (mkSys d txns) m ->
  si_open a !! t = Some start -> txns !! t = Some tr -> key_ok k -> is_Some (si_tables a !! k.1) -> write_val_ok w v ->
  si_prov a k = None -> Forall (fun x => x.1 <= start) (si_hist a k) ->
  chain m (next_version_id_ d) k None (si_hist a k) recs ->
  exists d' tr' m', exec (install_new k.1 k.2 (first_id recs) (is_delete w) v) ((d, tr), m) = (Ret tt, ((d', tr'), m')) /\
    sys_rep N (set_prov k (Some (t, v)) a) (mkSys d' (<[t := tr']> txns)) m'.
Proof.
  intros HN Hs Ho Et Hk HTk Hv Hp Hf Hc. destruct (sr_open t start Hs Ho) as (tr0 & E0 & Hid & Hopen). cbn in E0.
  rewrite Et in E0. injection E0 as <-. pose proof Hopen as [K1 K2 Hw K4]. cbn [sys_db] in *.
  pose proof (sr_room _ _ _ _ Hs) as (_ & _ & _ & Hv0 & Hv1). cbn [sys_db] in *.
  rewrite exec_install_new by done. eexists _, _, _. split; [reflexivity|].
  set (B := next_version_id_ d) in *. assert (EB : u64 (B + 1) = B + 1) by (apply u64_small; lia).
  rewrite EB, Hid. set (r := new_record B (first_id recs) t w v). set (d' := with_next_vid (B + 1) d).
  set (tr' := with_write _ tr). set (m1 := <[hkey k := _]> _). set (m2 := <[TxnKey t := _]> m1).
  assert (HtN : 0 < t < si_next_txn a) by (apply (sv_open _ (sr_inv _ _ _ _ Hs) _ _ Ho)).
  assert (Ht64 : fits64 t) by (eapply (sr_txn_fits (N := N + 1)); [lia|exact Hs|done]).
  assert (HB64 : fits64 B) by (unfold fits64; lia).
  assert (Hc0 : chain (with_oracles d' m) B k None (si_hist a k) recs).
  { eapply chain_frame; [exact Hc| |lia]. eapply off_same_row; [by apply (off_oracles oracle_key)|]. apply row_key_not_oracle. }
  pose proof Hc as [Hl _ Hb _]. pose proof (links_fits _ _ _ _ Hl) as Hpf.
  assert (Hr : record_ok r) by (split; cbn; try done; [unfold fits64; lia..|by eapply payload_len]).
  assert (Hc1 : chain m1 (B + 1) k (Some (t, v)) (si_hist a k) (r :: recs)).
  { apply chain_install; try done. split; [done|]. split; [done|]. split; [done|]. by eapply stores_write. }
  assert (Hc2 : chain m2 (B + 1) k (Some (t, v)) (si_hist a k) (r :: recs)).
  { eapply chain_frame; [exact Hc1| |lia]. eapply off_same_row; [by apply (off_insert (fun K => K = TxnKey t))|].
    intros K HK. by eapply row_key_not_txn. }
  assert (Hoff : off (write_keys t k) m m2).
  { unfold m2, m1. eapply off_trans; [apply off_oracles; by right; right|].
    eapply off_trans; [apply off_insert; left; right; by exists B|].
    eapply off_trans; [apply off_insert; by left; left|]. apply off_insert. by right; left. }
  eapply sys_rep_set_prov; try done.
  - intros t' v'. by rewrite Hp.
  - eapply si_inv_set_prov; [apply Hs|done..].
  - cbn. lia.
  - split; [done|done| |].
    + cbn [written_ tr' with_write d' with_next_vid next_version_id_]. destruct k as [tb pk].
      eapply (writes_rep_install N a m m2 B t (written_ tr) (mkTxnWrite tb pk B)); try done.
    + apply lookup_insert_eq.
  - assert (Hoff2 : off (fun K => row_key k K \/ K = TxnKey t) (with_oracles d' m) m2).
    { unfold m2, m1. eapply off_trans; [apply off_insert; left; right; by exists B|].
      eapply off_trans; [apply off_insert; by left; left|]. apply off_insert. by right. }
    eapply oracles_frame; [apply oracles_with|exact Hoff2| |done..].
    intros K HK [H | ->]; [by eapply row_key_not_oracle|by apply txn_not_oracle in HK].
Qed.

Lemma exec_check_existing d tr m a N txns k w : sys_rep N a (mkSys d txns) m -> key_ok k -> si_prov a k = None ->
  exists res, exec (check_existing k.1 k.2 (is_insert w)) ((d, tr), m) = (res, ((d, tr), m)) /\
    match at_snapshot (si_hist a k) (start_ts_ tr) with
    | Some _ => if is_insert w then code_of res = Some kInvalidArgument else res = Ret tt
    | None => if is_insert w then res = Ret tt else code_of res = Some kNotFound
    end.
Proof.
  intros Hs Hk Hp. destruct (sr_rows _ _ _ _ Hs k Hk) as (recs & Hc). rewrite Hp in Hc.
  unfold check_existing, the_txn. kv_step.
  destruct (exec_GetRow (d, tr) m _ k None _ recs (start_ts_ tr) (txn_id_ tr) Hc) as (res & Eg & Ha); [done|].
  rewrite Eg. destruct (at_snapshot _ _) as [row|]; cbn [answers] in Ha.
  - subst res. destruct (is_insert w); kv_step; by eexists.
  - destruct Ha as [msg ->]. destruct (is_insert w); cbn [IsNotFound]; kv_step; by eexists.
Qed.

(** A free row is taken unless it changed since the snapshot. *)
Lemma write_free N a d txns m t start tr k w v : 0 <= N -> sys_rep (N + 1) a (mkSys d txns) m ->
  si_open a !! t = Some start -> txns !! t = Some tr -> key_ok k -> is_Some (si_tables a !! k.1) -> write_val_ok w v ->
  si_prov a k = None ->
  exists res d' tr' m', exec (Transaction_Write k.1 k.2 (is_delete w) v (is_insert w)) ((d, tr), m) = (res, ((d', tr'), m')) /\
    code_of res = Some (si_write t start k w v a).1 /\
    sys_rep N (si_write t start k w v a).2 (mkSys d' (<[t := tr']> txns)) m'.
Proof.
  intros HN Hs Ho Et Hk HTk Hv Hp. destruct (sr_open t start Hs Ho) as (tr0 & E0 & Hid & Hopen). cbn in E0.
  rewrite Et in E0. injection E0 as <-. unfold Transaction_Write, the_txn. kv_step.
  rewrite (or_finished _ _ _ _ _ _ _ Hopen). rewrite (find_free k Hopen) by (intros v'; rewrite Hp; congruence).
  destruct (sr_rows _ _ _ _ Hs k Hk) as (recs & Hc). rewrite Hp in Hc. cbn [sys_db] in *.
  assert (Hsame : sys_rep N a (mkSys d (<[t := tr]> txns)) m) by (rewrite insert_id by done; eapply sys_rep_less; [|exact Hs]; lia).
  unfold si_write. rewrite Hp. pose proof (sv_hist _ (sr_inv _ _ _ _ Hs) k) as [Hsrt _]. pose proof Hc as [Hl Hh _ Hcm].
  destruct recs as [|r rs].
  - kv_step. rewrite exec_GetLatest_none by done. change (IsNotFound (NotFound [])) with true. cbn iota.
    destruct (si_hist a k) as [|[] ] eqn:Eh; [|done]. cbn [at_snapshot]. kv_step.
    destruct w; cbn [is_insert negb]; [|by eexists _, d, tr, m..]. kv_step.
    destruct (install_rep N a d txns m t start tr k WInsert v [] HN Hs Ho Et Hk HTk Hv Hp) as (d' & tr' & m' & E & H);
      [rewrite Eh; constructor|by rewrite Eh|]. cbn [first_id is_delete] in *. rewrite E. by eexists _, d', tr', m'.
  - destruct (si_hist a k) as [|[ts v0] h] eqn:Eh; [done|]. cbn [first_id] in Hl.
    pose proof Hl as (_ & Hlt & Hr & Hm & _). destruct Hcm as (C1 & C2 & _). kv_step.
    rewrite (exec_GetLatest _ m k (vr_id r)) by (done || apply Hr). unfold check_head. kv_step.
    rewrite (exec_GetVersion _ m k (vr_id r) r) by done. unfold is_provisional. rewrite C1.
    destruct (Z.eqb_spec ts 0); [lia|]. kv_step. unfold walk_rounds. cbn [conflict_walk].
    destruct (Z.eqb_spec (vr_id r) 0); [lia|]. kv_step.
    rewrite (exec_GetVersion _ m k (vr_id r) r) by done. unfold is_provisional. rewrite C1.
    destruct (Z.eqb_spec ts 0); [lia|]. cbn [negb]. kv_step.
    rewrite (or_start _ _ _ _ _ _ _ Hopen), Z.gtb_ltb. destruct (start <? ts) eqn:En; [by eexists _, d, tr, m|].
    destruct (exec_check_existing d tr m a (N + 1) txns k w Hs Hk Hp) as (res & Ec & Hres). kv_step. rewrite Ec.
    rewrite (or_start _ _ _ _ _ _ _ Hopen), Eh in Hres.
    destruct (install_rep N a d txns m t start tr k w v (r :: rs) HN Hs Ho Et Hk HTk Hv Hp) as (d' & tr' & m' & E & H).
    { rewrite Eh. by apply newest_bound. }
    { by rewrite Eh. }
    cbn [first_id] in E.
    destruct w, (at_snapshot _ start); cbn [is_insert is_delete] in *; try (subst res; rewrite E; by eexists _, d', tr', m').
    all: destruct res; try done; by eexists _, d, tr, m.
Qed.

(** A write of an open transaction replies and acts as the abstract one. *)
Lemma exec_Write N a d txns m t start tr k w v : 0 <= N -> sys_rep (N + 1) a (mkSys d txns) m ->
  si_open a !! t = Some start -> txns !! t = Some tr -> key_ok k -> is_Some (si_tables a !! k.1) -> write_val_ok w v ->
  exists res d' tr' m', exec (Transaction_Write k.1 k.2 (is_delete w) v (is_insert w)) ((d, tr), m) = (res, ((d', tr'), m')) /\
    code_of res = Some (si_write t start k w v a).1 /\
    sys_rep N (si_write t start k w v a).2 (mkSys d' (<[t := tr']> txns)) m'.
Proof.
  intros HN Hs Ho Et Hk HTk Hv. destruct (si_prov a k) as [[t' own]|] eqn:Hp; [|by apply write_free].
  destruct (decide (t' = t)) as [->|Hne].
  - destruct (write_own N a d txns m t start tr k w v own HN Hs Ho Et Hk HTk Hv Hp) as (res & m' & H). eauto.
  - destruct (write_held N a d txns m t start tr k w v t' own HN Hs Ho Et Hk Hp Hne) as (res & E & Hres).
    exists res, d, tr, m. split; [done|]. unfold si_write. rewrite Hp. destruct (Z.eqb_spec t' t); [done|].
    split; [done|]. rewrite insert_id by done. eapply sys_rep_less; [|exact Hs]. lia.
Qed.

(** A finished transaction refuses to write. *)
Lemma exec_Write_finished d tr m k del v ins : finished_ tr = true ->
  exec (Transaction_Write k.1 k.2 del v ins) ((d, tr), m) =
    (Fail (InvalidArgument (lit "transaction finished")), ((d, tr), m)).
Proof. intros Hf. unfold Transaction_Write, the_txn. kv_step. by rewrite Hf. Qed.

(** * Operations on a transaction *)

(** The encodings of a row and of its possible keys fit their length fields. *)
Definition row_fits (table : bytes) (row : Row) : Prop :=
  row_ok row /\ len32 (Row_Encode row) /\ Forall (fun c => key_ok (table, c)) row.

(** The operations that can be asked for when [next] is the next transaction id. *)
Definition op_ok (next : Z) (op : TOp) : Prop :=
  match op with
  | TCreate schema => schema_fits schema
  | TBegin => True
  | TInsert t table row | TUpdate t table row => first <= t < next /\ row_fits table row
  | TDelete t table pk | TGet t table pk => first <= t < next /\ key_ok (table, pk)
  | TCommit t | TAbort t => first <= t < next
  end.

Lemma key_ok_iff k : key_ok k <-> len32 k.1 /\ value_ok k.2 /\ len32 (EncodePkForKey k.2).
Proof. split; [by intros []|by intros (? & ? & ?)]. Qed.
#[global] Instance len32_dec s : Decision (len32 s).
Proof. unfold len32. apply _. Defined.
#[global] Instance key_ok_dec k : Decision (key_ok k).
Proof. refine (cast_if (decide (len32 k.1 /\ value_ok k.2 /\ len32 (EncodePkForKey k.2)))); by rewrite key_ok_iff. Defined.
#[global] Instance type_canonical_dec t : Decision (type_canonical t).
Proof. unfold type_canonical. apply _. Defined.
Lemma schema_fits_iff s : schema_fits s <-> len32 (name_ s) /\
  Forall (fun c => len32 (col_name c) /\ type_canonical (col_type c)) (columns_ s) /\ Z.of_nat (length (columns_ s)) < 2 ^ 32.
Proof. split; [by intros []|by intros (? & ? & ?)]. Qed.
#[global] Instance schema_fits_dec s : Decision (schema_fits s).
Proof.
  refine (cast_if (decide (len32 (name_ s) /\ Forall (fun c => len32 (col_name c) /\ type_canonical (col_type c)) (columns_ s) /\
    Z.of_nat (length (columns_ s)) < 2 ^ 32))); by rewrite schema_fits_iff.
Defined.
#[global] Instance op_ok_dec next op : Decision (op_ok next op).
Proof. destruct op; cbn [op_ok]; unfold row_fits, row_ok, len32; apply _. Defined.

(** What a step has to deliver. *)
Definition steps_to (N : Z) (ra : TReply * SI) (out : Res TReply * (Sys * gmap bytes bytes)) : Prop :=
  exists s' m', out = (Ret ra.1, (s', m')) /\ sys_rep N ra.2 s' m'.

Lemma exec_with_txn {A} t (p : TxM A) f d txns m tr : txns !! t = Some tr ->
  exec (with_txn t p f) (mkSys d txns, m) =
    let '(r, ((d', tr'), m')) := exec p ((d, tr), m) in
    let s' := mkSys d' (<[t := tr']> txns) in
    match r with
    | Ret x => (Ret (f x), (s', m'))
    | Fail e => (Ret (RCode (code_ e)), (s', m'))
    | Stuck => (Stuck, (s', m'))
    end.
Proof.
  intros Et. unfold with_txn, exec at 1. cbn [fst snd sys_txns]. rewrite Et.
  match goal with |- context[run_map (kzoom ?g ?p ?q ?s) ?m] =>
    pose proof (exec_zoom g p q s m) as E; unfold exec at 1 in E; cbn [fst snd] in E; rewrite E end.
  rewrite exec_bind, exec_try. cbn [sys_db].
  destruct (exec p (d, tr, m)) as [[x|e|] [[d' tr'] m']]; rewrite ?exec_ret; done.
Qed.

Lemma sr_begun {N a s m} t : sys_rep N a s m -> first <= t < si_next_txn a -> exists tr, sys_txns s !! t = Some tr /\
  txn_id_ tr = t /\ (si_open a !! t = None -> finished_ tr = true) /\
  (forall start, si_open a !! t = Some start -> finished_ tr = false /\ start_ts_ tr = start).
Proof.
  intros Hs Ht. pose proof (sr_txns _ _ _ _ Hs t ltac:(lia)) as Hrep. destruct (si_open a !! t) as [start|].
  - destruct Hrep as (tr & E & Hid & []). exists tr. split; [done|]. split; [done|]. split; [done|]. by intros ? [= <-].
  - destruct Hrep as (_ & Hf). destruct (Hf ltac:(lia)) as (tr & E & Hid & Hfin). by exists tr.
Qed.

(** Writing through the transaction, once its row is known. *)
Lemma step_write N a d txns m t tr k w v : 0 <= N -> sys_rep (N + 1) a (mkSys d txns) m -> first <= t < si_next_txn a ->
  txns !! t = Some tr -> key_ok k -> is_Some (si_tables a !! k.1) -> write_val_ok w v ->
  exists res d' tr' m', exec (Transaction_Write k.1 k.2 (is_delete w) v (is_insert w)) ((d, tr), m) = (res, ((d', tr'), m')) /\
    let ca := match si_open a !! t with
              | None => (kInvalidArgument, a)
              | Some start => si_write t start k w v a
              end in
    code_of res = Some ca.1 /\ sys_rep N ca.2 (mkSys d' (<[t := tr']> txns)) m'.
Proof.
  intros HN Hs Ht Et Hk HTk Hv. destruct (sr_begun t Hs Ht) as (tr0 & E0 & Hid & Hfin & _). cbn in E0.
  rewrite Et in E0. injection E0 as <-. destruct (si_open a !! t) as [start|] eqn:Ho; [by eapply exec_Write|].
  rewrite exec_Write_finished by auto. eexists _, d, tr, m. split; [done|]. split; [done|].
  cbn [snd]. rewrite insert_id by done. eapply sys_rep_less; [|exact Hs]. lia.
Qed.

Lemma exec_on_db {A} (p : RelM A) d tr m :
  exec (on_db p) ((d, tr), m) = let '(r, (d', m')) := exec p (d, m) in (r, ((d', tr), m')).
Proof. unfold on_db. rewrite exec_zoom. cbn [fst snd]. by destruct (exec p (d, m)) as [r [d' m']]. Qed.

Lemma code_reply {B} (res : Res unit) c (sm : B) : code_of res = Some c ->
  match res with
  | Ret x => (Ret (done_reply x), sm)
  | Fail e => (Ret (RCode (code_ e)), sm)
  | Stuck => (Stuck, sm)
  end = (Ret (RCode c), sm).
Proof. destruct res as [[]|e|]; cbn [code_of]; [by intros [= <-]| |done]. case_decide; [done|]. by intros [= <-]. Qed.

(** A call on the transaction object, answered as the abstract step says. *)
Definition call_to (N : Z) (t : Z) (ra : TReply * SI) (p : TxM unit) (d : Database) (tr : Transaction) (txns : gmap Z Transaction)
    (m : gmap bytes bytes) : Prop :=
  exists res d' tr' m' c, exec p ((d, tr), m) = (res, ((d', tr'), m')) /\ code_of res = Some c /\ ra.1 = RCode c /\
    sys_rep N ra.2 (mkSys d' (<[t := tr']> txns)) m'.
Lemma call_steps N t ra p d tr txns m : txns !! t = Some tr -> call_to N t ra p d tr txns m ->
  steps_to N ra (exec (with_txn t p done_reply) (mkSys d txns, m)).
Proof.
  intros Et (res & d' & tr' & m' & c & E & Hc & Hr & Hs). rewrite (exec_with_txn _ _ _ _ _ _ tr) by done. rewrite E. cbn zeta.
  rewrite (code_reply _ _ _ Hc), <- Hr. by eexists _, _.
Qed.

(** [Insert] and [Update]. *)
Lemma call_row_write N a d txns m t tr table row w f :
  0 <= N -> sys_rep (N + 1) a (mkSys d txns) m -> first <= t < si_next_txn a -> txns !! t = Some tr -> row_fits table row -> w <> WDelete ->
  f = Transaction_Insert /\ w = WInsert \/ f = Transaction_Update /\ w = WUpdate ->
  call_to N t (si_row_write t table row w a) (f table row) d tr txns m.
Proof.
  intros HN Hs Ht Et (Hr & Hlen & Hkeys) Hw Hf. unfold call_to.
  assert (E : exec (f table row) ((d, tr), m) = exec (
    schema ← on_db (Database_GetTable table);
    klift (ValidateAgainst row schema) ;;
    pk ← klift (PrimaryKey row schema);
    Transaction_Write table pk (is_delete w) (Some row) (is_insert w)) ((d, tr), m))
    by (destruct Hf as [[-> ->]|[-> ->]]; done).
  rewrite E. clear E Hf f. kv_step. rewrite exec_on_db.
  destruct (exec_GetTable _ d m table (sr_tables _ _ _ _ Hs)) as (res & c & E & Hc & HT). rewrite E.
  assert (Hs' : sys_rep (N + 1) a (mkSys (with_catalog c d) txns) m) by (by apply (sys_rep_catalog _ _ _ _ c Hs)).
  assert (Hsame : sys_rep N a (mkSys (with_catalog c d) (<[t := tr]> txns)) m)
    by (rewrite insert_id by done; eapply sys_rep_less; [|exact Hs']; lia).
  unfold si_row_write, table_answer in *. destruct (si_tables a !! table) as [schema|] eqn:ET; [|destruct HT as [msg ->]; by eexists _, _, _, _, _].
  subst res. kv_step. destruct (PrimaryKey_cases row schema) as [(pk & -> & -> & Hpk)|(e & -> & He & ->)].
  - kv_step. destruct (step_write N a (with_catalog c d) txns m t tr (table, pk) w (Some row) HN Hs' Ht Et)
      as (res & d' & tr' & m' & Ew & Hcode & Hrep); [by apply (proj1 (Forall_forall _ _) Hkeys)|eauto|destruct w; [by exists row..|done]|].
    cbn [fst snd] in Ew. rewrite Ew. eexists _, _, _, _, _. split; [reflexivity|]. split; [exact Hcode|].
    destruct (si_open a !! t); [destruct (si_write _ _ _ _ _ _)|]; done.
  - eexists _, _, _, _, kInvalidArgument. split; [reflexivity|]. cbn [code_of]. by rewrite He.
Qed.
Lemma step_row_write N a d txns m t table row w f :
  0 <= N -> sys_rep (N + 1) a (mkSys d txns) m -> first <= t < si_next_txn a -> row_fits table row -> w <> WDelete ->
  f = Transaction_Insert /\ w = WInsert \/ f = Transaction_Update /\ w = WUpdate ->
  steps_to N (si_row_write t table row w a) (exec (with_txn t (f table row) done_reply) (mkSys d txns, m)).
Proof. intros HN Hs Ht Hr Hw Hf. destruct (sr_begun t Hs Ht) as (tr & Et & _). eapply call_steps; [exact Et|]. by eapply call_row_write. Qed.

Lemma call_delete N a d txns m t tr table pk : 0 <= N -> sys_rep (N + 1) a (mkSys d txns) m -> first <= t < si_next_txn a ->
  txns !! t = Some tr -> key_ok (table, pk) -> call_to N t (si_step (TDelete t table pk) a) (Transaction_Delete table pk) d tr txns m.
Proof.
  intros HN Hs Ht Et Hk. unfold call_to. cbn [si_step]. unfold Transaction_Delete. kv_step. rewrite exec_on_db.
  destruct (exec_GetTable _ d m table (sr_tables _ _ _ _ Hs)) as (res & c & E & Hc & HT). rewrite E.
  assert (Hs' : sys_rep (N + 1) a (mkSys (with_catalog c d) txns) m) by (by apply (sys_rep_catalog _ _ _ _ c Hs)).
  unfold table_answer in HT. destruct (si_tables a !! table) as [schema|] eqn:ET.
  - subst res. destruct (step_write N a (with_catalog c d) txns m t tr (table, pk) WDelete None HN Hs' Ht Et Hk ltac:(eauto) eq_refl)
      as (res & d' & tr' & m' & Ew & Hcode & Hrep).
    cbn [fst snd is_delete is_insert] in Ew. rewrite Ew. eexists _, _, _, _, _. split; [reflexivity|]. split; [exact Hcode|].
    destruct (si_open a !! t); [destruct (si_write _ _ _ _ _ _)|]; done.
  - destruct HT as [msg ->]. eexists _, _, _, _, kNotFound. split; [done|]. split; [done|]. split; [done|].
    rewrite insert_id by done. eapply sys_rep_less; [|exact Hs']. lia.
Qed.
Lemma step_delete N a d txns m t table pk : 0 <= N -> sys_rep (N + 1) a (mkSys d txns) m -> first <= t < si_next_txn a ->
  key_ok (table, pk) ->
  steps_to N (si_step (TDelete t table pk) a) (exec (sys_step (TDelete t table pk)) (mkSys d txns, m)).
Proof. intros HN Hs Ht Hk. destruct (sr_begun t Hs Ht) as (tr & Et & _). eapply call_steps; [exact Et|]. by apply call_delete. Qed.

Lemma step_get N a d txns m t table pk : 0 <= N -> sys_rep (N + 1) a (mkSys d txns) m -> first <= t < si_next_txn a ->
  key_ok (table, pk) ->
  steps_to N (si_step (TGet t table pk) a) (exec (sys_step (TGet t table pk)) (mkSys d txns, m)).
Proof.
  intros HN Hs Ht Hk. destruct (sr_begun t Hs Ht) as (tr & Et & Hid & Hfin & Hopen). cbn in Et. cbn [sys_step si_step].
  rewrite (exec_with_txn _ _ _ _ _ _ tr) by done. unfold Transaction_Get, the_txn. kv_step.
  assert (Hless : sys_rep N a (mkSys d txns) m) by (eapply sys_rep_less; [|exact Hs]; lia).
  destruct (si_open a !! t) as [start|] eqn:Ho.
  2: { rewrite Hfin by done. eexists _, _. split; [done|]. by rewrite insert_id. }
  destruct (Hopen start eq_refl) as [-> Hst]. kv_step. rewrite exec_on_db.
  destruct (exec_GetTable _ d m table (sr_tables _ _ _ _ Hs)) as (res & c & E & Hc & HT). rewrite E.
  assert (Hs' : sys_rep N a (mkSys (with_catalog c d) txns) m) by (by apply (sys_rep_catalog _ _ _ _ c Hless)).
  unfold table_answer in HT. destruct (si_tables a !! table) as [schema|].
  2: { destruct HT as [msg ->]. eexists _, _. split; [done|]. by rewrite insert_id. }
  subst res. destruct (sr_rows _ _ _ _ Hs (table, pk) Hk) as (recs & Hch).
  destruct (exec_GetRow (with_catalog c d, tr) m _ (table, pk) _ _ recs start t Hch) as (res & Eg & Ha).
  { intros t' v Hp. destruct (sr_prov_meta (N := N) (table, pk) t' v HN Hless Hp) as (meta & H1 & H2 & H3).
    exists meta. rewrite H3. done. }
  cbn [fst snd] in Eg. rewrite Hst, Hid, Eg. unfold si_read. destruct (match si_prov a (table, pk) with Some _ => _ | None => _ end) as [row|];
    cbn [answers] in Ha; [subst res|destruct Ha as [msg ->]]; eexists _, _; (split; [done|]); by rewrite insert_id.
Qed.

(** * Begin *)

(** There are fewer open transactions than transaction ids. *)
Lemma open_size a : si_inv a -> Z.of_nat (size (si_open a)) < si_next_txn a.
Proof.
  intros Hi. pose proof (sv_next _ Hi). rewrite <- size_dom.
  assert (H1 : dom (si_open a) ⊆@{gset Z} list_to_set (seqZ 1 (si_next_txn a - 1))).
  { intros t (s & Ho)%elem_of_dom. destruct (sv_open _ Hi _ _ Ho). apply elem_of_list_to_set, elem_of_seqZ. lia. }
  apply subseteq_size in H1. rewrite size_list_to_set, length_seqZ in H1 by apply NoDup_seqZ. lia.
Qed.

(** A represented system stays so when only keys outside its rows, tables and
    registered transactions change. *)
Lemma holds_ext a a' m B t w : si_prov a' = si_prov a -> si_hist a' = si_hist a -> holds a m B t w -> holds a' m B t w.
Proof. unfold holds. by intros -> ->. Qed.

Lemma open_rep_frame a a' m m' N N' B t start tr P : open_rep a m N B t start tr -> N' <= N -> off P m m' ->
  si_prov a' = si_prov a -> si_hist a' = si_hist a ->
  (forall k, key_ok k -> forall K, row_key k K -> ~ P K) -> ~ P (TxnKey t) -> open_rep a' m' N' B t start tr.
Proof.
  intros [K1 K2 [W1 W2 W3 W4] K4] HN Hoff Ep Eh Hrow Htxn. split; try done.
  - split; try done; [|by rewrite Ep|lia]. intros w Hw. pose proof (W2 w Hw) as Hh. pose proof Hh as [Hk _].
    eapply holds_ext; [done..|]. eapply holds_frame; [exact Hh| |lia]. eapply off_same_row; [exact Hoff|by apply Hrow].
  - by rewrite Hoff.
Qed.

Lemma row_not_meta k K t : row_key k K -> ~ (oracle_key K \/ K = TxnKey t).
Proof. intros HK [H|H]; [by eapply row_key_not_oracle|by eapply row_key_not_txn]. Qed.

Lemma exec_Begin d m : ddl_in_progress_ d = false ->
  let id := next_txn_id_ d in
  let d1 := with_next_txn (u64 (id + 1)) d in
  exec Begin (d, m) = (Ret (mkTransaction id (u64 (next_ts_ d - 1)) false []),
    (with_open_count (u64 (open_txn_count_ d + 1)) d1,
     <[TxnKey id := EncodeTxnMeta (mkTxnMeta kOpen 0 [])]> (with_oracles d1 m))).
Proof.
  intros Hd id d1. unfold Begin. kv_step. unfold Datatypes.id at 1. rewrite Hd. kv_step. rewrite exec_post_incr. kv_step.
  rewrite exec_PersistOracles. kv_step. rewrite exec_PutTxnMeta. kv_step. done.
Qed.

Lemma step_begin N a d txns m : 0 <= N -> sys_rep (N + 1) a (mkSys d txns) m ->
  steps_to N (si_step TBegin a) (exec (sys_step TBegin) (mkSys d txns, m)).
Proof.
  intros HN Hs. pose proof Hs as [H1 H2 H3 H4 H5 H6 H7 H8 H9 H10 H11 H12]. cbn [sys_db sys_txns] in *.
  cbn [sys_step si_step]. kv_step. rewrite exec_zoom, exec_Begin by done. cbn [fst snd sys_db sys_txns]. kv_step.
  pose proof (sr_bounds Hs) as [Hl0 Hn0]. pose proof (open_size a H1) as Hsz.
  assert (E1 : u64 (si_next_txn a + 1) = si_next_txn a + 1) by (apply u64_small; lia).
  assert (E2 : u64 (si_last a + 1 - 1) = si_last a) by (rewrite Z.add_simpl_r; apply Z.mod_small; lia).
  assert (E3 : u64 (Z.of_nat (size (si_open a)) + 1) = Z.of_nat (size (si_open a)) + 1) by (apply u64_small; lia).
  rewrite H3, H2, H5, E1, E2, E3. cbn [txn_id_ sys_txns sys_db]. eexists _, _. split; [reflexivity|].
  set (id := si_next_txn a). match goal with |- sys_rep _ _ _ ?x => set (m' := x) end.
  assert (Hoff : off (fun K => oracle_key K \/ K = TxnKey id) m m').
  { eapply off_trans; [apply off_oracles; by left|apply off_insert; by right]. }
  assert (Hfresh : si_open a !! id = None).
  { destruct (si_open a !! id) eqn:E; [|done]. destruct (sv_open _ H1 _ _ E). lia. }
  assert (Hid64 : fits64 id) by (unfold fits64; lia).
  assert (Hrow : forall k, key_ok k -> same_row (next_version_id_ d) k m m').
  { intros k Hk. eapply off_same_row; [exact Hoff|]. intros K. apply row_not_meta. }
  assert (Htxn : forall t, fits64 t -> t <> id -> m' !! TxnKey t = m !! TxnKey t).
  { intros t Hf Hne. apply Hoff. intros [H|H]; [by apply txn_not_oracle in H|]. by apply TxnKey_inj in H. }
  split; cbn; try done; [by apply si_inv_begin|lia| | | | | | ].
  - rewrite map_size_insert_None by done. lia.
  - eapply tables_rep_frame; [exact H7|exact Hoff|]. intros n [H|H]; [by apply table_not_oracle in H|].
    symmetry in H. by apply txn_ne_table in H.
  - intros k Hk. destruct (H8 k Hk) as [recs Hc]. exists recs. eapply chain_frame; [exact Hc|by apply Hrow|lia].
  - intros t Ht. destruct (decide (t = id)) as [->|Hne].
    + rewrite lookup_insert_eq. eexists. rewrite lookup_insert_eq. split; [done|]. split; [done|]. split; try done; [|apply lookup_insert_eq].
      split; cbn; [apply NoDup_nil_2|by intros w Hw%elem_of_nil| |lia]. intros k v Hp.
      destruct (sv_prov _ H1 _ _ _ Hp) as (s & Ho & _). by rewrite Hfresh in Ho.
    + specialize (H10 t ltac:(lia)). rewrite lookup_insert_ne by done. assert (Hf : fits64 t) by (unfold fits64; lia).
      destruct (si_open a !! t) as [start|]; [|destruct H10 as [He Hfin]; split; [eapply ended_frame; [done|by apply Htxn]|]].
      2: { unfold finished_rep. cbn. by rewrite lookup_insert_ne. }
      destruct H10 as (tr & Et & Htid & Hrep). exists tr. rewrite lookup_insert_ne by done. split; [done|]. split; [done|].
      eapply open_rep_frame; [exact Hrep|lia|exact Hoff|done|done|by intros; eapply row_not_meta|].
      intros [H|H]; [by apply txn_not_oracle in H|]. by apply TxnKey_inj in H.
  - eapply oracles_frame; [apply oracles_with|by apply (off_insert (fun K => K = TxnKey id))| |done..].
    intros K HK ->. by apply txn_not_oracle in HK.
  - eapply heads_frame; [exact H12|done|exact Hoff|]. intros K [H | ->] Hd; [by apply oracle_not_head in H|by apply txn_not_head in Hd].
Qed.

(** * The end of a transaction *)

Definition drop_own (t : Z) (p : option (Z * Val)) : option (Z * Val) :=
  match p with Some (t', v) => if t' =? t then None else Some (t', v) | None => None end.

(** The rows [t] holds. *)
Definition held (a : SI) (t : Z) (k : Key) : Prop := exists v, si_prov a k = Some (t, v).
Lemma drop_own_held a t k : held a t k -> drop_own t (si_prov a k) = None.
Proof. intros [v ->]. cbn. by rewrite Z.eqb_refl. Qed.
Lemma drop_own_free a t k : ~ held a t k -> drop_own t (si_prov a k) = si_prov a k.
Proof.
  intros H. destruct (si_prov a k) as [[t' v]|] eqn:E; [|done]. cbn. destruct (Z.eqb_spec t' t); [|done]. subst. destruct H. by exists v.
Qed.
Lemma held_dec a t k : held a t k \/ ~ held a t k.
Proof.
  unfold held. destruct (si_prov a k) as [[t' v]|]; [|right; by intros []].
  destruct (decide (t' = t)) as [->|Hne]; [left; eauto|right]. intros [v' [= ? _]]. done.
Qed.

(** What the end of [t] may touch: the rows it holds, the counters and its entry
    in the registry. *)
Definition held_keys (a : SI) (t : Z) (K : bytes) : Prop := exists k, key_ok k /\ held a t k /\ row_key k K.
Definition finish_keys (a : SI) (t : Z) (K : bytes) : Prop := held_keys a t K \/ oracle_key K \/ K = TxnKey t.

Lemma finish_keys_row a t k K : key_ok k -> ~ held a t k -> row_key k K -> ~ finish_keys a t K.
Proof.
  intros Hk Hh HK [(k' & Hk' & Hh' & HK')|[H|H]]; [|by eapply row_key_not_oracle|by eapply row_key_not_txn].
  apply Hh. by rewrite (row_key_inj k k' Hk Hk' K HK HK').
Qed.
Lemma finish_keys_table a t n : ~ finish_keys a t (TableKey n).
Proof.
  intros [(k & _ & _ & H)|[H|H]]; [by eapply row_key_not_table|by apply table_not_oracle in H|].
  symmetry in H. by apply txn_ne_table in H.
Qed.
Lemma finish_keys_txn a t t' : fits64 t -> fits64 t' -> t' <> t -> ~ finish_keys a t (TxnKey t').
Proof.
  intros Ht Ht' Hne [(k & _ & _ & H)|[H|H]]; [by eapply row_key_not_txn|by apply txn_not_oracle in H|].
  apply TxnKey_inj in H; done.
Qed.

(** [a'] is [a] after the end of [t]. *)
Record finished_si (t : Z) (a a' : SI) : Prop := {
  fs_inv : si_inv a';
  fs_tables : si_tables a' = si_tables a;
  fs_prov : forall k, si_prov a' k = drop_own t (si_prov a k);
  fs_open : si_open a' = delete t (si_open a);
  fs_next : si_next_txn a' = si_next_txn a;
  fs_last : si_last a' <= si_last a + 1;
  fs_hist : forall k, ~ held a t k -> si_hist a' k = si_hist a k
}.

(** [d'] is [d] after the end of a transaction. *)
Definition finished_db (a' : SI) (d d' : Database) : Prop :=
  next_ts_ d' = si_last a' + 1 /\ next_txn_id_ d' = next_txn_id_ d /\ next_version_id_ d' = next_version_id_ d /\
  open_txn_count_ d' = u64 (open_txn_count_ d - 1) /\ ddl_in_progress_ d' = ddl_in_progress_ d /\ catalog_ d' = catalog_ d.

Lemma sys_rep_finish N a a' d txns m t start d' tr' m' : 0 <= N -> sys_rep (N + 1) a (mkSys d txns) m ->
  si_open a !! t = Some start -> finished_si t a a' -> finished_db a' d d' ->
  off (finish_keys a t) m m' ->
  (forall k, key_ok k -> held a t k -> exists recs, chain m' (next_version_id_ d) k None (si_hist a' k) recs) ->
  txn_id_ tr' = t -> finished_ tr' = true -> ended m' t -> oracles_rep d' m' -> sys_rep N a' (mkSys d' (<[t := tr']> txns)) m'.
Proof.
  intros HN Hs Ho [F1 F2 F3 F4 F5 F6 F7] (D1 & D2 & D3 & D4 & D5 & D6) Hoff Hheld Hid Hfin Hend Hor.
  pose proof Hs as [H1 H2 H3 H4 H5 H6 H7 H8 H9 H10 H11 H12]. cbn [sys_db sys_txns] in *.
  destruct (sv_open _ H1 _ _ Ho) as [_ Ht]. pose proof (open_size a H1) as Hsz.
  assert (Hrow : forall k, key_ok k -> ~ held a t k -> same_row (next_version_id_ d) k m m').
  { intros k Hk Hh. eapply off_same_row; [exact Hoff|]. intros K HK. by eapply finish_keys_row. }
  split; cbn [sys_db sys_txns]; try done.
  - by rewrite D2, H3.
  - rewrite D3, F5. lia.
  - rewrite D4, H5, F4, map_size_delete_Some by done. assert (size (si_open a) <> 0%nat).
    { intros E%map_size_empty_inv. rewrite E, lookup_empty in Ho. done. }
    unfold u64. rewrite Z.mod_small; lia.
  - by rewrite D5.
  - rewrite F2, D6. eapply tables_rep_frame; [exact H7|exact Hoff|]. apply finish_keys_table.
  - intros k Hk. rewrite F3, D3. destruct (held_dec a t k) as [Hh|Hh].
    + rewrite drop_own_held by done. auto.
    + rewrite drop_own_free, F7 by done. destruct (H8 k Hk) as [recs Hc]. exists recs.
      eapply chain_frame; [exact Hc|by apply Hrow|lia].
  - intros k t' v. rewrite F3. destruct (si_prov a k) as [[t1 v1]|] eqn:Ep; cbn; [|done]. destruct (t1 =? t); [done|].
    intros _. rewrite F2. by eapply H9.
  - intros t' Ht'. rewrite F5 in Ht'. rewrite F4, D3. destruct (decide (t' = t)) as [->|Hne].
    { rewrite lookup_delete_eq. split; [done|]. intros _. exists tr'. cbn. by rewrite lookup_insert_eq. }
    specialize (H10 t' Ht'). rewrite lookup_delete_ne by done.
    assert (Et' : m' !! TxnKey t' = m !! TxnKey t').
    { apply Hoff, finish_keys_txn; [..|done]; by eapply (sr_txn_fits (N := N + 1)); [lia|exact Hs|]. }
    destruct (si_open a !! t') as [start'|]; [|destruct H10 as [He Hf]; split; [by eapply ended_frame|]].
    2: { unfold finished_rep. cbn. by rewrite lookup_insert_ne. }
    destruct H10 as (tr & Et & Htid & [K1 K2 [W1 W2 W3 W4] K4]). exists tr. rewrite lookup_insert_ne by done.
    split; [done|]. split; [done|]. split; [done|done| |by rewrite Et'].
    + split; [done| | |lia].
      * intros w Hw. pose proof (W2 w Hw) as Hh. pose proof Hh as (Hkw & v' & _ & _ & Hp & _).
        assert (Hnh : ~ held a t (wkey w)) by (intros [v2 Hp2]; rewrite Hp2 in Hp; congruence).
        apply (holds_frame _ _ _ _ (next_version_id_ d) _ _ Hh) in Hrow; [|done..|lia].
        unfold holds. by rewrite F3, drop_own_free, F7.
      * intros k v. rewrite F3. destruct (si_prov a k) as [[t1 v1]|] eqn:Ep; cbn; [|done].
        destruct (t1 =? t); [done|]. intros [= -> ->]. by eapply W3.
  - rewrite F2. eapply heads_frame; [exact H12|done|exact Hoff|]. intros K [(k & Hk & [v Hp] & HK)|[H | ->]] Hd;
      [|by apply oracle_not_head in H|by apply txn_not_head in Hd]. destruct (H9 _ _ _ Hp) as [_ HT]. by eapply row_key_head.
Qed.

(** ** A loop over the writes *)

Section EachWrite.
Context {S : Type} (s : S) (B : Z) (F : list TxnWrite -> KM S unit).
(** What holds of a row before and after its turn. *)
Context (Q R : gmap bytes bytes -> TxnWrite -> Prop).
Hypothesis Q_ok : forall m w, Q m w -> key_ok (wkey w).
Hypothesis Q_frame : forall m m' w, Q m w -> same_row B (wkey w) m m' -> Q m' w.
Hypothesis R_frame : forall m m' w, R m w -> same_row B (wkey w) m m' -> R m' w.
Hypothesis F_nil : forall sm, exec (F []) sm = (Ret tt, sm).
Hypothesis F_cons : forall m w ws, Q m w ->
  exists m', exec (F (w :: ws)) (s, m) = exec (F ws) (s, m') /\ R m' w /\ off (row_key (wkey w)) m m'.

Lemma others_framed m m' w ws : Q m w -> wkey w ∉ map wkey ws -> (forall w, w ∈ ws -> Q m w) -> off (row_key (wkey w)) m m' ->
  forall w', w' ∈ ws -> Q m' w'.
Proof.
  intros Hw Hnin Hws Hoff w' Hw'. eapply Q_frame; [by apply Hws|]. eapply off_same_row; [exact Hoff|]. intros K HK' HK.
  apply Hnin. rewrite (row_key_inj _ _ (Q_ok _ _ Hw) (Q_ok _ _ (Hws _ Hw')) K HK HK'). by apply list_elem_of_fmap_2.
Qed.

Lemma exec_each ws : forall m, NoDup (map wkey ws) -> (forall w, w ∈ ws -> Q m w) ->
  exists m', exec (F ws) (s, m) = (Ret tt, (s, m')) /\ (forall w, w ∈ ws -> R m' w) /\
    off (fun K => exists w, w ∈ ws /\ row_key (wkey w) K) m m'.
Proof.
  induction ws as [|w ws IH]; intros m Hnd Hq.
  { exists m. split; [apply F_nil|]. split; [|done]. intros w Hw. by apply elem_of_nil in Hw. }
  cbn [map] in Hnd. apply NoDup_cons in Hnd as [Hnin Hnd]. pose proof (Hq w ltac:(by left)) as Hw.
  destruct (F_cons m w ws Hw) as (m1 & E & HR & Ho1).
  assert (Hrest : forall w', w' ∈ ws -> Q m1 w').
  { eapply others_framed; [exact Hw|done| |done]. intros w' Hw'. apply Hq. by right. }
  destruct (IH m1 Hnd Hrest) as (m2 & E2 & Hc2 & Ho2). exists m2. split; [by rewrite E|]. split.
  - intros w0 [->|Hin]%elem_of_cons; [|by apply Hc2].
    eapply R_frame; [exact HR|]. eapply off_same_row; [exact Ho2|]. intros K HK (w' & Hw' & HK').
    apply Hnin. rewrite (row_key_inj _ _ (Q_ok _ _ Hw) (Q_ok _ _ (Hrest _ Hw')) K HK HK'). by apply list_elem_of_fmap_2.
  - eapply off_trans; [eapply off_weaken; [|exact Ho1]|eapply off_weaken; [|exact Ho2]].
    + intros K HK. exists w. split; [by left|done].
    + intros K (w' & Hw' & HK). exists w'. split; [by right|done].
Qed.

(** The loop can crash in the turn of a row, or after it. *)
Hypothesis R_Q : forall m w, R m w -> Q m w.
Hypothesis crash_nil : forall m m', crash_at (F []) (s, m) m' -> m' = m.
Hypothesis crash_cons : forall m w ws m', Q m w -> crash_at (F (w :: ws)) (s, m) m' ->
  (Q m' w /\ off (row_key (wkey w)) m m') \/
  exists m1, crash_at (F ws) (s, m1) m' /\ R m1 w /\ off (row_key (wkey w)) m m1.

Lemma crash_each ws : forall m m', NoDup (map wkey ws) -> (forall w, w ∈ ws -> Q m w) -> crash_at (F ws) (s, m) m' ->
  (forall w, w ∈ ws -> Q m' w) /\ off (fun K => exists w, w ∈ ws /\ row_key (wkey w) K) m m'.
Proof.
  induction ws as [|w ws IH]; intros m m' Hnd Hq Hcr.
  { apply crash_nil in Hcr as ->. split; [done|apply off_refl]. }
  cbn [map] in Hnd. apply NoDup_cons in Hnd as [Hnin Hnd]. pose proof (Hq w ltac:(by left)) as Hw.
  assert (Hws : forall w', w' ∈ ws -> Q m w') by (intros w' Hw'; apply Hq; by right).
  destruct (crash_cons m w ws m' Hw Hcr) as [[Hw1 Ho1]|(m1 & Hcr1 & HR & Ho1)].
  - split; [|eapply off_weaken; [|exact Ho1]; intros K HK; exists w; split; [by left|done]].
    intros w' [->|Hw']%elem_of_cons; [done|]. eapply (others_framed m m' w ws); done.
  - assert (Hrest : forall w', w' ∈ ws -> Q m1 w') by (eapply others_framed; done).
    destruct (IH m1 m' Hnd Hrest Hcr1) as [Hq2 Ho2]. split.
    + intros w' [->|Hw']%elem_of_cons; [|by apply Hq2]. eapply Q_frame; [by eapply R_Q|].
      eapply off_same_row; [exact Ho2|]. intros K HK (w' & Hw' & HK').
      apply Hnin. rewrite (row_key_inj _ _ (Q_ok _ _ Hw) (Q_ok _ _ (Hrest _ Hw')) K HK HK'). by apply list_elem_of_fmap_2.
    + eapply off_trans; [eapply off_weaken; [|exact Ho1]|eapply off_weaken; [|exact Ho2]].
      * intros K HK. exists w. split; [by left|done].
      * intros K (w' & Hw' & HK). exists w'. split; [by right|done].
Qed.
End EachWrite.

(** A row that [t] holds becomes a row with the history [h']. *)
Definition settled (a : SI) (B t : Z) (h' : Key -> Val -> list (Z * Val)) (m : gmap bytes bytes) (k : Key) : Prop :=
  forall v, si_prov a k = Some (t, v) -> exists recs, chain m B k None (h' k v) recs.
Lemma settled_frame a B t h' m m' k : settled a B t h' m k -> same_row B k m m' -> settled a B t h' m' k.
Proof. intros H Hs v Hp. destruct (H v Hp) as [recs Hc]. exists recs. eapply chain_frame; [exact Hc|done|lia]. Qed.

(** The rows of the list are rows [t] holds. *)
Lemma writes_finish a m N B t ws K : writes_rep a m N B t ws -> (exists w, w ∈ ws /\ row_key (wkey w) K) -> held_keys a t K.
Proof.
  intros [_ W2 _ _] (w & Hw & HK). destruct (W2 w Hw) as (Hk & v & _ & _ & Hp & _). exists (wkey w).
  split; [done|]. split; [by exists v|done].
Qed.

Lemma exec_apply_all {S} (s : S) a m N B t ws ts : writes_rep a m N B t ws -> 0 < ts -> fits64 ts ->
  exists m', exec (ApplyCommitWrites t ts ws) (s, m) = (Ret tt, (s, m')) /\
    (forall k, key_ok k -> settled a B t (fun k v => (ts, v) :: si_hist a k) m' k) /\ off (held_keys a t) m m'.
Proof.
  intros HW Hts Hfit. pose proof HW as [W1 W2 W3 _].
  destruct (exec_each s B (ApplyCommitWrites t ts) (fun m w => holds a m B t w)
    (fun m w => settled a B t (fun k v => (ts, v) :: si_hist a k) m (wkey w))) with ws m as (m' & E & Hc & Ho); try done.
  - by intros m0 w [Hk _].
  - intros m0 m1 w Hh Hs. eapply holds_frame; [exact Hh|done|lia].
  - intros m0 m1 w. apply settled_frame.
  - intros sm. apply exec_ret.
  - intros m0 w ws0 (Hk & v & r & rs & Hp & Hch & Hid).
    destruct (exec_apply_one s m0 B w ws0 t v _ r rs ts Hch Hid Hk Hts Hfit) as (m1 & recs & E1 & Hc1 & Ho1).
    exists m1. split; [done|]. split; [|done]. intros v' Hp'. rewrite Hp in Hp'. injection Hp' as <-. eauto.
  - exists m'. split; [done|]. split; [|eapply off_weaken; [|exact Ho]; intros K; by eapply writes_finish].
    intros k _ v Hp. destruct (proj1 (list_elem_of_fmap _ _ _) (W3 k v Hp)) as (w & -> & Hw). by apply Hc.
Qed.

Lemma exec_restore_all {S} (s : S) a m N B t ws : writes_rep a m N B t ws ->
  exists m', exec (RestoreHeads ws) (s, m) = (Ret tt, (s, m')) /\
    (forall k, key_ok k -> settled a B t (fun k _ => si_hist a k) m' k) /\ off (held_keys a t) m m'.
Proof.
  intros HW. pose proof HW as [W1 W2 W3 _]. unfold RestoreHeads.
  destruct (exec_each s B restore_loop (fun m w => holds a m B t w) (fun m w => settled a B t (fun k _ => si_hist a k) m (wkey w)))
    with (reverse ws) m as (m' & E & Hc & Ho).
  - by intros m0 w [Hk _].
  - intros m0 m1 w Hh Hs. eapply holds_frame; [exact Hh|done|lia].
  - intros m0 m1 w. apply settled_frame.
  - intros sm. apply exec_ret.
  - intros m0 w ws0 (Hk & v & r & rs & Hp & Hch & Hid).
    destruct (exec_restore_one s m0 B w ws0 t v _ r rs Hch Hid Hk) as (m1 & E1 & Hc1 & Ho1).
    exists m1. split; [done|]. split; [|done]. intros v' Hp'. eauto.
  - by rewrite reverse_Permutation.
  - intros w. rewrite elem_of_reverse. auto.
  - exists m'. split; [done|]. split.
    + intros k _ v Hp. destruct (proj1 (list_elem_of_fmap _ _ _) (W3 k v Hp)) as (w & -> & Hw).
      eapply Hc; [by apply elem_of_reverse|done].
    + eapply off_weaken; [|exact Ho]. intros K (w & Hw & HK). rewrite elem_of_reverse in Hw. eapply writes_finish; eauto.
Qed.

(** The check before a commit passes: nobody else could take a held row. *)
Lemma exec_commit_check d tr a m B t start ws : start_ts_ tr = start ->
  (forall k v, si_prov a k = Some (t, v) -> Forall (fun x => x.1 <= start) (si_hist a k)) ->
  (forall w, w ∈ ws -> holds a m B t w) ->
  exec (commit_check ws) ((d, tr), m) = (Ret tt, ((d, tr), m)).
Proof.
  intros Hst Hold Hh. induction ws as [|w ws IH]; [done|]. cbn [commit_check]. fold_wkey w. unfold the_txn. kv_step.
  destruct (Hh w ltac:(by left)) as (Hk & v & r & rs & Hp & [Hl Hhd _ (r0 & rs0 & [= <- <-] & _ & Hcm)] & Hid).
  cbn [first_id] in Hl. pose proof Hl as (_ & Hlt & Hr & Hm & Hl'). rewrite Hid.
  rewrite (exec_GetLatest _ m (wkey w) (vr_id r)) by (done || apply Hr). rewrite Z.eqb_refl. cbn [negb]. kv_step.
  rewrite (exec_GetVersion _ m (wkey w) (vr_id r) r) by done. kv_step.
  assert (IH' : exec (commit_check ws) ((d, tr), m) = (Ret tt, ((d, tr), m))) by (apply IH; intros w' Hw'; apply Hh; by right).
  destruct rs as [|r1 rs].
  { cbn [links] in Hl'. rewrite Hl'. cbn [Z.eqb]. kv_step. exact IH'. }
  pose proof Hl' as (_ & Hlt1 & Hr1 & Hm1 & _). destruct (Z.eqb_spec (vr_prev_id r) 0); [lia|]. kv_step.
  rewrite (exec_GetVersion _ m (wkey w) (vr_prev_id r) r1) by done.
  specialize (Hold _ _ Hp). destruct (si_hist a (wkey w)) as [|[ts1 v1] h]; [done|]. destruct Hcm as (C1 & C2 & _).
  inversion_clear Hold. cbn [fst] in *. unfold is_provisional. rewrite C1, Hst, Z.gtb_ltb.
  destruct (Z.eqb_spec ts1 0), (Z.ltb_spec start ts1); try lia. cbn [negb andb]. kv_step. exact IH'.
Qed.

Lemma writes_rep_frame a m m' N B t ws P : writes_rep a m N B t ws -> off P m m' ->
  (forall k, key_ok k -> forall K, row_key k K -> ~ P K) -> writes_rep a m' N B t ws.
Proof.
  intros [W1 W2 W3 W4] Hoff Hrow. split; try done. intros w Hw. pose proof (W2 w Hw) as Hh. pose proof Hh as [Hk _].
  eapply holds_frame; [exact Hh| |lia]. eapply off_same_row; [exact Hoff|by apply Hrow].
Qed.

Lemma finished_si_commit t start a : si_inv a -> si_open a !! t = Some start -> finished_si t a (si_commit t a).
Proof.
  intros Hi Ho. split; cbn; try done; [by eapply si_inv_commit|].
  intros k Hh. destruct (si_prov a k) as [[t' v]|] eqn:Ep; [|done]. destruct (Z.eqb_spec t' t) as [->|]; [|done].
  destruct Hh. by exists v.
Qed.

Lemma finished_si_abort t a : si_inv a -> finished_si t a (si_abort t a).
Proof. intros Hi. split; cbn; try done; [by eapply si_inv_abort|lia]. Qed.

Lemma call_commit N a d txns m t tr : 0 <= N -> sys_rep (N + 1) a (mkSys d txns) m -> first <= t < si_next_txn a -> txns !! t = Some tr ->
  call_to N t (si_step (TCommit t) a) Transaction_Commit d tr txns m.
Proof.
  intros HN Hs Ht Et. destruct (sr_begun t Hs Ht) as (tr1 & Et1 & Hid & Hfin & Hopen). cbn in Et1. rewrite Et in Et1. injection Et1 as <-.
  unfold call_to. cbn [si_step]. unfold Transaction_Commit, the_txn. kv_step.
  destruct (si_open a !! t) as [start|] eqn:Ho.
  2: { rewrite Hfin by done. eexists _, _, _, _, kInvalidArgument. do 3 (split; [done|]). rewrite insert_id by done. eapply sys_rep_less; [|exact Hs]. lia. }
  destruct (sr_open t start Hs Ho) as (tr0 & E0 & _ & [K1 K2 HW K4]). cbn in E0. rewrite Et in E0. injection E0 as <-.
  rewrite K1. unfold CommitTransaction, the_txn. kv_step. rewrite K1. kv_step.
  rewrite (exec_commit_check d tr a m (next_version_id_ d) t start (written_ tr)); [|done| |apply HW].
  2: { intros k v Hp. destruct (sv_prov _ (sr_inv _ _ _ _ Hs) _ _ _ Hp) as (s' & Ho' & Hf). rewrite Ho in Ho'. by injection Ho' as <-. }
  pose proof (sr_room _ _ _ _ Hs) as (_ & R1 & _). pose proof (sr_bounds Hs) as [Hl0 _].
  kv_step. rewrite exec_on_db, exec_post_incr. kv_step. rewrite exec_PutTxnMeta. kv_step.
  pose proof (sr_ts _ _ _ _ Hs) as Hts. cbn [sys_db] in Hts. rewrite Hts, Hid.
  assert (Eu : u64 (si_last a + 1 + 1) = si_last a + 2) by (rewrite u64_small; lia). rewrite Eu.
  match goal with |- context[exec (ApplyCommitWrites _ _ _) (?s, ?x)] => set (s0 := s); set (m1 := x) end.
  assert (Ho1 : off (fun K => K = TxnKey t) m m1) by (by apply off_insert).
  destruct (exec_apply_all s0 a m1 (N + 1) (next_version_id_ d) t (written_ tr) (si_last a + 1)) as (m2 & E2 & Hc2 & Ho2).
  { eapply writes_rep_frame; [exact HW|exact Ho1|]. intros k _ K HK. by eapply row_key_not_txn. }
  { lia. }
  { unfold fits64. lia. }
  rewrite E2. unfold s0. kv_step. rewrite exec_PutTxnMeta. kv_step. rewrite exec_on_db, exec_PersistOracles. kv_step.
  unfold MarkTxnFinishedLocked. kv_step. eexists _, _, _, _, kOk. do 3 (split; [reflexivity|]).
  set (m3 := <[TxnKey t := _]> m2). set (d1 := with_next_ts (si_last a + 2) d).
  assert (Ho3 : off (fun K => oracle_key K \/ K = TxnKey t) m2 (with_oracles d1 m3)).
  { eapply off_trans; [apply (off_insert _ m2 (TxnKey t)); by right|apply off_oracles; by left]. }
  eapply (sys_rep_finish N a (si_commit t a)); try done.
  - eapply finished_si_commit; [apply Hs|done].
  - split; [cbn; lia|done].
  - eapply off_trans; [eapply off_weaken; [|exact Ho1]; intros K ->; by right; right|].
    eapply off_trans; [eapply off_weaken; [|exact Ho2]; by left|]. eapply off_weaken; [|exact Ho3]. by right.
  - intros k Hk [v Hp]. destruct (Hc2 k Hk v Hp) as [recs Hc]. exists recs. cbn [si_commit si_hist]. rewrite Hp, Z.eqb_refl.
    eapply chain_frame; [exact Hc| |lia]. eapply off_same_row; [exact Ho3|]. intros K. apply row_not_meta.
  - eapply (ended_now _ _ (mkTxnMeta kCommitted (si_last a + 1) [])); [|by left|].
    + split; cbn; [done|unfold fits64; lia|constructor|lia].
    + rewrite lookup_with_oracles by apply txn_not_oracle. apply lookup_insert_eq.
  - eapply oracles_frame; [apply oracles_with|apply (off_refl (fun _ => False))|auto|done..].
Qed.

Lemma step_commit N a d txns m t : 0 <= N -> sys_rep (N + 1) a (mkSys d txns) m -> first <= t < si_next_txn a ->
  steps_to N (si_step (TCommit t) a) (exec (sys_step (TCommit t)) (mkSys d txns, m)).
Proof. intros HN Hs Ht. destruct (sr_begun t Hs Ht) as (tr & Et & _). eapply call_steps; [exact Et|]. by apply call_commit. Qed.

Lemma call_abort N a d txns m t tr : 0 <= N -> sys_rep (N + 1) a (mkSys d txns) m -> first <= t < si_next_txn a -> txns !! t = Some tr ->
  call_to N t (si_step (TAbort t) a) Transaction_Abort d tr txns m.
Proof.
  intros HN Hs Ht Et. destruct (sr_begun t Hs Ht) as (tr1 & Et1 & Hid & Hfin & Hopen). cbn in Et1. rewrite Et in Et1. injection Et1 as <-.
  unfold call_to. cbn [si_step]. unfold Transaction_Abort, the_txn. kv_step.
  destruct (si_open a !! t) as [start|] eqn:Ho.
  2: { rewrite Hfin by done. kv_step. eexists _, _, _, _, kOk. do 3 (split; [done|]). rewrite insert_id by done. eapply sys_rep_less; [|exact Hs]. lia. }
  destruct (sr_open t start Hs Ho) as (tr0 & E0 & _ & [K1 K2 HW K4]). cbn in E0. rewrite Et in E0. injection E0 as <-.
  rewrite K1. unfold AbortTransaction, RestoreWrittenHeads, the_txn. kv_step. rewrite K1. kv_step.
  destruct (exec_restore_all (d, tr) a m (N + 1) (next_version_id_ d) t (written_ tr) HW) as (m1 & E1 & Hc1 & Ho1).
  rewrite E1. kv_step. rewrite exec_PutTxnMeta. unfold MarkTxnFinishedLocked. kv_step. rewrite Hid.
  eexists _, _, _, _, kOk. do 3 (split; [reflexivity|]).
  assert (Ho2 : off (fun K => K = TxnKey t) m1 (<[TxnKey t := EncodeTxnMeta (mkTxnMeta kAborted 0 [])]> m1)) by (by apply off_insert).
  eapply (sys_rep_finish N a (si_abort t a)); try done.
  - apply finished_si_abort, Hs.
  - split; [apply Hs|done].
  - eapply off_trans; [eapply off_weaken; [|exact Ho1]; by left|]. eapply off_weaken; [|exact Ho2]. intros K ->. by right; right.
  - intros k Hk [v Hp]. destruct (Hc1 k Hk v Hp) as [recs Hc]. exists recs. cbn [si_abort si_hist].
    eapply chain_frame; [exact Hc| |lia]. eapply off_same_row; [exact Ho2|]. intros K HK. by eapply row_key_not_txn.
  - eapply (ended_now _ _ (mkTxnMeta kAborted 0 [])); [|by right|apply lookup_insert_eq].
    split; cbn; [done|unfold fits64; lia|constructor|lia].
  - eapply (oracles_frame d _ m1); [|exact Ho2| |done..].
    + eapply oracles_frame; [apply Hs|exact Ho1| |done..]. intros K HK (k & _ & _ & H). by eapply row_key_not_oracle.
    + intros K HK ->. by apply txn_not_oracle in HK.
Qed.
Lemma step_abort N a d txns m t : 0 <= N -> sys_rep (N + 1) a (mkSys d txns) m -> first <= t < si_next_txn a ->
  steps_to N (si_step (TAbort t) a) (exec (sys_step (TAbort t)) (mkSys d txns, m)).
Proof. intros HN Hs Ht. destruct (sr_begun t Hs Ht) as (tr & Et & _). eapply call_steps; [exact Et|]. by apply call_abort. Qed.

(** * Creating a table *)

Lemma exec_Catalog_HasTable T c m name : tables_rep T c m ->
  exists c', exec (Catalog_HasTable name) (c, m) = (Ret (bool_decide (is_Some (T !! name))), (c', m)) /\ tables_rep T c' m.
Proof.
  intros HT. destruct (exec_Catalog_GetTable T c m name HT) as (res & c' & E & Hc & Ha). exists c'. split; [|done].
  unfold Catalog_HasTable. kv_step. rewrite E. unfold table_answer in Ha. destruct (T !! name) as [schema|].
  - subst res. by rewrite exec_ret.
  - destruct Ha as [msg ->]. change (IsNotFound (NotFound msg)) with true. cbn iota. by rewrite exec_ret.
Qed.

Lemma TableKey_inj n n' : TableKey n = TableKey n' -> n = n'.
Proof. unfold TableKey. apply app_inv_head. Qed.

Lemma exec_Catalog_CreateTable T c m schema : tables_rep T c m -> schema_fits schema ->
  exists res c' m', exec (Catalog_CreateTable schema) (c, m) = (res, (c', m')) /\
    match Schema_Validate schema, T !! name_ schema with
    | Ret _, None => res = Ret tt /\ m' = <[TableKey (name_ schema) := Schema_Encode schema]> m /\
        tables_rep (<[name_ schema := schema]> T) c' m'
    | _, _ => code_of res = Some kInvalidArgument /\ m' = m /\ tables_rep T c' m'
    end.
Proof.
  intros HT Hfit. unfold Catalog_CreateTable. kv_step. pose proof (Validate_code schema) as Hv.
  destruct (Schema_Validate schema) as [[]|e|]; [|eexists _, c, m; split; [done|]; cbn in *; by rewrite Hv|done].
  destruct (exec_Catalog_HasTable T c m (name_ schema) HT) as (c' & E & Hc). kv_step. rewrite E. kv_step.
  destruct (T !! name_ schema) as [old|] eqn:ET; cbn [bool_decide]; [rewrite bool_decide_true by eauto|rewrite bool_decide_false by (intros []; done)].
  - by eexists _, c', m.
  - kv_step. eexists _, _, _. split; [reflexivity|]. split; [done|]. split; [done|]. destruct Hc as [H1 H2 H3]. split.
    + intros n. destruct (decide (n = name_ schema)) as [->|Hne]; [by rewrite !lookup_insert_eq|].
      rewrite !lookup_insert_ne by (done || intros H%TableKey_inj; done). apply H1.
    + intros n s. rewrite lookup_insert_Some. intros [[<- <-]|[_ H]]; eauto.
    + intros n s. rewrite !lookup_insert_Some. intros [[<- <-]|[? H]]; eauto.
Qed.

(** A new table touches only its own key. *)
Lemma sys_rep_tables N a d txns m T c m' n d' : sys_rep (N + 1) a (mkSys d txns) m -> off (fun K => K = TableKey n) m m' ->
  tables_rep T c m' -> si_tables a ⊆ T -> d' = with_catalog c d -> 0 <= N ->
  sys_rep N (mkSI T (si_hist a) (si_prov a) (si_open a) (si_last a) (si_next_txn a)) (mkSys d' txns) m'.
Proof.
  intros Hs Hoff HT HTT -> HN. pose proof Hs as [H1 H2 H3 H4 H5 H6 H7 H8 H9 H10 H11 H12]. cbn [sys_db sys_txns] in *.
  assert (Hrow : forall k, key_ok k -> forall K, row_key k K -> K <> TableKey n) by (intros k _ K HK; by eapply row_key_not_table).
  split; cbn; try done; [by destruct H1|lia| | | | |].
  - intros k Hk. destruct (H8 k Hk) as [recs Hc]. exists recs. eapply chain_frame; [exact Hc| |lia].
    eapply off_same_row; [exact Hoff|by apply Hrow].
  - intros k t v Hp. destruct (H9 _ _ _ Hp) as [Hk [sch Es]]. split; [done|]. exists sch. by eapply lookup_weaken.
  - intros t Ht. specialize (H10 t Ht).
    destruct (si_open a !! t) as [start|]; [|destruct H10; split; [eapply ended_frame; [done|apply Hoff, txn_ne_table]|done]].
    destruct H10 as (tr & Et & Hid & Hrep). exists tr. split; [done|]. split; [done|].
    eapply open_rep_frame; [exact Hrep|lia|exact Hoff|done|done|exact Hrow|apply txn_ne_table].
  - eapply oracles_frame; [exact H11|exact Hoff| |done..]. intros K HK ->. by apply table_not_oracle in HK.
  - eapply heads_frame; [exact H12|exact HTT|exact Hoff|]. intros K -> Hd. by apply table_not_head in Hd.
Qed.

Lemma step_create N a d txns m schema : 0 <= N -> sys_rep (N + 1) a (mkSys d txns) m -> schema_fits schema ->
  steps_to N (si_step (TCreate schema) a) (exec (sys_step (TCreate schema)) (mkSys d txns, m)).
Proof.
  intros HN Hs Hfit. cbn [sys_step si_step]. kv_step. rewrite exec_zoom. cbn [sys_db].
  unfold Database_CreateTable, ddl_gate. kv_step. unfold id at 1. pose proof (sr_count _ _ _ _ Hs) as Hcnt. cbn [sys_db] in Hcnt.
  assert (Hless : sys_rep N a (mkSys d txns) m) by (eapply sys_rep_less; [|exact Hs]; lia).
  rewrite Hcnt. unfold si_create. destruct (decide (si_open a = ∅)) as [Ho|Ho].
  2: { destruct (Z.eqb_spec (Z.of_nat (size (si_open a))) 0) as [E|]; [|by eexists _, _].
       destruct Ho. apply map_size_empty_inv. lia. }
  assert (Hsz : size (si_open a) = 0%nat) by (by rewrite Ho, map_size_empty). rewrite Hsz. change (negb (Z.of_nat 0 =? 0)) with false. cbn iota. pose proof (sr_ddl _ _ _ _ Hs) as Hd. cbn [sys_db] in Hd.
  kv_step. unfold id. rewrite Hd. kv_step. rewrite exec_zoom. kv_step. unfold on_catalog. rewrite exec_zoom.
  cbn [with_ddl catalog_].
  destruct (exec_Catalog_CreateTable _ (catalog_ d) m schema (sr_tables _ _ _ _ Hs) Hfit) as (res & c & m' & E & Hres).
  rewrite E. cbn [fst snd].
  assert (Ed : with_ddl false (with_catalog c (with_ddl true d)) = with_catalog c d) by (unfold with_ddl, with_catalog; cbn; by rewrite Hd).
  rewrite Ed.
  destruct (Schema_Validate schema) as [[]|e|] eqn:Ev; [destruct (si_tables a !! name_ schema) eqn:ET|..].
  2: { destruct Hres as (-> & -> & HT). kv_step. eexists _, _. split; [reflexivity|].
       eapply (sys_rep_tables N a d txns m); [done|by apply off_insert|exact HT|by apply insert_subseteq|done|done]. }
  all: destruct Hres as (Hcode & -> & HT); destruct res as [|e1|]; try done; cbn [code_of] in Hcode; case_decide; [done|]; injection Hcode as Hcode; kv_step;
    cbn [reply]; rewrite Hcode; eexists _, _; (split; [reflexivity|]); by apply (sys_rep_catalog _ _ _ _ c Hless).
Qed.

(** * Any interleaving *)

Lemma sys_step_refines N a s m op : 0 <= N -> sys_rep (N + 1) a s m -> op_ok (si_next_txn a) op ->
  steps_to N (si_step op a) (exec (sys_step op) (s, m)).
Proof.
  intros HN Hs Hop. destruct s as [d txns].
  destruct op as [schema| |t table row|t table row|t table pk|t table pk|t|t]; cbn [op_ok] in Hop.
  - by apply step_create.
  - by apply step_begin.
  - destruct Hop. eapply step_row_write; try done. by left.
  - destruct Hop. eapply step_row_write; try done. by right.
  - destruct Hop. by apply step_delete.
  - destruct Hop. by apply step_get.
  - by apply step_commit.
  - by apply step_abort.
Qed.

(** The transaction ids an operation uses were handed out before it. *)
Fixpoint ops_ok (next : Z) (ops : list TOp) : Prop :=
  match ops with
  | [] => True
  | op :: ops => op_ok next op /\ ops_ok (match op with TBegin => next + 1 | _ => next end) ops
  end.

#[global] Instance ops_ok_dec ops : forall next, Decision (ops_ok next ops).
Proof. induction ops as [|op ops IH]; intros next; cbn [ops_ok]; apply _. Defined.

Lemma si_step_next op a : si_next_txn (si_step op a).2 = match op with TBegin => si_next_txn a + 1 | _ => si_next_txn a end.
Proof.
  destruct op as [schema| |t table row|t table row|t table pk|t table pk|t|t]; cbn; try done;
    unfold si_create, si_row_write, si_write; repeat case_match; simplify_eq; done.
Qed.

Lemma sys_run_refines N ops : 0 <= N -> forall a s m, sys_rep (N + Z.of_nat (length ops)) a s m -> ops_ok (si_next_txn a) ops ->
  exists s' m', exec (sys_run ops) (s, m) = (Ret (si_run ops a).1, (s', m')) /\ sys_rep N (si_run ops a).2 s' m'.
Proof.
  intros HN. induction ops as [|op ops IH]; intros a s m Hs Hops; cbn [sys_run si_run].
  { exists s, m. split; [by rewrite exec_ret|]. by rewrite Z.add_0_r in Hs. }
  destruct Hops as [Hop Hops]. cbn [length] in Hs. rewrite Nat2Z.inj_succ, Z.add_succ_r in Hs.
  destruct (sys_step_refines (N + Z.of_nat (length ops)) a s m op) as (s1 & m1 & E1 & Hs1); [lia|done|done|].
  kv_step. rewrite E1. rewrite <- si_step_next in Hops. destruct (si_step op a) as [r a1]. cbn [fst snd] in *.
  destruct (IH a1 s1 m1 Hs1 Hops) as (s2 & m2 & E2 & Hs2). kv_step. rewrite E2. destruct (si_run ops a1) as [rs a2].
  kv_step. eauto.
Qed.

End Live.

(** * A new database *)

Definition sys_open : KM Sys unit := kzoom sys_db (fun d s => mkSys d (sys_txns s)) Database_Open.

Lemma exec_open_new : exec sys_open (Sys_new, ∅) = (Ret tt, (Sys_new, with_oracles Database_new ∅)).
Proof. reflexivity. Qed.

Lemma sys_rep_new N : 0 <= N < 2 ^ 32 -> sys_rep 1 N SI_new Sys_new (with_oracles Database_new ∅).
Proof.
  intros HN.
  assert (E : forall K, ~ oracle_key K -> with_oracles Database_new ∅ !! K = None)
    by (intros K HK; rewrite lookup_with_oracles by done; apply lookup_empty).
  split; cbn; try done; [apply si_inv_new|lia| | |lia|].
  - split; cbn; try done. intros n. rewrite E by apply table_not_oracle. by rewrite lookup_empty.
  - intros k Hk. exists []. split; cbn; try done. unfold head_rep. apply E, hkey_not_oracle.
  - intros K Hd _. apply E. intros H. by apply oracle_not_head in H.
Qed.

(** A database opened on an empty store runs as the abstract machine. *)
Lemma new_database_si N ops : 0 <= N -> N + Z.of_nat (length ops) < 2 ^ 32 -> ops_ok 1 1 ops ->
  exists s m, exec (sys_open ;; sys_run ops) (Sys_new, ∅) = (Ret (si_run ops SI_new).1, (s, m)) /\
    sys_rep 1 N (si_run ops SI_new).2 s m.
Proof.
  intros HN Hl Hops. rewrite exec_bind, exec_open_new. apply sys_run_refines; [lia|done| |done]. apply sys_rep_new. lia.
Qed.
