(* ===== verification/TxnIsolation.v ===== *)
(** What clients of the relational layer can rely on: snapshot isolation of any
    interleaving of transactions, on the reference map and on the engine, and its
    consequences for repeated reads, own writes and concurrent writers. *)
From S2P Require Import Prelude Status Slice Encoding Env Types Schema Row Options Db Kv Mvcc.
From S2P Require Import DbInv DbRefine Catalog Database Txn SnapIso TxnRep TxnRefine.

(** The whole program: open the database, then run the calls. *)
Definition session (ops : list TOp) : KM Sys (list TReply) := sys_open ;; sys_run ops.

(** * Steps of the abstract machine seen by one transaction *)

(** The operations by which [t] ends or changes what it reads in [table]. *)
Definition own_op (t : Z) (table : bytes) (op : TOp) : bool :=
  match op with
  | TCommit t' | TAbort t' => t' =? t
  | TInsert t' table' _ | TUpdate t' table' _ | TDelete t' table' _ => (t' =? t) && bool_decide (table' = table)
  | _ => false
  end.

(** [t] sees the same row before and after. *)
Record same_view (t start : Z) (k : Key) (a a' : SI) : Prop := {
  vw_open : si_open a' !! t = Some start;
  vw_tables : si_tables a' = si_tables a;
  vw_read : si_read a' t start k = si_read a t start k
}.

Lemma same_view_refl t start k a : si_open a !! t = Some start -> same_view t start k a a.
Proof. by split. Qed.
Lemma same_view_trans t start k a b c : same_view t start k a b -> same_view t start k b c -> same_view t start k a c.
Proof. intros [A1 A2 A3] [B1 B2 B3]. split; congruence. Qed.

Lemma view_set_prov t start k a t' k' v : si_inv a -> si_open a !! t = Some start -> ~ (t' = t /\ k' = k) ->
  (forall t1 v1, si_prov a k' = Some (t1, v1) -> t1 = t') -> same_view t start k a (set_prov k' (Some (t', v)) a).
Proof.
  intros Hi Ho Hne Hown. split; try done. unfold si_read, set_prov, fupd. cbn.
  destruct (decide (k = k')) as [->|]; [|done]. destruct (Z.eqb_spec t' t) as [->|]; [by destruct Hne|].
  destruct (si_prov a k') as [[t1 v1]|] eqn:Ep; [|done]. rewrite (Hown _ _ eq_refl). by destruct (Z.eqb_spec t' t).
Qed.

Lemma view_write t start k a t' s' k' w v : si_inv a -> si_open a !! t = Some start -> ~ (t' = t /\ k' = k) ->
  same_view t start k a (si_write t' s' k' w v a).2.
Proof.
  intros Hi Ho Hne. unfold si_write. destruct (si_prov a k') as [[t1 v1]|] eqn:Ep.
  - destruct (Z.eqb_spec t1 t') as [->|]; [|by apply same_view_refl].
    destruct w, v1; cbn; (by apply same_view_refl) || (apply view_set_prov; [done..|]; intros ?? [= <- <-]%(eq_trans (eq_sym Ep)); done).
  - repeat case_match; cbn; (by apply same_view_refl) || (apply view_set_prov; [done..|]; congruence).
Qed.

Lemma view_commit t start k a t' : si_inv a -> si_open a !! t = Some start -> t' <> t ->
  same_view t start k a (si_commit t' a).
Proof.
  intros Hi Ho Hne. split; cbn; [by rewrite lookup_delete_ne|done|]. unfold si_read. cbn.
  destruct (sv_open _ Hi _ _ Ho) as [Hs _]. destruct (si_prov a k) as [[t1 v1]|]; [|done].
  destruct (Z.eqb_spec t1 t') as [->|]; [|done]. cbn [at_snapshot].
  destruct (Z.eqb_spec t' t); [done|]. destruct (Z.leb_spec (si_last a + 1) start); [lia|done].
Qed.

Lemma view_abort t start k a t' : si_inv a -> si_open a !! t = Some start -> t' <> t ->
  same_view t start k a (si_abort t' a).
Proof.
  intros Hi Ho Hne. split; cbn; [by rewrite lookup_delete_ne|done|]. unfold si_read. cbn.
  destruct (si_prov a k) as [[t1 v1]|]; [|done]. destruct (Z.eqb_spec t1 t') as [->|]; [|done].
  by destruct (Z.eqb_spec t' t).
Qed.

Lemma view_step t start table pk a op : si_inv a -> si_open a !! t = Some start -> own_op t table op = false ->
  same_view t start (table, pk) a (si_step op a).2.
Proof.
  intros Hi Ho Hop. pose proof (same_view_refl t start (table, pk) a Ho) as Hrefl.
  assert (Hw : forall t' s' table' pk' w v, (t' =? t) && bool_decide (table' = table) = false ->
    same_view t start (table, pk) a (si_write t' s' (table', pk') w v a).2).
  { intros t' s' table' pk' w v E. apply view_write; [done..|]. intros [-> [= -> _]].
    rewrite Z.eqb_refl, bool_decide_true in E; done. }
  destruct op as [schema| |t' table' row|t' table' row|t' table' pk'|t' table' pk'|t'|t']; cbn [own_op si_step] in *.
  - unfold si_create. rewrite decide_False; [done|]. intros E. by rewrite E, lookup_empty in Ho.
  - split; try done. cbn. rewrite lookup_insert_ne; [done|]. destruct (sv_open _ Hi _ _ Ho). lia.
  - unfold si_row_write. repeat case_match; try done. cbn. eapply (f_equal snd) in H2. cbn in H2. subst. auto.
  - unfold si_row_write. repeat case_match; try done. cbn. eapply (f_equal snd) in H2. cbn in H2. subst. auto.
  - repeat case_match; try done. cbn. eapply (f_equal snd) in H1. cbn in H1. subst. auto.
  - repeat case_match; done.
  - case_match; [|done]. apply view_commit; [done..|]. by apply Z.eqb_neq.
  - case_match; [|done]. apply view_abort; [done..|]. by apply Z.eqb_neq.
Qed.

Lemma view_run t start table pk ops : forall a, si_inv a -> si_open a !! t = Some start ->
  Forall (fun op => own_op t table op = false) ops -> same_view t start (table, pk) a (si_run ops a).2.
Proof.
  induction ops as [|op ops IH]; intros a Hi Ho Hops; [by apply same_view_refl|]. inversion_clear Hops as [|?? H1 H2].
  pose proof (view_step t start table pk a op Hi Ho H1) as Hv. pose proof (si_inv_step op a Hi) as Hi'.
  cbn [si_run]. destruct (si_step op a) as [r a1]. cbn [snd] in *.
  pose proof (IH a1 Hi' (vw_open _ _ _ _ _ Hv) H2) as Hv2. destruct (si_run ops a1). cbn [snd] in *.
  by eapply same_view_trans.
Qed.

(** A finished transaction stays finished. *)
Lemma closed_step t a op : si_open a !! t = None -> t < si_next_txn a -> si_open (si_step op a).2 !! t = None.
Proof.
  intros Ho Ht. destruct op; cbn [si_step]; unfold si_create, si_row_write, si_write; repeat case_match; simplify_eq; try done; cbn.
  - rewrite lookup_insert_ne; [done|lia].
  - apply lookup_delete_None; auto.
  - apply lookup_delete_None; auto.
Qed.

Lemma closed_run t ops : forall a, si_open a !! t = None -> t < si_next_txn a -> si_open (si_run ops a).2 !! t = None.
Proof.
  induction ops as [|op ops IH]; intros a Ho Ht; [done|]. cbn [si_run].
  pose proof (closed_step t a op Ho Ht) as H. pose proof (si_step_next op a) as Hn.
  destruct (si_step op a) as [r a1]. cbn [snd] in *. specialize (IH a1 H). destruct (si_run ops a1). apply IH.
  destruct op; lia.
Qed.

Lemma si_run_app ops ops' a : si_run (ops ++ ops') a =
  let '(rs, a1) := si_run ops a in let '(rs', a2) := si_run ops' a1 in (rs ++ rs', a2).
Proof.
  revert a; induction ops as [|op ops IH]; intros a; cbn [app si_run]; [by destruct (si_run ops' a)|].
  destruct (si_step op a) as [r a1]. rewrite IH. destruct (si_run ops a1) as [rs a2]. by destruct (si_run ops' a2).
Qed.

Lemma length_si_run ops : forall a, length (si_run ops a).1 = length ops.
Proof.
  induction ops as [|op ops IH]; intros a; [done|]. cbn [si_run]. destruct (si_step op a) as [r a1].
  specialize (IH a1). destruct (si_run ops a1). cbn in *. congruence.
Qed.

(** A run with an operation before, one in the middle and one at the end. *)
Lemma si_run_two pre op1 mid op2 a :
  let a0 := (si_run pre a).2 in
  let a1 := (si_step op1 a0).2 in
  let a2 := (si_run mid a1).2 in
  si_run (pre ++ op1 :: mid ++ [op2]) a =
    ((si_run pre a).1 ++ (si_step op1 a0).1 :: (si_run mid a1).1 ++ [(si_step op2 a2).1], (si_step op2 a2).2).
Proof.
  cbn zeta. rewrite si_run_app. destruct (si_run pre a) as [rs0 a0]. cbn [si_run fst snd].
  destruct (si_step op1 a0) as [r1 a1]. rewrite si_run_app. cbn [fst snd].
  destruct (si_run mid a1) as [rs a2]. cbn [si_run fst snd]. by destruct (si_step op2 a2).
Qed.

(** The shape of the replies of such a run. *)
Definition replies_around (pre mid : list TOp) (r1 r2 : TReply) (rs : list TReply) : Prop :=
  exists rs1 rs2, rs = rs1 ++ r1 :: rs2 ++ [r2] /\ length rs1 = length pre /\ length rs2 = length mid.

Lemma session_two pre op1 mid op2 : let ops := pre ++ op1 :: mid ++ [op2] in
  Z.of_nat (length ops) < 2 ^ 32 -> ops_ok 1 1 ops ->
  let a0 := (si_run pre SI_new).2 in
  let a1 := (si_step op1 a0).2 in
  let a2 := (si_run mid a1).2 in
  exists rs sm, exec (session ops) (Sys_new, ∅) = (Ret rs, sm) /\
    replies_around pre mid (si_step op1 a0).1 (si_step op2 a2).1 rs.
Proof.
  intros ops Hl Hops. cbn zeta. destruct (new_database_si 0 ops (Z.le_refl 0) Hl Hops) as (s & m & E & _).
  eexists _, _. split; [exact E|]. unfold ops. rewrite si_run_two. cbn [fst].
  eexists _, _. split; [reflexivity|]. split; apply length_si_run.
Qed.

Lemma ops_ok_app first ops ops' next : ops_ok first next (ops ++ ops') ->
  exists next', ops_ok first next ops /\ ops_ok first next' ops' /\ (forall a, si_next_txn a = next -> si_next_txn (si_run ops a).2 = next').
Proof.
  revert next; induction ops as [|op ops IH]; intros next; cbn [app ops_ok]; [intros H; by exists next|].
  intros [H1 H2]. destruct (IH _ H2) as (next' & H3 & H4 & H5). exists next'. split; [done|]. split; [done|].
  intros a Ha. cbn [si_run]. pose proof (si_step_next op a) as Hn. rewrite Ha in Hn.
  destruct (si_step op a) as [r a1]. specialize (H5 a1). destruct (si_run ops a1). cbn in *. by destruct op; apply H5.
Qed.

(** * Concurrent writers *)

(** The transaction and the row an operation writes. *)
Definition row_target (T : gmap bytes TableSchema) (op : TOp) : option (Z * Key) :=
  match op with
  | TInsert t table row | TUpdate t table row =>
    match T !! table with
    | Some schema => match PrimaryKey row schema with Ret pk => Some (t, (table, pk)) | _ => None end
    | None => None
    end
  | TDelete t table pk => match T !! table with Some _ => Some (t, (table, pk)) | None => None end
  | _ => None
  end.

Lemma row_target_mono T T' op t k : T ⊆ T' -> row_target T op = Some (t, k) -> row_target T' op = Some (t, k).
Proof.
  intros HT. destruct op as [| |? table ?|? table ?|? table ?| | |]; cbn; try done; destruct (T !! table) as [schema|] eqn:E; try done;
    by rewrite (lookup_weaken _ _ _ _ E HT).
Qed.

(** The reply to a write of a known row. *)
Lemma step_target T a op t k : si_tables a = T -> row_target T op = Some (t, k) ->
  exists w v, si_step op a = match si_open a !! t with
    | None => (RCode kInvalidArgument, a)
    | Some start => let '(c, a') := si_write t start k w v a in (RCode c, a')
    end.
Proof.
  intros <-. destruct op as [| |t' table row|t' table row|t' table pk| | |]; cbn [row_target si_step]; try done; unfold si_row_write;
    destruct (si_tables a !! table) as [schema|]; try done.
  - destruct (PrimaryKey row schema); try done. intros [= -> <-]. by exists WInsert, (Some row).
  - destruct (PrimaryKey row schema); try done. intros [= -> <-]. by exists WUpdate, (Some row).
  - intros [= -> <-]. by exists WDelete, None.
Qed.

(** A successful write holds its row. *)
Lemma write_holds t start k w v a : (si_write t start k w v a).1 = kOk ->
  si_prov (si_write t start k w v a).2 k = Some (t, v) /\ si_open (si_write t start k w v a).2 = si_open a.
Proof. unfold si_write, set_prov, fupd. repeat case_match; try done; cbn; intros _; by rewrite decide_True. Qed.

(** [k] is out of reach for [t2]: held by [t1], or committed after [t2] began. *)
Definition taken (t1 t2 : Z) (k : Key) (a : SI) : Prop :=
  (exists v, si_prov a k = Some (t1, v)) \/
  match si_hist a k with (ts, _) :: _ => forall start, si_open a !! t2 = Some start -> start < ts | [] => False end.

Lemma taken_set_prov t1 t2 k a k' t' v : taken t1 t2 k a ->
  (forall t v, si_prov a k' = Some (t, v) -> t = t') -> taken t1 t2 k (set_prov k' (Some (t', v)) a).
Proof.
  intros [[v1 Hp]|Hh] Hown; [left|by right]. cbn. unfold fupd. destruct (decide (k = k')) as [->|]; [|by exists v1].
  exists v. by rewrite (Hown _ _ Hp).
Qed.

Lemma taken_write t1 t2 k a t start k' w v : taken t1 t2 k a -> taken t1 t2 k (si_write t start k' w v a).2.
Proof.
  intros Hk. unfold si_write. destruct (si_prov a k') as [[t' own]|] eqn:Ep.
  - destruct (Z.eqb_spec t' t) as [->|]; [|done]. destruct w, own; try done; cbn; apply taken_set_prov; try done; congruence.
  - repeat case_match; try done; cbn; apply taken_set_prov; try done; congruence.
Qed.

Lemma taken_commit t1 t2 k a t : si_inv a -> t1 <> t2 -> taken t1 t2 k a -> taken t1 t2 k (si_commit t a).
Proof.
  intros Hi Hne Hk. unfold taken. cbn.
  assert (Hnew : forall start, delete t (si_open a) !! t2 = Some start -> start < si_last a + 1).
  { intros start [_ Ho]%lookup_delete_Some. destruct (sv_open _ Hi _ _ Ho). lia. }
  destruct Hk as [[v Hp]|Hh].
  - rewrite Hp. destruct (Z.eqb_spec t1 t); [by right|left; eauto].
  - right. destruct (si_prov a k) as [[t' v']|]; [destruct (t' =? t); [done|]|];
      (destruct (si_hist a k) as [|[ts v] h]; [done|]; intros start [_ Ho]%lookup_delete_Some; auto).
Qed.

Lemma taken_step t1 t2 k a op : si_inv a -> t1 <> t2 -> t2 < si_next_txn a -> op <> TAbort t1 ->
  taken t1 t2 k a -> taken t1 t2 k (si_step op a).2.
Proof.
  intros Hi Hne Ht2 Hop Hk.
  assert (Hopen : forall O, (forall start, O !! t2 = Some start -> si_open a !! t2 = Some start) -> forall P l n T,
    si_prov a k = P k \/ (forall v, si_prov a k <> Some (t1, v)) -> taken t1 t2 k (mkSI T (si_hist a) P O l n)).
  { intros O HO P l n T HP. unfold taken in *. cbn. destruct Hk as [[v Hp]|Hh]; [left|right].
    - destruct HP as [<- |HP]; [eauto|by destruct (HP v)].
    - destruct (si_hist a k) as [|[ts v] h]; [done|]. auto. }
  destruct op as [schema| |t table row|t table row|t table pk|t table pk|t|t]; cbn [si_step].
  - unfold si_create. repeat case_match; try done.
  - apply Hopen; [|by left]. intros start. rewrite lookup_insert_ne by lia. done.
  - unfold si_row_write. repeat case_match; try done. eapply (f_equal snd) in H2. cbn in *. subst. by apply taken_write.
  - unfold si_row_write. repeat case_match; try done. eapply (f_equal snd) in H2. cbn in *. subst. by apply taken_write.
  - repeat case_match; try done. eapply (f_equal snd) in H1. cbn in *. subst. by apply taken_write.
  - repeat case_match; done.
  - case_match; [|done]. by apply taken_commit.
  - case_match; [|done]. apply Hopen; [by intros start [_ H']%lookup_delete_Some|].
    destruct (si_prov a k) as [[t' v']|]; [|by left]. destruct (Z.eqb_spec t' t) as [->|]; [right|by left].
    intros v [= -> _]. done.
Qed.

Lemma tables_step op a : si_tables a ⊆ si_tables (si_step op a).2.
Proof.
  destruct op; cbn [si_step]; unfold si_create, si_row_write, si_write; repeat case_match; simplify_eq; try done.
  cbn. by apply insert_subseteq.
Qed.

Lemma taken_run t1 t2 k ops : forall a, si_inv a -> t1 <> t2 -> t2 < si_next_txn a -> TAbort t1 ∉ ops ->
  taken t1 t2 k a -> let a' := (si_run ops a).2 in taken t1 t2 k a' /\ si_inv a' /\ si_tables a ⊆ si_tables a'.
Proof.
  induction ops as [|op ops IH]; intros a Hi Hne Ht2 Hno Hk; [done|]. apply not_elem_of_cons in Hno as [Hop Hno].
  pose proof (taken_step t1 t2 k a op Hi Hne Ht2 (not_eq_sym Hop) Hk) as Hk1. pose proof (si_inv_step op a Hi) as Hi1.
  pose proof (si_step_next op a) as Hn. pose proof (tables_step op a) as HT. cbn [si_run].
  destruct (si_step op a) as [r a1]. cbn [snd] in *. assert (t2 < si_next_txn a1) by (destruct op; lia).
  destruct (IH a1) as (H1 & H2 & H3); try done. destruct (si_run ops a1). cbn [snd] in *. split; [done|]. split; [done|].
  by etrans.
Qed.

(** A write to such a row is refused. *)
Lemma taken_write_refused t1 t2 k a start w v : si_inv a -> t1 <> t2 -> taken t1 t2 k a -> si_open a !! t2 = Some start ->
  (si_write t2 start k w v a).1 = kConflict.
Proof.
  intros Hi Hne Hk Ho. unfold si_write. destruct Hk as [[v1 Hp]|Hh].
  - rewrite Hp. by destruct (Z.eqb_spec t1 t2).
  - destruct (si_hist a k) as [|[ts v1] h] eqn:Eh; [done|]. specialize (Hh _ Ho).
    destruct (si_prov a k) as [[t' own]|] eqn:Ep.
    + destruct (Z.eqb_spec t' t2) as [->|]; [|done]. destruct (sv_prov _ Hi _ _ _ Ep) as (s' & Ho' & Hf).
      rewrite Ho in Ho'. injection Ho' as <-. rewrite Eh in Hf. inversion_clear Hf. cbn in *. lia.
    + by destruct (Z.ltb_spec start ts); [|lia].
Qed.

(** * Properties *)

(** C1: the relational layer provides snapshot isolation.  For every
    interleaving of calls (table creation; begin, insert, update, delete, read,
    commit and abort of any number of transactions, finished ones included), a
    database opened on an empty store answers every call exactly as the abstract
    machine of snapshot isolation does: reads see the transaction's own writes
    and otherwise the state committed when it began, a write is refused with
    Conflict if the row is held by another open transaction or was committed
    since the snapshot, and commit and abort take effect atomically.  The calls
    may use any transaction begun before, and the encodings must fit their length
    fields. *)
Theorem snapshot_isolation (ops : list TOp) : Z.of_nat (length ops) < 2 ^ 32 -> ops_ok 1 1 ops ->
  exists sm, exec (session ops) (Sys_new, ∅) = (Ret (si_run ops SI_new).1, sm).
Proof. intros Hl Hops. destruct (new_database_si 0 ops (Z.le_refl 0) Hl Hops) as (s & m & E & _). by exists (s, m). Qed.

Definition sample_row (name : bytes) : Row := [VString name; VInt64 7].
Definition sample_ops : list TOp :=
  let users := lit "users" in
  [TCreate sample_schema; TBegin; TInsert 1 users (sample_row (lit "ann")); TCommit 1; TBegin; TBegin;
   TUpdate 2 users (sample_row (lit "bob")); TCommit 2;
   TGet 3 users (VInt64 7); TUpdate 3 users (sample_row (lit "eve")); TAbort 3].

Lemma sample_ops_ok : ops_ok 1 1 sample_ops.
Proof. apply (bool_decide_unpack _). vm_compute. exact I. Qed.

Lemma snapshot_isolation_witness : exists sm, exec (session sample_ops) (Sys_new, ∅) =
  (Ret [RCode kOk; RTxn 1; RCode kOk; RCode kOk; RTxn 2; RTxn 3; RCode kOk; RCode kOk; RRow (sample_row (lit "ann"));
        RCode kConflict; RCode kOk], sm).
Proof. apply (snapshot_isolation sample_ops); [reflexivity|exact sample_ops_ok]. Defined.

(** C12: snapshot isolation holds on the real engine: the same calls, run through
    the key-value interface on an engine opened in a new directory with no I/O
    faults ahead, get the replies of the abstract machine, whatever flushes and
    compactions they cause. *)
Theorem snapshot_isolation_on_engine (ops : list TOp) (options : Options) (name : bytes) (w : World) :
  Z.of_nat (length ops) < 2 ^ 32 -> ops_ok 1 1 ops ->
  options_ok options -> 0 < write_buffer_size options -> create_if_missing options = true ->
  no_faults w -> PathExists name w = false -> kv_room (session ops Sys_new) ∅ + 40 < 2 ^ 32 ->
  exists d s d', DB_Open options name w = (Ret tt, d) /\
    run_kv (session ops Sys_new) d = (Ret (Ret (si_run ops SI_new).1, s), d').
Proof.
  intros Hl Hops Ho Hw Hc Hf Hex Hroom. destruct (new_database_si 0 ops (Z.le_refl 0) Hl Hops) as (s & m & E & _).
  destruct (fresh_engine_runs (session ops Sys_new) options name w) as (d & d' & Ed & Er & _); try done.
  exists d, s, d'. split; [done|]. rewrite Er. fold (session ops) in E. unfold exec in E. cbn [fst snd] in E.
  destruct (run_map (session ops Sys_new) ∅) as [[r s'] m']. by injection E as -> -> _.
Qed.

Lemma snapshot_isolation_on_engine_witness :
  let options := mkOptions true false 4096 4096 16 2 2 in
  exists d s d', DB_Open options (lit "db") (mkWorld ∅ ∅ []) = (Ret tt, d) /\
    run_kv (session sample_ops Sys_new) d = (Ret (Ret (si_run sample_ops SI_new).1, s), d').
Proof.
  intros options. apply (snapshot_isolation_on_engine sample_ops options (lit "db") (mkWorld ∅ ∅ []));
    try reflexivity; [exact sample_ops_ok|vm_compute; discriminate].
Defined.

(** Reads are repeatable: whatever other transactions insert, update,
    delete and commit between two reads of the same row by [t], and whatever [t]
    does in other tables, both reads get the same reply, as long as [t] itself
    does not write the table or end in between. *)
Theorem repeatable_reads (pre mid : list TOp) (t : Z) (table : bytes) (pk : Value) :
  let ops := pre ++ TGet t table pk :: mid ++ [TGet t table pk] in
  Z.of_nat (length ops) < 2 ^ 32 -> ops_ok 1 1 ops -> Forall (fun op => own_op t table op = false) mid ->
  exists r rs sm, exec (session ops) (Sys_new, ∅) = (Ret rs, sm) /\ replies_around pre mid r r rs.
Proof.
  intros ops Hl Hops Hmid. destruct (session_two pre (TGet t table pk) mid (TGet t table pk) Hl Hops) as (rs & sm & E & Hr).
  destruct (ops_ok_app _ _ _ _ Hops) as (next & _ & [[Ht _] _] & Hnext).
  set (a0 := (si_run pre SI_new).2) in *. rewrite <- (Hnext SI_new eq_refl) in Ht. fold a0 in Ht.
  eexists _, rs, sm. split; [exact E|].
  assert (Hread : forall a, (si_step (TGet t table pk) a).2 = a) by (intros a; cbn; repeat case_match; done).
  rewrite Hread in Hr. enough (Esame : (si_step (TGet t table pk) (si_run mid a0).2).1 = (si_step (TGet t table pk) a0).1)
    by (rewrite Esame in Hr; exact Hr).
  assert (Hi : si_inv a0) by apply si_inv_run, si_inv_new. cbn [si_step]. destruct (si_open a0 !! t) as [start|] eqn:Ho.
  - destruct (view_run t start table pk mid a0 Hi Ho Hmid) as [-> -> Hv]. destruct (si_tables a0 !! table); [|done].
    rewrite Hv. destruct (si_read a0 t start (table, pk)); reflexivity.
  - rewrite closed_run by (done || lia). done.
Qed.

Lemma repeatable_reads_witness :
  let users := lit "users" in
  let get := TGet 3 users (VInt64 7) in
  let pre := [TCreate sample_schema; TBegin; TInsert 1 users (sample_row (lit "ann")); TCommit 1; TBegin; TBegin] in
  let mid := [TUpdate 2 users (sample_row (lit "bob")); TCommit 2] in
  exists r rs sm, exec (session (pre ++ get :: mid ++ [get])) (Sys_new, ∅) = (Ret rs, sm) /\ replies_around pre mid r r rs.
Proof.
  intros users get pre mid. apply (repeatable_reads pre mid 3 users (VInt64 7)); [reflexivity| |repeat constructor].
  apply (bool_decide_unpack _). vm_compute. exact I.
Defined.

(** A transaction reads its own writes: after a successful insert, update or
    delete of a row, a read of the row by the same transaction returns the row
    written (NotFound after a delete), whatever other transactions do in between,
    as long as [t] does not write the table again or end. *)
Theorem reads_own_writes (pre mid : list TOp) (op : TOp) (t : Z) (table : bytes) (pk : Value) :
  let ops := pre ++ op :: mid ++ [TGet t table pk] in
  Z.of_nat (length ops) < 2 ^ 32 -> ops_ok 1 1 ops ->
  row_target (si_tables (si_run pre SI_new).2) op = Some (t, (table, pk)) ->
  Forall (fun op => own_op t table op = false) mid ->
  exists r r' rs sm, exec (session ops) (Sys_new, ∅) = (Ret rs, sm) /\ replies_around pre mid r r' rs /\
    (r = RCode kOk -> r' = match op with
                           | TInsert _ _ row | TUpdate _ _ row => RRow row
                           | _ => RCode kNotFound
                           end).
Proof.
  intros ops Hl Hops Htgt Hmid. destruct (session_two pre op mid (TGet t table pk) Hl Hops) as (rs & sm & E & Hr).
  eexists _, _, rs, sm. split; [exact E|]. split; [exact Hr|].
  set (a0 := (si_run pre SI_new).2) in *. assert (Hi : si_inv a0) by apply si_inv_run, si_inv_new.
  pose proof (si_inv_step op a0 Hi) as Hi1. intros Hok.
  assert (Hw : exists start v, si_open (si_step op a0).2 !! t = Some start /\ is_Some (si_tables (si_step op a0).2 !! table) /\
    si_prov (si_step op a0).2 (table, pk) = Some (t, v) /\
    match v with Some row => RRow row | None => RCode kNotFound end =
      match op with TInsert _ _ row | TUpdate _ _ row => RRow row | _ => RCode kNotFound end).
  { destruct op as [| |t' table' row|t' table' row|t' table' pk'| | |]; cbn [row_target si_step] in *; try done; unfold si_row_write in *;
      destruct (si_tables a0 !! table') as [schema|] eqn:ET; try done;
      try (destruct (PrimaryKey row schema); try done); injection Htgt as -> -> ->;
      (destruct (si_open a0 !! t) as [start|] eqn:Ho; [|done]);
      match goal with |- context[si_write ?t ?s ?k ?w ?v ?a] =>
        pose proof (write_holds t s k w v a) as Hh; exists s, v;
        assert (HT : si_tables (si_write t s k w v a).2 = si_tables a) by (unfold si_write; repeat case_match; done);
        destruct (si_write t s k w v a) as [c a1]; cbn in *; injection Hok as ->; destruct (Hh eq_refl) as [H1 H2];
        rewrite H2, HT; eauto end. }
  destruct Hw as (start & v & Ho & HT & Hp & Hv). rewrite <- Hv. cbn [si_step].
  destruct (view_run t start table pk mid _ Hi1 Ho Hmid) as [-> -> Hvr]. destruct HT as [schema ->]. rewrite Hvr.
  unfold si_read. rewrite Hp, Z.eqb_refl. by destruct v.
Qed.

Lemma reads_own_writes_witness :
  let users := lit "users" in
  let pre := [TCreate sample_schema; TBegin; TBegin] in
  let op := TInsert 1 users (sample_row (lit "ann")) in
  exists r r' rs sm, exec (session (pre ++ op :: [TCommit 2] ++ [TGet 1 users (VInt64 7)])) (Sys_new, ∅) = (Ret rs, sm) /\
    replies_around pre [TCommit 2] r r' rs /\ (r = RCode kOk -> r' = RRow (sample_row (lit "ann"))).
Proof.
  intros users pre op. apply (reads_own_writes pre [TCommit 2] op 1 users (VInt64 7)); [reflexivity| |reflexivity|repeat constructor].
  apply (bool_decide_unpack _). vm_compute. exact I.
Defined.

(** C11: no lost updates: of two transactions that overlap and write the same
    row, the first writer wins.  If [op1] of [t1] writes a row successfully, then a
    later write of the same row by any [t2] begun before is refused (Conflict, or
    InvalidArgument if [t2] is finished), whatever happens in between, unless [t1]
    aborts. *)
Theorem first_updater_wins (pre mid : list TOp) (op1 op2 : TOp) (t1 t2 : Z) (k : Key) :
  let ops := pre ++ op1 :: mid ++ [op2] in
  let a0 := (si_run pre SI_new).2 in
  Z.of_nat (length ops) < 2 ^ 32 -> ops_ok 1 1 ops -> t1 <> t2 -> t2 < si_next_txn a0 -> TAbort t1 ∉ mid ->
  row_target (si_tables a0) op1 = Some (t1, k) -> row_target (si_tables a0) op2 = Some (t2, k) ->
  exists r1 r2 rs sm, exec (session ops) (Sys_new, ∅) = (Ret rs, sm) /\ replies_around pre mid r1 r2 rs /\
    (r1 = RCode kOk -> r2 = RCode kConflict \/ r2 = RCode kInvalidArgument).
Proof.
  intros ops a0 Hl Hops Hne Ht2 Hno Htgt1 Htgt2. destruct (session_two pre op1 mid op2 Hl Hops) as (rs & sm & E & Hr).
  eexists _, _, rs, sm. split; [exact E|]. split; [exact Hr|]. fold a0. intros Hok.
  assert (Hi : si_inv a0) by apply si_inv_run, si_inv_new. pose proof (si_inv_step op1 a0 Hi) as Hi1.
  assert (Hk1 : taken t1 t2 k (si_step op1 a0).2).
  { destruct (step_target _ a0 op1 t1 k eq_refl Htgt1) as (w & v & Es). rewrite Es in *.
    destruct (si_open a0 !! t1) as [start|]; [|done]. pose proof (write_holds t1 start k w v a0) as Hh.
    destruct (si_write t1 start k w v a0) as [c a1]. cbn in *. injection Hok as ->. left. exists v. by apply Hh. }
  assert (Ht2' : t2 < si_next_txn (si_step op1 a0).2) by (rewrite si_step_next; destruct op1; lia).
  destruct (taken_run t1 t2 k mid _ Hi1 Hne Ht2' Hno Hk1) as (Hk2 & Hi2 & HT). set (a2 := (si_run mid _).2) in *.
  assert (Htgt : row_target (si_tables a2) op2 = Some (t2, k)).
  { eapply row_target_mono; [|exact Htgt2]. etrans; [apply (tables_step op1)|done]. }
  destruct (step_target _ a2 op2 t2 k eq_refl Htgt) as (w & v & ->). destruct (si_open a2 !! t2) as [start|] eqn:Ho; [left|by right].
  pose proof (taken_write_refused t1 t2 k a2 start w v Hi2 Hne Hk2 Ho). destruct (si_write _ _ _ _ _ _). cbn in *. congruence.
Qed.

Lemma first_updater_wins_witness :
  let users := lit "users" in
  let pre := [TCreate sample_schema; TBegin; TBegin] in
  let op1 := TInsert 1 users (sample_row (lit "ann")) in
  let op2 := TInsert 2 users (sample_row (lit "bob")) in
  exists r1 r2 rs sm, exec (session (pre ++ op1 :: [TCommit 1] ++ [op2])) (Sys_new, ∅) = (Ret rs, sm) /\
    replies_around pre [TCommit 1] r1 r2 rs /\ (r1 = RCode kOk -> r2 = RCode kConflict \/ r2 = RCode kInvalidArgument).
Proof.
  intros users pre op1 op2. apply (first_updater_wins pre [TCommit 1] op1 op2 1 2 (users, VInt64 7));
    try reflexivity; [|discriminate|by apply not_elem_of_cons; split; [|apply not_elem_of_nil]].
  apply (bool_decide_unpack _). vm_compute. exact I.
Defined.
