(* ===== verification/TxnCrash.v ===== *)
(** Crashes and recovery of the relational layer: a crash during a commit and the
    recovery that follows leave the transaction committed or aborted as a whole,
    and every other open transaction aborted. *)
From S2P Require Import Prelude Status Slice Encoding Env Types Schema Row Kv Mvcc.
From S2P Require Import Catalog Database Txn SnapIso TxnRep TxnRefine TxnIsolation.

(** * Reads do not change the store *)

Section Reads.
Context {S : Type}.
Implicit Types (sm : S * gmap bytes bytes).

Lemma crash_GetVersion tb pk i sm m' : crash_at (GetVersion tb pk i) sm m' -> m' = sm.2.
Proof.
  unfold GetVersion. intros H. apply crash_bind in H as [H|H]; [by apply crash_Get in H|]. rewrite exec_Get in H.
  destruct (map_get _ _); cbn in H; [done|]. by apply crash_lift in H.
Qed.

Lemma crash_GetLatest tb pk sm m' : crash_at (GetLatestVersionId tb pk) sm m' -> m' = sm.2.
Proof.
  unfold GetLatestVersionId. intros H. apply crash_bind in H as [H|H]; [by apply crash_Get in H|]. rewrite exec_Get in H.
  destruct (map_get _ _); cbn [res_of_sum] in H; [done|]. apply crash_bind in H as [H|H]; [by apply crash_fail_if in H|].
  rewrite exec_fail_if in H. destruct (negb _); [done|]. by apply crash_ret in H.
Qed.

(** A status that is inspected after a read. *)
Lemma crash_try_read {A} (p : KM S A) sm m' : (forall m, crash_at p sm m -> m = sm.2) -> (exec p sm).2.2 = sm.2 ->
  crash_at (ktry p) sm m' -> m' = sm.2.
Proof. intros Hr He [H| ->]%crash_try; auto. Qed.
End Reads.

(** * Rows in the middle of a commit *)

Section Commit.
Context (a : SI) (B t ts : Z) (ts_pos : 0 < ts) (ts_fits : fits64 ts).

(** The row of [w], which [t] is committing at [ts]: provisional with the version
    below it still live, provisional with that version closed, or stamped. *)
Definition mid_row (m : gmap bytes bytes) (w : TxnWrite) : Prop :=
  key_ok (wkey w) /\ exists v r rs, si_prov a (wkey w) = Some (t, v) /\
    links m (wkey w) (vr_id r) (r :: rs) /\ head_rep m (wkey w) (r :: rs) /\ vr_id r < B /\
    tw_version_id w = vr_id r /\ vr_created_by r = t /\ stores v r /\ vr_end_ts r = 0 /\
    ((vr_start_ts r = 0 /\ (committed 0 (si_hist a (wkey w)) rs \/ committed ts (si_hist a (wkey w)) rs)) \/
     (vr_start_ts r = ts /\ committed ts (si_hist a (wkey w)) rs)).

(** The row once [t] is done with it. *)
Definition stamped (m : gmap bytes bytes) (w : TxnWrite) : Prop :=
  key_ok (wkey w) /\ exists v r rs, si_prov a (wkey w) = Some (t, v) /\
    chain m B (wkey w) None ((ts, v) :: si_hist a (wkey w)) (r :: rs) /\ tw_version_id w = vr_id r /\ vr_created_by r = t.

Lemma mid_row_frame m m' w : mid_row m w -> same_row B (wkey w) m m' -> mid_row m' w.
Proof.
  intros (Hk & v & r & rs & Hp & Hl & Hh & Hb & Hrest) [H1 H2]. split; [done|]. exists v, r, rs. split; [done|].
  split; [|split; [by eapply head_rep_frame|done]]. eapply links_frame; [exact Hl|]. intros i Hi Hle. apply H2; [done|lia].
Qed.

Lemma stamped_frame m m' w : stamped m w -> same_row B (wkey w) m m' -> stamped m' w.
Proof.
  intros (Hk & v & r & rs & Hp & Hc & Hrest) Hs. split; [done|]. exists v, r, rs. split; [done|]. split; [|done].
  eapply chain_frame; [exact Hc|done|lia].
Qed.

Lemma stamped_mid m w : stamped m w -> mid_row m w.
Proof.
  intros (Hk & v & r & rs & Hp & [Hl Hh Hb (C1 & C2 & C3 & C4 & C5)] & Hid & Hby). split; [done|]. exists v, r, rs.
  repeat (split; [done|]). by right.
Qed.

Lemma holds_mid m w : holds a m B t w -> mid_row m w.
Proof.
  intros (Hk & v & r & rs & Hp & [Hl Hh Hb (r0 & rs0 & [= <- <-] & (P1 & P2 & P3 & P4) & Hc)] & Hid).
  split; [done|]. exists v, r, rs. repeat (split; [done|]). left. split; [done|by left].
Qed.

(** The record that stamps the row, once the version below it is closed. *)
Lemma stamp_row m w v r rs : key_ok (wkey w) -> si_prov a (wkey w) = Some (t, v) ->
  links m (wkey w) (vr_id r) (r :: rs) -> head_rep m (wkey w) (r :: rs) -> vr_id r < B -> tw_version_id w = vr_id r ->
  vr_created_by r = t -> stores v r -> vr_end_ts r = 0 -> committed ts (si_hist a (wkey w)) rs ->
  stamped (<[vkey (wkey w) (vr_id r) := VersionRecord_Encode (with_start_ts ts r)]> m) w.
Proof.
  intros Hk Hp Hl Hh Hb Hid Hby Hst He Hc. split; [done|]. exists v, (with_start_ts ts r), rs. split; [done|].
  split; [|done]. split; cbn [first_id].
  - apply (links_rewrite m (wkey w) (vr_id r) r); try done. apply record_ok_start; [done|]. by destruct Hl as (_ & _ & ? & _).
  - unfold head_rep in *. by rewrite lookup_insert_ne by apply vkey_ne_hkey.
  - done.
  - cbn. do 3 (split; [done|]). split; [by apply stores_start|done].
Qed.

(** Closing the version below, wherever the commit was interrupted before. *)
Lemma close_prev_mid {S} (s : S) m w r rs h : links m (wkey w) (vr_id r) (r :: rs) -> key_ok (wkey w) ->
  committed 0 h rs \/ committed ts h rs ->
  exists m' rs', exec (close_prev w ts (vr_prev_id r)) (s, m) = (Ret tt, (s, m')) /\
    links m' (wkey w) (vr_id r) (r :: rs') /\ committed ts h rs' /\
    off (fun K => exists i, fits64 i /\ 0 < i < vr_id r /\ K = vkey (wkey w) i) m m' /\
    (forall m2, crash_at (close_prev w ts (vr_prev_id r)) (s, m) m2 -> m2 = m \/ m2 = m').
Proof.
  intros Hl Hk Hc. pose proof Hl as (_ & Hlt & Hr & Hm & Hl'). unfold close_prev. fold_wkey w. destruct rs as [|r1 rs].
  { cbn [links] in Hl'. rewrite Hl'. cbn [Z.eqb]. exists m, []. split; [by rewrite exec_ret|]. split; [done|].
    split; [by destruct h as [|[]], Hc|]. split; [apply off_refl|]. intros m2 H. left. by apply crash_ret in H. }
  pose proof Hl' as (Hid1 & Hlt1 & Hr1 & Hm1 & _). destruct (Z.eqb_spec (vr_prev_id r) 0); [lia|].
  destruct h as [|[ts1 v1] h]; [by destruct Hc|].
  assert (Hst1 : vr_start_ts r1 = ts1 /\ 0 < ts1) by (destruct Hc as [Hc|Hc]; cbn in Hc; naive_solver). destruct Hst1 as [Hst1 Hpos1].
  assert (Eg : exec (ktry (GetVersion (wkey w).1 (wkey w).2 (vr_prev_id r))) (s, m) = (Ret (inr r1), (s, m)))
    by (rewrite exec_try, (exec_GetVersion s m (wkey w) (vr_prev_id r) r1); done).
  assert (Hread : forall m2, crash_at (ktry (GetVersion (S := S) (wkey w).1 (wkey w).2 (vr_prev_id r))) (s, m) m2 -> m2 = m).
  { intros m2. apply (crash_try_read _ (s, m)); [apply crash_GetVersion|].
    by rewrite (exec_GetVersion s m (wkey w) (vr_prev_id r) r1). }
  rewrite exec_bind, Eg. unfold is_provisional. rewrite Hst1. destruct (Z.eqb_spec ts1 0); [lia|]. cbn [negb andb].
  destruct Hc as [Hc|Hc]; pose proof Hc as (_ & _ & E1 & E2 & E3); rewrite E1.
  - change (0 =? 0) with true. cbn iota. rewrite (exec_PutVersionValue s m (wkey w)). cbn [with_end_ts vr_id]. rewrite Hid1.
    exists (<[vkey (wkey w) (vr_prev_id r) := VersionRecord_Encode (with_end_ts ts r1)]> m), (with_end_ts ts r1 :: rs).
    assert (Ho : off (fun K => exists i, fits64 i /\ 0 < i < vr_id r /\ K = vkey (wkey w) i) m
      (<[vkey (wkey w) (vr_prev_id r) := VersionRecord_Encode (with_end_ts ts r1)]> m)).
    { apply off_insert. exists (vr_prev_id r). split; [|split; [lia|done]]. rewrite <- Hid1. apply Hr1. }
    split; [done|]. split; [|split; [cbn; rewrite Hst1; done|split; [exact Ho|]]].
    + cbn [links]. split; [done|]. split; [done|]. split; [done|]. split.
      * rewrite Ho; [done|]. intros (i & Hi & Hle & E). apply vkey_inj in E as [_ E]; [lia|done..|apply Hr|done].
      * apply (links_rewrite m (wkey w) (vr_prev_id r) r1); [done..|by apply record_ok_end|done].
    + intros m2 H. apply crash_bind in H as [H|H]; [left; by apply Hread|]. rewrite Eg in H.
      unfold is_provisional in H. rewrite Hst1, E1 in H. destruct (Z.eqb_spec ts1 0); [lia|].
      change (negb false && (0 =? 0)) with true in H. cbn iota in H. apply crash_Put in H as [->| ->]; [by left|right].
      unfold vkey. cbn [with_end_ts vr_id]. by rewrite Hid1.
  - destruct (Z.eqb_spec ts 0); [lia|]. exists m, (r1 :: rs). split; [by rewrite exec_ret|]. split; [done|]. split; [done|].
    split; [apply off_refl|]. intros m2 H. left. apply crash_bind in H as [H|H]; [by apply Hread|]. rewrite Eg in H.
    unfold is_provisional in H. rewrite Hst1, E1 in H. destruct (Z.eqb_spec ts1 0); [lia|]. destruct (Z.eqb_spec ts 0); [lia|].
    cbn [negb andb] in H. by apply crash_ret in H.
Qed.

Lemma off_versions m m' k i0 : off (fun K => exists i, fits64 i /\ 0 < i < i0 /\ K = vkey k i) m m' -> off (row_key k) m m'.
Proof. apply off_weaken. intros K (i & Hi & _ & ->). right. eauto. Qed.

(** One turn of [ApplyCommitWrites] finishes the row; a crash in it leaves the row
    in the middle of the commit. *)
Lemma apply_turn {S} (s : S) m w ws : mid_row m w ->
  (exists m', exec (ApplyCommitWrites t ts (w :: ws)) (s, m) = exec (ApplyCommitWrites t ts ws) (s, m') /\
    stamped m' w /\ off (row_key (wkey w)) m m') /\
  (forall m', crash_at (ApplyCommitWrites t ts (w :: ws)) (s, m) m' ->
    (mid_row m' w /\ off (row_key (wkey w)) m m') \/
    exists m1, crash_at (ApplyCommitWrites t ts ws) (s, m1) m' /\ stamped m1 w /\ off (row_key (wkey w)) m m1).
Proof.
  intros Hmid. pose proof Hmid as (Hk & v & r & rs & Hp & Hl & Hh & Hb & Hid & Hby & Hst & He & Hcase).
  pose proof Hl as (_ & Hlt & Hr & Hm & _).
  assert (Eg : exec (GetVersion (S := S) (wkey w).1 (wkey w).2 (tw_version_id w)) (s, m) = (Ret r, (s, m)))
    by (rewrite Hid, (exec_GetVersion s m (wkey w) (vr_id r) r); done).
  assert (Hread : forall m', crash_at (GetVersion (S := S) (wkey w).1 (wkey w).2 (tw_version_id w)) (s, m) m' ->
    mid_row m' w /\ off (row_key (wkey w)) m m') by (intros m' ->%crash_GetVersion; split; [done|apply off_refl]).
  cbn [ApplyCommitWrites]. fold_wkey w. rewrite exec_bind, Eg, Hby, Z.eqb_refl. cbn [negb]. unfold is_provisional.
  destruct Hcase as [[Hs0 Hcm]|[Hs0 Hcm]]; rewrite Hs0.
  - change (0 =? 0) with true. cbn [negb].
    destruct (close_prev_mid s m w r rs _ Hl Hk Hcm) as (m1 & rs1 & E1 & Hl1 & Hc1 & Ho1 & Hcr1).
    assert (Hh1 : head_rep m1 (wkey w) (r :: rs1)).
    { unfold head_rep in *. rewrite Ho1; [done|]. intros (i & _ & _ & E). symmetry in E. by apply vkey_ne_hkey in E. }
    assert (Hst1 : stamped (<[vkey (wkey w) (vr_id r) := VersionRecord_Encode (with_start_ts ts r)]> m1) w)
      by (by eapply stamp_row).
    assert (Hmid1 : mid_row m1 w).
    { split; [done|]. exists v, r, rs1. repeat (split; [done|]). left. split; [done|by right]. }
    apply off_versions in Ho1 as Ho1'.
    assert (Ho2 : off (row_key (wkey w)) m (<[vkey (wkey w) (vr_id r) := VersionRecord_Encode (with_start_ts ts r)]> m1)).
    { eapply off_trans; [exact Ho1'|]. apply off_insert. right. exists (vr_id r). split; [apply Hr|done]. }
    split.
    + rewrite exec_bind, E1, exec_bind, (exec_PutVersionValue s m1 (wkey w)). cbn [with_start_ts vr_id]. eexists. split; [reflexivity|done].
    + intros m' Hcr. apply crash_bind in Hcr as [Hcr|Hcr]; [left; by apply Hread|]. rewrite Eg in Hcr.
      unfold is_provisional in Hcr. rewrite Hby, Hs0, Z.eqb_refl in Hcr. change (0 =? 0) with true in Hcr. cbn [negb] in Hcr.
      apply crash_bind in Hcr as [Hcr|Hcr].
      { left. destruct (Hcr1 _ Hcr) as [->| ->]; [split; [done|apply off_refl]|done]. }
      rewrite E1 in Hcr. apply crash_bind in Hcr as [Hcr|Hcr].
      { left. apply crash_Put in Hcr as [->| ->]; [done|]. split; [by apply stamped_mid|done]. }
      rewrite (exec_PutVersionValue s m1 (wkey w)) in Hcr. cbn [with_start_ts vr_id] in Hcr. right. eauto.
  - destruct (Z.eqb_spec ts 0); [lia|]. cbn [negb]. rewrite Z.eqb_refl. cbn [negb].
    assert (Hst' : stamped m w).
    { split; [done|]. exists v, r, rs. split; [done|]. split; [|done]. split; [done..|]. cbn. done. }
    split; [exists m; split; [done|]; split; [done|apply off_refl]|].
    intros m' Hcr. apply crash_bind in Hcr as [Hcr|Hcr]; [left; by apply Hread|]. rewrite Eg in Hcr.
    unfold is_provisional in Hcr. rewrite Hby, Hs0, Z.eqb_refl in Hcr. destruct (Z.eqb_spec ts 0); [lia|]. cbn [negb] in Hcr.
    rewrite Z.eqb_refl in Hcr. cbn [negb] in Hcr. right. exists m. split; [done|]. split; [done|apply off_refl].
Qed.

Lemma mid_row_ok m w : mid_row m w -> key_ok (wkey w).
Proof. by intros []. Qed.

(** Applying the writes again from anywhere in the middle completes the commit. *)
Lemma exec_apply_mid {S} (s : S) m ws : NoDup (map wkey ws) -> (forall w, w ∈ ws -> mid_row m w) ->
  exists m', exec (ApplyCommitWrites t ts ws) (s, m) = (Ret tt, (s, m')) /\ (forall w, w ∈ ws -> stamped m' w) /\
    off (fun K => exists w, w ∈ ws /\ row_key (wkey w) K) m m'.
Proof.
  apply (exec_each s B (ApplyCommitWrites t ts) mid_row stamped).
  - apply mid_row_ok.
  - apply mid_row_frame.
  - apply stamped_frame.
  - intros sm. apply exec_ret.
  - intros m0 w ws0 H. by apply apply_turn.
Qed.

(** A crash while the writes are applied leaves them in the middle. *)
Lemma crash_apply_mid {S} (s : S) m ws m' : NoDup (map wkey ws) -> (forall w, w ∈ ws -> mid_row m w) ->
  crash_at (ApplyCommitWrites t ts ws) (s, m) m' ->
  (forall w, w ∈ ws -> mid_row m' w) /\ off (fun K => exists w, w ∈ ws /\ row_key (wkey w) K) m m'.
Proof.
  apply (crash_each s B (ApplyCommitWrites t ts) mid_row stamped).
  - apply mid_row_ok.
  - apply mid_row_frame.
  - apply stamped_mid.
  - intros m0 m1 H. by apply crash_ret in H.
  - intros m0 w ws0 m1 H Hcr. by apply (proj2 (apply_turn s m0 w ws0 H)).
Qed.
End Commit.

(** * Recovery *)

Lemma with_oracles_id d m : oracles_rep d m -> with_oracles d m = m.
Proof.
  intros Ho. apply map_eq. intros K. destruct (decide (K = kNextTsKey \/ K = kNextTxnKey \/ K = kNextVidKey)) as [HK|HK].
  - rewrite Ho by done. by rewrite (oracles_with d m).
  - by apply lookup_with_oracles.
Qed.

Section Recovery.
(** The state before the crash, the next version id, and the transaction that was
    committing, if any. *)
Context (a : SI) (B : Z) (C : option Z).
Let ts := si_last a + 1.

(** The history a row has after recovery. *)
Definition recovered_hist (k : Key) : list (Z * Val) :=
  match si_prov a k with
  | Some (t, v) => if decide (C = Some t) then (ts, v) :: si_hist a k else si_hist a k
  | None => si_hist a k
  end.

(** The counters recovery starts from. *)
Definition loaded_db (next_ts : Z) : Database := mkDatabase ∅ next_ts (si_next_txn a) B 0 false.

(** The entry of an open transaction in the registry. *)
Definition crashed_txn (m : gmap bytes bytes) (t : Z) : Prop :=
  exists ws, NoDup (map wkey ws) /\ (forall k v, si_prov a k = Some (t, v) -> k ∈ map wkey ws) /\
    Z.of_nat (length ws) < 2 ^ 32 /\
    if decide (C = Some t)
    then m !! TxnKey t = Some (EncodeTxnMeta (mkTxnMeta kCommitting ts ws)) /\ forall w, w ∈ ws -> mid_row a B t ts m w
    else m !! TxnKey t = Some (EncodeTxnMeta (mkTxnMeta kOpen 0 ws)) /\ forall w, w ∈ ws -> holds a m B t w.

(** What a crash leaves. *)
Record crashed (m : gmap bytes bytes) : Prop := {
  cs_inv : si_inv a;
  cs_room : si_last a + 2 < 2 ^ 64 /\ si_next_txn a < 2 ^ 64 /\ 0 < B < 2 ^ 64;
  cs_tables : tables_rep (si_tables a) ∅ m;
  cs_rows : forall k, key_ok k -> si_prov a k = None -> exists recs, chain m B k None (si_hist a k) recs;
  cs_keys : forall k t v, si_prov a k = Some (t, v) -> key_ok k /\ is_Some (si_tables a !! k.1);
  cs_txns : forall t, 0 < t < si_next_txn a ->
    match si_open a !! t with Some _ => crashed_txn m t | None => ended m t end;
  cs_oracles : oracles_rep (loaded_db ts) m;
  cs_committing : forall t, C = Some t -> is_Some (si_open a !! t);
  cs_heads : heads (si_tables a) m
}.

Lemma cs_bounds m : crashed m -> 0 < ts /\ 0 < si_next_txn a /\ fits64 ts /\ fits64 (ts + 1).
Proof. intros [Hi Hr _ _ _ _ _ _ _]. destruct Hi. unfold ts, fits64. lia. Qed.

Lemma exec_load_oracle key def v d m : m !! key = Some (PutFixed64 [] v) -> fits64 v -> 0 < v ->
  exec (load_oracle key def) (d, m) = (Ret v, (d, m)).
Proof.
  intros E Hv Hpos. unfold load_oracle. kv_step. unfold map_get. rewrite E. cbn [res_of_sum]. unfold PutFixed64.
  rewrite app_nil_l. kv_step. rewrite length_le_bytes. cbn [Nat.eqb negb]. rewrite exec_ret.
  rewrite <- (app_nil_r (le_bytes 8 v)), DecodeFixed64_put by done. by destruct (Z.eqb_spec v 0); [lia|].
Qed.

Lemma exec_InitOracles m : crashed m -> exec InitOracles (Database_new, m) = (Ret tt, (loaded_db ts, m)).
Proof.
  intros Hc. pose proof (cs_bounds m Hc) as (B1 & B2 & B3 & _). pose proof (cs_room m Hc) as (_ & R2 & R3).
  pose proof (cs_oracles m Hc) as Ho. unfold InitOracles. kv_step.
  rewrite (exec_load_oracle kNextTsKey 1 ts) by (done || (rewrite Ho by (by left); reflexivity)). kv_step.
  rewrite (exec_load_oracle kNextTxnKey 1 (si_next_txn a)) by ((rewrite Ho by (by right; left); reflexivity) || (unfold fits64; lia)).
  kv_step. rewrite (exec_load_oracle kNextVidKey 1 B) by ((rewrite Ho by (by right; right); reflexivity) || (unfold fits64; lia)).
  kv_step. rewrite exec_PersistOracles. f_equal. f_equal. by apply with_oracles_id.
Qed.

(** ** The loop over the registry *)

(** The transactions below [i] are settled, the others are as the crash left them. *)
Record rec_inv (i : Z) (m0 : gmap bytes bytes) (d : Database) (m : gmap bytes bytes) : Prop := {
  ri_db : d = loaded_db (match C with Some t => if t <? i then ts + 1 else ts | None => ts end);
  ri_keep : forall k, key_ok k -> (forall t v, si_prov a k = Some (t, v) -> i <= t) -> same_row B k m0 m;
  ri_done : forall k t v, si_prov a k = Some (t, v) -> t < i -> exists recs, chain m B k None (recovered_hist k) recs;
  ri_open : forall t, i <= t < si_next_txn a -> m !! TxnKey t = m0 !! TxnKey t;
  ri_ended : forall t, 0 < t < i -> t < si_next_txn a -> ended m t;
  ri_tables : forall n, m !! TableKey n = m0 !! TableKey n;
  ri_oracles : oracles_rep d m;
  ri_heads : heads (si_tables a) m
}.

Lemma open_range m t : crashed m -> is_Some (si_open a !! t) -> 0 < t < si_next_txn a.
Proof. intros Hc [start Ho]. by destruct (sv_open _ (cs_inv _ Hc) _ _ Ho). Qed.
Lemma prov_range m k t v : crashed m -> si_prov a k = Some (t, v) -> is_Some (si_open a !! t) /\ 0 < t < si_next_txn a.
Proof.
  intros Hc Hp. destruct (sv_prov _ (cs_inv _ Hc) _ _ _ Hp) as (start & Ho & _).
  assert (is_Some (si_open a !! t)) by eauto. split; [done|]. by eapply open_range.
Qed.

Lemma rec_inv_start m : crashed m -> rec_inv 1 m (loaded_db ts) m.
Proof.
  intros Hc. split; try done.
  - destruct C as [t|] eqn:EC; [|done]. destruct (Z.ltb_spec t 1); [|done].
    pose proof (open_range m t Hc (cs_committing m Hc t EC)). lia.
  - intros k t v Hp Hlt. destruct (prov_range m k t v Hc Hp). lia.
  - intros t Ht. lia.
  - apply Hc.
  - apply Hc.
Qed.

(** One more transaction is settled. *)
Lemma rec_inv_next i m0 d m d' m' : crashed m0 -> rec_inv i m0 d m -> 0 < i < si_next_txn a ->
  d' = loaded_db (match C with Some t => if t <? i + 1 then ts + 1 else ts | None => ts end) ->
  off (finish_keys a i) m m' -> (forall k, key_ok k -> held a i k -> exists recs, chain m' B k None (recovered_hist k) recs) ->
  ended m' i -> oracles_rep d' m' -> rec_inv (i + 1) m0 d' m'.
Proof.
  intros Hc [I1 I2 I3 I4 I5 I6 I7 I8] Hi Hd Hoff Hheld Hend Hor.
  assert (Hfit : forall t, 0 < t < si_next_txn a -> fits64 t) by (pose proof (cs_room _ Hc); unfold fits64; lia).
  assert (Htxn : forall t, 0 < t < si_next_txn a -> t <> i -> m' !! TxnKey t = m !! TxnKey t).
  { intros t Ht Hne. apply Hoff, finish_keys_txn; auto. }
  assert (Hrow : forall k, key_ok k -> ~ held a i k -> same_row B k m m').
  { intros k Hk Hh. eapply off_same_row; [exact Hoff|]. intros K HK. by eapply finish_keys_row. }
  split; try done.
  - intros k Hk Hp. destruct (I2 k Hk) as [E1 E2]; [intros t v H; specialize (Hp t v H); lia|].
    destruct (Hrow k Hk) as [E3 E4]; [intros [v H]; specialize (Hp i v H); lia|].
    split; [by rewrite E3|]. intros j Hj Hb. by rewrite E4, E2.
  - intros k t v Hp Hlt. destruct (cs_keys _ Hc _ _ _ Hp) as [Hk _]. destruct (decide (t = i)) as [->|Hne].
    + apply Hheld; [done|by exists v].
    + destruct (I3 k t v Hp ltac:(lia)) as [recs Hch]. exists recs. eapply chain_frame; [exact Hch| |lia].
      apply Hrow; [done|]. intros [v' Hp']. congruence.
  - intros t Ht. rewrite Htxn by lia. apply I4. lia.
  - intros t Ht Hn. destruct (decide (t = i)) as [->|Hne]; [done|]. eapply ended_frame; [apply I5; lia|apply Htxn; lia].
  - intros n. rewrite Hoff by apply finish_keys_table. apply I6.
  - eapply heads_frame; [exact I8|done|exact Hoff|]. intros K [(k & Hk & [v Hp] & HK)|[H | ->]] Hk0;
      [|by apply oracle_not_head in H|by apply txn_not_head in Hk0]. destruct (cs_keys _ Hc _ _ _ Hp) as [_ HT]. by eapply row_key_head.
Qed.

Lemma loaded_step i (Hne : C <> Some i) :
  loaded_db (match C with Some t => if t <? i + 1 then ts + 1 else ts | None => ts end) =
  loaded_db (match C with Some t => if t <? i then ts + 1 else ts | None => ts end).
Proof.
  destruct C as [t|]; [|done]. assert (t <> i) by congruence. by destruct (Z.ltb_spec t (i + 1)), (Z.ltb_spec t i); try lia.
Qed.

(** A transaction that ended before the crash is left alone. *)
Lemma recover_ended i m0 d m : crashed m0 -> rec_inv i m0 d m -> 0 < i < si_next_txn a -> si_open a !! i = None ->
  exec (recover_txn i) (d, m) = (Ret tt, (d, m)) /\ rec_inv (i + 1) m0 d m.
Proof.
  intros Hc Hri Hi Ho. pose proof Hri as [I1 I2 I3 I4 I5 I6 I7 I8]. pose proof (cs_txns _ Hc i Hi) as Ht. rewrite Ho in Ht.
  assert (Hend : ended m i) by (eapply ended_frame; [exact Ht|apply I4; lia]). pose proof Hend as (meta & Em & Hok & Hst). split.
  - unfold recover_txn. kv_step. rewrite (exec_GetTxnMeta d m i meta) by done.
    destruct Hst as [-> | ->]; by rewrite exec_ret.
  - assert (Hne : C <> Some i) by (intros E; destruct (cs_committing _ Hc i E); congruence).
    eapply (rec_inv_next i m0 d m); try done; [by rewrite loaded_step|].
    intros k _ [v Hp]. destruct (prov_range _ _ _ _ Hc Hp) as [[s Hs] _]. congruence.
Qed.

(** The committing transaction is completed. *)
Lemma recover_committing i m0 d m : crashed m0 -> rec_inv i m0 d m -> 0 < i < si_next_txn a -> C = Some i ->
  exists d' m', exec (recover_txn i) (d, m) = (Ret tt, (d', m')) /\ rec_inv (i + 1) m0 d' m'.
Proof.
  intros Hc Hri Hi HC. pose proof Hri as [I1 I2 I3 I4 I5 I6 I7 I8]. pose proof (cs_txns _ Hc i Hi) as Ht.
  destruct (cs_committing _ Hc i HC) as [start Ho]. rewrite Ho in Ht. destruct Ht as (ws & Hnd & Hall & Hlen & Hrest).
  rewrite decide_True in Hrest by done. destruct Hrest as [Em Hmid].
  pose proof (cs_bounds _ Hc) as (B1 & B2 & B3 & B4).
  assert (Hmid' : forall w, w ∈ ws -> mid_row a B i ts m w).
  { intros w Hw. pose proof (Hmid w Hw) as Hmw. eapply mid_row_frame; [exact Hmw|]. destruct Hmw as (Hk & v & _ & _ & Hp & _).
    apply I2; [done|]. intros t v'. rewrite Hp. intros [= <- _]. lia. }
  assert (Hmeta : meta_ok (mkTxnMeta kCommitting ts ws)).
  { split; cbn; [done|done| |done]. apply Forall_forall. intros w Hw.
    destruct (Hmid w Hw) as ([K1 K2 K3] & v & r & rs & _ & Hl & _ & _ & Hid & _). split; try done. rewrite Hid. by eapply links_fits. }
  destruct (exec_apply_mid a B i ts B1 B3 d m ws Hnd Hmid') as (m1 & E1 & Hst & Ho1).
  unfold recover_txn. kv_step. rewrite (exec_GetTxnMeta d m i (mkTxnMeta kCommitting ts ws)) by (rewrite ?I4 by lia; done).
  cbn [tm_state tm_commit_ts tm_writes]. kv_step. destruct (Z.eqb_spec ts 0); [lia|]. kv_step. rewrite E1. kv_step.
  rewrite exec_PutTxnMeta. kv_step. rewrite I1, HC. cbn [loaded_db next_ts_]. rewrite Z.ltb_irrefl, Z.geb_leb, Z.leb_refl. kv_step.
  rewrite exec_PersistOracles. assert (Eu : u64 (ts + 1) = ts + 1) by (apply Z.mod_small; unfold fits64 in *; lia). rewrite Eu.
  eexists _, _. split; [reflexivity|]. set (m2 := <[TxnKey i := _]> m1). set (d1 := with_next_ts _ _).
  eapply (rec_inv_next i m0 d m); try done.
  - rewrite HC. by destruct (Z.ltb_spec i (i + 1)); [|lia].
  - eapply off_trans; [eapply off_weaken; [|exact Ho1]|].
    { intros K (w & Hw & HK). left. exists (wkey w). destruct (Hmid w Hw) as (Hk & v & _ & _ & Hp & _).
      split; [done|]. split; [by exists v|done]. }
    eapply off_trans; [apply (off_insert _ m1 (TxnKey i)); by right; right|]. apply off_oracles. by right; left.
  - intros k Hk [v Hp]. destruct (proj1 (list_elem_of_fmap _ _ _) (Hall k v Hp)) as (w & -> & Hw).
    destruct (Hst w Hw) as (_ & v' & r & rs & Hp' & Hch & _). rewrite Hp in Hp'. injection Hp' as <-.
    unfold recovered_hist. rewrite Hp, decide_True by done. exists (r :: rs). eapply chain_frame; [exact Hch| |lia].
    eapply (off_same_row (fun K => oracle_key K \/ K = TxnKey i)); [|intros K; apply row_not_meta].
    eapply off_trans; [apply (off_insert _ m1 (TxnKey i)); by right|apply off_oracles; by left].
  - eapply (ended_now _ _ (mkTxnMeta kCommitted ts [])); [|by left|].
    + split; cbn; [done|done|constructor|lia].
    + rewrite lookup_with_oracles by apply txn_not_oracle. apply lookup_insert_eq.
  - apply oracles_with.
Qed.

(** An open transaction is rolled back. *)
Lemma recover_open i m0 d m : crashed m0 -> rec_inv i m0 d m -> 0 < i < si_next_txn a -> is_Some (si_open a !! i) -> C <> Some i ->
  exists m', exec (recover_txn i) (d, m) = (Ret tt, (d, m')) /\ rec_inv (i + 1) m0 d m'.
Proof.
  intros Hc Hri Hi [start Ho] HC. pose proof Hri as [I1 I2 I3 I4 I5 I6 I7 I8]. pose proof (cs_txns _ Hc i Hi) as Ht.
  rewrite Ho in Ht. destruct Ht as (ws & Hnd & Hall & Hlen & Hrest).
  rewrite decide_False in Hrest by done. destruct Hrest as [Em Hh].
  assert (HW : writes_rep a m 0 B i ws).
  { split; [done| |done|lia]. intros w Hw. pose proof (Hh w Hw) as Hhw. eapply holds_frame; [exact Hhw| |lia].
    destruct Hhw as (Hk & v & _ & _ & Hp & _). apply I2; [done|]. intros t v'. rewrite Hp. intros [= <- _]. lia. }
  pose proof (open_meta_ok _ _ _ _ _ _ (Z.le_refl 0) HW) as Hmeta.
  destruct (exec_restore_all d a m 0 B i ws HW) as (m1 & E1 & Hst & Ho1).
  unfold recover_txn. kv_step. rewrite (exec_GetTxnMeta d m i (mkTxnMeta kOpen 0 ws)) by (rewrite ?I4 by lia; done).
  cbn [tm_state tm_writes]. kv_step. rewrite E1. rewrite exec_PutTxnMeta. eexists. split; [reflexivity|].
  set (m2 := <[TxnKey i := _]> m1). assert (Ho2 : off (fun K => K = TxnKey i) m1 m2) by (by apply off_insert).
  eapply (rec_inv_next i m0 d m); try done.
  - by rewrite loaded_step.
  - eapply off_trans; [eapply off_weaken; [|exact Ho1]; by left|]. eapply off_weaken; [|exact Ho2]. by right; right.
  - intros k Hk [v Hp]. destruct (Hst k Hk v Hp) as [recs Hch]. exists recs. unfold recovered_hist. rewrite Hp, decide_False by done.
    eapply chain_frame; [exact Hch| |lia]. eapply off_same_row; [exact Ho2|]. intros K HK. by eapply row_key_not_txn.
  - eapply (ended_now _ _ (mkTxnMeta kAborted 0 [])); [|by right|apply lookup_insert_eq].
    split; cbn; [done|unfold fits64; lia|constructor|lia].
  - eapply (oracles_frame d _ m1); [|exact Ho2| |done..].
    + eapply oracles_frame; [exact I7|exact Ho1| |done..]. intros K HK (k & _ & _ & H). by eapply row_key_not_oracle.
    + intros K HK ->. by apply txn_not_oracle in HK.
Qed.

Lemma exec_recover_from m0 n : forall i d m, crashed m0 -> rec_inv i m0 d m -> 0 < i -> i + Z.of_nat n = si_next_txn a ->
  exists d' m', exec (recover_from n i) (d, m) = (Ret tt, (d', m')) /\ rec_inv (si_next_txn a) m0 d' m'.
Proof.
  induction n as [|n IH]; intros i d m Hc Hri Hi Hn; cbn [recover_from].
  - exists d, m. rewrite exec_ret. split; [done|]. by replace (si_next_txn a) with i by lia.
  - assert (Hstep : exists d1 m1, exec (recover_txn i) (d, m) = (Ret tt, (d1, m1)) /\ rec_inv (i + 1) m0 d1 m1).
    { destruct (si_open a !! i) as [start|] eqn:Ho; [destruct (decide (C = Some i))|].
      - apply recover_committing; try done. lia.
      - destruct (recover_open i m0 d m) as (m1 & H); try done; [lia|]. eauto.
      - exists d, m. apply recover_ended; try done. lia. }
    destruct Hstep as (d1 & m1 & E1 & Hri1). kv_step. rewrite E1. apply IH; [done|done|lia|lia].
Qed.

(** What recovery makes of the state before the crash. *)
Definition recovered : SI := match C with Some t => si_commit t a | None => a end.

Lemma recovered_hist_eq k : recovered_hist k = si_hist recovered k.
Proof.
  unfold recovered_hist, recovered. destruct C as [t|]; cbn; destruct (si_prov a k) as [[t' v]|]; try done.
  destruct (Z.eqb_spec t' t) as [->|]; [by rewrite decide_True|by rewrite decide_False by congruence].
Qed.
End Recovery.

(** After a restart no transaction is open. *)
Definition si_restart (a : SI) : SI := mkSI (si_tables a) (si_hist a) (fun _ => None) ∅ (si_last a) (si_next_txn a).

Lemma si_inv_restart a : si_inv a -> si_inv (si_restart a).
Proof. by intros [H1 H2 H3 H4 H5]. Qed.

Lemma exec_sys_open a B C m N : crashed a B C m -> 0 <= N < 2 ^ 32 -> si_last a + N + 3 < 2 ^ 64 ->
  si_next_txn a + N + 1 < 2 ^ 64 -> B + N + 1 < 2 ^ 64 ->
  exists s' m', exec sys_open (Sys_new, m) = (Ret tt, (s', m')) /\
    sys_rep (si_next_txn a) N (si_restart (recovered a C)) s' m'.
Proof.
  intros Hc HN R1 R2 R3. unfold sys_open. rewrite exec_zoom. cbn [Sys_new sys_db]. unfold Database_Open, RecoverTxns.
  rewrite exec_bind, (exec_InitOracles a B C m Hc). kv_step. pose proof (cs_bounds a B C m Hc) as (_ & B2 & _).
  pose proof (cs_inv a B C m Hc) as Hi.
  destruct (exec_recover_from a B C m (Z.to_nat (si_next_txn a - 1)) 1 (loaded_db a B (si_last a + 1)) m Hc) as (d' & m' & E & Hri);
    [by apply rec_inv_start|lia|lia|].
  change (next_txn_id_ (loaded_db a B (si_last a + 1))) with (si_next_txn a). rewrite E. eexists _, m'. split; [reflexivity|]. cbn [sys_txns fst snd].
  destruct Hri as [I1 I2 I3 I4 I5 I6 I7 I8].
  assert (Hrec : si_inv (recovered a C) /\ si_tables (recovered a C) = si_tables a /\ si_next_txn (recovered a C) = si_next_txn a /\
    next_ts_ d' = si_last (recovered a C) + 1 /\ si_last a <= si_last (recovered a C) <= si_last a + 1).
  { rewrite I1. unfold recovered. destruct C as [t|] eqn:EC.
    - destruct (cs_committing _ _ _ _ Hc t eq_refl) as [start Ho]. destruct (sv_open _ Hi _ _ Ho) as [_ Ht].
      split; [by eapply si_inv_commit|]. split; [done|]. split; [done|]. cbn. destruct (Z.ltb_spec t (si_next_txn a)); lia.
    - split; [done|]. split; [done|]. split; [done|]. cbn. lia. }
  destruct Hrec as (Ri & Rt & Rn & Rts & Rl).
  split; cbn [si_restart si_open si_tables si_hist si_prov si_last si_next_txn sys_db sys_txns]; try done.
  - by apply si_inv_restart.
  - by rewrite I1, Rn.
  - rewrite Rn, I1. cbn. pose proof (cs_room _ _ _ _ Hc). lia.
  - by rewrite I1.
  - by rewrite I1.
  - rewrite Rt, I1. cbn [loaded_db catalog_]. destruct (cs_tables _ _ _ _ Hc) as [T1 T2 T3]. split; [|done|done].
    intros n. by rewrite I6.
  - intros k Hk. rewrite I1. cbn [loaded_db next_version_id_]. rewrite <- recovered_hist_eq.
    destruct (si_prov a k) as [[t v]|] eqn:Ep.
    + destruct (prov_range a B C m k t v Hc Ep) as [_ Ht]. apply (I3 k t v Ep). lia.
    + unfold recovered_hist. rewrite Ep. destruct (cs_rows _ _ _ _ Hc k Hk Ep) as [recs Hch]. exists recs.
      eapply chain_frame; [exact Hch| |lia]. apply I2; [done|]. intros t v. by rewrite Ep.
  - intros t Ht. rewrite Rn in Ht. rewrite lookup_empty. split; [apply I5; lia|]. unfold finished_rep. lia.
  - by rewrite Rt.
Qed.

(** * Where a crash can strike *)

(** Between operations. *)
Lemma sys_rep_crashed first N a s m : 0 <= N -> sys_rep first N a s m -> crashed a (next_version_id_ (sys_db s)) None m.
Proof.
  intros HN Hs. pose proof Hs as [H1 H2 H3 H4 H5 H6 H7 H8 H9 H10 H11 H12]. split; try done.
  - lia.
  - by destruct H7.
  - intros k Hk Hp. rewrite <- Hp. by apply H8.
  - intros t Ht. specialize (H10 t Ht). destruct (si_open a !! t) as [start|]; [|by destruct H10].
    destruct H10 as (tr & _ & _ & [K1 K2 [W1 W2 W3 W4] K4]). exists (written_ tr). split; [done|]. split; [done|].
    split; [lia|]. by rewrite decide_False.
  - intros K HK. rewrite H11 by done. unfold with_oracles. cbn. by rewrite H2, H3.
Qed.

Lemma exec_with_txn_crash {A} t (p : TxM A) f d txns m tr m' : txns !! t = Some tr ->
  crash_at (with_txn t p f) (mkSys d txns, m) m' -> crash_at p ((d, tr), m) m' \/ m' = (exec p ((d, tr), m)).2.2.
Proof.
  intros Et [n E]. unfold with_txn in E. cbn [fst snd sys_txns] in E. rewrite Et in E.
  assert (H : crash_at (r ← ktry p; mret (reply f r)) ((d, tr), m) m' \/ m' = (exec (r ← ktry p; mret (reply f r)) ((d, tr), m)).2.2).
  { eapply (crash_zoom (fun s => (sys_db s, tr)) (fun dt s => mkSys dt.1 (<[t := dt.2]> (sys_txns s))) _ (mkSys d txns)).
    exists n. exact E. }
  rewrite exec_bind, exec_try in H. destruct H as [H|H].
  - apply crash_bind in H as [H|H]; [apply crash_try in H as [H|H]; [by left|by right]|]. right. rewrite exec_try in H.
    destruct (exec p (d, tr, m)) as [[x|e|] sm]; [by apply crash_ret in H..|done].
  - right. destruct (exec p (d, tr, m)) as [[x|e|] [[d' tr'] m1]]; rewrite ?exec_ret in H; done.
Qed.

(** The check before a commit only reads. *)
Lemma crash_commit_check d tr a m B t start ws m' : start_ts_ tr = start ->
  (forall k v, si_prov a k = Some (t, v) -> Forall (fun x => x.1 <= start) (si_hist a k)) ->
  (forall w, w ∈ ws -> holds a m B t w) -> crash_at (commit_check ws) ((d, tr), m) m' -> m' = m.
Proof.
  intros Hst Hold Hh. induction ws as [|w ws IH]; [by intros H%crash_ret|]. cbn [commit_check]. fold_wkey w. unfold the_txn.
  destruct (Hh w ltac:(by left)) as (Hk & v & r & rs & Hp & [Hl Hhd _ (r0 & rs0 & [= <- <-] & _ & Hcm)] & Hid).
  cbn [first_id] in Hl. pose proof Hl as (_ & Hlt & Hr & Hm & Hl'). rewrite Hid.
  assert (IH' : crash_at (commit_check ws) ((d, tr), m) m' -> m' = m) by (apply IH; intros w' Hw'; apply Hh; by right).
  intros H. apply crash_bind in H as [H|H]; [by apply crash_gets in H|]. rewrite exec_gets in H.
  apply crash_bind in H as [H|H]; [by apply crash_GetLatest in H|].
  rewrite (exec_GetLatest _ m (wkey w) (vr_id r)) in H by (done || apply Hr). rewrite Z.eqb_refl in H. cbn [negb] in H.
  apply crash_bind in H as [H|H]; [by apply crash_GetVersion in H|].
  rewrite (exec_GetVersion _ m (wkey w) (vr_id r) r) in H by done.
  destruct rs as [|r1 rs].
  { cbn [links] in Hl'. rewrite Hl' in H. change (0 =? 0) with true in H. cbn iota in H.
    apply crash_bind in H as [H|H]; [by apply crash_ret in H|]. rewrite exec_ret in H. auto. }
  pose proof Hl' as (_ & Hlt1 & Hr1 & Hm1 & _). destruct (Z.eqb_spec (vr_prev_id r) 0); [lia|].
  specialize (Hold _ _ Hp). destruct (si_hist a (wkey w)) as [|[ts1 v1] h]; [done|]. destruct Hcm as (C1 & C2 & _).
  inversion_clear Hold. cbn [fst] in *.
  assert (Eg : exec (ktry (GetVersion (wkey w).1 (wkey w).2 (vr_prev_id r))) ((d, tr), m) = (Ret (inr r1), ((d, tr), m)))
    by (rewrite exec_try, (exec_GetVersion _ m (wkey w) (vr_prev_id r) r1); done).
  assert (Hread : forall m2, crash_at (ktry (GetVersion (wkey w).1 (wkey w).2 (vr_prev_id r))) ((d, tr), m) m2 -> m2 = m).
  { intros m2. apply (crash_try_read _ ((d, tr), m)); [apply crash_GetVersion|].
    by rewrite (exec_GetVersion _ m (wkey w) (vr_prev_id r) r1). }
  assert (Hcond : negb (is_provisional r1) && (vr_start_ts r1 >? start_ts_ tr) = false).
  { unfold is_provisional. rewrite C1, Hst, Z.gtb_ltb. by destruct (Z.eqb_spec ts1 0), (Z.ltb_spec start ts1); try lia. }
  apply crash_bind in H as [H|H].
  - apply crash_bind in H as [H|H]; [auto|]. rewrite Eg in H. cbn [snd fst] in H. rewrite Hcond in H. by apply crash_ret in H.
  - rewrite exec_bind, Eg in H. cbn [snd fst] in H. rewrite Hcond, exec_ret in H. auto.
Qed.

Lemma crash_PersistOracles d m m' : crash_at PersistOracles (d, m) m' ->
  m' = m \/ m' = <[kNextTsKey := PutFixed64 [] (next_ts_ d)]> m \/
  m' = <[kNextTxnKey := PutFixed64 [] (next_txn_id_ d)]> (<[kNextTsKey := PutFixed64 [] (next_ts_ d)]> m) \/
  m' = with_oracles d m.
Proof.
  unfold PersistOracles. intros H. apply crash_bind in H as [H|H]; [apply crash_gets in H; auto|]. rewrite exec_gets in H.
  apply crash_bind in H as [H|H]; [apply crash_Put in H as [->| ->]; auto|]. rewrite exec_Put in H.
  apply crash_bind in H as [H|H]; [apply crash_Put in H as [->| ->]; auto|]. rewrite exec_Put in H.
  apply crash_Put in H as [->| ->]; auto.
Qed.

Lemma crash_PutTxnMeta {S} (i : Z) (mt : TxnMeta) (sm : S * gmap bytes bytes) (m' : gmap bytes bytes) : crash_at (PutTxnMeta i mt) sm m' ->
  m' = sm.2 \/ m' = <[TxnKey i := EncodeTxnMeta mt]> sm.2.
Proof. apply crash_Put. Qed.

(** Recording the commit and recording the next timestamp are two writes; this is
    the store between them. *)
Definition commit_window (a : SI) (t : Z) (m' : gmap bytes bytes) : Prop :=
  m' !! TxnKey t = Some (EncodeTxnMeta (mkTxnMeta kCommitted (si_last a + 1) [])) /\
  m' !! kNextTsKey <> Some (PutFixed64 [] (si_last a + 2)).

(** The registry says [kCommitting] and the rows are anywhere in the middle. *)
Lemma mid_commit_crashed first N a s m t start ws m' : 0 <= N -> sys_rep first (N + 1) a s m -> si_open a !! t = Some start ->
  writes_rep a m (N + 1) (next_version_id_ (sys_db s)) t ws ->
  (forall w, w ∈ ws -> mid_row a (next_version_id_ (sys_db s)) t (si_last a + 1) m' w) -> off (finish_keys a t) m m' ->
  m' !! TxnKey t = Some (EncodeTxnMeta (mkTxnMeta kCommitting (si_last a + 1) ws)) ->
  oracles_rep (sys_db s) m' -> crashed a (next_version_id_ (sys_db s)) (Some t) m'.
Proof.
  intros HN Hs Ho [W1 W2 W3 W4] Hmid Hoff Em Hor. pose proof Hs as [H1 H2 H3 H4 H5 H6 H7 H8 H9 H10 H11 H12].
  destruct (sv_open _ H1 _ _ Ho) as [_ Ht]. set (B := next_version_id_ (sys_db s)) in *.
  assert (Hrow : forall k, key_ok k -> ~ held a t k -> same_row B k m m').
  { intros k Hk Hh. eapply off_same_row; [exact Hoff|]. intros K HK. by eapply finish_keys_row. }
  split; try done.
  - lia.
  - destruct H7 as [T1 T2 T3]. split; [|done|done]. intros n. by rewrite Hoff by apply finish_keys_table.
  - intros k Hk Hp. destruct (H8 k Hk) as [recs Hc]. rewrite Hp in Hc. exists recs. eapply chain_frame; [exact Hc| |lia].
    apply Hrow; [done|]. intros [v Hv]. congruence.
  - intros t' Ht'. specialize (H10 t' Ht'). destruct (decide (t' = t)) as [->|Hne].
    { rewrite Ho. exists ws. split; [done|]. split; [done|]. split; [lia|]. by rewrite decide_True. }
    assert (Et' : m' !! TxnKey t' = m !! TxnKey t').
    { apply Hoff, finish_keys_txn; [..|done]; by eapply (sr_txn_fits _ (N := N + 1)); [lia|exact Hs|]. }
    destruct (si_open a !! t') as [start'|]; [|destruct H10 as [He _]; by eapply ended_frame].
    destruct H10 as (tr & _ & _ & [K1 K2 [V1 V2 V3 V4] K4]). exists (written_ tr). split; [done|]. split; [done|].
    split; [lia|]. rewrite decide_False by congruence. rewrite Et'. split; [done|]. intros w Hw. pose proof (V2 w Hw) as Hh.
    pose proof Hh as (Hk & v & _ & _ & Hp & _). eapply holds_frame; [exact Hh| |lia]. apply Hrow; [done|]. intros [v' Hv]. congruence.
  - intros K HK. rewrite Hor by done. unfold with_oracles. cbn. by rewrite H2, H3.
  - intros t' [= <-]. eauto.
  - eapply heads_frame; [exact H12|done|exact Hoff|]. intros K [(k & Hk & [v Hp] & HK)|[H | ->]] Hd;
      [|by apply oracle_not_head in H|by apply txn_not_head in Hd]. destruct (H9 _ _ _ Hp) as [_ HT]. by eapply row_key_head.
Qed.

Lemma PutFixed64_inj i j : fits64 i -> fits64 j -> PutFixed64 [] i = PutFixed64 [] j -> i = j.
Proof.
  intros Hi Hj E. unfold PutFixed64 in E. rewrite !app_nil_l in E. pose proof (GetFixed64_put i [] Hi) as E1.
  rewrite E, GetFixed64_put in E1 by done. congruence.
Qed.

(** The last writes of a commit: before, between or after them. *)
Lemma crash_persist d d1 m3 m' a t : oracles_rep d m3 -> next_ts_ d = si_last a + 1 -> 0 <= si_last a ->
  si_last a + 2 < 2 ^ 64 -> d1 = with_next_ts (si_last a + 2) d ->
  m3 !! TxnKey t = Some (EncodeTxnMeta (mkTxnMeta kCommitted (si_last a + 1) [])) ->
  commit_window a t m3 /\ (crash_at PersistOracles (d1, m3) m' -> m' = m3 \/ m' = with_oracles d1 m3).
Proof.
  intros Hor Hts H0 Hlt -> Em. split.
  - split; [done|]. rewrite Hor by (by left). unfold with_oracles. rewrite !lookup_insert_ne, lookup_insert_eq by done.
    rewrite Hts. intros E.
    assert (E' : PutFixed64 [] (si_last a + 1) = PutFixed64 [] (si_last a + 2)) by congruence.
    apply PutFixed64_inj in E'; [lia|unfold fits64; lia..].
  - set (d1 := with_next_ts _ d). set (m4 := <[kNextTsKey := PutFixed64 [] (next_ts_ d1)]> m3).
    assert (Et : m4 !! kNextTxnKey = Some (PutFixed64 [] (next_txn_id_ d1))).
    { unfold m4. rewrite lookup_insert_ne by done. rewrite Hor by (by right; left). reflexivity. }
    assert (Ev : m4 !! kNextVidKey = Some (PutFixed64 [] (next_version_id_ d1))).
    { unfold m4. rewrite lookup_insert_ne by done. rewrite Hor by (by right; right). reflexivity. }
    assert (E4 : with_oracles d1 m3 = m4).
    { unfold with_oracles. fold m4. rewrite (insert_id m4 kNextTxnKey) by done. by apply insert_id. }
    rewrite E4. intros H. apply crash_PersistOracles in H. fold m4 in H. rewrite (insert_id m4 kNextTxnKey), E4 in H by done.
    tauto.
Qed.

(** The commit of an open transaction, interrupted anywhere. *)
Lemma crash_commit first N a d txns m t start tr m' : 0 <= N -> 0 < first -> sys_rep first (N + 1) a (mkSys d txns) m ->
  first <= t < si_next_txn a -> si_open a !! t = Some start -> txns !! t = Some tr ->
  crash_at CommitTransaction ((d, tr), m) m' ->
  m' = m \/ crashed a (next_version_id_ d) (Some t) m' \/ commit_window a t m' \/
  m' = (exec CommitTransaction ((d, tr), m)).2.2.
Proof.
  intros HN Hf Hs Ht Ho Et Hcr. destruct (sr_open _ t start Hs Ho) as (tr0 & E0 & Hid & [K1 K2 HW K4]).
  cbn in E0. rewrite Et in E0. injection E0 as <-. pose proof HW as [W1 W2 W3 W4].
  pose proof (sr_room _ _ _ _ _ Hs) as (R0 & R1 & R2 & R3 & R4). pose proof (sr_bounds _ Hs) as [Hl0 _]. cbn [sys_db] in *.
  pose proof (sr_ts _ _ _ _ _ Hs) as Hts. cbn [sys_db] in Hts.
  assert (Hold : forall k v, si_prov a k = Some (t, v) -> Forall (fun x => x.1 <= start) (si_hist a k)).
  { intros k v Hp. destruct (sv_prov _ (sr_inv _ _ _ _ _ Hs) _ _ _ Hp) as (s' & Ho' & Hfa). rewrite Ho in Ho'. by injection Ho' as <-. }
  unfold CommitTransaction, the_txn in Hcr.
  apply crash_bind in Hcr as [Hcr|Hcr]; [left; by apply crash_gets in Hcr|]. rewrite exec_gets in Hcr. cbn [fst snd] in Hcr.
  apply crash_bind in Hcr as [Hcr|Hcr]; [left; by apply crash_fail_if in Hcr|]. rewrite exec_fail_if, K1 in Hcr.
  apply crash_bind in Hcr as [Hcr|Hcr]; [left; by eapply crash_commit_check|].
  rewrite (exec_commit_check d tr a m (next_version_id_ d) t start (written_ tr)) in Hcr by done.
  apply crash_bind in Hcr as [Hcr|Hcr].
  { left. unfold on_db in Hcr. apply crash_zoom in Hcr as [[n <-]|Hcr]; [done|]. by rewrite exec_post_incr in Hcr. }
  rewrite exec_on_db, exec_post_incr in Hcr. cbn beta iota zeta in Hcr. rewrite Hts, Hid in Hcr.
  assert (Eu : u64 (si_last a + 1 + 1) = si_last a + 2) by (rewrite u64_small; lia). rewrite Eu in Hcr.
  set (d1 := with_next_ts (si_last a + 2) d) in *. set (m1 := <[TxnKey t := EncodeTxnMeta (mkTxnMeta kCommitting (si_last a + 1) (written_ tr))]> m).
  assert (Ho1 : off (fun K => K = TxnKey t) m m1) by (by apply off_insert).
  assert (HW1 : writes_rep a m1 (N + 1) (next_version_id_ d) t (written_ tr)).
  { eapply writes_rep_frame; [exact HW|exact Ho1|]. intros k _ K HK. by eapply row_key_not_txn. }
  assert (Hor1 : oracles_rep d m1).
  { eapply oracles_frame; [apply Hs|exact Ho1| |done..]. intros K HK ->. by apply txn_not_oracle in HK. }
  assert (Hmidcrash : forall m2, (forall w, w ∈ written_ tr -> mid_row a (next_version_id_ d) t (si_last a + 1) m2 w) ->
    off (held_keys a t) m1 m2 -> crashed a (next_version_id_ d) (Some t) m2).
  { intros m2 Hm2 Ho2. eapply (mid_commit_crashed first N a (mkSys d txns) m); try done.
    - eapply off_trans; [eapply off_weaken; [|exact Ho1]|eapply off_weaken; [|exact Ho2]]; [by right; right|by left].
    - rewrite Ho2; [apply lookup_insert_eq|]. intros (k & _ & _ & H). by eapply row_key_not_txn.
    - eapply oracles_frame; [exact Hor1|exact Ho2| |done..]. intros K HK (k & _ & _ & H). by eapply row_key_not_oracle. }
  assert (Hmid1 : forall w, w ∈ written_ tr -> mid_row a (next_version_id_ d) t (si_last a + 1) m1 w)
    by (intros w Hw; by apply holds_mid, (wr_holds _ _ _ _ _ _ HW1)).
  assert (Htspos : 0 < si_last a + 1) by lia. assert (Htsfit : fits64 (si_last a + 1)) by (unfold fits64; lia).
  apply crash_bind in Hcr as [Hcr|Hcr].
  { apply crash_PutTxnMeta in Hcr as [->| ->]; [by left|]. right; left. apply Hmidcrash; [done|apply off_refl]. }
  rewrite exec_PutTxnMeta in Hcr. fold m1 in Hcr.
  apply crash_bind in Hcr as [Hcr|Hcr].
  { right; left. destruct (crash_apply_mid _ _ _ _ Htspos Htsfit _ _ _ _ W1 Hmid1 Hcr) as [Hm2 Ho2]. apply Hmidcrash; [done|].
    eapply off_weaken; [|exact Ho2]. intros K. by eapply writes_finish. }
  destruct (exec_apply_mid _ _ _ _ Htspos Htsfit ((d1, tr)) m1 _ W1 Hmid1) as (m2 & E2 & Hst2 & Ho2). rewrite E2 in Hcr.
  assert (Ho2' : off (held_keys a t) m1 m2) by (eapply off_weaken; [|exact Ho2]; intros K; by eapply writes_finish).
  set (m3 := <[TxnKey t := EncodeTxnMeta (mkTxnMeta kCommitted (si_last a + 1) [])]> m2).
  assert (Hor3 : oracles_rep d m3).
  { eapply (oracles_frame d d m2); [eapply oracles_frame; [exact Hor1|exact Ho2'| |done..]|by apply (off_insert (fun K => K = TxnKey t))| |done..].
    - intros K HK (k & _ & _ & H). by eapply row_key_not_oracle.
    - intros K HK ->. by apply txn_not_oracle in HK. }
  destruct (crash_persist d d1 m3 m' a t Hor3 Hts Hl0 ltac:(lia) eq_refl (lookup_insert_eq _ _ _)) as [Hwin Hpers].
  assert (Efinal : (exec CommitTransaction ((d, tr), m)).2.2 = with_oracles d1 m3).
  { unfold CommitTransaction, the_txn. kv_step. rewrite K1. kv_step.
    rewrite (exec_commit_check d tr a m (next_version_id_ d) t start (written_ tr)) by done. kv_step.
    rewrite exec_on_db, exec_post_incr. kv_step. rewrite Hts, Hid, Eu, exec_PutTxnMeta. fold m1 d1. kv_step. rewrite E2. kv_step.
    rewrite exec_PutTxnMeta. fold m3. kv_step. rewrite exec_on_db, exec_PersistOracles. kv_step. done. }
  rewrite Efinal. apply crash_bind in Hcr as [Hcr|Hcr].
  { apply crash_PutTxnMeta in Hcr as [->| ->]; [|by right; right; left]. right; left. apply Hmidcrash; [|done].
    intros w Hw. by apply stamped_mid, Hst2. }
  rewrite exec_PutTxnMeta in Hcr. fold m3 in Hcr. apply crash_bind in Hcr as [Hcr|Hcr].
  { unfold on_db in Hcr. apply crash_zoom in Hcr as [Hcr|Hcr].
    - destruct (Hpers Hcr) as [->| ->]; [by right; right; left|by right; right; right].
    - right; right; right. cbn [fst] in Hcr. by rewrite exec_PersistOracles in Hcr. }
  rewrite exec_on_db, exec_PersistOracles in Hcr. right; right; right. by apply crash_modify in Hcr.
Qed.

(** * Restarting *)

Lemma restart_runs a B C m ops : crashed a B C m -> Z.of_nat (length ops) < 2 ^ 32 ->
  si_last a + Z.of_nat (length ops) + 3 < 2 ^ 64 -> si_next_txn a + Z.of_nat (length ops) + 1 < 2 ^ 64 ->
  B + Z.of_nat (length ops) + 1 < 2 ^ 64 -> ops_ok (si_next_txn a) (si_next_txn a) ops ->
  exists sm, exec (session ops) (Sys_new, m) = (Ret (si_run ops (si_restart (recovered a C))).1, sm).
Proof.
  intros Hc Hl R1 R2 R3 Hops. pose proof (cs_bounds _ _ _ _ Hc) as (_ & Hn & _).
  destruct (exec_sys_open a B C m (Z.of_nat (length ops)) Hc) as (s1 & m1 & E1 & Hs1); [lia..|].
  unfold session. rewrite exec_bind, E1.
  assert (En : si_next_txn (si_restart (recovered a C)) = si_next_txn a) by (unfold recovered; by destruct C).
  destruct (sys_run_refines (si_next_txn a) Hn 0 ops (Z.le_refl 0) (si_restart (recovered a C)) s1 m1) as (s2 & m2 & E2 & _);
    [done|by rewrite En|]. by exists (s2, m2).
Qed.

(** * Properties *)

(** C13: committed data survive a restart, and only they, on a store that keeps what was
    written to it.  After any calls, the database is dropped without closing anything
    (a crash between calls) and opened again on the same store: every call [ops'] made then is answered as by the abstract
    machine restarted in the committed state, with every transaction that was open
    rolled back. *)
Theorem restart_keeps_committed (ops ops' : list TOp) :
  let a := (si_run ops SI_new).2 in
  Z.of_nat (length ops) + Z.of_nat (length ops') + 3 < 2 ^ 32 -> ops_ok 1 1 ops ->
  ops_ok (si_next_txn a) (si_next_txn a) ops' ->
  exists s m sm', exec (session ops) (Sys_new, ∅) = (Ret (si_run ops SI_new).1, (s, m)) /\
    exec (session ops') (Sys_new, m) = (Ret (si_run ops' (si_restart a)).1, sm').
Proof.
  intros a Hl Hops Hops'.
  destruct (new_database_si (Z.of_nat (length ops') + 2) ops) as (s & m & E & Hs); [lia|lia|done|].
  pose proof (sr_room _ _ _ _ _ Hs) as (_ & R1 & R2 & R3 & R4). fold a in Hs, R1, R2, R3, R4.
  destruct (restart_runs a _ None m ops' (sys_rep_crashed _ (Z.of_nat (length ops') + 2) _ _ _ ltac:(lia) Hs)) as (sm' & E'); [lia..|done|].
  exists s, m, sm'. done.
Qed.

Lemma restart_keeps_committed_witness :
  let users := lit "users" in
  let ops := [TCreate sample_schema; TBegin; TInsert 1 users (sample_row (lit "ann")); TCommit 1; TBegin;
              TUpdate 2 users (sample_row (lit "bob"))] in
  exists s m sm', exec (session ops) (Sys_new, ∅) = (Ret (si_run ops SI_new).1, (s, m)) /\
    exec (session [TBegin; TGet 3 users (VInt64 7)]) (Sys_new, m) = (Ret [RTxn 3; RRow (sample_row (lit "ann"))], sm').
Proof.
  intros users ops. apply (restart_keeps_committed ops [TBegin; TGet 3 users (VInt64 7)]); [reflexivity|..];
    apply (bool_decide_unpack _); vm_compute; exact I.
Defined.

(** C4: commit is atomic and durable.  The process crashes after the first [n]
    store writes of the commit of an open transaction [t], for any [n].  Unless the
    crash falls between the write that records the commit and the write that
    records the next timestamp, opening the database again finds [t] either
    committed as a whole or rolled back as a whole, every other open transaction
    rolled back, and all calls answered by the abstract machine in that state; and
    [t] is committed if all writes of the commit were done. *)
Theorem commit_is_atomic (ops ops' : list TOp) (t : Z) (n : nat) :
  let a := (si_run ops SI_new).2 in
  Z.of_nat (length ops) + Z.of_nat (length ops') + 5 < 2 ^ 32 -> ops_ok 1 1 ops -> is_Some (si_open a !! t) ->
  ops_ok (si_next_txn a) (si_next_txn a) ops' ->
  exists s m, exec (session ops) (Sys_new, ∅) = (Ret (si_run ops SI_new).1, (s, m)) /\
    let m' := run_crash n (sys_step (TCommit t) s) m in
    commit_window a t m' \/
    exists (committed : bool) sm', (m' = (exec (sys_step (TCommit t)) (s, m)).2.2 -> committed = true) /\
      exec (session ops') (Sys_new, m') = (Ret (si_run ops' (si_restart (if committed then si_commit t a else a))).1, sm').
Proof.
  intros a Hl Hops [start Ho] Hops'.
  destruct (new_database_si (Z.of_nat (length ops') + 4) ops) as (s & m & E & Hs); [lia|lia|done|]. fold a in Hs.
  exists s, m. split; [done|]. set (m' := run_crash n _ m). destruct s as [d txns].
  destruct (sv_open _ (sr_inv _ _ _ _ _ Hs) _ _ Ho) as [_ Ht].
  replace (Z.of_nat (length ops') + 4) with (Z.of_nat (length ops') + 3 + 1) in Hs by lia.
  destruct (sr_open _ t start Hs Ho) as (tr & Et & Hid & Hopen). cbn [sys_txns] in Et.
  pose proof (sr_room _ _ _ _ _ Hs) as (_ & R1 & R2 & R3 & R4). cbn [sys_db] in *.
  destruct (step_commit 1 ltac:(lia) (Z.of_nat (length ops') + 3) a d txns m t ltac:(lia) Hs ltac:(lia)) as (s2 & m2 & E2 & Hs2).
  cbn [si_step] in Hs2. rewrite Ho in Hs2. cbn [snd] in Hs2. rewrite E2. cbn [snd].
  pose proof (sr_room _ _ _ _ _ Hs2) as (_ & Q1 & Q2 & Q3 & Q4). cbn [si_commit si_last si_next_txn] in Q1, Q2.
  destruct (decide (m' = m2)) as [->|Hne].
  { right. destruct (restart_runs _ _ None m2 ops' (sys_rep_crashed _ (Z.of_nat (length ops') + 3) _ _ _ ltac:(lia) Hs2)) as (sm' & E'); [cbn; lia..|done|].
    exists true, sm'. done. }
  assert (Hcr : crash_at (with_txn t Transaction_Commit done_reply) (mkSys d txns, m) m') by (by exists n).
  cbn [sys_step] in E2. rewrite (exec_with_txn _ _ _ _ _ _ tr Et) in E2.
  apply (exec_with_txn_crash t _ _ d txns m tr) in Hcr; [|done].
  assert (Efin : (exec Transaction_Commit ((d, tr), m)).2.2 = m2).
  { destruct (exec Transaction_Commit ((d, tr), m)) as [[x|e|] [[d' tr'] m3]]; by injection E2 as _ _ <-. }
  destruct Hcr as [Hcr|Hcr]; [|by rewrite Efin in Hcr].
  destruct Hopen as [K1 _ _ _]. unfold Transaction_Commit, the_txn in Hcr, Efin. rewrite exec_bind, exec_gets in Efin.
  cbn [fst snd] in Efin. rewrite exec_bind, exec_fail_if, K1 in Efin.
  assert (Hcases : m' = m \/ crashed a (next_version_id_ d) (Some t) m' \/ commit_window a t m' \/ m' = m2).
  { apply crash_bind in Hcr as [Hcr|Hcr]; [left; by apply crash_gets in Hcr|]. rewrite exec_gets in Hcr. cbn [fst snd] in Hcr.
    apply crash_bind in Hcr as [Hcr|Hcr]; [left; by apply crash_fail_if in Hcr|]. rewrite exec_fail_if, K1 in Hcr.
    rewrite <- Efin. eapply (crash_commit 1 (Z.of_nat (length ops') + 3)); try done; lia. }
  destruct Hcases as [Em|[Hc|[Hw|Em]]]; [| |by left|done]; right.
  - destruct (restart_runs a _ None m ops' (sys_rep_crashed _ (Z.of_nat (length ops') + 3 + 1) _ _ _ ltac:(lia) Hs)) as (sm' & E'); [cbn; lia..|done|].
    exists false, sm'. split; [by intros ?|]. by rewrite Em.
  - destruct (restart_runs a _ (Some t) m' ops' Hc) as (sm' & E'); [cbn in *; lia..|done|]. exists true, sm'. done.
Qed.

(** A row is inserted and committed, then updated by transaction 2. *)
Definition crash_ops : list TOp :=
  let users := lit "users" in
  [TCreate sample_schema; TBegin; TInsert 1 users (sample_row (lit "ann")); TCommit 1; TBegin;
   TUpdate 2 users (sample_row (lit "bob"))].

Lemma commit_is_atomic_witness :
  let a := (si_run crash_ops SI_new).2 in
  let ops' := [TBegin; TGet 3 (lit "users") (VInt64 7)] in
  exists s m, exec (session crash_ops) (Sys_new, ∅) = (Ret (si_run crash_ops SI_new).1, (s, m)) /\
    let m' := run_crash 2 (sys_step (TCommit 2) s) m in
    commit_window a 2 m' \/
    exists (committed : bool) sm', (m' = (exec (sys_step (TCommit 2)) (s, m)).2.2 -> committed = true) /\
      exec (session ops') (Sys_new, m') = (Ret (si_run ops' (si_restart (if committed then si_commit 2 a else a))).1, sm').
Proof.
  intros a ops'. apply (commit_is_atomic crash_ops ops' 2 2); [reflexivity| |by exists 1|];
    apply (bool_decide_unpack _); vm_compute; exact I.
Defined.

(** The crash window of a commit is real.  The commit of an update writes
    four records; if the process crashes after them, before the next timestamp is
    recorded, the reopened database first shows the old row to a new transaction
    and, after that transaction committed without writing anything, shows the new
    row to the next one: the commit appears after the fact. *)
Theorem commit_window_defect :
  let before := exec (session crash_ops) (Sys_new, ∅) in
  let m' := run_crash 4 (sys_step (TCommit 2) before.2.1) before.2.2 in
  let get t := TGet t (lit "users") (VInt64 7) in
  (exec (session [TBegin; get 3; TCommit 3; TBegin; get 4]) (Sys_new, m')).1 =
    Ret [RTxn 3; RRow (sample_row (lit "ann")); RCode kOk; RTxn 4; RRow (sample_row (lit "bob"))].
Proof. vm_compute. reflexivity. Qed.
