(* ===== verification/TxnScan.v ===== *)
(** Table scans ([Transaction::Scan] and [TableRowScan] of src/reldb/txn.cpp):
    a scan of a table shows exactly the rows its transaction can read, in the
    order of their encoded keys. *)
From S2P Require Import Prelude Status Slice Encoding Env Types Schema Row Kv Mvcc DbIter.
From S2P Require Import Catalog Database Txn SnapIso TxnRep TxnRefine TxnIsolation.

(** * Prefixes and the byte order *)

Lemma HasPrefix_spec K P : HasPrefix K P = true <-> exists rest, K = P ++ rest.
Proof. unfold HasPrefix. apply (starts_with_spec K P). Qed.

Lemma lex_app_same P a b : lex (P ++ a) (P ++ b) = lex a b.
Proof. induction P as [|x P IH]; [done|]. cbn. by rewrite Z.compare_refl. Qed.

Lemma lex_prefix P a : lex P (P ++ a) <> Gt.
Proof. rewrite <- (app_nil_r P) at 1. rewrite lex_app_same. by destruct a. Qed.

Lemma lex_lt_trans a b c : lex a b = Lt -> lex b c = Lt -> lex a c = Lt.
Proof. rewrite <- !Slice_compare_lex. by apply (ord_lt_trans (fun _ => True)). Qed.

(** The keys with a prefix are an interval. *)
Lemma prefix_interval P : forall K a, lex P K <> Gt -> lex K (P ++ a) <> Gt -> exists rest, K = P ++ rest.
Proof.
  induction P as [|x P IH]; intros K a H1 H2; [by exists K|]. destruct K as [|y K]; cbn in H1, H2; [done|].
  destruct (Z.compare_spec (bz x) (bz y)) as [E|E|E]; [|destruct (Z.compare_spec (bz y) (bz x)); [lia|lia|done]|done].
  apply bz_inj in E as ->. rewrite Z.compare_refl in H2. destruct (IH K a H1 H2) as [rest ->]. by exists rest.
Qed.

(** * The rows of a range *)

Definition table_prefix (table : bytes) : bytes := lit "d/" ++ table ++ lit "/".
Lemma hkey_prefix table pk : hkey (table, pk) = table_prefix table ++ EncodePkForKey pk.
Proof. unfold hkey, RowHeadKey, table_prefix. by rewrite <- !app_assoc. Qed.

(** The bounds of a scan compare encoded keys. *)
Definition in_range (lo hi : option Value) (pk : Value) : Prop :=
  match lo with Some v => lex (EncodePkForKey v) (EncodePkForKey pk) <> Gt | None => True end /\
  match hi with Some v => lex (EncodePkForKey pk) (EncodePkForKey v) = Lt | None => True end.

(** No other table has a name below that of [table]. *)
Definition separate (T : gmap bytes TableSchema) (table : bytes) : Prop :=
  map_Forall (fun n _ => ~ (table ++ [slash]) `prefix_of` n) T.
#[global] Instance separate_dec T table : Decision (separate T table).
Proof. unfold separate. apply _. Defined.

(** Open a scan and walk it to its end. *)
Definition table_scan (table : bytes) (lo hi : option Value) (fuel : nat) : TxM (list (Value * Row)) :=
  sc ← Transaction_Scan table lo hi;
  scan_rows fuel sc.

Definition pk_order (x y : Value * Row) : Prop := lex (EncodePkForKey x.1) (EncodePkForKey y.1) = Lt.

Section Scan.
Context (N : Z) (a : SI) (s : Sys) (m : gmap bytes bytes) (t start : Z) (table : bytes) (lo hi : option Value).
Context (N_pos : 0 <= N) (rep : sys_rep 1 N a s m) (opened : si_open a !! t = Some start).
Context (sep : separate (si_tables a) table).

Let P := table_prefix table.
Let end_key := (fun pk => RowHeadKey table (EncodePkForKey pk)) <$> hi.

(** The keys a scan looks at. *)
Definition inside (K : bytes) : bool :=
  HasPrefix K P && match end_key with Some e => bool_decide (lex K e = Lt) | None => true end.

(** The rows of the pairs [es]: those up to the end of the range that the
    transaction can read. *)
Fixpoint shown (es : list (bytes * bytes)) : list (Value * Row) :=
  match es with
  | [] => []
  | (K, _) :: es =>
    if inside K then
      match DecodePkFromKey (PkHexFromHeadKey K P) with
      | Ret pk =>
        match si_read a t start (table, pk) with
        | Some row => (pk, row) :: shown es
        | None => shown es
        end
      | _ => []
      end
    else []
  end.

(** A key under the prefix of the table is the head of one of its rows. *)
Lemma scan_head rest v : m !! (P ++ rest) = Some v -> exists pk, rest = EncodePkForKey pk /\ key_ok (table, pk).
Proof.
  intros Em.
  assert (Hk : forall k, head_of (si_tables a) k (P ++ rest) -> rest = EncodePkForKey k.2 /\ k.1 = table /\ key_ok k).
  { intros k (Hk & HT & E). unfold P, table_prefix, hkey, RowHeadKey in E. rewrite <- !app_assoc in E. apply app_inv_head in E.
    cbn [app lit] in E. apply app_eq_inv in E as [(r & E1 & E2)|(r & E1 & E2)]; destruct r as [|c r].
    - rewrite app_nil_r in E1. cbn in E2. injection E2 as ->. done.
    - injection E2 as <- E2. destruct (ToHex_no_slash (EncodeValue k.2)).
      fold (EncodePkForKey k.2). rewrite E2. set_solver.
    - rewrite app_nil_r in E1. cbn in E2. injection E2 as ->. done.
    - injection E2 as <- E2. destruct HT as [sch HT]. destruct (sep _ _ HT). exists r. by rewrite E1, <- app_assoc. }
  destruct (DecodePkFromKey rest) as [pk|e|] eqn:Ed.
  - destruct (decide (rest = EncodePkForKey pk /\ key_ok (table, pk))) as [[-> H]|Hn]; [by exists pk|].
    rewrite (sr_heads _ _ _ _ _ rep) in Em; [done|done|]. intros k Hh. destruct (Hk k Hh) as (-> & E1 & Hok).
    rewrite DecodePkFromKey_Encode in Ed by apply Hok. injection Ed as <-. destruct Hn. split; [done|]. by destruct k; cbn in *; subst.
  - rewrite (sr_heads _ _ _ _ _ rep) in Em; [done|done|]. intros k Hh. destruct (Hk k Hh) as (-> & _ & Hok).
    by rewrite DecodePkFromKey_Encode in Ed by apply Hok.
  - rewrite (sr_heads _ _ _ _ _ rep) in Em; [done|done|]. intros k Hh. destruct (Hk k Hh) as (-> & _ & Hok).
    by rewrite DecodePkFromKey_Encode in Ed by apply Hok.
Qed.

(** The scan [sc] is this scan. *)
Record scan_ok (sc : TableRowScan) : Prop := {
  so_txn : sc_txn_id sc = t;
  so_start : sc_start_ts sc = start;
  so_table : sc_table sc = table;
  so_prefix : sc_prefix sc = P;
  so_end : sc_end_key sc = end_key;
  so_it : cur_end (sc_it sc) = OK;
  so_status : sc_status sc = OK
}.
Definition in_store (es : list (bytes * bytes)) : Prop := forall K v, (K, v) ∈ es -> m !! K = Some v.
Definition good (es : list (bytes * bytes)) : list (bytes * bytes * Status) := map (fun p => (p, OK)) es.

(** Where an advance leaves the scan: at the end, or on the next row. *)
Definition advanced (es : list (bytes * bytes)) (sc : TableRowScan) : Prop :=
  scan_ok sc /\
  ((sc_valid sc = false /\ shown es = []) \/
   (sc_valid sc = true /\ exists p es', cur_entries (sc_it sc) = good (p :: es') /\ in_store es' /\
     (length es' < length es)%nat /\ shown es = (sc_pk sc, sc_row sc) :: shown es')).

Lemma exec_read {S} (st : S) pk : key_ok (table, pk) ->
  exists res, exec (GetRow table pk start t (Some GetTxnMeta)) (st, m) = (res, (st, m)) /\
    answers (si_read a t start (table, pk)) res.
Proof.
  intros Hk. destruct (sr_rows _ _ _ _ _ rep (table, pk) Hk) as (recs & Hch).
  destruct (exec_GetRow st m _ (table, pk) _ _ recs start t Hch) as (res & E & Ha).
  - intros t' v Hp. destruct (sr_prov_meta 1 (table, pk) t' v N_pos rep Hp) as (meta & H1 & H2 & H3). exists meta. by rewrite H3.
  - exists res. split; [exact E|]. unfold si_read. done.
Qed.

Lemma inside_spec K : inside K = true <-> (exists rest, K = P ++ rest) /\
  match end_key with Some e => lex K e = Lt | None => True end.
Proof. unfold inside. rewrite andb_true_iff, HasPrefix_spec. destruct end_key; [by rewrite bool_decide_eq_true|naive_solver]. Qed.

Lemma PkHex_app rest : PkHexFromHeadKey (P ++ rest) P = rest.
Proof. unfold PkHexFromHeadKey. rewrite (proj2 (HasPrefix_spec _ _)) by eauto. by rewrite drop_app_length. Qed.

Lemma exec_advance {S} (st : S) sc : scan_ok sc -> forall es, in_store es ->
  exists sc', exec (scan_advance sc (good es)) (st, m) = (Ret sc', (st, m)) /\ advanced es sc'.
Proof.
  intros [H1 H2 H3 H4 H5 H6 H7]. induction es as [|[K v] es IH]; intros Hin; cbn [good map scan_advance shown].
  { rewrite exec_ret, H6. eexists. split; [done|]. split; [by split|]. by left. }
  change (negb (ok OK)) with false. cbn iota. rewrite H4, H5. unfold inside.
  destruct (HasPrefix K P) eqn:Hp; cbn [negb andb].
  2: { rewrite exec_ret. eexists. split; [done|]. split; [by split|]. left. split; [done|]. cbn [shown]. unfold inside. by rewrite Hp. }
  assert (Hend : match end_key with Some e => match Slice_compare K e with Lt => false | _ => true end | None => false end =
    negb match end_key with Some e => bool_decide (lex K e = Lt) | None => true end).
  { destruct end_key as [e|]; [|done]. rewrite Slice_compare_lex. by destruct (lex K e). }
  rewrite Hend. destruct (match end_key with Some e => bool_decide (lex K e = Lt) | None => true end) eqn:He; cbn [negb].
  2: { rewrite exec_ret. eexists. split; [done|]. split; [by split|]. left. split; [done|]. cbn [shown]. unfold inside. by rewrite Hp, He. }
  assert (Hes : in_store es) by (intros K' v' H; apply Hin; by right).
  assert (Em : m !! K = Some v) by (apply Hin; by left).
  pose proof Hp as [rest ->]%HasPrefix_spec. rewrite PkHex_app.
  destruct (scan_head _ _ Em) as (pk & -> & Hk). rewrite DecodePkFromKey_Encode by apply Hk. kv_step. rewrite H1, H2, H3.
  destruct (exec_read st pk Hk) as (res & E & Ha). rewrite E.
  assert (Esh : shown ((P ++ EncodePkForKey pk, v) :: es) =
    match si_read a t start (table, pk) with Some row => (pk, row) :: shown es | None => shown es end).
  { cbn [shown]. unfold inside. rewrite Hp, He, PkHex_app, DecodePkFromKey_Encode by apply Hk. done. }
  destruct (si_read a t start (table, pk)) as [row|]; cbn [answers] in Ha.
  - subst res. rewrite exec_ret. eexists. split; [done|]. split; [by split|]. right. split; [done|].
    eexists _, es. split; [done|]. split; [done|]. split; [cbn; lia|]. done.
  - destruct Ha as [msg ->]. change (IsNotFound (NotFound msg)) with true. cbn iota.
    destruct (IH Hes) as (sc' & E' & Hok & Hcase). exists sc'. split; [exact E'|]. split; [done|]. rewrite Esh.
    destruct Hcase as [?|(Hv & p & es' & G1 & G2 & G3 & G4)]; [by left|]. right. split; [done|]. exists p, es'. cbn [length]. naive_solver lia.
Qed.

(** [Next] of a scan that stands on a row. *)
Lemma exec_Scan_Next {S} (st : S) es sc : advanced es sc -> sc_valid sc = true ->
  exists sc' es', exec (Scan_Next sc) (st, m) = (Ret sc', (st, m)) /\ advanced es' sc' /\ (length es' < length es)%nat /\
    shown es = (sc_pk sc, sc_row sc) :: shown es'.
Proof.
  intros [Hok [[Hv _]|(Hv & p & es' & G1 & G2 & G3 & G4)]] Hv'; [congruence|].
  unfold Scan_Next, Scan_Advance. rewrite Hv. cbn [negb sc_status sc_it cursor_next cur_entries].
  rewrite (so_status _ Hok), G1. change (ok OK) with true. cbn [negb good map tail].
  match goal with |- context [scan_advance ?x _] => destruct (exec_advance st x) with (es := es') as (sc' & E & Ha) end; [|done|].
  { destruct Hok. by split. }
  exists sc', es'. split; [exact E|]. done.
Qed.

Lemma exec_scan_rows {S} (st : S) : forall fuel es sc, advanced es sc -> (length es <= fuel)%nat ->
  exec (scan_rows fuel sc) (st, m) = (Ret (shown es), (st, m)).
Proof.
  induction fuel as [|fuel IH]; intros es sc Hadv Hf; cbn [scan_rows]; destruct (sc_valid sc) eqn:Hv.
  1, 3: destruct (exec_Scan_Next st es sc Hadv Hv) as (sc' & es' & E & Ha & Hl & Hs).
  - lia.
  - kv_step. rewrite E. kv_step. rewrite (IH es' sc') by (done || lia). kv_step. by rewrite Hs.
  - destruct Hadv as [_ [[_ ->]|[Hv' _]]]; [by rewrite exec_ret|congruence].
  - destruct Hadv as [_ [[_ ->]|[Hv' _]]]; [by rewrite exec_ret|congruence].
Qed.

(** The pairs from the start of the range are sorted and only shrink. *)
Lemma shown_sorted es : StronglySorted key_lt es -> in_store es -> StronglySorted pk_order (shown es) /\
  Forall (fun x => key_ok (table, x.1) /\ exists v, (hkey (table, x.1), v) ∈ es) (shown es).
Proof.
  intros Hs. induction Hs as [|[K v] es Hs IH Hf]; intros Hin; [by repeat constructor|]. cbn [shown].
  destruct (inside K) eqn:Hi; [|by repeat constructor]. apply inside_spec in Hi as [[rest ->] _].
  assert (Em : m !! (P ++ rest) = Some v) by (apply Hin; by left).
  destruct (scan_head _ _ Em) as (pk & -> & Hk). rewrite PkHex_app, DecodePkFromKey_Encode by apply Hk.
  destruct IH as [IH1 IH2]; [intros K' v' H; apply Hin; by right|].
  assert (IH3 : Forall (fun x => key_ok (table, x.1) /\ exists v', (hkey (table, x.1), v') ∈ (P ++ EncodePkForKey pk, v) :: es) (shown es)).
  { eapply Forall_impl; [exact IH2|]. cbn. intros x [Hx [v' Hv']]. split; [done|]. exists v'. by right. }
  destruct (si_read a t start (table, pk)) as [row|]; [|done]. split; constructor; try done.
  - rewrite Forall_forall in IH2; rewrite Forall_forall in Hf; rewrite Forall_forall. intros x Hx. destruct (IH2 x Hx) as (Hkx & v' & Hv').
    specialize (Hf _ Hv'). unfold key_lt in Hf. cbn [fst] in Hf. rewrite hkey_prefix in Hf. fold P in Hf. by rewrite lex_app_same in Hf.
  - split; [done|]. exists v. cbn [fst]. rewrite hkey_prefix. by left.
Qed.

Lemma shown_elem es pk row : StronglySorted key_lt es -> in_store es -> Forall (fun p => lex P p.1 <> Gt) es -> key_ok (table, pk) ->
  (pk, row) ∈ shown es <-> si_read a t start (table, pk) = Some row /\ (exists v, (hkey (table, pk), v) ∈ es) /\
    inside (hkey (table, pk)) = true.
Proof.
  intros Hs. induction Hs as [|[K v] es Hs IH Hf]; intros Hin Hlow Hk; cbn [shown]; [set_solver|]. inversion_clear Hlow as [|?? HK Hlow'].
  specialize (IH ltac:(intros K' v' H; apply Hin; by right) Hlow' Hk).
  destruct (inside K) eqn:Hi.
  - apply inside_spec in Hi as [[rest ->] He].
    assert (Em : m !! (P ++ rest) = Some v) by (apply Hin; by left).
    destruct (scan_head _ _ Em) as (pk' & -> & Hk'). rewrite PkHex_app, DecodePkFromKey_Encode by apply Hk'.
    assert (Hin' : inside (P ++ EncodePkForKey pk') = true) by (apply inside_spec; eauto).
    assert (Hne : pk <> pk' -> (exists v0, (hkey (table, pk), v0) ∈ (P ++ EncodePkForKey pk', v) :: es) <->
      exists v0, (hkey (table, pk), v0) ∈ es).
    { intros Hd. split; intros [v0 H]; exists v0; [|by right]. apply elem_of_cons in H as [E%(f_equal fst)|H]; [|done].
      destruct Hd. cbn [fst] in E. unfold P in E. rewrite <- hkey_prefix in E. apply hkey_inj in E; [congruence|done..]. }
    destruct (decide (pk = pk')) as [<-|Hd].
    + assert (Hnot : ~ exists v0, (hkey (table, pk), v0) ∈ es).
      { intros [v0 H]. rewrite Forall_forall in Hf. specialize (Hf _ H). unfold key_lt in Hf. cbn [fst] in Hf.
        rewrite hkey_prefix, lex_refl in Hf. done. }
      destruct (si_read a t start (table, pk)) as [row'|] eqn:Er.
      * rewrite elem_of_cons, IH, hkey_prefix. fold P. rewrite Hin'. split.
        -- intros [[= ->]|(_ & H & _)]; [|rewrite hkey_prefix in Hnot; done]. split; [done|]. split; [|done]. exists v. by left.
        -- intros ([= ->] & _ & _). by left.
      * rewrite IH. naive_solver.
    + rewrite Hne by done. rewrite <- IH. destruct (si_read a t start (table, pk')); [|done].
      rewrite elem_of_cons. naive_solver.
  - split; [set_solver|]. intros (_ & [v0 H] & Hi'). exfalso. apply elem_of_cons in H as [E%(f_equal fst)|H]; [cbn in E; congruence|].
    rewrite Forall_forall in Hf. specialize (Hf _ H). unfold key_lt in Hf. cbn [fst] in Hf.
    assert (inside K = true); [|congruence]. apply inside_spec in Hi' as [_ He]. apply inside_spec. split.
    + rewrite hkey_prefix in Hf. eapply prefix_interval; [exact HK|]. fold P in Hf. rewrite Hf. done.
    + destruct end_key as [e|]; [|done]. eapply lex_lt_trans; [exact Hf|exact He].
Qed.

Lemma length_pairs_from target : (length (pairs_from target m) <= size m)%nat.
Proof.
  unfold pairs_from. rewrite length_filter. unfold sorted_pairs. rewrite merge_sort_Permutation. by rewrite length_map_to_list.
Qed.

Definition seek_target : bytes := match lo with Some pk => RowHeadKey table (EncodePkForKey pk) | None => P end.

Lemma seek_target_low : lex P seek_target <> Gt.
Proof.
  unfold seek_target. destruct lo as [v|]; [|by rewrite lex_refl]. change (RowHeadKey table (EncodePkForKey v)) with (hkey (table, v)).
  rewrite hkey_prefix. apply lex_prefix.
Qed.

Lemma in_range_spec pk : in_range lo hi pk <-> lex seek_target (hkey (table, pk)) <> Gt /\ inside (hkey (table, pk)) = true.
Proof.
  rewrite inside_spec. unfold in_range, seek_target, end_key. rewrite hkey_prefix. fold P.
  assert (E : forall v, RowHeadKey table (EncodePkForKey v) = P ++ EncodePkForKey v) by (intros v; apply (hkey_prefix table v)).
  assert (H : lex P (P ++ EncodePkForKey pk) <> Gt) by apply lex_prefix.
  destruct lo, hi; cbn [fmap option_fmap option_map]; rewrite ?E, ?lex_app_same; naive_solver.
Qed.

(** A readable row has a head in the store. *)
Lemma read_head pk row : key_ok (table, pk) -> si_read a t start (table, pk) = Some row -> exists v, m !! hkey (table, pk) = Some v.
Proof.
  intros Hk Hr. destruct (sr_rows _ _ _ _ _ rep (table, pk) Hk) as (recs & [_ Hh _ Hv]). unfold head_rep in Hh.
  destruct recs as [|r rs]; [|eauto]. unfold si_read in Hr. destruct (si_prov a (table, pk)) as [[t' v]|].
  - by destruct Hv as (? & ? & ? & _).
  - destruct (si_hist a (table, pk)) as [|[]]; [done|done].
Qed.

Definition scan_result : list (Value * Row) := shown (pairs_from seek_target m).

Lemma scan_result_spec : StronglySorted pk_order scan_result /\
  forall pk row, (pk, row) ∈ scan_result <-> key_ok (table, pk) /\ in_range lo hi pk /\ si_read a t start (table, pk) = Some row.
Proof.
  assert (Hs : StronglySorted key_lt (pairs_from seek_target m)) by (apply StronglySorted_filter, sorted_pairs_sorted).
  assert (Hin : in_store (pairs_from seek_target m)) by (intros K v H; by apply elem_of_pairs_from in H as [_ ?]).
  assert (Hlow : Forall (fun p => lex P p.1 <> Gt) (pairs_from seek_target m)).
  { apply Forall_forall. intros [K v] [H _]%elem_of_pairs_from. eapply lex_trans; [apply seek_target_low|exact H]. }
  destruct (shown_sorted _ Hs Hin) as [H1 H2]. split; [exact H1|]. rewrite Forall_forall in H2. intros pk row.
  assert (E : key_ok (table, pk) -> (pk, row) ∈ scan_result <-> in_range lo hi pk /\ si_read a t start (table, pk) = Some row).
  { intros Hk. unfold scan_result. rewrite shown_elem by done. rewrite in_range_spec. setoid_rewrite elem_of_pairs_from. split; [naive_solver|].
    intros [[Hl Hi] Hr]. destruct (read_head pk row Hk Hr) as [v Em]. naive_solver. }
  split.
  - intros H. destruct (H2 _ H) as [Hk _]. cbn [fst] in Hk. by apply E in H.
  - intros (Hk & H). by apply E.
Qed.

(** Opening a scan. *)
Lemma exec_Transaction_Scan tr : si_tables a !! table <> None -> sys_txns s !! t = Some tr ->
  exists c sc, tables_rep (si_tables a) c m /\
    exec (Transaction_Scan table lo hi) ((sys_db s, tr), m) = (Ret sc, ((with_catalog c (sys_db s), tr), m)) /\
    advanced (pairs_from seek_target m) sc.
Proof.
  intros HT Et. pose proof (sr_txns _ _ _ _ _ rep t (proj2 (sv_open _ (sr_inv _ _ _ _ _ rep) _ _ opened))) as Hrep.
  rewrite opened in Hrep. destruct Hrep as (tr' & Et' & Hid & [Hfin Hst _ _]). rewrite Et in Et'. injection Et' as <-.
  unfold Transaction_Scan, Scan_start, the_txn. kv_step. rewrite Hfin. kv_step. rewrite exec_on_db.
  destruct (exec_GetTable _ (sys_db s) m table (sr_tables _ _ _ _ _ rep)) as (res & c & E & Hc & Ha). rewrite E.
  unfold table_answer in Ha. destruct (si_tables a !! table) as [schema|]; [|done]. subst res. kv_step.
  fold end_key. fold (table_prefix table). fold P. fold seek_target. rewrite Hid, Hst.
  unfold Scan_Advance. cbn [sc_status sc_it cur_entries good_cursor]. change (negb (ok OK)) with false. cbn iota.
  match goal with |- context [scan_advance ?x _] =>
    destruct (exec_advance (with_catalog c (sys_db s), tr) x) with (es := pairs_from seek_target m) as (sc & Ea & Hadv) end.
  { by split. }
  { intros K v H. by apply elem_of_pairs_from in H as [_ ?]. }
  unfold good in Ea. rewrite Ea. kv_step. rewrite (so_status _ (proj1 Hadv)). change (negb (ok OK)) with false. cbn iota.
  kv_step. by exists c, sc.
Qed.

Lemma exec_table_scan tr fuel : si_tables a !! table <> None -> sys_txns s !! t = Some tr -> (size m <= fuel)%nat ->
  exists c, exec (table_scan table lo hi fuel) ((sys_db s, tr), m) = (Ret scan_result, ((with_catalog c (sys_db s), tr), m)).
Proof.
  intros HT Et Hf. destruct (exec_Transaction_Scan tr HT Et) as (c & sc & _ & E & Hadv). exists c. unfold table_scan. kv_step. rewrite E.
  rewrite (exec_scan_rows _ fuel (pairs_from seek_target m)); [done|done|]. pose proof (length_pairs_from seek_target). lia.
Qed.
End Scan.

(** C14: a table scan is a snapshot read of the whole range: after any
    interleaving of calls, walking the scan that an open transaction [t] opens
    over [lo, hi) shows exactly the rows of the table that [t] can read - its own
    writes and what was committed before it began, without the rows it deleted
    and without what others wrote since - each once, in the order of the encoded
    keys, and changes nothing in the store.  The table must not be a path prefix
    of another table's name. *)
Theorem scan_reads_snapshot (ops : list TOp) (t start : Z) (table : bytes) (lo hi : option Value) :
  Z.of_nat (length ops) < 2 ^ 32 -> ops_ok 1 1 ops ->
  let a := (si_run ops SI_new).2 in
  si_open a !! t = Some start -> si_tables a !! table <> None -> separate (si_tables a) table ->
  exists s m tr rows, exec (session ops) (Sys_new, ∅) = (Ret (si_run ops SI_new).1, (s, m)) /\
    sys_txns s !! t = Some tr /\
    (forall fuel, (size m <= fuel)%nat -> exists d,
       exec (table_scan table lo hi fuel) ((sys_db s, tr), m) = (Ret rows, ((d, tr), m))) /\
    StronglySorted pk_order rows /\
    (forall pk row, (pk, row) ∈ rows <->
       key_ok (table, pk) /\ in_range lo hi pk /\ si_read a t start (table, pk) = Some row).
Proof.
  intros Hl Hops a Ho HT Hsep. destruct (new_database_si 0 ops (Z.le_refl 0) Hl Hops) as (s & m & E & Hrep). fold a in Hrep.
  pose proof (sr_txns _ _ _ _ _ Hrep t (proj2 (sv_open _ (sr_inv _ _ _ _ _ Hrep) _ _ Ho))) as Htr. rewrite Ho in Htr.
  destruct Htr as (tr & Et & _). exists s, m, tr, (scan_result a m t start table lo hi). split; [exact E|]. split; [exact Et|].
  split; [|by eapply scan_result_spec].
  intros fuel Hf. destruct (exec_table_scan 0 a s m t start table lo hi (Z.le_refl 0) Hrep Ho Hsep tr fuel HT Et Hf) as (c & Ec). eauto.
Qed.

(** A session with two rows, keys 1 and 256, and a transaction that reads them. *)
Definition user (name : bytes) (id : Z) : Row := [VString name; VInt64 id].
Definition two_rows : list TOp :=
  [TCreate sample_schema; TBegin; TInsert 1 (lit "users") (user (lit "ann") 1);
   TInsert 1 (lit "users") (user (lit "bob") 256); TCommit 1; TBegin].

Lemma scan_reads_snapshot_witness :
  let a := (si_run two_rows SI_new).2 in
  exists s m tr rows, exec (session two_rows) (Sys_new, ∅) = (Ret (si_run two_rows SI_new).1, (s, m)) /\
    sys_txns s !! 2 = Some tr /\
    (forall fuel, (size m <= fuel)%nat -> exists d,
       exec (table_scan (lit "users") None None fuel) ((sys_db s, tr), m) = (Ret rows, ((d, tr), m))) /\
    StronglySorted pk_order rows /\
    (forall pk row, (pk, row) ∈ rows <->
       key_ok (lit "users", pk) /\ in_range None None pk /\ si_read a 2 1 (lit "users", pk) = Some row).
Proof.
  apply (scan_reads_snapshot two_rows 2 1 (lit "users") None None); [reflexivity| |reflexivity|vm_compute; discriminate|];
    apply (bool_decide_unpack _); vm_compute; exact I.
Defined.

(** A scan by the transaction object [t]. *)
Definition scan_by (t : Z) (table : bytes) (lo hi : option Value) (fuel : nat) : KM Sys (list (Value * Row)) := fun s =>
  match sys_txns s !! t with
  | None => KRet (Stuck, s)
  | Some tr => kzoom (fun s => (sys_db s, tr)) (fun dt s => mkSys dt.1 (<[t := dt.2]> (sys_txns s))) (table_scan table lo hi fuel) s
  end.

(** a range of keys is not a range of numbers: keys are compared as
    hexadecimal renderings of little-endian words, so a scan of the keys from 1
    on, which the planner uses for [id >= 1], does not show the committed row
    256, which a scan of the whole table shows first. *)
Theorem range_scan_misses_rows :
  let scan lo := (exec (session two_rows ;; scan_by 2 (lit "users") lo None 9) (Sys_new, ∅)).1 in
  scan None = Ret [(VInt64 256, user (lit "bob") 256); (VInt64 1, user (lit "ann") 1)] /\
  scan (Some (VInt64 1)) = Ret [(VInt64 1, user (lit "ann") 1)].
Proof. split; vm_compute; reflexivity. Qed.
