(* ===== verification/Executor.v ===== *)
(** Physical operators (include/reldb/executor.h, src/reldb/executor.cpp): the
    pull-model executors of SELECT - scans, filter, projection, sort, limit and
    hash aggregation - and the one-shot operators INSERT, UPDATE and DELETE. *)
From S2P Require Import Prelude Status Slice Encoding Types Schema Row BindContext Expr SqlAst.
From S2P Require Import Kv Mvcc Catalog Database Txn.

(** * Data *)

Record QueryResult := mkQueryResult {
  column_names : list bytes;
  rows : list Row;
  rows_affected : Z;
  plan_tag : bytes
}.
Definition QueryResult_Clear : QueryResult := mkQueryResult [] [] 0 [].

Record SortKey := mkSortKey { sk_column_index : Z; sk_ascending : bool }.
Record Projection := mkProjection { pj_name : bytes; pj_expr : Expr }.
Record AggSpec := mkAggSpec { as_func : AggFunc; as_star : bool; as_arg_column : Z; as_output_name : bytes }.
Record Assignment := mkAssignment { asg_column_index : Z; asg_expr : Expr }.

(** An operator tree with the state of its operators.  [Sort] and
    [HashAggregate] release their child when they are opened and then hold their
    rows: [Drained]. *)
Inductive Executor : Type :=
  | SeqScan (schema : TableSchema) (scan : option TableRowScan) (opened : bool) (current : Row)
  | PkPointGet (schema : TableSchema) (pk : Value) (opened done_ found : bool) (current : Row)
  | PkRangeScan (schema : TableSchema) (start_pk end_pk : option Value) (scan : option TableRowScan) (opened : bool) (current : Row)
  | Filter (child : Executor) (input_schema : TableSchema) (predicate : Expr) (opened : bool)
  | Project (child : Executor) (input_schema : TableSchema) (projections : list Projection) (opened : bool) (current : Row)
  | Sort (child : Executor) (keys : list SortKey)
  | Limit (child : Executor) (limit produced : Z) (opened : bool)
  | HashAggregate (child : Executor) (group_by_columns : list Z) (aggs : list AggSpec)
  | Drained (names : list bytes) (tag : bytes) (rows_ : list Row) (index_ : nat) (current : Row).

(** The constructors. *)
Definition mkSeqScan (schema : TableSchema) : Executor := SeqScan schema None false [].
Definition mkPkPointGet (schema : TableSchema) (pk : Value) : Executor := PkPointGet schema pk false false false [].
Definition mkPkRangeScan (schema : TableSchema) (start_pk end_pk : option Value) : Executor :=
  PkRangeScan schema start_pk end_pk None false [].
Definition mkFilter (child : Executor) (schema : TableSchema) (predicate : Expr) : Executor := Filter child schema predicate false.
Definition mkProject (child : Executor) (schema : TableSchema) (projections : list Projection) : Executor :=
  Project child schema projections false [].
Definition mkLimit (child : Executor) (limit : Z) : Executor := Limit child limit 0 false.

Fixpoint current_row (ex : Executor) : Row :=
  match ex with
  | SeqScan _ _ _ current | PkPointGet _ _ _ _ _ current | PkRangeScan _ _ _ _ _ current
  | Project _ _ _ _ current | Drained _ _ _ _ current => current
  | Filter child _ _ _ | Limit child _ _ _ => current_row child
  | Sort _ _ | HashAggregate _ _ _ => []
  end.

Definition ColumnNamesFromSchema (schema : TableSchema) : list bytes := map col_name (columns_ schema).

Fixpoint ex_column_names (ex : Executor) : list bytes :=
  match ex with
  | SeqScan schema _ _ _ | PkPointGet schema _ _ _ _ _ | PkRangeScan schema _ _ _ _ _ => ColumnNamesFromSchema schema
  | Project _ _ projections _ _ => map pj_name projections
  | Filter child _ _ _ | Limit child _ _ _ => ex_column_names child
  | Drained names _ _ _ _ => names
  | Sort _ _ | HashAggregate _ _ _ => []
  end.

Fixpoint PlanTag (ex : Executor) : bytes :=
  match ex with
  | SeqScan _ _ _ _ => lit "SeqScan"
  | PkPointGet _ _ _ _ _ _ => lit "PkPointGet"
  | PkRangeScan _ _ _ _ _ _ => lit "PkRangeScan"
  | Filter child _ _ _ => lit "Filter<-" ++ PlanTag child
  | Project child _ _ _ _ => lit "Project<-" ++ PlanTag child
  | Sort child _ => lit "Sort<-" ++ PlanTag child
  | Limit child _ _ _ => lit "Limit<-" ++ PlanTag child
  | HashAggregate child _ _ => lit "HashAggregate<-" ++ PlanTag child
  | Drained _ tag _ _ _ => tag
  end.

(** [EnsureOpenable]: a second Open is refused. *)
Definition already_opened : Status := InvalidArgument (lit "executor already opened").
Definition not_opened : Status := InvalidArgument (lit "executor not opened").

(** * Sorting *)

(** NULLs sort last in ASC and, as the result is negated for DESC, first there. *)
Definition CompareForSort (a b : Value) : Res Z :=
  if IsNull a && IsNull b then Ret 0
  else if IsNull a then Ret 1
  else if IsNull b then Ret (-1)
  else if negb (bool_decide (value_type a = value_type b)) then Fail (InvalidArgument (lit "ORDER BY type mismatch"))
  else
    match value_type a with
    | kInt64 => Ret (if GetInt64 a <? GetInt64 b then -1 else if GetInt64 a >? GetInt64 b then 1 else 0)
    | kString => Ret (sign_of (lex (GetString a) (GetString b)))
    | kBool => Ret ((if GetBool a then 1 else 0) - (if GetBool b then 1 else 0))
    | kNull => Ret 0
    | kOtherType _ => Fail (InvalidArgument (lit "unknown value type in ORDER BY"))
    end.

(** The comparator: the first key that differs decides. *)
Fixpoint row_less (keys : list SortKey) (a b : Row) : Res bool :=
  match keys with
  | [] => Ret false
  | key :: keys =>
    let i := sk_column_index key in
    if (i <? 0) || (Z.of_nat (length a) <=? i) || (Z.of_nat (length b) <=? i)
    then Fail (InvalidArgument (lit "ORDER BY column out of range"))
    else
      x ← row_at a (Z.to_nat i);
      y ← row_at b (Z.to_nat i);
      cmp ← CompareForSort x y;
      if negb (cmp =? 0) then Ret (if sk_ascending key then cmp <? 0 else cmp >? 0) else row_less keys a b
  end.

(** [std::stable_sort]: for a comparator that orders the rows the result is
    determined; it is computed here by insertion.  An error of the comparator is
    recorded and makes the whole sort fail. *)
Fixpoint sort_insert (keys : list SortKey) (x : Row) (l : list Row) : Res (list Row) :=
  match l with
  | [] => Ret [x]
  | y :: l =>
    lt ← row_less keys x y;
    if lt : bool then Ret (x :: y :: l) else l' ← sort_insert keys x l; Ret (y :: l')
  end.
Fixpoint sort_rows (keys : list SortKey) (sorted l : list Row) : Res (list Row) :=
  match l with
  | [] => Ret sorted
  | x :: l => sorted' ← sort_insert keys x sorted; sort_rows keys sorted' l
  end.
Definition stable_sort (keys : list SortKey) (l : list Row) : Res (list Row) := sort_rows keys [] l.

(** * Aggregates *)

Record AggAcc := mkAggAcc { acc_n : Z; acc_sum : Z; acc_minv : Z; acc_maxv : Z; acc_has_numeric : bool }.
Definition AggAcc_new : AggAcc := mkAggAcc 0 0 0 0 false.
Record GroupState := mkGroupState { gs_key_parts : list Value; gs_accs : list AggAcc }.

Definition int64_max : Z := 2 ^ 63 - 1.
Definition int64_min : Z := - 2 ^ 63.

Definition AddChecked (sum delta : Z) : Res Z :=
  if ((delta >? 0) && (sum >? int64_max - delta)) || ((delta <? 0) && (sum <? int64_min - delta))
  then Fail (InvalidArgument (lit "SUM overflow"))
  else Ret (sum + delta).

Definition EncodeGroupKey (parts : list Value) : bytes :=
  foldl (fun out v => PutFixed32 out (u32 (Z.of_nat (length (EncodeValue v)))) ++ EncodeValue v) [] parts.

(** The counter of rows cannot reach 2^63. *)
Definition Accumulate (spec : AggSpec) (row : Row) (acc : AggAcc) : Res AggAcc :=
  let bump := acc_n acc + 1 in
  if bool_decide (as_func spec = kCount) && as_star spec
  then Ret (mkAggAcc bump (acc_sum acc) (acc_minv acc) (acc_maxv acc) (acc_has_numeric acc))
  else if (as_arg_column spec <? 0) || (Z.of_nat (length row) <=? as_arg_column spec)
  then Fail (InvalidArgument (lit "aggregate column out of range"))
  else
    cell ← row_at row (Z.to_nat (as_arg_column spec));
    match as_func spec with
    | kCount =>
      Ret (if IsNull cell then acc else mkAggAcc bump (acc_sum acc) (acc_minv acc) (acc_maxv acc) (acc_has_numeric acc))
    | f =>
      if IsNull cell then Ret acc
      else if negb (bool_decide (value_type cell = kInt64)) then Fail (InvalidArgument (lit "aggregate argument must be Int64"))
      else
        let v := GetInt64 cell in
        match f with
        | kMin => Ret (mkAggAcc bump (acc_sum acc) (if negb (acc_has_numeric acc) || (v <? acc_minv acc) then v else acc_minv acc)
            (acc_maxv acc) true)
        | kMax => Ret (mkAggAcc bump (acc_sum acc) (acc_minv acc)
            (if negb (acc_has_numeric acc) || (v >? acc_maxv acc) then v else acc_maxv acc) true)
        | _ => sum ← AddChecked (acc_sum acc) v; Ret (mkAggAcc bump sum (acc_minv acc) (acc_maxv acc) true)
        end
    end.

Definition FinalizeAgg (spec : AggSpec) (acc : AggAcc) : Value :=
  match as_func spec with
  | kCount => VInt64 (acc_n acc)
  | kSum => if negb (acc_has_numeric acc) then VNull else VInt64 (acc_sum acc)
  | kAvg => if negb (acc_has_numeric acc) || (acc_n acc =? 0) then VNull else VInt64 (Z.quot (acc_sum acc) (acc_n acc))
  | kMin => if negb (acc_has_numeric acc) then VNull else VInt64 (acc_minv acc)
  | kMax => if negb (acc_has_numeric acc) then VNull else VInt64 (acc_maxv acc)
  end.

(** The checks of [Open] on the specifications. *)
Fixpoint check_specs (aggs : list AggSpec) : Res unit :=
  match aggs with
  | [] => Ret tt
  | a :: aggs =>
    if bool_decide (as_output_name a = []) then Fail (InvalidArgument (lit "aggregate output_name is empty"))
    else if as_star a then
      (if negb (bool_decide (as_func a = kCount)) then Fail (InvalidArgument (lit "only COUNT(*) uses star")) else check_specs aggs)
    else if as_arg_column a <? 0 then Fail (InvalidArgument (lit "aggregate arg_column is required"))
    else check_specs aggs
  end.

(** The cells or labels at the group-by positions. *)
Fixpoint pick_columns {A} (idxs : list Z) (l : list A) : Res (list A) :=
  match idxs with
  | [] => Ret []
  | idx :: idxs =>
    if (idx <? 0) || (Z.of_nat (length l) <=? idx) then Fail (InvalidArgument (lit "GROUP BY column out of range"))
    else x ← deref (l !! Z.to_nat idx); xs ← pick_columns idxs l; Ret (x :: xs)
  end.

Fixpoint accumulate_all (aggs : list AggSpec) (row : Row) (accs : list AggAcc) : Res (list AggAcc) :=
  match aggs, accs with
  | [], _ => Ret []
  | a :: aggs, acc :: accs => acc' ← Accumulate a row acc; accs' ← accumulate_all aggs row accs; Ret (acc' :: accs')
  | _ :: _, [] => Stuck
  end.

(** The groups and the order in which they were first seen. *)
Record Groups := mkGroups { gr_map : gmap bytes GroupState; gr_order : list bytes }.
Definition Groups_new : Groups := mkGroups ∅ [].

(** One round of the aggregation loop. *)
Definition agg_row (group_by : list Z) (aggs : list AggSpec) (g : Groups) (row : Row) : Res Groups :=
  key_parts ← pick_columns group_by row;
  let key := EncodeGroupKey key_parts in
  let '(st, order) :=
    match gr_map g !! key with
    | Some st => (st, gr_order g)
    | None => (mkGroupState key_parts (replicate (length aggs) AggAcc_new), gr_order g ++ [key])
    end in
  accs ← accumulate_all aggs row (gs_accs st);
  Ret (mkGroups (<[key := mkGroupState (gs_key_parts st) accs]> (gr_map g)) order).

(** The rows after the loop. *)
Definition group_row (aggs : list AggSpec) (g : Groups) (key : bytes) : Res Row :=
  st ← deref (gr_map g !! key);
  Ret (gs_key_parts st ++ zip_with FinalizeAgg aggs (gs_accs st)).
Fixpoint res_map {A B} (f : A -> Res B) (l : list A) : Res (list B) :=
  match l with [] => Ret [] | x :: l => y ← f x; ys ← res_map f l; Ret (y :: ys) end.
Definition agg_rows (group_by : list Z) (aggs : list AggSpec) (g : Groups) : Res (list Row) :=
  match gr_order g with
  | [] => Ret (match group_by with [] => [map (fun a => FinalizeAgg a AggAcc_new) aggs] | _ => [] end)
  | order => res_map (group_row aggs g) order
  end.

(** * Next *)

(** The projected row. *)
Fixpoint project_row (projections : list Projection) (row : Row) (schema : TableSchema) : Res Row :=
  match projections with
  | [] => Ret []
  | p :: ps => v ← Eval (pj_expr p) row schema; vs ← project_row ps row schema; Ret (v :: vs)
  end.

(** A call that can fail gives its status or its answer, and the operator as it is then: a
    plan that fails keeps its scan. *)
Abbreviation ExResult A := ((Status + A) * Executor)%type.
(** [RELDB_RETURN_NOT_OK] of a computation that has no effects. *)
Definition if_ok {A B} (r : Res A) (failed : Status -> B) (k : A -> TxM B) : TxM B :=
  match r with Ret a => k a | Fail e => mret (failed e) | Stuck => klift Stuck end.

(** [Next] of the two scans: deliver the row the scan stands on and advance it; at the
    end the scan is destroyed. *)
Definition scan_next (scan : option TableRowScan) (current : Row) : TxM ((Status + bool) * option TableRowScan * Row) :=
  match scan with
  | None => mret (inr false, None, current)
  | Some sc =>
    if negb (sc_valid sc) then
      if ok (sc_status sc) then mret (inr false, None, current) else mret (inl (sc_status sc), Some sc, current)
    else
      sc' ← Scan_Next sc;
      mret (if ok (sc_status sc') then inr true else inl (sc_status sc'), Some sc', sc_row sc)
  end.

(** The fuel bounds the depth of the tree and the rounds of the filter loop. *)
Fixpoint Ex_Next (fuel : nat) (ex : Executor) : TxM (ExResult bool) :=
  match fuel with
  | O => klift Stuck
  | S fuel =>
    match ex with
    | SeqScan schema scan opened current =>
      if negb opened then mret (inl not_opened, ex)
      else
        '(r, scan', current') ← scan_next scan current;
        mret (r, SeqScan schema scan' opened current')
    | PkPointGet schema pk opened done_ found current =>
      if negb opened then mret (inl not_opened, ex)
      else if done_ || negb found then mret (inr false, ex)
      else mret (inr true, PkPointGet schema pk opened true found current)
    | PkRangeScan schema start_pk end_pk scan opened current =>
      if negb opened then mret (inl not_opened, ex)
      else
        '(r, scan', current') ← scan_next scan current;
        mret (r, PkRangeScan schema start_pk end_pk scan' opened current')
    | Filter child schema predicate opened =>
      if negb opened then mret (inl not_opened, ex)
      else
        '(r, child') ← Ex_Next fuel child;
        let ex' := Filter child' schema predicate opened in
        match r with
        | inl e => mret (inl e, ex')
        | inr false => mret (inr false, ex')
        | inr true =>
          if_ok (EvalBool predicate (current_row child') schema) (fun e => (inl e, ex'))
            (fun keep => if keep : bool then mret (inr true, ex') else Ex_Next fuel ex')
        end
    | Project child schema projections opened current =>
      if negb opened then mret (inl not_opened, ex)
      else
        '(r, child') ← Ex_Next fuel child;
        match r with
        | inl e => mret (inl e, Project child' schema projections opened current)
        | inr false => mret (inr false, Project child' schema projections opened current)
        | inr true =>
          if_ok (project_row projections (current_row child') schema) (fun e => (inl e, Project child' schema projections opened current))
            (fun cells => mret (inr true, Project child' schema projections opened cells))
        end
    | Limit child limit produced opened =>
      if negb opened then mret (inl not_opened, ex)
      else if limit <=? produced then mret (inr false, ex)
      else
        '(r, child') ← Ex_Next fuel child;
        match r with
        | inr true => mret (inr true, Limit child' limit (produced + 1) opened)
        | r => mret (r, Limit child' limit produced opened)
        end
    | Sort _ _ | HashAggregate _ _ _ => mret (inl not_opened, ex)
    | Drained names tag rows index current =>
      match rows !! index with
      | None => mret (inr false, ex)
      | Some row => mret (inr true, Drained names tag rows (S index) row)
      end
    end
  end.

(** Pull all rows and fold them. *)
Fixpoint drain {A} (f : A -> Row -> Res A) (fuel : nat) (acc : A) (ex : Executor) : TxM (ExResult A) :=
  match fuel with
  | O => klift Stuck
  | S fuel =>
    '(r, ex') ← Ex_Next fuel ex;
    match r with
    | inl e => mret (inl e, ex')
    | inr false => mret (inr acc, ex')
    | inr true => if_ok (f acc (current_row ex')) (fun e => (inl e, ex')) (fun acc' => drain f fuel acc' ex')
    end
  end.
Definition push_row (acc : list Row) (row : Row) : Res (list Row) := Ret (acc ++ [row]).

(** * Open *)

Fixpoint bind_projections (projections : list Projection) (schema : TableSchema) : Res (list Projection) :=
  match projections with
  | [] => Ret []
  | p :: ps => e ← Bind schema (pj_expr p); ps' ← bind_projections ps schema; Ret (mkProjection (pj_name p) e :: ps')
  end.

(** [txn_.Scan(..., &scan_)]: a scan that starts with a bad status is in [scan_] too. *)
Definition open_scan (table : bytes) (start_pk end_pk : option Value) : TxM ((Status + unit) * option TableRowScan) :=
  st ← ktry (Scan_start table start_pk end_pk);
  match st with
  | inl e => mret (inl e, None)
  | inr sc => mret (if ok (sc_status sc) then inr tt else inl (sc_status sc), Some sc)
  end.

Fixpoint Ex_Open (fuel : nat) (ex : Executor) : TxM (ExResult unit) :=
  match ex with
  | SeqScan schema _ opened current =>
    if opened then mret (inl already_opened, ex)
    else
      '(r, scan') ← open_scan (name_ schema) None None;
      mret (r, SeqScan schema scan' true current)
  | PkPointGet schema pk opened done_ _ current =>
    if opened then mret (inl already_opened, ex)
    else
      st ← ktry (Transaction_Get (name_ schema) pk);
      match st with
      | inl e => mret (if IsNotFound e then inr tt else inl e, PkPointGet schema pk true done_ false current)
      | inr row => mret (inr tt, PkPointGet schema pk true done_ true row)
      end
  | PkRangeScan schema start_pk end_pk _ opened current =>
    if opened then mret (inl already_opened, ex)
    else
      '(r, scan') ← open_scan (name_ schema) start_pk end_pk;
      mret (r, PkRangeScan schema start_pk end_pk scan' true current)
  | Filter child schema predicate opened =>
    if opened then mret (inl already_opened, ex)
    else
      if_ok (Bind schema predicate) (fun e => (inl e, Filter child schema predicate true)) (fun predicate' =>
        '(r, child') ← Ex_Open fuel child;
        mret (r, Filter child' schema predicate' true))
  | Project child schema projections opened current =>
    if bool_decide (projections = []) then mret (inl (InvalidArgument (lit "empty projection list")), ex)
    else if opened then mret (inl already_opened, ex)
    else
      if_ok (bind_projections projections schema) (fun e => (inl e, Project child schema projections true current)) (fun projections' =>
        '(r, child') ← Ex_Open fuel child;
        mret (r, Project child' schema projections' true current))
  | Sort child keys =>
    if bool_decide (keys = []) then mret (inl (InvalidArgument (lit "empty sort keys")), ex)
    else
      let tag := lit "Sort<-" ++ PlanTag child in
      '(r, child') ← Ex_Open fuel child;
      match r with
      | inl e => mret (inl e, Sort child' keys)
      | inr _ =>
        '(r, child'') ← drain push_row fuel [] child';
        match r with
        | inl e => mret (inl e, Sort child'' keys)
        | inr rows =>
          (* the child is destroyed here *)
          if_ok (stable_sort keys rows) (fun e => (inl e, Drained (ex_column_names child') tag rows 0 []))
            (fun sorted => mret (inr tt, Drained (ex_column_names child') tag sorted 0 []))
        end
      end
  | Limit child limit _ opened =>
    if opened then mret (inl already_opened, ex)
    else
      '(r, child') ← Ex_Open fuel child;
      mret (r, Limit child' limit 0 true)
  | HashAggregate child group_by aggs =>
    if bool_decide (aggs = []) && bool_decide (group_by = []) then mret (inl (InvalidArgument (lit "empty aggregate list")), ex)
    else
      if_ok (check_specs aggs) (fun e => (inl e, ex)) (fun _ =>
        let tag := lit "HashAggregate<-" ++ PlanTag child in
        '(r, child') ← Ex_Open fuel child;
        match r with
        | inl e => mret (inl e, HashAggregate child' group_by aggs)
        | inr _ =>
          if_ok (pick_columns group_by (ex_column_names child')) (fun e => (inl e, HashAggregate child' group_by aggs)) (fun names =>
            '(r, child'') ← drain (agg_row group_by aggs) fuel Groups_new child';
            match r with
            | inl e => mret (inl e, HashAggregate child'' group_by aggs)
            | inr groups =>
              (* the child is destroyed here *)
              let labels := names ++ map as_output_name aggs in
              if_ok (agg_rows group_by aggs groups) (fun e => (inl e, Drained labels tag [] 0 []))
                (fun rows => mret (inr tt, Drained labels tag rows 0 []))
            end)
        end)
  | Drained _ _ _ _ _ => mret (inl (InvalidArgument (lit "null child")), ex)
  end.

(** Whether the plan has a scan, and with it the locks of the scan's iterator. *)
Fixpoint holds_scan (ex : Executor) : bool :=
  match ex with
  | SeqScan _ scan _ _ | PkRangeScan _ _ _ scan _ _ => bool_decide (is_Some scan)
  | Filter child _ _ _ | Project child _ _ _ _ | Limit child _ _ _ | Sort child _ | HashAggregate child _ _ => holds_scan child
  | PkPointGet _ _ _ _ _ _ | Drained _ _ _ _ _ => false
  end.

Definition Collect (fuel : nat) (ex : Executor) : TxM (ExResult QueryResult) :=
  '(r, ex') ← Ex_Open fuel ex;
  match r with
  | inl e => mret (inl e, ex')
  | inr _ =>
    '(r, ex'') ← drain push_row fuel [] ex';
    match r with
    | inl e => mret (inl e, ex'')
    | inr rows => mret (inr (mkQueryResult (ex_column_names ex') rows 0 (PlanTag ex')), ex'')
    end
  end.

(** * INSERT, UPDATE, DELETE *)

(** [for (...) { call; ++rows_affected; }] *)
Fixpoint affect {A} (l : list A) (body : A -> TxM unit) (n : Z) : TxM Z :=
  match l with
  | [] => mret n
  | x :: l => body x ;; affect l body (u64 (n + 1))
  end.

Definition InsertOp_Execute (table : bytes) (rows : list Row) : TxM QueryResult :=
  n ← affect rows (Transaction_Insert table) 0;
  mret (mkQueryResult [] [] n (lit "Insert")).

(** The checks and bindings of the assignments, in their order. *)
Fixpoint bind_assignments (assignments : list Assignment) (schema : TableSchema) : Res (list Assignment) :=
  match assignments with
  | [] => Ret []
  | a :: assignments' =>
    if (asg_column_index a <? 0) || (Z.of_nat (num_columns schema) <=? asg_column_index a)
    then Fail (InvalidArgument (lit "assignment column out of range"))
    else e ← Bind schema (asg_expr a); as' ← bind_assignments assignments' schema; Ret (mkAssignment (asg_column_index a) e :: as')
  end.

(** [new_row.Set(...)] for each assignment, evaluated on the old row; [Set]
    writes a cell that exists. *)
Fixpoint assign (assignments : list Assignment) (old_row new_row : Row) (schema : TableSchema) : Res Row :=
  match assignments with
  | [] => Ret new_row
  | a :: assignments =>
    v ← Eval (asg_expr a) old_row schema;
    let i := Z.to_nat (asg_column_index a) in
    deref (new_row !! i) ;;
    assign assignments old_row (<[i := v]> new_row) schema
  end.

Definition update_row (schema : TableSchema) (assignments : list Assignment) (old_row : Row) : Res Row :=
  new_row ← assign assignments old_row old_row schema;
  old_pk ← PrimaryKey old_row schema;
  new_pk ← PrimaryKey new_row schema;
  if negb (Value_eqb old_pk new_pk) then Fail (InvalidArgument (lit "UPDATE must not change primary key"))
  else Ret new_row.

(** The answer, and whether a scan is alive where it returns. *)
Definition UpdateOp_Execute (fuel : nat) (schema : TableSchema) (source : Executor) (assignments : list Assignment) : TxM ((Status + QueryResult) * bool) :=
  if bool_decide (assignments = []) then mret (inl (InvalidArgument (lit "empty assignments")), holds_scan source)
  else
    let tag := lit "Update<-" ++ PlanTag source in
    '(r, source') ← Ex_Open fuel source;
    match r with
    | inl e => mret (inl e, holds_scan source')
    | inr _ =>
      if_ok (bind_assignments assignments schema) (fun e => (inl e, holds_scan source')) (fun assignments' =>
        '(r, source'') ← drain push_row fuel [] source';
        match r with
        | inl e => mret (inl e, holds_scan source'')
        | inr targets =>
          (* the source is destroyed here *)
          st ← ktry (affect targets (fun old_row => new_row ← klift (update_row schema assignments' old_row);
                                      Transaction_Update (name_ schema) new_row) 0);
          mret (match st with inl e => inl e | inr n => inr (mkQueryResult [] [] n tag) end, false)
        end)
    end.

Definition push_pk (schema : TableSchema) (acc : list Value) (row : Row) : Res (list Value) :=
  pk ← PrimaryKey row schema; Ret (acc ++ [pk]).

Definition DeleteOp_Execute (fuel : nat) (schema : TableSchema) (source : Executor) : TxM ((Status + QueryResult) * bool) :=
  let tag := lit "Delete<-" ++ PlanTag source in
  '(r, source') ← Ex_Open fuel source;
  match r with
  | inl e => mret (inl e, holds_scan source')
  | inr _ =>
    '(r, source'') ← drain (push_pk schema) fuel [] source';
    match r with
    | inl e => mret (inl e, holds_scan source'')
    | inr pks =>
      (* the source is destroyed here *)
      st ← ktry (affect pks (Transaction_Delete (name_ schema)) 0);
      mret (match st with inl e => inl e | inr n => inr (mkQueryResult [] [] n tag) end, false)
    end
  end.
