(* ===== verification/ExecSort.v ===== *)
(** ORDER BY (the sort of src/reldb/executor.cpp): the comparator is a total
    preorder on rows that fit the sort columns, and the sort is stable. *)
From S2P Require Import Prelude Status Slice Types Schema Row Expr SqlAst Executor.

(** * The order *)

(** Two cells of one type: NULL comes after every value. *)
Definition sort_order (a b : Value) : comparison :=
  match a, b with
  | VNull, VNull => Eq
  | VNull, _ => Gt
  | _, VNull => Lt
  | _, _ => default Eq (cell_order a b)
  end.

(** The first key that differs decides; DESC reverses. *)
Fixpoint row_order (keys : list SortKey) (a b : Row) : comparison :=
  match keys with
  | [] => Eq
  | key :: keys =>
    let cell r := default VNull (r !! Z.to_nat (sk_column_index key)) in
    match sort_order (cell a) (cell b) with
    | Eq => row_order keys a b
    | c => if sk_ascending key then c else CompOpp c
    end
  end.

(** The row has the sort columns, with cells of the given types. *)
Definition sort_fits (keys : list SortKey) (types : list ColumnType) (row : Row) : Prop :=
  Forall2 (fun key t => 0 <= sk_column_index key /\ exists v, row !! Z.to_nat (sk_column_index key) = Some v /\ fits_type v t) keys types.

Lemma Bool_compare_antisym x y : Bool.compare y x = CompOpp (Bool.compare x y).
Proof. by destruct x, y. Qed.

Lemma cell_order_antisym v w : cell_order w v = CompOpp <$> cell_order v w.
Proof.
  destruct v, w; try done; cbn; f_equal; [apply Z.compare_antisym|apply lex_antisym|apply Bool_compare_antisym].
Qed.

Lemma sort_order_antisym v w : sort_order w v = CompOpp (sort_order v w).
Proof.
  unfold sort_order. rewrite cell_order_antisym. destruct v, w; try done; cbn [cell_order fmap option_fmap option_map default];
    by destruct (Z.compare _ _) || by destruct (lex _ _) || by destruct (Bool.compare _ _).
Qed.

Lemma Bool_compare_trans x y z : Bool.compare x y <> Gt -> Bool.compare y z <> Gt -> Bool.compare x z <> Gt.
Proof. by destruct x, y, z. Qed.

Lemma sort_order_trans t u v w : fits_type u t -> fits_type v t -> fits_type w t ->
  sort_order u v <> Gt -> sort_order v w <> Gt -> sort_order u w <> Gt.
Proof.
  intros Hu Hv Hw. destruct u, v, w; try done; destruct Hu as [|<-], Hv as [|?], Hw as [|?]; try done; cbn.
  - rewrite !Z.compare_le_iff. lia.
  - apply lex_trans.
  - apply Bool_compare_trans.
Qed.

#[global] Instance sort_order_ord t : OrdOn (fun v => fits_type v t) sort_order.
Proof. split; [intros; apply sort_order_antisym|intros x y z; apply sort_order_trans]. Qed.

Lemma row_order_antisym keys a b : row_order keys b a = CompOpp (row_order keys a b).
Proof.
  induction keys as [|key keys IH]; [done|]. cbn [row_order]. rewrite sort_order_antisym.
  destruct (sort_order _ _), (sk_ascending key); cbn; done.
Qed.

Lemma row_order_trans keys types a b c : sort_fits keys types a -> sort_fits keys types b -> sort_fits keys types c ->
  row_order keys a b <> Gt -> row_order keys b c <> Gt -> row_order keys a c <> Gt.
Proof.
  intros Ha. revert b c. induction Ha as [|key t keys types (_ & u & Eu & Fu) Ha IH]; intros b c Hb Hc; [done|].
  inversion_clear Hb as [|???? (_ & v & Ev & Fv) Hb']. inversion_clear Hc as [|???? (_ & w & Ew & Fw) Hc'].
  cbn [row_order]. rewrite Eu, Ev, Ew. cbn [default from_option id]. specialize (IH b c Hb' Hc').
  pose proof (sort_order_trans t u v w Fu Fv Fw) as T1. pose proof (sort_order_trans t w v u Fw Fv Fu) as T2.
  pose proof (ord_lt_trans (fun x => fits_type x t) u v w Fu Fv Fw) as L1. pose proof (ord_lt_trans (fun x => fits_type x t) w v u Fw Fv Fu) as L2.
  rewrite (sort_order_antisym u w), (sort_order_antisym v w), (sort_order_antisym u v) in T2, L2.
  pose proof (ord_eq_cong_l (fun x => fits_type x t) u v w Fu Fv Fw) as C1.
  pose proof (ord_eq_cong_r (fun x => fits_type x t) v w u Fv Fw Fu) as C2.
  destruct (sort_order u v) eqn:E1, (sort_order v w) eqn:E2, (sort_order u w) eqn:E3, (sk_ascending key); cbn in *;
    try done; try (by apply IH); try (specialize (C1 eq_refl); congruence); try (specialize (C2 eq_refl); congruence); intros K1 K2; first [by apply IH|congruence|by destruct K1|by destruct K2|exfalso; by apply T1|exfalso; by apply T2|exfalso; by specialize (L1 eq_refl eq_refl)|exfalso; by specialize (L2 eq_refl eq_refl)].
Qed.

#[global] Instance row_order_ord keys types : OrdOn (sort_fits keys types) (row_order keys).
Proof. split; [intros; apply row_order_antisym|intros x y z; apply row_order_trans]. Qed.

(** The comparator decides the order. *)
Lemma CompareForSort_spec t v w : fits_type v t -> fits_type w t -> CompareForSort v w = Ret (sign_of (sort_order v w)).
Proof.
  intros Hv Hw. unfold CompareForSort. destruct v, w; try done; destruct Hv as [|<-], Hw as [|E]; try done; cbn [value_type] in *;
    cbn [IsNull andb]; rewrite bool_decide_true by done; cbn [negb GetInt64 GetString GetBool sort_order cell_order default from_option id].
  - by rewrite sign_Z.
  - by rewrite sign_bool.
Qed.

Lemma row_less_spec keys types a b : sort_fits keys types a -> sort_fits keys types b ->
  row_less keys a b = Ret (bool_decide (row_order keys a b = Lt)).
Proof.
  intros Ha. revert b. induction Ha as [|key t keys types (Hi & u & Eu & Fu) Ha IH]; intros b Hb; [done|].
  inversion_clear Hb as [|???? (_ & v & Ev & Fv) Hb']. cbn [row_less row_order]. pose proof (lookup_lt_Some _ _ _ Eu). pose proof (lookup_lt_Some _ _ _ Ev).
  destruct (Z.ltb_spec (sk_column_index key) 0); [lia|]. destruct (Z.leb_spec (Z.of_nat (length a)) (sk_column_index key)); [lia|].
  destruct (Z.leb_spec (Z.of_nat (length b)) (sk_column_index key)); [lia|]. cbn [orb]. unfold row_at. rewrite Eu, Ev.
  cbn [deref mbind Res_bind default from_option id]. rewrite (CompareForSort_spec t) by done. cbn [mbind Res_bind].
  destruct (sort_order u v); cbn [sign_of Z.eqb negb]; [by apply IH| |]; by destruct (sk_ascending key).
Qed.

(** * The sort *)

Section Sort.
Context (keys : list SortKey) (types : list ColumnType).
Notation fits := (sort_fits keys types).
Notation order := (row_order keys).

(** The rows that are equal to [z] on the sort columns. *)
Definition same_class (z : Row) (l : list Row) : list Row := filter (fun y => order z y = Eq) l.

Lemma same_class_app z l l' : same_class z (l ++ l') = same_class z l ++ same_class z l'.
Proof. apply filter_app. Qed.

Lemma above_class x z l : fits x -> fits z -> Forall fits l -> Forall (fun y => order x y = Lt) l -> order z x = Eq ->
  same_class z l = [].
Proof.
  intros Hx Hz Hl Hlt E. unfold same_class. induction l as [|y l IH]; [done|]. inversion_clear Hl. inversion_clear Hlt.
  rewrite filter_cons_False; [by apply IH|]. rewrite (ord_eq_cong_l (sort_fits keys types) z x y) by done. congruence.
Qed.

(** A row goes after its equals and before the greater ones. *)
Lemma sort_insert_spec x l : fits x -> Forall fits l -> StronglySorted (fun a b => order a b <> Gt) l ->
  exists l1 l2, l = l1 ++ l2 /\ sort_insert keys x l = Ret (l1 ++ x :: l2) /\
    Forall (fun y => order y x <> Gt) l1 /\ Forall (fun y => order x y = Lt) l2.
Proof.
  intros Hx Hl Hs. induction Hs as [|y l Hs IH Hf]; [by exists [], []|]. inversion_clear Hl as [|?? Hy Hl'].
  cbn [sort_insert]. rewrite (row_less_spec keys types) by done. cbn [mbind Res_bind]. case_bool_decide as E.
  - exists [], (y :: l). split; [done|]. split; [done|]. split; [constructor|]. constructor; [done|].
    rewrite Forall_forall in Hf, Hl' |- *. intros z Hz. eapply (ord_lt_le_trans (sort_fits keys types) x y z); auto.
  - destruct (IH Hl') as (l1 & l2 & -> & -> & H1 & H2). exists (y :: l1), l2. split; [done|]. split; [done|]. split; [|done].
    constructor; [|done]. rewrite row_order_antisym. by destruct (order x y).
Qed.

Lemma sort_insert_sorted x l1 l2 : fits x -> Forall fits (l1 ++ l2) -> StronglySorted (fun a b => order a b <> Gt) (l1 ++ l2) ->
  Forall (fun y => order y x <> Gt) l1 -> Forall (fun y => order x y = Lt) l2 -> StronglySorted (fun a b => order a b <> Gt) (l1 ++ x :: l2).
Proof.
  intros Hx Hl Hs H1 H2. apply StronglySorted_app in Hs as (Hc & Hs1 & Hs2). apply StronglySorted_app. split; [|split; [done|]].
  - intros y z Hy [->|Hz]%elem_of_cons; [by apply (proj1 (Forall_forall _ _) H1)|by apply Hc].
  - constructor; [done|]. eapply Forall_impl; [exact H2|]. intros y E. by rewrite E.
Qed.

Lemma sort_rows_spec l : forall sorted, Forall fits l -> Forall fits sorted -> StronglySorted (fun a b => order a b <> Gt) sorted ->
  exists out, sort_rows keys sorted l = Ret out /\ out ≡ₚ sorted ++ l /\ StronglySorted (fun a b => order a b <> Gt) out /\
    forall z, fits z -> same_class z out = same_class z (sorted ++ l).
Proof.
  induction l as [|x l IH]; intros sorted Hl Hso Hs; cbn [sort_rows].
  { exists sorted. rewrite app_nil_r. done. }
  inversion_clear Hl as [|?? Hx Hl']. destruct (sort_insert_spec x sorted Hx Hso Hs) as (l1 & l2 & -> & -> & H1 & H2). cbn [mbind Res_bind].
  assert (Hall : Forall fits (l1 ++ x :: l2)) by (rewrite Forall_app in Hso |- *; destruct Hso; split; [done|by constructor]).
  destruct (IH (l1 ++ x :: l2) Hl' Hall) as (out & E & Hp & Hs' & Hst); [by apply sort_insert_sorted|].
  exists out. split; [done|]. split; [rewrite Hp; rewrite <- (Permutation_middle (l1 ++ l2) l); cbn; by rewrite <- (Permutation_middle l1 l2)|].
  split; [done|]. intros z Hz. rewrite Hst by done. change (x :: l) with ([x] ++ l). rewrite app_assoc, !(same_class_app z _ l). f_equal.
  rewrite !same_class_app. change (x :: l2) with ([x] ++ l2). rewrite same_class_app, <- app_assoc. f_equal.
  destruct (decide (order z x = Eq)) as [Ez|Ez].
  - rewrite (above_class x z l2) by (done || apply Forall_app in Hso; apply Hso). by rewrite app_nil_r.
  - unfold same_class at 1 4. rewrite filter_cons_False, filter_nil by done. by rewrite app_nil_r.
Qed.
End Sort.

(** On rows that have the sort columns, the sort is ordered by the comparator and stable. *)
Lemma stable_sort_spec (keys : list SortKey) (types : list ColumnType) (rs : list Row) :
  Forall (sort_fits keys types) rs ->
  exists out, stable_sort keys rs = Ret out /\ out ≡ₚ rs /\ StronglySorted (fun a b => row_order keys a b <> Gt) out /\
    forall z, z ∈ rs -> same_class keys z out = same_class keys z rs.
Proof.
  intros Hrs. destruct (sort_rows_spec keys types rs [] Hrs) as (out & E & Hp & Hs & Hst); [constructor..|].
  exists out. split; [done|]. split; [done|]. split; [done|]. intros z Hz. apply Hst. by apply (proj1 (Forall_forall _ _) Hrs).
Qed.

(** ** The documented order *)

(** What the comment on CompareForSort promises: NULL is last, ascending and descending. *)
Definition documented_cell (ascending : bool) (a b : Value) : comparison :=
  match a, b with
  | VNull, VNull => Eq
  | VNull, _ => Gt
  | _, VNull => Lt
  | _, _ => let c := default Eq (cell_order a b) in if ascending then c else CompOpp c
  end.
Fixpoint documented_order (keys : list SortKey) (a b : Row) : comparison :=
  match keys with
  | [] => Eq
  | key :: keys =>
    let cell r := default VNull (r !! Z.to_nat (sk_column_index key)) in
    match documented_cell (sk_ascending key) (cell a) (cell b) with Eq => documented_order keys a b | c => c end
  end.
(** No cell of a descending sort column is NULL. *)
Definition no_null_desc (keys : list SortKey) (row : Row) : Prop :=
  Forall (fun key => sk_ascending key = false -> default VNull (row !! Z.to_nat (sk_column_index key)) <> VNull) keys.

Lemma documented_order_eq keys a b : no_null_desc keys a -> no_null_desc keys b -> row_order keys a b = documented_order keys a b.
Proof.
  induction keys as [|key keys IH]; [done|]. intros [Ha Ha']%Forall_cons [Hb Hb']%Forall_cons. cbn [row_order documented_order]. specialize (IH Ha' Hb').
  set (x := default VNull (a !! Z.to_nat (sk_column_index key))) in *. set (y := default VNull (b !! Z.to_nat (sk_column_index key))) in *.
  destruct (sk_ascending key).
  - assert (documented_cell true x y = sort_order x y) as -> by (by destruct x, y). by destruct (sort_order x y).
  - specialize (Ha eq_refl). specialize (Hb eq_refl).
    assert (documented_cell false x y = CompOpp (sort_order x y)) as -> by (by destruct x, y). by destruct (sort_order x y).
Qed.

(** C17: ORDER BY sorts as documented, on rows that have the sort columns, each with cells of
    one type or NULL, and no NULL in a descending sort column: the sort succeeds; its
    output is a permutation of the rows, ordered key by key, ascending or descending
    as the key says with NULL last, and rows that are equal on all keys keep their
    order.  (With a NULL in a descending column it is not: [nulls_first_in_desc].) *)
Theorem order_by_sorts (keys : list SortKey) (types : list ColumnType) (rs : list Row) :
  Forall (sort_fits keys types) rs -> Forall (no_null_desc keys) rs ->
  exists out, stable_sort keys rs = Ret out /\ out ≡ₚ rs /\ StronglySorted (fun a b => documented_order keys a b <> Gt) out /\
    forall z, z ∈ rs -> filter (fun y => documented_order keys z y = Eq) out = filter (fun y => documented_order keys z y = Eq) rs.
Proof.
  intros Hrs Hn. destruct (stable_sort_spec keys types rs Hrs) as (out & E & Hp & Hs & Hst). rewrite Forall_forall in Hn.
  assert (forall y, y ∈ out -> no_null_desc keys y) as Hn' by (intros y Hy; apply Hn; by rewrite <- Hp).
  exists out. split; [done|]. split; [done|]. split.
  - clear E Hst Hp. induction Hs as [|x out Hs IH Hx]; constructor; [apply IH; intros y Hy; apply Hn'; by right|].
    rewrite Forall_forall in Hx |- *. intros y Hy. rewrite <- documented_order_eq; [by apply Hx|apply Hn'; by left|apply Hn'; by right].
  - intros z Hz. specialize (Hst z Hz). unfold same_class in Hst.
    assert (forall l : list Row, (forall y, y ∈ l -> no_null_desc keys y) -> filter (fun y => documented_order keys z y = Eq) l = filter (fun y => row_order keys z y = Eq) l) as Hf.
    { induction l as [|y l IH]; intros Hl; [done|]. rewrite !filter_cons, IH by (intros y' Hy; apply Hl; by right).
      rewrite (documented_order_eq keys z y); [done|by apply Hn|apply Hl; by left]. }
    by rewrite !Hf.
Qed.

Lemma order_by_sorts_witness :
  let rs := [[VInt64 2; VString (lit "b")]; [VInt64 1; VNull]; [VInt64 2; VString (lit "a")]] in
  exists out, stable_sort [mkSortKey 0 false; mkSortKey 1 true] rs = Ret out /\ out ≡ₚ rs /\
    out = [[VInt64 2; VString (lit "a")]; [VInt64 2; VString (lit "b")]; [VInt64 1; VNull]].
Proof.
  intros rs. destruct (order_by_sorts [mkSortKey 0 false; mkSortKey 1 true] [kInt64; kString] rs) as (out & E & Hp & _).
  - repeat constructor; try (cbn; lia); eexists; (split; [reflexivity|first [by right|by left]]).
  - repeat constructor; done.
  - exists out. split; [exact E|]. split; [exact Hp|]. vm_compute in E. injection E as <-. reflexivity.
Defined.

(** A comment of the code says that NULLs sort last in both directions; in a
    descending sort they come first. *)
Lemma nulls_first_in_desc : stable_sort [mkSortKey 0 false] [[VInt64 1]; [VNull]; [VInt64 2]] = Ret [[VNull]; [VInt64 2]; [VInt64 1]].
Proof. reflexivity. Qed.
