(* ===== verification/ExecSpec.v ===== *)
(** What plans compute: a reference semantics of operator trees on lists of rows,
    and the proof that the pull-model executors implement it. *)
From S2P Require Import Prelude Status Slice Encoding Types Schema Row BindContext Expr SqlAst.
From S2P Require Import Kv Mvcc Catalog Database Txn SnapIso TxnRep TxnRefine TxnIsolation TxnScan Executor.

(** * Answers and failures *)

(** The answer of a call and the operator it leaves; a failure as a failure. *)
Definition settle {A} (m : TxM (ExResult A)) : TxM (A * Executor) :=
  '(r, ex) ← m; match r with inl e => kfail e | inr a => mret (a, ex) end.
Definition next_row (fuel : nat) (ex : Executor) : TxM (bool * Executor) := settle (Ex_Next fuel ex).
Definition open_plan (fuel : nat) (ex : Executor) : TxM Executor := '(_, ex') ← settle (Ex_Open fuel ex); mret ex'.
Definition drain_rows {A} (f : A -> Row -> Res A) (fuel : nat) (acc : A) (ex : Executor) : TxM A := '(a, _) ← settle (drain f fuel acc ex); mret a.
Definition collect_rows (fuel : nat) (ex : Executor) : TxM QueryResult := '(a, _) ← settle (Collect fuel ex); mret a.

Lemma settle_Ret {A} (p : TxM (ExResult A)) sm a ex sm' : exec (settle p) sm = (Ret (a, ex), sm') -> exec p sm = (Ret (inr a, ex), sm').
Proof.
  unfold settle. rewrite exec_bind. destruct (exec p sm) as [[[[e|x] ex1]|e|] sm1]; rewrite ?exec_fail, ?exec_ret; [done| |done|done]. by intros [= -> -> ->].
Qed.
Lemma open_plan_Ret fuel ex ex' sm sm' : exec (open_plan fuel ex) sm = (Ret ex', sm') -> exec (Ex_Open fuel ex) sm = (Ret (inr tt, ex'), sm').
Proof.
  unfold open_plan. rewrite exec_bind. destruct (exec (settle (Ex_Open fuel ex)) sm) as [[[[] ex1]|e|] sm1] eqn:E; [|done..]. rewrite exec_ret.
  intros [= -> ->]. by apply settle_Ret.
Qed.
Lemma drain_rows_Ret {A} (f : A -> Row -> Res A) fuel acc ex a sm sm' : exec (drain_rows f fuel acc ex) sm = (Ret a, sm') ->
  exists ex', exec (drain f fuel acc ex) sm = (Ret (inr a, ex'), sm').
Proof.
  unfold drain_rows. rewrite exec_bind. destruct (exec (settle (drain f fuel acc ex)) sm) as [[[x ex1]|e|] sm1] eqn:E; [|done..]. rewrite exec_ret.
  intros [= -> ->]. exists ex1. by apply settle_Ret.
Qed.

Lemma next_row_Ret fuel ex b ex' sm sm' : exec (Ex_Next fuel ex) sm = (Ret (inr b, ex'), sm') -> exec (next_row fuel ex) sm = (Ret (b, ex'), sm').
Proof. intros E. unfold next_row, settle. rewrite exec_bind, E. by rewrite exec_ret. Qed.

(** ** The equations of answers *)

Definition scan_row (scan : option TableRowScan) (current : Row) : TxM (bool * option TableRowScan * Row) :=
  match scan with
  | None => mret (false, None, current)
  | Some sc =>
    if negb (sc_valid sc) then
      kfail_if (negb (ok (sc_status sc))) (sc_status sc) ;;
      mret (false, None, current)
    else
      sc' ← Scan_Next sc;
      kfail_if (negb (ok (sc_status sc'))) (sc_status sc') ;;
      mret (true, Some sc', sc_row sc)
  end.
Definition next_eqn (fuel : nat) (ex : Executor) : TxM (bool * Executor) :=
  match ex with
  | SeqScan schema scan opened current =>
    kfail_if (negb opened) not_opened ;;
    '(has_row, scan', current') ← scan_row scan current;
    mret (has_row, SeqScan schema scan' opened current')
  | PkPointGet schema pk opened done_ found current =>
    kfail_if (negb opened) not_opened ;;
    if done_ || negb found then mret (false, ex) else mret (true, PkPointGet schema pk opened true found current)
  | PkRangeScan schema start_pk end_pk scan opened current =>
    kfail_if (negb opened) not_opened ;;
    '(has_row, scan', current') ← scan_row scan current;
    mret (has_row, PkRangeScan schema start_pk end_pk scan' opened current')
  | Filter child schema predicate opened =>
    kfail_if (negb opened) not_opened ;;
    '(child_has, child') ← next_row fuel child;
    if negb child_has then mret (false, Filter child' schema predicate opened)
    else
      keep ← klift (EvalBool predicate (current_row child') schema);
      if keep : bool then mret (true, Filter child' schema predicate opened)
      else next_row fuel (Filter child' schema predicate opened)
  | Project child schema projections opened current =>
    kfail_if (negb opened) not_opened ;;
    '(child_has, child') ← next_row fuel child;
    if negb child_has then mret (false, Project child' schema projections opened current)
    else
      cells ← klift (project_row projections (current_row child') schema);
      mret (true, Project child' schema projections opened cells)
  | Limit child limit produced opened =>
    kfail_if (negb opened) not_opened ;;
    if limit <=? produced then mret (false, ex)
    else
      '(child_has, child') ← next_row fuel child;
      if negb child_has then mret (false, Limit child' limit produced opened)
      else mret (true, Limit child' limit (produced + 1) opened)
  | Sort _ _ | HashAggregate _ _ _ => kfail not_opened
  | Drained names tag rows index current =>
    match rows !! index with
    | None => mret (false, ex)
    | Some row => mret (true, Drained names tag rows (S index) row)
    end
  end.

Lemma scan_row_eq scan current sm :
  exec (scan_row scan current) sm =
    match exec (scan_next scan current) sm with
    | (Ret (inr b, scan', current'), sm') => (Ret (b, scan', current'), sm')
    | (Ret (inl e, _, _), sm') | (Fail e, sm') => (Fail e, sm')
    | (Stuck, sm') => (Stuck, sm')
    end.
Proof.
  unfold scan_next, scan_row. destruct scan as [sc|]; [|by kv_step]. destruct (negb (sc_valid sc)); kv_step.
  - destruct (ok (sc_status sc)); cbn [negb]; by kv_step.
  - destruct (exec (Scan_Next sc) sm) as [[sc'|e|] sm1]; [|done..]. kv_step. destruct (ok (sc_status sc')); cbn [negb]; by kv_step.
Qed.

Lemma next_row_O ex sm : exec (next_row 0 ex) sm = (Stuck, sm).
Proof. unfold next_row, settle. cbn [Ex_Next]. rewrite exec_bind. by rewrite exec_lift. Qed.
Lemma next_row_S fuel ex sm : exec (next_row (S fuel) ex) sm = exec (next_eqn fuel ex) sm.
Proof.
  unfold next_row at 1, settle. cbn [Ex_Next].
  destruct ex as [schema scan o cur|schema pk o d f cur|schema lo hi scan o cur|child schema p o|child schema ps o cur|child keys|child l n o|child gb aggs|names tag rs i cur];
    cbn [next_eqn]; try (destruct o; cbn [negb]; [|by kv_step]); unfold next_row, settle.
  - kv_step. rewrite scan_row_eq.
    destruct (exec (scan_next scan cur) sm) as [[[[[e|b] sc'] cur']|e|] sm1]; by kv_step.
  - kv_step. destruct (d || negb f); by kv_step.
  - kv_step. rewrite scan_row_eq.
    destruct (exec (scan_next scan cur) sm) as [[[[[e|b] sc'] cur']|e|] sm1]; by kv_step.
  - kv_step. destruct (exec (Ex_Next fuel child) sm) as [[[[e|[]] child']|e|] sm1]; kv_step; cbn [negb]; try by kv_step. unfold if_ok.
    destruct (EvalBool p (current_row child') schema) as [[]|e|]; by kv_step.
  - kv_step. destruct (exec (Ex_Next fuel child) sm) as [[[[e|[]] child']|e|] sm1]; kv_step; cbn [negb]; try by kv_step. unfold if_ok.
    destruct (project_row ps (current_row child') schema); by kv_step.
  - by kv_step.
  - kv_step. destruct (l <=? n); [by kv_step|]. kv_step.
    destruct (exec (Ex_Next fuel child) sm) as [[[[e|[]] child']|e|] sm1]; kv_step; cbn [negb]; by kv_step.
  - by kv_step.
  - destruct (rs !! i); by kv_step.
Qed.

Lemma drain_rows_S {A} (f : A -> Row -> Res A) fuel acc ex sm : exec (drain_rows f (S fuel) acc ex) sm =
  exec ('(has_row, ex') ← next_row fuel ex;
        if negb has_row then mret acc else acc' ← klift (f acc (current_row ex')); drain_rows f fuel acc' ex') sm.
Proof.
  unfold drain_rows, next_row, settle. cbn [drain]. kv_step. destruct (exec (Ex_Next fuel ex) sm) as [[[[e|[]] ex']|e|] sm1]; kv_step; cbn [negb]; try by kv_step.
  unfold if_ok. destruct (f acc (current_row ex')); by kv_step.
Qed.

Definition EnsureOpenable (opened : bool) : TxM unit := kfail_if opened already_opened.
Definition open_eqn (fuel : nat) (ex : Executor) : TxM Executor :=
  match ex with
  | SeqScan schema _ opened current =>
    EnsureOpenable opened ;;
    sc ← Transaction_Scan (name_ schema) None None;
    mret (SeqScan schema (Some sc) true current)
  | PkPointGet schema pk opened done_ _ current =>
    EnsureOpenable opened ;;
    st ← ktry (Transaction_Get (name_ schema) pk);
    match st with
    | inl e => if IsNotFound e then mret (PkPointGet schema pk true done_ false current) else kfail e
    | inr row => mret (PkPointGet schema pk true done_ true row)
    end
  | PkRangeScan schema start_pk end_pk _ opened current =>
    EnsureOpenable opened ;;
    sc ← Transaction_Scan (name_ schema) start_pk end_pk;
    mret (PkRangeScan schema start_pk end_pk (Some sc) true current)
  | Filter child schema predicate opened =>
    EnsureOpenable opened ;;
    predicate' ← klift (Bind schema predicate);
    child' ← open_plan fuel child;
    mret (Filter child' schema predicate' true)
  | Project child schema projections opened current =>
    kfail_if (bool_decide (projections = [])) (InvalidArgument (lit "empty projection list")) ;;
    EnsureOpenable opened ;;
    projections' ← klift (bind_projections projections schema);
    child' ← open_plan fuel child;
    mret (Project child' schema projections' true current)
  | Sort child keys =>
    kfail_if (bool_decide (keys = [])) (InvalidArgument (lit "empty sort keys")) ;;
    let tag := lit "Sort<-" ++ PlanTag child in
    child' ← open_plan fuel child;
    rows ← drain_rows push_row fuel [] child';
    sorted ← klift (stable_sort keys rows);
    mret (Drained (ex_column_names child') tag sorted 0 [])
  | Limit child limit _ opened =>
    EnsureOpenable opened ;;
    child' ← open_plan fuel child;
    mret (Limit child' limit 0 true)
  | HashAggregate child group_by aggs =>
    kfail_if (bool_decide (aggs = []) && bool_decide (group_by = [])) (InvalidArgument (lit "empty aggregate list")) ;;
    klift (check_specs aggs) ;;
    let tag := lit "HashAggregate<-" ++ PlanTag child in
    child' ← open_plan fuel child;
    names ← klift (pick_columns group_by (ex_column_names child'));
    groups ← drain_rows (agg_row group_by aggs) fuel Groups_new child';
    rows ← klift (agg_rows group_by aggs groups);
    mret (Drained (names ++ map as_output_name aggs) tag rows 0 [])
  | Drained _ _ _ _ _ => kfail (InvalidArgument (lit "null child"))
  end.

Lemma Transaction_Scan_eq table lo hi sm :
  exec (Transaction_Scan table lo hi) sm =
    match exec (open_scan table lo hi) sm with
    | (Ret (inr _, Some sc), sm') => (Ret sc, sm')
    | (Ret (inl e, _), sm') | (Fail e, sm') => (Fail e, sm')
    | (_, sm') => (Stuck, sm')
    end.
Proof.
  unfold open_scan, Transaction_Scan. kv_step. destruct (exec (Scan_start table lo hi) sm) as [[sc|e|] sm1]; kv_step; [|done..].
  destruct (ok (sc_status sc)); cbn [negb]; by kv_step.
Qed.
Lemma open_scan_some table lo hi sm scan sm' : exec (open_scan table lo hi) sm = (Ret (inr tt, scan), sm') -> is_Some scan.
Proof.
  unfold open_scan. kv_step. destruct (exec (Scan_start table lo hi) sm) as [[sc|e|] sm1]; kv_step; [|done..]. intros [= _ <- _]. done.
Qed.

Lemma open_plan_eq fuel ex sm : exec (open_plan fuel ex) sm = exec (open_eqn fuel ex) sm.
Proof.
  unfold open_plan at 1, settle.
  destruct ex as [schema scan o cur|schema pk o d f cur|schema lo hi scan o cur|child schema p o|child schema ps o cur|child keys|child l n o|child gb aggs|names tag rs i cur];
    cbn [Ex_Open open_eqn]; unfold EnsureOpenable, open_plan, drain_rows, settle, if_ok; kv_step.
  - destruct o; [by kv_step|]. kv_step. rewrite Transaction_Scan_eq.
    destruct (exec (open_scan (name_ schema) None None) sm) as [[[[e|[]] sc']|e|] sm1] eqn:E; kv_step; try done. destruct (open_scan_some _ _ _ _ _ _ E) as [sc ->]. by kv_step.
  - destruct o; [by kv_step|]. kv_step. destruct (exec (Transaction_Get (name_ schema) pk) sm) as [[row|e|] sm1]; kv_step; try done. by destruct (IsNotFound e); kv_step.
  - destruct o; [by kv_step|]. kv_step. rewrite Transaction_Scan_eq.
    destruct (exec (open_scan (name_ schema) lo hi) sm) as [[[[e|[]] sc']|e|] sm1] eqn:E; kv_step; try done. destruct (open_scan_some _ _ _ _ _ _ E) as [sc ->]. by kv_step.
  - destruct o; [by kv_step|]. kv_step. destruct (Bind schema p); kv_step; try done.
    destruct (exec (Ex_Open fuel child) sm) as [[[[e|[]] child']|e|] sm1]; by kv_step.
  - destruct (bool_decide (ps = [])); [by kv_step|]. destruct o; [by kv_step|]. kv_step. destruct (bind_projections ps schema); kv_step; try done.
    destruct (exec (Ex_Open fuel child) sm) as [[[[e|[]] child']|e|] sm1]; by kv_step.
  - destruct (bool_decide (keys = [])); [by kv_step|]. kv_step. destruct (exec (Ex_Open fuel child) sm) as [[[[e|[]] child']|e|] sm1]; kv_step; try done.
    destruct (exec (drain push_row fuel [] child') sm1) as [[[[e|rows] child'']|e|] sm2]; kv_step; try done. destruct (stable_sort keys rows); by kv_step.
  - destruct o; [by kv_step|]. kv_step. destruct (exec (Ex_Open fuel child) sm) as [[[[e|[]] child']|e|] sm1]; by kv_step.
  - destruct (_ && _); [by kv_step|]. kv_step. destruct (check_specs aggs); kv_step; try done.
    destruct (exec (Ex_Open fuel child) sm) as [[[[e|[]] child']|e|] sm1]; kv_step; try done. destruct (pick_columns gb (ex_column_names child')); kv_step; try done.
    destruct (exec (drain (agg_row gb aggs) fuel Groups_new child') sm1) as [[[[e|g] child'']|e|] sm2]; kv_step; try done. destruct (agg_rows gb aggs g); by kv_step.
  - done.
Qed.

Lemma collect_rows_eq fuel ex sm : exec (collect_rows fuel ex) sm =
  exec (ex' ← open_plan fuel ex; rows ← drain_rows push_row fuel [] ex'; mret (mkQueryResult (ex_column_names ex') rows 0 (PlanTag ex'))) sm.
Proof.
  unfold collect_rows, open_plan, drain_rows, settle, Collect. kv_step. destruct (exec (Ex_Open fuel ex) sm) as [[[[e|[]] ex']|e|] sm1]; kv_step; try done.
  destruct (exec (drain push_row fuel [] ex') sm1) as [[[[e|rows] ex'']|e|] sm2]; by kv_step.
Qed.

(** * Streams *)

(** The rows an operator delivers, and the status that ends it early, if any. *)
Record Stream := mkStream { st_rows : list Row; st_end : option Status }.

Definition stream_cons (r : Row) (s : Stream) : Stream := mkStream (r :: st_rows s) (st_end s).

(** Pull a stream through a fold. *)
Fixpoint fold_rows {A} (f : A -> Row -> Res A) (acc : A) (rs : list Row) (fin : option Status) : Res A :=
  match rs with
  | [] => match fin with None => Ret acc | Some e => Fail e end
  | r :: rs => acc' ← f acc r; fold_rows f acc' rs fin
  end.
Definition fold_stream {A} (f : A -> Row -> Res A) (acc : A) (s : Stream) : Res A := fold_rows f acc (st_rows s) (st_end s).

(** The rows as a list, or the status. *)
Definition stream_list (s : Stream) : Res (list Row) := match st_end s with None => Ret (st_rows s) | Some e => Fail e end.

Lemma fold_push rs fin : forall acc, fold_rows push_row acc rs fin =
  match fin with None => Ret (acc ++ rs) | Some e => Fail e end.
Proof.
  induction rs as [|r rs IH]; intros acc; cbn [fold_rows].
  - destruct fin; [done|]. by rewrite app_nil_r.
  - change (fold_rows push_row (acc ++ [r]) rs fin = match fin with None => Ret (acc ++ r :: rs) | Some e => Fail e end).
    rewrite IH. destruct fin; [done|]. by rewrite <- app_assoc.
Qed.

Lemma fold_stream_push s : fold_stream push_row [] s = stream_list s.
Proof. unfold fold_stream, stream_list. rewrite fold_push. by destruct (st_end s). Qed.

(** Filtering: an error of the predicate ends the stream; expressions are never stuck. *)
Fixpoint filter_rows (p : Row -> Res bool) (rs : list Row) (fin : option Status) : Stream :=
  match rs with
  | [] => mkStream [] fin
  | r :: rs =>
    match p r with
    | Ret true => stream_cons r (filter_rows p rs fin)
    | Ret false => filter_rows p rs fin
    | Fail e => mkStream [] (Some e)
    | Stuck => mkStream [] None
    end
  end.

(** Mapping, in the same way. *)
Fixpoint map_rows (f : Row -> Res Row) (rs : list Row) (fin : option Status) : Stream :=
  match rs with
  | [] => mkStream [] fin
  | r :: rs =>
    match f r with
    | Ret r' => stream_cons r' (map_rows f rs fin)
    | Fail e => mkStream [] (Some e)
    | Stuck => mkStream [] None
    end
  end.

(** The first [n] rows; the rest, with its error, is not looked at. *)
Definition limit_stream (n : Z) (s : Stream) : Stream :=
  mkStream (take (Z.to_nat n) (st_rows s)) (if n <=? Z.of_nat (length (st_rows s)) then None else st_end s).

(** * Plans *)

(** The labels of the output columns. *)
Fixpoint plan_names (ex : Executor) : Res (list bytes) :=
  match ex with
  | SeqScan schema _ _ _ | PkPointGet schema _ _ _ _ _ | PkRangeScan schema _ _ _ _ _ => Ret (ColumnNamesFromSchema schema)
  | Project _ _ projections _ _ => Ret (map pj_name projections)
  | Filter child _ _ _ | Limit child _ _ _ | Sort child _ => plan_names child
  | HashAggregate child group_by aggs => names ← plan_names child; ns ← pick_columns group_by names; Ret (ns ++ map as_output_name aggs)
  | Drained names _ _ _ _ => Ret names
  end.

Section Denote.
(** The relations plans read: ranges of a table, and rows by key. *)
Context (ranged : option Value -> option Value -> list Row) (point : Value -> option Row).

Fixpoint denote (ex : Executor) : Res Stream :=
  match ex with
  | SeqScan _ _ _ _ => Ret (mkStream (ranged None None) None)
  | PkPointGet _ pk _ _ _ _ => Ret (mkStream (option_list (point pk)) None)
  | PkRangeScan _ start_pk end_pk _ _ _ => Ret (mkStream (ranged start_pk end_pk) None)
  | Filter child schema predicate _ =>
    p ← Bind schema predicate;
    s ← denote child;
    Ret (filter_rows (fun r => EvalBool p r schema) (st_rows s) (st_end s))
  | Project child schema projections _ _ =>
    if bool_decide (projections = []) then Fail (InvalidArgument (lit "empty projection list"))
    else
      ps ← bind_projections projections schema;
      s ← denote child;
      Ret (map_rows (fun r => project_row ps r schema) (st_rows s) (st_end s))
  | Sort child keys =>
    if bool_decide (keys = []) then Fail (InvalidArgument (lit "empty sort keys"))
    else
      s ← denote child;
      rs ← stream_list s;
      sorted ← stable_sort keys rs;
      Ret (mkStream sorted None)
  | Limit child limit _ _ => s ← denote child; Ret (limit_stream limit s)
  | HashAggregate child group_by aggs =>
    if bool_decide (aggs = []) && bool_decide (group_by = []) then Fail (InvalidArgument (lit "empty aggregate list"))
    else
      check_specs aggs ;;
      s ← denote child;
      names ← plan_names child;
      pick_columns group_by names ;;
      g ← fold_stream (agg_row group_by aggs) Groups_new s;
      rs ← agg_rows group_by aggs g;
      Ret (mkStream rs None)
  | Drained _ _ _ _ _ => Fail (InvalidArgument (lit "null child"))
  end.
End Denote.

(** * Opened operators *)

Section Yields.
Context (m : gmap bytes bytes) (st : Database * Transaction).

(** [Next] on [ex] answers [res], given [F] fuel, and changes nothing. *)
Definition steps (F : nat) (ex : Executor) (res : Res (bool * Executor)) : Prop :=
  forall fuel, (F <= fuel)%nat -> exec (next_row fuel ex) (st, m) = (res, (st, m)).

(** [ex] delivers the rows [rs] and then ends, or fails with [fin]. *)
Fixpoint yields (F : nat) (rs : list Row) (fin : option Status) (ex : Executor) : Prop :=
  match rs with
  | [] => match fin with Some e => steps F ex (Fail e) | None => exists ex', steps F ex (Ret (false, ex')) end
  | r :: rs => exists ex', steps F ex (Ret (true, ex')) /\ current_row ex' = r /\ yields F rs fin ex'
  end.
Definition yields_stream (F : nat) (s : Stream) (ex : Executor) : Prop := yields F (st_rows s) (st_end s) ex.

Lemma steps_mono F F' ex res : steps F ex res -> (F <= F')%nat -> steps F' ex res.
Proof. intros H HF fuel Hf. apply H. lia. Qed.

Lemma yields_mono F F' rs fin : (F <= F')%nat -> forall ex, yields F rs fin ex -> yields F' rs fin ex.
Proof.
  intros HF. induction rs as [|r rs IH]; intros ex; cbn [yields].
  - destruct fin; [by intros H; eapply steps_mono|]. intros [ex' H]. exists ex'. by eapply steps_mono.
  - intros (ex' & H1 & H2 & H3). exists ex'. split; [by eapply steps_mono|]. auto.
Qed.

(** An operator whose next step is that of another. *)
Lemma yields_defer F rs fin ex ex' : (forall res, steps F ex' res -> steps (S F) ex res) -> yields F rs fin ex' -> yields (S F) rs fin ex.
Proof.
  intros H. destruct rs as [|r rs]; cbn [yields].
  - destruct fin; [apply H|]. intros [x Hx]. exists x. by apply H.
  - intros (x & H1 & H2 & H3). exists x. split; [by apply H|]. split; [done|]. eapply yields_mono; [|exact H3]. lia.
Qed.

(** Draining an operator folds its stream. *)
Lemma exec_drain {A} (f : A -> Row -> Res A) F rs fin : forall acc ex fuel, yields F rs fin ex -> (F + length rs < fuel)%nat ->
  exec (drain_rows f fuel acc ex) (st, m) = (fold_rows f acc rs fin, (st, m)).
Proof.
  induction rs as [|r rs IH]; intros acc ex fuel; cbn [yields fold_rows length]; intros Hy Hf; destruct fuel as [|fuel]; try lia;
    rewrite drain_rows_S; kv_step.
  - destruct fin as [e|]; [by rewrite Hy by lia|]. destruct Hy as [ex' H]. rewrite H by lia. cbn [negb]. by rewrite exec_ret.
  - destruct Hy as (ex' & H1 & <- & H3). rewrite H1 by lia. cbn [negb]. kv_step.
    destruct (f acc (current_row ex')) as [acc'|e|]; [|done..]. rewrite (IH acc') by (done || lia). done.
Qed.

Ltac next_fuel fuel Hf := destruct fuel as [|fuel]; [lia|]; rewrite next_row_S; cbn [next_eqn]; kv_step; cbn [negb]; kv_step.

Lemma yields_drained names tag pre rs cur : yields 1 rs None (Drained names tag (pre ++ rs) (length pre) cur).
Proof.
  revert pre cur; induction rs as [|r rs IH]; intros pre cur; cbn [yields].
  - eexists. intros fuel Hf. next_fuel fuel Hf. rewrite app_nil_r, lookup_ge_None_2 by done. by rewrite exec_ret.
  - eexists. split; [|split; [|]].
    + intros fuel Hf. next_fuel fuel Hf. rewrite list_lookup_middle by done. rewrite exec_ret. reflexivity.
    + done.
    + specialize (IH (pre ++ [r]) r). rewrite length_app, Nat.add_comm in IH. rewrite <- app_assoc in IH. exact IH.
Qed.

Lemma yields_filter schema p F rs fin : forall child, yields F rs fin child ->
  yields_stream (S (F + length rs)) (filter_rows (fun r => EvalBool p r schema) rs fin) (Filter child schema p true).
Proof.
  unfold yields_stream. induction rs as [|r rs IH]; intros child; cbn [yields filter_rows length].
  - destruct fin as [e|]; cbn [yields st_rows st_end].
    + intros H fuel Hf. next_fuel fuel Hf. by rewrite H by lia.
    + intros [child' H]. eexists. intros fuel Hf. next_fuel fuel Hf. rewrite H by lia. cbn [negb]. rewrite exec_ret. reflexivity.
  - intros (child' & H1 & <- & H3). pose proof (EvalBool_code p (current_row child') schema) as Hc.
    destruct (EvalBool p (current_row child') schema) as [[]|e|] eqn:Ep; [| | |done].
    + cbn [stream_cons st_rows st_end yields]. exists (Filter child' schema p true). split; [|split; [done|]].
      * intros fuel Hf. next_fuel fuel Hf. rewrite H1 by lia. cbn [negb]. kv_step. rewrite Ep. by rewrite exec_ret.
      * eapply yields_mono; [|by apply IH]. lia.
    + replace (F + S (length rs))%nat with (S (F + length rs)) by lia. eapply yields_defer; [|by apply IH].
      intros res Hres fuel Hf. next_fuel fuel Hf. rewrite H1 by lia. cbn [negb]. kv_step. rewrite Ep. apply Hres. lia.
    + cbn [yields st_rows st_end]. intros fuel Hf. next_fuel fuel Hf. rewrite H1 by lia. cbn [negb]. kv_step. by rewrite Ep.
Qed.

Lemma project_row_code ps r schema : only_fails kInvalidArgument (project_row ps r schema).
Proof.
  induction ps as [|p ps IH]; cbn [project_row]; [done|]. apply only_fails_bind; [apply Eval_code|]. intros v _.
  apply only_fails_bind; [done|]. done.
Qed.

Lemma yields_project schema ps F rs fin : forall child cur, yields F rs fin child ->
  yields_stream (S F) (map_rows (fun r => project_row ps r schema) rs fin) (Project child schema ps true cur).
Proof.
  unfold yields_stream. induction rs as [|r rs IH]; intros child cur; cbn [yields map_rows].
  - destruct fin as [e|]; cbn [yields st_rows st_end].
    + intros H fuel Hf. next_fuel fuel Hf. by rewrite H by lia.
    + intros [child' H]. eexists. intros fuel Hf. next_fuel fuel Hf. rewrite H by lia. cbn [negb]. rewrite exec_ret. reflexivity.
  - intros (child' & H1 & <- & H3). pose proof (project_row_code ps (current_row child') schema) as Hc.
    destruct (project_row ps (current_row child') schema) as [cells|e|] eqn:Ep; [| |done].
    + cbn [stream_cons st_rows st_end yields]. exists (Project child' schema ps true cells). split; [|split; [done|by apply IH]].
      intros fuel Hf. next_fuel fuel Hf. rewrite H1 by lia. cbn [negb]. kv_step. rewrite Ep. by rewrite exec_ret.
    + cbn [yields st_rows st_end]. intros fuel Hf. next_fuel fuel Hf. rewrite H1 by lia. cbn [negb]. kv_step. by rewrite Ep.
Qed.

(** With [n] rows produced, the rows left are those of the limit [l - n]. *)
Lemma yields_limit l F rs fin : forall n child, 0 <= n -> yields F rs fin child ->
  yields_stream (S F) (limit_stream (l - n) (mkStream rs fin)) (Limit child l n true).
Proof.
  unfold yields_stream, limit_stream. cbn [st_rows st_end]. induction rs as [|r rs IH]; intros n child Hn; cbn [yields].
  - intros H. rewrite take_nil. cbn [yields length]; change (Z.of_nat 0) with 0. destruct (Z.leb_spec (l - n) 0) as [Hl|Hl]; cbn iota.
    + eexists. intros fuel Hf. next_fuel fuel Hf. destruct (Z.leb_spec l n); [|lia]. rewrite exec_ret. reflexivity.
    + destruct fin as [e|].
      * intros fuel Hf. next_fuel fuel Hf. destruct (Z.leb_spec l n); [lia|]. kv_step. by rewrite H by lia.
      * destruct H as [child' H]. eexists. intros fuel Hf. next_fuel fuel Hf. destruct (Z.leb_spec l n); [lia|]. kv_step.
        rewrite H by lia. cbn [negb]. rewrite exec_ret. reflexivity.
  - intros (child' & H1 & <- & H3). destruct (Z.leb_spec l n) as [Hl|Hl].
    + replace (Z.to_nat (l - n)) with O by lia. cbn [take yields]. destruct (Z.leb_spec (l - n) (Z.of_nat (length (current_row child' :: rs)))); [|cbn [length] in *; lia].
      cbn iota. eexists. intros fuel Hf. next_fuel fuel Hf. destruct (Z.leb_spec l n); [|lia]. rewrite exec_ret. reflexivity.
    + replace (Z.to_nat (l - n)) with (S (Z.to_nat (l - (n + 1)))) by lia. cbn [take yields]. exists (Limit child' l (n + 1) true).
      split; [|split; [done|]].
      * intros fuel Hf. next_fuel fuel Hf. destruct (Z.leb_spec l n); [lia|]. kv_step. rewrite H1 by lia. cbn [negb]. by rewrite exec_ret.
      * specialize (IH (n + 1) child' ltac:(lia) H3). cbn [length].
        replace (l - n <=? Z.of_nat (S (length rs))) with (l - (n + 1) <=? Z.of_nat (length rs)); [exact IH|].
        destruct (Z.leb_spec (l - (n + 1)) (Z.of_nat (length rs))), (Z.leb_spec (l - n) (Z.of_nat (S (length rs)))); lia.
Qed.
End Yields.

(** * Fresh plans over one table *)

(** A plan as the planner builds it: nothing opened, one table at the leaf. *)
Fixpoint plan_ok (table : bytes) (ex : Executor) : Prop :=
  match ex with
  | SeqScan schema _ opened _ => opened = false /\ name_ schema = table
  | PkPointGet schema pk opened done_ _ _ => opened = false /\ done_ = false /\ name_ schema = table /\ key_ok (table, pk)
  | PkRangeScan schema _ _ _ opened _ => opened = false /\ name_ schema = table
  | Filter child _ _ opened | Project child _ _ opened _ | Limit child _ _ opened => opened = false /\ plan_ok table child
  | Sort child _ | HashAggregate child _ _ => plan_ok table child
  | Drained _ _ _ _ _ => False
  end.

Lemma with_catalog_same d : with_catalog (catalog_ d) d = d.
Proof. by destruct d. Qed.

Section Plans.
Context (N : Z) (a : SI) (s : Sys) (m : gmap bytes bytes) (t start : Z) (table : bytes) (tr : Transaction).
Context (N_pos : 0 <= N) (rep : sys_rep 1 N a s m) (opened : si_open a !! t = Some start).
Context (sep : separate (si_tables a) table) (known : si_tables a !! table <> None) (live : sys_txns s !! t = Some tr).

(** The relations of the table that the transaction sees. *)
Definition range_rows (lo hi : option Value) : list Row := map snd (scan_result a m t start table lo hi).
Definition point_row (pk : Value) : option Row := si_read a t start (table, pk).

(** The state an opened plan runs in: only the catalog cache may have changed. *)
Definition after (c : Catalog) : Database * Transaction := (with_catalog c (sys_db s), tr).

(** An operator that delivers the rows of a scan. *)
Lemma yields_scan st hi (mk : option TableRowScan -> Row -> Executor) :
  (forall fuel scan cur, exec (next_row (S fuel) (mk scan cur)) (st, m) =
     exec ('(h, scan', cur') ← scan_row scan cur; mret (h, mk scan' cur')) (st, m)) ->
  (forall scan cur, current_row (mk scan cur) = cur) ->
  forall n es sc cur, (length es <= n)%nat -> advanced a m t start table hi es sc ->
  yields m st 1 (map snd (shown a t start table hi es)) None (mk (Some sc) cur).
Proof.
  intros Hnext Hcur. induction n as [|n IH]; intros es sc cur Hn Hadv; destruct (sc_valid sc) eqn:Hv.
  1, 3: destruct (exec_Scan_Next N a s m t start table hi N_pos rep opened sep st es sc Hadv Hv) as (sc' & es' & E & Ha & Hl & ->).
  - lia.
  - cbn [map snd yields]. exists (mk (Some sc') (sc_row sc)). split; [|split; [by rewrite Hcur|apply IH; [lia|done]]].
    intros fuel Hf. destruct fuel as [|fuel]; [lia|]. rewrite Hnext. unfold scan_row. rewrite Hv. cbn [negb]. kv_step. rewrite E. kv_step.
    rewrite (so_status _ _ _ _ _ (proj1 Ha)). change (negb (ok OK)) with false. cbn iota. by kv_step.
  - pose proof Hadv as [Hok [[_ ->]|[Hv' _]]]; [|congruence]. cbn [map yields]. eexists. intros fuel Hf. destruct fuel as [|fuel]; [lia|].
    rewrite Hnext. unfold scan_row. rewrite Hv. cbn [negb]. kv_step. rewrite (so_status _ _ _ _ _ Hok). change (negb (ok OK)) with false.
    cbn iota. kv_step. reflexivity.
  - pose proof Hadv as [Hok [[_ ->]|[Hv' _]]]; [|congruence]. cbn [map yields]. eexists. intros fuel Hf. destruct fuel as [|fuel]; [lia|].
    rewrite Hnext. unfold scan_row. rewrite Hv. cbn [negb]. kv_step. rewrite (so_status _ _ _ _ _ Hok). change (negb (ok OK)) with false.
    cbn iota. kv_step. reflexivity.
Qed.

(** What opening [ex] delivers, for its meaning [r]. *)
Definition opens (ex : Executor) (r : Res Stream) : Prop :=
  exists F c, tables_rep (si_tables a) c m /\
  match r with
  | Ret str => exists ex', (forall fuel, (F <= fuel)%nat -> exec (open_plan fuel ex) ((sys_db s, tr), m) = (Ret ex', (after c, m))) /\
      yields_stream m (after c) F str ex' /\ plan_names ex = Ret (ex_column_names ex') /\ PlanTag ex' = PlanTag ex
  | Fail e => forall fuel, (F <= fuel)%nat -> exec (open_plan fuel ex) ((sys_db s, tr), m) = (Fail e, (after c, m))
  | Stuck => forall fuel, (F <= fuel)%nat -> exec (open_plan fuel ex) ((sys_db s, tr), m) = (Stuck, (after c, m))
  end.

Lemma opens_early ex e : (forall fuel st, exec (open_plan fuel ex) (st, m) = (Fail e, (st, m))) -> opens ex (Fail e).
Proof.
  intros H. exists O, (catalog_ (sys_db s)). split; [apply (sr_tables _ _ _ _ _ rep)|]. intros fuel _. rewrite H. unfold after.
  by rewrite with_catalog_same.
Qed.

Lemma opens_scan lo hi ex (mk : option TableRowScan -> Row -> Executor) cur :
  (forall fuel st, exec (open_plan fuel ex) (st, m) = exec (sc ← Transaction_Scan table lo hi; mret (mk (Some sc) cur)) (st, m)) ->
  (forall st fuel scan cur, exec (next_row (S fuel) (mk scan cur)) (st, m) =
     exec ('(h, scan', cur') ← scan_row scan cur; mret (h, mk scan' cur')) (st, m)) ->
  (forall scan cur, current_row (mk scan cur) = cur) ->
  (forall scan, plan_names ex = Ret (ex_column_names (mk scan cur)) /\ PlanTag (mk scan cur) = PlanTag ex) ->
  opens ex (Ret (mkStream (range_rows lo hi) None)).
Proof.
  intros Hopen Hnext Hcur Hn. destruct (exec_Transaction_Scan N a s m t start table lo hi N_pos rep opened sep tr known live)
    as (c & sc & Hc & E & Hadv).
  exists 1%nat, c. split; [done|]. exists (mk (Some sc) cur). split; [|split; [|apply Hn]].
  - intros fuel _. rewrite Hopen. kv_step. rewrite E. by kv_step.
  - eapply yields_scan; [apply Hnext|done|done|exact Hadv].
Qed.

(** A point read in the transaction. *)
Lemma exec_Transaction_Get pk : key_ok (table, pk) ->
  exists res c, exec (Transaction_Get table pk) ((sys_db s, tr), m) = (res, (after c, m)) /\ tables_rep (si_tables a) c m /\
    answers (point_row pk) res.
Proof.
  intros Hk. pose proof (sr_txns _ _ _ _ _ rep t (proj2 (sv_open _ (sr_inv _ _ _ _ _ rep) _ _ opened))) as Hrep.
  rewrite opened in Hrep. destruct Hrep as (tr' & Et' & Hid & [Hfin Hst _ _]). rewrite live in Et'. injection Et' as <-.
  unfold Transaction_Get, the_txn. kv_step. rewrite Hfin. kv_step. rewrite exec_on_db.
  destruct (exec_GetTable _ (sys_db s) m table (sr_tables _ _ _ _ _ rep)) as (res & c & E & Hc & Ha). rewrite E.
  unfold table_answer in Ha. destruct (si_tables a !! table) as [schema|]; [|done]. subst res. rewrite Hid, Hst.
  destruct (exec_read N a s m t start table N_pos rep (with_catalog c (sys_db s), tr) pk Hk) as (res & Er & Hres).
  exists res, c. by rewrite Er.
Qed.

Lemma opens_point schema pk done_ found cur : done_ = false -> name_ schema = table -> key_ok (table, pk) ->
  opens (PkPointGet schema pk false done_ found cur) (Ret (mkStream (option_list (point_row pk)) None)).
Proof.
  intros -> En Hk. destruct (exec_Transaction_Get pk Hk) as (res & c & E & Hc & Ha). exists 1%nat, c. split; [done|].
  unfold yields_stream. cbn [st_rows st_end]. destruct (point_row pk) as [row|]; cbn [answers option_list] in *.
  - subst res. exists (PkPointGet schema pk true false true row). split; [|split; [|done]].
    + intros fuel _. rewrite open_plan_eq; cbn [open_eqn]. unfold EnsureOpenable. kv_step. rewrite En, E. by kv_step.
    + exists (PkPointGet schema pk true true true row). split; [|split; [done|]].
      * intros fuel Hf. destruct fuel as [|fuel]; [lia|]. rewrite next_row_S; cbn [next_eqn]. by kv_step.
      * eexists. intros fuel Hf. destruct fuel as [|fuel]; [lia|]. rewrite next_row_S; cbn [next_eqn]. kv_step. reflexivity.
  - destruct Ha as [msg ->]. exists (PkPointGet schema pk true false false cur). split; [|split; [|done]].
    + intros fuel _. rewrite open_plan_eq; cbn [open_eqn]. unfold EnsureOpenable. kv_step. rewrite En, E. change (IsNotFound (NotFound msg)) with true. by kv_step.
    + eexists. intros fuel Hf. destruct fuel as [|fuel]; [lia|]. rewrite next_row_S; cbn [next_eqn]. kv_step. reflexivity.
Qed.

(** An operator that opens its child and goes on with [k]. *)
Lemma opens_bind ex child r (k : nat -> Executor -> TxM Executor) (g : Stream -> Res Stream) : opens child r ->
  (forall fuel st, exec (open_plan fuel ex) (st, m) = exec (child' ← open_plan fuel child; k fuel child') (st, m)) ->
  (forall F c str child', r = Ret str -> yields_stream m (after c) F str child' -> plan_names child = Ret (ex_column_names child') ->
     exists F', match g str with
     | Ret str' => exists ex', (forall fuel, (F' <= fuel)%nat -> exec (k fuel child') (after c, m) = (Ret ex', (after c, m))) /\
         yields_stream m (after c) F' str' ex' /\ plan_names ex = Ret (ex_column_names ex') /\ (PlanTag child' = PlanTag child -> PlanTag ex' = PlanTag ex)
     | Fail e => forall fuel, (F' <= fuel)%nat -> exec (k fuel child') (after c, m) = (Fail e, (after c, m))
     | Stuck => forall fuel, (F' <= fuel)%nat -> exec (k fuel child') (after c, m) = (Stuck, (after c, m))
     end) ->
  opens ex (str ← r; g str).
Proof.
  intros (F & c & Hc & Hr) Hex Hk. destruct r as [str|e|]; cbn [mbind Res_bind].
  - destruct Hr as (child' & Ho & Hy & Hn & Ht). destruct (Hk F c str child' eq_refl Hy Hn) as (F' & Hg).
    exists (max F F'), c. split; [done|]. destruct (g str) as [str'|e|].
    + destruct Hg as (ex' & H1 & H2 & H3 & H4). exists ex'. split; [|split; [|auto]].
      * intros fuel Hf. rewrite Hex. kv_step. rewrite Ho by lia. apply H1. lia.
      * eapply yields_mono; [|exact H2]. lia.
    + intros fuel Hf. rewrite Hex. kv_step. rewrite Ho by lia. apply Hg. lia.
    + intros fuel Hf. rewrite Hex. kv_step. rewrite Ho by lia. apply Hg. lia.
  - exists F, c. split; [done|]. intros fuel Hf. rewrite Hex. kv_step. by rewrite Hr.
  - exists F, c. split; [done|]. intros fuel Hf. rewrite Hex. kv_step. by rewrite Hr.
Qed.

Lemma bind_projections_code ps schema : only_fails kInvalidArgument (bind_projections ps schema).
Proof.
  induction ps as [|p ps IH]; cbn [bind_projections]; [done|]. apply only_fails_bind; [apply Bind_code|]. intros e _.
  by apply only_fails_bind.
Qed.
Lemma bind_projections_names ps schema : forall ps', bind_projections ps schema = Ret ps' -> map pj_name ps' = map pj_name ps.
Proof.
  induction ps as [|p ps IH]; cbn [bind_projections]; intros ps'; [by intros [= <-]|].
  intros (e & _ & (ps1 & E & [= <-])%Res_bind_Ret)%Res_bind_Ret. cbn. by rewrite (IH ps1).
Qed.
Lemma check_specs_code aggs : only_fails kInvalidArgument (check_specs aggs).
Proof. induction aggs; cbn [check_specs]; repeat case_match; done. Qed.

(** Each operator, given what its child delivers. *)
Lemma opens_filter child r schema p : opens child r ->
  opens (mkFilter child schema p) (p' ← Bind schema p; str ← r; Ret (filter_rows (fun x => EvalBool p' x schema) (st_rows str) (st_end str))).
Proof.
  intros Hr. pose proof (Bind_code schema p) as Hb. destruct (Bind schema p) as [p'|e|] eqn:Eb; [|apply opens_early|done].
  - eapply (opens_bind _ child _ (fun fuel child' => mret (Filter child' schema p' true))); [exact Hr| |].
    + intros fuel st. rewrite open_plan_eq; cbn [open_eqn mkFilter]. unfold EnsureOpenable. kv_step. rewrite Eb. by kv_step.
    + intros F c str child' _ Hy Hn. eexists. exists (Filter child' schema p' true). split; [intros; by kv_step|].
      split; [by apply yields_filter|]. split; [done|]. cbn. by intros ->.
  - intros fuel st. rewrite open_plan_eq; cbn [open_eqn mkFilter]. unfold EnsureOpenable. kv_step. by rewrite Eb.
Qed.

Lemma opens_project child r schema ps cur : opens child r ->
  opens (Project child schema ps false cur) (
    if bool_decide (ps = []) then Fail (InvalidArgument (lit "empty projection list"))
    else ps' ← bind_projections ps schema; str ← r; Ret (map_rows (fun x => project_row ps' x schema) (st_rows str) (st_end str))).
Proof.
  intros Hr. destruct (bool_decide_reflect (ps = [])) as [E0|E0].
  { apply opens_early. intros fuel st. rewrite open_plan_eq; cbn [open_eqn]. kv_step. by rewrite bool_decide_true. }
  pose proof (bind_projections_code ps schema) as Hb. destruct (bind_projections ps schema) as [ps'|e|] eqn:Eb; [|apply opens_early|done].
  - eapply (opens_bind _ child _ (fun fuel child' => mret (Project child' schema ps' true cur))); [exact Hr| |].
    + intros fuel st. rewrite open_plan_eq; cbn [open_eqn]. unfold EnsureOpenable. kv_step. rewrite bool_decide_false by done. kv_step. rewrite Eb. by kv_step.
    + intros F c str child' _ Hy Hn. eexists. exists (Project child' schema ps' true cur). split; [intros; by kv_step|].
      split; [by apply yields_project|]. split; [cbn; by rewrite (bind_projections_names _ _ _ Eb)|]. cbn. by intros ->.
  - intros fuel st. rewrite open_plan_eq; cbn [open_eqn]. unfold EnsureOpenable. kv_step. rewrite bool_decide_false by done. kv_step. by rewrite Eb.
Qed.

Lemma opens_limit child r l n : opens child r -> opens (Limit child l n false) (str ← r; Ret (limit_stream l str)).
Proof.
  intros Hr. eapply (opens_bind _ child _ (fun fuel child' => mret (Limit child' l 0 true))); [exact Hr| |].
  - intros fuel st. rewrite open_plan_eq; cbn [open_eqn]. unfold EnsureOpenable. by kv_step.
  - intros F c str child' _ Hy Hn. eexists. exists (Limit child' l 0 true). split; [intros; by kv_step|].
    split; [|split; [done|cbn; by intros ->]]. pose proof (yields_limit m (after c) l F (st_rows str) (st_end str) 0 child' ltac:(lia) Hy) as H.
    rewrite Z.sub_0_r in H. by destruct str.
Qed.

(** Draining an opened child. *)
Lemma drains {A} (f : A -> Row -> Res A) acc F c str child' : yields_stream m (after c) F str child' ->
  forall fuel, (S (F + length (st_rows str)) <= fuel)%nat ->
  exec (drain_rows f fuel acc child') (after c, m) = (fold_stream f acc str, (after c, m)).
Proof. intros Hy fuel Hf. by rewrite (exec_drain m _ _ F (st_rows str) (st_end str)) by (done || lia). Qed.

Lemma opens_sort child r keys : opens child r ->
  opens (Sort child keys) (
    if bool_decide (keys = []) then Fail (InvalidArgument (lit "empty sort keys"))
    else str ← r; rs ← stream_list str; sorted ← stable_sort keys rs; Ret (mkStream sorted None)).
Proof.
  intros Hr. destruct (bool_decide_reflect (keys = [])) as [E0|E0].
  { apply opens_early. intros fuel st. rewrite open_plan_eq; cbn [open_eqn]. kv_step. by rewrite bool_decide_true. }
  eapply (opens_bind _ child _ (fun fuel child' => rs ← drain_rows push_row fuel [] child'; sorted ← klift (stable_sort keys rs);
    mret (Drained (ex_column_names child') (lit "Sort<-" ++ PlanTag child) sorted 0 []))); [exact Hr| |].
  - intros fuel st. rewrite open_plan_eq; cbn [open_eqn]. kv_step. rewrite bool_decide_false by done. by kv_step.
  - intros F c str child' _ Hy Hn. exists (S (F + length (st_rows str)) + 1)%nat. pose proof (drains push_row [] F c str child' Hy) as Hd.
    rewrite fold_stream_push in Hd. destruct (stream_list str) as [rs|e|]; cbn [mbind Res_bind]; [|intros fuel Hf; kv_step; by rewrite Hd by lia..].
    destruct (stable_sort keys rs) as [sorted|e|] eqn:Es; cbn [mbind Res_bind];
      [|intros fuel Hf; kv_step; rewrite Hd by lia; kv_step; by rewrite Es..].
    exists (Drained (ex_column_names child') (lit "Sort<-" ++ PlanTag child) sorted 0 []). split; [|split; [|done]].
    + intros fuel Hf. kv_step. rewrite Hd by lia. kv_step. rewrite Es. by kv_step.
    + eapply yields_mono; [|apply (yields_drained m (after c) _ _ [] sorted)]. lia.
Qed.

Lemma opens_aggregate child r gb aggs : opens child r ->
  opens (HashAggregate child gb aggs) (
    if bool_decide (aggs = []) && bool_decide (gb = []) then Fail (InvalidArgument (lit "empty aggregate list"))
    else check_specs aggs ;; str ← r; names ← plan_names child; pick_columns gb names ;;
      g ← fold_stream (agg_row gb aggs) Groups_new str; rs ← agg_rows gb aggs g; Ret (mkStream rs None)).
Proof.
  intros Hr. destruct (bool_decide (aggs = []) && bool_decide (gb = [])) eqn:E0.
  { apply opens_early. intros fuel st. rewrite open_plan_eq; cbn [open_eqn]. kv_step. by rewrite E0. }
  pose proof (check_specs_code aggs) as Hb. destruct (check_specs aggs) as [[]|e|] eqn:Eb; [|apply opens_early|done].
  2: { intros fuel st. rewrite open_plan_eq; cbn [open_eqn]. kv_step. rewrite E0. kv_step. by rewrite Eb. }
  eapply (opens_bind _ child _ (fun fuel child' => names ← klift (pick_columns gb (ex_column_names child'));
    groups ← drain_rows (agg_row gb aggs) fuel Groups_new child'; rows ← klift (agg_rows gb aggs groups);
    mret (Drained (names ++ map as_output_name aggs) (lit "HashAggregate<-" ++ PlanTag child) rows 0 []))); [exact Hr| |].
  - intros fuel st. rewrite open_plan_eq; cbn [open_eqn]. kv_step. rewrite E0. kv_step. rewrite Eb. by kv_step.
  - intros F c str child' _ Hy Hn. exists (S (F + length (st_rows str)) + 1)%nat. rewrite Hn. cbn [mbind Res_bind].
    destruct (pick_columns gb (ex_column_names child')) as [names|e|] eqn:Ep; cbn [mbind Res_bind]; [|intros fuel Hf; by kv_step..].
    pose proof (drains (agg_row gb aggs) Groups_new F c str child' Hy) as Hd.
    destruct (fold_stream (agg_row gb aggs) Groups_new str) as [g|e|]; cbn [mbind Res_bind];
      [|intros fuel Hf; kv_step; by rewrite Hd by lia..].
    destruct (agg_rows gb aggs g) as [rs|e|] eqn:Es; cbn [mbind Res_bind];
      [|intros fuel Hf; kv_step; rewrite Hd by lia; kv_step; by rewrite Es..].
    exists (Drained (names ++ map as_output_name aggs) (lit "HashAggregate<-" ++ PlanTag child) rs 0 []). split; [|split; [|split]].
    + intros fuel Hf. kv_step. rewrite Hd by lia. kv_step. rewrite Es. by kv_step.
    + eapply yields_mono; [|apply (yields_drained m (after c) _ _ [] rs)]. lia.
    + cbn. rewrite Hn. cbn. by rewrite Ep.
    + done.
Qed.

(** The executors implement the reference semantics. *)
Lemma opens_plan ex : plan_ok table ex -> opens ex (denote range_rows point_row ex).
Proof.
  induction ex as [schema scan o cur|schema pk o d f cur|schema lo hi scan o cur|child IH schema p o|child IH schema ps o cur
    |child IH keys|child IH l n o|child IH gb aggs|]; cbn [plan_ok denote].
  - intros [-> En]. eapply (opens_scan None None _ (fun sc c => SeqScan schema sc true c) cur); try done.
    + intros fuel st. rewrite open_plan_eq; cbn [open_eqn]. unfold EnsureOpenable. kv_step. by rewrite En.
    + intros st fuel sc c. rewrite next_row_S; cbn [next_eqn negb]. by rewrite exec_bind, exec_fail_if.
  - intros (-> & Hd & En & Hk). by apply opens_point.
  - intros [-> En]. eapply (opens_scan lo hi _ (fun sc c => PkRangeScan schema lo hi sc true c) cur); try done.
    + intros fuel st. rewrite open_plan_eq; cbn [open_eqn]. unfold EnsureOpenable. kv_step. by rewrite En.
    + intros st fuel sc c. rewrite next_row_S; cbn [next_eqn negb]. by rewrite exec_bind, exec_fail_if.
  - intros [-> Hp]. apply opens_filter. auto.
  - intros [-> Hp]. apply opens_project. auto.
  - intros Hp. apply opens_sort. auto.
  - intros [-> Hp]. apply opens_limit. auto.
  - intros Hp. apply opens_aggregate. auto.
  - done.
Qed.

(** What [collect_rows] answers. *)
Definition collect_answer (ex : Executor) : Res QueryResult :=
  str ← denote range_rows point_row ex;
  rs ← stream_list str;
  names ← plan_names ex;
  Ret (mkQueryResult names rs 0 (PlanTag ex)).

Lemma exec_Collect ex : plan_ok table ex -> exists F c, tables_rep (si_tables a) c m /\
  forall fuel, (F <= fuel)%nat -> exec (collect_rows fuel ex) ((sys_db s, tr), m) = (collect_answer ex, (after c, m)).
Proof.
  intros Hp. destruct (opens_plan ex Hp) as (F & c & Hc & H). unfold collect_answer. setoid_rewrite collect_rows_eq.
  destruct (denote range_rows point_row ex) as [str|e|]; cbn [mbind Res_bind].
  - destruct H as (ex' & Ho & Hy & Hn & Ht). exists (S (F + length (st_rows str)))%nat, c. split; [done|]. intros fuel Hf. kv_step.
    rewrite Ho by lia. kv_step. rewrite (drains push_row [] F c str ex' Hy) by lia. rewrite fold_stream_push.
    destruct (stream_list str) as [rs|e|]; cbn [mbind Res_bind]; [|done..]. rewrite Hn, Ht. by kv_step.
  - exists F, c. split; [done|]. intros fuel Hf. kv_step. by rewrite H.
  - exists F, c. split; [done|]. intros fuel Hf. kv_step. by rewrite H.
Qed.
End Plans.

(** * Open scans *)

Fixpoint has_limit_op (ex : Executor) : bool :=
  match ex with
  | Limit _ _ _ _ => true
  | Filter child _ _ _ | Project child _ _ _ _ | Sort child _ | HashAggregate child _ _ => has_limit_op child
  | _ => false
  end.

Lemma scan_next_end scan cur sm has_row scan' cur' sm' : exec (scan_row scan cur) sm = (Ret (has_row, scan', cur'), sm') ->
  has_row = false -> scan' = None.
Proof.
  unfold scan_row. destruct scan as [sc|]; [|rewrite exec_ret; by intros [= <- <- <- <-]]. destruct (negb (sc_valid sc)).
  - rewrite exec_bind, exec_fail_if. destruct (negb _); [done|]. rewrite exec_ret. by intros [= <- <- <- <-].
  - rewrite exec_bind. destruct (exec (Scan_Next sc) sm) as [[sc'|e|] sm1]; [|done..]. rewrite exec_bind, exec_fail_if. destruct (negb _); [done|].
    rewrite exec_ret. by intros [= <- <- <- <-].
Qed.

(** One answer of a plan without LIMIT: the plan stays without, and at the end no scan is left. *)
Definition released (out : Res (bool * Executor)) : Prop :=
  match out with Ret (has_row, ex') => has_limit_op ex' = false /\ (has_row = false -> holds_scan ex' = false) | _ => True end.

Lemma Next_released fuel : forall ex sm, has_limit_op ex = false -> released (exec (next_row fuel ex) sm).1.
Proof.
  induction fuel as [|fuel IH]; intros ex sm Hl; [by rewrite next_row_O|]; rewrite next_row_S.
  destruct ex as [schema scan o cur|schema pk o d f cur|schema lo hi scan o cur|child schema p o|child schema ps o cur|child keys|child l n o|child gb aggs|names tag rs i cur];
    cbn [has_limit_op] in Hl; cbn [next_eqn]; try done; try (rewrite exec_bind, exec_fail_if; destruct (negb o); [done|]; cbn [fst]).
  - rewrite exec_bind. destruct (exec (scan_row scan cur) sm) as [[[[h scan'] cur']|e|] sm1] eqn:E; [|done..]. rewrite exec_ret. split; [done|].
    intros ->. by rewrite (scan_next_end _ _ _ _ _ _ _ E).
  - destruct (d || negb f); by rewrite exec_ret.
  - rewrite exec_bind. destruct (exec (scan_row scan cur) sm) as [[[[h scan'] cur']|e|] sm1] eqn:E; [|done..]. rewrite exec_ret. split; [done|].
    intros ->. by rewrite (scan_next_end _ _ _ _ _ _ _ E).
  - rewrite exec_bind. pose proof (IH child sm Hl) as Hc. destruct (exec (next_row fuel child) sm) as [[[h child']|e|] sm1]; [|done..].
    destruct Hc as [Hc1 Hc2]. destruct h; cbn [negb]; [|rewrite exec_ret; split; [done|by intros _; apply Hc2]]. rewrite exec_bind, exec_lift.
    destruct (EvalBool p (current_row child') schema) as [[]|e|]; [by rewrite exec_ret| |done..]. by apply IH.
  - rewrite exec_bind. pose proof (IH child sm Hl) as Hc. destruct (exec (next_row fuel child) sm) as [[[h child']|e|] sm1]; [|done..].
    destruct Hc as [Hc1 Hc2]. destruct h; cbn [negb]; [|rewrite exec_ret; split; [done|by intros _; apply Hc2]]. rewrite exec_bind, exec_lift.
    destruct (project_row ps (current_row child') schema); [by rewrite exec_ret|done..].
  - destruct (rs !! i); by rewrite exec_ret.
Qed.

(** The state of a plan that is opened and pulled [n] times by transaction [t]. *)
Fixpoint pull (n : nat) (fuel : nat) (ex : Executor) : TxM (list bool * Executor) :=
  match n with
  | O => mret ([], ex)
  | S n => '(h, ex') ← next_row fuel ex; '(hs, ex'') ← pull n fuel ex'; mret (h :: hs, ex'')
  end.
Definition pull_by (t : Z) (n fuel : nat) (plan : Executor) : KM Sys (list bool * bool) := fun s =>
  match sys_txns s !! t with
  | None => KRet (Stuck, s)
  | Some tr => kzoom (fun s => (sys_db s, tr)) (fun dt s => mkSys dt.1 (<[t := dt.2]> (sys_txns s)))
      (ex ← open_plan fuel plan; '(hs, ex') ← pull n fuel ex; mret (hs, holds_scan ex')) s
  end.

(** A plan that has delivered its last row has closed its scan, and with it released
    the locks of the iterator, unless it has a LIMIT: the answer that there are no
    more rows leaves no scan in any plan of scans, filters, projections, sorts and
    aggregates; LIMIT stops pulling, and the scan below it stays open. *)
Theorem exhausted_plan_releases_scan :
  (forall fuel ex ex' sm sm', has_limit_op ex = false -> exec (Ex_Next fuel ex) sm = (Ret (inr false, ex'), sm') -> holds_scan ex' = false) /\
  (exec (session two_rows ;; pull_by 2 2 9 (mkLimit (mkSeqScan sample_schema) 1)) (Sys_new, ∅)).1 = Ret ([true; false], true).
Proof.
  split; [|by vm_compute]. intros fuel ex ex' sm sm' Hl E. pose proof (Next_released fuel ex sm Hl) as H. rewrite (next_row_Ret _ _ _ _ _ _ E) in H. by apply H.
Qed.

Lemma exhausted_plan_releases_scan_witness :
  holds_scan (Filter (Drained [] [] [] 0 []) sample_schema (Literal (VBool true)) true) = false.
Proof.
  apply (proj1 exhausted_plan_releases_scan 2%nat (Filter (Drained [] [] [] 0 []) sample_schema (Literal (VBool true)) true) _
    ((Database_new, mkTransaction 1 0 false []), ∅) ((Database_new, mkTransaction 1 0 false []), ∅)); reflexivity.
Defined.

(** ** The end of a plan *)

Lemma exec_bind_inv {S A B} (p : KM S A) (f : A -> KM S B) sm b sm' : exec (x ← p; f x) sm = (Ret b, sm') ->
  exists a sm1, exec p sm = (Ret a, sm1) /\ exec (f a) sm1 = (Ret b, sm').
Proof. rewrite exec_bind. destruct (exec p sm) as [[a|e|] sm1]; [|done..]. by exists a, sm1. Qed.

(** Plans that have read their table before they deliver a row. *)
Fixpoint materialised (ex : Executor) : bool :=
  match ex with
  | Sort _ _ | HashAggregate _ _ _ | PkPointGet _ _ _ _ _ _ | Drained _ _ _ _ _ => true
  | Filter child _ _ _ | Project child _ _ _ _ | Limit child _ _ _ => materialised child
  | SeqScan _ _ _ _ | PkRangeScan _ _ _ _ _ _ => false
  end.
(** Plans that have no scan once they are exhausted: LIMIT only above a materialised plan. *)
Definition ends_closed (ex : Executor) : bool := negb (has_limit_op ex) || materialised ex.

Lemma Next_no_scan fuel : forall ex sm h ex' sm', holds_scan ex = false -> exec (next_row fuel ex) sm = (Ret (h, ex'), sm') -> holds_scan ex' = false.
Proof.
  induction fuel as [|fuel IH]; intros ex sm h ex' sm' Hs; [by rewrite next_row_O|]; rewrite next_row_S.
  destruct ex as [schema scan o cur|schema pk o d f cur|schema lo hi scan o cur|child schema p o|child schema ps o cur|child keys|child l n o|child gb aggs|names tag rs i cur];
    cbn [holds_scan] in Hs; cbn [next_eqn]; try (rewrite exec_bind, exec_fail_if; destruct (negb o); [done|]; cbn [fst]).
  - destruct scan; [by rewrite bool_decide_eq_true_2 in Hs|]. rewrite exec_bind. cbn [scan_row]. rewrite !exec_ret. by intros [= _ <- _].
  - destruct (d || negb f); rewrite exec_ret; by intros [= _ <- _].
  - destruct scan; [by rewrite bool_decide_eq_true_2 in Hs|]. rewrite exec_bind. cbn [scan_row]. rewrite !exec_ret. by intros [= _ <- _].
  - intros ([h1 child'] & sm1 & E1 & E2)%exec_bind_inv. specialize (IH _ _ _ _ _ Hs E1) as Hc. destruct h1; cbn [negb] in E2; [|rewrite exec_ret in E2; by injection E2 as _ <- _].
    apply exec_bind_inv in E2 as (keep & sm2 & _ & E2). destruct keep; [rewrite exec_ret in E2; by injection E2 as _ <- _|]. by eapply IH; [|exact E2].
  - intros ([h1 child'] & sm1 & E1 & E2)%exec_bind_inv. specialize (IH _ _ _ _ _ Hs E1) as Hc. destruct h1; cbn [negb] in E2; [|rewrite exec_ret in E2; by injection E2 as _ <- _].
    apply exec_bind_inv in E2 as (cells & sm2 & _ & E2). rewrite exec_ret in E2. by injection E2 as _ <- _.
  - by kv_step.
  - destruct (l <=? n); [rewrite exec_ret; by intros [= _ <- _]|]. intros ([h1 child'] & sm1 & E1 & E2)%exec_bind_inv. specialize (IH _ _ _ _ _ Hs E1) as Hc.
    destruct h1; cbn [negb] in E2; rewrite exec_ret in E2; by injection E2 as _ <- _.
  - by kv_step.
  - destruct (rs !! i); rewrite exec_ret; by intros [= _ <- _].
Qed.

(** An opened plan whose end has no scan. *)
Definition closes (ex : Executor) : Prop := has_limit_op ex = false \/ holds_scan ex = false.

Lemma Next_closes fuel ex sm h ex' sm' : closes ex -> exec (next_row fuel ex) sm = (Ret (h, ex'), sm') -> closes ex' /\ (h = false -> holds_scan ex' = false).
Proof.
  intros [Hc|Hc] E.
  - pose proof (Next_released fuel ex sm Hc) as H. rewrite E in H. destruct H as [H1 H2]. split; [by left|done].
  - pose proof (Next_no_scan fuel ex sm h ex' sm' Hc E) as H. split; [by right|done].
Qed.

Lemma drain_closes {A} (f : A -> Row -> Res A) fuel : forall acc ex sm a ex' sm', closes ex ->
  exec (drain f fuel acc ex) sm = (Ret (inr a, ex'), sm') -> holds_scan ex' = false.
Proof.
  induction fuel as [|fuel IH]; intros acc ex sm a ex' sm' Hc; cbn [drain]; [by rewrite exec_lift|].
  intros ([r ex1] & sm1 & E1 & E2)%exec_bind_inv. destruct r as [e|h]; [by rewrite exec_ret in E2|].
  destruct (Next_closes _ _ _ _ _ _ Hc (next_row_Ret _ _ _ _ _ _ E1)) as [Hc1 Hend]. destruct h.
  - unfold if_ok in E2. destruct (f acc (current_row ex1)); [by eapply IH|by rewrite exec_ret in E2|by rewrite exec_lift in E2].
  - rewrite exec_ret in E2. injection E2 as _ <- _. by apply Hend.
Qed.

Lemma Open_keeps fuel : forall ex sm ex' sm', exec (open_plan fuel ex) sm = (Ret ex', sm') ->
  (has_limit_op ex = false -> has_limit_op ex' = false) /\ (materialised ex = true -> holds_scan ex' = false).
Proof.
  induction ex as [schema scan o cur|schema pk o d f cur|schema lo hi scan o cur|child IH schema p o|child IH schema ps o cur|child IH keys|child IH l n o|child IH gb aggs|names tag rs i cur];
    intros sm ex' sm'; rewrite open_plan_eq; cbn [open_eqn has_limit_op materialised].
  - intros (? & sm1 & _ & (sc & sm2 & _ & E)%exec_bind_inv)%exec_bind_inv. rewrite exec_ret in E. by injection E as <- _.
  - intros (? & sm1 & _ & (st & sm2 & _ & E)%exec_bind_inv)%exec_bind_inv. destruct st as [e|row]; [destruct (IsNotFound e)|]; rewrite ?exec_ret, ?exec_fail in E; try done;
      by injection E as <- _.
  - intros (? & sm1 & _ & (sc & sm2 & _ & E)%exec_bind_inv)%exec_bind_inv. rewrite exec_ret in E. by injection E as <- _.
  - intros (? & sm1 & _ & (p' & sm2 & _ & (child' & sm3 & Ec & E)%exec_bind_inv)%exec_bind_inv)%exec_bind_inv. rewrite exec_ret in E. injection E as <- _. exact (IH _ _ _ Ec).
  - intros (? & sm0 & _ & (? & sm1 & _ & (p' & sm2 & _ & (child' & sm3 & Ec & E)%exec_bind_inv)%exec_bind_inv)%exec_bind_inv)%exec_bind_inv.
    rewrite exec_ret in E. injection E as <- _. exact (IH _ _ _ Ec).
  - intros (? & sm0 & _ & (child' & sm1 & _ & (rows & sm2 & _ & (sorted & sm3 & _ & E)%exec_bind_inv)%exec_bind_inv)%exec_bind_inv)%exec_bind_inv.
    rewrite exec_ret in E. by injection E as <- _.
  - intros (? & sm1 & _ & (child' & sm3 & Ec & E)%exec_bind_inv)%exec_bind_inv. rewrite exec_ret in E. injection E as <- _. split; [done|]. exact (proj2 (IH _ _ _ Ec)).
  - intros (? & sm0 & _ & (? & sm1 & _ & (child' & sm2 & _ & (nm & sm3 & _ & (gs & sm4 & _ & (rows & sm5 & _ & E)%exec_bind_inv)%exec_bind_inv)%exec_bind_inv)%exec_bind_inv)%exec_bind_inv)%exec_bind_inv.
    rewrite exec_ret in E. by injection E as <- _.
  - by rewrite exec_fail.
Qed.

(** The answer of such a plan leaves no scan. *)
Lemma Collect_closes fuel ex sm q ex' sm' : ends_closed ex = true -> exec (Collect fuel ex) sm = (Ret (inr q, ex'), sm') -> holds_scan ex' = false.
Proof.
  intros He. unfold Collect. intros ([r ex1] & sm1 & E1 & E2)%exec_bind_inv. destruct r as [e|[]]; [by rewrite exec_ret in E2|].
  assert (exec (open_plan fuel ex) sm = (Ret ex1, sm1)) as Eo by (unfold open_plan, settle; kv_step; rewrite E1; by kv_step).
  destruct (Open_keeps fuel ex sm ex1 sm1 Eo) as [H1 H2]. assert (closes ex1) as Hc.
  { apply orb_true_iff in He as [He%negb_true_iff|He]; [left; by apply H1|right; by apply H2]. }
  apply exec_bind_inv in E2 as ([r ex2] & sm2 & E2 & E3). destruct r as [e|rows]; rewrite exec_ret in E3; [done|]. injection E3 as _ <- _. by eapply drain_closes.
Qed.
