(* ===== verification/ExecAgg.v ===== *)
(** Aggregation (the hash aggregate of src/reldb/executor.cpp): its output is
    that of grouping the rows and computing the aggregates of each group over the
    integers, unless a sum leaves the 64-bit range, which is reported. *)
From S2P Require Import Prelude Status Slice Encoding Types Schema Row Expr SqlAst Executor ExecSpec.

(** * Reference *)

Definition sum_list (l : list Z) : Z := foldr Z.add 0 l.
(** The running sums stay in the range of [int64_t]. *)
Definition sums_fit (l : list Z) : Prop := forall n, int64 (sum_list (take n l)).

(** The integers an aggregate looks at. *)
Definition arg_cell (spec : AggSpec) (row : Row) : Value := default VNull (row !! Z.to_nat (as_arg_column spec)).
Definition arg_ints (spec : AggSpec) (rs : list Row) : list Z :=
  omap (fun r => match arg_cell spec r with VInt64 v => Some v | _ => None end) rs.

Definition min_list (l : list Z) : Z := match l with [] => 0 | x :: l => foldl Z.min x l end.
Definition max_list (l : list Z) : Z := match l with [] => 0 | x :: l => foldl Z.max x l end.
Definition null_if_empty (l : list Z) (v : Z) : Value := match l with [] => VNull | _ => VInt64 v end.

(** The value of an aggregate over the rows of a group. *)
Definition agg_value (rs : list Row) (spec : AggSpec) : Value :=
  let ints := arg_ints spec rs in
  match as_func spec with
  | kCount => VInt64 (Z.of_nat (length (if as_star spec then rs else filter (fun r => arg_cell spec r <> VNull) rs)))
  | kSum => null_if_empty ints (sum_list ints)
  | kAvg => null_if_empty ints (Z.quot (sum_list ints) (Z.of_nat (length ints)))
  | kMin => null_if_empty ints (min_list ints)
  | kMax => null_if_empty ints (max_list ints)
  end.

Definition group_key (gb : list Z) (row : Row) : list Value := map (fun i => default VNull (row !! Z.to_nat i)) gb.
Definition group_rows (gb : list Z) (k : list Value) (rs : list Row) : list Row := filter (fun r => group_key gb r = k) rs.

(** Keys in the order of their first row. *)
Definition add_seen {A} `{EqDecision A} (seen : list A) (k : A) : list A := if decide (k ∈ seen) then seen else seen ++ [k].
Definition first_seen {A} `{EqDecision A} (ks : list A) : list A := foldl add_seen [] ks.

(** One row per group, or one row for an ungrouped empty input. *)
Definition agg_reference (gb : list Z) (aggs : list AggSpec) (rs : list Row) : list Row :=
  match rs, gb with
  | [], [] => [map (agg_value []) aggs]
  | _, _ => map (fun k => k ++ map (agg_value (group_rows gb k rs)) aggs) (first_seen (map (group_key gb) rs))
  end.

(** * What the input has to be *)

Definition sums (spec : AggSpec) : bool := match as_func spec with kSum | kAvg => true | _ => false end.

(** A star is counted; otherwise the column exists, with integers for the numeric functions. *)
Definition spec_fits (spec : AggSpec) (row : Row) : Prop :=
  if bool_decide (as_func spec = kCount) && as_star spec then True
  else 0 <= as_arg_column spec /\ exists v, row !! Z.to_nat (as_arg_column spec) = Some v /\
    match as_func spec with kCount => True | _ => fits_type v kInt64 /\ value_ok v end.
Definition key_fits (gb : list Z) (row : Row) : Prop :=
  Forall (fun i => 0 <= i /\ exists v, row !! Z.to_nat i = Some v /\ value_ok v) gb.
Definition agg_row_fits (gb : list Z) (aggs : list AggSpec) (row : Row) : Prop :=
  key_fits gb row /\ Forall (fun spec => spec_fits spec row) aggs.

(** * One accumulator *)

Definition overflow : Status := InvalidArgument (lit "SUM overflow").

Lemma AddChecked_spec sum delta : int64 sum -> int64 delta ->
  AddChecked sum delta = if decide (int64 (sum + delta)) then Ret (sum + delta) else Fail overflow.
Proof.
  unfold AddChecked, int64, int64_max, int64_min. intros H1 H2. rewrite !Z.gtb_ltb. destruct (decide _) as [H|H];
    destruct (Z.ltb_spec 0 delta), (Z.ltb_spec delta 0), (Z.ltb_spec (2 ^ 63 - 1 - delta) sum), (Z.ltb_spec sum (- 2 ^ 63 - delta)); cbn; done || lia.
Qed.

(** An accumulator that has seen the rows [rs]. *)
Definition accumulated (spec : AggSpec) (rs : list Row) (acc : AggAcc) : Prop :=
  let ints := arg_ints spec rs in
  match as_func spec with
  | kCount => acc_n acc = Z.of_nat (length (if as_star spec then rs else filter (fun r => arg_cell spec r <> VNull) rs))
  | kSum | kAvg => acc_n acc = Z.of_nat (length ints) /\ acc_sum acc = sum_list ints /\ acc_has_numeric acc = negb (bool_decide (ints = [])) /\ sums_fit ints
  | kMin => acc_has_numeric acc = negb (bool_decide (ints = [])) /\ acc_minv acc = min_list ints
  | kMax => acc_has_numeric acc = negb (bool_decide (ints = [])) /\ acc_maxv acc = max_list ints
  end.

Lemma accumulated_new spec : accumulated spec [] AggAcc_new.
Proof.
  unfold accumulated. destruct (as_func spec); try done; [by destruct (as_star spec)|..]; (split_and!; try done; intros n; cbn [arg_ints omap list_omap]; rewrite take_nil; cbn; unfold int64; lia).
Qed.

(** The finished accumulator shows the value. *)
Lemma FinalizeAgg_spec spec rs acc : accumulated spec rs acc -> FinalizeAgg spec acc = agg_value rs spec.
Proof.
  unfold accumulated, FinalizeAgg, agg_value. destruct (as_func spec).
  - by intros ->.
  - intros (_ & -> & -> & _). by destruct (arg_ints spec rs).
  - intros (-> & -> & -> & _). destruct (arg_ints spec rs); [done|]. cbn [negb bool_decide]. rewrite bool_decide_false by done. cbn [negb orb null_if_empty].
    cbn [length]. destruct (Z.eqb_spec (Z.of_nat (S (length l))) 0); [lia|done].
  - intros [-> ->]. by destruct (arg_ints spec rs).
  - intros [-> ->]. by destruct (arg_ints spec rs).
Qed.

Lemma sum_list_app l l' : sum_list (l ++ l') = sum_list l + sum_list l'.
Proof. induction l as [|x l IH]; cbn; [done|]. unfold sum_list in *. lia. Qed.

Lemma sums_fit_app l x : sums_fit (l ++ [x]) <-> sums_fit l /\ int64 (sum_list l + x).
Proof.
  unfold sums_fit. split.
  - intros H. split.
    + intros n. destruct (decide (n <= length l)%nat).
      * specialize (H n). by rewrite take_app_le in H by lia.
      * specialize (H (length l)). rewrite take_app_length in H. by rewrite take_ge by lia.
    + specialize (H (length (l ++ [x]))). rewrite take_ge in H by lia. rewrite sum_list_app in H. cbn in H. by rewrite Z.add_0_r in H.
  - intros [H1 H2] n. destruct (decide (n <= length l)%nat).
    + rewrite take_app_le by lia. apply H1.
    + rewrite take_ge by (rewrite length_app; cbn; lia). rewrite sum_list_app. cbn. by rewrite Z.add_0_r.
Qed.

Lemma arg_ints_app spec rs r : arg_ints spec (rs ++ [r]) = arg_ints spec rs ++ match arg_cell spec r with VInt64 v => [v] | _ => [] end.
Proof. unfold arg_ints. rewrite omap_app. cbn. by destruct (arg_cell spec r). Qed.

Lemma min_list_snoc l x : min_list (l ++ [x]) = if bool_decide (l = []) then x else Z.min (min_list l) x.
Proof. destruct l as [|y l]; [done|]. cbn [app min_list]. by rewrite foldl_app. Qed.
Lemma max_list_snoc l x : max_list (l ++ [x]) = if bool_decide (l = []) then x else Z.max (max_list l) x.
Proof. destruct l as [|y l]; [done|]. cbn [app max_list]. by rewrite foldl_app. Qed.
Lemma snoc_not_nil {A} `{EqDecision A} (l : list A) x : bool_decide (l ++ [x] = []) = false.
Proof. apply bool_decide_false. by destruct l. Qed.

(** A step of the accumulator: it has seen one more row, or the sum overflows. *)
Definition accumulates (spec : AggSpec) (rs : list Row) (r : Res AggAcc) : Prop :=
  match r with
  | Ret acc => accumulated spec rs acc
  | Fail e => e = overflow /\ sums spec = true /\ ~ sums_fit (arg_ints spec rs)
  | Stuck => False
  end.

Lemma accumulated_skip spec rs row acc : as_func spec <> kCount -> arg_cell spec row = VNull ->
  accumulated spec rs acc -> accumulated spec (rs ++ [row]) acc.
Proof. intros Hf Hc. unfold accumulated. rewrite arg_ints_app, Hc, app_nil_r. by destruct (as_func spec). Qed.

Lemma sums_fit_sum l : sums_fit l -> int64 (sum_list l).
Proof. intros H. specialize (H (length l)). by rewrite take_ge in H by lia. Qed.

(** A numeric function sees the integer [v]. *)
Lemma Accumulate_int spec rs row acc v : as_func spec <> kCount -> arg_cell spec row = VInt64 v -> int64 v ->
  accumulated spec rs acc -> 0 <= as_arg_column spec -> row !! Z.to_nat (as_arg_column spec) = Some (VInt64 v) ->
  accumulates spec (rs ++ [row]) (Accumulate spec row acc).
Proof.
  intros Hf Hc Hv Hacc Hi Hrow. pose proof (lookup_lt_Some _ _ _ Hrow). unfold Accumulate. rewrite bool_decide_false by done. cbn [andb].
  destruct (Z.ltb_spec (as_arg_column spec) 0); [lia|]. destruct (Z.leb_spec (Z.of_nat (length row)) (as_arg_column spec)); [lia|]. cbn [orb].
  unfold row_at. rewrite Hrow. cbn [deref mbind Res_bind IsNull value_type GetInt64]. rewrite bool_decide_true by done. cbn [negb].
  assert (Hsum : sums spec = true -> accumulates spec (rs ++ [row])
    (sum ← AddChecked (acc_sum acc) v; Ret (mkAggAcc (acc_n acc + 1) sum (acc_minv acc) (acc_maxv acc) true))).
  { intros Hs. assert (H' : acc_n acc = Z.of_nat (length (arg_ints spec rs)) /\ acc_sum acc = sum_list (arg_ints spec rs) /\ sums_fit (arg_ints spec rs))
      by (unfold accumulated in Hacc; unfold sums in Hs; destruct (as_func spec); naive_solver).
    destruct H' as (Hn & Esum & Hfit). rewrite Esum, AddChecked_spec by (done || by apply sums_fit_sum). destruct (decide _) as [Hok|Hok]; cbn.
    - assert (G : acc_n acc + 1 = Z.of_nat (length (arg_ints spec (rs ++ [row]))) /\ sum_list (arg_ints spec rs) + v = sum_list (arg_ints spec (rs ++ [row])) /\
        true = negb (bool_decide (arg_ints spec (rs ++ [row]) = [])) /\ sums_fit (arg_ints spec (rs ++ [row]))).
      { rewrite arg_ints_app, Hc, length_app, sum_list_app, snoc_not_nil, sums_fit_app. cbn. rewrite Z.add_0_r. split_and!; try done. lia. }
      unfold accumulated, sums in *. by destruct (as_func spec).
    - split; [done|]. split; [done|]. rewrite arg_ints_app, Hc, sums_fit_app. naive_solver. }
  unfold sums in Hsum. destruct (as_func spec) eqn:Ef; [done|by apply Hsum|by apply Hsum| |].
  - unfold accumulates, accumulated in *. rewrite Ef in *. destruct Hacc as [E1 E2]. cbn [acc_has_numeric acc_minv].
    rewrite arg_ints_app, Hc, snoc_not_nil, min_list_snoc, E1, E2, negb_involutive. split; [done|].
    destruct (arg_ints spec rs) as [|y l]; [done|]. rewrite !bool_decide_false by done. cbn [orb]. destruct (Z.ltb_spec v (min_list (y :: l))); lia.
  - unfold accumulates, accumulated in *. rewrite Ef in *. destruct Hacc as [E1 E2]. cbn [acc_has_numeric acc_maxv].
    rewrite arg_ints_app, Hc, snoc_not_nil, max_list_snoc, E1, E2, negb_involutive. split; [done|].
    destruct (arg_ints spec rs) as [|y l]; [done|]. rewrite !bool_decide_false by done. cbn [orb]. rewrite Z.gtb_ltb. destruct (Z.ltb_spec (max_list (y :: l)) v); lia.
Qed.

Lemma Accumulate_spec spec rs row acc : accumulated spec rs acc -> spec_fits spec row ->
  accumulates spec (rs ++ [row]) (Accumulate spec row acc).
Proof.
  intros Hacc Hfit. unfold spec_fits in Hfit. destruct (bool_decide (as_func spec = kCount) && as_star spec) eqn:Es.
  { unfold Accumulate. rewrite Es. apply andb_true_iff in Es as [Ef%bool_decide_eq_true Es]. unfold accumulates, accumulated in *.
    rewrite Ef, Es in *. cbn. rewrite length_app. cbn. lia. }
  destruct Hfit as (Hi & v & Hrow & Hv). assert (Hc : arg_cell spec row = v) by (unfold arg_cell; by rewrite Hrow).
  destruct (decide (as_func spec = kCount)) as [Ef|Ef].
  - rewrite Ef, bool_decide_true in Es by done. cbn [andb] in Es. unfold Accumulate. rewrite Ef, Es, andb_false_r. pose proof (lookup_lt_Some _ _ _ Hrow).
    destruct (Z.ltb_spec (as_arg_column spec) 0); [lia|]. destruct (Z.leb_spec (Z.of_nat (length row)) (as_arg_column spec)); [lia|]. cbn [orb].
    unfold row_at. rewrite Hrow. cbn [deref mbind Res_bind accumulates]. unfold accumulated in *. rewrite Ef, Es in *. rewrite filter_app, length_app.
    destruct (decide (v = VNull)) as [-> | Hn]; cbn [IsNull].
    + rewrite filter_cons_False by (rewrite Hc; tauto). cbn. lia.
    + rewrite filter_cons_True by (by rewrite Hc). destruct v; [done|cbn; lia..].
  - assert (Hv' : fits_type v kInt64 /\ value_ok v) by (by destruct (as_func spec)). destruct Hv' as [[-> | Ht] Hok].
    + pose proof (accumulated_skip spec rs row acc Ef Hc Hacc) as Hs. unfold Accumulate. rewrite Es. pose proof (lookup_lt_Some _ _ _ Hrow).
      destruct (Z.ltb_spec (as_arg_column spec) 0); [lia|]. destruct (Z.leb_spec (Z.of_nat (length row)) (as_arg_column spec)); [lia|]. cbn [orb].
      unfold row_at. rewrite Hrow. cbn [deref mbind Res_bind IsNull]. by destruct (as_func spec).
    + destruct v as [|z| |]; try done. by eapply Accumulate_int.
Qed.

Lemma accumulate_all_spec rs row aggs : forall accs, Forall2 (fun spec acc => accumulated spec rs acc) aggs accs ->
  Forall (fun spec => spec_fits spec row) aggs ->
  match accumulate_all aggs row accs with
  | Ret accs' => Forall2 (fun spec acc => accumulated spec (rs ++ [row]) acc) aggs accs'
  | Fail e => e = overflow /\ exists spec, spec ∈ aggs /\ sums spec = true /\ ~ sums_fit (arg_ints spec (rs ++ [row]))
  | Stuck => False
  end.
Proof.
  induction aggs as [|spec aggs IH]; intros accs Hacc Hfit; inversion_clear Hacc as [|? acc ? accs' H1 H2]; cbn [accumulate_all]; [done|].
  inversion_clear Hfit as [|?? F1 F2]. pose proof (Accumulate_spec spec rs row acc H1 F1) as Ha.
  destruct (Accumulate spec row acc) as [acc'|e|]; cbn [accumulates mbind Res_bind] in *; [|split; [tauto|exists spec; split; [by left|tauto]]|done].
  specialize (IH accs' H2 F2). destruct (accumulate_all aggs row accs') as [as'|e|]; cbn [mbind Res_bind]; [by constructor| |done].
  destruct IH as (-> & s & Hs & H). split; [done|]. exists s. split; [by right|done].
Qed.

(** * Groups *)

Lemma pick_columns_spec gb row : key_fits gb row -> pick_columns gb row = Ret (group_key gb row) /\ Forall value_ok (group_key gb row).
Proof.
  induction 1 as [|i gb (Hi & v & Hv & Hok) Hgb [IH1 IH2]]; [done|]. cbn [pick_columns group_key map]. pose proof (lookup_lt_Some _ _ _ Hv).
  destruct (Z.ltb_spec i 0); [lia|]. destruct (Z.leb_spec (Z.of_nat (length row)) i); [lia|]. cbn [orb]. rewrite Hv. cbn [deref mbind Res_bind].
  rewrite IH1. cbn. split; [done|]. by constructor.
Qed.

Lemma EncodeGroupKey_cons parts : forall out, foldl (fun out v => PutFixed32 out (u32 (Z.of_nat (length (EncodeValue v)))) ++ EncodeValue v) out parts =
  out ++ EncodeGroupKey parts.
Proof.
  unfold EncodeGroupKey. induction parts as [|v parts IH]; intros out; cbn [foldl]; [by rewrite app_nil_r|].
  rewrite IH, (IH (PutFixed32 [] _ ++ _)). unfold PutFixed32. by rewrite <- !app_assoc.
Qed.

(** The key string determines the key. *)
Lemma EncodeGroupKey_inj k k' : length k = length k' -> Forall value_ok k -> Forall value_ok k' -> EncodeGroupKey k = EncodeGroupKey k' -> k = k'.
Proof.
  revert k'; induction k as [|v k IH]; intros [|w k'] Hl Hk Hk' E; try done. inversion_clear Hk as [|?? Hv Hk1]. inversion_clear Hk' as [|?? Hw Hk1'].
  unfold EncodeGroupKey in E. cbn [foldl] in E. rewrite !EncodeGroupKey_cons in E. unfold PutFixed32 in E. rewrite !app_nil_l, <- !app_assoc in E.
  apply app_inj_1 in E as [_ E]; [|by rewrite !length_le_bytes].
  pose proof (codec_get_put v (EncodeGroupKey k) Hv) as H1. rewrite E, codec_get_put in H1 by done. injection H1 as -> H1.
  f_equal. apply IH; auto.
Qed.

Lemma elem_of_add_seen {A} `{EqDecision A} (seen : list A) k x : x ∈ add_seen seen k <-> x ∈ seen \/ x = k.
Proof. unfold add_seen. destruct (decide (k ∈ seen)); rewrite ?elem_of_app, ?list_elem_of_singleton; naive_solver. Qed.
Lemma first_seen_snoc {A} `{EqDecision A} (ks : list A) k : first_seen (ks ++ [k]) = add_seen (first_seen ks) k.
Proof. unfold first_seen. by rewrite foldl_app. Qed.
Lemma elem_of_first_seen {A} `{EqDecision A} (ks : list A) x : x ∈ first_seen ks <-> x ∈ ks.
Proof.
  induction ks as [|k ks IH] using rev_ind; [done|]. rewrite first_seen_snoc, elem_of_add_seen, IH, elem_of_app, list_elem_of_singleton. done.
Qed.

Section Groups.
Context (gb : list Z) (aggs : list AggSpec).
Implicit Types (rs : list Row) (g : Groups).

Definition key_ok_parts (k : list Value) : Prop := length k = length gb /\ Forall value_ok k.

(** The groups of the rows [rs]. *)
Record groups_rep rs g : Prop := {
  gp_order : gr_order g = map EncodeGroupKey (first_seen (map (group_key gb) rs));
  gp_map : forall k, key_ok_parts k ->
    match gr_map g !! EncodeGroupKey k with
    | Some st => k ∈ map (group_key gb) rs /\ gs_key_parts st = k /\
        Forall2 (fun spec acc => accumulated spec (group_rows gb k rs) acc) aggs (gs_accs st)
    | None => k ∉ map (group_key gb) rs
    end
}.

Lemma groups_rep_new : groups_rep [] Groups_new.
Proof. split; [done|]. intros k Hk. cbn. rewrite lookup_empty. apply not_elem_of_nil. Qed.

Lemma group_rows_snoc k rs row : group_rows gb k (rs ++ [row]) = group_rows gb k rs ++ (if decide (group_key gb row = k) then [row] else []).
Proof. unfold group_rows. by rewrite filter_app. Qed.

Lemma group_rows_none k rs : (k ∉ map (group_key gb) rs) -> group_rows gb k rs = [].
Proof.
  unfold group_rows. induction rs as [|x rs IH]; [done|]. cbn [map]. rewrite not_elem_of_cons. intros [Hx Hl].
  rewrite filter_cons_False by congruence. auto.
Qed.

(** The group a row falls into, before the row is added. *)
Lemma group_state rs g k : groups_rep rs g -> key_ok_parts k ->
  let '(st, order) := match gr_map g !! EncodeGroupKey k with
    | Some st => (st, gr_order g)
    | None => (mkGroupState k (replicate (length aggs) AggAcc_new), gr_order g ++ [EncodeGroupKey k])
    end in
  gs_key_parts st = k /\ Forall2 (fun spec acc => accumulated spec (group_rows gb k rs) acc) aggs (gs_accs st) /\
  order = map EncodeGroupKey (add_seen (first_seen (map (group_key gb) rs)) k).
Proof.
  intros [H1 H2] Hk. specialize (H2 k Hk). unfold add_seen. destruct (gr_map g !! EncodeGroupKey k) as [st|].
  - destruct H2 as (Hin & Hp & Ha). split; [done|]. split; [done|]. rewrite decide_True; [done|]. by apply elem_of_first_seen.
  - cbn. split; [done|]. split; [|].
    + pose proof (group_rows_none k rs H2) as E.
      rewrite E. clear E. induction aggs as [|spec l IH]; cbn; constructor; [apply accumulated_new|apply IH].
    + rewrite decide_False by (by rewrite elem_of_first_seen). rewrite map_app, H1. done.
Qed.

(** A sum of some group leaves the range. *)
Definition overflows rs : Prop :=
  exists k spec, spec ∈ aggs /\ sums spec = true /\ ~ sums_fit (arg_ints spec (group_rows gb k rs)).

Lemma agg_row_spec rs g row : groups_rep rs g -> agg_row_fits gb aggs row ->
  match agg_row gb aggs g row with
  | Ret g' => groups_rep (rs ++ [row]) g'
  | Fail e => e = overflow /\ overflows (rs ++ [row])
  | Stuck => False
  end.
Proof.
  intros Hg [Hkey Hspec]. destruct (pick_columns_spec gb row Hkey) as [Ep Hvok]. unfold agg_row. rewrite Ep. cbn [mbind Res_bind].
  set (k := group_key gb row) in *. assert (Hk : key_ok_parts k) by (split; [by apply length_map|done]).
  pose proof (group_state rs g k Hg Hk) as Hst. cbn zeta in Hst |- *.
  destruct (match gr_map g !! EncodeGroupKey k with Some st => _ | None => _ end) as [st order]. destruct Hst as (Hp & Ha & Ho).
  pose proof (accumulate_all_spec (group_rows gb k rs) row aggs (gs_accs st) Ha Hspec) as Hacc.
  assert (Erow : group_rows gb k rs ++ [row] = group_rows gb k (rs ++ [row])) by (rewrite group_rows_snoc, decide_True by done; done).
  rewrite Erow in Hacc. destruct (accumulate_all aggs row (gs_accs st)) as [accs|e|]; cbn [mbind Res_bind]; [| |done].
  2: { destruct Hacc as (-> & spec & H1 & H2 & H3). split; [done|]. exists k, spec. done. }
  split; cbn [gr_order gr_map].
  - rewrite Ho, map_app. cbn [map]. by rewrite first_seen_snoc.
  - intros k' Hk'. destruct (decide (k' = k)) as [->|Hne].
    + rewrite lookup_insert_eq. cbn. split; [rewrite map_app, elem_of_app; right; by left|]. done.
    + rewrite lookup_insert_ne by (intros E; apply EncodeGroupKey_inj in E; [congruence|destruct Hk, Hk'; congruence|apply Hk|apply Hk']).
      pose proof (gp_map _ _ Hg k' Hk') as H. destruct (gr_map g !! EncodeGroupKey k') as [st'|].
      * destruct H as (Hin & Hp' & Ha'). split; [rewrite map_app, elem_of_app; by left|]. split; [done|].
        rewrite group_rows_snoc, decide_False by (intros <-; done). by rewrite app_nil_r.
      * rewrite map_app, elem_of_app. intros [?|E]; [done|]. cbn in E. apply list_elem_of_singleton in E. done.
Qed.

Lemma sums_fit_prefix l l' : sums_fit (l ++ l') -> sums_fit l.
Proof.
  intros H n. destruct (decide (n <= length l)%nat); [specialize (H n); by rewrite take_app_le in H|].
  specialize (H (length l)). rewrite take_app_length in H. by rewrite take_ge by lia.
Qed.
Lemma overflows_app rs rs' : overflows rs -> overflows (rs ++ rs').
Proof.
  intros (k & spec & H1 & H2 & H3). exists k, spec. split; [done|]. split; [done|]. intros H. apply H3. unfold group_rows, arg_ints in *.
  rewrite filter_app, omap_app in H. by eapply sums_fit_prefix.
Qed.

(** The loop groups the rows, unless a sum overflows. *)
Lemma fold_agg_rows rs' : forall rs g, groups_rep rs g -> Forall (agg_row_fits gb aggs) rs' ->
  match fold_rows (agg_row gb aggs) g rs' None with
  | Ret g' => groups_rep (rs ++ rs') g'
  | Fail e => e = overflow /\ overflows (rs ++ rs')
  | Stuck => False
  end.
Proof.
  induction rs' as [|r rs' IH]; intros rs g Hg Hfit; cbn [fold_rows]; [by rewrite app_nil_r|]. inversion_clear Hfit as [|?? F1 F2].
  pose proof (agg_row_spec rs g r Hg F1) as Hr. destruct (agg_row gb aggs g r) as [g'|e|]; cbn [mbind Res_bind]; [| |done].
  - specialize (IH (rs ++ [r]) g' Hr F2). by rewrite <- app_assoc in IH.
  - destruct Hr as [-> Hr]. split; [done|]. change (r :: rs') with ([r] ++ rs'). rewrite app_assoc. by apply overflows_app.
Qed.

Lemma groups_key_ok rs k : Forall (agg_row_fits gb aggs) rs -> k ∈ map (group_key gb) rs -> key_ok_parts k.
Proof.
  intros Hrs (r & -> & Hr)%list_elem_of_fmap. split; [apply length_map|].
  apply (proj1 (Forall_forall _ _) Hrs) in Hr as [Hk _]. by apply pick_columns_spec.
Qed.

(** Grouping succeeded, so no sum overflows. *)
Lemma groups_no_overflow rs g : Forall (agg_row_fits gb aggs) rs -> groups_rep rs g -> ~ overflows rs.
Proof.
  intros Hrs Hg (k & spec & H1 & H2 & H3). destruct (decide (k ∈ map (group_key gb) rs)) as [Hin|Hno].
  - pose proof (gp_map _ _ Hg k (groups_key_ok _ _ Hrs Hin)) as H. destruct (gr_map g !! EncodeGroupKey k) as [st|]; [|done].
    destruct H as (_ & _ & Ha). apply list_elem_of_lookup_1 in H1 as [i Hi]. destruct (Forall2_lookup_l _ _ _ _ _ Ha Hi) as (acc & _ & Hacc).
    unfold accumulated in Hacc. unfold sums in H2. destruct (as_func spec); naive_solver.
  - apply H3. rewrite group_rows_none by done. intros n. cbn. rewrite take_nil. cbn. unfold int64. lia.
Qed.

Lemma groups_rows rs g : Forall (agg_row_fits gb aggs) rs -> groups_rep rs g -> agg_rows gb aggs g = Ret (agg_reference gb aggs rs).
Proof.
  intros Hrs Hg. unfold agg_rows, agg_reference. rewrite (gp_order _ _ Hg).
  assert (Hmap : forall ks, (forall k, k ∈ ks -> k ∈ map (group_key gb) rs) ->
    res_map (group_row aggs g) (map EncodeGroupKey ks) = Ret (map (fun k => k ++ map (agg_value (group_rows gb k rs)) aggs) ks)).
  { induction ks as [|k ks IH]; intros Hks; [done|]. cbn [map res_map]. assert (Hin : k ∈ map (group_key gb) rs) by (apply Hks; by left).
    pose proof (gp_map _ _ Hg k (groups_key_ok _ _ Hrs Hin)) as H.
    assert (Er : group_row aggs g (EncodeGroupKey k) = Ret (k ++ map (agg_value (group_rows gb k rs)) aggs)).
    2: { rewrite Er, IH by (intros k' Hk'; apply Hks; by right). done. }
    unfold group_row. destruct (gr_map g !! EncodeGroupKey k) as [st|]; [|done]. destruct H as (_ & Hp & Ha). cbn [deref mbind Res_bind].
    rewrite Hp. repeat f_equal.
    clear -Ha. induction Ha as [|spec acc l l' H _ IH]; [done|]. cbn. by rewrite (FinalizeAgg_spec _ _ _ H), IH. }
  destruct rs as [|r rs]; cbn [map].
  - cbn. destruct gb; [|done]. do 2 f_equal. apply map_ext. intros spec. apply FinalizeAgg_spec, accumulated_new.
  - assert (Hne : group_key gb r ∈ first_seen (group_key gb r :: map (group_key gb) rs)) by (apply elem_of_first_seen; by left).
    specialize (Hmap (first_seen (group_key gb r :: map (group_key gb) rs))).
    destruct (first_seen (group_key gb r :: map (group_key gb) rs)) as [|k ks] eqn:Ek; [by apply elem_of_nil in Hne|].
    cbn [map] in *. rewrite <- Ek in *. destruct gb; apply Hmap; intros k'; by rewrite <- Ek, elem_of_first_seen || by rewrite elem_of_first_seen.
Qed.
End Groups.

(** C16: GROUP BY and aggregates are right: over rows that have the grouping and
    argument columns, the hash aggregate delivers one row per distinct key, in
    the order of the first row of each, with COUNT, SUM, AVG (truncated towards
    zero), MIN and MAX of the group computed over the integers, NULLs skipped; an
    ungrouped empty input gives one row; and if a running sum of SUM or AVG leaves
    the 64-bit range the query fails with InvalidArgument, never wraps around. *)
Theorem hash_aggregate_correct (gb : list Z) (aggs : list AggSpec) (rs : list Row) :
  Forall (agg_row_fits gb aggs) rs ->
  let result := g ← fold_stream (agg_row gb aggs) Groups_new (mkStream rs None); agg_rows gb aggs g in
  (~ overflows gb aggs rs -> result = Ret (agg_reference gb aggs rs)) /\
  (overflows gb aggs rs -> result = Fail (InvalidArgument (lit "SUM overflow"))).
Proof.
  intros Hrs. cbn zeta. unfold fold_stream. cbn [st_rows st_end].
  pose proof (fold_agg_rows gb aggs rs [] Groups_new (groups_rep_new gb aggs) Hrs) as H.
  destruct (fold_rows (agg_row gb aggs) Groups_new rs None) as [g|e|]; cbn [mbind Res_bind app] in *; [| |done].
  - split; [intros _; by apply groups_rows|]. intros Ho. by apply (groups_no_overflow gb aggs rs g Hrs H) in Ho.
  - destruct H as [-> Ho]. done.
Qed.

Lemma hash_aggregate_correct_witness :
  let rs := [[VString (lit "a"); VInt64 5]; [VString (lit "b"); VInt64 7]; [VString (lit "a"); VInt64 (-8)]] in
  let aggs := [mkAggSpec kCount true (-1) (lit "COUNT(*)"); mkAggSpec kAvg false 1 (lit "AVG(n)")] in
  (g ← fold_stream (agg_row [0] aggs) Groups_new (mkStream rs None); agg_rows [0] aggs g) =
    Ret [[VString (lit "a"); VInt64 2; VInt64 (-1)]; [VString (lit "b"); VInt64 1; VInt64 7]].
Proof.
  intros rs aggs.
  assert (Hr : forall s n, value_ok (VString s) -> int64 n -> agg_row_fits [0] aggs [VString s; VInt64 n]).
  { intros s n Hs Hn. split; [apply Forall_singleton; split; [lia|by exists (VString s)]|]. apply Forall_cons. split; [done|].
    apply Forall_singleton. split; [cbn; lia|]. exists (VInt64 n). split; [done|]. split; [by right|done]. }
  refine (proj1 (hash_aggregate_correct [0] aggs rs _) _).
  - repeat (apply Forall_cons; split; [apply Hr; [vm_compute; reflexivity|unfold int64; lia]|]). constructor.
  - intros (k & spec & Hs & Hsum & H). apply H. apply elem_of_cons in Hs as [-> | Hs]; [done|]. apply list_elem_of_singleton in Hs as ->.
    unfold group_rows, rs. rewrite !filter_cons. intros n.
    repeat case_decide; destruct n as [|[|[|[|n]]]]; split; vm_compute; first [discriminate|reflexivity].
Defined.
