(* ===== verification/SqlSession.v ===== *)
(** SQL sessions (include/reldb/sql_session.h, src/reldb/sql_session.cpp): the
    rule-based planner and the execution of statements, with statement-level
    transactions outside BEGIN and COMMIT. *)
From S2P Require Import Prelude Status Slice Types Schema Row BindContext Expr SqlAst.
From S2P Require Import Text SqlLexer SqlParser Kv Mvcc Catalog Database Txn Executor.

(** * Access paths *)

(** [Column(pk) = Literal] or [Literal = Column(pk)]; [pick] of the code. *)
Definition pick_pk (pk_name : bytes) (col lit_ : Expr) : option Value :=
  match col, lit_ with
  | Column name _, Literal v => if bool_decide (name = pk_name) && negb (IsNull v) then Some v else None
  | _, _ => None
  end.
Definition MatchPkEquality (e : Expr) (pk_name : bytes) : option Value :=
  match e with
  | Compare kEq l r =>
    match pick_pk pk_name l r with Some v => Some v | None => pick_pk pk_name r l end
  | _ => None
  end.

(** Whether the key is on the left, the operator and the bound. *)
Definition MatchPkCompare (e : Expr) (pk_name : bytes) : option (bool * CmpOp * Value) :=
  match e with
  | Compare op l r =>
    match pick_pk pk_name l r with
    | Some v => Some (true, op, v)
    | None => match pick_pk pk_name r l with Some v => Some (false, op, v) | None => None end
    end
  | _ => None
  end.

Definition FlipCmp (op : CmpOp) : CmpOp :=
  match op with kEq => kEq | kNe => kNe | kLt => kGt | kLe => kGe | kGt => kLt | kGe => kLe end.

Definition BoundsFromPkCmp (op_col_left : CmpOp) (bound : Value) : option (option Value * option Value) :=
  match op_col_left with
  | kGe => Some (Some bound, None)
  | kLt => Some (None, Some bound)
  | _ => None
  end.

Definition PkColumnName (schema : TableSchema) : Res bytes :=
  let idx := primary_key_index schema in
  if idx <? 0 then Ret [] else c ← deref (columns_ schema !! Z.to_nat idx); Ret (col_name c).

(** The plan of the access path and its tag. *)
Definition PlanAccess (schema : TableSchema) (where_ : option Expr) : Res (Executor * bytes) :=
  pk_name ← PkColumnName schema;
  if bool_decide (pk_name = []) then Fail (InvalidArgument (lit "table has no primary key"))
  else
    match where_ with
    | None => Ret (mkSeqScan schema, lit "SeqScan")
    | Some e =>
      match MatchPkEquality e pk_name with
      | Some pk => Bind schema e ;; Ret (mkPkPointGet schema pk, lit "PkPointGet")
      | None =>
        match
          match MatchPkCompare e pk_name with
          | Some (pk_on_left, op, bound) => BoundsFromPkCmp (if pk_on_left then op else FlipCmp op) bound
          | None => None
          end
        with
        | Some (start, end_) => Bind schema e ;; Ret (mkPkRangeScan schema start end_, lit "PkRangeScan")
        | None => e' ← Bind schema e; Ret (mkFilter (mkSeqScan schema) schema e', lit "SeqScan")
        end
      end
    end.

(** * SELECT *)

(** The bare column name and the position of the argument. *)
Definition ResolveAggArg (ctx : BindContext) (star : bool) (col : bytes) : Res (bytes * Z) :=
  if star then Ret ([], -1) else bc ← Resolve ctx col; Ret (bc_column_name bc, bc_column_index bc).

Fixpoint CollectColumnNames (e : Expr) : list bytes :=
  match e with
  | Literal _ => []
  | Column name _ => [name]
  | Compare _ l r | And l r | Or l r => CollectColumnNames l ++ CollectColumnNames r
  | Not c => CollectColumnNames c
  end.

(** The specifications and the canonical name. *)
Definition EnsureAggSpec (ctx : BindContext) (func : AggFunc) (star : bool) (col : bytes) (aggs : list AggSpec)
    : Res (list AggSpec * bytes) :=
  '(bare_col, arg_column) ← ResolveAggArg ctx star col;
  let name := DefaultAggResultName func star bare_col in
  if existsb (fun a => bool_decide (as_output_name a = name)) aggs then Ret (aggs, name)
  else Ret (aggs ++ [mkAggSpec func star (if star then -1 else arg_column) name], name).

Definition name_in (n : bytes) (l : list bytes) : bool := existsb (fun g => bool_decide (g = n)) l.

(** The rewriting of one name of a HAVING clause. *)
Definition normalize_name (ctx : BindContext) (group_bare : list bytes) (name : bytes) : Res bytes :=
  match ParseDefaultAggResultName name with
  | Some (f, star, col) => '(bare, _) ← ResolveAggArg ctx star col; Ret (DefaultAggResultName f star bare)
  | None =>
    if name_in name group_bare then Ret name
    else
      match Resolve ctx name with
      | Ret bc => if name_in (bc_column_name bc) group_bare then Ret (bc_column_name bc) else Ret name
      | _ => Ret name
      end
  end.
Definition NormalizeHavingColumns (having : Expr) (ctx : BindContext) (group_bare : list bytes) : Res Expr :=
  MapColumnNames (normalize_name ctx group_bare) having.

(** The first position at which [p] holds, from [i] on. *)
Fixpoint find_index {A} (p : A -> bool) (i : Z) (l : list A) : Z :=
  match l with [] => -1 | x :: l => if p x then i else find_index p (i + 1) l end.

Definition FindOutputColumn (out_names : list bytes) (bare_fallback_ok : list bool) (name : bytes) (ctx : BindContext) : Z :=
  let i := find_index (fun n => bool_decide (n = name)) 0 out_names in
  if 0 <=? i then i
  else
    match Resolve ctx name with
    | Ret bc => find_index (fun '(n, ok) => (ok : bool) && bool_decide (n = bc_column_name bc)) 0 (zip out_names bare_fallback_ok)
    | _ => -1
    end.

(** A planned output column: its label and whether a bare name may find it. *)
Definition OutColumn : Type := bytes * bool.

(** The select list without aggregates. *)
Fixpoint bind_select_list (ctx : BindContext) (items : list SelectItem) : Res (list Projection * list OutColumn) :=
  match items with
  | [] => Ret ([], [])
  | item :: items =>
    match sel_kind item with
    | kAggItem _ _ _ => Fail (InvalidArgument (lit "unexpected aggregate"))
    | kExprItem e =>
      e' ← Bind_ctx ctx e;
      let '(name, bare_ok) :=
        if negb (bool_decide (sel_alias item = [])) then (sel_alias item, false)
        else match e' with Column n _ => (n, true) | _ => (Expr_ToString e', false) end in
      '(projs, outs) ← bind_select_list ctx items;
      Ret (mkProjection name e' :: projs, (name, bare_ok) :: outs)
    end
  end.

(** GROUP BY columns: positions and bare names. *)
Fixpoint resolve_group_by (ctx : BindContext) (cols : list bytes) : Res (list Z * list bytes) :=
  match cols with
  | [] => Ret ([], [])
  | col :: cols =>
    bc ← Resolve ctx col;
    '(idxs, names) ← resolve_group_by ctx cols;
    Ret (bc_column_index bc :: idxs, bc_column_name bc :: names)
  end.

(** The select list with aggregates: the specifications so far are extended;
    each item names its source column in the aggregate's output. *)
Fixpoint agg_select_list (ctx : BindContext) (group_by_ group_bare : list bytes) (items : list SelectItem) (aggs : list AggSpec)
    : Res (list AggSpec * list (bytes * OutColumn)) :=
  match items with
  | [] => Ret (aggs, [])
  | item :: items =>
    match sel_kind item with
    | kAggItem f star col =>
      '(aggs', canonical) ← EnsureAggSpec ctx f star col aggs;
      let out := if bool_decide (sel_alias item = []) then canonical else sel_alias item in
      '(aggs'', rest) ← agg_select_list ctx group_by_ group_bare items aggs';
      Ret (aggs'', (canonical, (out, false)) :: rest)
    | kExprItem (Column name _) =>
      bc ← Resolve ctx name;
      if negb (name_in (bc_column_name bc) group_bare || name_in name group_by_)
      then Fail (InvalidArgument (lit "column must appear in GROUP BY: " ++ name))
      else
        let out := if bool_decide (sel_alias item = []) then bc_column_name bc else sel_alias item in
        '(aggs'', rest) ← agg_select_list ctx group_by_ group_bare items aggs;
        Ret (aggs'', (bc_column_name bc, (out, bool_decide (sel_alias item = []))) :: rest)
    | kExprItem _ => Fail (InvalidArgument (lit "SELECT with aggregates requires GROUP BY columns or aggregates"))
    end
  end.

(** Aggregates that only HAVING mentions. *)
Fixpoint having_aggs (ctx : BindContext) (group_bare cols : list bytes) (aggs : list AggSpec) : Res (list AggSpec) :=
  match cols with
  | [] => Ret aggs
  | cname :: cols =>
    if name_in cname group_bare then having_aggs ctx group_bare cols aggs
    else
      match ParseDefaultAggResultName cname with
      | None => Fail (InvalidArgument (lit "HAVING column must be a GROUP BY column or aggregate (use COUNT(*)/SUM(col), not SELECT aliases): " ++ cname))
      | Some (f, star, col) => '(aggs', _) ← EnsureAggSpec ctx f star col aggs; having_aggs ctx group_bare cols aggs'
      end
  end.

(** The columns of the aggregate's output; the first is marked as the key. *)
Fixpoint agg_group_cols (schema : TableSchema) (idxs : list Z) (saw_pk : bool) : Res (list ColumnDef) :=
  match idxs with
  | [] => Ret []
  | i :: idxs =>
    c ← deref (columns_ schema !! Z.to_nat i);
    cs ← agg_group_cols schema idxs true;
    Ret (mkColumnDef (col_name c) (col_type c) (negb saw_pk) :: cs)
  end.
Fixpoint agg_spec_cols (aggs : list AggSpec) (saw_pk : bool) : list ColumnDef :=
  match aggs with
  | [] => []
  | a :: aggs => mkColumnDef (as_output_name a) kInt64 (negb saw_pk) :: agg_spec_cols aggs true
  end.

Fixpoint source_projections (agg_schema : TableSchema) (srcs : list (bytes * OutColumn)) : Res (list Projection) :=
  match srcs with
  | [] => Ret []
  | (src, (out, _)) :: srcs =>
    e ← Bind agg_schema (mkColumn src);
    ps ← source_projections agg_schema srcs;
    Ret (mkProjection out e :: ps)
  end.

Definition empty_select : Status := InvalidArgument (lit "empty SELECT list").

(** access -> HashAggregate -> Filter (HAVING) -> Project *)
Definition aggregate_plan (ctx : BindContext) (schema : TableSchema) (stmt : SelectStmt) (plan : Executor)
    : Res (Executor * list OutColumn) :=
  if bool_decide (length (select_list stmt) = 0%nat) then Fail empty_select
  else
    '(group_indices, group_bare) ← resolve_group_by ctx (group_by stmt);
    '(aggs, srcs) ← agg_select_list ctx (group_by stmt) group_bare (select_list stmt) [];
    '(having', aggs') ←
      match having stmt with
      | None => Ret (None, aggs)
      | Some h =>
        h' ← NormalizeHavingColumns h ctx group_bare;
        aggs' ← having_aggs ctx group_bare (CollectColumnNames h') aggs;
        Ret (Some h', aggs')
      end;
    group_cols ← agg_group_cols schema group_indices false;
    let agg_cols := group_cols ++ agg_spec_cols aggs' (negb (bool_decide (length group_cols = 0%nat))) in
    if bool_decide (length agg_cols = 0%nat) then Fail empty_select
    else
      let agg_schema := mkTableSchema (name_ schema) agg_cols in
      Schema_Validate agg_schema ;;
      let plan := HashAggregate plan group_indices aggs' in
      plan ← match having' with
             | None => Ret plan
             | Some h => h' ← Bind agg_schema h; Ret (mkFilter plan agg_schema h')
             end;
      projs ← source_projections agg_schema srcs;
      Ret (mkProject plan agg_schema projs, map snd srcs).

Fixpoint sort_keys (ctx : BindContext) (outs : list OutColumn) (items : list OrderByItem) : Res (list SortKey) :=
  match items with
  | [] => Ret []
  | o :: items =>
    let idx := FindOutputColumn (map fst outs) (map snd outs) (ob_column_name o) ctx in
    if idx <? 0 then Fail (InvalidArgument (lit "unknown ORDER BY column: " ++ ob_column_name o))
    else ks ← sort_keys ctx outs items; Ret (mkSortKey idx (ob_ascending o) :: ks)
  end.

Definition has_agg (stmt : SelectStmt) : bool :=
  existsb (fun item => match sel_kind item with kAggItem _ _ _ => true | _ => false end) (select_list stmt).
Definition agg_plan (stmt : SelectStmt) : bool := has_agg stmt || negb (bool_decide (group_by stmt = [])).

(** The plan of a SELECT over one table; [where_] is bound. *)
Definition select_plan (ctx : BindContext) (schema : TableSchema) (stmt : SelectStmt) (where_ : option Expr) : Res Executor :=
  '(plan, _) ← PlanAccess schema where_;
  '(plan, outs) ←
    (if negb (agg_plan stmt) then
       if negb (select_star stmt) then
         if bool_decide (length (select_list stmt) = 0%nat) then Fail empty_select
         else '(projs, outs) ← bind_select_list ctx (select_list stmt); Ret (mkProject plan schema projs, outs)
       else Ret (plan, map (fun n => (n, true)) (StarOutputNames ctx))
     else aggregate_plan ctx schema stmt plan);
  plan ← (if bool_decide (length (order_by stmt) = 0%nat) then Ret plan
          else keys ← sort_keys ctx outs (order_by stmt); Ret (Sort plan keys));
  if has_limit stmt then
    if sel_limit stmt <? 0 then Fail (InvalidArgument (lit "LIMIT must be non-negative"))
    else Ret (mkLimit plan (sel_limit stmt))
  else Ret plan.

(** * The session *)

(** The database of the session, its transaction if one is open, and whether
    that one belongs to a single statement. *)
Record SqlSession := mkSqlSession { ss_db : Database; ss_txn : option Transaction; ss_auto : bool }.
Abbreviation SqlM := (KM SqlSession).

Definition on_database {A} (m : RelM A) : SqlM A := kzoom ss_db (fun d s => mkSqlSession d (ss_txn s) (ss_auto s)) m.
(** A call on the open transaction. *)
Definition on_txn {A} (m : TxM A) : SqlM A := fun s =>
  match ss_txn s with
  | None => KRet (Stuck, s)
  | Some tr => kzoom (fun s => (ss_db s, tr)) (fun dt s => mkSqlSession dt.1 (Some dt.2) (ss_auto s)) m s
  end.
Definition set_txn (tr : option Transaction) : SqlM unit := kmodify (fun s => mkSqlSession (ss_db s) tr (ss_auto s)).
Definition set_auto (b : bool) : SqlM unit := kmodify (fun s => mkSqlSession (ss_db s) (ss_txn s) b).
Definition InTransaction : SqlM bool := kgets (fun s => bool_decide (is_Some (ss_txn s))).

(** [txn_.reset()]: the destructor aborts a transaction that is not finished. *)
Definition txn_reset : SqlM unit := ktry (on_txn Transaction_Abort) ;; set_txn None.

(** [AutoTxnGuard]: begin a transaction if the session has none, run the body, and
    finish the transaction: commit after success, abort after a failure, whether it
    was passed to Complete or left to the destructor.  The body gives its status or
    its result, and whether its plan still has a scan: the plan lives until after
    Complete, and the scan's iterator keeps the skip list of the memtable locked, so
    that the first write of the commit or of the abort waits for its own thread (unless
    the memtable has been rotated by then).  Such a statement has no answer. *)
Definition with_auto_txn {A} (body : SqlM ((Status + A) * bool)) : SqlM A :=
  in_txn ← InTransaction;
  if in_txn : bool then
    '(r, _) ← body;
    match r with inl e => kfail e | inr a => mret a end
  else
    tr ← on_database Begin;
    set_txn (Some tr) ;;
    set_auto true ;;
    st ← ktry body;
    let '(r, scanning) := match st with inl e => (inl e, false) | inr x => x end in
    set_auto false ;;
    if scanning : bool then klift Stuck
    else
      match r with
      | inr a =>
        cst ← ktry (on_txn Transaction_Commit);
        txn_reset ;;
        match cst with inl e => kfail e | inr _ => mret a end
      | inl e =>
        ktry (on_txn Transaction_Abort) ;;
        txn_reset ;;
        kfail e
      end.

Definition LookupTable (name : bytes) : SqlM TableSchema := on_database (Database_GetTable name).

Definition RunBegin : SqlM unit :=
  in_txn ← InTransaction;
  kfail_if in_txn (InvalidArgument (lit "already in a transaction")) ;;
  tr ← on_database Begin;
  set_txn (Some tr) ;;
  set_auto false.

Definition fail_if_not_in_transaction : SqlM unit :=
  in_txn ← InTransaction;
  kfail_if (negb in_txn) (InvalidArgument (lit "not in a transaction")).

(** [const auto st = call(); txn_.reset(); return st;] *)
Definition finish_with (call : TxM unit) : SqlM unit :=
  fail_if_not_in_transaction ;;
  set_auto false ;;
  st ← ktry (on_txn call);
  txn_reset ;;
  match st with inl e => kfail e | inr _ => mret tt end.
Definition RunCommit : SqlM unit := finish_with Transaction_Commit.
Definition RunAbort : SqlM unit := finish_with Transaction_Abort.

Definition fail_if_ddl_in_transaction : SqlM unit :=
  in_txn ← InTransaction;
  kfail_if in_txn (InvalidArgument (lit "DDL is not allowed inside a transaction")).

Definition RunCreateTable (table : bytes) (columns : list ColumnDefAst) : SqlM unit :=
  fail_if_ddl_in_transaction ;;
  let schema := mkTableSchema table (map (fun c => mkColumnDef (cda_name c) (cda_type c) (cda_primary_key c)) columns) in
  klift (Schema_Validate schema) ;;
  on_database (Database_CreateTable schema).

Definition RunDropTable (table : bytes) (if_exists : bool) : SqlM unit :=
  fail_if_ddl_in_transaction ;;
  st ← ktry (on_database (Database_DropTable table));
  match st with
  | inl e => if if_exists && IsNotFound e then mret tt else kfail e
  | inr _ => mret tt
  end.

Definition RunAlterTableAddColumn (table : bytes) (column : ColumnDefAst) (default_value : Value) : SqlM unit :=
  fail_if_ddl_in_transaction ;;
  on_database (AlterTableAddColumn table (mkColumnDef (cda_name column) (cda_type column) false) default_value).

Definition RunAlterTableDropColumn (table column : bytes) : SqlM unit :=
  fail_if_ddl_in_transaction ;;
  on_database (AlterTableDropColumn table column).

(** The cells of an INSERT with a column list: each column once, none missing.
    [set] is the vector of the columns already given. *)
Fixpoint insert_cells (schema : TableSchema) (names : list bytes) (values : list Value) (cells : Row) (set : list bool) : Res Row :=
  match names, values with
  | n :: names, v :: values =>
    let idx := ColumnIndex schema n in
    if idx <? 0 then Fail (InvalidArgument (lit "unknown column: " ++ n))
    else
      b ← deref (set !! Z.to_nat idx);
      if b : bool then Fail (InvalidArgument (lit "duplicate column in INSERT: " ++ n))
      else insert_cells schema names values (<[Z.to_nat idx := v]> cells) (<[Z.to_nat idx := true]> set)
  | _, _ =>
    match list_find (fun b => b = false) set with
    | Some (i, _) => c ← deref (columns_ schema !! i); Fail (InvalidArgument (lit "missing column in INSERT: " ++ col_name c))
    | None => Ret cells
    end
  end.

Definition insert_row (schema : TableSchema) (names : list bytes) (values : list Value) : Res Row :=
  row ← (if bool_decide (names = []) then
           if negb (length values =? num_columns schema)%nat
           then Fail (InvalidArgument (lit "INSERT value count does not match table width"))
           else Ret values
         else if negb (length names =? length values)%nat
         then Fail (InvalidArgument (lit "INSERT column count does not match VALUES count"))
         else insert_cells schema names values (replicate (num_columns schema) VNull) (replicate (num_columns schema) false));
  ValidateAgainst row schema ;;
  Ret row.

Definition RunInsert (table : bytes) (names : list bytes) (values : list Value) : SqlM QueryResult :=
  schema ← LookupTable table;
  row ← klift (insert_row schema names values);
  with_auto_txn (result ← on_txn (InsertOp_Execute (name_ schema) [row]); mret (inr result, false)).

(** [fuel] bounds the operators of a plan. *)
Section Run.
Context (fuel : nat).

Definition RunSelect (stmt : SelectStmt) : SqlM QueryResult :=
  kfail_if (negb (bool_decide (length (from_joins (sel_from stmt)) = 0%nat))) (InvalidArgument (lit "joins are not supported")) ;;
  let base := from_base (sel_from stmt) in
  schema ← LookupTable (from_table base);
  let '(r, ctx) := AddTable (from_table base) (from_alias base) schema BindContext_new in
  klift r ;;
  kfail_if (select_star stmt && agg_plan stmt) (InvalidArgument (lit "SELECT * cannot be combined with aggregates or GROUP BY")) ;;
  kfail_if (bool_decide (is_Some (having stmt)) && negb (agg_plan stmt)) (InvalidArgument (lit "HAVING requires aggregates or GROUP BY")) ;;
  where_ ← klift (match sel_where stmt with None => Ret None | Some e => e' ← Bind_ctx ctx e; Ret (Some e') end);
  with_auto_txn (plan ← klift (select_plan ctx schema stmt where_); '(r, plan') ← on_txn (Collect fuel plan); mret (r, holds_scan plan')).

Fixpoint bind_sets (schema : TableSchema) (sets : list AssignmentAst) : Res (list Assignment) :=
  match sets with
  | [] => Ret []
  | a :: sets =>
    let idx := ColumnIndex schema (asg_column_name a) in
    if idx <? 0 then Fail (InvalidArgument (lit "unknown column: " ++ asg_column_name a))
    else e ← Bind schema (asg_value a); as_ ← bind_sets schema sets; Ret (mkAssignment idx e :: as_)
  end.

Definition RunUpdate (table : bytes) (sets : list AssignmentAst) (where_ : option Expr) : SqlM QueryResult :=
  schema ← LookupTable table;
  assigns ← klift (bind_sets schema sets);
  with_auto_txn ('(source, _) ← klift (PlanAccess schema where_); on_txn (UpdateOp_Execute fuel schema source assigns)).

Definition RunDelete (table : bytes) (where_ : option Expr) : SqlM QueryResult :=
  schema ← LookupTable table;
  with_auto_txn ('(source, _) ← klift (PlanAccess schema where_); on_txn (DeleteOp_Execute fuel schema source)).

Definition cleared (m : SqlM unit) : SqlM QueryResult := m ;; mret QueryResult_Clear.

Definition RunStatement (stmt : Statement) : SqlM QueryResult :=
  match stmt with
  | BeginStmt => cleared RunBegin
  | CommitStmt => cleared RunCommit
  | AbortStmt => cleared RunAbort
  | CreateTableStmt table columns => cleared (RunCreateTable table columns)
  | DropTableStmt table if_exists => cleared (RunDropTable table if_exists)
  | AlterTableAddColumnStmt table column v => cleared (RunAlterTableAddColumn table column v)
  | AlterTableDropColumnStmt table column => cleared (RunAlterTableDropColumn table column)
  | InsertStmt table names values => RunInsert table names values
  | Select s => RunSelect s
  | UpdateStmt table sets where_ => RunUpdate table sets where_
  | DeleteStmt table where_ => RunDelete table where_
  end.

(** The statements of a parsed script; the result is that of the last one. *)
Fixpoint run_script (stmts : list Statement) (result : QueryResult) : SqlM QueryResult :=
  match stmts with
  | [] => mret result
  | stmt :: stmts => result' ← RunStatement stmt; run_script stmts result'
  end.

Definition Execute (sql : bytes) : SqlM QueryResult :=
  stmts ← klift (ParseScript sql);
  run_script stmts QueryResult_Clear.
End Run.
