(* ===== verification/SqlQuery.v ===== *)
(** What SQL statements do over a transaction: stored rows keep to their table's
    schema, and a SELECT shows the rows its condition holds of, whichever access
    path the planner takes. *)
From S2P Require Import Prelude Status Slice Encoding Env Types Schema Row BindContext Expr SqlAst.
From S2P Require Import Kv Mvcc Catalog Database Txn SnapIso TxnRep TxnRefine TxnIsolation TxnScan.
From S2P Require Import Executor ExecSpec SqlSession.

(** * Stored rows *)

(** A row that some transaction wrote under [k], committed or not. *)
Definition written (a : SI) (k : Key) (row : Row) : Prop :=
  (exists ts, (ts, Some row) ∈ si_hist a k) \/ (exists t, si_prov a k = Some (t, Some row)).

Record si_typed (a : SI) : Prop := {
  st_tables : forall n schema, si_tables a !! n = Some schema -> name_ schema = n /\ schema_wf schema;
  st_written : forall k row, written a k row -> exists schema, si_tables a !! k.1 = Some schema /\ PrimaryKey row schema = Ret k.2
}.

Lemma si_typed_new : si_typed SI_new.
Proof. split; [done|]. intros k row [[ts H]|[t H]]; [by apply elem_of_nil in H|done]. Qed.

(** A step that keeps the tables and writes nothing new. *)
Lemma si_typed_keep a a' : si_typed a -> si_tables a' = si_tables a -> (forall k row, written a' k row -> written a k row) -> si_typed a'.
Proof. intros [H1 H2] E Hw. split; [by rewrite E|]. intros k row H. rewrite E. by apply H2, Hw. Qed.

Lemma written_set_prov k p a k' row : written (set_prov k p a) k' row -> written a k' row \/ (k' = k /\ exists t, p = Some (t, Some row)).
Proof.
  intros [[ts H]|[t H]]; [left; left; by exists ts|]. cbn in H. unfold fupd in H. case_decide; [|left; right; by exists t].
  right. split; [done|]. by exists t.
Qed.

(** A write puts its value under its key, or nothing. *)
Lemma written_write t start k w v a k' row : written (si_write t start k w v a).2 k' row ->
  written a k' row \/ (k' = k /\ v = Some row).
Proof.
  intros H. unfold si_write in H.
  repeat case_match; cbn [snd] in H; try (by left); apply written_set_prov in H as [H|[-> [t' E]]]; try (by left); right; by injection E.
Qed.

Lemma si_tables_write t start k w v a : si_tables (si_write t start k w v a).2 = si_tables a.
Proof. unfold si_write. by repeat case_match. Qed.

Lemma si_typed_write a t start table schema pk w v : si_typed a -> si_tables a !! table = Some schema ->
  (forall row, v = Some row -> PrimaryKey row schema = Ret pk) -> si_typed (si_write t start (table, pk) w v a).2.
Proof.
  intros [H1 H2] Ht Hv. split; [by rewrite si_tables_write|]. intros k row H. rewrite si_tables_write.
  apply written_write in H as [H|[-> E]]; [by apply H2|]. exists schema. split; [done|]. by apply Hv.
Qed.

Lemma si_typed_row_write a t table row w : si_typed a -> si_typed (si_row_write t table row w a).2.
Proof.
  intros H. unfold si_row_write. destruct (si_tables a !! table) as [schema|] eqn:Et; [|done].
  destruct (PrimaryKey row schema) as [pk|e|] eqn:Ep; try done. destruct (si_open a !! t) as [start|]; [|done].
  pose proof (si_typed_write a t start table schema pk w (Some row) H Et) as Hw.
  destruct (si_write t start (table, pk) w (Some row) a) as [c a']. apply Hw. by intros ? [= <-].
Qed.

Lemma written_commit t a k row : written (si_commit t a) k row -> written a k row.
Proof.
  intros [[ts Hw]|[t' Hw]]; cbn in Hw.
  - destruct (si_prov a k) as [[t' v]|] eqn:Ek; [|by left; exists ts]. destruct (t' =? t) eqn:E; [|by left; exists ts].
    apply elem_of_cons in Hw as [[= -> <-]|Hw]; [right; by exists t'|left; by exists ts].
  - right. destruct (si_prov a k) as [[t1 v]|]; [|done]. destruct (t1 =? t); [done|]. injection Hw as -> ->. by exists t'.
Qed.
Lemma written_abort t a k row : written (si_abort t a) k row -> written a k row.
Proof.
  intros [[ts Hw]|[t' Hw]]; cbn in Hw; [left; by exists ts|].
  right. destruct (si_prov a k) as [[t1 v]|]; [|done]. destruct (t1 =? t); [done|]. injection Hw as -> ->. by exists t'.
Qed.

Lemma si_typed_step op a : si_typed a -> si_typed (si_step op a).2.
Proof.
  intros H. destruct op as [schema| |t table row|t table row|t table pk|t table pk|t|t]; cbn [si_step].
  - unfold si_create. case_decide; [|done]. destruct (Schema_Validate schema) as [[]|e|] eqn:Ev; try done.
    destruct (si_tables a !! name_ schema) as [|] eqn:Et; [done|]. destruct H as [H1 H2]. split; cbn.
    + intros n s'. rewrite lookup_insert_Some. intros [[<- <-]|[_ Hn]]; [|by apply H1]. split; [done|]. by apply Validate_spec.
    + intros k row Hw. destruct (H2 k row Hw) as (s' & Es & Hp). exists s'. split; [|done].
      rewrite lookup_insert_ne; [done|]. intros E. rewrite E in Et. congruence.
  - by apply (si_typed_keep a).
  - by apply si_typed_row_write.
  - by apply si_typed_row_write.
  - destruct (si_tables a !! table) as [schema|] eqn:Et; [|done]. destruct (si_open a !! t) as [start|]; [|done].
    pose proof (si_typed_write a t start table schema pk WDelete None H Et) as Hw. destruct (si_write _ _ _ _ _ _) as [c a']. by apply Hw.
  - by repeat case_match.
  - destruct (si_open a !! t); [|done]. apply (si_typed_keep a); [done|done|apply written_commit].
  - destruct (si_open a !! t); [|done]. apply (si_typed_keep a); [done|done|apply written_abort].
Qed.

Lemma si_typed_run ops : forall a, si_typed a -> si_typed (si_run ops a).2.
Proof.
  induction ops as [|op ops IH]; intros a H; [done|]. cbn [si_run]. pose proof (si_typed_step op a H) as H'.
  destruct (si_step op a) as [r a']. specialize (IH a' H'). by destruct (si_run ops a').
Qed.

Lemma at_snapshot_elem h s row : at_snapshot h s = Some row -> exists ts, (ts, Some row) ∈ h.
Proof.
  induction h as [|[ts v] h IH]; cbn; [done|]. destruct (ts <=? s); [intros ->; exists ts; by left|].
  intros H. destruct (IH H) as (ts' & Hin). exists ts'. by right.
Qed.

(** What a transaction reads was written. *)
Lemma si_read_written a t start k row : si_read a t start k = Some row -> written a k row.
Proof.
  unfold si_read. destruct (si_prov a k) as [[t' v]|] eqn:E.
  - destruct (t' =? t); [intros ->; right; by exists t'|]. intros H. left. by eapply at_snapshot_elem.
  - intros H. left. by eapply at_snapshot_elem.
Qed.

Lemma si_read_typed a t start table schema pk row : si_typed a -> si_tables a !! table = Some schema ->
  si_read a t start (table, pk) = Some row -> row_typed row schema /\ row !! Z.to_nat (primary_key_index schema) = Some pk.
Proof.
  intros Ha Ht Hr. destruct (st_written a Ha _ _ (si_read_written _ _ _ _ _ Hr)) as (s' & Es & Hp). cbn in Es.
  rewrite Ht in Es. injection Es as <-. by apply PrimaryKey_spec in Hp as (_ & ? & ?).
Qed.

(** * Names of a single table *)

Lemma AddTable_first table alias schema : table <> [] ->
  exists names, AddTable table alias schema BindContext_new =
    (Ret tt, mkBindContext [mkBoundTable table alias schema 0] names (Z.of_nat (num_columns schema))).
Proof.
  intros Hne. unfold AddTable, register_name. rewrite !(bool_decide_eq_false_2 (table = [])) by done.
  destruct (bool_decide_reflect (alias = [])) as [->|Ha]; [by eexists|].
  destruct (bool_decide_reflect (alias = table)) as [->|Hb]; [by eexists|].
  cbv [mbind SM_bind fail_if gets modify mret SM_ret id negb andb BindContext_new].
  cbn [name_to_table_ tables_ total_columns_ length Z.of_nat]. rewrite lookup_empty.
  cbn [name_to_table_ tables_ total_columns_ length Z.of_nat]. rewrite lookup_insert_ne, lookup_empty by done. by eexists.
Qed.

(** Columns bound by position and by bare name. *)
Definition bound_to (schema : TableSchema) : Expr -> Prop := on_columns (fun n i => i = ColumnIndex schema n /\ 0 <= i).

Lemma bound_column_single names total table alias schema ti ci col bc :
  bound_column (mkBindContext [mkBoundTable table alias schema 0] names total) ti ci col = Ret bc -> 
  bc_row_offset bc = ci /\ bc_column_index bc = ci /\ bc_column_name bc = col.
Proof.
  unfold bound_column. cbn [tables_]. destruct (Z.to_nat ti) as [|n]; cbn; [|by destruct n].
  destruct (columns_ schema !! Z.to_nat ci); cbn; [|done]. by intros [= <-].
Qed.

Lemma Resolve_single names total table alias schema ref bc :
  Resolve (mkBindContext [mkBoundTable table alias schema 0] names total) ref = Ret bc ->
  bc_row_offset bc = ColumnIndex schema (bc_column_name bc) /\ 0 <= bc_row_offset bc.
Proof.
  unfold Resolve. destruct (SplitColumnRef ref) as [[qual col]|e|]; cbn [mbind Res_bind]; try done.
  destruct (bool_decide_reflect (qual = [])) as [|Hq]; cbn [negb].
  - cbn [tables_ find_unqualified bt_schema]. destruct (Z.ltb_spec (ColumnIndex schema col) 0); cbn [mbind Res_bind]; [done|].
    intros H'. apply bound_column_single in H' as (-> & _ & ->). done.
  - destruct (_ <? 0); [done|]. cbn [tables_]. destruct (Z.to_nat (FindTable _ _)) as [|n] eqn:En; cbn [lookup list_lookup deref mbind Res_bind].
    + cbn [bt_schema]. destruct (Z.ltb_spec (ColumnIndex schema col) 0); [done|]. intros H'. by apply bound_column_single in H' as (-> & _ & ->).
    + by destruct n.
Qed.

Lemma Bind_ctx_bound names total table alias schema e e' :
  Bind_ctx (mkBindContext [mkBoundTable table alias schema 0] names total) e = Ret e' -> bound_to schema e'.
Proof.
  apply map_columns_on. intros n i n' i' H. apply Res_bind_Ret in H as (bc & Hr & [= <- <-]). by eapply Resolve_single.
Qed.

(** Binding again changes nothing. *)
Lemma Bind_bound schema e : bound_to schema e -> Bind schema e = Ret e.
Proof.
  unfold Bind, bound_to. induction e as [v|n i|op l IHl r IHr|l IHl r IHr|l IHl r IHr|c IHc]; cbn [on_columns map_columns]; [done| | | | |].
  - intros [-> Hi]. destruct (Z.ltb_spec (ColumnIndex schema n) 0); [lia|]. done.
  - intros [Hl Hr]. by rewrite IHl, IHr.
  - intros [Hl Hr]. by rewrite IHl, IHr.
  - intros [Hl Hr]. by rewrite IHl, IHr.
  - intros Hc. by rewrite IHc.
Qed.

(** * Access paths *)

(** The conditions the planner turns into a range of keys. *)
Definition range_condition (pk_name : bytes) (e : Expr) : bool :=
  match MatchPkCompare e pk_name with
  | Some (pk_on_left, op, bound) => bool_decide (is_Some (BoundsFromPkCmp (if pk_on_left then op else FlipCmp op) bound))
  | None => false
  end.

Lemma PkColumnName_wf schema : schema_wf schema ->
  exists c, PkColumnName schema = Ret (col_name c) /\ columns_ schema !! Z.to_nat (primary_key_index schema) = Some c /\
    0 <= primary_key_index schema /\ col_name c <> [].
Proof.
  intros Hw. destruct (sw_pk _ Hw) as (pre & c & post & Ec & Hc & Hpre & Hpost). exists c. unfold PkColumnName.
  rewrite (primary_key_index_spec schema pre c post) by done. destruct (Z.ltb_spec (Z.of_nat (length pre)) 0); [lia|].
  rewrite Nat2Z.id, Ec, list_lookup_middle by done. repeat split; [lia|].
  pose proof (sw_names _ Hw) as Hn. rewrite Ec in Hn. apply Forall_app in Hn as [_ Hn]. by inversion Hn.
Qed.

(** The column of the key's name is the key's column. *)
Lemma ColumnIndex_pk schema c : schema_wf schema -> 0 <= primary_key_index schema ->
  columns_ schema !! Z.to_nat (primary_key_index schema) = Some c -> ColumnIndex schema (col_name c) = primary_key_index schema.
Proof.
  intros Hw Hi Hc. destruct (ColumnIndex_cases schema (col_name c)) as [[_ H]|(d & H0 & Hd & Hn & _)].
  - exfalso. apply H. apply (list_elem_of_fmap_2 col_name). by eapply list_elem_of_lookup_2.
  - assert (Z.to_nat (ColumnIndex schema (col_name c)) = Z.to_nat (primary_key_index schema)); [|lia].
    eapply (NoDup_lookup (map col_name (columns_ schema)) _ _ (col_name c)); [apply (sw_unique _ Hw)| |].
    + by rewrite list_lookup_fmap, Hd; cbn; rewrite Hn.
    + by rewrite list_lookup_fmap, Hc.
Qed.

Lemma cell_order_eq v w : cell_order v w = Some Eq -> v = w.
Proof.
  destruct v as [|x|x|x], w as [|y|y|y]; cbn; try done; intros [= E].
  - by apply Z.compare_eq in E as ->.
  - by apply lex_eq in E as ->.
  - by destruct x, y.
Qed.

Lemma cell_order_refl v : v <> VNull -> cell_order v v = Some Eq.
Proof. destruct v as [|x|x|[]]; cbn; try done; intros _; f_equal; [apply Z.compare_refl|by apply lex_eq]. Qed.

(** An equality with the key, read off the expression. *)
Lemma MatchPkEquality_sem schema c e v row pk : bound_to schema e -> MatchPkEquality e (col_name c) = Some v ->
  row !! Z.to_nat (ColumnIndex schema (col_name c)) = Some pk -> (sem e row = VBool true <-> pk = v) .
Proof.
  intros Hb Hm Hrow.
  assert (forall col lt, pick_pk (col_name c) col lt = Some v -> on_columns (fun n i => i = ColumnIndex schema n /\ 0 <= i) col ->
    v <> VNull /\ lt = Literal v /\ sem col row = pk) as Hpick.
  { intros col lt H Hc. unfold pick_pk in H. destruct col as [|n i| | | |]; try done. destruct lt as [w| | | | |]; try done.
    destruct (bool_decide_reflect (n = col_name c)) as [->|]; [|done]. destruct w; cbn in H; try done; injection H as <-;
      destruct Hc as [-> _]; cbn [sem]; by rewrite Hrow. }
  destruct e as [| |op l r| | |]; try done. destruct op; try done. cbn in Hb. destruct Hb as [Hl Hr]. cbn [MatchPkEquality] in Hm. cbn [sem].
  destruct (pick_pk (col_name c) l r) as [w|] eqn:E.
  - injection Hm as ->. destruct (Hpick l r E Hl) as (Hne & -> & ->). cbn [sem]. split.
    + destruct (cell_order pk v) as [[]|] eqn:Ec; try done. intros _. by apply cell_order_eq.
    + intros ->. by rewrite cell_order_refl.
  - destruct (Hpick r l Hm Hr) as (Hne & -> & ->). cbn [sem]. split.
    + destruct (cell_order v pk) as [[]|] eqn:Ec; try done. intros _. by apply cell_order_eq in Ec.
    + intros ->. by rewrite cell_order_refl.
Qed.

Lemma filter_rows_all (p : Row -> Res bool) (q : Row -> bool) rs : Forall (fun r => p r = Ret (q r)) rs ->
  filter_rows p rs None = mkStream (List.filter q rs) None.
Proof. induction 1 as [|r rs Hr _ IH]; [done|]. cbn. rewrite Hr, IH. by destruct (q r). Qed.

Section Access.
Context (N : Z) (a : SI) (s : Sys) (m : gmap bytes bytes) (t start : Z) (table : bytes) (schema : TableSchema).
Context (N_pos : 0 <= N) (rep : sys_rep 1 N a s m) (opened : si_open a !! t = Some start).
Context (sep : separate (si_tables a) table) (known : si_tables a !! table = Some schema) (Htyped : si_typed a).

Lemma table_schema : name_ schema = table /\ schema_wf schema.
Proof. by apply (st_tables a Htyped). Qed.

(** The rows of the table that the transaction sees and [e] holds of, in key order. *)
Definition selects (e : Expr) (prs : list (Value * Row)) : Prop :=
  StronglySorted pk_order prs /\
  forall pk row, (pk, row) ∈ prs <-> key_ok (table, pk) /\ si_read a t start (table, pk) = Some row /\ sem e row = VBool true.

Lemma scan_filtered e : typed (columns_ schema) e kBool ->
  exists prs, selects e prs /\
    filter_rows (fun r => EvalBool e r schema) (range_rows a m t start table None None) None = mkStream (map snd prs) None.
Proof.
  intros He. destruct (scan_result_spec N a s m t start table None None N_pos rep opened sep) as [Hs Hin].
  set (l := scan_result a m t start table None None) in *.
  exists (List.filter (fun x => bool_decide (sem e x.2 = VBool true)) l). split; [split|].
  - clear Hin. induction Hs as [|x l Hs IH Hx]; cbn; [constructor|]. destruct (bool_decide _); [|done]. constructor; [done|].
    apply Forall_forall. intros y Hy. rewrite Forall_forall in Hx. apply Hx. apply list_elem_of_In in Hy. apply filter_In in Hy as [Hy _].
    by apply list_elem_of_In.
  - intros pk row. rewrite list_elem_of_In, filter_In, <- list_elem_of_In, Hin, bool_decide_eq_true. unfold in_range. naive_solver.
  - unfold range_rows. fold l. rewrite (filter_rows_all _ (fun r => bool_decide (sem e r = VBool true))).
    + f_equal. clear Hs Hin. induction l as [|x l IH]; cbn; [done|]. rewrite IH. by destruct (bool_decide _).
    + apply Forall_forall. intros r Hr. apply list_elem_of_fmap in Hr as ([pk row] & -> & Hr). apply Hin in Hr as (_ & _ & Hr).
      apply (EvalBool_sound (columns_ schema)); [done|]. apply row_typed_fits. by destruct (si_read_typed _ _ _ _ _ _ _ Htyped known Hr).
Qed.

(** Every access path but the range scan delivers what the condition selects. *)
Lemma access_selects e pk_name plan tag : PkColumnName schema = Ret pk_name -> bound_to schema e -> typed (columns_ schema) e kBool ->
  range_condition pk_name e = false -> (forall v, MatchPkEquality e pk_name = Some v -> key_ok (table, v)) ->
  PlanAccess schema (Some e) = Ret (plan, tag) ->
  plan_ok table plan /\ plan_names plan = Ret (ColumnNamesFromSchema schema) /\
  exists prs, selects e prs /\
    denote (range_rows a m t start table) (point_row a t start table) plan = Ret (mkStream (map snd prs) None).
Proof.
  intros Hpk Hb He Hnr Hkey Hp. destruct table_schema as [Hn Hw]. destruct (PkColumnName_wf schema Hw) as (c & Ec & Hc & Hi & Hne).
  rewrite Hpk in Ec. injection Ec as ->. unfold PlanAccess in Hp. rewrite Hpk in Hp. cbn [mbind Res_bind] in Hp.
  rewrite bool_decide_eq_false_2 in Hp by done. unfold range_condition in Hnr. rewrite (Bind_bound schema e Hb) in Hp. cbn [mbind Res_bind] in Hp.
  destruct (MatchPkEquality e (col_name c)) as [v|] eqn:Em.
  - injection Hp as <- <-. specialize (Hkey v eq_refl). split; [done|]. split; [done|]. cbn [mkPkPointGet denote]. unfold point_row.
    exists (match si_read a t start (table, v) with Some row => [(v, row)] | None => [] end). split; [|by destruct (si_read _ _ _ _)].
    assert (forall pk row, si_read a t start (table, pk) = Some row -> (sem e row = VBool true <-> pk = v)) as Hsem.
    { intros pk row Hr. destruct (si_read_typed _ _ _ _ _ _ _ Htyped known Hr) as [_ Hrow].
      apply (MatchPkEquality_sem schema c); [done|done|]. by rewrite (ColumnIndex_pk schema c). }
    split; [destruct (si_read a t start (table, v)); by repeat constructor|]. intros pk row. split.
    + destruct (si_read a t start (table, v)) as [r|] eqn:Er; [|by intros ?%elem_of_nil]. intros [= -> ->]%list_elem_of_singleton.
      split; [done|]. split; [done|]. by apply (Hsem v r).
    + intros (_ & Hr & Hs). apply (Hsem pk row Hr) in Hs as ->. rewrite Hr. by left.
  - assert (plan = mkFilter (mkSeqScan schema) schema e) as ->.
    { destruct (MatchPkCompare e (col_name c)) as [[[pl op] b]|]; [|by injection Hp].
      destruct (BoundsFromPkCmp _ b) as [[]|]; [done|]. by injection Hp. }
    split; [done|]. split; [done|]. cbn [mkFilter mkSeqScan denote]. rewrite (Bind_bound schema e Hb). cbn [mbind Res_bind st_rows st_end].
    destruct (scan_filtered e He) as (prs & Hsel & ->). by exists prs.
Qed.
End Access.

(** * Running statements *)

Lemma exec_on_txn {A} (p : TxM A) d tr b m :
  exec (on_txn p) (mkSqlSession d (Some tr) b, m) =
    let '(r, dtm) := exec p ((d, tr), m) in (r, (mkSqlSession dtm.1.1 (Some dtm.1.2) b, dtm.2)).
Proof.
  assert (exec (on_txn p) (mkSqlSession d (Some tr) b, m) = exec (kzoom (fun s => (ss_db s, tr))
    (fun dt s => mkSqlSession dt.1 (Some dt.2) (ss_auto s)) p) (mkSqlSession d (Some tr) b, m)) as -> by done.
  rewrite exec_zoom. cbn [ss_db]. by destruct (exec p ((d, tr), m)) as [r [[d' tr'] m']].
Qed.

Lemma exec_on_database {A} (p : RelM A) d tr b m :
  exec (on_database p) (mkSqlSession d tr b, m) = let '(r, dm) := exec p (d, m) in (r, (mkSqlSession dm.1 tr b, dm.2)).
Proof. unfold on_database. rewrite exec_zoom. cbn [ss_db ss_txn ss_auto]. by destruct (exec p (d, m)) as [r [d' m']]. Qed.

(** A statement inside a transaction runs in it. *)
Lemma exec_in_transaction {A} (body : SqlM ((Status + A) * bool)) d tr b m :
  exec (with_auto_txn body) (mkSqlSession d (Some tr) b, m) =
    exec ('(r, _) ← body; match r with inl e => kfail e | inr a => mret a end) (mkSqlSession d (Some tr) b, m).
Proof. unfold with_auto_txn, InTransaction. kv_step. cbn [ss_txn]. rewrite bool_decide_eq_true_2 by done. by kv_step. Qed.

(** There, the rows of a plan are its answer, whether its scan is exhausted or not. *)
Lemma exec_collect_in_transaction fuel plan d tr b m :
  exec ('(r, _) ← ('(r, plan') ← on_txn (Collect fuel plan); mret (r, holds_scan plan')); match r with inl e => kfail e | inr a => mret a end)
    (mkSqlSession d (Some tr) b, m) = exec (on_txn (collect_rows fuel plan)) (mkSqlSession d (Some tr) b, m).
Proof.
  kv_step. rewrite !exec_on_txn. unfold collect_rows, settle. kv_step.
  destruct (exec (Collect fuel plan) ((d, tr), m)) as [[[[e|q] plan']|e|] [[d' tr'] m']]; by kv_step.
Qed.

(** The plan of a SELECT reads the table of its FROM clause. *)
Lemma PlanAccess_ok schema where_ plan tag : PlanAccess schema where_ = Ret (plan, tag) ->
  (forall e pk_name v, where_ = Some e -> PkColumnName schema = Ret pk_name -> MatchPkEquality e pk_name = Some v -> key_ok (name_ schema, v)) ->
  plan_ok (name_ schema) plan.
Proof.
  unfold PlanAccess. intros H Hkey. apply Res_bind_Ret in H as (pk_name & Hpk & H). case_bool_decide; [done|].
  destruct where_ as [e|]; [|by injection H as <- <-]. destruct (MatchPkEquality e pk_name) as [v|] eqn:Em.
  - apply Res_bind_Ret in H as (e' & _ & [= <- <-]). split; [done|]. split; [done|]. split; [done|]. by eapply Hkey.
  - destruct (match MatchPkCompare e pk_name with Some _ => _ | None => _ end) as [[lo hi]|];
      apply Res_bind_Ret in H as (e' & _ & [= <- <-]); done.
Qed.

Lemma aggregate_plan_ok ctx schema stmt plan table out outs : plan_ok table plan ->
  aggregate_plan ctx schema stmt plan = Ret (out, outs) -> plan_ok table out.
Proof.
  intros Hp H. unfold aggregate_plan in H. case_bool_decide; [done|]. apply Res_bind_Ret in H as ([gi gb] & _ & H).
  apply Res_bind_Ret in H as ([aggs srcs] & _ & H). apply Res_bind_Ret in H as ([having' aggs'] & _ & H).
  apply Res_bind_Ret in H as (gc & _ & H). case_bool_decide; [done|]. apply Res_bind_Ret in H as ([] & _ & H).
  apply Res_bind_Ret in H as (plan' & Hpl & H). apply Res_bind_Ret in H as (projs & _ & [= <- <-]). cbn. split; [done|].
  destruct having' as [h|]; [apply Res_bind_Ret in Hpl as (h' & _ & [= <-])|injection Hpl as <-]; done.
Qed.

Lemma select_plan_ok ctx schema stmt where_ plan : select_plan ctx schema stmt where_ = Ret plan ->
  (forall e pk_name v, where_ = Some e -> PkColumnName schema = Ret pk_name -> MatchPkEquality e pk_name = Some v -> key_ok (name_ schema, v)) ->
  plan_ok (name_ schema) plan.
Proof.
  unfold select_plan. intros H Hkey. apply Res_bind_Ret in H as ([access tag] & Ha & H). apply PlanAccess_ok in Ha; [|done].
  apply Res_bind_Ret in H as ([plan1 outs] & H1 & H). apply Res_bind_Ret in H as (plan2 & H2 & H).
  assert (plan_ok (name_ schema) plan1) as Hp1.
  { destruct (agg_plan stmt); cbn [negb] in H1; [by eapply aggregate_plan_ok|]. destruct (select_star stmt); cbn [negb] in H1; [by injection H1 as <- <-|].
    destruct (bool_decide (length (select_list stmt) = 0%nat)); [done|]. by apply Res_bind_Ret in H1 as ([projs outs'] & _ & [= <- <-]). }
  assert (plan_ok (name_ schema) plan2) as Hp2.
  { destruct (bool_decide (length (order_by stmt) = 0%nat)); [by injection H2 as <-|]. by apply Res_bind_Ret in H2 as (keys & _ & [= <-]). }
  destruct (has_limit stmt); [|by injection H as <-]. destruct (_ <? 0); [done|]. by injection H as <-.
Qed.

(** What the statement is planned as: the checks before the plan, the names bound, the plan. *)
Definition planned (schema : TableSchema) (stmt : SelectStmt) : Res Executor :=
  let base := from_base (sel_from stmt) in
  let '(r, ctx) := AddTable (from_table base) (from_alias base) schema BindContext_new in
  r ;;
  if select_star stmt && agg_plan stmt then Fail (InvalidArgument (lit "SELECT * cannot be combined with aggregates or GROUP BY"))
  else if bool_decide (is_Some (having stmt)) && negb (agg_plan stmt) then Fail (InvalidArgument (lit "HAVING requires aggregates or GROUP BY"))
  else
    where_ ← (match sel_where stmt with None => Ret None | Some e => e' ← Bind_ctx ctx e; Ret (Some e') end);
    select_plan ctx schema stmt where_.

Section Statements.
Context (N : Z) (a : SI) (s : Sys) (m : gmap bytes bytes) (t start : Z) (tr : Transaction).
Context (N_pos : 0 <= N) (rep : sys_rep 1 N a s m) (opened : si_open a !! t = Some start) (live : sys_txns s !! t = Some tr).

Lemma exec_RunSelect stmt schema b : from_joins (sel_from stmt) = [] ->
  let table := from_table (from_base (sel_from stmt)) in
  si_tables a !! table = Some schema -> separate (si_tables a) table ->
  (forall plan, planned schema stmt = Ret plan -> plan_ok table plan) ->
  exists F c, tables_rep (si_tables a) c m /\ forall fuel, (F <= fuel)%nat ->
    exec (RunSelect fuel stmt) (mkSqlSession (sys_db s) (Some tr) b, m) =
      (plan ← planned schema stmt; collect_answer a m t start table plan, (mkSqlSession (with_catalog c (sys_db s)) (Some tr) b, m)).
Proof.
  intros Hj table Ht Hsep Hok. unfold RunSelect, planned in *. rewrite Hj.
  destruct (exec_GetTable _ (sys_db s) m table (sr_tables _ _ _ _ _ rep)) as (res & c & E & Hc & Ha).
  unfold table_answer in Ha. rewrite Ht in Ha. subst res.
  pose proof (sys_rep_catalog _ _ _ _ _ _ rep Hc) as rep'. fold table in Hok |- *. change (bool_decide (length [] = 0%nat)) with true. cbn [negb].
  destruct (AddTable table (from_alias (from_base (sel_from stmt))) schema BindContext_new) as [r ctx] eqn:Eadd.
  assert (exists F c', tables_rep (si_tables a) c' m /\ forall fuel, (F <= fuel)%nat ->
    exec (_ ← klift r;
          _ ← kfail_if (select_star stmt && agg_plan stmt) (InvalidArgument (lit "SELECT * cannot be combined with aggregates or GROUP BY"));
          _ ← kfail_if (bool_decide (is_Some (having stmt)) && negb (agg_plan stmt)) (InvalidArgument (lit "HAVING requires aggregates or GROUP BY"));
          where_ ← klift (match sel_where stmt with None => Ret None | Some e => e' ← Bind_ctx ctx e; Ret (Some e') end);
          with_auto_txn (plan ← klift (select_plan ctx schema stmt where_); '(r, plan') ← on_txn (Collect fuel plan); mret (r, holds_scan plan')))
      (mkSqlSession (with_catalog c (sys_db s)) (Some tr) b, m) =
      (plan ← (r ;;
         if select_star stmt && agg_plan stmt then Fail (InvalidArgument (lit "SELECT * cannot be combined with aggregates or GROUP BY"))
         else if bool_decide (is_Some (having stmt)) && negb (agg_plan stmt) then Fail (InvalidArgument (lit "HAVING requires aggregates or GROUP BY"))
         else where_ ← (match sel_where stmt with None => Ret None | Some e => e' ← Bind_ctx ctx e; Ret (Some e') end);
              select_plan ctx schema stmt where_); collect_answer a m t start table plan,
       (mkSqlSession (with_catalog c' (sys_db s)) (Some tr) b, m))) as (F & c' & Hc' & H).
  { destruct r as [[]|e|]; [|exists 0%nat, c; split; [done|]; intros; kv_step; done..]. cbn [mbind Res_bind] in Hok |- *.
    destruct (select_star stmt && agg_plan stmt); [exists 0%nat, c; split; [done|]; intros; kv_step; done|].
    destruct (bool_decide (is_Some (having stmt)) && negb (agg_plan stmt)); [exists 0%nat, c; split; [done|]; intros; kv_step; done|].
    destruct (match sel_where stmt with None => Ret None | Some e => e' ← Bind_ctx ctx e; Ret (Some e') end) as [where_|e|];
      [|exists 0%nat, c; split; [done|]; intros; kv_step; done..]. cbn [mbind Res_bind] in Hok |- *.
    destruct (select_plan ctx schema stmt where_) as [plan|e|] eqn:Ep;
      [|exists 0%nat, c; split; [done|]; intros; kv_step; rewrite exec_in_transaction; kv_step; by rewrite Ep..].
    destruct (exec_Collect N a (mkSys (with_catalog c (sys_db s)) (sys_txns s)) m t start table tr N_pos rep' opened Hsep) with (ex := plan)
      as (F & c' & Hc' & H); [by rewrite Ht|done|by apply Hok|].
    exists F, c'. split; [done|]. intros fuel Hf. kv_step. rewrite exec_in_transaction. kv_step. rewrite Ep. rewrite <- exec_bind, exec_collect_in_transaction, exec_on_txn.
    cbn [sys_db] in H. rewrite H by done. done. }
  exists F, c'. split; [done|]. intros fuel Hf. kv_step. unfold LookupTable. rewrite exec_on_database, E. cbn [fst snd]. rewrite Eadd. by apply H.
Qed.
End Statements.

(** * Properties *)

(** The literals of an expression; binding keeps them. *)
Fixpoint literals (e : Expr) : list Value :=
  match e with
  | Literal v => [v]
  | Column _ _ => []
  | Compare _ l r | And l r | Or l r => literals l ++ literals r
  | Not c => literals c
  end.

Lemma map_columns_literals f e : forall e', map_columns f e = Ret e' -> literals e' = literals e.
Proof.
  induction e as [v|n i|op l IHl r IHr|l IHl r IHr|l IHl r IHr|c IHc]; intros e'; cbn [map_columns].
  - by intros [= <-].
  - by intros ([n' i'] & _ & [= <-])%Res_bind_Ret.
  - intros (l' & r' & El & Er & ->)%map_binary. cbn. by rewrite (IHl _ El), (IHr _ Er).
  - intros (l' & r' & El & Er & ->)%map_binary. cbn. by rewrite (IHl _ El), (IHr _ Er).
  - intros (l' & r' & El & Er & ->)%map_binary. cbn. by rewrite (IHl _ El), (IHr _ Er).
  - intros (c' & Ec & [= <-])%Res_bind_Ret. cbn. by rewrite (IHc _ Ec).
Qed.

Lemma MatchPkEquality_literal e pk_name v : MatchPkEquality e pk_name = Some v -> v ∈ literals e.
Proof.
  assert (forall col lt, pick_pk pk_name col lt = Some v -> lt = Literal v) as Hpick.
  { intros col lt H. unfold pick_pk in H. destruct col; try done. destruct lt as [w| | | | |]; try done. destruct (_ && _); [|done]. by injection H as ->. }
  destruct e as [| |op l r| | |]; try done. destruct op; try done. cbn [MatchPkEquality literals]. intros H. rewrite elem_of_app.
  destruct (pick_pk pk_name l r) as [w|] eqn:E; [injection H as ->; apply Hpick in E as ->; right; by left|].
  apply Hpick in H as ->. left. by left.
Qed.

(** The literals of the WHERE clause are values that can be keys of the table. *)
Definition where_literals_ok (stmt : SelectStmt) : Prop :=
  match sel_where stmt with
  | Some e => Forall (fun v => key_ok (from_table (from_base (sel_from stmt)), v)) (literals e)
  | None => True
  end.

Lemma planned_ok schema stmt : name_ schema = from_table (from_base (sel_from stmt)) -> where_literals_ok stmt ->
  forall plan, planned schema stmt = Ret plan -> plan_ok (from_table (from_base (sel_from stmt))) plan.
Proof.
  intros Hn Hw plan H. unfold planned in H. destruct (AddTable _ _ schema BindContext_new) as [r ctx].
  apply Res_bind_Ret in H as ([] & _ & H). destruct (_ && _); [done|]. destruct (_ && _); [done|].
  apply Res_bind_Ret in H as (where_ & Hb & H). rewrite <- Hn. eapply select_plan_ok; [exact H|]. intros e pk_name v -> _ Hm.
  unfold where_literals_ok in Hw. destruct (sel_where stmt) as [e0|]; [|done]. apply Res_bind_Ret in Hb as (e' & Hb & [= ->]).
  apply MatchPkEquality_literal in Hm. rewrite (map_columns_literals _ _ _ Hb) in Hm. rewrite Hn. rewrite Forall_forall in Hw. by apply Hw.
Qed.

(** C15: Every row a transaction reads is a row of its table: after any interleaving
    of calls, a Get that answers a row answers one that is valid against the
    table's schema - its width and types are the schema's and no cell is NULL -
    and whose primary key is the key asked for. *)
Theorem stored_rows_fit_schema (ops : list TOp) (t : Z) (table : bytes) (pk : Value) (row : Row) (rs : list TReply) sm :
  Z.of_nat (length (ops ++ [TGet t table pk])) < 2 ^ 32 -> ops_ok 1 1 (ops ++ [TGet t table pk]) ->
  exec (session (ops ++ [TGet t table pk])) (Sys_new, ∅) = (Ret rs, sm) -> last rs = Some (RRow row) ->
  exists schema, si_tables (si_run ops SI_new).2 !! table = Some schema /\
    ValidateAgainst row schema = Ret tt /\ PrimaryKey row schema = Ret pk.
Proof.
  intros Hl Hops E Hlast. destruct (new_database_si 0 _ (Z.le_refl 0) Hl Hops) as (s & m & E' & _). unfold session in E. rewrite E in E'. injection E' as -> _.
  assert (si_typed (si_run ops SI_new).2) as Ha by apply si_typed_run, si_typed_new. rewrite si_run_app in Hlast.
  destruct (si_run ops SI_new) as [rs0 a]. cbn [snd] in Ha |- *. cbn [si_run] in Hlast.
  destruct (si_step (TGet t table pk) a) as [r a'] eqn:Es. cbn [fst] in Hlast. rewrite last_snoc in Hlast.
  injection Hlast as ->. cbn [si_step] in Es. destruct (si_open a !! t) as [start|]; [|done].
  destruct (si_tables a !! table) as [schema|] eqn:Et; [|done]. destruct (si_read a t start (table, pk)) as [row'|] eqn:Er; [|done].
  injection Es as <- _. destruct (st_written a Ha _ _ (si_read_written _ _ _ _ _ Er)) as (s' & Es' & Hp). cbn in Es'. rewrite Et in Es'.
  injection Es' as <-. exists schema. split; [done|]. split; [|done]. apply ValidateAgainst_spec. by apply PrimaryKey_spec in Hp as (? & ? & _).
Qed.

Lemma stored_rows_fit_schema_witness :
  exists schema, si_tables (si_run two_rows SI_new).2 !! lit "users" = Some schema /\
    ValidateAgainst (user (lit "bob") 256) schema = Ret tt /\ PrimaryKey (user (lit "bob") 256) schema = Ret (VInt64 256).
Proof.
  refine (stored_rows_fit_schema two_rows 2 (lit "users") (VInt64 256) (user (lit "bob") 256)
    (si_run (two_rows ++ [TGet 2 (lit "users") (VInt64 256)]) SI_new).1 (exec (session (two_rows ++ [TGet 2 (lit "users") (VInt64 256)])) (Sys_new, ∅)).2 _ _ _ _).
  - reflexivity.
  - apply (bool_decide_unpack _). vm_compute. exact I.
  - rewrite (surjective_pairing (exec _ _)) at 1. f_equal.
  - vm_compute. reflexivity.
Defined.

(** What a transaction sees of a table: the rows of each range of keys, in key order. *)
Definition relation_of (a : SI) (t start : Z) (table : bytes) (ranged : option Value -> option Value -> list Row) : Prop :=
  forall lo hi, exists prs, ranged lo hi = map snd prs /\ StronglySorted pk_order prs /\
    forall pk row, (pk, row) ∈ prs <-> key_ok (table, pk) /\ in_range lo hi pk /\ si_read a t start (table, pk) = Some row.

(** C8: SELECT is relational algebra: in an open transaction, after any interleaving
    of calls, a SELECT over one table answers what its plan means over the rows the
    transaction can read - the access path, then grouping and HAVING or the
    projection, then ORDER BY, then LIMIT, each a function on lists - or the first
    error on the way; the operators, which pull rows one by one, end with that
    answer for every fuel that is large enough, and neither the store nor the
    transaction changes. *)
Theorem select_is_relational (ops : list TOp) (t start : Z) (stmt : SelectStmt) (schema : TableSchema) :
  let a := (si_run ops SI_new).2 in
  let table := from_table (from_base (sel_from stmt)) in
  Z.of_nat (length ops) < 2 ^ 32 -> ops_ok 1 1 ops -> si_open a !! t = Some start ->
  from_joins (sel_from stmt) = [] -> si_tables a !! table = Some schema -> separate (si_tables a) table -> where_literals_ok stmt ->
  exists s m tr F ranged, exec (session ops) (Sys_new, ∅) = (Ret (si_run ops SI_new).1, (s, m)) /\ sys_txns s !! t = Some tr /\
    relation_of a t start table ranged /\
    forall fuel, (F <= fuel)%nat -> exists d,
      exec (RunSelect fuel stmt) (mkSqlSession (sys_db s) (Some tr) false, m) =
        (plan ← planned schema stmt;
         str ← denote ranged (fun pk => si_read a t start (table, pk)) plan;
         rs ← stream_list str;
         names ← plan_names plan;
         Ret (mkQueryResult names rs 0 (PlanTag plan)), (mkSqlSession d (Some tr) false, m)).
Proof.
  intros a table Hl Hops Ho Hj Ht Hsep Hlit. destruct (new_database_si 0 ops (Z.le_refl 0) Hl Hops) as (s & m & E & Hrep). fold a in Hrep.
  pose proof (sr_txns _ _ _ _ _ Hrep t (proj2 (sv_open _ (sr_inv _ _ _ _ _ Hrep) _ _ Ho))) as Htr. rewrite Ho in Htr.
  destruct Htr as (tr & Et & _). assert (si_typed a) as Ha by apply si_typed_run, si_typed_new.
  destruct (st_tables a Ha _ _ Ht) as [Hn Hw].
  destruct (exec_RunSelect 0 a s m t start tr (Z.le_refl 0) Hrep Ho Et stmt schema false Hj Ht Hsep) as (F & c & Hc & H).
  { by apply planned_ok. }
  exists s, m, tr, F, (range_rows a m t start table). split; [exact E|]. split; [exact Et|]. split.
  - intros lo hi. exists (scan_result a m t start table lo hi). split; [done|].
    by apply (scan_result_spec 0 a s m t start table lo hi (Z.le_refl 0) Hrep Ho Hsep).
  - intros fuel Hf. eexists. rewrite H by done. reflexivity.
Qed.

(** [SELECT * FROM table WHERE e] *)
Definition select_where (table : bytes) (e : Expr) : SelectStmt :=
  mkSelectStmt true [] (mkFromClause (mkFromItem table []) []) (Some e) [] None [] false 0.

(** The condition with its columns bound. *)
Definition bound_where (table : bytes) (schema : TableSchema) (e : Expr) : Res Expr :=
  Bind_ctx (AddTable table [] schema BindContext_new).2 e.

Lemma planned_where table schema e e' : schema_wf schema -> table <> [] -> bound_where table schema e = Ret e' ->
  bound_to schema e' /\ planned schema (select_where table e) = ('(plan, _) ← PlanAccess schema (Some e'); Ret plan).
Proof.
  intros Hw Hne Hb. unfold bound_where, planned in *. cbn [select_where sel_from from_base from_table from_alias].
  destruct (AddTable_first table [] schema Hne) as (names & E). rewrite E in Hb |- *. cbn [snd] in Hb.
  split; [by eapply Bind_ctx_bound|]. cbn [select_where select_star sel_where having mbind Res_bind]. cbn [mbind Res_bind]. rewrite Hb.
  cbn [mbind Res_bind agg_plan select_plan]. unfold select_plan. by destruct (PlanAccess schema (Some e')) as [[plan tag]|err|].
Qed.

(** WHERE selects: [SELECT * FROM table WHERE e], with a condition that types
    over the table's columns, answers exactly the rows of the table that the
    transaction can read and of which the condition is true - neither false nor
    unknown - each once, in key order, under the columns' names.  Looking up a key
    for [key = literal] and filtering a scan give the same.  Conditions [key >= v]
    and [key < v], which become a range of encoded keys, are excepted. *)
Theorem where_selects (ops : list TOp) (t start : Z) (table : bytes) (schema : TableSchema) (e e' : Expr) (pk_name : bytes) :
  let a := (si_run ops SI_new).2 in
  Z.of_nat (length ops) < 2 ^ 32 -> ops_ok 1 1 ops -> si_open a !! t = Some start ->
  si_tables a !! table = Some schema -> separate (si_tables a) table ->
  Forall (fun v => key_ok (table, v)) (literals e) ->
  bound_where table schema e = Ret e' -> typed (columns_ schema) e' kBool ->
  PkColumnName schema = Ret pk_name -> range_condition pk_name e' = false ->
  exists s m tr F prs tag, exec (session ops) (Sys_new, ∅) = (Ret (si_run ops SI_new).1, (s, m)) /\ sys_txns s !! t = Some tr /\
    selects a t start table e' prs /\
    forall fuel, (F <= fuel)%nat -> exists d,
      exec (RunSelect fuel (select_where table e)) (mkSqlSession (sys_db s) (Some tr) false, m) =
        (Ret (mkQueryResult (map col_name (columns_ schema)) (map snd prs) 0 tag), (mkSqlSession d (Some tr) false, m)).
Proof.
  intros a Hl Hops Ho Ht Hsep Hlit Hb He Hpk Hnr. destruct (new_database_si 0 ops (Z.le_refl 0) Hl Hops) as (s & m & E & Hrep). fold a in Hrep.
  pose proof (sr_txns _ _ _ _ _ Hrep t (proj2 (sv_open _ (sr_inv _ _ _ _ _ Hrep) _ _ Ho))) as Htr. rewrite Ho in Htr.
  destruct Htr as (tr & Et & _). assert (si_typed a) as Ha by apply si_typed_run, si_typed_new.
  destruct (st_tables a Ha _ _ Ht) as [Hn Hw]. assert (table <> []) as Hne by (rewrite <- Hn; apply (sw_name _ Hw)).
  destruct (planned_where table schema e e' Hw Hne Hb) as [Hbound Hplan].
  assert (forall v, MatchPkEquality e' pk_name = Some v -> key_ok (table, v)) as Hkey.
  { intros v Hm. apply MatchPkEquality_literal in Hm. rewrite (map_columns_literals _ _ _ Hb) in Hm. rewrite Forall_forall in Hlit. by apply Hlit. }
  destruct (PkColumnName_wf schema Hw) as (c & Ec & _ & _ & Hcn). rewrite Hpk in Ec. injection Ec as ->.
  assert (exists plan tag, PlanAccess schema (Some e') = Ret (plan, tag)) as (plan & tag & Ep).
  { unfold PlanAccess. rewrite Hpk. cbn [mbind Res_bind]. rewrite bool_decide_eq_false_2 by done. rewrite (Bind_bound _ _ Hbound). cbn [mbind Res_bind].
    destruct (MatchPkEquality e' (col_name c)); [eauto|]. destruct (match MatchPkCompare e' (col_name c) with Some _ => _ | None => _ end) as [[]|]; eauto. }
  destruct (access_selects 0 a s m t start table schema (Z.le_refl 0) Hrep Ho Hsep Ht Ha e' (col_name c) plan tag Hpk Hbound He Hnr Hkey Ep)
    as (Hok & Hnames & prs & Hsel & Hden).
  rewrite Ep in Hplan. cbn [mbind Res_bind] in Hplan.
  destruct (exec_RunSelect 0 a s m t start tr (Z.le_refl 0) Hrep Ho Et (select_where table e) schema false eq_refl Ht Hsep) as (F & cat & Hc & H).
  { intros plan'. rewrite Hplan. by intros [= <-]. }
  exists s, m, tr, F, prs, (PlanTag plan). split; [exact E|]. split; [exact Et|]. split; [done|]. intros fuel Hf. eexists.
  rewrite H, Hplan by done. cbn [mbind Res_bind]. unfold collect_answer. cbn [select_where sel_from from_base from_table]. rewrite Hden.
  cbn [mbind Res_bind stream_list st_end st_rows]. rewrite Hnames. reflexivity.
Qed.

(** [SELECT * FROM users WHERE NOT name = 'ann'] in the second transaction. *)
Definition not_ann : Expr := Not (Compare kEq (mkColumn (lit "users.name")) (Literal (VString (lit "ann")))).
Definition not_ann_bound : Expr := Not (Compare kEq (Column (lit "name") 0) (Literal (VString (lit "ann")))).

Lemma where_selects_witness :
  let a := (si_run two_rows SI_new).2 in
  exists s m tr F prs tag, exec (session two_rows) (Sys_new, ∅) = (Ret (si_run two_rows SI_new).1, (s, m)) /\ sys_txns s !! 2 = Some tr /\
    selects a 2 1 (lit "users") not_ann_bound prs /\
    forall fuel, (F <= fuel)%nat -> exists d,
      exec (RunSelect fuel (select_where (lit "users") not_ann)) (mkSqlSession (sys_db s) (Some tr) false, m) =
        (Ret (mkQueryResult (map col_name (columns_ sample_schema)) (map snd prs) 0 tag), (mkSqlSession d (Some tr) false, m)).
Proof.
  refine (where_selects two_rows 2 1 (lit "users") sample_schema not_ann not_ann_bound (lit "id") _ _ _ _ _ _ _ _ _ _).
  - reflexivity.
  - apply (bool_decide_unpack _). vm_compute. exact I.
  - reflexivity.
  - reflexivity.
  - apply (bool_decide_unpack _). vm_compute. exact I.
  - apply (bool_decide_unpack _). vm_compute. exact I.
  - reflexivity.
  - apply typed_not, (typed_compare _ _ _ _ kString).
    + apply (typed_column _ _ 0 (mkColumnDef (lit "name") kString false)); [lia|reflexivity].
    + apply (typed_literal _ (VString (lit "ann"))).
  - reflexivity.
  - reflexivity.
Defined.

(** [SELECT name FROM users WHERE id = 256 LIMIT 1] *)
Definition select_name : SelectStmt :=
  mkSelectStmt false [MakeExprSelectItem (mkColumn (lit "name"))] (mkFromClause (mkFromItem (lit "users") []) [])
    (Some (Compare kEq (mkColumn (lit "id")) (Literal (VInt64 256)))) [] None [] true 1.

Lemma select_is_relational_witness :
  let a := (si_run two_rows SI_new).2 in
  exists s m tr F ranged, exec (session two_rows) (Sys_new, ∅) = (Ret (si_run two_rows SI_new).1, (s, m)) /\ sys_txns s !! 2 = Some tr /\
    relation_of a 2 1 (lit "users") ranged /\
    forall fuel, (F <= fuel)%nat -> exists d,
      exec (RunSelect fuel select_name) (mkSqlSession (sys_db s) (Some tr) false, m) =
        (plan ← planned sample_schema select_name;
         str ← denote ranged (fun pk => si_read a 2 1 (lit "users", pk)) plan;
         rs ← stream_list str;
         names ← plan_names plan;
         Ret (mkQueryResult names rs 0 (PlanTag plan)), (mkSqlSession d (Some tr) false, m)).
Proof.
  refine (select_is_relational two_rows 2 1 select_name sample_schema _ _ _ _ _ _ _).
  - reflexivity.
  - apply (bool_decide_unpack _). vm_compute. exact I.
  - reflexivity.
  - reflexivity.
  - reflexivity.
  - apply (bool_decide_unpack _). vm_compute. exact I.
  - apply (bool_decide_unpack (Forall (fun v => key_ok (lit "users", v)) [VInt64 256])). vm_compute. exact I.
Defined.
