(* ===== verification/SqlTxn.v ===== *)
(** Statements as transactions: what a session's COMMIT, ABORT and automatic
    transactions do to the database, and INSERT, UPDATE, DELETE and SELECT outside of a
    transaction as one transaction of the abstract machine. *)
From S2P Require Import Prelude Status Slice Encoding Env Types Schema Row BindContext Expr SqlAst.
From S2P Require Import Kv Mvcc Catalog Database Txn SnapIso TxnRep TxnRefine TxnIsolation TxnScan.
From S2P Require Import Executor ExecSpec SqlSession SqlQuery.

(** * Ending a transaction *)

Definition end_call (commit : bool) : TxM unit := if commit then Transaction_Commit else Transaction_Abort.
Definition end_state (commit : bool) (t : Z) (a : SI) : SI := if commit then si_commit t a else si_abort t a.

Section Ends.
Context (N : Z) (a : SI) (d : Database) (txns : gmap Z Transaction) (m : gmap bytes bytes) (t start : Z) (tr : Transaction).
Context (N_pos : 0 <= N) (rep : sys_rep 1 (N + 1) a (mkSys d txns) m) (opened : si_open a !! t = Some start) (live : txns !! t = Some tr).

Lemma open_id : 1 <= t < si_next_txn a.
Proof. pose proof (sv_open _ (sr_inv _ _ _ _ _ rep) _ _ opened). lia. Qed.

(** An open transaction can be ended, and is finished then. *)
Lemma exec_end commit : exists d' tr' m', exec (end_call commit) ((d, tr), m) = (Ret tt, ((d', tr'), m')) /\ finished_ tr' = true /\
  sys_rep 1 N (end_state commit t a) (mkSys d' (<[t := tr']> txns)) m'.
Proof.
  assert (call_to 1 N t (RCode kOk, end_state commit t a) (end_call commit) d tr txns m) as (res & d' & tr' & m' & c & E & Hc & Hr & Hs).
  { destruct commit; cbn [end_call end_state].
    - pose proof (call_commit 1 ltac:(lia) N a d txns m t tr N_pos rep open_id live) as H. cbn [si_step] in H. by rewrite opened in H.
    - pose proof (call_abort 1 ltac:(lia) N a d txns m t tr N_pos rep open_id live) as H. cbn [si_step] in H. by rewrite opened in H. }
  injection Hr as <-. assert (res = Ret tt) as ->.
  { destruct res as [[]|e|]; [done| |done]. cbn [code_of] in Hc. case_decide; [done|]. by injection Hc. }
  exists d', tr', m'. split; [done|]. split; [|done].
  assert (1 <= t < si_next_txn (end_state commit t a)) as Ht by (destruct commit; apply open_id).
  destruct (sr_begun 1 ltac:(lia) t Hs Ht) as (tr0 & E0 & _ & Hf & _). cbn [sys_txns] in E0. rewrite lookup_insert_eq in E0. injection E0 as <-.
  apply Hf. destruct commit; cbn; apply lookup_delete_eq.
Qed.
End Ends.

Lemma exec_abort_finished d tr m : finished_ tr = true -> exec Transaction_Abort ((d, tr), m) = (Ret tt, ((d, tr), m)).
Proof. intros Hf. unfold Transaction_Abort, the_txn. kv_step. by rewrite Hf. Qed.

(** [txn_.reset()] *)
Lemma exec_reset_finished d tr b m : finished_ tr = true ->
  exec txn_reset (mkSqlSession d (Some tr) b, m) = (Ret tt, (mkSqlSession d None b, m)).
Proof. intros Hf. unfold txn_reset, set_txn. kv_step. rewrite exec_on_txn, exec_abort_finished by done. by kv_step. Qed.

Lemma exec_finish_with commit N a d txns m t start tr b : 0 <= N -> sys_rep 1 (N + 1) a (mkSys d txns) m ->
  si_open a !! t = Some start -> txns !! t = Some tr ->
  exists d' txns' m', exec (finish_with (end_call commit)) (mkSqlSession d (Some tr) b, m) = (Ret tt, (mkSqlSession d' None false, m')) /\
    sys_rep 1 N (end_state commit t a) (mkSys d' txns') m'.
Proof.
  intros HN Hs Ho Et. destruct (exec_end N a d txns m t start tr HN Hs Ho Et commit) as (d' & tr' & m' & E & Hf & Hs').
  exists d', (<[t := tr']> txns), m'. split; [|done]. unfold finish_with, fail_if_not_in_transaction, InTransaction, set_auto. kv_step.
  cbn [ss_txn]. rewrite bool_decide_eq_true_2 by done. cbn [negb]. kv_step. cbn [ss_db ss_txn]. rewrite exec_on_txn, E. cbn [fst snd]. kv_step.
  rewrite exec_reset_finished by done. by kv_step.
Qed.

(** * Automatic transactions *)

Lemma begin_rep N a d txns m : 0 <= N -> sys_rep 1 (N + 1) a (mkSys d txns) m ->
  exists tr d' m', exec Begin (d, m) = (Ret tr, (d', m')) /\
    sys_rep 1 N (si_begin a) (mkSys d' (<[si_next_txn a := tr]> txns)) m'.
Proof.
  intros HN Hs. pose proof (step_begin 1 N a d txns m HN Hs) as (s' & m' & E & Hr). cbn [sys_step si_step fst snd] in E, Hr.
  rewrite exec_bind, exec_try, exec_zoom in E. cbn [sys_db] in E. rewrite (exec_Begin d m) in E by apply (sr_ddl _ _ _ _ _ Hs).
  cbn [fst snd] in E. rewrite exec_bind, exec_modify, exec_ret in E. cbn [fst snd sys_db sys_txns txn_id_] in E.
  injection E as Eid <- <-. rewrite Eid in Hr. rewrite (exec_Begin d m) by apply (sr_ddl _ _ _ _ _ Hs).
  eexists _, _, _. split; [reflexivity|]. by rewrite Eid.
Qed.

(** The answer of a body whose scan, if it had one, is closed. *)
Definition answers {A} (rb : Res ((Status + A) * bool)) (res : Res A) : Prop :=
  match rb with
  | Ret (inr x, false) => res = Ret x
  | Ret (inl e, false) | Fail e => res = Fail e
  | _ => False
  end.

(** A statement outside of a transaction: the body runs in a new one, which commits
    when the body succeeds and aborts when it fails. *)
Lemma exec_auto_txn {A} (body : SqlM ((Status + A) * bool)) rb N a d b m tr d1 m1 res d2 txns2 tr2 m2 a2 start :
  let t := si_next_txn a in 0 <= N ->
  exec Begin (d, m) = (Ret tr, (d1, m1)) ->
  exec body (mkSqlSession d1 (Some tr) true, m1) = (rb, (mkSqlSession d2 (Some tr2) true, m2)) -> answers rb res ->
  sys_rep 1 (N + 1) a2 (mkSys d2 txns2) m2 -> txns2 !! t = Some tr2 -> si_open a2 !! t = Some start ->
  exists d' txns' m', exec (with_auto_txn body) (mkSqlSession d None b, m) = (res, (mkSqlSession d' None false, m')) /\
    sys_rep 1 N (end_state (match res with Ret _ => true | _ => false end) t a2) (mkSys d' txns') m'.
Proof.
  intros t HN Hb Hbody Hans Hs Et Ho. set (commit := match res with Ret _ => true | _ => false end).
  destruct (exec_end N a2 d2 txns2 m2 t start tr2 HN Hs Ho Et commit) as (d' & tr' & m' & E & Hf & Hs').
  exists d', (<[t := tr']> txns2), m'. split; [|done]. unfold with_auto_txn, InTransaction, set_txn, set_auto. kv_step. cbn [ss_txn].
  rewrite bool_decide_eq_false_2 by (by intros []). kv_step. rewrite exec_on_database, Hb. cbn [fst snd]. kv_step.
  cbn [ss_db ss_txn ss_auto]. kv_step. cbn [ss_db ss_txn ss_auto]. rewrite Hbody.
  destruct rb as [[[e|x] []]|e|]; try done; cbn [answers] in Hans; subst res; kv_step; cbn [ss_db ss_txn ss_auto end_call commit] in E |- *; rewrite exec_on_txn, E; cbn [fst snd]; kv_step;
    rewrite exec_reset_finished by done; by kv_step.
Qed.

(** * Several writes *)

(** Steps one after the other, until one does not succeed; [todo] may refuse an item. *)
Fixpoint si_each {A} (todo : A -> Res TOp) (l : list A) (a : SI) : Code * SI :=
  match l with
  | [] => (kOk, a)
  | x :: l =>
    match todo x with
    | Ret op =>
      match si_step op a with
      | (RCode kOk, a') => si_each todo l a'
      | (RCode c, a') => (c, a')
      | (_, a') => (kOk, a')
      end
    | Fail e => (code_ e, a)
    | Stuck => (kOk, a)
    end
  end.

(** The answer of a call whose steps ended with code [c]. *)
Definition outcome {A} (c : Code) (v : A) (res : Res A) : Prop :=
  if decide (c = kOk) then res = Ret v else exists e, res = Fail e /\ code_ e = c.

Lemma outcome_not_stuck {A} c (v : A) res : outcome c v res -> res <> Stuck.
Proof. unfold outcome. case_decide; [by intros ->|by intros (e & -> & _)]. Qed.
Lemma outcome_commit {A} c (v : A) res : outcome c v res -> match res with Ret _ => true | _ => false end = bool_decide (c = kOk).
Proof. unfold outcome. rewrite decide_bool_decide. case_bool_decide; [by intros ->|by intros (e & -> & _)]. Qed.

(** A write of transaction [t]. *)
Definition row_op (t : Z) (op : TOp) : bool := match op with TInsert t' _ _ | TUpdate t' _ _ | TDelete t' _ _ => t' =? t | _ => false end.

(** Only the pending writes of [t] differ, on rows that nobody else has written. *)
Record adds_writes (t : Z) (a a' : SI) : Prop := {
  aw_tables : si_tables a' = si_tables a;
  aw_hist : forall k, si_hist a' k = si_hist a k;
  aw_prov : forall k, si_prov a' k = si_prov a k \/
    ((si_prov a k = None \/ exists v, si_prov a k = Some (t, v)) /\ (si_prov a' k = None \/ exists v, si_prov a' k = Some (t, v)));
  aw_open : si_open a' = si_open a;
  aw_last : si_last a' = si_last a;
  aw_next : si_next_txn a' = si_next_txn a
}.

Lemma adds_writes_refl t a : adds_writes t a a.
Proof. split; try done. by left. Qed.
Lemma adds_writes_trans t a b c : adds_writes t a b -> adds_writes t b c -> adds_writes t a c.
Proof.
  intros [A1 A2 A3 A4 A5 A6] [B1 B2 B3 B4 B5 B6]. split; try congruence. intros k. destruct (A3 k) as [E|[H H']], (B3 k) as [E'|[K K']].
  - left. congruence.
  - right. by rewrite E in K.
  - right. by rewrite E'.
  - by right.
Qed.
Lemma adds_writes_set_prov t k v a : si_prov a k = None \/ (exists w, si_prov a k = Some (t, w)) -> adds_writes t a (set_prov k (Some (t, v)) a).
Proof.
  intros H. split; try done. intros k'. cbn. unfold fupd. case_decide as E; [|by left]. right. rewrite E. split; [done|]. right. by eexists.
Qed.
Lemma adds_writes_write t start k w v a : adds_writes t a (si_write t start k w v a).2.
Proof.
  unfold si_write. repeat case_match; cbn [snd]; try apply adds_writes_refl; apply adds_writes_set_prov; try (by left); right;
    match goal with H : (_ =? t) = true |- _ => apply Z.eqb_eq in H as -> end; by eexists.
Qed.

Lemma row_op_adds t op a : row_op t op = true -> adds_writes t a (si_step op a).2.
Proof.
  assert (forall table row w, adds_writes t a (si_row_write t table row w a).2) as Hw.
  { intros table row w. unfold si_row_write. destruct (si_tables a !! table) as [schema|]; [|apply adds_writes_refl].
    destruct (PrimaryKey row schema) as [pk|e|]; try apply adds_writes_refl. destruct (si_open a !! t) as [start|]; [|apply adds_writes_refl].
    pose proof (adds_writes_write t start (table, pk) w (Some row) a) as H. by destruct (si_write _ _ _ _ _ _). }
  destruct op as [schema| |t' table row|t' table row|t' table pk|t' table pk|t'|t']; cbn [row_op]; try done; intros ->%Z.eqb_eq; cbn [si_step]; [done|done|].
  destruct (si_tables a !! table) as [schema|]; [|apply adds_writes_refl]. destruct (si_open a !! t) as [start|]; [|apply adds_writes_refl].
  pose proof (adds_writes_write t start (table, pk) WDelete None a) as H. by destruct (si_write _ _ _ _ _ _).
Qed.

Lemma si_each_adds {A} t (todo : A -> Res TOp) l : (forall x op, x ∈ l -> todo x = Ret op -> row_op t op = true) ->
  forall a, adds_writes t a (si_each todo l a).2.
Proof.
  induction l as [|x l IH]; intros Hrow a; cbn [si_each]; [apply adds_writes_refl|].
  destruct (todo x) as [op|e|] eqn:E; [|apply adds_writes_refl..]. pose proof (row_op_adds t op a (Hrow x op (list_elem_of_here _ _) E)) as H.
  destruct (si_step op a) as [r a']. cbn [snd] in H. destruct r as [c|i|row]; [destruct c|..]; cbn [snd]; try done.
  eapply adds_writes_trans; [exact H|]. apply IH. intros y op' Hy. apply Hrow. by right.
Qed.

(** The same tables, rows and open transactions; a transaction id may have been used. *)
Record same_data (a a' : SI) : Prop := {
  sd_tables : si_tables a' = si_tables a;
  sd_hist : forall k, si_hist a' k = si_hist a k;
  sd_prov : forall k, si_prov a' k = si_prov a k;
  sd_open : si_open a' = si_open a;
  sd_last : si_last a' = si_last a
}.

Lemma fresh_prov a : si_inv a -> forall k v, si_prov a k <> Some (si_next_txn a, v).
Proof. intros Hi k v E. destruct (sv_prov _ Hi _ _ _ E) as (start & Ho & _). destruct (sv_open _ Hi _ _ Ho). lia. Qed.

Lemma abort_undoes a a' : si_inv a -> adds_writes (si_next_txn a) (si_begin a) a' -> same_data a (si_abort (si_next_txn a) a').
Proof.
  intros Hi [A1 A2 A3 A4 A5 A6]. pose proof (fresh_prov a Hi) as Hf. cbn [si_begin si_tables si_hist si_prov si_open si_last] in *.
  split; cbn [si_abort si_tables si_hist si_prov si_open si_last]; try done.
  - intros k. destruct (A3 k) as [->|[[H|[v H]] H']]; [|rewrite H|by destruct (Hf k v)].
    + destruct (si_prov a k) as [[t' v]|] eqn:E; [|done]. destruct (Z.eqb_spec t' (si_next_txn a)) as [->|]; [|done]. by destruct (Hf k v).
    + destruct H' as [->|[v ->]]; [done|]. by rewrite Z.eqb_refl.
  - rewrite A4. cbn. apply delete_insert_id. destruct (si_open a !! si_next_txn a) as [start|] eqn:E; [|done].
    destruct (sv_open _ Hi _ _ E). lia.
Qed.

(** The call on an item is the step [todo] names, or fails without effect. *)
Definition does {A} (t : Z) (todo : A -> Res TOp) (body : A -> TxM unit) (x : A) : Prop :=
  match todo x with
  | Ret op => row_op t op = true /\ forall N a d txns m tr, 0 <= N -> sys_rep 1 (N + 1) a (mkSys d txns) m -> 1 <= t < si_next_txn a ->
      txns !! t = Some tr -> call_to 1 N t (si_step op a) (body x) d tr txns m
  | Fail e => code_ e <> kOk /\ forall sm, exec (body x) sm = (Fail e, sm)
  | Stuck => False
  end.

Lemma exec_affect {A} t (todo : A -> Res TOp) (body : A -> TxM unit) N l : 0 <= N -> Forall (does t todo body) l ->
  forall n a d txns m tr, 0 <= n -> n + Z.of_nat (length l) < 2 ^ 64 -> sys_rep 1 (N + Z.of_nat (length l)) a (mkSys d txns) m ->
  1 <= t < si_next_txn a -> txns !! t = Some tr ->
  exists res d' tr' m', exec (affect l body n) ((d, tr), m) = (res, ((d', tr'), m')) /\
    outcome (si_each todo l a).1 (n + Z.of_nat (length l)) res /\
    sys_rep 1 N (si_each todo l a).2 (mkSys d' (<[t := tr']> txns)) m' /\ si_open (si_each todo l a).2 = si_open a.
Proof.
  intros HN. induction 1 as [|x l Hx Hl IH]; intros n a d txns m tr Hn Hlt Hs Ht Et; cbn [affect si_each].
  - rewrite exec_ret. eexists _, _, _, _. split; [reflexivity|]. split; [unfold outcome; cbn; f_equal; lia|]. rewrite insert_id by done.
    split; [|done]. eapply sys_rep_less; [|exact Hs]. cbn [length]. lia.
  - cbn [length] in *. unfold does in Hx. destruct (todo x) as [op|e|]; [| |done].
    2: { destruct Hx as [He Hx]. kv_step. rewrite Hx. eexists _, _, _, _. split; [reflexivity|].
         split; [unfold outcome; cbn [fst]; case_decide; [done|by exists e]|]. rewrite insert_id by done. split; [|done]. eapply sys_rep_less; [|exact Hs]. lia. }
    destruct Hx as [Hrow Hx]. destruct (Hx (N + Z.of_nat (length l)) a d txns m tr) as (res & d' & tr' & m' & c & E & Hc & Hr & Hs'); [lia| |done..|].
    { eapply sys_rep_less; [|exact Hs]. lia. }
    destruct (row_op_adds t op a Hrow) as [_ _ _ Ho _ Hnx]. kv_step. rewrite E. destruct (si_step op a) as [r a'] eqn:Es. cbn [fst snd] in *. subst r.
    destruct res as [[]|e|]; cbn [code_of] in Hc; [injection Hc as <-| |done].
    + destruct (IH (u64 (n + 1)) a' d' (<[t := tr']> txns) m' tr') as (res & d2 & tr2 & m2 & E2 & Hout & Hs2 & Ho2).
      { unfold u64. rewrite Z.mod_small; lia. }
      { unfold u64. rewrite Z.mod_small; lia. }
      { done. }
      { by rewrite Hnx. }
      { apply lookup_insert_eq. }
      rewrite E2. eexists _, _, _, _. split; [reflexivity|]. unfold u64 in Hout. rewrite Z.mod_small in Hout by lia.
      replace (n + Z.of_nat (S (length l))) with (n + 1 + Z.of_nat (length l)) by lia. rewrite insert_insert_eq in Hs2. by rewrite Ho2.
    + case_decide as Hk; [done|]. injection Hc as <-. eexists _, _, _, _. split; [reflexivity|].
      assert (match code_ e with kOk => si_each todo l a' | _ => (code_ e, a') end = (code_ e, a')) as -> by (by destruct (code_ e)).
      split; [unfold outcome; cbn [fst]; case_decide; [done|by exists e]|]. cbn [snd]. split; [|done]. eapply sys_rep_less; [|exact Hs']. lia.
Qed.

Lemma does_insert t table row : row_fits table row -> does t (fun row => Ret (TInsert t table row)) (Transaction_Insert table) row.
Proof. intros Hr. split; [apply Z.eqb_refl|]. intros N a d txns m tr HN Hs Ht Et. eapply call_row_write; try done. by left. Qed.

Lemma does_delete t table pk : key_ok (table, pk) -> does t (fun pk => Ret (TDelete t table pk)) (Transaction_Delete table) pk.
Proof. intros Hk. split; [apply Z.eqb_refl|]. intros N a d txns m tr HN Hs Ht Et. by apply call_delete. Qed.

(** The step UPDATE makes of a row. *)
Definition update_step (t : Z) (schema : TableSchema) (assignments : list Assignment) (old_row : Row) : Res TOp :=
  new_row ← update_row schema assignments old_row; Ret (TUpdate t (name_ schema) new_row).

Lemma assign_code schema assignments old_row : Forall (fun a => 0 <= asg_column_index a < Z.of_nat (length old_row)) assignments ->
  forall new_row, length new_row = length old_row -> only_fails kInvalidArgument (assign assignments old_row new_row schema).
Proof.
  induction 1 as [|a as_ Ha _ IH]; intros new_row Hl; cbn [assign]; [done|]. apply only_fails_bind; [apply Eval_code|]. intros v _.
  destruct (lookup_lt_is_Some_2 new_row (Z.to_nat (asg_column_index a))) as [x Ex]; [lia|]. rewrite Ex. cbn [deref mbind Res_bind].
  apply IH. by rewrite length_insert.
Qed.

Lemma PrimaryKey_code r s : only_fails kInvalidArgument (PrimaryKey r s).
Proof. by destruct (PrimaryKey_cases r s) as [(pk & -> & _)|(e & _ & He & ->)]. Qed.

Lemma update_row_code schema assignments old_row : Forall (fun a => 0 <= asg_column_index a < Z.of_nat (length old_row)) assignments ->
  only_fails kInvalidArgument (update_row schema assignments old_row).
Proof.
  intros Ha. unfold update_row. apply only_fails_bind; [by apply assign_code|]. intros r _.
  apply only_fails_bind; [apply PrimaryKey_code|]. intros p _. apply only_fails_bind; [apply PrimaryKey_code|]. intros q _. by destruct (negb _).
Qed.

Lemma does_update t schema assignments old_row : Forall (fun a => 0 <= asg_column_index a < Z.of_nat (length old_row)) assignments ->
  (forall new_row, update_row schema assignments old_row = Ret new_row -> row_fits (name_ schema) new_row) ->
  does t (update_step t schema assignments)
    (fun old_row => new_row ← klift (update_row schema assignments old_row); Transaction_Update (name_ schema) new_row) old_row.
Proof.
  intros Ha Hfit. pose proof (update_row_code schema assignments old_row Ha) as Hc. unfold does, update_step.
  destruct (update_row schema assignments old_row) as [new_row|e|] eqn:E; cbn [mbind Res_bind] in *; [| |done].
  - split; [apply Z.eqb_refl|]. intros N a d txns m tr HN Hs Ht Et.
    assert (call_to 1 N t (si_step (TUpdate t (name_ schema) new_row) a) (Transaction_Update (name_ schema) new_row) d tr txns m) as H.
    { eapply call_row_write; try done; [by apply Hfit|by right]. }
    unfold call_to in *. by kv_step.
  - cbn in Hc. rewrite Hc. split; [done|]. intros sm. by kv_step.
Qed.

(** * How many rows there are *)

(** The row a step may write, and the rows a run may write. *)
Definition step_key (op : TOp) (a : SI) : option Key :=
  match op with
  | TInsert _ table row | TUpdate _ table row =>
    match si_tables a !! table with
    | Some schema => match PrimaryKey row schema with Ret pk => Some (table, pk) | _ => None end
    | None => None
    end
  | TDelete _ table pk => Some (table, pk)
  | _ => None
  end.
Fixpoint touched (ops : list TOp) (a : SI) : list Key :=
  match ops with
  | [] => []
  | op :: ops => match step_key op a with Some k => [k] | None => [] end ++ touched ops (si_step op a).2
  end.

Lemma touched_length ops : forall a, (length (touched ops a) <= length ops)%nat.
Proof.
  induction ops as [|op ops IH]; intros a; cbn [touched length]; [done|]. rewrite length_app. specialize (IH (si_step op a).2).
  destruct (step_key op a); cbn [length]; lia.
Qed.

Lemma written_step op a k row : written (si_step op a).2 k row -> written a k row \/ step_key op a = Some k.
Proof.
  assert (forall t table r w, written (si_row_write t table r w a).2 k row -> written a k row \/ step_key (TInsert t table r) a = Some k) as Hw.
  { intros t table r w. unfold si_row_write. cbn [step_key]. destruct (si_tables a !! table) as [schema|]; [|by left].
    destruct (PrimaryKey r schema) as [pk|e|]; [|by left..]. destruct (si_open a !! t) as [start|]; [|by left].
    pose proof (written_write t start (table, pk) w (Some r) a k row) as H. destruct (si_write _ _ _ _ _ _). intros Hr.
    destruct (H Hr) as [?|[-> _]]; [by left|by right]. }
  destruct op as [schema| |t table r|t table r|t table pk|t table pk|t|t]; cbn [si_step].
  - unfold si_create. left. by repeat case_match.
  - by left.
  - apply Hw.
  - apply Hw.
  - cbn [step_key]. destruct (si_tables a !! table); [|by left]. destruct (si_open a !! t) as [start|]; [|by left].
    pose proof (written_write t start (table, pk) WDelete None a k row) as H. destruct (si_write _ _ _ _ _ _). intros Hr.
    destruct (H Hr) as [?|[-> _]]; [by left|by right].
  - left. by repeat case_match.
  - left. destruct (si_open a !! t); [|done]. by eapply written_commit.
  - left. destruct (si_open a !! t); [|done]. by eapply written_abort.
Qed.

Lemma written_run ops k row : forall a, written (si_run ops a).2 k row -> written a k row \/ k ∈ touched ops a.
Proof.
  induction ops as [|op ops IH]; intros a; [by left|]. cbn [si_run touched]. pose proof (written_step op a k row) as H.
  destruct (si_step op a) as [r a']. specialize (IH a'). destruct (si_run ops a') as [rs a'']. cbn [snd] in *. intros Hr. rewrite elem_of_app.
  destruct (IH Hr) as [H'|H']; [|by right; right]. destruct (H H') as [H''| ->]; [by left|right; left; by left].
Qed.

Lemma read_touched ops t start k row : si_read (si_begin (si_run ops SI_new).2) t start k = Some row -> k ∈ touched ops SI_new.
Proof.
  intros Hr%si_read_written. destruct (written_run ops k row SI_new) as [Hw|Hw]; [|destruct Hw as [[ts Hw]|[t' Hw]]; [by apply elem_of_nil in Hw|done]|done].
  destruct Hr as [Hr|Hr]; [by left|by right].
Qed.

(** No more rows than steps. *)
Lemma selects_length ops t start table e prs : selects (si_begin (si_run ops SI_new).2) t start table e prs -> (length prs <= length ops)%nat.
Proof.
  intros [Hs Hin]. rewrite <- (length_fmap (fun x : Value * Row => (table, x.1)) prs).
  etrans; [|apply (touched_length ops SI_new)]. apply submseteq_length, NoDup_submseteq.
  - clear Hin. induction Hs as [|[pk row] prs Hs IH Hx]; [constructor|]. cbn. constructor; [|done]. intros ([pk' row'] & [= ->] & Hy)%list_elem_of_fmap.
    rewrite Forall_forall in Hx. specialize (Hx _ Hy). unfold pk_order in Hx. cbn in Hx. by rewrite lex_refl in Hx.
  - intros k ([pk row] & -> & Hx)%list_elem_of_fmap. apply Hin in Hx as (_ & Hr & _). by eapply read_touched.
Qed.

(** * The rows of a WHERE clause *)

Lemma Bind_binds schema e e' : Bind schema e = Ret e' -> bound_to schema e'.
Proof.
  apply map_columns_on. intros n i n' i' H. cbn in H. destruct (Z.ltb_spec (ColumnIndex schema n) 0); [done|]. by injection H as <- <-.
Qed.

(** The planner looks at names and literals only, which binding keeps. *)
Lemma pick_pk_Bind schema n l r l' r' : Bind schema l = Ret l' -> Bind schema r = Ret r' -> pick_pk n l r = pick_pk n l' r'.
Proof.
  unfold Bind. intros Hl Hr. destruct l as [v|c i|op x y|x y|x y|x]; cbn [map_columns] in Hl.
  2: { apply Res_bind_Ret in Hl as ([c' i'] & Hc & [= <-]). destruct (_ <? 0); [done|]. injection Hc as <- <-.
       destruct r as [v|d j|op x y|x y|x y|x]; cbn [map_columns] in Hr; [by injection Hr as <-|..];
         repeat (apply Res_bind_Ret in Hr as (? & _ & Hr)); try destruct x; by injection Hr as <-. }
  all: repeat (apply Res_bind_Ret in Hl as (? & _ & Hl)); by injection Hl as <-.
Qed.

Lemma PlanAccess_Bind schema e e' : Bind schema e = Ret e' -> PlanAccess schema (Some e) = PlanAccess schema (Some e').
Proof.
  intros H. pose proof (Bind_bound schema e' (Bind_binds _ _ _ H)) as H'. unfold PlanAccess. rewrite H, H'.
  destruct (PkColumnName schema) as [n|s|]; cbn [mbind Res_bind]; [|done..].
  destruct e as [v|c i|op l r|l r|l r|c].
  3: { unfold Bind in H. cbn [map_columns] in H. apply Res_bind_Ret in H as (l' & Hl & H). apply Res_bind_Ret in H as (r' & Hr & [= <-]).
       unfold MatchPkEquality, MatchPkCompare. by rewrite (pick_pk_Bind schema n l r l' r'), (pick_pk_Bind schema n r l r' l'). }
  all: unfold Bind in H; cbn [map_columns] in H; repeat (apply Res_bind_Ret in H as (? & _ & H)); try (destruct x; cbn in H); by injection H as <-.
Qed.

(** The bound condition: every row without a WHERE clause. *)
Definition bound_condition (schema : TableSchema) (where_ : option Expr) (e' : Expr) : Prop :=
  match where_ with None => e' = Literal (VBool true) | Some e => Bind schema e = Ret e' end.

Section Source.
Context (N : Z) (a : SI) (s : Sys) (m : gmap bytes bytes) (t start : Z) (table : bytes) (schema : TableSchema) (tr : Transaction).
Context (N_pos : 0 <= N) (rep : sys_rep 1 N a s m) (opened : si_open a !! t = Some start) (live : sys_txns s !! t = Some tr).
Context (sep : separate (si_tables a) table) (known : si_tables a !! table = Some schema) (Htyped : si_typed a).
Context (where_ : option Expr) (e' : Expr) (pk_name : bytes).
Context (bound : bound_condition schema where_ e') (Hcond : typed (columns_ schema) e' kBool).
Context (Hpk : PkColumnName schema = Ret pk_name) (no_range : range_condition pk_name e' = false).
Context (Hlit : Forall (fun v => key_ok (table, v)) (literals e')).

Lemma source_selects : exists plan tag prs, PlanAccess schema where_ = Ret (plan, tag) /\ selects a t start table e' prs /\
  plan_ok table plan /\ denote (range_rows a m t start table) (point_row a t start table) plan = Ret (mkStream (map snd prs) None).
Proof.
  destruct (table_schema a table schema known Htyped) as [Hn Hw]. destruct (PkColumnName_wf schema Hw) as (c & Ec & _ & _ & Hne).
  rewrite Hpk in Ec. injection Ec as ->. destruct where_ as [e|]; cbn [bound_condition] in bound.
  - pose proof (Bind_binds _ _ _ bound) as Hb. rewrite (PlanAccess_Bind _ _ _ bound).
    assert (exists plan tag, PlanAccess schema (Some e') = Ret (plan, tag)) as (plan & tag & Ep).
    { unfold PlanAccess. rewrite Hpk. cbn [mbind Res_bind]. rewrite bool_decide_eq_false_2 by done. rewrite (Bind_bound _ _ Hb). cbn [mbind Res_bind].
      destruct (MatchPkEquality e' (col_name c)); [eauto|]. destruct (match MatchPkCompare e' (col_name c) with Some _ => _ | None => _ end) as [[]|]; eauto. }
    destruct (access_selects N a s m t start table schema N_pos rep opened sep known Htyped e' (col_name c) plan tag Hpk Hb Hcond no_range)
      as (Hok & _ & prs & Hsel & Hden); [|done|by exists plan, tag, prs].
    intros v Hv. apply MatchPkEquality_literal in Hv. rewrite Forall_forall in Hlit. by apply Hlit.
  - subst e'. unfold PlanAccess. rewrite Hpk. cbn [mbind Res_bind]. rewrite bool_decide_eq_false_2 by done.
    destruct (scan_result_spec N a s m t start table None None N_pos rep opened sep) as [Hs Hin].
    exists (mkSeqScan schema), (lit "SeqScan"), (scan_result a m t start table None None). split; [done|]. split; [|by split].
    split; [done|]. intros pk row. rewrite Hin. unfold in_range. cbn [sem]. naive_solver.
Qed.

(** Opening the source and reading it to the end. *)
Lemma exec_source {A} (f : A -> Row -> Res A) acc : exists plan tag prs F c ex', PlanAccess schema where_ = Ret (plan, tag) /\
  selects a t start table e' prs /\ tables_rep (si_tables a) c m /\
  forall fuel, (F <= fuel)%nat -> exec (open_plan fuel plan) ((sys_db s, tr), m) = (Ret ex', ((with_catalog c (sys_db s), tr), m)) /\
    exec (drain_rows f fuel acc ex') ((with_catalog c (sys_db s), tr), m) =
      (fold_rows f acc (map snd prs) None, ((with_catalog c (sys_db s), tr), m)).
Proof.
  destruct source_selects as (plan & tag & prs & Ep & Hsel & Hok & Hden).
  destruct (opens_plan N a s m t start table tr N_pos rep opened sep ltac:(by rewrite known) live plan Hok) as (F & c & Hc & H).
  rewrite Hden in H. destruct H as (ex' & Ho & Hy & _). exists plan, tag, prs, (S (F + length (map snd prs))), c, ex'.
  split; [done|]. split; [done|]. split; [done|]. intros fuel Hf. split; [apply Ho; lia|].
  by apply (drains s m tr f acc F c (mkStream (map snd prs) None) ex' Hy).
Qed.
End Source.

(** * INSERT, UPDATE and DELETE outside of a transaction *)

(** What a statement leaves that makes the steps [todo] of the items [l] in its own
    transaction: all of them and a commit, or, if one fails, the database as it was. *)
Definition ran_atomically {A} (N : Z) (a : SI) (todo : A -> Res TOp) (l : list A) (tag : bytes)
    (res : Res QueryResult) (s' : Sys) (m' : gmap bytes bytes) : Prop :=
  let ca := si_each todo l (si_begin a) in
  if decide (ca.1 = kOk)
  then res = Ret (mkQueryResult [] [] (Z.of_nat (length l)) tag) /\ sys_rep 1 N (si_commit (si_next_txn a) ca.2) s' m'
  else (exists e, res = Fail e /\ code_ e = ca.1) /\ exists a', same_data a a' /\ sys_rep 1 N a' s' m'.

Lemma outcome_bind {A B} c (v : A) (f : A -> B) res : outcome c v res -> outcome c (f v) (x ← res; Ret (f x)).
Proof. unfold outcome. case_decide; [by intros ->|by intros (e & -> & He); exists e]. Qed.

(** The statement's transaction, from the writes of its body. *)
Lemma exec_auto_affect {A} (body : SqlM ((Status + QueryResult) * bool)) (calls : A -> TxM unit) (todo : A -> Res TOp) (l : list A)
    N a d txns b m tr d1 m1 d2 m2 tag :
  let t := si_next_txn a in 0 <= N -> sys_rep 1 (N + 2 + Z.of_nat (length l)) a (mkSys d txns) m ->
  exec Begin (d, m) = (Ret tr, (d1, m1)) -> sys_rep 1 (N + 1 + Z.of_nat (length l)) (si_begin a) (mkSys d2 (<[t := tr]> txns)) m2 ->
  (forall n d3 tr3 m3, exec (affect l calls 0) ((d2, tr), m2) = (n, ((d3, tr3), m3)) -> n <> Stuck ->
    exists rb, exec body (mkSqlSession d1 (Some tr) true, m1) = (rb, (mkSqlSession d3 (Some tr3) true, m3)) /\
      answers rb (n ← n; Ret (mkQueryResult [] [] n tag))) ->
  Forall (does t todo calls) l ->
  exists res s' m', exec (with_auto_txn body) (mkSqlSession d None b, m) = (res, (mkSqlSession (sys_db s') None false, m')) /\
    ran_atomically N a todo l tag res s' m'.
Proof.
  intros t HN Hs Hb Hs2 Hbody Hl. pose proof (sv_next _ (sr_inv _ _ _ _ _ Hs)) as Hnx. pose proof (sr_room _ _ _ _ _ Hs) as (Hroom & _).
  destruct (exec_affect t todo calls (N + 1) l ltac:(lia) Hl 0 (si_begin a) d2 (<[t := tr]> txns) m2 tr) as (n & d3 & tr3 & m3 & E & Ho & Hs3 & Hop);
    [lia|lia|done|cbn; lia|apply lookup_insert_eq|]. rewrite Z.add_0_l in Ho.
  destruct (Hbody n d3 tr3 m3 E (outcome_not_stuck _ _ _ Ho)) as (rb & E' & Ha).
  apply (outcome_bind _ _ (fun n => mkQueryResult [] [] n tag)) in Ho. revert Ho Ha. set (res := n ← n; Ret (mkQueryResult [] [] n tag)). intros Ho Ha.
  destruct (exec_auto_txn body rb N a d b m tr d1 m1 res d3 (<[t := tr3]> (<[t := tr]> txns)) tr3 m3 (si_each todo l (si_begin a)).2 (si_last a)) as
    (d' & txns' & m' & Ex & Hs'); [done|done|done|done|done|apply lookup_insert_eq| |].
  { rewrite Hop. cbn. apply lookup_insert_eq. }
  exists res, (mkSys d' txns'), m'. split; [done|]. unfold ran_atomically. rewrite (outcome_commit _ _ _ Ho) in Hs'.
  unfold outcome in Ho. destruct (decide ((si_each todo l (si_begin a)).1 = kOk)) as [Ek|Ek].
  - rewrite bool_decide_eq_true_2 in Hs' by done. done.
  - rewrite bool_decide_eq_false_2 in Hs' by done. split; [done|]. eexists. split; [|exact Hs'].
    apply abort_undoes; [apply (sr_inv _ _ _ _ _ Hs)|]. apply si_each_adds. intros x op Hx Ex'. rewrite Forall_forall in Hl. specialize (Hl x Hx).
    unfold does in Hl. rewrite Ex' in Hl. apply Hl.
Qed.

(** The writes of an UPDATE or a DELETE, whose source is gone by then. *)
Lemma exec_affect_tagged {A} (l : list A) (calls : A -> TxM unit) tag d2 tr m2 n d3 tr3 m3 b :
  exec (affect l calls 0) ((d2, tr), m2) = (n, ((d3, tr3), m3)) -> n <> Stuck ->
  exists rb, (let '(r, dtm) := exec (st ← ktry (affect l calls 0);
      mret (match st with inl e => inl e | inr n => inr (mkQueryResult [] [] n tag) end : Status + QueryResult, false)) ((d2, tr), m2) in
    (r, (mkSqlSession dtm.1.1 (Some dtm.1.2) b, dtm.2))) = (rb, (mkSqlSession d3 (Some tr3) b, m3)) /\
    answers rb (n ← n; Ret (mkQueryResult [] [] n tag)).
Proof. intros E Hn. kv_step. rewrite E. destruct n as [n|e|]; [| |done]; kv_step; by eexists. Qed.

Lemma exec_LookupTable a d txns m table schema tr b N : sys_rep 1 N a (mkSys d txns) m -> si_tables a !! table = Some schema ->
  exists c, exec (LookupTable table) (mkSqlSession d tr b, m) = (Ret schema, (mkSqlSession (with_catalog c d) tr b, m)) /\
    sys_rep 1 N a (mkSys (with_catalog c d) txns) m.
Proof.
  intros Hs Ht. destruct (exec_GetTable _ d m table (sr_tables _ _ _ _ _ Hs)) as (res & c & E & Hc & Ha). unfold table_answer in Ha. rewrite Ht in Ha. subst res.
  exists c. split; [|by apply (sys_rep_catalog _ _ _ _ _ _ Hs Hc)]. unfold LookupTable. by rewrite exec_on_database, E.
Qed.

Lemma si_typed_begin a : si_typed a -> si_typed (si_begin a).
Proof. intros H. by apply (si_typed_keep a). Qed.

Section Statements.
Context (N L : Z) (a : SI) (s : Sys) (m : gmap bytes bytes) (table : bytes) (schema : TableSchema) (b : bool).
Context (N_pos : 0 <= N) (L_pos : 0 <= L) (rep : sys_rep 1 (N + 2 + L) a s m).
Context (known : si_tables a !! table = Some schema) (Htyped : si_typed a).
Local Abbreviation t := (si_next_txn a).
Local Abbreviation at_begin := (mkSqlSession (sys_db s) None b).

Lemma exec_RunInsert names values row : insert_row schema names values = Ret row -> row_fits table row -> 1 <= L ->
  exists res s' m', exec (RunInsert table names values) (at_begin, m) = (res, (mkSqlSession (sys_db s') None false, m')) /\
    ran_atomically N a (fun row => Ret (TInsert t table row)) [row] (lit "Insert") res s' m'.
Proof.
  intros Hrow Hfit HL. destruct s as [d txns]. destruct (st_tables a Htyped _ _ known) as [Hn _].
  destruct (exec_LookupTable a d txns m table schema None b _ rep known) as (c & E & Hs).
  destruct (begin_rep (N + 1 + 1) a (with_catalog c d) txns m) as (tr & d1 & m1 & Eb & Hb); [lia|eapply sys_rep_less; [|exact Hs]; lia|].
  destruct (exec_auto_affect (result ← on_txn (InsertOp_Execute (name_ schema) [row]); mret (inr result, false)) (Transaction_Insert table)
    (fun row => Ret (TInsert t table row)) [row] N a (with_catalog c d) txns b m tr d1 m1 d1 m1 (lit "Insert")) as (res & s' & m' & Ex & H);
    [done|eapply sys_rep_less; [|exact Hs]; cbn [length]; lia|done|done| |by repeat constructor; apply does_insert|].
  { intros n d3 tr3 m3 Ea Hst. kv_step. rewrite exec_on_txn. unfold InsertOp_Execute. rewrite Hn, exec_bind, Ea.
    destruct n as [n|e|]; [| |done]; kv_step; by eexists. }
  exists res, s', m'. split; [|done]. unfold RunInsert. cbn [sys_db]. kv_step. rewrite E. kv_step. by rewrite Hrow.
Qed.

Context (where_ : option Expr) (e' : Expr) (pk_name : bytes).
Context (sep : separate (si_tables a) table) (bound : bound_condition schema where_ e') (Hcond : typed (columns_ schema) e' kBool).
Context (Hpk : PkColumnName schema = Ret pk_name) (no_range : range_condition pk_name e' = false).
Context (Hlit : Forall (fun v => key_ok (table, v)) (literals e')).
Context (few : forall prs, selects (si_begin a) t (si_last a) table e' prs -> Z.of_nat (length prs) <= L).

(** The state after BEGIN and the source of a statement there. *)
Lemma exec_begin_source {A} (f : A -> Row -> Res A) acc : exists c tr d1 m1 plan tag prs F c1 ex',
  exec (LookupTable table) (at_begin, m) = (Ret schema, (mkSqlSession (with_catalog c (sys_db s)) None b, m)) /\
  sys_rep 1 (N + 2 + L) a (mkSys (with_catalog c (sys_db s)) (sys_txns s)) m /\
  exec Begin (with_catalog c (sys_db s), m) = (Ret tr, (d1, m1)) /\
  PlanAccess schema where_ = Ret (plan, tag) /\ selects (si_begin a) t (si_last a) table e' prs /\
  sys_rep 1 (N + 1 + L) (si_begin a) (mkSys (with_catalog c1 d1) (<[t := tr]> (sys_txns s))) m1 /\
  forall fuel, (F <= fuel)%nat -> exec (open_plan fuel plan) ((d1, tr), m1) = (Ret ex', ((with_catalog c1 d1, tr), m1)) /\
    exec (drain_rows f fuel acc ex') ((with_catalog c1 d1, tr), m1) = (fold_rows f acc (map snd prs) None, ((with_catalog c1 d1, tr), m1)).
Proof.
  destruct s as [d txns]. cbn [sys_db sys_txns]. destruct (exec_LookupTable a d txns m table schema None b _ rep known) as (c & E & Hs).
  destruct (begin_rep (N + 1 + L) a (with_catalog c d) txns m) as (tr & d1 & m1 & Eb & Hb); [lia|eapply sys_rep_less; [|exact Hs]; lia|].
  destruct (exec_source (N + 1 + L) (si_begin a) (mkSys d1 (<[t := tr]> txns)) m1 t (si_last a) table schema tr ltac:(lia) Hb (lookup_insert_eq _ _ _)
    (lookup_insert_eq _ _ _) sep known (si_typed_begin a Htyped) where_ e' pk_name bound Hcond Hpk no_range Hlit f acc)
    as (plan & tag & prs & F & c1 & ex' & Ep & Hsel & Hc1 & H).
  exists c, tr, d1, m1, plan, tag, prs, F, c1, ex'. do 5 (split; [done|]). split; [|done]. by apply (sys_rep_catalog _ _ _ _ _ _ Hb Hc1).
Qed.

(** The keys of the selected rows. *)
Lemma selected_keys t0 start prs : selects (si_begin a) t0 start table e' prs -> fold_rows (push_pk schema) [] (map snd prs) None = Ret (map fst prs).
Proof.
  intros [_ Hin]. assert (Forall (fun x : Value * Row => PrimaryKey x.2 schema = Ret x.1) prs) as H.
  { apply Forall_forall. intros [pk row] Hx. apply Hin in Hx as (_ & Hr & _). apply si_read_written in Hr.
    destruct (st_written _ (si_typed_begin a Htyped) _ _ Hr) as (s' & Es & Hp). cbn in Es. rewrite known in Es. by injection Es as <-. }
  clear Hin. change (map fst prs) with ([] ++ map fst prs). generalize (@nil Value). induction H as [|[pk row] prs Hx _ IH]; intros acc; cbn [map fold_rows].
  - by rewrite app_nil_r.
  - cbn [fst snd] in Hx |- *. assert (push_pk schema acc row = Ret (acc ++ [pk])) as -> by (unfold push_pk; by rewrite Hx).
    cbn [mbind Res_bind]. rewrite IH. by rewrite <- app_assoc.
Qed.

Lemma exec_RunDelete : exists F prs tag, selects (si_begin a) t (si_last a) table e' prs /\ forall fuel, (F <= fuel)%nat ->
  exists res s' m', exec (RunDelete fuel table where_) (at_begin, m) = (res, (mkSqlSession (sys_db s') None false, m')) /\
    ran_atomically N a (fun pk => Ret (TDelete t table pk)) (map fst prs) tag res s' m'.
Proof.
  destruct (exec_begin_source (push_pk schema) []) as (c & tr & d1 & m1 & plan & tag & prs & F & c1 & ex' & E & Hs & Eb & Ep & Hsel & Hs1 & H).
  exists F, prs, (lit "Delete<-" ++ PlanTag plan). split; [done|]. intros fuel Hf. destruct (H fuel Hf) as [Ho Hd]. clear H.
  rewrite (selected_keys _ _ _ Hsel) in Hd. destruct (st_tables a Htyped _ _ known) as [Hn _]. pose proof (few prs Hsel) as Hfew.
  destruct (exec_auto_affect ('(source, _) ← klift (PlanAccess schema where_); on_txn (DeleteOp_Execute fuel schema source))
    (Transaction_Delete table)
    (fun pk => Ret (TDelete t table pk)) (map fst prs) N a (with_catalog c (sys_db s)) (sys_txns s) b m tr d1 m1 (with_catalog c1 d1) m1
    (lit "Delete<-" ++ PlanTag plan)) as (res & s' & m' & Ex & Hr); rewrite ?length_fmap.
  - done.
  - eapply sys_rep_less; [|exact Hs]. lia.
  - done.
  - eapply sys_rep_less; [|exact Hs1]. lia.
  - intros n d3 tr3 m3 Ea Hst. kv_step. rewrite Ep, exec_on_txn. unfold DeleteOp_Execute. rewrite exec_bind, (open_plan_Ret _ _ _ _ _ Ho).
    destruct (drain_rows_Ret _ _ _ _ _ _ _ Hd) as (ex2 & Hd'). rewrite exec_bind, Hd', Hn. by apply exec_affect_tagged.
  - apply Forall_forall. intros pk ([pk' row] & -> & Hx)%list_elem_of_fmap. apply does_delete. by apply (proj2 Hsel) in Hx as [Hk _].
  - exists res, s', m'. split; [|done]. unfold RunDelete. kv_step. by rewrite E.
Qed.

(** Assignments that [RunUpdate] has bound are bound again without change. *)
Lemma bind_assignments_sets sets assigns : bind_sets schema sets = Ret assigns ->
  bind_assignments assigns schema = Ret assigns /\ Forall (fun x => 0 <= asg_column_index x < Z.of_nat (num_columns schema)) assigns.
Proof.
  revert assigns. induction sets as [|x sets IH]; intros assigns; cbn [bind_sets]; [by intros [= <-]|].
  destruct (ColumnIndex_cases schema (asg_column_name x)) as [[-> _]|(dcol & H0 & Hd & _)]; [done|].
  destruct (Z.ltb_spec (ColumnIndex schema (asg_column_name x)) 0); [lia|]. intros H'. apply Res_bind_Ret in H' as (e & He & H').
  apply Res_bind_Ret in H' as (as_ & Has & [= <-]). destruct (IH as_ Has) as [Hb Hf]. cbn [bind_assignments asg_column_index asg_expr].
  apply lookup_lt_Some in Hd. unfold num_columns in *.
  destruct (Z.ltb_spec (ColumnIndex schema (asg_column_name x)) 0); [lia|].
  destruct (Z.leb_spec (Z.of_nat (length (columns_ schema))) (ColumnIndex schema (asg_column_name x))); [lia|]. cbn [orb].
  rewrite (Bind_bound schema e (Bind_binds _ _ _ He)). cbn [mbind Res_bind]. rewrite Hb. split; [done|]. constructor; [cbn; lia|done].
Qed.

Lemma exec_RunUpdate sets assigns : bind_sets schema sets = Ret assigns -> assigns <> [] ->
  (forall pk row new_row, si_read (si_begin a) t (si_last a) (table, pk) = Some row -> update_row schema assigns row = Ret new_row -> row_fits table new_row) ->
  exists F prs tag, selects (si_begin a) t (si_last a) table e' prs /\ forall fuel, (F <= fuel)%nat ->
  exists res s' m', exec (RunUpdate fuel table sets where_) (at_begin, m) = (res, (mkSqlSession (sys_db s') None false, m')) /\
    ran_atomically N a (update_step t schema assigns) (map snd prs) tag res s' m'.
Proof.
  intros Hsets Hne Hfit. destruct (bind_assignments_sets _ _ Hsets) as [Hba Hidx]. destruct (st_tables a Htyped _ _ known) as [Hn _].
  destruct (exec_begin_source push_row []) as (c & tr & d1 & m1 & plan & tag & prs & F & c1 & ex' & E & Hs & Eb & Ep & Hsel & Hs1 & H).
  exists F, prs, (lit "Update<-" ++ PlanTag plan). split; [done|]. intros fuel Hf. destruct (H fuel Hf) as [Ho Hd]. clear H.
  rewrite fold_push in Hd. cbn [app] in Hd. pose proof (few prs Hsel) as Hfew.
  set (calls := fun old_row => new_row ← klift (update_row schema assigns old_row); Transaction_Update (name_ schema) new_row).
  destruct (exec_auto_affect ('(source, _) ← klift (PlanAccess schema where_); on_txn (UpdateOp_Execute fuel schema source assigns))
    calls
    (update_step t schema assigns) (map snd prs) N a (with_catalog c (sys_db s)) (sys_txns s) b m tr d1 m1 (with_catalog c1 d1) m1
    (lit "Update<-" ++ PlanTag plan)) as (res & s' & m' & Ex & Hr); rewrite ?length_fmap.
  - done.
  - eapply sys_rep_less; [|exact Hs]. lia.
  - done.
  - eapply sys_rep_less; [|exact Hs1]. lia.
  - intros n d3 tr3 m3 Ea Hst. kv_step. rewrite Ep, exec_on_txn. unfold UpdateOp_Execute. rewrite (bool_decide_eq_false_2 (assigns = [])) by done.
    rewrite exec_bind, (open_plan_Ret _ _ _ _ _ Ho), Hba. cbn [if_ok].
    destruct (drain_rows_Ret _ _ _ _ _ _ _ Hd) as (ex2 & Hd'). rewrite exec_bind, Hd'. by apply exec_affect_tagged.
  - apply Forall_forall. intros row ([pk row'] & -> & Hx)%list_elem_of_fmap. apply (proj2 Hsel) in Hx as (_ & Hr & _). cbn [snd].
    apply does_update; [|intros new_row Hu; rewrite Hn; by eapply Hfit].
    destruct (si_read_typed _ _ _ _ _ _ _ (si_typed_begin a Htyped) known Hr) as [Hrow _]. apply Forall2_length in Hrow.
    unfold num_columns in Hidx. by rewrite <- Hrow.
  - exists res, s', m'. split; [|done]. unfold RunUpdate. kv_step. rewrite E. kv_step. by rewrite Hsets.
Qed.
End Statements.

(** * SELECT outside of a transaction *)

Lemma collect_rows_Ret fuel ex q sm sm' : exec (collect_rows fuel ex) sm = (Ret q, sm') -> exists ex', exec (Collect fuel ex) sm = (Ret (inr q, ex'), sm').
Proof.
  unfold collect_rows. intros ([q' ex'] & sm1 & E1%settle_Ret & E2)%exec_bind_inv. rewrite exec_ret in E2. injection E2 as -> ->. by exists ex'.
Qed.

(** The checks before the plan pass. *)
Lemma exec_RunSelect_planned fuel stmt schema plan sm sm' : from_joins (sel_from stmt) = [] ->
  exec (LookupTable (from_table (from_base (sel_from stmt)))) sm = (Ret schema, sm') -> planned schema stmt = Ret plan ->
  exec (RunSelect fuel stmt) sm = exec (with_auto_txn ('(r, plan') ← on_txn (Collect fuel plan); mret (r, holds_scan plan'))) sm'.
Proof.
  intros Hj El Hp. unfold RunSelect, planned in *. rewrite Hj. change (bool_decide (length [] = 0%nat)) with true. cbn [negb]. kv_step. rewrite El.
  destruct (AddTable _ _ schema BindContext_new) as [r ctx]. destruct r as [[]|e|]; [|done..]. cbn [mbind Res_bind] in Hp. kv_step.
  destruct (select_star stmt && agg_plan stmt); [done|]. kv_step. destruct (_ && negb (agg_plan stmt)); [done|]. kv_step.
  apply Res_bind_Ret in Hp as (where_ & -> & Hp). by rewrite Hp.
Qed.

(** A transaction without writes leaves everything as it was, but for the clock. *)
Definition read_only (a a' : SI) : Prop :=
  si_tables a' = si_tables a /\ (forall k, si_hist a' k = si_hist a k) /\ (forall k, si_prov a' k = si_prov a k) /\ si_open a' = si_open a.
Lemma commit_nothing a : si_inv a -> read_only a (si_commit (si_next_txn a) (si_begin a)).
Proof.
  intros Hi. pose proof (fresh_prov a Hi) as Hf. split_and!; cbn [si_commit si_begin si_tables si_hist si_prov si_open]; [done|..].
  - intros k. destruct (si_prov a k) as [[t' v]|] eqn:E; [|done]. destruct (Z.eqb_spec t' (si_next_txn a)) as [->|]; [|done]. by destruct (Hf k v).
  - intros k. destruct (si_prov a k) as [[t' v]|] eqn:E; [|done]. destruct (Z.eqb_spec t' (si_next_txn a)) as [->|]; [|done]. by destruct (Hf k v).
  - apply delete_insert_id. destruct (si_open a !! si_next_txn a) as [start|] eqn:E; [|done]. destruct (sv_open _ Hi _ _ E). lia.
Qed.

Lemma exec_RunSelect_auto N a s m stmt schema plan b : let table := from_table (from_base (sel_from stmt)) in let t := si_next_txn a in
  0 <= N -> sys_rep 1 (N + 2) a s m -> si_tables a !! table = Some schema -> separate (si_tables a) table ->
  from_joins (sel_from stmt) = [] -> planned schema stmt = Ret plan -> plan_ok table plan -> ends_closed plan = true ->
  exists F s1 m1, sys_rep 1 (N + 1) (si_begin a) s1 m1 /\ forall fuel, (F <= fuel)%nat ->
    forall q, collect_answer (si_begin a) m1 t (si_last a) table plan = Ret q ->
    exists s' m', exec (RunSelect fuel stmt) (mkSqlSession (sys_db s) None b, m) = (Ret q, (mkSqlSession (sys_db s') None false, m')) /\
      sys_rep 1 N (si_commit t (si_begin a)) s' m'.
Proof.
  intros table t HN rep known sep Hj Hp Hok Hcl. destruct s as [d txns]. cbn [sys_db].
  destruct (exec_LookupTable a d txns m table schema None b _ rep known) as (c & El & Hs).
  destruct (begin_rep (N + 1) a (with_catalog c d) txns m) as (tr & d1 & m1 & Eb & Hb); [lia|eapply sys_rep_less; [|exact Hs]; lia|].
  destruct (exec_Collect (N + 1) (si_begin a) (mkSys d1 (<[t := tr]> txns)) m1 t (si_last a) table tr ltac:(lia) Hb (lookup_insert_eq _ _ _) sep) with (ex := plan)
    as (F & c1 & Hc1 & H); [cbn [si_begin si_tables]; by rewrite known|apply lookup_insert_eq|done|].
  exists F, (mkSys d1 (<[t := tr]> txns)), m1. split; [done|]. intros fuel Hf q Hq. specialize (H fuel Hf). rewrite Hq in H.
  apply collect_rows_Ret in H as (plan' & H). pose proof (Collect_closes _ _ _ _ _ _ Hcl H) as Hnone.
  destruct (exec_auto_txn ('(r, plan') ← on_txn (Collect fuel plan); mret (r, holds_scan plan')) (Ret (inr q, false)) N a (with_catalog c d) b m tr d1 m1 (Ret q)
    (with_catalog c1 d1) (<[t := tr]> txns) tr m1 (si_begin a) (si_last a)) as (d' & txns' & m' & Ex & Hs');
    [done|done| |done|by apply (sys_rep_catalog _ _ _ _ _ _ Hb Hc1)|apply lookup_insert_eq|apply lookup_insert_eq|].
  { kv_step. rewrite exec_on_txn. cbn [sys_db] in H. rewrite H. kv_step. by rewrite Hnone. }
  exists (mkSys d' txns'), m'. split; [|done]. by rewrite (exec_RunSelect_planned fuel stmt schema plan _ _ Hj El Hp).
Qed.

Lemma insert_cells_code schema names : forall values cells set, length set = num_columns schema ->
  only_fails kInvalidArgument (insert_cells schema names values cells set).
Proof.
  assert (forall set cells, length set = num_columns schema -> only_fails kInvalidArgument
    (match list_find (fun b => b = false) set with
     | Some (i, _) => c ← deref (columns_ schema !! i); Fail (InvalidArgument (lit "missing column in INSERT: " ++ col_name c))
     | None => Ret (cells : Row)
     end)) as Hend.
  { intros set cells Hl. destruct (list_find _ set) as [[i x]|] eqn:E; [|done]. apply list_find_Some in E as (Hi & _). apply lookup_lt_Some in Hi.
    destruct (lookup_lt_is_Some_2 (columns_ schema) i) as [c ->]; [unfold num_columns in Hl; lia|]. done. }
  induction names as [|n names IH]; intros values cells set Hl; cbn [insert_cells]; [by apply Hend|]. destruct values as [|v values]; [by apply Hend|].
  destruct (ColumnIndex_cases schema n) as [[-> _]|(c & H0 & Hc & _)]; [done|]. destruct (Z.ltb_spec (ColumnIndex schema n) 0); [done|].
  apply lookup_lt_Some in Hc. destruct (lookup_lt_is_Some_2 set (Z.to_nat (ColumnIndex schema n))) as [x ->]; [unfold num_columns in Hl; lia|].
  cbn [deref mbind Res_bind]. destruct x; [done|]. apply IH. by rewrite length_insert.
Qed.

Lemma insert_row_code schema names values : only_fails kInvalidArgument (insert_row schema names values).
Proof.
  unfold insert_row. apply only_fails_bind.
  - destruct (bool_decide _); [by destruct (negb _)|]. destruct (negb _); [done|]. apply insert_cells_code. by rewrite length_replicate.
  - intros row _. apply only_fails_bind; [apply ValidateAgainst_code|done].
Qed.

(** * Properties *)

(** C5: INSERT outside of a transaction is one transaction: after any interleaving of
    calls, the statement either is refused before it starts - unknown table, wrong
    columns, values that do not fit - and changes nothing, or it begins a
    transaction, inserts the row of its values and commits; when the row is refused
    (the key exists, or another transaction has written it) the statement fails with
    that code and the database is as it was. *)
Theorem insert_is_transaction (ops : list TOp) (table : bytes) (names : list bytes) (values : list Value) (fuel : nat) :
  let a := (si_run ops SI_new).2 in
  let t := si_next_txn a in
  Z.of_nat (length ops) + 3 < 2 ^ 32 -> ops_ok 1 1 ops ->
  (forall schema row, si_tables a !! table = Some schema -> insert_row schema names values = Ret row -> row_fits table row) ->
  exists s m res s' m', exec (session ops) (Sys_new, ∅) = (Ret (si_run ops SI_new).1, (s, m)) /\
    exec (RunStatement fuel (InsertStmt table names values)) (mkSqlSession (sys_db s) None false, m) =
      (res, (mkSqlSession (sys_db s') None false, m')) /\
    match si_tables a !! table with
    | None => (exists msg, res = Fail (NotFound msg)) /\ sys_rep 1 0 a s' m'
    | Some schema =>
      match insert_row schema names values with
      | Ret row => ran_atomically 0 a (fun row => Ret (TInsert t table row)) [row] (lit "Insert") res s' m'
      | Fail e => res = Fail e /\ code_ e = kInvalidArgument /\ sys_rep 1 0 a s' m'
      | Stuck => False
      end
    end.
Proof.
  intros a t Hl Hops Hfit. destruct (new_database_si 3 ops ltac:(lia) ltac:(lia) Hops) as (s & m & E & Hrep). fold a in Hrep.
  assert (si_typed a) as Ha by apply si_typed_run, si_typed_new. cbn [RunStatement].
  destruct (si_tables a !! table) as [schema|] eqn:Et.
  - pose proof (insert_row_code schema names values) as Hc. destruct (insert_row schema names values) as [row|e|] eqn:Er; [| |done].
    + destruct (exec_RunInsert 0 1 a s m table schema false ltac:(lia) Hrep Et Ha names values row Er) as (res & s' & m' & Ex & Hr); [by eapply Hfit|lia|].
      by exists s, m, res, s', m'.
    + destruct s as [d txns]. destruct (exec_LookupTable a d txns m table schema None false _ Hrep Et) as (c & El & Hs).
      exists (mkSys d txns), m, (Fail e), (mkSys (with_catalog c d) txns), m. split; [done|]. split; [|split; [done|split; [done|eapply sys_rep_less; [|exact Hs]; lia]]].
      unfold RunInsert. kv_step. cbn [sys_db]. rewrite El. kv_step. by rewrite Er.
  - destruct s as [d txns]. destruct (exec_GetTable _ d m table (sr_tables _ _ _ _ _ Hrep)) as (res & c & Eg & Hc & Hans). unfold table_answer in Hans.
    rewrite Et in Hans. destruct Hans as [msg ->]. exists (mkSys d txns), m, (Fail (NotFound msg)), (mkSys (with_catalog c d) txns), m.
    split; [done|]. split; [|split; [by exists msg|eapply sys_rep_less; [|by apply (sys_rep_catalog _ _ _ _ _ _ Hrep Hc)]; lia]].
    unfold RunInsert, LookupTable. kv_step. cbn [sys_db]. by rewrite exec_on_database, Eg.
Qed.

(** C7: DELETE outside of a transaction is one transaction, if its WHERE clause is absent or
    binds to a boolean condition that is well typed and is not an order comparison of
    the primary key with a literal for which the planner scans a range: the statement begins
    a transaction, deletes exactly the rows of its snapshot that the condition holds of
    - every row without a WHERE clause - and commits, reporting how many they were;
    when another transaction has written one of them, the statement fails with that
    code and the database is as it was.  (With [id >= c] or [id < c] rows are missed:
    TxnScan.range_scan_misses_rows.) *)
Theorem delete_is_transaction (ops : list TOp) (table : bytes) (schema : TableSchema) (where_ : option Expr) (e' : Expr) (pk_name : bytes) :
  let a := (si_run ops SI_new).2 in
  let t := si_next_txn a in
  2 * Z.of_nat (length ops) + 2 < 2 ^ 32 -> ops_ok 1 1 ops ->
  si_tables a !! table = Some schema -> separate (si_tables a) table ->
  bound_condition schema where_ e' -> typed (columns_ schema) e' kBool -> Forall (fun v => key_ok (table, v)) (literals e') ->
  PkColumnName schema = Ret pk_name -> range_condition pk_name e' = false ->
  exists s m F prs tag, exec (session ops) (Sys_new, ∅) = (Ret (si_run ops SI_new).1, (s, m)) /\
    selects (si_begin a) t (si_last a) table e' prs /\
    forall fuel, (F <= fuel)%nat -> exists res s' m',
      exec (RunStatement fuel (DeleteStmt table where_)) (mkSqlSession (sys_db s) None false, m) = (res, (mkSqlSession (sys_db s') None false, m')) /\
      ran_atomically 0 a (fun pk => Ret (TDelete t table pk)) (map fst prs) tag res s' m'.
Proof.
  intros a t Hl Hops Ht Hsep Hb He Hlit Hpk Hnr.
  destruct (new_database_si (2 + Z.of_nat (length ops)) ops ltac:(lia) ltac:(lia) Hops) as (s & m & E & Hrep). fold a in Hrep.
  assert (si_typed a) as Ha by apply si_typed_run, si_typed_new.
  destruct (exec_RunDelete 0 (Z.of_nat (length ops)) a s m table schema false ltac:(lia) ltac:(lia) Hrep Ht Ha where_ e' pk_name Hsep Hb He Hpk Hnr Hlit)
    as (F & prs & tag & Hsel & H); [intros prs Hsel; apply selects_length in Hsel; lia|].
  by exists s, m, F, prs, tag.
Qed.

(** C6: UPDATE outside of a transaction is one transaction, if its WHERE clause is absent or
    binds to a boolean condition that is well typed and is not an order comparison of
    the primary key with a literal for which the planner scans a range, and there are
    assignments, to columns of the table: the statement begins a transaction, replaces
    exactly the rows of its snapshot that the condition holds of by the rows its
    assignments compute from them, and commits, reporting how many they were; when
    an assignment fails, changes the primary key or stores a value that does not
    fit, or another transaction has written a row, the statement fails and the
    database is as it was.  (With [id >= c] or [id < c] rows are missed:
    TxnScan.range_scan_misses_rows.) *)
Theorem update_is_transaction (ops : list TOp) (table : bytes) (schema : TableSchema) (sets : list AssignmentAst) (assigns : list Assignment)
    (where_ : option Expr) (e' : Expr) (pk_name : bytes) :
  let a := (si_run ops SI_new).2 in
  let t := si_next_txn a in
  2 * Z.of_nat (length ops) + 2 < 2 ^ 32 -> ops_ok 1 1 ops ->
  si_tables a !! table = Some schema -> separate (si_tables a) table ->
  bound_condition schema where_ e' -> typed (columns_ schema) e' kBool -> Forall (fun v => key_ok (table, v)) (literals e') ->
  PkColumnName schema = Ret pk_name -> range_condition pk_name e' = false ->
  bind_sets schema sets = Ret assigns -> assigns <> [] ->
  (forall pk row new_row, si_read (si_begin a) t (si_last a) (table, pk) = Some row -> update_row schema assigns row = Ret new_row -> row_fits table new_row) ->
  exists s m F prs tag, exec (session ops) (Sys_new, ∅) = (Ret (si_run ops SI_new).1, (s, m)) /\
    selects (si_begin a) t (si_last a) table e' prs /\
    forall fuel, (F <= fuel)%nat -> exists res s' m',
      exec (RunStatement fuel (UpdateStmt table sets where_)) (mkSqlSession (sys_db s) None false, m) = (res, (mkSqlSession (sys_db s') None false, m')) /\
      ran_atomically 0 a (update_step t schema assigns) (map snd prs) tag res s' m'.
Proof.
  intros a t Hl Hops Ht Hsep Hb He Hlit Hpk Hnr Hsets Hne Hfit.
  destruct (new_database_si (2 + Z.of_nat (length ops)) ops ltac:(lia) ltac:(lia) Hops) as (s & m & E & Hrep). fold a in Hrep.
  assert (si_typed a) as Ha by apply si_typed_run, si_typed_new.
  destruct (exec_RunUpdate 0 (Z.of_nat (length ops)) a s m table schema false ltac:(lia) ltac:(lia) Hrep Ht Ha where_ e' pk_name Hsep Hb He Hpk Hnr Hlit)
    with (sets := sets) (assigns := assigns) as (F & prs & tag & Hsel & H); [intros prs Hsel; apply selects_length in Hsel; lia|done..|].
  by exists s, m, F, prs, tag.
Qed.

(** C38: SELECT outside of a transaction is one read-only transaction, if the plan has no
    LIMIT or sorts, aggregates or looks up one key below it: whenever the plan has an
    answer over the rows of the statement's snapshot - the operators as functions on
    lists, as in a transaction - the statement gives that answer and commits, no scan
    being open by then; the tables, the versions of every row, the pending writes and
    the open transactions are as before.  (Otherwise the scan can be open at the commit,
    and the statement does not return: [limit_leaves_scan].) *)
Theorem select_is_transaction (ops : list TOp) (stmt : SelectStmt) (schema : TableSchema) (plan : Executor) :
  let a := (si_run ops SI_new).2 in
  let t := si_next_txn a in
  let table := from_table (from_base (sel_from stmt)) in
  Z.of_nat (length ops) + 2 < 2 ^ 32 -> ops_ok 1 1 ops ->
  from_joins (sel_from stmt) = [] -> si_tables a !! table = Some schema -> separate (si_tables a) table -> where_literals_ok stmt ->
  planned schema stmt = Ret plan -> ends_closed plan = true ->
  exists s m F ranged, exec (session ops) (Sys_new, ∅) = (Ret (si_run ops SI_new).1, (s, m)) /\
    relation_of (si_begin a) t (si_last a) table ranged /\
    forall fuel, (F <= fuel)%nat -> forall rs names,
      (str ← denote ranged (fun pk => si_read (si_begin a) t (si_last a) (table, pk)) plan; stream_list str) = Ret rs -> plan_names plan = Ret names ->
      exists s' m' a', exec (RunStatement fuel (Select stmt)) (mkSqlSession (sys_db s) None false, m) =
          (Ret (mkQueryResult names rs 0 (PlanTag plan)), (mkSqlSession (sys_db s') None false, m')) /\
        sys_rep 1 0 a' s' m' /\ read_only a a'.
Proof.
  intros a t table Hl Hops Hj Ht Hsep Hlit Hp Hcl. destruct (new_database_si 2 ops ltac:(lia) ltac:(lia) Hops) as (s & m & E & Hrep). fold a in Hrep.
  assert (si_typed a) as Ha by apply si_typed_run, si_typed_new. destruct (st_tables a Ha _ _ Ht) as [Hn Hw].
  destruct (exec_RunSelect_auto 0 a s m stmt schema plan false ltac:(lia) Hrep Ht Hsep Hj Hp (planned_ok schema stmt Hn Hlit plan Hp) Hcl) as (F & s1 & m1 & Hs1 & H).
  exists s, m, F, (range_rows (si_begin a) m1 t (si_last a) table). split; [exact E|]. split.
  - intros lo hi. exists (scan_result (si_begin a) m1 t (si_last a) table lo hi). split; [done|].
    by apply (scan_result_spec 1 (si_begin a) s1 m1 t (si_last a) table lo hi ltac:(lia) Hs1 (lookup_insert_eq _ _ _) Hsep).
  - intros fuel Hf rs names Hrs Hnames. destruct (H fuel Hf (mkQueryResult names rs 0 (PlanTag plan))) as (s' & m' & Ex & Hs').
    { unfold collect_answer. apply Res_bind_Ret in Hrs as (str & Hd & Hst). change (denote _ _ plan = Ret str) with (denote (range_rows (si_begin a) m1 t (si_last a) table) (point_row (si_begin a) t (si_last a) table) plan = Ret str) in Hd.
      fold t table. rewrite Hd. cbn [mbind Res_bind]. rewrite Hst. cbn [mbind Res_bind]. by rewrite Hnames. }
    exists s', m', (si_commit t (si_begin a)). split; [done|]. split; [done|]. apply commit_nothing. apply (sr_inv _ _ _ _ _ Hrep).
Qed.

(** [SELECT * FROM users ORDER BY id LIMIT 1] *)
Definition first_user : SelectStmt :=
  mkSelectStmt true [] (mkFromClause (mkFromItem (lit "users") []) []) None [] None [mkOrderByItem (lit "id") true] true 1.
Lemma select_is_transaction_witness :
  let a := (si_run two_rows SI_new).2 in
  let plan := mkLimit (Sort (mkSeqScan sample_schema) [mkSortKey 1 true]) 1 in
  exists s m F ranged, exec (session two_rows) (Sys_new, ∅) = (Ret (si_run two_rows SI_new).1, (s, m)) /\
    relation_of (si_begin a) 3 1 (lit "users") ranged /\
    forall fuel, (F <= fuel)%nat -> forall rs names,
      (str ← denote ranged (fun pk => si_read (si_begin a) 3 1 (lit "users", pk)) plan; stream_list str) = Ret rs -> plan_names plan = Ret names ->
      exists s' m' a', exec (RunStatement fuel (Select first_user)) (mkSqlSession (sys_db s) None false, m) =
          (Ret (mkQueryResult names rs 0 (PlanTag plan)), (mkSqlSession (sys_db s') None false, m')) /\
        sys_rep 1 0 a' s' m' /\ read_only a a'.
Proof.
  intros a plan. refine (select_is_transaction two_rows first_user sample_schema plan _ _ _ _ _ _ _ _).
  - reflexivity.
  - apply (bool_decide_unpack _). vm_compute. exact I.
  - reflexivity.
  - reflexivity.
  - apply (bool_decide_unpack _). vm_compute. exact I.
  - exact I.
  - vm_compute. reflexivity.
  - reflexivity.
Defined.

(** The answer to a script in a new session on a new database. *)
Definition script_answer (sql : bytes) : Res QueryResult :=
  let '(_, (d, m)) := exec Database_Open (Database_new, ∅) in (exec (Execute 20 sql) (mkSqlSession d None false, m)).1.
(** A SELECT whose LIMIT ends it before the scan has no answer outside of a transaction; it
    has one in a transaction, with ORDER BY, and with a LIMIT that is not reached. *)
Example limit_leaves_scan :
  let rows := lit "CREATE TABLE t (id INT PRIMARY KEY); INSERT INTO t VALUES (1); INSERT INTO t VALUES (2); " in
  script_answer (rows ++ lit "SELECT * FROM t LIMIT 1;") = Stuck /\
  script_answer (rows ++ lit "BEGIN; SELECT * FROM t LIMIT 1;") = Ret (mkQueryResult [lit "id"] [[VInt64 1]] 0 (lit "Limit<-SeqScan")) /\
  script_answer (rows ++ lit "SELECT * FROM t ORDER BY id LIMIT 1;") = Ret (mkQueryResult [lit "id"] [[VInt64 1]] 0 (lit "Limit<-Sort<-SeqScan")) /\
  script_answer (rows ++ lit "SELECT * FROM t LIMIT 3;") = Ret (mkQueryResult [lit "id"] [[VInt64 1]; [VInt64 2]] 0 (lit "Limit<-SeqScan")).
Proof. vm_compute. split_and!; reflexivity. Qed.

Lemma insert_is_transaction_witness :
  let a := (si_run two_rows SI_new).2 in
  exists s m res s' m', exec (session two_rows) (Sys_new, ∅) = (Ret (si_run two_rows SI_new).1, (s, m)) /\
    exec (RunStatement 0 (InsertStmt (lit "users") [lit "id"; lit "name"] [VInt64 3; VString (lit "cat")])) (mkSqlSession (sys_db s) None false, m) =
      (res, (mkSqlSession (sys_db s') None false, m')) /\
    ran_atomically 0 a (fun row => Ret (TInsert 3 (lit "users") row)) [user (lit "cat") 3] (lit "Insert") res s' m'.
Proof.
  refine (insert_is_transaction two_rows (lit "users") [lit "id"; lit "name"] [VInt64 3; VString (lit "cat")] 0 _ _ _).
  - reflexivity.
  - apply (bool_decide_unpack _). vm_compute. exact I.
  - intros schema row Hs Hr. vm_compute in Hs. injection Hs as <-. vm_compute in Hr. injection Hr as <-.
    apply (bool_decide_unpack (row_ok _ /\ len32 _ /\ Forall _ _)). vm_compute. exact I.
Defined.

(** [id = 256] *)
Definition id_is_256 : Expr := Compare kEq (mkColumn (lit "id")) (Literal (VInt64 256)).
Definition id_is_256_bound : Expr := Compare kEq (Column (lit "id") 1) (Literal (VInt64 256)).
Lemma id_is_256_typed : typed (columns_ sample_schema) id_is_256_bound kBool.
Proof.
  apply (typed_compare _ _ _ _ kInt64); [|apply (typed_literal _ (VInt64 256))].
  apply (typed_column _ _ 1 (mkColumnDef (lit "id") kInt64 true)); [lia|reflexivity].
Qed.

Lemma delete_is_transaction_witness :
  let a := (si_run two_rows SI_new).2 in
  exists s m F prs tag, exec (session two_rows) (Sys_new, ∅) = (Ret (si_run two_rows SI_new).1, (s, m)) /\
    selects (si_begin a) 3 1 (lit "users") id_is_256_bound prs /\
    forall fuel, (F <= fuel)%nat -> exists res s' m',
      exec (RunStatement fuel (DeleteStmt (lit "users") (Some id_is_256))) (mkSqlSession (sys_db s) None false, m) =
        (res, (mkSqlSession (sys_db s') None false, m')) /\
      ran_atomically 0 a (fun pk => Ret (TDelete 3 (lit "users") pk)) (map fst prs) tag res s' m'.
Proof.
  refine (delete_is_transaction two_rows (lit "users") sample_schema (Some id_is_256) id_is_256_bound (lit "id") _ _ _ _ _ id_is_256_typed _ _ _).
  - reflexivity.
  - apply (bool_decide_unpack _). vm_compute. exact I.
  - reflexivity.
  - apply (bool_decide_unpack _). vm_compute. exact I.
  - reflexivity.
  - apply (bool_decide_unpack _). vm_compute. exact I.
  - reflexivity.
  - reflexivity.
Defined.

(** [UPDATE users SET name = 'eve' WHERE id = 256] *)
Definition set_name : list AssignmentAst := [mkAssignmentAst (lit "name") (Literal (VString (lit "eve")))].
Definition set_name_bound : list Assignment := [mkAssignment 0 (Literal (VString (lit "eve")))].

Lemma set_name_fits pk row new_row : si_read (si_begin (si_run two_rows SI_new).2) 3 1 (lit "users", pk) = Some row ->
  update_row sample_schema set_name_bound row = Ret new_row -> row_fits (lit "users") new_row.
Proof.
  intros Hr Hu. pose proof (read_touched _ _ _ _ _ Hr) as Hk.
  assert (touched two_rows SI_new = [(lit "users", VInt64 1); (lit "users", VInt64 256)]) as Et by (by vm_compute). rewrite Et in Hk.
  apply elem_of_cons in Hk as [[= ->]|[= ->]%list_elem_of_singleton]; vm_compute in Hr; injection Hr as <-; vm_compute in Hu; injection Hu as <-;
    apply (bool_decide_unpack (row_ok _ /\ len32 _ /\ Forall _ _)); vm_compute; exact I.
Qed.

Lemma update_is_transaction_witness :
  let a := (si_run two_rows SI_new).2 in
  exists s m F prs tag, exec (session two_rows) (Sys_new, ∅) = (Ret (si_run two_rows SI_new).1, (s, m)) /\
    selects (si_begin a) 3 1 (lit "users") id_is_256_bound prs /\
    forall fuel, (F <= fuel)%nat -> exists res s' m',
      exec (RunStatement fuel (UpdateStmt (lit "users") set_name (Some id_is_256))) (mkSqlSession (sys_db s) None false, m) =
        (res, (mkSqlSession (sys_db s') None false, m')) /\
      ran_atomically 0 a (update_step 3 sample_schema set_name_bound) (map snd prs) tag res s' m'.
Proof.
  refine (update_is_transaction two_rows (lit "users") sample_schema set_name set_name_bound (Some id_is_256) id_is_256_bound (lit "id")
    _ _ _ _ _ id_is_256_typed _ _ _ _ _ set_name_fits).
  - reflexivity.
  - apply (bool_decide_unpack _). vm_compute. exact I.
  - reflexivity.
  - apply (bool_decide_unpack _). vm_compute. exact I.
  - reflexivity.
  - apply (bool_decide_unpack _). vm_compute. exact I.
  - reflexivity.
  - reflexivity.
  - reflexivity.
  - discriminate.
Defined.
