(* ===== verification/Server.v ===== *)
(** The key-value server (server/server.h, server/server.cpp): the line protocol around
    the engine, the life of a connection, the limit on clients and the command line.

    The socket is its stream of bytes; whether a send succeeds and whether the server
    is still running are parameters.  Starting, accepting and stopping are in
    Listener.v. *)
From S2P Require Import Prelude Status Options Env Version Text DbInv DbRefine Db Kv.

(** * Requests *)

Definition is_sep (c : byte) : bool := bool_decide (c = Byte.x20) || bool_decide (c = Byte.x09).
Definition is_word (c : byte) : bool := negb (is_sep c).

(** The three loops: blanks, a word, blanks. *)
Definition SplitCommand (line : bytes) : bytes * bytes :=
  let '(cmd, rest) := span is_word (span is_sep line).2 in (cmd, (span is_sep rest).2).
Definition SplitKeyValue (s : bytes) : bytes * bytes :=
  let '(key, rest) := span is_word (span is_sep s).2 in (key, (span is_sep rest).2).
Definition FirstToken (s : bytes) : bytes := (span is_word (span is_sep s).2).1.

Definition AppendLine (out line : bytes) : bytes := out ++ line ++ [newline].

Abbreviation ServerM := (KM unit).

(** Whether to keep the connection, and the reply. *)
Definition ExecuteRequest (line : bytes) : ServerM (bool * bytes) :=
  let '(cmd, rest) := SplitCommand line in
  let cmd := ToUpperAscii cmd in
  let say (l : bytes) : ServerM (bool * bytes) := mret (true, AppendLine [] l) in
  let error (s : Status) := say (lit "-ERR " ++ Status_ToString s) in
  if bool_decide (cmd = []) then say (lit "-ERR empty request")
  else if bool_decide (cmd = lit "PING") then say (lit "+PONG")
  else if bool_decide (cmd = lit "QUIT") then mret (false, AppendLine [] (lit "+OK"))
  else if bool_decide (cmd = lit "GET") then
    let key := FirstToken rest in
    if bool_decide (key = []) then say (lit "-ERR usage: GET <key>")
    else
      r ← ktry (kv_Get key);
      match r with
      | inl s => if IsNotFound s then say (lit "NOT_FOUND") else error s
      | inr value => mret (true, AppendLine (AppendLine [] (lit "$" ++ to_string (Z.of_nat (length value)))) value)
      end
  else if bool_decide (cmd = lit "SET") then
    let '(key, value) := SplitKeyValue rest in
    if bool_decide (key = []) then say (lit "-ERR usage: SET <key> <value>")
    else
      r ← ktry (kv_Put key value);
      match r with inl s => error s | inr _ => say (lit "+OK") end
  else if bool_decide (cmd = lit "DEL") then
    let key := FirstToken rest in
    if bool_decide (key = []) then say (lit "-ERR usage: DEL <key>")
    else
      r ← ktry (kv_Delete key);
      match r with inl s => error s | inr _ => say (lit "+OK") end
  else say (lit "-ERR unknown command '" ++ cmd ++ lit "'").

(** * Connections *)

(** [RecvLine] on the bytes that are still to come: the line and the rest, nothing
    at the end of the stream or after too long a line.  Every carriage return is dropped. *)
Fixpoint recv_line (out input : bytes) : option (bytes * bytes) :=
  match input with
  | [] => None
  | ch :: input =>
    if bool_decide (ch = newline) then Some (out, input)
    else
      let out := if bool_decide (ch = cr) then out else out ++ [ch] in
      if Z.of_nat (length out) >? 1024 * 1024 then None else recv_line out input
  end.
Definition RecvLine (input : bytes) : option (bytes * bytes) := recv_line [] input.

Section ServeKv.
(** In round [i]: whether the server is running, and whether the reply is sent. *)
Context (running sends : nat -> bool).

(** The loop of [ServeClient]; [n] bounds its rounds, [sent] is what was sent. *)
Fixpoint kv_serve_loop (n i : nat) (input sent : bytes) : ServerM bytes :=
  match n with
  | O => klift Stuck
  | S n =>
    if negb (running i) then mret sent
    else
      match RecvLine input with
      | None => mret sent
      | Some (line, input) =>
        '(keep_open, reply) ← ExecuteRequest line;
        if negb (sends i) then mret sent
        else
          let sent := sent ++ reply in
          if keep_open : bool then kv_serve_loop n (S i) input sent else mret sent
      end
  end.

(** A round takes at least one byte of the stream. *)
Definition Server_ServeClient (input : bytes) : ServerM bytes := kv_serve_loop (S (length input)) 0 input [].
End ServeKv.

(** * The limit on clients *)

(** What a thread that accepts or serves a client is doing: nothing, trying to take
    a slot with the count it has seen, serving. *)
Inductive ClientState : Set := kIdle | kTrying (cur : Z) | kServing.

(** The counter [active_clients_] and the threads. *)
Record Slots := mkSlots { active_clients : Z; clients : list ClientState }.

(** One atomic action: the load, the exchange - which may fail without cause and
    then loads again -, giving up, and [ReleaseClientSlot]. *)
Inductive slot_step (max_clients : Z) : Slots -> Slots -> Prop :=
  | slot_load s i : clients s !! i = Some kIdle ->
      slot_step max_clients s (mkSlots (active_clients s) (<[i := kTrying (active_clients s)]> (clients s)))
  | slot_exchange s i cur : clients s !! i = Some (kTrying cur) -> cur < max_clients -> active_clients s = cur ->
      slot_step max_clients s (mkSlots (cur + 1) (<[i := kServing]> (clients s)))
  | slot_retry s i cur : clients s !! i = Some (kTrying cur) -> cur < max_clients ->
      slot_step max_clients s (mkSlots (active_clients s) (<[i := kTrying (active_clients s)]> (clients s)))
  | slot_refuse s i cur : clients s !! i = Some (kTrying cur) -> max_clients <= cur ->
      slot_step max_clients s (mkSlots (active_clients s) (<[i := kIdle]> (clients s)))
  | slot_release s i : clients s !! i = Some kServing ->
      slot_step max_clients s (mkSlots (active_clients s - 1) (<[i := kIdle]> (clients s))).

(** * The command line *)

Record ServerConfig := mkServerConfig { cfg_host : bytes; cfg_port : Z; cfg_db_path : bytes; cfg_max_clients : Z }.
Definition ServerConfig_default : ServerConfig := mkServerConfig (lit "0.0.0.0") 7379 (lit "./lsmkv_data") 128.

(** [std::atoi]; a value outside [int] is undefined. *)
Definition atoi (s : bytes) : Res Z :=
  let s := skip_space s in
  let '(neg, s) :=
    match s with
    | c :: s' => if bz c =? 45 then (true, s') else if bz c =? 43 then (false, s') else (false, s)
    | [] => (false, s)
    end in
  let v := parse_digits s 0 in
  let v := if neg : bool then - v else v in
  if (- 2 ^ 31 <=? v) && (v <? 2 ^ 31) then Ret v else Stuck.

(** What the parser of the arguments ends with: a configuration, an error, or the
    help text, after which the program exits. *)
Inductive ArgsResult : Type := ArgsOk (cfg : ServerConfig) | ArgsError (msg : bytes) | ArgsHelp.

Fixpoint ParseServerArgs (args : list bytes) (cfg : ServerConfig) : Res ArgsResult :=
  match args with
  | [] => Ret (ArgsOk cfg)
  | arg :: args =>
    let missing := Ret (ArgsError (lit "missing value for " ++ arg)) in
    if bool_decide (arg = lit "--host") then
      match args with
      | [] => missing
      | v :: args => ParseServerArgs args (mkServerConfig v (cfg_port cfg) (cfg_db_path cfg) (cfg_max_clients cfg))
      end
    else if bool_decide (arg = lit "--port") then
      match args with
      | [] => missing
      | v :: args =>
        port ← atoi v;
        if (port <? 0) || (port >? 65535) then Ret (ArgsError (lit "invalid port"))
        else ParseServerArgs args (mkServerConfig (cfg_host cfg) port (cfg_db_path cfg) (cfg_max_clients cfg))
      end
    else if bool_decide (arg = lit "--db") then
      match args with
      | [] => missing
      | v :: args => ParseServerArgs args (mkServerConfig (cfg_host cfg) (cfg_port cfg) v (cfg_max_clients cfg))
      end
    else if bool_decide (arg = lit "--max-clients") then
      match args with
      | [] => missing
      | v :: args =>
        n ← atoi v;
        if n <=? 0 then Ret (ArgsError (lit "invalid --max-clients (must be >= 1)"))
        else ParseServerArgs args (mkServerConfig (cfg_host cfg) (cfg_port cfg) (cfg_db_path cfg) n)
      end
    else if bool_decide (arg = lit "-h") || bool_decide (arg = lit "--help") then Ret ArgsHelp
    else Ret (ArgsError (lit "unknown argument: " ++ arg))
  end.

(** * Lemmas *)

(** ** The limit on clients *)

Definition serving (c : ClientState) : bool := match c with kServing => true | _ => false end.
Definition count_serving (cs : list ClientState) : Z := Z.of_nat (length (List.filter serving cs)).

Lemma count_insert cs i c c' : cs !! i = Some c ->
  count_serving (<[i := c']> cs) = count_serving cs - Z.b2z (serving c) + Z.b2z (serving c').
Proof.
  unfold count_serving. revert i. induction cs as [|x cs IH]; intros [|i] H; [done|done| |].
  - injection H as ->. change (<[0%nat := c']> (c :: cs)) with (c' :: cs). cbn [List.filter]. destruct (serving c), (serving c'); cbn [length Z.b2z]; lia.
  - specialize (IH i H). change (<[S i := c']> (x :: cs)) with (x :: <[i := c']> cs). cbn [List.filter]. destruct (serving x); cbn [length]; lia.
Qed.

(** What the counter guarantees: it is the number of clients being served, and at most the limit. *)
Definition slots_ok (max_clients : Z) (s : Slots) : Prop :=
  active_clients s = count_serving (clients s) /\ active_clients s <= max_clients.

Lemma slots_ok_step max_clients s s' : slots_ok max_clients s -> slot_step max_clients s s' -> slots_ok max_clients s'.
Proof.
  intros Hs H. revert Hs. unfold slots_ok.
  destruct H as [s i E|s i cur E Hlt Ha|s i cur E _|s i cur E _|s i E]; intros [Hc Hm]; split; cbn [active_clients clients];
    rewrite ?(count_insert _ _ _ _ E); cbn [serving Z.b2z]; lia.
Qed.

Lemma slots_ok_idle max_clients n : 0 <= max_clients -> slots_ok max_clients (mkSlots 0 (replicate n kIdle)).
Proof. intros H. split; [|done]. unfold count_serving. cbn [clients active_clients]. by induction n. Qed.
Lemma slots_ok_rtc max_clients s s' : rtc (slot_step max_clients) s s' -> slots_ok max_clients s -> slots_ok max_clients s'.
Proof. induction 1; eauto using slots_ok_step. Qed.

(** What the command line can set. *)
Definition config_ok (cfg : ServerConfig) : Prop := 0 <= cfg_port cfg <= 65535 /\ 1 <= cfg_max_clients cfg < 2 ^ 31.

Lemma atoi_range s z : atoi s = Ret z -> - 2 ^ 31 <= z < 2 ^ 31.
Proof.
  unfold atoi. destruct (match skip_space s with [] => _ | _ :: _ => _ end) as [neg r]. intros H.
  destruct (_ && _) eqn:E in H; [|done]. injection H as <-. apply andb_true_iff in E as [E1%Z.leb_le E2%Z.ltb_lt]. done.
Qed.

Lemma args_ok args : forall cfg cfg', config_ok cfg -> ParseServerArgs args cfg = Ret (ArgsOk cfg') -> config_ok cfg'.
Proof.
  assert (forall n args, (length args <= n)%nat -> forall cfg cfg', config_ok cfg -> ParseServerArgs args cfg = Ret (ArgsOk cfg') -> config_ok cfg') as H;
    [|by apply (H (length args))].
  induction n as [|n IH]; intros l Hl cfg cfg' Hc H.
  { destruct l; [|cbn in Hl; lia]. by injection H as <-. }
  destruct l as [|arg l]; [by injection H as <-|]. cbn [ParseServerArgs] in H. cbn [length] in Hl.
  destruct (bool_decide (arg = lit "--host")).
  { destruct l as [|v l]; [done|]. eapply (IH l); [cbn in Hl; lia| |exact H]. done. }
  destruct (bool_decide (arg = lit "--port")).
  { destruct l as [|v l]; [done|]. apply Res_bind_Ret in H as (port & Hp & H). destruct (_ || _) eqn:E in H; [done|].
    apply orb_false_iff in E as [E1 E2]. eapply (IH l); [cbn in Hl; lia| |exact H]. destruct Hc. split; cbn; [|done]. rewrite Z.gtb_ltb in E2. lia. }
  destruct (bool_decide (arg = lit "--db")).
  { destruct l as [|v l]; [done|]. eapply (IH l); [cbn in Hl; lia| |exact H]. done. }
  destruct (bool_decide (arg = lit "--max-clients")); [|by destruct (_ || _) in H].
  destruct l as [|v l]; [done|]. apply Res_bind_Ret in H as (k & Hk & H). apply atoi_range in Hk. destruct (Z.leb_spec k 0); [done|].
  eapply (IH l); [cbn in Hl; lia| |exact H]. destruct Hc. split; cbn; [done|lia].
Qed.

(** * The dictionary the server promises *)

Inductive Request : Set :=
  | RPing | RQuit
  | RGet (key : bytes) | RSet (key value : bytes) | RDel (key : bytes)
  | RBad (msg : bytes).

(** The reply to a request and the dictionary after it. *)
Definition request_step (r : Request) (m : gmap bytes bytes) : bytes * gmap bytes bytes :=
  match r with
  | RPing => (lit "+PONG" ++ [newline], m)
  | RQuit => (lit "+OK" ++ [newline], m)
  | RGet key =>
    (match m !! key with
     | None => lit "NOT_FOUND" ++ [newline]
     | Some value => lit "$" ++ to_string (Z.of_nat (length value)) ++ [newline] ++ value ++ [newline]
     end, m)
  | RSet key value => (lit "+OK" ++ [newline], <[key := value]> m)
  | RDel key => (lit "+OK" ++ [newline], delete key m)
  | RBad msg => (lit "-ERR " ++ msg ++ [newline], m)
  end.

(** A connection answers its requests in order, and closes after QUIT. *)
Fixpoint connection_run (rs : list Request) (m : gmap bytes bytes) : bytes * gmap bytes bytes :=
  match rs with
  | [] => ([], m)
  | RQuit :: _ => request_step RQuit m
  | r :: rs => let '(reply, m) := request_step r m in let '(replies, m) := connection_run rs m in (reply ++ replies, m)
  end.

(** ** The grammar of requests *)

Definition blanks (s : bytes) : Prop := forallb is_sep s = true.
Definition word (s : bytes) : Prop := forallb is_word s = true.
(** The end of a word: nothing, or a blank first. *)
Definition ends_word (s : bytes) : Prop := forall c, head s = Some c -> is_sep c = true.
Definition no_blank_first (s : bytes) : Prop := forall c, head s = Some c -> is_sep c = false.

(** The commands, in any case. *)
Inductive spelled : bytes -> string -> Prop := Spelled cmd name : ToUpperAscii cmd = lit name -> spelled cmd name.

Definition commands : list bytes := map lit ["PING"; "QUIT"; "GET"; "SET"; "DEL"]%string.

Inductive asks : bytes -> Request -> Prop :=
  | asks_ping b0 cmd rest : blanks b0 -> spelled cmd "PING" -> ends_word rest -> asks (b0 ++ cmd ++ rest) RPing
  | asks_quit b0 cmd rest : blanks b0 -> spelled cmd "QUIT" -> ends_word rest -> asks (b0 ++ cmd ++ rest) RQuit
  | asks_get b0 cmd b1 key rest : blanks b0 -> spelled cmd "GET" -> blanks b1 -> b1 <> [] -> word key -> key <> [] -> ends_word rest ->
      asks (b0 ++ cmd ++ b1 ++ key ++ rest) (RGet key)
  | asks_set b0 cmd b1 key b2 value : blanks b0 -> spelled cmd "SET" -> blanks b1 -> b1 <> [] -> word key -> key <> [] -> blanks b2 ->
      (value <> [] -> b2 <> []) -> no_blank_first value ->
      asks (b0 ++ cmd ++ b1 ++ key ++ b2 ++ value) (RSet key value)
  | asks_del b0 cmd b1 key rest : blanks b0 -> spelled cmd "DEL" -> blanks b1 -> b1 <> [] -> word key -> key <> [] -> ends_word rest ->
      asks (b0 ++ cmd ++ b1 ++ key ++ rest) (RDel key)
  | asks_nothing b0 : blanks b0 -> asks b0 (RBad (lit "empty request"))
  | asks_get_nothing b0 cmd b1 : blanks b0 -> spelled cmd "GET" -> blanks b1 -> asks (b0 ++ cmd ++ b1) (RBad (lit "usage: GET <key>"))
  | asks_set_nothing b0 cmd b1 : blanks b0 -> spelled cmd "SET" -> blanks b1 -> asks (b0 ++ cmd ++ b1) (RBad (lit "usage: SET <key> <value>"))
  | asks_del_nothing b0 cmd b1 : blanks b0 -> spelled cmd "DEL" -> blanks b1 -> asks (b0 ++ cmd ++ b1) (RBad (lit "usage: DEL <key>"))
  | asks_unknown b0 cmd rest : blanks b0 -> word cmd -> cmd <> [] -> ends_word rest -> (ToUpperAscii cmd ∉ commands) ->
      asks (b0 ++ cmd ++ rest) (RBad (lit "unknown command '" ++ ToUpperAscii cmd ++ lit "'")).

Lemma is_word_sep c : is_word c = negb (is_sep c).
Proof. done. Qed.
Lemma toupper_sep c : is_sep (toupper c) = is_sep c.
Proof. by destruct c. Qed.

Lemma spelled_word cmd name : spelled cmd name -> forallb is_word (lit name) = true -> word cmd.
Proof.
  intros [cmd' name' E] H. rewrite <- E in H. clear E. unfold word, ToUpperAscii in *. induction cmd' as [|c cmd' IH]; [done|].
  cbn [map forallb] in *. rewrite !is_word_sep, toupper_sep in *. apply andb_true_iff in H as [-> H]. by apply IH.
Qed.

(** ** The splitters on such lines *)

Lemma skip_blanks b s : blanks b -> no_blank_first s -> (span is_sep (b ++ s)).2 = s.
Proof. intros Hb Hs. by rewrite span_app. Qed.
Lemma take_word w s : word w -> ends_word s -> span is_word (w ++ s) = (w, s).
Proof. intros Hw Hs. apply span_app; [done|]. intros c Hc. by rewrite is_word_sep, (Hs c Hc). Qed.
Lemma word_first w s : word w -> w <> [] -> no_blank_first (w ++ s).
Proof.
  destruct w as [|c w]; [done|]. intros Hw _ c' [= <-]. apply andb_true_iff in Hw as [Hc _].
  by apply negb_true_iff in Hc.
Qed.
Lemma blanks_end b s : blanks b -> (s <> [] -> b <> []) -> ends_word (b ++ s).
Proof.
  destruct b as [|c b]; intros Hb Hs.
  - destruct s; [by intros ? [=]|]. by destruct (Hs ltac:(done)).
  - intros c' [= <-]. by apply andb_true_iff in Hb as [].
Qed.

Lemma split_word b w s : blanks b -> word w -> w <> [] -> ends_word s -> span is_word (span is_sep (b ++ w ++ s)).2 = (w, s).
Proof. intros. rewrite skip_blanks by auto using word_first. by apply take_word. Qed.

Lemma SplitCommand_spec b cmd s : blanks b -> word cmd -> cmd <> [] -> ends_word s -> SplitCommand (b ++ cmd ++ s) = (cmd, (span is_sep s).2).
Proof. intros. unfold SplitCommand. by rewrite split_word. Qed.

Lemma blanks_only b : blanks b -> (span is_sep b).2 = [].
Proof. intros H. by rewrite span_all. Qed.

Lemma FirstToken_spec key s : word key -> key <> [] -> ends_word s -> FirstToken (key ++ s) = key.
Proof. intros. unfold FirstToken. change (key ++ s) with ([] ++ key ++ s). by rewrite split_word. Qed.
Lemma FirstToken_none b : blanks b -> FirstToken b = [].
Proof. intros. unfold FirstToken. by rewrite blanks_only. Qed.
Lemma SplitKeyValue_spec key b2 value : word key -> key <> [] -> blanks b2 -> (value <> [] -> b2 <> []) -> no_blank_first value ->
  SplitKeyValue (key ++ b2 ++ value) = (key, value).
Proof. intros. unfold SplitKeyValue. change (key ++ b2 ++ value) with ([] ++ key ++ b2 ++ value). rewrite split_word by (done || by apply blanks_end). by rewrite skip_blanks. Qed.
Lemma SplitKeyValue_none b : blanks b -> SplitKeyValue b = ([], []).
Proof. intros. unfold SplitKeyValue. by rewrite blanks_only. Qed.

(** The command of a line, upper-cased, and the words after it. *)
Lemma command_line b cmd name s : blanks b -> spelled cmd name -> forallb is_word (lit name) = true -> lit name <> [] -> ends_word s ->
  exists cmd', SplitCommand (b ++ cmd ++ s) = (cmd', (span is_sep s).2) /\ ToUpperAscii cmd' = lit name.
Proof.
  intros Hb Hc Hn Hne Hs. exists cmd. pose proof (spelled_word _ _ Hc Hn) as Hw. destruct Hc as [cmd name E]. split; [|done].
  apply SplitCommand_spec; try done. intros ->. by rewrite <- E in Hne.
Qed.

Lemma blanks_only_end b : blanks b -> ends_word b.
Proof. intros H. rewrite <- (app_nil_r b). by apply blanks_end. Qed.

(** Decide which command it is. *)
Ltac closed_tests :=
  repeat match goal with
  | |- context [bool_decide (lit ?a = ?x)] =>
    first [rewrite (bool_decide_eq_true_2 (lit a = x)) by done | rewrite (bool_decide_eq_false_2 (lit a = x)) by done]; cbn iota
  end.

Definition keeps_open (r : Request) : bool := match r with RQuit => false | _ => true end.

(** A line is answered as the dictionary answers what it asks. *)
Lemma exec_ExecuteRequest line r m : asks line r ->
  exec (ExecuteRequest line) (tt, m) = (Ret (keeps_open r, (request_step r m).1), (tt, (request_step r m).2)).
Proof.
  intros H. unfold ExecuteRequest.
  destruct H as [b0 cmd rest Hb Hc He|b0 cmd rest Hb Hc He|b0 cmd b1 key rest Hb Hc Hb1 Hn1 Hk Hkn He|b0 cmd b1 key b2 value Hb Hc Hb1 Hn1 Hk Hkn Hb2 Hv Hnb
    |b0 cmd b1 key rest Hb Hc Hb1 Hn1 Hk Hkn He|b0 Hb|b0 cmd b1 Hb Hc Hb1|b0 cmd b1 Hb Hc Hb1|b0 cmd b1 Hb Hc Hb1|b0 cmd rest Hb Hw Hcn He Hun].
  1,2: destruct (command_line b0 cmd _ _ Hb Hc eq_refl ltac:(done) He) as (cmd' & E1 & E2); rewrite E1, E2; done.
  - destruct (command_line b0 cmd _ (b1 ++ key ++ rest) Hb Hc eq_refl ltac:(done)) as (cmd' & E1 & E2); [by apply blanks_end|].
    rewrite E1, E2, skip_blanks by auto using word_first. closed_tests. rewrite FirstToken_spec by done. rewrite (bool_decide_eq_false_2 (key = [])) by done.
    kv_step. unfold map_get. cbn [request_step fst snd]. destruct (m !! key); cbn [res_of_sum IsNotFound]; kv_step; [|done].
    unfold AppendLine. by rewrite <- !app_assoc.
  - destruct (command_line b0 cmd _ (b1 ++ key ++ b2 ++ value) Hb Hc eq_refl ltac:(done)) as (cmd' & E1 & E2); [by apply blanks_end|].
    rewrite E1, E2, skip_blanks by auto using word_first. closed_tests. rewrite SplitKeyValue_spec by done. rewrite (bool_decide_eq_false_2 (key = [])) by done.
    by kv_step.
  - destruct (command_line b0 cmd _ (b1 ++ key ++ rest) Hb Hc eq_refl ltac:(done)) as (cmd' & E1 & E2); [by apply blanks_end|].
    rewrite E1, E2, skip_blanks by auto using word_first. closed_tests. rewrite FirstToken_spec by done. rewrite (bool_decide_eq_false_2 (key = [])) by done.
    by kv_step.
  - unfold SplitCommand. by rewrite blanks_only.
  - destruct (command_line b0 cmd _ b1 Hb Hc eq_refl ltac:(done)) as (cmd' & E1 & E2); [by apply blanks_only_end|]. by rewrite E1, E2, blanks_only.
  - destruct (command_line b0 cmd _ b1 Hb Hc eq_refl ltac:(done)) as (cmd' & E1 & E2); [by apply blanks_only_end|]. by rewrite E1, E2, blanks_only.
  - destruct (command_line b0 cmd _ b1 Hb Hc eq_refl ltac:(done)) as (cmd' & E1 & E2); [by apply blanks_only_end|]. by rewrite E1, E2, blanks_only.
  - rewrite SplitCommand_spec by done. unfold commands in Hun. cbn [map] in Hun. rewrite !not_elem_of_cons in Hun.
    destruct Hun as (H1 & H2 & H3 & H4 & H5 & _). rewrite !bool_decide_eq_false_2 by (first [done | by destruct cmd]).
    unfold AppendLine. cbn [app request_step fst snd keeps_open]. by rewrite exec_ret, <- !app_assoc.
Qed.

(** ** Every line asks something *)

Lemma span_stops p s c : head (span p s).2 = Some c -> p c = false.
Proof.
  induction s as [|x s IH]; cbn [span]; [done|]. destruct (p x) eqn:E; [|by intros [= <-]]. destruct (span p s) as [a b]. exact IH.
Qed.
Lemma rest_ends_word s : ends_word (span is_word s).2.
Proof. intros c Hc. apply span_stops in Hc. rewrite is_word_sep in Hc. by apply negb_false_iff. Qed.

(** A line is blanks, a word, blanks and the rest. *)
Lemma line_split s : exists b w s', s = b ++ w ++ s' /\ blanks b /\ word w /\ ends_word s' /\ (w = [] -> s' = []).
Proof.
  exists (span is_sep s).1, (span is_word (span is_sep s).2).1, (span is_word (span is_sep s).2).2. rewrite <- !span_eq. split; [done|].
  split; [apply span_fst_all|]. split; [apply span_fst_all|]. split; [apply rest_ends_word|]. intros Hw.
  pose proof (span_eq is_word (span is_sep s).2) as E. rewrite Hw in E. cbn [app] in E. rewrite <- E.
  destruct (span is_sep s).2 as [|c s'] eqn:Es; [done|]. exfalso. cbn [span] in Hw.
  assert (is_sep c = false) as Hc by (apply (span_stops is_sep s); by rewrite Es). rewrite is_word_sep, Hc in Hw. cbn [negb] in Hw. by destruct (span is_word s').
Qed.

Lemma ends_word_blank b w s : ends_word (b ++ w ++ s) -> word w -> w <> [] -> b <> [].
Proof.
  intros He Hw Hne ->. destruct w as [|c w]; [done|]. specialize (He c eq_refl). apply andb_true_iff in Hw as [Hc _].
  rewrite is_word_sep, He in Hc. done.
Qed.

Lemma asks_total line : exists r, asks line r.
Proof.
  destruct (line_split line) as (b0 & cmd & s & -> & Hb & Hw & He & Hnil). destruct (decide (cmd = [])) as [->|Hc].
  { rewrite Hnil by done. cbn [app]. rewrite app_nil_r. eexists. by apply asks_nothing. }
  destruct (decide (ToUpperAscii cmd ∈ commands)) as [Hin|Hun]; [|eexists; by apply asks_unknown].
  destruct (line_split s) as (b1 & key & s1 & -> & Hb1 & Hk & He1 & Hnil1). unfold commands in Hin. cbn [map] in Hin.
  rewrite !elem_of_cons in Hin. destruct Hin as [Hin|[Hin|[Hin|[Hin|[Hin|[]%elem_of_nil]]]]].
  - eexists. by apply (asks_ping b0 cmd).
  - eexists. by apply (asks_quit b0 cmd).
  - destruct (decide (key = [])) as [->|Hkn]; [rewrite Hnil1, !app_nil_r by done; eexists; by apply (asks_get_nothing b0 cmd)|].
    eexists. apply (asks_get b0 cmd b1 key s1); try done. by eapply ends_word_blank.
  - destruct (decide (key = [])) as [->|Hkn]; [rewrite Hnil1, !app_nil_r by done; eexists; by apply (asks_set_nothing b0 cmd)|].
    pose proof (ends_word_blank _ _ _ He Hk Hkn) as Hb1n. rewrite (span_eq is_sep s1). eexists.
    apply (asks_set b0 cmd b1 key (span is_sep s1).1 (span is_sep s1).2); try done; [apply span_fst_all| |].
    + intros Hv Hb2. apply Hv. pose proof (span_eq is_sep s1) as E. rewrite Hb2 in E. cbn [app] in E. destruct s1 as [|c s1]; [done|].
      specialize (He1 c eq_refl). cbn [span] in Hb2. rewrite He1 in Hb2. by destruct (span is_sep s1).
    + intros c. apply span_stops.
  - destruct (decide (key = [])) as [->|Hkn]; [rewrite Hnil1, !app_nil_r by done; eexists; by apply (asks_del_nothing b0 cmd)|].
    eexists. apply (asks_del b0 cmd b1 key s1); try done. by eapply ends_word_blank.
Qed.

(** ** Connections *)

(** A line the server reads as it was sent. *)
Definition line_ok (line : bytes) : Prop := (newline ∉ line) /\ (cr ∉ line) /\ Z.of_nat (length line) <= 1024 * 1024.
Definition wire (lines : list bytes) : bytes := concat (map (fun line => line ++ [newline]) lines).

Lemma recv_line_spec line rest : forall out, (newline ∉ line) -> (cr ∉ line) -> Z.of_nat (length (out ++ line)) <= 1024 * 1024 ->
  recv_line out (line ++ newline :: rest) = Some (out ++ line, rest).
Proof.
  induction line as [|c line IH]; intros out Hn Hc Hl; cbn [app recv_line].
  - rewrite bool_decide_eq_true_2 by done. by rewrite app_nil_r.
  - rewrite not_elem_of_cons in Hn, Hc. destruct Hn as [Hn1 Hn2], Hc as [Hc1 Hc2].
    rewrite !bool_decide_eq_false_2 by done. rewrite length_app in Hl. cbn [length] in Hl.
    rewrite Z.gtb_ltb, (proj2 (Z.ltb_ge _ _)) by (rewrite length_app; cbn; lia).
    rewrite IH by (done || (rewrite !length_app; cbn; lia)). by rewrite <- app_assoc.
Qed.

Lemma RecvLine_wire line lines : line_ok line -> RecvLine (wire (line :: lines)) = Some (line, wire lines).
Proof. intros (Hn & Hc & Hl). unfold RecvLine, wire. cbn [map concat]. rewrite <- app_assoc. by apply (recv_line_spec line _ []). Qed.

Lemma exec_kv_serve_loop lines reqs : Forall2 asks lines reqs -> Forall line_ok lines -> forall n i sent m, (length lines < n)%nat ->
  exec (kv_serve_loop (fun _ => true) (fun _ => true) n i (wire lines) sent) (tt, m) =
    (Ret (sent ++ (connection_run reqs m).1), (tt, (connection_run reqs m).2)).
Proof.
  intros Ha. induction Ha as [|line r lines reqs Hl Ha IH]; intros Hok [|n] i sent m Hn; try (cbn in Hn; lia); cbn [kv_serve_loop negb].
  - cbn. by rewrite app_nil_r.
  - apply Forall_cons in Hok as [Hline Hok]. rewrite RecvLine_wire by done. rewrite exec_bind, (exec_ExecuteRequest _ _ _ Hl). cbn iota beta.
    cbn [length] in Hn. assert (forall reply m', exec (kv_serve_loop (fun _ => true) (fun _ => true) n (S i) (wire lines) (sent ++ reply)) (tt, m') =
      (Ret (sent ++ reply ++ (connection_run reqs m').1), (tt, (connection_run reqs m').2))) as Hrest.
    { intros reply m'. rewrite IH by (done || lia). by rewrite <- app_assoc. }
    destruct r; cbn [keeps_open request_step fst snd connection_run];
      [|by rewrite exec_ret|..]; rewrite Hrest; by destruct (connection_run reqs _).
Qed.

Lemma length_wire lines : (length lines <= length (wire lines))%nat.
Proof. unfold wire. induction lines as [|l lines IH]; [done|]. cbn [map concat length]. rewrite !length_app. cbn [length]. lia. Qed.

(** * Properties *)

(** What a line asks by the protocol's own description (server/main.cpp): the value of SET
    is the remainder of the line after the key and one blank.  A line whose value begins
    with a blank does not ask what the server takes it for ([leading_blanks_are_lost]). *)
Definition asks_as_documented (line : bytes) (r : Request) : Prop :=
  asks line r /\
  match r with
  | RSet key value => exists before, line = before ++ key ++ lit " " ++ value \/ (value = [] /\ line = before ++ key)
  | _ => True
  end.

(** C28: The server is a dictionary over the wire: for every list of lines of at most
    1 MiB and without carriage returns that a client sends - commands in upper or lower case
    with any blanks before their arguments, unknown commands and missing arguments
    included, but no SET whose value begins with a blank, which the server drops - the
    bytes sent back are the replies of a finite map to the requests that the lines
    ask, in order and up to the first QUIT, and the engine, opened in a new directory
    without I/O faults, whatever it flushes and compacts meanwhile, holds that map at
    the end. *)
Theorem server_is_dictionary (lines : list bytes) (reqs : list Request) (options : Options) (name : bytes) (w : World) :
  let client := Server_ServeClient (fun _ => true) (fun _ => true) (wire lines) in
  let '(replies, m) := connection_run reqs ∅ in
  Forall2 asks_as_documented lines reqs -> Forall line_ok lines ->
  options_ok options -> 0 < write_buffer_size options -> create_if_missing options = true ->
  no_faults w -> PathExists name w = false -> kv_room (client tt) ∅ + 40 < 2 ^ 32 ->
  exists d d', DB_Open options name w = (Ret tt, d) /\ run_kv (client tt) d = (Ret (Ret replies, tt), d') /\
    forall key, Z.of_nat (length key) + 8 < 2 ^ 32 -> (Get (mkReadOptions 0) key d').1 = res_of_sum (map_get m key).
Proof.
  intros client. destruct (connection_run reqs ∅) as [replies m] eqn:E. intros Ha Hl Ho Hw Hc Hf Hex Hroom.
  assert (Forall2 asks lines reqs) as Ha' by (eapply Forall2_impl; [exact Ha|by intros ? ? []]).
  destruct (fresh_engine_runs (client tt) options name w) as (d & d' & Ed & Er & Hrep); try done.
  assert (exec client (tt, ∅) = (Ret replies, (tt, m))) as Em.
  { subst client. unfold Server_ServeClient. rewrite (exec_kv_serve_loop lines reqs Ha' Hl) by (pose proof (length_wire lines); lia). by rewrite E. }
  unfold exec in Em. cbn [fst snd] in Em. destruct (run_map (client tt) ∅) as [[r u] m0] eqn:Erun. injection Em as -> -> ->.
  exists d, d'. cbn [fst snd] in Er, Hrep. split; [done|]. split; [done|]. intros key Hk. by eapply db_kv_rep_Get.
Qed.

Lemma server_is_dictionary_witness :
  let lines := [lit "SET  k hello  world"; lit " get k"; lit "DEL k"; lit "GET k now"; lit "quit"; lit "PING"] in
  let options := mkOptions true false 4096 4096 16 2 2 in
  exists d d', DB_Open options (lit "db") (mkWorld ∅ ∅ []) = (Ret tt, d) /\
    run_kv (Server_ServeClient (fun _ => true) (fun _ => true) (wire lines) tt) d =
      (Ret (Ret (wire [lit "+OK"; lit "$12"; lit "hello  world"; lit "+OK"; lit "NOT_FOUND"; lit "+OK"]), tt), d').
Proof.
  intros lines options.
  destruct (server_is_dictionary lines [RSet (lit "k") (lit "hello  world"); RGet (lit "k"); RDel (lit "k"); RGet (lit "k"); RQuit; RPing]
    options (lit "db") (mkWorld ∅ ∅ [])) as (d & d' & E & Er & _); try reflexivity.
  - constructor; [split; [apply (asks_set [] (lit "SET") (lit "  ") (lit "k") (lit " ") (lit "hello  world")); done || (by constructor) || by intros c [= <-]|exists (lit "SET  "); by left]|].
    constructor; [split; [apply (asks_get (lit " ") (lit "get") (lit " ") (lit "k") []); done || (by constructor) || by intros c [=]|done]|].
    constructor; [split; [apply (asks_del [] (lit "DEL") (lit " ") (lit "k") []); done || (by constructor) || by intros c [=]|done]|].
    constructor; [split; [apply (asks_get [] (lit "GET") (lit " ") (lit "k") (lit " now")); done || (by constructor) || by intros c [= <-]|done]|].
    constructor; [split; [apply (asks_quit [] (lit "quit") []); done || (by constructor) || by intros c [=]|done]|].
    constructor; [split; [apply (asks_ping [] (lit "PING") []); done || (by constructor) || by intros c [=]|done]|]. constructor.
  - apply (bool_decide_unpack _). vm_compute. exact I.
  - vm_compute. discriminate.
  - exists d, d'. split; [exact E|]. rewrite Er. reflexivity.
Defined.

(** The blanks at the start of a value are lost. *)
Example leading_blanks_are_lost : ExecuteRequest (lit "SET k  v") = ExecuteRequest (lit "SET k v").
Proof. reflexivity. Qed.
