(* ===== verification/QueryFormat.v ===== *)
(** Results as text (src/reldb/query_format.cpp): what the shell and the network client
    print.

    The number of blanks after a cell is the difference of two sizes; were it
    negative, the C++ would ask for a string of almost 2^64 blanks, which is [Stuck]
    here. *)
From S2P Require Import Prelude Status Env Version Types Schema Row Expr SqlAst Text.
From S2P Require Import Kv Mvcc Catalog Database Txn Executor.

Delimit Scope byte_scope with byte.

(** [std::string(w - n, ' ')] *)
Definition pad (w n : nat) : Res bytes := if (n <=? w)%nat then Ret (replicate (w - n) Byte.x20) else Stuck.

(** The widths after a row of cells; cells beyond the last column have none. *)
Fixpoint widen (widths : list nat) (line : list bytes) : list nat :=
  match widths, line with
  | w :: widths, s :: line => (if (w <? length s)%nat then length s else w) :: widen widths line
  | _, _ => widths
  end.

Definition print_sep (widths : list nat) : bytes :=
  lit "+" ++ concat (map (fun w => replicate (w + 2) "-"%byte ++ lit "+") widths) ++ [newline].

(** The cells of a line; one beyond the last column is as wide as itself. *)
Fixpoint print_cells (line : list bytes) (widths : list nat) : Res bytes :=
  match line with
  | [] => Ret []
  | s :: line =>
    let w := match widths with w :: _ => w | [] => length s end in
    blanks ← pad w (length s);
    rest ← print_cells line (tail widths);
    Ret (lit " " ++ s ++ blanks ++ lit " |" ++ rest)
  end.
Definition print_line (widths : list nat) (line : list bytes) : Res bytes :=
  cells ← print_cells line widths; Ret (lit "|" ++ cells ++ [newline]).
Fixpoint print_lines (widths : list nat) (lines : list (list bytes)) : Res bytes :=
  match lines with
  | [] => Ret []
  | line :: lines => l ← print_line widths line; ls ← print_lines widths lines; Ret (l ++ ls)
  end.

Definition rows_affected_line (n : Z) : bytes := lit "rows_affected: " ++ to_string n ++ [newline].

Definition FormatQueryResult (r : QueryResult) : Res bytes :=
  let plan := if bool_decide (plan_tag r = []) then [] else lit "plan: " ++ plan_tag r ++ [newline] in
  if negb (rows_affected r =? 0) && bool_decide (rows r = []) then Ret (plan ++ rows_affected_line (rows_affected r))
  else if bool_decide (column_names r = []) && bool_decide (rows r = []) then Ret (plan ++ lit "ok" ++ [newline])
  else
    let cells := map (map Value_ToString) (rows r) in
    let widths := foldl widen (map length (column_names r)) cells in
    let sep := if bool_decide (column_names r = []) then [] else print_sep widths in
    header ← (if bool_decide (column_names r = []) then Ret [] else h ← print_line widths (column_names r); Ret (sep ++ h ++ sep));
    body ← print_lines widths cells;
    let n := Z.of_nat (length (rows r)) in
    Ret (plan ++ header ++ body ++ sep ++ lit "(" ++ to_string n ++ lit " row" ++ (if n =? 1 then [] else lit "s") ++ lit ")" ++ [newline] ++
         (if negb (rows_affected r =? 0) then rows_affected_line (rows_affected r) else [])).

(** * Lemmas *)

(** Wide enough for a line: each of its cells that has a column fits. *)
Fixpoint covers (widths : list nat) (line : list bytes) : Prop :=
  match widths, line with
  | w :: widths, s :: line => (length s <= w)%nat /\ covers widths line
  | _, _ => True
  end.

Lemma widen_length line : forall widths, length (widen widths line) = length widths.
Proof. induction line as [|s line IH]; intros [|w widths]; cbn; auto. Qed.
Lemma widen_covers line : forall widths, covers (widen widths line) line.
Proof. induction line as [|s line IH]; intros [|w widths]; [done..|]. cbn [widen covers]. split; [|done]. destruct (Nat.ltb_spec w (length s)); lia. Qed.
Lemma widen_keeps line' : forall widths line, covers widths line -> covers (widen widths line') line.
Proof.
  induction line' as [|s' line' IH]; intros [|w widths] [|s line]; try done. cbn [widen covers]. intros [H1 H2]. split; [|by apply IH].
  destruct (Nat.ltb_spec w (length s')); lia.
Qed.
Lemma widths_cover lines : forall widths line, covers widths line \/ line ∈ lines -> covers (foldl widen widths lines) line.
Proof.
  induction lines as [|l lines IH]; intros widths line [H|H]; cbn [foldl]; [done|by apply elem_of_nil in H|..]; apply IH.
  - left. by apply widen_keeps.
  - apply elem_of_cons in H as [->|H]; [left; apply widen_covers|by right].
Qed.
Lemma widths_length lines : forall widths, length (foldl widen widths lines) = length widths.
Proof. induction lines as [|l lines IH]; intros widths; cbn [foldl]; [done|]. by rewrite IH, widen_length. Qed.
Lemma names_covered names : covers (map length names) names.
Proof. induction names as [|s names IH]; cbn; [done|]. by split. Qed.

(** The text of the cells of a line that fits. *)
Fixpoint laid_out (widths : list nat) (line : list bytes) : bytes :=
  match line with
  | [] => []
  | s :: line => lit " " ++ s ++ replicate (match widths with w :: _ => w | [] => length s end - length s) Byte.x20 ++ lit " |" ++ laid_out (tail widths) line
  end.

Lemma print_cells_covered line : forall widths, covers widths line -> print_cells line widths = Ret (laid_out widths line).
Proof.
  induction line as [|s line IH]; intros widths H; [done|]. cbn [print_cells laid_out]. unfold pad.
  assert (covers (tail widths) line /\ (length s <= match widths with w :: _ => w | [] => length s end)%nat) as [Ht Hw].
  { destruct widths; cbn in *; [split; [by destruct line|done]|]. destruct H. done. }
  rewrite (proj2 (Nat.leb_le _ _) Hw). cbn [mbind Res_bind]. by rewrite IH.
Qed.

Definition table_width (widths : list nat) : nat := foldr (fun w n => w + 3 + n)%nat 1%nat widths.

Lemma laid_out_width line : forall widths, covers widths line -> length line = length widths -> (S (length (laid_out widths line)) = table_width widths)%nat.
Proof.
  induction line as [|s line IH]; intros [|w widths] H Hl; try done. cbn [laid_out table_width foldr tail]. destruct H as [Hs Ht].
  cbn [length] in Hl. specialize (IH widths Ht ltac:(lia)). unfold table_width in IH. rewrite !length_app, length_replicate. change (length (lit " ")) with 1%nat. change (length (lit " |")) with 2%nat. lia.
Qed.
Lemma print_sep_width widths : length (print_sep widths) = S (table_width widths).
Proof.
  unfold print_sep. rewrite !length_app. cbn [length]. change (length (lit "+")) with 1%nat. induction widths as [|w widths IH]; [done|].
  cbn [map concat table_width foldr]. rewrite !length_app, length_replicate. change (length (lit "+")) with 1%nat. unfold table_width in *. lia.
Qed.

Lemma print_lines_covered lines widths : Forall (covers widths) lines ->
  print_lines widths lines = Ret (concat (map (fun line => lit "|" ++ laid_out widths line ++ [newline]) lines)).
Proof.
  induction 1 as [|line lines Hl _ IH]; [done|]. cbn [print_lines map concat]. unfold print_line. rewrite print_cells_covered by done.
  cbn [mbind Res_bind]. by rewrite IH.
Qed.

Lemma table_lines (s h : bytes) (ls : list bytes) (a f : bytes) :
  a ++ (s ++ h ++ s) ++ concat ls ++ s ++ f = a ++ concat ([s; h; s] ++ ls ++ [s]) ++ f.
Proof. rewrite !concat_app. cbn [concat]. by rewrite !app_nil_r, <- !app_assoc. Qed.

(** * Properties *)

(** A result is always printed, as an aligned table: every line of the table - the
    rulers, the names, one line per row - has the same width, and shows the cells in
    their order, each padded with blanks and closed by a bar. *)
Theorem result_is_printed (r : QueryResult) :
  (exists out, FormatQueryResult r = Ret out) /\
  (column_names r <> [] -> rows_affected r = 0 -> Forall (fun row => length row = length (column_names r)) (rows r) ->
   exists widths before after, let cells := map (map Value_ToString) (rows r) in
     let lines := [print_sep widths; lit "|" ++ laid_out widths (column_names r) ++ [newline]; print_sep widths] ++
       map (fun line => lit "|" ++ laid_out widths line ++ [newline]) cells ++ [print_sep widths] in
     FormatQueryResult r = Ret (before ++ concat lines ++ after) /\
     Forall (fun line => length line = S (table_width widths)) lines).
Proof.
  set (widths := foldl widen (map length (column_names r)) (map (map Value_ToString) (rows r))).
  assert (Forall (covers widths) (map (map Value_ToString) (rows r))) as Hc.
  { apply Forall_forall. intros line Hin. apply widths_cover. by right. }
  assert (covers widths (column_names r)) as Hn by (apply widths_cover; left; apply names_covered). split.
  - unfold FormatQueryResult. destruct (negb (rows_affected r =? 0) && _); [eauto|]. destruct (bool_decide (column_names r = []) && _); [eauto|]. fold widths.
    rewrite (print_lines_covered _ _ Hc). unfold print_line. rewrite (print_cells_covered _ _ Hn). destruct (bool_decide (column_names r = [])); cbn [mbind Res_bind]; eauto.
  - intros Hne Ha Hw. exists widths. unfold FormatQueryResult. rewrite Ha. change (0 =? 0) with true. cbn [negb andb].
    rewrite (bool_decide_eq_false_2 (column_names r = [])) by done. cbn [andb]. fold widths.
    rewrite (print_lines_covered _ _ Hc). unfold print_line. rewrite (print_cells_covered _ _ Hn). cbn [mbind Res_bind].
    eexists _, _. split.
    + rewrite table_lines. reflexivity.
    + assert (forall line, covers widths line -> length line = length (column_names r) -> length (lit "|" ++ laid_out widths line ++ [newline]) = S (table_width widths)) as Hl.
      { intros line H1 H2. rewrite !length_app. cbn [length]. change (length (lit "|")) with 1%nat.
        rewrite <- (laid_out_width line widths); [lia|done|]. unfold widths. by rewrite widths_length, length_map. }
      assert (Forall (fun line => length line = S (table_width widths)) [print_sep widths]) as Hsep by (by repeat constructor; apply print_sep_width).
      cbn [app]. constructor; [apply print_sep_width|]. constructor; [by apply Hl|]. constructor; [apply print_sep_width|].
      apply Forall_app. split; [|done]. rewrite !Forall_map. rewrite Forall_map in Hc. eapply Forall_impl; [apply Forall_and; split; [exact Hc|exact Hw]|].
      intros row [H1 H2]. apply Hl; [done|]. by rewrite length_map.
Qed.
