(* ===== verification/Protocol.v ===== *)
(** The SQL wire protocol (sql_server/protocol.h, sql_server/protocol.cpp): cells and
    replies as lines of text, the client's decoder, and the framing of statements. *)
From S2P Require Import Prelude Status Env Version Types Schema Row Expr SqlAst Text.
From S2P Require Import Kv Mvcc Catalog Database Txn Executor.
Delimit Scope byte_scope with byte.

Definition backslash : byte := Byte.x5c.

Definition kMaxStatementBytes : Z := 1024 * 1024.

(** [AppendLine(&out, line)] for each line. *)
Definition line_text (line : bytes) : bytes := line ++ [newline].
Definition unlines (ls : list bytes) : bytes := concat (map line_text ls).

(** * Cells *)

Definition HexValue (c : byte) : Z :=
  let z := bz c in
  if (48 <=? z) && (z <=? 57) then z - 48
  else if (97 <=? z) && (z <=? 102) then z - 97 + 10
  else if (65 <=? z) && (z <=? 70) then z - 65 + 10
  else -1.

(** [kHex[n]] *)
Definition hex_digit (n : Z) : byte := if n <? 10 then zb (48 + n) else zb (65 + (n - 10)).

Definition escape_char (ch : byte) : bytes :=
  if bool_decide (ch = backslash) then [backslash; backslash]
  else if bool_decide (ch = newline) then [backslash; "n"%byte]
  else if bool_decide (ch = cr) then [backslash; "r"%byte]
  else if bool_decide (ch = Byte.x09) then [backslash; "t"%byte]
  else if (bz ch <? 32) || (bz ch =? 127) then
    [backslash; "x"%byte; hex_digit (Z.shiftr (bz ch) 4); hex_digit (Z.land (bz ch) 15)]
  else [ch].
Definition EscapeString (s : bytes) : bytes := concat (map escape_char s).

Fixpoint UnescapeString (escaped : bytes) : Res bytes :=
  match escaped with
  | [] => Ret []
  | ch :: rest =>
    if negb (bool_decide (ch = backslash)) then out ← UnescapeString rest; Ret (ch :: out)
    else
      match rest with
      | [] => Fail (InvalidArgument (lit "truncated string escape"))
      | e :: rest =>
        if bool_decide (e = backslash) then out ← UnescapeString rest; Ret (backslash :: out)
        else if bool_decide (e = "n"%byte) then out ← UnescapeString rest; Ret (newline :: out)
        else if bool_decide (e = "r"%byte) then out ← UnescapeString rest; Ret (cr :: out)
        else if bool_decide (e = "t"%byte) then out ← UnescapeString rest; Ret (Byte.x09 :: out)
        else if bool_decide (e = "x"%byte) then
          match rest with
          | h :: l :: rest =>
            let hi := HexValue h in
            let lo := HexValue l in
            if (hi <? 0) || (lo <? 0) then Fail (InvalidArgument (lit "invalid \x escape"))
            else out ← UnescapeString rest; Ret (zb (Z.lor (Z.shiftl hi 4) lo) :: out)
          | _ => Fail (InvalidArgument (lit "truncated \x escape"))
          end
        else Fail (InvalidArgument (lit "unknown string escape"))
      end
  end.

Definition EncodeCell (v : Value) : bytes :=
  match v with
  | VNull => lit "$N"
  | VInt64 z => lit "$I:" ++ to_string_signed z
  | VBool b => if b then lit "$B:1" else lit "$B:0"
  | VString s => lit "$S:" ++ EscapeString s
  end.

(** [ParseU64], [ParseI64]: the empty text is refused before the conversion. *)
Definition ParseU64 (s : bytes) : option Z := from_chars_u64 s.
Definition ParseI64 (s : bytes) : option Z := from_chars_i64 s.

Definition DecodeCell (line : bytes) : Res Value :=
  if bool_decide (line = lit "$N") then Ret VNull
  else if starts line (lit "$I:") then
    match ParseI64 (drop 3 line) with
    | Some v => Ret (VInt64 v)
    | None => Fail (InvalidArgument (lit "bad int cell"))
    end
  else if bool_decide (line = lit "$B:0") then Ret (VBool false)
  else if bool_decide (line = lit "$B:1") then Ret (VBool true)
  else if starts line (lit "$S:") then s ← UnescapeString (drop 3 line); Ret (VString s)
  else Fail (InvalidArgument (lit "unknown cell form")).

(** * Replies *)

Definition EncodeError (st : Status) : bytes := lit "-ERR " ++ Status_ToString st ++ [newline].
Definition EncodeOk : bytes := lit "+OK" ++ [newline].
Definition EncodeOkRowsAffected (n : Z) : bytes := lit "+OK rows_affected=" ++ to_string n ++ [newline].
Definition EncodePong : bytes := lit "+PONG" ++ [newline].
Definition EncodeStatus (in_txn : bool) : bytes := lit "+OK in_txn=" ++ (if in_txn then lit "1" else lit "0") ++ [newline].

Definition result_columns (r : QueryResult) : nat :=
  if bool_decide (column_names r = []) then match rows r with [] => 0%nat | row :: _ => length row end
  else length (column_names r).

(** A name or a cell for every column, empty or null where there is none. *)
Definition padded {A} (d : A) (n : nat) (l : list A) : list A := map (fun c => default d (l !! c)) (seq 0 n).

Definition EncodeQueryResult (r : QueryResult) : bytes :=
  if bool_decide (column_names r = []) && bool_decide (rows r = []) then
    if rows_affected r >? 0 then EncodeOkRowsAffected (rows_affected r) else EncodeOk
  else
    let nrows := Z.of_nat (length (rows r)) in
    let n := result_columns r in
    let ncols := to_string (Z.of_nat n) in
    unlines
      ((if bool_decide (plan_tag r = []) then [] else [lit "*PLAN " ++ plan_tag r]) ++
       [lit "*RESULT " ++ to_string nrows ++ lit " " ++ ncols; lit "*COLS " ++ ncols] ++
       padded [] n (column_names r) ++
       concat (map (fun row => lit "*ROW" :: map EncodeCell (padded VNull n row)) (rows r)) ++
       [lit "*END"]).

(** * Decoding *)

Inductive ReplyKind : Set := kReplyOk | kPong | kError | kResult | kUnknown.

(** [has_rows_affected] and [has_in_txn] are the options' constructors. *)
Record DecodedReply := mkDecodedReply {
  dr_kind : ReplyKind;
  error_text : bytes;
  dr_rows_affected : option Z;
  dr_in_txn : option bool;
  dr_plan_tag : bytes;
  dr_result : QueryResult
}.
Definition reply_of_kind (k : ReplyKind) : DecodedReply := mkDecodedReply k [] None None [] QueryResult_Clear.

(** A line without the carriage return before its end. *)
Definition strip_cr (line : bytes) : bytes := if bool_decide (last line = Some cr) then take (length line - 1) line else line.

(** [cur]: the line so far. *)
Fixpoint split_lines (cur text : bytes) : list bytes :=
  match text with
  | [] => if bool_decide (cur = []) then [] else [strip_cr cur]
  | c :: text => if bool_decide (c = newline) then strip_cr cur :: split_lines [] text else split_lines (cur ++ [c]) text
  end.
Definition SplitLines (text : bytes) : list bytes := split_lines [] text.

(** [n] lines, each decoded. *)
Fixpoint take_lines {A} (n : nat) (decode : bytes -> Res A) (missing : Status) (lines : list bytes) : Res (list A * list bytes) :=
  match n with
  | O => Ret ([], lines)
  | S n =>
    match lines with
    | [] => Fail missing
    | line :: lines =>
      x ← decode line;
      '(xs, lines') ← take_lines n decode missing lines;
      Ret (x :: xs, lines')
    end
  end.

Fixpoint take_rows (nrows ncols : nat) (lines : list bytes) : Res (list Row * list bytes) :=
  match nrows with
  | O => Ret ([], lines)
  | S nrows =>
    match lines with
    | line :: lines =>
      if negb (bool_decide (line = lit "*ROW")) then Fail (InvalidArgument (lit "expected *ROW"))
      else
        '(cells, lines) ← take_lines ncols DecodeCell (InvalidArgument (lit "missing cell")) lines;
        '(rs, lines) ← take_rows nrows ncols lines;
        Ret (cells :: rs, lines)
    | [] => Fail (InvalidArgument (lit "expected *ROW"))
    end
  end.

(** [rest.find(' ')] *)
Definition find_space (s : bytes) : option nat := fst <$> list_find (eq Byte.x20) s.

(** The counts of a [*RESULT] line, after its first word. *)
Definition result_counts (rest : bytes) : Res (Z * Z) :=
  match find_space rest with
  | None => Fail (InvalidArgument (lit "bad *RESULT"))
  | Some sp =>
    match ParseU64 (take sp rest), ParseU64 (drop (sp + 1) rest) with
    | Some nrows, Some ncols => Ret (nrows, ncols)
    | _, _ => Fail (InvalidArgument (lit "bad *RESULT counts"))
    end
  end.

(** The block from its first line on. *)
Definition decode_block (plan : bytes) (lines : list bytes) : Res DecodedReply :=
  match lines with
  | first :: lines =>
    if negb (starts first (lit "*RESULT ")) then Fail (InvalidArgument (lit "expected *RESULT"))
    else
      '(nrows, ncols) ← result_counts (drop 8 first);
      match lines with
      | cols :: lines =>
        if negb (starts cols (lit "*COLS ")) then Fail (InvalidArgument (lit "expected *COLS"))
        else if negb (bool_decide (ParseU64 (drop 6 cols) = Some ncols)) then Fail (InvalidArgument (lit "*COLS mismatch"))
        else
          '(names, lines) ← take_lines (Z.to_nat ncols) Ret (InvalidArgument (lit "missing column name")) lines;
          '(rs, lines) ← take_rows (Z.to_nat nrows) (Z.to_nat ncols) lines;
          if bool_decide (head lines = Some (lit "*END"))
          then Ret (mkDecodedReply kResult [] None None plan (mkQueryResult names rs 0 plan))
          else Fail (InvalidArgument (lit "expected *END"))
      | [] => Fail (InvalidArgument (lit "expected *COLS"))
      end
  | [] => Fail (InvalidArgument (lit "expected *RESULT"))
  end.

(** The rest of an OK line, after its space. *)
Definition decode_ok (rest : bytes) : Res DecodedReply :=
  let with_rows n := mkDecodedReply kReplyOk [] (Some n) None [] QueryResult_Clear in
  let with_txn b := mkDecodedReply kReplyOk [] None (Some b) [] QueryResult_Clear in
  if starts rest (lit "rows_affected=") then
    match ParseU64 (drop 14 rest) with
    | Some n => Ret (with_rows n)
    | None => Fail (InvalidArgument (lit "bad rows_affected"))
    end
  else if starts rest (lit "in_txn=") then
    if bool_decide (drop 7 rest = lit "0") then Ret (with_txn false)
    else if bool_decide (drop 7 rest = lit "1") then Ret (with_txn true)
    else Fail (InvalidArgument (lit "bad in_txn"))
  else Ret (reply_of_kind kReplyOk).

Definition DecodeReply (text : bytes) : Res DecodedReply :=
  match SplitLines text with
  | [] => Fail (InvalidArgument (lit "empty reply"))
  | (first :: rest) as lines =>
    if bool_decide (first = lit "+PONG") then Ret (reply_of_kind kPong)
    else if starts first (lit "-ERR") then
      let text := if bool_decide (first !! 4%nat = Some Byte.x20) then drop 5 first else drop 4 first in
      Ret (mkDecodedReply kError text None None [] QueryResult_Clear)
    else if starts first (lit "+OK") then
      if (length first =? 3)%nat then Ret (reply_of_kind kReplyOk)
      else if (4 <? length first)%nat && bool_decide (first !! 3%nat = Some Byte.x20) then decode_ok (drop 4 first)
      else Ret (reply_of_kind kReplyOk)
    else if starts first (lit "*PLAN ") then decode_block (drop 6 first) rest
    else decode_block [] lines
  end.

(** * Framing *)

Definition is_trailing_blank (c : byte) : bool :=
  bool_decide (c = Byte.x20) || bool_decide (c = Byte.x09) || bool_decide (c = newline) || bool_decide (c = cr).

Fixpoint ends_loop (in_string : bool) (s : bytes) : bool :=
  match s with
  | [] => false
  | ch :: rest =>
    if in_string then
      if bool_decide (ch = quote) then
        match rest with
        | c :: rest' => if bool_decide (c = quote) then ends_loop true rest' else ends_loop false rest
        | [] => ends_loop false rest
        end
      else ends_loop true rest
    else if bool_decide (ch = quote) then ends_loop true rest
    else if bool_decide (ch = ";"%byte) then
      if bool_decide ((span is_trailing_blank rest).2 = []) then true else ends_loop false rest
    else ends_loop false rest
  end.
Definition EndsWithStatementTerminator (s : bytes) : bool := ends_loop false s.

(** The buffer with the line, or the reply that refuses it. *)
Definition TryAppendLine (buffer line : bytes) : bytes + bytes :=
  let extra := if bool_decide (buffer = []) then Z.of_nat (length line) else 1 + Z.of_nat (length line) in
  if Z.of_nat (length buffer) + extra >? kMaxStatementBytes
  then inl (EncodeError (InvalidArgument (lit "statement too large")))
  else inr (if bool_decide (buffer = []) then line else buffer ++ [newline] ++ line).

(** * Lines *)

(** A text that survives being sent as a line. *)
Definition line_ok (l : bytes) : bool := forallb (fun c => negb (bool_decide (c = newline))) l && negb (bool_decide (last l = Some cr)).

Lemma strip_cr_ok l : last l <> Some cr -> strip_cr l = l.
Proof. intros H. unfold strip_cr. by rewrite bool_decide_eq_false_2. Qed.

Lemma split_line l : forall cur rest, forallb (fun c => negb (bool_decide (c = newline))) l = true ->
  split_lines cur (l ++ newline :: rest) = strip_cr (cur ++ l) :: split_lines [] rest.
Proof.
  induction l as [|c l IH]; intros cur rest H; cbn [app split_lines].
  - rewrite bool_decide_eq_true_2 by done. by rewrite app_nil_r.
  - cbn in H. apply andb_true_iff in H as [Hc Hl]. destruct (bool_decide (c = newline)); [done|]. rewrite IH by done. by rewrite <- app_assoc.
Qed.

Lemma SplitLines_unlines ls : forallb line_ok ls = true -> SplitLines (unlines ls) = ls.
Proof.
  unfold SplitLines, unlines. induction ls as [|l ls IH]; [done|]. cbn [forallb map concat]. intros [Hl Hls]%andb_true_iff.
  apply andb_true_iff in Hl as [H1 H2]. unfold line_text at 1. rewrite <- app_assoc. cbn [app]. rewrite split_line by done. cbn [app].
  rewrite strip_cr_ok by (intros E; rewrite E in H2; done). by rewrite IH.
Qed.

(** Text without control characters is a line. *)
Definition plain (c : byte) : bool := negb (bool_decide (c = newline)) && negb (bool_decide (c = cr)).

Lemma plain_line_ok l : forallb plain l = true -> line_ok l = true.
Proof.
  intros H. unfold line_ok. apply andb_true_iff. split.
  - apply forallb_forall. intros c Hc. rewrite forallb_forall in H. specialize (H c Hc). by apply andb_true_iff in H as [? _].
  - case_bool_decide as E; [|done]. apply last_Some in E as [l' ->]. rewrite forallb_app in H. by apply andb_true_iff in H as [_ H].
Qed.

Lemma digits_plain l : forallb isdigit l = true -> forallb plain l = true.
Proof.
  intros H. apply forallb_forall. intros c Hc. rewrite forallb_forall in H. specialize (H c Hc).
  unfold plain. rewrite !bool_decide_eq_false_2; [done| |]; by intros ->.
Qed.

(** * Round trips *)

Lemma unescape_char c r : UnescapeString (escape_char c ++ r) = (out ← UnescapeString r; Ret (c :: out)).
Proof. destruct c; reflexivity. Qed.

Lemma Unescape_Escape s : UnescapeString (EscapeString s) = Ret s.
Proof. induction s as [|c s IH]; [done|]. unfold EscapeString in *. cbn [map concat]. by rewrite unescape_char, IH. Qed.

Lemma escape_plain s : forallb plain (EscapeString s) = true.
Proof.
  unfold EscapeString. induction s as [|c s IH]; [done|]. cbn [map concat]. rewrite forallb_app, IH, andb_true_r. by destruct c.
Qed.

Lemma to_string_signed_plain z : forallb plain (to_string_signed z) = true.
Proof.
  unfold to_string_signed. destruct (Z.ltb_spec z 0); cbn [forallb]; [change (plain Byte.x2d) with true; cbn [andb]|];
    apply digits_plain, to_string_digits; lia.
Qed.

Lemma EncodeCell_plain v : forallb plain (EncodeCell v) = true.
Proof.
  destruct v as [|z|s|[]]; cbn [EncodeCell]; try done; rewrite forallb_app.
  - by rewrite to_string_signed_plain.
  - by rewrite escape_plain.
Qed.

Lemma starts_app p s : starts (p ++ s) p = true.
Proof. unfold starts. rewrite take_app_length. by apply bool_decide_eq_true_2. Qed.

Lemma DecodeCell_EncodeCell v : match v with VInt64 z => int64 z | _ => True end -> DecodeCell (EncodeCell v) = Ret v.
Proof.
  destruct v as [|z|s|[]]; cbn [EncodeCell]; try done; intros Hv; unfold DecodeCell.
  - rewrite bool_decide_eq_false_2 by done. rewrite starts_app. change (drop 3 (lit "$I:" ++ to_string_signed z)) with (to_string_signed z).
    unfold ParseI64. by rewrite from_chars_i64_to_string.
  - rewrite bool_decide_eq_false_2 by done. change (starts (lit "$S:" ++ EscapeString s) (lit "$I:")) with false. cbn iota.
    rewrite bool_decide_eq_false_2 by done. rewrite bool_decide_eq_false_2 by done. rewrite starts_app.
    change (drop 3 (lit "$S:" ++ EscapeString s)) with (EscapeString s). by rewrite Unescape_Escape.
Qed.

(** A cell line is not a keyword line of the block. *)
Lemma take_lines_map {A B} (enc : A -> bytes) (decode : bytes -> Res B) (f : A -> B) missing xs rest :
  Forall (fun x => decode (enc x) = Ret (f x)) xs -> take_lines (length xs) decode missing (map enc xs ++ rest) = Ret (map f xs, rest).
Proof. induction 1 as [|x xs Hx _ IH]; [done|]. cbn [length map app take_lines]. rewrite Hx. cbn [mbind Res_bind]. by rewrite IH. Qed.

Lemma padded_full {A} (d : A) l n : length l = n -> padded d n l = l.
Proof.
  intros <-. unfold padded. apply list_eq. intros i. rewrite list_lookup_fmap. destruct (decide (i < length l)%nat) as [Hi|Hi].
  - rewrite lookup_seq_lt by done. cbn. by destruct (lookup_lt_is_Some_2 l i Hi) as [x ->].
  - rewrite lookup_seq_ge by lia. symmetry. apply lookup_ge_None. lia.
Qed.

(** The rows of a block. *)
Definition cell_ok (v : Value) : Prop := match v with VInt64 z => int64 z | _ => True end.
Lemma take_rows_map n rs rest : Forall (fun row : Row => length row = n /\ Forall cell_ok row) rs ->
  take_rows (length rs) n (concat (map (fun row => lit "*ROW" :: map EncodeCell (padded VNull n row)) rs) ++ rest) = Ret (rs, rest).
Proof.
  induction 1 as [|row rs [Hn Hc] _ IH]; [done|]. cbn [map concat length take_rows]. rewrite padded_full by done.
  rewrite <- app_assoc. cbn [app]. rewrite bool_decide_eq_true_2 by done. cbn [negb]. rewrite <- Hn at 1.
  rewrite (take_lines_map EncodeCell DecodeCell id).
  - cbn [mbind Res_bind]. rewrite IH. cbn [mbind Res_bind]. by rewrite list_fmap_id.
  - eapply Forall_impl; [exact Hc|]. intros v Hv. by apply DecodeCell_EncodeCell.
Qed.

Lemma find_space_digits ds rest : forallb isdigit ds = true -> find_space (ds ++ Byte.x20 :: rest) = Some (length ds).
Proof.
  intros H. unfold find_space. rewrite (list_find_app_r).
  - done.
  - apply list_find_None. apply Forall_forall. intros c Hc <-. rewrite forallb_forall in H. by specialize (H _ (proj1 (list_elem_of_In _ _) Hc)).
Qed.

Lemma result_counts_printed nrows ncols : 0 <= nrows < 2 ^ 64 -> 0 <= ncols < 2 ^ 64 ->
  result_counts (to_string nrows ++ lit " " ++ to_string ncols) = Ret (nrows, ncols).
Proof.
  intros H1 H2. unfold result_counts. change (lit " " ++ to_string ncols) with (Byte.x20 :: to_string ncols).
  rewrite find_space_digits by (apply to_string_digits; lia). rewrite take_app_length, <- drop_drop, drop_app_length. unfold ParseU64. cbn [drop].
  rewrite drop_0, !from_chars_u64_to_string by lia. done.
Qed.

(** * Properties *)

(** A result the protocol can carry: names and plan are lines, rows are as wide as
    the names, counts and integers fit 64 bits. *)
Record result_ok (r : QueryResult) : Prop := {
  ro_names : forallb line_ok (column_names r) = true;
  ro_plan : line_ok (plan_tag r) = true;
  ro_rows : Forall (fun row => length row = length (column_names r) /\ Forall cell_ok row) (rows r);
  ro_empty : column_names r = [] -> rows r = [];
  ro_counts : Z.of_nat (length (rows r)) < 2 ^ 64 /\ Z.of_nat (length (column_names r)) < 2 ^ 64 /\ 0 <= rows_affected r < 2 ^ 64
}.

(** What the client learns: a result set with its plan, or the number of rows
    affected, or just success. *)
Definition decoded_result (r : QueryResult) : DecodedReply :=
  if bool_decide (column_names r = []) then
    mkDecodedReply kReplyOk [] (if rows_affected r >? 0 then Some (rows_affected r) else None) None [] QueryResult_Clear
  else mkDecodedReply kResult [] None None (plan_tag r) (mkQueryResult (column_names r) (rows r) 0 (plan_tag r)).

Lemma SplitLines_one l : line_ok l = true -> SplitLines (l ++ [newline]) = [l].
Proof. intros H. pose proof (SplitLines_unlines [l]) as E. cbn [unlines map concat forallb] in E. rewrite app_nil_r, H in E. by apply E. Qed.

Lemma line_ok_app p l : forallb plain p = true -> line_ok l = true -> line_ok (p ++ l) = true.
Proof.
  intros Hp Hl. unfold line_ok in *. apply andb_true_iff in Hl as [H1 H2]. rewrite forallb_app, H1, andb_true_r. apply andb_true_iff. split.
  - pose proof (plain_line_ok p Hp) as H. by apply andb_true_iff in H as [? _].
  - apply negb_true_iff, bool_decide_eq_false_2. intros E. rewrite last_app in E. destruct (last l) as [c|] eqn:El.
    + by rewrite bool_decide_eq_true_2 in H2.
    + pose proof (plain_line_ok p Hp) as H. apply andb_true_iff in H as [_ H]. by rewrite bool_decide_eq_true_2 in H.
Qed.

Lemma DecodeReply_rows_affected n : 0 <= n < 2 ^ 64 ->
  DecodeReply (EncodeOkRowsAffected n) = Ret (mkDecodedReply kReplyOk [] (Some n) None [] QueryResult_Clear).
Proof.
  intros Hn. unfold DecodeReply, EncodeOkRowsAffected. rewrite app_assoc, SplitLines_one.
  2: { apply plain_line_ok. rewrite forallb_app. apply andb_true_iff. split; [done|]. apply digits_plain, to_string_digits. lia. }
  transitivity (decode_ok (lit "rows_affected=" ++ to_string n)); [reflexivity|]. unfold decode_ok, ParseU64. rewrite starts_app.
  change (drop 14 (lit "rows_affected=" ++ to_string n)) with (to_string n). by rewrite from_chars_u64_to_string.
Qed.

Lemma DecodeReply_block r : result_ok r -> column_names r <> [] ->
  DecodeReply (EncodeQueryResult r) = Ret (decoded_result r).
Proof.
  intros [Hn Hp Hr _ (Hc1 & Hc2 & _)] Hne. unfold decoded_result, EncodeQueryResult, result_columns. rewrite !(bool_decide_eq_false_2 (column_names r = [])) by done. cbn [andb].
  set (n := length (column_names r)) in *.
  set (block := [lit "*RESULT " ++ to_string (Z.of_nat (length (rows r))) ++ lit " " ++ to_string (Z.of_nat n); lit "*COLS " ++ to_string (Z.of_nat n)] ++
       padded [] n (column_names r) ++ concat (map (fun row => lit "*ROW" :: map EncodeCell (padded VNull n row)) (rows r)) ++ [lit "*END"]).
  assert (forallb line_ok block = true) as Hblock.
  { unfold block. rewrite forallb_app. apply andb_true_iff. split.
    - cbn [forallb]. rewrite !andb_true_iff. split; [|split; [|done]]; apply plain_line_ok; rewrite !forallb_app, !andb_true_iff;
        repeat split; try done; apply digits_plain, to_string_digits; lia.
    - rewrite padded_full, !forallb_app, Hn by done. cbn [forallb andb]. rewrite andb_true_r.
      clear -Hr. induction Hr as [|row rs [Hl _] _ IH]; [done|]. cbn [map concat forallb]. rewrite forallb_app, IH, andb_true_r.
      cbn [forallb]. change (line_ok (lit "*ROW")) with true. cbn [andb]. apply forallb_forall. intros l Hin.
      apply in_map_iff in Hin as (v & <- & _). apply plain_line_ok, EncodeCell_plain. }
  assert (decode_block (plan_tag r) block = Ret (mkDecodedReply kResult [] None None (plan_tag r) (mkQueryResult (column_names r) (rows r) 0 (plan_tag r)))) as Hdec.
  { unfold block, decode_block. cbn [app]. rewrite (starts_app (lit "*RESULT ")). cbn [negb].
    change (drop 8 (lit "*RESULT " ++ ?x)) with x. rewrite result_counts_printed by lia. cbn [mbind Res_bind].
    rewrite (starts_app (lit "*COLS ")). cbn [negb]. change (drop 6 (lit "*COLS " ++ ?x)) with x. unfold ParseU64.
    rewrite from_chars_u64_to_string by lia. rewrite bool_decide_eq_true_2 by done. cbn [negb]. rewrite !Nat2Z.id, padded_full by done.
    pose proof (take_lines_map id Ret id (InvalidArgument (lit "missing column name")) (column_names r)
      (concat (map (fun row => lit "*ROW" :: map EncodeCell (padded VNull n row)) (rows r)) ++ [lit "*END"])) as Ht.
    rewrite !list_fmap_id in Ht. fold n in Ht. rewrite Ht by (apply Forall_forall; done). cbn [mbind Res_bind].
    rewrite take_rows_map by done. cbn [mbind Res_bind head]. by rewrite bool_decide_eq_true_2. }
  assert (exists x rest, block = x :: rest /\ exists y, x = lit "*RESULT " ++ y) as (x & rest & Eb & y & Ex) by (unfold block; cbn [app]; eauto).
  unfold DecodeReply. rewrite SplitLines_unlines.
  2: { rewrite forallb_app. apply andb_true_iff. split; [|exact Hblock]. case_bool_decide; [done|]. cbn [forallb].
       by rewrite line_ok_app. }
  destruct (bool_decide_reflect (plan_tag r = [])) as [E|E].
  - cbn [app]. rewrite E in Hdec |- *. rewrite Eb, Ex in *. exact Hdec.
  - cbn [app]. rewrite bool_decide_eq_false_2 by done. change (starts (lit "*PLAN " ++ plan_tag r) (lit "-ERR")) with false. cbn iota.
    change (starts (lit "*PLAN " ++ plan_tag r) (lit "+OK")) with false. cbn iota. rewrite starts_app. exact Hdec.
Qed.

Lemma DecodeReply_result r : result_ok r -> DecodeReply (EncodeQueryResult r) = Ret (decoded_result r).
Proof.
  intros Hr. destruct (decide (column_names r = [])) as [E|E]; [|by apply DecodeReply_block]. pose proof (ro_empty r Hr E) as Er.
  unfold EncodeQueryResult, decoded_result. rewrite E, Er. rewrite !bool_decide_eq_true_2 by done. cbn [andb].
  destruct (rows_affected r >? 0); [|done]. apply DecodeReply_rows_affected, (ro_counts r Hr).
Qed.

Definition decoded_error (st : Status) : DecodedReply := mkDecodedReply kError (Status_ToString st) None None [] QueryResult_Clear.
Lemma DecodeReply_error st : line_ok (Status_ToString st) = true -> DecodeReply (EncodeError st) = Ret (decoded_error st).
Proof.
  intros Hst. unfold DecodeReply, EncodeError. rewrite app_assoc, SplitLines_one by by apply line_ok_app.
  rewrite bool_decide_eq_false_2 by done. change (starts (lit "-ERR " ++ Status_ToString st) (lit "-ERR")) with true. done.
Qed.

(** C29: The client reads what the server wrote, for results whose labels and plan are lines
    - no newline and no carriage return in them - and errors whose text is one.  The
    reply to a statement decodes to its result: a result set comes back with its columns, its rows - cell by cell,
    NULL, numbers, truth values and strings with any bytes in them, newlines
    included - and its plan; otherwise the number of rows affected, or success.  An
    error comes back with its text, and so do the answers to PING and STATUS. *)
Theorem replies_roundtrip r st b : result_ok r -> line_ok (Status_ToString st) = true ->
  DecodeReply (EncodeQueryResult r) = Ret (decoded_result r) /\
  DecodeReply (EncodeError st) = Ret (decoded_error st) /\
  DecodeReply (EncodeStatus b) = Ret (mkDecodedReply kReplyOk [] None (Some b) [] QueryResult_Clear) /\
  DecodeReply EncodePong = Ret (reply_of_kind kPong).
Proof.
  intros Hr Hst. split; [by apply DecodeReply_result|]. split; [by apply DecodeReply_error|]. split; [by destruct b|done].
Qed.

Definition sample_result : QueryResult :=
  mkQueryResult [lit "id"; lit "note"] [[VInt64 (- 2 ^ 63); VString (lit "a" ++ [newline; backslash; cr] ++ lit "b")]; [VNull; VBool true]] 0 (lit "SeqScan").
Lemma replies_roundtrip_witness :
  DecodeReply (EncodeQueryResult sample_result) = Ret (decoded_result sample_result).
Proof.
  apply (proj1 (replies_roundtrip sample_result OK true ltac:(split; [reflexivity|reflexivity| |discriminate|vm_compute; intuition congruence];
    repeat constructor; vm_compute; intuition congruence) eq_refl)).
Defined.

(** ** Framing *)

(** How many quotes a text has. *)
Fixpoint quotes (s : bytes) : nat := match s with [] => 0 | c :: s => if bool_decide (c = quote) then S (quotes s) else quotes s end.

(** An escaped quote leaves a string and enters it again. *)
Lemma ends_quote rest : ends_loop true (quote :: rest) = ends_loop false rest.
Proof.
  cbn [ends_loop]. rewrite bool_decide_eq_true_2 by done. destruct rest as [|c rest]; [done|]. destruct (bool_decide (c = quote)) eqn:E; [|done].
  cbn [ends_loop]. by rewrite E.
Qed.

Lemma span_nil_all p s : (span p s).2 = [] <-> forallb p s = true.
Proof.
  induction s as [|c s IH]; cbn; [done|]. destruct (p c); cbn; [|done]. by destruct (span p s).
Qed.

(** From inside a string ([b]) or outside, the text ends with a semicolon that is
    outside of strings, and blanks. *)
Definition framed (b : bool) (s : bytes) : Prop :=
  exists pre ws, s = pre ++ ";"%byte :: ws /\ forallb is_trailing_blank ws = true /\ Nat.even (quotes pre) = negb b.

Lemma framed_cons ch s b : ch <> ";"%byte \/ b = true \/ forallb is_trailing_blank s = false ->
  framed b (ch :: s) <-> framed (if bool_decide (ch = quote) then negb b else b) s.
Proof.
  intros Hch. split.
  - intros (pre & ws & E & Hw & Hq). destruct pre as [|c pre]; cbn [app] in E; injection E as -> ->.
    + cbn in Hq. destruct b; [done|]. destruct Hch as [|[|Hch]]; [done|done|congruence].
    + exists pre, ws. split; [done|]. split; [done|]. cbn [quotes] in Hq. case_bool_decide; [|done].
      rewrite Nat.even_succ, <- Nat.negb_even in Hq. by destruct b, (Nat.even (quotes pre)).
  - intros (pre & ws & -> & Hw & Hq). exists (ch :: pre), ws. split; [done|]. split; [done|]. cbn [quotes].
    case_bool_decide; [|done]. rewrite Nat.even_succ, <- Nat.negb_even, Hq. by destruct b.
Qed.

Lemma ends_loop_framed s : forall b, ends_loop b s = true <-> framed b s.
Proof.
  induction s as [|ch s IH]; intros b; [split; [done|]; intros (pre & ws & E & _); by destruct pre|].
  destruct (decide (ch = quote)) as [->|Hq].
  - rewrite framed_cons, <- IH by (by left). rewrite bool_decide_eq_true_2 by done. destruct b; [by rewrite ends_quote|done].
  - destruct b.
    + rewrite framed_cons, <- IH by (by right; left). cbn [ends_loop]. by rewrite !(bool_decide_eq_false_2 (ch = quote)).
    + cbn [ends_loop]. rewrite (bool_decide_eq_false_2 (ch = quote)) by done. destruct (bool_decide_reflect (ch = ";"%byte)) as [->|Hs].
      * destruct (bool_decide_reflect ((span is_trailing_blank s).2 = [])) as [E|E]; rewrite span_nil_all in E.
        -- split; [|done]. intros _. by exists [], s.
        -- rewrite framed_cons, <- IH; [done|]. right; right. by destruct (forallb is_trailing_blank s).
      * rewrite framed_cons, <- IH by (by left). by rewrite bool_decide_eq_false_2.
Qed.

(** A statement is complete exactly when the text ends, blanks aside, with a
    semicolon that stands outside of string literals, that is, after an even
    number of quotes; the scanner's treatment of doubled quotes comes to that.  The
    statement buffer never exceeds its limit, and a line that would make it do so
    is refused without changing it. *)
Theorem statement_framing s buffer line :
  (EndsWithStatementTerminator s = true <->
     exists pre ws, s = pre ++ ";"%byte :: ws /\ forallb is_trailing_blank ws = true /\ Nat.even (quotes pre) = true) /\
  match TryAppendLine buffer line with
  | inr buffer' => Z.of_nat (length buffer') <= kMaxStatementBytes /\
      buffer' = (if bool_decide (buffer = []) then line else buffer ++ [newline] ++ line)
  | inl reply => reply = EncodeError (InvalidArgument (lit "statement too large")) /\
      kMaxStatementBytes < Z.of_nat (length buffer + length line + 1)
  end.
Proof.
  split; [apply ends_loop_framed|]. unfold TryAppendLine. rewrite Z.gtb_ltb. destruct (bool_decide_reflect (buffer = [])) as [->|Hb].
  - destruct (Z.ltb_spec kMaxStatementBytes (Z.of_nat (length (@nil byte)) + Z.of_nat (length line))); cbn [length] in *; [split; [done|lia]|].
    split; [lia|done].
  - destruct (Z.ltb_spec kMaxStatementBytes (Z.of_nat (length buffer) + (1 + Z.of_nat (length line)))); [split; [done|lia]|].
    split; [|done]. rewrite !length_app. cbn [length]. lia.
Qed.
