(* ===== verification/SqlServer.v ===== *)
(** The SQL server (sql_server/sql_server.h, sql_server/sql_server.cpp): the lines of a
    connection, the connection's life, the limit on clients, and the command line.

    The socket is its stream of bytes; whether a send succeeds and whether the
    server is still running are parameters.  Starting, accepting and stopping are in
    Listener.v. *)
From S2P Require Import Prelude Status Env Version Types Schema Row Expr SqlAst Text SqlLexer SqlParser.
From S2P Require Import Kv Mvcc Catalog Database Txn SnapIso TxnRep TxnRefine TxnIsolation TxnScan.
From S2P Require Import Executor SqlSession SqlQuery SqlTxn Server Protocol.

(** * Requests *)

Inductive MetaCmd : Set := kMetaNone | kPing | kQuit | kReset | kStatus.

Definition ParseMeta (trimmed : bytes) : MetaCmd :=
  if bool_decide (trimmed = []) then kMetaNone
  else
    let u := ToUpperAscii trimmed in
    if bool_decide (u = lit "PING") then kPing
    else if bool_decide (u = lit "QUIT") then kQuit
    else if bool_decide (u = lit "RESET") then kReset
    else if bool_decide (u = lit "STATUS") then kStatus
    else kMetaNone.

(** A connection: its session and the statement being typed. *)
Record Connection := mkConnection { cn_session : SqlSession; conn_buffer : bytes }.
Abbreviation ConnM := (KM Connection).

Definition on_session {A} (m : SqlM A) : ConnM A := kzoom cn_session (fun s c => mkConnection s (conn_buffer c)) m.
Definition set_buffer (b : bytes) : ConnM unit := kmodify (fun c => mkConnection (cn_session c) b).

Section Server.
Context (fuel : nat).

Definition SqlResetSession : ConnM unit :=
  set_buffer [] ;;
  in_txn ← on_session InTransaction;
  if negb in_txn then mret tt
  else on_session (Execute fuel (lit "ABORT;")) ;; mret tt.

(** The line is not a command: it extends the statement. *)
Definition handle_sql (line : bytes) : ConnM (bool * bytes) :=
  buffer ← kgets conn_buffer;
  match TryAppendLine buffer line with
  | inl err => set_buffer [] ;; mret (true, err)
  | inr buffer' =>
    set_buffer buffer' ;;
    if negb (EndsWithStatementTerminator buffer') then mret (true, [])
    else
      st ← ktry (on_session (Execute fuel buffer'));
      set_buffer [] ;;
      mret (true, match st with inl e => EncodeError e | inr result => EncodeQueryResult result end)
  end.

(** Whether to keep the connection, and the reply. *)
Definition SqlHandleLine (line : bytes) : ConnM (bool * bytes) :=
  buffer ← kgets conn_buffer;
  if bool_decide (buffer = []) then
    let trimmed := TrimView line in
    match ParseMeta trimmed with
    | kPing => mret (true, EncodePong)
    | kQuit => mret (false, EncodeOk)
    | kReset =>
      st ← ktry SqlResetSession;
      mret (true, match st with inl e => EncodeError e | inr _ => EncodeOk end)
    | kStatus => in_txn ← on_session InTransaction; mret (true, EncodeStatus in_txn)
    | kMetaNone => if bool_decide (trimmed = []) then mret (true, []) else handle_sql line
    end
  else handle_sql line.

(** * Connections *)

(** [RecvLine] of sql_server.cpp, the same as that of server.cpp *)
Definition SqlRecvLine (input : bytes) : option (bytes * bytes) := RecvLine input.

Section Serve.
(** In round [i]: whether the server is running, and whether the reply is sent. *)
Context (running sends : nat -> bool).

(** The loop of [ServeClient]; [n] bounds its rounds, [sent] is what was sent. *)
Fixpoint serve_loop (n i : nat) (input sent : bytes) : ConnM bytes :=
  match n with
  | O => klift Stuck
  | S n =>
    if negb (running i) then mret sent
    else
      match SqlRecvLine input with
      | None => mret sent
      | Some (line, input) =>
        '(keep_open, reply) ← SqlHandleLine line;
        if negb (bool_decide (reply = [])) && negb (sends i) then mret sent
        else
          let sent := sent ++ reply in
          if keep_open : bool then serve_loop n (S i) input sent else mret sent
      end
  end.

(** A round takes at least one byte of the stream. *)
Definition ServeClient (input : bytes) : ConnM bytes :=
  sent ← serve_loop (S (length input)) 0 input [];
  ktry SqlResetSession ;;
  mret sent.
End Serve.
End Server.

Definition SqlSession_new (db : Database) : SqlSession := mkSqlSession db None false.
Definition Connection_new (db : Database) : Connection := mkConnection (SqlSession_new db) [].

(** * The limit on clients and the command line *)

(** The configuration, the arguments and the slots are those of server/server.cpp,
    which sql_server.cpp repeats. *)
Abbreviation SqlServerConfig := ServerConfig.
Definition SqlServerConfig_default : SqlServerConfig := mkServerConfig (lit "127.0.0.1") 7380 (lit "./reldb_sql_data") 128.
Definition ParseSqlServerArgs (args : list bytes) (cfg : SqlServerConfig) : Res ArgsResult := ParseServerArgs args cfg.
Definition SqlServer_slot_step (max_clients : Z) : Slots -> Slots -> Prop := slot_step max_clients.

(** * Properties *)

(** ** The limit on clients *)

(** C31: A server never serves more clients than the command line allows: for either
    server and every configuration its argument parser accepts, which has a port of
    16 bits and a positive limit, in every interleaving of the threads' atomic actions - loads,
    exchanges that may fail spuriously, releases - the counter is exactly the number
    of clients being served, is never negative and never exceeds the limit. *)
Theorem client_limit_holds (args : list bytes) (cfg : SqlServerConfig) (n : nat) (s : Slots) :
  ParseSqlServerArgs args SqlServerConfig_default = Ret (ArgsOk cfg) \/ ParseServerArgs args ServerConfig_default = Ret (ArgsOk cfg) ->
  rtc (SqlServer_slot_step (cfg_max_clients cfg)) (mkSlots 0 (replicate n kIdle)) s ->
  config_ok cfg /\ 0 <= active_clients s <= cfg_max_clients cfg /\ active_clients s = count_serving (clients s).
Proof.
  intros Hargs Hr. assert (config_ok cfg) as Hc by (destruct Hargs as [H|H]; by apply args_ok in H). split; [done|]. destruct Hc as [_ Hm].
  assert (slots_ok (cfg_max_clients cfg) s) as [E H] by (eapply slots_ok_rtc; [done|apply slots_ok_idle; lia]). unfold count_serving in *. split; [lia|done].
Qed.

Lemma client_limit_holds_witness :
  let cfg := mkServerConfig (lit "127.0.0.1") 7380 (lit "./reldb_sql_data") 1 in
  let s := mkSlots 1 [kServing; kIdle] in
  config_ok cfg /\ 0 <= active_clients s <= 1 /\ active_clients s = count_serving (clients s).
Proof.
  refine (client_limit_holds [lit "--max-clients"; lit "1"] _ 2 _ _ _); [left; reflexivity|].
  eapply rtc_l; [apply (slot_load 1 (mkSlots 0 [kIdle; kIdle]) 0 eq_refl)|].
  eapply rtc_l; [apply (slot_load 1 (mkSlots 0 [kTrying 0; kIdle]) 1 eq_refl)|].
  eapply rtc_l; [apply (slot_exchange 1 (mkSlots 0 [kTrying 0; kTrying 0]) 0 0 eq_refl); [lia|reflexivity]|].
  eapply rtc_l; [apply (slot_retry 1 (mkSlots 1 [kServing; kTrying 0]) 1 0 eq_refl); lia|].
  eapply rtc_l; [apply (slot_refuse 1 (mkSlots 1 [kServing; kTrying 1]) 1 1 eq_refl); lia|].
  apply rtc_refl.
Defined.

(** ** Statements of several lines *)

(** The replies to a sequence of lines. *)
Fixpoint handle_lines (fuel : nat) (lines : list bytes) : ConnM (list (bool * bytes)) :=
  match lines with
  | [] => mret []
  | line :: lines => r ← SqlHandleLine fuel line; rs ← handle_lines fuel lines; mret (r :: rs)
  end.

Definition joined (first : bytes) (lines : list bytes) : bytes := foldl (fun text line => text ++ [newline] ++ line) first lines.

Definition answer (st : Status + QueryResult) : bytes := match st with inl e => EncodeError e | inr result => EncodeQueryResult result end.

Lemma joined_grows first lines : (length first <= length (joined first lines))%nat.
Proof.
  revert first. induction lines as [|l lines IH]; intros first; cbn [joined foldl]; [done|]. etrans; [|apply IH]. rewrite length_app. lia.
Qed.

(** A line that goes on with a statement, or starts one. *)
Lemma exec_handle_sql fuel sess buffer line m : let text := if bool_decide (buffer = []) then line else buffer ++ [newline] ++ line in
  Z.of_nat (length text) <= kMaxStatementBytes ->
  exec (handle_sql fuel line) (mkConnection sess buffer, m) =
    if EndsWithStatementTerminator text then
      match exec (Execute fuel text) (sess, m) with
      | (Ret result, sm) => (Ret (true, answer (inr result)), (mkConnection sm.1 [], sm.2))
      | (Fail e, sm) => (Ret (true, answer (inl e)), (mkConnection sm.1 [], sm.2))
      | (Stuck, sm) => (Stuck, (mkConnection sm.1 text, sm.2))
      end
    else (Ret (true, []), (mkConnection sess text, m)).
Proof.
  intros text Hl. unfold handle_sql. kv_step. cbn [conn_buffer].
  assert (TryAppendLine buffer line = inr text) as ->.
  { unfold TryAppendLine, text in *. rewrite Z.gtb_ltb. destruct (bool_decide_reflect (buffer = [])) as [->|Hb].
    - rewrite (proj2 (Z.ltb_ge _ _)); [done|]. cbn [length Z.of_nat]. lia.
    - rewrite (proj2 (Z.ltb_ge _ _)); [done|]. rewrite !length_app in Hl. cbn [length] in Hl. lia. }
  unfold set_buffer. kv_step. cbn [cn_session]. destruct (EndsWithStatementTerminator text); cbn [negb]; [|by kv_step].
  kv_step. unfold on_session. rewrite exec_zoom. cbn [cn_session conn_buffer].
  destruct (exec (Execute fuel text) (sess, m)) as [[result|e|] [sess' m']]; kv_step; done.
Qed.

Lemma exec_continue fuel lines : forall sess buffer m sess' m' st, buffer <> [] ->
  (forall n, (n < length lines)%nat -> EndsWithStatementTerminator (joined buffer (take n lines)) = false) ->
  lines <> [] -> EndsWithStatementTerminator (joined buffer lines) = true -> Z.of_nat (length (joined buffer lines)) <= kMaxStatementBytes ->
  exec (ktry (Execute fuel (joined buffer lines))) (sess, m) = (Ret st, (sess', m')) ->
  exec (handle_lines fuel lines) (mkConnection sess buffer, m) =
    (Ret (replicate (length lines - 1) (true, []) ++ [(true, answer st)]), (mkConnection sess' [], m')).
Proof.
  induction lines as [|l lines IH]; intros sess buffer m sess' m' st Hb Hpre Hne Hend Hmax Hex; [done|]. cbn [handle_lines]. kv_step.
  assert (exec (SqlHandleLine fuel l) (mkConnection sess buffer, m) = exec (handle_sql fuel l) (mkConnection sess buffer, m)) as ->.
  { unfold SqlHandleLine. kv_step. cbn [conn_buffer]. by rewrite bool_decide_eq_false_2. }
  change (joined buffer (l :: lines)) with (joined (buffer ++ [newline] ++ l) lines) in *.
  pose proof (joined_grows (buffer ++ [newline] ++ l) lines) as Hg.
  rewrite exec_handle_sql; rewrite (bool_decide_eq_false_2 (buffer = [])) by done; [|lia].
  destruct lines as [|l' lines].
  - cbn [joined foldl] in Hend, Hex. rewrite Hend. rewrite exec_try in Hex.
    destruct (exec (Execute fuel (buffer ++ [newline] ++ l)) (sess, m)) as [[result|e|] [s1 m1]]; [..|done]; injection Hex as <- <- <-;
      cbn [handle_lines fst snd]; by kv_step.
  - rewrite (Hpre 1%nat ltac:(cbn; lia) : EndsWithStatementTerminator (buffer ++ [newline] ++ l) = false).
    kv_step. rewrite (IH sess (buffer ++ [newline] ++ l) m sess' m' st); [|by destruct buffer| |done..].
    { kv_step. cbn [length]. by rewrite !Nat.sub_succ, !Nat.sub_0_r. }
    intros n Hn. by apply (Hpre (S n) ltac:(cbn in *; lia)).
Qed.

(** A statement may be typed over several lines: a first line that is neither blank
    nor a command, then lines - even ones that look like commands - until the text
    ends with a semicolon outside of strings; the server keeps the lines without a
    reply, runs the whole text, joined by newlines, exactly once at the last line,
    answers with its result or its error, and starts over with an empty buffer. *)
Theorem statement_over_lines (fuel : nat) (first : bytes) (lines : list bytes) (sess sess' : SqlSession) (m m' : gmap bytes bytes) (st : Status + QueryResult) :
  ParseMeta (TrimView first) = kMetaNone -> TrimView first <> [] ->
  (forall n, (n < length lines)%nat -> EndsWithStatementTerminator (joined first (take n lines)) = false) ->
  EndsWithStatementTerminator (joined first lines) = true -> Z.of_nat (length (joined first lines)) <= kMaxStatementBytes ->
  exec (ktry (Execute fuel (joined first lines))) (sess, m) = (Ret st, (sess', m')) ->
  exec (handle_lines fuel (first :: lines)) (mkConnection sess [], m) =
    (Ret (replicate (length lines) (true, []) ++ [(true, answer st)]), (mkConnection sess' [], m')).
Proof.
  intros Hm Hne Hpre Hend Hmax Hex. cbn [handle_lines]. kv_step.
  assert (exec (SqlHandleLine fuel first) (mkConnection sess [], m) = exec (handle_sql fuel first) (mkConnection sess [], m)) as ->.
  { unfold SqlHandleLine. kv_step. cbn [conn_buffer]. rewrite (bool_decide_eq_true_2 ([] = [])) by done. by rewrite Hm, bool_decide_eq_false_2. }
  assert (first <> []) as Hf by (by intros ->). pose proof (joined_grows first lines) as Hg.
  rewrite exec_handle_sql; rewrite (bool_decide_eq_true_2 ([] = [])) by done; [|lia].
  destruct lines as [|l lines].
  - cbn [joined foldl] in Hend, Hex. rewrite Hend. rewrite exec_try in Hex.
    destruct (exec (Execute fuel first) (sess, m)) as [[result|e|] [s1 m1]]; [..|done]; injection Hex as <- <- <-; cbn [handle_lines fst snd]; by kv_step.
  - rewrite (Hpre 0%nat ltac:(cbn; lia) : EndsWithStatementTerminator first = false). kv_step. rewrite (exec_continue fuel (l :: lines) sess first m sess' m' st) by done.
    kv_step. cbn [length]. by rewrite Nat.sub_succ, Nat.sub_0_r.
Qed.

Lemma statement_over_lines_witness :
  exec (handle_lines 0 [lit "INSERT INTO t"; lit "PING"; lit ";"]) (Connection_new Database_new, ∅) =
    (Ret ([(true, []); (true, [])] ++ [(true, lit "-ERR InvalidArgument: SQL parse error at offset 14: expected VALUES, got identifier" ++ [newline])]),
     (Connection_new Database_new, ∅)).
Proof.
  refine (statement_over_lines 0 (lit "INSERT INTO t") [lit "PING"; lit ";"] (SqlSession_new Database_new) _ ∅ _
    (inl (InvalidArgument (lit "SQL parse error at offset 14: expected VALUES, got identifier"))) _ _ _ _ _ _).
  - reflexivity.
  - discriminate.
  - intros [|[|n]] Hn; [reflexivity|reflexivity|cbn in Hn; lia].
  - reflexivity.
  - vm_compute. discriminate.
  - vm_compute. reflexivity.
Defined.

(** ** The end of a connection *)

Lemma parse_abort : ParseScript (lit "ABORT;") = Ret [AbortStmt].
Proof. by vm_compute. Qed.

(** A client that goes away: its transaction is rolled back and its half statement forgotten. *)
Lemma exec_SqlResetSession fuel N a d txns m t start tr buffer : 0 <= N -> sys_rep 1 (N + 1) a (mkSys d txns) m ->
  si_open a !! t = Some start -> txns !! t = Some tr ->
  exists d' txns' m', exec (SqlResetSession fuel) (mkConnection (mkSqlSession d (Some tr) false) buffer, m) =
      (Ret tt, (mkConnection (mkSqlSession d' None false) [], m')) /\ sys_rep 1 N (si_abort t a) (mkSys d' txns') m'.
Proof.
  intros HN Hs Ho Et. destruct (exec_finish_with false N a d txns m t start tr false HN Hs Ho Et) as (d' & txns' & m' & E & Hs').
  exists d', txns', m'. split; [|done]. unfold SqlResetSession, set_buffer, on_session. kv_step. rewrite exec_zoom. cbn [cn_session conn_buffer].
  unfold InTransaction. rewrite exec_gets. cbn [fst snd ss_txn]. rewrite bool_decide_eq_true_2 by done. cbn [negb]. kv_step. rewrite exec_zoom.
  cbn [cn_session conn_buffer]. unfold Execute. kv_step. rewrite parse_abort. cbn [run_script RunStatement]. kv_step. unfold cleared. kv_step.
  unfold RunAbort. cbn [end_call] in E. rewrite E. by kv_step.
Qed.

(** C30: No transaction outlives its connection: when a client disconnects - at the end
    of the stream or in the middle of a line - while its session is in a transaction,
    the server sends nothing more, forgets the statement being typed and rolls the
    transaction back, so that its pending writes are gone and every other
    transaction is as before. *)
Theorem disconnect_aborts (ops : list TOp) (t start : Z) (buffer input : bytes) (running sends : nat -> bool) (fuel : nat) :
  let a := (si_run ops SI_new).2 in
  Z.of_nat (length ops) + 1 < 2 ^ 32 -> ops_ok 1 1 ops -> si_open a !! t = Some start -> (newline ∉ input) ->
  exists s m tr d' txns' m', exec (session ops) (Sys_new, ∅) = (Ret (si_run ops SI_new).1, (s, m)) /\ sys_txns s !! t = Some tr /\
    exec (ServeClient fuel running sends input) (mkConnection (mkSqlSession (sys_db s) (Some tr) false) buffer, m) =
      (Ret [], (mkConnection (mkSqlSession d' None false) [], m')) /\
    sys_rep 1 0 (si_abort t a) (mkSys d' txns') m'.
Proof.
  intros a Hl Hops Ho Hin. destruct (new_database_si 1 ops ltac:(lia) ltac:(lia) Hops) as (s & m & E & Hrep). fold a in Hrep.
  pose proof (sr_txns _ _ _ _ _ Hrep t (proj2 (sv_open _ (sr_inv _ _ _ _ _ Hrep) _ _ Ho))) as Htr. rewrite Ho in Htr.
  destruct Htr as (tr & Et & _). destruct s as [d txns]. cbn [sys_txns] in Et.
  destruct (exec_SqlResetSession fuel 0 a d txns m t start tr buffer ltac:(lia) Hrep Ho Et) as (d' & txns' & m' & Er & Hs').
  exists (mkSys d txns), m, tr, d', txns', m'. split; [done|]. split; [done|]. split; [|done]. cbn [sys_db].
  assert (forall out, recv_line out input = None) as Hrecv.
  { clear -Hin. induction input as [|ch input IH]; intros out; cbn [recv_line]; [done|].
    rewrite bool_decide_eq_false_2 by (intros ->; apply Hin; by left). destruct (_ >? _); [done|]. apply IH. intros H. apply Hin. by right. }
  unfold ServeClient. cbn [serve_loop]. rewrite exec_bind. unfold SqlRecvLine, RecvLine. rewrite Hrecv.
  destruct (running 0%nat); cbn [negb]; kv_step; rewrite Er; by kv_step.
Qed.

Lemma disconnect_aborts_witness :
  let a := (si_run two_rows SI_new).2 in
  exists s m tr d' txns' m', exec (session two_rows) (Sys_new, ∅) = (Ret (si_run two_rows SI_new).1, (s, m)) /\ sys_txns s !! 2 = Some tr /\
    exec (ServeClient 0 (fun _ => true) (fun _ => true) (lit "SEL")) (mkConnection (mkSqlSession (sys_db s) (Some tr) false) (lit "INSERT"), m) =
      (Ret [], (mkConnection (mkSqlSession d' None false) [], m')) /\
    sys_rep 1 0 (si_abort 2 a) (mkSys d' txns') m'.
Proof.
  refine (disconnect_aborts two_rows 2 1 (lit "INSERT") (lit "SEL") (fun _ => true) (fun _ => true) 0 _ _ _ _).
  - reflexivity.
  - apply (bool_decide_unpack _). vm_compute. exact I.
  - reflexivity.
  - apply (bool_decide_unpack _). vm_compute. exact I.
Defined.
