(* ===== verification/Listener.v ===== *)
(** The life of a server (server/server.cpp, sql_server/sql_server.cpp: Start, Serve, Stop,
    the destructor, SendAll; server/main.cpp, sql_server/main.cpp): the sockets it opens
    and closes, the threads it starts, and what is left when it goes.

    The operating system is a parameter: each call says what it returned.  The two
    servers repeat each other; where they differ there are two definitions, else
    the SQL server's is defined by the other. *)
From S2P Require Import Prelude Status Env Version Text Server SqlServer.

(** * Sending *)

(** What a call of [send] returned. *)
Inductive SendResult : Set := SentSome (n : nat) | SendInterrupted | SendFailed.

(** The loop of [SendAll] on the bytes not yet sent: whether all were, and what the
    other side got.  The calls must not end before the loop. *)
Fixpoint SendAll (calls : list SendResult) (data got : bytes) : Res (bool * bytes) :=
  match data with
  | [] => Ret (true, got)
  | _ =>
    match calls with
    | [] => Stuck
    | SendInterrupted :: calls => SendAll calls data got
    | SendFailed :: _ => Ret (false, got)
    | SentSome O :: _ => Ret (false, got)
    | SentSome n :: calls => SendAll calls (drop n data) (got ++ take n data)
    end
  end.

(** * The server object *)

(** A thread that serves a client: in its loop with the socket, or after closing it and
    before giving its slot back. *)
Inductive Handler : Set := HServing (fd : Z) | HClosed.

(** What the thread of the server does: before Serve, at the test of its accept loop,
    in a round of it, waiting for the handlers at its end, after it, in the destructor. *)
Inductive Phase : Set := kNotServing | kTesting | kAccepting | kWaiting | kServed | kDestroying.
#[global] Instance Phase_eq_dec : EqDecision Phase.
Proof. solve_decision. Defined.

Record Listener := mkListener {
  listen_fd_ : option Z;
  db_open : bool;
  bound_port_ : Z;
  running_ : bool;
  active_clients_ : Z;
  handlers : list Handler;
  phase : Phase;
  destroyed : bool;      (* the object is gone *)
  open_fds : list Z;     (* the sockets the process holds *)
  refused : list (Z * bytes); (* who was turned away, and with what line *)
  err_text : bytes       (* what was written to the error stream *)
}.
Abbreviation LM := (SM Listener).

Definition Listener_new : Listener := mkListener None false 0 false 0 [] kNotServing false [] [] [].

Definition set_listen (o : option Z) (l : Listener) : Listener :=
  mkListener o (db_open l) (bound_port_ l) (running_ l) (active_clients_ l) (handlers l) (phase l) (destroyed l) (open_fds l) (refused l) (err_text l).
Definition set_db (b : bool) (l : Listener) : Listener :=
  mkListener (listen_fd_ l) b (bound_port_ l) (running_ l) (active_clients_ l) (handlers l) (phase l) (destroyed l) (open_fds l) (refused l) (err_text l).
Definition set_port (p : Z) (l : Listener) : Listener :=
  mkListener (listen_fd_ l) (db_open l) p (running_ l) (active_clients_ l) (handlers l) (phase l) (destroyed l) (open_fds l) (refused l) (err_text l).
Definition set_running (b : bool) (l : Listener) : Listener :=
  mkListener (listen_fd_ l) (db_open l) (bound_port_ l) b (active_clients_ l) (handlers l) (phase l) (destroyed l) (open_fds l) (refused l) (err_text l).
Definition set_clients (n : Z) (hs : list Handler) (l : Listener) : Listener :=
  mkListener (listen_fd_ l) (db_open l) (bound_port_ l) (running_ l) n hs (phase l) (destroyed l) (open_fds l) (refused l) (err_text l).
Definition set_phase (p : Phase) (l : Listener) : Listener :=
  mkListener (listen_fd_ l) (db_open l) (bound_port_ l) (running_ l) (active_clients_ l) (handlers l) p (destroyed l) (open_fds l) (refused l) (err_text l).
Definition set_destroyed (l : Listener) : Listener :=
  mkListener (listen_fd_ l) false (bound_port_ l) (running_ l) (active_clients_ l) (handlers l) (phase l) true (open_fds l) (refused l) (err_text l).
Definition set_fds (fds : list Z) (l : Listener) : Listener :=
  mkListener (listen_fd_ l) (db_open l) (bound_port_ l) (running_ l) (active_clients_ l) (handlers l) (phase l) (destroyed l) fds (refused l) (err_text l).
Definition add_refused (fd : Z) (t : bytes) (l : Listener) : Listener :=
  mkListener (listen_fd_ l) (db_open l) (bound_port_ l) (running_ l) (active_clients_ l) (handlers l) (phase l) (destroyed l) (open_fds l) (refused l ++ [(fd, t)]) (err_text l).
Definition add_err (t : bytes) (l : Listener) : Listener :=
  mkListener (listen_fd_ l) (db_open l) (bound_port_ l) (running_ l) (active_clients_ l) (handlers l) (phase l) (destroyed l) (open_fds l) (refused l) (err_text l ++ t).

(** [socket] and [accept] give a descriptor that is not in use; closing one that is
    not open is an error of the program. *)
Definition open_fd (fd : Z) : LM unit := modify (fun l => set_fds (fd :: open_fds l) l).
Definition close_fd (fd : Z) : LM unit := fun l =>
  if bool_decide (fd ∈ open_fds l) then (Ret tt, set_fds (filter (fun x => x <> fd) (open_fds l)) l) else (Stuck, l).
Definition complain (t : bytes) : LM unit := modify (add_err (t ++ [newline])).

(** ** Start *)

(** What the calls of Start return: opening the database, [socket] (a descriptor or the
    text of errno), [inet_pton], [bind], [listen] and [getsockname]. *)
Record StartCalls := mkStartCalls {
  sc_db : Status + unit; sc_socket : bytes + Z; sc_pton : bool; sc_bind : bytes + unit; sc_listen : bytes + unit; sc_name : option Z
}.

Section Start.
Context (cfg : ServerConfig) (sc : StartCalls).

Definition already_started : LM unit :=
  started ← gets listen_fd_;
  fail_if (bool_decide (is_Some started)) (InvalidArgument (lit "server already started")).
Definition open_database : LM unit := match sc_db sc with inl e => fail e | inr _ => mret tt end.
(** The port that was bound; then the server runs. *)
Definition record_port : LM unit :=
  modify (set_port (default (cfg_port cfg) (sc_name sc))) ;;
  modify (set_running true).

(** Server::Start keeps the database and the socket in the object from the start, and
    undoes both by hand where it fails. *)
Definition undo (fd : Z) (e : Status) : LM unit :=
  close_fd fd ;; modify (set_listen None) ;; modify (set_db false) ;; fail e.
Definition Server_Start : LM unit :=
  already_started ;;
  open_database ;;
  modify (set_db true) ;;
  match sc_socket sc with
  | inl errno => modify (set_db false) ;; fail (IOError (lit "socket() failed: " ++ errno))
  | inr fd =>
    open_fd fd ;; modify (set_listen (Some fd)) ;;
    if negb (sc_pton sc) then undo fd (InvalidArgument (lit "invalid host address: " ++ cfg_host cfg))
    else
      match sc_bind sc with
      | inl errno => undo fd (IOError (lit "bind() failed: " ++ errno))
      | inr _ =>
        match sc_listen sc with
        | inl errno => undo fd (IOError (lit "listen() failed: " ++ errno))
        | inr _ => record_port
        end
      end
  end.

(** SqlServer::Start keeps them in local variables, whose destructors undo a failure
    ([ScopedFd]), and moves them to the object at the end. *)
Definition scoped_fd (fd : Z) (e : Status) : LM unit := close_fd fd ;; fail e.
Definition SqlServer_Start : LM unit :=
  already_started ;;
  open_database ;;
  match sc_socket sc with
  | inl errno => fail (IOError (lit "socket() failed: " ++ errno))
  | inr fd =>
    open_fd fd ;;
    if negb (sc_pton sc) then scoped_fd fd (InvalidArgument (lit "invalid host address: " ++ cfg_host cfg))
    else
      match sc_bind sc with
      | inl errno => scoped_fd fd (IOError (lit "bind() failed: " ++ errno))
      | inr _ =>
        match sc_listen sc with
        | inl errno => scoped_fd fd (IOError (lit "listen() failed: " ++ errno))
        | inr _ => modify (set_listen (Some fd)) ;; modify (set_db true) ;; record_port
        end
      end
  end.
End Start.

(** ** Serve *)

(** What [accept] returned and, after it, whether the thread could be started. *)
Inductive Accepted : Set := AcceptError (eintr : bool) (errno : bytes) | AcceptFd (fd : Z) (thread : bytes + unit).
(** What [select] returned. *)
Inductive Poll : Set := PollError (eintr : bool) (errno : bytes) | PollTimeout | PollReady (a : Accepted).

(** [TryReserveClientSlot] and [ReleaseClientSlot], each as one step. *)
Definition try_reserve (max_clients : Z) : LM bool :=
  n ← gets active_clients_;
  if n <? max_clients then modify (fun l => set_clients (n + 1) (handlers l) l) ;; mret true else mret false.
Definition release : LM unit := modify (fun l => set_clients (active_clients_ l - 1) (handlers l) l).

(** Where the two servers differ: the line for a client that finds no slot, and whether
    clients that are left at the end are reported. *)
Record Kind := mkKind { refusal : bytes; warns : bool }.
Definition Server_kind : Kind := mkKind (lit "-ERR too many connections" ++ [newline]) false.
Definition SqlServer_kind : Kind := mkKind (lit "-ERR InvalidArgument: too many connections" ++ [newline]) true.

(** One round of the accept loop; whether to go on. *)
Definition serve_round (k : Kind) (max_clients : Z) (p : Poll) : LM bool :=
  match p with
  | PollError true _ => mret true
  | PollError false errno => complain (lit "select() failed: " ++ errno) ;; mret false
  | PollTimeout => mret true
  | PollReady (AcceptError true _) => mret true
  | PollReady (AcceptError false errno) =>
    running ← gets running_;
    if negb running then mret false else complain (lit "accept() failed: " ++ errno) ;; mret true
  | PollReady (AcceptFd fd thread) =>
    open_fd fd ;;
    reserved ← try_reserve max_clients;
    if negb reserved then modify (add_refused fd (refusal k)) ;; close_fd fd ;; mret true
    else
      match thread with
      | inr _ => modify (fun l => set_clients (active_clients_ l) (handlers l ++ [HServing fd]) l) ;; mret true
      | inl what => complain (lit "failed to start client thread: " ++ what) ;; close_fd fd ;; release ;; mret true
      end
  end.
Definition Server_serve_round : Z -> Poll -> LM bool := serve_round Server_kind.
Definition SqlServer_serve_round : Z -> Poll -> LM bool := serve_round SqlServer_kind.

(** The SQL server's Serve says when Start has not succeeded; the other returns. *)
Definition SqlServer_Serve_entry : LM unit :=
  started ← gets listen_fd_;
  fail_if (bool_decide (started = None)) (InvalidArgument (lit "Serve called before successful Start()")).

(** The end of Serve and the destructor: the listening socket is closed. *)
Definition close_listener : LM unit :=
  o ← gets listen_fd_;
  match o with Some fd => close_fd fd ;; modify (set_listen None) | None => mret tt end.

(** [while (active > 0 && now < deadline) sleep;]: over when there is no client, or
    when the time is. *)
Definition wait_over (timeout : bool) (l : Listener) : bool := (active_clients_ l <=? 0) || timeout.
(** The SQL server warns when clients are left. *)
Definition WaitForIdleClients (context seconds : bytes) : LM unit :=
  left ← gets active_clients_;
  if left >? 0 then complain (lit "warning: " ++ context ++ lit ": " ++ to_string left ++ lit " active client(s) still running after " ++ seconds ++ lit "s") else mret tt.

Definition end_wait (k : Kind) (context seconds : bytes) : LM unit := if warns k then WaitForIdleClients context seconds else mret tt.

Definition Stop : LM unit := modify (set_running false).
(** The destructor before its wait. *)
Definition begin_destroy : LM unit := Stop ;; close_listener.

(** * Threads *)

(** What happens next: the main thread calls Serve, tests whether to go on, runs a
    round of the accept loop, ends its wait, enters and leaves the destructor; a signal stops the
    server; handler [i] closes its socket or gives its slot back. *)
Inductive Event : Set :=
  | EvServe | EvTest | EvRound (p : Poll) | EvServed (timeout : bool)
  | EvStop
  | EvDestroy | EvDestroyed (timeout : bool)
  | EvHandlerClose (i : nat) | EvHandlerExit (i : nat).

(** The kernel gives a descriptor that is free. *)
Definition fresh_fd (p : Poll) (l : Listener) : bool :=
  match p with PollReady (AcceptFd fd _) => negb (bool_decide (fd ∈ open_fds l)) | _ => true end.

(** A handler works on the object: nothing is defined once that is gone. *)
Definition on_live {A} (m : LM A) : LM A := gone ← gets destroyed; if gone : bool then lift Stuck else m.

Section Life.
Context (k : Kind) (max_clients : Z).

Definition leave_loop : LM unit := close_listener ;; modify (set_phase kWaiting).
Definition Serve_test : LM unit :=
  running ← gets running_;
  if running : bool then modify (set_phase kAccepting) else leave_loop.
Definition Serve_round (p : Poll) : LM unit :=
  go_on ← serve_round k max_clients p;
  if go_on : bool then modify (set_phase kTesting) else leave_loop.
Definition Serve_end : LM unit := end_wait k (lit "SqlServer::Serve") (lit "10") ;; modify (set_phase kServed).
Definition destroy_end : LM unit := end_wait k (lit "SqlServer destructor") (lit "5") ;; modify set_destroyed.

Definition ServeClient_end (i : nat) (fd : Z) : LM unit :=
  on_live (close_fd fd ;; modify (fun l => set_clients (active_clients_ l) (<[i := HClosed]> (handlers l)) l)).
Definition SlotGuard_end (i : nat) : LM unit :=
  on_live (release ;; modify (fun l => set_clients (active_clients_ l) (delete i (handlers l)) l)).

(** The effect of an event, if it can happen. *)
Definition life (e : Event) (l : Listener) : option (Res unit * Listener) :=
  let here (p : Phase) := bool_decide (phase l = p) && negb (destroyed l) in
  match e with
  | EvServe => if here kNotServing && bool_decide (is_Some (listen_fd_ l)) then Some (modify (set_phase kTesting) l) else None
  | EvTest => if here kTesting then Some (Serve_test l) else None
  | EvRound p => if here kAccepting && fresh_fd p l then Some (Serve_round p l) else None
  | EvServed timeout => if here kWaiting && wait_over timeout l then Some (Serve_end l) else None
  | EvStop => if negb (destroyed l) then Some (Stop l) else None
  | EvDestroy => if here kNotServing || here kServed then Some ((begin_destroy ;; modify (set_phase kDestroying)) l) else None
  | EvDestroyed timeout => if here kDestroying && wait_over timeout l then Some (destroy_end l) else None
  | EvHandlerClose i => match handlers l !! i with Some (HServing fd) => Some (ServeClient_end i fd l) | _ => None end
  | EvHandlerExit i => match handlers l !! i with Some HClosed => Some (SlotGuard_end i l) | _ => None end
  end.

(** A sequence of events; nothing if one of them cannot happen. *)
Fixpoint lives (es : list Event) (l : Listener) : option (Res unit * Listener) :=
  match es with
  | [] => Some (Ret tt, l)
  | e :: es => match life e l with Some (Ret _, l') => lives es l' | r => r end
  end.
End Life.

(** * The programs *)

Definition server_usage (argv0 : bytes) : bytes :=
  lit "Usage: " ++ argv0 ++ concat (map (fun s => lit s ++ [newline])
    [" [--host HOST] [--port PORT] [--db PATH] [--max-clients N]"; "  --host         bind address (default 0.0.0.0)";
     "  --port         TCP port (default 7379; 0 = ephemeral)"; "  --db           database directory (default ./lsmkv_data)";
     "  --max-clients  max concurrent connections (default 128)"]%string).

(** How main ends, with what it wrote to the two streams; or how far it gets before
    Serve, with the line that announces the running server. *)
Inductive Launch : Type := Exits (code : Z) (out err : bytes) | Launched (l : Listener) (out : bytes).

Section Main.
Context (start : ServerConfig -> LM unit) (program usage : bytes).
Definition launch (cfg : ServerConfig) : Res Launch :=
  match start cfg Listener_new with
  | (Stuck, _) => Stuck
  | (Fail e, _) => Ret (Exits 1 [] (lit "start failed: " ++ Status_ToString e ++ [newline]))
  | (Ret _, l) =>
    Ret (Launched l (program ++ lit " listening on " ++ cfg_host cfg ++ lit ":" ++ to_string (bound_port_ l) ++ lit "  db=" ++ cfg_db_path cfg ++
                     lit "  max_clients=" ++ to_string (cfg_max_clients cfg) ++ [newline]))
  end.
(** Once Serve has returned. *)
Definition finish (served : Res unit) : Res Launch :=
  match served with
  | Stuck => Stuck
  | Fail e => Ret (Exits 1 [] (lit "serve failed: " ++ Status_ToString e ++ [newline]))
  | Ret _ => Ret (Exits 0 (program ++ lit " shut down" ++ [newline]) [])
  end.
Definition main_with (parsed : Res ArgsResult) : Res Launch :=
  r ← parsed;
  match r with
  | ArgsError msg => Ret (Exits 2 [] (msg ++ [newline] ++ usage))
  | ArgsHelp => Ret (Exits 0 [] usage)
  | ArgsOk cfg => launch cfg
  end.
End Main.

Definition Server_main (argv0 : bytes) (args : list bytes) (sc : StartCalls) : Res Launch :=
  main_with (fun cfg => Server_Start cfg sc) (lit "lsmkv_server") (server_usage argv0) (ParseServerArgs args ServerConfig_default).

Definition sql_server_usage (argv0 : bytes) : bytes :=
  lit "Usage: " ++ argv0 ++ concat (map (fun s => lit s ++ [newline])
    [" [--host HOST] [--port PORT] [--db PATH] [--max-clients N]"; "  --host         bind address (default 127.0.0.1)";
     "  --port         TCP port (default 7380; 0 = ephemeral)"; "  --db           database directory (default ./reldb_sql_data)";
     "  --max-clients  max concurrent connections (default 128)"; EmptyString;
     "Wire protocol: line-oriented SQL until ';', plus PING/QUIT/RESET/STATUS."]%string) ++
  lit "No authentication " ++ [Byte.xe2; Byte.x80; Byte.x94] ++ lit " bind to localhost for local use." ++ [newline].
Definition SqlServer_main (argv0 : bytes) (args : list bytes) (sc : StartCalls) : Res Launch :=
  main_with (fun cfg => SqlServer_Start cfg sc) (lit "reldb_sql_server") (sql_server_usage argv0) (ParseSqlServerArgs args SqlServerConfig_default).

(** * Lemmas *)

(** The sockets that somebody is going to close. *)
Definition handler_fd (h : Handler) : option Z := match h with HServing fd => Some fd | HClosed => None end.
Definition owned_fds (l : Listener) : list Z := option_list (listen_fd_ l) ++ omap handler_fd (handlers l).

Definition listening (p : Phase) (o : option Z) : Prop :=
  match p with kNotServing => True | kTesting | kAccepting => is_Some o | _ => o = None end.

(** Every open socket is owned by exactly one party; the counter is the number of
    handlers; an object that is gone left nothing behind. *)
Record life_ok (max_clients : Z) (l : Listener) : Prop := {
  lo_fds : open_fds l ≡ₚ owned_fds l;
  lo_nodup : NoDup (open_fds l);
  lo_count : active_clients_ l = Z.of_nat (length (handlers l));
  lo_limit : active_clients_ l <= max_clients;
  lo_phase : listening (phase l) (listen_fd_ l);
  lo_gone : destroyed l = true -> listen_fd_ l = None /\ handlers l = []
}.

Lemma filter_other fd (fds rest : list Z) : NoDup fds -> fds ≡ₚ fd :: rest -> filter (fun x => x <> fd) fds ≡ₚ rest.
Proof.
  intros Hn Hp. rewrite Hp in Hn. apply NoDup_cons in Hn as [Hnot _]. rewrite Hp. rewrite filter_cons_False by (intros H; by apply H).
  clear Hp. induction rest as [|x rest IH]; [done|]. rewrite not_elem_of_cons in Hnot. destruct Hnot as [H1 H2]. rewrite filter_cons_True by (intros E; by subst). by rewrite IH.
Qed.

Lemma close_fd_owned fd rest l : open_fds l ≡ₚ fd :: rest -> NoDup (open_fds l) ->
  exists fds, close_fd fd l = (Ret tt, set_fds fds l) /\ fds ≡ₚ rest /\ NoDup fds.
Proof.
  intros Hp Hn. exists (filter (fun x => x <> fd) (open_fds l)). unfold close_fd. rewrite bool_decide_eq_true_2 by (rewrite Hp; set_solver).
  split; [done|]. split; [by apply filter_other|by apply NoDup_filter].
Qed.

(** The end of the listening socket. *)
Lemma close_listener_ok l hs : open_fds l ≡ₚ option_list (listen_fd_ l) ++ hs -> NoDup (open_fds l) ->
  exists fds, close_listener l = (Ret tt, set_listen None (set_fds fds l)) /\ fds ≡ₚ hs /\ NoDup fds.
Proof.
  intros Hp Hn. unfold close_listener. sm_step. destruct (listen_fd_ l) as [fd|] eqn:El; cbn [option_list app] in Hp.
  - destruct (close_fd_owned fd hs l Hp Hn) as (fds & -> & H1 & H2). exists fds. sm_step. done.
  - exists (open_fds l). split; [|done]. destruct l; cbn in *; by subst.
Qed.

Definition no_timeout (e : Event) : bool := match e with EvServed t | EvDestroyed t => negb t | _ => true end.
(** The destructor is left before the handlers are gone. *)
Definition cut_short (e : Event) : bool := match e with EvDestroyed t => t | _ => false end.
Lemma no_timeout_cut e : no_timeout e = true -> cut_short e = false.
Proof. by destruct e as [| | |[]| | |[]| |]. Qed.

(** Only text was written. *)
Definition same_life (l l' : Listener) : Prop := exists t, l' = add_err t l.
Lemma end_wait_same k c s l : exists l', end_wait k c s l = (Ret tt, l') /\ (l' = l \/ same_life l l').
Proof.
  unfold end_wait, WaitForIdleClients, complain. destruct (warns k); [|by exists l; auto]. sm_step.
  destruct (active_clients_ l >? 0); sm_step; eexists; (split; [reflexivity|]); [right; by eexists|by left].
Qed.

Section LifeSafe.
Context (k : Kind) (max_clients : Z).
Context (Hmax : 0 < max_clients).

Lemma life_ok_same l l' : (l' = l \/ same_life l l') -> life_ok max_clients l -> life_ok max_clients l'.
Proof. by intros [->|[t ->]] [H1 H2 H3 H4 H5 H6]. Qed.

Lemma leave_loop_ok l : life_ok max_clients l -> destroyed l = false -> exists l', leave_loop l = (Ret tt, l') /\ life_ok max_clients l'.
Proof.
  intros [H1 H2 H3 H4 H5 H6] Hd. destruct (close_listener_ok l _ H1 H2) as (fds & E & Hp & Hn). unfold leave_loop. sm_step. rewrite E.
  eexists. split; [reflexivity|]. split; cbn; try done; by rewrite Hd.
Qed.

Lemma round_ok p l : life_ok max_clients l -> destroyed l = false -> phase l = kAccepting -> fresh_fd p l = true ->
  exists l', Serve_round k max_clients p l = (Ret tt, l') /\ life_ok max_clients l'.
Proof.
  intros Hl Hd Ha Hf. pose proof Hl as [H1 H2 H3 H4 H5 H6]. rewrite Ha in H5.
  assert (life_ok max_clients (set_phase kTesting l)) as Htest by (split; cbn; try done; by rewrite Hd).
  assert (forall t, life_ok max_clients (set_phase kTesting (add_err t l))) as Herr by (intros t; split; cbn; try done; by rewrite Hd).
  assert (forall t, life_ok max_clients (add_err t l)) as Herr2 by (intros t; by apply (life_ok_same l); [right; by eexists|]).
  unfold Serve_round, serve_round. destruct p as [[] errno| |[[] errno|fd thread]]; unfold complain; sm_step; try (by eexists).
  - by apply leave_loop_ok.
  - destruct (running_ l); cbn [negb]; [by eexists|by apply leave_loop_ok].
  - cbn [fresh_fd] in Hf. apply negb_true_iff, bool_decide_eq_false in Hf. unfold open_fd, try_reserve, release. sm_step. cbn [active_clients_ set_fds].
    destruct (Z.ltb_spec (active_clients_ l) max_clients) as [Hlt|Hge]; cbn [negb]; sm_step.
    + destruct thread as [what|[]]; sm_step.
      * destruct (close_fd_owned fd (owned_fds l) (add_err ((lit "failed to start client thread: " ++ what) ++ [newline])
          (set_clients (active_clients_ l + 1) (handlers l) (set_fds (fd :: open_fds l) l)))) as (fds & E & Hp & Hn); [cbn; by rewrite H1|by constructor|].
        cbn [handlers set_fds] in *. rewrite E. eexists. split; [reflexivity|]. split; cbn; try done; try (by rewrite Hd); lia.
      * eexists. split; [reflexivity|]. split; cbn; try done.
        -- unfold owned_fds in *. cbn. rewrite H1, omap_app, app_assoc. change (omap handler_fd [HServing fd]) with [fd]. by rewrite <- Permutation_cons_append.
        -- by constructor.
        -- rewrite length_app. cbn. lia.
        -- lia.
        -- by rewrite Hd.
    + destruct (close_fd_owned fd (owned_fds l) (add_refused fd (refusal k) (set_fds (fd :: open_fds l) l))) as (fds & E & Hp & Hn); [cbn; by rewrite H1|by constructor|].
      rewrite E. eexists. split; [reflexivity|]. split; cbn; try done; by rewrite Hd.
Qed.

Lemma omap_insert_closed (hs : list Handler) i fd : hs !! i = Some (HServing fd) ->
  omap handler_fd hs ≡ₚ fd :: omap handler_fd (<[i := HClosed]> hs).
Proof.
  revert i. induction hs as [|h hs IH]; intros [|i] Hi; [done|done| |]; cbn in *.
  - injection Hi as ->. done.
  - destruct (handler_fd h) as [x|]; [|by apply IH]. rewrite (IH i Hi). constructor 3.
Qed.
Lemma omap_delete_closed (hs : list Handler) i : hs !! i = Some HClosed -> omap handler_fd (delete i hs) = omap handler_fd hs.
Proof. revert i. induction hs as [|h hs IH]; intros [|i] Hi; [done|done| |]; cbn in *; [by injection Hi as ->|]. by rewrite IH. Qed.

Lemma life_step e l r l' : life_ok max_clients l -> cut_short e = false -> life k max_clients e l = Some (r, l') -> r = Ret tt /\ life_ok max_clients l'.
Proof.
  intros Hl Ht E. pose proof Hl as [H1 H2 H3 H4 H5 H6]. unfold life in E. destruct e as [| |p|t| | |t|i|i]; cbn [cut_short] in Ht.
  - destruct (bool_decide_reflect (phase l = kNotServing)) as [Ep|]; [|done]. destruct (bool_decide_reflect (is_Some (listen_fd_ l))) as [Hs|]; [|by rewrite andb_false_r in E].
    destruct (destroyed l) eqn:Hd; [done|]. injection E as <- <-. split; [done|]. split; cbn; try done; by rewrite Hd.
  - destruct (bool_decide_reflect (phase l = kTesting)) as [Ep|]; [|done]. destruct (destroyed l) eqn:Hd; [done|]. injection E as E. revert E.
    unfold Serve_test. sm_step. destruct (running_ l).
    + sm_step. intros [= <- <-]. split; [done|]. rewrite Ep in H5. split; cbn; try done; by rewrite Hd.
    + destruct (leave_loop_ok l Hl Hd) as (l1 & -> & Hl1). by intros [= <- <-].
  - destruct (bool_decide_reflect (phase l = kAccepting)) as [Ep|]; [|done]. destruct (destroyed l) eqn:Hd; [done|]. cbn [andb negb] in E.
    destruct (fresh_fd p l) eqn:Hf; [|done]. destruct (round_ok p l Hl Hd Ep Hf) as (l1 & E1 & Hl1). rewrite E1 in E. by injection E as <- <-.
  - destruct (bool_decide_reflect (phase l = kWaiting)) as [Ep|]; [|done]. destruct (destroyed l) eqn:Hd; [done|]. destruct (wait_over t l); [|done].
    injection E as E. revert E. unfold Serve_end. sm_step. destruct (end_wait_same k (lit "SqlServer::Serve") (lit "10") l) as (l1 & -> & Hs). intros [= <- <-]. split; [done|].
    destruct (life_ok_same _ _ Hs Hl) as [G1 G2 G3 G4 G5 G6]. assert (phase l1 = phase l /\ destroyed l1 = destroyed l) as [F1 F2] by (by destruct Hs as [->|[? ->]]).
    rewrite F1, Ep in G5. split; cbn; try done; by rewrite F2, Hd.
  - destruct (destroyed l) eqn:Hd; [done|]. injection E as <- <-. split; [done|]. split; cbn; try done; by rewrite Hd.
  - destruct (destroyed l) eqn:Hd; [by rewrite !andb_false_r in E|]. destruct (_ || _); [|done]. destruct (close_listener_ok (set_running false l) _ H1 H2) as (fds & Ec & Hp & Hn).
    unfold begin_destroy, Stop in E. revert E. sm_step. rewrite Ec. intros [= <- <-]. split; [done|]. split; cbn; try done; by rewrite Hd.
  - destruct (bool_decide_reflect (phase l = kDestroying)) as [Ep|]; [|done]. destruct (destroyed l) eqn:Hd; [done|]. destruct t; [done|]. unfold wait_over in E.
    rewrite orb_false_r in E. destruct (Z.leb_spec (active_clients_ l) 0); [|done]. injection E as E. revert E. unfold destroy_end. sm_step.
    destruct (end_wait_same k (lit "SqlServer destructor") (lit "5") l) as (l1 & -> & Hs). intros [= <- <-]. split; [done|].
    assert (handlers l = []) as Hh by (destruct (handlers l); [done|cbn in H3; lia]). pose proof H5 as H5b. rewrite Ep in H5b.
    destruct Hs as [->|[tx ->]]; by split.
  - destruct (handlers l !! i) as [[fd|]|] eqn:Hi; [|done..]. destruct (destroyed l) eqn:Hd; [by destruct (H6 eq_refl) as [_ Hh]; rewrite Hh in Hi|].
    injection E as E. unfold ServeClient_end, on_live in E. revert E. sm_step. rewrite Hd.
    destruct (close_fd_owned fd (option_list (listen_fd_ l) ++ omap handler_fd (<[i := HClosed]> (handlers l))) l) as (fds & -> & Hp & Hn); [|done|].
    { rewrite H1. unfold owned_fds. rewrite (omap_insert_closed _ _ _ Hi). by rewrite Permutation_middle. }
    sm_step. intros [= <- <-]. split; [done|]. split; cbn; try done; rewrite ?length_insert, ?Hd; done.
  - destruct (handlers l !! i) as [[fd|]|] eqn:Hi; [done| |done]. destruct (destroyed l) eqn:Hd; [by destruct (H6 eq_refl) as [_ Hh]; rewrite Hh in Hi|].
    injection E as E. unfold SlotGuard_end, on_live, release in E. revert E. sm_step. rewrite Hd. intros [= <- <-]. split; [done|].
    pose proof (lookup_lt_Some _ _ _ Hi). split; cbn; try done.
    + unfold owned_fds in *. cbn. by rewrite omap_delete_closed.
    + rewrite length_delete by done. lia.
    + lia.
    + by rewrite Hd.
Qed.

Lemma lives_ok es : forall l r l', life_ok max_clients l -> Forall (fun e => no_timeout e = true) es -> lives k max_clients es l = Some (r, l') ->
  r = Ret tt /\ life_ok max_clients l'.
Proof.
  induction es as [|e es IH]; intros l r l' Hl Ht E; cbn [lives] in E; [by injection E as <- <-|]. apply Forall_cons in Ht as [Hte Ht].
  destruct (life k max_clients e l) as [[r1 l1]|] eqn:E1; [|done]. destruct (life_step e l r1 l1 Hl (no_timeout_cut _ Hte) E1) as [-> Hl1]. by eapply IH.
Qed.

(** ** The end of a server *)

Lemma lives_app es1 es2 l l1 : lives k max_clients es1 l = Some (Ret tt, l1) -> lives k max_clients (es1 ++ es2) l = lives k max_clients es2 l1.
Proof.
  revert l. induction es1 as [|e es1 IH]; intros l H; cbn [lives app] in *; [by injection H as <-|].
  destruct (life k max_clients e l) as [[[u|e'|] l']|]; [by apply IH|done..].
Qed.

(** The events without time-outs, or all but a destructor that is cut short. *)
Definition allowed (timeouts : bool) (e : Event) : bool := if timeouts then negb (cut_short e) else no_timeout e.
Lemma allowed_cut t e : allowed t e = true -> cut_short e = false.
Proof. destruct t; [by intros ?%negb_true_iff|apply no_timeout_cut]. Qed.

(** [l'] can follow [l], and the server has been stopped and is not gone. *)
Record leads_to (timeouts : bool) (l l' : Listener) : Prop := {
  lt_events : exists es, Forall (fun e => allowed timeouts e = true) es /\ lives k max_clients es l = Some (Ret tt, l');
  lt_ok : life_ok max_clients l';
  lt_live : destroyed l' = false;
  lt_stopped : running_ l' = false
}.
Lemma leads_refl t l : life_ok max_clients l -> destroyed l = false -> running_ l = false -> leads_to t l l.
Proof. intros. split; try done. exists []. by split; [constructor|]. Qed.
Lemma leads_trans t l1 l2 l3 : leads_to t l1 l2 -> leads_to t l2 l3 -> leads_to t l1 l3.
Proof.
  intros [(es1 & F1 & E1) _ _ _] [(es2 & F2 & E2) H1 H2 H3]. split; try done. exists (es1 ++ es2). split; [by apply Forall_app|]. by rewrite (lives_app _ _ _ l2).
Qed.
Lemma leads_one t e l l' : life_ok max_clients l -> allowed t e = true -> life k max_clients e l = Some (Ret tt, l') ->
  destroyed l' = false -> running_ l' = false -> leads_to t l l'.
Proof.
  intros Hl Ht E Hd Hr. destruct (life_step e l _ _ Hl (allowed_cut _ _ Ht) E) as [_ Hl']. split; try done.
  exists [e]. split; [by constructor|]. cbn [lives]. by rewrite E.
Qed.

(** A handler that has closed its socket gives its slot back. *)
Lemma exit_first l hs : life_ok max_clients l -> destroyed l = false -> running_ l = false -> handlers l = HClosed :: hs ->
  exists l', leads_to false l l' /\ phase l' = phase l /\ handlers l' = hs.
Proof.
  intros Hl Hd Hr Hh. eexists. split; [apply (leads_one false (EvHandlerExit 0)); [done|done| | |]|].
  - cbn [life]. rewrite Hh. cbn [lookup list_lookup]. unfold SlotGuard_end, on_live, release. sm_step. rewrite Hd. reflexivity.
  - done.
  - done.
  - cbn. by rewrite Hh.
Qed.
Lemma first_leaves l h hs : life_ok max_clients l -> destroyed l = false -> running_ l = false -> handlers l = h :: hs ->
  exists l', leads_to false l l' /\ phase l' = phase l /\ handlers l' = hs.
Proof.
  intros Hl Hd Hr Hh. destruct h as [fd|]; [|by apply exit_first]. pose proof Hl as [H1 H2 _ _ _ _].
  destruct (close_fd_owned fd (option_list (listen_fd_ l) ++ omap handler_fd hs) l) as (fds & E & _ & _); [|done|].
  { rewrite H1. unfold owned_fds. rewrite Hh. cbn. by rewrite Permutation_middle. }
  assert (exists l1, leads_to false l l1 /\ phase l1 = phase l /\ handlers l1 = HClosed :: hs) as (l1 & Hl1 & Hp1 & Hh1).
  { eexists. split; [apply (leads_one false (EvHandlerClose 0)); [done|done| | |]|].
    - cbn [life]. rewrite Hh. cbn [lookup list_lookup]. unfold ServeClient_end, on_live. sm_step. rewrite Hd, E. sm_step. reflexivity.
    - done.
    - done.
    - cbn. by rewrite Hh. }
  destruct (exit_first l1 hs (lt_ok _ _ _ Hl1) (lt_live _ _ _ Hl1) (lt_stopped _ _ _ Hl1) Hh1) as (l2 & Hl2 & Hp2 & Hh2).
  exists l2. split; [by eapply leads_trans|]. by rewrite Hp2.
Qed.
Lemma handlers_leave hs : forall l, life_ok max_clients l -> destroyed l = false -> running_ l = false -> handlers l = hs ->
  exists l', leads_to false l l' /\ phase l' = phase l /\ handlers l' = [].
Proof.
  induction hs as [|h hs IH]; intros l Hl Hd Hr Hh.
  - exists l. split; [by apply leads_refl|done].
  - destruct (first_leaves l h hs Hl Hd Hr Hh) as (l1 & Hl1 & Hp1 & Hh1).
    destruct (IH l1 (lt_ok _ _ _ Hl1) (lt_live _ _ _ Hl1) (lt_stopped _ _ _ Hl1) Hh1) as (l2 & Hl2 & Hp2 & Hh2). exists l2. split; [by eapply leads_trans|]. by rewrite Hp2.
Qed.

(** Once the waits end, the main thread gets from each phase to the next. *)
Definition phases_left (p : Phase) : nat :=
  match p with kAccepting => 4 | kTesting => 3 | kWaiting => 2 | kServed | kNotServing => 1 | kDestroying => 0 end.

Lemma wait_over_same t l l' : life_ok max_clients l -> life_ok max_clients l' -> handlers l' = handlers l -> wait_over t l = wait_over t l'.
Proof. intros Hl Hl' Hh. unfold wait_over. by rewrite (lo_count _ _ Hl), (lo_count _ _ Hl'), Hh. Qed.

Lemma phase_advances t l : life_ok max_clients l -> destroyed l = false -> running_ l = false -> wait_over t l = true -> phase l <> kDestroying ->
  exists l', leads_to t l l' /\ handlers l' = handlers l /\ (phases_left (phase l') < phases_left (phase l))%nat.
Proof.
  intros Hl Hd Hr Hw Hp. pose proof Hl as [H1 H2 _ _ _ _].
  destruct (close_listener_ok l _ H1 H2) as (fds & Ec & _ & _). destruct (close_listener_ok (set_running false l) _ H1 H2) as (fds' & Ec' & _ & _).
  assert (forall e l', allowed t e = true -> life k max_clients e l = Some (Ret tt, l') -> destroyed l' = false -> running_ l' = false ->
    handlers l' = handlers l -> (phases_left (phase l') < phases_left (phase l))%nat ->
    exists l', leads_to t l l' /\ handlers l' = handlers l /\ (phases_left (phase l') < phases_left (phase l))%nat) as Hgo.
  { intros e l' Ht E F1 F2 F3 F4. exists l'. split; [by apply (leads_one t e)|done]. }
  destruct (phase l) eqn:Ep; [..|done].
  - eapply (Hgo EvDestroy); [by destruct t|cbn [life]; rewrite Ep, Hd; cbn [bool_decide]; unfold begin_destroy, Stop; sm_step; rewrite Ec'; reflexivity|done..|cbn; lia].
  - eapply (Hgo EvTest); [by destruct t|cbn [life]; rewrite Ep, Hd; cbn [bool_decide]; unfold Serve_test, leave_loop; sm_step; rewrite Hr; sm_step; rewrite Ec; reflexivity|done..|cbn; lia].
  - eapply (Hgo (EvRound PollTimeout)); [by destruct t|cbn [life]; rewrite Ep, Hd; reflexivity|done..|cbn; lia].
  - destruct (end_wait_same k (lit "SqlServer::Serve") (lit "10") l) as (l1 & E & Hs).
    assert (destroyed l1 = false /\ running_ l1 = false /\ handlers l1 = handlers l) as (F1 & F2 & F3) by (by destruct Hs as [->|[? ->]]).
    eapply (Hgo (EvServed t)); [by destruct t|cbn [life]; rewrite Ep, Hd, Hw by done; unfold Serve_end; sm_step; rewrite E; reflexivity|done..|cbn; lia].
  - eapply (Hgo EvDestroy); [by destruct t|cbn [life]; rewrite Ep, Hd; cbn [bool_decide]; unfold begin_destroy, Stop; sm_step; rewrite Ec'; reflexivity|done..|cbn; lia].
Qed.

Lemma main_reaches_end t n : forall l, (phases_left (phase l) <= n)%nat -> life_ok max_clients l -> destroyed l = false -> running_ l = false -> wait_over t l = true ->
  exists l', leads_to t l l' /\ handlers l' = handlers l /\ phase l' = kDestroying.
Proof.
  induction n as [|n IH]; intros l Hn Hl Hd Hr Hw.
  - exists l. split; [by apply leads_refl|]. split; [done|]. destruct (phase l); cbn in Hn; done || lia.
  - destruct (decide (phase l = kDestroying)) as [Ep|Ep]; [exists l; split; [by apply leads_refl|done]|].
    destruct (phase_advances t l Hl Hd Hr Hw Ep) as (l1 & Hl1 & Hh1 & Hlt). rewrite (wait_over_same t l l1 Hl (lt_ok _ _ _ Hl1) Hh1) in Hw.
    destruct (IH l1 ltac:(lia) (lt_ok _ _ _ Hl1) (lt_live _ _ _ Hl1) (lt_stopped _ _ _ Hl1) Hw) as (l2 & Hl2 & Hh2 & Hp2).
    exists l2. split; [by eapply leads_trans|]. by rewrite Hh2.
Qed.

(** Stop; then the main thread gets to the end of the destructor, if its waits end. *)
Lemma stopped_can_end t l : life_ok max_clients l -> destroyed l = false -> running_ l = false -> wait_over t l = true ->
  exists es l', Forall (fun e => allowed t e = true) es /\ lives k max_clients (es ++ [EvDestroyed t]) l = Some (Ret tt, l') /\
    destroyed l' = true /\ handlers l' = handlers l.
Proof.
  intros Hl Hd Hr Hw. destruct (main_reaches_end t 4 l ltac:(destruct (phase l); cbn; lia) Hl Hd Hr Hw) as (l3 & [(es & Hes & E) Hok Hlive _] & Hh3 & Hp3).
  destruct (end_wait_same k (lit "SqlServer destructor") (lit "5") l3) as (l4 & E4 & Hs). rewrite (wait_over_same t l l3 Hl Hok Hh3) in Hw.
  exists es, (set_destroyed l4). split; [done|]. split; [|split; [done|cbn; rewrite <- Hh3; by destruct Hs as [->|[? ->]]]].
  rewrite (lives_app _ _ _ _ E). cbn [lives life]. rewrite Hp3, Hlive, Hw. cbn. unfold destroy_end. sm_step. by rewrite E4.
Qed.

Lemma leads_stop t l : life_ok max_clients l -> destroyed l = false -> leads_to t l (set_running false l).
Proof. intros Hl Hd. apply (leads_one t EvStop); [done|by destruct t| |done|done]. cbn [life]. by rewrite Hd. Qed.

(** Stop, then the handlers leave, then the main thread gets through the destructor. *)
Lemma server_can_end l : life_ok max_clients l -> destroyed l = false ->
  exists es l', Forall (fun e => no_timeout e = true) es /\ lives k max_clients es l = Some (Ret tt, l') /\ destroyed l' = true.
Proof.
  intros Hl Hd. pose proof (leads_stop false l Hl Hd) as H1.
  destruct (handlers_leave (handlers l) _ (lt_ok _ _ _ H1) (lt_live _ _ _ H1) (lt_stopped _ _ _ H1) eq_refl) as (l2 & H2 & _ & Hh2).
  destruct (leads_trans _ _ _ _ H1 H2) as [(es1 & F1 & E1) Hok Hlive Hst].
  destruct (stopped_can_end false l2 Hok Hlive Hst) as (es2 & l3 & F2 & E2 & Hd3 & _); [unfold wait_over; by rewrite (lo_count _ _ Hok), Hh2|].
  exists (es1 ++ es2 ++ [EvDestroyed false]), l3. split; [|split; [by rewrite (lives_app _ _ _ _ E1)|done]].
  apply Forall_app. split; [done|]. apply Forall_app. split; [done|by constructor].
Qed.

(** Stop, then the waits run out: the server goes and the handlers stay. *)
Lemma server_can_be_cut_short l : life_ok max_clients l -> destroyed l = false ->
  exists es l', lives k max_clients es l = Some (Ret tt, l') /\ destroyed l' = true /\ handlers l' = handlers l.
Proof.
  intros Hl Hd. pose proof (leads_stop true l Hl Hd) as H1. destruct H1 as [(es1 & _ & E1) Hok Hlive Hst].
  destruct (stopped_can_end true _ Hok Hlive Hst) as (es2 & l3 & _ & E2 & Hd3 & Hh3); [unfold wait_over; by rewrite orb_true_r|].
  exists (es1 ++ es2 ++ [EvDestroyed true]), l3. split; [by rewrite (lives_app _ _ _ _ E1)|done].
Qed.

(** Handlers that do not leave stay. *)
Definition no_exit (e : Event) : bool := match e with EvHandlerExit _ => false | _ => true end.

Definition grows {A} (m : LM A) : Prop := forall l, (length (handlers l) <= length (handlers (m l).2))%nat.
Lemma grows_bind {A B} (m : LM A) (f : A -> LM B) : grows m -> (forall a, grows (f a)) -> grows (m ≫= f).
Proof.
  intros Hm Hf l. specialize (Hm l). unfold mbind, SM_bind. destruct (m l) as [[a|e|] l1]; cbn in *; try done. specialize (Hf a l1). lia.
Qed.
Lemma grows_gets {A} (f : Listener -> A) : grows (gets f).
Proof. by intros l. Qed.
Lemma grows_ret {A} (a : A) : grows (mret a : LM A).
Proof. by intros l. Qed.
Lemma grows_modify f : (forall l, (length (handlers l) <= length (handlers (f l)))%nat) -> grows (modify f).
Proof. intros H l. apply H. Qed.
Lemma grows_close_fd fd : grows (close_fd fd).
Proof. intros l. unfold close_fd. by case_bool_decide. Qed.
Lemma grows_close_listener : grows close_listener.
Proof.
  apply grows_bind; [apply grows_gets|]. intros [fd|]; [|apply grows_ret]. apply grows_bind; [apply grows_close_fd|]. intros _. by apply grows_modify.
Qed.
Lemma grows_leave_loop : grows leave_loop.
Proof. apply grows_bind; [apply grows_close_listener|]. intros _. by apply grows_modify. Qed.
Lemma grows_end_wait c t : grows (end_wait k c t).
Proof. intros l. destruct (end_wait_same k c t l) as (l' & -> & [->|[x ->]]); done. Qed.

Lemma grows_round p : grows (Serve_round k max_clients p).
Proof.
  apply grows_bind; [|by intros []; [apply grows_modify|apply grows_leave_loop]].
  assert (forall t, grows (complain t)) as Hc by (intros t; by apply grows_modify).
  destruct p as [[] errno| |[[] errno|fd thread]]; cbn [serve_round]; try apply grows_ret.
  - apply grows_bind; [done|]. intros _. apply grows_ret.
  - apply grows_bind; [apply grows_gets|]. intros []; cbn [negb]; [|apply grows_ret]. apply grows_bind; [done|]. intros _. apply grows_ret.
  - apply grows_bind; [by apply grows_modify|]. intros _. apply grows_bind.
    { apply grows_bind; [apply grows_gets|]. intros n. destruct (n <? max_clients); [|apply grows_ret]. apply grows_bind; [by apply grows_modify|]. intros _. apply grows_ret. }
    intros []; cbn [negb].
    + destruct thread as [what|[]]; (apply grows_bind; [|intros _]); try apply grows_ret; [done| |].
      * apply grows_bind; [apply grows_close_fd|]. intros _. apply grows_bind; [by apply grows_modify|]. intros _. apply grows_ret.
      * apply grows_modify. intros l. cbn. rewrite length_app. lia.
    + apply grows_bind; [by apply grows_modify|]. intros _. apply grows_bind; [apply grows_close_fd|]. intros _. apply grows_ret.
Qed.

Lemma life_grows e l r l' : no_exit e = true -> life k max_clients e l = Some (r, l') -> (length (handlers l) <= length (handlers l'))%nat.
Proof.
  intros He E. assert (forall (m : LM unit), grows m -> Some (m l) = Some (r, l') -> (length (handlers l) <= length (handlers l'))%nat) as Hm.
  { intros m Hg [= Em]. specialize (Hg l). by rewrite Em in Hg. }
  destruct e as [| |p|t| | |t|i|i]; [..|done]; cbn [life] in E.
  - destruct (_ && _); [|done]. revert E. apply Hm. by apply grows_modify.
  - destruct (_ && _); [|done]. revert E. apply Hm. apply grows_bind; [apply grows_gets|]. intros []; [by apply grows_modify|apply grows_leave_loop].
  - destruct (_ && _); [|done]. revert E. apply Hm, grows_round.
  - destruct (_ && _); [|done]. revert E. apply Hm. apply grows_bind; [apply grows_end_wait|]. intros _. by apply grows_modify.
  - destruct (negb _); [|done]. revert E. apply Hm. by apply grows_modify.
  - destruct (_ || _); [|done]. revert E. apply Hm. apply grows_bind; [|intros _; by apply grows_modify].
    apply grows_bind; [by apply grows_modify|]. intros _. apply grows_close_listener.
  - destruct (_ && _); [|done]. revert E. apply Hm. apply grows_bind; [apply grows_end_wait|]. intros _. by apply grows_modify.
  - destruct (handlers l !! i) as [[fd|]|]; [|done..]. revert E. apply Hm. apply grows_bind; [apply grows_gets|]. intros []; [by intros l0|].
    apply grows_bind; [apply grows_close_fd|]. intros _. apply grows_modify. intros l0. cbn. by rewrite length_insert.
Qed.

Lemma lives_grows es : forall l r l', Forall (fun e => no_exit e = true) es -> lives k max_clients es l = Some (r, l') ->
  (length (handlers l) <= length (handlers l'))%nat.
Proof.
  induction es as [|e es IH]; intros l r l' He E; cbn [lives] in E; [by injection E as <- <-|]. apply Forall_cons in He as [H1 H2].
  destruct (life k max_clients e l) as [[[u|s|] l1]|] eqn:E1; [|by injection E as <- <-; eapply life_grows..|done].
  etrans; [by eapply life_grows|by eapply IH].
Qed.
End LifeSafe.

(** [SendAll] succeeds exactly when everything got through; otherwise a part from the
    front did. *)
Lemma SendAll_prefix calls : forall data got b out, SendAll calls data got = Ret (b, out) ->
  exists sent rest, out = got ++ sent /\ data = sent ++ rest /\ (b = true -> rest = []).
Proof.
  induction calls as [|[n| |] calls IH]; intros [|x data] got b out H; cbn [SendAll] in H;
    try (injection H as <- <-; exists [], []; by rewrite app_nil_r); try done.
  - destruct n as [|n]; [injection H as <- <-; exists [], (x :: data); by rewrite app_nil_r|].
    destruct (IH _ _ _ _ H) as (sent & rest & -> & Hd & Hb). exists (take (S n) (x :: data) ++ sent), rest.
    rewrite <- !app_assoc, <- Hd, take_drop. done.
  - by apply IH.
  - injection H as <- <-. exists [], (x :: data). by rewrite app_nil_r.
Qed.

(** * What Start leaves *)

Definition started_with (cfg : ServerConfig) (sc : StartCalls) (fd : Z) : Listener :=
  mkListener (Some fd) true (default (cfg_port cfg) (sc_name sc)) true 0 [] kNotServing false [fd] [] [].

Lemma close_only fd l : open_fds l = [fd] -> close_fd fd l = (Ret tt, set_fds [] l).
Proof.
  intros E. unfold close_fd. rewrite E, bool_decide_eq_true_2 by set_solver. by rewrite filter_cons_False by (intros Hn; by apply Hn).
Qed.

Lemma already_started_new : already_started Listener_new = (Ret tt, Listener_new).
Proof. done. Qed.

(** Runs a Start whose calls have been told apart. *)
Ltac run_start := sm_step; rewrite ?already_started_new; sm_step; rewrite ?close_only by done; sm_step.

Lemma Server_Start_cases cfg sc :
  (exists fd, sc_db sc = inr tt /\ sc_socket sc = inr fd /\ Server_Start cfg sc Listener_new = (Ret tt, started_with cfg sc fd)) \/
  (exists e, Server_Start cfg sc Listener_new = (Fail e, Listener_new)).
Proof.
  unfold Server_Start, open_database, open_fd, undo, record_port.
  destruct sc as [[e|[]] [errno|fd] [] [eb|[]] [el|[]] name]; cbn [sc_db sc_socket sc_pton sc_bind sc_listen sc_name negb]; run_start;
    first [right; by eexists|left; by eexists].
Qed.

Lemma started_life_ok max_clients cfg sc fd : 0 < max_clients -> life_ok max_clients (started_with cfg sc fd).
Proof. intros H. split; cbn; try done; try lia. apply NoDup_singleton. Qed.

(** * Properties *)

(** Starting a server succeeds entirely - database open, socket listening, port
    known, running - or leaves the object and the process as they were: no database, no
    socket.  The key-value server, which undoes its steps by hand, and the SQL server,
    which leaves that to its local variables, do the same whatever the system calls
    return. *)
Theorem start_all_or_nothing cfg sc :
  SqlServer_Start cfg sc Listener_new = Server_Start cfg sc Listener_new /\
  ((exists fd, sc_socket sc = inr fd /\ Server_Start cfg sc Listener_new = (Ret tt, started_with cfg sc fd)) \/
   (exists e, Server_Start cfg sc Listener_new = (Fail e, Listener_new))).
Proof.
  split; [|destruct (Server_Start_cases cfg sc) as [(fd & _ & H)|H]; [left; by exists fd|by right]].
  unfold SqlServer_Start, Server_Start, open_database, open_fd, undo, scoped_fd, record_port.
  destruct sc as [[e|[]] [errno|fd] [] [eb|[]] [el|[]] name]; cbn [sc_db sc_socket sc_pton sc_bind sc_listen sc_name negb]; run_start; done.
Qed.

(** C35: The life of a server, under every order of connections, failed calls, threads
    that cannot be started, a stop and the ends of the handlers, as long as the waits of
    Serve and of the destructor are not cut short by their time limit: no socket is
    closed twice, every open socket is the listening one or that of one handler, the
    counter of clients is the number of handlers and at most the limit, no handler works
    on an object that is gone, and once it is gone no socket is open.  And the server
    can always be ended: a stop and the ends of the handlers lead to its destruction. *)
Theorem server_life_safe k cfg sc es l0 r l :
  0 < cfg_max_clients cfg ->
  Server_Start cfg sc Listener_new = (Ret tt, l0) ->
  Forall (fun e => no_timeout e = true) es ->
  lives k (cfg_max_clients cfg) es l0 = Some (r, l) ->
  r = Ret tt /\ open_fds l ≡ₚ owned_fds l /\ NoDup (open_fds l) /\
  active_clients_ l = Z.of_nat (length (handlers l)) /\ active_clients_ l <= cfg_max_clients cfg /\
  (destroyed l = true -> open_fds l = [] /\ handlers l = []) /\
  (destroyed l = false -> exists es' l', Forall (fun e => no_timeout e = true) es' /\
     lives k (cfg_max_clients cfg) es' l = Some (Ret tt, l') /\ destroyed l' = true).
Proof.
  intros Hmax Hs Hes Hl. assert (life_ok (cfg_max_clients cfg) l0) as H0.
  { destruct (Server_Start_cases cfg sc) as [(fd & _ & _ & E)|[e E]]; rewrite E in Hs; [|done]. injection Hs as <-. by apply started_life_ok. }
  destruct (lives_ok k _ es l0 r l H0 Hes Hl) as [-> Hok]. pose proof Hok as [H1 H2 H3 H4 H5 H6]. split_and!; try done; [|by apply server_can_end].
  intros Hd. destruct (H6 Hd) as [E1 E2]. split; [|done]. apply Permutation_nil. unfold owned_fds in H1. by rewrite E1, E2 in H1.
Qed.

(** A server for one client: a second one is turned away. *)
Definition life_cfg : ServerConfig := mkServerConfig (lit "127.0.0.1") 0 (lit "db") 1.
Definition life_calls : StartCalls := mkStartCalls (inr tt) (inr 3) true (inr tt) (inr tt) (Some 7379).
Definition life_events : list Event :=
  [EvServe; EvTest; EvRound (PollReady (AcceptFd 4 (inr tt))); EvTest; EvRound (PollReady (AcceptFd 5 (inr tt))); EvTest; EvStop;
   EvRound PollTimeout; EvHandlerClose 0; EvTest; EvHandlerExit 0; EvServed false; EvDestroy; EvDestroyed false].
Lemma server_life_safe_witness : exists l0 l, lives SqlServer_kind 1 life_events l0 = Some (Ret tt, l) /\ destroyed l = true /\
  refused l = [(5, lit "-ERR InvalidArgument: too many connections" ++ [newline])] /\ open_fds l = [].
Proof.
  exists (started_with life_cfg life_calls 3), (snd (default (Ret tt, Listener_new) (lives SqlServer_kind 1 life_events (started_with life_cfg life_calls 3)))).
  pose proof (server_life_safe SqlServer_kind life_cfg life_calls life_events (started_with life_cfg life_calls 3) (Ret tt)
    (snd (default (Ret tt, Listener_new) (lives SqlServer_kind 1 life_events (started_with life_cfg life_calls 3))))
    ltac:(cbn; lia) ltac:(vm_compute; reflexivity) ltac:(repeat constructor) ltac:(vm_compute; reflexivity)) as (_ & _ & _ & _ & _ & H & _).
  split_and!; [vm_compute; reflexivity|vm_compute; reflexivity|vm_compute; reflexivity|]. apply H. vm_compute. reflexivity.
Defined.

(** What handler [i] does next. *)
Definition handler_event (i : nat) (h : Handler) : Event := match h with HServing _ => EvHandlerClose i | HClosed => EvHandlerExit i end.

(** C37: A client that stays outlives the server: whatever has happened since Start without a time-out, while a
    handler is there and the server is not gone, a stop and the time limits of Serve and of the
    destructor can lead to the destruction of the object with every handler still running,
    and the next thing that a handler does is done on the destroyed object.  Without the
    time limits that is impossible: as long as no handler leaves, the object is there. *)
Theorem idle_client_outlives_server k cfg sc es l0 l i h :
  0 < cfg_max_clients cfg ->
  Server_Start cfg sc Listener_new = (Ret tt, l0) ->
  Forall (fun e => no_timeout e = true) es ->
  lives k (cfg_max_clients cfg) es l0 = Some (Ret tt, l) ->
  destroyed l = false -> handlers l !! i = Some h ->
  (exists es' l', lives k (cfg_max_clients cfg) es' l = Some (Ret tt, l') /\ destroyed l' = true /\ handlers l' = handlers l /\
     life k (cfg_max_clients cfg) (handler_event i h) l' = Some (Stuck, l')) /\
  (forall es' r l', Forall (fun e => no_timeout e = true) es' -> Forall (fun e => no_exit e = true) es' ->
     lives k (cfg_max_clients cfg) es' l = Some (r, l') -> destroyed l' = false).
Proof.
  intros Hmax Hs Hes Hl Hd Hi. assert (life_ok (cfg_max_clients cfg) l0) as H0.
  { destruct (Server_Start_cases cfg sc) as [(fd & _ & _ & E)|[e E]]; rewrite E in Hs; [|done]. injection Hs as <-. by apply started_life_ok. }
  destruct (lives_ok k _ es l0 _ l H0 Hes Hl) as [_ Hok]. split.
  - destruct (server_can_be_cut_short k _ l Hok Hd) as (es' & l' & E & Hd' & Hh). exists es', l'. split_and!; try done.
    destruct h as [fd|]; cbn [handler_event life]; rewrite Hh, Hi; unfold ServeClient_end, SlotGuard_end, on_live; sm_step; by rewrite Hd'.
  - intros es' r l' Ht Hx E. destruct (lives_ok k _ es' l r l' Hok Ht E) as [_ Hok']. apply lives_grows in E; [|done].
    destruct (destroyed l') eqn:Hd'; [|done]. destruct (lo_gone _ _ Hok' Hd') as [_ Hh]. rewrite Hh in E. apply lookup_lt_Some in Hi. cbn in E. lia.
Qed.

Lemma idle_client_outlives_server_witness :
  let served := [EvServe; EvTest; EvRound (PollReady (AcceptFd 4 (inr tt)))] in
  exists l es' l', lives Server_kind 1 served (started_with life_cfg life_calls 3) = Some (Ret tt, l) /\
    lives Server_kind 1 es' l = Some (Ret tt, l') /\ destroyed l' = true /\ handlers l' = handlers l /\
    life Server_kind 1 (EvHandlerClose 0) l' = Some (Stuck, l').
Proof.
  intros served. set (l := snd (default (Ret tt, Listener_new) (lives Server_kind 1 served (started_with life_cfg life_calls 3)))).
  destruct (idle_client_outlives_server Server_kind life_cfg life_calls served (started_with life_cfg life_calls 3) l 0%nat (HServing 4)
    ltac:(cbn; lia) ltac:(vm_compute; reflexivity) ltac:(repeat constructor) ltac:(vm_compute; reflexivity) ltac:(vm_compute; reflexivity)
    ltac:(vm_compute; reflexivity)) as [(es' & l' & H) _].
  exists l, es', l'. split; [vm_compute; reflexivity|]. exact H.
Defined.

(** The programs: their exit codes, and the line that says where the server listens. *)
Example main_help : Server_main (lit "srv") [lit "--help"] life_calls = Ret (Exits 0 [] (server_usage (lit "srv"))).
Proof. vm_compute. reflexivity. Qed.
Example main_bad_bind : SqlServer_main (lit "srv") [] (mkStartCalls (inr tt) (inr 3) true (inl (lit "busy")) (inr tt) None) =
  Ret (Exits 1 [] (lit "start failed: IOError: bind() failed: busy" ++ [newline])).
Proof. vm_compute. reflexivity. Qed.
Example main_listens : exists l, Server_main (lit "srv") [lit "--port"; lit "0"; lit "--db"; lit "d"] life_calls =
  Ret (Launched l (lit "lsmkv_server listening on 0.0.0.0:7379  db=d  max_clients=128" ++ [newline])).
Proof. eexists. vm_compute. reflexivity. Qed.
