(* ===== verification/Client.v ===== *)
(** The network client (examples/reldb_sql_cli.cpp): cutting a script into statements,
    sending each and reading its reply, batch and interactive mode.

    The socket is two streams of bytes: what the client sent, and what the server
    sends and the client has not read yet.  Files given with --file are chunks of
    text; connecting and the command line are in CliMain.v. *)
From S2P Require Import Prelude Status Env Version Types Schema Row Expr SqlAst Text SqlLexer SqlParser.
From S2P Require Import Kv Mvcc Catalog Database Txn Executor SqlSession Server QueryFormat Protocol SqlServer.
Delimit Scope byte_scope with byte.

(** * Sending and receiving *)

(** The lines of a statement, each without the carriage return before its end;
    [cur] is the line so far. *)
Fixpoint statement_lines (cur stmt : bytes) : list bytes :=
  match stmt with
  | [] => [strip_cr cur]
  | c :: stmt => if bool_decide (c = newline) then strip_cr cur :: statement_lines [] stmt else statement_lines (cur ++ [c]) stmt
  end.
(** What is sent. *)
Definition SendStatement (stmt : bytes) : bytes := unlines (statement_lines [] stmt).

(** [RecvLine] of the client, the same as the servers' *)
Definition Client_RecvLine (input : bytes) : option (bytes * bytes) := RecvLine input.

(** The lines of a block after [line], up to its end. *)
Fixpoint recv_block (n : nat) (line out input : bytes) : Res (option (bytes * bytes)) :=
  if bool_decide (line = lit "*END") then Ret (Some (out, input))
  else
    match n with
    | O => Stuck
    | S n =>
      match Client_RecvLine input with
      | None => Ret None
      | Some (line, input) => recv_block n line (out ++ line_text line) input
      end
    end.
(** The text of a reply and the bytes after it; nothing if the stream ends. *)
Definition RecvReply (input : bytes) : Res (option (bytes * bytes)) :=
  match Client_RecvLine input with
  | None => Ret None
  | Some (line, input) =>
    if starts line (lit "*PLAN") || starts line (lit "*RESULT") then recv_block (S (length input)) line (line_text line) input
    else Ret (Some (line_text line, input))
  end.

(** * Cutting a script *)

(** The position of the first semicolon outside of quotes. *)
Fixpoint find_semi (in_string : bool) (i : nat) (s : bytes) : option nat :=
  match s with
  | [] => None
  | ch :: rest =>
    if in_string then
      if bool_decide (ch = quote) then
        match rest with
        | c :: rest' => if bool_decide (c = quote) then find_semi true (S (S i)) rest' else find_semi false (S i) rest
        | [] => find_semi false (S i) rest
        end
      else find_semi true (S i) rest
    else if bool_decide (ch = quote) then find_semi true (S i) rest
    else if bool_decide (ch = ";"%byte) then Some i
    else find_semi false (S i) rest
  end.

Definition is_line_end (c : byte) : bool := bool_decide (c = newline) || bool_decide (c = cr).

Fixpoint extract_loop (n : nat) (buffer : bytes) (out : list bytes) : Res (list bytes * bytes) :=
  if bool_decide (buffer = []) then Ret (out, buffer)
  else
    match n with
    | O => Stuck
    | S n =>
      match find_semi false 0 buffer with
      | None => Ret (out, buffer)
      | Some semi =>
        let end_ := (semi + 1 + length (span is_blank (drop (semi + 1) buffer)).1)%nat in
        let tv := TrimViewWs (take end_ buffer) in
        let out := if bool_decide (tv = []) then out else out ++ [tv] in
        extract_loop n (span is_line_end (drop end_ buffer)).2 out
      end
    end.
(** The complete statements and what is left; a round takes at least one byte. *)
Definition ExtractCompleteStatements (buffer : bytes) : Res (list bytes * bytes) := extract_loop (length buffer) buffer [].

(** * Talking to the server *)

(** The bytes still to come, those sent, the statement being typed, whether the
    server said that a transaction is open, and what was printed. *)
Record Cli := mkCli { cli_input : bytes; cli_sent : bytes; cli_buffer : bytes; cli_in_txn : bool; cli_out : bytes; cli_err : bytes }.
Abbreviation CliM := (SM Cli).

Definition put_input (b : bytes) (c : Cli) : Cli := mkCli b (cli_sent c) (cli_buffer c) (cli_in_txn c) (cli_out c) (cli_err c).
Definition send (b : bytes) : CliM unit := modify (fun c => mkCli (cli_input c) (cli_sent c ++ b) (cli_buffer c) (cli_in_txn c) (cli_out c) (cli_err c)).
Definition put_buffer (b : bytes) : CliM unit := modify (fun c => mkCli (cli_input c) (cli_sent c) b (cli_in_txn c) (cli_out c) (cli_err c)).
Definition put_in_txn (b : bool) : CliM unit := modify (fun c => mkCli (cli_input c) (cli_sent c) (cli_buffer c) b (cli_out c) (cli_err c)).
Definition print (out err : bytes) : CliM unit :=
  modify (fun c => mkCli (cli_input c) (cli_sent c) (cli_buffer c) (cli_in_txn c) (cli_out c ++ out) (cli_err c ++ err)).

(** What a reply prints, on the output and on the error stream. *)
Definition PrintDecoded (d : DecodedReply) : Res (bytes * bytes) :=
  match dr_kind d with
  | kPong => Ret (line_text (lit "PONG"), [])
  | kReplyOk =>
    Ret (match dr_rows_affected d with
         | Some n => lit "rows_affected: " ++ line_text (to_string n)
         | None => match dr_in_txn d with Some b => line_text (lit "in_txn: " ++ if b then lit "1" else lit "0") | None => line_text (lit "ok") end
         end, [])
  | kError => Ret ([], line_text (lit "ERROR: " ++ error_text d))
  | kResult => out ← FormatQueryResult (dr_result d); Ret (out, [])
  | kUnknown => Ret ([], line_text (lit "ERROR: unknown reply"))
  end.

Section Client.
(** Whether all of [text], sent so far, got through. *)
Context (sends : bytes -> bool).

(** [SendAll]: nothing more is known of the stream when it fails. *)
Definition SendAll (b : bytes) : CliM bool := send b ;; gets (fun c => sends (cli_sent c)).
(** [RecvReply] on the stream. *)
Definition receive : CliM (option bytes) :=
  input ← gets cli_input;
  r ← lift (RecvReply input);
  match r with
  | None => modify (put_input []) ;; mret None
  | Some (raw, input) => modify (put_input input) ;; mret (Some raw)
  end.

Definition ExecAndPrint (text : bytes) : CliM bool :=
  ok ← SendAll (SendStatement text);
  if negb ok then print [] (line_text (lit "send failed")) ;; mret false
  else
    r ← receive;
    match r with
    | None => print [] (line_text (lit "recv failed (server closed?)")) ;; mret false
    | Some raw =>
      match DecodeReply raw with
      | Stuck => lift Stuck
      | Fail st => print [] (lit "decode failed: " ++ Status_ToString st ++ [newline] ++ line_text (lit "raw:") ++ raw) ;; mret true
      | Ret dec =>
        '(out, err) ← lift (PrintDecoded dec);
        print out err ;;
        match dr_in_txn dec with Some b => put_in_txn b | None => mret tt end ;;
        mret true
      end
    end.

(** [run_complete]: the statements of the buffer, until one is not answered. *)
Fixpoint exec_each (stmts : list bytes) : CliM bool :=
  match stmts with
  | [] => mret true
  | s :: stmts => ok ← ExecAndPrint s; if ok : bool then exec_each stmts else mret false
  end.
Definition run_complete : CliM bool :=
  buffer ← gets cli_buffer;
  '(stmts, rest) ← lift (ExtractCompleteStatements buffer);
  put_buffer rest ;;
  exec_each stmts.

Definition BestEffortQuit : CliM unit := SendAll (line_text (lit "QUIT")) ;; receive ;; mret tt.

(** ** Batch mode *)

Definition add_chunk (buffer chunk : bytes) : bytes :=
  (if bool_decide (buffer = []) || bool_decide (last buffer = Some newline) then buffer else buffer ++ [newline]) ++ chunk.

(** The exit code. *)
Definition main_batch (chunks : list bytes) : CliM Z :=
  put_buffer (foldl add_chunk [] chunks) ;;
  ok ← run_complete;
  rest ← gets cli_buffer;
  code ←
    (if negb ok then mret 1
     else if bool_decide (TrimViewWs rest = []) then mret 0
     else print [] (line_text (lit "ERROR: incomplete statement (missing ';')")) ;; mret 1);
  BestEffortQuit ;;
  mret code.

(** ** Interactive mode *)

Definition IsServerMeta (trimmed : bytes) : bool :=
  let u := ToUpperAscii trimmed in
  bool_decide (u = lit "PING") || bool_decide (u = lit "STATUS") || bool_decide (u = lit "RESET") || bool_decide (u = lit "QUIT").

Definition Prompt (in_txn cont : bool) : bytes :=
  if in_txn then (if cont then lit "sql'*> " else lit "sql*> ") else (if cont then lit "sql'> " else lit "sql> ").
Definition prompt (cont : bool) : CliM unit := in_txn ← gets cli_in_txn; print (Prompt in_txn cont) [].

Definition help_text : bytes :=
  unlines (map lit
    ["Commands:"; "  SQL ending with ';'     send to server (multi-line ok)"; "  PING / STATUS / RESET   server meta (single line)";
     "  QUIT                    disconnect (also .quit)"; "  .help                   this help"; "  .quit / .exit           disconnect and leave";
     EmptyString; "For a local embedded DB without TCP, use reldb_sql_shell."]%string).

(** [STATUS], to learn whether a transaction is open; failures are ignored. *)
Definition refresh_in_txn : CliM unit :=
  ok ← SendAll (SendStatement (lit "STATUS"));
  if negb ok then mret tt
  else
    r ← receive;
    match r with
    | None => mret tt
    | Some raw =>
      match DecodeReply raw with
      | Ret dec => match dr_in_txn dec with Some b => put_in_txn b | None => mret tt end
      | Fail _ => mret tt
      | Stuck => lift Stuck
      end
    end.

(** How the loop goes on: with the next line, out of the loop with a code, or out of
    the program without QUIT. *)
Inductive After : Set := kNext | kBreak (code : Z) | kReturn.

Definition interactive_line (line : bytes) : CliM After :=
  buffer ← gets cli_buffer;
  if negb (bool_decide (buffer = [])) then
    let buffer := buffer ++ [newline] ++ line in
    put_buffer buffer ;;
    if negb (EndsWithStatementTerminator buffer) then prompt true ;; mret kNext
    else
      ok ← run_complete;
      if negb ok then mret (kBreak 1) else prompt false ;; mret kNext
  else
    let trimmed := TrimViewWs line in
    if bool_decide (trimmed = []) then prompt false ;; mret kNext
    else if bool_decide (head trimmed = Some "."%byte) then
      if bool_decide (trimmed ∈ [lit ".help"; lit ".h"; lit "?"]) then print help_text [] ;; prompt false ;; mret kNext
      else if bool_decide (trimmed ∈ [lit ".quit"; lit ".exit"; lit ".q"]) then mret (kBreak 0)
      else print [] (line_text (lit "unknown meta-command: " ++ trimmed ++ lit " (try .help)")) ;; prompt false ;; mret kNext
    else if IsServerMeta trimmed then
      let u := ToUpperAscii trimmed in
      ok ← ExecAndPrint u;
      if negb ok then mret (kBreak 1)
      else if bool_decide (u = lit "QUIT") then mret kReturn
      else
        (if bool_decide (u = lit "STATUS") then mret tt else refresh_in_txn) ;;
        prompt false ;; mret kNext
    else
      put_buffer line ;;
      if negb (EndsWithStatementTerminator line) then prompt true ;; mret kNext
      else
        ok ← run_complete;
        if negb ok then mret (kBreak 1)
        else refresh_in_txn ;; prompt false ;; mret kNext.

(** The lines of the standard input, until it ends; the exit code. *)
Fixpoint interactive_loop (lines : list bytes) : CliM Z :=
  match lines with
  | [] => BestEffortQuit ;; mret 0
  | line :: lines =>
    a ← interactive_line line;
    match a with
    | kNext => interactive_loop lines
    | kBreak code => BestEffortQuit ;; mret code
    | kReturn => mret 0
    end
  end.
Definition main_interactive (lines : list bytes) : CliM Z := prompt false ;; interactive_loop lines.
End Client.

(** * Cutting a script *)

(** Inside or outside of a string ([b]) after a text that has no semicolon outside
    of strings; nothing if it has one. *)
Fixpoint body_scan (b : bool) (s : bytes) : option bool :=
  match s with
  | [] => Some b
  | c :: s =>
    if bool_decide (c = quote) then body_scan (negb b) s
    else if negb b && bool_decide (c = ";"%byte) then None
    else body_scan b s
  end.

Lemma find_quote i rest : find_semi true i (quote :: rest) = find_semi false (S i) rest.
Proof.
  cbn [find_semi]. rewrite bool_decide_eq_true_2 by done. destruct rest as [|c rest]; [done|]. destruct (bool_decide (c = quote)) eqn:E; [|done].
  cbn [find_semi]. by rewrite E.
Qed.

(** The scanner's treatment of doubled quotes comes to a change of state at each quote. *)
Lemma find_semi_cons b i c s : find_semi b i (c :: s) =
  if bool_decide (c = quote) then find_semi (negb b) (S i) s
  else if negb b && bool_decide (c = ";"%byte) then Some i else find_semi b (S i) s.
Proof.
  destruct (bool_decide_reflect (c = quote)) as [->|Hc].
  - destruct b; [apply find_quote|]. cbn [find_semi negb]. by rewrite bool_decide_eq_true_2.
  - destruct b; cbn [find_semi negb andb]; by rewrite !(bool_decide_eq_false_2 (c = quote)).
Qed.

Lemma find_semi_body body : forall b i rest, body_scan b body = Some false -> find_semi b i (body ++ ";"%byte :: rest) = Some (i + length body)%nat.
Proof.
  induction body as [|c body IH]; intros b i rest H; cbn [app]; rewrite find_semi_cons; cbn [body_scan] in H.
  - injection H as ->. cbn. by rewrite Nat.add_0_r.
  - cbn [length]. rewrite Nat.add_succ_r, <- Nat.add_succ_l. destruct (bool_decide (c = quote)); [by apply IH|]. destruct (negb b && _); [done|by apply IH].
Qed.
Lemma find_semi_none s : forall b i b', body_scan b s = Some b' -> find_semi b i s = None.
Proof.
  induction s as [|c s IH]; intros b i b' H; [done|]. rewrite find_semi_cons. cbn [body_scan] in H. destruct (bool_decide (c = quote)); [by eapply IH|].
  destruct (negb b && _); [done|by eapply IH].
Qed.
Lemma body_scan_app s1 : forall b s2, body_scan b (s1 ++ s2) = match body_scan b s1 with Some b' => body_scan b' s2 | None => None end.
Proof. induction s1 as [|c s1 IH]; intros b s2; cbn [app body_scan]; [done|]. destruct (bool_decide _); [done|]. by destruct (negb b && _). Qed.

(** The state is the parity of the quotes. *)
Lemma body_scan_quotes s : forall b b', body_scan b s = Some b' -> Nat.even (quotes s) = eqb b b'.
Proof.
  induction s as [|c s IH]; intros b b' H; cbn [body_scan quotes] in *; [injection H as ->; by destruct b'|].
  destruct (bool_decide (c = quote)).
  - apply IH in H. rewrite Nat.even_succ, <- Nat.negb_even, H. by destruct b, b'.
  - destruct (negb b && _); [done|by apply IH].
Qed.

(** Blanks and line ends. *)
Definition ws (s : bytes) : Prop := forallb is_blank_or_newline s = true.
Lemma ws_scan s : ws s -> body_scan false s = Some false.
Proof.
  induction s as [|c s IH]; intros H; [done|]. apply andb_true_iff in H as [Hc H]. cbn [body_scan].
  rewrite !bool_decide_eq_false_2 by (by intros ->). by apply IH.
Qed.

Definition starts_text (s : bytes) : Prop := forall c, head s = Some c -> is_blank_or_newline c = false.

Lemma trim_spec a s b : ws a -> ws b -> s <> [] -> starts_text s -> starts_text (reverse s) -> TrimViewWs (a ++ s ++ b) = s.
Proof.
  intros Ha Hb Hne Hs Hr. unfold TrimViewWs, trim_with. rewrite span_app; [|done|].
  - cbn [snd]. rewrite reverse_app, span_app; [cbn [snd]; apply reverse_involutive| |done].
    apply forallb_forall. intros c Hc. unfold ws in Hb. rewrite forallb_forall in Hb. apply Hb.
    apply list_elem_of_In, elem_of_reverse. by apply list_elem_of_In.
  - destruct s; [done|]. exact Hs.
Qed.

(** A statement: one semicolon outside of strings, at the end; no blank first and no
    carriage return. *)
Record statement (s : bytes) : Prop := {
  st_body : exists body, s = body ++ [";"%byte] /\ body_scan false body = Some false;
  st_first : starts_text s;
  st_plain : cr ∉ s
}.

(** Statements with blanks and line ends around them. *)
Definition script (lead : bytes) (parts : list (bytes * bytes)) : bytes := lead ++ concat (map (fun p => p.1 ++ p.2) parts).
Definition script_ok (parts : list (bytes * bytes)) : Prop := Forall (fun p => statement p.1 /\ ws p.2) parts.

Lemma statement_ne s : statement s -> s <> [].
Proof. intros [(body & -> & _) _ _]. by destruct body. Qed.
Lemma script_starts parts : script_ok parts -> starts_text (script [] parts).
Proof.
  intros H. destruct H as [|[s sep] parts [Hs _] _]; [done|]. unfold script. cbn [map concat app fst snd]. pose proof (statement_ne s Hs).
  destruct s as [|c s]; [done|]. apply (st_first _ Hs).
Qed.

(** A loop that skips some of the blanks after a statement. *)
Lemma skip_some p sep tail : (forall c, p c = true -> is_blank_or_newline c = true) -> ws sep -> starts_text tail ->
  exists a b, sep = a ++ b /\ ws a /\ ws b /\ span p (sep ++ tail) = (a, b ++ tail).
Proof.
  intros Hp Hsep Ht. exists (span p sep).1, (span p sep).2. pose proof (span_eq p sep) as E. unfold ws in *. rewrite E, forallb_app in Hsep.
  apply andb_true_iff in Hsep as [H1 H2]. split; [done|]. split; [done|]. split; [done|]. rewrite E at 1. rewrite <- app_assoc. apply span_app; [apply span_fst_all|].
  intros c Hc. destruct (span p sep).2 as [|c' b] eqn:Eb.
  - destruct (p c) eqn:Epc; [|done]. apply Hp in Epc. by rewrite (Ht c Hc) in Epc.
  - injection Hc as <-. apply (span_stops p sep). by rewrite Eb.
Qed.

Lemma script_cons lead s sep parts : script lead ((s, sep) :: parts) = lead ++ s ++ sep ++ script [] parts.
Proof. unfold script. cbn [map concat fst snd app]. by rewrite <- !app_assoc. Qed.

(** One round takes one statement and some of the blanks after it. *)
Lemma extract_round n lead s sep tail out : ws lead -> statement s -> ws sep -> starts_text tail ->
  exists sep', ws sep' /\ (length sep' <= length sep)%nat /\
    extract_loop (S n) (lead ++ s ++ sep ++ tail) out = extract_loop n (sep' ++ tail) (out ++ [s]).
Proof.
  intros Hlead Hs Hsep Ht. pose proof Hs as [(body & Es & Hb) Hf _]. pose proof (statement_ne s Hs) as Hne.
  destruct (skip_some is_blank sep tail) as (b1 & sep2 & E2 & Hb1 & Hsep2 & Espan); [intros c Hc; unfold is_blank_or_newline; by rewrite Hc|done|done|].
  destruct (skip_some is_line_end sep2 tail) as (b2 & sep3 & E3 & _ & Hsep3 & Espan2); [by intros []|done|done|].
  exists sep3. split; [done|]. split; [subst; rewrite !length_app; lia|]. cbn [extract_loop].
  rewrite bool_decide_eq_false_2 by (destruct lead, s; done).
  assert (lead ++ s ++ sep ++ tail = (lead ++ body) ++ ";"%byte :: sep ++ tail) as Ebuf by (rewrite Es, <- !app_assoc; done).
  rewrite Ebuf, find_semi_body by (rewrite body_scan_app, ws_scan; done). cbn [Nat.add].
  assert (forall x, drop (length (lead ++ body) + 1) ((lead ++ body) ++ ";"%byte :: x) = x) as Hdrop.
  { intros x. rewrite <- drop_drop, drop_app_length. done. }
  rewrite Hdrop, Espan. cbn [fst snd].
  assert (forall x, (lead ++ body) ++ ";"%byte :: b1 ++ x = (lead ++ s ++ b1) ++ x) as Ereg by (intros x; rewrite Es, <- !app_assoc; done).
  assert (length (lead ++ body) + 1 + length b1 = length (lead ++ s ++ b1))%nat as El by (rewrite Es, !length_app; cbn; lia).
  rewrite El. assert (sep ++ tail = b1 ++ sep2 ++ tail) as -> by (by rewrite E2, <- app_assoc).
  rewrite Ereg, take_app_length, drop_app_length, Espan2. cbn [snd].
  rewrite trim_spec; [by rewrite bool_decide_eq_false_2|done|done|done|done|]. rewrite Es, reverse_app. by intros c [= <-].
Qed.

Lemma extract_script parts : forall n lead out, script_ok parts -> ws lead -> (length (script lead parts) <= n)%nat ->
  exists rest, ws rest /\ extract_loop n (script lead parts) out = Ret (out ++ map fst parts, rest).
Proof.
  induction parts as [|[s sep] parts IH]; intros n lead out Hok Hlead Hn.
  - exists lead. split; [done|]. unfold script in *. cbn [map concat]. rewrite !app_nil_r in *. destruct n as [|n]; cbn [extract_loop].
    + rewrite bool_decide_eq_true_2; [done|]. destruct lead; [done|cbn in Hn; lia].
    + case_bool_decide; [done|]. by rewrite (find_semi_none lead false 0 false) by by apply ws_scan.
  - apply Forall_cons in Hok as [[Hs Hsep] Hok]. cbn [fst snd] in *. rewrite script_cons in *.
    pose proof (statement_ne s Hs) as Hne. assert (0 < length s)%nat by (destruct s; cbn; [done|lia]). rewrite !length_app in Hn.
    destruct n as [|n]; [lia|]. destruct (extract_round n lead s sep (script [] parts) out) as (sep' & Hsep' & Hl & ->); [done..|by apply script_starts|].
    destruct (IH n sep' (out ++ [s]) Hok Hsep') as (rest & Hrest & E).
    { unfold script in *. cbn [app] in *. rewrite length_app. lia. }
    exists rest. split; [done|]. change (sep' ++ script [] parts) with (script sep' parts). rewrite E. cbn [map fst]. by rewrite <- app_assoc.
Qed.

(** * The lines of a statement *)

Lemma joined_app lines : forall a first, joined (a ++ first) lines = a ++ joined first lines.
Proof. induction lines as [|l lines IH]; intros a first; cbn [joined foldl]; [done|]. unfold joined in IH. by rewrite <- app_assoc, IH. Qed.

Lemma strip_cr_plain l : (cr ∉ l) -> strip_cr l = l.
Proof. intros H. apply strip_cr_ok. intros [l' ->]%last_Some. apply H. set_solver. Qed.

(** A line that gets through to the server as it is. *)
Definition sent_ok (l : bytes) : Prop := Server.line_ok l.

Definition line_within (n : Z) (l : bytes) : Prop := (newline ∉ l) /\ (cr ∉ l) /\ Z.of_nat (length l) <= n.

Lemma statement_lines_spec n stmt : forall cur, (cr ∉ cur ++ stmt) -> (newline ∉ cur) -> Z.of_nat (length (cur ++ stmt)) <= n ->
  exists first lines, statement_lines cur stmt = (cur ++ first) :: lines /\ joined (cur ++ first) lines = cur ++ stmt /\
    (exists rest, stmt = first ++ rest /\ (rest = [] \/ head rest = Some newline)) /\ Forall (line_within n) ((cur ++ first) :: lines).
Proof.
  induction stmt as [|c stmt IH]; intros cur Hcr Hnl Hl; cbn [statement_lines].
  - exists [], []. rewrite !app_nil_r in *. rewrite strip_cr_plain by done. split; [done|]. split; [done|]. split; [exists []; auto|].
    repeat constructor; done.
  - destruct (bool_decide_reflect (c = newline)) as [->|Hc].
    + destruct (IH []) as (first & lines & -> & Ej & _ & Hok); cbn [app] in *; [set_solver|set_solver|rewrite length_app in Hl; cbn in Hl; lia|].
      exists [], (first :: lines). rewrite app_nil_r. rewrite strip_cr_plain by set_solver. split; [done|].
      split; [|split; [exists (newline :: stmt); auto|]].
      * change (joined cur (first :: lines)) with (joined (cur ++ [newline] ++ first) lines). by rewrite app_assoc, joined_app, Ej, <- app_assoc.
      * constructor; [|done]. split; [done|]. split; [set_solver|]. rewrite length_app in Hl. lia.
    + destruct (IH (cur ++ [c])) as (first & lines & Es & Ej & (rest & -> & Hr) & Hok); [by rewrite <- app_assoc|set_solver|by rewrite <- app_assoc|].
      exists (c :: first), lines. rewrite Es. rewrite <- !app_assoc in *. cbn [app] in *. split; [done|]. split; [done|]. split; [|done]. by exists rest.
Qed.

(** The text before a line is a proper prefix. *)
Lemma joined_take lines : forall first n, (n < length lines)%nat ->
  exists post, joined first lines = joined first (take n lines) ++ newline :: post.
Proof.
  induction lines as [|l lines IH]; intros first n Hn; [cbn in Hn; lia|]. destruct n as [|n].
  - change (joined first (l :: lines)) with (joined (first ++ [newline] ++ l) lines). rewrite joined_app. exists (joined l lines).
    cbn [take]. cbn [joined foldl app]. change (newline :: l) with ([newline] ++ l). by rewrite joined_app.
  - cbn [length] in Hn. destruct (IH (first ++ [newline] ++ l) n ltac:(lia)) as (post & E). by exists post.
Qed.

Lemma body_scan_semi pre q b : body_scan b (pre ++ ";"%byte :: q) <> None -> Nat.even (quotes pre) = b.
Proof.
  rewrite body_scan_app. destruct (body_scan b pre) as [b'|] eqn:E; [|done]. intros H. rewrite (body_scan_quotes _ _ _ E).
  destruct b'; [by destruct b|]. by cbn in H.
Qed.

(** A statement is complete, and none of its proper prefixes is. *)
Lemma statement_complete s : statement s -> EndsWithStatementTerminator s = true.
Proof.
  intros [(body & -> & Hb) _ _]. apply ends_loop_framed. exists body, []. split; [done|]. split; [done|]. by rewrite (body_scan_quotes _ _ _ Hb).
Qed.
Lemma prefix_incomplete s p post : statement s -> s = p ++ newline :: post -> EndsWithStatementTerminator p = false.
Proof.
  intros [(body & Es & Hb) _ _] Ep. destruct (EndsWithStatementTerminator p) eqn:E; [|done]. exfalso.
  apply ends_loop_framed in E as (pre & blanks & -> & _ & Hq). rewrite Es in Ep.
  assert (exists x, body = (pre ++ ";"%byte :: blanks) ++ x) as (x & ->).
  { assert (exists y c, newline :: post = y ++ [c]) as (y & c & Ey) by (exists (removelast (newline :: post)), (List.last (newline :: post) newline); by apply app_removelast_last).
    rewrite Ey, app_assoc in Ep. apply app_inj_tail in Ep as [-> _]. by exists y. }
  rewrite <- app_assoc in Hb. cbn [app] in Hb. pose proof (body_scan_semi pre (blanks ++ x) false) as H. rewrite Hb, Hq in H. by specialize (H ltac:(done)).
Qed.

(** * The server's side *)

(** The first line of a statement is not a command of the server. *)
Definition not_meta (s : bytes) : Prop := ParseMeta (TrimView (hd [] (statement_lines [] s))) = kMetaNone.

Lemma TrimView_ne c s : is_blank_or_newline c = false -> TrimView (c :: s) <> [].
Proof.
  intros Hc. assert (is_blank c = false) as Hb by (unfold is_blank_or_newline in Hc; by apply orb_false_iff in Hc as []).
  unfold TrimView, trim_with. cbn [span]. rewrite Hb. cbn [snd]. intros E.
  assert ((span is_blank (reverse (c :: s))).2 = []) as H by (rewrite <- (reverse_involutive (span _ _).2), E; done).
  apply span_nil_all in H. rewrite forallb_forall in H. specialize (H c). rewrite Hb in H. enough (false = true) by done. apply H.
  apply list_elem_of_In, elem_of_reverse. set_solver.
Qed.

Definition statement_fits (s : bytes) : Prop := statement s /\ not_meta s /\ Z.of_nat (length s) <= 1024 * 1024.

(** The server runs a statement once and answers it. *)
Lemma exec_statement fuel s sess m st sess' m' : statement_fits s -> exec (ktry (Execute fuel s)) (sess, m) = (Ret st, (sess', m')) ->
  exists rs, exec (handle_lines fuel (statement_lines [] s)) (mkConnection sess [], m) = (Ret rs, (mkConnection sess' [], m')) /\
    Forall (fun r : bool * bytes => r.1 = true) rs /\ concat (map snd rs) = answer st /\ Forall sent_ok (statement_lines [] s).
Proof.
  intros (Hs & Hm & Hl) Hex. destruct (statement_lines_spec (1024 * 1024) s []) as (first & lines & Es & Ej & (rest & Er & Hr) & Hok);
    [apply (st_plain _ Hs)|set_solver|done|]. cbn [app] in *. unfold not_meta in Hm. rewrite Es in *. cbn [hd] in Hm.
  exists (replicate (length lines) (true, []) ++ [(true, answer st)]). split; [|split; [|split; [|done]]].
  - rewrite <- Ej in Hex. apply statement_over_lines; [done| | | | |exact Hex].
    + pose proof (statement_ne s Hs) as Hne. pose proof (st_first s Hs) as Hst. destruct first as [|c first].
      * cbn [app] in Er. subst rest. destruct Hr as [->|Hr]; [done|]. by apply Hst in Hr.
      * apply TrimView_ne. apply Hst. by rewrite Er.
    + intros n Hn. destruct (joined_take lines first n Hn) as (post & E). rewrite Ej in E. by eapply prefix_incomplete.
    + rewrite Ej. by apply statement_complete.
    + by rewrite Ej.
  - apply Forall_app. split; [by apply Forall_replicate|by repeat constructor].
  - rewrite map_app, concat_app. cbn [map snd concat]. rewrite app_nil_r. by induction (length lines) as [|k IH].
Qed.

Definition yes (_ : nat) : bool := true.

Lemma RecvLine_unlines l ls rest : sent_ok l -> RecvLine (unlines (l :: ls) ++ rest) = Some (l, unlines ls ++ rest).
Proof.
  intros (Hn & Hc & Hl). unfold RecvLine, unlines. cbn [map concat]. unfold line_text at 1. rewrite <- !app_assoc. by apply (recv_line_spec l _ []).
Qed.

Lemma exec_serve_lines fuel ls : forall n i rest sent c m rs c' m', Forall sent_ok ls ->
  exec (handle_lines fuel ls) (c, m) = (Ret rs, (c', m')) -> Forall (fun r : bool * bytes => r.1 = true) rs ->
  exec (serve_loop fuel yes yes (length ls + n) i (unlines ls ++ rest) sent) (c, m) =
  exec (serve_loop fuel yes yes n (i + length ls) rest (sent ++ concat (map snd rs))) (c', m').
Proof.
  induction ls as [|l ls IH]; intros n i rest sent c m rs c' m' Hok He Hrs.
  - cbn [handle_lines] in He. rewrite exec_ret in He. injection He as <- <- <-. cbn. by rewrite app_nil_r, Nat.add_0_r.
  - apply Forall_cons in Hok as [Hl Hok]. cbn [length Nat.add serve_loop]. change (negb (yes i)) with false. cbn iota.
    unfold SqlRecvLine. rewrite RecvLine_unlines by done. rewrite exec_bind. cbn [handle_lines] in He. rewrite exec_bind in He.
    destruct (exec (SqlHandleLine fuel l) (c, m)) as [[r|e|] [c1 m1]]; [|done..]. rewrite exec_bind in He.
    destruct (exec (handle_lines fuel ls) (c1, m1)) as [[rs1|e|] [c2 m2]] eqn:E2; [|done..]. rewrite exec_ret in He. injection He as <- <- <-.
    apply Forall_cons in Hrs as [Hr Hrs]. destruct r as [keep reply]. cbn [fst] in Hr. subst keep. cbn iota beta.
    change (negb (yes i)) with false. rewrite andb_false_r. rewrite (IH n (S i) rest (sent ++ reply) _ _ _ _ _ Hok E2 Hrs).
    cbn [map concat snd]. by rewrite <- app_assoc, Nat.add_succ_r, Nat.add_succ_l.
Qed.

(** The statements one after the other. *)
Fixpoint execute_each (fuel : nat) (stmts : list bytes) : SqlM (list (Status + QueryResult)) :=
  match stmts with
  | [] => mret []
  | s :: stmts => st ← ktry (Execute fuel s); sts ← execute_each fuel stmts; mret (st :: sts)
  end.

Definition rounds (stmts : list bytes) : nat := length (concat (map (statement_lines []) stmts)).

Lemma exec_serve_statements fuel stmts : forall n i rest sent sess m sts sess' m', Forall statement_fits stmts ->
  exec (execute_each fuel stmts) (sess, m) = (Ret sts, (sess', m')) ->
  exec (serve_loop fuel yes yes (rounds stmts + n) i (concat (map SendStatement stmts) ++ rest) sent) (mkConnection sess [], m) =
  exec (serve_loop fuel yes yes n (i + rounds stmts) rest (sent ++ concat (map answer sts))) (mkConnection sess' [], m').
Proof.
  induction stmts as [|s stmts IH]; intros n i rest sent sess m sts sess' m' Hok He; cbn [execute_each] in He.
  - rewrite exec_ret in He. injection He as <- <- <-. cbn. by rewrite app_nil_r, Nat.add_0_r.
  - apply Forall_cons in Hok as [Hs Hok]. rewrite exec_bind in He.
    destruct (exec (ktry (Execute fuel s)) (sess, m)) as [[st|e|] [s1 m1]] eqn:E1; [|done..]. rewrite exec_bind in He.
    destruct (exec (execute_each fuel stmts) (s1, m1)) as [[sts1|e|] [s2 m2]] eqn:E2; [|done..]. rewrite exec_ret in He. injection He as <- <- <-.
    destruct (exec_statement fuel s sess m st s1 m1 Hs E1) as (rs & Eh & Hrs & Ec & Hlines).
    unfold rounds in *. cbn [map concat]. rewrite length_app, <- app_assoc, <- Nat.add_assoc. unfold SendStatement at 1.
    rewrite (exec_serve_lines _ _ _ _ _ _ _ _ _ _ _ Hlines Eh Hrs), Ec, (IH n _ rest _ s1 m1 sts1 s2 m2 Hok E2).
    by rewrite <- !app_assoc, Nat.add_assoc.
Qed.

Lemma rounds_bound stmts : (rounds stmts <= length (concat (map SendStatement stmts)))%nat.
Proof.
  unfold rounds. induction stmts as [|s stmts IH]; [done|]. cbn [map concat]. rewrite !length_app. enough (length (statement_lines [] s) <= length (SendStatement s))%nat by lia.
  unfold SendStatement. apply length_wire.
Qed.

(** The server's side of a batch: the client's statements, then QUIT. *)
Definition batch_stream (stmts : list bytes) : bytes := concat (map SendStatement stmts) ++ line_text (lit "QUIT").

Lemma exec_serve_batch fuel stmts sess m sts sess' m' : Forall statement_fits stmts ->
  exec (execute_each fuel stmts) (sess, m) = (Ret sts, (sess', m')) -> ss_txn sess' = None ->
  exec (ServeClient fuel yes yes (batch_stream stmts)) (mkConnection sess [], m) =
    (Ret (concat (map answer sts) ++ EncodeOk), (mkConnection sess' [], m')).
Proof.
  intros Hok He Htxn. unfold ServeClient, batch_stream. rewrite exec_bind.
  assert (exists n, S (length (concat (map SendStatement stmts) ++ line_text (lit "QUIT"))) = rounds stmts + S n)%nat as (n & ->).
  { exists (length (concat (map SendStatement stmts) ++ line_text (lit "QUIT")) - rounds stmts)%nat. pose proof (rounds_bound stmts). rewrite length_app. lia. }
  rewrite (exec_serve_statements fuel stmts _ _ _ _ _ _ _ _ _ Hok He). cbn [serve_loop]. change (negb (yes _)) with false. cbn iota.
  assert (SqlRecvLine (line_text (lit "QUIT")) = Some (lit "QUIT", [])) as -> by reflexivity.
  assert (exec (SqlHandleLine fuel (lit "QUIT")) (mkConnection sess' [], m') = (Ret (false, EncodeOk), (mkConnection sess' [], m'))) as Eq by reflexivity.
  rewrite exec_bind, Eq. cbn iota beta. change (negb (yes _)) with false. rewrite andb_false_r, exec_ret. cbn [app].
  unfold SqlResetSession, set_buffer, on_session, InTransaction. kv_step. rewrite exec_zoom. cbn [cn_session conn_buffer]. rewrite exec_gets. cbn [fst].
  rewrite Htxn, bool_decide_eq_false_2 by (by intros [? [=]]). cbn [negb]. by kv_step.
Qed.

(** * The client's side *)

Definition short (l : bytes) : Prop := Z.of_nat (length l) <= 1024 * 1024.

(** An answer that fits the lines of the protocol. *)
Definition reply_ok (st : Status + QueryResult) : Prop :=
  match st with
  | inl e => forallb plain (Status_ToString e) = true /\ short (lit "-ERR " ++ Status_ToString e)
  | inr r => result_ok r /\ Forall (fun n => forallb plain n = true /\ n <> lit "*END") (column_names r) /\ forallb plain (plan_tag r) = true /\
      Forall short (SplitLines (EncodeQueryResult r))
  end.

Lemma plain_sent l : forallb plain l = true -> short l -> sent_ok l.
Proof.
  intros Hp Hs. rewrite forallb_forall in Hp. split; [|split; [|done]]; intros H; apply list_elem_of_In, Hp in H; done.
Qed.

Lemma RecvReply_line l rest : sent_ok l -> starts l (lit "*PLAN") = false -> starts l (lit "*RESULT") = false ->
  RecvReply (line_text l ++ rest) = Ret (Some (line_text l, rest)).
Proof.
  intros Hl H1 H2. unfold RecvReply, Client_RecvLine. pose proof (RecvLine_unlines l [] rest Hl) as E. cbn [unlines map concat] in E. rewrite app_nil_r in E.
  rewrite E, H1, H2. done.
Qed.

Lemma recv_block_spec mid : forall n line out rest, Forall (fun l => sent_ok l /\ l <> lit "*END") mid -> line <> lit "*END" -> (length mid < n)%nat ->
  recv_block n line out (unlines (mid ++ [lit "*END"]) ++ rest) = Ret (Some (out ++ unlines (mid ++ [lit "*END"]), rest)).
Proof.
  induction mid as [|l mid IH]; intros [|n] line out rest Hm Hne Hn; try (cbn in Hn; lia); cbn [recv_block app].
  - rewrite bool_decide_eq_false_2 by done. unfold Client_RecvLine. rewrite RecvLine_unlines by (by apply plain_sent).
    destruct n; cbn [recv_block]; rewrite bool_decide_eq_true_2 by done; cbn [unlines map concat]; by rewrite app_nil_r.
  - rewrite bool_decide_eq_false_2 by done. apply Forall_cons in Hm as [[Hl Hle] Hm]. unfold Client_RecvLine. rewrite RecvLine_unlines by done.
    cbn [length] in Hn. rewrite IH by (done || lia). cbn [unlines map concat]. by rewrite <- app_assoc.
Qed.

Lemma RecvReply_block first mid rest : Forall (fun l => sent_ok l /\ l <> lit "*END") (first :: mid) ->
  starts first (lit "*PLAN") || starts first (lit "*RESULT") = true ->
  RecvReply (unlines (first :: mid ++ [lit "*END"]) ++ rest) = Ret (Some (unlines (first :: mid ++ [lit "*END"]), rest)).
Proof.
  intros Hl Hst. apply Forall_cons in Hl as [[Hf Hfe] Hm]. unfold RecvReply, Client_RecvLine. rewrite RecvLine_unlines by done. rewrite Hst.
  rewrite recv_block_spec; [done..|]. rewrite length_app. pose proof (length_wire (mid ++ [lit "*END"])) as H. rewrite length_app in H. unfold wire in H.
  unfold unlines, line_text. lia.
Qed.

(** The lines of a result set before the last. *)
Definition block_lines (r : QueryResult) : list bytes :=
  let n := length (column_names r) in
  let ncols := to_string (Z.of_nat n) in
  (if bool_decide (plan_tag r = []) then [] else [lit "*PLAN " ++ plan_tag r]) ++
  [lit "*RESULT " ++ to_string (Z.of_nat (length (rows r))) ++ lit " " ++ ncols; lit "*COLS " ++ ncols] ++
  padded [] n (column_names r) ++ concat (map (fun row => lit "*ROW" :: map EncodeCell (padded VNull n row)) (rows r)).

Lemma EncodeQueryResult_lines r : column_names r <> [] -> EncodeQueryResult r = unlines (block_lines r ++ [lit "*END"]).
Proof.
  intros Hne. unfold EncodeQueryResult, result_columns, block_lines. rewrite !(bool_decide_eq_false_2 (column_names r = [])) by done. cbn [andb].
  by rewrite <- !app_assoc.
Qed.

Definition inner_line (l : bytes) : Prop := forallb plain l = true /\ l <> lit "*END".

Lemma cell_inner v : inner_line (EncodeCell v).
Proof. split; [apply EncodeCell_plain|]. by destruct v as [|z|s|[]]. Qed.
Lemma number_plain p z : forallb plain p = true -> 0 <= z -> forallb plain (p ++ to_string z) = true.
Proof. intros Hp Hz. rewrite forallb_app, Hp. cbn [andb]. apply digits_plain, to_string_digits, Hz. Qed.

Lemma block_lines_inner r : Forall inner_line (column_names r) -> forallb plain (plan_tag r) = true -> Forall inner_line (block_lines r).
Proof.
  intros Hn Hp. unfold block_lines. repeat apply Forall_app_2.
  - case_bool_decide; repeat constructor; [by rewrite forallb_app, Hp|done].
  - repeat constructor; try done; [|apply number_plain; [done|lia]]. rewrite app_assoc, app_assoc. apply number_plain; [|lia].
    rewrite forallb_app. rewrite number_plain by (done || lia). done.
  - by rewrite padded_full.
  - apply Forall_concat, Forall_map, Forall_forall. intros row _. constructor; [done|]. apply Forall_map, Forall_forall. intros v _. apply cell_inner.
Qed.

Lemma RecvReply_result r rest : reply_ok (inr r) -> column_names r <> [] ->
  RecvReply (EncodeQueryResult r ++ rest) = Ret (Some (EncodeQueryResult r, rest)).
Proof.
  intros (Hr & Hn & Hp & Hs) Hne. pose proof (block_lines_inner r Hn Hp) as Hin. rewrite EncodeQueryResult_lines in * by done.
  rewrite SplitLines_unlines in Hs.
  2: { rewrite forallb_app. apply andb_true_iff. split; [|done]. apply forallb_forall. intros l Hl. apply plain_line_ok. rewrite Forall_forall in Hin.
       by apply list_elem_of_In, Hin in Hl as []. }
  apply Forall_app in Hs as [Hs _].
  assert (Forall (fun l => sent_ok l /\ l <> lit "*END") (block_lines r)) as Hl.
  { apply Forall_forall. intros l Hl. rewrite Forall_forall in Hin, Hs. destruct (Hin l Hl). split; [|done]. apply plain_sent; auto. }
  destruct (block_lines r) as [|first mid] eqn:E.
  - unfold block_lines in E. by destruct (bool_decide (plan_tag r = [])).
  - cbn [app]. apply RecvReply_block; [done|]. unfold block_lines in E. destruct (bool_decide (plan_tag r = [])); injection E as <- _; reflexivity.
Qed.

(** The client takes exactly the bytes of an answer. *)
Lemma RecvReply_answer st rest : reply_ok st -> RecvReply (answer st ++ rest) = Ret (Some (answer st, rest)).
Proof.
  destruct st as [e|r]; intros Hok; cbn [answer].
  - destruct Hok as [Hp Hs]. unfold EncodeError. rewrite app_assoc. apply RecvReply_line; [|done|done].
    apply plain_sent; [by rewrite forallb_app, Hp|done].
  - destruct (decide (column_names r = [])) as [E|E]; [|by apply RecvReply_result]. destruct Hok as (Hr & _ & _ & Hs). pose proof (ro_empty r Hr E) as Er.
    pose proof (ro_counts r Hr) as (_ & _ & Ha). unfold EncodeQueryResult in *. rewrite E, Er in *. rewrite !bool_decide_eq_true_2 in * by done. cbn [andb] in *.
    destruct (rows_affected r >? 0); [|apply (RecvReply_line (lit "+OK")); [by apply plain_sent|done|done]]. pose proof (number_plain (lit "+OK rows_affected=") (rows_affected r) eq_refl ltac:(lia)) as Hp.
    unfold EncodeOkRowsAffected in *. rewrite app_assoc in *. rewrite SplitLines_one in Hs by by apply plain_line_ok. apply Forall_cons in Hs as [Hs _].
    apply RecvReply_line; [|done|done]. by apply plain_sent.
Qed.

(** What the client learns of an answer, and what it prints. *)
Definition decoded (st : Status + QueryResult) : DecodedReply := match st with inl e => decoded_error e | inr r => decoded_result r end.
Definition table_of (r : QueryResult) : bytes := match FormatQueryResult r with Ret text => text | _ => [] end.
Definition shown (st : Status + QueryResult) : bytes * bytes :=
  match st with
  | inl e => ([], line_text (lit "ERROR: " ++ Status_ToString e))
  | inr r =>
    (if bool_decide (column_names r = []) then
       if rows_affected r >? 0 then lit "rows_affected: " ++ line_text (to_string (rows_affected r)) else line_text (lit "ok")
     else table_of (mkQueryResult (column_names r) (rows r) 0 (plan_tag r)), [])
  end.

Lemma DecodeReply_answer st : reply_ok st -> DecodeReply (answer st) = Ret (decoded st).
Proof.
  destruct st as [e|r]; cbn [answer decoded reply_ok]; [intros [H _]; by apply DecodeReply_error, plain_line_ok|intros [H _]; by apply DecodeReply_result].
Qed.
Lemma PrintDecoded_answer st : PrintDecoded (decoded st) = Ret (shown st).
Proof.
  destruct st as [e|r]; [done|]. unfold PrintDecoded, decoded, decoded_result, shown. destruct (bool_decide (column_names r = [])) eqn:E.
  - cbn [dr_kind dr_rows_affected dr_in_txn]. by destruct (rows_affected r >? 0).
  - cbn [dr_kind dr_result]. unfold table_of. destruct (proj1 (result_is_printed (mkQueryResult (column_names r) (rows r) 0 (plan_tag r)))) as (out & ->). done.
Qed.
Lemma decoded_in_txn st : dr_in_txn (decoded st) = None.
Proof. destruct st as [e|r]; [done|]. cbn [decoded]. unfold decoded_result. by destruct (bool_decide _). Qed.

Definition always (_ : bytes) : bool := true.

Lemma ExecAndPrint_answer s st rest sent buffer in_txn out err : reply_ok st ->
  ExecAndPrint always s (mkCli (answer st ++ rest) sent buffer in_txn out err) =
    (Ret true, mkCli rest (sent ++ SendStatement s) buffer in_txn (out ++ (shown st).1) (err ++ (shown st).2)).
Proof.
  intros Hst. unfold ExecAndPrint, SendAll, send, receive, put_input, print. sm_step. cbn [negb always cli_input cli_sent cli_buffer cli_in_txn cli_out cli_err].
  rewrite RecvReply_answer by done. sm_step. rewrite DecodeReply_answer by done. rewrite PrintDecoded_answer. destruct (shown st) as [o e]. cbn beta iota.
  rewrite decoded_in_txn. done.
Qed.

Lemma exec_each_answers stmts : forall sts rest sent buffer in_txn out err, length stmts = length sts -> Forall reply_ok sts ->
  exec_each always stmts (mkCli (concat (map answer sts) ++ rest) sent buffer in_txn out err) =
    (Ret true, mkCli rest (sent ++ concat (map SendStatement stmts)) buffer in_txn
       (out ++ concat (map (fun st => (shown st).1) sts)) (err ++ concat (map (fun st => (shown st).2) sts))).
Proof.
  induction stmts as [|s stmts IH]; intros [|st sts] rest sent buffer in_txn out err Hl Hok; try done; cbn [map concat exec_each].
  - sm_step. cbn [app]. by rewrite !app_nil_r.
  - apply Forall_cons in Hok as [Hst Hok]. cbn [length] in Hl. rewrite <- app_assoc. unfold mbind, SM_bind. rewrite ExecAndPrint_answer by done. cbn iota beta.
    rewrite IH by (done || lia). by rewrite <- !app_assoc.
Qed.

Lemma execute_each_length fuel stmts : forall sm sts sm', exec (execute_each fuel stmts) sm = (Ret sts, sm') -> length stmts = length sts.
Proof.
  induction stmts as [|s stmts IH]; intros sm sts sm' H; cbn [execute_each] in H; [rewrite exec_ret in H; by injection H as <- _|].
  rewrite exec_bind in H. destruct (exec (ktry (Execute fuel s)) sm) as [[st|e|] sm1]; [|done..]. rewrite exec_bind in H.
  destruct (exec (execute_each fuel stmts) sm1) as [[sts1|e|] sm2] eqn:E; [|done..]. rewrite exec_ret in H. injection H as <- _. cbn [length]. f_equal. by eapply IH.
Qed.

Lemma trim_ws s : ws s -> TrimViewWs s = [].
Proof. intros H. unfold TrimViewWs, trim_with. by rewrite (span_all is_blank_or_newline s). Qed.

(** * Properties *)

(** C9: The network client and the SQL server understand each other: a script of any
    number of statements with any blanks and line ends between them - strings in it
    may contain semicolons, quotes and newlines - is cut into exactly its statements;
    the server, given the bytes the client sends, runs each once, in order, and the
    client, given the bytes the server sends, takes each reply whole, prints the table,
    the count or the error of its statement, and ends with exit code 0 and nothing
    left unread.  The statements may fail, but the session must answer each of them - it
    does not return from a SELECT with LIMIT outside of a transaction that leaves its
    scan open - with labels and error texts that are lines ([label_breaks_frame] shows
    why), and no statement may start with a line that is a command of the server. *)
Theorem batch_end_to_end (fuel : nat) (chunks : list bytes) (lead : bytes) (parts : list (bytes * bytes)) (sess sess' : SqlSession)
    (m m' : gmap bytes bytes) (sts : list (Status + QueryResult)) :
  let stmts := map fst parts in
  let sent := batch_stream stmts in
  foldl add_chunk [] chunks = script lead parts -> ws lead -> Forall (fun p => statement_fits p.1 /\ ws p.2) parts ->
  exec (execute_each fuel stmts) (sess, m) = (Ret sts, (sess', m')) -> ss_txn sess' = None -> Forall reply_ok sts ->
  exists replies rest,
    exec (ServeClient fuel yes yes sent) (mkConnection sess [], m) = (Ret replies, (mkConnection sess' [], m')) /\
    main_batch always chunks (mkCli replies [] [] false [] []) =
      (Ret 0, mkCli [] sent rest false (concat (map (fun st => (shown st).1) sts)) (concat (map (fun st => (shown st).2) sts))).
Proof.
  intros stmts sent Htext Hlead Hparts He Htxn Hok.
  assert (Forall statement_fits stmts) as Hfit by (apply Forall_map; eapply Forall_impl; [exact Hparts|by intros p []]).
  assert (script_ok parts) as Hsc by (eapply Forall_impl; [exact Hparts|]; intros p [[H _] ?]; done).
  destruct (extract_script parts (length (script lead parts)) lead [] Hsc Hlead (le_n _)) as (rest & Hrest & Ex). cbn [app] in Ex. fold stmts in Ex.
  exists (concat (map answer sts) ++ EncodeOk), rest. split; [by apply exec_serve_batch|].
  unfold main_batch, run_complete, put_buffer, ExtractCompleteStatements. sm_step. rewrite Htext. cbn [cli_buffer cli_input cli_sent cli_in_txn cli_out cli_err].
  rewrite Ex. cbn beta iota. cbn [cli_buffer cli_input cli_sent cli_in_txn cli_out cli_err].
  rewrite exec_each_answers by (done || by eapply execute_each_length). cbn [negb cli_buffer app]. rewrite trim_ws by done.
  rewrite bool_decide_eq_true_2 by done. done.
Qed.

(** A new, empty database. *)
Definition new_database : Database * gmap bytes bytes := (exec Database_Open (Database_new, ∅)).2.
Definition sample_parts : list (bytes * bytes) :=
  [(lit "CREATE TABLE t (id INT PRIMARY KEY, s STRING);", lit " " ++ [newline; newline]);
   (lit "INSERT INTO t VALUES (1, 'a;" ++ [newline] ++ lit "b''c');", []);
   (lit "SELECT id" ++ [newline] ++ lit "FROM t;", lit " ");
   (lit "INSERT INTO t VALUES (1, 'x');", [newline])].
Definition sample_run : Res (list (Status + QueryResult)) * (SqlSession * gmap bytes bytes) :=
  exec (execute_each 20 (map fst sample_parts)) (SqlSession_new new_database.1, new_database.2).
Definition sample_answers : list (Status + QueryResult) := match sample_run.1 with Ret sts => sts | _ => [] end.
Lemma sample_run_returns : sample_run = (Ret sample_answers, (sample_run.2.1, sample_run.2.2)).
Proof.
  assert (match sample_run.1 with Ret _ => true | _ => false end = true) as H by (vm_compute; reflexivity).
  unfold sample_answers. destruct sample_run as [[sts|e|] [s m]]; done.
Qed.
Lemma sample_answers_fit : Forall reply_ok sample_answers.
Proof.
  assert (sample_answers = [inr (mkQueryResult [] [] 0 []); inr (mkQueryResult [] [] 1 (lit "Insert"));
    inr (mkQueryResult [lit "id"] [[VInt64 1]] 0 (lit "Project<-SeqScan")); inl (InvalidArgument (lit "duplicate primary key"))]) as -> by (vm_compute; reflexivity).
  assert (forall r, forallb line_ok (column_names r) = true -> line_ok (plan_tag r) = true ->
    Forall (fun row => length row = length (column_names r) /\ Forall cell_ok row) (rows r) -> (column_names r = [] -> rows r = []) ->
    (length (rows r) <= 9)%nat /\ (length (column_names r) <= 9)%nat /\ 0 <= rows_affected r <= 9 ->
    Forall (fun n => forallb plain n = true /\ n <> lit "*END") (column_names r) -> forallb plain (plan_tag r) = true ->
    Forall short (SplitLines (EncodeQueryResult r)) -> reply_ok (inr r)) as Hr.
  { intros r H1 H2 H3 H4 H5 H6 H7 H8. split; [split; try done; lia|done]. }
  repeat apply Forall_cons_2; [apply Hr..| |constructor]; try (apply (bool_decide_unpack _); vm_compute; exact I); try done.
  all: repeat constructor; try done; lia.
Qed.

Lemma batch_end_to_end_witness :
  let sent := batch_stream (map fst sample_parts) in
  exists replies rest,
    exec (ServeClient 20 yes yes sent) (mkConnection (SqlSession_new new_database.1) [], new_database.2) =
      (Ret replies, (mkConnection sample_run.2.1 [], sample_run.2.2)) /\
    main_batch always [script [newline] sample_parts] (mkCli replies [] [] false [] []) =
      (Ret 0, mkCli [] sent rest false
         (unlines (map lit ["ok"; "rows_affected: 1"; "plan: Project<-SeqScan"; "+----+"; "| id |"; "+----+"; "| 1  |"; "+----+"; "(1 row)"]%string))
         (unlines [lit "ERROR: InvalidArgument: duplicate primary key"])).
Proof.
  intros sent.
  destruct (batch_end_to_end 20 [script [newline] sample_parts] [newline] sample_parts (SqlSession_new new_database.1) sample_run.2.1
    new_database.2 sample_run.2.2 sample_answers) as (replies & rest & E1 & E2).
  - reflexivity.
  - reflexivity.
  - repeat constructor; try reflexivity; try match goal with |- exists body, ?s = _ /\ _ => exists (removelast s); split; reflexivity end;
      try (by intros c [= <-]); try (apply (bool_decide_unpack _); vm_compute; exact I); try (vm_compute; discriminate).
  - exact sample_run_returns.
  - vm_compute. reflexivity.
  - exact sample_answers_fit.
  - exists replies, rest. split; [exact E1|]. etrans; [exact E2|]. vm_compute. reflexivity.
Defined.

(** The label of an unnamed column is the text of its expression, and labels are sent
    as they are: a string literal with a newline in it breaks the frame of the reply,
    and the client cannot decode the answer to a valid statement. *)
Lemma label_breaks_frame :
  let stmts := [lit "CREATE TABLE t (id INT PRIMARY KEY);"; lit "SELECT 'a" ++ [newline] ++ lit "b' FROM t;"] in
  match (exec (ServeClient 20 yes yes (batch_stream stmts)) (mkConnection (SqlSession_new new_database.1) [], new_database.2)).1 with
  | Ret replies =>
    let c := (main_batch always stmts (mkCli replies [] [] false [] [])).2 in
    cli_out c = line_text (lit "ok") /\
    cli_err c = unlines (map lit ["decode failed: InvalidArgument: expected *END"; "raw:"; "*PLAN Project<-SeqScan"; "*RESULT 0 1"; "*COLS 1"; "Literal('a"; "b')"; "*END"]%string)
  | _ => False
  end.
Proof. vm_compute. split; reflexivity. Qed.
