(* ===== verification/CliMain.v ===== *)
(** The main function of the network client (examples/reldb_sql_cli.cpp): its command line,
    the connection, and the choice between batch and interactive mode.

    Files and the calls of the operating system are parameters. *)
From S2P Require Import Prelude Status Env Version Types Schema Row Expr SqlAst Text SqlLexer SqlParser.
From S2P Require Import Kv Mvcc Catalog Database Txn Executor SqlSession Server QueryFormat Protocol SqlServer Client.

Definition cli_usage (argv0 : bytes) : bytes :=
  lit "Usage: " ++ argv0 ++ unlines (map lit
    [" [--host HOST] [--port PORT] [-c SQL] [--file PATH]"; "  --host HOST   server host (default 127.0.0.1)"; "  --port PORT   server port (default 7380)";
     "  -c SQL        execute SQL (may contain multiple statements) and exit"; "  --file PATH   execute SQL from file and exit";
     "  (neither)     interactive mode on stdin"; EmptyString; "Connects to reldb_sql_server. End SQL with ';'.";
     "Local: .help .quit   Server: PING STATUS RESET QUIT"]%string).

(** * The command line *)

Record CliConfig := mkCliConfig { cc_host : bytes; cc_port : Z; batch_chunks : list bytes; batch_mode : bool }.
Definition CliConfig_default : CliConfig := mkCliConfig (lit "127.0.0.1") 7380 [] false.
Definition add_batch (c : CliConfig) (text : bytes) : CliConfig := mkCliConfig (cc_host c) (cc_port c) (batch_chunks c ++ [text]) true.

(** The configuration, or the exit code and what is written to the error stream. *)
Inductive CliArgs : Type := CliRuns (c : CliConfig) | CliExits (code : Z) (err : bytes).

Section Args.
(** The content of a file that can be opened. *)
Context (files : bytes -> option bytes) (argv0 : bytes).

Fixpoint cli_args (args : list bytes) (c : CliConfig) : Res CliArgs :=
  match args with
  | [] => Ret (CliRuns c)
  | arg :: args =>
    if bool_decide (arg = lit "--host") then
      match args with
      | [] => Ret (CliExits 2 (line_text (lit "missing value for --host")))
      | v :: args => cli_args args (mkCliConfig v (cc_port c) (batch_chunks c) (batch_mode c))
      end
    else if bool_decide (arg = lit "--port") then
      match args with
      | [] => Ret (CliExits 2 (line_text (lit "missing value for --port")))
      | v :: args =>
        port ← atoi v;
        if (port <=? 0) || (port >? 65535) then Ret (CliExits 2 (line_text (lit "invalid port")))
        else cli_args args (mkCliConfig (cc_host c) port (batch_chunks c) (batch_mode c))
      end
    else if bool_decide (arg = lit "-c") then
      match args with
      | [] => Ret (CliExits 2 (line_text (lit "missing value for -c")))
      | v :: args => cli_args args (add_batch c v)
      end
    else if bool_decide (arg = lit "--file") then
      match args with
      | [] => Ret (CliExits 2 (line_text (lit "missing value for --file")))
      | v :: args =>
        match files v with
        | None => Ret (CliExits 1 (line_text (lit "cannot open file: " ++ v)))
        | Some text => cli_args args (add_batch c text)
        end
      end
    else if bool_decide (arg = lit "-h") || bool_decide (arg = lit "--help") then Ret (CliExits 0 (cli_usage argv0))
    else Ret (CliExits 2 (line_text (lit "unknown argument: " ++ arg) ++ cli_usage argv0))
  end.
End Args.

(** * Connecting *)

(** What [socket], [inet_pton] and [connect] return. *)
Record ConnectCalls := mkConnectCalls { cn_socket : bytes + Z; cn_pton : bool; cn_connect : bytes + unit }.

(** The error or the descriptor, and the descriptors that are left open. *)
Definition Connect (host : bytes) (calls : ConnectCalls) : (bytes + Z) * list Z :=
  match cn_socket calls with
  | inl errno => (inl (lit "socket() failed: " ++ errno), [])
  | inr fd =>
    if negb (cn_pton calls) then (inl (lit "invalid host address: " ++ host), [])
    else
      match cn_connect calls with
      | inl errno => (inl (lit "connect() failed: " ++ errno), [])
      | inr _ => (inr fd, [fd])
      end
  end.

(** * The program *)

Section Main.
Context (files : bytes -> option bytes) (sends : bytes -> bool).

Definition cli_banner (c : CliConfig) : bytes :=
  line_text (lit "reldb_sql_cli  " ++ cc_host c ++ lit ":" ++ to_string (cc_port c)) ++ line_text (lit "Type .help for help, .quit to exit. End SQL with ';'.").

(** Once connected: [lines] is the standard input. *)
Definition cli_connected (c : CliConfig) (lines : list bytes) : SM Cli Z :=
  if batch_mode c then main_batch sends (batch_chunks c) else print (cli_banner c) [] ;; main_interactive sends lines.

(** The exit code and the client's state, with what it wrote; [replies] is what the
    server sends. *)
Definition cli_main (argv0 : bytes) (args : list bytes) (calls : ConnectCalls) (lines : list bytes) (replies : bytes) : Res Z * Cli :=
  let quiet err := mkCli replies [] [] false [] err in
  match cli_args files argv0 args CliConfig_default with
  | Stuck => (Stuck, quiet [])
  | Fail e => (Fail e, quiet [])
  | Ret (CliExits code err) => (Ret code, quiet err)
  | Ret (CliRuns c) =>
    match (Connect (cc_host c) calls).1 with
    | inl err => (Ret 1, quiet (line_text err))
    | inr _ => cli_connected c lines (quiet [])
    end
  end.
End Main.

(** * Lemmas *)

(** [-c SQL] or [--file PATH] *)
Definition batch_option (o : bytes + bytes) : list bytes := match o with inl sql => [lit "-c"; sql] | inr path => [lit "--file"; path] end.
Definition option_text (files : bytes -> option bytes) (o : bytes + bytes) : option bytes := match o with inl sql => Some sql | inr path => files path end.

(** The texts are run in the order of the options. *)
Lemma cli_args_batch files argv0 opts : forall texts c, mapM (option_text files) opts = Some texts ->
  cli_args files argv0 (concat (map batch_option opts)) c = Ret (CliRuns (foldl add_batch c texts)).
Proof.
  induction opts as [|o opts IH]; intros texts c E; cbn [mapM] in E; [by injection E as <-|].
  destruct (option_text files o) as [t|] eqn:Et; [|done]. cbn in E. destruct (mapM (option_text files) opts) as [ts|]; [|done]. injection E as <-.
  destruct o as [sql|path]; cbn [option_text] in Et; [injection Et as <-; apply (IH ts (add_batch c sql) eq_refl)|].
  change (concat (map batch_option (inr path :: opts))) with (lit "--file" :: path :: concat (map batch_option opts)). cbn [cli_args].
  rewrite !bool_decide_eq_false_2 by (vm_compute; done). rewrite bool_decide_eq_true_2 by done. rewrite Et. apply (IH ts (add_batch c t) eq_refl).
Qed.

(** A command line that is refused, or a connection that fails, ends the program before
    anything is sent or printed. *)
Lemma cli_main_refused files sends argv0 args calls lines replies :
  (exists c fd, cli_args files argv0 args CliConfig_default = Ret (CliRuns c) /\ (Connect (cc_host c) calls) = (inr fd, [fd]) /\
     cli_main files sends argv0 args calls lines replies = cli_connected sends c lines (mkCli replies [] [] false [] [])) \/
  (exists r err, cli_main files sends argv0 args calls lines replies = (r, mkCli replies [] [] false [] err)).
Proof.
  unfold cli_main. destruct (cli_args files argv0 args CliConfig_default) as [[c|code err]|e|]; [|right; do 2 eexists; reflexivity..].
  unfold Connect. destruct calls as [[?|fd] [] [?|[]]]; cbn [cn_socket cn_pton cn_connect negb fst]; first [right; do 2 eexists; reflexivity|left; by exists c, fd].
Qed.

(** Client and server together: a table is made and filled by one option, and read by
    the other. *)
Example cli_runs_options :
  let args := [lit "--port"; lit "7380"; lit "-c"; lit "CREATE TABLE t (id INT PRIMARY KEY); INSERT INTO t VALUES (7);"; lit "--file"; lit "q.sql"] in
  let files p := if bool_decide (p = lit "q.sql") then Some (lit "SELECT id" ++ [newline] ++ lit "FROM t;") else None in
  let calls := mkConnectCalls (inr 3) true (inr tt) in
  let sent := cli_sent (cli_main files always (lit "cli") args calls [] (concat (map line_text [lit "+OK"; lit "+OK 1"; lit "+OK"; lit "+OK"]))).2 in
  match (exec (ServeClient 20 yes yes sent) (mkConnection (SqlSession_new new_database.1) [], new_database.2)).1 with
  | Ret replies =>
    let '(code, c) := cli_main files always (lit "cli") args calls [] replies in
    code = Ret 0 /\ cli_sent c = sent /\ cli_input c = [] /\
    cli_out c = unlines (map lit ["ok"; "rows_affected: 1"; "plan: Project<-SeqScan"; "+----+"; "| id |"; "+----+"; "| 7  |"; "+----+"; "(1 row)"]%string)
  | _ => False
  end.
Proof. vm_compute. repeat split; reflexivity. Qed.
