(* ===== verification/Shell.v ===== *)
(** The interactive shell (examples/reldb_sql_shell.cpp): lines become statements, which
    run on a session of a local database.

    The line editing library is a parameter: what [readline] returns, and the list of
    remembered statements with its two operations.  SIGINT may arrive at any time; what
    counts is by which test of its flag it has. *)
From S2P Require Import Prelude Status Env Version Types Schema Row Expr SqlAst Text SqlLexer SqlParser.
From S2P Require Import Kv Mvcc Catalog Database Txn Executor SqlSession Server QueryFormat Protocol SqlServer Client.
Delimit Scope byte_scope with byte.

Definition kMaxHistory : Z := 50.

Definition shell_usage (argv0 : bytes) : bytes :=
  lit "Usage: " ++ argv0 ++ unlines (map lit
    [" [--db PATH]"; "  Interactive SQL shell for reldb."; "  --db PATH   database directory (default: /tmp/reldb_sql_shell)"]%string).
Definition shell_help : bytes :=
  unlines (map lit ["Commands:"; "  SQL statement ending with ';'   execute (multi-line ok)"]%string) ++
  line_text (lit "  Up/Down arrows                  previous/next statement (last " ++ to_string kMaxHistory ++ lit ")") ++
  unlines (map lit
    ["  .help                           this help"; "  .quit / .exit / Ctrl-D          leave the shell"; "  Ctrl-C                          leave the shell";
     EmptyString; "SQL (subset): CREATE TABLE, INSERT, SELECT, UPDATE, DELETE,"; "  BEGIN, COMMIT, ABORT/ROLLBACK.";
     "DDL is not allowed inside a transaction."; "Without BEGIN, DML/SELECT auto-commit."]%string).

(** The shell's own copy of the test for the end of a statement, the same text as the
    server's. *)
Definition Shell_EndsWithStatementTerminator (s : bytes) : bool := EndsWithStatementTerminator s.

(** Both loops: from the back, then from the front. *)
Definition Trim (s : bytes) : bytes := (span is_blank_or_newline (reverse (span is_blank_or_newline (reverse s)).2)).2.
Definition IsMeta (line : bytes) : bool := bool_decide (head line = Some "."%byte).

(** One round of the loop: whether SIGINT has arrived by the test at its head, what
    [readline] returned, whether it has arrived by then, and by the end of Execute. *)
Record Round := mkRound { before : bool; typed : option bytes; reading : bool; running : bool }.

Section Shell.
Context {H : Type} (last_entry : H -> option bytes) (add_history : bytes -> H -> H).
Context (fuel : nat).

Record Shell := mkShell {
  sh_session : SqlSession; sh_buffer : bytes; sh_history : H; g_got_sigint : bool;
  sh_prompts : list bytes; sh_out : bytes; sh_err : bytes
}.
Abbreviation ShellM := (KM Shell).

Definition in_session {A} (m : SqlM A) : ShellM A :=
  kzoom sh_session (fun s h => mkShell s (sh_buffer h) (sh_history h) (g_got_sigint h) (sh_prompts h) (sh_out h) (sh_err h)) m.
Definition keep (b : bytes) : ShellM unit :=
  kmodify (fun h => mkShell (sh_session h) b (sh_history h) (g_got_sigint h) (sh_prompts h) (sh_out h) (sh_err h)).
Definition OnSigInt (arrived : bool) : ShellM unit :=
  kmodify (fun h => mkShell (sh_session h) (sh_buffer h) (sh_history h) (g_got_sigint h || arrived) (sh_prompts h) (sh_out h) (sh_err h)).
Definition ask (p : bytes) : ShellM unit :=
  kmodify (fun h => mkShell (sh_session h) (sh_buffer h) (sh_history h) (g_got_sigint h) (sh_prompts h ++ [p]) (sh_out h) (sh_err h)).
Definition say (out err : bytes) : ShellM unit :=
  kmodify (fun h => mkShell (sh_session h) (sh_buffer h) (sh_history h) (g_got_sigint h) (sh_prompts h) (sh_out h ++ out) (sh_err h ++ err)).

(** A statement is remembered unless it is the last one remembered. *)
Definition remembered (sql : bytes) (h : H) : H :=
  let t := Trim sql in
  if bool_decide (t = []) then h
  else if bool_decide (last_entry h = Some t) then h
  else add_history t h.
Definition RememberStatement (sql : bytes) : ShellM unit :=
  kmodify (fun h => mkShell (sh_session h) (sh_buffer h) (remembered sql (sh_history h)) (g_got_sigint h) (sh_prompts h) (sh_out h) (sh_err h)).

Definition PrintResult (st : Status + QueryResult) : ShellM unit :=
  match st with
  | inl e => say [] (line_text (lit "ERROR: " ++ Status_ToString e))
  | inr result => text ← klift (FormatQueryResult result); say text []
  end.

(** The line extends the statement; whether the loop goes on. *)
Definition shell_statement (line : bytes) (interrupted : bool) : ShellM bool :=
  buffer ← kgets sh_buffer;
  let buffer := (if bool_decide (buffer = []) then [] else buffer ++ [newline]) ++ line in
  keep buffer ;;
  if negb (Shell_EndsWithStatementTerminator buffer) then mret true
  else
    RememberStatement buffer ;;
    st ← ktry (in_session (Execute fuel buffer));
    OnSigInt interrupted ;;
    keep [] ;;
    PrintResult st ;;
    got_sigint ← kgets g_got_sigint;
    if got_sigint : bool then say [newline] [] ;; mret false else mret true.

Definition shell_line (line : bytes) (interrupted : bool) : ShellM bool :=
  buffer ← kgets sh_buffer;
  if bool_decide (buffer = []) then
    let trimmed := Trim line in
    if bool_decide (trimmed = []) then mret true
    else if IsMeta trimmed then
      if bool_decide (trimmed ∈ [lit ".help"; lit ".h"; lit "?"]) then say shell_help [] ;; mret true
      else if bool_decide (trimmed ∈ [lit ".quit"; lit ".exit"; lit ".q"]) then mret false
      else say [] (line_text (lit "unknown meta-command: " ++ trimmed ++ lit " (try .help)")) ;; mret true
    else shell_statement line interrupted
  else shell_statement line interrupted.

(** The rounds must not end before the loop. *)
Fixpoint shell_loop (rounds : list Round) : ShellM unit :=
  match rounds with
  | [] => klift Stuck
  | r :: rounds =>
    OnSigInt (before r) ;;
    got_sigint ← kgets g_got_sigint;
    if got_sigint : bool then mret tt
    else
      buffer ← kgets sh_buffer;
      in_txn ← in_session InTransaction;
      ask (Prompt in_txn (negb (bool_decide (buffer = [])))) ;;
      OnSigInt (reading r) ;;
      match typed r with
      | None => say [newline] []
      | Some line =>
        got_sigint ← kgets g_got_sigint;
        if got_sigint : bool then say [newline] []
        else
          go_on ← shell_line line (running r);
          if go_on : bool then shell_loop rounds else mret tt
      end
  end.

(** After the loop; leaving main destroys the session, which aborts its transaction. *)
Definition shell_end : ShellM unit :=
  got_sigint ← kgets g_got_sigint;
  (if got_sigint : bool then say [] (line_text (lit "Interrupted.")) else mret tt) ;;
  in_txn ← in_session InTransaction;
  if in_txn : bool then
    say [] (line_text (lit "warning: open transaction left uncommitted (will abort on exit)")) ;;
    in_session txn_reset
  else mret tt.

(** The command line. *)
Inductive ShellArgs : Set := ShellDb (path : bytes) | ShellHelp | ShellUnknown (arg : bytes).
Fixpoint shell_args (args : list bytes) (db_path : bytes) : ShellArgs :=
  match args with
  | [] => ShellDb db_path
  | arg :: args =>
    let other := if bool_decide (arg = lit "-h") || bool_decide (arg = lit "--help") then ShellHelp else ShellUnknown arg in
    if bool_decide (arg = lit "--db") then
      match args with
      | v :: args => shell_args args v
      | [] => other
      end
    else other
  end.

Definition shell_banner (db_path : bytes) : bytes :=
  line_text (lit "reldb SQL shell  db=" ++ db_path) ++ line_text (lit "Type .help for help, .quit or Ctrl-C to exit. End SQL with ';'.") ++
  line_text (lit "Up/Down arrows recall the last " ++ to_string kMaxHistory ++ lit " statements.").

(** The exit code; the engine has been opened, or has not. *)
Definition shell_main (argv0 : bytes) (args : list bytes) (engine : Status + unit) (rounds : list Round) : ShellM Z :=
  match shell_args args (lit "/tmp/reldb_sql_shell") with
  | ShellHelp => say [] (shell_usage argv0) ;; mret 0
  | ShellUnknown arg => say [] (line_text (lit "unknown argument: " ++ arg) ++ shell_usage argv0) ;; mret 2
  | ShellDb db_path =>
    opened ← ktry (match engine with inl e => kfail e | inr _ => in_session (on_database Database_Open) end);
    match opened with
    | inl e => say [] (line_text (lit "open " ++ db_path ++ lit ": " ++ Status_ToString e)) ;; mret 1
    | inr _ => say (shell_banner db_path) [] ;; shell_loop rounds ;; shell_end ;; mret 0
    end
  end.
End Shell.
Arguments mkShell {H}.
Arguments sh_session {H}.
Arguments sh_buffer {H}.
Arguments sh_history {H}.
Arguments g_got_sigint {H}.
Arguments sh_prompts {H}.
Arguments sh_out {H}.
Arguments sh_err {H}.

(** * Lemmas *)

(** A line typed without an interruption, and the end of the input. *)
Definition typing (line : bytes) : Round := mkRound false (Some line) false false.
Definition end_of_input : Round := mkRound false None false false.

(** What the shell prints of an answer. *)
Definition shell_shown (st : Status + QueryResult) : bytes * bytes :=
  match st with
  | inl e => ([], line_text (lit "ERROR: " ++ Status_ToString e))
  | inr r => (table_of r, [])
  end.

(** A statement whose first line is not a command of the shell. *)
Definition typed_ok (s : bytes) : Prop := statement s /\ head s <> Some "."%byte.

Lemma span_head p (s : bytes) c : p c = false -> span p (c :: s) = ([], c :: s).
Proof. intros H. cbn [span]. by rewrite H. Qed.

(** A line that starts with text, trimmed, starts with the same byte. *)
Lemma Trim_head c s : is_blank_or_newline c = false -> head (Trim (c :: s)) = Some c.
Proof.
  intros Hc. unfold Trim. set (r := (span is_blank_or_newline (reverse (c :: s))).2).
  assert (exists t, r = t ++ [c]) as (t & ->).
  { subst r. rewrite reverse_cons. destruct (span is_blank_or_newline (reverse s)) as [a b] eqn:E. pose proof (span_eq is_blank_or_newline (reverse s)) as Es.
    rewrite E in Es. cbn [fst snd] in Es. destruct b as [|x b].
    - assert (forallb is_blank_or_newline a = true) as Ha by (pose proof (span_fst_all is_blank_or_newline (reverse s)) as Hf; by rewrite E in Hf).
      rewrite Es, app_nil_r, (span_app is_blank_or_newline a [c]) by (done || by intros ? [= <-]). by exists [].
    - assert (forallb is_blank_or_newline a = true) as Ha by (pose proof (span_fst_all is_blank_or_newline (reverse s)) as Hf; by rewrite E in Hf).
      rewrite Es, <- app_assoc. rewrite (span_app is_blank_or_newline a ((x :: b) ++ [c])) by (done || (intros y [= <-]; apply (span_stops is_blank_or_newline (reverse s)); by rewrite E)).
      by exists (x :: b). }
  rewrite reverse_app. cbn [reverse rev_append app]. by rewrite span_head.
Qed.

(** Runs the shell's steps up to the next test. *)
Ltac shell_step :=
  repeat (first [rewrite exec_bind | rewrite exec_try | rewrite exec_ret | rewrite exec_gets | rewrite exec_modify | rewrite exec_lift];
    cbn [before typing end_of_input reading typed running fst snd sh_session sh_buffer sh_history g_got_sigint sh_prompts sh_out sh_err orb]).

Section Typing.
Context {H : Type} (last_entry : H -> option bytes) (add_history : bytes -> H -> H) (fuel : nat).
Local Abbreviation loop := (shell_loop last_entry add_history fuel).
Local Abbreviation remember := (remembered last_entry add_history).

(** The text once the line has been added. *)
Definition extended (buffer line : bytes) : bytes := (if bool_decide (buffer = []) then [] else buffer ++ [newline]) ++ line.
(** The line is not blank and not a command, or goes on with a statement. *)
Definition is_sql (buffer line : bytes) : Prop := buffer = [] -> exists c, head (Trim line) = Some c /\ c <> "."%byte.

Lemma shell_line_sql buffer line i sess h g ps out err m : is_sql buffer line ->
  exec (shell_line last_entry add_history fuel line i) (mkShell sess buffer h g ps out err, m) =
  exec (shell_statement last_entry add_history fuel line i) (mkShell sess buffer h g ps out err, m).
Proof.
  intros Hs. unfold shell_line. kv_step. cbn [sh_buffer fst]. destruct (bool_decide_reflect (buffer = [])) as [Hb|]; [|done].
  destruct (Hs Hb) as (c & Hc & Hne). destruct (Trim line) as [|c' t]; [done|]. injection Hc as ->. rewrite bool_decide_eq_false_2 by done.
  unfold IsMeta. cbn [head]. rewrite bool_decide_eq_false_2 by congruence. done.
Qed.

(** One line of the loop, without interruption. *)
Lemma loop_line buffer line rounds sess h ps out err m : is_sql buffer line -> let text := extended buffer line in
  exists ps', exec (loop (typing line :: rounds)) (mkShell sess buffer h false ps out err, m) =
    if EndsWithStatementTerminator text then
      match exec (ktry (Execute fuel text)) (sess, m) with
      | (Ret st, sm) => exec (loop rounds) (mkShell sm.1 [] (remember text h) false ps' (out ++ (shell_shown st).1) (err ++ (shell_shown st).2), sm.2)
      | (Fail e, sm) => (Fail e, (mkShell sm.1 text (remember text h) false ps' out err, sm.2))
      | (Stuck, sm) => (Stuck, (mkShell sm.1 text (remember text h) false ps' out err, sm.2))
      end
    else exec (loop rounds) (mkShell sess text h false ps' out err, m).
Proof.
  intros Hs text. cbn [shell_loop]. unfold OnSigInt, ask, in_session, InTransaction. shell_step. rewrite exec_zoom. shell_step. eexists.
  rewrite shell_line_sql by done.
  unfold shell_statement, keep, RememberStatement, in_session, OnSigInt, PrintResult, say. shell_step. fold (extended buffer line). fold text.
  unfold Shell_EndsWithStatementTerminator. destruct (EndsWithStatementTerminator text); cbn [negb]; [|by shell_step].
  shell_step. rewrite exec_zoom. cbn [sh_session]. destruct (exec (Execute fuel text) (sess, m)) as [[r|e|] [s1 m1]]; shell_step; [| |done].
  - destruct (proj1 (result_is_printed r)) as (o & Eo). cbn [shell_shown fst snd]. unfold table_of. rewrite Eo. shell_step. by rewrite app_nil_r.
  - cbn [shell_shown fst snd]. by rewrite app_nil_r.
Qed.

Lemma extended_next buffer line : buffer <> [] -> extended buffer line = buffer ++ [newline] ++ line.
Proof. intros Hb. unfold extended. rewrite bool_decide_eq_false_2 by done. by rewrite <- app_assoc. Qed.

(** The lines of a statement: it runs once, at its last line. *)
Lemma loop_lines lines : forall buffer l rounds sess h ps out err m st sess' m', is_sql buffer l -> extended buffer l <> [] ->
  let text := joined (extended buffer l) lines in
  (forall n, (n < length lines)%nat -> EndsWithStatementTerminator (joined (extended buffer l) (take n lines)) = false) ->
  EndsWithStatementTerminator text = true -> exec (ktry (Execute fuel text)) (sess, m) = (Ret st, (sess', m')) ->
  exists ps', exec (loop (map typing (l :: lines) ++ rounds)) (mkShell sess buffer h false ps out err, m) =
    exec (loop rounds) (mkShell sess' [] (remember text h) false ps' (out ++ (shell_shown st).1) (err ++ (shell_shown st).2), m').
Proof.
  induction lines as [|l' lines IH]; intros buffer l rounds sess h ps out err m st sess' m' Hs Hne text Hpre Hend Hex; cbn [map app].
  - destruct (loop_line buffer l rounds sess h ps out err m Hs) as (ps' & E). exists ps'. rewrite E. subst text. cbn [joined foldl] in *. by rewrite Hend, Hex.
  - destruct (loop_line buffer l (typing l' :: map typing lines ++ rounds) sess h ps out err m Hs) as (ps1 & E). rewrite E.
    rewrite (Hpre 0%nat ltac:(cbn; lia) : EndsWithStatementTerminator (extended buffer l) = false). subst text.
    assert (forall ls, joined (extended buffer l) (l' :: ls) = joined (extended (extended buffer l) l') ls) as Ej by (intros ls; by rewrite (extended_next (extended buffer l))).
    rewrite Ej in *. apply (IH (extended buffer l) l'); [intros E1; by destruct (Hne E1)| | |done|done].
    + rewrite extended_next by done. by destruct (extended buffer l).
    + intros n Hn. rewrite <- Ej. apply (Hpre (S n)). cbn. lia.
Qed.

Lemma loop_statement s rounds sess h ps out err m st sess' m' : typed_ok s -> exec (ktry (Execute fuel s)) (sess, m) = (Ret st, (sess', m')) ->
  exists ps', exec (loop (map typing (statement_lines [] s) ++ rounds)) (mkShell sess [] h false ps out err, m) =
    exec (loop rounds) (mkShell sess' [] (remember s h) false ps' (out ++ (shell_shown st).1) (err ++ (shell_shown st).2), m').
Proof.
  intros [Hs Hdot] Hex. destruct (statement_lines_spec (Z.of_nat (length s)) s []) as (first & lines & Es & Ej & (rest & Er & Hr) & _);
    [apply (st_plain _ Hs)|set_solver|done|]. cbn [app] in *. rewrite Es. change (extended [] first) with first in *.
  assert (exists c f, first = c :: f /\ head s = Some c) as (c & f & -> & Hc).
  { pose proof (statement_ne s Hs) as Hne. destruct first as [|c f]; [|exists c, f; by rewrite Er].
    cbn [app] in Er. subst rest. destruct Hr as [->|Hr]; [done|]. by apply (st_first s Hs) in Hr. }
  destruct (loop_lines lines [] (c :: f) rounds sess h ps out err m st sess' m') as (ps' & E).
  - intros _. exists c. split; [apply Trim_head, (st_first s Hs c Hc)|]. intros ->. by apply Hdot.
  - done.
  - intros n Hn. destruct (joined_take lines (c :: f) n Hn) as (post & Ep). rewrite Ej in Ep. by eapply prefix_incomplete.
  - change (extended [] (c :: f)) with (c :: f). rewrite Ej. by apply statement_complete.
  - change (extended [] (c :: f)) with (c :: f). by rewrite Ej.
  - exists ps'. rewrite E. change (extended [] (c :: f)) with (c :: f). by rewrite Ej.
Qed.

(** The statements one after the other. *)
Lemma loop_statements stmts : forall rounds sess h ps out err m sts sess' m', Forall typed_ok stmts ->
  exec (execute_each fuel stmts) (sess, m) = (Ret sts, (sess', m')) ->
  exists ps', exec (loop (map typing (concat (map (statement_lines []) stmts)) ++ rounds)) (mkShell sess [] h false ps out err, m) =
    exec (loop rounds) (mkShell sess' [] (foldl (fun h s => remember s h) h stmts) false ps'
      (out ++ concat (map (fun st => (shell_shown st).1) sts)) (err ++ concat (map (fun st => (shell_shown st).2) sts)), m').
Proof.
  induction stmts as [|s stmts IH]; intros rounds sess h ps out err m sts sess' m' Hok He; cbn [execute_each] in He.
  - rewrite exec_ret in He. injection He as <- <- <-. exists ps. cbn. by rewrite !app_nil_r.
  - apply Forall_cons in Hok as [Hs Hok]. rewrite exec_bind in He.
    destruct (exec (ktry (Execute fuel s)) (sess, m)) as [[st|e|] [s1 m1]] eqn:E1; [|done..]. rewrite exec_bind in He.
    destruct (exec (execute_each fuel stmts) (s1, m1)) as [[sts1|e|] [s2 m2]] eqn:E2; [|done..]. rewrite exec_ret in He. injection He as <- <- <-.
    cbn [map concat foldl]. rewrite map_app, <- app_assoc. destruct (loop_statement s (map typing (concat (map (statement_lines []) stmts)) ++ rounds) sess h ps out err m st s1 m1 Hs E1) as (ps1 & ->).
    destruct (IH rounds s1 (remember s h) ps1 (out ++ (shell_shown st).1) (err ++ (shell_shown st).2) m1 sts1 s2 m2 Hok E2) as (ps2 & ->).
    exists ps2. by rewrite <- !app_assoc.
Qed.
End Typing.

(** * Properties *)

(** C10: Statements typed into the shell, over any number of lines each - strings in them
    may contain semicolons, quotes and newlines - run on the session once each, in
    order, whether they fail or not; the shell prints the table or the error of each,
    remembers each once in the history, and at the end of the input stops with an
    empty statement buffer.  The session must answer each statement: it does not return
    from a SELECT with LIMIT outside of a transaction that leaves its scan open. *)
Theorem shell_runs_statements {H : Type} (last_entry : H -> option bytes) (add_history : bytes -> H -> H) (fuel : nat) (stmts : list bytes)
    (sess sess' : SqlSession) (h : H) (m m' : gmap bytes bytes) (sts : list (Status + QueryResult)) :
  Forall typed_ok stmts -> exec (execute_each fuel stmts) (sess, m) = (Ret sts, (sess', m')) ->
  exists prompts,
    exec (shell_loop last_entry add_history fuel (map typing (concat (map (statement_lines []) stmts)) ++ [end_of_input])) (mkShell sess [] h false [] [] [], m) =
    (Ret tt, (mkShell sess' [] (foldl (fun h s => remembered last_entry add_history s h) h stmts) false prompts
       (concat (map (fun st => (shell_shown st).1) sts) ++ [newline]) (concat (map (fun st => (shell_shown st).2) sts)), m')).
Proof.
  intros Hok He. destruct (loop_statements last_entry add_history fuel stmts [end_of_input] sess h [] [] [] m sts sess' m' Hok He) as (ps & ->).
  eexists. cbn [shell_loop]. unfold OnSigInt, ask, in_session, InTransaction, say. shell_step. rewrite exec_zoom. shell_step.
  shell_step. by rewrite app_nil_r.
Qed.

(** A history that keeps the last [kMaxHistory] entries. *)
Definition stifled (t : bytes) (h : list bytes) : list bytes := let h' := h ++ [t] in drop (length h' - Z.to_nat kMaxHistory) h'.
Lemma shell_runs_statements_witness :
  exists prompts,
    exec (shell_loop last stifled 20 (map typing (concat (map (statement_lines []) (map fst sample_parts))) ++ [end_of_input]))
      (mkShell (SqlSession_new new_database.1) [] [] false [] [] [], new_database.2) =
    (Ret tt, (mkShell sample_run.2.1 [] (map fst sample_parts) false prompts
       (unlines (map lit ["ok"; "plan: Insert"; "rows_affected: 1"; "plan: Project<-SeqScan"; "+----+"; "| id |"; "+----+"; "| 1  |"; "+----+"; "(1 row)"]%string) ++ [newline])
       (unlines [lit "ERROR: InvalidArgument: duplicate primary key"]), sample_run.2.2)).
Proof.
  destruct (shell_runs_statements last stifled 20 (map fst sample_parts) (SqlSession_new new_database.1) sample_run.2.1 [] new_database.2 sample_run.2.2 sample_answers) as (ps & E).
  - repeat constructor; try reflexivity; try match goal with |- exists body, ?s = _ /\ _ => exists (removelast s); split; reflexivity end;
      try (by intros c [= <-]); try (apply (bool_decide_unpack _); vm_compute; exact I); try (vm_compute; discriminate).
  - exact sample_run_returns.
  - exists ps.
    assert (foldl (fun h s => remembered last stifled s h) [] (map fst sample_parts) = map fst sample_parts) as Hh by (vm_compute; reflexivity).
    assert (concat (map (fun st => (shell_shown st).1) sample_answers) = unlines (map lit ["ok"; "plan: Insert"; "rows_affected: 1"; "plan: Project<-SeqScan";
      "+----+"; "| id |"; "+----+"; "| 1  |"; "+----+"; "(1 row)"]%string)) as Ho by (vm_compute; reflexivity).
    assert (concat (map (fun st => (shell_shown st).2) sample_answers) = unlines [lit "ERROR: InvalidArgument: duplicate primary key"]) as He by (vm_compute; reflexivity).
    rewrite Hh, Ho, He in E. exact E.
Defined.

(** Help by a question mark is tested only for input that starts with a period: the line
    is kept as the start of a statement. *)
Lemma question_mark_is_sql :
  exec (shell_line last stifled 1 (lit "?") false) (mkShell (SqlSession_new Database_new) [] [] false [] [] [], ∅) =
    (Ret true, (mkShell (SqlSession_new Database_new) (lit "?") [] false [] [] [], ∅)).
Proof. vm_compute. reflexivity. Qed.

(** Leaving the shell inside a transaction, here by SIGINT while the next line is read:
    the row inserted in it is rolled back. *)
Example shell_interrupted :
  let stmts := [lit "CREATE TABLE t (id INT PRIMARY KEY);"; lit "BEGIN;"; lit "INSERT INTO t VALUES (1);"] in
  let '(r, (h, m)) := exec (shell_main last stifled 20 (lit "shell") [lit "--db"; lit "d"] (inr tt) (map typing stmts ++ [mkRound false None true false]))
    (mkShell (SqlSession_new Database_new) [] [] false [] [] [], ∅) in
  r = Ret 0 /\ ss_txn (sh_session h) = None /\ sh_prompts h = [lit "sql> "; lit "sql> "; lit "sql*> "; lit "sql*> "] /\
  sh_err h = unlines (map lit ["Interrupted."; "warning: open transaction left uncommitted (will abort on exit)"]%string) /\
  (exec (Execute 20 (lit "SELECT id FROM t;")) (SqlSession_new (ss_db (sh_session h)), m)).1 = Ret (mkQueryResult [lit "id"] [] 0 (lit "Project<-SeqScan")).
Proof. vm_compute. repeat split; reflexivity. Qed.
