(* ===== verification/Examples.v ===== *)
(** The example programs (examples/lsmkv_example.cpp, reldb_example.cpp,
    reldb_sql_example.cpp), run on the models: the engine, the relational interface and a
    SQL session from end to end. *)
From S2P Require Import Prelude Status Env Wal Options Version Db Types Schema Row Expr SqlAst Text SqlLexer SqlParser.
From S2P Require Import Kv Mvcc Catalog Database Txn Executor SqlSession Protocol SqlServer.

(** * The key-value engine *)

(** How a program ends: its exit code and what it wrote to the two streams. *)
Record Ended := mkEnded { exit_code : Z; ended_out : bytes; ended_err : bytes }.

Definition example_path : bytes := lit "/tmp/lsmkv_example_db".
Definition example_options : Options :=
  mkOptions true (error_if_exists default_Options) (64 * 1024) (block_size default_Options) (block_restart_interval default_Options)
    (level0_compaction_trigger default_Options) (num_levels default_Options).

(** On a file system [w] from which the directory has been removed.  Where the example
    returns early it does not delete the database. *)
Definition lsmkv_example (w : World) : Res Ended :=
  let failed (what : bytes) (e : Status) (out : bytes) := Ret (mkEnded 1 out (line_text (what ++ lit " failed: " ++ Status_ToString e))) in
  let '(s, db) := DB_Open example_options example_path w in
  match s with
  | Stuck => Stuck
  | Fail e => failed (lit "open") e []
  | Ret _ =>
    let '(s, db) := Put (mkWriteOptions false) (lit "hello") (lit "world") db in
    match s with
    | Stuck => Stuck
    | Fail e => failed (lit "put") e []
    | Ret _ =>
      let '(s, db) := Get (mkReadOptions 0) (lit "hello") db in
      match s with
      | Stuck => Stuck
      | Fail e => failed (lit "get") e []
      | Ret value =>
        let out := line_text (lit "hello => " ++ value) in
        let '(s, db) := DB_Close 1 db in
        match s with
        | Stuck => Stuck
        | _ =>
          let '(s, db) := DB_Open example_options example_path (world db) in
          match s with
          | Stuck => Stuck
          | Fail e => failed (lit "reopen") e out
          | Ret _ =>
            let '(s, db) := Get (mkReadOptions 0) (lit "hello") db in
            match s with
            | Stuck => Stuck
            | Fail e => failed (lit "get after reopen") e out
            | Ret value =>
              let out := out ++ line_text (lit "after reopen: hello => " ++ value) in
              let '(s, _) := DB_Close 1 db in
              match s with
              | Stuck => Stuck
              | _ => Ret (mkEnded 0 (out ++ line_text (lit "example ok")) [])
              end
            end
          end
        end
      end
    end
  end.

(** * The relational interface *)

Record Walk := mkWalk { wk_db : Database; wk_out : bytes; wk_err : bytes }.
Abbreviation WalkM := (KM Walk).
Definition wk_on {A} (m : RelM A) : WalkM A := kzoom wk_db (fun d w => mkWalk d (wk_out w) (wk_err w)) m.
(** A block with a transaction, whose destructor aborts it if it is not finished. *)
Definition wk_txn {A} (t : Transaction) (m : TxM A) : WalkM A :=
  kzoom (fun w => (wk_db w, t)) (fun dt w => mkWalk dt.1 (wk_out w) (wk_err w)) (a ← m; ktry Transaction_Abort ;; mret a).
Definition wk_print (out err : bytes) : WalkM unit := kmodify (fun w => mkWalk (wk_db w) (wk_out w ++ out) (wk_err w ++ err)).

Definition status_text {A} (s : Status + A) : bytes := Status_ToString (match s with inl e => e | inr _ => OK end).

(** [s.find(sub) != npos] *)
Fixpoint contains (sub s : bytes) : bool :=
  bool_decide (take (length sub) s = sub) || match s with [] => false | _ :: s => contains sub s end.

Definition users_schema : TableSchema := mkTableSchema (lit "users") [mkColumnDef (lit "id") kInt64 true; mkColumnDef (lit "name") kString false].

Definition insert_ada : TxM bytes :=
  st ← ktry (Transaction_Insert (lit "users") [VInt64 1; VString (lit "ada")]);
  match st with
  | inr _ => st ← ktry Transaction_Commit; mret (line_text (lit "insert commit: " ++ status_text st))
  | inl e => ktry Transaction_Abort ;; mret (line_text (lit "insert (maybe exists): " ++ Status_ToString e))
  end.
(** [got.at(1)] throws where there is no such cell. *)
Definition read_name : TxM bytes :=
  st ← ktry (Transaction_Get (lit "users") (VInt64 1));
  text ← match st with
         | inr got => match got !! 1%nat with Some v => mret (line_text (lit "user 1 name = " ++ GetString v)) | None => klift Stuck end
         | inl e => mret (line_text (lit "get: " ++ Status_ToString e))
         end;
  ktry Transaction_Abort ;;
  mret text.

(** A block: begin, and what it prints; the exit code if it ends the program. *)
Definition with_begin (label : bytes) (m : TxM bytes) : WalkM (option Z) :=
  st ← ktry (wk_on Begin);
  match st with
  | inl e => wk_print [] (line_text (label ++ Status_ToString e)) ;; mret (Some 1)
  | inr t => text ← wk_txn t m; wk_print text [] ;; mret None
  end.

(** The engine is open. *)
Definition reldb_example : WalkM Z :=
  st ← ktry (wk_on Database_Open);
  match st with
  | inl e => wk_print [] (line_text (lit "open: " ++ Status_ToString e)) ;; mret 1
  | inr _ =>
    st ← ktry (wk_on (Database_CreateTable users_schema));
    match st with
    | inl e =>
      if negb (contains (lit "already exists") (Status_ToString e)) then wk_print [] (line_text (lit "create: " ++ Status_ToString e)) ;; mret (Some 1)
      else mret None
    | inr _ => mret None
    end ≫= fun stop =>
    match stop with
    | Some code => mret code
    | None =>
      stop ← with_begin (lit "begin: ") insert_ada;
      match stop with
      | Some code => mret code
      | None =>
        stop ← with_begin (lit "begin2: ") read_name;
        mret (default 0 stop)
      end
    end
  end.

(** * SQL *)

Record Demo := mkDemo { dm_session : SqlSession; dm_out : bytes; dm_err : bytes }.
Abbreviation DemoM := (KM Demo).
Definition dm_on {A} (m : SqlM A) : DemoM A := kzoom dm_session (fun s d => mkDemo s (dm_out d) (dm_err d)) m.
Definition dm_print (out err : bytes) : DemoM unit := kmodify (fun d => mkDemo (dm_session d) (dm_out d ++ out) (dm_err d ++ err)).

Definition MakeTempDir (mkdtemp : option bytes) : bytes := default (lit "/tmp/reldb_sql_example_fallback") mkdtemp.

Definition Demo_PrintResult (label : bytes) (r : QueryResult) : bytes :=
  line_text (lit "== " ++ label ++ (if bool_decide (plan_tag r = []) then [] else lit "  [plan: " ++ plan_tag r ++ lit "]")) ++
  (if rows_affected r =? 0 then [] else line_text (lit "  rows_affected=" ++ to_string (rows_affected r))) ++
  (if bool_decide (column_names r = []) then [] else line_text (lit "  cols:" ++ concat (map (fun c => lit " " ++ c) (column_names r)))) ++
  unlines (map (fun row => lit "  row:" ++ concat (map (fun v => lit " " ++ Value_ToString v) row)) (rows r)) ++
  (if bool_decide (rows r = []) && (rows_affected r =? 0) then line_text (lit "  (empty)") else []).

Section Demo.
Context (fuel : nat).

Definition Run (sql label : bytes) : DemoM bool :=
  st ← ktry (dm_on (Execute fuel sql));
  match st with
  | inl e => dm_print [] (line_text (label ++ lit " FAILED: " ++ Status_ToString e) ++ line_text (lit "  sql: " ++ sql)) ;; mret false
  | inr result => dm_print (Demo_PrintResult label result) [] ;; mret true
  end.
(** [if (!Run(...)) return 1;] for each, then the rest. *)
Fixpoint run_all (steps : list (bytes * bytes)) (rest : DemoM Z) : DemoM Z :=
  match steps with
  | [] => rest
  | (sql, label) :: steps => ok ← Run sql label; if negb ok then mret 1 else run_all steps rest
  end.

Definition sql_steps : list (bytes * bytes) := map (fun p => (lit p.1, lit p.2))
  [("CREATE TABLE users(id INT PRIMARY KEY, name TEXT, score INT);", "CREATE TABLE"); ("BEGIN;", "BEGIN");
   ("INSERT INTO users(id, name, score) VALUES (1, 'ada', 10);", "INSERT ada"); ("INSERT INTO users(id, name, score) VALUES (2, 'bob', 30);", "INSERT bob");
   ("INSERT INTO users(id, name, score) VALUES (3, 'cy', 20);", "INSERT cy"); ("SELECT * FROM users WHERE id = 1;", "SELECT point");
   ("SELECT name FROM users WHERE score > 15 ORDER BY name;", "SELECT filter+order"); ("COMMIT;", "COMMIT");
   ("UPDATE users SET score = 99 WHERE id = 1;", "UPDATE (autocommit)"); ("SELECT id, name, score FROM users WHERE id = 1;", "SELECT after update");
   ("BEGIN;", "BEGIN (ddl gate)")]%string.

Definition sql_example (mkdtemp : option bytes) : DemoM Z :=
  dm_print (line_text (lit "db path: " ++ MakeTempDir mkdtemp)) [] ;;
  st ← ktry (dm_on (on_database Database_Open));
  match st with
  | inl e => dm_print [] (line_text (lit "open: " ++ Status_ToString e)) ;; mret 1
  | inr _ =>
    run_all sql_steps
      (st ← ktry (dm_on (Execute fuel (lit "CREATE TABLE other(id INT PRIMARY KEY);")));
       match st with
       | inr _ => dm_print [] (line_text (lit "expected DDL inside txn to fail")) ;; mret 1
       | inl e =>
         dm_print (line_text (lit "== DDL inside txn (expected error)") ++ line_text (lit "  " ++ Status_ToString e)) [] ;;
         run_all [(lit "ABORT;", lit "ABORT")] (dm_print (line_text (lit "reldb_sql_example: ok")) [] ;; mret 0)
       end)
  end.
End Demo.

(** * The runs *)

(** On an empty file system whose calls do not fail. *)
Example lsmkv_example_runs :
  lsmkv_example (mkWorld ∅ ∅ []) = Ret (mkEnded 0 (unlines (map lit ["hello => world"; "after reopen: hello => world"; "example ok"]%string)) []).
Proof. vm_compute. reflexivity. Qed.

(** Twice on the same store: the second run finds the table and the row. *)
Example reldb_example_runs :
  let '(r1, (w1, m)) := exec reldb_example (mkWalk Database_new [] [], ∅) in
  let '(r2, (w2, _)) := exec reldb_example (mkWalk Database_new [] [], m) in
  (r1, r2, wk_err w1, wk_err w2) = (Ret 0, Ret 0, [], []) /\
  wk_out w1 = unlines (map lit ["insert commit: OK"; "user 1 name = ada"]%string) /\
  wk_out w2 = unlines (map lit ["insert (maybe exists): InvalidArgument: duplicate primary key"; "user 1 name = ada"]%string).
Proof. vm_compute. repeat split; reflexivity. Qed.

Example sql_example_runs :
  let '(r, (d, _)) := exec (sql_example 20 (Some (lit "/tmp/x"))) (mkDemo (SqlSession_new Database_new) [] [], ∅) in
  r = Ret 0 /\ dm_err d = [] /\
  dm_out d = unlines (map lit
    ["db path: /tmp/x"; "== CREATE TABLE"; "  (empty)"; "== BEGIN"; "  (empty)"; "== INSERT ada  [plan: Insert]"; "  rows_affected=1";
     "== INSERT bob  [plan: Insert]"; "  rows_affected=1"; "== INSERT cy  [plan: Insert]"; "  rows_affected=1"; "== SELECT point  [plan: PkPointGet]";
     "  cols: id name score"; "  row: 1 ada 10"; "== SELECT filter+order  [plan: Sort<-Project<-Filter<-SeqScan]"; "  cols: name"; "  row: bob"; "  row: cy";
     "== COMMIT"; "  (empty)"; "== UPDATE (autocommit)  [plan: Update<-PkPointGet]"; "  rows_affected=1"; "== SELECT after update  [plan: Project<-PkPointGet]";
     "  cols: id name score"; "  row: 1 ada 99"; "== BEGIN (ddl gate)"; "  (empty)"; "== DDL inside txn (expected error)";
     "  InvalidArgument: DDL is not allowed inside a transaction"; "== ABORT"; "  (empty)"; "reldb_sql_example: ok"]%string).
Proof. vm_compute. repeat split; reflexivity. Qed.
